(* ===== verification/_CoqProject ===== *)
-Q . S2P
Prelude.v
Tensor.v
Layout.v
Workspace.v
HostArena.v
Bytes.v
PagedPool.v
PoolAccounting.v
PoolWorld.v
PoolTheorems.v
PagedCopy.v
PageTransfer.v
PageCopyTheorems.v
CyclicKV.v
Admission.v
Capacity.v
Codec.v
PrefixIdentity.v
PrefixTheorems.v
ContextReuse.v
CheckpointPool.v
CheckpointTheorems.v
CheckpointStreams.v
StreamTheorems.v
CheckpointWorld.v
RamFormat.v
RamTheorems.v
RamIndex.v
RamIndexTheorems.v
RamCapture.v
RamMatch.v
GenerationGuards.v
GuardTheorems.v
PrefillSchedule.v
Crc32c.v
CrcTheorems.v
DiskFormat.v
DiskFormatTheorems.v
DiskMap.v
DiskMapTheorems.v
DiskRecovery.v
DiskExtents.v
ExtentIndex.v
ExtentTheorems.v
PackWorld.v
PackRebuild.v
DiskPacks.v
ExecState.v
ExecCore.v
ExecPlanning.v
ExecRounds.v
ExecAdmit.v
ExecWorker.v
ExecDemo.v
ExecLogic.v
ExecKeeps.v
ExecNeutral.v
ExecComplete.v
ExecLanes.v
ExecGeneration.v
ExecDecode.v
ExecHolds.v
ExecChoice.v
ExecAdmission.v
ExecInterrupt.v
ExecPasses.v
ExecTheorems.v
Utf8.v
OutputSession.v
OutputDecoder.v
OutputStream.v
OutputRounds.v
OutputTheorems.v
TokenBpe.v
TokenMerge.v
TokenSplit.v
TokenAdded.v
TokenEncode.v
TokenLoad.v
TokenRound.v
