(* ===== verification/Prelude.v ===== *)
(** * NInfer: verification of the inference engine's host logic

    NInfer serves Qwen models from one GPU.  The kernels do the arithmetic; what
    keeps a long-running server correct is host code: who owns which page of the
    KV cache, where the bytes of a sequence live while it is swapped out, which
    cached prefix a prompt may reuse, and which waiting request may start.  This
    library models that code and proves what its callers rely on.

    ** The program's parts and the files that model them

    The paths are relative to the source directory [src].

    - [Tensor]: core/tensor.{h,cpp} and core/dtype.{h,cpp}.  Rank-4 views over
      device addresses with checked int64 sizes; [view], [slice], [permute].
    - [Layout]: core/layout.{h,cpp}.  [LayoutBuilder] plans disjoint regions,
      [bind] resolves them; [WorkspaceLayoutBuilder] is the dry run.
    - [Workspace]: [DeviceArena] of core/arena.{h,cu}.  The class [Workspace] is
      the interface allocation programs are written against; both the arena and
      the dry run are instances.
    - [HostArena]: [HostPinnedArena] of core/arena.{h,cu}, the first-fit
      allocator of the pinned region behind the RAM cache.
    - [Bytes]: little-endian images, and the class [Memory] of byte copies that
      stands for [cudaMemcpy*Async], [cudaMemset*] and [memcpy], with a concrete
      instance.
    - [PagedPool], [PoolAccounting], [PoolWorld], [PoolTheorems]:
      core/paged_kv_cache.{h,cpp}.  Pools, allocations and bundles as a state of
      pools, allocations and device memory; the accounting of one pool; the
      invariant of a whole state; the guarantees of the interface.
    - [PagedCopy], [PageTransfer], [PageCopyTheorems]: the transfers of
      core/paged_kv_cache.cpp between pages and host images, between
      allocations, and the zeroing of pages.
    - [CyclicKV]: core/cyclic_kv_cache.{h,cpp}, the fixed cache of the draft
      model's window.
    - [Admission]: runtime/engine/admission_policy.{h,cpp}.
    - [Capacity]: runtime/engine/kv_capacity.cpp, request_memory.cpp and
      runtime/generation/generation_budget.h.
    - [Codec]: the byte cursors of kv_ram_cache.cpp and prefix_identity.cpp.
    - [PrefixIdentity], [PrefixTheorems]:
      targets/qwen3_6/impl/runtime/prefix_identity.{h,cpp}.  Hash, identity,
      exact match, packed form and incremental hash cache.
    - [ContextReuse]: targets/qwen3_6/impl/runtime/context_checkpoint.h and the
      reuse decision of program_impl.h.  Which resident state of a lane a prompt continues.
    - [CheckpointPool], [CheckpointTheorems]: the ladder and rollback heads of a
      lane and the pool of images behind them, in context_checkpoint.h and
      program_impl.h.
    - [CheckpointStreams], [StreamTheorems], [CheckpointWorld]: the copies of
      the checkpoints on CUDA streams (program_impl.h, core/host_copy.h): the
      commands each handler enqueues, the discipline of fences they follow, and
      the invariant of a world of lanes, images and pending copies.
    - [RamFormat], [RamTheorems], [RamIndex], [RamIndexTheorems], [RamCapture],
      [RamMatch]: targets/qwen3_6/impl/runtime/kv_ram_cache.{h,cpp}.  The format
      of one cached entry, the table of entries as a state machine, the bytes a
      capture writes, and matching a prompt against the entries.
    - [GenerationGuards], [GuardTheorems]: the guards against repetitive
      generation of runtime/contract/reasoning_recovery.h and typical_cycle.h.
    - [PrefillSchedule]: prefill_schedule.h, vision_prefill.h and
      score_index.h.  How a prompt is cut into chunks.
    - [Crc32c], [CrcTheorems]: the checksum of kv_disk_cache.cpp in its software,
      hardware, three-way, combined and by-parts forms.
    - [DiskFormat], [DiskFormatTheorems]: kv_disk_format.h and the encoders and
      decoders of kv_disk_cache.cpp.
    - [DiskMap], [DiskMapTheorems], [DiskRecovery]: the object map of
      kv_disk_cache.cpp: its base and journal, loading it, appending to it, and
      its checkpoint as a sequence of writes that a crash can interrupt.
    - [DiskExtents], [ExtentIndex], [ExtentTheorems], [PackWorld], [PackRebuild],
      [DiskPacks]: the space of the pack files of kv_disk_cache.cpp.  The index of
      free extents, reservation, release, the target of a relocation, trimming a
      file's tail and the rebuild at start-up; the invariant of one kind of pack,
      of the whole store, and the transition system of the calls.
    - [ExecState], [ExecCore], [ExecPlanning], [ExecRounds], [ExecAdmit],
      [ExecWorker]: runtime/engine/concurrent_executor.h and the routing of
      impl/frontend/generation_recovery.cpp.  The state of the executor and the class
      [Instance] of everything it calls; submission, completion and expiry;
      planning and the choice of a lane; prefill steps, decode rounds and
      cancellation; recovery and the completion of an admission; the scan of the
      queue, interruption, failure and the worker's loop.  [ExecDemo] runs it.
    - [ExecLogic], [ExecKeeps], [ExecNeutral], [ExecComplete], [ExecLanes],
      [ExecGeneration], [ExecDecode], [ExecHolds], [ExecChoice], [ExecAdmission],
      [ExecInterrupt], [ExecPasses], [ExecTheorems]: its invariant, a program
      logic for its operations, one file per group of operations, and the
      guarantees of every reachable state.
    - [Utf8]: [consume_generated_utf8] of impl/frontend/frontend.cpp, against the
      substitution of maximal subparts that Unicode describes; and
      text/unicode.{h,cpp} over utf8proc.
    - [OutputSession]: the output session of frontend.cpp with the grammar state of
      token_grammar.cpp and the merging of stop policies.  [OutputDecoder],
      [OutputStream]: a decoder fed in pieces against a reading of the whole text.
      [OutputRounds]: the tool filter, rounds and the life of a session.
      [OutputTheorems]: its guarantees, and a session at work.
    - [TokenBpe], [TokenMerge], [TokenSplit], [TokenAdded], [TokenEncode],
      [TokenLoad], [TokenRound]: impl/frontend/tokenizer.{h,cpp}.  The table of merge
      pairs and the merging of a word; its reference; cutting text into words; the trie
      of added tokens and the search outside literal spans; encoding, prefix marks and
      decoding; the constructor; and the round trip of a text.

    How they interact: a prompt becomes tokens in [TokenEncode] and the tokens that
    come back become text in the [OutputSession] of the request, through the decode
    table of the same tokenizer.  The worker of [ExecWorker] is the only thread that schedules:
    it asks [Admission] which waiting request may take a lane, meters its output
    with the budget and its scratch memory with the lease of [Capacity], and calls the
    program for everything below.  There a plan made by [Layout] fixes the addresses of the pools
    of [PagedPool] and the lanes of [CyclicKV]; [Capacity] decides how many pages
    there are and [Admission] who may reserve them; a prompt first tries the
    state of its lane ([ContextReuse]), which [CheckpointWorld] can rewind to an
    earlier prefix, and is then computed in the chunks of [PrefillSchedule]; when
    a sequence leaves the GPU its pages are packed ([PagedCopy]) into the
    sections of an entry ([RamFormat], [RamCapture]) whose block comes from
    [HostArena] and whose lifetime is [RamIndex]; a later prompt finds it again
    by [PrefixIdentity] ([RamMatch]); and what the RAM cache spills is named by
    the files of [DiskFormat], gets its room from [DiskExtents], and is placed
    there durably by a record of [DiskMap].

    ** How the code is represented

    Exceptions are values: [res A] is a value or a thrown [exn], [st S A] threads
    a state and returns it also when it throws, so that error paths show which
    effects remain.  Integers are [Z] with the code's own checks and casts
    ([wrap32], [wrap64], [u32], [u64], [size_max] is the largest [size_t]).
    Pointers into an address space are addresses, null is [0].  Loops are
    structural recursions over the container they traverse; the loops over runs
    of pages take their length as fuel, which is enough because a run is never
    empty, and the transfer theorems prove the full result, not a conditional
    one.  Transition systems ([op]/[reach] in [PoolTheorems], [host_step] in
    [HostArena], [ram_exec]/[ram_reach] in [RamIndexTheorems], [cw_step]/[cw_reach]
    in [CheckpointWorld], [pack_step]/[pack_reach] in [DiskPacks], [exec_reach] in [ExecWorker])
    range over every public call, failing calls included.
    A crash is a prefix of the durable writes with the last one cut short
    ([crash_at] in [DiskMap]).

    The executor's worker is a state monad over its own state and an environment
    [Env].  The program, the output sessions, the caches and the clock are the
    operations of the class [Instance]: arbitrary functions of the environment that
    may throw wherever the C++ signature is not [noexcept], so a theorem holds for
    every behaviour of them.  Client threads act when the worker takes a lock:
    [lock] applies an arbitrary list of their critical sections ([client_step]),
    which is all the code's mutexes let them do to this state.  Identifiers,
    versions and epochs of 64 bits are counted without wrap-around.  The recursion
    through [admit_complete] and [finish_failed_restore] is unfolded to depth 2: a
    retried restore is marked stale and does not retry again.  [reclaim_victims]
    has fuel for one more iteration than there are lanes, and each iteration adds
    a lane.  The worker's loop is not cut: [worker_pass] is one iteration, and the
    theorems are about any number of them.  They assume [sessions_close]: closing
    an output session that has not ended does not throw, without which a cancelled
    request has no way to complete; [session_closes] in [OutputTheorems] shows it of the
    sessions of the frontend.

    Text is a list of bytes.  The preview of an output session is one optional value:
    the fields of the code mean something only while [preview_ready] holds.  A session
    uses the classes [Tokenizer] and [Matcher] (xgrammar) and the parser of one tool call,
    all arbitrary; [frontend_tokenizer] in [TokenEncode] is the tokenizer of the program.
    utf8proc is the classes [Utf8proc] and [Utf8procText]; what is assumed of it is named
    ([utf8proc_ascii], [iterates_inside], [utf8proc_inverse]).  The standard heap
    algorithms are the class [Heap] with its laws [HeapLaws].  The tokenizer's constructor
    takes the values of the JSON assets; its hash maps are association lists.  Loops over text have as much fuel as
    there are bytes; [text_loops_terminate] and [utf8_codepoints_tiles] show that it is
    enough.

    CUDA is a parameter: the memory operations obey the documented effect of
    in-order copies ([Memory]); an event is a handle and [ready] what
    [cudaEventQuery] answers, arbitrary in every theorem; block addresses come
    from the constructor's argument.  Where the order of copies matters
    ([CheckpointStreams]) a stream is a queue, events and waits are commands, and
    the documented happens-before relation between them decides what a copy may
    see.  The SSE4.2 CRC instructions are the class [Crc32Isa], specified by
    [Crc32IsaSpec] and instantiated by the bit-by-bit definition.

    ** What the theorems show

    - Pools: every reachable state is consistent; calls that throw change
      nothing; bundles are all or nothing; entitled pages always materialise;
      allocations are disjoint; device block tables equal the page lists;
      release gives everything back.
    - Transfers: a capture followed by a restore is the identity on every byte
      of every page and changes no other byte, however the copies are coalesced;
      the same for lanes of the cyclic cache, device copies, single pages and
      zeroing; image sizes are exact.
    - Arenas and layouts: planned regions are disjoint and bind; the dry run's
      peak is enough for the real run; the pinned allocator answers null only
      when no aligned run exists, and frees never need memory.
    - Policies: the protected request's frontier is minimal and kept by admitted
      backfills; bursts are bounded; automatic capacity is maximal.
    - Prefix identity: the incremental cache equals rehashing; equal prefixes
      hash equally; the longest match is exact; the packed form round-trips.
    - RAM cache: header and layout round-trip; the table, the arrival order and
      the arena agree in every reachable state; a block is freed only after its
      last reader; a capture is dropped only if no eviction could make room; a
      captured block reads back whole, and the longest reuse is found.
    - Checkpoints: the reuse decision is optimal; heads and images stay
      consistent, and the startup pool is large enough; no two copies race; a
      restore leaves the state of exactly the prefix it names.
    - Executor: under every interleaving and every failure of the program each
      submitted request is done, queued in order or on exactly one lane; an
      occupied lane has exactly one way to go on; the admission count is exact; no
      exception escapes the worker; and stopping completes every request in one
      pass.
    - Output: generated bytes decode to well-formed text however they are cut; what a
      session publishes is a function of the accepted tokens alone, equal to a
      reading of the whole text; stop strings cut it at the first occurrence;
      nothing but parsed calls, white space after them and an unfinished call is
      left out; a model stop is accepted exactly where the text may end; previews
      are undone by a discard, and a session can always be closed.
    - Tokenizer: the pair table finds exactly the merges; both ways to merge a word are
      byte-pair encoding; the words of a text tile it and the ASCII shortcut cuts the
      same ones; the search finds the leftmost added token outside the literal spans; a
      marked prefix encodes alone; and the tokens of a text decode to it.
    - Generation and prefill: the incremental repetition detector equals its
      specification; the chunk projection terminates and is a tiling.
    - Disk tier: every checksum path is CRC-32C and detects bursts; files
      round-trip; whatever loads as an object map is sound; an append cut at any
      byte recovers as its whole records; a checkpoint interrupted anywhere keeps
      the objects.  In every reachable state live, free and untouched bytes
      partition each pack; a reservation takes the smallest free extent that
      fits and fails only when none does; a reserved extent is one the loader
      accepts.

    ** Not modelled

    GPU kernels and launchers; the program that drives prefill and decode, and
    speculative decoding; of the executor its timings, statistics and log
    probabilities, [score], and the thread's start; of the disk tier the spill and
    restore threads, the payload records and their copying when a pack
    is relocated, eviction and the manifest (its calls into the RAM cache are
    transitions of [RamIndexTheorems.ram_op]), and the comparison of fingerprints,
    which compares floats; of the frontend the chat templates, the preparation of
    prompts and media, the history cache and the checks of JSON types in the
    tokenizer's assets; the artifact loader, and the HTTP server.  Of kv_ram_cache.cpp: copy timing and the
    destinations of [unpack_device], whose transfers are those of [PagedCopy] and
    [CyclicKV].  Reserving container capacity and [bad_alloc] from the host
    allocator are not modelled, except where the code reserves in order to make
    a later step infallible ([HostArena]). *)

From stdpp Require Import prelude list list_numbers sorting gmap.
From Stdlib Require Import ZArith Lia.
#[global] Set Default Goal Selector "!".
#[local] Open Scope Z_scope.

(** ** Exceptions and the two monads

    The C++ code reports failure by throwing.  [exn] has one constructor per
    exception class the modelled code throws; the text of [what()] is not part
    of the model.  [aborted] is [std::abort] and [std::terminate]; [undefined] is not an
    exception but undefined behaviour, where the code dereferences nothing.
    [RequestError] and [CacheRestoreFailure] carry their kind. *)
Inductive RequestErrorKind : Type :=
| CacheWriteConflict | InvalidToolSchema | InvalidOutputConstraint | ContextLengthExceeded
| MediaBudgetExceeded | Overloaded | QueueTimeout | Unavailable | RecoveryExhausted.

Inductive CacheRestoreFailureKind : Type := InvalidSource | StalePlan | DestinationUnavailable.

#[export] Instance RequestErrorKind_eq_dec : EqDecision RequestErrorKind.
Proof. solve_decision. Defined.
#[export] Instance CacheRestoreFailureKind_eq_dec : EqDecision CacheRestoreFailureKind.
Proof. solve_decision. Defined.

Inductive exn : Type :=
| invalid_argument
| out_of_range
| logic_error
| overflow_error
| bad_alloc
| runtime_error
| request_error (kind : RequestErrorKind)
| cache_restore_failure (kind : CacheRestoreFailureKind)
| aborted
| undefined.

#[export] Instance exn_eq_dec : EqDecision exn.
Proof. solve_decision. Defined.

(** A computation that returns a value or throws. *)
Inductive res (A : Type) : Type :=
| Ok (a : A)
| Throw (e : exn).
Arguments Ok {A} a.
Arguments Throw {A} e.

#[export] Instance res_eq_dec `{EqDecision A} : EqDecision (res A).
Proof. solve_decision. Defined.

#[export] Instance res_ret : MRet res := fun A a => Ok a.
#[export] Instance res_bind : MBind res :=
  fun A B k m => match m with Ok a => k a | Throw e => Throw e end.

(** [if (b) { throw e; }] *)
Definition throw_if (b : bool) (e : exn) : res unit := if b then Throw e else Ok tt.

(** A computation over a mutable state [S].  What was written before a [throw]
    stays written, as in C++. *)
Definition st (S A : Type) : Type := S -> res A * S.

#[export] Instance st_ret {S} : MRet (st S) := fun A a s => (Ok a, s).
#[export] Instance st_bind {S} : MBind (st S) :=
  fun A B k m s =>
    match m s with
    | (Ok a, s') => k a s'
    | (Throw e, s') => (Throw e, s')
    end.

Definition get {S} : st S S := fun s => (Ok s, s).
Definition put {S} (s : S) : st S unit := fun _ => (Ok tt, s).
Definition lift {S A} (r : res A) : st S A := fun s => (r, s).
Definition throw {S A} (e : exn) : st S A := fun s => (Throw e, s).
Definition st_throw_if {S} (b : bool) (e : exn) : st S unit := lift (throw_if b e).

(** [for (x : l) body(x)] *)
Fixpoint for_each {S A} (l : list A) (body : A -> st S unit) : st S unit :=
  match l with
  | [] => mret tt
  | x :: l => body x ;; for_each l body
  end.

(** The same loop over a pure accumulator. *)
Fixpoint res_foldl {A B} (f : B -> A -> res B) (l : list A) (b : B) : res B :=
  match l with
  | [] => Ok b
  | x :: l => b' ← f b x; res_foldl f l b'
  end.

Fixpoint res_mapM {A B} (f : A -> res B) (l : list A) : res (list B) :=
  match l with
  | [] => Ok []
  | x :: l => y ← f x; ys ← res_mapM f l; Ok (y :: ys)
  end.

Lemma st_bind_Ok {S A B} (m : st S A) (k : A -> st S B) s a s' :
  m s = (Ok a, s') -> (m ≫= k) s = k a s'.
Proof. intros H. unfold mbind, st_bind. by rewrite H. Qed.

Lemma st_bind_Throw {S A B} (m : st S A) (k : A -> st S B) s e s' :
  m s = (Throw e, s') -> (m ≫= k) s = (Throw e, s').
Proof. intros H. unfold mbind, st_bind. by rewrite H. Qed.

Lemma st_bind_inv {S A B} (m : st S A) (k : A -> st S B) s b s' :
  (m ≫= k) s = (Ok b, s') -> exists a s1, m s = (Ok a, s1) /\ k a s1 = (Ok b, s').
Proof. unfold mbind, st_bind. destruct (m s) as [[a|e] s1]; [eauto|done]. Qed.

Lemma lift_inv {S A} (r : res A) (s s' : S) a : lift r s = (Ok a, s') -> r = Ok a /\ s' = s.
Proof. unfold lift. by intros [= -> ->]. Qed.

Lemma throw_if_Ok b e u : throw_if b e = Ok u <-> b = false.
Proof. destruct b, u; simpl; split; congruence. Qed.

Lemma res_bind_Ok {A B} (m : res A) (k : A -> res B) b :
  (m ≫= k) = Ok b <-> exists a, m = Ok a /\ k a = Ok b.
Proof.
  destruct m; simpl; split.
  - eauto.
  - by intros (? & [= ->] & ?).
  - done.
  - by intros (? & ? & ?).
Qed.

Lemma res_mapM_Ok {A B} (f : A -> res B) l ys :
  res_mapM f l = Ok ys <-> Forall2 (fun x y => f x = Ok y) l ys.
Proof.
  revert ys. induction l as [|x l IH]; intros ys; simpl.
  - split; [intros [= <-]; constructor | by inversion 1].
  - rewrite res_bind_Ok. setoid_rewrite res_bind_Ok. split.
    + intros (y & Hy & ys' & Hys & [= <-]). constructor; [done|]. by apply IH.
    + inversion 1; subst. eexists; split; [done|].
      eexists; split; [by apply IH|done].
Qed.

(** Turns a hypothesis [m ≫= k = Ok b] (nested, with guards) into the facts of
    the successful path. *)
Ltac res_inv H :=
  lazymatch type of H with
  | mbind _ _ = Ok _ =>
      let a := fresh "a" in let H1 := fresh "H" in
      apply res_bind_Ok in H; destruct H as (a & H1 & H); cbv beta in H;
      try (apply throw_if_Ok in H1); res_inv H
  | _ => idtac
  end.

(** The same for [st]: the facts of a successful run, one state after another. *)
Ltac st_inv H :=
  lazymatch type of H with
  | mbind _ _ _ = (Ok _, _) =>
      let a := fresh "a" in let s := fresh "s" in let H1 := fresh "H" in
      apply st_bind_inv in H; destruct H as (a & s & H1 & H); cbv beta in H;
      try (apply lift_inv in H1; destruct H1 as [H1 ->]; try (apply throw_if_Ok in H1)); st_inv H
  | mret _ _ = _ => injection H as <- <-
  | _ => idtac
  end.

(** ** Machine integers

    A w-bit integer is a [Z] with its range as an explicit predicate; unsigned
    wrap-around is a [mod]. *)
Definition u32_max : Z := 2 ^ 32 - 1.
Definition i32_max : Z := 2 ^ 31 - 1.
Definition i64_max : Z := 2 ^ 63 - 1.
Definition i64_min : Z := - 2 ^ 63.
Definition size_max : Z := 2 ^ 64 - 1.
Definition u32 (x : Z) : Prop := 0 <= x <= u32_max.
Definition i32 (x : Z) : Prop := - 2 ^ 31 <= x <= i32_max.
Definition i64 (x : Z) : Prop := i64_min <= x <= i64_max.
Definition u64 (x : Z) : Prop := 0 <= x <= size_max.
Definition wrap32 (x : Z) : Z := x mod 2 ^ 32.
Definition wrap64 (x : Z) : Z := x mod 2 ^ 64.

#[export] Instance u32_dec x : Decision (u32 x).
Proof. unfold u32. apply _. Defined.
#[export] Instance i32_dec x : Decision (i32 x).
Proof. unfold i32. apply _. Defined.
#[export] Instance i64_dec x : Decision (i64 x).
Proof. unfold i64. apply _. Defined.
#[export] Instance u64_dec x : Decision (u64 x).
Proof. unfold u64. apply _. Defined.

Lemma wrap32_id x : u32 x -> wrap32 x = x.
Proof. unfold u32, u32_max, wrap32. intros. apply Z.mod_small. lia. Qed.

Lemma wrap64_id x : u64 x -> wrap64 x = x.
Proof. unfold u64, size_max, wrap64. intros. apply Z.mod_small. lia. Qed.

Lemma wrap64_range x : u64 (wrap64 x).
Proof.
  unfold u64, size_max, wrap64. pose proof (Z.mod_pos_bound x (2 ^ 64)). lia.
Qed.

Lemma wrap32_range x : u32 (wrap32 x).
Proof.
  unfold u32, u32_max, wrap32. pose proof (Z.mod_pos_bound x (2 ^ 32)). lia.
Qed.

Create HintDb width.
#[export] Hint Unfold u32 i32 i64 u64 u32_max i32_max i64_max i64_min size_max : width.
#[export] Hint Resolve wrap64_range wrap32_range : width.

(** [lia] with the width constants unfolded. *)
Ltac width_lia := autounfold with width in *; lia.

(** Boolean guards to propositions, one pass over context and goal. *)
Ltac guards :=
  repeat match goal with
  | H : _ && _ = true |- _ => apply andb_true_iff in H; destruct H
  | H : _ || _ = false |- _ => apply orb_false_iff in H; destruct H
  | H : negb _ = true |- _ => apply negb_true_iff in H
  | H : negb _ = false |- _ => apply negb_false_iff in H
  | H : (_ =? _) = true |- _ => apply Z.eqb_eq in H
  | H : (_ =? _) = false |- _ => apply Z.eqb_neq in H
  | H : (_ <? _) = true |- _ => apply Z.ltb_lt in H
  | H : (_ <? _) = false |- _ => apply Z.ltb_ge in H
  | H : (_ <=? _) = true |- _ => apply Z.leb_le in H
  | H : (_ <=? _) = false |- _ => apply Z.leb_gt in H
  end.

(** ** Powers of two and alignment

    [is_power_of_two] and [align_up] are spelled the same way in
    core/layout.cpp, core/arena.cu and runtime/engine/request_memory.cpp. *)
Definition is_power_of_two (value : Z) : bool :=
  negb (value =? 0) && (Z.land value (value - 1) =? 0).

(** [x & ~mask] *)
Definition clear_mask (x mask : Z) : Z := Z.ldiff x mask.

Lemma is_power_of_two_spec v :
  0 <= v -> is_power_of_two v = true <-> exists k, 0 <= k /\ v = 2 ^ k.
Proof.
  intros Hv. unfold is_power_of_two. rewrite andb_true_iff, negb_true_iff, Z.eqb_neq, Z.eqb_eq.
  split.
  - intros [Hnz Hland]. exists (Z.log2 v). split; [apply Z.log2_nonneg|].
    destruct (Z.log2_spec v ltac:(lia)) as [Hlo Hhi].
    destruct (decide (v = 2 ^ Z.log2 v)) as [|Hne]; [done|exfalso].
    assert (Z.log2 (v - 1) = Z.log2 v) as Hlog.
    { apply Z.log2_unique; [apply Z.log2_nonneg|]. lia. }
    assert (Z.testbit (Z.land v (v - 1)) (Z.log2 v) = true) as Hbit.
    { rewrite Z.land_spec, Z.bit_log2 by lia. rewrite <- Hlog, Z.bit_log2; [done|].
      assert (0 < 2 ^ Z.log2 v) by (apply Z.pow_pos_nonneg; [lia|apply Z.log2_nonneg]). lia. }
    by rewrite Hland, Z.bits_0 in Hbit.
  - intros (k & Hk & ->). split; [apply Z.pow_nonzero; lia|].
    replace (2 ^ k - 1) with (Z.ones k) by (rewrite Z.ones_equiv; lia).
    rewrite Z.land_ones by done. apply Z_mod_same_full.
Qed.

Lemma clear_mask_pow2 x k :
  0 <= k -> clear_mask x (2 ^ k - 1) = 2 ^ k * (x / 2 ^ k).
Proof.
  intros Hk. unfold clear_mask.
  replace (2 ^ k - 1) with (Z.ones k) by (rewrite Z.ones_equiv; lia).
  rewrite Z.ldiff_ones_r, Z.shiftl_mul_pow2, Z.shiftr_div_pow2 by done. lia.
Qed.

Lemma clear_mask_align v a :
  0 <= a -> is_power_of_two a = true ->
  let r := clear_mask (v + (a - 1)) (a - 1) in
  v <= r < v + a /\ r mod a = 0.
Proof.
  intros Ha Hp. apply is_power_of_two_spec in Hp as (k & Hk & ->); [|done].
  cbv zeta. rewrite clear_mask_pow2 by done.
  assert (0 < 2 ^ k) as Hpos by (apply Z.pow_pos_nonneg; lia).
  pose proof (Z.div_mod (v + (2 ^ k - 1)) (2 ^ k) ltac:(lia)) as Hdm.
  pose proof (Z.mod_pos_bound (v + (2 ^ k - 1)) (2 ^ k) Hpos).
  split; [nia|]. rewrite Z.mul_comm. apply Z.mod_mul. lia.
Qed.

Lemma is_power_of_two_pos a : 0 <= a -> is_power_of_two a = true -> 0 < a.
Proof.
  intros Ha [k [Hk ->]]%is_power_of_two_spec; [|done]. apply Z.pow_pos_nonneg; lia.
Qed.

(** ** Lists *)
Lemma sorted_lookup_lt {A} (R : relation A) l i j x y :
  StronglySorted R l -> l !! i = Some x -> l !! j = Some y -> (i < j)%nat -> R x y.
Proof.
  intros Hs. revert i j. induction Hs as [|a l Hl IH Ha]; intros [|i] [|j] Hi Hj Hlt; try done; try lia.
  - injection Hi as ->. rewrite Forall_lookup in Ha. eauto.
  - apply (IH i j); [done|done|lia].
Qed.

Lemma Forall_sublist {A} (P : A -> Prop) k l : Forall P l -> k `sublist_of` l -> Forall P k.
Proof. rewrite !Forall_forall. intros H Hk x Hx. apply H. by eapply elem_of_sublist. Qed.

Lemma sorted_sublist {A} (R : relation A) k l : k `sublist_of` l -> StronglySorted R l -> StronglySorted R k.
Proof.
  intros Hk. induction Hk as [|y k l Hk IH|y k l Hk IH]; intros Hs; [done| |].
  - apply StronglySorted_inv in Hs as [Hs Hf]. constructor; [by apply IH|]. by eapply Forall_sublist.
  - apply StronglySorted_inv in Hs as [Hs _]. by apply IH.
Qed.

Lemma sublist_lookup {A} (k l : list A) i x :
  k `sublist_of` l -> k !! i = Some x -> exists j, (i <= j)%nat /\ l !! j = Some x.
Proof.
  intros Hs. revert i. induction Hs as [|y k l Hs IH|y k l Hs IH]; intros i Hi; [done| |].
  - destruct i as [|i]; [exists O; done|]. destruct (IH i Hi) as (j & ? & ?). exists (S j). split; [lia|done].
  - destruct (IH i Hi) as (j & ? & ?). exists (S j). split; [lia|done].
Qed.

(** ** Sums *)
Definition sumZ (l : list Z) : Z := foldr Z.add 0 l.

Lemma sumZ_Permutation l k : l ≡ₚ k -> sumZ l = sumZ k.
Proof. induction 1; simpl; lia. Qed.

Lemma sum_cons {A} (f : A -> Z) x l : sumZ (f <$> x :: l) = f x + sumZ (f <$> l).
Proof. done. Qed.

Lemma sumZ_app l k : sumZ (l ++ k) = sumZ l + sumZ k.
Proof. induction l; simpl; lia. Qed.

Lemma sumZ_le {A} (f g : A -> Z) l :
  (forall x, x ∈ l -> f x <= g x) -> sumZ (f <$> l) <= sumZ (g <$> l).
Proof.
  induction l as [|x l IH]; intros H; [done|]. rewrite !sum_cons.
  specialize (H x (list_elem_of_here _ _)) as Hx.
  assert (forall y, y ∈ l -> f y <= g y) as Hl by (intros y Hy; apply H; by right). specialize (IH Hl). lia.
Qed.

(** Replacing one element changes the sum by the difference. *)
Lemma sumZ_insert {A} (f : A -> Z) l i x y :
  l !! i = Some x -> sumZ (f <$> <[i := y]> l) = sumZ (f <$> l) + f y - f x.
Proof.
  revert i. induction l as [|z l IH]; intros [|i] H; [done|done| |].
  - injection H as ->. change (<[0%nat := y]> (x :: l)) with (y :: l). rewrite !sum_cons. lia.
  - change (<[S i := y]> (z :: l)) with (z :: <[i := y]> l). rewrite !sum_cons, (IH _ H). lia.
Qed.
