(* ===== verification/Tensor.v ===== *)
(** * core/tensor.{h,cpp} and core/dtype.{h,cpp}

    Non-owning tensor views: rank-4 extents [ne], byte strides [nb], the
    construction checks, and the view operations [view], [slice], [permute].
    A device pointer is its address, [0] the null pointer. *)

From stdpp Require Import prelude list.
From Stdlib Require Import ZArith Lia.
From S2P Require Import Prelude.
#[local] Open Scope Z_scope.

Inductive DType : Type :=
| BF16 | FP32 | I32 | U8 | I64 | I8 | FP16 | FP8_E4M3FN.

#[export] Instance DType_eq_dec : EqDecision DType.
Proof. solve_decision. Defined.

Definition dtype_size (dtype : DType) : Z :=
  match dtype with
  | BF16 => 2
  | FP32 | I32 => 4
  | U8 => 1
  | I64 => 8
  | I8 => 1
  | FP16 => 2
  | FP8_E4M3FN => 1
  end.

(** [std::int32_t[4]] and [std::int64_t[4]] *)
Record vec4 : Type := Vec4 { v0 : Z; v1 : Z; v2 : Z; v3 : Z }.

#[export] Instance vec4_eq_dec : EqDecision vec4.
Proof. solve_decision. Defined.

Definition vget (v : vec4) (i : Z) : Z :=
  if i =? 0 then v0 v else if i =? 1 then v1 v else if i =? 2 then v2 v else v3 v.

Definition vset (v : vec4) (i : Z) (x : Z) : vec4 :=
  if i =? 0 then Vec4 x (v1 v) (v2 v) (v3 v)
  else if i =? 1 then Vec4 (v0 v) x (v2 v) (v3 v)
  else if i =? 2 then Vec4 (v0 v) (v1 v) x (v3 v)
  else Vec4 (v0 v) (v1 v) (v2 v) x.

Record Tensor : Type := MkTensor {
  data : Z;
  dtype : DType;
  ne : vec4;
  nb : vec4;
}.

#[export] Instance Tensor_eq_dec : EqDecision Tensor.
Proof. solve_decision. Defined.

Definition checked_mul_i64 (a b : Z) : res Z :=
  throw_if ((a <? 0) || (b <? 0)) invalid_argument ;;
  throw_if (negb (b =? 0) && (i64_max / b <? a)) overflow_error ;;
  Ok (a * b).

(** The loop stores dimension [i] of the initializer list into [out[i]]. *)
Fixpoint normalize_dims (shape : list Z) (i : Z) (out : vec4) : res vec4 :=
  match shape with
  | [] => Ok out
  | dim :: shape =>
      throw_if (dim <=? 0) invalid_argument ;;
      normalize_dims shape (i + 1) (vset out i dim)
  end.

Definition normalize_shape (shape : list Z) : res vec4 :=
  throw_if ((length shape =? 0)%nat || (4 <? length shape)%nat) invalid_argument ;;
  normalize_dims shape 0 (Vec4 1 1 1 1).

Definition numel_step (total dim : Z) : res Z :=
  throw_if (dim <=? 0) invalid_argument ;; checked_mul_i64 total dim.

Definition shape_numel (shape : vec4) : res Z :=
  res_foldl numel_step [v0 shape; v1 shape; v2 shape; v3 shape] 1.

Definition contiguous_strides (dtype : DType) (ne : vec4) : res vec4 :=
  let s0 := dtype_size dtype in
  s1 ← checked_mul_i64 s0 (v0 ne);
  s2 ← checked_mul_i64 s1 (v1 ne);
  s3 ← checked_mul_i64 s2 (v2 ne);
  Ok (Vec4 s0 s1 s2 s3).

(** The constructor [Tensor(data, dtype, shape)]. *)
Definition make_tensor (data : Z) (dtype : DType) (shape : list Z) : res Tensor :=
  ne ← normalize_shape shape;
  nb ← contiguous_strides dtype ne;
  Ok (MkTensor data dtype ne nb).

Definition numel (t : Tensor) : res Z := shape_numel (ne t).

Definition bytes (t : Tensor) : res Z :=
  elements ← numel t;
  let elem_size := dtype_size (dtype t) in
  throw_if ((elements <? 0) || (size_max <? elements)) overflow_error ;;
  throw_if (negb (elem_size =? 0) && (size_max / elem_size <? elements)) overflow_error ;;
  Ok (elements * elem_size).

(** One iteration of the loop of [is_contiguous]: [None] is [return false];
    an [overflow_error] of the multiplication is caught there. *)
Definition contiguous_step (t : Tensor) (i : Z) (expected : Z) : res (option Z) :=
  if vget (ne t) i <=? 0 then Ok None
  else if negb (vget (ne t) i =? 1) && negb (vget (nb t) i =? expected) then Ok None
  else if (i <? 3) && negb (vget (ne t) i =? 1) then
    match checked_mul_i64 expected (vget (ne t) i) with
    | Ok e => Ok (Some e)
    | Throw overflow_error => Ok None
    | Throw e => Throw e
    end
  else Ok (Some expected).

Fixpoint contiguous_loop (t : Tensor) (dims : list Z) (expected : Z) : res bool :=
  match dims with
  | [] => Ok true
  | i :: dims =>
      r ← contiguous_step t i expected;
      match r with None => Ok false | Some e => contiguous_loop t dims e end
  end.

Definition is_contiguous (t : Tensor) : res bool :=
  contiguous_loop t [0; 1; 2; 3] (dtype_size (dtype t)).

Definition view (t : Tensor) (shape : list Z) : res Tensor :=
  c ← is_contiguous t;
  throw_if (negb c) invalid_argument ;;
  normalized ← normalize_shape shape;
  n ← shape_numel normalized;
  m ← numel t;
  throw_if (negb (n =? m)) invalid_argument ;;
  make_tensor (data t) (dtype t) shape.

Definition reshape (t : Tensor) (shape : list Z) : res Tensor := view t shape.

Definition slice (t : Tensor) (dim start len : Z) : res Tensor :=
  throw_if ((dim <? 0) || (4 <=? dim)) invalid_argument ;;
  throw_if ((start <? 0) || (len <=? 0) || (vget (ne t) dim <? start)
            || (vget (ne t) dim - start <? len)) invalid_argument ;;
  offset ← checked_mul_i64 start (vget (nb t) dim);
  Ok (MkTensor (if data t =? 0 then 0 else data t + offset) (dtype t)
               (vset (ne t) dim len) (nb t)).

(** The duplicate check of [permute], with the [seen] array as a list. *)
Fixpoint check_permutation (order : list Z) (seen : list Z) : res unit :=
  match order with
  | [] => Ok tt
  | dim :: order =>
      throw_if ((dim <? 0) || (4 <=? dim) || bool_decide (dim ∈ seen)) invalid_argument ;;
      check_permutation order (dim :: seen)
  end.

Definition permute (t : Tensor) (order : list Z) : res Tensor :=
  throw_if (negb (length order =? 4)%nat) invalid_argument ;;
  check_permutation order [] ;;
  let pick (v : vec4) :=
    Vec4 (vget v (nth 0 order 0)) (vget v (nth 1 order 0))
         (vget v (nth 2 order 0)) (vget v (nth 3 order 0)) in
  Ok (MkTensor (data t) (dtype t) (pick (ne t)) (pick (nb t))).

(** ** Well-formed tensors and element addresses *)

(** The strides a contiguous tensor of extents [e] has. *)
Definition packed (d : DType) (e : vec4) : vec4 :=
  Vec4 (dtype_size d) (dtype_size d * v0 e) (dtype_size d * v0 e * v1 e)
       (dtype_size d * v0 e * v1 e * v2 e).

Definition positive (e : vec4) : Prop := 0 < v0 e /\ 0 < v1 e /\ 0 < v2 e /\ 0 < v3 e.
Definition volume (e : vec4) : Z := v0 e * v1 e * v2 e * v3 e.

(** The byte address of element [i]. *)
Definition address (t : Tensor) (i : vec4) : Z :=
  data t + (v0 i * v0 (nb t) + v1 i * v1 (nb t) + v2 i * v2 (nb t) + v3 i * v3 (nb t)).

Definition in_range (e i : vec4) : Prop :=
  0 <= v0 i < v0 e /\ 0 <= v1 i < v1 e /\ 0 <= v2 i < v2 e /\ 0 <= v3 i < v3 e.

Lemma dtype_size_pos d : 1 <= dtype_size d <= 8.
Proof. destruct d; simpl; lia. Qed.

Lemma checked_mul_i64_Ok a b c :
  checked_mul_i64 a b = Ok c <-> 0 <= a /\ 0 <= b /\ c = a * b /\ a * b <= i64_max.
Proof.
  unfold checked_mul_i64. split.
  - intros H. res_inv H. injection H as <-. guards. repeat split; [done..|].
    destruct (decide (b = 0)) as [->|Hb]; [width_lia|].
    rewrite (proj2 (Z.eqb_neq b 0) Hb) in *. simpl in *. guards.
    pose proof (Z.mul_div_le i64_max b ltac:(lia)). nia.
  - intros (Ha & Hb & -> & Hle).
    replace ((a <? 0) || (b <? 0)) with false by lia. simpl.
    destruct (Z.eqb_spec b 0) as [->|]; simpl; [done|].
    assert (a <= i64_max / b) as Hd by (apply Z.div_le_lower_bound; lia).
    replace (i64_max / b <? a) with false by lia. done.
Qed.

Lemma normalize_shape_positive shape e :
  normalize_shape shape = Ok e -> positive e.
Proof.
  unfold normalize_shape. intros H. res_inv H.
  destruct shape as [|d0 [|d1 [|d2 [|d3 [|? ?]]]]]; simpl in *; try done;
    unfold throw_if in H;
    repeat match type of H with
    | context [if ?x <=? 0 then _ else _] => destruct (Z.leb_spec x 0); simpl in H; [done|]
    end; injection H as <-; unfold positive, vset; simpl; lia.
Qed.

Lemma shape_numel_Ok e n :
  shape_numel e = Ok n <->
  positive e /\ n = volume e /\ v0 e <= i64_max /\ v0 e * v1 e <= i64_max /\
  v0 e * v1 e * v2 e <= i64_max /\ volume e <= i64_max.
Proof.
  unfold shape_numel, positive, volume, numel_step. simpl. split.
  - intros H. res_inv H. repeat match goal with
    | H : (_ ≫= _) = Ok _ |- _ => res_inv H
    | H : checked_mul_i64 _ _ = Ok _ |- _ => apply checked_mul_i64_Ok in H
    end. guards. injection H as <-. destruct_and!. subst. rewrite !Z.mul_1_l in *.
    repeat split; lia.
  - intros ((H0 & H1 & H2 & H3) & -> & L0 & L1 & L2 & L3).
    repeat match goal with |- context [?x <=? 0] => replace (x <=? 0) with false by lia end.
    simpl.
    rewrite (proj2 (checked_mul_i64_Ok 1 (v0 e) (v0 e))) by (repeat split; lia). simpl.
    rewrite (proj2 (checked_mul_i64_Ok (v0 e) (v1 e) (v0 e * v1 e))) by (repeat split; lia). simpl.
    rewrite (proj2 (checked_mul_i64_Ok (v0 e * v1 e) (v2 e) _)) by (repeat split; nia). simpl.
    rewrite (proj2 (checked_mul_i64_Ok (v0 e * v1 e * v2 e) (v3 e) _)) by (repeat split; nia).
    done.
Qed.

Lemma contiguous_strides_Ok d e s :
  positive e ->
  contiguous_strides d e = Ok s <->
  s = packed d e /\ v1 s <= i64_max /\ v2 s <= i64_max /\ v3 s <= i64_max.
Proof.
  intros (H0 & H1 & H2 & H3). unfold contiguous_strides, packed.
  pose proof (dtype_size_pos d) as Hd. split.
  - intros H. res_inv H. injection H as <-. simpl.
    repeat match goal with H : checked_mul_i64 _ _ = Ok _ |- _ =>
      apply checked_mul_i64_Ok in H; destruct_and! H; subst end.
    repeat split; lia.
  - intros (-> & L1 & L2 & L3). simpl in *.
    rewrite (proj2 (checked_mul_i64_Ok (dtype_size d) (v0 e) _)) by (repeat split; lia). simpl.
    rewrite (proj2 (checked_mul_i64_Ok (dtype_size d * v0 e) (v1 e) _)) by (repeat split; nia). simpl.
    rewrite (proj2 (checked_mul_i64_Ok (dtype_size d * v0 e * v1 e) (v2 e) _))
      by (repeat split; nia). done.
Qed.

Lemma make_tensor_Ok p d shape t :
  make_tensor p d shape = Ok t ->
  normalize_shape shape = Ok (ne t) /\ positive (ne t) /\ data t = p /\ dtype t = d /\
  nb t = packed d (ne t) /\ v1 (nb t) <= i64_max /\ v2 (nb t) <= i64_max /\
  v3 (nb t) <= i64_max.
Proof.
  unfold make_tensor. intros H. res_inv H. injection H as <-. simpl.
  assert (positive a) as Hp by eauto using normalize_shape_positive.
  apply contiguous_strides_Ok in H1; [|done]. destruct_and! H1. done.
Qed.

(** The position of element [i] in memory order. *)
Definition linear (e i : vec4) : Z :=
  v0 i + v0 e * (v1 i + v1 e * (v2 i + v2 e * v3 i)).

Lemma linear_bounds e i :
  positive e -> in_range e i -> 0 <= linear e i < volume e.
Proof.
  intros (P0 & P1 & P2 & P3) (H0 & H1 & H2 & H3). unfold linear, volume.
  set (x := v2 i + v2 e * v3 i). assert (0 <= x < v2 e * v3 e) by (subst x; nia).
  set (y := v1 i + v1 e * x). assert (0 <= y < v1 e * (v2 e * v3 e)) by (subst y; nia).
  nia.
Qed.

Lemma mixed_radix_inj b x y i j :
  0 <= i < b -> 0 <= j < b -> i + b * x = j + b * y -> i = j /\ x = y.
Proof. intros. assert (x = y) by nia. nia. Qed.

Lemma linear_inj e i j :
  in_range e i -> in_range e j -> linear e i = linear e j -> i = j.
Proof.
  destruct i as [i0 i1 i2 i3], j as [j0 j1 j2 j3]. unfold in_range, linear; simpl.
  intros (?&?&?&?) (?&?&?&?) Heq.
  apply mixed_radix_inj in Heq as [-> Heq]; [|done..].
  apply mixed_radix_inj in Heq as [-> Heq]; [|done..].
  by apply mixed_radix_inj in Heq as [-> ->].
Qed.

(** One iteration of [is_contiguous]: a dimension of extent one is skipped, any
    other has exactly the expected stride. *)
Lemma contiguous_step_Ok t i expected x :
  contiguous_step t i expected = Ok (Some x) <->
  0 < vget (ne t) i /\ (vget (ne t) i <> 1 -> vget (nb t) i = expected) /\
  ((i < 3 /\ vget (ne t) i <> 1) /\ checked_mul_i64 expected (vget (ne t) i) = Ok x \/
   (3 <= i \/ vget (ne t) i = 1) /\ x = expected).
Proof.
  unfold contiguous_step.
  destruct (Z.leb_spec (vget (ne t) i) 0); [split; [done|lia]|].
  destruct (Z.eqb_spec (vget (ne t) i) 1); simpl.
  { rewrite andb_false_r. split; [intros [= <-]|]; intuition (congruence || lia). }
  destruct (Z.eqb_spec (vget (nb t) i) expected); simpl; [|split; [done|intuition congruence]].
  rewrite andb_true_r. destruct (Z.ltb_spec i 3).
  - destruct (checked_mul_i64 _ _) as [y|[]]; split; intros Hx;
      try (injection Hx as <-); intuition (congruence || lia).
  - split; [intros [= <-]|]; intuition (congruence || lia).
Qed.

Lemma contiguous_loop_cons t i dims x :
  contiguous_loop t (i :: dims) x = Ok true <->
  exists y, contiguous_step t i x = Ok (Some y) /\ contiguous_loop t dims y = Ok true.
Proof.
  simpl. rewrite res_bind_Ok. split.
  - intros ([y|] & H1 & H2); [by exists y|done].
  - intros (y & -> & H). by exists (Some y).
Qed.
#[local] Arguments contiguous_loop : simpl never.

(** In a contiguous tensor element [i] is [linear i] elements past the base. *)
Lemma is_contiguous_address t i :
  is_contiguous t = Ok true -> in_range (ne t) i ->
  address t i = data t + dtype_size (dtype t) * linear (ne t) i /\ positive (ne t).
Proof.
  unfold is_contiguous. rewrite !contiguous_loop_cons.
  intros (y0 & H0 & H). rewrite contiguous_loop_cons in H. destruct H as (y1 & H1 & H).
  rewrite contiguous_loop_cons in H. destruct H as (y2 & H2 & H).
  rewrite contiguous_loop_cons in H. destruct H as (y3 & H3 & _).
  apply contiguous_step_Ok in H0, H1, H2, H3. unfold vget in *. simpl in *.
  destruct H0 as (P0 & S0 & E0), H1 as (P1 & S1 & E1), H2 as (P2 & S2 & E2),
    H3 as (P3 & S3 & _).
  assert (y0 = dtype_size (dtype t) * v0 (ne t)) as ->.
  { destruct E0 as [[? (?&?&->&?)%checked_mul_i64_Ok]|[? ->]]; lia. }
  assert (y1 = dtype_size (dtype t) * v0 (ne t) * v1 (ne t)) as ->.
  { destruct E1 as [[? (?&?&->&?)%checked_mul_i64_Ok]|[? ->]]; nia. }
  assert (y2 = dtype_size (dtype t) * v0 (ne t) * v1 (ne t) * v2 (ne t)) as ->.
  { destruct E2 as [[? (?&?&->&?)%checked_mul_i64_Ok]|[? ->]]; nia. }
  intros (R0 & R1 & R2 & R3). split; [|done]. unfold address, linear.
  assert (forall x n s r, 0 <= x < n -> (n <> 1 -> s = r) -> x * s = x * r) as Hd.
  { intros x n s r Hx Hs. destruct (decide (n = 1)); [assert (x = 0) as -> by lia; lia|].
    by rewrite Hs. }
  rewrite (Hd _ _ _ _ R0 S0), (Hd _ _ _ _ R1 S1), (Hd _ _ _ _ R2 S2), (Hd _ _ _ _ R3 S3).
  ring.
Qed.

Lemma make_tensor_contiguous p d shape t :
  make_tensor p d shape = Ok t -> is_contiguous t = Ok true.
Proof.
  intros (_ & Hp & _ & Hd & Hnb & L1 & L2 & L3)%make_tensor_Ok.
  pose proof (dtype_size_pos d). destruct Hp as (P0 & P1 & P2 & P3).
  unfold is_contiguous. rewrite Hd. rewrite Hnb in L1, L2, L3. unfold packed in *. simpl in L1, L2, L3.
  rewrite contiguous_loop_cons. exists (v1 (packed d (ne t))).
  rewrite contiguous_step_Ok, Hnb. unfold vget, packed; simpl. split.
  { split_and!; [done|done|]. destruct (decide (v0 (ne t) = 1)) as [->|]; [right; lia|left].
    rewrite checked_mul_i64_Ok. lia. }
  rewrite contiguous_loop_cons. exists (v2 (packed d (ne t))).
  rewrite contiguous_step_Ok, Hnb. unfold vget, packed; simpl. split.
  { split_and!; [done|done|]. destruct (decide (v1 (ne t) = 1)) as [->|]; [right; lia|left].
    rewrite checked_mul_i64_Ok. nia. }
  rewrite contiguous_loop_cons. exists (v3 (packed d (ne t))).
  rewrite contiguous_step_Ok, Hnb. unfold vget, packed; simpl. split.
  { split_and!; [done|done|]. destruct (decide (v2 (ne t) = 1)) as [->|]; [right; lia|left].
    rewrite checked_mul_i64_Ok. nia. }
  rewrite contiguous_loop_cons. exists (v3 (packed d (ne t))).
  rewrite contiguous_step_Ok, Hnb. unfold vget, packed; simpl. split; [|done].
  split_and!; [done|done|]. right. lia.
Qed.

Lemma bytes_Ok t n :
  bytes t = Ok n ->
  n = volume (ne t) * dtype_size (dtype t) /\ positive (ne t) /\ 0 < n <= size_max.
Proof.
  unfold bytes, numel. intros H. res_inv H. injection H as <-.
  apply shape_numel_Ok in H0 as (Hp & -> & _). split_and!; [done..| |].
  - destruct Hp as (?&?&?&?). unfold volume. pose proof (dtype_size_pos (dtype t)). nia.
  - guards. pose proof (dtype_size_pos (dtype t)) as Hd.
    replace (dtype_size (dtype t) =? 0) with false in * by lia. simpl in *. guards.
    pose proof (Z.mul_div_le size_max (dtype_size (dtype t)) ltac:(lia)). nia.
Qed.

(** A tensor whose constructor and [bytes()] succeed: every element lies inside
    [[data, data + bytes)] and distinct elements do not overlap. *)
Theorem tensor_elements_in_bounds p d shape t n i :
  make_tensor p d shape = Ok t -> bytes t = Ok n -> in_range (ne t) i ->
  p <= address t i /\ address t i + dtype_size d <= p + n /\
  forall j, in_range (ne t) j -> i <> j ->
    address t i + dtype_size d <= address t j \/ address t j + dtype_size d <= address t i.
Proof.
  intros Ht Hn Hi. pose proof (make_tensor_contiguous _ _ _ _ Ht) as Hc.
  apply make_tensor_Ok in Ht as (_ & Hp & <- & <- & _).
  apply bytes_Ok in Hn as (-> & _ & _).
  destruct (is_contiguous_address _ _ Hc Hi) as [-> _].
  pose proof (linear_bounds _ _ Hp Hi). pose proof (dtype_size_pos (dtype t)).
  split; [nia|]. split; [nia|].
  intros j Hj Hne. destruct (is_contiguous_address _ _ Hc Hj) as [-> _].
  assert (linear (ne t) i <> linear (ne t) j) by eauto using linear_inj. nia.
Qed.

Lemma vset_range e dim len i :
  0 <= dim < 4 -> in_range (vset e dim len) i ->
  forall s, 0 <= s -> s + len <= vget e dim -> in_range e (vset i dim (vget i dim + s)).
Proof.
  intros Hd (R0 & R1 & R2 & R3) s Hs Hl.
  assert (dim = 0 \/ dim = 1 \/ dim = 2 \/ dim = 3) as [->|[->|[->| ->]]] by lia;
    unfold in_range, vset, vget in *; simpl in *; lia.
Qed.

(** [slice] narrows one dimension: element [i] of the slice is element
    [i + start] of the source, which is in range there. *)
Theorem slice_elements t dim start len t' i :
  slice t dim start len = Ok t' -> data t <> 0 -> in_range (ne t') i ->
  let j := vset i dim (vget i dim + start) in
  in_range (ne t) j /\ address t' i = address t j /\ vget (ne t') dim = len.
Proof.
  unfold slice. intros H Hnz Hi. res_inv H. injection H as <-. simpl in *.
  apply checked_mul_i64_Ok in H2 as (_ & _ & -> & _). guards.
  rewrite (proj2 (Z.eqb_neq _ _) Hnz). unfold address at 1. simpl. split_and!.
  - eapply vset_range; [lia|done|lia|lia].
  - assert (dim = 0 \/ dim = 1 \/ dim = 2 \/ dim = 3) as [->|[->|[->| ->]]] by lia;
      unfold address, vset, vget in *; simpl in *; lia.
  - assert (dim = 0 \/ dim = 1 \/ dim = 2 \/ dim = 3) as [->|[->|[->| ->]]] by lia; done.
Qed.

(** [view] keeps the storage: both tensors enumerate the same addresses in
    memory order. *)
Theorem view_same_elements t shape t' i j :
  view t shape = Ok t' -> in_range (ne t) i -> in_range (ne t') j ->
  volume (ne t') = volume (ne t) /\
  (address t i = address t' j <-> linear (ne t) i = linear (ne t') j).
Proof.
  unfold view. intros H Hi Hj. res_inv H. guards. destruct a; [|done].
  pose proof (make_tensor_contiguous _ _ _ _ H) as Hc.
  apply make_tensor_Ok in H as (Hn & _ & Hdata & Hd & _).
  rewrite H2 in Hn. injection Hn as ->. subst.
  unfold numel in *. apply shape_numel_Ok in H3, H4. destruct_and! H3. destruct_and! H4.
  split; [lia|].
  destruct (is_contiguous_address _ _ H0 Hi) as [-> _].
  destruct (is_contiguous_address _ _ Hc Hj) as [-> _].
  rewrite Hdata, Hd. pose proof (dtype_size_pos (dtype t)). nia.
Qed.

(** ** Witnesses *)
Definition demo_tensor (shape : list Z) : Tensor :=
  match make_tensor 4096 BF16 shape with
  | Ok t => t
  | Throw _ => MkTensor 0 BF16 (Vec4 0 0 0 0) (Vec4 0 0 0 0)
  end.

Lemma tensor_elements_in_bounds_witness :
  4096 <= address (demo_tensor [3; 2]) (Vec4 2 1 0 0) /\
  address (demo_tensor [3; 2]) (Vec4 2 1 0 0) + 2 <= 4096 + 12.
Proof.
  destruct (tensor_elements_in_bounds 4096 BF16 [3; 2] (demo_tensor [3; 2]) 12 (Vec4 2 1 0 0))
    as (H1 & H2 & _).
  - vm_compute. reflexivity.
  - vm_compute. reflexivity.
  - vm_compute. intuition congruence.
  - exact (conj H1 H2).
Defined.

Lemma slice_elements_witness :
  exists t', slice (demo_tensor [3; 4]) 1 1 2 = Ok t' /\
    address t' (Vec4 2 1 0 0) = address (demo_tensor [3; 4]) (Vec4 2 2 0 0).
Proof.
  eexists. split; [vm_compute; reflexivity|].
  apply (slice_elements (demo_tensor [3; 4]) 1 1 2).
  - vm_compute. reflexivity.
  - vm_compute. congruence.
  - vm_compute. intuition congruence.
Defined.

Lemma view_same_elements_witness :
  exists t', view (demo_tensor [3; 4]) [6; 2] = Ok t' /\ volume (ne t') = volume (ne (demo_tensor [3; 4])).
Proof.
  eexists. split; [vm_compute; reflexivity|].
  apply (view_same_elements (demo_tensor [3; 4]) [6; 2] _ (Vec4 0 0 0 0) (Vec4 0 0 0 0)).
  - vm_compute. reflexivity.
  - vm_compute. intuition congruence.
  - vm_compute. intuition congruence.
Defined.
