(* ===== verification/Layout.v ===== *)
(** * core/layout.{h,cpp}

    Offset planning: [LayoutBuilder] hands out aligned, disjoint byte regions of
    a backing allocation that does not exist yet; [LayoutRegion::bind] and
    [TensorRegion::bind] resolve them against the real one.
    [WorkspaceLayoutBuilder] is the dry run of the workspace arena; the
    refinement between the two is proved in [Workspace]. *)

From stdpp Require Import prelude list.
From Stdlib Require Import ZArith Lia.
From S2P Require Import Prelude.
From S2P Require Import Tensor.
#[local] Open Scope Z_scope.

(** [struct DeviceSpan] of core/arena.h *)
Record DeviceSpan : Type := MkSpan { span_data : Z; span_bytes : Z }.

Record LayoutRegion : Type := MkRegion {
  offset : Z;
  region_bytes : Z;
  alignment : Z;
}.

Record TensorRegion : Type := MkTensorRegion {
  region : LayoutRegion;
  region_dtype : DType;
  region_shape : vec4;
}.

Definition checked_add (a b : Z) : res Z :=
  throw_if (size_max - a <? b) overflow_error ;; Ok (a + b).

Definition align_up (value alignment : Z) : res Z :=
  throw_if (negb (is_power_of_two alignment)) invalid_argument ;;
  let mask := alignment - 1 in
  s ← checked_add value mask;
  Ok (clear_mask s mask).

(** [LayoutRegion::bind] *)
Definition LayoutRegion_bind (r : LayoutRegion) (backing : DeviceSpan) : res DeviceSpan :=
  throw_if (span_data backing =? 0) invalid_argument ;;
  throw_if (negb (is_power_of_two (alignment r))) logic_error ;;
  let base := span_data backing in
  throw_if (negb (wrap64 (base + offset r) mod alignment r =? 0)) invalid_argument ;;
  throw_if ((span_bytes backing <? offset r)
            || (span_bytes backing - offset r <? region_bytes r)) out_of_range ;;
  Ok (MkSpan (span_data backing + offset r) (region_bytes r)).

(** [TensorRegion::bind] *)
Definition TensorRegion_bind (r : TensorRegion) (backing : DeviceSpan) : res Tensor :=
  let shape := [v0 (region_shape r); v1 (region_shape r); v2 (region_shape r); v3 (region_shape r)] in
  expected ← make_tensor 0 (region_dtype r) shape;
  n ← bytes expected;
  throw_if (negb (n =? region_bytes (region r))) logic_error ;;
  s ← LayoutRegion_bind (region r) backing;
  make_tensor (span_data s) (region_dtype r) shape.

(** ** LayoutBuilder *)
Record LayoutBuilder : Type := MkBuilder { cursor : Z; peak : Z }.

Definition new_builder : LayoutBuilder := MkBuilder 0 0.

(** [cursor_ = c; if (cursor_ > peak_) { peak_ = cursor_; }] *)
Definition advance (b : LayoutBuilder) (c : Z) : LayoutBuilder :=
  MkBuilder c (if peak b <? c then c else peak b).

(** [LayoutBuilder::add] *)
Definition LayoutBuilder_add (n align : Z) : st LayoutBuilder LayoutRegion :=
  st_throw_if (n =? 0) invalid_argument ;;
  b ← get;
  off ← lift (align_up (cursor b) align);
  c ← lift (checked_add off n);
  put (advance b c) ;;
  mret (MkRegion off n align).

(** [std::copy(shape.begin(), shape.end(), out.shape.begin())] over [{1,1,1,1}] *)
Definition copy_shape (shape : list Z) : vec4 :=
  Vec4 (nth 0 shape 1) (nth 1 shape 1) (nth 2 shape 1) (nth 3 shape 1).

(** [LayoutBuilder::add_tensor] *)
Definition LayoutBuilder_add_tensor (d : DType) (shape : list Z) (align : Z)
    : st LayoutBuilder TensorRegion :=
  t ← lift (make_tensor 0 d shape);
  n ← lift (bytes t);
  r ← LayoutBuilder_add n align;
  mret (MkTensorRegion r d (copy_shape shape)).

(** [LayoutBuilder::finish] *)
Definition LayoutBuilder_finish (b : LayoutBuilder) (align : Z) : res Z :=
  align_up (peak b) align.

(** [LayoutBuilder::Scope]: the destructor puts the cursor back. *)
Definition LayoutBuilder_scope {A} (body : st LayoutBuilder A) : st LayoutBuilder A :=
  fun b =>
    let saved := cursor b in
    let '(r, b') := body b in (r, MkBuilder saved (peak b')).

(** ** WorkspaceLayoutBuilder

    The two assignments to [cursor_] are separate: an overflow in the second
    leaves the aligned cursor behind. *)
Definition WorkspaceLayoutBuilder_take (n align : Z) : st LayoutBuilder unit :=
  b ← get;
  c ← lift (align_up (cursor b) align);
  put (MkBuilder c (peak b)) ;;
  e ← lift (checked_add c n);
  put (advance (MkBuilder c (peak b)) e).

(** [WorkspaceLayoutBuilder::alloc] *)
Definition WorkspaceLayoutBuilder_alloc (d : DType) (shape : list Z) (align : Z)
    : st LayoutBuilder Tensor :=
  t ← lift (make_tensor 0 d shape);
  b ← get;
  c ← lift (align_up (cursor b) align);
  put (MkBuilder c (peak b)) ;;
  n ← lift (bytes t);
  e ← lift (checked_add c n);
  put (advance (MkBuilder c (peak b)) e) ;;
  mret t.

(** [WorkspaceLayoutBuilder::alloc_bytes] *)
Definition WorkspaceLayoutBuilder_alloc_bytes (n align : Z) : st LayoutBuilder DeviceSpan :=
  if n =? 0 then mret (MkSpan 0 0)
  else WorkspaceLayoutBuilder_take n align ;; mret (MkSpan 0 n).

(** [WorkspaceLayoutBuilder::peak_bytes] *)
Definition WorkspaceLayoutBuilder_peak_bytes (b : LayoutBuilder) (align : Z) : res Z :=
  align_up (peak b) align.

(** ** Lemmas *)

Lemma checked_add_Ok a b c :
  checked_add a b = Ok c <-> c = a + b /\ a + b <= size_max.
Proof.
  unfold checked_add, throw_if. destruct (Z.ltb_spec (size_max - a) b); simpl.
  - split; [done|lia].
  - split; [intros [= <-]; lia|intros [-> _]; done].
Qed.

Lemma align_up_Ok v a r :
  0 <= a -> align_up v a = Ok r ->
  is_power_of_two a = true /\ v <= r < v + a /\ r mod a = 0 /\ v + (a - 1) <= size_max /\ 0 < a.
Proof.
  intros Ha. unfold align_up. intros H. res_inv H. apply checked_add_Ok in H1 as [-> Hle].
  injection H as <-. guards.
  pose proof (clear_mask_align v a Ha ltac:(done)) as [? ?].
  pose proof (is_power_of_two_pos a Ha ltac:(done)). split_and!; done || lia.
Qed.

Lemma align_up_pow2 v a :
  0 <= v -> is_power_of_two a = true -> v + (a - 1) <= size_max ->
  align_up v a = Ok (clear_mask (v + (a - 1)) (a - 1)).
Proof.
  intros Hv Hp Hle. unfold align_up. rewrite Hp. simpl.
  by rewrite (proj2 (checked_add_Ok v (a - 1) (v + (a - 1)))).
Qed.

(** The state a builder is in: [0 <= cursor <= peak]. *)
Definition builder_ok (b : LayoutBuilder) : Prop := 0 <= cursor b <= peak b.

Lemma advance_ok b c : builder_ok b -> cursor b <= c -> builder_ok (advance b c).
Proof.
  unfold builder_ok, advance. simpl. intros. destruct (Z.ltb_spec (peak b) c); lia.
Qed.

Lemma LayoutBuilder_add_Ok n align b r b' :
  builder_ok b -> 0 <= n -> 0 <= align ->
  LayoutBuilder_add n align b = (Ok r, b') ->
  builder_ok b' /\ 0 < n /\ region_bytes r = n /\ alignment r = align /\
  cursor b <= offset r /\ offset r mod align = 0 /\ cursor b' = offset r + n /\
  peak b <= peak b' /\ cursor b' <= size_max /\ is_power_of_two align = true /\ 0 < align.
Proof.
  intros Hb Hn Ha. unfold LayoutBuilder_add, st_throw_if, lift, throw_if, get, put, mbind, st_bind.
  destruct (Z.eqb_spec n 0) as [|Hnz]; [done|].
  destruct (align_up (cursor b) align) as [off|] eqn:Hup; [|done].
  destruct (checked_add off n) as [c|] eqn:Hc; [|done].
  intros [= <- <-]. apply align_up_Ok in Hup as (? & ? & ? & ? & ?); [|done].
  apply checked_add_Ok in Hc as [-> Hc]. simpl.
  assert (builder_ok (advance b (off + n))) as Hb' by (apply advance_ok; [done|lia]).
  split_and!; try done; try lia. unfold advance. simpl.
  destruct (Z.ltb_spec (peak b) (off + n)); lia.
Qed.

(** A failing [add] changes nothing. *)
Lemma LayoutBuilder_add_Throw n align b e b' :
  LayoutBuilder_add n align b = (Throw e, b') -> b' = b.
Proof.
  unfold LayoutBuilder_add, st_throw_if, lift, throw_if, get, put, mbind, st_bind.
  destruct (n =? 0); [by intros [= _ <-]|].
  destruct (align_up (cursor b) align); [|by intros [= _ <-]].
  destruct (checked_add _ n); [done|by intros [= _ <-]].
Qed.

(** A plan is a sequence of [add] calls on one builder. *)
Fixpoint add_all (l : list (Z * Z)) : st LayoutBuilder (list LayoutRegion) :=
  match l with
  | [] => mret []
  | (n, align) :: l =>
      r ← LayoutBuilder_add n align;
      rs ← add_all l;
      mret (r :: rs)
  end.

(** [r] lies in [lo, hi) and is aligned. *)
Definition region_in (lo hi : Z) (r : LayoutRegion) : Prop :=
  lo <= offset r /\ 0 < region_bytes r /\ offset r + region_bytes r <= hi /\
  offset r mod alignment r = 0 /\ 0 < alignment r /\ is_power_of_two (alignment r) = true.

Definition regions_disjoint (r s : LayoutRegion) : Prop :=
  offset r + region_bytes r <= offset s \/ offset s + region_bytes s <= offset r.

Fixpoint pairwise {A} (P : A -> A -> Prop) (l : list A) : Prop :=
  match l with
  | [] => True
  | x :: l => Forall (P x) l /\ pairwise P l
  end.

Lemma add_all_Ok l : forall b rs b',
  builder_ok b -> Forall (fun x => 0 <= fst x /\ 0 <= snd x) l ->
  add_all l b = (Ok rs, b') ->
  builder_ok b' /\ cursor b <= cursor b' /\ peak b <= peak b' /\
  Forall (region_in (cursor b) (cursor b')) rs /\ pairwise regions_disjoint rs.
Proof.
  induction l as [|[n align] l IH]; intros b rs b' Hb Hl; simpl.
  - intros [= <- <-]. repeat split; try constructor; try lia; apply Hb.
  - apply Forall_cons in Hl as [[Hn Ha] Hl]. simpl in *.
    unfold mbind, st_bind. destruct (LayoutBuilder_add n align b) as [[r|] b1] eqn:Hadd; [|done].
    apply LayoutBuilder_add_Ok in Hadd
      as (Hb1 & Hn' & Hrb & Hra & Hlo & Hal & Hc & Hp & _ & Hpow & Hpos); [|done..].
    destruct (add_all l b1) as [[rs'|] b2] eqn:Hall; [|done].
    intros [= <- <-]. apply IH in Hall as (Hb2 & Hcc & Hpp & Hin & Hdis); [|done..].
    split_and!; [done|lia|lia| |].
    + constructor.
      * unfold region_in. rewrite Hrb, Hra. split_and!; done || lia.
      * eapply Forall_impl; [done|]. unfold region_in. intros; destruct_and!; split_and!; done || lia.
    + simpl. split; [|done]. eapply Forall_impl; [done|].
      unfold region_in, regions_disjoint. rewrite Hrb. intros; lia.
Qed.

Lemma LayoutRegion_bind_Ok r backing s :
  LayoutRegion_bind r backing = Ok s ->
  span_data s = span_data backing + offset r /\ span_bytes s = region_bytes r /\
  offset r <= span_bytes backing /\ offset r + region_bytes r <= span_bytes backing /\
  wrap64 (span_data s) mod alignment r = 0 /\ span_data backing <> 0.
Proof.
  unfold LayoutRegion_bind. intros H. res_inv H. injection H as <-. simpl. guards.
  split_and!; lia || done.
Qed.

(** Planning and binding agree: the regions of a successful plan bind against
    any backing that is aligned for them and as large as the finished plan. *)
Theorem plan_binds l rs b total align backing :
  Forall (fun x => 0 <= fst x /\ 0 <= snd x) l -> 0 <= align ->
  add_all l new_builder = (Ok rs, b) ->
  LayoutBuilder_finish b align = Ok total ->
  0 < span_data backing -> total <= span_bytes backing ->
  span_data backing + span_bytes backing <= size_max ->
  Forall (fun r => span_data backing mod alignment r = 0) rs ->
  pairwise regions_disjoint rs /\
  Forall (fun r => LayoutRegion_bind r backing =
      Ok (MkSpan (span_data backing + offset r) (region_bytes r))) rs.
Proof.
  intros Hl Ha Hall Hfin Hd Hsz Hmax Hal.
  apply add_all_Ok in Hall as (Hb & _ & _ & Hin & Hdis); [|unfold builder_ok; simpl; lia|done].
  apply align_up_Ok in Hfin as (_ & Hfin & _); [|done]. destruct Hb as [_ Hb].
  split; [done|]. apply Forall_forall. intros r Hr.
  rewrite Forall_forall in Hin, Hal. specialize (Hin r Hr) as (H0 & H1 & H2 & H3 & Hpos & Hpow).
  specialize (Hal r Hr). simpl in H0.
  unfold LayoutRegion_bind. rewrite Hpow.
  replace (span_data backing =? 0) with false by lia. simpl.
  rewrite wrap64_id by width_lia.
  rewrite Z.add_mod, Hal, H3 by lia. rewrite Z.add_0_l, Z.mod_0_l by lia. simpl.
  replace ((span_bytes backing <? offset r) || (span_bytes backing - offset r <? region_bytes r))
    with false by lia. done.
Qed.

Lemma plan_binds_witness :
  exists rs b, add_all [(100, 256); (7, 64)] new_builder = (Ok rs, b) /\
    Forall (fun r => LayoutRegion_bind r (MkSpan 4096 1024) =
      Ok (MkSpan (4096 + offset r) (region_bytes r))) rs.
Proof.
  eexists _, _. split; [vm_compute; reflexivity|].
  apply (plan_binds [(100, 256); (7, 64)] _ (MkBuilder 135 135) 256 256 (MkSpan 4096 1024)).
  - repeat constructor; vm_compute; congruence.
  - lia.
  - vm_compute. reflexivity.
  - vm_compute. reflexivity.
  - vm_compute. reflexivity.
  - vm_compute. congruence.
  - vm_compute. congruence.
  - repeat constructor.
Defined.
