(* ===== verification/Workspace.v ===== *)
(** * core/arena.{h,cu}: DeviceArena, and its dry run

    [DeviceArena] is the bump allocator behind every workspace.  Allocation
    helpers are templates that run either against it or against
    [WorkspaceLayoutBuilder]; the class [Workspace] is that duck-typed
    interface, [prog] the allocation programs written against it, and
    [dry_run_sizes_arena] the theorem that the dry run's peak is enough. *)

From stdpp Require Import prelude list.
From Stdlib Require Import ZArith Lia.
From S2P Require Import Prelude.
From S2P Require Import Tensor.
From S2P Require Import Layout.
#[local] Open Scope Z_scope.

Record DeviceArena : Type := MkArena {
  base_ : Z;
  cap_ : Z;
  off_ : Z;
  peak_ : Z;
  owns_ : bool;
}.

(** [DeviceArena(std::size_t)]: [cudaMalloc] is the argument [cuda_malloc]. *)
Definition DeviceArena_new (cuda_malloc : Z -> res Z) (capacity_bytes : Z) : res DeviceArena :=
  throw_if (capacity_bytes =? 0) invalid_argument ;;
  ptr ← cuda_malloc capacity_bytes;
  Ok (MkArena ptr capacity_bytes 0 0 true).

(** [DeviceArena(DeviceSpan)], the non-owning arena. *)
Definition DeviceArena_borrow (storage : DeviceSpan) : res DeviceArena :=
  throw_if ((span_data storage =? 0) || (span_bytes storage =? 0)) invalid_argument ;;
  Ok (MkArena (span_data storage) (span_bytes storage) 0 0 false).

(** The move constructor: the new arena and what is left of [other]. *)
Definition DeviceArena_move (other : DeviceArena) : DeviceArena * DeviceArena :=
  (other, MkArena 0 0 0 0 true).

Definition checked_add_uintptr (a b : Z) : res Z :=
  throw_if (size_max - a <? b) overflow_error ;; Ok (a + b).

Definition align_up_addr (addr align : Z) : res Z :=
  let mask := align - 1 in
  with_mask ← checked_add_uintptr addr mask;
  Ok (clear_mask with_mask mask).

(** [DeviceArena::alloc_bytes] *)
Definition DeviceArena_alloc_bytes (n align : Z) : st DeviceArena DeviceSpan :=
  a ← get;
  st_throw_if (base_ a =? 0) runtime_error ;;
  st_throw_if (negb (is_power_of_two align)) invalid_argument ;;
  st_throw_if (n =? 0) invalid_argument ;;
  current ← lift (checked_add_uintptr (base_ a) (off_ a));
  aligned ← lift (align_up_addr current align);
  let aligned_offset := wrap64 (aligned - base_ a) in
  st_throw_if (size_max - aligned_offset <? n) overflow_error ;;
  let e := aligned_offset + n in
  st_throw_if (cap_ a <? e) bad_alloc ;;
  put (MkArena (base_ a) (cap_ a) e (if peak_ a <? e then e else peak_ a) (owns_ a)) ;;
  mret (MkSpan (base_ a + aligned_offset) n).

(** [DeviceArena::alloc] *)
Definition DeviceArena_alloc (d : DType) (shape : list Z) (align : Z) : st DeviceArena Tensor :=
  v ← lift (make_tensor 0 d shape);
  n ← lift (bytes v);
  storage ← DeviceArena_alloc_bytes n align;
  lift (make_tensor (span_data storage) d shape).

Definition DeviceArena_reset (a : DeviceArena) : DeviceArena :=
  MkArena (base_ a) (cap_ a) 0 (peak_ a) (owns_ a).

Definition DeviceArena_reset_peak (a : DeviceArena) : DeviceArena :=
  MkArena (base_ a) (cap_ a) (off_ a) (off_ a) (owns_ a).

(** [~Scope]: restores only downwards. *)
Definition DeviceArena_scope_exit (saved : Z) (a : DeviceArena) : DeviceArena :=
  if saved <=? off_ a then MkArena (base_ a) (cap_ a) saved (peak_ a) (owns_ a) else a.

(** ** The interface allocation helpers are written against *)
Class Workspace (S : Type) : Type := {
  ws_alloc : DType -> list Z -> Z -> st S Tensor;
  ws_alloc_bytes : Z -> Z -> st S DeviceSpan;
  ws_mark : S -> Z;
  ws_restore : Z -> S -> S;
}.

#[export] Instance arena_workspace : Workspace DeviceArena := {|
  ws_alloc := DeviceArena_alloc;
  ws_alloc_bytes := DeviceArena_alloc_bytes;
  ws_mark := off_;
  ws_restore := DeviceArena_scope_exit;
|}.

#[export] Instance builder_workspace : Workspace LayoutBuilder := {|
  ws_alloc := WorkspaceLayoutBuilder_alloc;
  ws_alloc_bytes := WorkspaceLayoutBuilder_alloc_bytes;
  ws_mark := cursor;
  ws_restore := fun saved b => MkBuilder saved (peak b);
|}.

(** Allocation programs: straight-line allocations and RAII scopes. *)
Inductive prog : Type :=
| PDone
| PAlloc (d : DType) (shape : list Z) (align : Z) (k : prog)
| PBytes (n align : Z) (k : prog)
| PScope (body k : prog).

Fixpoint run {S} `{Workspace S} (p : prog) : st S unit :=
  match p with
  | PDone => mret tt
  | PAlloc d shape align k => ws_alloc d shape align ;; run k
  | PBytes n align k => ws_alloc_bytes n align ;; run k
  | PScope body k => fun s =>
      let '(r, s') := run body s in
      let s'' := ws_restore (ws_mark s) s' in
      match r with Ok _ => run k s'' | Throw e => (Throw e, s'') end
  end.

(** What a program asks of its arena: every alignment [a] is at most [A] and
    divides the base address, and raw byte allocations are not empty. *)
Fixpoint prog_ok (base A : Z) (p : prog) : Prop :=
  match p with
  | PDone => True
  | PAlloc _ _ align k => (0 < align <= A /\ base mod align = 0) /\ prog_ok base A k
  | PBytes n align k => (0 < align <= A /\ base mod align = 0) /\ 0 < n /\ prog_ok base A k
  | PScope body k => prog_ok base A body /\ prog_ok base A k
  end.

(** ** The arena in step with its dry run *)
Definition in_step (b : LayoutBuilder) (a : DeviceArena) : Prop :=
  builder_ok b /\ off_ a = cursor b /\ peak_ a = peak b.

Lemma clear_mask_shift base v a :
  0 < a -> is_power_of_two a = true -> base mod a = 0 ->
  clear_mask (base + v + (a - 1)) (a - 1) = base + clear_mask (v + (a - 1)) (a - 1).
Proof.
  intros Ha [k [Hk ->]]%is_power_of_two_spec Hb; [|lia].
  rewrite !clear_mask_pow2 by done.
  apply Z.mod_divide in Hb as [q ->]; [|lia].
  rewrite <- Z.add_assoc, (Z.add_comm (q * 2 ^ k)), Z.div_add by lia. ring.
Qed.

(** [alloc_bytes] succeeds: the block is aligned, fresh, and inside the arena. *)
Lemma DeviceArena_alloc_bytes_Ok n align a s a' :
  0 < base_ a -> 0 <= off_ a -> 0 < n -> 0 < align ->
  DeviceArena_alloc_bytes n align a = (Ok s, a') ->
  is_power_of_two align = true /\ span_bytes s = n /\
  base_ a + off_ a <= span_data s /\ span_data s mod align = 0 /\
  span_data s + n = base_ a' + off_ a' /\ off_ a' <= cap_ a' /\
  base_ a' = base_ a /\ cap_ a' = cap_ a.
Proof.
  intros Hb Ho Hn Ha.
  unfold DeviceArena_alloc_bytes, st_throw_if, lift, throw_if, get, put, mbind, st_bind.
  destruct (Z.eqb_spec (base_ a) 0); [done|].
  destruct (is_power_of_two align) eqn:Hp; [|done]. simpl.
  destruct (Z.eqb_spec n 0); [done|].
  destruct (checked_add_uintptr _ _) as [c|] eqn:Hc; [|done].
  destruct (align_up_addr c align) as [al|] eqn:Hal; [|done].
  unfold checked_add_uintptr in Hc. res_inv Hc. injection Hc as <-. guards.
  unfold align_up_addr, checked_add_uintptr in Hal. res_inv Hal. res_inv H0.
  injection Hal as <-. injection H0 as <-. guards.
  pose proof (clear_mask_align (base_ a + off_ a) align ltac:(lia) Hp) as [Hr Hm].
  set (al := clear_mask _ _) in *.
  rewrite wrap64_id by width_lia.
  destruct (Z.ltb_spec (size_max - (al - base_ a)) n); [done|].
  destruct (Z.ltb_spec (cap_ a) (al - base_ a + n)); [done|].
  intros [= <- <-]. simpl. rewrite Zplus_minus. split_and!; done || lia.
Qed.

(** One raw allocation stays in step, provided the dry run's cursor still fits. *)
Lemma take_in_step n align b b' a :
  in_step b a -> 0 < n -> 0 < align -> 0 < base_ a -> base_ a mod align = 0 ->
  base_ a + cap_ a + align <= size_max ->
  WorkspaceLayoutBuilder_take n align b = (Ok tt, b') -> peak b' <= cap_ a ->
  exists s a', DeviceArena_alloc_bytes n align a = (Ok s, a') /\ in_step b' a' /\
    span_data s = base_ a + (cursor b' - n) /\
    base_ a' = base_ a /\ cap_ a' = cap_ a /\ owns_ a' = owns_ a /\ peak b <= peak b'.
Proof.
  intros (Hb & Hoff & Hpk) Hn Ha Hbase Hmod Hmax.
  unfold WorkspaceLayoutBuilder_take, lift, get, put, mbind, st_bind.
  destruct (align_up (cursor b) align) as [c|] eqn:Hup; [|done].
  destruct (checked_add c n) as [e|] eqn:He; [|done]. intros [= <-] Hcap.
  apply checked_add_Ok in He as [-> He].
  pose proof Hup as (Hp & Hc & _ & Hs & _)%align_up_Ok; [|lia].
  rewrite align_up_pow2 in Hup by (done || (destruct Hb; lia)). injection Hup as <-.
  set (c := clear_mask _ _) in *. destruct Hb as [Hb0 Hb1].
  assert (c + n <= cap_ a) as Hfit.
  { revert Hcap. unfold advance. simpl. destruct (Z.ltb_spec (peak b) (c + n)); lia. }
  unfold DeviceArena_alloc_bytes, st_throw_if, lift, throw_if, get, put, mbind, st_bind.
  unfold align_up_addr, checked_add_uintptr, throw_if.
  replace (base_ a =? 0) with false by lia. rewrite Hp, Hoff. simpl.
  replace (n =? 0) with false by lia.
  replace (size_max - base_ a <? cursor b) with false by lia. simpl.
  replace (size_max - (base_ a + cursor b) <? align - 1) with false by lia. simpl.
  rewrite clear_mask_shift by (done || lia). fold c. rewrite Z.add_simpl_l.
  rewrite wrap64_id by width_lia.
  replace (size_max - c <? n) with false by lia.
  replace (cap_ a <? c + n) with false by lia.
  eexists _, _. split; [done|]. simpl. unfold in_step, builder_ok, advance. simpl. rewrite Hpk.
  destruct (Z.ltb_spec (peak b) (c + n)); split_and!; done || lia.
Qed.

Lemma WorkspaceLayoutBuilder_alloc_take d shape align b t b' :
  WorkspaceLayoutBuilder_alloc d shape align b = (Ok t, b') ->
  exists n, make_tensor 0 d shape = Ok t /\ bytes t = Ok n /\ 0 < n /\
    WorkspaceLayoutBuilder_take n align b = (Ok tt, b').
Proof.
  unfold WorkspaceLayoutBuilder_alloc, WorkspaceLayoutBuilder_take, lift, get, put, mbind, st_bind.
  destruct (make_tensor 0 d shape) as [t0|] eqn:Ht; [|done].
  destruct (align_up (cursor b) align); [|done].
  destruct (bytes t0) as [n|] eqn:Hn; [|done].
  destruct (checked_add _ n) eqn:He; [|done]. intros [= <- <-].
  exists n. rewrite He. split_and!; [done..| |done]. by apply bytes_Ok in Hn as (_ & _ & ? & _).
Qed.

Lemma make_tensor_rebase p d shape t :
  make_tensor 0 d shape = Ok t -> exists t', make_tensor p d shape = Ok t'.
Proof.
  unfold make_tensor. intros H. res_inv H. rewrite H0. simpl. rewrite H1. simpl. eauto.
Qed.

Lemma WorkspaceLayoutBuilder_take_Ok n align b b' :
  builder_ok b -> 0 < n -> 0 < align ->
  WorkspaceLayoutBuilder_take n align b = (Ok tt, b') ->
  builder_ok b' /\ peak b <= peak b' /\ cursor b <= cursor b'.
Proof.
  intros Hb Hn Ha. unfold WorkspaceLayoutBuilder_take, lift, get, put, mbind, st_bind.
  destruct (align_up (cursor b) align) as [c|] eqn:Hup; [|done].
  destruct (checked_add c n) as [e|] eqn:He; [|done]. intros [= <-].
  apply checked_add_Ok in He as [-> He]. apply align_up_Ok in Hup as (_ & Hc & _); [|lia].
  revert Hb. unfold builder_ok, advance. simpl. destruct (Z.ltb_spec (peak b) (c + n)); lia.
Qed.

Lemma WorkspaceLayoutBuilder_alloc_bytes_take n align b s b' :
  0 < n -> WorkspaceLayoutBuilder_alloc_bytes n align b = (Ok s, b') ->
  WorkspaceLayoutBuilder_take n align b = (Ok tt, b').
Proof.
  intros Hn. unfold WorkspaceLayoutBuilder_alloc_bytes.
  replace (n =? 0) with false by lia. unfold mbind, st_bind.
  destruct (WorkspaceLayoutBuilder_take n align b) as [[[]|] ?]; [by intros [= _ <-]|done].
Qed.

(** The dry run only grows its peak, and its scopes put the cursor back. *)
Lemma run_builder_mono base A p : forall b b',
  prog_ok base A p -> builder_ok b -> run p b = (Ok tt, b') ->
  builder_ok b' /\ peak b <= peak b' /\ cursor b <= cursor b'.
Proof.
  induction p as [|d shape align k IH|n align k IH|body IHb k IH]; intros b b' Hok Hb;
    cbn [run prog_ok] in *; unfold mbind, st_bind.
  - intros [= <-]. split; [done|lia].
  - destruct Hok as [[Hal _] Hok]. cbn [ws_alloc builder_workspace].
    destruct (WorkspaceLayoutBuilder_alloc _ _ _ b) as [[t|] b1] eqn:Hb1; [|done].
    apply WorkspaceLayoutBuilder_alloc_take in Hb1 as (n & _ & _ & Hn & Htake).
    apply WorkspaceLayoutBuilder_take_Ok in Htake as (? & ? & ?); [|done|done|lia].
    intros Hk. apply IH in Hk as (? & ? & ?); [|done..]. split; [done|lia].
  - destruct Hok as [[Hal _] [Hn Hok]]. cbn [ws_alloc_bytes builder_workspace].
    destruct (WorkspaceLayoutBuilder_alloc_bytes n align b) as [[s|] b1] eqn:Hb1; [|done].
    apply WorkspaceLayoutBuilder_alloc_bytes_take in Hb1; [|done].
    apply WorkspaceLayoutBuilder_take_Ok in Hb1 as (? & ? & ?); [|done|done|lia].
    intros Hk. apply IH in Hk as (? & ? & ?); [|done..]. split; [done|lia].
  - destruct Hok as [Hok1 Hok2]. cbn [ws_mark ws_restore builder_workspace].
    destruct (run body b) as [[[]|] b1] eqn:Hb1; [|done].
    apply IHb in Hb1 as (H1 & H2 & H3); [|done..].
    intros Hk. apply IH in Hk as (? & ? & ?); [|done|].
    + simpl in *. split; [done|lia].
    + unfold builder_ok in *. simpl. lia.
Qed.

(** The simulation: a dry run that succeeds with a peak within the capacity is
    followed, allocation by allocation, by the arena. *)
Lemma run_in_step A p : forall b b' a,
  prog_ok (base_ a) A p -> in_step b a -> 0 < base_ a -> base_ a + cap_ a + A <= size_max ->
  run p b = (Ok tt, b') -> peak b' <= cap_ a ->
  exists a', run p a = (Ok tt, a') /\ in_step b' a' /\ base_ a' = base_ a /\ cap_ a' = cap_ a.
Proof.
  induction p as [|d shape align k IH|n align k IH|body IHb k IH]; intros b b' a Hok Hs Hpos Hmax;
    cbn [run prog_ok] in *; unfold mbind, st_bind.
  - intros [= <-] _. by exists a.
  - destruct Hok as [[Hal Hmod] Hok]. cbn [ws_alloc builder_workspace arena_workspace].
    destruct (WorkspaceLayoutBuilder_alloc _ _ _ b) as [[t|] b1] eqn:Hb1; [|done].
    intros Hk Hcap. apply WorkspaceLayoutBuilder_alloc_take in Hb1 as (n & Ht & Hn & Hpn & Htake).
    pose proof Htake as (Hb1 & _ & _)%WorkspaceLayoutBuilder_take_Ok; [|apply Hs|done|lia].
    pose proof Hk as (_ & Hmono & _)%(run_builder_mono _ _ _ _ _ Hok); [|done].
    destruct (take_in_step n align b b1 a) as (s & a1 & Ha1 & Hs1 & _ & Hba & Hca & _);
      [done|done|lia|done|done|lia|done|lia|].
    destruct (make_tensor_rebase (span_data s) _ _ _ Ht) as [t' Ht'].
    unfold DeviceArena_alloc, lift, mbind, st_bind. rewrite Ht, Hn, Ha1, Ht'.
    rewrite <- Hba, <- Hca. apply (IH b1); rewrite ?Hba, ?Hca; done.
  - destruct Hok as [[Hal Hmod] [Hn Hok]]. cbn [ws_alloc_bytes builder_workspace arena_workspace].
    destruct (WorkspaceLayoutBuilder_alloc_bytes n align b) as [[s0|] b1] eqn:Htake; [|done].
    apply WorkspaceLayoutBuilder_alloc_bytes_take in Htake; [|done]. intros Hk Hcap.
    pose proof Htake as (Hb1 & _ & _)%WorkspaceLayoutBuilder_take_Ok; [|apply Hs|done|lia].
    pose proof Hk as (_ & Hmono & _)%(run_builder_mono _ _ _ _ _ Hok); [|done].
    destruct (take_in_step n align b b1 a) as (s & a1 & Ha1 & Hs1 & _ & Hba & Hca & _);
      [done|done|lia|done|done|lia|done|lia|].
    rewrite Ha1, <- Hba, <- Hca. apply (IH b1); rewrite ?Hba, ?Hca; done.
  - destruct Hok as [Hok1 Hok2]. cbn [ws_mark ws_restore builder_workspace arena_workspace].
    destruct (run body b) as [[[]|] b1] eqn:Hb1; [|done]. intros Hk Hcap.
    pose proof Hb1 as (Hbok & Hp1 & Hc1)%(run_builder_mono _ _ _ _ _ Hok1); [|apply Hs].
    assert (builder_ok (MkBuilder (cursor b) (peak b1))) as Hb2.
    { destruct Hs as [[? ?] _]. destruct Hbok. unfold builder_ok. simpl. lia. }
    pose proof Hk as (_ & Hmono & _)%(run_builder_mono _ _ _ _ _ Hok2 Hb2). simpl in Hmono.
    destruct (IHb b b1 a) as (a1 & Ha1 & (? & Ho1 & Hk1) & Hba & Hca); [done..|lia|].
    rewrite Ha1. destruct Hs as (_ & Hoff & _). rewrite Hoff.
    unfold DeviceArena_scope_exit. replace (cursor b <=? off_ a1) with true by lia.
    destruct (IH (MkBuilder (cursor b) (peak b1)) b' (MkArena (base_ a1) (cap_ a1) (cursor b) (peak_ a1) (owns_ a1)))
      as (a2 & ? & ? & ? & ?); simpl; rewrite ?Hba, ?Hca; try done.
    exists a2. simpl in *. by rewrite <- Hba, <- Hca.
Qed.


(** empty byte allocations are where the dry run and the arena part: the dry run
    accepts them, the arena throws. *)
Theorem empty_alloc_bytes_diverges align a b :
  base_ a <> 0 -> is_power_of_two align = true ->
  WorkspaceLayoutBuilder_alloc_bytes 0 align b = (Ok (MkSpan 0 0), b) /\
  DeviceArena_alloc_bytes 0 align a = (Throw invalid_argument, a).
Proof.
  intros Ha Hp. split; [done|].
  unfold DeviceArena_alloc_bytes, st_throw_if, lift, throw_if, get, mbind, st_bind.
  rewrite (proj2 (Z.eqb_neq _ _) Ha), Hp. done.
Qed.

(** ** Witnesses *)
Definition demo_prog : prog :=
  PBytes 100 256 (PScope (PAlloc BF16 [16; 4] 64 PDone) (PBytes 8 16 PDone)).


Lemma empty_alloc_bytes_diverges_witness :
  DeviceArena_alloc_bytes 0 256 (MkArena 4096 512 0 0 false) = (Throw invalid_argument, MkArena 4096 512 0 0 false).
Proof.
  apply (empty_alloc_bytes_diverges 256 (MkArena 4096 512 0 0 false) new_builder); [discriminate|reflexivity].
Defined.
