(* ===== verification/HostArena.v ===== *)
(** * core/arena.{h,cu}: HostPinnedArena

    The first-fit allocator of the pinned host region that holds the RAM prefix
    cache: an offset-sorted list of coalesced free spans and a table of live
    blocks.  The mapping, pre-faulting and CUDA registration of the region are
    not modelled; [host_arena_new] starts from the address they produced. *)

From stdpp Require Import prelude list gmap.
From Stdlib Require Import ZArith Lia.
From S2P Require Import Prelude.
From S2P Require Import Workspace.
#[local] Open Scope Z_scope.

(** [FreeSpan] and [LiveBlock]: an offset and a size. *)
Record block : Type := MkBlock { blk_off : Z; blk_size : Z }.

Record HostPinnedArena : Type := MkHost {
  host_base : Z;
  host_cap : Z;
  host_used : Z;
  host_free : list block;
  host_free_capacity : Z; (** [free_.capacity()] *)
  host_live : gmap Z block;
}.

(** The constructor, after [allocate_registered_host] returned [base]. *)
Definition host_arena_new (base capacity_bytes : Z) : res HostPinnedArena :=
  throw_if (capacity_bytes =? 0) invalid_argument ;;
  Ok (MkHost base capacity_bytes 0 [MkBlock 0 capacity_bytes] 1 ∅).

(** [while (it != end && it->offset < offset) ++it]: what precedes and what
    follows the insertion point. *)
Fixpoint lower (l : list block) (off : Z) : list block * list block :=
  match l with
  | [] => ([], [])
  | s :: l' =>
      if blk_off s <? off then let '(b, a) := lower l' off in (s :: b, a) else ([], l)
  end.

(** [HostPinnedArena::insert_free] *)
Definition insert_free (l : list block) (off size : Z) : list block :=
  if size =? 0 then l
  else
    let '(before, after) := lower l off in
    let place :=
      match after with
      | it :: after' =>
          if off + size =? blk_off it
          then before ++ MkBlock off (blk_size it + size) :: after'
          else before ++ MkBlock off size :: after
      | [] => before ++ [MkBlock off size]
      end in
    match rev before with
    | prev :: front =>
        if blk_off prev + blk_size prev =? off then
          let merged := blk_size prev + size in
          match after with
          | it :: after' =>
              if blk_off prev + merged =? blk_off it
              then rev front ++ MkBlock (blk_off prev) (merged + blk_size it) :: after'
              else rev front ++ MkBlock (blk_off prev) merged :: after
          | [] => rev front ++ [MkBlock (blk_off prev) merged]
          end
        else place
    | [] => place
    end.

(** The search loop of [try_alloc]: the index of the first span that fits, the
    span, and the bytes skipped for alignment. *)
Fixpoint find_span (base : Z) (l : list block) (n align : Z) (index : nat)
    : res (option (nat * block * Z)) :=
  match l with
  | [] => Ok None
  | span :: l =>
      span_addr ← checked_add_uintptr base (blk_off span);
      aligned ← align_up_addr span_addr align;
      let lead := wrap64 (aligned - span_addr) in
      if (size_max <? lead) || (blk_size span <? lead) || (blk_size span - lead <? n)
      then find_span base l n align (S index)
      else Ok (Some (index, span, lead))
  end.

(** [HostPinnedArena::try_alloc] *)
Definition try_alloc (n align : Z) : st HostPinnedArena (option Z) :=
  a ← get;
  st_throw_if (host_base a =? 0) runtime_error ;;
  st_throw_if (negb (is_power_of_two align)) invalid_argument ;;
  st_throw_if (n =? 0) invalid_argument ;;
  if host_cap a <? n then mret None
  else
    found ← lift (find_span (host_base a) (host_free a) n align 0);
    match found with
    | None => mret None
    | Some (index, span, lead) =>
        let alloc_offset := blk_off span + lead in
        let tail := blk_size span - lead - n in
        let spans := Z.of_nat (size (host_live a)) + 2 in
        let capacity :=
          if host_free_capacity a <? spans
          then Z.max spans (host_free_capacity a * 2) else host_free_capacity a in
        put (MkHost (host_base a) (host_cap a) (host_used a) (host_free a) capacity (host_live a)) ;;
        let ptr := host_base a + alloc_offset in
        st_throw_if (bool_decide (is_Some (host_live a !! ptr))) logic_error ;;
        let free0 := delete index (host_free a) in
        let free1 := if negb (tail =? 0) then insert_free free0 (alloc_offset + n) tail else free0 in
        let free2 := if negb (lead =? 0) then insert_free free1 (blk_off span) lead else free1 in
        put (MkHost (host_base a) (host_cap a) (wrap64 (host_used a + n)) free2 capacity
                    (<[ptr := MkBlock alloc_offset n]> (host_live a))) ;;
        mret (Some ptr)
    end.

(** [HostPinnedArena::free] *)
Definition host_free_block (p : Z) : st HostPinnedArena unit :=
  a ← get;
  st_throw_if (p =? 0) invalid_argument ;;
  match host_live a !! p with
  | None => throw logic_error
  | Some blk =>
      put (MkHost (host_base a) (host_cap a) (wrap64 (host_used a - blk_size blk))
                  (insert_free (host_free a) (blk_off blk) (blk_size blk))
                  (host_free_capacity a) (delete p (host_live a)))
  end.

(** ** Coverage: how many spans of a list contain byte [b] *)
Definition holds (b : Z) (s : block) : bool := (blk_off s <=? b) && (b <? blk_off s + blk_size s).

Definition cover (b : Z) (l : list block) : Z := foldr (fun s n => Z.b2z (holds b s) + n) 0 l.

Lemma cover_app b l k : cover b (l ++ k) = cover b l + cover b k.
Proof. induction l; simpl; lia. Qed.

Lemma cover_nil b : cover b [] = 0.
Proof. done. Qed.

Lemma cover_cons b s l : cover b (s :: l) = Z.b2z (holds b s) + cover b l.
Proof. done. Qed.

Create Rewrite HintDb cover.
#[export] Hint Rewrite cover_app cover_cons cover_nil : cover.

Lemma cover_Permutation b l k : l ≡ₚ k -> cover b l = cover b k.
Proof. induction 1; simpl; lia. Qed.

Lemma cover_nonneg b l : 0 <= cover b l.
Proof. induction l as [|s l IH]; simpl; [lia|]. destruct (holds b s); simpl; lia. Qed.

Lemma cover_elem b s l : s ∈ l -> holds b s = true -> 1 <= cover b l.
Proof.
  intros Hin Hh. induction Hin as [s' l|s' t l _ IH]; rewrite cover_cons.
  - rewrite Hh. pose proof (cover_nonneg b l). simpl. lia.
  - specialize (IH Hh). destruct (holds b t); simpl; lia.
Qed.

Lemma cover_pos b l : 0 < cover b l -> exists s, s ∈ l /\ holds b s = true.
Proof.
  induction l as [|s l IH]; simpl; [lia|]. intros H.
  destruct (holds b s) eqn:Hh; [exists s; split; [left|done]|].
  destruct IH as (t & ? & ?); [simpl in H; lia|]. exists t. split; [by right|done].
Qed.

Lemma holds_true b s : holds b s = true <-> blk_off s <= b < blk_off s + blk_size s.
Proof. unfold holds. lia. Qed.

(** Two adjacent spans hold what their union holds. *)
Lemma holds_merge b o s1 s2 :
  0 <= s1 -> 0 <= s2 ->
  Z.b2z (holds b (MkBlock o s1)) + Z.b2z (holds b (MkBlock (o + s1) s2)) =
  Z.b2z (holds b (MkBlock o (s1 + s2))).
Proof.
  intros. unfold holds; simpl.
  destruct (Z.leb_spec o b), (Z.ltb_spec b (o + s1)), (Z.leb_spec (o + s1) b),
    (Z.ltb_spec b (o + s1 + s2)), (Z.ltb_spec b (o + (s1 + s2))); simpl; lia.
Qed.

Lemma lower_app l off b a : lower l off = (b, a) -> l = b ++ a.
Proof.
  revert b a. induction l as [|s l IH]; intros b a; simpl; [by intros [= <- <-]|].
  destruct (blk_off s <? off); [|by intros [= <- <-]].
  destruct (lower l off) as [b' a']. intros [= <- <-]. by rewrite (IH b' a').
Qed.

Lemma lower_before l off b a :
  lower l off = (b, a) -> Forall (fun s => blk_off s < off) b.
Proof.
  revert b a. induction l as [|s l IH]; intros b a; simpl; [intros [= <- <-]; constructor|].
  destruct (Z.ltb_spec (blk_off s) off); [|intros [= <- <-]; constructor].
  destruct (lower l off) as [b' a']. intros [= <- <-]. constructor; [done|]. by apply (IH b' a').
Qed.

Lemma lower_after l off b s a :
  lower l off = (b, s :: a) -> off <= blk_off s.
Proof.
  revert b. induction l as [|t l IH]; intros b; simpl; [done|].
  destruct (Z.ltb_spec (blk_off t) off); [|by intros [= <- <- <-]].
  destruct (lower l off) as [b' a'] eqn:?. intros [= <- ->]. by eapply IH.
Qed.

Lemma rev_cons_app {A} (l : list A) x k : rev l = x :: k -> l = rev k ++ [x].
Proof. intros H. rewrite <- (rev_involutive l), H. done. Qed.

(** Inserting a span adds exactly its bytes, whatever it was merged with. *)
Lemma insert_free_cover l off size b :
  0 <= size -> Forall (fun s => 0 <= blk_size s) l ->
  cover b (insert_free l off size) = cover b l + Z.b2z (holds b (MkBlock off size)).
Proof.
  intros Hs Hl. unfold insert_free. destruct (Z.eqb_spec size 0) as [->|Hnz].
  { unfold holds. simpl. destruct (Z.leb_spec off b), (Z.ltb_spec b (off + 0)); simpl; lia. }
  destruct (lower l off) as [bf af] eqn:Hlow. apply lower_app in Hlow as ->.
  apply Forall_app in Hl as [Hbf Haf].
  assert (forall it af', Forall (fun s => 0 <= blk_size s) (it :: af') ->
    off + size = blk_off it ->
    Z.b2z (holds b (MkBlock off (blk_size it + size))) =
    Z.b2z (holds b (MkBlock off size)) + Z.b2z (holds b it)) as Hright.
  { intros [o z] af' Hz Ho. apply Forall_cons in Hz as [Hz _]. simpl in *. subst o.
    rewrite holds_merge by done. f_equal. f_equal. f_equal. lia. }
  assert (forall pl, pl = match af with
      | it :: af' => if off + size =? blk_off it
          then bf ++ MkBlock off (blk_size it + size) :: af' else bf ++ MkBlock off size :: af
      | [] => bf ++ [MkBlock off size] end ->
    cover b pl = cover b (bf ++ af) + Z.b2z (holds b (MkBlock off size))) as Hplace.
  { intros pl ->. destruct af as [|it af']; [|destruct (Z.eqb_spec (off + size) (blk_off it))];
      autorewrite with cover; [lia| |lia]. rewrite (Hright it af') by done. lia. }
  destruct (rev bf) as [|prev front] eqn:Hrev; [by apply Hplace|].
  apply rev_cons_app in Hrev as ->.
  apply Forall_app in Hbf as [_ [Hp _]%Forall_cons].
  destruct (Z.eqb_spec (blk_off prev + blk_size prev) off) as [Hadj|]; [|by apply Hplace].
  assert (Z.b2z (holds b (MkBlock (blk_off prev) (blk_size prev + size))) =
          Z.b2z (holds b prev) + Z.b2z (holds b (MkBlock off size))) as Hleft.
  { destruct prev as [o z]. simpl in *. subst off. by rewrite holds_merge. }
  destruct af as [|it af'].
  { autorewrite with cover. rewrite Hleft. lia. }
  destruct (Z.eqb_spec (blk_off prev + (blk_size prev + size)) (blk_off it)).
  - autorewrite with cover.
    destruct it as [o z]. simpl in *. subst o. apply Forall_cons in Haf as [Haf _]. simpl in Haf.
    rewrite <- holds_merge, Hleft by lia. lia.
  - autorewrite with cover. rewrite Hleft. lia.
Qed.

(** ** The free list: sorted, non-empty spans with a gap between neighbours *)
Fixpoint separated (lo : Z) (l : list block) : Prop :=
  match l with
  | [] => True
  | s :: l => lo <= blk_off s /\ 0 < blk_size s /\ separated (blk_off s + blk_size s + 1) l
  end.

(** The lower bound [separated] carries after [l]. *)
Fixpoint sep_end (lo : Z) (l : list block) : Z :=
  match l with [] => lo | s :: l => sep_end (blk_off s + blk_size s + 1) l end.

Lemma separated_app lo l k :
  separated lo (l ++ k) <-> separated lo l /\ separated (sep_end lo l) k.
Proof. revert lo. induction l as [|s l IH]; intros lo; simpl; [tauto|]. rewrite IH. tauto. Qed.

Lemma sep_end_snoc lo l s : sep_end lo (l ++ [s]) = blk_off s + blk_size s + 1.
Proof. revert lo. induction l; intros lo; simpl; auto. Qed.

Lemma separated_weaken lo lo' l : lo' <= lo -> separated lo l -> separated lo' l.
Proof. destruct l; simpl; [done|]. intros. intuition lia. Qed.

Lemma separated_sizes lo l : separated lo l -> Forall (fun s => 0 <= blk_size s) l.
Proof.
  revert lo. induction l as [|s l IH]; intros lo; [constructor|].
  intros (? & ? & ?). constructor; [lia|eauto].
Qed.

Lemma sep_end_ge lo l : separated lo l -> lo <= sep_end lo l.
Proof.
  revert lo. induction l as [|s l IH]; intros lo; simpl; [lia|].
  intros (? & ? & Hl). specialize (IH _ Hl). lia.
Qed.

Lemma separated_lower lo l s : separated lo l -> s ∈ l -> lo <= blk_off s /\ 0 < blk_size s.
Proof.
  revert lo. induction l as [|t l IH]; intros lo; [by intros _ ?%elem_of_nil|].
  intros (H1 & H2 & H3) [->|Hin]%elem_of_cons; [lia|].
  specialize (IH _ H3 Hin). lia.
Qed.

Lemma separated_delete lo l i : separated lo l -> separated lo (delete i l).
Proof.
  revert lo i. induction l as [|s l IH]; intros lo i; [done|].
  intros (H1 & H2 & H3). destruct i as [|i]; simpl.
  - eapply separated_weaken; [|done]. lia.
  - split_and!; [done..|]. by apply IH.
Qed.

Definition apart (s t : block) : Prop :=
  blk_off s + blk_size s <= blk_off t \/ blk_off t + blk_size t <= blk_off s.

(** Inserting a span that touches no free byte keeps the list separated:
    neighbours that become adjacent are merged. *)
Lemma insert_free_separated l off size :
  separated 0 l -> 0 <= off -> 0 <= size ->
  Forall (fun s => apart s (MkBlock off size)) l ->
  separated 0 (insert_free l off size).
Proof.
  intros Hsep Ho Hs Hap. unfold insert_free. destruct (Z.eqb_spec size 0); [done|].
  destruct (lower l off) as [bf af] eqn:Hlow.
  pose proof (lower_before _ _ _ _ Hlow) as Hbf.
  pose proof (lower_app _ _ _ _ Hlow) as ->.
  apply separated_app in Hsep as [Hs1 Hs2]. apply Forall_app in Hap as [Hap1 Hap2].
  (* the spans after the insertion point start at or behind its end *)
  assert (forall it af', af = it :: af' -> off + size <= blk_off it) as Hafter.
  { intros it af' ->. pose proof (lower_after _ _ _ _ _ Hlow).
    apply Forall_cons in Hap2 as [[Hc|Hc] _]; simpl in Hc; [|lia].
    destruct Hs2 as (_ & ? & _). lia. }
  (* [place] is separated when the spans before end short of [off] *)
  assert (separated 0 bf -> sep_end 0 bf <= off -> separated (sep_end 0 bf) af ->
    separated 0 (match af with
      | it :: af' => if off + size =? blk_off it
          then bf ++ MkBlock off (blk_size it + size) :: af' else bf ++ MkBlock off size :: af
      | [] => bf ++ [MkBlock off size] end)) as Hplace.
  { intros H1 H2 H3. destruct af as [|it af'].
    - apply separated_app. split; [done|]. simpl. lia.
    - specialize (Hafter it af' eq_refl). destruct H3 as (H3 & H4 & H5).
      destruct (Z.eqb_spec (off + size) (blk_off it)); apply separated_app;
        (split; [done|]); simpl; split_and!; try lia; try done.
      eapply separated_weaken; [|done]. lia. }
  destruct (rev bf) as [|prev front] eqn:Hrev.
  { apply (f_equal (@rev block)) in Hrev. rewrite rev_involutive in Hrev. simpl in Hrev. subst bf.
    apply Hplace; simpl; [done|lia|done]. }
  apply rev_cons_app in Hrev as ->.
  apply Forall_app in Hap1 as [_ [Hp _]%Forall_cons].
  apply Forall_app in Hbf as [_ [Hpo _]%Forall_cons].
  apply separated_app in Hs1 as [Hf (Hp1 & Hp2 & _)].
  rewrite sep_end_snoc in Hs2, Hplace.
  assert (blk_off prev + blk_size prev <= off) as Hpe by (destruct Hp as [?|?]; simpl in *; lia).
  destruct (Z.eqb_spec (blk_off prev + blk_size prev) off) as [Hadj|Hadj].
  - destruct af as [|it af'].
    { apply separated_app. split; [done|]. simpl. lia. }
    specialize (Hafter it af' eq_refl). destruct Hs2 as (H3 & H4 & H5).
    destruct (Z.eqb_spec (blk_off prev + (blk_size prev + size)) (blk_off it));
      apply separated_app; (split; [done|]); simpl; split_and!; try lia; try done.
    eapply separated_weaken; [|done]. lia.
  - apply Hplace; [|lia|done]. apply separated_app. split; [done|]. simpl. lia.
Qed.

(** ** The arena invariant *)
Definition total_size (l : list block) : Z := foldr (fun s n => blk_size s + n) 0 l.

Definition live_blocks (a : HostPinnedArena) : list block := (map_to_list (host_live a)).*2.

(** Every byte of the region is in exactly one free span or live block; the free
    list is sorted and coalesced; the counters and the vector reserve match. *)
Record host_ok (a : HostPinnedArena) : Prop := {
  ok_base : 0 < host_base a /\ 0 < host_cap a /\ host_base a + host_cap a <= size_max;
  ok_separated : separated 0 (host_free a);
  ok_live : forall p b, host_live a !! p = Some b -> p = host_base a + blk_off b /\ 0 < blk_size b;
  ok_cover : forall b,
    cover b (host_free a) + cover b (live_blocks a) = Z.b2z ((0 <=? b) && (b <? host_cap a));
  ok_used : host_used a = total_size (live_blocks a);
  ok_reserve : Z.of_nat (size (host_live a)) + 1 <= host_free_capacity a;
}.

Lemma total_size_Permutation l k : l ≡ₚ k -> total_size l = total_size k.
Proof. induction 1; simpl; lia. Qed.

Lemma live_blocks_insert a p b :
  host_live a !! p = None ->
  (map_to_list (<[p := b]> (host_live a))).*2 ≡ₚ b :: live_blocks a.
Proof. intros H. unfold live_blocks. rewrite map_to_list_insert by done. done. Qed.

Lemma live_blocks_delete a p b :
  host_live a !! p = Some b ->
  live_blocks a ≡ₚ b :: (map_to_list (delete p (host_live a))).*2.
Proof. intros H. unfold live_blocks. by rewrite <- map_to_list_delete by done. Qed.

Lemma live_blocks_elem a b :
  b ∈ live_blocks a <-> exists p, host_live a !! p = Some b.
Proof.
  unfold live_blocks. rewrite list_elem_of_fmap. split.
  - intros ([p b'] & -> & H%elem_of_map_to_list). eauto.
  - intros (p & H). exists (p, b). split; [done|]. by apply elem_of_map_to_list.
Qed.

(** Free spans and live blocks lie inside the region. *)
Lemma ok_bounds a s :
  host_ok a -> s ∈ host_free a \/ s ∈ live_blocks a ->
  0 < blk_size s /\ 0 <= blk_off s /\ blk_off s + blk_size s <= host_cap a.
Proof.
  intros Hok Hs.
  assert (0 < blk_size s) as Hz.
  { destruct Hs as [H|[p H]%live_blocks_elem].
    - by apply (separated_lower 0 (host_free a)); [apply Hok|].
    - by apply Hok in H as [_ ?]. }
  assert (forall b, holds b s = true -> 0 <= b < host_cap a) as Hin.
  { intros b Hb. pose proof (ok_cover _ Hok b) as Hc.
    pose proof (cover_nonneg b (host_free a)). pose proof (cover_nonneg b (live_blocks a)).
    destruct Hs as [H1|H1]; pose proof (cover_elem _ _ _ H1 Hb);
      destruct (Z.leb_spec 0 b), (Z.ltb_spec b (host_cap a)); simpl in Hc; lia. }
  pose proof (Hin (blk_off s) ltac:(apply holds_true; lia)).
  pose proof (Hin (blk_off s + blk_size s - 1) ltac:(apply holds_true; lia)). lia.
Qed.

(** Two spans that together cover no byte twice are apart. *)
Lemma cover_apart s t l :
  s ∈ l -> 0 < blk_size s -> 0 < blk_size t ->
  (forall b, cover b l + Z.b2z (holds b t) <= 1) -> apart s t.
Proof.
  intros Hs Hz Ht Hc. destruct (decide (apart s t)) as [|Hna]; [done|exfalso].
  unfold apart in Hna. set (b := Z.max (blk_off s) (blk_off t)).
  assert (holds b s = true) as H1 by (apply holds_true; lia).
  assert (holds b t = true) as H2 by (apply holds_true; lia).
  pose proof (cover_elem b s l Hs H1). specialize (Hc b). rewrite H2 in Hc. simpl in Hc. lia.
Qed.

Lemma clear_mask_least v x a :
  0 < a -> is_power_of_two a = true -> v <= x -> x mod a = 0 ->
  clear_mask (v + (a - 1)) (a - 1) <= x.
Proof.
  intros Ha Hp Hv Hx. pose proof (clear_mask_align v a ltac:(lia) Hp) as [Hr Hm].
  apply Z.mod_divide in Hx as [q Hq]; [|lia]. apply Z.mod_divide in Hm as [r Hr']; [|lia].
  cbv zeta in *. rewrite Hr' in Hr |- *. subst x.
  assert (r < q + 1) by (apply (Zmult_lt_reg_r _ _ a); lia). nia.
Qed.

(** What [find_span] computes for one span. *)
Lemma find_span_cons base s l n align i :
  0 <= base -> 0 <= blk_off s -> 0 < align -> is_power_of_two align = true ->
  base + blk_off s + align <= size_max ->
  let lead := clear_mask (base + blk_off s + (align - 1)) (align - 1) - (base + blk_off s) in
  0 <= lead < align /\ (base + blk_off s + lead) mod align = 0 /\
  find_span base (s :: l) n align i =
    if (blk_size s <? lead) || (blk_size s - lead <? n)
    then find_span base l n align (S i) else Ok (Some (i, s, lead)).
Proof.
  intros Hb Ho Ha Hp Hmax lead.
  pose proof (clear_mask_align (base + blk_off s) align ltac:(lia) Hp) as [Hr Hm].
  cbv zeta in Hr, Hm. split; [subst lead; lia|].
  split; [subst lead; by rewrite Zplus_minus|].
  cbn [find_span]. unfold align_up_addr, checked_add_uintptr, throw_if.
  replace (size_max - base <? blk_off s) with false by lia. simpl.
  replace (size_max - (base + blk_off s) <? align - 1) with false by lia. simpl.
  fold lead. rewrite wrap64_id by width_lia.
  by replace (size_max <? lead) with false by lia.
Qed.

Section find_span.
Context (base cap n align : Z).
Context (Hbase : 0 <= base) (Halign : 0 < align) (Hpow : is_power_of_two align = true).
Context (Hmax : base + cap + align <= size_max) (Hn : 0 < n).

Lemma find_span_spec l : forall i,
  Forall (fun s => 0 <= blk_off s /\ blk_off s + blk_size s <= cap /\ 0 < blk_size s) l ->
  (exists j s lead, find_span base l n align i = Ok (Some (i + j, s, lead)%nat) /\
     l !! j = Some s /\ 0 <= lead /\ lead + n <= blk_size s /\
     (base + blk_off s + lead) mod align = 0) \/
  (find_span base l n align i = Ok None /\
   forall s o, s ∈ l -> blk_off s <= o -> o + n <= blk_off s + blk_size s ->
     (base + o) mod align <> 0).
Proof.
  induction l as [|s l IH]; intros i Hl.
  { right. split; [done|]. by intros ? ? ?%elem_of_nil. }
  apply Forall_cons in Hl as [(H1 & H2 & H3) Hl].
  destruct (find_span_cons base s l n align i) as (Hlead & Hm & ->); [done..|lia|].
  set (lead := clear_mask _ _ - _) in *.
  destruct (Z.ltb_spec (blk_size s) lead), (Z.ltb_spec (blk_size s - lead) n); simpl;
    try (left; exists 0%nat, s, lead; rewrite Nat.add_0_r; split_and!; done || lia).
  all: destruct (IH (S i) Hl) as [(j & t & ld & Hf & Ht & Hrest)|[Hf Hno]];
    [left; exists (S j), t, ld; rewrite Hf, <- plus_n_Sm; done|right; split; [done|]].
  all: intros t o [->|Ht]%elem_of_cons Ho He Hal; [|by eapply Hno].
  all: pose proof (clear_mask_least (base + blk_off s) (base + o) align Halign Hpow ltac:(lia) Hal).
  all: subst lead; lia.
Qed.

End find_span.

(** ** Counting bytes *)
Fixpoint sum_upto (f : Z -> Z) (N : nat) : Z :=
  match N with O => 0 | S k => sum_upto f k + f (Z.of_nat k) end.

Lemma sum_upto_add f g N : sum_upto (fun b => f b + g b) N = sum_upto f N + sum_upto g N.
Proof. induction N; simpl; lia. Qed.

Lemma sum_upto_ext f g N :
  (forall b, 0 <= b < Z.of_nat N -> f b = g b) -> sum_upto f N = sum_upto g N.
Proof.
  induction N as [|k IH]; intros H; simpl; [done|].
  rewrite H by lia. rewrite IH; [done|]. intros; apply H; lia.
Qed.

Lemma sum_upto_holds s N :
  0 <= blk_off s -> 0 <= blk_size s ->
  sum_upto (fun b => Z.b2z (holds b s)) N =
    Z.max 0 (Z.min (Z.of_nat N) (blk_off s + blk_size s) - blk_off s).
Proof.
  intros Ho Hs. induction N as [|k IH]; simpl sum_upto; [lia|].
  rewrite IH, Nat2Z.inj_succ. unfold holds.
  destruct (Z.leb_spec (blk_off s) (Z.of_nat k)),
    (Z.ltb_spec (Z.of_nat k) (blk_off s + blk_size s)); simpl; lia.
Qed.

Lemma sum_upto_cover l N :
  Forall (fun s => 0 <= blk_off s /\ 0 <= blk_size s /\ blk_off s + blk_size s <= Z.of_nat N) l ->
  sum_upto (fun b => cover b l) N = total_size l.
Proof.
  induction 1 as [|s l (H1 & H2 & H3) _ IH]; simpl.
  - clear. induction N; simpl; lia.
  - rewrite sum_upto_add, IH, sum_upto_holds by done. lia.
Qed.

Lemma sum_upto_one N : sum_upto (fun _ => 1) N = Z.of_nat N.
Proof. induction N; simpl sum_upto; lia. Qed.

(** The capacity is the live bytes plus the free bytes. *)
Lemma ok_accounting a :
  host_ok a -> host_used a + total_size (host_free a) = host_cap a.
Proof.
  intros Hok. rewrite (ok_used _ Hok).
  destruct (ok_base _ Hok) as (_ & Hcap & _).
  set (N := Z.to_nat (host_cap a)). assert (Z.of_nat N = host_cap a) as HN by lia.
  assert (forall l, (forall s, s ∈ l -> s ∈ host_free a \/ s ∈ live_blocks a) ->
    sum_upto (fun b => cover b l) N = total_size l) as Hsum.
  { intros l Hl. apply sum_upto_cover. apply Forall_forall. intros s Hs%Hl.
    apply ok_bounds in Hs; [|done]. lia. }
  rewrite <- (Hsum (live_blocks a)), <- (Hsum (host_free a)) by tauto.
  rewrite <- sum_upto_add, <- HN, <- sum_upto_one.
  apply sum_upto_ext. intros b Hb. pose proof (ok_cover _ Hok b).
  destruct (Z.leb_spec 0 b), (Z.ltb_spec b (host_cap a)); simpl in *; lia.
Qed.

Lemma total_size_nonneg l : Forall (fun s => 0 <= blk_size s) l -> 0 <= total_size l.
Proof. induction 1; simpl; lia. Qed.

Lemma ok_used_bound a : host_ok a -> 0 <= host_used a <= host_cap a.
Proof.
  intros Hok. pose proof (ok_accounting a Hok).
  pose proof (total_size_nonneg _ (separated_sizes _ _ (ok_separated _ Hok))).
  split; [|lia]. rewrite (ok_used _ Hok). apply total_size_nonneg, Forall_forall.
  intros s [p Hp]%live_blocks_elem. apply Hok in Hp. lia.
Qed.

(** Inserting bytes that no span of the list holds. *)
Lemma insert_free_fresh l off size :
  separated 0 l -> 0 <= off -> 0 <= size ->
  (forall b, cover b l + Z.b2z (holds b (MkBlock off size)) <= 1) ->
  separated 0 (insert_free l off size).
Proof.
  intros Hsep Ho Hs Hc. destruct (decide (size = 0)) as [->|].
  { by unfold insert_free. }
  apply insert_free_separated; try done. apply Forall_forall. intros s Hin.
  eapply cover_apart; [done| |simpl; lia|done].
  by apply (separated_lower 0 l).
Qed.

Lemma insert_free_if l off size (c := negb (size =? 0)) :
  (if c then insert_free l off size else l) = insert_free l off size.
Proof.
  subst c. destruct (Z.eqb_spec size 0) as [->|]; [done|]. simpl. done.
Qed.

(** The byte just behind a free span is not free. *)
Lemma separated_gap lo l s t :
  separated lo l -> s ∈ l -> t ∈ l -> holds (blk_off s + blk_size s) t = false.
Proof.
  revert lo. induction l as [|u l IH]; intros lo; [by intros _ ?%elem_of_nil|].
  intros (H1 & H2 & H3) Hs Ht. apply not_true_is_false. rewrite holds_true.
  apply elem_of_cons in Hs as [->|Hs], Ht as [->|Ht].
  - lia.
  - pose proof (separated_lower _ _ _ H3 Ht). lia.
  - pose proof (separated_lower _ _ _ H3 Hs). lia.
  - rewrite <- holds_true, (IH _ H3) by done. done.
Qed.

(** A run of free bytes lies inside one span, because the list is coalesced. *)
Lemma free_run_in_span l o n :
  separated 0 l -> 0 < n -> (forall b, o <= b < o + n -> 0 < cover b l) ->
  exists s, s ∈ l /\ blk_off s <= o /\ o + n <= blk_off s + blk_size s.
Proof.
  intros Hsep Hn Hrun.
  destruct (cover_pos o l (Hrun o ltac:(lia))) as (s & Hs & Hh%holds_true).
  exists s. split_and!; [done|lia|].
  destruct (decide (o + n <= blk_off s + blk_size s)) as [|Hlt]; [done|exfalso].
  destruct (cover_pos (blk_off s + blk_size s) l) as (t & Ht & Hht); [apply Hrun; lia|].
  by rewrite (separated_gap 0 l) in Hht.
Qed.

(** A free span split into lead, block and tail. *)
Lemma holds_split b o lead n tail :
  0 <= lead -> 0 <= n -> 0 <= tail ->
  Z.b2z (holds b (MkBlock o lead)) + Z.b2z (holds b (MkBlock (o + lead) n)) +
    Z.b2z (holds b (MkBlock (o + lead + n) tail)) =
  Z.b2z (holds b (MkBlock o (lead + n + tail))).
Proof. intros. rewrite holds_merge, <- Z.add_assoc, holds_merge by lia. done. Qed.

(** Carving [n] bytes at [lead] out of free span [i] re-tiles the free list. *)
Lemma carve_free a i s lead n :
  host_ok a -> host_free a !! i = Some s -> 0 <= lead -> 0 < n -> lead + n <= blk_size s ->
  let free1 := insert_free (delete i (host_free a)) (blk_off s + lead + n)
                 (blk_size s - lead - n) in
  let free2 := insert_free free1 (blk_off s) lead in
  separated 0 free2 /\
  forall b, cover b free2 + Z.b2z (holds b (MkBlock (blk_off s + lead) n)) =
            cover b (host_free a).
Proof.
  intros Hok Hi Hl Hn Hfit free1 free2.
  pose proof (delete_Permutation _ _ _ Hi) as Hperm.
  pose proof (list_elem_of_lookup_2 _ _ _ Hi) as Hin.
  destruct (ok_bounds a s Hok (or_introl Hin)) as (Hz & Ho & _).
  pose proof (separated_delete 0 _ i (ok_separated _ Hok)) as Hs0.
  assert (forall b, cover b (delete i (host_free a)) + Z.b2z (holds b s) = cover b (host_free a))
    as Hc0.
  { intros b. rewrite (cover_Permutation b _ _ Hperm), cover_cons. lia. }
  assert (forall b, cover b (host_free a) <= 1) as Hle.
  { intros b. pose proof (ok_cover _ Hok b). pose proof (cover_nonneg b (live_blocks a)).
    destruct ((0 <=? b) && (b <? host_cap a)); simpl in *; lia. }
  assert (forall b, Z.b2z (holds b (MkBlock (blk_off s) lead)) +
    Z.b2z (holds b (MkBlock (blk_off s + lead) n)) +
    Z.b2z (holds b (MkBlock (blk_off s + lead + n) (blk_size s - lead - n))) =
    Z.b2z (holds b s)) as Hsplit.
  { intros b. rewrite holds_split by lia. destruct s as [o z]; simpl. do 3 f_equal. lia. }
  assert (forall b c, 0 <= Z.b2z (holds b c)) as Hb0 by (intros; destruct (holds _ _); simpl; lia).
  assert (separated 0 free1) as Hs1.
  { apply insert_free_fresh; [done|lia|lia|]. intros b.
    specialize (Hc0 b). specialize (Hle b). specialize (Hsplit b).
    pose proof (Hb0 b (MkBlock (blk_off s) lead)).
    pose proof (Hb0 b (MkBlock (blk_off s + lead) n)). lia. }
  assert (forall b, cover b free1 = cover b (delete i (host_free a)) +
    Z.b2z (holds b (MkBlock (blk_off s + lead + n) (blk_size s - lead - n)))) as Hc1.
  { intros b. apply insert_free_cover; [lia|]. by eapply separated_sizes. }
  split.
  - apply insert_free_fresh; [done|lia|lia|]. intros b. rewrite Hc1.
    specialize (Hc0 b). specialize (Hle b). specialize (Hsplit b).
    pose proof (Hb0 b (MkBlock (blk_off s + lead) n)). lia.
  - intros b. subst free2. rewrite insert_free_cover by (lia || by eapply separated_sizes).
    rewrite Hc1. specialize (Hc0 b). specialize (Hsplit b). lia.
Qed.

(** Either the [n] bytes at [o] lie in one free span, or one of them is not free. *)
Lemma free_run_or_gap l o n :
  separated 0 l -> 0 < n ->
  (exists s, s ∈ l /\ blk_off s <= o /\ o + n <= blk_off s + blk_size s) \/
  (exists b, o <= b < o + n /\ cover b l = 0).
Proof.
  intros Hsep Hn.
  destruct (decide (Forall (fun b => cover b l <> 0) (seqZ o n))) as [HF|HF].
  - left. apply free_run_in_span; [done..|]. intros b Hb. rewrite Forall_forall in HF.
    specialize (HF b ltac:(apply elem_of_seqZ; lia)). pose proof (cover_nonneg b l). lia.
  - right. apply not_Forall_Exists in HF; [|intros; apply _].
    apply Exists_exists in HF as (b & Hb%elem_of_seqZ & H0).
    exists b. split; [lia|]. by apply dec_stable.
Qed.

(** Publishing a block carved out of the free list keeps the arena well formed. *)
Lemma install_block_ok a off n free2 capacity :
  host_ok a -> 0 < n ->
  separated 0 free2 ->
  (forall b, cover b free2 + Z.b2z (holds b (MkBlock off n)) = cover b (host_free a)) ->
  Z.of_nat (size (host_live a)) + 2 <= capacity ->
  (forall q b, host_live a !! q = Some b -> apart b (MkBlock off n)) /\
  host_live a !! (host_base a + off) = None /\
  host_ok (MkHost (host_base a) (host_cap a) (host_used a + n) free2 capacity
             (<[host_base a + off := MkBlock off n]> (host_live a))).
Proof.
  intros Hok Hn Hsep Hcov Hres.
  assert (forall q b, host_live a !! q = Some b -> apart b (MkBlock off n)) as Hapart.
  { intros q b Hq. apply (cover_apart _ _ (live_blocks a)).
    - apply live_blocks_elem. eauto.
    - by apply Hok in Hq as [_ ?].
    - done.
    - intros c. specialize (Hcov c). pose proof (ok_cover _ Hok c). pose proof (cover_nonneg c free2).
      destruct ((0 <=? c) && (c <? host_cap a)); simpl in *; lia. }
  assert (host_live a !! (host_base a + off) = None) as Hfresh.
  { destruct (host_live a !! (host_base a + off)) as [b|] eqn:E; [exfalso|done].
    pose proof (Hapart _ _ E) as Hap. apply Hok in E as [E1 E2]. unfold apart in Hap. simpl in Hap. lia. }
  split_and!; [done..|]. constructor; simpl.
  - apply Hok.
  - done.
  - intros p b [[<- <-]|[_ Hpb]]%lookup_insert_Some; simpl; [done|by apply Hok].
  - intros b. unfold live_blocks. simpl.
    rewrite (cover_Permutation b _ _ (live_blocks_insert a _ _ Hfresh)), cover_cons.
    rewrite <- (ok_cover _ Hok b), <- (Hcov b). lia.
  - unfold live_blocks. simpl.
    rewrite (total_size_Permutation _ _ (live_blocks_insert a _ _ Hfresh)). simpl.
    rewrite (ok_used _ Hok). lia.
  - rewrite map_size_insert_None by done. lia.
Qed.

(** A free span of [n] bytes leaves room for them in the used counter. *)
Lemma free_span_room a j s n :
  host_ok a -> host_free a !! j = Some s -> n <= blk_size s -> host_used a + n <= host_cap a.
Proof.
  intros Hok Hj Hn. pose proof (ok_accounting a Hok).
  pose proof (total_size_Permutation _ _ (delete_Permutation _ _ _ Hj)) as Ht. simpl in Ht.
  pose proof (total_size_nonneg _ (separated_sizes _ _ (separated_delete 0 _ j (ok_separated _ Hok)))).
  lia.
Qed.

Lemma try_alloc_spec a n align :
  host_ok a -> 0 < n -> 0 < align -> is_power_of_two align = true ->
  host_base a + host_cap a + align <= size_max ->
  (exists p a', try_alloc n align a = (Ok (Some p), a') /\ host_ok a' /\
     p mod align = 0 /\ host_base a <= p /\ p + n <= host_base a + host_cap a /\
     host_live a' = <[p := MkBlock (p - host_base a) n]> (host_live a) /\
     host_used a' = host_used a + n /\
     (forall q b, host_live a !! q = Some b -> apart b (MkBlock (p - host_base a) n))) \/
  (try_alloc n align a = (Ok None, a) /\
   forall o, (host_base a + o) mod align = 0 ->
     exists b, o <= b < o + n /\ cover b (host_free a) = 0).
Proof.
  intros Hok Hn Ha Hp Hmax. pose proof (ok_base _ Hok) as (Hb & Hcap & Hb2).
  unfold try_alloc, st_throw_if, lift, throw_if, get, put, mret, st_ret, mbind, st_bind.
  replace (host_base a =? 0) with false by lia. rewrite Hp. simpl.
  replace (n =? 0) with false by lia.
  assert (Forall (fun s => 0 <= blk_off s /\ blk_off s + blk_size s <= host_cap a /\
    0 < blk_size s) (host_free a)) as Hbounds.
  { apply Forall_forall. intros s Hs. pose proof (ok_bounds a s Hok (or_introl Hs)). lia. }
  destruct (Z.ltb_spec (host_cap a) n) as [Hbig|Hbig].
  { right. split; [done|]. intros o _.
    destruct (free_run_or_gap (host_free a) o n (ok_separated _ Hok) Hn) as [(s & Hs & ? & ?)|]; [|done].
    rewrite Forall_forall in Hbounds. specialize (Hbounds s Hs). lia. }
  destruct (find_span_spec (host_base a) (host_cap a) n align ltac:(lia) Ha Hp Hmax Hn
    (host_free a) 0 Hbounds) as [(j & s & lead & -> & Hj & Hl & Hfit & Hal)|[-> Hno]].
  2: { right. split; [done|]. intros o Hal.
       destruct (free_run_or_gap (host_free a) o n (ok_separated _ Hok) Hn) as [(s & Hs & ? & ?)|]; [|done].
       by destruct (Hno s o). }
  left. simpl. rewrite !insert_free_if.
  destruct (carve_free a j s lead n Hok Hj Hl Hn Hfit) as [Hsep Hcov]. cbv zeta in Hsep, Hcov.
  set (free2 := insert_free _ (blk_off s) lead) in *.
  set (capacity := if host_free_capacity a <? _ then _ else _).
  assert (Z.of_nat (size (host_live a)) + 2 <= capacity) as Hres.
  { subst capacity. destruct (Z.ltb_spec (host_free_capacity a) (Z.of_nat (size (host_live a)) + 2)); lia. }
  destruct (install_block_ok a _ n free2 capacity Hok Hn Hsep Hcov Hres) as (Hapart & Hfresh & Hok').
  rewrite bool_decide_eq_false_2 by (rewrite Hfresh; by intros [? ?]).
  destruct (ok_bounds a s Hok (or_introl (list_elem_of_lookup_2 _ _ _ Hj))) as (Hz & Ho & Hoe).
  pose proof (free_span_room a j s n Hok Hj ltac:(lia)). pose proof (ok_used_bound a Hok).
  eexists _, _. split; [done|]. simpl. rewrite wrap64_id by width_lia.
  rewrite Z.add_simpl_l.
  split_and!; try done; try lia. by rewrite Z.add_assoc.
Qed.

Lemma host_free_spec a p blk :
  host_ok a -> host_live a !! p = Some blk ->
  exists a', host_free_block p a = (Ok tt, a') /\ host_ok a' /\
    host_live a' = delete p (host_live a) /\ host_used a' = host_used a - blk_size blk /\
    forall b, cover b (host_free a') = cover b (host_free a) + Z.b2z (holds b blk).
Proof.
  intros Hok Hp. pose proof (ok_live _ Hok _ _ Hp) as [Hpe Hz].
  pose proof (ok_base _ Hok) as (Hb & Hcap & Hb2).
  assert (blk ∈ live_blocks a) as Hin by (apply live_blocks_elem; eauto).
  destruct (ok_bounds a blk Hok (or_intror Hin)) as (_ & Ho & Hoe).
  unfold host_free_block, st_throw_if, lift, throw_if, get, put, mbind, st_bind.
  replace (p =? 0) with false by lia. rewrite Hp.
  pose proof (live_blocks_delete a p blk Hp) as Hperm.
  assert (forall b, cover b (insert_free (host_free a) (blk_off blk) (blk_size blk)) =
    cover b (host_free a) + Z.b2z (holds b blk)) as Hcov.
  { intros b. rewrite insert_free_cover by (lia || eapply separated_sizes, Hok).
    by destruct blk. }
  pose proof (ok_used_bound a Hok).
  pose proof (ok_used _ Hok) as Hu. rewrite (total_size_Permutation _ _ Hperm) in Hu. simpl in Hu.
  assert (0 <= total_size (map_to_list (delete p (host_live a))).*2) as Hnn.
  { apply total_size_nonneg, Forall_forall. intros s Hs. apply list_elem_of_fmap in Hs as ([q t] & -> & Hs).
    apply elem_of_map_to_list in Hs. apply lookup_delete_Some in Hs as [_ Hs]. apply Hok in Hs. simpl. lia. }
  eexists. split; [done|]. simpl. rewrite wrap64_id by width_lia.
  split; [|done]. constructor; simpl; [done| | | |unfold live_blocks; simpl; lia|].
  - apply insert_free_fresh; [apply Hok|done|lia|]. intros b.
    pose proof (ok_cover _ Hok b) as Hc. rewrite (cover_Permutation b _ _ Hperm), cover_cons in Hc.
    pose proof (cover_nonneg b (map_to_list (delete p (host_live a))).*2).
    assert (holds b (MkBlock (blk_off blk) (blk_size blk)) = holds b blk) as -> by done.
    destruct ((0 <=? b) && (b <? host_cap a)); simpl in Hc; lia.
  - intros q t [_ Hq]%lookup_delete_Some. by apply Hok.
  - intros b. pose proof (ok_cover _ Hok b) as Hc.
    rewrite (cover_Permutation b _ _ Hperm), cover_cons in Hc. rewrite Hcov.
    unfold live_blocks. simpl. lia.
  - rewrite map_size_delete_Some by eauto. pose proof (ok_reserve _ Hok). lia.
Qed.

(** ** Reachable arenas, and the free-list reserve *)

(** One client call: any allocation request, or the release of a live block. *)
Inductive host_step : HostPinnedArena -> HostPinnedArena -> Prop :=
| step_alloc a n align r a' :
    0 < n -> 0 < align -> is_power_of_two align = true ->
    host_base a + host_cap a + align <= size_max ->
    try_alloc n align a = (r, a') -> host_step a a'
| step_free a p r a' :
    is_Some (host_live a !! p) -> host_free_block p a = (r, a') -> host_step a a'.

Definition host_reachable (base capacity : Z) (a : HostPinnedArena) : Prop :=
  exists a0, host_arena_new base capacity = Ok a0 /\ rtc host_step a0 a.

Lemma host_new_ok base capacity a :
  0 < base -> 0 <= capacity -> base + capacity <= size_max ->
  host_arena_new base capacity = Ok a -> host_ok a.
Proof.
  intros Hb Hc Hm. unfold host_arena_new. intros H. res_inv H. injection H as <-. guards.
  constructor; simpl; try done; try lia.
  intros b. unfold live_blocks. simpl. rewrite map_to_list_empty. simpl.
  by rewrite !Z.add_0_r.
Qed.

Lemma host_step_ok a a' : host_ok a -> host_step a a' -> host_ok a'.
Proof.
  intros Hok Hstep. revert Hok.
  destruct Hstep as [b n align r b' Hn Ha Hp Hm Hrun|b p r b' [blk Hp] Hrun]; intros Hok.
  - destruct (try_alloc_spec b n align Hok Hn Ha Hp Hm) as [(p & a1 & E & Hok' & _)|[E _]];
      rewrite E in Hrun; by injection Hrun as <- <-.
  - destruct (host_free_spec b p blk Hok Hp) as (a1 & E & Hok' & _).
    rewrite E in Hrun. by injection Hrun as <- <-.
Qed.

Lemma host_reachable_ok base capacity a :
  0 < base -> 0 <= capacity -> base + capacity <= size_max ->
  host_reachable base capacity a -> host_ok a.
Proof.
  intros Hb Hc Hm (a0 & Hnew & Hrtc). apply host_new_ok in Hnew; [|done..].
  induction Hrtc; eauto using host_step_ok.
Qed.

Lemma separated_unique lo l s t b :
  separated lo l -> s ∈ l -> t ∈ l -> holds b s = true -> holds b t = true -> s = t.
Proof.
  revert lo. induction l as [|u l IH]; intros lo; [by intros _ ?%elem_of_nil|].
  intros (H1 & H2 & H3) [->|Hs]%elem_of_cons [->|Ht]%elem_of_cons Hhs Hht; [done| | |eauto];
    rewrite holds_true in *.
  - pose proof (separated_lower _ _ _ H3 Ht). lia.
  - pose proof (separated_lower _ _ _ H3 Hs). lia.
Qed.

(** A free span that does not start the region is preceded by a live block. *)
Lemma free_span_neighbour a s :
  host_ok a -> s ∈ host_free a -> 0 < blk_off s ->
  exists b, b ∈ live_blocks a /\ blk_off b + blk_size b = blk_off s.
Proof.
  intros Hok Hs Ho. destruct (ok_bounds a s Hok (or_introl Hs)) as (Hz & _ & He).
  assert (holds (blk_off s) s = true) as Hss by (apply holds_true; lia).
  pose proof (cover_elem _ _ _ Hs Hss) as Hcs.
  pose proof (ok_cover _ Hok (blk_off s - 1)) as Hc. pose proof (ok_cover _ Hok (blk_off s)) as Hc'.
  replace ((0 <=? blk_off s - 1) && (blk_off s - 1 <? host_cap a)) with true in Hc by lia.
  replace ((0 <=? blk_off s) && (blk_off s <? host_cap a)) with true in Hc' by lia. simpl in Hc, Hc'.
  destruct (decide (0 < cover (blk_off s - 1) (host_free a))) as [Hp|Hp].
  - exfalso. destruct (free_run_in_span (host_free a) (blk_off s - 1) 2) as (t & Ht & H1 & H2).
    { apply Hok. }
    { lia. }
    { intros b Hb. assert (b = blk_off s - 1 \/ b = blk_off s) as [->| ->] by lia; lia. }
    assert (t = s) as -> by (eapply (separated_unique 0 _ t s (blk_off s)); [apply Hok|done|done| |done];
      apply holds_true; lia).
    lia.
  - destruct (cover_pos (blk_off s - 1) (live_blocks a)) as (b & Hb & Hh%holds_true).
    { pose proof (cover_nonneg (blk_off s - 1) (host_free a)). lia. }
    exists b. split; [done|].
    destruct (decide (holds (blk_off s) b = true)) as [Hbs|Hbs].
    + pose proof (cover_elem _ _ _ Hb Hbs). lia.
    + rewrite holds_true in Hbs. lia.
Qed.

Lemma separated_offsets_NoDup lo l : separated lo l -> NoDup (blk_off <$> l).
Proof.
  revert lo. induction l as [|s l IH]; intros lo; [constructor|].
  intros (H1 & H2 & H3). simpl. constructor; [|eauto].
  intros (t & Heq & Ht)%list_elem_of_fmap. pose proof (separated_lower _ _ _ H3 Ht). lia.
Qed.

(** [N] live blocks separate at most [N + 1] free spans. *)
Lemma free_list_bound a :
  host_ok a -> (length (host_free a) <= S (size (host_live a)))%nat.
Proof.
  intros Hok. destruct (host_free a) as [|s0 l] eqn:Hf; simpl; [lia|].
  pose proof (ok_separated _ Hok) as Hsep. rewrite Hf in Hsep. destruct Hsep as (H1 & H2 & H3).
  assert (blk_off <$> l ⊆+ (fun b => blk_off b + blk_size b) <$> live_blocks a) as Hsub.
  { apply NoDup_submseteq; [by eapply separated_offsets_NoDup|].
    intros o (s & -> & Hs)%list_elem_of_fmap.
    destruct (free_span_neighbour a s Hok) as (b & Hb & <-).
    - rewrite Hf. by right.
    - pose proof (separated_lower _ _ _ H3 Hs). lia.
    - apply list_elem_of_fmap. eauto. }
  apply submseteq_length in Hsub. unfold live_blocks in Hsub. rewrite !length_fmap in Hsub.
  rewrite length_map_to_list in Hsub. lia.
Qed.

(** In every arena reachable from construction by allocations and frees, the
    bytes add up ([used] plus the free spans is the capacity), and the free list
    fits the vector reserve, so that freeing any live block never has to grow
    the vector. *)
Theorem host_arena_frees_never_allocate base capacity a :
  0 < base -> 0 <= capacity -> base + capacity <= size_max ->
  host_reachable base capacity a ->
  host_used a + total_size (host_free a) = host_cap a /\
  (forall p blk, host_live a !! p = Some blk ->
   exists a', host_free_block p a = (Ok tt, a') /\
     Z.of_nat (length (host_free a')) <= host_free_capacity a /\
     host_free_capacity a' = host_free_capacity a).
Proof.
  intros Hb Hc Hm Hr. pose proof (host_reachable_ok base capacity a Hb Hc Hm Hr) as Hok.
  split; [by apply ok_accounting|]. intros p blk Hp.
  destruct (host_free_spec a p blk Hok Hp) as (a' & E & Hok' & Hl & _).
  exists a'. split; [done|].
  pose proof (free_list_bound a' Hok') as Hlen. rewrite Hl, map_size_delete_Some in Hlen by eauto.
  pose proof (ok_reserve _ Hok).
  assert (host_free_capacity a' = host_free_capacity a) as Hcap.
  { revert E. unfold host_free_block, st_throw_if, lift, throw_if, get, put, mbind, st_bind.
    destruct (p =? 0); [done|]. rewrite Hp. by intros [= <-]. }
  split; [|done]. lia.
Qed.

(** [try_alloc] on a well-formed arena never throws.  Either it returns an
    aligned block of the requested size inside the region that overlaps no live
    block, and the arena stays well formed; or it returns null, nothing changes,
    and no aligned run of [n] free bytes exists. *)
Theorem try_alloc_correct a n align :
  host_ok a -> 0 < n -> 0 < align -> is_power_of_two align = true ->
  host_base a + host_cap a + align <= size_max ->
  (exists p a', try_alloc n align a = (Ok (Some p), a') /\ host_ok a' /\
     p mod align = 0 /\ host_base a <= p /\ p + n <= host_base a + host_cap a /\
     host_live a' = <[p := MkBlock (p - host_base a) n]> (host_live a) /\
     host_used a' = host_used a + n /\
     (forall q b, host_live a !! q = Some b -> apart b (MkBlock (p - host_base a) n))) \/
  (try_alloc n align a = (Ok None, a) /\
   forall o, (host_base a + o) mod align = 0 ->
     exists b, o <= b < o + n /\ cover b (host_free a) = 0).
Proof. apply try_alloc_spec. Qed.

(** Freeing a live block never throws, returns exactly its bytes to the free
    list (merged with its neighbours) and keeps the arena well formed. *)
Theorem host_free_correct a p blk :
  host_ok a -> host_live a !! p = Some blk ->
  exists a', host_free_block p a = (Ok tt, a') /\ host_ok a' /\
    host_live a' = delete p (host_live a) /\ host_used a' = host_used a - blk_size blk /\
    forall b, cover b (host_free a') = cover b (host_free a) + Z.b2z (holds b blk).
Proof. apply host_free_spec. Qed.

(** ** Witnesses *)
Definition demo_host : HostPinnedArena := MkHost 4096 1024 0 [MkBlock 0 1024] 1 ∅.

Lemma demo_host_new : host_arena_new 4096 1024 = Ok demo_host.
Proof. reflexivity. Qed.

Lemma demo_host_ok : host_ok demo_host.
Proof. apply (host_new_ok 4096 1024); [lia|lia|vm_compute; congruence|apply demo_host_new]. Qed.

Lemma demo_host_step : host_step demo_host (snd (try_alloc 100 64 demo_host)).
Proof.
  eapply (step_alloc demo_host 100 64);
    [lia|lia|reflexivity|vm_compute; congruence|apply surjective_pairing].
Qed.

Lemma host_arena_frees_never_allocate_witness :
  host_used (snd (try_alloc 100 64 demo_host)) + total_size (host_free (snd (try_alloc 100 64 demo_host)))
  = host_cap (snd (try_alloc 100 64 demo_host)).
Proof.
  apply (host_arena_frees_never_allocate 4096 1024); [lia|lia|vm_compute; congruence|].
  exists demo_host. split; [apply demo_host_new|]. apply rtc_once, demo_host_step.
Defined.

Lemma try_alloc_correct_witness :
  exists p a', try_alloc 100 64 demo_host = (Ok (Some p), a') /\ host_ok a' /\ p mod 64 = 0.
Proof.
  destruct (try_alloc_correct demo_host 100 64) as [(p & a' & H1 & H2 & H3 & _)|[H _]].
  - exact demo_host_ok.
  - lia.
  - lia.
  - reflexivity.
  - vm_compute. congruence.
  - exact (ex_intro _ p (ex_intro _ a' (conj H1 (conj H2 H3)))).
  - vm_compute in H. discriminate H.
Defined.

Lemma host_free_correct_witness :
  exists a', host_free_block 4096 (snd (try_alloc 100 64 demo_host)) = (Ok tt, a') /\ host_used a' = 0.
Proof.
  destruct (host_free_correct (snd (try_alloc 100 64 demo_host)) 4096 (MkBlock 0 100))
    as (a' & H1 & _ & _ & H2 & _).
  - exact (host_step_ok _ _ demo_host_ok demo_host_step).
  - vm_compute. reflexivity.
  - exists a'. split; [exact H1|]. rewrite H2. vm_compute. reflexivity.
Defined.
