(* ===== verification/Bytes.v ===== *)
(** * Little-endian integers and the memory the copies run on

    [le_bytes]/[le_value] are the byte images of fixed-width integers, as the
    entry headers and the device block tables store them.  [Memory] is the
    interface to the CUDA runtime's copies and to [std::memcpy]: the address
    space is unified, every call names byte addresses, and calls on one stream
    take effect in order.  The laws are the documented effect of the calls; the
    overlap conditions are the documented preconditions. *)

From stdpp Require Import prelude list list_numbers.
From Stdlib Require Import ZArith Lia.
From S2P Require Import Prelude.
#[local] Open Scope Z_scope.

(** ** Little-endian images *)
Fixpoint le_bytes (n : nat) (x : Z) : list Z :=
  match n with
  | O => []
  | S n => x mod 256 :: le_bytes n (x / 256)
  end.

Fixpoint le_value (l : list Z) : Z :=
  match l with
  | [] => 0
  | b :: l => b + 256 * le_value l
  end.

(** [static_cast<std::int32_t>] of a 32-bit pattern, and of a 64-bit one. *)
Definition to_i32 (x : Z) : Z := if x <? 2 ^ 31 then x else x - 2 ^ 32.
Definition to_i64 (x : Z) : Z := if x <? 2 ^ 63 then x else x - 2 ^ 64.

Definition is_byte (b : Z) : Prop := 0 <= b < 256.

Lemma length_le_bytes n x : length (le_bytes n x) = n.
Proof. revert x. induction n; intros; simpl; auto. Qed.

Lemma le_bytes_bytes n x : Forall is_byte (le_bytes n x).
Proof.
  revert x. induction n; intros; simpl; constructor; [|done].
  unfold is_byte. apply Z.mod_pos_bound. lia.
Qed.

Lemma le_value_bytes n x : le_value (le_bytes n x) = x mod 2 ^ (8 * Z.of_nat n).
Proof.
  revert x. induction n as [|n IH]; intros x; [by rewrite Z.mod_1_r|].
  cbn [le_bytes le_value]. rewrite IH.
  replace (2 ^ (8 * Z.of_nat (S n))) with (256 * 2 ^ (8 * Z.of_nat n)).
  - rewrite Z.rem_mul_r by lia. done.
  - rewrite Nat2Z.inj_succ, <- Z.add_1_r, Z.mul_add_distr_l, Z.pow_add_r by lia. simpl. lia.
Qed.

Lemma le_value_bytes_small n x :
  0 <= x < 2 ^ (8 * Z.of_nat n) -> le_value (le_bytes n x) = x.
Proof. intros. rewrite le_value_bytes. by apply Z.mod_small. Qed.

Lemma le_value_u32 x : u32 x -> le_value (le_bytes 4 x) = x.
Proof. intros. apply le_value_bytes_small. simpl. width_lia. Qed.

Lemma le_value_u64 x : u64 x -> le_value (le_bytes 8 x) = x.
Proof. intros. apply le_value_bytes_small. simpl. width_lia. Qed.

Lemma le_value_i32 x : i32 x -> to_i32 (le_value (le_bytes 4 x)) = x.
Proof.
  intros Hx. rewrite le_value_bytes. unfold to_i32. change (2 ^ (8 * Z.of_nat 4)) with (2 ^ 32).
  autounfold with width in *. destruct (decide (0 <= x)).
  - rewrite Z.mod_small by lia. destruct (Z.ltb_spec x (2 ^ 31)); lia.
  - rewrite <- (Z.mod_add _ 1), Z.mod_small by lia.
    destruct (Z.ltb_spec (x + 1 * 2 ^ 32) (2 ^ 31)); lia.
Qed.

Lemma le_value_i64 x : i64 x -> to_i64 (le_value (le_bytes 8 x)) = x.
Proof.
  intros Hx. rewrite le_value_bytes. unfold to_i64. change (2 ^ (8 * Z.of_nat 8)) with (2 ^ 64).
  autounfold with width in *. destruct (decide (0 <= x)).
  - rewrite Z.mod_small by lia. destruct (Z.ltb_spec x (2 ^ 63)); lia.
  - rewrite <- (Z.mod_add _ 1), Z.mod_small by lia.
    destruct (Z.ltb_spec (x + 1 * 2 ^ 64) (2 ^ 63)); lia.
Qed.

(** ** Memory *)

(** Byte [a] is in the pitched rectangle of [height] rows of [width] bytes. *)
Definition in_rect (base pitch width height a : Z) : Prop :=
  exists r c, 0 <= r < height /\ 0 <= c < width /\ a = base + r * pitch + c.

Class Memory (M : Type) : Type := {
  load : M -> Z -> Z;
  (** [cudaMemcpyAsync(dst, src, n, ...)] and [std::memcpy] *)
  memcpy : Z -> Z -> Z -> M -> M;
  (** [cudaMemcpy2DAsync(dst, dpitch, src, spitch, width, height, ...)] *)
  memcpy2d : Z -> Z -> Z -> Z -> Z -> Z -> M -> M;
  (** [cudaMemsetAsync(dst, value, n)] *)
  memset : Z -> Z -> Z -> M -> M;
  (** [cudaMemset2DAsync(dst, pitch, value, width, height)] *)
  memset2d : Z -> Z -> Z -> Z -> Z -> M -> M;
  (** a host-to-device [cudaMemcpyAsync] out of a [std::vector]'s storage *)
  upload : Z -> list Z -> M -> M;

  memcpy_in m dst src n i :
    0 <= i < n -> dst + n <= src \/ src + n <= dst ->
    load (memcpy dst src n m) (dst + i) = load m (src + i);
  memcpy_out m dst src n a :
    a < dst \/ dst + n <= a -> load (memcpy dst src n m) a = load m a;
  memcpy2d_in m dst dpitch src spitch width height r c :
    0 <= r < height -> 0 <= c < width -> width <= dpitch -> width <= spitch ->
    (forall a, in_rect dst dpitch width height a -> ~ in_rect src spitch width height a) ->
    load (memcpy2d dst dpitch src spitch width height m) (dst + r * dpitch + c) =
    load m (src + r * spitch + c);
  memcpy2d_out m dst dpitch src spitch width height a :
    width <= dpitch -> ~ in_rect dst dpitch width height a ->
    load (memcpy2d dst dpitch src spitch width height m) a = load m a;
  memset_in m dst v n i : 0 <= i < n -> load (memset dst v n m) (dst + i) = v;
  memset_out m dst v n a : a < dst \/ dst + n <= a -> load (memset dst v n m) a = load m a;
  memset2d_in m dst pitch v width height a :
    width <= pitch -> in_rect dst pitch width height a -> load (memset2d dst pitch v width height m) a = v;
  memset2d_out m dst pitch v width height a :
    width <= pitch -> ~ in_rect dst pitch width height a ->
    load (memset2d dst pitch v width height m) a = load m a;
  upload_in m dst l i b : l !! i = Some b -> load (upload dst l m) (dst + Z.of_nat i) = b;
  upload_out m dst l a :
    a < dst \/ dst + Z.of_nat (length l) <= a -> load (upload dst l m) a = load m a;
}.

(** ** A concrete memory: total maps from addresses to bytes *)
Definition in_rect_bool (base pitch width height a : Z) : bool :=
  (0 <? pitch) && (0 <=? a - base) && ((a - base) / pitch <? height) && ((a - base) mod pitch <? width).

Lemma in_rect_bool_spec base pitch width height a :
  width <= pitch -> in_rect_bool base pitch width height a = true <-> in_rect base pitch width height a.
Proof.
  intros Hw. unfold in_rect_bool, in_rect. split.
  - intros H. guards. exists ((a - base) / pitch), ((a - base) mod pitch).
    pose proof (Z.mod_pos_bound (a - base) pitch ltac:(lia)).
    pose proof (Z.div_pos (a - base) pitch ltac:(lia) ltac:(lia)).
    pose proof (Z.div_mod (a - base) pitch ltac:(lia)). split_and!; lia.
  - intros (r & c & Hr & Hc & ->).
    assert (base + r * pitch + c - base = r * pitch + c) as -> by lia.
    rewrite Z.add_comm, Z.div_add, Z.mod_add by lia.
    rewrite Z.div_small, Z.mod_small by lia.
    assert (0 <= r * pitch) by nia. lia.
Qed.

#[export] Program Instance fun_memory : Memory (Z -> Z) := {|
  load m a := m a;
  memcpy dst src n m := fun a => if (dst <=? a) && (a <? dst + n) then m (src + (a - dst)) else m a;
  memcpy2d dst dpitch src spitch width height m := fun a =>
    if in_rect_bool dst dpitch width height a
    then m (src + (a - dst) / dpitch * spitch + (a - dst) mod dpitch) else m a;
  memset dst v n m := fun a => if (dst <=? a) && (a <? dst + n) then v else m a;
  memset2d dst pitch v width height m := fun a =>
    if in_rect_bool dst pitch width height a then v else m a;
  upload dst l m := fun a =>
    if (dst <=? a) && (a <? dst + Z.of_nat (length l))
    then nth (Z.to_nat (a - dst)) l 0 else m a;
|}.
Next Obligation.
  intros m dst src n i Hi _. cbv beta.
  replace ((dst <=? dst + i) && (dst + i <? dst + n)) with true by lia.
  f_equal. lia.
Qed.
Next Obligation.
  intros m dst src n a Ha. cbv beta.
  by replace ((dst <=? a) && (a <? dst + n)) with false by lia.
Qed.
Next Obligation.
  intros m dst dpitch src spitch width height r c Hr Hc Hd Hs _. cbv beta.
  rewrite (proj2 (in_rect_bool_spec dst dpitch width height _ Hd)) by (exists r, c; done).
  replace (dst + r * dpitch + c - dst) with (c + r * dpitch) by lia.
  rewrite Z.div_add, Z.mod_add, Z.div_small, Z.mod_small by lia. f_equal; lia.
Qed.
Next Obligation.
  intros m dst dpitch src spitch width height a Hw Ha. cbv beta.
  destruct (in_rect_bool dst dpitch width height a) eqn:E; [|done].
  by apply in_rect_bool_spec in E.
Qed.
Next Obligation.
  intros m dst v n i Hi. cbv beta.
  by replace ((dst <=? dst + i) && (dst + i <? dst + n)) with true by lia.
Qed.
Next Obligation.
  intros m dst v n a Ha. cbv beta.
  by replace ((dst <=? a) && (a <? dst + n)) with false by lia.
Qed.
Next Obligation.
  intros m dst pitch v width height a Hw Ha. cbv beta.
  by rewrite (proj2 (in_rect_bool_spec dst pitch width height a Hw)).
Qed.
Next Obligation.
  intros m dst pitch v width height a Hw Ha. cbv beta.
  destruct (in_rect_bool dst pitch width height a) eqn:E; [|done].
  by apply in_rect_bool_spec in E.
Qed.
Next Obligation.
  intros m dst l i b Hi. cbv beta. pose proof (lookup_lt_Some _ _ _ Hi).
  replace ((dst <=? dst + Z.of_nat i) && (dst + Z.of_nat i <? dst + Z.of_nat (length l)))
    with true by lia.
  replace (Z.to_nat (dst + Z.of_nat i - dst)) with i by lia.
  by apply nth_lookup_Some.
Qed.
Next Obligation.
  intros m dst l a Ha. cbv beta.
  by replace ((dst <=? a) && (a <? dst + Z.of_nat (length l))) with false by lia.
Qed.

(** ** Arrays of [std::int32_t] in memory *)
Section i32_arrays.
Context {M : Type} `{!Memory M}.

Definition load_bytes (m : M) (a : Z) (n : nat) : list Z :=
  (fun i => load m (a + Z.of_nat i)) <$> seq 0 n.

Definition load_i32 (m : M) (a : Z) : Z := to_i32 (le_value (load_bytes m a 4)).

(** The bytes of an array of 32-bit integers. *)
Definition i32_image (l : list Z) : list Z := concat (le_bytes 4 <$> l).

Definition upload_i32s (dst : Z) (l : list Z) (m : M) : M := upload dst (i32_image l) m.

Lemma length_i32_image l : length (i32_image l) = (4 * length l)%nat.
Proof.
  unfold i32_image. induction l as [|x l IH]; [done|].
  cbn [fmap list_fmap concat length]. rewrite length_app, length_le_bytes, IH. lia.
Qed.

Lemma lookup_i32_image l i j x :
  l !! i = Some x -> (j < 4)%nat -> i32_image l !! (4 * i + j)%nat = le_bytes 4 x !! j.
Proof.
  revert i. induction l as [|y l IH]; intros i Hi Hj; [done|].
  unfold i32_image. cbn [fmap list_fmap concat]. destruct i as [|i]; simpl in Hi.
  - injection Hi as ->. rewrite lookup_app_l by (rewrite length_le_bytes; lia).
    done.
  - rewrite lookup_app_r, length_le_bytes by (rewrite length_le_bytes; lia).
    rewrite <- (IH i Hi Hj). f_equal. lia.
Qed.

Lemma load_bytes_ext (m m' : M) a n :
  (forall i, 0 <= i < Z.of_nat n -> load m (a + i) = load m' (a + i)) ->
  load_bytes m a n = load_bytes m' a n.
Proof.
  intros H. apply list_fmap_ext. intros i x Hi%lookup_seq. apply H. lia.
Qed.

Lemma load_i32_ext (m m' : M) a :
  (forall i, 0 <= i < 4 -> load m (a + i) = load m' (a + i)) -> load_i32 m a = load_i32 m' a.
Proof. intros H. unfold load_i32. do 2 f_equal. by apply load_bytes_ext. Qed.

Lemma upload_i32s_in (m : M) dst l i x :
  l !! i = Some x -> i32 x -> load_i32 (upload_i32s dst l m) (dst + 4 * Z.of_nat i) = x.
Proof.
  intros Hi Hx. transitivity (to_i32 (le_value (le_bytes 4 x))); [|by apply le_value_i32].
  unfold load_i32. do 2 f_equal.
  apply list_eq. intros j. unfold load_bytes. rewrite list_lookup_fmap.
  destruct (decide (j < 4)%nat) as [Hj|Hj].
  - rewrite lookup_seq_lt by done. cbn [fmap option_fmap option_map].
    destruct (le_bytes 4 x !! j) as [b|] eqn:Hb.
    2: { apply lookup_ge_None in Hb. rewrite length_le_bytes in Hb. lia. }
    f_equal. replace (dst + 4 * Z.of_nat i + Z.of_nat (0 + j)) with (dst + Z.of_nat (4 * i + j)) by lia.
    apply upload_in. by rewrite (lookup_i32_image l i j x).
  - rewrite !lookup_ge_None_2; [done|rewrite length_le_bytes; lia|rewrite length_seq; lia].
Qed.

Lemma upload_i32s_out (m : M) dst l a :
  a + 4 <= dst \/ dst + 4 * Z.of_nat (length l) <= a ->
  load_i32 (upload_i32s dst l m) a = load_i32 m a.
Proof.
  intros Ha. apply load_i32_ext. intros i Hi. apply upload_out. rewrite length_i32_image. lia.
Qed.
End i32_arrays.
