(* ===== verification/PagedPool.v ===== *)
(** * core/paged_kv_cache.{h,cpp}: pools and allocations

    A [PagedKVPool] owns a fixed set of physical page groups and a matrix of
    device block tables.  [PagedKVAllocation]s reserve page entitlements, turn
    them into pages as a sequence grows, publish the page ids into a block-table
    row and give everything back.  Pools and allocations refer to each other by
    pointer, so the state is a [world] of both, with the memory the block tables
    live in.  Copies of page contents are in [PagedCopy]. *)

From stdpp Require Import prelude list list_numbers sorting gmap.
From Stdlib Require Import ZArith Lia.
From S2P Require Import Prelude.
From S2P Require Import Tensor.
From S2P Require Import Layout.
From S2P Require Import Bytes.
#[local] Open Scope Z_scope.

Definition kPagedKVPageSize : Z := 64.

Inductive PagedKVPlaneOrder : Type := PageMajor | HeadMajor.

#[export] Instance PagedKVPlaneOrder_eq_dec : EqDecision PagedKVPlaneOrder.
Proof. solve_decision. Defined.

Record PagedKVPlaneSpec : Type := MkPlaneSpec {
  plane_dtype : DType;
  leading_extent : Z;
  head_extent : Z;
  plane_alignment : Z;
}.

Record PagedKVPoolSpec : Type := MkPoolSpec {
  page_group_count : Z;
  logical_page_capacity : Z;
  table_rows : Z;
  plane_order : PagedKVPlaneOrder;
  spec_planes : list PagedKVPlaneSpec;
}.

Record PagedKVPlaneLayout : Type := MkPlaneLayout {
  layout_plane_spec : PagedKVPlaneSpec;
  storage : TensorRegion;
}.

Record PagedKVPoolLayout : Type := MkPoolLayout {
  layout_spec : PagedKVPoolSpec;
  layout_planes : list PagedKVPlaneLayout;
  layout_block_tables : TensorRegion;
}.

Record PagedKVPool : Type := MkPool {
  spec_ : PagedKVPoolSpec;
  planes_ : list Tensor;
  block_tables_ : Tensor;
  free_page_ids_ : list Z;
  row_in_use_ : list bool;
  entitled_pages_ : Z;
  mapped_pages_ : Z;
}.

(** A pool pointer is a key of the world's pools, [None] the null pointer. *)
Record PagedKVAllocation : Type := MkAlloc {
  pool_ : option N;
  page_ids_ : list Z;
  page_entitlement_ : Z;
  bound_row_ : Z;
}.

#[export] Instance PagedKVAllocation_eq_dec : EqDecision PagedKVAllocation.
Proof. solve_decision. Defined.

(** The default-constructed allocation. *)
Definition empty_alloc : PagedKVAllocation := MkAlloc None [] 0 (-1).

(** ** Planning and construction *)
Definition checked_i32 (value : Z) : res Z :=
  throw_if ((value =? 0) || (i32_max <? value)) invalid_argument ;; Ok value.

Definition pages_for_tokens (tokens : Z) : Z :=
  if tokens =? 0 then 0 else 1 + (tokens - 1) / kPagedKVPageSize.

Definition plane_shape (order : PagedKVPlaneOrder) (plane : PagedKVPlaneSpec) (physical_pages : Z)
    : list Z :=
  match order with
  | PageMajor => [leading_extent plane; kPagedKVPageSize; head_extent plane; physical_pages]
  | HeadMajor => [leading_extent plane; kPagedKVPageSize; physical_pages; head_extent plane]
  end.

Fixpoint plan_planes (order : PagedKVPlaneOrder) (physical_pages : Z)
    (planes : list PagedKVPlaneSpec) : st LayoutBuilder (list PagedKVPlaneLayout) :=
  match planes with
  | [] => mret []
  | plane :: planes =>
      st_throw_if ((leading_extent plane <=? 0) || (head_extent plane <=? 0)) invalid_argument ;;
      s ← LayoutBuilder_add_tensor (plane_dtype plane) (plane_shape order plane physical_pages)
            (plane_alignment plane);
      rest ← plan_planes order physical_pages planes;
      mret (MkPlaneLayout plane s :: rest)
  end.

Definition plan_paged_kv_pool (spec : PagedKVPoolSpec) : st LayoutBuilder PagedKVPoolLayout :=
  physical_pages ← lift (checked_i32 (page_group_count spec));
  logical_pages ← lift (checked_i32 (logical_page_capacity spec));
  st_throw_if (table_rows spec <=? 0) invalid_argument ;;
  st_throw_if (bool_decide (spec_planes spec = [])) invalid_argument ;;
  planes ← plan_planes (plane_order spec) physical_pages (spec_planes spec);
  tables ← LayoutBuilder_add_tensor I32 [logical_pages; table_rows spec] 256;
  mret (MkPoolLayout spec planes tables).
#[global] Instance PlaneSpec_eq_dec : EqDecision PagedKVPlaneSpec.
Proof. solve_decision. Defined.

(** [PagedKVPoolLayout::payload_bytes] *)
Definition payload_bytes (layout : PagedKVPoolLayout) : Z :=
  foldl (fun total plane => wrap64 (total + region_bytes (region (storage plane)))) 0
        (layout_planes layout).

(** [PagedKVPoolLayout::metadata_bytes] *)
Definition metadata_bytes (layout : PagedKVPoolLayout) : Z :=
  region_bytes (region (layout_block_tables layout)).

(** Each planned plane must describe the plane of the spec at its index. *)
Fixpoint bind_planes (backing : DeviceSpan) (layouts : list PagedKVPlaneLayout)
    (specs : list PagedKVPlaneSpec) : res (list Tensor) :=
  match layouts, specs with
  | plane :: layouts, spec :: specs =>
      let p := layout_plane_spec plane in
      throw_if (negb (bool_decide (plane_dtype p = plane_dtype spec))
                || negb (leading_extent p =? leading_extent spec)
                || negb (head_extent p =? head_extent spec)) logic_error ;;
      t ← TensorRegion_bind (storage plane) backing;
      ts ← bind_planes backing layouts specs;
      Ok (t :: ts)
  | _, _ => Ok []
  end.

(** The constructor [PagedKVPool(backing, layout)]. *)
Definition make_pool (backing : DeviceSpan) (layout : PagedKVPoolLayout) : res PagedKVPool :=
  let spec := layout_spec layout in
  tables ← TensorRegion_bind (layout_block_tables layout) backing;
  throw_if (negb (length (layout_planes layout) =? length (spec_planes spec))%nat
            || (length (layout_planes layout) =? 0)%nat) invalid_argument ;;
  throw_if (negb (bool_decide (dtype tables = I32))) logic_error ;;
  cap ← checked_i32 (logical_page_capacity spec);
  throw_if (negb (v0 (ne tables) =? cap) || negb (v1 (ne tables) =? table_rows spec)) logic_error ;;
  planes ← bind_planes backing (layout_planes layout) (spec_planes spec);
  Ok (MkPool spec planes tables (seqZ 0 (page_group_count spec))
             (replicate (Z.to_nat (table_rows spec)) false) 0 0).

(** ** Pool operations *)
Definition with_free (P : PagedKVPool) (free : list Z) (mapped : Z) : PagedKVPool :=
  MkPool (spec_ P) (planes_ P) (block_tables_ P) free (row_in_use_ P) (entitled_pages_ P) mapped.

Definition with_entitled (P : PagedKVPool) (entitled : Z) : PagedKVPool :=
  MkPool (spec_ P) (planes_ P) (block_tables_ P) (free_page_ids_ P) (row_in_use_ P) entitled
         (mapped_pages_ P).

Definition with_rows (P : PagedKVPool) (rows : list bool) : PagedKVPool :=
  MkPool (spec_ P) (planes_ P) (block_tables_ P) (free_page_ids_ P) rows (entitled_pages_ P)
         (mapped_pages_ P).

(** [PagedKVPool::block_table_row] *)
Definition block_table_row (P : PagedKVPool) (row : Z) : res Tensor :=
  throw_if ((row <? 0) || (table_rows (spec_ P) <=? row)) out_of_range ;;
  t ← slice (block_tables_ P) 1 row 1;
  view t [logical_page_capacity (spec_ P)].

Definition free_pages (P : PagedKVPool) : Z := Z.of_nat (length (free_page_ids_ P)).

Definition can_reserve (P : PagedKVPool) (page_entitlement : Z) : bool :=
  negb (page_entitlement =? 0) && (page_entitlement <=? logical_page_capacity (spec_ P))
  && (page_entitlement <=? wrap32 (page_group_count (spec_ P) - entitled_pages_ P)).

Definition can_replace_entitlement (P : PagedKVPool) (old_pages new_pages : Z) : bool :=
  (old_pages <=? entitled_pages_ P) && (new_pages <=? logical_page_capacity (spec_ P))
  && (new_pages <=? wrap32 (page_group_count (spec_ P) - wrap32 (entitled_pages_ P - old_pages))).

(** The lambda [run_at] of [take_pages]: [count] consecutive ids at [begin]. *)
Definition run_at (free : list Z) (count begin : nat) : bool :=
  (begin + count <=? length free)%nat
  && forallb (fun offset => nth (begin + offset) free 0 =? nth begin free 0 + Z.of_nat offset)
             (seq 1 (count - 1)).

(** [std::lower_bound] over the sorted id list. *)
Fixpoint lower_bound (free : list Z) (v : Z) : nat :=
  match free with
  | x :: free => if x <? v then S (lower_bound free v) else O
  | [] => O
  end.

(** The scan [for (begin = 0; begin + count <= size; ++begin)]. *)
Definition first_run (free : list Z) (count : nat) : option nat :=
  head (filter (fun b => run_at free count b) (seq 0 (S (length free) - count))).

(** Where [take_pages] takes its run from: at the preferred id, at the first run,
    or nowhere. *)
Definition select_run (free : list Z) (count : nat) (preferred_first : Z) : option nat :=
  let preferred :=
    if 0 <=? preferred_first then
      let begin := lower_bound free preferred_first in
      match free !! begin with
      | Some x => if (x =? preferred_first) && run_at free count begin then Some begin else None
      | None => None
      end
    else None in
  match preferred with
  | Some begin => Some begin
  | None => first_run free count
  end.

Definition take_pages (P : PagedKVPool) (count preferred_first : Z) : res (list Z * PagedKVPool) :=
  if count =? 0 then Ok ([], P)
  else
    let free := free_page_ids_ P in
    throw_if (Z.of_nat (length free) <? count) logic_error ;;
    let n := Z.to_nat count in
    let begin := default O (select_run free n preferred_first) in
    Ok (take n (drop begin free),
        with_free P (take begin free ++ drop (begin + n) free)
                  (wrap32 (mapped_pages_ P + count))).

Definition return_pages (P : PagedKVPool) (pages : list Z) : PagedKVPool :=
  if bool_decide (pages = []) then P
  else with_free P (merge_sort Z.le (free_page_ids_ P ++ pages))
                 (wrap32 (mapped_pages_ P - Z.of_nat (length pages))).

Definition add_entitlement (P : PagedKVPool) (pages : Z) : PagedKVPool :=
  with_entitled P (wrap32 (entitled_pages_ P + pages)).

Definition replace_entitlement (P : PagedKVPool) (old_pages new_pages : Z) : PagedKVPool :=
  with_entitled P (wrap32 (wrap32 (entitled_pages_ P - old_pages) + new_pages)).

Definition acquire_row (P : PagedKVPool) (row : Z) : res PagedKVPool :=
  throw_if ((row <? 0) || (table_rows (spec_ P) <=? row)) out_of_range ;;
  throw_if (nth (Z.to_nat row) (row_in_use_ P) false) logic_error ;;
  Ok (with_rows P (<[Z.to_nat row := true]> (row_in_use_ P))).

Definition release_row (P : PagedKVPool) (row : Z) : PagedKVPool :=
  with_rows P (<[Z.to_nat row := false]> (row_in_use_ P)).

(** ** Allocation operations, over the world *)
Record world (M : Type) : Type := MkWorld {
  pools : gmap N PagedKVPool;
  allocs : gmap N PagedKVAllocation;
  mem : M;
}.
Arguments MkWorld {M} _ _ _.
Arguments pools {M} _.
Arguments allocs {M} _.
Arguments mem {M} _.

Definition valid (al : PagedKVAllocation) : bool := bool_decide (is_Some (pool_ al)).
Definition mapped_page_count (al : PagedKVAllocation) : Z := Z.of_nat (length (page_ids_ al)).
Definition mapped_token_capacity (al : PagedKVAllocation) : Z :=
  wrap32 (mapped_page_count al * kPagedKVPageSize).
Definition belongs_to (al : PagedKVAllocation) (p : N) : bool := bool_decide (pool_ al = Some p).

Definition with_pages (al : PagedKVAllocation) (ids : list Z) : PagedKVAllocation :=
  MkAlloc (pool_ al) ids (page_entitlement_ al) (bound_row_ al).
Definition with_entitlement (al : PagedKVAllocation) (n : Z) : PagedKVAllocation :=
  MkAlloc (pool_ al) (page_ids_ al) n (bound_row_ al).
Definition with_row (al : PagedKVAllocation) (row : Z) : PagedKVAllocation :=
  MkAlloc (pool_ al) (page_ids_ al) (page_entitlement_ al) row.

Section world_operations.
Context {M : Type} `{!Memory M}.
Abbreviation W := (world M).

Definition alloc_of (w : W) (a : N) : PagedKVAllocation := default empty_alloc (allocs w !! a).
Definition get_alloc (a : N) : st W PagedKVAllocation := fun w => (Ok (alloc_of w a), w).
Definition set_alloc (a : N) (al : PagedKVAllocation) : st W unit :=
  fun w => (Ok tt, MkWorld (pools w) (<[a := al]> (allocs w)) (mem w)).

(** Dereferencing [pool_]; a pool outlives its allocations, [aborted] stands for
    a dangling or null pointer and is never reached. *)
Definition get_pool (p : option N) : st W PagedKVPool := fun w =>
  match p ≫= fun k => pools w !! k with
  | Some P => (Ok P, w)
  | None => (Throw aborted, w)
  end.
Definition set_pool (p : option N) (P : PagedKVPool) : st W unit := fun w =>
  (Ok tt, match p with
          | Some k => MkWorld (<[k := P]> (pools w)) (allocs w) (mem w)
          | None => w
          end).

(** [PagedKVPool::reserve]; the returned allocation becomes object [a]. *)
Definition reserve (p : N) (page_entitlement : Z) (a : N) : st W unit :=
  P ← get_pool (Some p);
  st_throw_if (negb (can_reserve P page_entitlement)) bad_alloc ;;
  set_alloc a (MkAlloc (Some p) [] page_entitlement (-1)) ;;
  set_pool (Some p) (add_entitlement P page_entitlement).

(** [PagedKVAllocation::set_page_entitlement] *)
Definition set_page_entitlement (a : N) (pages : Z) : st W unit :=
  al ← get_alloc a;
  st_throw_if (negb (valid al) || (pages <? mapped_page_count al)) invalid_argument ;;
  P ← get_pool (pool_ al);
  st_throw_if (negb (can_replace_entitlement P (page_entitlement_ al) pages)) bad_alloc ;;
  set_pool (pool_ al) (replace_entitlement P (page_entitlement_ al) pages) ;;
  set_alloc a (with_entitlement al pages).

(** [PagedKVAllocation::cancel_unmapped_entitlement] *)
Definition cancel_unmapped_entitlement (a : N) : st W unit :=
  al ← get_alloc a;
  if negb (valid al) then mret tt
  else
    P ← get_pool (pool_ al);
    set_pool (pool_ al) (replace_entitlement P (page_entitlement_ al) (mapped_page_count al)) ;;
    set_alloc a (with_entitlement al (mapped_page_count al)).

(** [cudaMemcpyAsync] of page ids into a block table. *)
Definition upload_ids (destination : Z) (source : list Z) : st W unit := fun w =>
  (Ok tt, MkWorld (pools w) (allocs w) (upload_i32s destination source (mem w))).

(** [PagedKVAllocation::publish_range] *)
Definition publish_range (a : N) (first_page page_count : Z) : st W unit :=
  if page_count =? 0 then mret tt
  else
    al ← get_alloc a;
    P ← get_pool (pool_ al);
    row ← lift (block_table_row P (bound_row_ al));
    let destination := data row + first_page * 4 in
    let source := take (Z.to_nat page_count) (drop (Z.to_nat first_page) (page_ids_ al)) in
    upload_ids destination source.

(** [PagedKVAllocation::publish_mapping] *)
Definition publish_mapping (a : N) : st W unit :=
  al ← get_alloc a;
  st_throw_if (bound_row_ al <? 0) logic_error ;;
  publish_range a 0 (mapped_page_count al).

(** [PagedKVAllocation::materialize_pages] *)
Definition materialize_pages (a : N) (pages : Z) : st W unit :=
  al ← get_alloc a;
  st_throw_if (negb (valid al) || (pages <? mapped_page_count al)
               || (page_entitlement_ al <? pages)) invalid_argument ;;
  let old_count := mapped_page_count al in
  let count := pages - old_count in
  if count =? 0 then mret tt
  else
    let preferred := match last (page_ids_ al) with None => -1 | Some x => x + 1 end in
    P ← get_pool (pool_ al);
    taken ← lift (take_pages P count preferred);
    set_pool (pool_ al) (snd taken) ;;
    set_alloc a (with_pages al (page_ids_ al ++ fst taken)) ;;
    if 0 <=? bound_row_ al then publish_range a old_count count else mret tt.

Definition materialize_tokens (a : N) (tokens : Z) : st W unit :=
  materialize_pages a (pages_for_tokens tokens).

(** [PagedKVAllocation::trim_pages] *)
Definition trim_pages (a : N) (pages : Z) : st W unit :=
  al ← get_alloc a;
  st_throw_if (negb (valid al)) logic_error ;;
  st_throw_if (mapped_page_count al <? pages) invalid_argument ;;
  if pages =? mapped_page_count al then mret tt
  else
    P ← get_pool (pool_ al);
    set_pool (pool_ al) (return_pages P (drop (Z.to_nat pages) (page_ids_ al))) ;;
    set_alloc a (with_pages al (take (Z.to_nat pages) (page_ids_ al))).

Definition trim_tokens (a : N) (tokens : Z) : st W unit := trim_pages a (pages_for_tokens tokens).

(** [PagedKVAllocation::bind_row] *)
Definition bind_row (a : N) (row : Z) : st W unit :=
  al ← get_alloc a;
  st_throw_if (negb (valid al)) logic_error ;;
  st_throw_if (0 <=? bound_row_ al) logic_error ;;
  P ← get_pool (pool_ al);
  P' ← lift (acquire_row P row);
  set_pool (pool_ al) P' ;;
  set_alloc a (with_row al row) ;;
  publish_mapping a.

(** [PagedKVAllocation::unbind_row] *)
Definition unbind_row (a : N) : st W unit :=
  al ← get_alloc a;
  if bound_row_ al <? 0 then mret tt
  else
    P ← get_pool (pool_ al);
    set_pool (pool_ al) (release_row P (bound_row_ al)) ;;
    set_alloc a (with_row al (-1)).

(** [PagedKVAllocation::block_table] *)
Definition block_table (a : N) : st W Tensor :=
  al ← get_alloc a;
  st_throw_if (bound_row_ al <? 0) logic_error ;;
  P ← get_pool (pool_ al);
  lift (block_table_row P (bound_row_ al)).

(** [PagedKVAllocation::release], also the destructor. *)
Definition release (a : N) : st W unit :=
  al ← get_alloc a;
  if negb (valid al) then mret tt
  else
    unbind_row a ;;
    P ← get_pool (pool_ al);
    set_pool (pool_ al) (replace_entitlement (return_pages P (page_ids_ al)) (page_entitlement_ al) 0) ;;
    set_alloc a empty_alloc.

(** The move constructor: object [dst] takes over object [src]. *)
Definition move_construct (dst src : N) : st W unit :=
  al ← get_alloc src;
  set_alloc src empty_alloc ;;
  set_alloc dst al.

(** Move assignment releases the destination first. *)
Definition move_assign (dst src : N) : st W unit :=
  if bool_decide (dst = src) then mret tt
  else release dst ;; move_construct dst src.

(** ** Bundles *)
Record PagedKVReservation : Type := MkReservation {
  resv_pool : option N;
  resv_entitlement : Z;
}.

Fixpoint validate_distinct_pools (prev reservations : list PagedKVReservation) : res unit :=
  match reservations with
  | [] => Ok tt
  | r :: rest =>
      throw_if (bool_decide (resv_pool r = None) || (resv_entitlement r =? 0)) invalid_argument ;;
      throw_if (existsb (fun q => bool_decide (resv_pool r = resv_pool q)) prev) invalid_argument ;;
      validate_distinct_pools (prev ++ [r]) rest
  end.

(** The bodies of the two loops of [reserve_paged_kv_bundle]. *)
Definition check_reservation (r : PagedKVReservation) : st W unit :=
  P ← get_pool (resv_pool r);
  st_throw_if (negb (can_reserve P (resv_entitlement r))) bad_alloc.

Definition commit_reservation (ra : PagedKVReservation * N) : st W unit :=
  match resv_pool (fst ra) with
  | Some p => reserve p (resv_entitlement (fst ra)) (snd ra)
  | None => throw aborted
  end.

(** [reserve_paged_kv_bundle]; the allocations become the objects [ids]. *)
Definition reserve_paged_kv_bundle (reservations : list PagedKVReservation) (ids : list N) : st W unit :=
  lift (validate_distinct_pools [] reservations) ;;
  for_each reservations check_reservation ;;
  for_each (zip reservations ids) commit_reservation.

Record PagedKVResize : Type := MkResize {
  rsz_alloc : option N;
  rsz_mapped : Z;
  rsz_entitlement : Z;
}.

(** One iteration of the validation loop of [resize_paged_kv_bundle]. *)
Definition validate_resize (prev : list PagedKVResize) (change : PagedKVResize) : st W unit :=
  match rsz_alloc change with
  | None => throw invalid_argument
  | Some a =>
      al ← get_alloc a;
      st_throw_if (negb (valid al)) invalid_argument ;;
      st_throw_if ((mapped_page_count al <? rsz_mapped change)
                   || (rsz_entitlement change <? rsz_mapped change)) invalid_argument ;;
      w ← get;
      st_throw_if (existsb (fun q =>
        bool_decide (rsz_alloc change = rsz_alloc q)
        || bool_decide (pool_ al = (b ← rsz_alloc q; pool_ (alloc_of w b)))) prev) invalid_argument ;;
      P ← get_pool (pool_ al);
      st_throw_if (negb (can_replace_entitlement P (page_entitlement_ al) (rsz_entitlement change)))
        bad_alloc
  end.

Fixpoint validate_resizes (prev changes : list PagedKVResize) : st W unit :=
  match changes with
  | [] => mret tt
  | c :: rest => validate_resize prev c ;; validate_resizes (prev ++ [c]) rest
  end.

Definition apply_resize (change : PagedKVResize) : st W unit :=
  match rsz_alloc change with
  | None => throw aborted
  | Some a =>
      trim_pages a (rsz_mapped change) ;;
      set_page_entitlement a (rsz_entitlement change)
  end.

Definition resize_paged_kv_bundle (changes : list PagedKVResize) : st W unit :=
  validate_resizes [] changes ;; for_each changes apply_resize.

End world_operations.
