(* ===== verification/PoolAccounting.v ===== *)
(** * Page accounting of one pool

    [accounts P ms] ties a pool to the allocations [ms] it has handed out: the
    free list and the pages of [ms] partition the physical pages, the entitled
    and mapped counters are the sums over [ms], and the row flags are the rows
    [ms] are bound to.  Each pool operation is shown to carry it from the old
    allocation list to the new one; [PoolWorld] lifts this to whole worlds. *)

From stdpp Require Import prelude list list_numbers sorting gmap.
From Stdlib Require Import ZArith Lia.
From S2P Require Import Prelude.
From S2P Require Import Tensor.
From S2P Require Import Bytes.
From S2P Require Import PagedPool.
#[local] Open Scope Z_scope.


(** The pages, and the bound rows, of a list of allocations. *)
Definition owned (ms : list PagedKVAllocation) : list Z := concat (page_ids_ <$> ms).
Definition bound_rows (ms : list PagedKVAllocation) : list Z :=
  filter (fun r => 0 <= r) (bound_row_ <$> ms).

Definition spec_ok (s : PagedKVPoolSpec) : Prop :=
  0 < page_group_count s <= i32_max /\ 0 < logical_page_capacity s <= i32_max /\
  0 < table_rows s <= i32_max.

Definition alloc_ok (s : PagedKVPoolSpec) (al : PagedKVAllocation) : Prop :=
  mapped_page_count al <= page_entitlement_ al <= logical_page_capacity s /\
  -1 <= bound_row_ al < table_rows s.

Record accounts (P : PagedKVPool) (ms : list PagedKVAllocation) : Prop := {
  acc_spec : spec_ok (spec_ P);
  acc_sorted : StronglySorted Z.le (free_page_ids_ P);
  acc_pages : free_page_ids_ P ++ owned ms ≡ₚ seqZ 0 (page_group_count (spec_ P));
  acc_entitled : entitled_pages_ P = sumZ (page_entitlement_ <$> ms) /\
                 entitled_pages_ P <= page_group_count (spec_ P);
  acc_mapped : mapped_pages_ P = Z.of_nat (length (owned ms));
  acc_each : Forall (alloc_ok (spec_ P)) ms;
  acc_row_count : Z.of_nat (length (row_in_use_ P)) = table_rows (spec_ P);
  acc_rows_distinct : NoDup (bound_rows ms);
  acc_rows : forall r, 0 <= r < table_rows (spec_ P) ->
    nth (Z.to_nat r) (row_in_use_ P) false = true <-> r ∈ bound_rows ms;
}.

Lemma owned_Permutation ms ns : ms ≡ₚ ns -> owned ms ≡ₚ owned ns.
Proof. unfold owned. by intros ->. Qed.

Lemma bound_rows_Permutation ms ns : ms ≡ₚ ns -> bound_rows ms ≡ₚ bound_rows ns.
Proof. unfold bound_rows. by intros ->. Qed.

#[export] Instance accounts_Permutation P : Proper ((≡ₚ) ==> iff) (accounts P).
Proof.
  intros ms ns Hp. assert (forall ks ls, ks ≡ₚ ls -> accounts P ks -> accounts P ls) as H.
  { clear. intros ks ls Hp []. constructor; try done.
    - by rewrite <- (owned_Permutation _ _ Hp).
    - by rewrite <- (sumZ_Permutation (page_entitlement_ <$> ks)) by (by rewrite Hp).
    - by rewrite <- (owned_Permutation _ _ Hp).
    - by rewrite <- Hp.
    - by rewrite <- (bound_rows_Permutation _ _ Hp).
    - intros r Hr. by rewrite <- (bound_rows_Permutation _ _ Hp), acc_rows0. }
  split; [by apply H|]. by apply H.
Qed.

Lemma owned_cons al ms : owned (al :: ms) = page_ids_ al ++ owned ms.
Proof. done. Qed.

Lemma bound_rows_cons al ms :
  bound_rows (al :: ms) = if decide (0 <= bound_row_ al) then bound_row_ al :: bound_rows ms
                          else bound_rows ms.
Proof. unfold bound_rows. rewrite fmap_cons, filter_cons. done. Qed.

(** Entitlements cover the mapped pages, in total as one by one. *)
Lemma entitled_covers_mapped s ms :
  Forall (alloc_ok s) ms -> Z.of_nat (length (owned ms)) <= sumZ (page_entitlement_ <$> ms).
Proof.
  induction 1 as [|al ms [? _] _ IH]; [done|].
  rewrite sum_cons, owned_cons, length_app. unfold mapped_page_count in *. lia.
Qed.

Section with_accounts.
Context (P : PagedKVPool) (al : PagedKVAllocation) (rest : list PagedKVAllocation).
Hypothesis Hacc : accounts P (al :: rest).

Lemma acc_head : alloc_ok (spec_ P) al.
Proof. pose proof (acc_each _ _ Hacc) as H. by apply Forall_cons in H as [? _]. Qed.

Lemma acc_rest : Forall (alloc_ok (spec_ P)) rest.
Proof. pose proof (acc_each _ _ Hacc) as H. by apply Forall_cons in H as [_ ?]. Qed.

Lemma acc_length :
  Z.of_nat (length (free_page_ids_ P)) + mapped_page_count al + Z.of_nat (length (owned rest)) =
  page_group_count (spec_ P).
Proof.
  pose proof (Permutation_length (acc_pages _ _ Hacc)) as Hl.
  rewrite length_seqZ, owned_cons, !length_app in Hl.
  pose proof (acc_spec _ _ Hacc) as (? & _). unfold mapped_page_count. lia.
Qed.

(** Enough pages are free for the unmapped part of any entitlement: this is what
    makes [materialize_pages] unable to fail inside its entitlement. *)
Lemma acc_free_covers :
  page_entitlement_ al - mapped_page_count al <= Z.of_nat (length (free_page_ids_ P)).
Proof.
  pose proof acc_length. destruct (acc_entitled _ _ Hacc) as [He Hle]. rewrite sum_cons in He.
  pose proof (entitled_covers_mapped _ _ acc_rest). lia.
Qed.

Lemma acc_page_range x : x ∈ page_ids_ al -> 0 <= x < page_group_count (spec_ P).
Proof.
  intros Hx. assert (x ∈ seqZ 0 (page_group_count (spec_ P))) as Hin.
  { rewrite <- (acc_pages _ _ Hacc), owned_cons, !elem_of_app. auto. }
  apply elem_of_seqZ in Hin. lia.
Qed.

Lemma acc_pages_NoDup : NoDup (page_ids_ al).
Proof.
  assert (NoDup (free_page_ids_ P ++ owned (al :: rest))) as H.
  { rewrite (acc_pages _ _ Hacc). apply NoDup_seqZ. }
  apply NoDup_app in H as (_ & _ & H). rewrite owned_cons in H. by apply NoDup_app in H as [? _].
Qed.

End with_accounts.

(** ** Choosing pages *)
Lemma run_at_spec free n b :
  run_at free n b = true <->
  (b + n <= length free)%nat /\
  forall i, (i < n)%nat -> nth (b + i) free 0 = nth b free 0 + Z.of_nat i.
Proof.
  unfold run_at. rewrite andb_true_iff, Nat.leb_le, forallb_forall. split.
  - intros [H1 H2]. split; [done|]. intros [|i] Hi; [rewrite Nat.add_0_r; lia|].
    apply Z.eqb_eq, H2, in_seq. lia.
  - intros [H1 H2]. split; [done|]. intros i Hi%in_seq. apply Z.eqb_eq, H2. lia.
Qed.

Lemma first_run_Some free n b : first_run free n = Some b -> run_at free n b = true.
Proof.
  unfold first_run. intros H%head_Some_elem_of. apply list_elem_of_filter in H as [H _].
  by apply Is_true_true.
Qed.

Lemma first_run_None free n b :
  (0 < n)%nat -> first_run free n = None -> run_at free n b = false.
Proof.
  unfold first_run. intros Hn H. apply not_true_is_false. intros Hb.
  assert (b ∈ filter (fun b => run_at free n b) (seq 0 (S (length free) - n))) as Hin.
  { apply list_elem_of_filter. split; [by apply Is_true_true|].
    apply run_at_spec in Hb as [? _]. apply elem_of_seq. lia. }
  destruct (filter _ _); [by apply elem_of_nil in Hin|done].
Qed.

Lemma select_run_Some free n pref b : select_run free n pref = Some b -> run_at free n b = true.
Proof.
  unfold select_run. destruct (0 <=? pref); [|apply first_run_Some].
  destruct (free !! lower_bound free pref); [|apply first_run_Some].
  destruct ((z =? pref) && run_at free n (lower_bound free pref)) eqn:E; [|apply first_run_Some].
  intros [= <-]. by apply andb_true_iff in E as [_ ?].
Qed.

Lemma select_run_None free n pref b :
  (0 < n)%nat -> select_run free n pref = None -> run_at free n b = false.
Proof.
  intros Hn. unfold select_run.
  repeat case_match; try done; intros; by apply first_run_None.
Qed.

(** The ids a run yields are consecutive. *)
Lemma run_ids free n b :
  run_at free n b = true -> take n (drop b free) = seqZ (nth b free 0) (Z.of_nat n).
Proof.
  intros [Hb Hrun]%run_at_spec. apply list_eq. intros i.
  destruct (decide (i < n)%nat) as [Hi|Hi].
  - rewrite lookup_take_lt, lookup_drop, lookup_seqZ_lt, <- (Hrun i Hi) by lia.
    by destruct (nth_lookup_or_length free (b + i) 0); [|lia].
  - rewrite !lookup_ge_None_2; [done| |]; rewrite ?length_seqZ, ?length_take; lia.
Qed.

(** Removing a segment leaves the rest, in order. *)
Lemma cut_Permutation {A} (l : list A) b n :
  take b l ++ drop (b + n) l ++ take n (drop b l) ≡ₚ l.
Proof.
  rewrite <- (take_drop b l) at 4. apply Permutation_app; [done|].
  rewrite <- (take_drop n (drop b l)) at 2. rewrite drop_drop. apply Permutation_app_comm.
Qed.

Lemma cut_sorted l b n : StronglySorted Z.le l -> StronglySorted Z.le (take b l ++ drop (b + n) l).
Proof.
  rewrite <- (take_drop b l) at 1. rewrite <- (take_drop n (drop b l)), drop_drop.
  rewrite !StronglySorted_app. setoid_rewrite elem_of_app. intros (H1 & H2 & H3 & H4 & H5). auto.
Qed.

Lemma replace_pages_ok s al ids :
  alloc_ok s al -> Z.of_nat (length ids) <= page_entitlement_ al -> alloc_ok s (with_pages al ids).
Proof. unfold alloc_ok, mapped_page_count. simpl. lia. Qed.

(** ** Pool operations keep the accounts *)
Lemma take_pages_accounts P al rest count pref :
  accounts P (al :: rest) -> 0 < count -> mapped_page_count al + count <= page_entitlement_ al ->
  exists ids P', take_pages P count pref = Ok (ids, P') /\
    Z.of_nat (length ids) = count /\ spec_ P' = spec_ P /\ block_tables_ P' = block_tables_ P /\
    accounts P' (with_pages al (page_ids_ al ++ ids) :: rest) /\
    (forall b, select_run (free_page_ids_ P) (Z.to_nat count) pref = Some b ->
       ids = seqZ (nth b (free_page_ids_ P) 0) count).
Proof.
  intros Hacc Hc Hfit. pose proof (acc_free_covers _ _ _ Hacc) as Hfree.
  pose proof (acc_length _ _ _ Hacc) as Hlen.
  unfold take_pages, throw_if. replace (count =? 0) with false by lia.
  replace (Z.of_nat (length (free_page_ids_ P)) <? count) with false by lia. simpl.
  set (free := free_page_ids_ P) in *. set (n := Z.to_nat count) in *.
  set (b := default 0%nat (select_run free n pref)).
  assert (b + n <= length free)%nat as Hb.
  { subst b. destruct (select_run free n pref) as [b|] eqn:E; simpl; [|lia].
    by apply select_run_Some, run_at_spec in E as [? _]. }
  eexists _, _. split; [done|].
  assert (length (take n (drop b free)) = n) as Hn by (rewrite length_take, length_drop; lia).
  split_and!; [lia|done|done| |].
  2: { intros b' E. subst b. rewrite E. simpl. rewrite run_ids by (by eapply select_run_Some).
       f_equal. lia. }
  pose proof Hacc as []. simpl in *. constructor; simpl; try done.
  - by apply cut_sorted.
  - rewrite <- acc_pages0. rewrite !owned_cons. simpl.
    transitivity ((take b free ++ drop (b + n) free ++ take n (drop b free)) ++
                  page_ids_ al ++ owned rest); [solve_Permutation|].
    by rewrite cut_Permutation.
  - rewrite owned_cons, !length_app in *. simpl. rewrite !length_app, Hn, acc_mapped0.
    rewrite wrap32_id; [lia|].
    pose proof (acc_spec0) as (? & _). unfold mapped_page_count in *. width_lia.
  - apply Forall_cons in acc_each0 as [H1 H2]. constructor; [|done].
    apply replace_pages_ok; [done|]. rewrite length_app. unfold mapped_page_count in *. lia.
Qed.

(** The same for every list of other allocations at once; the pages are
    consecutive whenever some free run is long enough. *)
Lemma take_pages_spec P al rest count pref :
  accounts P (al :: rest) -> 0 < count -> mapped_page_count al + count <= page_entitlement_ al ->
  exists ids P', take_pages P count pref = Ok (ids, P') /\
    Z.of_nat (length ids) = count /\ spec_ P' = spec_ P /\ block_tables_ P' = block_tables_ P /\
    (forall rest', accounts P (al :: rest') ->
       accounts P' (with_pages al (page_ids_ al ++ ids) :: rest')) /\
    ((exists b, run_at (free_page_ids_ P) (length ids) b = true) ->
       exists first, ids = seqZ first (Z.of_nat (length ids))).
Proof.
  intros Hacc Hc Hfit.
  destruct (take_pages_accounts P al rest count pref) as (ids & P' & Et & Hl & Hs & Hb & _ & Hrun);
    [done..|].
  exists ids, P'. split_and!; try done.
  - intros rest' Hacc'.
    destruct (take_pages_accounts P al rest' count pref) as (? & ? & Et' & _ & _ & _ & ? & _);
      [done..|]. rewrite Et in Et'. by injection Et' as <- <-.
  - intros [b Hb']. rewrite Hl. replace (length ids) with (Z.to_nat count) in Hb' by lia.
    destruct (select_run _ (Z.to_nat count) pref) as [b'|] eqn:E; [eauto|].
    rewrite (select_run_None _ _ _ b) in Hb' by (done || lia). done.
Qed.

(** Giving back the pages behind a prefix of an allocation's mapping. *)
Lemma return_pages_accounts P al rest (n : nat) :
  accounts P (al :: rest) -> (n <= length (page_ids_ al))%nat ->
  accounts (return_pages P (drop n (page_ids_ al))) (with_pages al (take n (page_ids_ al)) :: rest).
Proof.
  intros Hacc Hn. unfold return_pages. destruct (bool_decide_reflect (drop n (page_ids_ al) = [])) as [E|E].
  { assert (take n (page_ids_ al) = page_ids_ al) as ->.
    { apply take_ge. apply (f_equal length) in E. rewrite length_drop in E. simpl in E. lia. }
    by destruct al. }
  pose proof (acc_length _ _ _ Hacc) as Hlen.
  pose proof Hacc as []. constructor; simpl; try done.
  - apply (StronglySorted_merge_sort Z.le).
  - rewrite <- acc_pages0, merge_sort_Permutation, !owned_cons. simpl.
    rewrite <- (take_drop n (page_ids_ al)) at 3. solve_Permutation.
  - rewrite acc_mapped0, !owned_cons, !length_app. simpl.
    rewrite length_take, length_drop, wrap32_id; [lia|].
    pose proof acc_spec0 as (? & _). unfold mapped_page_count in *. width_lia.
  - apply Forall_cons in acc_each0 as [H1 H2]. constructor; [|done].
    apply replace_pages_ok; [done|]. rewrite length_take. destruct H1 as [? _].
    unfold mapped_page_count in *. lia.
Qed.

Lemma replace_entitlement_ok s al n :
  alloc_ok s al -> mapped_page_count al <= n <= logical_page_capacity s ->
  alloc_ok s (with_entitlement al n).
Proof. unfold alloc_ok, mapped_page_count. simpl. lia. Qed.

(** [can_replace_entitlement] is exactly room for the new entitlement. *)
Lemma can_replace_entitlement_spec P al rest n :
  accounts P (al :: rest) -> 0 <= n ->
  can_replace_entitlement P (page_entitlement_ al) n = true <->
  n <= logical_page_capacity (spec_ P) /\
  entitled_pages_ P - page_entitlement_ al + n <= page_group_count (spec_ P).
Proof.
  intros Hacc Hn. destruct (acc_entitled _ _ Hacc) as [He Hle]. rewrite sum_cons in He.
  pose proof (entitled_covers_mapped _ _ (acc_rest _ _ _ Hacc)).
  pose proof (acc_spec _ _ Hacc) as (? & ? & _).
  destruct (acc_head _ _ _ Hacc) as [Hal _]. unfold mapped_page_count in Hal.
  unfold can_replace_entitlement. rewrite (wrap32_id (_ - page_entitlement_ al)) by width_lia.
  rewrite wrap32_id by width_lia. lia.
Qed.

Lemma replace_entitlement_accounts P al rest n :
  accounts P (al :: rest) -> mapped_page_count al <= n <= logical_page_capacity (spec_ P) ->
  entitled_pages_ P - page_entitlement_ al + n <= page_group_count (spec_ P) ->
  accounts (replace_entitlement P (page_entitlement_ al) n) (with_entitlement al n :: rest).
Proof.
  intros Hacc Hn Hfit. pose proof (entitled_covers_mapped _ _ (acc_rest _ _ _ Hacc)) as Hcov.
  destruct (acc_head _ _ _ Hacc) as [Hal _]. unfold mapped_page_count in Hal.
  pose proof Hacc as []. destruct acc_entitled0 as [He Hle]. rewrite sum_cons in He.
  pose proof acc_spec0 as (? & ? & _).
  constructor; try done.
  - rewrite sum_cons. simpl. rewrite (wrap32_id (entitled_pages_ P - _)) by width_lia.
    unfold mapped_page_count in Hn. rewrite wrap32_id by width_lia. lia.
  - apply Forall_cons in acc_each0 as [H1 H2]. constructor; [|done]. by apply replace_entitlement_ok.
Qed.

Lemma can_reserve_spec P ms n :
  accounts P ms -> 0 <= n ->
  can_reserve P n = true <->
  0 < n <= logical_page_capacity (spec_ P) /\ entitled_pages_ P + n <= page_group_count (spec_ P).
Proof.
  intros Hacc Hn. destruct (acc_entitled _ _ Hacc) as [He Hle].
  pose proof (entitled_covers_mapped _ _ (acc_each _ _ Hacc)).
  pose proof (acc_spec _ _ Hacc) as (? & ? & _).
  unfold can_reserve. rewrite wrap32_id by width_lia. lia.
Qed.

Lemma reserve_accounts P ms p n :
  accounts P ms -> 0 < n <= logical_page_capacity (spec_ P) ->
  entitled_pages_ P + n <= page_group_count (spec_ P) ->
  accounts (add_entitlement P n) (MkAlloc (Some p) [] n (-1) :: ms).
Proof.
  intros Hacc Hn Hfit. pose proof (entitled_covers_mapped _ _ (acc_each _ _ Hacc)).
  pose proof Hacc as []. destruct acc_entitled0 as [He Hle]. pose proof acc_spec0 as (? & ? & ?).
  constructor; try done.
  - rewrite sum_cons. simpl. rewrite wrap32_id by width_lia. lia.
  - constructor; [|done]. unfold alloc_ok, mapped_page_count. simpl. lia.
Qed.

(** An allocation with nothing mapped, entitled or bound can leave the pool. *)
Lemma drop_empty_accounts P al rest :
  accounts P (al :: rest) -> page_ids_ al = [] -> page_entitlement_ al = 0 -> bound_row_ al < 0 ->
  accounts P rest.
Proof.
  intros Hacc Hp He Hr. pose proof (acc_rest _ _ _ Hacc). pose proof Hacc as [].
  rewrite owned_cons, Hp in *. rewrite sum_cons, He in *.
  rewrite bound_rows_cons in *. rewrite decide_False in * by lia.
  by constructor.
Qed.

Lemma acquire_row_accounts P al rest row :
  accounts P (al :: rest) -> bound_row_ al < 0 ->
  match acquire_row P row with
  | Ok P' => 0 <= row < table_rows (spec_ P) /\ accounts P' (with_row al row :: rest) /\
             block_tables_ P' = block_tables_ P /\ spec_ P' = spec_ P /\ row ∉ bound_rows rest
  | Throw e => e = out_of_range /\ ~ (0 <= row < table_rows (spec_ P)) \/
               e = logic_error /\ row ∈ bound_rows rest
  end.
Proof.
  intros Hacc Hb. pose proof (acc_head _ _ _ Hacc) as Hal. pose proof (acc_rest _ _ _ Hacc).
  pose proof Hacc as [].
  assert (bound_rows (al :: rest) = bound_rows rest) as Hbr
    by (rewrite bound_rows_cons; by rewrite decide_False by lia).
  rewrite Hbr in *. unfold acquire_row, throw_if.
  destruct (Z.ltb_spec row 0), (Z.leb_spec (table_rows (spec_ P)) row); simpl;
    try (left; split; [done|lia]).
  pose proof (acc_rows0 row ltac:(lia)) as Hrow.
  destruct (nth (Z.to_nat row) (row_in_use_ P) false) eqn:E; simpl; [right; by rewrite <- Hrow|].
  assert (row ∉ bound_rows rest) as Hni by (rewrite <- Hrow; done).
  split_and!; [lia|lia| |done..].
  constructor; simpl; try done.
  - constructor; [|done]. destruct Hal. split; [done|]. simpl. lia.
  - by rewrite length_insert.
  - rewrite bound_rows_cons. simpl. rewrite decide_True by lia. by constructor.
  - intros r Hr. rewrite bound_rows_cons. simpl. rewrite decide_True by lia.
    rewrite elem_of_cons, <- acc_rows0 by done. rewrite !nth_lookup.
    destruct (decide (r = row)) as [->|Hne].
    + rewrite list_lookup_insert_eq by lia. simpl. tauto.
    + rewrite list_lookup_insert_ne by lia. tauto.
Qed.

Lemma release_row_accounts P al rest :
  accounts P (al :: rest) -> 0 <= bound_row_ al ->
  accounts (release_row P (bound_row_ al)) (with_row al (-1) :: rest).
Proof.
  intros Hacc Hb. pose proof (acc_head _ _ _ Hacc) as Hal. pose proof (acc_rest _ _ _ Hacc).
  pose proof Hacc as [].
  rewrite bound_rows_cons in acc_rows_distinct0. rewrite decide_True in acc_rows_distinct0 by done.
  apply NoDup_cons in acc_rows_distinct0 as [Hni Hnd].
  assert (bound_rows (with_row al (-1) :: rest) = bound_rows rest) as Hbr
    by (rewrite bound_rows_cons; by rewrite decide_False by (simpl; lia)).
  destruct Hal as [Hal1 Hal2].
  constructor; simpl; try done.
  - constructor; [|done]. split; [done|]. simpl. destruct acc_spec0 as (_ & _ & ?). lia.
  - by rewrite length_insert.
  - intros r Hr. rewrite Hbr, nth_lookup. specialize (acc_rows0 r Hr).
    rewrite bound_rows_cons, decide_True, elem_of_cons, nth_lookup in acc_rows0 by done.
    destruct (decide (r = bound_row_ al)) as [->|Hne].
    + rewrite list_lookup_insert_eq by lia. simpl. split; [done|tauto].
    + rewrite list_lookup_insert_ne by lia. tauto.
Qed.

Lemma return_pages_same P l :
  spec_ (return_pages P l) = spec_ P /\ block_tables_ (return_pages P l) = block_tables_ P.
Proof. unfold return_pages. by case_bool_decide. Qed.

(** The accounting half of [PagedKVAllocation::release]. *)
Lemma release_accounts P al rest :
  accounts P (al :: rest) -> bound_row_ al < 0 ->
  accounts (replace_entitlement (return_pages P (page_ids_ al)) (page_entitlement_ al) 0) rest.
Proof.
  intros Hacc Hb. pose proof (return_pages_accounts P al rest 0 Hacc ltac:(lia)) as H1.
  rewrite drop_0, take_0 in H1. set (P1 := return_pages P (page_ids_ al)) in *.
  assert (accounts (replace_entitlement P1 (page_entitlement_ (with_pages al [])) 0)
            (with_entitlement (with_pages al []) 0 :: rest)) as H2.
  { pose proof (acc_spec _ _ H1) as (? & ? & _). destruct (acc_head _ _ _ H1) as [Hal _].
    destruct (acc_entitled _ _ H1). unfold mapped_page_count in *. simpl in *.
    apply (replace_entitlement_accounts P1 (with_pages al [])); [done|..]; unfold mapped_page_count; simpl; lia. }
  by apply (drop_empty_accounts _ _ _ H2).
Qed.
