(* ===== verification/PoolWorld.v ===== *)
(** * Worlds of pools and allocations

    [world_ok] is the invariant of core/paged_kv_cache: every pool's accounts
    balance against the allocations that point to it, every bound allocation's
    page ids are what its device block-table row holds, and no block table
    overlaps another.  Every operation of the interface preserves it, on its
    error paths as well, and the operations that must not fail do not. *)

From stdpp Require Import prelude list list_numbers sorting gmap.
From Stdlib Require Import ZArith Lia.
From S2P Require Import Prelude.
From S2P Require Import Tensor.
From S2P Require Import Layout.
From S2P Require Import Bytes.
From S2P Require Import PagedPool.
From S2P Require Import PoolAccounting.
#[local] Open Scope Z_scope.

(** ** Block-table rows *)
Definition tables_ok (P : PagedKVPool) : Prop :=
  let t := block_tables_ P in let s := spec_ P in
  dtype t = I32 /\ ne t = Vec4 (logical_page_capacity s) (table_rows s) 1 1 /\
  nb t = packed I32 (ne t) /\ v2 (nb t) <= i64_max /\ 0 < data t.

Definition row_addr (P : PagedKVPool) (row : Z) : Z :=
  data (block_tables_ P) + row * (4 * logical_page_capacity (spec_ P)).

Section one_row.
Context (cap : Z) (Hcap : 0 < cap <= i32_max).

Lemma normalize_row : normalize_shape [cap] = Ok (Vec4 cap 1 1 1).
Proof.
  unfold normalize_shape, normalize_dims, throw_if. cbn. by replace (cap <=? 0) with false by lia.
Qed.

Lemma numel_row : shape_numel (Vec4 cap 1 1 1) = Ok cap.
Proof. apply shape_numel_Ok. unfold positive, volume. simpl. split_and!; width_lia. Qed.

(** One row of a table is contiguous, whatever the row pitches say. *)
Lemma contiguous_row p b1 b2 b3 :
  is_contiguous (MkTensor p I32 (Vec4 cap 1 1 1) (Vec4 4 b1 b2 b3)) = Ok true.
Proof.
  unfold is_contiguous, contiguous_loop, contiguous_step. cbn -[checked_mul_i64].
  replace (cap <=? 0) with false by lia.
  rewrite (proj2 (checked_mul_i64_Ok 4 cap _)) by (split_and!; [lia|lia|done|width_lia]).
  by destruct (cap =? 1).
Qed.

Lemma view_row p b1 b2 b3 :
  view (MkTensor p I32 (Vec4 cap 1 1 1) (Vec4 4 b1 b2 b3)) [cap] =
  Ok (MkTensor p I32 (Vec4 cap 1 1 1) (packed I32 (Vec4 cap 1 1 1))).
Proof.
  unfold view, numel, make_tensor. rewrite contiguous_row, normalize_row. simpl ne.
  cbn -[shape_numel contiguous_strides]. rewrite numel_row.
  rewrite (proj2 (contiguous_strides_Ok I32 (Vec4 cap 1 1 1) _ ltac:(unfold positive; simpl; lia)))
    by (split_and!; [done|unfold packed; simpl; width_lia..]).
  cbn. by rewrite Z.eqb_refl.
Qed.
End one_row.

Lemma block_table_row_Ok P row :
  spec_ok (spec_ P) -> tables_ok P -> 0 <= row < table_rows (spec_ P) ->
  exists t, block_table_row P row = Ok t /\ data t = row_addr P row /\ dtype t = I32 /\
    ne t = Vec4 (logical_page_capacity (spec_ P)) 1 1 1.
Proof.
  intros (_ & Hc & Hr) (Hd & Hne & Hnb & Hmax & Hdata) Hrow.
  rewrite Hnb, Hne in Hmax. unfold packed in Hmax. simpl in Hmax.
  unfold block_table_row, throw_if. replace ((row <? 0) || _) with false by lia.
  unfold slice, throw_if. rewrite Hne, Hnb, Hne, Hd. cbn -[checked_mul_i64 view Z.mul].
  replace ((row <? 0) || false || (table_rows (spec_ P) <? row) || (table_rows (spec_ P) - row <? 1))
    with false by lia.
  rewrite (proj2 (checked_mul_i64_Ok row _ _)) by (split_and!; [lia|nia|done|nia]).
  cbn -[view Z.mul]. replace (data (block_tables_ P) =? 0) with false by lia.
  unfold packed. cbn -[view Z.mul]. rewrite view_row by lia. by eexists.
Qed.

(** ** The invariant *)
Definition members (m : gmap N PagedKVAllocation) (p : N) : list PagedKVAllocation :=
  filter (fun al => pool_ al = Some p) (map_to_list m).*2.

(** [rest] with [al], where [al] counts against pool [p]. *)
Definition charge (p : N) (al : PagedKVAllocation) (rest : list PagedKVAllocation)
    : list PagedKVAllocation :=
  if decide (pool_ al = Some p) then al :: rest else rest.

Lemma charge_in p al rest : pool_ al = Some p -> charge p al rest = al :: rest.
Proof. intros H. unfold charge. by rewrite decide_True. Qed.

#[export] Instance charge_Permutation p al : Proper ((≡ₚ) ==> (≡ₚ)) (charge p al).
Proof. intros l k H. unfold charge. case_decide; by rewrite H. Qed.

Lemma charge_empty p rest : charge p empty_alloc rest = rest.
Proof. unfold charge. by rewrite decide_False. Qed.

Definition table_end (P : PagedKVPool) : Z := row_addr P (table_rows (spec_ P)).

Section worlds.
Context {M : Type} `{!Memory M}.
Abbreviation W := (world M).

(** The device row a bound allocation owns holds its page ids. *)
Definition published (m : M) (P : PagedKVPool) (al : PagedKVAllocation) : Prop :=
  0 <= bound_row_ al -> forall i x, page_ids_ al !! i = Some x ->
  load_i32 m (row_addr P (bound_row_ al) + 4 * Z.of_nat i) = x.

Record pool_ok (m : M) (P : PagedKVPool) (ms : list PagedKVAllocation) : Prop := {
  po_accounts : accounts P ms;
  po_tables : tables_ok P;
  po_published : Forall (published m P) ms;
}.

Record world_ok (w : W) : Prop := {
  wo_pools : forall p P, pools w !! p = Some P -> pool_ok (mem w) P (members (allocs w) p);
  wo_disjoint : forall p q P Q, p <> q -> pools w !! p = Some P -> pools w !! q = Some Q ->
    table_end P <= data (block_tables_ Q) \/ table_end Q <= data (block_tables_ P);
  wo_live : forall a al, allocs w !! a = Some al ->
    match pool_ al with Some p => is_Some (pools w !! p) | None => al = empty_alloc end;
}.

#[export] Instance pool_ok_Permutation m P : Proper ((≡ₚ) ==> iff) (pool_ok m P).
Proof.
  assert (forall ks ls, ks ≡ₚ ls -> pool_ok m P ks -> pool_ok m P ls) as H.
  { intros ks ls Hp []. constructor; [by rewrite <- Hp|done|by rewrite <- Hp]. }
  intros ks ls Hp. split; [by apply H|]. by apply H.
Qed.

Lemma members_insert m a al p :
  members (<[a := al]> m) p ≡ₚ charge p al (members (delete a m) p).
Proof.
  unfold members. rewrite <- insert_delete_eq, map_to_list_insert by apply lookup_delete_eq.
  rewrite fmap_cons, filter_cons. unfold charge. done.
Qed.

Lemma members_alloc_of (w : W) a p :
  members (allocs w) p ≡ₚ charge p (alloc_of w a) (members (delete a (allocs w)) p).
Proof.
  unfold alloc_of. destruct (allocs w !! a) as [al|] eqn:E; simpl.
  - rewrite <- members_insert, insert_id by done. done.
  - unfold charge. rewrite decide_False by done. by rewrite delete_id.
Qed.

Lemma alloc_of_live (w : W) a :
  world_ok w ->
  match pool_ (alloc_of w a) with
  | Some p => exists P, pools w !! p = Some P
  | None => alloc_of w a = empty_alloc
  end.
Proof.
  intros Hw. unfold alloc_of. destruct (allocs w !! a) as [al|] eqn:E; simpl; [|done].
  pose proof (wo_live _ Hw _ _ E) as H. by destruct (pool_ al).
Qed.

Lemma elem_of_charge p al b rest :
  b ∈ charge p al rest <-> pool_ al = Some p /\ b = al \/ b ∈ rest.
Proof. unfold charge. case_decide; rewrite ?elem_of_cons; intuition congruence. Qed.

(** No two allocations of a pool are bound to the same row. *)
Lemma charge_rows_differ P p al b rest :
  accounts P (charge p al rest) -> pool_ al = Some p -> b ∈ rest -> 0 <= bound_row_ b ->
  bound_row_ b <> bound_row_ al.
Proof.
  intros Ha Hp Hb Hr Heq. unfold charge in Ha. rewrite decide_True in Ha by done.
  pose proof (acc_rows_distinct _ _ Ha) as Hnd. rewrite bound_rows_cons in Hnd.
  case_decide; [|lia]. apply NoDup_cons in Hnd as [Hni _]. apply Hni. rewrite <- Heq.
  unfold bound_rows. apply list_elem_of_filter. split; [done|]. apply list_elem_of_fmap. eauto.
Qed.

Lemma published_frame (m m' : M) Q b :
  alloc_ok (spec_ Q) b -> published m Q b ->
  (0 <= bound_row_ b -> forall i, 0 <= i < logical_page_capacity (spec_ Q) ->
     load_i32 m' (row_addr Q (bound_row_ b) + 4 * i) = load_i32 m (row_addr Q (bound_row_ b) + 4 * i)) ->
  published m' Q b.
Proof.
  intros [Hb _] Hp Hf Hr i x Hi. rewrite Hf; [by apply Hp|done|].
  apply lookup_lt_Some in Hi. unfold mapped_page_count in Hb. lia.
Qed.

(** The one way the operations change a world: object [a] becomes [al'], its
    pool [p] becomes [P'] and the memory [m'], where [m'] differs from the old
    memory in no block-table row but the one [al'] is bound to. *)
Section commit.
Context (w : W) (a p : N) (P P' : PagedKVPool) (al' : PagedKVAllocation) (m' : M).
Hypothesis Hw : world_ok w.
Hypothesis HP : pools w !! p = Some P.
Hypothesis Hold : pool_ (alloc_of w a) = None \/ pool_ (alloc_of w a) = Some p.
Hypothesis Hnew : al' = empty_alloc \/ pool_ al' = Some p.
Hypothesis Hspec : spec_ P' = spec_ P.
Hypothesis Htab : block_tables_ P' = block_tables_ P.
Hypothesis Hacc : forall rest,
  accounts P (charge p (alloc_of w a) rest) -> accounts P' (charge p al' rest).
Hypothesis Hpub : published m' P' al'.
Hypothesis Hframe : forall q Q r i, pools w !! q = Some Q -> (q = p -> r <> bound_row_ al') ->
  0 <= r < table_rows (spec_ Q) -> 0 <= i < logical_page_capacity (spec_ Q) ->
  load_i32 m' (row_addr Q r + 4 * i) = load_i32 (mem w) (row_addr Q r + 4 * i).

Let Hrow : row_addr P' = row_addr P.
Proof. unfold row_addr. by rewrite Hspec, Htab. Qed.

Lemma commit_same_pool : pool_ok m' P' (members (<[a := al']> (allocs w)) p).
Proof.
  pose proof (wo_pools _ Hw _ _ HP) as Hok. rewrite (members_alloc_of _ a) in Hok.
  rewrite members_insert. destruct Hok as [Ha Ht Hp]. specialize (Hacc _ Ha) as Ha'.
  constructor; [done| |].
  { unfold tables_ok. by rewrite Hspec, Htab. }
  pose proof (acc_each _ _ Ha) as Hall. rewrite Forall_forall in Hall, Hp.
  apply Forall_forall. intros b [[_ ->]|Hb]%elem_of_charge; [done|].
  assert (b ∈ charge p (alloc_of w a) (members (delete a (allocs w)) p)) as Hin
    by (apply elem_of_charge; auto).
  enough (published m' P b) as Hpb by (unfold published; by rewrite Hrow).
  apply (published_frame (mem w)); auto. intros Hr i Hi. apply (Hframe p P); auto.
  - intros _. destruct Hnew as [->|Hn]; [simpl; lia|]. by eapply charge_rows_differ.
  - destruct (Hall b Hin) as [_ ?]. lia.
Qed.

Lemma commit_other_pool q Q :
  q <> p -> pools w !! q = Some Q -> pool_ok m' Q (members (<[a := al']> (allocs w)) q).
Proof.
  intros Hne HQ. pose proof (wo_pools _ Hw _ _ HQ) as Hok.
  rewrite (members_alloc_of _ a) in Hok. rewrite members_insert. unfold charge in *.
  rewrite decide_False in Hok by (destruct Hold; naive_solver).
  rewrite decide_False by (destruct Hnew as [->|]; naive_solver).
  destruct Hok as [Ha Ht Hp]. constructor; [done..|].
  pose proof (acc_each _ _ Ha) as Hall. rewrite Forall_forall in *. intros b Hb.
  apply (published_frame (mem w)); auto. intros Hr i Hi. apply (Hframe q Q); [done|done| |done].
  destruct (Hall b Hb) as [_ ?]. lia.
Qed.

Lemma commit_ok : world_ok (MkWorld (<[p := P']> (pools w)) (<[a := al']> (allocs w)) m').
Proof.
  constructor; simpl.
  - intros q Q. rewrite lookup_insert_Some. intros [[<- <-]|[Hne HQ]].
    + apply commit_same_pool.
    + by apply commit_other_pool.
  - intros q1 q2 Q1 Q2 Hne H1 H2. unfold table_end.
    assert (forall q Q, <[p:=P']> (pools w) !! q = Some Q -> exists Q0, pools w !! q = Some Q0 /\
      row_addr Q = row_addr Q0 /\ spec_ Q = spec_ Q0 /\ block_tables_ Q = block_tables_ Q0) as Hq.
    { intros q Q. rewrite lookup_insert_Some. intros [[<- <-]|[_ HQ]]; eauto 6. }
    apply Hq in H1 as (P1 & H1 & -> & -> & ->). apply Hq in H2 as (P2 & H2 & -> & -> & ->).
    by apply (wo_disjoint _ Hw q1 q2).
  - intros b bl. rewrite lookup_insert_Some. intros [[<- <-]|[_ Hb]].
    + destruct Hnew as [->|Hn]; [done|]. rewrite Hn, lookup_insert_eq. done.
    + pose proof (wo_live _ Hw _ _ Hb) as H. destruct (pool_ bl) as [q|]; [|done].
      rewrite lookup_insert. case_decide; [done|done].
Qed.
End commit.

(** ** The operations *)

(** Strong exception safety: the invariant holds afterwards, and an operation
    that throws has changed nothing. *)
Definition safe (w : W) (o : res unit * W) : Prop :=
  world_ok (snd o) /\ forall e, fst o = Throw e -> snd o = w.

Lemma safe_same w r : world_ok w -> safe w (r, w).
Proof. by split. Qed.

Lemma safe_Ok w w' u : world_ok w' -> safe w (Ok u, w').
Proof. by split. Qed.

(** What an operation finds behind a live allocation. *)
Lemma live_pool w a :
  world_ok w -> valid (alloc_of w a) = true ->
  exists p P rest, pool_ (alloc_of w a) = Some p /\ pools w !! p = Some P /\
    accounts P (alloc_of w a :: rest) /\ tables_ok P /\ published (mem w) P (alloc_of w a).
Proof.
  intros Hw Hv. pose proof (alloc_of_live w a Hw) as Hl.
  unfold valid in Hv. apply bool_decide_eq_true in Hv as [p Hp]. rewrite Hp in Hl.
  destruct Hl as [P HP]. exists p, P, (members (delete a (allocs w)) p).
  pose proof (wo_pools _ Hw _ _ HP) as Hok. rewrite (members_alloc_of _ a) in Hok.
  unfold charge in Hok. rewrite decide_True in Hok by done. destruct Hok as [? ? Hpub].
  apply Forall_cons in Hpub as [? _]. done.
Qed.

Lemma get_pool_live w p P : pools w !! p = Some P -> get_pool (M := M) (Some p) w = (Ok P, w).
Proof. intros HP. unfold get_pool. simpl. by rewrite HP. Qed.

Lemma invalid_empty w a :
  world_ok w -> valid (alloc_of w a) = false -> alloc_of w a = empty_alloc.
Proof.
  intros Hw Hv. pose proof (alloc_of_live w a Hw) as Hl.
  unfold valid in Hv. apply bool_decide_eq_false in Hv. destruct (pool_ _); [|done].
  exfalso. eauto.
Qed.

(** [commit_ok] for an allocation that stays in its pool, memory untouched. *)
Lemma update_ok w a p P P' al' :
  world_ok w -> pool_ (alloc_of w a) = Some p -> pools w !! p = Some P -> pool_ al' = Some p ->
  spec_ P' = spec_ P -> block_tables_ P' = block_tables_ P ->
  (forall rest, accounts P (alloc_of w a :: rest) -> accounts P' (al' :: rest)) ->
  published (mem w) P' al' ->
  world_ok (MkWorld (<[p := P']> (pools w)) (<[a := al']> (allocs w)) (mem w)).
Proof.
  intros Hw Ha HP Ha' Hs Ht Hacc Hpub. eapply commit_ok; eauto.
  intros rest. unfold charge. rewrite !decide_True by done. auto.
Qed.

Lemma published_prefix m P P' al al' :
  published m P al -> bound_row_ al' = bound_row_ al -> spec_ P' = spec_ P ->
  block_tables_ P' = block_tables_ P -> page_ids_ al' `prefix_of` page_ids_ al ->
  published m P' al'.
Proof.
  intros Hp Hr Hs Ht Hpre. unfold published, row_addr in *. rewrite Hr, Hs, Ht.
  intros Hb i x Hi. eapply Hp; [done|]. by eapply prefix_lookup_Some.
Qed.

(** Run the monad up to the next guard. *)
Ltac st_run :=
  cbv beta iota delta [mbind st_bind mret st_ret get put lift throw st_throw_if throw_if
                       get_alloc set_alloc set_pool upload_ids];
  cbn [pools allocs mem fst snd negb orb andb].

Lemma set_page_entitlement_safe w a n :
  world_ok w -> u32 n -> safe w (set_page_entitlement a n w).
Proof.
  intros Hw Hn. unfold set_page_entitlement. st_run.
  destruct (valid (alloc_of w a)) eqn:Hv; cbn; [|by apply safe_same].
  destruct (Z.ltb_spec n (mapped_page_count (alloc_of w a))); cbn; [by apply safe_same|].
  destruct (live_pool w a Hw Hv) as (p & P & rest & Ha & HP & Hacc & Ht & Hpub).
  rewrite Ha, get_pool_live with (P := P) by done. st_run.
  destruct (can_replace_entitlement _ _ _) eqn:E; cbn; [|by apply safe_same].
  rewrite (can_replace_entitlement_spec _ _ _ _ Hacc) in E by width_lia. destruct E.
  apply safe_Ok. eapply update_ok; eauto. intros. by apply replace_entitlement_accounts.
Qed.

Lemma cancel_unmapped_safe w a : world_ok w -> safe w (cancel_unmapped_entitlement a w).
Proof.
  intros Hw. unfold cancel_unmapped_entitlement. st_run.
  destruct (valid (alloc_of w a)) eqn:Hv; st_run; [|by apply safe_same].
  destruct (live_pool w a Hw Hv) as (p & P & rest & Ha & HP & Hacc & Ht & Hpub).
  rewrite Ha, get_pool_live with (P := P) by done. st_run.
  apply safe_Ok. eapply update_ok; eauto. intros rest' Hacc'.
  destruct (acc_head _ _ _ Hacc') as [? _]. destruct (acc_entitled _ _ Hacc').
  apply replace_entitlement_accounts; [done|lia|lia].
Qed.

Lemma trim_pages_safe w a n : world_ok w -> u32 n -> safe w (trim_pages a n w).
Proof.
  intros Hw Hn. unfold trim_pages. st_run.
  destruct (valid (alloc_of w a)) eqn:Hv; st_run; [|by apply safe_same].
  destruct (Z.ltb_spec (mapped_page_count (alloc_of w a)) n) as [|Hle]; st_run; [by apply safe_same|].
  destruct (n =? mapped_page_count (alloc_of w a)); st_run; [by apply safe_same|].
  destruct (live_pool w a Hw Hv) as (p & P & rest & Ha & HP & Hacc & Ht & Hpub).
  rewrite Ha, get_pool_live with (P := P) by done. st_run.
  pose proof (return_pages_same P (drop (Z.to_nat n) (page_ids_ (alloc_of w a)))) as [? ?].
  apply safe_Ok. eapply update_ok; eauto.
  - intros rest' Hacc'. apply return_pages_accounts; [done|]. unfold mapped_page_count in Hle. lia.
  - eapply published_prefix; [done|done|done|done|apply prefix_take].
Qed.

Lemma unbind_row_safe w a : world_ok w -> safe w (unbind_row a w).
Proof.
  intros Hw. unfold unbind_row. st_run.
  destruct (Z.ltb_spec (bound_row_ (alloc_of w a)) 0); st_run; [by apply safe_same|].
  destruct (valid (alloc_of w a)) eqn:Hv.
  2: { pose proof (invalid_empty _ _ Hw Hv) as E. rewrite E in *. simpl in *. lia. }
  destruct (live_pool w a Hw Hv) as (p & P & rest & Ha & HP & Hacc & Ht & Hpub).
  rewrite Ha, get_pool_live with (P := P) by done. st_run.
  apply safe_Ok. eapply update_ok; eauto.
  - intros. by apply release_row_accounts.
  - intros Hr. simpl in Hr. lia.
Qed.

(** Block-table uploads stay inside their row. *)
Lemma row_write_frame w p P row first l :
  world_ok w -> pools w !! p = Some P -> 0 <= row < table_rows (spec_ P) ->
  0 <= first -> first + Z.of_nat (length l) <= logical_page_capacity (spec_ P) ->
  forall q Q r i, pools w !! q = Some Q -> (q = p -> r <> row) ->
    0 <= r < table_rows (spec_ Q) -> 0 <= i < logical_page_capacity (spec_ Q) ->
    load_i32 (upload_i32s (row_addr P row + first * 4) l (mem w)) (row_addr Q r + 4 * i) =
    load_i32 (mem w) (row_addr Q r + 4 * i).
Proof.
  intros Hw HP Hrow Hf Hl q Q r i HQ Hne Hr Hi. apply upload_i32s_out.
  destruct (decide (q = p)) as [->|Hq].
  - rewrite HP in HQ. injection HQ as <-. specialize (Hne eq_refl). unfold row_addr in *. nia.
  - pose proof (wo_disjoint _ Hw q p Q P Hq HQ HP) as Hdis. unfold table_end, row_addr in *. nia.
Qed.

(** Uploading the ids behind [first] completes the row. *)
Lemma published_upload m P al first :
  Forall (fun x => 0 <= x <= i32_max) (page_ids_ al) ->
  (first <= length (page_ids_ al))%nat ->
  published m P (with_pages al (take first (page_ids_ al))) ->
  published (upload_i32s (row_addr P (bound_row_ al) + Z.of_nat first * 4)
               (drop first (page_ids_ al)) m) P al.
Proof.
  intros Hids Hf Hp Hr i x Hi. rewrite Forall_lookup in Hids.
  destruct (decide (i < first)%nat) as [Hlt|Hge].
  - rewrite upload_i32s_out by lia. apply Hp; [done|]. simpl. by rewrite lookup_take_lt.
  - replace (row_addr P (bound_row_ al) + 4 * Z.of_nat i)
      with (row_addr P (bound_row_ al) + Z.of_nat first * 4 + 4 * Z.of_nat (i - first)) by lia.
    apply upload_i32s_in; [|specialize (Hids _ _ Hi); width_lia].
    rewrite lookup_drop, <- Hi. f_equal. lia.
Qed.

(** [publish_range] on a bound allocation writes its row and nothing else. *)
Lemma publish_range_bound w a p P first n :
  pool_ (alloc_of w a) = Some p -> pools w !! p = Some P -> spec_ok (spec_ P) -> tables_ok P ->
  0 <= bound_row_ (alloc_of w a) < table_rows (spec_ P) ->
  Z.of_nat (length (drop (Z.to_nat first) (page_ids_ (alloc_of w a)))) = n ->
  publish_range a first n w =
  (Ok tt, if n =? 0 then w else
     MkWorld (pools w) (allocs w)
       (upload_i32s (row_addr P (bound_row_ (alloc_of w a)) + first * 4)
          (drop (Z.to_nat first) (page_ids_ (alloc_of w a))) (mem w))).
Proof.
  intros Ha HP Hs Ht Hr Hn. unfold publish_range. destruct (n =? 0); [done|]. st_run.
  rewrite Ha, get_pool_live with (P := P) by done. st_run.
  destruct (block_table_row_Ok P _ Hs Ht Hr) as (t & -> & -> & _).
  by rewrite take_ge by lia.
Qed.

(** The world after an update that publishes the ids behind [first]. *)
Lemma publish_ok w a p P P' al' first n :
  world_ok w -> pool_ (alloc_of w a) = Some p -> pools w !! p = Some P -> pool_ al' = Some p ->
  spec_ P' = spec_ P -> block_tables_ P' = block_tables_ P ->
  (forall rest, accounts P (alloc_of w a :: rest) -> accounts P' (al' :: rest)) ->
  0 <= bound_row_ al' -> (first <= length (page_ids_ al'))%nat ->
  n = mapped_page_count al' - Z.of_nat first ->
  published (mem w) P (with_pages al' (take first (page_ids_ al'))) ->
  exists w', publish_range a (Z.of_nat first) n
               (MkWorld (<[p := P']> (pools w)) (<[a := al']> (allocs w)) (mem w)) = (Ok tt, w') /\
    world_ok w' /\ pools w' = <[p := P']> (pools w) /\ allocs w' = <[a := al']> (allocs w).
Proof.
  intros Hw Ha HP Ha' Hs Ht Hacc Hr Hf Hn Hpub.
  assert (row_addr P' = row_addr P) as Hrow by (unfold row_addr; by rewrite Hs, Ht).
  destruct (live_pool w a Hw) as (p' & P0 & rest & E1 & E2 & Hold & Htab & _).
  { unfold valid. rewrite Ha. by apply bool_decide_eq_true. }
  rewrite Ha in E1. injection E1 as <-. rewrite HP in E2. injection E2 as <-.
  specialize (Hacc _ Hold) as Hnew. pose proof (acc_spec _ _ Hnew) as Hspec.
  pose proof (acc_head _ _ _ Hnew) as [Hcap Hrows].
  set (w1 := MkWorld _ _ _).
  assert (alloc_of w1 a = al') as Hal by (unfold alloc_of; subst w1; simpl; by rewrite lookup_insert_eq).
  rewrite (publish_range_bound w1 a p P') by
    (rewrite ?Hal, ?length_drop, ?Nat2Z.id; unfold mapped_page_count in Hn;
     first [done | lia | subst w1; apply lookup_insert_eq | unfold tables_ok; by rewrite Hs, Ht]).
  eexists. split; [done|]. rewrite Hal, Nat2Z.id.
  destruct (Z.eqb_spec n 0) as [Hz|Hnz]; subst w1; cbn [pools allocs mem].
  - split; [|done]. eapply update_ok; eauto. rewrite take_ge in Hpub by (unfold mapped_page_count in Hn; lia).
    eapply published_prefix; eauto; done.
  - split; [|done]. eapply commit_ok; eauto.
    + intros rest'. unfold charge. rewrite !decide_True by done. auto.
    + apply published_upload; [|done|].
      * apply Forall_forall. intros x Hx. pose proof (acc_page_range _ _ _ Hnew x Hx).
        destruct Hspec. lia.
      * by eapply published_prefix.
    + rewrite Hrow. eapply row_write_frame; eauto; [rewrite <- Hs; lia|lia|].
      rewrite length_drop, <- Hs. unfold mapped_page_count in *. lia.
Qed.

Lemma with_pages_id al : with_pages al (page_ids_ al) = al.
Proof. by destruct al. Qed.

(** Growing inside the entitlement never fails, keeps the mapped prefix and
    appends pages that are consecutive whenever the free list allows it. *)
Lemma materialize_pages_spec w a n :
  world_ok w -> valid (alloc_of w a) = true ->
  mapped_page_count (alloc_of w a) <= n <= page_entitlement_ (alloc_of w a) ->
  exists ids w' p P, materialize_pages a n w = (Ok tt, w') /\ world_ok w' /\
    alloc_of w' a = with_pages (alloc_of w a) (page_ids_ (alloc_of w a) ++ ids) /\
    Z.of_nat (length (page_ids_ (alloc_of w a) ++ ids)) = n /\
    (forall b, b <> a -> allocs w' !! b = allocs w !! b) /\
    pool_ (alloc_of w a) = Some p /\ pools w !! p = Some P /\
    ((exists b, run_at (free_page_ids_ P) (length ids) b = true) ->
       exists first, ids = seqZ first (Z.of_nat (length ids))).
Proof.
  intros Hw Hv Hn. destruct (live_pool w a Hw Hv) as (p & P & rest & Ha & HP & Hacc & Ht & Hpub).
  unfold materialize_pages. st_run. rewrite Hv, Ha. cbn [negb orb].
  set (al := alloc_of w a) in *. set (old := mapped_page_count al) in *.
  replace ((n <? old) || (page_entitlement_ al <? n)) with false by lia. st_run.
  destruct (Z.eqb_spec (n - old) 0) as [Hz|Hnz].
  { exists [], w, p, P. rewrite app_nil_r. split_and!; try done.
    - by rewrite with_pages_id.
    - unfold old, mapped_page_count in Hz. lia.
    - intros _. by exists 0. }
  rewrite get_pool_live with (P := P) by done. st_run.
  edestruct (take_pages_spec P al rest (n - old)) as (ids & P' & Et & Hlen & Hs & Htb & Hstep & Hrun);
    [done|lia|fold old; lia|]. rewrite Et. cbn [fst snd]. st_run.
  assert (Z.of_nat (length (page_ids_ al ++ ids)) = n) as Hn'
    by (rewrite length_app; unfold old, mapped_page_count in Hlen; lia).
  set (al' := with_pages al (page_ids_ al ++ ids)) in *.
  destruct (Z.leb_spec 0 (bound_row_ al)) as [Hb|Hb].
  - destruct (publish_ok w a p P P' al' (length (page_ids_ al)) (n - old)) as (w' & Ew & Hok & Hpools & Hall);
      try done; [simpl; rewrite length_app; lia|unfold mapped_page_count in *; subst old; simpl; lia|..].
    { eapply published_prefix; eauto. subst al'. simpl. by rewrite take_app_length. }
    unfold old at 1. unfold mapped_page_count at 1. rewrite Ew. exists ids, w', p, P.
    split_and!; try done; [|intros b Hne; rewrite Hall; by apply lookup_insert_ne].
    unfold alloc_of. rewrite Hall. by rewrite lookup_insert_eq.
  - exists ids. eexists _, p, P. split; [done|]. split_and!; try done.
    + eapply update_ok; eauto. intros Hr. simpl in Hr. lia.
    + unfold alloc_of. simpl. by rewrite lookup_insert_eq.
    + intros b Hne. simpl. by apply lookup_insert_ne.
Qed.

Lemma materialize_pages_safe w a n : world_ok w -> safe w (materialize_pages a n w).
Proof.
  intros Hw. destruct (valid (alloc_of w a)) eqn:Hv;
    [destruct (decide (mapped_page_count (alloc_of w a) <= n <= page_entitlement_ (alloc_of w a))) as [Hn|Hn]|].
  - destruct (materialize_pages_spec w a n Hw Hv Hn) as (? & w' & ? & ? & -> & ? & _). by apply safe_Ok.
  - unfold materialize_pages. st_run. rewrite Hv. cbn [negb orb].
    replace ((n <? _) || (_ <? n)) with true by lia. by apply safe_same.
  - unfold materialize_pages. st_run. rewrite Hv. by apply safe_same.
Qed.

Lemma bind_row_safe w a row : world_ok w -> safe w (bind_row a row w).
Proof.
  intros Hw. unfold bind_row. st_run.
  destruct (valid (alloc_of w a)) eqn:Hv; st_run; [|by apply safe_same].
  destruct (Z.leb_spec 0 (bound_row_ (alloc_of w a))) as [|Hb]; st_run; [by apply safe_same|].
  destruct (live_pool w a Hw Hv) as (p & P & rest & Ha & HP & Hacc & Ht & Hpub).
  rewrite Ha, get_pool_live with (P := P) by done. st_run.
  pose proof (fun rest' H => acquire_row_accounts P (alloc_of w a) rest' row H Hb) as Hacq.
  specialize (Hacq _ Hacc) as Hrow.
  destruct (acquire_row P row) as [P'|e] eqn:E; [|by apply safe_same].
  destruct Hrow as (Hrow & _ & Htb & Hs & _). unfold publish_mapping. st_run.
  set (w1 := MkWorld _ _ _).
  assert (alloc_of w1 a = with_row (alloc_of w a) row) as Hal
    by (unfold alloc_of at 1; subst w1; simpl; by rewrite lookup_insert_eq).
  rewrite Hal. cbn [bound_row_ with_row]. replace (row <? 0) with false by lia. st_run.
  destruct (publish_ok w a p P P' (with_row (alloc_of w a) row) 0
    (mapped_page_count (with_row (alloc_of w a) row))) as (w' & Ew & Hok & _);
    try done; try (simpl; lia).
  - intros rest' Hacc'. by apply Hacq.
  - subst w1. change 0 with (Z.of_nat 0). rewrite Ew. by apply safe_Ok.
Qed.

Lemma unbind_row_shape w a p P :
  world_ok w -> pool_ (alloc_of w a) = Some p -> pools w !! p = Some P ->
  exists P1, let w1 := MkWorld (<[p := P1]> (pools w))
                         (<[a := with_row (alloc_of w a) (-1)]> (allocs w)) (mem w) in
    unbind_row a w = (Ok tt, w1) /\ world_ok w1 /\ spec_ P1 = spec_ P.
Proof.
  intros Hw Ha HP. assert (valid (alloc_of w a) = true) as Hv
    by (unfold valid; rewrite Ha; by apply bool_decide_eq_true).
  destruct (live_pool w a Hw Hv) as (p' & P' & rest & E1 & E2 & Hacc & _).
  rewrite Ha in E1. injection E1 as <-. rewrite HP in E2. injection E2 as <-.
  pose proof (unbind_row_safe w a Hw) as [Hok _]. unfold unbind_row in *. revert Hok. st_run.
  destruct (Z.ltb_spec (bound_row_ (alloc_of w a)) 0) as [Hb|Hb]; st_run.
  - intros _. exists P. destruct (acc_head _ _ _ Hacc) as [_ ?].
    assert (with_row (alloc_of w a) (-1) = alloc_of w a) as ->.
    { destruct (alloc_of w a). unfold with_row. simpl in *. f_equal. lia. }
    rewrite insert_id by done. rewrite insert_id; [by destruct w|].
    unfold alloc_of in *. by destruct (allocs w !! a).
  - rewrite Ha, get_pool_live with (P := P) by done. st_run. by eauto.
Qed.

(** Releasing gives back everything: the object is empty afterwards. *)
Lemma release_spec w a :
  world_ok w -> exists w', release a w = (Ok tt, w') /\ world_ok w' /\ alloc_of w' a = empty_alloc /\
    (forall b, b <> a -> allocs w' !! b = allocs w !! b) /\
    (forall q, pool_ (alloc_of w a) <> Some q -> pools w' !! q = pools w !! q) /\
    (forall q Q, pools w !! q = Some Q -> exists Q', pools w' !! q = Some Q' /\ spec_ Q' = spec_ Q).
Proof.
  intros Hw. unfold release. st_run.
  destruct (valid (alloc_of w a)) eqn:Hv; st_run; [|by eauto 10 using invalid_empty].
  destruct (live_pool w a Hw Hv) as (p & P & rest & Ha & HP & _).
  set (al := alloc_of w a) in *.
  destruct (unbind_row_shape w a p P) as (P1 & Eu & Hw1 & Hs1); [done..|]. fold al in Eu, Hw1.
  rewrite Eu. st_run. rewrite Ha, get_pool_live with (P := P1) by apply lookup_insert_eq. st_run.
  eexists. split; [done|].
  set (w1 := MkWorld _ (<[a := with_row al (-1)]> _) _) in Hw1.
  assert (alloc_of w1 a = with_row al (-1)) as Hal
    by (unfold alloc_of at 1; subst w1; simpl; by rewrite lookup_insert_eq).
  pose proof (return_pages_same P1 (page_ids_ al)) as [? ?]. split_and!.
  - eapply (commit_ok w1 a p P1); rewrite ?Hal; auto; [by apply lookup_insert_eq| |].
    + intros rest'. rewrite charge_in, charge_empty by done. intros Hacc.
      by apply release_accounts in Hacc; [|simpl; lia].
    + intros Hr. simpl in Hr. lia.
  - unfold alloc_of. simpl. by rewrite lookup_insert_eq.
  - intros b Hne. simpl. by rewrite !lookup_insert_ne.
  - intros q Hq. simpl. rewrite !lookup_insert_ne; [done|congruence..].
  - intros q Q HQ. simpl. destruct (decide (q = p)) as [->|]; [|rewrite !lookup_insert_ne by done; eauto].
    rewrite lookup_insert_eq. eexists. split; [done|]. simpl. congruence.
Qed.

Lemma reserve_spec w p P n a :
  world_ok w -> u32 n -> pools w !! p = Some P -> alloc_of w a = empty_alloc ->
  let w' := MkWorld (<[p := add_entitlement P n]> (pools w))
                    (<[a := MkAlloc (Some p) [] n (-1)]> (allocs w)) (mem w) in
  if can_reserve P n then reserve p n a w = (Ok tt, w') /\ world_ok w'
  else reserve p n a w = (Throw bad_alloc, w).
Proof.
  intros Hw Hn HP Ha w'. unfold reserve. st_run. rewrite get_pool_live with (P := P) by done.
  st_run. destruct (can_reserve P n) eqn:E; cbn [negb]; [|done]. split; [done|]. subst w'.
  assert (0 <= n) as H0 by width_lia.
  apply (commit_ok w a p P); auto.
  - left. by rewrite Ha.
  - intros rest. rewrite Ha, charge_empty, charge_in by done. intros Hacc.
    apply (can_reserve_spec _ _ _ Hacc H0) in E as [? ?]. by apply reserve_accounts.
  - by intros _ i x Hi.
Qed.

Lemma reserve_safe w p n a :
  world_ok w -> u32 n -> is_Some (pools w !! p) -> alloc_of w a = empty_alloc -> safe w (reserve p n a w).
Proof.
  intros Hw Hn [P HP] Ha. pose proof (reserve_spec w p P n a Hw Hn HP Ha) as H. cbv zeta in H.
  destruct (can_reserve P n); [destruct H as [-> ?]; by apply safe_Ok|rewrite H; by apply safe_same].
Qed.

(** Moving keeps every pool's allocations. *)
Lemma move_construct_spec w dst src :
  world_ok w -> dst <> src -> alloc_of w dst = empty_alloc ->
  exists w', move_construct dst src w = (Ok tt, w') /\ world_ok w' /\
    alloc_of w' dst = alloc_of w src /\ alloc_of w' src = empty_alloc /\
    pools w' = pools w /\ mem w' = mem w.
Proof.
  intros Hw Hne Hd. unfold move_construct. st_run. eexists. split; [done|].
  split_and!; try done; [|unfold alloc_of; simpl; by rewrite lookup_insert_eq|
    unfold alloc_of; simpl; by rewrite lookup_insert_ne, lookup_insert_eq].
  assert (forall p, members (<[dst := alloc_of w src]> (<[src := empty_alloc]> (allocs w))) p ≡ₚ
                    members (allocs w) p) as Hm.
  { intros p. rewrite members_insert, delete_insert_ne, members_insert by done.
    rewrite (members_alloc_of w dst), Hd. rewrite !charge_empty.
    pose proof (members_alloc_of (MkWorld (pools w) (delete dst (allocs w)) (mem w)) src p) as H.
    unfold alloc_of in H. simpl in H. rewrite lookup_delete_ne in H by done. by rewrite H. }
  constructor; simpl.
  - intros p P HP. rewrite Hm. by apply (wo_pools _ Hw).
  - apply (wo_disjoint _ Hw).
  - intros b bl. rewrite !lookup_insert_Some. intros [[<- <-]|[? [[<- <-]|[_ Hb]]]].
    + pose proof (alloc_of_live w src Hw) as H. destruct (pool_ (alloc_of w src)); [|done].
      by destruct H as [P ->].
    + done.
    + by apply (wo_live _ Hw) in Hb.
Qed.

Lemma move_assign_spec w dst src :
  world_ok w -> dst <> src ->
  exists w', move_assign dst src w = (Ok tt, w') /\ world_ok w' /\
    alloc_of w' dst = alloc_of w src /\ alloc_of w' src = empty_alloc.
Proof.
  intros Hw Hne. unfold move_assign. rewrite bool_decide_eq_false_2 by done.
  destruct (release_spec w dst Hw) as (w1 & E & Hw1 & Hd & Hother & _).
  destruct (move_construct_spec w1 dst src Hw1 Hne Hd) as (w2 & E2 & Hw2 & H1 & H2 & _).
  exists w2. unfold mbind, st_bind. rewrite E, E2. split_and!; try done.
  rewrite H1. unfold alloc_of. by rewrite Hother.
Qed.

(** ** Bundles *)
Lemma validate_distinct_pools_Ok rs : forall prev,
  match validate_distinct_pools prev rs with
  | Ok _ => Forall (fun r => resv_pool r <> None /\ resv_entitlement r <> 0) rs /\
            NoDup (resv_pool <$> rs) /\
            forall r q, r ∈ rs -> q ∈ prev -> resv_pool r <> resv_pool q
  | Throw e => e = invalid_argument
  end.
Proof.
  induction rs as [|r rs IH]; intros prev; simpl.
  { split_and!; [constructor|constructor|]. by intros r q Hr%elem_of_nil. }
  unfold throw_if. case_bool_decide as Hn; [done|]. simpl.
  destruct (Z.eqb_spec (resv_entitlement r) 0); [done|]. simpl.
  destruct (existsb _ prev) eqn:E; [done|]. simpl. specialize (IH (prev ++ [r])).
  destruct (validate_distinct_pools _ _); [|done]. destruct IH as (H1 & H2 & H3).
  assert (forall q, q ∈ prev -> resv_pool r <> resv_pool q) as Hprev.
  { intros q Hq Heq. apply not_true_iff_false in E. apply E, existsb_exists.
    exists q. split; [by apply list_elem_of_In|by apply bool_decide_eq_true]. }
  split_and!; [by constructor| |].
  - constructor; [|done]. intros (x & Hx & Hin)%list_elem_of_fmap.
    apply (H3 x r); [done| |done]. apply elem_of_app. right. by apply list_elem_of_singleton.
  - intros x q [->|Hx]%elem_of_cons Hq; [by apply Hprev|]. apply H3; [done|]. apply elem_of_app. auto.
Qed.

Definition reservable (w : W) (r : PagedKVReservation) : Prop :=
  u32 (resv_entitlement r) /\ exists p P, resv_pool r = Some p /\ pools w !! p = Some P /\
    can_reserve P (resv_entitlement r) = true.

Definition reserved (r : PagedKVReservation) : PagedKVAllocation :=
  MkAlloc (resv_pool r) [] (resv_entitlement r) (-1).

(** The committing loop cannot fail: distinct pools do not affect each other. *)
Lemma reserve_all rs : forall ids w,
  world_ok w -> Forall (reservable w) rs -> NoDup (resv_pool <$> rs) ->
  NoDup ids -> length ids = length rs -> Forall (fun a => alloc_of w a = empty_alloc) ids ->
  exists w', for_each (zip rs ids) commit_reservation w = (Ok tt, w') /\ world_ok w' /\
    Forall2 (fun r a => alloc_of w' a = reserved r) rs ids /\
    (forall b, b ∉ ids -> allocs w' !! b = allocs w !! b).
Proof.
  induction rs as [|r rs IH]; intros ids w Hw Hres Hnd Hids Hlen Hfresh.
  { destruct ids; [|done]. exists w. split; [done|]. split; [done|]. split; [constructor|done]. }
  destruct ids as [|a ids]; [done|]. injection Hlen as Hlen.
  apply Forall_cons in Hres as [(Hu & p & P & Hp & HP & Hcan) Hres].
  apply NoDup_cons in Hids as [Ha Hids]. apply Forall_cons in Hfresh as [Hfa Hfresh].
  rewrite fmap_cons in Hnd. apply NoDup_cons in Hnd as [Hrp Hnd].
  pose proof (reserve_spec w p P _ a Hw Hu HP Hfa) as H. cbv zeta in H. rewrite Hcan in H.
  destruct H as [E Hw1]. set (w1 := MkWorld _ _ _) in *.
  destruct (IH ids w1) as (w' & E' & Hw' & Hall & Hother); try done.
  - rewrite Forall_forall in *. intros q Hq. destruct (Hres q Hq) as (? & p' & P' & Hp' & HP' & ?).
    split; [done|]. exists p', P'. split_and!; try done. subst w1. simpl.
    rewrite lookup_insert_ne; [done|]. intros ->. apply Hrp. apply list_elem_of_fmap.
    exists q. by rewrite Hp, Hp'.
  - rewrite Forall_forall in *. intros b Hb. unfold alloc_of. subst w1. simpl.
    rewrite lookup_insert_ne by (intros ->; done). by apply Hfresh.
  - exists w'. simpl. rewrite (st_bind_Ok _ _ w tt w1) by (unfold commit_reservation; simpl; by rewrite Hp).
    split_and!; try done.
    + constructor; [|done]. unfold alloc_of. rewrite Hother by done. subst w1. simpl.
      rewrite lookup_insert_eq. simpl. unfold reserved. by rewrite Hp.
    + intros b Hb. rewrite Hother by set_solver. subst w1. simpl. rewrite lookup_insert_ne; set_solver.
Qed.

(** The checking loop reads only; it passes exactly when every pool has room. *)
Lemma check_reservable rs w :
  Forall (fun r => exists p P, resv_pool r = Some p /\ pools w !! p = Some P) rs ->
  Forall (fun r => u32 (resv_entitlement r)) rs ->
  (for_each rs check_reservation w = (Ok tt, w) /\
   Forall (reservable w) rs) \/
  (for_each rs check_reservation w = (Throw bad_alloc, w) /\
   ~ Forall (reservable w) rs).
Proof.
  intros Hp Hu. induction rs as [|r rs IH]; [left; split; [done|constructor]|].
  apply Forall_cons in Hp as [(p & P & Er & HP) Hp]. apply Forall_cons in Hu as [Hur Hu].
  assert (check_reservation r w =
    (if can_reserve P (resv_entitlement r) then Ok tt else Throw bad_alloc, w)) as Hc.
  { unfold check_reservation. rewrite Er, (st_bind_Ok _ _ w P w) by (by apply get_pool_live).
    by destruct (can_reserve _ _). }
  destruct (can_reserve P (resv_entitlement r)) eqn:E; simpl;
    [rewrite (st_bind_Ok _ _ _ _ _ Hc)|rewrite (st_bind_Throw _ _ _ _ _ Hc)].
  - destruct (IH Hp Hu) as [[-> Hf]|[-> Hf]]; [left|right]; (split; [done|]).
    + constructor; [|done]. unfold reservable. eauto 6.
    + intros Hall. apply Hf. by apply Forall_cons in Hall as [_ ?].
  - right. split; [done|]. intros [(_ & p' & P' & Er' & HP' & ?) _]%Forall_cons.
    rewrite Er in Er'. injection Er' as <-. rewrite HP in HP'. injection HP' as <-. congruence.
Qed.

(** Reserving a bundle is all or nothing: it succeeds exactly when the request is
    well formed and every pool has room, it then hands out one empty allocation
    per reservation, and a refused bundle leaves every pool as it was. *)
Lemma reserve_bundle_spec w rs ids :
  world_ok w -> Forall (fun r => u32 (resv_entitlement r)) rs ->
  Forall (fun r => forall p, resv_pool r = Some p -> is_Some (pools w !! p)) rs ->
  NoDup ids -> length ids = length rs -> Forall (fun a => alloc_of w a = empty_alloc) ids ->
  match reserve_paged_kv_bundle rs ids w with
  | (Ok _, w') => world_ok w' /\ Forall (reservable w) rs /\ NoDup (resv_pool <$> rs) /\
                  Forall2 (fun r a => alloc_of w' a = reserved r) rs ids
  | (Throw e, w') => w' = w /\ (e = invalid_argument \/
                       e = bad_alloc /\ ~ Forall (reservable w) rs)
  end.
Proof.
  intros Hw Hu Hlive Hids Hlen Hfresh. unfold reserve_paged_kv_bundle.
  pose proof (validate_distinct_pools_Ok rs []) as Hv.
  destruct (validate_distinct_pools [] rs) as [[]|e] eqn:E.
  2: { rewrite (st_bind_Throw _ _ w e w); [by subst; auto|done]. }
  rewrite (st_bind_Ok _ _ w tt w) by done.
  destruct Hv as (Hnn & Hnd & _).
  destruct (check_reservable rs w) as [[Hc Hres]|[Hc Hres]]; [|done|..].
  { rewrite Forall_forall in *. intros r Hr. destruct (Hnn r Hr) as [Hp _].
    destruct (resv_pool r) as [p|] eqn:Er; [|done]. destruct (Hlive r Hr p Er) as [P HP]. eauto. }
  - rewrite (st_bind_Ok _ _ _ _ _ Hc).
    destruct (reserve_all rs ids w) as (w' & -> & ? & ? & _); try done.
  - rewrite (st_bind_Throw _ _ _ _ _ Hc). auto.
Qed.

Lemma trim_pages_spec w a p P n :
  world_ok w -> u32 n -> pool_ (alloc_of w a) = Some p -> pools w !! p = Some P ->
  n <= mapped_page_count (alloc_of w a) ->
  let ids := page_ids_ (alloc_of w a) in
  exists w', trim_pages a n w = (Ok tt, w') /\ world_ok w' /\
    pools w' = <[p := return_pages P (drop (Z.to_nat n) ids)]> (pools w) /\
    allocs w' = <[a := with_pages (alloc_of w a) (take (Z.to_nat n) ids)]> (allocs w).
Proof.
  intros Hw Hn Ha HP Hle ids. pose proof (trim_pages_safe w a n Hw Hn) as [Hok _]. revert Hok.
  unfold trim_pages, valid. st_run. rewrite Ha, bool_decide_eq_true_2 by done. st_run.
  replace (mapped_page_count (alloc_of w a) <? n) with false by lia. st_run.
  destruct (Z.eqb_spec n (mapped_page_count (alloc_of w a))) as [Heq|Hne]; st_run.
  - intros _. exists w. unfold mapped_page_count in Heq. subst ids.
    rewrite drop_ge, take_ge, with_pages_id by lia. split_and!; try done; rewrite insert_id; try done.
    unfold alloc_of in *. by destruct (allocs w !! a).
  - rewrite get_pool_live with (P := P) by done. st_run. eauto.
Qed.

Lemma set_page_entitlement_spec w a p P n :
  world_ok w -> u32 n -> pool_ (alloc_of w a) = Some p -> pools w !! p = Some P ->
  mapped_page_count (alloc_of w a) <= n ->
  can_replace_entitlement P (page_entitlement_ (alloc_of w a)) n = true ->
  let w' := MkWorld (<[p := replace_entitlement P (page_entitlement_ (alloc_of w a)) n]> (pools w))
                    (<[a := with_entitlement (alloc_of w a) n]> (allocs w)) (mem w) in
  set_page_entitlement a n w = (Ok tt, w') /\ world_ok w'.
Proof.
  intros Hw Hn Ha HP Hle Hcan w'. pose proof (set_page_entitlement_safe w a n Hw Hn) as [Hok _].
  enough (set_page_entitlement a n w = (Ok tt, w')) as E by (rewrite E in Hok; done).
  clear Hok. unfold set_page_entitlement, valid. st_run.
  rewrite Ha, bool_decide_eq_true_2 by done. cbn [negb orb].
  replace (n <? mapped_page_count (alloc_of w a)) with false by lia. st_run.
  rewrite get_pool_live with (P := P) by done. st_run. by rewrite Hcan.
Qed.

Definition rsz_pool (w : W) (c : PagedKVResize) : option N := b ← rsz_alloc c; pool_ (alloc_of w b).

(** A change the validation loop accepts. *)
Definition resizable (w : W) (c : PagedKVResize) : Prop :=
  exists a p P, rsz_alloc c = Some a /\ pool_ (alloc_of w a) = Some p /\ pools w !! p = Some P /\
    rsz_mapped c <= mapped_page_count (alloc_of w a) /\ rsz_mapped c <= rsz_entitlement c /\
    can_replace_entitlement P (page_entitlement_ (alloc_of w a)) (rsz_entitlement c) = true.

Definition resized (w : W) (c : PagedKVResize) (al : PagedKVAllocation) : PagedKVAllocation :=
  with_entitlement (with_pages al (take (Z.to_nat (rsz_mapped c)) (page_ids_ al))) (rsz_entitlement c).

Lemma apply_resize_spec w c a :
  world_ok w -> u32 (rsz_mapped c) -> u32 (rsz_entitlement c) ->
  resizable w c -> rsz_alloc c = Some a ->
  exists w', apply_resize c w = (Ok tt, w') /\ world_ok w' /\
    alloc_of w' a = resized w c (alloc_of w a) /\
    (forall q, Some q <> rsz_pool w c -> pools w' !! q = pools w !! q) /\
    (forall b, b <> a -> alloc_of w' b = alloc_of w b).
Proof.
  intros Hw Hm He (a' & p & P & Ea & Hp & HP & H1 & H2 & Hcan) Ha. rewrite Ha in Ea. injection Ea as <-.
  unfold apply_resize. rewrite Ha.
  destruct (trim_pages_spec w a p P (rsz_mapped c)) as (w1 & Et & Hw1 & Hpools & Hallocs); try done.
  rewrite (st_bind_Ok _ _ _ _ _ Et).
  set (P1 := return_pages _ _) in Hpools. set (al1 := with_pages _ _) in Hallocs.
  assert (alloc_of w1 a = al1) as Hal1 by (unfold alloc_of; by rewrite Hallocs, lookup_insert_eq).
  assert (pools w1 !! p = Some P1) as HP1 by (by rewrite Hpools, lookup_insert_eq).
  assert (entitled_pages_ P1 = entitled_pages_ P /\ spec_ P1 = spec_ P) as [He1 Hs1]
    by (subst P1; unfold return_pages; by case_bool_decide).
  destruct (set_page_entitlement_spec w1 a p P1 (rsz_entitlement c)) as [Es Hok]; rewrite ?Hal1; try done.
  { unfold al1, mapped_page_count. simpl. rewrite length_take. width_lia. }
  { unfold can_replace_entitlement in *. by rewrite He1, Hs1. }
  rewrite Es. eexists. split; [done|]. split; [done|]. rewrite Hal1.
  unfold alloc_of, rsz_pool. rewrite Ha, Hpools, Hallocs. simpl. fold (alloc_of w a). rewrite Hp. split_and!.
  - by rewrite lookup_insert_eq.
  - intros q Hq. rewrite !lookup_insert_ne; [done|congruence..].
  - intros b Hb. by rewrite !lookup_insert_ne.
Qed.

Lemma validate_resize_spec w prev c :
  world_ok w ->
  exists r, validate_resize prev c w = (r, w) /\
    (r = Ok tt -> resizable w c /\ forall q, q ∈ prev -> rsz_pool w c <> rsz_pool w q).
Proof.
  intros Hw. unfold validate_resize. destruct (rsz_alloc c) as [a|] eqn:Ea; [|by eexists].
  st_run. destruct (valid (alloc_of w a)) eqn:Hv; st_run; [|by eexists].
  destruct (Z.ltb_spec (mapped_page_count (alloc_of w a)) (rsz_mapped c)); st_run; [by eexists|].
  destruct (Z.ltb_spec (rsz_entitlement c) (rsz_mapped c)); st_run; [by eexists|].
  destruct (existsb _ prev) eqn:E; st_run; [by eexists|].
  destruct (live_pool w a Hw Hv) as (p & P & _ & Ha & HP & _).
  rewrite Ha, get_pool_live with (P := P) by done. st_run.
  destruct (can_replace_entitlement _ _ _) eqn:Hcan; st_run; [|by eexists].
  eexists. split; [done|]. intros _. split; [exists a, p, P; by split_and!|].
  intros q Hq Heq. apply not_true_iff_false in E. apply E, existsb_exists. exists q.
  split; [by apply list_elem_of_In|]. apply orb_true_iff. right. apply bool_decide_eq_true.
  unfold rsz_pool in Heq. rewrite Ea in Heq. simpl in Heq. exact Heq.
Qed.

Lemma validate_resizes_spec w cs : forall prev,
  world_ok w ->
  exists r, validate_resizes prev cs w = (r, w) /\
    (r = Ok tt -> Forall (resizable w) cs /\ NoDup (rsz_pool w <$> cs) /\
       forall c q, c ∈ cs -> q ∈ prev -> rsz_pool w c <> rsz_pool w q).
Proof.
  induction cs as [|c cs IH]; intros prev Hw; simpl.
  { eexists. split; [done|]. intros _. split_and!; [constructor|constructor|].
    by intros c q Hc%elem_of_nil. }
  destruct (validate_resize_spec w prev c Hw) as ([[]|e] & E & Hc).
  2: { rewrite (st_bind_Throw _ _ _ _ _ E). by eexists. }
  rewrite (st_bind_Ok _ _ _ _ _ E). destruct (Hc eq_refl) as [Hr Hprev].
  destruct (IH (prev ++ [c]) Hw) as (r & E' & Hok). exists r. split; [done|].
  intros Hrok. destruct (Hok Hrok) as (H1 & H2 & H3). split_and!; [by constructor| |].
  - constructor; [|done]. intros (x & Hx & Hin)%list_elem_of_fmap. apply (H3 x c); [done| |done].
    apply elem_of_app. right. by apply list_elem_of_singleton.
  - intros x q [->|Hx]%elem_of_cons Hq; [by apply Hprev|]. apply H3; [done|]. apply elem_of_app. auto.
Qed.

Lemma resizable_frame w w' c :
  (forall a, rsz_alloc c = Some a -> alloc_of w' a = alloc_of w a) ->
  (forall q, Some q = rsz_pool w c -> pools w' !! q = pools w !! q) ->
  resizable w c -> resizable w' c /\ rsz_pool w' c = rsz_pool w c.
Proof.
  intros Ha Hp (a & p & P & Ea & Ep & EP & H). specialize (Ha a Ea). unfold rsz_pool in *.
  rewrite Ea in *. simpl in *. rewrite Ha. split; [|done].
  exists a, p, P. rewrite Ha, Hp by (by rewrite Ep). auto.
Qed.

(** After validation the applying loop cannot fail. *)
Lemma resize_all cs : forall w,
  world_ok w -> Forall (fun c => u32 (rsz_mapped c) /\ u32 (rsz_entitlement c)) cs ->
  Forall (resizable w) cs -> NoDup (rsz_pool w <$> cs) ->
  exists w', for_each cs apply_resize w = (Ok tt, w') /\ world_ok w' /\
    Forall (fun c => forall a, rsz_alloc c = Some a ->
                     alloc_of w' a = resized w c (alloc_of w a)) cs /\
    (forall b, Forall (fun c => rsz_alloc c <> Some b) cs -> alloc_of w' b = alloc_of w b).
Proof.
  induction cs as [|c cs IH]; intros w Hw Hu Hres Hnd.
  { exists w. split_and!; [done|done|constructor|done]. }
  apply Forall_cons in Hu as [[Hm He] Hu]. apply Forall_cons in Hres as [Hc Hres].
  rewrite fmap_cons in Hnd. apply NoDup_cons in Hnd as [Hni Hnd].
  pose proof Hc as (a & p & P & Ea & Ep & _).
  destruct (apply_resize_spec w c a Hw Hm He Hc Ea) as (w1 & E & Hw1 & Hal & Hpools & Hother).
  assert (forall d b, d ∈ cs -> rsz_alloc d = Some b -> b <> a) as Hne.
  { intros d b Hd Eb ->. apply Hni, list_elem_of_fmap. exists d. unfold rsz_pool. by rewrite Ea, Eb. }
  assert (forall d, d ∈ cs -> resizable w1 d /\ rsz_pool w1 d = rsz_pool w d) as Hframe.
  { intros d Hd. rewrite Forall_forall in Hres. apply resizable_frame; [| |by apply Hres].
    - intros b Eb. apply Hother. by eapply Hne.
    - intros q Hq. apply Hpools. rewrite Hq. intros Heq. apply Hni, list_elem_of_fmap. by exists d. }
  destruct (IH w1) as (w' & E' & Hw' & Hall & Hrest); try done.
  { apply Forall_forall. intros d Hd. by apply Hframe. }
  { erewrite Forall_fmap_ext_1; [done|]. apply Forall_forall. intros d Hd. by apply Hframe. }
  exists w'. simpl. rewrite (st_bind_Ok _ _ _ _ _ E). split_and!; [done|done| |].
  - constructor.
    + intros b Eb. rewrite Ea in Eb. injection Eb as <-. rewrite Hrest; [done|].
      apply Forall_forall. intros d Hd Eb. by apply (Hne d a).
    + rewrite Forall_forall in *. intros d Hd b Eb. rewrite (Hall d Hd b Eb).
      by rewrite Hother by (by eapply Hne).
  - intros b Hb. apply Forall_cons in Hb as [Hb Hbs]. rewrite Hrest by done. apply Hother. congruence.
Qed.

Lemma resize_bundle_spec w cs :
  world_ok w -> Forall (fun c => u32 (rsz_mapped c) /\ u32 (rsz_entitlement c)) cs ->
  match resize_paged_kv_bundle cs w with
  | (Ok _, w') => world_ok w' /\ Forall (resizable w) cs /\
      Forall (fun c => forall a, rsz_alloc c = Some a ->
                       alloc_of w' a = resized w c (alloc_of w a)) cs /\
      (forall b, Forall (fun c => rsz_alloc c <> Some b) cs -> alloc_of w' b = alloc_of w b)
  | (Throw e, w') => w' = w
  end.
Proof.
  intros Hw Hu. unfold resize_paged_kv_bundle.
  destruct (validate_resizes_spec w cs [] Hw) as ([[]|e] & E & Hok).
  - rewrite (st_bind_Ok _ _ _ _ _ E). destruct (Hok eq_refl) as (Hres & Hnd & _).
    destruct (resize_all cs w Hw Hu Hres Hnd) as (w' & -> & ? & ? & ?). done.
  - by rewrite (st_bind_Throw _ _ _ _ _ E).
Qed.

End worlds.
