(* ===== verification/PoolTheorems.v ===== *)
(** * core/paged_kv_cache: what the interface guarantees

    The operations of [PagedPool] as a transition system over worlds, from
    freshly constructed pools, and the guarantees its callers rely on. *)

From stdpp Require Import prelude list list_numbers sorting gmap.
From Stdlib Require Import ZArith Lia.
From S2P Require Import Prelude.
From S2P Require Import Tensor.
From S2P Require Import Layout.
From S2P Require Import Bytes.
From S2P Require Import PagedPool.
From S2P Require Import PoolAccounting.
From S2P Require Import PoolWorld.
#[local] Open Scope Z_scope.

(** ** Construction *)
Lemma checked_i32_Ok v r : 0 <= v -> checked_i32 v = Ok r -> r = v /\ 0 < v <= i32_max.
Proof. unfold checked_i32. intros Hv H. res_inv H. guards. injection H as <-. lia. Qed.

Lemma sorted_seqZ n : StronglySorted Z.le (seqZ 0 n).
Proof.
  unfold seqZ. generalize (Z.to_nat n) as k. intros k. generalize 0 as b. intros b.
  enough (forall j, StronglySorted Z.le ((fun i => Z.of_nat i + b) <$> seq j k)) as H by apply H.
  induction k as [|k IH]; intros j; simpl; constructor; [apply IH|].
  apply Forall_fmap, Forall_forall. intros x Hx%elem_of_seq. simpl. lia.
Qed.

Lemma owned_nil : owned [] = [].
Proof. done. Qed.

(** A pool built from a plan starts with every page free and every row unbound. *)
Lemma make_pool_accounts spec b layout b' backing P :
  0 <= page_group_count spec -> 0 <= logical_page_capacity spec -> table_rows spec <= i32_max ->
  0 < span_data backing + offset (region (layout_block_tables layout)) ->
  plan_paged_kv_pool spec b = (Ok layout, b') -> make_pool backing layout = Ok P ->
  spec_ P = spec /\ accounts P [] /\ tables_ok P.
Proof.
  intros Hg Hl Hrows Hdata Hplan Hmake. unfold plan_paged_kv_pool in Hplan. st_inv Hplan.
  apply checked_i32_Ok in H as [-> Hgc], H0 as [-> Hlc]; [|done..]. guards.
  unfold LayoutBuilder_add_tensor in H4. st_inv H4. simpl in Hdata.
  unfold make_pool in Hmake. simpl in Hmake. res_inv Hmake. injection Hmake as <-. guards.
  match goal with H : TensorRegion_bind _ _ = Ok _ |- _ => rename H into Hbind end.
  unfold TensorRegion_bind in Hbind. simpl in Hbind. res_inv Hbind.
  match goal with H : LayoutRegion_bind _ _ = Ok _ |- _ =>
    apply LayoutRegion_bind_Ok in H as (Hsd & _) end. simpl in Hsd.
  apply make_tensor_Ok in Hbind as (Hn & _ & Hd & Hdt & Hnb & _ & Hv2 & _).
  split; [done|]. split.
  - assert (0 < table_rows spec) by lia. constructor; simpl; try done.
    all: try apply sorted_seqZ; try (by constructor); try (split; [done|lia]).
    + by rewrite owned_nil, app_nil_r.
    + rewrite length_replicate. lia.
    + intros r Hr. rewrite nth_lookup, lookup_replicate_2 by lia. simpl.
      split; [done|]. by intros ?%elem_of_nil.
  - unfold tables_ok. simpl. split_and!; try done; [|lia].
    unfold normalize_shape, throw_if in Hn. simpl in Hn.
    repeat match type of Hn with context [?x <=? 0] =>
      destruct (x <=? 0); [done|]; cbn in Hn end.
    by injection Hn.
Qed.

(** ** The interface as a transition system *)
Inductive op : Type :=
| OpReserve (p : N) (entitlement : Z) (a : N)
| OpSetEntitlement (a : N) (pages : Z)
| OpCancelUnmapped (a : N)
| OpMaterializePages (a : N) (pages : Z)
| OpMaterializeTokens (a : N) (tokens : Z)
| OpTrimPages (a : N) (pages : Z)
| OpTrimTokens (a : N) (tokens : Z)
| OpBindRow (a : N) (row : Z)
| OpUnbindRow (a : N)
| OpRelease (a : N)
| OpMoveConstruct (dst src : N)
| OpMoveAssign (dst src : N)
| OpReserveBundle (rs : list PagedKVReservation) (ids : list N)
| OpResizeBundle (cs : list PagedKVResize).

Section transitions.
Context {M : Type} `{!Memory M}.
Abbreviation W := (world M).

Definition exec (o : op) : st W unit :=
  match o with
  | OpReserve p n a => reserve p n a
  | OpSetEntitlement a n => set_page_entitlement a n
  | OpCancelUnmapped a => cancel_unmapped_entitlement a
  | OpMaterializePages a n => materialize_pages a n
  | OpMaterializeTokens a n => materialize_tokens a n
  | OpTrimPages a n => trim_pages a n
  | OpTrimTokens a n => trim_tokens a n
  | OpBindRow a r => bind_row a r
  | OpUnbindRow a => unbind_row a
  | OpRelease a => release a
  | OpMoveConstruct dst src => move_construct dst src
  | OpMoveAssign dst src => move_assign dst src
  | OpReserveBundle rs ids => reserve_paged_kv_bundle rs ids
  | OpResizeBundle cs => resize_paged_kv_bundle cs
  end.

(** What the C++ types and object lifetimes ensure: arguments are [uint32_t],
    pool pointers point to pools, results go to objects that hold nothing. *)
Definition fresh_object (w : W) (a : N) : Prop := alloc_of w a = empty_alloc.

#[export] Instance fresh_object_dec w a : Decision (fresh_object w a).
Proof. unfold fresh_object. apply _. Defined.

Definition callable (w : W) (o : op) : Prop :=
  match o with
  | OpReserve p n a => u32 n /\ is_Some (pools w !! p) /\ fresh_object w a
  | OpSetEntitlement _ n | OpMaterializePages _ n | OpMaterializeTokens _ n
  | OpTrimPages _ n | OpTrimTokens _ n => u32 n
  | OpMoveConstruct dst src => dst <> src /\ fresh_object w dst
  | OpReserveBundle rs ids =>
      Forall (fun r => u32 (resv_entitlement r)) rs /\
      Forall (fun r => forall p, resv_pool r = Some p -> is_Some (pools w !! p)) rs /\
      NoDup ids /\ length ids = length rs /\ Forall (fresh_object w) ids
  | OpResizeBundle cs => Forall (fun c => u32 (rsz_mapped c) /\ u32 (rsz_entitlement c)) cs
  | _ => True
  end.

Inductive step : W -> W -> Prop :=
| step_op o w r w' : callable w o -> exec o w = (r, w') -> step w w'.

(** Pools just built, no allocation yet. *)
Definition initial (w : W) : Prop :=
  allocs w = ∅ /\
  (forall p P, pools w !! p = Some P -> accounts P [] /\ tables_ok P) /\
  (forall p q P Q, p <> q -> pools w !! p = Some P -> pools w !! q = Some Q ->
    table_end P <= data (block_tables_ Q) \/ table_end Q <= data (block_tables_ P)).

Inductive reachable : W -> Prop :=
| reach_init w : initial w -> reachable w
| reach_step w w' : reachable w -> step w w' -> reachable w'.

Lemma initial_ok w : initial w -> world_ok w.
Proof.
  intros (Ha & Hp & Hd). constructor; [|done|].
  - intros p P HP. destruct (Hp p P HP). rewrite Ha. unfold members. rewrite map_to_list_empty.
    by constructor.
  - intros a al. by rewrite Ha, lookup_empty.
Qed.

Lemma pages_for_tokens_u32 n : u32 n -> u32 (pages_for_tokens n).
Proof.
  intros Hn. unfold pages_for_tokens. destruct (Z.eqb_spec n 0); [width_lia|].
  assert (0 <= (n - 1) / kPagedKVPageSize <= n - 1) by
    (split; [apply Z.div_pos|apply Z.div_le_upper_bound]; unfold kPagedKVPageSize; width_lia).
  width_lia.
Qed.

Lemma move_construct_safe w dst src :
  world_ok w -> dst <> src -> fresh_object w dst -> safe w (move_construct dst src w).
Proof.
  intros Hw Hne Hf. destruct (move_construct_spec w dst src Hw Hne Hf) as (w' & -> & ? & _).
  by apply safe_Ok.
Qed.

Lemma move_assign_safe w dst src : world_ok w -> safe w (move_assign dst src w).
Proof.
  intros Hw. destruct (decide (dst = src)) as [->|Hne].
  - unfold move_assign. rewrite bool_decide_eq_true_2 by done. by apply safe_Ok.
  - destruct (move_assign_spec w dst src Hw Hne) as (w' & -> & ? & _). by apply safe_Ok.
Qed.

Lemma exec_safe w o : world_ok w -> callable w o -> safe w (exec o w).
Proof.
  intros Hw Hc. destruct o; simpl in *.
  - destruct Hc as (? & ? & ?). by apply reserve_safe.
  - by apply set_page_entitlement_safe.
  - by apply cancel_unmapped_safe.
  - by apply materialize_pages_safe.
  - by apply materialize_pages_safe.
  - by apply trim_pages_safe.
  - apply trim_pages_safe; [done|]. by apply pages_for_tokens_u32.
  - by apply bind_row_safe.
  - by apply unbind_row_safe.
  - destruct (release_spec w a Hw) as (w' & -> & ? & _). by apply safe_Ok.
  - destruct Hc. by apply move_construct_safe.
  - by apply move_assign_safe.
  - destruct Hc as (? & ? & ? & ? & ?). pose proof (reserve_bundle_spec w rs ids) as Hb.
    destruct (reserve_paged_kv_bundle rs ids w) as [[u|e] w']; [apply safe_Ok; by apply Hb|].
    by destruct Hb as [-> _].
  - pose proof (resize_bundle_spec w cs Hw Hc) as Hb.
    destruct (resize_paged_kv_bundle cs w) as [[u|e] w']; [apply safe_Ok; by apply Hb|].
    subst. by apply safe_same.
Qed.

Lemma reachable_ok w : reachable w -> world_ok w.
Proof.
  induction 1 as [w H|w w' _ IH Hs]; [by apply initial_ok|]. destruct Hs as [o w r w' Hc He].
  pose proof (exec_safe _ _ IH Hc) as [Hok _]. by rewrite He in Hok.
Qed.

(** What [world_ok] says about two allocations of one pool. *)
Lemma two_members (w : W) a b p :
  a <> b -> pool_ (alloc_of w a) = Some p -> pool_ (alloc_of w b) = Some p ->
  exists rest, members (allocs w) p ≡ₚ alloc_of w a :: alloc_of w b :: rest.
Proof.
  intros Hne Ha Hb. exists (members (delete b (delete a (allocs w))) p).
  rewrite (members_alloc_of w a), charge_in by done.
  pose proof (members_alloc_of (MkWorld (pools w) (delete a (allocs w)) (mem w)) b p) as H.
  unfold alloc_of at 1 in H. simpl in H. rewrite lookup_delete_ne in H by done.
  fold (alloc_of w b) in H. by rewrite charge_in in H by done; rewrite H.
Qed.

Lemma pool_of_live (w : W) a p :
  world_ok w -> pool_ (alloc_of w a) = Some p -> exists P, pools w !! p = Some P.
Proof. intros Hw Ha. pose proof (alloc_of_live w a Hw) as H. by rewrite Ha in H. Qed.

(** Allocations of one pool share neither pages nor rows. *)
Lemma members_disjoint w a b p :
  world_ok w -> a <> b -> pool_ (alloc_of w a) = Some p -> pool_ (alloc_of w b) = Some p ->
  (forall x, x ∈ page_ids_ (alloc_of w a) -> x ∉ page_ids_ (alloc_of w b)) /\
  (0 <= bound_row_ (alloc_of w a) -> bound_row_ (alloc_of w a) <> bound_row_ (alloc_of w b)).
Proof.
  intros Hw Hne Ha Hb. destruct (two_members w a b p Hne Ha Hb) as [rest Hm].
  destruct (pool_of_live w a p Hw Ha) as [P HP].
  pose proof (po_accounts _ _ _ (wo_pools _ Hw _ _ HP)) as Hacc. rewrite Hm in Hacc. split.
  - assert (NoDup (free_page_ids_ P ++ owned (alloc_of w a :: alloc_of w b :: rest))) as Hnd.
    { rewrite (acc_pages _ _ Hacc). apply NoDup_seqZ. }
    apply NoDup_app in Hnd as (_ & _ & Hnd). rewrite !owned_cons in Hnd.
    apply NoDup_app in Hnd as (_ & Hnd & _). intros x Hx Hx'. apply (Hnd x Hx).
    apply elem_of_app. auto.
  - intros Hr Heq. pose proof (acc_rows_distinct _ _ Hacc) as Hnd.
    rewrite bound_rows_cons, decide_True in Hnd by done. apply NoDup_cons in Hnd as [Hni _].
    apply Hni. rewrite bound_rows_cons, decide_True by lia. rewrite Heq. apply elem_of_cons. auto.
Qed.

Lemma block_table_spec w a :
  world_ok w -> 0 <= bound_row_ (alloc_of w a) ->
  exists t, block_table a w = (Ok t, w) /\ dtype t = I32 /\
    forall i x, page_ids_ (alloc_of w a) !! i = Some x ->
      load_i32 (mem w) (data t + 4 * Z.of_nat i) = x.
Proof.
  intros Hw Hr. destruct (valid (alloc_of w a)) eqn:Hv.
  2: { pose proof (invalid_empty _ _ Hw Hv) as E. rewrite E in Hr. simpl in Hr. lia. }
  destruct (live_pool w a Hw Hv) as (p & P & rest & Ha & HP & Hacc & Ht & Hpub).
  destruct (acc_head _ _ _ Hacc) as [_ Hrow].
  destruct (block_table_row_Ok P (bound_row_ (alloc_of w a)) (acc_spec _ _ Hacc) Ht) as
    (t & Et & Hd & Hdt & _); [lia|].
  exists t. split_and!; [|done|].
  - unfold block_table. rewrite (st_bind_Ok _ _ w (alloc_of w a) w) by done.
    replace (bound_row_ (alloc_of w a) <? 0) with false by lia.
    rewrite (st_bind_Ok _ _ w tt w) by done. rewrite Ha.
    rewrite (st_bind_Ok _ _ w P w) by (by apply get_pool_live). unfold lift. by rewrite Et.
  - intros i x Hi. rewrite Hd. by apply Hpub.
Qed.

(** What [release] does to the pool it leaves. *)
Lemma release_balance w a p P :
  world_ok w -> pool_ (alloc_of w a) = Some p -> pools w !! p = Some P ->
  exists w' P', release a w = (Ok tt, w') /\ world_ok w' /\ alloc_of w' a = empty_alloc /\
    pools w' !! p = Some P' /\
    free_page_ids_ P' ≡ₚ free_page_ids_ P ++ page_ids_ (alloc_of w a) /\
    entitled_pages_ P' = entitled_pages_ P - page_entitlement_ (alloc_of w a) /\
    mapped_pages_ P' = mapped_pages_ P - mapped_page_count (alloc_of w a).
Proof.
  intros Hw Ha HP. destruct (release_spec w a Hw) as (w' & E & Hw' & Hal & Hother & _ & Hpools).
  destruct (Hpools p P HP) as (P' & HP' & Hs). exists w', P'. split_and!; try done.
  all: pose proof (po_accounts _ _ _ (wo_pools _ Hw _ _ HP)) as Hacc;
    pose proof (po_accounts _ _ _ (wo_pools _ Hw' _ _ HP')) as Hacc';
    rewrite (members_alloc_of w a), charge_in in Hacc by done;
    rewrite (members_alloc_of w' a), Hal, charge_empty in Hacc';
    assert (delete a (allocs w') = delete a (allocs w)) as Hd
      by (apply map_eq; intros b; rewrite !lookup_delete; case_decide; auto);
    rewrite Hd in Hacc'.
  - apply (Permutation_app_inv_r (owned (members (delete a (allocs w)) p))).
    rewrite (acc_pages _ _ Hacc'), Hs, <- (acc_pages _ _ Hacc), owned_cons. by rewrite app_assoc.
  - destruct (acc_entitled _ _ Hacc) as [-> _]. destruct (acc_entitled _ _ Hacc') as [-> _].
    rewrite sum_cons. lia.
  - rewrite (acc_mapped _ _ Hacc), (acc_mapped _ _ Hacc'), owned_cons, length_app.
    unfold mapped_page_count. lia.
Qed.

(** ** Guarantees *)

(** C1: Every world reached from fresh pools by any sequence of interface calls,
    failing ones included, is consistent: in each pool the free list is sorted
    and, with the pages of its allocations, is exactly the pool's pages; the
    entitled and mapped counters are the sums over the allocations and never
    exceed the pool; no row has two owners; and every bound allocation's device
    row holds its page ids. *)
Theorem reachable_worlds_consistent w : reachable w -> world_ok w.
Proof. apply reachable_ok. Qed.

(** C3: Strong exception safety: an interface call that throws leaves pools,
    allocations and device memory as they were. *)
Theorem throwing_call_changes_nothing w o e w' :
  reachable w -> callable w o -> exec o w = (Throw e, w') -> w' = w.
Proof.
  intros Hw Hc He. destruct (exec_safe w o (reachable_ok w Hw) Hc) as [_ H].
  rewrite He in H. by apply (H e).
Qed.

(** C2: An entitlement is a promise: [materialize_pages] inside it always
    succeeds, keeps the pages mapped so far, appends the missing ones, touches
    no other allocation, and the new pages are consecutive whenever the pool has
    a free run that long. *)
Theorem entitled_pages_materialize w a n :
  reachable w -> valid (alloc_of w a) = true ->
  mapped_page_count (alloc_of w a) <= n <= page_entitlement_ (alloc_of w a) ->
  exists ids w' p P, materialize_pages a n w = (Ok tt, w') /\ world_ok w' /\
    alloc_of w' a = with_pages (alloc_of w a) (page_ids_ (alloc_of w a) ++ ids) /\
    Z.of_nat (length (page_ids_ (alloc_of w a) ++ ids)) = n /\
    (forall b, b <> a -> allocs w' !! b = allocs w !! b) /\
    pool_ (alloc_of w a) = Some p /\ pools w !! p = Some P /\
    ((exists b, run_at (free_page_ids_ P) (length ids) b = true) ->
       exists first, ids = seqZ first (Z.of_nat (length ids))).
Proof. intros Hw. apply materialize_pages_spec. by apply reachable_ok. Qed.

(** Two live allocations of a pool never share a page, and never a
    block-table row. *)
Theorem allocations_are_disjoint w a b p :
  reachable w -> a <> b -> pool_ (alloc_of w a) = Some p -> pool_ (alloc_of w b) = Some p ->
  (forall x, x ∈ page_ids_ (alloc_of w a) -> x ∉ page_ids_ (alloc_of w b)) /\
  (0 <= bound_row_ (alloc_of w a) -> bound_row_ (alloc_of w a) <> bound_row_ (alloc_of w b)).
Proof. intros Hw. apply members_disjoint. by apply reachable_ok. Qed.

(** What a kernel reads: the block table of a bound allocation can always be
    obtained, and its i-th device word is the allocation's i-th page id. *)
Theorem block_table_holds_page_ids w a :
  reachable w -> 0 <= bound_row_ (alloc_of w a) ->
  exists t, block_table a w = (Ok t, w) /\ dtype t = I32 /\
    forall i x, page_ids_ (alloc_of w a) !! i = Some x ->
      load_i32 (mem w) (data t + 4 * Z.of_nat i) = x.
Proof. intros Hw. apply block_table_spec. by apply reachable_ok. Qed.

(** [reserve_paged_kv_bundle] is all or nothing: it succeeds only when every
    pool has room, then every reservation has its allocation; otherwise nothing
    changes, and [bad_alloc] means some pool lacked room. *)
Theorem reserve_bundle_atomic w rs ids :
  reachable w -> callable w (OpReserveBundle rs ids) ->
  match reserve_paged_kv_bundle rs ids w with
  | (Ok _, w') => world_ok w' /\ Forall (reservable w) rs /\ NoDup (resv_pool <$> rs) /\
                  Forall2 (fun r a => alloc_of w' a = reserved r) rs ids
  | (Throw e, w') => w' = w /\ (e = invalid_argument \/
                       e = bad_alloc /\ ~ Forall (reservable w) rs)
  end.
Proof.
  intros Hw (? & ? & ? & ? & ?). apply reserve_bundle_spec; try done. by apply reachable_ok.
Qed.

(** C34: [resize_paged_kv_bundle] is all or nothing: after its validation loop no
    step can fail, every named allocation is cut to its new extent with its new
    entitlement, and no other allocation changes. *)
Theorem resize_bundle_atomic w cs :
  reachable w -> callable w (OpResizeBundle cs) ->
  match resize_paged_kv_bundle cs w with
  | (Ok _, w') => world_ok w' /\ Forall (resizable w) cs /\
      Forall (fun c => forall a, rsz_alloc c = Some a ->
                       alloc_of w' a = resized w c (alloc_of w a)) cs /\
      (forall b, Forall (fun c => rsz_alloc c <> Some b) cs -> alloc_of w' b = alloc_of w b)
  | (Throw e, w') => w' = w
  end.
Proof. intros Hw. apply resize_bundle_spec. by apply reachable_ok. Qed.

(** [release] never fails and gives everything back: its pages return to the
    free list, its entitlement and mapped count leave the pool's counters, and
    the object is empty. *)
Theorem release_returns_everything w a p P :
  reachable w -> pool_ (alloc_of w a) = Some p -> pools w !! p = Some P ->
  exists w' P', release a w = (Ok tt, w') /\ world_ok w' /\ alloc_of w' a = empty_alloc /\
    pools w' !! p = Some P' /\
    free_page_ids_ P' ≡ₚ free_page_ids_ P ++ page_ids_ (alloc_of w a) /\
    entitled_pages_ P' = entitled_pages_ P - page_entitlement_ (alloc_of w a) /\
    mapped_pages_ P' = mapped_pages_ P - mapped_page_count (alloc_of w a).
Proof. intros Hw. apply release_balance. by apply reachable_ok. Qed.
End transitions.

(** ** A concrete pool *)
Definition demo_spec : PagedKVPoolSpec :=
  MkPoolSpec 8 4 2 PageMajor [MkPlaneSpec BF16 16 2 256].

Definition demo_layout : PagedKVPoolLayout :=
  match fst (plan_paged_kv_pool demo_spec new_builder) with
  | Ok l => l
  | Throw _ => MkPoolLayout demo_spec [] (MkTensorRegion (MkRegion 0 0 0) I32 (Vec4 1 1 1 1))
  end.

Definition demo_pool : PagedKVPool :=
  match make_pool (MkSpan 65536 131072) demo_layout with
  | Ok P => P
  | Throw _ => MkPool demo_spec [] (MkTensor 0 I32 (Vec4 1 1 1 1) (Vec4 1 1 1 1)) [] [] 0 0
  end.

Definition demo_world : world (Z -> Z) := MkWorld {[ 0%N := demo_pool ]} ∅ (fun _ => 0).

(** A world after some calls. *)
Definition after (os : list op) : world (Z -> Z) :=
  foldl (fun w o => snd (exec o w)) demo_world os.

Definition demo_ops : list op :=
  [OpReserve 0 3 0; OpReserve 0 2 1; OpMaterializePages 0 1; OpMaterializePages 1 2; OpBindRow 0 1].

Lemma demo_pools p P : pools demo_world !! p = Some P -> p = 0%N /\ P = demo_pool.
Proof. unfold demo_world. simpl. rewrite lookup_singleton_Some. by intros [<- <-]. Qed.

Lemma demo_reachable : reachable demo_world.
Proof.
  apply reach_init. split_and!; [done| |].
  - intros p P [-> ->]%demo_pools.
    destruct (make_pool_accounts demo_spec new_builder demo_layout
      (snd (plan_paged_kv_pool demo_spec new_builder)) (MkSpan 65536 131072) demo_pool) as (_ & ? & ?);
      done || (vm_compute; congruence).
  - by intros p q P Q Hne [-> ->]%demo_pools [-> ->]%demo_pools.
Qed.

Lemma after_reachable os : forall w : world (Z -> Z), reachable w ->
  (fix go w os := match os with [] => True | o :: os => callable w o /\ go (snd (exec o w)) os end) w os ->
  reachable (foldl (fun w o => snd (exec o w)) w os).
Proof.
  induction os as [|o os IH]; intros w Hw; [done|]. intros [Hc Hos]. simpl. apply IH; [|done].
  eapply reach_step; [done|]. econstructor; [done|]. apply surjective_pairing.
Qed.

Ltac by_evaluation := apply (bool_decide_unpack _); vm_compute; exact I.

Lemma demo_ops_reachable : reachable (after demo_ops).
Proof.
  apply after_reachable; [apply demo_reachable|].
  split; [split_and!; by_evaluation|]. split; [split_and!; by_evaluation|].
  split; [by_evaluation|]. split; [by_evaluation|]. done.
Qed.

(** ** Witnesses *)
Lemma reachable_worlds_consistent_witness : world_ok (after demo_ops).
Proof. exact (reachable_worlds_consistent _ demo_ops_reachable). Defined.

Lemma throwing_call_changes_nothing_witness :
  snd (exec (OpMaterializePages 0 9) (after demo_ops)) = after demo_ops.
Proof.
  apply (throwing_call_changes_nothing (after demo_ops) (OpMaterializePages 0 9) invalid_argument).
  - exact demo_ops_reachable.
  - by_evaluation.
  - rewrite (surjective_pairing (exec (OpMaterializePages 0 9) (after demo_ops))).
    f_equal.
Defined.

Lemma entitled_pages_materialize_witness :
  exists w', materialize_pages 0 3 (after demo_ops) = (Ok tt, w') /\ world_ok w'.
Proof.
  destruct (entitled_pages_materialize (after demo_ops) 0 3) as (ids & w' & p & P & H & Hw & _).
  - exact demo_ops_reachable.
  - by vm_compute.
  - split; by_evaluation.
  - exists w'. exact (conj H Hw).
Defined.

Lemma allocations_are_disjoint_witness : 0 ∉ page_ids_ (alloc_of (after demo_ops) 1).
Proof.
  apply (allocations_are_disjoint (after demo_ops) 0 1 0);
    [exact demo_ops_reachable|discriminate|by_evaluation..].
Defined.

Lemma block_table_holds_page_ids_witness :
  exists t, block_table 0 (after demo_ops) = (Ok t, after demo_ops) /\
    load_i32 (mem (after demo_ops)) (data t + 4 * 0) = 0.
Proof.
  destruct (block_table_holds_page_ids (after demo_ops) 0) as (t & Ht & _ & H).
  - exact demo_ops_reachable.
  - by_evaluation.
  - exists t. split; [exact Ht|]. apply (H 0%nat 0). by_evaluation.
Defined.

Lemma reserve_bundle_atomic_witness :
  world_ok (snd (reserve_paged_kv_bundle [MkReservation (Some 0%N) 2] [5%N] (after demo_ops))).
Proof.
  pose proof (reserve_bundle_atomic (after demo_ops) [MkReservation (Some 0%N) 2] [5%N]
                demo_ops_reachable) as H.
  assert (fst (reserve_paged_kv_bundle [MkReservation (Some 0%N) 2] [5%N] (after demo_ops)) = Ok tt)
    as E by by_evaluation.
  destruct (reserve_paged_kv_bundle _ _ _) as [r w'] eqn:Er. simpl in E. subst r. apply H.
  split_and!; try by_evaluation.
  constructor; [|constructor]. intros p [= <-]. by_evaluation.
Defined.

Lemma resize_bundle_atomic_witness :
  alloc_of (snd (resize_paged_kv_bundle [MkResize (Some 1%N) 1 3] (after demo_ops))) 1 =
  resized (after demo_ops) (MkResize (Some 1%N) 1 3) (alloc_of (after demo_ops) 1).
Proof.
  pose proof (resize_bundle_atomic (after demo_ops) [MkResize (Some 1%N) 1 3] demo_ops_reachable) as H.
  assert (fst (resize_paged_kv_bundle [MkResize (Some 1%N) 1 3] (after demo_ops)) = Ok tt)
    as E by by_evaluation.
  destruct (resize_paged_kv_bundle _ _) as [r w'] eqn:Er. simpl in E. subst r.
  destruct H as (_ & _ & H & _); [by_evaluation|]. apply Forall_cons in H as [H _]. by apply H.
Defined.

Lemma release_returns_everything_witness :
  exists w', release 1 (after demo_ops) = (Ok tt, w') /\ alloc_of w' 1 = empty_alloc.
Proof.
  destruct (pool_of_live (after demo_ops) 1 0) as [P HP]; [by apply reachable_ok, demo_ops_reachable|by_evaluation|].
  destruct (release_returns_everything (after demo_ops) 1 0 P) as (w' & _ & H1 & _ & H2 & _).
  - exact demo_ops_reachable.
  - by_evaluation.
  - exact HP.
  - exists w'. exact (conj H1 H2).
Defined.
