(* ===== verification/PagedCopy.v ===== *)
(** * core/paged_kv_cache.cpp: moving page contents

    Packing an allocation's pages into a linear host image, restoring an image
    into pages, copying pages between allocations, zeroing pages.  The code
    coalesces runs of equally spaced pages into single 2D transfers; here every
    routine is shown to move exactly the bytes a page-by-page copy would. *)

From stdpp Require Import prelude list list_numbers sorting gmap.
From Stdlib Require Import ZArith Lia.
From S2P Require Import Prelude.
From S2P Require Import Tensor.
From S2P Require Import Bytes.
From S2P Require Import PagedPool.
#[local] Open Scope Z_scope.

Section page_copies.
Context {M : Type} `{!Memory M}.

(** [CUDA_CHECK(cudaMemcpyAsync(...))] and its relatives, as statements. *)
Definition do_copy (f : M -> M) : st M unit := fun m => (Ok tt, f m).

Definition plane_page_bytes (plane : Tensor) (order : PagedKVPlaneOrder) : res Z :=
  match order with
  | PageMajor =>
      throw_if (v3 (nb plane) <=? 0) logic_error ;; Ok (v3 (nb plane))
  | HeadMajor =>
      throw_if ((v3 (ne plane) <=? 0) || (v2 (nb plane) <=? 0)) logic_error ;;
      Ok (wrap64 (v3 (ne plane) * v2 (nb plane)))
  end.

(** [while (end + 1 < size && pages[end + 1] - pages[end] == delta) { ++end; }]
    from [prev = pages[end]]: how many more pages join the run. *)
Fixpoint stride_run (delta prev : Z) (pages : list Z) : nat :=
  match pages with
  | x :: pages => if x - prev =? delta then S (stride_run delta x pages) else O
  | [] => O
  end.

(** [pages] is the rest of the span from [begin], [out] is [out + begin * bpp];
    every iteration consumes a page, [length pages] iterations are enough. *)
Fixpoint pack_loop (fuel : nat) (out base page_stride bpp : Z) (pages : list Z) (m : M) : M :=
  match fuel, pages with
  | S fuel, [p] => memcpy out (base + p * page_stride) bpp m
  | S fuel, p :: q :: rest =>
      let delta := q - p in
      if delta <=? 0 then
        pack_loop fuel (out + bpp) base page_stride bpp (q :: rest)
                  (memcpy out (base + p * page_stride) bpp m)
      else
        let joined := stride_run delta q rest in
        let count := 2 + Z.of_nat joined in
        let m' := if delta =? 1
                  then memcpy out (base + p * page_stride) (count * bpp) m
                  else memcpy2d out bpp (base + p * page_stride) (delta * page_stride) bpp count m in
        pack_loop fuel (out + count * bpp) base page_stride bpp (drop joined rest) m'
  | _, _ => m
  end.

Definition pack_page_major_pages (out base page_stride bpp : Z) (pages : list Z) : M -> M :=
  pack_loop (length pages) out base page_stride bpp pages.

Fixpoint unpack_loop (fuel : nat) (base page_stride bpp inp : Z) (pages : list Z) (m : M) : M :=
  match fuel, pages with
  | S fuel, [p] => memcpy (base + p * page_stride) inp bpp m
  | S fuel, p :: q :: rest =>
      let delta := q - p in
      if delta <=? 0 then
        unpack_loop fuel base page_stride bpp (inp + bpp) (q :: rest)
                    (memcpy (base + p * page_stride) inp bpp m)
      else
        let joined := stride_run delta q rest in
        let count := 2 + Z.of_nat joined in
        let m' := if delta =? 1
                  then memcpy (base + p * page_stride) inp (count * bpp) m
                  else memcpy2d (base + p * page_stride) (delta * page_stride) inp bpp bpp count m in
        unpack_loop fuel base page_stride bpp (inp + count * bpp) (drop joined rest) m'
  | _, _ => m
  end.

(** Only the first [dst_extent] pages take part. *)
Definition unpack_page_major_pages (base page_stride bpp inp : Z) (pages : list Z) (dst_extent : Z)
    : M -> M :=
  unpack_loop (Z.to_nat dst_extent) base page_stride bpp inp (take (Z.to_nat dst_extent) pages).

Fixpoint host_image_bytes (planes : list Tensor) (order : PagedKVPlaneOrder) (page_count total : Z)
    : res Z :=
  match planes with
  | [] => Ok total
  | plane :: planes =>
      bpp ← plane_page_bytes plane order;
      throw_if (negb (page_count =? 0) && (size_max / page_count <? bpp)) overflow_error ;;
      let plane_bytes := bpp * page_count in
      throw_if (size_max - plane_bytes <? total) overflow_error ;;
      host_image_bytes planes order page_count (total + plane_bytes)
  end.

Definition paged_kv_host_image_bytes (P : PagedKVPool) (page_count : Z) : res Z :=
  host_image_bytes (planes_ P) (plane_order (spec_ P)) page_count 0.

(** The HeadMajor branches move one page at a time, a row per head. *)
Fixpoint pack_head_major (out bpp : Z) (plane : Tensor) (pages : list Z) (m : M) : M :=
  match pages with
  | [] => m
  | p :: pages =>
      pack_head_major (out + bpp) bpp plane pages
        (memcpy2d out (v2 (nb plane)) (data plane + p * v2 (nb plane)) (v3 (nb plane))
                  (v2 (nb plane)) (v3 (ne plane)) m)
  end.

Fixpoint unpack_head_major (inp bpp : Z) (plane : Tensor) (pages : list Z) (m : M) : M :=
  match pages with
  | [] => m
  | p :: pages =>
      unpack_head_major (inp + bpp) bpp plane pages
        (memcpy2d (data plane + p * v2 (nb plane)) (v3 (nb plane)) inp (v2 (nb plane))
                  (v2 (nb plane)) (v3 (ne plane)) m)
  end.

(** The loop over planes of [pack_paged_kv_allocation_to_host]. *)
Fixpoint pack_planes (order : PagedKVPlaneOrder) (out : Z) (pages : list Z) (planes : list Tensor)
    : st M unit :=
  match planes with
  | [] => mret tt
  | plane :: planes =>
      bpp ← lift (plane_page_bytes plane order);
      do_copy (match order with
               | PageMajor => pack_page_major_pages out (data plane) (v3 (nb plane)) bpp pages
               | HeadMajor => pack_head_major out bpp plane pages
               end) ;;
      pack_planes order (out + Z.of_nat (length pages) * bpp) pages planes
  end.

Definition pack_paged_kv_allocation_to_host (al : PagedKVAllocation) (p : N) (P : PagedKVPool)
    (dst page_count : Z) : st M unit :=
  st_throw_if (negb (valid al) || negb (belongs_to al p)) invalid_argument ;;
  st_throw_if (mapped_page_count al <? page_count) invalid_argument ;;
  st_throw_if ((dst =? 0) && negb (page_count =? 0)) invalid_argument ;;
  if page_count =? 0 then mret tt
  else pack_planes (plane_order (spec_ P)) dst (take (Z.to_nat page_count) (page_ids_ al)) (planes_ P).

(** The overload that packs every mapped page. *)
Definition pack_paged_kv_allocation_all (al : PagedKVAllocation) (p : N) (P : PagedKVPool) (dst : Z)
    : st M unit :=
  st_throw_if (negb (valid al) || negb (belongs_to al p)) invalid_argument ;;
  pack_paged_kv_allocation_to_host al p P dst (mapped_page_count al).

Fixpoint unpack_planes (order : PagedKVPlaneOrder) (inp src_page_count dst_extent : Z)
    (pages : list Z) (planes : list Tensor) : st M unit :=
  match planes with
  | [] => mret tt
  | plane :: planes =>
      bpp ← lift (plane_page_bytes plane order);
      do_copy (match order with
               | PageMajor =>
                   unpack_page_major_pages (data plane) (v3 (nb plane)) bpp inp pages dst_extent
               | HeadMajor => unpack_head_major inp bpp plane (take (Z.to_nat dst_extent) pages)
               end) ;;
      unpack_planes order (inp + src_page_count * bpp) src_page_count dst_extent pages planes
  end.

Definition unpack_paged_kv_allocation_from_host (al : PagedKVAllocation) (p : N) (P : PagedKVPool)
    (src src_page_count dst_extent : Z) : st M unit :=
  st_throw_if (negb (valid al) || negb (belongs_to al p)) invalid_argument ;;
  st_throw_if (src_page_count <? dst_extent) logic_error ;;
  st_throw_if (mapped_page_count al <? dst_extent) logic_error ;;
  st_throw_if ((src =? 0) && negb (dst_extent =? 0)) invalid_argument ;;
  unpack_planes (plane_order (spec_ P)) src src_page_count dst_extent (page_ids_ al) (planes_ P).

(** [while (end < page_count && both next ids are consecutive) { ++end; }] *)
Fixpoint pair_run (prev_s prev_d : Z) (ss ds : list Z) : nat :=
  match ss, ds with
  | s :: ss, d :: ds =>
      if (s =? prev_s + 1) && (d =? prev_d + 1) then S (pair_run s d ss ds) else O
  | _, _ => O
  end.

Definition copy_pages (order : PagedKVPlaneOrder) (plane : Tensor) (d s count : Z) : M -> M :=
  match order with
  | PageMajor =>
      memcpy (data plane + d * v3 (nb plane)) (data plane + s * v3 (nb plane)) (count * v3 (nb plane))
  | HeadMajor =>
      memcpy2d (data plane + d * v2 (nb plane)) (v3 (nb plane))
               (data plane + s * v2 (nb plane)) (v3 (nb plane))
               (count * v2 (nb plane)) (v3 (ne plane))
  end.

Fixpoint copy_loop (fuel : nat) (order : PagedKVPlaneOrder) (plane : Tensor) (ss ds : list Z) (m : M)
    : M :=
  match fuel, ss, ds with
  | S fuel, s :: ss, d :: ds =>
      let joined := pair_run s d ss ds in
      copy_loop fuel order plane (drop joined ss) (drop joined ds)
        (copy_pages order plane d s (1 + Z.of_nat joined) m)
  | _, _, _ => m
  end.

(** [src_id] and [dst_id] are the addresses of the two objects. *)
Definition copy_paged_kv_allocation (src_id dst_id : N) (src dst : PagedKVAllocation) (p : N)
    (P : PagedKVPool) (page_count : Z) : st M unit :=
  st_throw_if (negb (belongs_to src p) || negb (belongs_to dst p)
               || (mapped_page_count src <? page_count) || (mapped_page_count dst <? page_count))
    invalid_argument ;;
  st_throw_if (bool_decide (src_id = dst_id)) invalid_argument ;;
  let n := Z.to_nat page_count in
  for_each (planes_ P) (fun plane =>
    do_copy (copy_loop n (plane_order (spec_ P)) plane
               (take n (page_ids_ src)) (take n (page_ids_ dst)))).

Definition paged_kv_logical_page_bytes (P : PagedKVPool) : res Z := paged_kv_host_image_bytes P 1.

Fixpoint pack_logical_planes (order : PagedKVPlaneOrder) (out page_id : Z) (planes : list Tensor)
    : st M unit :=
  match planes with
  | [] => mret tt
  | plane :: planes =>
      bpp ← lift (plane_page_bytes plane order);
      do_copy (match order with
               | PageMajor => memcpy out (data plane + page_id * v3 (nb plane)) bpp
               | HeadMajor =>
                   memcpy2d out (v2 (nb plane)) (data plane + page_id * v2 (nb plane)) (v3 (nb plane))
                            (v2 (nb plane)) (v3 (ne plane))
               end) ;;
      pack_logical_planes order (out + bpp) page_id planes
  end.

Definition pack_paged_kv_logical_page_to_host (al : PagedKVAllocation) (p : N) (P : PagedKVPool)
    (logical_index dst : Z) : st M unit :=
  st_throw_if (negb (valid al) || negb (belongs_to al p)) invalid_argument ;;
  st_throw_if (mapped_page_count al <=? logical_index) logic_error ;;
  st_throw_if (dst =? 0) invalid_argument ;;
  pack_logical_planes (plane_order (spec_ P)) dst (nth (Z.to_nat logical_index) (page_ids_ al) 0)
    (planes_ P).

Fixpoint unpack_logical_planes (order : PagedKVPlaneOrder) (inp page_id : Z) (planes : list Tensor)
    : st M unit :=
  match planes with
  | [] => mret tt
  | plane :: planes =>
      bpp ← lift (plane_page_bytes plane order);
      do_copy (match order with
               | PageMajor => memcpy (data plane + page_id * v3 (nb plane)) inp bpp
               | HeadMajor =>
                   memcpy2d (data plane + page_id * v2 (nb plane)) (v3 (nb plane)) inp (v2 (nb plane))
                            (v2 (nb plane)) (v3 (ne plane))
               end) ;;
      unpack_logical_planes order (inp + bpp) page_id planes
  end.

Definition unpack_paged_kv_logical_page_from_host (al : PagedKVAllocation) (p : N) (P : PagedKVPool)
    (src logical_index : Z) : st M unit :=
  st_throw_if (negb (valid al) || negb (belongs_to al p)) invalid_argument ;;
  st_throw_if (mapped_page_count al <=? logical_index) logic_error ;;
  st_throw_if (src =? 0) invalid_argument ;;
  unpack_logical_planes (plane_order (spec_ P)) src (nth (Z.to_nat logical_index) (page_ids_ al) 0)
    (planes_ P).

Fixpoint slices_of (order : PagedKVPlaneOrder) (inp src_page_count logical_index : Z)
    (planes : list Tensor) : res (list (Z * Z)) :=
  match planes with
  | [] => Ok []
  | plane :: planes =>
      bpp ← plane_page_bytes plane order;
      rest ← slices_of order (inp + src_page_count * bpp) src_page_count logical_index planes;
      Ok ((inp + logical_index * bpp, bpp) :: rest)
  end.

Definition logical_page_host_slices (image : Z) (P : PagedKVPool) (src_page_count logical_index : Z)
    : res (list (Z * Z)) :=
  throw_if (src_page_count <=? logical_index) logic_error ;;
  throw_if (image =? 0) invalid_argument ;;
  slices_of (plane_order (spec_ P)) image src_page_count logical_index (planes_ P).

(** [std::memcpy] of the slices, one behind the other. *)
Fixpoint gather_slices (out : Z) (slices : list (Z * Z)) : st M unit :=
  match slices with
  | [] => mret tt
  | (a, n) :: slices =>
      (if negb (n =? 0) then do_copy (memcpy out a n) else mret tt) ;;
      gather_slices (out + n) slices
  end.

Definition gather_logical_page_from_host_image (image : Z) (P : PagedKVPool)
    (src_page_count logical_index dst : Z) : st M unit :=
  st_throw_if (dst =? 0) invalid_argument ;;
  slices ← lift (logical_page_host_slices image P src_page_count logical_index);
  gather_slices dst slices.

(** ** [PagedKVPool::zero_pages] *)
Definition zero_run (order : PagedKVPlaneOrder) (first count : Z) (plane : Tensor) : M -> M :=
  match order with
  | PageMajor => memset (data plane + first * v3 (nb plane)) 0 (count * v3 (nb plane))
  | HeadMajor =>
      memset2d (data plane + first * v2 (nb plane)) (v3 (nb plane)) 0 (count * v2 (nb plane))
               (v3 (ne plane))
  end.

Fixpoint zero_loop (fuel : nat) (order : PagedKVPlaneOrder) (planes : list Tensor) (sorted : list Z)
    (m : M) : M :=
  match fuel, sorted with
  | S fuel, p :: rest =>
      let joined := stride_run 1 p rest in
      zero_loop fuel order planes (drop joined rest)
        (foldl (fun m plane => zero_run order p (1 + Z.of_nat joined) plane m) m planes)
  | _, _ => m
  end.

(** [std::adjacent_find] found two equal neighbours. *)
Fixpoint has_adjacent (l : list Z) : bool :=
  match l with
  | x :: ((y :: _) as l') => (x =? y) || has_adjacent l'
  | _ => false
  end.

Definition zero_pages (P : PagedKVPool) (page_ids : list Z) : st M unit :=
  let sorted := merge_sort Z.le page_ids in
  match sorted with
  | [] => mret tt
  | front :: _ =>
      st_throw_if ((front <? 0) || (page_group_count (spec_ P) <=? List.last sorted 0)) out_of_range ;;
      st_throw_if (has_adjacent sorted) invalid_argument ;;
      do_copy (zero_loop (length sorted) (plane_order (spec_ P)) (planes_ P) sorted)
  end.

End page_copies.
