(* ===== verification/PageTransfer.v ===== *)
(** * Page transfers move the right bytes

    [copied m m' d s n]: memory [m'] is [m] with byte [s i] copied to [d i] for
    every [i] below [n], and nothing else changed.  Each routine of [PagedCopy]
    is such a transfer between a linear image and the bytes of the pages; the
    round trip through a host image follows. *)

From stdpp Require Import prelude list list_numbers sorting gmap.
From Stdlib Require Import ZArith Lia.
From S2P Require Import Prelude.
From S2P Require Import Tensor.
From S2P Require Import Layout.
From S2P Require Import Bytes.
From S2P Require Import PagedPool.
From S2P Require Import PagedCopy.
#[local] Open Scope Z_scope.

Section transfers.
Context {M : Type} `{!Memory M}.

Definition copied (m m' : M) (d s : Z -> Z) (n : Z) : Prop :=
  (forall i, 0 <= i < n -> load m' (d i) = load m (s i)) /\
  (forall a, (forall i, 0 <= i < n -> a <> d i) -> load m' a = load m a).

(** No byte that is read is written, no byte is written twice. *)
Definition apart (d s : Z -> Z) (n : Z) : Prop :=
  (forall i j, 0 <= i < n -> 0 <= j < n -> s i <> d j) /\
  (forall i j, 0 <= i < n -> 0 <= j < n -> d i = d j -> i = j).

Lemma copied_0 m d s : copied m m d s 0.
Proof. split; [lia|done]. Qed.

Lemma copied_ext m m' d d' s s' n :
  (forall i, 0 <= i < n -> d i = d' i /\ s i = s' i) -> copied m m' d s n -> copied m m' d' s' n.
Proof.
  intros He [H1 H2]. split.
  - intros i Hi. destruct (He i Hi) as [<- <-]. auto.
  - intros a Ha. apply H2. intros i Hi. destruct (He i Hi) as [-> _]. auto.
Qed.

Lemma copied_app m m1 m2 d s n k :
  0 <= n -> 0 <= k -> apart d s (n + k) ->
  copied m m1 d s n -> copied m1 m2 (fun i => d (n + i)) (fun i => s (n + i)) k ->
  copied m m2 d s (n + k).
Proof.
  intros Hn Hk [Hsd Hdd] [A1 A2] [B1 B2]. split.
  - intros i Hi. destruct (decide (i < n)).
    + rewrite B2; [apply A1; lia|]. intros j Hj E. apply Hdd in E; lia.
    + replace i with (n + (i - n)) by lia. rewrite B1 by lia. apply A2.
      intros j Hj. apply Hsd; lia.
  - intros a Ha. rewrite B2; [apply A2|]; intros j Hj; apply Ha; lia.
Qed.

Lemma apart_le d s n k : k <= n -> apart d s n -> apart d s k.
Proof. intros Hk [H1 H2]. split; intros; [apply H1|apply H2]; lia || done. Qed.

Lemma apart_shift d s n k : 0 <= n -> apart d s (n + k) -> apart (fun i => d (n + i)) (fun i => s (n + i)) k.
Proof.
  intros Hn [H1 H2]. split; intros i j Hi Hj; [apply H1; lia|].
  intros E. apply H2 in E; lia.
Qed.

(** Byte [i] of a rectangle of rows of [width] bytes. *)
Definition rect_at (base pitch width i : Z) : Z := base + i / width * pitch + i mod width.

Lemma in_rect_at base pitch width height a :
  0 < width -> in_rect base pitch width height a <->
  exists i, 0 <= i < width * height /\ a = rect_at base pitch width i.
Proof.
  intros Hw. unfold in_rect, rect_at. split.
  - intros (r & c & Hr & Hc & ->). exists (c + r * width). split; [nia|].
    rewrite Z.div_add, Z.mod_add, Z.div_small, Z.mod_small by lia. lia.
  - intros (i & Hi & ->). exists (i / width), (i mod width).
    pose proof (Z.mod_pos_bound i width Hw). pose proof (Z.div_mod i width ltac:(lia)).
    split_and!; [nia|nia|lia|lia|done].
Qed.

Lemma memcpy_copied m dst src n :
  0 <= n -> dst + n <= src \/ src + n <= dst ->
  copied m (memcpy dst src n m) (fun i => dst + i) (fun i => src + i) n.
Proof.
  intros Hn Hd. split; [intros; by apply memcpy_in|].
  intros a Ha. apply memcpy_out. destruct (decide (dst <= a < dst + n)); [|lia].
  exfalso. apply (Ha (a - dst)); lia.
Qed.

Lemma memcpy2d_copied m dst dpitch src spitch width height :
  0 < width -> width <= dpitch -> width <= spitch ->
  (forall i j, 0 <= i < width * height -> 0 <= j < width * height ->
     rect_at src spitch width i <> rect_at dst dpitch width j) ->
  copied m (memcpy2d dst dpitch src spitch width height m)
    (rect_at dst dpitch width) (rect_at src spitch width) (width * height).
Proof.
  intros Hw Hd Hs Hap. split.
  - intros i Hi. unfold rect_at.
    pose proof (Z.mod_pos_bound i width Hw). pose proof (Z.div_mod i width ltac:(lia)).
    apply memcpy2d_in; [nia|lia|done|done|].
    intros a [j1 [Hj1 ->]]%in_rect_at [j2 [Hj2 E]]%in_rect_at; [|done..]. by apply (Hap j2 j1).
  - intros a Ha. apply memcpy2d_out; [done|]. intros [i [Hi ->]]%in_rect_at; [|done]. by apply (Ha i).
Qed.

(** ** Runs of pages *)
Lemma stride_run_length delta prev pages : (stride_run delta prev pages <= length pages)%nat.
Proof.
  revert prev. induction pages as [|x pages IH]; intros prev; simpl; [lia|].
  case_match; [|lia]. specialize (IH x). lia.
Qed.

Lemma stride_run_nth delta prev pages : forall i,
  (i <= stride_run delta prev pages)%nat -> nth i (prev :: pages) 0 = prev + delta * Z.of_nat i.
Proof.
  revert prev. induction pages as [|x pages IH]; intros prev i Hi; simpl in Hi.
  { destruct i; [simpl; lia|lia]. }
  destruct i as [|i]; [simpl; lia|]. destruct (Z.eqb_spec (x - prev) delta); [|lia].
  change (nth (S i) (prev :: x :: pages) 0) with (nth i (x :: pages) 0).
  rewrite IH by lia. lia.
Qed.

(** Byte [i] of the concatenated pages. *)
Definition page_at (base bpp : Z) (pages : list Z) (i : Z) : Z :=
  base + nth (Z.to_nat (i / bpp)) pages 0 * bpp + i mod bpp.

Lemma page_at_drop base bpp pages (n : nat) i :
  0 < bpp -> 0 <= i -> page_at base bpp (drop n pages) i = page_at base bpp pages (Z.of_nat n * bpp + i).
Proof.
  intros Hb Hi. unfold page_at. rewrite (Z.add_comm _ i), Z.div_add, Z.mod_add by lia.
  assert (0 <= i / bpp) by (apply Z.div_pos; lia).
  replace (Z.to_nat (i / bpp + Z.of_nat n)) with (n + Z.to_nat (i / bpp))%nat by lia.
  do 3 f_equal. rewrite !nth_lookup, lookup_drop. done.
Qed.

Lemma page_at_run base bpp pages p delta count i :
  0 < bpp -> (forall k, 0 <= k < count -> nth (Z.to_nat k) pages 0 = p + delta * k) ->
  0 <= i < count * bpp -> page_at base bpp pages i = rect_at (base + p * bpp) (delta * bpp) bpp i.
Proof.
  intros Hb Hrun Hi. unfold page_at, rect_at.
  assert (0 <= i / bpp < count) by (split; [apply Z.div_pos|apply Z.div_lt_upper_bound]; lia).
  rewrite Hrun by done. lia.
Qed.

Lemma rect_at_dense base bpp i : 0 < bpp -> rect_at base bpp bpp i = base + i.
Proof. intros Hb. unfold rect_at. pose proof (Z.div_mod i bpp ltac:(lia)). lia. Qed.

(** One transfer call, seen through the address functions it implements. *)
Lemma memcpy_implements m dst src n d s :
  0 < n -> apart d s n ->
  (forall i, 0 <= i < n -> d i = dst + i /\ s i = src + i) ->
  copied m (memcpy dst src n m) d s n.
Proof.
  intros Hn [Hap _] He. eapply copied_ext; [|apply (memcpy_copied m dst src); [lia|]].
  { intros i Hi. destruct (He i Hi). done. }
  destruct (decide (dst + n <= src \/ src + n <= dst)) as [|Hno]; [done|].
  exfalso. set (x := Z.max src dst).
  apply (Hap (x - src) (x - dst)); [lia|lia|].
  rewrite (proj2 (He (x - src) ltac:(lia))), (proj1 (He (x - dst) ltac:(lia))). lia.
Qed.

Lemma memcpy2d_implements m dst dpitch src spitch width height d s :
  0 < width -> width <= dpitch -> width <= spitch -> apart d s (height * width) ->
  (forall i, 0 <= i < height * width -> d i = rect_at dst dpitch width i /\ s i = rect_at src spitch width i) ->
  copied m (memcpy2d dst dpitch src spitch width height m) d s (height * width).
Proof.
  intros Hw Hd Hs [Hap _] He. replace (height * width) with (width * height) in * by lia.
  eapply copied_ext; [|apply (memcpy2d_copied m dst dpitch src spitch)]; try done.
  - intros i Hi. destruct (He i Hi). done.
  - intros i j Hi Hj. rewrite <- (proj2 (He i Hi)), <- (proj1 (He j Hj)). auto.
Qed.

Section page_major.
Context (base bpp lin : Z) (Hb : 0 < bpp).

(** The image starts at [lin]; the pages are copied to it or from it. *)
Lemma pack_run_copied m pages p delta count :
  0 < delta -> 0 < count ->
  (forall k, 0 <= k < count -> nth (Z.to_nat k) pages 0 = p + delta * k) ->
  apart (fun i => lin + i) (page_at base bpp pages) (count * bpp) ->
  copied m (if delta =? 1 then memcpy lin (base + p * bpp) (count * bpp) m
            else memcpy2d lin bpp (base + p * bpp) (delta * bpp) bpp count m)
    (fun i => lin + i) (page_at base bpp pages) (count * bpp).
Proof.
  intros Hd Hc Hrun Hap. pose proof (page_at_run base bpp pages p delta count) as Hat.
  destruct (Z.eqb_spec delta 1) as [->|Hne].
  - apply memcpy_implements; [nia|done|]. intros i Hi.
    rewrite Hat, Z.mul_1_l, rect_at_dense by (done || lia). done.
  - apply memcpy2d_implements; try done; [nia|]. intros i Hi.
    rewrite Hat, rect_at_dense by (done || lia). done.
Qed.

Lemma unpack_run_copied m pages p delta count :
  0 < delta -> 0 < count ->
  (forall k, 0 <= k < count -> nth (Z.to_nat k) pages 0 = p + delta * k) ->
  apart (page_at base bpp pages) (fun i => lin + i) (count * bpp) ->
  copied m (if delta =? 1 then memcpy (base + p * bpp) lin (count * bpp) m
            else memcpy2d (base + p * bpp) (delta * bpp) lin bpp bpp count m)
    (page_at base bpp pages) (fun i => lin + i) (count * bpp).
Proof.
  intros Hd Hc Hrun Hap. pose proof (page_at_run base bpp pages p delta count) as Hat.
  destruct (Z.eqb_spec delta 1) as [->|Hne].
  - apply memcpy_implements; [nia|done|]. intros i Hi.
    rewrite Hat, Z.mul_1_l, rect_at_dense by (done || lia). done.
  - apply memcpy2d_implements; try done; [nia|]. intros i Hi.
    rewrite Hat, rect_at_dense by (done || lia). done.
Qed.

Lemma single_run_nth p rest k : 0 <= k < 1 -> nth (Z.to_nat k) (p :: rest) 0 = p + 1 * k.
Proof. intros Hk. replace k with 0 by lia. simpl. lia. Qed.

Lemma long_run_nth p q rest k :
  let delta := q - p in
  0 <= k < 2 + Z.of_nat (stride_run delta q rest) ->
  nth (Z.to_nat k) (p :: q :: rest) 0 = p + delta * k.
Proof.
  intros delta Hk. destruct (Z.to_nat k) as [|j] eqn:E; simpl; [replace k with 0 by lia; lia|].
  change (match j with O => q | S m => nth m rest 0 end) with (nth j (q :: rest) 0).
  rewrite (stride_run_nth delta) by lia. replace (Z.of_nat j) with (k - 1) by lia. lia.
Qed.
End page_major.

(** The loops, run by run: [total] is the number of bytes of the pages. *)
Abbreviation total pages bpp := (Z.of_nat (length pages) * bpp).

Lemma total_split (pages : list Z) (n : nat) bpp :
  (n <= length pages)%nat -> total pages bpp = Z.of_nat n * bpp + total (drop n pages) bpp.
Proof. intros Hn. rewrite length_drop, Nat2Z.inj_sub by done. lia. Qed.

Lemma apart_ext d s d' s' n :
  (forall i, 0 <= i < n -> d i = d' i /\ s i = s' i) -> apart d s n -> apart d' s' n.
Proof.
  intros He [H1 H2]. split; intros i j Hi Hj; destruct (He i Hi) as [Ed Es], (He j Hj) as [Ed' _].
  - rewrite <- Es, <- Ed'. auto.
  - rewrite <- Ed, <- Ed'. auto.
Qed.

Section advance.
Context (base bpp lin : Z) (pages : list Z) (n : nat) (m m1 m2 : M).
Context (Hb : 0 < bpp) (Hn : (n <= length pages)%nat).

Lemma drop_addresses i :
  0 <= i < total (drop n pages) bpp ->
  page_at base bpp pages (Z.of_nat n * bpp + i) = page_at base bpp (drop n pages) i /\
  lin + (Z.of_nat n * bpp + i) = lin + Z.of_nat n * bpp + i.
Proof. intros Hi. rewrite page_at_drop by lia. split; [done|lia]. Qed.

Lemma pack_advance :
  apart (fun i => lin + i) (page_at base bpp pages) (total pages bpp) ->
  (apart (fun i => lin + i) (page_at base bpp pages) (Z.of_nat n * bpp) ->
   copied m m1 (fun i => lin + i) (page_at base bpp pages) (Z.of_nat n * bpp)) ->
  (apart (fun i => lin + Z.of_nat n * bpp + i) (page_at base bpp (drop n pages)) (total (drop n pages) bpp) ->
   copied m1 m2 (fun i => lin + Z.of_nat n * bpp + i) (page_at base bpp (drop n pages))
    (total (drop n pages) bpp)) ->
  copied m m2 (fun i => lin + i) (page_at base bpp pages) (total pages bpp).
Proof.
  rewrite (total_split pages n) by done. intros Hap H1 H2.
  eapply copied_app; [nia|nia|done|apply H1; eapply apart_le; [|done]; nia|].
  eapply copied_ext; [|apply H2; eapply apart_ext; [|apply apart_shift, Hap; nia]];
    intros i Hi; by destruct (drop_addresses i Hi).
Qed.

Lemma unpack_advance :
  apart (page_at base bpp pages) (fun i => lin + i) (total pages bpp) ->
  (apart (page_at base bpp pages) (fun i => lin + i) (Z.of_nat n * bpp) ->
   copied m m1 (page_at base bpp pages) (fun i => lin + i) (Z.of_nat n * bpp)) ->
  (apart (page_at base bpp (drop n pages)) (fun i => lin + Z.of_nat n * bpp + i) (total (drop n pages) bpp) ->
   copied m1 m2 (page_at base bpp (drop n pages)) (fun i => lin + Z.of_nat n * bpp + i)
    (total (drop n pages) bpp)) ->
  copied m m2 (page_at base bpp pages) (fun i => lin + i) (total pages bpp).
Proof.
  rewrite (total_split pages n) by done. intros Hap H1 H2.
  eapply copied_app; [nia|nia|done|apply H1; eapply apart_le; [|done]; nia|].
  eapply copied_ext; [|apply H2; eapply apart_ext; [|apply apart_shift, Hap; nia]];
    intros i Hi; by destruct (drop_addresses i Hi).
Qed.
End advance.

(** A single page is a run of one. *)
Lemma pack_one base bpp lin m p rest :
  0 < bpp -> apart (fun i => lin + i) (page_at base bpp (p :: rest)) (Z.of_nat 1 * bpp) ->
  copied m (memcpy lin (base + p * bpp) bpp m)
    (fun i => lin + i) (page_at base bpp (p :: rest)) (Z.of_nat 1 * bpp).
Proof.
  intros Hb. change (Z.of_nat 1) with 1. intros Hap.
  pose proof (pack_run_copied base bpp lin Hb m (p :: rest) p 1 1) as H. rewrite Z.eqb_refl in H.
  rewrite !Z.mul_1_l in *. apply H; [lia|lia|apply single_run_nth|done].
Qed.

Lemma unpack_one base bpp lin m p rest :
  0 < bpp -> apart (page_at base bpp (p :: rest)) (fun i => lin + i) (Z.of_nat 1 * bpp) ->
  copied m (memcpy (base + p * bpp) lin bpp m)
    (page_at base bpp (p :: rest)) (fun i => lin + i) (Z.of_nat 1 * bpp).
Proof.
  intros Hb. change (Z.of_nat 1) with 1. intros Hap.
  pose proof (unpack_run_copied base bpp lin Hb m (p :: rest) p 1 1) as H. rewrite Z.eqb_refl in H.
  rewrite !Z.mul_1_l in *. apply H; [lia|lia|apply single_run_nth|done].
Qed.

(** Coalesced packing is page-by-page packing. *)
Lemma pack_loop_copied base bpp : 0 < bpp -> forall fuel pages lin m,
  (length pages <= fuel)%nat ->
  apart (fun i => lin + i) (page_at base bpp pages) (total pages bpp) ->
  copied m (pack_loop fuel lin base bpp bpp pages m)
    (fun i => lin + i) (page_at base bpp pages) (total pages bpp).
Proof.
  intros Hb. induction fuel as [|fuel IH]; intros pages lin m Hf Hap.
  { destruct pages; [apply copied_0|simpl in Hf; lia]. }
  destruct pages as [|p [|q rest]]; [apply copied_0|by apply pack_one|].
  simpl in Hf. cbn [pack_loop]. destruct (Z.leb_spec (q - p) 0) as [Hle|Hgt].
  - eapply (pack_advance base bpp lin _ 1); [done|simpl; lia|done|by apply pack_one|].
    change (drop 1 (p :: q :: rest)) with (q :: rest). change (Z.of_nat 1) with 1.
    rewrite Z.mul_1_l. apply IH. simpl. lia.
  - set (j := stride_run (q - p) q rest).
    assert (j <= length rest)%nat by apply stride_run_length.
    assert (2 + Z.of_nat j = Z.of_nat (2 + j)) as Hj by lia.
    eapply (pack_advance base bpp lin _ (2 + j)); [done|simpl; lia|done|..]; rewrite <- Hj.
    + intros Hap'. apply pack_run_copied; [done|done|lia|apply long_run_nth|done].
    + apply IH. change (drop (2 + j) (p :: q :: rest)) with (drop j rest). rewrite length_drop. lia.
Qed.

Lemma unpack_loop_copied base bpp : 0 < bpp -> forall fuel pages lin m,
  (length pages <= fuel)%nat ->
  apart (page_at base bpp pages) (fun i => lin + i) (total pages bpp) ->
  copied m (unpack_loop fuel base bpp bpp lin pages m)
    (page_at base bpp pages) (fun i => lin + i) (total pages bpp).
Proof.
  intros Hb. induction fuel as [|fuel IH]; intros pages lin m Hf Hap.
  { destruct pages; [apply copied_0|simpl in Hf; lia]. }
  destruct pages as [|p [|q rest]]; [apply copied_0|by apply unpack_one|].
  simpl in Hf. cbn [unpack_loop]. destruct (Z.leb_spec (q - p) 0) as [Hle|Hgt].
  - eapply (unpack_advance base bpp lin _ 1); [done|simpl; lia|done|by apply unpack_one|].
    change (drop 1 (p :: q :: rest)) with (q :: rest). change (Z.of_nat 1) with 1.
    rewrite Z.mul_1_l. apply IH. simpl. lia.
  - set (j := stride_run (q - p) q rest).
    assert (j <= length rest)%nat by apply stride_run_length.
    assert (2 + Z.of_nat j = Z.of_nat (2 + j)) as Hj by lia.
    eapply (unpack_advance base bpp lin _ (2 + j)); [done|simpl; lia|done|..]; rewrite <- Hj.
    + intros Hap'. apply unpack_run_copied; [done|done|lia|apply long_run_nth|done].
    + apply IH. change (drop (2 + j) (p :: q :: rest)) with (drop j rest). rewrite length_drop. lia.
Qed.

(** ** Planes in either order *)
Definition page_bytes (order : PagedKVPlaneOrder) (t : Tensor) : Z :=
  match order with PageMajor => v3 (nb t) | HeadMajor => v3 (ne t) * v2 (nb t) end.

Definition plane_pages (order : PagedKVPlaneOrder) (t : Tensor) : Z :=
  match order with PageMajor => v3 (ne t) | HeadMajor => v2 (ne t) end.

Definition plane_size (t : Tensor) : Z := volume (ne t) * dtype_size (dtype t).

(** A plane as the pool's constructor binds it. *)
Definition plane_ok (t : Tensor) : Prop :=
  positive (ne t) /\ nb t = packed (dtype t) (ne t) /\ plane_size t <= size_max.

#[export] Instance plane_ok_dec t : Decision (plane_ok t).
Proof. unfold plane_ok, positive. apply _. Defined.

(** Byte [i] of the concatenated pages of a plane, in image order. *)
Definition plane_at (order : PagedKVPlaneOrder) (t : Tensor) (pages : list Z) (i : Z) : Z :=
  let bpp := page_bytes order t in
  let page := nth (Z.to_nat (i / bpp)) pages 0 in
  let k := i mod bpp in
  match order with
  | PageMajor => data t + page * bpp + k
  | HeadMajor => data t + page * v2 (nb t) + k / v2 (nb t) * v3 (nb t) + k mod v2 (nb t)
  end.

Lemma plane_strides t :
  plane_ok t -> 0 < v2 (nb t) /\ v3 (nb t) = v2 (nb t) * v2 (ne t) /\
    plane_size t = v3 (nb t) * v3 (ne t) /\ 0 < v2 (ne t) /\ 0 < v3 (ne t).
Proof.
  intros ((? & ? & ? & ?) & Hnb & _). unfold plane_size, volume. rewrite Hnb. unfold packed. simpl.
  pose proof (dtype_size_pos (dtype t)). split_and!; lia || nia.
Qed.

Lemma page_bytes_pos order t : plane_ok t -> 0 < page_bytes order t.
Proof. intros (? & ? & ? & ? & ?)%plane_strides. destruct order; simpl; nia. Qed.

Lemma plane_page_bytes_Ok order t : plane_ok t -> plane_page_bytes t order = Ok (page_bytes order t).
Proof.
  intros Hok. pose proof (plane_strides t Hok) as (? & H3 & Hs & ? & ?). destruct Hok as (_ & _ & Hmax).
  destruct order; unfold plane_page_bytes, throw_if; simpl.
  - by replace (v3 (nb t) <=? 0) with false by nia.
  - replace ((v3 (ne t) <=? 0) || (v2 (nb t) <=? 0)) with false by lia. simpl.
    rewrite wrap64_id; [done|]. unfold u64. nia.
Qed.

Lemma plane_at_page order t pages i :
  plane_ok t -> 0 <= i < total pages (page_bytes order t) ->
  exists page k, pages !! Z.to_nat (i / page_bytes order t) = Some page /\
    k = i mod page_bytes order t /\ 0 <= k < page_bytes order t /\
    plane_at order t pages i = plane_at order t [page] k.
Proof.
  intros Hok Hi. pose proof (page_bytes_pos order t Hok) as Hb.
  set (bpp := page_bytes order t) in *.
  assert (0 <= i / bpp < Z.of_nat (length pages)) as Hq
    by (split; [apply Z.div_pos|apply Z.div_lt_upper_bound]; lia).
  destruct (lookup_lt_is_Some_2 pages (Z.to_nat (i / bpp))) as [page Hp]; [lia|].
  exists page, (i mod bpp). pose proof (Z.mod_pos_bound i bpp Hb).
  split_and!; try lia; [done|]. unfold plane_at. fold bpp.
  rewrite (Z.div_small (i mod bpp) bpp), (Z.mod_small (i mod bpp) bpp) by done.
  rewrite nth_lookup, Hp. done.
Qed.

(** Where a page's bytes are: inside the plane, and nowhere else's bytes. *)
Lemma page_byte_range order t page k :
  plane_ok t -> 0 <= page < plane_pages order t -> 0 <= k < page_bytes order t ->
  data t <= plane_at order t [page] k < data t + plane_size t.
Proof.
  intros Hok Hp Hk. destruct (plane_strides t Hok) as (H2 & H3 & Hs & ? & ?).
  unfold plane_at. rewrite (Z.div_small k), (Z.mod_small k) by done. simpl nth.
  destruct order; simpl in *; rewrite Hs; [nia|].
  pose proof (Z.mod_pos_bound k (v2 (nb t)) H2). pose proof (Z.div_mod k (v2 (nb t)) ltac:(lia)).
  assert (0 <= k / v2 (nb t) < v3 (ne t)) by nia.
  set (h := k / v2 (nb t)) in *. set (c := k mod v2 (nb t)) in *.
  assert (page * v2 (nb t) + c < v3 (nb t)) by (rewrite H3; nia).
  assert (0 <= h * v3 (nb t)) by nia. assert (h * v3 (nb t) + v3 (nb t) <= v3 (nb t) * v3 (ne t)) by nia. nia.
Qed.

Lemma page_byte_inj order t p p' k k' :
  plane_ok t -> 0 <= p < plane_pages order t -> 0 <= p' < plane_pages order t ->
  0 <= k < page_bytes order t -> 0 <= k' < page_bytes order t ->
  plane_at order t [p] k = plane_at order t [p'] k' -> p = p' /\ k = k'.
Proof.
  intros Hok Hp Hp' Hk Hk'. destruct (plane_strides t Hok) as (H2 & H3 & Hs & ? & ?).
  unfold plane_at. rewrite !(Z.div_small _ (page_bytes order t)), !(Z.mod_small _ (page_bytes order t)) by done.
  simpl nth. destruct order; simpl in *.
  - intros E. assert (p = p') by nia. nia.
  - pose proof (Z.mod_pos_bound k (v2 (nb t)) H2). pose proof (Z.div_mod k (v2 (nb t)) ltac:(lia)).
    pose proof (Z.mod_pos_bound k' (v2 (nb t)) H2). pose proof (Z.div_mod k' (v2 (nb t)) ltac:(lia)).
    set (h := k / v2 (nb t)) in *. set (h' := k' / v2 (nb t)) in *.
    set (c := k mod v2 (nb t)) in *. set (c' := k' mod v2 (nb t)) in *.
    assert (p * v2 (nb t) + c < v3 (nb t)) by (rewrite H3; nia).
    assert (p' * v2 (nb t) + c' < v3 (nb t)) by (rewrite H3; nia).
    intros E. assert (h = h') by nia. assert (p = p') by nia. nia.
Qed.

Lemma plane_at_inj order t pages i j :
  plane_ok t -> NoDup pages -> Forall (fun p => 0 <= p < plane_pages order t) pages ->
  0 <= i < total pages (page_bytes order t) -> 0 <= j < total pages (page_bytes order t) ->
  plane_at order t pages i = plane_at order t pages j -> i = j.
Proof.
  intros Hok Hnd Hr Hi Hj. pose proof (page_bytes_pos order t Hok) as Hb.
  destruct (plane_at_page order t pages i Hok Hi) as (p & k & Hp & Ek & Hk & ->).
  destruct (plane_at_page order t pages j Hok Hj) as (p' & k' & Hp' & Ek' & Hk' & ->).
  rewrite Forall_lookup in Hr.
  intros [-> E]%page_byte_inj; [|eauto..].
  pose proof (NoDup_lookup _ _ _ _ Hnd Hp Hp').
  pose proof (Z.div_mod i (page_bytes order t) ltac:(lia)).
  pose proof (Z.div_mod j (page_bytes order t) ltac:(lia)).
  assert (0 <= i / page_bytes order t) by (apply Z.div_pos; lia).
  assert (0 <= j / page_bytes order t) by (apply Z.div_pos; lia). nia.
Qed.

Lemma plane_at_range order t pages i :
  plane_ok t -> Forall (fun p => 0 <= p < plane_pages order t) pages ->
  0 <= i < total pages (page_bytes order t) ->
  data t <= plane_at order t pages i < data t + plane_size t.
Proof.
  intros Hok Hr Hi. destruct (plane_at_page order t pages i Hok Hi) as (p & k & Hp & _ & Hk & ->).
  rewrite Forall_lookup in Hr. apply page_byte_range; eauto.
Qed.

Lemma plane_at_cons order t p pages i :
  plane_ok t -> 0 <= i -> plane_at order t (p :: pages) (page_bytes order t + i) = plane_at order t pages i.
Proof.
  intros Hok Hi. pose proof (page_bytes_pos order t Hok) as Hb. unfold plane_at.
  set (bpp := page_bytes order t) in *.
  replace (bpp + i) with (i + 1 * bpp) by lia. rewrite Z.div_add, Z.mod_add by lia.
  assert (0 <= i / bpp) by (apply Z.div_pos; lia).
  replace (Z.to_nat (i / bpp + 1)) with (S (Z.to_nat (i / bpp))) by lia. done.
Qed.

(** One HeadMajor page, image side dense, page side a row per head. *)
Lemma head_major_rect t p pages lin i :
  plane_ok t -> 0 <= i < v3 (ne t) * v2 (nb t) ->
  lin + i = rect_at lin (v2 (nb t)) (v2 (nb t)) i /\
  plane_at HeadMajor t (p :: pages) i = rect_at (data t + p * v2 (nb t)) (v3 (nb t)) (v2 (nb t)) i.
Proof.
  intros Hok Hi. destruct (plane_strides t Hok) as (H2 & _). split; [by rewrite rect_at_dense|].
  unfold plane_at, page_bytes. rewrite (Z.div_small i), (Z.mod_small i) by done. done.
Qed.

Lemma total_cons {A} (x : A) l bpp : total (x :: l) bpp = bpp + total l bpp.
Proof. simpl length. lia. Qed.

Lemma pack_head_major_copied t : plane_ok t -> forall pages lin m,
  apart (fun i => lin + i) (plane_at HeadMajor t pages) (total pages (page_bytes HeadMajor t)) ->
  copied m (pack_head_major lin (page_bytes HeadMajor t) t pages m)
    (fun i => lin + i) (plane_at HeadMajor t pages) (total pages (page_bytes HeadMajor t)).
Proof.
  intros Hok. pose proof (plane_strides t Hok) as (H2 & H3 & _ & ? & ?).
  pose proof (page_bytes_pos HeadMajor t Hok) as Hb.
  assert (v2 (nb t) <= v3 (nb t)) as Hpitch by (rewrite H3; clear -H2 H; nia).
  induction pages as [|p pages IH]; intros lin m; [intros _; apply copied_0|].
  rewrite total_cons. intros Hap. cbn [pack_head_major].
  set (m1 := memcpy2d lin _ _ _ _ _ m). apply (copied_app m m1); [lia|nia|done| |].
  - apply memcpy2d_implements; [done|lia|done| |intros i Hi; by apply head_major_rect].
    eapply apart_le; [|done]. simpl. lia.
  - eapply copied_ext; [|apply IH; eapply apart_ext; [|apply apart_shift, Hap; lia]];
      intros i Hi; cbv beta; rewrite (plane_at_cons HeadMajor t p pages i) by (done || lia); split; lia.
Qed.

Lemma unpack_head_major_copied t : plane_ok t -> forall pages lin m,
  apart (plane_at HeadMajor t pages) (fun i => lin + i) (total pages (page_bytes HeadMajor t)) ->
  copied m (unpack_head_major lin (page_bytes HeadMajor t) t pages m)
    (plane_at HeadMajor t pages) (fun i => lin + i) (total pages (page_bytes HeadMajor t)).
Proof.
  intros Hok. pose proof (plane_strides t Hok) as (H2 & H3 & _ & ? & ?).
  pose proof (page_bytes_pos HeadMajor t Hok) as Hb.
  assert (v2 (nb t) <= v3 (nb t)) as Hpitch by (rewrite H3; clear -H2 H; nia).
  induction pages as [|p pages IH]; intros lin m; [intros _; apply copied_0|].
  rewrite total_cons. intros Hap. cbn [unpack_head_major].
  set (m1 := memcpy2d _ _ lin _ _ _ m). apply (copied_app m m1); [lia|nia|done| |].
  - apply memcpy2d_implements; [done|done|lia| |intros i Hi; split; by apply head_major_rect].
    eapply apart_le; [|done]. simpl. lia.
  - eapply copied_ext; [|apply IH; eapply apart_ext; [|apply apart_shift, Hap; lia]];
      intros i Hi; cbv beta; rewrite (plane_at_cons HeadMajor t p pages i) by (done || lia); split; lia.
Qed.

(** ** All planes of a pool *)

(** What one iteration of the plane loops does to memory. *)
Definition pack_plane (order : PagedKVPlaneOrder) (out : Z) (pages : list Z) (t : Tensor) : M -> M :=
  match order with
  | PageMajor => pack_page_major_pages out (data t) (v3 (nb t)) (page_bytes order t) pages
  | HeadMajor => pack_head_major out (page_bytes order t) t pages
  end.

Definition unpack_plane (order : PagedKVPlaneOrder) (inp : Z) (pages : list Z) (extent : Z) (t : Tensor)
    : M -> M :=
  match order with
  | PageMajor => unpack_page_major_pages (data t) (v3 (nb t)) (page_bytes order t) inp pages extent
  | HeadMajor => unpack_head_major inp (page_bytes order t) t (take (Z.to_nat extent) pages)
  end.

Lemma pack_plane_copied order t pages lin m :
  plane_ok t ->
  apart (fun i => lin + i) (plane_at order t pages) (total pages (page_bytes order t)) ->
  copied m (pack_plane order lin pages t m)
    (fun i => lin + i) (plane_at order t pages) (total pages (page_bytes order t)).
Proof.
  intros Hok Hap. pose proof (page_bytes_pos order t Hok) as Hb.
  destruct order; [|by apply pack_head_major_copied].
  by apply (pack_loop_copied (data t) (v3 (nb t)) Hb).
Qed.

Lemma unpack_plane_copied order t pages extent lin m :
  plane_ok t -> 0 <= extent ->
  let used := take (Z.to_nat extent) pages in
  apart (plane_at order t used) (fun i => lin + i) (total used (page_bytes order t)) ->
  copied m (unpack_plane order lin pages extent t m)
    (plane_at order t used) (fun i => lin + i) (total used (page_bytes order t)).
Proof.
  intros Hok He used Hap. pose proof (page_bytes_pos order t Hok) as Hb.
  destruct order; [|by apply unpack_head_major_copied].
  apply (unpack_loop_copied (data t) (v3 (nb t)) Hb); [|done]. subst used. rewrite length_take. lia.
Qed.

(** The image of a list of planes: [n] pages of each, plane after plane. *)
Fixpoint image_size (order : PagedKVPlaneOrder) (n : Z) (planes : list Tensor) : Z :=
  match planes with
  | [] => 0
  | t :: planes => n * page_bytes order t + image_size order n planes
  end.

Lemma image_size_nonneg order n planes :
  0 <= n -> Forall plane_ok planes -> 0 <= image_size order n planes.
Proof.
  intros Hn. induction 1 as [|t planes Ht _ IH]; simpl; [lia|].
  pose proof (page_bytes_pos order t Ht). nia.
Qed.

(** [t]'s part of the image starts at offset [off]. *)
Inductive image_part (order : PagedKVPlaneOrder) (n : Z) : list Tensor -> Tensor -> Z -> Prop :=
| part_here t planes : image_part order n (t :: planes) t 0
| part_next u t planes off :
    image_part order n planes t off ->
    image_part order n (u :: planes) t (n * page_bytes order u + off).

Lemma image_part_bounds order n planes t off :
  0 <= n -> Forall plane_ok planes -> image_part order n planes t off ->
  t ∈ planes /\ 0 <= off /\ off + n * page_bytes order t <= image_size order n planes.
Proof.
  intros Hn Hok Hp. induction Hp as [t planes|u t planes off Hp IH]; simpl.
  - apply Forall_cons in Hok as [_ Hok]. pose proof (image_size_nonneg order n planes Hn Hok).
    split_and!; [by left|lia|lia].
  - apply Forall_cons in Hok as [Hu Hok]. destruct (IH Hok) as (? & ? & ?).
    pose proof (page_bytes_pos order u Hu). split_and!; [by right|nia|nia].
Qed.

(** The image does not overlap a plane. *)
Definition off_plane (lin size : Z) (t : Tensor) : Prop :=
  lin + size <= data t \/ data t + plane_size t <= lin.

#[export] Instance off_plane_dec lin size t : Decision (off_plane lin size t).
Proof. unfold off_plane. apply _. Defined.

Definition on_pages (order : PagedKVPlaneOrder) (pages : list Z) (t : Tensor) : Prop :=
  Forall (fun p => 0 <= p < plane_pages order t) pages.

Lemma pack_plane_apart order t pages lin size :
  plane_ok t -> on_pages order pages t -> off_plane lin size t ->
  total pages (page_bytes order t) <= size ->
  apart (fun i => lin + i) (plane_at order t pages) (total pages (page_bytes order t)).
Proof.
  intros Hok Hp Hoff Hsz. split; intros i j Hi Hj; [|lia].
  pose proof (plane_at_range order t pages i Hok Hp Hi). destruct Hoff; lia.
Qed.

Lemma unpack_plane_apart order t pages lin size :
  plane_ok t -> on_pages order pages t -> NoDup pages -> off_plane lin size t ->
  total pages (page_bytes order t) <= size ->
  apart (plane_at order t pages) (fun i => lin + i) (total pages (page_bytes order t)).
Proof.
  intros Hok Hp Hnd Hoff Hsz. split; intros i j Hi Hj.
  - pose proof (plane_at_range order t pages j Hok Hp Hj). destruct Hoff; lia.
  - by apply plane_at_inj.
Qed.

Lemma pack_planes_spec order pages : forall planes lin m,
  Forall plane_ok planes -> Forall (on_pages order pages) planes ->
  Forall (off_plane lin (image_size order (Z.of_nat (length pages)) planes)) planes ->
  exists m', pack_planes order lin pages planes m = (Ok tt, m') /\
    (forall t off i, image_part order (Z.of_nat (length pages)) planes t off ->
       0 <= i < total pages (page_bytes order t) ->
       load m' (lin + off + i) = load m (plane_at order t pages i)) /\
    (forall a, a < lin \/ lin + image_size order (Z.of_nat (length pages)) planes <= a ->
       load m' a = load m a).
Proof.
  induction planes as [|t planes IH]; intros lin m Hok Hon Hoff; cbn [pack_planes].
  { exists m. split_and!; [done| |done]. intros t off i Hp. inversion Hp. }
  apply Forall_cons in Hok as [Ht Hok]. apply Forall_cons in Hon as [Hont Hon].
  cbn [image_size] in *. set (n := Z.of_nat (length pages)) in *.
  pose proof (page_bytes_pos order t Ht) as Hb.
  pose proof (image_size_nonneg order n planes ltac:(lia) Hok) as Hrest.
  apply Forall_cons in Hoff as [Hofft Hoff].
  rewrite (st_bind_Ok _ _ m (page_bytes order t) m) by (unfold lift; by rewrite plane_page_bytes_Ok).
  pose proof (pack_plane_copied order t pages lin m Ht) as [C1 C2]; [eapply pack_plane_apart; eauto; lia|].
  set (m1 := pack_plane order lin pages t m) in *.
  rewrite (st_bind_Ok _ _ m tt m1) by (unfold do_copy; by destruct order).
  destruct (IH (lin + n * page_bytes order t) m1) as (m' & E & Hin & Hout); try done.
  { eapply Forall_impl; [apply Hoff|]. unfold off_plane. intros u [?|?]; nia. }
  exists m'. split; [done|]. split.
  - intros u off i Hpart Hi. inversion Hpart as [?|? ? ? off' Hp]; subst.
    + rewrite Hout by lia. rewrite <- C1 by done. f_equal. lia.
    + replace (lin + (n * page_bytes order t + off') + i)
        with (lin + n * page_bytes order t + off' + i) by lia.
      rewrite (Hin u off' i Hp Hi). apply C2. intros j Hj.
      destruct (image_part_bounds order n planes u off' ltac:(lia) Hok Hp) as (Hu & _).
      rewrite Forall_forall in Hok, Hon, Hoff.
      pose proof (plane_at_range order u pages i (Hok u Hu) (Hon u Hu) Hi).
      destruct (Hoff u Hu); nia.
  - intros a Ha. rewrite Hout by nia. apply C2. intros j Hj. nia.
Qed.

Definition planes_disjoint (t u : Tensor) : Prop :=
  data t + plane_size t <= data u \/ data u + plane_size u <= data t.

Lemma unpack_planes_spec order pages extent n : forall planes lin m,
  let used := take (Z.to_nat extent) pages in
  0 <= extent <= n -> length used = Z.to_nat extent -> NoDup used ->
  Forall plane_ok planes -> Forall (on_pages order used) planes ->
  Forall (off_plane lin (image_size order n planes)) planes -> pairwise planes_disjoint planes ->
  exists m', unpack_planes order lin n extent pages planes m = (Ok tt, m') /\
    (forall t off i, image_part order n planes t off -> 0 <= i < extent * page_bytes order t ->
       load m' (plane_at order t used i) = load m (lin + off + i)) /\
    (forall a, (forall t i, t ∈ planes -> 0 <= i < extent * page_bytes order t ->
         a <> plane_at order t used i) -> load m' a = load m a).
Proof.
  induction planes as [|t planes IH]; intros lin m used He Hlen Hnd Hok Hon Hoff Hdis; cbn [unpack_planes].
  { exists m. split_and!; [done| |done]. intros t off i Hp. inversion Hp. }
  apply Forall_cons in Hok as [Ht Hok]. apply Forall_cons in Hon as [Hont Hon].
  cbn [image_size] in *. destruct Hdis as [Hdt Hdis].
  pose proof (page_bytes_pos order t Ht) as Hb.
  pose proof (image_size_nonneg order n planes ltac:(lia) Hok) as Hrest.
  apply Forall_cons in Hoff as [Hofft Hoff].
  assert (forall u, total used (page_bytes order u) = extent * page_bytes order u) as Htot
    by (intros u; rewrite Hlen, Z2Nat.id by lia; done).
  rewrite (st_bind_Ok _ _ m (page_bytes order t) m) by (unfold lift; by rewrite plane_page_bytes_Ok).
  pose proof (unpack_plane_copied order t pages extent lin m Ht ltac:(lia)) as [C1 C2];
    [eapply unpack_plane_apart; eauto; fold used; rewrite Htot; nia|]. fold used in C1, C2. rewrite Htot in C1, C2.
  set (m1 := unpack_plane order lin pages extent t m) in *.
  rewrite (st_bind_Ok _ _ m tt m1) by (unfold do_copy; by destruct order).
  destruct (IH (lin + n * page_bytes order t) m1) as (m' & E & Hin & Hout); try done.
  { eapply Forall_impl; [apply Hoff|]. unfold off_plane. intros u [?|?]; nia. }
  rewrite Forall_forall in Hok, Hon, Hdt. fold used in Hin, Hout.
  exists m'. split; [done|]. split.
  - intros u off i Hpart Hi. inversion Hpart as [?|? ? ? off' Hp]; subst.
    + rewrite Hout; [rewrite C1 by done; f_equal; lia|]. intros v j Hv Hj.
      pose proof (plane_at_range order u used i Ht Hont ltac:(rewrite Htot; lia)).
      pose proof (plane_at_range order v used j (Hok v Hv) (Hon v Hv) ltac:(rewrite Htot; lia)).
      destruct (Hdt v Hv); lia.
    + rewrite (Hin u off' i Hp Hi).
      destruct (image_part_bounds order n planes u off' ltac:(lia)) as (Hu & Hoff' & Hend);
        [by apply Forall_forall|done|].
      rewrite C2; [f_equal; lia|]. intros j Hj.
      pose proof (plane_at_range order t used j Ht Hont ltac:(rewrite Htot; lia)).
      pose proof (page_bytes_pos order u (Hok u Hu)).
      assert (extent * page_bytes order u <= n * page_bytes order u) by nia.
      assert (0 <= n * page_bytes order t) by nia. destruct Hofft; lia.
  - intros a Ha. rewrite Hout; [apply C2|]; intros; apply Ha; first [done|by left|by right].
Qed.

(** ** Device-to-device copies *)
Lemma plane_at_drop order t pages (n : nat) i :
  plane_ok t -> 0 <= i ->
  plane_at order t pages (Z.of_nat n * page_bytes order t + i) = plane_at order t (drop n pages) i.
Proof.
  intros Hok Hi. pose proof (page_bytes_pos order t Hok) as Hb. unfold plane_at.
  set (bpp := page_bytes order t) in *.
  rewrite (Z.add_comm _ i), Z.div_add, Z.mod_add by lia.
  assert (0 <= i / bpp) by (apply Z.div_pos; lia).
  replace (Z.to_nat (i / bpp + Z.of_nat n)) with (n + Z.to_nat (i / bpp))%nat by lia.
  by rewrite !nth_lookup, lookup_drop.
Qed.

Definition run_from (pages : list Z) (p count : Z) : Prop :=
  forall k, 0 <= k < count -> nth (Z.to_nat k) pages 0 = p + k.

(** In a run of consecutive pages, a head's rows are one piece. *)
Lemma head_major_run t pages p count i :
  plane_ok t -> run_from pages p count -> 0 <= i < count * page_bytes HeadMajor t ->
  exists r c, 0 <= r < v3 (ne t) /\ 0 <= c < count * v2 (nb t) /\
    i = c / v2 (nb t) * page_bytes HeadMajor t + r * v2 (nb t) + c mod v2 (nb t) /\
    plane_at HeadMajor t pages i = data t + p * v2 (nb t) + r * v3 (nb t) + c.
Proof.
  intros Hok Hrun Hi. destruct (plane_strides t Hok) as (H2 & _ & _ & _ & H0).
  pose proof (page_bytes_pos HeadMajor t Hok) as Hb. unfold plane_at.
  set (bpp := page_bytes HeadMajor t) in *. set (q := i / bpp). set (k := i mod bpp).
  assert (0 <= q < count) as Hq by (split; [apply Z.div_pos|apply Z.div_lt_upper_bound]; lia).
  pose proof (Z.mod_pos_bound i bpp Hb) as Hk. fold k in Hk.
  pose proof (Z.mod_pos_bound k (v2 (nb t)) H2) as Hc.
  pose proof (Z.div_mod k (v2 (nb t)) ltac:(lia)) as Ek. pose proof (Z.div_mod i bpp ltac:(lia)) as Ei.
  fold q k in Ei. assert (bpp = v3 (ne t) * v2 (nb t)) as Ebpp by done.
  set (h := k / v2 (nb t)) in *. set (c := k mod v2 (nb t)) in *.
  exists h, (c + q * v2 (nb t)).
  rewrite Z.div_add, Z.mod_add, (Z.div_small c), (Z.mod_small c) by lia. rewrite (Hrun q Hq).
  split_and!; nia.
Qed.

Lemma head_major_run_inv t pages p count r c :
  plane_ok t -> run_from pages p count -> 0 <= r < v3 (ne t) -> 0 <= c < count * v2 (nb t) ->
  exists i, 0 <= i < count * page_bytes HeadMajor t /\
    plane_at HeadMajor t pages i = data t + p * v2 (nb t) + r * v3 (nb t) + c.
Proof.
  intros Hok Hrun Hr Hc. destruct (plane_strides t Hok) as (H2 & _ & _ & _ & H0).
  pose proof (page_bytes_pos HeadMajor t Hok) as Hb.
  assert (page_bytes HeadMajor t = v3 (ne t) * v2 (nb t)) as Ebpp by done.
  set (bpp := page_bytes HeadMajor t) in *.
  pose proof (Z.mod_pos_bound c (v2 (nb t)) H2). pose proof (Z.div_mod c (v2 (nb t)) ltac:(lia)) as Ec.
  assert (0 <= c / v2 (nb t) < count) as Hq by (split; [apply Z.div_pos|apply Z.div_lt_upper_bound]; lia).
  set (q := c / v2 (nb t)) in *. set (b := c mod v2 (nb t)) in *.
  assert (0 <= r * v2 (nb t) + b < bpp) as Hin by (rewrite Ebpp; nia).
  exists (r * v2 (nb t) + b + q * bpp). split; [nia|]. unfold plane_at. fold bpp.
  rewrite Z.div_add, Z.mod_add, Z.div_small, Z.mod_small by lia. rewrite Z.add_0_l, (Hrun q Hq). rewrite (Z.add_comm (r * _) b), Z.div_add, Z.mod_add by lia.
  rewrite (Z.div_small b), (Z.mod_small b) by lia. nia.
Qed.

Lemma copy_pages_copied order t ds ss d s count m :
  plane_ok t -> 0 < count -> 0 <= d -> d + count <= plane_pages order t ->
  0 <= s -> s + count <= plane_pages order t ->
  run_from ds d count -> run_from ss s count ->
  apart (plane_at order t ds) (plane_at order t ss) (count * page_bytes order t) ->
  copied m (copy_pages order t d s count m) (plane_at order t ds) (plane_at order t ss)
    (count * page_bytes order t).
Proof.
  intros Hok Hc Hd Hdc Hs Hsc Hrd Hrs Hap. pose proof (page_bytes_pos order t Hok) as Hb.
  destruct order; unfold copy_pages.
  - apply memcpy_implements; [simpl in *; nia|done|]. intros i Hi.
    change (plane_at PageMajor t) with (page_at (data t) (v3 (nb t))). simpl page_bytes in *.
    rewrite (page_at_run (data t) _ ds d 1 count), (page_at_run (data t) _ ss s 1 count), Z.mul_1_l,
      !rect_at_dense; try done; intros k Hk; [rewrite (Hrs k Hk)|rewrite (Hrd k Hk)]; lia.
  - destruct (plane_strides t Hok) as (H2 & H3 & _). simpl plane_pages in *.
    assert (count * v2 (nb t) <= v3 (nb t)) as Hw by (rewrite H3; nia). split.
    + intros i Hi. destruct (head_major_run t ds d count i) as (r & c & Hr & Hcr & Ei & ->); try done.
      destruct (head_major_run t ss s count i) as (r' & c' & Hr' & Hcr' & Ei' & ->); try done.
      assert (r' = r /\ c' = c) as [-> ->].
      { pose proof (Z.mod_pos_bound c (v2 (nb t)) H2). pose proof (Z.div_mod c (v2 (nb t)) ltac:(lia)).
        pose proof (Z.mod_pos_bound c' (v2 (nb t)) H2). pose proof (Z.div_mod c' (v2 (nb t)) ltac:(lia)).
        simpl page_bytes in *. set (q := c / v2 (nb t)) in *. set (q' := c' / v2 (nb t)) in *.
        set (b := c mod v2 (nb t)) in *. set (b' := c' mod v2 (nb t)) in *.
        assert (0 <= r * v2 (nb t) + b < v3 (ne t) * v2 (nb t)) by nia.
        assert (0 <= r' * v2 (nb t) + b' < v3 (ne t) * v2 (nb t)) by nia.
        assert (q = q') by nia. assert (r = r') by nia. nia. }
      apply memcpy2d_in; try done. intros a (r1 & c1 & ? & ? & ->) (r2 & c2 & ? & ? & E).
      destruct (head_major_run_inv t ds d count r1 c1) as (i1 & Hi1 & E1); try done.
      destruct (head_major_run_inv t ss s count r2 c2) as (i2 & Hi2 & E2); try done.
      apply (proj1 Hap i2 i1 Hi2 Hi1). by rewrite E1, E2.
    + intros a Ha. apply memcpy2d_out; [done|]. intros (r & c & ? & ? & ->).
      destruct (head_major_run_inv t ds d count r c) as (i & Hi & E); try done. by apply (Ha i Hi).
Qed.

Lemma pair_run_spec ss : forall s d ds,
  let j := pair_run s d ss ds in
  (j <= length ss)%nat /\ (j <= length ds)%nat /\
  run_from (s :: ss) s (1 + Z.of_nat j) /\ run_from (d :: ds) d (1 + Z.of_nat j).
Proof.
  assert (forall x l, run_from (x :: l) x 1) as H1.
  { intros x l k Hk. replace k with 0 by lia. simpl. lia. }
  induction ss as [|s' ss IH]; intros s d [|d' ds]; simpl; try (split_and!; [lia|lia|apply H1..]).
  destruct (Z.eqb_spec s' (s + 1)) as [->|]; simpl; [|split_and!; [lia|lia|apply H1..]].
  destruct (Z.eqb_spec d' (d + 1)) as [->|]; simpl; [|split_and!; [lia|lia|apply H1..]].
  destruct (IH (s + 1) (d + 1) ds) as (L1 & L2 & R1 & R2).
  assert (forall x l n, run_from (x + 1 :: l) (x + 1) (1 + Z.of_nat n) ->
            run_from (x :: x + 1 :: l) x (1 + Z.of_nat (S n))) as Hext.
  { intros x l n Hr k Hk. destruct (Z.to_nat k) as [|i] eqn:E; simpl; [lia|].
    specialize (Hr (k - 1) ltac:(lia)). replace (Z.to_nat (k - 1)) with i in Hr by lia.
    simpl in Hr. rewrite Hr. lia. }
  split_and!; [lia|lia|by apply Hext..].
Qed.

Lemma on_pages_run order t pages p count :
  on_pages order pages t -> run_from pages p count -> 0 < count -> count <= Z.of_nat (length pages) ->
  0 <= p /\ p + count <= plane_pages order t.
Proof.
  intros Hon Hr Hc Hl. unfold on_pages in Hon. rewrite Forall_lookup in Hon.
  assert (forall k, 0 <= k < count -> 0 <= p + k < plane_pages order t) as H.
  { intros k Hk. rewrite <- (Hr k Hk). destruct (lookup_lt_is_Some_2 pages (Z.to_nat k)) as [x Hx]; [lia|].
    rewrite nth_lookup, Hx. by apply (Hon _ _ Hx). }
  pose proof (H 0 ltac:(lia)). pose proof (H (count - 1) ltac:(lia)). lia.
Qed.

(** Coalesced paired copies are page-by-page copies. *)
Lemma copy_loop_copied order t : plane_ok t -> forall fuel ss ds m,
  length ss = length ds -> (length ss <= fuel)%nat -> on_pages order ss t -> on_pages order ds t ->
  apart (plane_at order t ds) (plane_at order t ss) (total ss (page_bytes order t)) ->
  copied m (copy_loop fuel order t ss ds m) (plane_at order t ds) (plane_at order t ss)
    (total ss (page_bytes order t)).
Proof.
  intros Hok. pose proof (page_bytes_pos order t Hok) as Hb.
  induction fuel as [|fuel IH]; intros ss ds m Hl Hf Hs Hd Hap.
  { destruct ss; [apply copied_0|simpl in Hf; lia]. }
  destruct ss as [|s ss], ds as [|d ds]; try done. cbn [copy_loop].
  destruct (pair_run_spec ss s d ds) as (L1 & L2 & R1 & R2). set (j := pair_run s d ss ds) in *.
  simpl in Hl, Hf. set (ss' := s :: ss) in *. set (ds' := d :: ds) in *.
  assert (length ss' = S (length ss) /\ length ds' = S (length ds)) as [E1 E2] by done.
  destruct (on_pages_run order t ss' s _ Hs R1) as [? ?]; [lia|lia|].
  destruct (on_pages_run order t ds' d _ Hd R2) as [? ?]; [lia|lia|].
  assert (Z.of_nat (S j) = 1 + Z.of_nat j) as Ej by lia.
  rewrite (total_split ss' (S j)) in * by lia. rewrite Ej in *.
  apply (copied_app m (copy_pages order t d s (1 + Z.of_nat j) m)); [nia|nia|done| |].
  - apply copy_pages_copied; try done; [lia|]. eapply apart_le; [|done]. nia.
  - assert (forall l i, 0 <= i -> plane_at order t l ((1 + Z.of_nat j) * page_bytes order t + i) =
      plane_at order t (drop (S j) l) i) as Hdrop by (intros l i Hi; rewrite <- Ej; by apply plane_at_drop).
    eapply copied_ext; [|apply (IH (drop (S j) ss') (drop (S j) ds'))].
    + intros i Hi. rewrite !Hdrop by lia. done.
    + rewrite !length_drop. lia.
    + rewrite length_drop. lia.
    + by apply Forall_drop.
    + by apply Forall_drop.
    + eapply apart_ext; [|apply apart_shift, Hap; nia]. intros i Hi. cbv beta.
      rewrite !Hdrop by lia. done.
Qed.

Lemma copy_planes_spec order n ss ds : forall planes m,
  length ss = n -> length ds = n -> NoDup ds -> (forall x, x ∈ ss -> x ∉ ds) ->
  Forall plane_ok planes -> Forall (on_pages order ss) planes -> Forall (on_pages order ds) planes ->
  pairwise planes_disjoint planes ->
  exists m', for_each planes (fun t => do_copy (copy_loop n order t ss ds)) m = (Ok tt, m') /\
    (forall t i, t ∈ planes -> 0 <= i < total ss (page_bytes order t) ->
       load m' (plane_at order t ds i) = load m (plane_at order t ss i)) /\
    (forall a, (forall t i, t ∈ planes -> 0 <= i < total ss (page_bytes order t) ->
         a <> plane_at order t ds i) -> load m' a = load m a).
Proof.
  intros planes. induction planes as [|t planes IH]; intros m Hs Hd Hnd Hdj Hok Hons Hond Hdis.
  { exists m. split_and!; [done| |done]. intros t i []%elem_of_nil. }
  apply Forall_cons in Hok as [Ht Hok]. apply Forall_cons in Hons as [Hst Hons].
  apply Forall_cons in Hond as [Hdt Hond]. destruct Hdis as [Hdj' Hdis].
  assert (forall u, total ds (page_bytes order u) = total ss (page_bytes order u)) as Htot
    by (intros u; by rewrite Hs, Hd).
  destruct (copy_loop_copied order t Ht n ss ds m) as [C1 C2]; [lia|lia|done|done| |].
  { split; intros i j Hi Hj; [|apply plane_at_inj; try done; by rewrite Htot].
    destruct (plane_at_page order t ss i Ht Hi) as (p & k & Hp & _ & Hk & ->).
    rewrite <- Htot in Hj. destruct (plane_at_page order t ds j Ht Hj) as (p' & k' & Hp' & _ & Hk' & ->).
    unfold on_pages in *. rewrite Forall_lookup in Hst, Hdt.
    intros [-> _]%page_byte_inj; [|eauto..].
    apply (Hdj p'); by eapply list_elem_of_lookup_2. }
  set (m1 := copy_loop n order t ss ds m) in *.
  destruct (IH m1) as (m' & E & Hin & Hout); try done. cbn [for_each].
  rewrite (st_bind_Ok _ _ m tt m1) by done. exists m'. split; [done|].
  rewrite Forall_forall in Hok, Hons, Hond, Hdj'. split.
  - intros u i [->|Hu]%elem_of_cons Hi.
    + rewrite Hout; [by apply C1|]. intros v j Hv Hj. rewrite <- Htot in Hi, Hj.
      pose proof (plane_at_range order t ds i Ht Hdt Hi).
      pose proof (plane_at_range order v ds j (Hok v Hv) (Hond v Hv) Hj). destruct (Hdj' v Hv); lia.
    + rewrite (Hin u i Hu Hi). apply C2. intros j Hj. rewrite <- Htot in Hj.
      pose proof (plane_at_range order t ds j Ht Hdt Hj).
      pose proof (plane_at_range order u ss i (Hok u Hu) (Hons u Hu) Hi). destruct (Hdj' u Hu); lia.
  - intros a Ha. rewrite Hout; [apply C2|]; intros; apply Ha; first [done|by left|by right].
Qed.
End transfers.
