(* ===== verification/PageCopyTheorems.v ===== *)
(** * core/paged_kv_cache.cpp: guarantees of the page transfers

    Capture and restore, device copies, logical pages and zeroing, at the level
    of the functions callers use. *)

From stdpp Require Import prelude list list_numbers sorting gmap.
From Stdlib Require Import ZArith Lia.
From S2P Require Import Prelude.
From S2P Require Import Tensor.
From S2P Require Import Layout.
From S2P Require Import Bytes.
From S2P Require Import PagedPool.
From S2P Require Import PagedCopy.
From S2P Require Import PageTransfer.
From S2P Require Import PoolTheorems.
#[local] Open Scope Z_scope.

(** The planes of a pool: bound tensors, pairwise disjoint, one page per page id. *)
Record pool_planes_ok (P : PagedKVPool) : Prop := {
  pp_planes : Forall plane_ok (planes_ P);
  pp_disjoint : pairwise planes_disjoint (planes_ P);
  pp_pages : Forall (fun t => plane_pages (plane_order (spec_ P)) t = page_group_count (spec_ P))
               (planes_ P);
}.

(** The page ids of an allocation, as [PoolTheorems] guarantees them. *)
Definition ids_ok (P : PagedKVPool) (ids : list Z) : Prop :=
  NoDup ids /\ Forall (fun x => 0 <= x < page_group_count (spec_ P)) ids.

Lemma ids_on_pages P ids :
  pool_planes_ok P -> Forall (fun x => 0 <= x < page_group_count (spec_ P)) ids ->
  Forall (on_pages (plane_order (spec_ P)) ids) (planes_ P).
Proof.
  intros [_ _ Hp] Hi. rewrite Forall_forall in Hp. apply Forall_forall. intros t Ht. unfold on_pages.
  by rewrite (Hp t Ht).
Qed.

Lemma ids_ok_take P ids n : ids_ok P ids -> ids_ok P (take n ids).
Proof.
  intros [H1 H2]. split; [|by apply Forall_take].
  rewrite <- (take_drop n ids) in H1. by apply NoDup_app in H1 as [? _].
Qed.

Section theorems.
Context {M : Type} `{!Memory M}.

(** ** The size of an image *)
Lemma host_image_bytes_Ok order n : forall planes total,
  0 <= n -> 0 <= total <= size_max -> Forall plane_ok planes ->
  host_image_bytes planes order n total =
  if total + image_size order n planes <=? size_max then Ok (total + image_size order n planes)
  else Throw overflow_error.
Proof.
  induction planes as [|t planes IH]; intros total Hn Ht Hok; simpl.
  { rewrite Z.add_0_r. by replace (total <=? size_max) with true by lia. }
  apply Forall_cons in Hok as [Hot Hok]. rewrite plane_page_bytes_Ok by done. simpl.
  pose proof (page_bytes_pos order t Hot) as Hb. set (bpp := page_bytes order t) in *.
  pose proof (image_size_nonneg order n planes Hn Hok) as Hi.
  unfold throw_if. destruct (negb (n =? 0) && (size_max / n <? bpp)) eqn:E; simpl.
  { guards. assert (size_max < n * bpp).
    { pose proof (Z.mul_succ_div_gt size_max n ltac:(lia)). nia. }
    by replace (_ <=? size_max) with false by lia. }
  assert (n * bpp <= size_max).
  { apply andb_false_iff in E as [E|E]; guards; [subst; nia|].
    destruct (decide (n = 0)) as [->|]; [lia|].
    pose proof (Z.mul_div_le size_max n ltac:(lia)). nia. }
  replace (bpp * n) with (n * bpp) by lia.
  destruct (Z.ltb_spec (size_max - n * bpp) total); simpl.
  { by replace (_ <=? size_max) with false by lia. }
  rewrite IH by (done || nia).
  by replace (total + n * bpp + image_size order n planes) with
    (total + (n * bpp + image_size order n planes)) by lia.
Qed.

(** ** Packing and restoring an allocation *)
Lemma pack_allocation_spec P al p dst n m :
  pool_planes_ok P -> ids_ok P (page_ids_ al) -> pool_ al = Some p ->
  0 < n <= mapped_page_count al -> dst <> 0 ->
  Forall (off_plane dst (image_size (plane_order (spec_ P)) n (planes_ P))) (planes_ P) ->
  exists m', pack_paged_kv_allocation_to_host al p P dst n m = (Ok tt, m') /\
    (forall t off i, image_part (plane_order (spec_ P)) n (planes_ P) t off ->
       0 <= i < n * page_bytes (plane_order (spec_ P)) t ->
       load m' (dst + off + i) =
       load m (plane_at (plane_order (spec_ P)) t (take (Z.to_nat n) (page_ids_ al)) i)) /\
    (forall a, a < dst \/ dst + image_size (plane_order (spec_ P)) n (planes_ P) <= a ->
       load m' a = load m a).
Proof.
  intros HP Hids Hal Hn Hdst Hoff. set (order := plane_order (spec_ P)) in *.
  set (pages := take (Z.to_nat n) (page_ids_ al)).
  assert (Z.of_nat (length pages) = n) as Hlen
    by (subst pages; rewrite length_take; unfold mapped_page_count in Hn; lia).
  destruct (pack_planes_spec order pages (planes_ P) dst m) as (m' & E & Hin & Hout).
  { apply HP. }
  { apply ids_on_pages; [done|]. by apply ids_ok_take. }
  { by rewrite Hlen. }
  rewrite Hlen in Hin, Hout. exists m'. split; [|done].
  unfold pack_paged_kv_allocation_to_host, valid, belongs_to. rewrite Hal.
  rewrite !bool_decide_eq_true_2 by done. cbn [negb orb].
  rewrite (st_bind_Ok _ _ m tt m) by done.
  replace (mapped_page_count al <? n) with false by lia. rewrite (st_bind_Ok _ _ m tt m) by done.
  replace (dst =? 0) with false by lia. rewrite (st_bind_Ok _ _ m tt m) by done.
  by replace (n =? 0) with false by lia.
Qed.

Lemma unpack_allocation_spec P al p src n extent m :
  pool_planes_ok P -> ids_ok P (page_ids_ al) -> pool_ al = Some p ->
  0 <= extent <= n -> extent <= mapped_page_count al -> src <> 0 ->
  Forall (off_plane src (image_size (plane_order (spec_ P)) n (planes_ P))) (planes_ P) ->
  let used := take (Z.to_nat extent) (page_ids_ al) in
  exists m', unpack_paged_kv_allocation_from_host al p P src n extent m = (Ok tt, m') /\
    (forall t off i, image_part (plane_order (spec_ P)) n (planes_ P) t off ->
       0 <= i < extent * page_bytes (plane_order (spec_ P)) t ->
       load m' (plane_at (plane_order (spec_ P)) t used i) = load m (src + off + i)) /\
    (forall a, (forall t i, t ∈ planes_ P -> 0 <= i < extent * page_bytes (plane_order (spec_ P)) t ->
         a <> plane_at (plane_order (spec_ P)) t used i) -> load m' a = load m a).
Proof.
  intros HP Hids Hal He Hm Hsrc Hoff used. set (order := plane_order (spec_ P)) in *.
  destruct (ids_ok_take P _ (Z.to_nat extent) Hids) as [Hnd Hr].
  destruct (unpack_planes_spec order (page_ids_ al) extent n (planes_ P) src m) as (m' & E & Hin & Hout);
    try done; try apply HP.
  { rewrite length_take. unfold mapped_page_count in Hm. lia. }
  { by apply ids_on_pages. }
  exists m'. split; [|done].
  unfold unpack_paged_kv_allocation_from_host, valid, belongs_to. rewrite Hal.
  rewrite !bool_decide_eq_true_2 by done. cbn [negb orb].
  rewrite (st_bind_Ok _ _ m tt m) by done.
  replace (n <? extent) with false by lia. rewrite (st_bind_Ok _ _ m tt m) by done.
  replace (mapped_page_count al <? extent) with false by lia. rewrite (st_bind_Ok _ _ m tt m) by done.
  replace (src =? 0) with false by lia. by rewrite (st_bind_Ok _ _ m tt m) by done.
Qed.

Lemma plane_at_logical order t pages j x k :
  plane_ok t -> pages !! j = Some x -> 0 <= k < page_bytes order t ->
  plane_at order t pages (Z.of_nat j * page_bytes order t + k) = plane_at order t [x] k.
Proof.
  intros Hok Hx Hk. pose proof (page_bytes_pos order t Hok).
  rewrite plane_at_drop by (done || lia). unfold plane_at.
  rewrite (Z.div_small k), (Z.mod_small k) by done. simpl Z.to_nat.
  rewrite !nth_lookup, lookup_drop, Nat.add_0_r, Hx. done.
Qed.

Lemma image_part_exists order n planes t : t ∈ planes -> exists off, image_part order n planes t off.
Proof.
  induction 1 as [t planes|t u planes _ [off IH]]; [eexists; constructor|eexists; by constructor].
Qed.

(** C20: Capture and restore: packing [n] pages of one allocation and unpacking the
    image into the pages of another (or the same, later) succeed, touch nothing
    but the image and the named pages, and put every byte of logical page [j]
    back at logical page [j]. *)
Theorem capture_restore_roundtrip P src_al dst_al p image n extent m :
  pool_planes_ok P -> ids_ok P (page_ids_ src_al) -> ids_ok P (page_ids_ dst_al) ->
  pool_ src_al = Some p -> pool_ dst_al = Some p ->
  0 < n <= mapped_page_count src_al -> 0 <= extent <= n -> extent <= mapped_page_count dst_al ->
  image <> 0 ->
  let order := plane_order (spec_ P) in let size := image_size order n (planes_ P) in
  Forall (off_plane image size) (planes_ P) ->
  exists m1, pack_paged_kv_allocation_to_host src_al p P image n m = (Ok tt, m1) /\
    (forall a, a < image \/ image + size <= a -> load m1 a = load m a) /\
    forall m2, (forall a, image <= a < image + size -> load m2 a = load m1 a) ->
    exists m3, unpack_paged_kv_allocation_from_host dst_al p P image n extent m2 = (Ok tt, m3) /\
      forall t j x y k, t ∈ planes_ P -> Z.of_nat j < extent ->
        page_ids_ src_al !! j = Some x -> page_ids_ dst_al !! j = Some y ->
        0 <= k < page_bytes order t ->
        load m3 (plane_at order t [y] k) = load m (plane_at order t [x] k).
Proof.
  intros HP Hs Hd Hps Hpd Hn He Hed Himg order size Hoff.
  destruct (pack_allocation_spec P src_al p image n m) as (m1 & E1 & Hin1 & Hout1); try done.
  exists m1. split; [done|]. split; [done|]. intros m2 Hm2.
  destruct (unpack_allocation_spec P dst_al p image n extent m2) as (m3 & E3 & Hin3 & _); try done.
  exists m3. split; [done|]. intros t j x y k Ht Hj Hx Hy Hk.
  destruct (image_part_exists order n (planes_ P) t Ht) as [off Hpart].
  pose proof (pp_planes _ HP) as Hok.
  destruct (image_part_bounds order n (planes_ P) t off ltac:(lia) Hok Hpart) as (_ & Ho & Hend).
  rewrite Forall_forall in Hok. specialize (Hok t Ht).
  pose proof (page_bytes_pos order t Hok) as Hb. fold size in Hend.
  set (i := Z.of_nat j * page_bytes order t + k).
  assert (0 <= i < extent * page_bytes order t) as Hi by (subst i; nia).
  assert (0 <= i < n * page_bytes order t) as Hi' by nia.
  rewrite <- (plane_at_logical order t (take (Z.to_nat extent) (page_ids_ dst_al)) j y k)
    by (done || rewrite lookup_take_lt by lia; done).
  rewrite <- (plane_at_logical order t (take (Z.to_nat n) (page_ids_ src_al)) j x k)
    by (done || rewrite lookup_take_lt by lia; done).
  fold i. fold order in Hin1, Hin3. rewrite (Hin3 t off i Hpart Hi), <- (Hin1 t off i Hpart Hi'). apply Hm2. lia.
Qed.

(** [copy_paged_kv_allocation] moves every byte of the first [n] logical pages
    of one allocation to the same logical page of the other, whatever the
    coalescing, and writes nothing else. *)
Theorem copy_moves_pages P sid did src dst p n m :
  pool_planes_ok P -> ids_ok P (page_ids_ src) -> ids_ok P (page_ids_ dst) ->
  pool_ src = Some p -> pool_ dst = Some p -> sid <> did ->
  (forall x, x ∈ page_ids_ src -> x ∉ page_ids_ dst) ->
  0 <= n <= mapped_page_count src -> n <= mapped_page_count dst ->
  let order := plane_order (spec_ P) in
  exists m', copy_paged_kv_allocation sid did src dst p P n m = (Ok tt, m') /\
    (forall t j x y k, t ∈ planes_ P -> Z.of_nat j < n ->
       page_ids_ src !! j = Some x -> page_ids_ dst !! j = Some y -> 0 <= k < page_bytes order t ->
       load m' (plane_at order t [y] k) = load m (plane_at order t [x] k)) /\
    (forall a, (forall t j y k, t ∈ planes_ P -> page_ids_ dst !! j = Some y -> Z.of_nat j < n ->
         0 <= k < page_bytes order t -> a <> plane_at order t [y] k) -> load m' a = load m a).
Proof.
  intros HP Hs Hd Hps Hpd Hne Hdj Hn Hnd order. set (N := Z.to_nat n).
  set (ss := take N (page_ids_ src)). set (ds := take N (page_ids_ dst)).
  destruct (ids_ok_take P _ N Hs) as [Hss1 Hss2]. destruct (ids_ok_take P _ N Hd) as [Hds1 Hds2].
  assert (length ss = N /\ length ds = N) as [Ls Ld]
    by (unfold ss, ds, N; rewrite !length_take; unfold mapped_page_count in *; lia).
  destruct (copy_planes_spec order N ss ds (planes_ P) m) as (m' & E & Hin & Hout); try done.
  { intros x Hx Hx'. apply (Hdj x); by (eapply subseteq_take; done). }
  { apply HP. }
  { by apply ids_on_pages. }
  { by apply ids_on_pages. }
  { apply HP. }
  exists m'. split; [|split].
  - unfold copy_paged_kv_allocation, belongs_to. rewrite Hps, Hpd, !(bool_decide_eq_true_2 (Some p = Some p)) by done.
    cbn [negb orb]. replace ((mapped_page_count src <? n) || (mapped_page_count dst <? n)) with false by lia.
    rewrite (st_bind_Ok _ _ m tt m) by done. rewrite bool_decide_eq_false_2 by done.
    by rewrite (st_bind_Ok _ _ m tt m) by done.
  - intros t j x y k Ht Hj Hx Hy Hk. pose proof (pp_planes _ HP) as Hok. rewrite Forall_forall in Hok.
    specialize (Hok t Ht). pose proof (page_bytes_pos order t Hok).
    rewrite <- (plane_at_logical order t ds j y k), <- (plane_at_logical order t ss j x k)
      by (done || unfold ss, ds; rewrite lookup_take_lt by lia; done).
    apply Hin; [done|]. rewrite Ls. subst N. nia.
  - intros a Ha. apply Hout. intros t i Ht Hi. pose proof (pp_planes _ HP) as Hok.
    rewrite Forall_forall in Hok. rewrite Ls, <- Ld in Hi.
    destruct (plane_at_page order t ds i (Hok t Ht) Hi) as (y & k & Hy & _ & Hk & ->).
    unfold ds in Hy. apply lookup_take_Some in Hy as [Hy Hlt]. eapply Ha; [done|done|lia|done].
Qed.

(** ** Logical pages *)
Lemma pack_logical_is_pack order page : forall planes out m,
  pack_logical_planes order out page planes m = pack_planes order out [page] planes m.
Proof.
  induction planes as [|t planes IH]; intros out m; [done|]. cbn [pack_logical_planes pack_planes].
  unfold mbind, st_bind, lift. destruct (plane_page_bytes t order) as [bpp|e] eqn:E; [|done].
  unfold do_copy. cbn [length]. change (Z.of_nat 1) with 1. rewrite Z.mul_1_l. destruct order; apply IH.
Qed.

Lemma unpack_logical_is_unpack order page : forall planes inp m,
  unpack_logical_planes order inp page planes m = unpack_planes order inp 1 1 [page] planes m.
Proof.
  induction planes as [|t planes IH]; intros inp m; [done|]. cbn [unpack_logical_planes unpack_planes].
  unfold mbind, st_bind, lift. destruct (plane_page_bytes t order) as [bpp|e] eqn:E; [|done].
  unfold do_copy. rewrite Z.mul_1_l. destruct order; apply IH.
Qed.

(** Plane [q]'s part of an image of [n] pages per plane. *)
Definition plane_offset (order : PagedKVPlaneOrder) (n : Z) (planes : list Tensor) (q : nat) : Z :=
  image_size order n (take q planes).

Lemma plane_offset_part order n planes : forall q t,
  planes !! q = Some t -> image_part order n planes t (plane_offset order n planes q).
Proof.
  induction planes as [|u planes IH]; intros [|q] t Hq; try done.
  - injection Hq as ->. constructor.
  - apply part_next. by apply IH.
Qed.

Lemma slices_of_Ok order n idx : forall planes lin,
  Forall plane_ok planes ->
  slices_of order lin n idx planes =
  Ok (imap (fun q t => (lin + plane_offset order n planes q + idx * page_bytes order t,
                        page_bytes order t)) planes).
Proof.
  induction planes as [|t planes IH]; intros lin Hok; [done|].
  apply Forall_cons in Hok as [Ht Hok]. cbn [slices_of]. rewrite plane_page_bytes_Ok by done. simpl.
  rewrite IH by done. simpl. rewrite Z.add_0_r. do 2 f_equal. apply imap_ext. intros q u _. simpl.
  f_equal. unfold plane_offset. simpl. lia.
Qed.

(** The slices, laid end to end. *)
Lemma gather_slices_spec : forall (lens : list Z) out (addrs : list Z) m,
  length addrs = length lens -> Forall (fun n => 0 < n) lens ->
  Forall2 (fun a n => out + foldr Z.add 0 lens <= a \/ a + n <= out) addrs lens ->
  exists m', gather_slices out (zip addrs lens) m = (Ok tt, m') /\
    (forall q a n k, addrs !! q = Some a -> lens !! q = Some n -> 0 <= k < n ->
       load m' (out + foldr Z.add 0 (take q lens) + k) = load m (a + k)) /\
    (forall a, a < out \/ out + foldr Z.add 0 lens <= a -> load m' a = load m a).
Proof.
  induction lens as [|n lens IH]; intros out [|a addrs] m Hl Hpos Hsep; try done.
  { exists m. split; [done|]. split; [done|]. done. }
  apply Forall_cons in Hpos as [Hn Hpos]. apply Forall2_cons in Hsep as [Ha Hsep].
  simpl foldr in *.
  assert (0 <= foldr Z.add 0 lens) as Hrest by (clear -Hpos; induction Hpos; simpl; lia).
  destruct (memcpy_copied m out a n) as [C1 C2]; [lia|lia|]. set (m1 := memcpy out a n m) in *.
  destruct (IH (out + n) addrs m1) as (m' & E & Hin & Hout); [by injection Hl|done| |].
  { eapply Forall2_impl; [exact Hsep|]. simpl. intros x y ?. lia. }
  exists m'. split; [|split].
  - cbn [zip zip_with gather_slices]. replace (n =? 0) with false by lia. cbn [negb].
    rewrite (st_bind_Ok _ _ m tt m1) by done. exact E.
  - intros [|q] x y k Hx Hy Hk; simpl in Hx, Hy.
    + injection Hx as ->. injection Hy as ->. rewrite Hout by (simpl; lia). simpl.
      rewrite Z.add_0_r. by apply C1.
    + simpl foldr. replace (out + (n + foldr Z.add 0 (take q lens)) + k)
        with (out + n + foldr Z.add 0 (take q lens) + k) by lia.
      rewrite (Hin q x y k Hx Hy Hk). apply C2. intros i Hi.
      pose proof (Forall2_lookup_lr _ _ _ _ _ _ Hsep Hx Hy) as ?. simpl in *. lia.
  - intros b Hb. rewrite Hout by lia. apply C2. intros i Hi. lia.
Qed.

Lemma image_size_one order planes :
  image_size order 1 planes = foldr Z.add 0 (page_bytes order <$> planes).
Proof. induction planes as [|t planes IH]; [done|]. cbn [image_size fmap list_fmap foldr]. rewrite IH. lia. Qed.

Lemma zip_imap {A B C} (g : nat -> A -> B) (h : A -> C) (l : list A) :
  zip (imap g l) (h <$> l) = imap (fun q x => (g q x, h x)) l.
Proof. revert g. induction l as [|x l IH]; intros g; [done|]. simpl. f_equal. apply IH. Qed.

Lemma plane_offset_bounds order n planes q t :
  0 <= n -> Forall plane_ok planes -> planes !! q = Some t ->
  0 <= plane_offset order n planes q /\
  plane_offset order n planes q + n * page_bytes order t <= image_size order n planes.
Proof.
  intros Hn Hok Hq.
  pose proof (image_part_bounds order n planes t _ Hn Hok (plane_offset_part order n planes q t Hq)). tauto.
Qed.

Lemma gather_logical_spec P image n idx dst m :
  pool_planes_ok P -> 0 <= idx < n -> image <> 0 -> dst <> 0 ->
  let order := plane_order (spec_ P) in
  dst + image_size order 1 (planes_ P) <= image \/ image + image_size order n (planes_ P) <= dst ->
  exists m', gather_logical_page_from_host_image image P n idx dst m = (Ok tt, m') /\
    (forall q t k, planes_ P !! q = Some t -> 0 <= k < page_bytes order t ->
       load m' (dst + plane_offset order 1 (planes_ P) q + k) =
       load m (image + plane_offset order n (planes_ P) q + idx * page_bytes order t + k)) /\
    (forall a, a < dst \/ dst + image_size order 1 (planes_ P) <= a -> load m' a = load m a).
Proof.
  intros HP Hidx Himg Hdst order Hsep. pose proof (pp_planes _ HP) as Hok.
  set (planes := planes_ P) in *. set (lens := page_bytes order <$> planes).
  set (addrs := imap (fun q t => image + plane_offset order n planes q + idx * page_bytes order t) planes).
  destruct (gather_slices_spec lens dst addrs m) as (m' & E & Hin & Hout).
  { unfold addrs, lens. by rewrite length_imap, length_fmap. }
  { apply Forall_fmap. eapply Forall_impl; [exact Hok|]. intros t Ht. by apply page_bytes_pos. }
  { apply Forall2_lookup. intros q. unfold addrs, lens. rewrite list_lookup_imap, list_lookup_fmap.
    destruct (planes !! q) as [t|] eqn:Hq; simpl; constructor.
    pose proof (plane_offset_bounds order n planes q t ltac:(lia) Hok Hq).
    rewrite Forall_lookup in Hok. pose proof (page_bytes_pos order t (Hok q t Hq)).
    rewrite image_size_one in Hsep. nia. }
  exists m'. rewrite image_size_one. split; [|split; [|exact Hout]].
  - unfold gather_logical_page_from_host_image. replace (dst =? 0) with false by lia.
    rewrite (st_bind_Ok _ _ m tt m) by done.
    rewrite (st_bind_Ok _ _ m (zip addrs lens) m); [done|]. unfold lift. f_equal.
    unfold logical_page_host_slices, throw_if. replace (n <=? idx) with false by lia.
    replace (image =? 0) with false by lia. simpl. fold order planes. rewrite slices_of_Ok by done.
    unfold addrs, lens. by rewrite zip_imap.
  - intros q t k Hq Hk.
    replace (dst + plane_offset order 1 planes q + k) with (dst + foldr Z.add 0 (take q lens) + k).
    + apply (Hin q _ (page_bytes order t)); [|unfold lens; by rewrite list_lookup_fmap, Hq|done].
      unfold addrs. by rewrite list_lookup_imap, Hq.
    + unfold plane_offset. rewrite image_size_one. unfold lens. by rewrite firstn_map.
Qed.

(** ** Zeroing *)

(** [m'] is [m] with the bytes in [A] set to zero. *)
Definition zeroed (m m' : M) (A : Z -> Prop) : Prop :=
  (forall a, A a -> load m' a = 0) /\ (forall a, load m' a = 0 \/ load m' a = load m a) /\
  (forall a, ~ A a -> load m' a = load m a).

Lemma zeroed_ext m m' A B : (forall a, A a <-> B a) -> zeroed m m' A -> zeroed m m' B.
Proof. intros H (H1 & H2 & H3). split_and!; [|done|]; intros a; rewrite <- H; auto. Qed.

Lemma zeroed_id m : zeroed m m (fun _ => False).
Proof. split_and!; [done|by right|done]. Qed.

Lemma zeroed_trans m m1 m2 A B :
  zeroed m m1 A -> zeroed m1 m2 B -> zeroed m m2 (fun a => A a \/ B a).
Proof.
  intros (A1 & A2 & A3) (B1 & B2 & B3). split_and!.
  - intros a [Ha|Hb]; [|auto]. destruct (B2 a) as [|E]; [done|]. rewrite E. auto.
  - intros a. destruct (B2 a) as [|E]; [auto|]. rewrite E. auto.
  - intros a H. rewrite B3 by tauto. apply A3. tauto.
Qed.

Definition page_set (order : PagedKVPlaneOrder) (t : Tensor) (pages : list Z) (a : Z) : Prop :=
  exists i, 0 <= i < Z.of_nat (length pages) * page_bytes order t /\ a = plane_at order t pages i.

Lemma zero_run_zeroed order t pages p count m :
  plane_ok t -> Z.of_nat (length pages) = count -> run_from pages p count -> 0 <= p -> 0 < count ->
  p + count <= plane_pages order t ->
  zeroed m (zero_run order p count t m) (page_set order t pages).
Proof.
  intros Hok Hlen Hrun Hp Hc Hmax. pose proof (page_bytes_pos order t Hok) as Hb.
  destruct (plane_strides t Hok) as (H2 & H3 & _). unfold zero_run, page_set. rewrite Hlen.
  destruct order.
  - set (n := count * v3 (nb t)). set (b := data t + p * v3 (nb t)).
    apply (zeroed_ext _ _ (fun a => b <= a < b + n)).
    + intros a. simpl page_bytes in *. split.
      * intros Ha. exists (a - b). split; [lia|].
        change (plane_at PageMajor t) with (page_at (data t) (v3 (nb t))).
        rewrite (page_at_run (data t) _ pages p 1 count), Z.mul_1_l, rect_at_dense; try lia.
        intros k Hk. rewrite (Hrun k Hk). lia.
      * intros (i & Hi & ->). change (plane_at PageMajor t) with (page_at (data t) (v3 (nb t))).
        rewrite (page_at_run (data t) _ pages p 1 count), Z.mul_1_l, rect_at_dense; try lia.
        intros k Hk. rewrite (Hrun k Hk). lia.
    + split_and!.
      * intros a Ha. replace a with (b + (a - b)) by lia. apply memset_in. lia.
      * intros a. destruct (decide (b <= a < b + n)); [|right; apply memset_out; lia].
        left. replace a with (b + (a - b)) by lia. apply memset_in. lia.
      * intros a Ha. apply memset_out. lia.
  - assert (count * v2 (nb t) <= v3 (nb t)) as Hw by (simpl in Hmax; rewrite H3; nia).
    set (R := in_rect (data t + p * v2 (nb t)) (v3 (nb t)) (count * v2 (nb t)) (v3 (ne t))).
    apply (zeroed_ext _ _ R).
    + intros a. split.
      * intros (r & c & Hr & Hcr & ->).
        destruct (head_major_run_inv t pages p count r c) as (i & Hi & E); try done. eauto.
      * intros (i & Hi & ->). destruct (head_major_run t pages p count i) as (r & c & ? & ? & _ & ->); try done.
        by exists r, c.
    + split_and!.
      * intros a Ha. by apply memset2d_in.
      * intros a. destruct (in_rect_bool (data t + p * v2 (nb t)) (v3 (nb t)) (count * v2 (nb t)) (v3 (ne t)) a) eqn:E.
        -- left. apply memset2d_in; [done|]. by apply in_rect_bool_spec.
        -- right. apply memset2d_out; [done|]. intros Ha%in_rect_bool_spec; [congruence|done].
      * intros a Ha. by apply memset2d_out.
Qed.

Lemma page_set_app order t n pages a :
  plane_ok t -> (n <= length pages)%nat ->
  page_set order t pages a <-> page_set order t (take n pages) a \/ page_set order t (drop n pages) a.
Proof.
  intros Hok Hn. pose proof (page_bytes_pos order t Hok) as Hb. unfold page_set.
  rewrite length_take, length_drop, Nat.min_l, Nat2Z.inj_sub by lia.
  set (bpp := page_bytes order t) in *.
  assert (forall i, 0 <= i < Z.of_nat n * bpp -> plane_at order t (take n pages) i = plane_at order t pages i)
    as Htake.
  { intros i Hi. unfold plane_at. fold bpp. rewrite !nth_lookup.
    assert (0 <= i / bpp < Z.of_nat n) by (split; [apply Z.div_pos|apply Z.div_lt_upper_bound]; lia).
    by rewrite lookup_take_lt by lia. }
  split.
  - intros (i & Hi & ->). destruct (decide (i < Z.of_nat n * bpp)); [left; exists i; rewrite Htake by lia; split; [lia|done]|].
    right. exists (i - Z.of_nat n * bpp). split; [nia|]. rewrite <- plane_at_drop by (done || lia).
    fold bpp. f_equal. lia.
  - intros [(i & Hi & ->)|(i & Hi & ->)].
    + exists i. rewrite Htake by lia. split; [nia|done].
    + exists (Z.of_nat n * bpp + i). split; [nia|]. unfold bpp. by rewrite plane_at_drop by (done || lia).
Qed.

Lemma zero_planes_zeroed order p count pages : forall planes m,
  Forall plane_ok planes -> Forall (fun t => p + count <= plane_pages order t) planes ->
  Z.of_nat (length pages) = count -> run_from pages p count -> 0 <= p -> 0 < count ->
  zeroed m (foldl (fun m t => zero_run order p count t m) m planes)
    (fun a => exists t, t ∈ planes /\ page_set order t pages a).
Proof.
  induction planes as [|t planes IH]; intros m Hok Hmax Hl Hr Hp Hc; simpl.
  - eapply zeroed_ext; [|apply zeroed_id]. intros a. split; [done|]. by intros (t & []%elem_of_nil & _).
  - apply Forall_cons in Hok as [Ht Hok]. apply Forall_cons in Hmax as [Hmt Hmax].
    eapply zeroed_ext; [|eapply zeroed_trans; [by apply zero_run_zeroed|by apply IH]].
    intros a. split.
    + intros [Ha|(u & Hu & Ha)]; [exists t|exists u]; split; try done; first [by left|by right].
    + intros (u & [->|Hu]%elem_of_cons & Ha); [by left|right; eauto].
Qed.

Lemma zero_loop_zeroed order planes : forall fuel pages m,
  (length pages <= fuel)%nat -> Forall plane_ok planes -> Forall (on_pages order pages) planes ->
  Forall (fun x => 0 <= x) pages ->
  zeroed m (zero_loop fuel order planes pages m)
    (fun a => exists t, t ∈ planes /\ page_set order t pages a).
Proof.
  intros fuel. induction fuel as [|fuel IH]; intros pages m Hf Hok Hon Hnn.
  { destruct pages; [|simpl in Hf; lia]. eapply zeroed_ext; [|apply zeroed_id].
    intros a. split; [done|]. intros (t & _ & i & Hi & _). simpl in Hi. lia. }
  destruct pages as [|p rest]; cbn [zero_loop].
  { eapply zeroed_ext; [|apply zeroed_id].
    intros a. split; [done|]. intros (t & _ & i & Hi & _). simpl in Hi. lia. }
  set (j := stride_run 1 p rest).
  assert (j <= length rest)%nat as Hj by apply stride_run_length.
  assert (run_from (take (S j) (p :: rest)) p (1 + Z.of_nat j)) as Hrun.
  { intros k Hk. rewrite nth_lookup, lookup_take_lt, <- nth_lookup by lia.
    rewrite (stride_run_nth 1) by (fold j; lia). lia. }
  assert (Z.of_nat (length (take (S j) (p :: rest))) = 1 + Z.of_nat j) as Hlen
    by (rewrite length_take; simpl; lia).
  assert (Forall (on_pages order (take (S j) (p :: rest))) planes) as Hont.
  { eapply Forall_impl; [exact Hon|]. intros t Ht. by apply Forall_take. }
  eapply zeroed_ext; [|eapply zeroed_trans;
    [apply (zero_planes_zeroed order p (1 + Z.of_nat j) (take (S j) (p :: rest)))|apply IH]]; try done.
  - intros a. rewrite Forall_forall in Hok. split.
    + intros [(t & Ht & Ha)|(t & Ht & Ha)]; exists t; split; try done;
        apply (page_set_app order t (S j)); eauto; simpl; lia.
    + intros (t & Ht & Ha). apply (page_set_app order t (S j)) in Ha as [Ha|Ha]; [|by eauto..|simpl; lia].
      eauto.
  - rewrite Forall_forall in *. intros t Ht. by apply (on_pages_run order t _ p _ (Hont t Ht) Hrun); lia.
  - by apply Forall_cons in Hnn as [? _].
  - lia.
  - simpl in *. rewrite length_drop. lia.
  - eapply Forall_impl; [exact Hon|]. intros t Ht. by apply (Forall_drop _ (S j)) in Ht.
  - by apply (Forall_drop _ (S j)) in Hnn.
Qed.

Lemma has_adjacent_sorted l : StronglySorted Z.le l -> has_adjacent l = false <-> NoDup l.
Proof.
  induction 1 as [|x l Hl IH Hx]; [split; [constructor|done]|]. destruct l as [|y l].
  { split; [|done]. intros _. apply NoDup_singleton. }
  change (has_adjacent (x :: y :: l)) with ((x =? y) || has_adjacent (y :: l)).
  rewrite orb_false_iff, IH, Z.eqb_neq, (NoDup_cons x).
  assert (x ∉ y :: l <-> x <> y); [|tauto]. split; [rewrite elem_of_cons; tauto|].
  intros Hne [->|Hin]%elem_of_cons; [done|].
  apply StronglySorted_inv in Hl as [_ Hy]. rewrite Forall_forall in Hx, Hy.
  pose proof (Hy x Hin). pose proof (Hx y ltac:(left)). lia.
Qed.

Lemma last_elem_of l : l <> [] -> List.last l 0 ∈ l.
Proof. intros H. apply list_elem_of_In. rewrite (app_removelast_last 0 H) at 2. apply in_app_iff. right. by left. Qed.

Lemma sorted_last l x : StronglySorted Z.le l -> x ∈ l -> x <= List.last l 0.
Proof.
  induction 1 as [|y l Hl IH Hy]; [by intros ?%elem_of_nil|].
  intros [->|Hin]%elem_of_cons.
  - destruct l as [|z l]; [simpl; lia|]. change (List.last (y :: z :: l) 0) with (List.last (z :: l) 0).
    rewrite Forall_forall in Hy. apply Hy, last_elem_of. done.
  - destruct l as [|z l]; [by apply elem_of_nil in Hin|]. by apply IH.
Qed.

Lemma page_set_Permutation order t l k a :
  plane_ok t -> l ≡ₚ k -> page_set order t l a -> page_set order t k a.
Proof.
  intros Hok Hp (i & Hi & ->). pose proof (page_bytes_pos order t Hok) as Hb.
  destruct (plane_at_page order t l i Hok Hi) as (x & b & Hx & _ & Hk & ->).
  apply list_elem_of_lookup_2 in Hx. rewrite Hp in Hx. apply list_elem_of_lookup_1 in Hx as [j Hj].
  exists (Z.of_nat j * page_bytes order t + b). rewrite (plane_at_logical order t k j x b) by done.
  split; [|done]. apply lookup_lt_Some in Hj. nia.
Qed.

Lemma ids_ok_Permutation P l k : l ≡ₚ k -> ids_ok P l -> ids_ok P k.
Proof. intros Hp [H1 H2]. split; [by rewrite <- Hp|by rewrite <- Hp]. Qed.

(** [zero_pages] accepts exactly the sets of distinct pages of the pool, zeroes
    their bytes in every plane and nothing else. *)
Theorem zero_pages_exact P ids m :
  pool_planes_ok P ->
  match zero_pages P ids m with
  | (Ok _, m') => ids_ok P ids /\
      zeroed m m' (fun a => exists t, t ∈ planes_ P /\ page_set (plane_order (spec_ P)) t ids a)
  | (Throw e, m') => m' = m /\ ~ ids_ok P ids /\ (e = out_of_range \/ e = invalid_argument)
  end.
Proof.
  intros HP. unfold zero_pages. pose proof (merge_sort_Permutation Z.le ids) as Hperm.
  pose proof (StronglySorted_merge_sort Z.le ids) as Hsort.
  set (sorted := merge_sort Z.le ids) in *. destruct sorted as [|front rest] eqn:Es.
  { symmetry in Hperm. apply Permutation_nil_r in Hperm. subst ids. split; [split; constructor|].
    eapply zeroed_ext; [|apply zeroed_id]. intros a. split; [done|].
    intros (t & _ & i & Hi & _). simpl in Hi. lia. }
  clear sorted Es. set (sorted := front :: rest) in *.
  assert (forall x, x ∈ sorted -> front <= x <= List.last sorted 0) as Hrange.
  { intros x Hx. split; [|by apply sorted_last]. apply elem_of_cons in Hx as [->|Hx]; [done|].
    apply StronglySorted_inv in Hsort as [_ Hf]. rewrite Forall_forall in Hf. by apply Hf. }
  unfold mbind, st_bind, st_throw_if, throw_if, lift, do_copy.
  destruct ((front <? 0) || (page_group_count (spec_ P) <=? List.last sorted 0)) eqn:E; cbv beta iota.
  { split; [done|]. split; [|by left]. intros Hok.
    apply (ids_ok_Permutation P ids sorted) in Hok as [_ Hok]; [|done]. rewrite Forall_forall in Hok.
    pose proof (Hok front ltac:(by left)). pose proof (Hok _ (last_elem_of sorted ltac:(done))). lia. }
  pose proof (has_adjacent_sorted sorted Hsort) as Hadj.
  destruct (has_adjacent sorted) eqn:Ea; cbv beta iota.
  { split; [done|]. split; [|by right]. intros [Hnd _]. rewrite <- Hperm in Hnd.
    by apply Hadj in Hnd. }
  assert (ids_ok P sorted) as Hok.
  { split; [by apply Hadj|]. apply Forall_forall. intros x Hx. specialize (Hrange x Hx). lia. }
  split; [by apply (ids_ok_Permutation P sorted)|].
  eapply zeroed_ext; [|apply zero_loop_zeroed].
  - pose proof (pp_planes _ HP) as Hpl. rewrite Forall_forall in Hpl. intros a.
    split; intros (t & Ht & Ha); exists t; (split; [done|]); (eapply page_set_Permutation; [by apply Hpl| |exact Ha]); by rewrite Hperm.
  - done.
  - apply HP.
  - apply ids_on_pages; [done|apply Hok].
  - destruct Hok as [_ Hok]. eapply Forall_impl; [exact Hok|]. simpl. lia.
Qed.

(** [paged_kv_host_image_bytes] is the exact size of the image the packing
    routine writes; it throws [overflow_error] exactly when that size does not
    fit [size_t]. *)
Theorem host_image_bytes_exact P n :
  pool_planes_ok P -> u32 n ->
  let size := image_size (plane_order (spec_ P)) n (planes_ P) in
  paged_kv_host_image_bytes P n = if size <=? size_max then Ok size else Throw overflow_error.
Proof.
  intros HP Hn. apply (host_image_bytes_Ok _ _ _ 0); [width_lia|width_lia|apply HP].
Qed.

(** Reading one logical page out of a captured image gives the page's own
    bytes: plane by plane, what [pack_paged_kv_logical_page_to_host] would have
    written for it. *)
Theorem gathered_page_is_logical_page P al p image n idx x dst m m1 :
  pool_planes_ok P -> ids_ok P (page_ids_ al) -> pool_ al = Some p ->
  0 < n <= mapped_page_count al -> 0 <= idx < n -> page_ids_ al !! Z.to_nat idx = Some x ->
  image <> 0 -> dst <> 0 ->
  let order := plane_order (spec_ P) in
  Forall (off_plane image (image_size order n (planes_ P))) (planes_ P) ->
  dst + image_size order 1 (planes_ P) <= image \/ image + image_size order n (planes_ P) <= dst ->
  pack_paged_kv_allocation_to_host al p P image n m = (Ok tt, m1) ->
  exists m2, gather_logical_page_from_host_image image P n idx dst m1 = (Ok tt, m2) /\
    forall q t k, planes_ P !! q = Some t -> 0 <= k < page_bytes order t ->
      load m2 (dst + plane_offset order 1 (planes_ P) q + k) = load m (plane_at order t [x] k).
Proof.
  intros HP Hids Hal Hn Hidx Hx Himg Hdst order Hoff Hsep Hpack.
  destruct (pack_allocation_spec P al p image n m) as (m1' & E & Hin & _); try done.
  rewrite Hpack in E. injection E as <-.
  destruct (gather_logical_spec P image n idx dst m1) as (m2 & E2 & Hg & _); try done.
  exists m2. split; [done|]. fold order in Hin, Hg. intros q t k Hq Hk. rewrite (Hg q t k Hq Hk).
  pose proof (pp_planes _ HP) as Hok. rewrite Forall_lookup in Hok. specialize (Hok q t Hq).
  pose proof (page_bytes_pos order t Hok) as Hb.
  rewrite <- Z.add_assoc. rewrite (Hin t _ _ (plane_offset_part _ n _ q t Hq)) by nia.
  f_equal. rewrite <- (Z2Nat.id idx) at 1 by lia. apply plane_at_logical; [done| |done].
  rewrite lookup_take_lt by lia. done.
Qed.
End theorems.

(** ** Witnesses *)
Definition demo_planes : list Tensor := Eval vm_compute in planes_ demo_pool.

Lemma demo_planes_eq : planes_ demo_pool = demo_planes.
Proof. by vm_compute. Qed.

Lemma demo_planes_ok : pool_planes_ok demo_pool.
Proof.
  constructor; rewrite demo_planes_eq; [by_evaluation|split; [constructor|done]|by_evaluation].
Qed.

Definition demo_alloc (ids : list Z) : PagedKVAllocation := MkAlloc (Some 0%N) ids 4 (-1).

Lemma demo_ids_ok ids : bool_decide (NoDup ids /\ Forall (fun x => 0 <= x < 8) ids) = true -> ids_ok demo_pool ids.
Proof. by intros H%bool_decide_eq_true. Qed.

Definition zeros : Z -> Z := fun _ => 0.

Lemma capture_restore_roundtrip_witness :
  exists m1, pack_paged_kv_allocation_to_host (demo_alloc [0; 2; 4; 5]) 0 demo_pool (2 ^ 20) 3 zeros = (Ok tt, m1).
Proof.
  destruct (capture_restore_roundtrip demo_pool (demo_alloc [0; 2; 4; 5]) (demo_alloc [7; 1; 3]) 0
    (2 ^ 20) 3 2 zeros) as (m1 & H & _).
  - exact demo_planes_ok.
  - by apply demo_ids_ok.
  - by apply demo_ids_ok.
  - reflexivity.
  - reflexivity.
  - by_evaluation.
  - by_evaluation.
  - by_evaluation.
  - discriminate.
  - by_evaluation.
  - exact (ex_intro _ m1 H).
Defined.

Lemma copy_moves_pages_witness :
  exists m', copy_paged_kv_allocation 0 1 (demo_alloc [0; 1; 4]) (demo_alloc [5; 6; 2]) 0 demo_pool 3 zeros
    = (Ok tt, m').
Proof.
  destruct (copy_moves_pages demo_pool 0 1 (demo_alloc [0; 1; 4]) (demo_alloc [5; 6; 2]) 0 3 zeros)
    as (m' & H & _).
  - exact demo_planes_ok.
  - by apply demo_ids_ok.
  - by apply demo_ids_ok.
  - reflexivity.
  - reflexivity.
  - discriminate.
  - intros x Hx. cbn [page_ids_ demo_alloc] in *. rewrite !elem_of_cons, elem_of_nil in *. lia.
  - by_evaluation.
  - by_evaluation.
  - exact (ex_intro _ m' H).
Defined.

Lemma zero_pages_exact_witness : ids_ok demo_pool [3; 1; 2].
Proof.
  pose proof (zero_pages_exact (M := Z -> Z) demo_pool [3; 1; 2] zeros demo_planes_ok) as H.
  assert (fst (zero_pages demo_pool [3; 1; 2] zeros) = Ok tt) as E by by_evaluation.
  destruct (zero_pages demo_pool [3; 1; 2] zeros) as [r m']. cbn [fst] in E. subst r. apply H.
Defined.

Lemma host_image_bytes_exact_witness : paged_kv_host_image_bytes demo_pool 3 = Ok 12288.
Proof.
  rewrite (host_image_bytes_exact demo_pool 3 demo_planes_ok) by by_evaluation. by_evaluation.
Defined.

Lemma gathered_page_is_logical_page_witness :
  exists m1 m2, pack_paged_kv_allocation_to_host (demo_alloc [0; 2; 4; 5]) 0 demo_pool (2 ^ 20) 3 zeros = (Ok tt, m1)
    /\ gather_logical_page_from_host_image (2 ^ 20) demo_pool 3 1 (2 ^ 21) m1 = (Ok tt, m2).
Proof.
  assert (Forall (off_plane (2 ^ 20) (image_size (plane_order (spec_ demo_pool)) 3 (planes_ demo_pool)))
    (planes_ demo_pool)) as Hoff by by_evaluation.
  assert (ids_ok demo_pool (page_ids_ (demo_alloc [0; 2; 4; 5]))) as Hids by (by apply demo_ids_ok).
  destruct (pack_allocation_spec demo_pool (demo_alloc [0; 2; 4; 5]) 0 (2 ^ 20) 3 zeros demo_planes_ok Hids
    eq_refl) as (m1 & Hm1 & _); [by_evaluation|discriminate|exact Hoff|].
  destruct (gathered_page_is_logical_page demo_pool (demo_alloc [0; 2; 4; 5]) 0 (2 ^ 20) 3 1 2 (2 ^ 21) zeros m1
    demo_planes_ok Hids eq_refl) as (m2 & H & _).
  - by_evaluation.
  - by_evaluation.
  - reflexivity.
  - discriminate.
  - discriminate.
  - exact Hoff.
  - by_evaluation.
  - exact Hm1.
  - exact (ex_intro _ m1 (ex_intro _ m2 (conj Hm1 H))).
Defined.
