(* ===== verification/CyclicKV.v ===== *)
(** * core/cyclic_kv_cache.{h,cpp}

    Fixed K/V storage of [lane_capacity] lanes per layer.  A lane is one slice of
    the outermost dimension, so saving a lane to the host and restoring it is a
    page transfer over the K and V tensors of the layers in order; the theorems
    reuse [PageTransfer]. *)

From stdpp Require Import prelude list list_numbers.
From Stdlib Require Import ZArith Lia.
From S2P Require Import Prelude.
From S2P Require Import Tensor.
From S2P Require Import Layout.
From S2P Require Import Bytes.
From S2P Require Import PagedPool.
From S2P Require Import PagedCopy.
From S2P Require Import PageTransfer.
From S2P Require Import PageCopyTheorems.
#[local] Open Scope Z_scope.

Definition kArenaAlign : Z := 256.

Record CyclicKVCacheLayout : Type := MkCycLayout {
  cl_capacity : Z;
  cl_padded_capacity : Z;
  cl_num_kv_heads : Z;
  cl_head_dim : Z;
  cl_lane_capacity : Z;
  cl_k : list TensorRegion;
  cl_v : list TensorRegion;
}.

Record CyclicKVCache : Type := MkCyc {
  k_ : list Tensor;
  v_ : list Tensor;
  capacity_ : Z;
  padded_capacity_ : Z;
  num_kv_heads_ : Z;
  head_dim_ : Z;
  lane_capacity_ : Z;
}.

Definition align_up_u32 (value alignment : Z) : res Z :=
  let mask := alignment - 1 in
  let aligned := clear_mask (value + mask) mask in
  throw_if (i32_max <? aligned) invalid_argument ;; Ok aligned.

(** One K and one V region per layer, in that order. *)
Fixpoint plan_layers (layers : nat) (shape : list Z)
    : st LayoutBuilder (list TensorRegion * list TensorRegion) :=
  match layers with
  | O => mret ([], [])
  | S layers =>
      k ← LayoutBuilder_add_tensor BF16 shape kArenaAlign;
      v ← LayoutBuilder_add_tensor BF16 shape kArenaAlign;
      rest ← plan_layers layers shape;
      mret (k :: fst rest, v :: snd rest)
  end.

Definition plan_cyclic_kv_cache (layers capacity num_kv_heads head_dim lane_capacity : Z)
    : st LayoutBuilder CyclicKVCacheLayout :=
  st_throw_if ((layers =? 0) || (capacity =? 0) || (i32_max <? capacity) || (num_kv_heads <=? 0)
               || (head_dim <=? 0) || (lane_capacity <=? 0)) invalid_argument ;;
  padded ← lift (align_up_u32 capacity 128);
  kv ← plan_layers (Z.to_nat layers) [head_dim; padded; num_kv_heads; lane_capacity];
  mret (MkCycLayout capacity padded num_kv_heads head_dim lane_capacity (fst kv) (snd kv)).

(** [CyclicKVCacheLayout::payload_bytes] *)
Definition cyclic_payload_bytes (layout : CyclicKVCacheLayout) : Z :=
  let sum := foldl (fun total r => wrap64 (total + region_bytes (region r))) in
  sum (sum 0 (cl_k layout)) (cl_v layout).

Fixpoint bind_layers (backing : DeviceSpan) (expected : vec4) (ks vs : list TensorRegion)
    : res (list Tensor * list Tensor) :=
  match ks, vs with
  | k :: ks, v :: vs =>
      throw_if (negb (bool_decide (region_dtype k = BF16)) || negb (bool_decide (region_dtype v = BF16))
                || negb (bool_decide (region_shape k = expected))
                || negb (bool_decide (region_shape v = expected))) invalid_argument ;;
      tk ← TensorRegion_bind k backing;
      tv ← TensorRegion_bind v backing;
      rest ← bind_layers backing expected ks vs;
      Ok (tk :: fst rest, tv :: snd rest)
  | _, _ => Ok ([], [])
  end.

(** The constructor [CyclicKVCache(backing, layout)]. *)
Definition make_cyclic (backing : DeviceSpan) (layout : CyclicKVCacheLayout) : res CyclicKVCache :=
  throw_if (bool_decide (cl_k layout = []) || negb (length (cl_v layout) =? length (cl_k layout))%nat
            || (cl_capacity layout =? 0) || (cl_padded_capacity layout <? cl_capacity layout)
            || (cl_num_kv_heads layout <=? 0) || (cl_head_dim layout <=? 0)
            || (cl_lane_capacity layout <=? 0)) invalid_argument ;;
  kv ← bind_layers backing
         (Vec4 (cl_head_dim layout) (cl_padded_capacity layout) (cl_num_kv_heads layout)
               (cl_lane_capacity layout)) (cl_k layout) (cl_v layout);
  Ok (MkCyc (fst kv) (snd kv) (cl_capacity layout) (cl_padded_capacity layout)
            (cl_num_kv_heads layout) (cl_head_dim layout) (cl_lane_capacity layout)).

Definition layer_count (c : CyclicKVCache) : Z := Z.of_nat (length (k_ c)).

(** [layer_view]: the two tensors; the other fields are the cache's own. *)
Definition layer_view (c : CyclicKVCache) (layer : Z) : res (Tensor * Tensor) :=
  throw_if (layer_count c <=? layer) out_of_range ;;
  match k_ c !! Z.to_nat layer, v_ c !! Z.to_nat layer with
  | Some k, Some v => Ok (k, v)
  | _, _ => Throw out_of_range
  end.

Section lanes.
Context {M : Type} `{!Memory M}.

(** One layer of [copy_lane_from]: the four slices, then the two copies. *)
Definition layer_to_layer (dk dv sk sv : Tensor) (dest_lane source_lane : Z) : st M unit :=
  dk ← lift (slice dk 3 dest_lane 1);
  dv ← lift (slice dv 3 dest_lane 1);
  sk ← lift (slice sk 3 source_lane 1);
  sv ← lift (slice sv 3 source_lane 1);
  nk ← lift (bytes dk);
  do_copy (memcpy (data dk) (data sk) nk) ;;
  nv ← lift (bytes dv);
  do_copy (memcpy (data dv) (data sv) nv).

Fixpoint copy_layers (dks dvs sks svs : list Tensor) (dest_lane source_lane : Z) : st M unit :=
  match dks, dvs, sks, svs with
  | dk :: dks, dv :: dvs, sk :: sks, sv :: svs =>
      layer_to_layer dk dv sk sv dest_lane source_lane ;;
      copy_layers dks dvs sks svs dest_lane source_lane
  | _, _, _, _ => mret tt
  end.

(** [copy_lane_from(source, source_lane, dest_lane)] *)
Definition copy_lane_from (c source : CyclicKVCache) (source_lane dest_lane : Z) : st M unit :=
  st_throw_if (negb (layer_count source =? layer_count c) || negb (capacity_ source =? capacity_ c)
               || negb (padded_capacity_ source =? padded_capacity_ c)
               || negb (num_kv_heads_ source =? num_kv_heads_ c)
               || negb (head_dim_ source =? head_dim_ c)) invalid_argument ;;
  st_throw_if ((source_lane <? 0) || (lane_capacity_ source <=? source_lane) || (dest_lane <? 0)
               || (lane_capacity_ c <=? dest_lane)) out_of_range ;;
  copy_layers (k_ c) (v_ c) (k_ source) (v_ source) dest_lane source_lane.

(** The same-lane overload. *)
Definition copy_same_lane_from (c source : CyclicKVCache) (lane : Z) : st M unit :=
  st_throw_if (negb (lane_capacity_ source =? lane_capacity_ c)) invalid_argument ;;
  copy_lane_from c source lane lane.

Definition lane_host_bytes (c : CyclicKVCache) : res Z :=
  match k_ c, v_ c with
  | k :: _, v :: _ =>
      k ← slice k 3 0 1; v ← slice v 3 0 1; a ← bytes k; b ← bytes v;
      Ok (wrap64 (layer_count c * wrap64 (a + b)))
  | _, _ => Ok 0
  end.

(** Save or restore one layer's lane; returns the advanced host pointer. *)
Definition layer_to_host (k v : Tensor) (lane out : Z) : st M Z :=
  sk ← lift (slice k 3 lane 1);
  sv ← lift (slice v 3 lane 1);
  nk ← lift (bytes sk);
  do_copy (memcpy out (data sk) nk) ;;
  nv ← lift (bytes sv);
  do_copy (memcpy (out + nk) (data sv) nv) ;;
  mret (out + nk + nv).

Definition layer_from_host (k v : Tensor) (lane inp : Z) : st M Z :=
  dk ← lift (slice k 3 lane 1);
  dv ← lift (slice v 3 lane 1);
  nk ← lift (bytes dk);
  do_copy (memcpy (data dk) inp nk) ;;
  nv ← lift (bytes dv);
  do_copy (memcpy (data dv) (inp + nk) nv) ;;
  mret (inp + nk + nv).

Fixpoint host_layers (one : Tensor -> Tensor -> Z -> Z -> st M Z) (ks vs : list Tensor) (lane p : Z)
    : st M unit :=
  match ks, vs with
  | k :: ks, v :: vs =>
      p ← one k v lane p;
      host_layers one ks vs lane p
  | _, _ => mret tt
  end.

(** [p == nullptr && lane_host_bytes() != 0] *)
Definition null_image (c : CyclicKVCache) (p : Z) : res bool :=
  if p =? 0 then n ← lane_host_bytes c; Ok (negb (n =? 0)) else Ok false.

Definition copy_lane_to_host (c : CyclicKVCache) (lane dst : Z) : st M unit :=
  st_throw_if ((lane <? 0) || (lane_capacity_ c <=? lane)) out_of_range ;;
  bad ← lift (null_image c dst);
  st_throw_if bad invalid_argument ;;
  host_layers layer_to_host (k_ c) (v_ c) lane dst.

Definition copy_lane_from_host (c : CyclicKVCache) (src lane : Z) : st M unit :=
  st_throw_if ((lane <? 0) || (lane_capacity_ c <=? lane)) out_of_range ;;
  bad ← lift (null_image c src);
  st_throw_if bad invalid_argument ;;
  host_layers layer_from_host (k_ c) (v_ c) lane src.

(** ** Lanes are pages *)
Fixpoint interleave (ks vs : list Tensor) : list Tensor :=
  match ks, vs with
  | k :: ks, v :: vs => k :: v :: interleave ks vs
  | _, _ => []
  end.

Lemma lane_slice t lane :
  plane_ok t -> 0 < data t -> 0 <= lane < v3 (ne t) -> plane_size t <= i64_max ->
  exists s, slice t 3 lane 1 = Ok s /\ data s = data t + lane * v3 (nb t) /\ bytes s = Ok (v3 (nb t)).
Proof.
  intros Hok Hd Hl Hm. destruct (plane_strides t Hok) as (H2 & H3 & Hs & ? & ?).
  destruct Hok as ((P0 & P1 & P2 & P3) & Hnb & _).
  unfold slice, throw_if. change (vget (ne t) 3) with (v3 (ne t)). change (vget (nb t) 3) with (v3 (nb t)).
  replace ((3 <? 0) || (4 <=? 3)) with false by lia.
  replace ((lane <? 0) || (1 <=? 0) || (v3 (ne t) <? lane) || (v3 (ne t) - lane <? 1)) with false by lia.
  cbn [mbind res_bind]. rewrite (proj2 (checked_mul_i64_Ok lane (v3 (nb t)) _)) by (repeat split; [lia|nia|nia]).
  cbn [mbind res_bind]. eexists. split; [done|]. cbn [data].
  replace (data t =? 0) with false by lia. split; [done|].
  unfold bytes, numel. cbn [ne vset dtype]. change (vset (ne t) 3 1) with (Vec4 (v0 (ne t)) (v1 (ne t)) (v2 (ne t)) 1).
  assert (v3 (nb t) = v0 (ne t) * v1 (ne t) * v2 (ne t) * dtype_size (dtype t)) as E
    by (rewrite Hnb; unfold packed; simpl; lia).
  pose proof (dtype_size_pos (dtype t)).
  assert (v3 (nb t) <= plane_size t) by nia.
  set (n := v0 (ne t) * v1 (ne t) * v2 (ne t)) in *. assert (0 < n) by (subst n; nia).
  rewrite (proj2 (shape_numel_Ok _ n)).
  2: { assert (v0 (ne t) <= v0 (ne t) * v1 (ne t) <= n) by (subst n; nia).
       unfold positive, volume. cbn [v0 v1 v2 v3]. rewrite Z.mul_1_r. fold n.
       assert (n <= i64_max) by nia. split_and!; lia. }
  cbn [mbind res_bind]. unfold throw_if.
  replace ((n <? 0) || (size_max <? n)) with false by (unfold i64_max, size_max in *; nia).
  replace (negb (dtype_size (dtype t) =? 0) && (size_max / dtype_size (dtype t) <? n)) with false.
  2: { symmetry. apply andb_false_iff. right. apply Z.ltb_ge, Z.div_le_lower_bound; [lia|].
       unfold i64_max, size_max in *. lia. }
  cbn [mbind res_bind]. f_equal. lia.
Qed.

(** Lane [lane] of a bound tensor whose byte offsets fit [int64_t]. *)
Definition lane_ok (lane : Z) (t : Tensor) : Prop :=
  plane_ok t /\ 0 < data t /\ 0 <= lane < v3 (ne t) /\ plane_size t <= i64_max.

#[export] Instance lane_ok_dec lane t : Decision (lane_ok lane t).
Proof. unfold lane_ok. apply _. Defined.

Ltac lane_slices :=
  repeat match goal with
  | H : lane_ok ?lane ?t |- context [slice ?t 3 ?lane 1] =>
      let s := fresh "s" in let E := fresh "E" in let Hd := fresh "Hd" in let Hb := fresh "Hb" in
      destruct H as (H1 & H2 & H3 & H4);
      destruct (lane_slice t lane H1 H2 H3 H4) as (s & E & Hd & Hb); rewrite E; clear E H1 H2 H3 H4
  end.

Lemma layer_to_host_step k v lane out m :
  lane_ok lane k -> lane_ok lane v ->
  layer_to_host k v lane out m =
  (Ok (out + v3 (nb k) + v3 (nb v)),
   memcpy (out + v3 (nb k)) (data v + lane * v3 (nb v)) (v3 (nb v))
     (memcpy out (data k + lane * v3 (nb k)) (v3 (nb k)) m)).
Proof.
  intros Hk Hv. unfold layer_to_host. lane_slices.
  unfold mbind, st_bind, lift, do_copy, mret, st_ret. by rewrite Hb0, Hb, Hd, Hd0.
Qed.

Lemma layer_from_host_step k v lane inp m :
  lane_ok lane k -> lane_ok lane v ->
  layer_from_host k v lane inp m =
  (Ok (inp + v3 (nb k) + v3 (nb v)),
   memcpy (data v + lane * v3 (nb v)) (inp + v3 (nb k)) (v3 (nb v))
     (memcpy (data k + lane * v3 (nb k)) inp (v3 (nb k)) m)).
Proof.
  intros Hk Hv. unfold layer_from_host. lane_slices.
  unfold mbind, st_bind, lift, do_copy, mret, st_ret. by rewrite Hb0, Hb, Hd, Hd0.
Qed.

Lemma pack_lane_cons t lane out planes m :
  lane_ok lane t ->
  pack_planes PageMajor out [lane] (t :: planes) m =
  pack_planes PageMajor (out + v3 (nb t)) [lane] planes (memcpy out (data t + lane * v3 (nb t)) (v3 (nb t)) m).
Proof.
  intros (H1 & _). cbn [pack_planes].
  rewrite (st_bind_Ok _ _ m (page_bytes PageMajor t) m) by (unfold lift; by rewrite plane_page_bytes_Ok).
  rewrite (st_bind_Ok _ _ m tt (memcpy out (data t + lane * v3 (nb t)) (v3 (nb t)) m)) by done.
  cbn [length page_bytes]. by rewrite Z.mul_1_l.
Qed.

Lemma unpack_lane_cons t lane inp planes m :
  lane_ok lane t ->
  unpack_planes PageMajor inp 1 1 [lane] (t :: planes) m =
  unpack_planes PageMajor (inp + v3 (nb t)) 1 1 [lane] planes
    (memcpy (data t + lane * v3 (nb t)) inp (v3 (nb t)) m).
Proof.
  intros (H1 & _). cbn [unpack_planes].
  rewrite (st_bind_Ok _ _ m (page_bytes PageMajor t) m) by (unfold lift; by rewrite plane_page_bytes_Ok).
  rewrite (st_bind_Ok _ _ m tt (memcpy (data t + lane * v3 (nb t)) inp (v3 (nb t)) m)) by done.
  cbn [page_bytes]. by rewrite Z.mul_1_l.
Qed.

Lemma save_is_pack lane : forall ks vs out m,
  Forall (lane_ok lane) (interleave ks vs) ->
  host_layers layer_to_host ks vs lane out m = pack_planes PageMajor out [lane] (interleave ks vs) m.
Proof.
  induction ks as [|k ks IH]; intros [|v vs] out m Hok; [done..|].
  cbn [interleave host_layers] in *.
  apply Forall_cons in Hok as [Hk Hok]. apply Forall_cons in Hok as [Hv Hok]. rewrite !pack_lane_cons by done.
  rewrite (st_bind_Ok _ _ _ _ _ (layer_to_host_step k v lane out m ltac:(done) ltac:(done))).
  by rewrite IH.
Qed.

Lemma restore_is_unpack lane : forall ks vs inp m,
  Forall (lane_ok lane) (interleave ks vs) ->
  host_layers layer_from_host ks vs lane inp m = unpack_planes PageMajor inp 1 1 [lane] (interleave ks vs) m.
Proof.
  induction ks as [|k ks IH]; intros [|v vs] inp m Hok; [done..|].
  cbn [interleave host_layers] in *.
  apply Forall_cons in Hok as [Hk Hok]. apply Forall_cons in Hok as [Hv Hok]. rewrite !unpack_lane_cons by done.
  rewrite (st_bind_Ok _ _ _ _ _ (layer_from_host_step k v lane inp m ltac:(done) ltac:(done))).
  by rewrite IH.
Qed.

(** A cache as its constructor builds it: every K and V tensor is a bound plane of
    one common shape, with [lane_capacity] lanes; no two tensors overlap. *)
Record cache_ok (c : CyclicKVCache) (stride : Z) : Prop := MkCacheOk {
  co_layers : length (k_ c) = length (v_ c);
  co_some : k_ c <> [];
  co_planes : Forall (fun t => plane_ok t /\ 0 < data t /\ plane_size t <= i64_max /\
                               v3 (ne t) = lane_capacity_ c /\ v3 (nb t) = stride)
                     (interleave (k_ c) (v_ c));
  co_disjoint : pairwise planes_disjoint (interleave (k_ c) (v_ c));
}.

Lemma cache_lane_ok c stride lane :
  cache_ok c stride -> 0 <= lane < lane_capacity_ c -> Forall (lane_ok lane) (interleave (k_ c) (v_ c)).
Proof.
  intros Hc Hl. eapply Forall_impl; [apply (co_planes c stride Hc)|].
  intros t (H1 & H2 & H3 & H4 & _). split_and!; [done..|lia|lia|done].
Qed.

Lemma length_interleave ks : forall vs,
  length ks = length vs -> length (interleave ks vs) = (2 * length ks)%nat.
Proof. induction ks as [|k ks IH]; intros [|v vs] H; simplify_eq/=; [done|]. rewrite IH; lia. Qed.

Lemma uniform_image_size planes stride :
  Forall (fun t => v3 (nb t) = stride) planes ->
  image_size PageMajor 1 planes = Z.of_nat (length planes) * stride.
Proof.
  induction 1 as [|t planes Ht _ IH]; [done|]. cbn [image_size page_bytes length]. rewrite IH, Ht. lia.
Qed.

Lemma cache_image_size c stride :
  cache_ok c stride -> image_size PageMajor 1 (interleave (k_ c) (v_ c)) = layer_count c * (stride + stride).
Proof.
  intros Hc. rewrite (uniform_image_size _ stride).
  - rewrite length_interleave by apply Hc. unfold layer_count. lia.
  - eapply Forall_impl; [apply (co_planes c stride Hc)|]. simpl. tauto.
Qed.

Lemma lane_host_bytes_Ok c stride :
  cache_ok c stride -> 0 < lane_capacity_ c -> layer_count c * (stride + stride) <= size_max ->
  lane_host_bytes c = Ok (layer_count c * (stride + stride)) /\ 0 < stride.
Proof.
  intros Hc Hcap Hs. pose proof (co_some c stride Hc). pose proof (co_layers c stride Hc) as Hl.
  pose proof (co_planes c stride Hc) as Hp. unfold lane_host_bytes, layer_count in *.
  destruct (k_ c) as [|k ks], (v_ c) as [|v vs]; [done..|]. cbn [interleave length] in *.
  apply Forall_cons in Hp as [(K1 & K2 & K3 & K4 & K5) Hp].
  apply Forall_cons in Hp as [(V1 & V2 & V3 & V4 & V5) _].
  destruct (lane_slice k 0 K1 K2 ltac:(lia) K3) as (sk & -> & _ & Bk).
  destruct (lane_slice v 0 V1 V2 ltac:(lia) V3) as (sv & -> & _ & Bv).
  cbn [mbind res_bind]. rewrite Bk, Bv. cbn [mbind res_bind]. rewrite K5, V5.
  assert (0 < stride) by (pose proof (page_bytes_pos PageMajor k K1); simpl in *; lia).
  split; [|done]. rewrite (wrap64_id (stride + stride)), wrap64_id; [done|unfold u64; nia..].
Qed.

Lemma copy_lane_to_host_spec c stride lane dst m :
  cache_ok c stride -> 0 <= lane < lane_capacity_ c -> dst <> 0 ->
  copy_lane_to_host c lane dst m = pack_planes PageMajor dst [lane] (interleave (k_ c) (v_ c)) m.
Proof.
  intros Hc Hl Hd. unfold copy_lane_to_host. replace ((lane <? 0) || (lane_capacity_ c <=? lane)) with false by lia.
  rewrite (st_bind_Ok _ _ m tt m) by done.
  unfold null_image. replace (dst =? 0) with false by lia.
  rewrite (st_bind_Ok _ _ m false m), (st_bind_Ok _ _ m tt m) by done.
  by eapply save_is_pack, cache_lane_ok.
Qed.

Lemma copy_lane_from_host_spec c stride lane src m :
  cache_ok c stride -> 0 <= lane < lane_capacity_ c -> src <> 0 ->
  copy_lane_from_host c src lane m = unpack_planes PageMajor src 1 1 [lane] (interleave (k_ c) (v_ c)) m.
Proof.
  intros Hc Hl Hd. unfold copy_lane_from_host. replace ((lane <? 0) || (lane_capacity_ c <=? lane)) with false by lia.
  rewrite (st_bind_Ok _ _ m tt m) by done.
  unfold null_image. replace (src =? 0) with false by lia.
  rewrite (st_bind_Ok _ _ m false m), (st_bind_Ok _ _ m tt m) by done.
  by eapply restore_is_unpack, cache_lane_ok.
Qed.

(** Saving one lane of a cyclic cache to the host takes exactly
    [lane_host_bytes] bytes, and restoring the image into any lane of the cache
    puts back every byte of every layer's K and V and writes nothing else. *)
Theorem cyclic_lane_roundtrip c stride lane lane' image m :
  cache_ok c stride -> 0 <= lane < lane_capacity_ c -> 0 <= lane' < lane_capacity_ c -> image <> 0 ->
  let size := layer_count c * (stride + stride) in
  let planes := interleave (k_ c) (v_ c) in
  size <= size_max -> Forall (off_plane image size) planes ->
  lane_host_bytes c = Ok size /\
  exists m1, copy_lane_to_host c lane image m = (Ok tt, m1) /\
    (forall a, a < image \/ image + size <= a -> load m1 a = load m a) /\
    forall m2, (forall a, image <= a < image + size -> load m2 a = load m1 a) ->
    exists m3, copy_lane_from_host c image lane' m2 = (Ok tt, m3) /\
      (forall t i, t ∈ planes -> 0 <= i < stride ->
         load m3 (data t + lane' * stride + i) = load m (data t + lane * stride + i)) /\
      (forall a, (forall t i, t ∈ planes -> 0 <= i < stride -> a <> data t + lane' * stride + i) ->
         load m3 a = load m2 a).
Proof.
  intros Hc Hl Hl' Himg size planes Hs Hoff.
  destruct (lane_host_bytes_Ok c stride Hc ltac:(lia) Hs) as [Hbytes Hpos]. split; [done|].
  pose proof (cache_image_size c stride Hc) as Hsz. fold planes size in Hsz.
  pose proof (co_planes c stride Hc) as Hp. fold planes in Hp.
  assert (Forall plane_ok planes) as Hok by (eapply Forall_impl; [apply Hp|]; simpl; tauto).
  assert (forall t, t ∈ planes -> v3 (nb t) = stride) as Hnb
    by (intros t Ht; rewrite Forall_forall in Hp; apply Hp in Ht; tauto).
  assert (forall l, 0 <= l < lane_capacity_ c -> Forall (on_pages PageMajor [l]) planes) as Hon.
  { intros l Hll. eapply Forall_impl; [apply Hp|]. intros t (_ & _ & _ & E & _).
    apply Forall_singleton. simpl. lia. }
  assert (forall t l i, t ∈ planes -> 0 <= i < stride ->
            plane_at PageMajor t [l] i = data t + l * stride + i) as Hat.
  { intros t l i Ht Hi. unfold plane_at. cbn [page_bytes]. rewrite (Hnb t Ht).
    rewrite Z.div_small, Z.mod_small by lia. done. }
  destruct (pack_planes_spec PageMajor [lane] planes image m) as (m1 & E1 & Hin1 & Hout1);
    [done|by apply Hon|change (Z.of_nat (length [lane])) with 1; by rewrite Hsz|].
  cbn [length] in Hin1, Hout1. change (Z.of_nat 1) with 1 in Hin1, Hout1. rewrite Hsz in Hout1.
  exists m1. rewrite (copy_lane_to_host_spec c stride) by done. split; [done|]. split; [done|].
  intros m2 Hm2.
  destruct (unpack_planes_spec PageMajor [lane'] 1 1 planes image m2) as (m3 & E3 & Hin3 & Hout3);
    [lia|done|apply NoDup_singleton|done|by apply Hon|by rewrite Hsz|apply Hc|].
  change (take (Z.to_nat 1) [lane']) with [lane'] in Hin3, Hout3.
  exists m3. rewrite (copy_lane_from_host_spec c stride) by done. split; [done|]. split.
  - intros t i Ht Hi. destruct (image_part_exists PageMajor 1 planes t Ht) as [off Hpart].
    destruct (image_part_bounds PageMajor 1 planes t off ltac:(lia) Hok Hpart) as (_ & Ho & Hend).
    cbn [page_bytes] in *. rewrite Hsz, (Hnb t Ht) in Hend.
    rewrite <- !Hat by done. rewrite (Hin3 t off i Hpart) by (cbn [page_bytes]; rewrite (Hnb t Ht); lia).
    rewrite Hm2 by lia. apply Hin1; [done|]. cbn [length page_bytes]. rewrite (Hnb t Ht). lia.
  - intros a Ha. apply Hout3. intros t i Ht Hi. cbn [page_bytes] in Hi. rewrite (Hnb t Ht) in Hi.
    rewrite Hat by (done || lia). apply Ha; [done|lia].
Qed.
End lanes.

(** Two layers, capacity 100 (padded to 128), 1 head of dimension 2, three lanes. *)
Definition demo_cyclic : CyclicKVCache := Eval vm_compute in
  match plan_cyclic_kv_cache 2 100 1 2 3 new_builder with
  | (Ok layout, _) =>
      match make_cyclic (MkSpan 65536 8192) layout with Ok c => c | Throw _ => MkCyc [] [] 0 0 0 0 0 end
  | _ => MkCyc [] [] 0 0 0 0 0
  end.

Lemma cyclic_lane_roundtrip_witness :
  lane_host_bytes demo_cyclic = Ok 2048 /\
  exists m1, copy_lane_to_host (M := Z -> Z) demo_cyclic 0 4096 zeros = (Ok tt, m1) /\
    exists m3, copy_lane_from_host demo_cyclic 4096 2 m1 = (Ok tt, m3).
Proof.
  destruct (cyclic_lane_roundtrip (M := Z -> Z) demo_cyclic 512 0 2 4096 zeros) as (E & m1 & E1 & _ & H).
  - split; [done|done| |].
    + apply (bool_decide_unpack _). vm_compute. exact I.
    + cbn -[Z.add Z.mul planes_disjoint]. repeat split;
        repeat (apply Forall_cons; split; [unfold planes_disjoint; vm_compute; intuition congruence|]);
        by apply Forall_nil.
  - vm_compute. intuition congruence.
  - vm_compute. intuition congruence.
  - done.
  - vm_compute. congruence.
  - apply (bool_decide_unpack _). vm_compute. exact I.
  - split; [done|]. exists m1. split; [done|]. destruct (H m1) as (m3 & E3 & _); [done|]. by exists m3.
Defined.
