(* ===== verification/Admission.v ===== *)
(** * runtime/engine/admission_policy.{h,cpp}

    Which waiting request may start next to the running ones.  A head request
    that does not fit is protected: the policy freezes the running requests
    (incumbents), picks the donors whose completion makes room for the head, and
    admits smaller requests only when they leave that room alone
    (persistent backfill) or return it in time (temporal backfill). *)

From stdpp Require Import prelude list list_numbers sorting.
From Stdlib Require Import ZArith Lia.
From S2P Require Import Prelude.
#[local] Open Scope Z_scope.

Definition kMaximumConcurrency : nat := 6.

(** [struct AdmissionResources] of runtime/contract/types.h *)
Record AdmissionResources : Type := MkResources {
  active_lanes : Z;
  main_kv_pages : Z;
  backend_kv_pages : Z;
}.

Inductive BackfillClass : Type := NoBackfill | Persistent | Temporal.

#[export] Instance BackfillClass_eq_dec : EqDecision BackfillClass.
Proof. solve_decision. Defined.

Record ActiveAdmissionSnapshot : Type := MkSnapshot {
  request_id : Z;
  resources : AdmissionResources;
  remaining_work_quanta : Z;
  backfill_epoch : Z;
  backfill_class : BackfillClass;
}.

Inductive ProtectionPhase : Type := Open | Drain.

(** The id arrays with their counts, as the lists of their used prefixes. *)
Record AdmissionProtection : Type := MkProtection {
  epoch_id : Z;
  head_request_id : Z;
  head_resources : AdmissionResources;
  incumbent_ids : list Z;
  donor_ids : list Z;
  temporal_credit : Z;
  phase : ProtectionPhase;
}.

(** ** Resource vectors

    [ResourceTotals] has 64-bit components; they are sums of at most
    [kMaximumConcurrency + 2] 32-bit values, so no addition wraps. *)
Record ResourceTotals : Type := MkTotals { t_lanes : Z; t_main : Z; t_backend : Z }.

Definition no_totals : ResourceTotals := MkTotals 0 0 0.

Definition add (total : ResourceTotals) (r : AdmissionResources) : ResourceTotals :=
  MkTotals (wrap64 (t_lanes total + active_lanes r)) (wrap64 (t_main total + main_kv_pages r))
           (wrap64 (t_backend total + backend_kv_pages r)).

Definition subtract (total : ResourceTotals) (r : AdmissionResources) : res ResourceTotals :=
  throw_if ((t_lanes total <? active_lanes r) || (t_main total <? main_kv_pages r)
            || (t_backend total <? backend_kv_pages r)) logic_error ;;
  Ok (MkTotals (t_lanes total - active_lanes r) (t_main total - main_kv_pages r)
               (t_backend total - backend_kv_pages r)).

Definition fits (used : ResourceTotals) (capacity : AdmissionResources) : bool :=
  (t_lanes used <=? active_lanes capacity) && (t_main used <=? main_kv_pages capacity)
  && (t_backend used <=? backend_kv_pages capacity).

Definition contains (ids : list Z) (id : Z) : bool := bool_decide (id ∈ ids).
Definition is_incumbent (p : AdmissionProtection) (id : Z) : bool := contains (incumbent_ids p) id.
Definition is_donor (p : AdmissionProtection) (id : Z) : bool := contains (donor_ids p) id.

Definition admission_resources_fit (used capacity : AdmissionResources) : bool :=
  fits (add no_totals used) capacity.

(** ** DecodeAdmissionBurst *)
Record DecodeAdmissionBurst : Type := MkBurst {
  remaining_budget : option Z;
  admissions : Z;
}.

Definition complete_decode : st DecodeAdmissionBurst unit := put (MkBurst None 0).

Definition observe_membership (max_concurrency active_slots membership_slots : Z)
    : st DecodeAdmissionBurst unit :=
  if membership_slots =? 0 then complete_decode
  else
    st_throw_if ((active_slots <? membership_slots) || (max_concurrency <? active_slots)) logic_error ;;
    b ← get;
    match remaining_budget b with
    | None => put (MkBurst (Some (max_concurrency - active_slots)) (admissions b))
    | Some _ => mret tt
    end.

Definition allows_admission (b : DecodeAdmissionBurst) : bool :=
  match remaining_budget b with None => true | Some n => negb (n =? 0) end.

Definition consume_admission : st DecodeAdmissionBurst unit :=
  b ← get;
  match remaining_budget b with
  | None => throw logic_error
  | Some n =>
      st_throw_if (n =? 0) logic_error ;;
      put (MkBurst (Some (n - 1)) (wrap32 (admissions b + 1)))
  end.

(** ** The protected head *)

(** The comparator of [std::sort]: by remaining work, then by request id. *)
Definition completes_before (a b : ActiveAdmissionSnapshot) : Prop :=
  remaining_work_quanta a < remaining_work_quanta b \/
  remaining_work_quanta a = remaining_work_quanta b /\ request_id a <= request_id b.

#[export] Instance completes_before_dec a b : Decision (completes_before a b).
Proof. unfold completes_before. apply _. Defined.

(** The first loop: validates the incumbents and sums their resources. *)
Fixpoint freeze_incumbents (survivors : ResourceTotals) (active : list ActiveAdmissionSnapshot)
    : res ResourceTotals :=
  match active with
  | [] => Ok survivors
  | a :: active =>
      throw_if ((request_id a =? 0) || (remaining_work_quanta a =? 0)) invalid_argument ;;
      freeze_incumbents (add survivors (resources a)) active
  end.

(** The second loop, over the sorted incumbents: release donors until the head
    fits.  Returns the donors in order and the last one's remaining work. *)
Fixpoint release_donors (survivors : ResourceTotals) (capacity : AdmissionResources)
    (sorted : list ActiveAdmissionSnapshot) : res (list Z * Z) :=
  match sorted with
  | [] => Throw logic_error
  | donor :: sorted =>
      survivors ← subtract survivors (resources donor);
      if fits survivors capacity then Ok ([request_id donor], remaining_work_quanta donor)
      else
        rest ← release_donors survivors capacity sorted;
        Ok (request_id donor :: fst rest, snd rest)
  end.

Definition make_admission_protection (epoch head_id : Z) (head : AdmissionResources)
    (active : list ActiveAdmissionSnapshot) (capacity : AdmissionResources) : res AdmissionProtection :=
  throw_if ((epoch =? 0) || (head_id =? 0) || bool_decide (active = [])
            || (kMaximumConcurrency <? length active)%nat || (active_lanes head =? 0)
            || negb (admission_resources_fit head capacity)) invalid_argument ;;
  survivors ← freeze_incumbents no_totals active;
  let survivors := add survivors head in
  throw_if (fits survivors capacity) invalid_argument ;;
  donors ← release_donors survivors capacity (merge_sort completes_before active);
  Ok (MkProtection epoch head_id head (request_id <$> active) (fst donors) (snd donors) Open).

(** The requests that still hold resources once the donors are gone. *)
Definition counts_persistent (p : AdmissionProtection) (r : ActiveAdmissionSnapshot) : bool :=
  if is_incumbent p (request_id r) then negb (is_donor p (request_id r))
  else (backfill_epoch r =? epoch_id p) && bool_decide (backfill_class r = Persistent).

Definition persistent_backfill_is_safe (p : AdmissionProtection) (active : list ActiveAdmissionSnapshot)
    (candidate capacity : AdmissionResources) : bool :=
  let future := foldl (fun total r => if counts_persistent p r then add total (resources r) else total)
                      (add no_totals (head_resources p)) active in
  fits (add future candidate) capacity.

Definition protection_frontier_distance (p : AdmissionProtection) (active : list ActiveAdmissionSnapshot)
    : Z :=
  foldl (fun distance r =>
    if is_donor p (request_id r) then Z.max distance (remaining_work_quanta r) else distance) 0 active.

Definition counts_without_temporal (p : AdmissionProtection) (r : ActiveAdmissionSnapshot) : bool :=
  is_incumbent p (request_id r) || negb (backfill_epoch r =? epoch_id p)
  || negb (bool_decide (backfill_class r = Temporal)).

Definition protected_head_safe_without_temporal (p : AdmissionProtection)
    (active : list ActiveAdmissionSnapshot) (capacity : AdmissionResources) : bool :=
  fits (foldl (fun used r => if counts_without_temporal p r then add used (resources r) else used)
              (add no_totals (head_resources p)) active) capacity.

(** ** Exact totals *)
Definition res_u32 (r : AdmissionResources) : Prop :=
  u32 (active_lanes r) /\ u32 (main_kv_pages r) /\ u32 (backend_kv_pages r).

Definition vplus (t : ResourceTotals) (r : AdmissionResources) : ResourceTotals :=
  MkTotals (t_lanes t + active_lanes r) (t_main t + main_kv_pages r) (t_backend t + backend_kv_pages r).

(** The unwrapped total of a list of requests on top of [t]. *)
Definition load_of (t : ResourceTotals) (l : list AdmissionResources) : ResourceTotals := foldl vplus t l.

Definition bounded (n : nat) (t : ResourceTotals) : Prop :=
  0 <= t_lanes t <= Z.of_nat n * u32_max /\ 0 <= t_main t <= Z.of_nat n * u32_max /\
  0 <= t_backend t <= Z.of_nat n * u32_max.

Lemma add_exact n t r :
  bounded n t -> res_u32 r -> Z.of_nat n < 2 ^ 31 -> add t r = vplus t r /\ bounded (S n) (vplus t r).
Proof.
  unfold bounded, res_u32, add, vplus, u32, u32_max. simpl. intros (? & ? & ?) (? & ? & ?) Hn.
  rewrite !wrap64_id by width_lia. split; [done|]. lia.
Qed.

Lemma load_of_cons t r l : load_of t (r :: l) = load_of (vplus t r) l.
Proof. done. Qed.

Lemma load_of_exact l : forall n t,
  bounded n t -> Forall res_u32 l -> Z.of_nat (n + length l) < 2 ^ 31 ->
  foldl add t l = load_of t l /\ bounded (n + length l) (load_of t l).
Proof.
  induction l as [|r l IH]; intros n t Hb Hl Hn; simpl; [rewrite Nat.add_0_r; done|].
  apply Forall_cons in Hl as [Hr Hl]. simpl in Hn. destruct (add_exact n t r) as [-> Hb']; [done|done|lia|].
  destruct (IH (S n) (vplus t r)) as [-> H]; [done|done|lia|].
  split; [done|]. by replace (n + S (length l))%nat with (S n + length l)%nat by lia.
Qed.

Lemma load_of_t l : forall t,
  t_lanes (load_of t l) = t_lanes t + t_lanes (load_of no_totals l) /\
  t_main (load_of t l) = t_main t + t_main (load_of no_totals l) /\
  t_backend (load_of t l) = t_backend t + t_backend (load_of no_totals l).
Proof.
  induction l as [|r l IH]; intros t; [simpl; lia|]. rewrite !load_of_cons.
  destruct (IH (vplus t r)) as (-> & -> & ->), (IH (vplus no_totals r)) as (-> & -> & ->). simpl. lia.
Qed.

Lemma load_of_Permutation t l k : l ≡ₚ k -> load_of t l = load_of t k.
Proof.
  intros H. revert t. induction H as [|x l k _ IH|x y l|l k j _ IH1 _ IH2]; intros t.
  - done.
  - apply IH.
  - rewrite !load_of_cons. f_equal. unfold vplus. simpl. f_equal; lia.
  - by rewrite IH1.
Qed.

(** A conditional sum is the sum of a filtered list. *)
Lemma foldl_filter {A B} (c : A -> bool) (f : B -> A -> B) (l : list A) : forall b,
  foldl (fun b x => if c x then f b x else b) b l = foldl f b (filter (fun x => c x = true) l).
Proof.
  induction l as [|x l IH]; intros b; [done|]. simpl. rewrite filter_cons.
  destruct (c x); [rewrite decide_True by done|rewrite decide_False by done]; apply IH.
Qed.

Lemma foldl_add_resources t l :
  foldl (fun t (r : ActiveAdmissionSnapshot) => add t (resources r)) t l = foldl add t (resources <$> l).
Proof. revert t. induction l as [|x l IH]; intros t; [done|]. apply IH. Qed.

(** ** Choosing donors *)
Lemma freeze_incumbents_Ok active : forall t,
  match freeze_incumbents t active with
  | Ok s => s = foldl add t (resources <$> active) /\
            Forall (fun a => request_id a <> 0 /\ remaining_work_quanta a <> 0) active
  | Throw e => e = invalid_argument
  end.
Proof.
  induction active as [|a active IH]; intros t; simpl; [split; [done|constructor]|].
  unfold throw_if. destruct (Z.eqb_spec (request_id a) 0), (Z.eqb_spec (remaining_work_quanta a) 0);
    simpl; try done.
  specialize (IH (add t (resources a))). destruct (freeze_incumbents _ _); [|done].
  destruct IH as [-> IH]. split; [done|]. by constructor.
Qed.

Definition nonneg (t : ResourceTotals) : Prop := 0 <= t_lanes t /\ 0 <= t_main t /\ 0 <= t_backend t.

Lemma load_nonneg t l : nonneg t -> Forall res_u32 l -> nonneg (load_of t l).
Proof.
  intros Ht Hl. revert t Ht. induction Hl as [|r l (? & ? & ?) _ IH]; intros t Ht; [done|].
  rewrite load_of_cons. apply IH. unfold nonneg in *. simpl. width_lia.
Qed.

Lemma fits_mono used l capacity :
  Forall res_u32 l -> fits (load_of used l) capacity = true -> fits used capacity = true.
Proof.
  intros Hl. unfold fits. destruct (load_of_t l used) as (-> & -> & ->).
  pose proof (load_nonneg no_totals l ltac:(unfold nonneg; simpl; lia) Hl) as (? & ? & ?). lia.
Qed.

(** The donor loop on [base] plus the sorted incumbents: it stops at the first
    prefix whose release makes [base] and the rest fit, and it always stops when
    [base] alone fits. *)
Lemma release_donors_spec base capacity : fits base capacity = true ->
  nonneg base -> forall sorted, Forall res_u32 (resources <$> sorted) -> sorted <> [] ->
  exists k d, (0 < k <= length sorted)%nat /\ sorted !! (k - 1)%nat = Some d /\
    release_donors (load_of base (resources <$> sorted)) capacity sorted =
      Ok (request_id <$> take k sorted, remaining_work_quanta d) /\
    fits (load_of base (resources <$> drop k sorted)) capacity = true /\
    (forall j, (0 < j < k)%nat -> fits (load_of base (resources <$> drop j sorted)) capacity = false).
Proof.
  intros Hfit Hnn. induction sorted as [|a sorted IH]; intros Hu Hne; [done|].
  rewrite fmap_cons in *. apply Forall_cons in Hu as [Ha Hu]. cbn [release_donors].
  assert (subtract (load_of base (resources a :: (resources <$> sorted))) (resources a) =
          Ok (load_of base (resources <$> sorted))) as ->.
  { rewrite load_of_cons. unfold subtract, throw_if.
    destruct (load_of_t (resources <$> sorted) (vplus base (resources a))) as (E1 & E2 & E3).
    destruct (load_of_t (resources <$> sorted) base) as (E4 & E5 & E6).
    pose proof (load_nonneg base _ Hnn Hu) as (? & ? & ?).
    rewrite E1, E2, E3. simpl in *.
    replace (_ || _) with false by lia. simpl. f_equal.
    destruct (load_of base (resources <$> sorted)) as [x y z]; simpl in *. f_equal; lia. }
  simpl. destruct (fits (load_of base (resources <$> sorted)) capacity) eqn:E.
  - exists 1%nat, a. split_and!; try done; simpl; try lia. 
  - assert (sorted <> []) as Hne' by (intros ->; simpl in E; congruence).
    destruct (IH Hu Hne') as (k & d & Hk & Hd & Er & Hf & Hmin).
    exists (S k), d. rewrite Er. split_and!; try done; simpl; try lia.
    + replace (k - 0)%nat with (S (k - 1)) by lia. done.
    + intros [|[|j]] Hj; [lia|done|]. simpl. apply Hmin. lia.
Qed.

Definition plausible (active : list ActiveAdmissionSnapshot) : Prop :=
  Forall (fun a => res_u32 (resources a)) active /\ NoDup (request_id <$> active).

Lemma plausible_resources active : plausible active -> Forall res_u32 (resources <$> active).
Proof. intros [H _]. by apply Forall_fmap. Qed.

#[export] Instance completes_before_total : Total completes_before.
Proof. intros a b. unfold completes_before. lia. Qed.
#[export] Instance completes_before_trans : Transitive completes_before.
Proof. intros a b c. unfold completes_before. lia. Qed.

(** The two totals the function works with, without wrap-around. *)
Lemma frozen_totals head active :
  res_u32 head -> plausible active -> (length active <= kMaximumConcurrency)%nat ->
  add (foldl add no_totals (resources <$> active)) head = load_of (vplus no_totals head) (resources <$> active).
Proof.
  intros Hh Ha Hn. pose proof (plausible_resources _ Ha) as Hu. unfold kMaximumConcurrency in Hn.
  destruct (load_of_exact (resources <$> active) 0 no_totals) as [-> Hb];
    [by vm_compute|done|rewrite length_fmap; lia|].
  destruct (add_exact _ _ head Hb Hh) as [-> _]; [rewrite length_fmap; lia|].
  destruct (load_of_t (resources <$> active) (vplus no_totals head)) as (E1 & E2 & E3).
  transitivity (MkTotals (t_lanes (load_of (vplus no_totals head) (resources <$> active)))
    (t_main (load_of (vplus no_totals head) (resources <$> active)))
    (t_backend (load_of (vplus no_totals head) (resources <$> active)))).
  - rewrite E1, E2, E3. unfold vplus. simpl. f_equal; lia.
  - by destruct (load_of (vplus no_totals head) _).
Qed.

(** C39: the donor frontier.  When [make_admission_protection] accepts, its donors
    are the incumbents that finish first, no more of them than needed: the head
    and the remaining incumbents fit once the donors are gone, and would not fit
    had the last donor stayed; the temporal credit is the last donor's remaining
    work, which bounds every donor's.  Its only failure is [invalid_argument]: the
    resource subtraction never underflows and a frontier always exists. *)
Theorem admission_protection_frontier epoch id head active capacity :
  res_u32 head -> plausible active ->
  match make_admission_protection epoch id head active capacity with
  | Throw e => e = invalid_argument
  | Ok p =>
      exists sorted k d, sorted ≡ₚ active /\ StronglySorted completes_before sorted /\
        (0 < k <= length active)%nat /\ sorted !! (k - 1)%nat = Some d /\
        incumbent_ids p = request_id <$> active /\ donor_ids p = request_id <$> take k sorted /\
        temporal_credit p = remaining_work_quanta d /\
        Forall (fun a => remaining_work_quanta a <= temporal_credit p) (take k sorted) /\
        fits (load_of (vplus no_totals head) (resources <$> drop k sorted)) capacity = true /\
        fits (load_of (vplus no_totals head) (resources <$> drop (k - 1) sorted)) capacity = false
  end.
Proof.
  intros Hh Ha. unfold make_admission_protection, throw_if at 1.
  destruct (_ || negb _) eqn:Eg; simpl; [done|]. guards. rewrite bool_decide_eq_false in *.
  pose proof (freeze_incumbents_Ok active no_totals) as Hf.
  destruct (freeze_incumbents no_totals active) as [s|e]; simpl; [|done]. destruct Hf as [-> _].
  assert (length active <= kMaximumConcurrency)%nat as Hlen by (apply Nat.ltb_ge; done).
  rewrite frozen_totals by done. unfold throw_if.
  destruct (fits (load_of _ _) capacity) eqn:Eblock; simpl; [done|].
  set (sorted := merge_sort completes_before active).
  assert (sorted ≡ₚ active) as Hp by apply merge_sort_Permutation.
  assert (StronglySorted completes_before sorted) as Hs by (apply (StronglySorted_merge_sort _)).
  rewrite <- (load_of_Permutation _ (resources <$> sorted)) in * by (by rewrite Hp).
  pose proof (plausible_resources _ Ha) as Hu. rewrite <- Hp in Hu.
  destruct (release_donors_spec (vplus no_totals head) capacity) with (sorted := sorted)
    as (k & d & Hk & Hd & -> & Hfit & Hmin); try done.
  { unfold admission_resources_fit in *. destruct (add_exact 0 no_totals head) as [E _]; [by vm_compute|done|lia|].
    by rewrite E in *. }
  { unfold nonneg, vplus. destruct Hh as (? & ? & ?). simpl. width_lia. }
  { intros E. rewrite E in Hp. by apply Permutation_nil_l in Hp. }
  simpl. exists sorted, k, d. rewrite Hp in Hk. split_and!; try done; try lia.
  - apply Forall_forall. intros a Hin. apply list_elem_of_lookup_1 in Hin as [i Hi].
    apply lookup_take_Some in Hi as [Hi Hlt]. destruct (decide (i = k - 1)%nat) as [->|Hne].
    + rewrite Hd in Hi. injection Hi as <-. done.
    + assert (completes_before a d) as Hc by (eapply (sorted_lookup_lt _ sorted i (k - 1)); eauto; lia).
      unfold completes_before in Hc. lia.
  - destruct (decide (k = 1)%nat) as [->|]; [done|]. apply Hmin. lia.
Qed.

(** ** Backfill *)
Lemma filter_count_le {A} (P : A -> Prop) `{!forall x, Decision (P x)} l :
  (length (filter P l) <= length l)%nat.
Proof. apply length_filter. Qed.

(** What remains of a current-epoch population once the donors left and the
    temporal borrowers are set aside is what the persistent test counts. *)
Lemma persistent_population p active :
  Forall (fun r => is_incumbent p (request_id r) = false ->
    backfill_epoch r = epoch_id p /\ backfill_class r <> NoBackfill) active ->
  Forall (fun r => is_donor p (request_id r) = true -> is_incumbent p (request_id r) = true) active ->
  filter (fun r => counts_without_temporal p r = true)
    (filter (fun r => is_donor p (request_id r) = false) active) =
  filter (fun r => counts_persistent p r = true) active.
Proof.
  intros H1 H2. induction active as [|r active IH]; [done|].
  apply Forall_cons in H1 as [Hr H1]. apply Forall_cons in H2 as [Hd H2].
  assert (counts_persistent p r = true <->
          is_donor p (request_id r) = false /\ counts_without_temporal p r = true) as Hiff.
  { unfold counts_persistent, counts_without_temporal.
    destruct (is_incumbent p (request_id r)) eqn:Ei; simpl.
    - destruct (is_donor p (request_id r)); simpl; intuition congruence.
    - destruct (is_donor p (request_id r)); [specialize (Hd eq_refl); congruence|].
      destruct (Hr eq_refl) as [-> Hc]. rewrite Z.eqb_refl. simpl.
      destruct (backfill_class r); [done|by split|by split; [|intros [_ ?]]]. }
  rewrite !(filter_cons _ r). case_decide; [rewrite filter_cons; case_decide|]; case_decide;
    rewrite ?IH by done; try done; exfalso; tauto.
Qed.

(** Persistent backfill protects the head.  If the policy admits a candidate
    as persistent backfill, then once the donors have finished, the head fits
    next to every request still running, the candidate included, without the
    temporal borrowers. *)
Theorem persistent_backfill_keeps_frontier p active c capacity :
  res_u32 (head_resources p) -> res_u32 (resources c) ->
  Forall (fun r => res_u32 (resources r)) active -> (length active <= kMaximumConcurrency)%nat ->
  Forall (fun r => is_incumbent p (request_id r) = false ->
    backfill_epoch r = epoch_id p /\ backfill_class r <> NoBackfill) active ->
  Forall (fun r => is_donor p (request_id r) = true -> is_incumbent p (request_id r) = true) active ->
  persistent_backfill_is_safe p active (resources c) capacity = true ->
  protected_head_safe_without_temporal p
    (filter (fun r => is_donor p (request_id r) = false) active ++ [c]) capacity = true.
Proof.
  intros Hh Hc Ha Hlen H1 H2 Hsafe. unfold kMaximumConcurrency in Hlen.
  unfold persistent_backfill_is_safe, protected_head_safe_without_temporal in *.
  set (rest := filter (fun r => counts_persistent p r = true) active) in *.
  assert (length rest <= length active)%nat as Hrest by apply filter_count_le.
  assert (Forall res_u32 (resources <$> rest)) as Hu.
  { apply Forall_fmap, Forall_forall. intros r [_ Hr]%list_elem_of_filter. rewrite Forall_forall in Ha. by apply Ha. }
  destruct (add_exact 0 no_totals (head_resources p)) as [Eh Hb]; [by vm_compute|done|lia|].
  destruct (load_of_exact (resources <$> rest) 1 (vplus no_totals (head_resources p))) as [El Hbl];
    [done|done|rewrite length_fmap; lia|].
  destruct (add_exact _ _ (resources c) Hbl Hc) as [Ec _]; [rewrite length_fmap; lia|].
  rewrite (foldl_filter _ (fun t (r : ActiveAdmissionSnapshot) => add t (resources r))),
    foldl_add_resources in Hsafe. fold rest in Hsafe. rewrite Eh, El, Ec in Hsafe.
  rewrite (foldl_filter _ (fun t (r : ActiveAdmissionSnapshot) => add t (resources r))),
    foldl_add_resources, Eh.
  rewrite filter_app, fmap_app, foldl_app, persistent_population by done. fold rest. rewrite El.
  rewrite filter_cons. case_decide; simpl; [by rewrite Ec|].
  apply (fits_mono _ [resources c]); [by constructor|done].
Qed.

(** ** The decode burst *)
Inductive burst_op : Type :=
| Observe (max_concurrency active_slots membership_slots : Z)
| Consume
| Complete.

Definition burst_exec (o : burst_op) : st DecodeAdmissionBurst unit :=
  match o with
  | Observe m a s => observe_membership m a s
  | Consume => consume_admission
  | Complete => complete_decode
  end.

Definition burst_callable (o : burst_op) : Prop :=
  match o with Observe m a s => u32 m /\ u32 a /\ u32 s | _ => True end.

(** [frozen] is the budget the running burst started with. *)
Inductive burst_reach : DecodeAdmissionBurst -> option Z -> Prop :=
| burst_init : burst_reach (MkBurst None 0) None
| burst_step b frozen o r b' :
    burst_reach b frozen -> burst_callable o -> burst_exec o b = (r, b') ->
    burst_reach b' (match remaining_budget b' with
                    | None => None
                    | Some n => match remaining_budget b with None => Some n | Some _ => frozen end
                    end).

Lemma burst_accounting b frozen :
  burst_reach b frozen ->
  match remaining_budget b, frozen with
  | None, None => admissions b = 0
  | Some n, Some f => 0 <= n /\ n + admissions b = f /\ 0 <= admissions b /\ f <= u32_max
  | _, _ => False
  end.
Proof.
  induction 1 as [|b frozen o r b' _ IH Hc He]; [done|].
  destruct b as [[n|] adm], frozen as [f|]; simpl in *; try done; destruct o as [m a s| |];
    unfold burst_exec, observe_membership, consume_admission, complete_decode, st_throw_if, throw_if,
      lift, get, put, throw, mbind, st_bind, mret, st_ret in He; simpl in He, Hc.
  all: repeat match type of He with
    | context [if ?x then _ else _] => destruct x eqn:?; simpl in He
    end; injection He as <- <-; simpl; try done.
  all: guards; try (destruct Hc as (? & ? & ?)).
  all: rewrite ?wrap32_id by width_lia; try width_lia.
Qed.

(** Between two decode rounds no more requests are admitted than there were
    free lanes when the decode membership formed: the admissions so far and the
    budget left always add up to that frozen number, and an admission is refused
    exactly when the budget is spent. *)
Theorem burst_admissions_bounded b f :
  burst_reach b (Some f) ->
  0 <= admissions b <= f /\
  (allows_admission b = true <-> admissions b < f) /\
  (allows_admission b = false -> fst (consume_admission b) = Throw logic_error).
Proof.
  intros H. apply burst_accounting in H. unfold allows_admission, consume_admission.
  destruct b as [[n|] adm]; simpl in *; [|done].
  unfold mbind, st_bind, get, st_throw_if, throw_if, lift. simpl.
  destruct (Z.eqb_spec n 0); simpl; split_and!; try done; try lia.
Qed.

(** ** Witnesses *)
Definition demo_snapshot (id pages work : Z) : ActiveAdmissionSnapshot :=
  MkSnapshot id (MkResources 1 pages 0) work 0 NoBackfill.

Definition demo_active : list ActiveAdmissionSnapshot :=
  [demo_snapshot 1 10 50; demo_snapshot 2 20 5; demo_snapshot 3 30 9].

Definition demo_capacity : AdmissionResources := MkResources 4 64 0.

Definition demo_protection : AdmissionProtection :=
  MkProtection 7 9 (MkResources 1 40 0) [1; 2; 3] [2; 3] 9 Open.

Example demo_protection_made :
  make_admission_protection 7 9 (MkResources 1 40 0) demo_active demo_capacity = Ok demo_protection.
Proof. reflexivity. Qed.

Lemma res_u32_small l m b : bool_decide (u32 l /\ u32 m /\ u32 b) = true -> res_u32 (MkResources l m b).
Proof. by intros H%bool_decide_eq_true. Qed.

Lemma demo_plausible : plausible demo_active.
Proof. split; [repeat constructor; by apply res_u32_small|apply (bool_decide_unpack _); by vm_compute]. Qed.

Lemma admission_protection_frontier_witness : temporal_credit demo_protection = 9.
Proof.
  pose proof (admission_protection_frontier 7 9 (MkResources 1 40 0) demo_active demo_capacity) as H.
  rewrite demo_protection_made in H.
  destruct H as (sorted & k & d & _); [by apply res_u32_small|exact demo_plausible|].
  reflexivity.
Defined.

Lemma persistent_backfill_keeps_frontier_witness :
  protected_head_safe_without_temporal demo_protection
    (filter (fun r => is_donor demo_protection (request_id r) = false) demo_active ++
     [MkSnapshot 11 (MkResources 1 8 0) 100 7 Persistent]) demo_capacity = true.
Proof.
  apply (persistent_backfill_keeps_frontier demo_protection demo_active
           (MkSnapshot 11 (MkResources 1 8 0) 100 7 Persistent) demo_capacity).
  - by apply res_u32_small.
  - by apply res_u32_small.
  - apply demo_plausible.
  - vm_compute. lia.
  - repeat constructor; done.
  - repeat constructor; done.
  - reflexivity.
Defined.

Lemma burst_admissions_bounded_witness : 0 <= 1 <= 3.
Proof.
  apply (burst_admissions_bounded (MkBurst (Some 2) 1) 3).
  apply (burst_step (MkBurst (Some 3) 0) (Some 3) Consume (Ok tt)); [|done|reflexivity].
  apply (burst_step (MkBurst None 0) None (Observe 4 1 1) (Ok tt)); [apply burst_init|by vm_compute|reflexivity].
Defined.
