(* ===== verification/Capacity.v ===== *)
(** * runtime/engine/{kv_capacity,request_memory}.cpp, runtime/generation/generation_budget.h

    Startup sizing of the Main KV pool, the frozen transient allocation of a
    request, and the token budget of one generation. *)

From stdpp Require Import prelude list.
From Stdlib Require Import ZArith Lia.
From S2P Require Import Prelude.
From S2P Require Import Layout.
#[local] Open Scope Z_scope.

(** ** kv_capacity.cpp *)
Inductive KvCapacityMode : Type := Explicit | Automatic.

Record KvCapacityPolicy : Type := MkPolicy {
  policy_mode : KvCapacityMode;
  explicit_tokens : Z;
  automatic_headroom_bytes : Z;
}.

Record SequenceCapacityCurve : Type := MkCurve {
  main_page_tokens : Z;
  minimum_main_page_groups : Z;
  maximum_main_page_groups : Z;
  minimum_device_reservation_bytes : Z;
  bytes_per_additional_main_page_group : Z;
}.

Record KvCapacityResolution : Type := MkResolution {
  r_mode : KvCapacityMode;
  r_main_page_groups : Z;
  r_maximum_main_page_groups : Z;
  r_resolved_tokens : Z;
  r_minimum_runtime_reservation_bytes : Z;
  r_bytes_per_additional_main_page_group : Z;
  r_runtime_reservation_bytes : Z;
  r_available_after_weights_bytes : Z;
  r_automatic_headroom_bytes : Z;
  r_planned_slack_bytes : Z;
}.

Definition checked_mul (a b : Z) : res Z :=
  throw_if (negb (b =? 0) && (size_max / b <? a)) overflow_error ;; Ok (a * b).

Definition validate_curve (c : SequenceCapacityCurve) : res unit :=
  throw_if ((main_page_tokens c =? 0) || (minimum_main_page_groups c =? 0)
            || (maximum_main_page_groups c <? minimum_main_page_groups c)
            || (minimum_device_reservation_bytes c =? 0)) invalid_argument ;;
  throw_if ((minimum_main_page_groups c <? maximum_main_page_groups c)
            && (bytes_per_additional_main_page_group c =? 0)) invalid_argument.

Definition explicit_page_groups (p : KvCapacityPolicy) (c : SequenceCapacityCurve) : res Z :=
  throw_if (explicit_tokens p =? 0) invalid_argument ;;
  let pages := 1 + (explicit_tokens p - 1) / main_page_tokens c in
  throw_if (u32_max <? pages) overflow_error ;;
  Ok pages.

Definition reservation_bytes (c : SequenceCapacityCurve) (pages : Z) : res Z :=
  validate_curve c ;;
  throw_if ((pages <? minimum_main_page_groups c) || (maximum_main_page_groups c <? pages))
    invalid_argument ;;
  inc ← checked_mul (pages - minimum_main_page_groups c) (bytes_per_additional_main_page_group c);
  checked_add (minimum_device_reservation_bytes c) inc.

Definition resolved_tokens (c : SequenceCapacityCurve) (pages : Z) : res Z :=
  validate_curve c ;;
  throw_if ((pages <? minimum_main_page_groups c) || (maximum_main_page_groups c <? pages))
    invalid_argument ;;
  let tokens := wrap64 (pages * main_page_tokens c) in
  throw_if (u32_max <? tokens) overflow_error ;;
  Ok tokens.

(** The [switch]: page groups and the byte budget they must fit. *)
Definition choose_pages (p : KvCapacityPolicy) (c : SequenceCapacityCurve) (available : Z)
    : res (Z * Z) :=
  match policy_mode p with
  | Explicit =>
      throw_if (negb (automatic_headroom_bytes p =? 0)) invalid_argument ;;
      pages ← explicit_page_groups p c;
      Ok (pages, available)
  | Automatic =>
      throw_if (available <? automatic_headroom_bytes p) invalid_argument ;;
      let budget := available - automatic_headroom_bytes p in
      throw_if (budget <? minimum_device_reservation_bytes c) invalid_argument ;;
      if minimum_main_page_groups c <? maximum_main_page_groups c then
        let additional := (budget - minimum_device_reservation_bytes c)
                          / bytes_per_additional_main_page_group c in
        let candidate := wrap64 (minimum_main_page_groups c + additional) in
        Ok (Z.min candidate (maximum_main_page_groups c), budget)
      else Ok (minimum_main_page_groups c, budget)
  end.

Definition resolve_kv_capacity (p : KvCapacityPolicy) (c : SequenceCapacityCurve) (available : Z)
    : res KvCapacityResolution :=
  validate_curve c ;;
  choice ← choose_pages p c available;
  let '(pages, budget) := choice in
  reservation ← reservation_bytes c pages;
  throw_if (budget <? reservation) invalid_argument ;;
  tokens ← resolved_tokens c pages;
  Ok (MkResolution (policy_mode p) pages (maximum_main_page_groups c) tokens
        (minimum_device_reservation_bytes c) (bytes_per_additional_main_page_group c) reservation
        available (automatic_headroom_bytes p) (available - reservation)).

Definition curve_widths (c : SequenceCapacityCurve) : Prop :=
  u32 (main_page_tokens c) /\ u32 (minimum_main_page_groups c) /\ u32 (maximum_main_page_groups c) /\
  u64 (minimum_device_reservation_bytes c) /\ u64 (bytes_per_additional_main_page_group c).

Definition curve_ok (c : SequenceCapacityCurve) : Prop :=
  0 < main_page_tokens c /\ 0 < minimum_main_page_groups c <= maximum_main_page_groups c /\
  0 < minimum_device_reservation_bytes c /\
  (minimum_main_page_groups c < maximum_main_page_groups c -> 0 < bytes_per_additional_main_page_group c).

(** The affine reservation of the curve. *)
Definition affine (c : SequenceCapacityCurve) (pages : Z) : Z :=
  minimum_device_reservation_bytes c
  + (pages - minimum_main_page_groups c) * bytes_per_additional_main_page_group c.

Lemma validate_curve_Ok c : curve_widths c -> validate_curve c = Ok tt <-> curve_ok c.
Proof.
  intros (? & ? & ? & ? & ?). unfold validate_curve, curve_ok, throw_if. split.
  - destruct (_ || _) eqn:E1; simpl; [done|]. destruct (_ && _) eqn:E2; [done|]. intros _. guards.
    apply andb_false_iff in E2. split_and!; width_lia.
  - intros (? & ? & ? & Hs). replace (_ || _) with false by lia. simpl.
    replace (_ && _) with false; [done|]. symmetry. apply andb_false_iff.
    destruct (Z.ltb_spec (minimum_main_page_groups c) (maximum_main_page_groups c)); [right|by left].
    specialize (Hs ltac:(lia)). lia.
Qed.

Lemma checked_mul_Ok a b r :
  0 <= a -> 0 <= b -> checked_mul a b = Ok r <-> r = a * b /\ a * b <= size_max.
Proof.
  intros Ha Hb. unfold checked_mul, throw_if. destruct (Z.eqb_spec b 0) as [->|Hnz]; simpl.
  - rewrite Z.mul_0_r. split; [intros [= <-]; split; [done|width_lia]|by intros [-> _]].
  - destruct (Z.ltb_spec (size_max / b) a) as [Hlt|Hge]; simpl.
    + split; [done|]. intros [_ H]. pose proof (Z.div_le_lower_bound size_max b a ltac:(lia)). lia.
    + pose proof (Z.mul_div_le size_max b ltac:(lia)). split; [intros [= <-]; split; [done|nia]|by intros [-> _]].
Qed.

Lemma reservation_bytes_Ok c pages r :
  curve_widths c -> curve_ok c -> 0 <= pages ->
  reservation_bytes c pages = Ok r <->
  minimum_main_page_groups c <= pages <= maximum_main_page_groups c /\
  r = affine c pages /\ affine c pages <= size_max.
Proof.
  intros Hw Hc Hp. pose proof Hw as (? & ? & ? & ? & ?). unfold reservation_bytes.
  rewrite (proj2 (validate_curve_Ok c Hw) Hc). simpl. unfold throw_if, affine.
  destruct ((pages <? _) || (_ <? pages)) eqn:E; simpl.
  { split; [done|]. intros (? & _). lia. }
  guards. rewrite res_bind_Ok. split.
  - intros (inc & Hm & Hs). apply checked_mul_Ok in Hm as [-> ?]; [|width_lia..].
    apply checked_add_Ok in Hs as [-> ?]. lia.
  - intros (_ & -> & Hm). eexists. split.
    + apply checked_mul_Ok; [lia|width_lia|]. split; [done|]. width_lia.
    + by apply checked_add_Ok.
Qed.

(** The page count of automatic mode: as many as the budget pays for. *)
Lemma choose_pages_automatic c h available :
  curve_widths c -> curve_ok c -> 0 <= h -> 0 <= available <= i64_max ->
  match choose_pages (MkPolicy Automatic 0 h) c available with
  | Ok (n, budget) =>
      budget = available - h /\ minimum_main_page_groups c <= n <= maximum_main_page_groups c /\
      affine c n <= budget /\ (n = maximum_main_page_groups c \/ budget < affine c (n + 1))
  | Throw e => e = invalid_argument /\ available < minimum_device_reservation_bytes c + h
  end.
Proof.
  intros (? & ? & ? & ? & ?) (? & ? & ? & Hs) Hh Ha. unfold choose_pages, throw_if. simpl.
  destruct (Z.ltb_spec available h); simpl; [split; [done|lia]|].
  set (budget := available - h). set (m := minimum_device_reservation_bytes c) in *.
  destruct (Z.ltb_spec budget m); simpl; [split; [done|lia]|].
  unfold affine. fold m. destruct (Z.ltb_spec (minimum_main_page_groups c) (maximum_main_page_groups c)) as [Hlt|Hge].
  2: { split_and!; [done|lia|lia|nia|left; lia]. }
  specialize (Hs Hlt). set (stride := bytes_per_additional_main_page_group c) in *.
  set (lo := minimum_main_page_groups c) in *. set (hi := maximum_main_page_groups c) in *.
  set (k := (budget - m) / stride).
  assert (0 <= k) as Hk by (apply Z.div_pos; lia).
  assert (k * stride <= budget - m) as Hk1 by (pose proof (Z.mul_div_le (budget - m) stride Hs); subst k; lia).
  assert (budget - m < (k + 1) * stride) as Hk2.
  { pose proof (Z.mul_succ_div_gt (budget - m) stride Hs). subst k. lia. }
  assert (k <= budget - m) by nia.
  rewrite wrap64_id by (unfold budget in *; width_lia).
  split_and!; [done|lia|lia| |].
  - destruct (Z.min_spec (lo + k) hi) as [[? ->]|[? ->]]; nia.
  - destruct (Z.min_spec (lo + k) hi) as [[? ->]|[? ->]]; [right; nia|by left].
Qed.

Lemma resolved_tokens_Ok c n :
  curve_widths c -> curve_ok c -> minimum_main_page_groups c <= n <= maximum_main_page_groups c ->
  resolved_tokens c n =
  if u32_max <? n * main_page_tokens c then Throw overflow_error else Ok (n * main_page_tokens c).
Proof.
  intros Hw Hc Hn. pose proof Hw as (? & ? & ? & ? & ?). unfold resolved_tokens.
  rewrite (proj2 (validate_curve_Ok c Hw) Hc). simpl. unfold throw_if.
  replace ((n <? _) || (_ <? n)) with false by lia. simpl.
  rewrite wrap64_id by (unfold u64, u32, u32_max, size_max in *; nia). by destruct (_ <? _).
Qed.

(** Automatic sizing takes the most.  With headroom [h], a successful
    resolution reserves the curve's bytes for its page count, leaves at least the
    headroom free, and one more page group would either exceed the target's
    maximum or eat into the headroom; it fails with [invalid_argument] only if
    the smallest configuration does not fit or the curve is malformed. *)
Theorem automatic_capacity_maximal c h available :
  curve_widths c -> 0 <= h -> 0 <= available <= i64_max ->
  match resolve_kv_capacity (MkPolicy Automatic 0 h) c available with
  | Ok r =>
      let n := r_main_page_groups r in
      minimum_main_page_groups c <= n <= maximum_main_page_groups c /\
      r_runtime_reservation_bytes r = affine c n /\ affine c n + h <= available /\
      r_planned_slack_bytes r = available - affine c n /\
      r_resolved_tokens r = n * main_page_tokens c /\
      (n = maximum_main_page_groups c \/ available < affine c (n + 1) + h)
  | Throw e =>
      e = invalid_argument /\ (~ curve_ok c \/ available < minimum_device_reservation_bytes c + h) \/
      e = overflow_error /\ exists n, affine c n + h <= available /\ u32_max < n * main_page_tokens c
  end.
Proof.
  intros Hw Hh Ha. unfold resolve_kv_capacity. pose proof (validate_curve_Ok c Hw) as Hv.
  destruct (validate_curve c) as [[]|e] eqn:Ev; simpl.
  2: { left. unfold validate_curve, throw_if in Ev. split; [|left; by rewrite <- Hv].
       destruct (_ || _); simpl in Ev; [congruence|]. destruct (_ && _); simpl in Ev; congruence. }
  assert (curve_ok c) as Hc by (by apply Hv).
  pose proof (choose_pages_automatic c h available Hw Hc Hh Ha) as Hch.
  destruct (choose_pages _ c available) as [[n budget]|e]; simpl; [|left; destruct Hch; auto].
  destruct Hch as (-> & Hn & Haff & Hmax).
  assert (0 <= n) by (destruct Hc as (_ & ? & _); lia).
  rewrite (proj2 (reservation_bytes_Ok c n (affine c n) Hw Hc ltac:(lia))) by width_lia. simpl.
  unfold throw_if. replace (available - h <? affine c n) with false by lia. simpl.
  rewrite resolved_tokens_Ok by done. destruct (Z.ltb_spec u32_max (n * main_page_tokens c)); simpl.
  - right. split; [done|]. exists n. lia.
  - split_and!; lia || done.
Qed.

(** explicit sizing rounds up to whole pages: the resolved capacity holds the
    requested tokens, no smaller page count does, and the reservation fits the
    available bytes. *)
Theorem explicit_capacity_covers c tokens available r :
  curve_widths c -> u32 tokens -> 0 <= available ->
  resolve_kv_capacity (MkPolicy Explicit tokens 0) c available = Ok r ->
  let n := r_main_page_groups r in
  tokens <= r_resolved_tokens r /\ r_resolved_tokens r = n * main_page_tokens c /\
  (n - 1) * main_page_tokens c < tokens /\
  minimum_main_page_groups c <= n <= maximum_main_page_groups c /\
  r_runtime_reservation_bytes r = affine c n /\ affine c n <= available.
Proof.
  intros Hw Ht Ha. unfold resolve_kv_capacity. pose proof (validate_curve_Ok c Hw) as Hv.
  destruct (validate_curve c) as [[]|e]; simpl; [|done].
  assert (curve_ok c) as Hc by (by apply Hv). pose proof Hc as (Hpt & _).
  unfold choose_pages, explicit_page_groups, throw_if. simpl.
  destruct (Z.eqb_spec tokens 0) as [|Hnz]; simpl; [done|].
  set (n := 1 + (tokens - 1) / main_page_tokens c).
  destruct (u32_max <? n); simpl; [done|]. intros H. res_inv H. injection H as <-. guards. simpl.
  assert (0 <= (tokens - 1) / main_page_tokens c) by (apply Z.div_pos; width_lia).
  apply reservation_bytes_Ok in H0 as (Hn & -> & _); [|done|done|lia].
  rewrite resolved_tokens_Ok in H2 by done. destruct (u32_max <? _); [done|]. injection H2 as <-.
  pose proof (Z.div_mod (tokens - 1) (main_page_tokens c) ltac:(lia)).
  pose proof (Z.mod_pos_bound (tokens - 1) (main_page_tokens c) Hpt).
  subst n. split_and!; try lia; nia.
Qed.

(** ** request_memory.cpp

    [RequestMemory] owns one arena sized at startup ([None] when the capacity is
    zero); a request activates a prefix of it. *)
Definition kDeviceAllocationAlignment : Z := 256.

Record RequestMemory : Type := MkReqMem {
  arena_base : Z;
  arena_capacity : option Z;
  active_bytes : Z;
  active_alignment : Z;
  peak_bytes : Z;
}.

(** [base] is what [DeviceArena] got from the device for [capacity] bytes. *)
Definition RequestMemory_new (base capacity : Z) : RequestMemory :=
  MkReqMem base (if negb (capacity =? 0) then Some capacity else None) 0 1 0.

Definition deactivate : st RequestMemory unit :=
  m ← get;
  put (MkReqMem (arena_base m) (arena_capacity m) 0 1 (peak_bytes m)).

Definition activate (n alignment : Z) : st RequestMemory unit :=
  if n =? 0 then
    st_throw_if (negb (alignment =? 1)) invalid_argument ;;
    deactivate
  else
    st_throw_if (negb (is_power_of_two alignment) || (kDeviceAllocationAlignment <? alignment))
      invalid_argument ;;
    m ← get;
    st_throw_if (match arena_capacity m with None => true | Some cap => cap <? n end)
      invalid_argument ;;
    put (MkReqMem (arena_base m) (arena_capacity m) n alignment (Z.max (peak_bytes m) n)).

(** [TransientRegion]: data, bytes, alignment; [{}] is [(0, 0, 1)]. *)
Definition transient_region (m : RequestMemory) : Z * Z * Z :=
  if active_bytes m =? 0 then (0, 0, 1) else (arena_base m, active_bytes m, active_alignment m).

Definition memory_summary (m : RequestMemory) : Z * Z * Z :=
  (default 0 (arena_capacity m), active_bytes m, peak_bytes m).

Definition reset_peak : st RequestMemory unit :=
  m ← get;
  put (MkReqMem (arena_base m) (arena_capacity m) (active_bytes m) (active_alignment m) (active_bytes m)).

Inductive req_op : Type := OpActivate (n alignment : Z) | OpDeactivate | OpResetPeak.

Definition req_exec (o : req_op) : st RequestMemory unit :=
  match o with
  | OpActivate n a => activate n a
  | OpDeactivate => deactivate
  | OpResetPeak => reset_peak
  end.

Inductive req_reach (base capacity : Z) : RequestMemory -> Prop :=
| req_init : req_reach base capacity (RequestMemory_new base capacity)
| req_step m o r m' :
    req_reach base capacity m ->
    match o with OpActivate n a => 0 <= n /\ 0 <= a | _ => True end ->
    req_exec o m = (r, m') -> req_reach base capacity m'.

Lemma req_reach_inv base capacity m :
  0 <= capacity -> req_reach base capacity m ->
  arena_base m = base /\ default 0 (arena_capacity m) = capacity /\
  0 <= active_bytes m <= peak_bytes m /\ peak_bytes m <= capacity /\
  (exists k, 0 <= k <= 8 /\ active_alignment m = 2 ^ k).
Proof.
  intros Hc. induction 1 as [|m o r m' _ (IH1 & IH2 & IH3 & IH4 & IH5) Ho He].
  { unfold RequestMemory_new. simpl. destruct (Z.eqb_spec capacity 0); simpl; split_and!; try lia;
      exists 0; lia. }
  assert (exists k, 0 <= k <= 8 /\ 1 = 2 ^ k) as H1 by (exists 0; lia).
  destruct o as [n a| |]; unfold req_exec, activate, deactivate, reset_peak, st_throw_if, throw_if,
    lift, get, put, mbind, st_bind in He; simpl in He.
  - destruct (Z.eqb_spec n 0); [destruct (negb (a =? 1)); injection He as <- <-; simpl; split_and!; auto; lia|].
    destruct (negb (is_power_of_two a) || (kDeviceAllocationAlignment <? a)) eqn:Ea; [by injection He as <- <-|].
    destruct (match arena_capacity m with Some cap => cap <? n | None => true end) eqn:Ec; [by injection He as <- <-|].
    destruct (arena_capacity m) as [cap|] eqn:Em; [|done]. simpl in *.
    injection He as <- <-. simpl. guards. split_and!; try lia.
    apply is_power_of_two_spec in H as (k & Hk & ->); [|lia]. exists k. split; [|done].
    unfold kDeviceAllocationAlignment in *. split; [done|].
    apply (Z.pow_le_mono_r_iff 2); lia.
  - injection He as <- <-. simpl. split_and!; auto; lia.
  - injection He as <- <-. simpl. split_and!; auto; lia.
Qed.

(** a request's transient region is always a prefix of the allocation made at
    startup, at an alignment that allocation has, and the reported peak covers
    every activation since it was last reset. *)
Theorem transient_region_in_arena base capacity m :
  0 <= capacity -> base mod kDeviceAllocationAlignment = 0 -> req_reach base capacity m ->
  let '(data, n, align) := transient_region m in
  (n = 0 \/ data = base /\ 0 < n <= capacity) /\ data mod align = 0 /\
  n <= snd (memory_summary m) <= capacity.
Proof.
  intros Hc Hb Hr. apply req_reach_inv in Hr as (H1 & H2 & H3 & H4 & k & Hk & H5); [|done].
  unfold transient_region, memory_summary. simpl. destruct (Z.eqb_spec (active_bytes m) 0).
  - split_and!; [by left|done|lia|lia].
  - split_and!; [right; lia| |lia|lia]. rewrite H1, H5.
    unfold kDeviceAllocationAlignment in Hb. replace 256 with (2 ^ (8 - k) * 2 ^ k) in Hb
      by (rewrite <- Z.pow_add_r by lia; by replace (8 - k + k) with 8 by lia).
    apply Z.mod_divide; [lia|]. apply Z.mod_divide in Hb; [|nia].
    destruct Hb as [q ->]. exists (q * 2 ^ (8 - k)). lia.
Qed.

(** ** generation_budget.h *)
Inductive FinishReason : Type :=
| FinishNone | OutputLimit | ContextCapacity | StopToken | StopString | Cancelled.

#[export] Instance FinishReason_eq_dec : EqDecision FinishReason.
Proof. solve_decision. Defined.

Record GenerationBudget : Type := MkBudget { budget_remaining : Z; limit_reason : FinishReason }.

Definition GenerationBudget_new (effective_tokens : Z) (reason : FinishReason) : res GenerationBudget :=
  throw_if (negb (bool_decide (reason = OutputLimit)) && negb (bool_decide (reason = ContextCapacity)))
    aborted ;;
  Ok (MkBudget effective_tokens reason).

Definition commit (tokens : Z) : st GenerationBudget unit :=
  b ← get;
  st_throw_if (budget_remaining b <? tokens) aborted ;;
  put (MkBudget (budget_remaining b - tokens) (limit_reason b)).

Fixpoint commits (l : list Z) : st GenerationBudget unit :=
  match l with [] => mret tt | n :: l => commit n ;; commits l end.

(** a sequence of commits aborts exactly when the committed tokens exceed the
    effective limit; otherwise the remainder is the limit minus their sum and the
    limit reason is the one the request was planned with. *)
Theorem budget_commits_exact limit reason b l :
  0 <= limit -> Forall (fun n => 0 <= n) l -> GenerationBudget_new limit reason = Ok b ->
  if foldr Z.add 0 l <=? limit
  then commits l b = (Ok tt, MkBudget (limit - foldr Z.add 0 l) reason)
  else fst (commits l b) = Throw aborted.
Proof.
  intros Hl Hn Hb. unfold GenerationBudget_new in Hb. res_inv Hb. injection Hb as <-.
  revert limit Hl. induction Hn as [|n l Hn Hf IH]; intros limit Hl; simpl.
  { replace (0 <=? limit) with true by lia. by rewrite Z.sub_0_r. }
  assert (0 <= foldr Z.add 0 l) as Hs by (clear -Hf; induction Hf; simpl; lia).
  assert (commit n (MkBudget limit reason) =
    (if limit <? n then Throw aborted else Ok tt,
     if limit <? n then MkBudget limit reason else MkBudget (limit - n) reason)) as Hc.
  { unfold commit, st_throw_if, throw_if, get, put, lift, mbind, st_bind. simpl. by destruct (limit <? n). }
  destruct (Z.ltb_spec limit n).
  - rewrite (st_bind_Throw _ _ _ _ _ Hc). by replace (_ <=? limit) with false by lia.
  - rewrite (st_bind_Ok _ _ _ _ _ Hc). specialize (IH (limit - n) ltac:(lia)).
    destruct (Z.leb_spec (foldr Z.add 0 l) (limit - n)).
    + replace (n + foldr Z.add 0 l <=? limit) with true by lia. rewrite IH.
      by replace (limit - n - foldr Z.add 0 l) with (limit - (n + foldr Z.add 0 l)) by lia.
    + by replace (n + foldr Z.add 0 l <=? limit) with false by lia.
Qed.

(** ** Witnesses *)
Definition demo_curve : SequenceCapacityCurve := MkCurve 64 4 100 1000 50.

Lemma demo_curve_widths : curve_widths demo_curve.
Proof. unfold curve_widths, demo_curve. simpl. width_lia. Qed.

Lemma automatic_capacity_maximal_witness :
  exists r, resolve_kv_capacity (MkPolicy Automatic 0 100) demo_curve 2000 = Ok r /\
    r_main_page_groups r = 22 /\ affine demo_curve 22 + 100 <= 2000 < affine demo_curve 23 + 100.
Proof.
  pose proof (automatic_capacity_maximal demo_curve 100 2000 demo_curve_widths) as H.
  eexists. split; [reflexivity|]. split; [reflexivity|].
  destruct H as (_ & _ & H1 & _ & _ & [H2|H2]); [lia|width_lia|discriminate H2|].
  split; [exact H1|exact H2].
Defined.

Lemma explicit_capacity_covers_witness :
  exists r, resolve_kv_capacity (MkPolicy Explicit 1000 0) demo_curve 5000 = Ok r /\
    1000 <= r_resolved_tokens r.
Proof.
  eexists. split; [reflexivity|].
  apply (explicit_capacity_covers demo_curve 1000 5000);
    [exact demo_curve_widths|vm_compute; split; congruence|lia|reflexivity].
Defined.

Lemma transient_region_in_arena_witness :
  let m := MkReqMem 4096 (Some 1000) 700 64 700 in
  (700 = 0 \/ 4096 = 4096 /\ 0 < 700 <= 1000) /\ 4096 mod 64 = 0.
Proof.
  intros m. pose proof (transient_region_in_arena 4096 1000 m) as H.
  destruct H as (H1 & H2 & _); [lia|reflexivity| |exact (conj H1 H2)].
  apply (req_step 4096 1000 (RequestMemory_new 4096 1000) (OpActivate 700 64) (Ok tt));
    [apply req_init|lia|reflexivity].
Defined.

Lemma budget_commits_exact_witness :
  commits [3; 4] (MkBudget 10 OutputLimit) = (Ok tt, MkBudget 3 OutputLimit).
Proof.
  apply (budget_commits_exact 10 OutputLimit (MkBudget 10 OutputLimit) [3; 4]);
    [lia|repeat constructor; lia|reflexivity].
Defined.
