(* ===== verification/Codec.v ===== *)
(** * Byte cursors

    The two pairs of cursors the caches serialise with: [Cursor]/[InCursor] of
    kv_ram_cache.cpp, which move one byte at a time, and [Writer]/[Reader] of
    prefix_identity.cpp, which check once per field.  [writes w l] and
    [reads r l x] say that a writer emits exactly [l] and that a reader consumes
    exactly [l] and returns [x]; both compose along the monad's bind, so a round
    trip of a record is one line per field. *)

From stdpp Require Import prelude list list_numbers.
From Stdlib Require Import ZArith Lia.
From S2P Require Import Prelude.
From S2P Require Import Bytes.
#[local] Open Scope Z_scope.

Definition wrap8 (x : Z) : Z := x mod 256.

(** A write cursor: what has been written before [p], and [end - p]. *)
Record Cursor : Type := MkCursor { written : list Z; room : Z }.

Definition Cursor_u8 (v : Z) : st Cursor unit :=
  c ← get;
  st_throw_if (room c <=? 0) logic_error ;;
  put (MkCursor (written c ++ [v]) (room c - 1)).

Definition Cursor_u32 (v : Z) : st Cursor unit :=
  Cursor_u8 (wrap8 v) ;;
  Cursor_u8 (wrap8 (Z.shiftr v 8)) ;;
  Cursor_u8 (wrap8 (Z.shiftr v 16)) ;;
  Cursor_u8 (wrap8 (Z.shiftr v 24)).

Definition Cursor_i32 (v : Z) : st Cursor unit := Cursor_u32 (wrap32 v).

(** [for (int s = 0; s < 64; s += 8)] *)
Definition byte_shifts : list Z := [0; 8; 16; 24; 32; 40; 48; 56].

Definition Cursor_u64 (v : Z) : st Cursor unit :=
  for_each byte_shifts (fun s => Cursor_u8 (wrap8 (Z.shiftr v s))).

Definition Cursor_i64 (v : Z) : st Cursor unit := Cursor_u64 (wrap64 v).

Definition Cursor_bytes (data : list Z) : st Cursor unit := for_each data Cursor_u8.

(** A read cursor is what lies between [p] and [end]. *)
Definition InCursor : Type := list Z.

Definition InCursor_u8 : st InCursor Z :=
  fun r => match r with [] => (Throw logic_error, r) | b :: r => (Ok b, r) end.

Definition InCursor_u32 : st InCursor Z :=
  a ← InCursor_u8; b ← InCursor_u8; c ← InCursor_u8; d ← InCursor_u8;
  mret (Z.lor (Z.lor (Z.lor a (Z.shiftl b 8)) (Z.shiftl c 16)) (Z.shiftl d 24)).

Definition InCursor_i32 : st InCursor Z := v ← InCursor_u32; mret (to_i32 v).

(** [for (int s = 0; s < 64; s += 8) { v |= u64(u8()) << s; }] *)
Fixpoint InCursor_u64_loop (v : Z) (shifts : list Z) : st InCursor Z :=
  match shifts with
  | [] => mret v
  | s :: shifts => b ← InCursor_u8; InCursor_u64_loop (Z.lor v (Z.shiftl b s)) shifts
  end.

Definition InCursor_u64 : st InCursor Z := InCursor_u64_loop 0 byte_shifts.
Definition InCursor_i64 : st InCursor Z := v ← InCursor_u64; mret (to_i64 v).

Fixpoint InCursor_bytes (n : nat) : st InCursor (list Z) :=
  match n with
  | O => mret []
  | S n => b ← InCursor_u8; l ← InCursor_bytes n; mret (b :: l)
  end.

Definition InCursor_skip (n : Z) : st InCursor unit :=
  r ← get;
  st_throw_if (Z.of_nat (length r) <? n) logic_error ;;
  put (drop (Z.to_nat n) r).

(** [Writer] and [Reader]: one bounds check per field, then a direct copy of the
    little-endian image. *)
Definition Writer_bytes (data : list Z) : st Cursor unit :=
  c ← get;
  st_throw_if (room c <? Z.of_nat (length data)) logic_error ;;
  put (MkCursor (written c ++ data) (room c - Z.of_nat (length data))).

Definition Writer_u8 (v : Z) : st Cursor unit := Writer_bytes (le_bytes 1 v).
Definition Writer_u32 (v : Z) : st Cursor unit := Writer_bytes (le_bytes 4 v).
Definition Writer_u64 (v : Z) : st Cursor unit := Writer_bytes (le_bytes 8 v).
Definition Writer_i32 (v : Z) : st Cursor unit := Writer_bytes (le_bytes 4 v).

Definition Reader_bytes (n : Z) : st InCursor (list Z) :=
  r ← get;
  st_throw_if (Z.of_nat (length r) <? n) logic_error ;;
  put (drop (Z.to_nat n) r) ;;
  mret (take (Z.to_nat n) r).

Definition Reader_u8 : st InCursor Z := l ← Reader_bytes 1; mret (le_value l).
Definition Reader_u32 : st InCursor Z := l ← Reader_bytes 4; mret (le_value l).
Definition Reader_u64 : st InCursor Z := l ← Reader_bytes 8; mret (le_value l).
Definition Reader_i32 : st InCursor Z := l ← Reader_bytes 4; mret (to_i32 (le_value l)).

(** ** Writers *)
Definition advance (c : Cursor) (l : list Z) : Cursor :=
  MkCursor (written c ++ l) (room c - Z.of_nat (length l)).

Definition writes (w : st Cursor unit) (l : list Z) : Prop :=
  forall c, Z.of_nat (length l) <= room c -> w c = (Ok tt, advance c l).

Lemma advance_app c l k : advance (advance c l) k = advance c (l ++ k).
Proof. unfold advance. simpl. rewrite length_app, app_assoc. f_equal. lia. Qed.

Lemma writes_nil : writes (mret tt) [].
Proof. intros c _. unfold advance. destruct c; simpl. rewrite app_nil_r, Z.sub_0_r. done. Qed.

Lemma writes_bind (w k : st Cursor unit) l l' :
  writes w l -> writes k l' -> writes (w ;; k) (l ++ l').
Proof.
  intros Hw Hk c Hc. rewrite length_app in Hc.
  rewrite (st_bind_Ok _ _ _ _ _ (Hw c ltac:(lia))). rewrite Hk; [by rewrite advance_app|].
  unfold advance. simpl. lia.
Qed.

Lemma writes_eq w l l' : writes w l -> l = l' -> writes w l'.
Proof. by intros ? ->. Qed.

Lemma writes_u8 v : writes (Cursor_u8 v) [v].
Proof.
  intros c Hc. simpl in Hc. unfold Cursor_u8.
  rewrite (st_bind_Ok _ _ c c c) by done.
  rewrite (st_bind_Ok _ _ c tt c); [done|].
  unfold st_throw_if, lift, throw_if. by replace (room c <=? 0) with false by lia.
Qed.

Lemma writes_for_each {A} (f : A -> st Cursor unit) (g : A -> list Z) xs :
  (forall x, x ∈ xs -> writes (f x) (g x)) -> writes (for_each xs f) (concat (g <$> xs)).
Proof.
  induction xs as [|x xs IH]; intros H; [apply writes_nil|]. cbn [for_each fmap list_fmap concat].
  apply writes_bind; [apply H; by left|]. apply IH. intros y Hy. apply H. by right.
Qed.

Lemma writes_bytes data : writes (Cursor_bytes data) data.
Proof.
  eapply writes_eq; [apply (writes_for_each Cursor_u8 (fun v => [v])); intros; apply writes_u8|].
  induction data; [done|]. simpl. by f_equal.
Qed.

Lemma writes_u32 v : writes (Cursor_u32 v) (le_bytes 4 v).
Proof.
  eapply writes_eq.
  - repeat (eapply writes_bind; [apply writes_u8|]). apply writes_u8.
  - unfold wrap8. simpl. by rewrite !Z.shiftr_div_pow2, !Z.div_div by lia.
Qed.

Lemma writes_u64 v : writes (Cursor_u64 v) (le_bytes 8 v).
Proof.
  eapply writes_eq.
  - apply (writes_for_each _ (fun s => [wrap8 (Z.shiftr v s)])). intros. apply writes_u8.
  - unfold wrap8. simpl. by rewrite !Z.shiftr_div_pow2, !Z.div_div, ?Z.div_1_r by lia.
Qed.

Lemma le_bytes_wrap n x : le_bytes n (x mod 2 ^ (8 * Z.of_nat n)) = le_bytes n x.
Proof.
  revert x. induction n as [|n IH]; intros x; [done|]. cbn [le_bytes].
  replace (2 ^ (8 * Z.of_nat (S n))) with (256 * 2 ^ (8 * Z.of_nat n))
    by (rewrite Nat2Z.inj_succ, <- Z.add_1_r, Z.mul_add_distr_l, Z.pow_add_r by lia; simpl; lia).
  assert (0 < 2 ^ (8 * Z.of_nat n)) by (apply Z.pow_pos_nonneg; lia).
  rewrite Z.rem_mul_r by lia. rewrite (Z.mul_comm 256), Z.mod_add, Z.mod_mod by lia. f_equal.
  rewrite Z.div_add, Z.div_small by (lia || apply Z.mod_pos_bound; lia). apply IH.
Qed.

Lemma writes_i32 v : writes (Cursor_i32 v) (le_bytes 4 v).
Proof. eapply writes_eq; [apply writes_u32|]. apply (le_bytes_wrap 4). Qed.

Lemma writes_i64 v : writes (Cursor_i64 v) (le_bytes 8 v).
Proof. eapply writes_eq; [apply writes_u64|]. apply (le_bytes_wrap 8). Qed.

Lemma writes_field data : writes (Writer_bytes data) data.
Proof.
  intros c Hc. unfold Writer_bytes. rewrite (st_bind_Ok _ _ c c c) by done.
  rewrite (st_bind_Ok _ _ c tt c); [done|].
  unfold st_throw_if, lift, throw_if. by replace (room c <? Z.of_nat (length data)) with false by lia.
Qed.

(** ** Readers *)
Definition reads {A} (r : st InCursor A) (l : list Z) (x : A) : Prop :=
  forall rest, r (l ++ rest) = (Ok x, rest).

Lemma reads_ret {A} (x : A) : reads (mret x) [] x.
Proof. done. Qed.

Lemma reads_bind {A B} (r : st InCursor A) (k : A -> st InCursor B) l l' x y :
  reads r l x -> reads (k x) l' y -> reads (r ≫= k) (l ++ l') y.
Proof.
  intros Hr Hk rest. rewrite <- app_assoc.
  rewrite (st_bind_Ok _ _ _ _ _ (Hr (l' ++ rest))). apply Hk.
Qed.

Lemma reads_map {A B} (r : st InCursor A) (f : A -> B) l x y :
  reads r l x -> f x = y -> reads (v ← r; mret (f v)) l y.
Proof.
  intros Hr <-. rewrite <- (app_nil_r l). eapply reads_bind; [done|]. apply reads_ret.
Qed.

Lemma reads_u8 b : reads InCursor_u8 [b] b.
Proof. done. Qed.

Lemma lor_shiftl a b k : 0 <= k -> 0 <= a < 2 ^ k -> Z.lor a (Z.shiftl b k) = a + b * 2 ^ k.
Proof.
  intros Hk Ha. rewrite <- Z.shiftl_mul_pow2 by done. symmetry. rewrite Z.add_nocarry_lxor.
  - apply Z.bits_inj'. intros n Hn. rewrite Z.lxor_spec, Z.lor_spec.
    destruct (Z.testbit a n) eqn:Ea, (Z.testbit (Z.shiftl b k) n) eqn:Eb; try done. exfalso.
    destruct (decide (n < k)).
    + by rewrite Z.shiftl_spec_low in Eb.
    + rewrite <- (Z.mod_small a (2 ^ k)), Z.mod_pow2_bits_high in Ea by lia. done.
  - apply Z.bits_inj'. intros n Hn. rewrite Z.land_spec, Z.bits_0.
    destruct (decide (n < k)).
    + by rewrite Z.shiftl_spec_low, andb_false_r.
    + rewrite <- (Z.mod_small a (2 ^ k)), Z.mod_pow2_bits_high by lia. done.
Qed.

Lemma le_value_range l : Forall is_byte l -> 0 <= le_value l < 256 ^ Z.of_nat (length l).
Proof.
  induction 1 as [|b l Hb _ IH]; [done|]. cbn [le_value length]. unfold is_byte in Hb.
  rewrite Nat2Z.inj_succ, Z.pow_succ_r by lia. lia.
Qed.

Lemma reads_u32_value l :
  length l = 4%nat -> Forall is_byte l -> reads InCursor_u32 l (le_value l).
Proof.
  intros Hl Hb. destruct l as [|a [|b [|c [|d [|]]]]]; try done.
  intros rest. unfold InCursor_u32, InCursor_u8, mbind, st_bind, mret, st_ret.
  cbn -[Z.lor Z.shiftl Z.mul Z.add]. do 2 f_equal.
  decompose_Forall_hyps. unfold is_byte in *.
  rewrite (lor_shiftl a b 8) by lia. rewrite (lor_shiftl _ c 16) by lia. rewrite lor_shiftl by lia. lia.
Qed.

Lemma reads_u64_value l :
  length l = 8%nat -> Forall is_byte l -> reads InCursor_u64 l (le_value l).
Proof.
  intros Hl Hb. destruct l as [|a [|b [|c [|d [|e [|f [|g [|h [|]]]]]]]]]; try done.
  intros rest. unfold InCursor_u64, InCursor_u64_loop, InCursor_u8, mbind, st_bind, mret, st_ret.
  cbn -[Z.lor Z.shiftl Z.mul Z.add]. do 2 f_equal.
  decompose_Forall_hyps. unfold is_byte in *. rewrite Z.shiftl_0_r, Z.lor_0_l.
  rewrite (lor_shiftl a b 8) by lia. rewrite (lor_shiftl _ c 16) by lia.
  rewrite (lor_shiftl _ d 24) by lia. rewrite (lor_shiftl _ e 32) by lia.
  rewrite (lor_shiftl _ f 40) by lia. rewrite (lor_shiftl _ g 48) by lia. rewrite lor_shiftl by lia. lia.
Qed.

Lemma reads_u32 v : u32 v -> reads InCursor_u32 (le_bytes 4 v) v.
Proof.
  intros Hv. rewrite <- (le_value_u32 v Hv) at 2.
  apply reads_u32_value; [done|apply le_bytes_bytes].
Qed.

Lemma reads_u64 v : u64 v -> reads InCursor_u64 (le_bytes 8 v) v.
Proof.
  intros Hv. rewrite <- (le_value_u64 v Hv) at 2.
  apply reads_u64_value; [done|apply le_bytes_bytes].
Qed.

Lemma reads_i32 v : i32 v -> reads InCursor_i32 (le_bytes 4 v) v.
Proof.
  intros Hv. eapply reads_map; [apply reads_u32_value; [done|apply le_bytes_bytes]|].
  by apply le_value_i32.
Qed.

Lemma reads_i64 v : i64 v -> reads InCursor_i64 (le_bytes 8 v) v.
Proof.
  intros Hv. eapply reads_map; [apply reads_u64_value; [done|apply le_bytes_bytes]|].
  by apply le_value_i64.
Qed.

Lemma reads_skip l n : n = Z.of_nat (length l) -> reads (InCursor_skip n) l tt.
Proof.
  intros -> rest. unfold InCursor_skip. rewrite (st_bind_Ok _ _ (l ++ rest) (l ++ rest) (l ++ rest)) by done.
  rewrite (st_bind_Ok _ _ _ tt (l ++ rest)).
  - rewrite Nat2Z.id, drop_app_length. done.
  - unfold st_throw_if, lift, throw_if. rewrite (proj2 (Z.ltb_ge _ _)); [done|].
    rewrite length_app. lia.
Qed.

Lemma reads_field l n : n = Z.of_nat (length l) -> reads (Reader_bytes n) l l.
Proof.
  intros -> rest. unfold Reader_bytes. rewrite (st_bind_Ok _ _ (l ++ rest) (l ++ rest) (l ++ rest)) by done.
  rewrite (st_bind_Ok _ _ _ tt (l ++ rest)).
  - rewrite Nat2Z.id, drop_app_length, take_app_length. done.
  - unfold st_throw_if, lift, throw_if. rewrite (proj2 (Z.ltb_ge _ _)); [done|].
    rewrite length_app. lia.
Qed.

Lemma reads_field_u8 v : is_byte v -> reads Reader_u8 (le_bytes 1 v) v.
Proof.
  intros Hv. eapply reads_map; [by apply reads_field|]. apply le_value_bytes_small. done.
Qed.

Lemma reads_field_u32 v : u32 v -> reads Reader_u32 (le_bytes 4 v) v.
Proof. intros Hv. eapply reads_map; [by apply reads_field|]. by apply le_value_u32. Qed.

Lemma reads_field_u64 v : u64 v -> reads Reader_u64 (le_bytes 8 v) v.
Proof. intros Hv. eapply reads_map; [by apply reads_field|]. by apply le_value_u64. Qed.

Lemma reads_field_i32 v : i32 v -> reads Reader_i32 (le_bytes 4 v) v.
Proof. intros Hv. eapply reads_map; [by apply reads_field|]. by apply le_value_i32. Qed.

Create HintDb codec.
#[export] Hint Resolve writes_u8 writes_u32 writes_i32 writes_u64 writes_i64 writes_bytes writes_field
  writes_nil : codec.
#[export] Hint Resolve reads_u8 reads_u32 reads_i32 reads_u64 reads_i64 reads_field reads_field_u8
  reads_field_u32 reads_field_u64 reads_field_i32 reads_ret : codec.
