(* ===== verification/PrefixIdentity.v ===== *)
(** * targets/qwen3_6/impl/runtime/prefix_identity.{h,cpp}

    The identity of a prompt prefix: what the resident KV and state were computed
    from.  Definitions: the 128-bit prefix hash, the resident identity and its
    serialised form, exact matching, and the incremental hash cache.  The
    theorems about them are in [PrefixTheorems]. *)

From stdpp Require Import prelude list list_numbers.
From Stdlib Require Import ZArith Lia.
From S2P Require Import Prelude.
From S2P Require Import Bytes.
From S2P Require Import Codec.
#[local] Open Scope Z_scope.

Record PrefixHash128 : Type := MkHash { lo : Z; hi : Z }.

#[export] Instance PrefixHash128_eq_dec : EqDecision PrefixHash128.
Proof. solve_decision. Defined.

Record VisionGrid : Type := MkGrid { temporal : Z; grid_height : Z; grid_width : Z }.

#[export] Instance VisionGrid_eq_dec : EqDecision VisionGrid.
Proof. solve_decision. Defined.

Record TokenSpan : Type := MkTokenSpan { span_begin : Z; span_count : Z }.

#[export] Instance TokenSpan_eq_dec : EqDecision TokenSpan.
Proof. solve_decision. Defined.

(** [modality] is the enum's underlying value, as the packed form casts it from a
    byte; [timestamps] are the bit patterns of the doubles. *)
Record VisionItem : Type := MkItem {
  modality : Z;
  grid : VisionGrid;
  patch_begin : Z;
  patch_count : Z;
  content_digest : list Z;
  timestamps : list Z;
  token_spans : list TokenSpan;
}.

#[export] Instance VisionItem_eq_dec : EqDecision VisionItem.
Proof. solve_decision. Defined.

(** The fields of [PreparedPromptData] that the identity reads; [positions] holds
    the three axes one after the other. *)
Record PreparedPromptData : Type := MkPrompt {
  token_ids : list Z;
  token_types : list Z;
  positions : list Z;
  vision_items : list VisionItem;
}.

(** [std::array<std::vector<std::int32_t>, 3>] *)
Record Axes : Type := MkAxes { axis0 : list Z; axis1 : list Z; axis2 : list Z }.

Definition axes_map (f : list Z -> list Z) (a : Axes) : Axes :=
  MkAxes (f (axis0 a)) (f (axis1 a)) (f (axis2 a)).

Record ResidentPrefixIdentity : Type := MkIdentity {
  token_types_ : list Z;
  positions_ : Axes;
  vision_items_ : list VisionItem;
}.

Definition identity_size (r : ResidentPrefixIdentity) : nat := length (token_types_ r).

(** ** Hashing *)
Definition kFnvPrime64 : Z := 1099511628211.
Definition kFnvOffset64 : Z := 14695981039346656037.
Definition kChain1Xor : Z := 0xA5A5A5A5A5A5A5A5.

Definition mix_u8 (h : PrefixHash128) (byte : Z) : PrefixHash128 :=
  MkHash (wrap64 (Z.lxor (lo h) byte * kFnvPrime64)) (wrap64 (Z.lxor (hi h) byte * kFnvPrime64)).

Definition mix_bytes (h : PrefixHash128) (data : list Z) : PrefixHash128 := foldl mix_u8 h data.

Definition mix_le32 (h : PrefixHash128) (value : Z) : PrefixHash128 :=
  mix_u8 (mix_u8 (mix_u8 (mix_u8 h (wrap8 value)) (wrap8 (Z.shiftr value 8)))
                 (wrap8 (Z.shiftr value 16))) (wrap8 (Z.shiftr value 24)).

Definition mix_le64 (h : PrefixHash128) (value : Z) : PrefixHash128 :=
  foldl (fun h shift => mix_u8 h (wrap8 (Z.shiftr value shift))) h byte_shifts.

Definition mix_i32 (h : PrefixHash128) (value : Z) : PrefixHash128 := mix_le32 h (wrap32 value).

(** [mix_f64] mixes the bit pattern. *)
Definition mix_f64 (h : PrefixHash128) (bits : Z) : PrefixHash128 := mix_le64 h bits.

Definition mix_token (h : PrefixHash128) (token type p0 p1 p2 : Z) : PrefixHash128 :=
  mix_i32 (mix_i32 (mix_i32 (mix_u8 (mix_i32 h token) type) p0) p1) p2.

Definition mix_vision_item (h : PrefixHash128) (item : VisionItem) : PrefixHash128 :=
  let h := mix_u8 h (wrap8 (modality item)) in
  let h := mix_i32 h (temporal (grid item)) in
  let h := mix_i32 h (grid_height (grid item)) in
  let h := mix_i32 h (grid_width (grid item)) in
  let h := mix_le64 h (patch_begin item) in
  let h := mix_le64 h (patch_count item) in
  let h := mix_bytes h (content_digest item) in
  let h := mix_le32 h (wrap32 (Z.of_nat (length (timestamps item)))) in
  let h := foldl mix_f64 h (timestamps item) in
  let h := mix_le32 h (wrap32 (Z.of_nat (length (token_spans item)))) in
  foldl (fun h s => mix_le64 (mix_le64 h (span_begin s)) (span_count s)) h (token_spans item).

Definition item_end (item : VisionItem) : Z :=
  match last (token_spans item) with
  | None => 0
  | Some last => wrap64 (span_begin last + span_count last)
  end.

Definition initial_hash : PrefixHash128 := MkHash kFnvOffset64 (Z.lxor kFnvOffset64 kChain1Xor).

(** The pointers of [HashInputs] as the arrays they point to. *)
Record HashInputs : Type := MkInputs {
  in_tokens : list Z;
  in_types : list Z;
  in_axes : Axes;
  in_items : list VisionItem;
}.

(** The loop of [item_cursor_after] over the items from the cursor on. *)
Fixpoint cursor_loop (arrived count : Z) (items : list VisionItem) : nat :=
  match items with
  | [] => O
  | item :: items =>
      if bool_decide (token_spans item = []) then S (cursor_loop arrived count items)
      else
        let e := item_end item in
        if (e <? arrived) || (count <? e) then O else S (cursor_loop e count items)
  end.

Definition item_cursor_after (items : list VisionItem) (count : nat) : nat :=
  if (count =? 0)%nat then O else cursor_loop 1 (Z.of_nat count) items.

(** The inner [while] of [extend_hash] at token [k], over the items from the
    cursor on; counts the items it passes. *)
Fixpoint mix_items (k : Z) (h : PrefixHash128) (items : list VisionItem) : PrefixHash128 * nat :=
  match items with
  | [] => (h, O)
  | item :: items =>
      if bool_decide (token_spans item = []) then prod_map id S (mix_items k h items)
      else if negb (item_end item =? k) then (h, O)
      else prod_map id S (mix_items k (mix_vision_item h item) items)
  end.

(** One iteration of [extend_hash]: token [i], then the items that end at [i + 1]. *)
Definition hash_step (inp : HashInputs) (i : nat) (s : PrefixHash128 * nat) : PrefixHash128 * nat :=
  let h := mix_token (fst s) (nth i (in_tokens inp) 0) (nth i (in_types inp) 0)
             (nth i (axis0 (in_axes inp)) 0) (nth i (axis1 (in_axes inp)) 0)
             (nth i (axis2 (in_axes inp)) 0) in
  prod_map id (fun passed => (snd s + passed)%nat)
    (mix_items (Z.of_nat (S i)) h (drop (snd s) (in_items inp))).

(** The calls [sink(k, hash)] in order, for [n] tokens from token [i] on. *)
Fixpoint extend_loop (inp : HashInputs) (i n : nat) (s : PrefixHash128 * nat) : list PrefixHash128 :=
  match n with
  | O => []
  | S n => let s := hash_step inp i s in fst s :: extend_loop inp (S i) n s
  end.

(** Returns the final hash and what the sink received. *)
Definition extend_hash (h : PrefixHash128) (inp : HashInputs) (from to : nat)
    : PrefixHash128 * list PrefixHash128 :=
  let out := extend_loop inp from (to - from) (h, item_cursor_after (in_items inp) from) in
  (default h (last out), out).

Definition resident_inputs (tokens : list Z) (r : ResidentPrefixIdentity) : HashInputs :=
  MkInputs tokens (token_types_ r) (positions_ r) (vision_items_ r).

(** [prompt.positions.data() + axis * tokens] and the two other axes. *)
Definition prompt_axes (p : PreparedPromptData) : Axes :=
  let n := length (token_ids p) in
  MkAxes (take n (positions p)) (take n (drop n (positions p))) (take n (drop (2 * n) (positions p))).

(** [prompt.token_types.size() != tokens || prompt.positions.size() != 3 * tokens] *)
Definition bad_shape (p : PreparedPromptData) : bool :=
  let n := length (token_ids p) in
  negb (length (token_types p) =? n)%nat || negb (length (positions p) =? 3 * n)%nat.

Definition prefix_hash_chain (p : PreparedPromptData) : res (list PrefixHash128) :=
  throw_if (bad_shape p) invalid_argument ;;
  let inputs := MkInputs (token_ids p) (token_types p) (prompt_axes p) (vision_items p) in
  Ok (initial_hash :: snd (extend_hash initial_hash inputs 0 (length (token_ids p)))).

Definition prefix_hash_at (tokens : list Z) (r : ResidentPrefixIdentity) (count : nat)
    : res PrefixHash128 :=
  throw_if ((length tokens <? count)%nat || (identity_size r <? count)%nat) out_of_range ;;
  Ok (fst (extend_hash initial_hash (resident_inputs tokens r) 0 count)).

(** ** The hash cache [ResidentPrefixHashes] *)
Definition ResidentPrefixHashes : Type := list PrefixHash128.

Definition hashes_clear : st ResidentPrefixHashes unit := put [].

Definition hashes_assign (chain : list PrefixHash128) : st ResidentPrefixHashes unit :=
  st_throw_if (negb (bool_decide (head chain = Some initial_hash))) invalid_argument ;;
  put chain.

Definition hashes_truncate (tokens : nat) : st ResidentPrefixHashes unit :=
  h ← get;
  put (if (tokens + 1 <? length h)%nat then take (tokens + 1) h else h).

Definition hashes_at (tokens : list Z) (r : ResidentPrefixIdentity) (count : nat)
    : st ResidentPrefixHashes PrefixHash128 :=
  st_throw_if ((length tokens <? count)%nat || (identity_size r <? count)%nat) out_of_range ;;
  h ← get;
  match h !! count with
  | Some x => mret x
  | None =>
      let h := match h with [] => [initial_hash] | _ => h end in
      let from := (length h - 1)%nat in
      let out := extend_hash (default initial_hash (last h)) (resident_inputs tokens r) from count in
      put (h ++ snd out) ;;
      mret (fst out)
  end.

(** ** Matching *)

(** [==] on doubles: a NaN equals nothing, the two zeros are equal. *)
Definition f64_nan (x : Z) : bool := 0x7FF0000000000000 <? Z.land x 0x7FFFFFFFFFFFFFFF.
Definition f64_zero (x : Z) : bool := Z.land x 0x7FFFFFFFFFFFFFFF =? 0.
Definition f64_eq (x y : Z) : bool :=
  negb (f64_nan x) && negb (f64_nan y) && ((x =? y) || (f64_zero x && f64_zero y)).

(** [std::equal] over two vectors, sizes compared first. *)
Fixpoint vector_eq {A} (eqb : A -> A -> bool) (l k : list A) : bool :=
  match l, k with
  | [], [] => true
  | x :: l, y :: k => eqb x y && vector_eq eqb l k
  | _, _ => false
  end.

Definition same_grid (a b : VisionGrid) : bool :=
  (temporal a =? temporal b) && (grid_height a =? grid_height b) && (grid_width a =? grid_width b).

Definition same_spans (a b : list TokenSpan) : bool :=
  vector_eq (fun x y => (span_begin x =? span_begin y) && (span_count x =? span_count y)) a b.

Definition same_item (a b : VisionItem) : bool :=
  (modality a =? modality b) && same_grid (grid a) (grid b)
  && (patch_begin a =? patch_begin b) && (patch_count a =? patch_count b)
  && vector_eq Z.eqb (content_digest a) (content_digest b)
  && vector_eq f64_eq (timestamps a) (timestamps b)
  && same_spans (token_spans a) (token_spans b).

(** [prefix_item_count]: [None] is the result [false]. *)
Fixpoint item_count_loop (items : list VisionItem) (tokens : Z) (saw_suffix : bool) (count : nat)
    : option nat :=
  match items with
  | [] => Some count
  | item :: items =>
      match head (token_spans item), last (token_spans item) with
      | Some first, Some last =>
          if (span_count first =? 0) || (span_count last =? 0)
             || (size_max - span_count last <? span_begin last) then None
          else
            let e := span_begin last + span_count last in
            if e <=? tokens then
              if saw_suffix then None else item_count_loop items tokens saw_suffix (S count)
            else if tokens <=? span_begin first then item_count_loop items tokens true count
            else None
      | _, _ => None
      end
  end.

Definition prefix_item_count (items : list VisionItem) (tokens : nat) : option nat :=
  item_count_loop items (Z.of_nat tokens) false 0.

Definition prefix_items_complete_at (items : list VisionItem) (tokens : nat) : bool :=
  bool_decide (is_Some (prefix_item_count items tokens)).

(** [std::equal(a.begin(), a.begin() + count, b.begin())] *)
Definition equal_n (count : nat) (a b : list Z) : bool :=
  bool_decide (take count a = take count b).

(** [for (i = 0; i < n; ++i) { if (!same_item(a[i], b[i])) return false; }] *)
Definition same_items (n : nat) (a b : list VisionItem) : bool :=
  vector_eq same_item (take n a) (take n b).

Definition identity_matches (r : ResidentPrefixIdentity) (p : PreparedPromptData) (count : nat) : bool :=
  let n := length (token_ids p) in
  if (n <? count)%nat || (identity_size r <? count)%nat || bad_shape p then false
  else if negb (equal_n count (token_types p) (token_types_ r)) then false
  else if negb (equal_n count (axis0 (prompt_axes p)) (axis0 (positions_ r))
                && equal_n count (axis1 (prompt_axes p)) (axis1 (positions_ r))
                && equal_n count (axis2 (prompt_axes p)) (axis2 (positions_ r))) then false
  else
    match prefix_item_count (vision_items p) count, prefix_item_count (vision_items_ r) count with
    | Some incoming, Some resident =>
        (incoming =? resident)%nat && same_items incoming (vision_items p) (vision_items_ r)
    | _, _ => false
    end.

Definition prefix_matches (p : PreparedPromptData) (resident_tokens : list Z)
    (r : ResidentPrefixIdentity) (count : nat) : bool :=
  if (length (token_ids p) <? count)%nat || (length resident_tokens <? count)%nat then false
  else equal_n count (token_ids p) resident_tokens && identity_matches r p count.

(** The [while] of [longest_matching_prefix], for at most [n] more tokens from [i]. *)
Fixpoint match_tokens (lt : list Z) (l : ResidentPrefixIdentity) (rt : list Z)
    (r : ResidentPrefixIdentity) (n i : nat) : nat :=
  match n with
  | O => i
  | S n =>
      if bool_decide (lt !! i = rt !! i) && bool_decide (token_types_ l !! i = token_types_ r !! i)
         && bool_decide (axis0 (positions_ l) !! i = axis0 (positions_ r) !! i)
         && bool_decide (axis1 (positions_ l) !! i = axis1 (positions_ r) !! i)
         && bool_decide (axis2 (positions_ l) !! i = axis2 (positions_ r) !! i)
      then match_tokens lt l rt r n (S i) else i
  end.

(** [item.token_spans.front().begin]; the code requires a span. *)
Definition item_begin (item : VisionItem) : Z :=
  match token_spans item with s :: _ => span_begin s | [] => 0 end.

(** The [for] over the items of both sides, from the current index on. *)
Fixpoint cut_items (count : Z) (la lb : list VisionItem) : Z :=
  match la, lb with
  | [], [] => count
  | a :: la, b :: lb =>
      let begin := Z.min (item_begin a) (item_begin b) in
      if count <=? begin then count
      else if negb (same_item a b) || (count <? item_end a) || (count <? item_end b) then begin
      else cut_items count la lb
  | a :: _, [] => Z.min (item_begin a) count
  | [], b :: _ => Z.min count (item_begin b)
  end.

Definition longest_matching_prefix (lt : list Z) (l : ResidentPrefixIdentity) (rt : list Z)
    (r : ResidentPrefixIdentity) (limit : nat) : nat :=
  let count := Nat.min limit (Nat.min (Nat.min (length lt) (length rt))
                                      (Nat.min (identity_size l) (identity_size r))) in
  let count := match_tokens lt l rt r count 0 in
  Z.to_nat (cut_items (Z.of_nat count) (vision_items_ l) (vision_items_ r)).

(** ** The resident identity's operations *)
Definition empty_identity : ResidentPrefixIdentity := MkIdentity [] (MkAxes [] [] []) [].

Definition identity_clear : st ResidentPrefixIdentity unit := put empty_identity.

Definition identity_assign (p : PreparedPromptData) : st ResidentPrefixIdentity unit :=
  st_throw_if (bad_shape p) invalid_argument ;;
  put (MkIdentity (token_types p) (prompt_axes p) (vision_items p)).

(** One round of [append_generated]'s loop, at index [index]. *)
Definition append_one (rope_delta : Z) (index : nat) : st ResidentPrefixIdentity unit :=
  st_throw_if (i32_max <? Z.of_nat index) overflow_error ;;
  let position := Z.of_nat index + rope_delta in
  st_throw_if ((position <? - 2 ^ 31) || (i32_max <? position)) overflow_error ;;
  r ← get;
  put (MkIdentity (token_types_ r ++ [0]) (axes_map (fun a => a ++ [position]) (positions_ r))
                  (vision_items_ r)).

Definition append_generated (count : nat) (rope_delta : Z) : st ResidentPrefixIdentity unit :=
  r ← get;
  let begin := identity_size r in
  st_throw_if (size_max - Z.of_nat begin <? Z.of_nat count) overflow_error ;;
  for_each (seq begin count) (append_one rope_delta).

Definition identity_truncate (tokens : nat) : st ResidentPrefixIdentity unit :=
  r ← get;
  st_throw_if (identity_size r <? tokens)%nat out_of_range ;;
  match prefix_item_count (vision_items_ r) tokens with
  | None => throw logic_error
  | Some retained =>
      put (MkIdentity (take tokens (token_types_ r)) (axes_map (take tokens) (positions_ r))
                      (take retained (vision_items_ r)))
  end.

(** ** The serialised identity *)
Definition item_bytes (item : VisionItem) : Z :=
  1 + 12 + 16 + 32 + 4 + Z.of_nat (length (timestamps item)) * 8 + 4
  + Z.of_nat (length (token_spans item)) * 16.

Definition packed_bytes (r : ResidentPrefixIdentity) : Z :=
  foldl (fun total item => total + item_bytes item)
    (8 + Z.of_nat (identity_size r) + 3 * Z.of_nat (identity_size r) * 4) (vision_items_ r).

Definition write_item (item : VisionItem) : st Cursor unit :=
  Writer_u8 (modality item) ;;
  Writer_i32 (temporal (grid item)) ;;
  Writer_i32 (grid_height (grid item)) ;;
  Writer_i32 (grid_width (grid item)) ;;
  Writer_u64 (patch_begin item) ;;
  Writer_u64 (patch_count item) ;;
  Writer_bytes (content_digest item) ;;
  Writer_u32 (wrap32 (Z.of_nat (length (timestamps item)))) ;;
  Writer_bytes (concat (le_bytes 8 <$> timestamps item)) ;;
  Writer_u32 (wrap32 (Z.of_nat (length (token_spans item)))) ;;
  for_each (token_spans item) (fun s => Writer_u64 (span_begin s) ;; Writer_u64 (span_count s)).

(** [pack(dst)]: returns the bytes written at [dst]; [null] is [dst == nullptr]. *)
Definition pack (r : ResidentPrefixIdentity) (null : bool) : res (list Z) :=
  throw_if null invalid_argument ;;
  let write :=
    Writer_u32 (wrap32 (Z.of_nat (length (token_types_ r)))) ;;
    Writer_u32 (wrap32 (Z.of_nat (length (vision_items_ r)))) ;;
    Writer_bytes (token_types_ r) ;;
    Writer_bytes (i32_image (axis0 (positions_ r))) ;;
    Writer_bytes (i32_image (axis1 (positions_ r))) ;;
    Writer_bytes (i32_image (axis2 (positions_ r))) ;;
    for_each (vision_items_ r) write_item in
  match write (MkCursor [] (packed_bytes r)) with
  | (Ok _, w) => throw_if (negb (room w =? 0)) logic_error ;; Ok (written w)
  | (Throw e, _) => Throw e
  end.

(** [r.bytes] into an array of [n] 32-bit or 64-bit values. *)
Fixpoint chunks (width n : nat) (l : list Z) : list Z :=
  match n with
  | O => []
  | S n => le_value (take width l) :: chunks width n (drop width l)
  end.

Definition Reader_i32s (n : Z) : st InCursor (list Z) :=
  l ← Reader_bytes (n * 4); mret (to_i32 <$> chunks 4 (Z.to_nat n) l).

Definition Reader_f64s (n : Z) : st InCursor (list Z) :=
  l ← Reader_bytes (n * 8); mret (chunks 8 (Z.to_nat n) l).

Definition remain : st InCursor Z := r ← get; mret (Z.of_nat (length r)).

Fixpoint read_many {A} (n : nat) (one : st InCursor A) : st InCursor (list A) :=
  match n with
  | O => mret []
  | S n => x ← one; xs ← read_many n one; mret (x :: xs)
  end.

Definition read_span : st InCursor TokenSpan :=
  b ← Reader_u64; c ← Reader_u64; mret (MkTokenSpan b c).

Definition read_item : st InCursor VisionItem :=
  modality ← Reader_u8;
  t ← Reader_i32; h ← Reader_i32; w ← Reader_i32;
  pb ← Reader_u64; pc ← Reader_u64;
  digest ← Reader_bytes 32;
  timestamp_count ← Reader_u32;
  left ← remain;
  st_throw_if (negb (timestamp_count =? 0) && (left / 8 <? timestamp_count)) logic_error ;;
  ts ← Reader_f64s timestamp_count;
  span_count ← Reader_u32;
  left ← remain;
  st_throw_if (negb (span_count =? 0) && (left / 16 <? span_count)) logic_error ;;
  spans ← read_many (Z.to_nat span_count) read_span;
  mret (MkItem modality (MkGrid t h w) pb pc digest ts spans).

Definition kMinVisionItemBytes : Z := 1 + 12 + 16 + 32 + 4 + 4.

(** Everything between the two counts and the check for trailing bytes. *)
Definition read_payload (token_count item_count : Z) : st InCursor ResidentPrefixIdentity :=
  let token_need := wrap64 (token_count + 3 * token_count * 4) in
  left ← remain;
  st_throw_if ((negb (token_count =? 0) && negb (token_need / token_count =? 1 + 3 * 4))
               || (left <? token_need)) logic_error ;;
  types ← Reader_bytes token_count;
  p0 ← Reader_i32s token_count;
  p1 ← Reader_i32s token_count;
  p2 ← Reader_i32s token_count;
  left ← remain;
  st_throw_if (negb (item_count =? 0) && (left / kMinVisionItemBytes <? item_count)) logic_error ;;
  items ← read_many (Z.to_nat item_count) read_item;
  mret (MkIdentity types (MkAxes p0 p1 p2) items).

Definition read_identity : st InCursor ResidentPrefixIdentity :=
  token_count ← Reader_u32;
  item_count ← Reader_u32;
  identity ← read_payload token_count item_count;
  r ← get;
  st_throw_if (negb (length r =? 0)%nat) logic_error ;;
  mret identity.

(** [unpack(src, bytes)] into a fresh identity: the bytes at [src], and whether it is null. *)
Definition unpack (null : bool) (src : list Z) : res ResidentPrefixIdentity :=
  throw_if (null && negb (length src =? 0)%nat) invalid_argument ;;
  fst (read_identity src).
