(* ===== verification/PrefixTheorems.v ===== *)
(** * Prefix identity: the incremental hash, exact matching and serialisation *)

From stdpp Require Import prelude list list_numbers sorting.
From Stdlib Require Import ZArith Lia.
From S2P Require Import Prelude.
From S2P Require Import Bytes.
From S2P Require Import Codec.
From S2P Require Import PrefixIdentity.
#[local] Open Scope Z_scope.

(** ** The item cursor

    [passed a n items] is how many items the recurrence passes while it consumes
    the [n] tokens that end at [a], [a + 1], ...; hashes play no role in it. *)
Fixpoint passed_at (k : Z) (items : list VisionItem) : nat :=
  match items with
  | [] => O
  | item :: items =>
      if bool_decide (token_spans item = []) then S (passed_at k items)
      else if negb (item_end item =? k) then O else S (passed_at k items)
  end.

Lemma mix_items_passed k items : forall h, snd (mix_items k h items) = passed_at k items.
Proof.
  induction items as [|item items IH]; intros h; [done|]. simpl.
  repeat case_match; simpl; rewrite ?IH; done.
Qed.

Fixpoint passed (i n : nat) (items : list VisionItem) : nat :=
  match n with
  | O => O
  | S n => let c := passed_at (Z.of_nat (S i)) items in (c + passed (S i) n (drop c items))%nat
  end.

Lemma passed_split i n m items :
  passed i (n + m) items = (passed i n items + passed (i + n) m (drop (passed i n items) items))%nat.
Proof.
  revert i items. induction n as [|n IH]; intros i items; simpl; [by rewrite Nat.add_0_r, drop_0|].
  rewrite IH. rewrite drop_drop. replace (S i + n)%nat with (i + S n)%nat by lia. lia.
Qed.

Lemma passed_blocked item items : token_spans item <> [] -> forall n i,
  item_end item < Z.of_nat (S i) \/ Z.of_nat (i + n) < item_end item ->
  passed i n (item :: items) = O.
Proof.
  intros Hne. induction n as [|n IH]; intros i Hout; [done|]. cbn [passed passed_at].
  rewrite bool_decide_eq_false_2 by done. rewrite (proj2 (Z.eqb_neq _ _)) by lia.
  cbn [negb]. rewrite drop_0, IH by lia. done.
Qed.

(** An item that ends in the window is reached, and the next is examined there. *)
Lemma passed_reached item items : token_spans item <> [] -> forall n i,
  Z.of_nat (S i) <= item_end item <= Z.of_nat (i + n) ->
  let e := Z.to_nat (item_end item) in
  passed i n (item :: items) = S (passed (e - 1) (i + n - (e - 1)) items).
Proof.
  intros Hne n i Hin e. assert (item_end item = Z.of_nat e) as He by (subst e; lia).
  replace n with ((e - 1 - i) + (1 + (i + n - e)))%nat at 1 by lia.
  rewrite passed_split, (passed_blocked item) by (done || lia).
  rewrite drop_0. cbn [Nat.add passed passed_at].
  rewrite bool_decide_eq_false_2 by done. replace (i + (e - 1 - i))%nat with (e - 1)%nat by lia.
  rewrite (proj2 (Z.eqb_eq _ _)) by lia. cbn [negb].
  replace (i + n - (e - 1))%nat with (S (i + n - e)) by lia. done.
Qed.

Lemma passed_cursor_loop items : forall i n, (0 < n)%nat ->
  passed i n items = cursor_loop (Z.of_nat (S i)) (Z.of_nat (i + n)) items.
Proof.
  induction items as [|item items IH]; intros i n Hn.
  { clear. revert i. induction n as [|n IH]; intros i; [done|]. simpl in *. by rewrite IH. }
  cbn [cursor_loop]. case_bool_decide as Hne.
  - rewrite <- IH by done. destruct n as [|n]; [lia|]. cbn [passed passed_at].
    rewrite bool_decide_eq_true_2 by done. done.
  - destruct ((item_end item <? Z.of_nat (S i)) || (Z.of_nat (i + n) <? item_end item)) eqn:E.
    + apply passed_blocked; [done|]. apply orb_true_iff in E as [?|?]; guards; lia.
    + guards. rewrite passed_reached by (done || lia). f_equal.
      rewrite IH by lia. f_equal; lia.
Qed.

(** [item_cursor_after] is where the recurrence leaves the cursor. *)
Lemma item_cursor_after_passed items n : item_cursor_after items n = passed 0 n items.
Proof.
  unfold item_cursor_after. destruct n as [|n]; [done|]. rewrite passed_cursor_loop by lia. done.
Qed.

(** ** The hash recurrence *)
Fixpoint hash_run (inp : HashInputs) (i n : nat) (s : PrefixHash128 * nat) : PrefixHash128 * nat :=
  match n with
  | O => s
  | S n => hash_run inp (S i) n (hash_step inp i s)
  end.

Lemma hash_run_split inp i n m s :
  hash_run inp i (n + m) s = hash_run inp (i + n) m (hash_run inp i n s).
Proof.
  revert i s. induction n as [|n IH]; intros i s; simpl; [by rewrite Nat.add_0_r|].
  rewrite IH. f_equal. lia.
Qed.

Lemma hash_step_cursor inp i s :
  snd (hash_step inp i s) = (snd s + passed_at (Z.of_nat (S i)) (drop (snd s) (in_items inp)))%nat.
Proof. unfold hash_step, prod_map. cbn [snd]. by rewrite mix_items_passed. Qed.

Lemma hash_run_cursor inp n : forall i s,
  snd (hash_run inp i n s) = (snd s + passed i n (drop (snd s) (in_items inp)))%nat.
Proof.
  induction n as [|n IH]; intros i s; simpl; [lia|].
  rewrite IH, hash_step_cursor. rewrite drop_drop. simpl. lia.
Qed.

Lemma extend_loop_spec inp n : forall i s,
  length (extend_loop inp i n s) = n /\
  (forall j, (j < n)%nat -> extend_loop inp i n s !! j = Some (fst (hash_run inp i (S j) s))) /\
  default (fst s) (last (extend_loop inp i n s)) = fst (hash_run inp i n s).
Proof.
  induction n as [|n IH]; intros i s; [simpl; split_and!; [done|lia|done]|].
  cbn [extend_loop]. destruct (IH (S i) (hash_step inp i s)) as (Hl & Hn & Hd). split_and!.
  - simpl. by rewrite Hl.
  - intros [|j] Hj; [done|]. simpl. rewrite Hn by lia. done.
  - rewrite last_cons. simpl. destruct (last (extend_loop inp (S i) n _)); simpl in *; done.
Qed.

(** The hash of the first [n] tokens. *)
Definition prefix_hash (inp : HashInputs) (n : nat) : PrefixHash128 :=
  fst (hash_run inp 0 n (initial_hash, O)).

(** Extending the hash of a prefix continues the recurrence. *)
Lemma extend_hash_spec inp from to : (from <= to)%nat ->
  fst (extend_hash (prefix_hash inp from) inp from to) = prefix_hash inp to /\
  snd (extend_hash (prefix_hash inp from) inp from to) = prefix_hash inp <$> seq (S from) (to - from).
Proof.
  intros Hle. unfold extend_hash.
  set (s := (prefix_hash inp from, item_cursor_after (in_items inp) from)).
  assert (s = hash_run inp 0 from (initial_hash, O)) as Hs.
  { subst s. rewrite item_cursor_after_passed. unfold prefix_hash.
    pose proof (hash_run_cursor inp from 0 (initial_hash, O)) as Hc. rewrite drop_0 in Hc.
    destruct (hash_run inp 0 from (initial_hash, O)) as [h c]. simpl in *. by rewrite Hc. }
  destruct (extend_loop_spec inp (to - from) from s) as (Hl & Hn & Hd). cbn [fst snd]. split.
  - change (prefix_hash inp from) with (fst s) at 1. rewrite Hd, Hs.
    rewrite <- (hash_run_split inp 0 from). unfold prefix_hash. f_equal. f_equal. lia.
  - apply list_eq. intros j. rewrite list_lookup_fmap.
    destruct (decide (j < to - from)%nat).
    + rewrite Hn by done. rewrite lookup_seq_lt by done. cbn [fmap option_fmap option_map]. unfold prefix_hash.
      rewrite Hs, <- (hash_run_split inp 0 from). do 3 f_equal. lia.
    + rewrite !lookup_ge_None_2; [done|rewrite length_seq; lia|rewrite Hl; lia].
Qed.

Lemma extend_initial inp n :
  fst (extend_hash initial_hash inp 0 n) = prefix_hash inp n /\
  snd (extend_hash initial_hash inp 0 n) = prefix_hash inp <$> seq 1 n.
Proof.
  destruct (extend_hash_spec inp 0 n) as [H1 H2]; [lia|]. rewrite Nat.sub_0_r in H2. done.
Qed.

(** ** What a prefix hash depends on *)
Definition beyond (n : nat) (item : VisionItem) : Prop :=
  token_spans item <> [] /\ Z.of_nat n < item_end item.

Lemma mix_items_beyond n k suf : Forall (beyond n) suf -> k <= Z.of_nat n -> forall pre h,
  mix_items k h (pre ++ suf) = mix_items k h pre.
Proof.
  intros Hs Hk. induction pre as [|item pre IH]; intros h; simpl.
  - destruct Hs as [|item suf [Hne He] _]; [done|]. simpl. rewrite bool_decide_eq_false_2 by done.
    rewrite (proj2 (Z.eqb_neq _ _)) by lia. done.
  - by rewrite !IH.
Qed.

Lemma passed_at_length k items : (passed_at k items <= length items)%nat.
Proof. induction items as [|item items IH]; simpl; [done|]. repeat case_match; lia. Qed.

(** Two inputs agree on their first [n] tokens: the arrays, and the items up to
    those that end later. *)
Definition agree (n : nat) (a b : HashInputs) : Prop :=
  take n (in_tokens a) = take n (in_tokens b) /\ take n (in_types a) = take n (in_types b) /\
  take n (axis0 (in_axes a)) = take n (axis0 (in_axes b)) /\
  take n (axis1 (in_axes a)) = take n (axis1 (in_axes b)) /\
  take n (axis2 (in_axes a)) = take n (axis2 (in_axes b)) /\
  exists pre sa sb, in_items a = pre ++ sa /\ in_items b = pre ++ sb /\
    Forall (beyond n) sa /\ Forall (beyond n) sb.

Lemma nth_take_eq n i (l k : list Z) : take n l = take n k -> (i < n)%nat -> nth i l 0 = nth i k 0.
Proof.
  intros E Hi. rewrite <- (take_drop n l), <- (take_drop n k), E.
  destruct (decide (i < length (take n k))%nat).
  - by rewrite !app_nth1 by done.
  - rewrite length_take in *.
    assert (length (take n l) = length (take n k)) as El by by rewrite E. rewrite !length_take in El.
    rewrite !drop_ge by lia. done.
Qed.

Lemma agree_hash_run n a b : agree n a b -> forall m, (m <= n)%nat ->
  hash_run a 0 m (initial_hash, O) = hash_run b 0 m (initial_hash, O).
Proof.
  intros (Ht & Hy & H0 & H1 & H2 & pre & sa & sb & Ea & Eb & Hsa & Hsb).
  assert (forall m, (m <= n)%nat ->
    hash_run a 0 m (initial_hash, O) = hash_run b 0 m (initial_hash, O) /\
    (snd (hash_run a 0 m (initial_hash, O)) <= length pre)%nat) as H; [|by intros m Hm; apply H].
  induction m as [|m IH]; intros Hm; [simpl; split; [done|lia]|].
  destruct IH as [E Hc]; [lia|]. replace (S m) with (m + 1)%nat by lia. rewrite !hash_run_split, <- E.
  destruct (hash_run a 0 m (initial_hash, O)) as [h c]. simpl in Hc. cbn [hash_run Nat.add].
  unfold hash_step. cbn [fst snd].
  rewrite (nth_take_eq n m _ _ Ht), (nth_take_eq n m _ _ Hy), (nth_take_eq n m _ _ H0),
    (nth_take_eq n m _ _ H1), (nth_take_eq n m _ _ H2) by lia.
  rewrite Ea, Eb, !drop_app_le by done. rewrite !(mix_items_beyond n) by (done || lia).
  split; [done|]. unfold prod_map. cbn [snd]. rewrite mix_items_passed.
  pose proof (passed_at_length (Z.of_nat (S m)) (drop c pre)) as Hp. rewrite length_drop in Hp. lia.
Qed.

Lemma agree_hash n a b m : agree n a b -> (m <= n)%nat -> prefix_hash a m = prefix_hash b m.
Proof. intros H Hm. unfold prefix_hash. by rewrite (agree_hash_run n a b H m Hm). Qed.

(** ** Items up to a frontier *)
Definition item_ok (item : VisionItem) : Prop :=
  Forall (fun s => u64 (span_begin s) /\ u64 (span_count s)) (token_spans item).

#[export] Instance item_ok_dec item : Decision (item_ok item).
Proof. unfold item_ok. apply _. Defined.

Lemma item_end_exact item s :
  item_ok item -> last (token_spans item) = Some s -> span_begin s + span_count s <= size_max ->
  item_end item = span_begin s + span_count s.
Proof.
  intros Hok Hl Hs. unfold item_end. rewrite Hl. apply wrap64_id.
  unfold item_ok in Hok. rewrite Forall_forall in Hok.
  destruct (Hok s) as [H1 H2]; [|width_lia]. apply last_Some in Hl as [l' ->].
  apply elem_of_app. right. by left.
Qed.

Lemma item_count_loop_spec n items : Forall item_ok items -> forall saw count c,
  item_count_loop items (Z.of_nat n) saw count = Some c ->
  exists k, c = (count + k)%nat /\ (k <= length items)%nat /\ (saw = true -> k = O) /\
    Forall (fun it => token_spans it <> [] /\ item_end it <= Z.of_nat n) (take k items) /\
    Forall (beyond n) (drop k items).
Proof.
  induction 1 as [|item items Hok _ IH]; intros saw count c.
  { intros [= <-]. exists O. simpl. split_and!; [lia|lia|done|by constructor|by constructor]. }
  cbn [item_count_loop].
  destruct (head (token_spans item)) as [first|] eqn:Hh; [|done].
  destruct (last (token_spans item)) as [s|] eqn:Hl; [|done].
  destruct ((span_count first =? 0) || (span_count s =? 0) || (size_max - span_count s <? span_begin s)) eqn:E;
    [done|]. guards.
  assert (item_end item = span_begin s + span_count s) as He by (apply item_end_exact; [done..|lia]).
  assert (token_spans item <> []) as Hne by (intros Hn; by rewrite Hn in Hl).
  destruct (span_begin s + span_count s <=? Z.of_nat n) eqn:Ee; guards.
  - destruct saw; [done|]. intros Hc. destruct (IH _ _ _ Hc) as (k & -> & Hk & _ & Ht & Hd).
    exists (S k). simpl. split_and!; [lia|lia|done| |done]. constructor; [split; [done|lia]|done].
  - destruct (Z.of_nat n <=? span_begin first); [|done].
    intros Hc. destruct (IH _ _ _ Hc) as (k & -> & Hk & Hs & Ht & Hd).
    rewrite Hs in * by done. exists O. simpl. rewrite drop_0 in Hd.
    split_and!; [lia|lia|done|by constructor|]. constructor; [split; [done|lia]|done].
Qed.

Lemma prefix_item_count_spec n items c :
  Forall item_ok items -> prefix_item_count items n = Some c ->
  (c <= length items)%nat /\
  Forall (fun it => token_spans it <> [] /\ item_end it <= Z.of_nat n) (take c items) /\
  Forall (beyond n) (drop c items).
Proof. intros Hok H. by destruct (item_count_loop_spec n items Hok _ _ _ H) as (k & -> & ? & _ & ? & ?). Qed.

(** ** The hash cache under its owner's discipline *)
Record owner : Type := MkOwner {
  o_tokens : list Z;
  o_identity : ResidentPrefixIdentity;
  o_hashes : ResidentPrefixHashes;
}.

(** What an owner of a ledger, its identity and the hash cache does: installs a
    prompt with its chain, appends tokens or generated identity entries (a failing
    append included), truncates the cache at or below what it then drops, asks. *)
Inductive owner_step : owner -> owner -> Prop :=
| owner_clear t r h r' h' :
    identity_clear r = (Ok tt, r') -> hashes_clear h = (Ok tt, h') ->
    owner_step (MkOwner t r h) (MkOwner [] r' h')
| owner_assign t r h p chain r' h' :
    Forall item_ok (vision_items p) -> prefix_hash_chain p = Ok chain ->
    identity_assign p r = (Ok tt, r') -> hashes_assign chain h = (Ok tt, h') ->
    owner_step (MkOwner t r h) (MkOwner (token_ids p) r' h')
| owner_push t r h more : owner_step (MkOwner t r h) (MkOwner (t ++ more) r h)
| owner_generate t r h count rope_delta out r' :
    append_generated count rope_delta r = (out, r') ->
    owner_step (MkOwner t r h) (MkOwner t r' h)
| owner_truncate t r h p nt nr r' h' :
    (p <= nt)%nat -> (p <= nr)%nat -> hashes_truncate p h = (Ok tt, h') ->
    identity_truncate nr r = (Ok tt, r') ->
    owner_step (MkOwner t r h) (MkOwner (take nt t) r' h')
| owner_query t r h count out h' :
    hashes_at t r count h = (out, h') -> owner_step (MkOwner t r h) (MkOwner t r h').

Definition new_owner : owner := MkOwner [] empty_identity [].

Definition axes_full (r : ResidentPrefixIdentity) : Prop :=
  length (axis0 (positions_ r)) = identity_size r /\ length (axis1 (positions_ r)) = identity_size r /\
  length (axis2 (positions_ r)) = identity_size r.

Record owner_ok (o : owner) : Prop := MkOwnerOk {
  oo_axes : axes_full (o_identity o);
  oo_items : Forall item_ok (vision_items_ (o_identity o));
  oo_length : (length (o_hashes o) <= S (length (o_tokens o)))%nat /\
              (length (o_hashes o) <= S (identity_size (o_identity o)))%nat;
  oo_hashes : o_hashes o =
    prefix_hash (resident_inputs (o_tokens o) (o_identity o)) <$> seq 0 (length (o_hashes o));
}.

(** The cached hashes stay right when the inputs change only beyond them. *)
Lemma hashes_agree (h : ResidentPrefixHashes) a b n :
  h = prefix_hash a <$> seq 0 (length h) -> agree n a b -> (length h <= S n)%nat ->
  h = prefix_hash b <$> seq 0 (length h).
Proof.
  intros Hh Hag Hl. rewrite Hh at 1. apply list_fmap_ext. intros i k Hk.
  apply lookup_seq in Hk as [-> Hi]. apply (agree_hash n); [done|lia].
Qed.

Lemma take_app_agree {A} n (l k : list A) : (n <= length l)%nat -> take n l = take n (l ++ k).
Proof. intros. by rewrite take_app_le. Qed.

(** [r'] is [r] with entries appended. *)
Definition grown (r r' : ResidentPrefixIdentity) : Prop :=
  axes_full r' /\ vision_items_ r' = vision_items_ r /\
  exists t a0 a1 a2, token_types_ r' = token_types_ r ++ t /\
    axis0 (positions_ r') = axis0 (positions_ r) ++ a0 /\
    axis1 (positions_ r') = axis1 (positions_ r) ++ a1 /\
    axis2 (positions_ r') = axis2 (positions_ r) ++ a2.

Lemma grown_refl r : axes_full r -> grown r r.
Proof. intros. split_and!; [done|done|]. exists [], [], [], []. by rewrite !app_nil_r. Qed.

Lemma grown_trans r1 r2 r3 : grown r1 r2 -> grown r2 r3 -> grown r1 r3.
Proof.
  intros (_ & Hv1 & t1 & b0 & b1 & b2 & E2 & E3 & E4 & E5).
  intros (Hax & Hv2 & t2 & c0 & c1 & c2 & F2 & F3 & F4 & F5).
  rewrite E2 in F2. rewrite E3 in F3. rewrite E4 in F4. rewrite E5 in F5.
  split_and!; [done|congruence|]. rewrite F2, F3, F4, F5, <- !app_assoc. eauto 10.
Qed.

Lemma append_one_grown delta i r out r' :
  append_one delta i r = (out, r') -> axes_full r -> grown r r'.
Proof.
  unfold append_one. intros H Hax.
  destruct (i32_max <? Z.of_nat i) eqn:E1.
  { injection H as _ <-. by apply grown_refl. }
  rewrite (st_bind_Ok _ _ r tt r) in H by done.
  destruct ((Z.of_nat i + delta <? - 2 ^ 31) || (i32_max <? Z.of_nat i + delta)).
  { injection H as _ <-. by apply grown_refl. }
  injection H as _ <-. split_and!; [|done|cbn; eauto 10].
  destruct Hax as (? & ? & ?). unfold axes_full, identity_size in *. simpl. rewrite !length_app. simpl. lia.
Qed.

Lemma append_loop_grown delta indices : forall r out r',
  for_each indices (append_one delta) r = (out, r') -> axes_full r -> grown r r'.
Proof.
  induction indices as [|i indices IH]; intros r out r' H Hax.
  { injection H as _ <-. by apply grown_refl. }
  cbn [for_each] in H. destruct (append_one delta i r) as [[[]|e] r1] eqn:E1;
    pose proof (append_one_grown _ _ _ _ _ E1 Hax) as Hg.
  - rewrite (st_bind_Ok _ _ _ _ _ E1) in H. eapply grown_trans; [done|]. eapply IH; [done|]. apply Hg.
  - rewrite (st_bind_Throw _ _ _ _ _ E1) in H. by injection H as <- <-.
Qed.

Lemma append_generated_grown count delta r out r' :
  append_generated count delta r = (out, r') -> axes_full r -> grown r r'.
Proof.
  unfold append_generated. intros H Hax. rewrite (st_bind_Ok _ _ r r r) in H by done.
  destruct (size_max - Z.of_nat (identity_size r) <? Z.of_nat count).
  - injection H as _ <-. by apply grown_refl.
  - rewrite (st_bind_Ok _ _ r tt r) in H by done. by eapply append_loop_grown.
Qed.

Lemma grown_agree r r' tokens :
  axes_full r -> grown r r' ->
  (identity_size r <= identity_size r')%nat /\
  agree (identity_size r) (resident_inputs tokens r) (resident_inputs tokens r').
Proof.
  intros (L0 & L1 & L2) (_ & Hv & t & a0 & a1 & a2 & Et & E0 & E1 & E2).
  split; [unfold identity_size; rewrite Et, length_app; lia|].
  unfold agree, resident_inputs. cbn [in_tokens in_types in_axes in_items].
  rewrite Et, E0, E1, E2, Hv. split_and!; [done|by apply take_app_agree|apply take_app_agree; lia..|].
  exists (vision_items_ r), [], []. rewrite app_nil_r. by split_and!.
Qed.

Lemma identity_truncate_agree n nt r r' tokens :
  identity_truncate n r = (Ok tt, r') -> axes_full r -> Forall item_ok (vision_items_ r) ->
  axes_full r' /\ Forall item_ok (vision_items_ r') /\ identity_size r' = n /\
  agree (Nat.min nt n) (resident_inputs tokens r) (resident_inputs (take nt tokens) r').
Proof.
  intros H (L0 & L1 & L2) Hok. unfold identity_truncate in H.
  rewrite (st_bind_Ok _ _ r r r) in H by done. st_inv H. apply Nat.ltb_ge in H0.
  destruct (prefix_item_count (vision_items_ r) n) as [c|] eqn:Ec; [|done].
  injection H as <-. unfold axes_full, identity_size, axes_map in *. cbn.
  destruct (prefix_item_count_spec n _ c Hok Ec) as (Hc & _ & Hd).
  rewrite !length_take. split_and!; [lia..|by apply Forall_take|lia|].
  unfold agree. cbn. rewrite !take_take, !(Nat.min_l (Nat.min nt n)) by lia.
  split_and!; [done..|]. exists (take c (vision_items_ r)), (drop c (vision_items_ r)), [].
  rewrite take_drop, app_nil_r. split_and!; [done|done| |by constructor].
  eapply Forall_impl; [apply Hd|]. intros it [? ?]. split; [done|lia].
Qed.

Lemma bad_shape_false p : bad_shape p = false ->
  length (token_types p) = length (token_ids p) /\ length (positions p) = (3 * length (token_ids p))%nat.
Proof.
  unfold bad_shape. intros [H1 H2]%orb_false_iff.
  apply negb_false_iff, Nat.eqb_eq in H1. apply negb_false_iff, Nat.eqb_eq in H2. done.
Qed.

Lemma prefix_hash_chain_spec p chain :
  prefix_hash_chain p = Ok chain ->
  bad_shape p = false /\
  chain = prefix_hash (MkInputs (token_ids p) (token_types p) (prompt_axes p) (vision_items p))
            <$> seq 0 (S (length (token_ids p))).
Proof.
  unfold prefix_hash_chain. intros H. res_inv H. split; [done|].
  assert (forall (a b : list PrefixHash128), Ok a = Ok b -> b = a) as Hinj by congruence.
  apply Hinj in H. by rewrite (proj2 (extend_initial _ _)) in H.
Qed.

Lemma hashes_at_query t r h count :
  h = prefix_hash (resident_inputs t r) <$> seq 0 (length h) ->
  (count <= length t)%nat -> (count <= identity_size r)%nat ->
  exists h', hashes_at t r count h = (Ok (prefix_hash (resident_inputs t r) count), h') /\
    h' = prefix_hash (resident_inputs t r) <$> seq 0 (length h') /\
    (length h' <= Nat.max (length h) (S count))%nat.
Proof.
  intros Hh Ht Hr. set (f := prefix_hash (resident_inputs t r)) in *. unfold hashes_at.
  rewrite (proj2 (Nat.ltb_ge _ _) Ht), (proj2 (Nat.ltb_ge _ _) Hr).
  rewrite (st_bind_Ok _ _ h tt h), (st_bind_Ok _ _ h h h) by done.
  destruct (decide (count < length h)%nat) as [Hlt|Hge].
  { assert (h !! count = Some (f count)) as -> by (by rewrite Hh, list_lookup_fmap, lookup_seq_lt).
    exists h. split_and!; [done|done|lia]. }
  rewrite lookup_ge_None_2 by lia.
  set (h1 := match h with [] => [initial_hash] | _ => h end).
  assert (h1 = f <$> seq 0 (length h1) /\ (0 < length h1)%nat /\ (length h1 <= S count)%nat /\
          (length h1 <= Nat.max (length h) (S count))%nat) as (Hh1 & Hpos & Hle & Hmax).
  { subst h1. destruct h; simpl in *; [split_and!; [done|lia..]|split_and!; [done|lia..]]. }
  assert (default initial_hash (last h1) = f (length h1 - 1)%nat) as Hlast.
  { rewrite last_lookup, Hh1, length_fmap, length_seq.
    replace (Init.Nat.pred (length h1)) with (length h1 - 1)%nat by lia.
    rewrite list_lookup_fmap, lookup_seq_lt by lia. done. }
  destruct (extend_hash_spec (resident_inputs t r) (length h1 - 1) count) as [E1 E2]; [lia|].
  fold f in E1, E2. rewrite Hlast. eexists. split; [unfold put, mbind, st_bind, mret, st_ret; by rewrite E1|].
  rewrite E2. split.
  - rewrite length_app, length_fmap, length_seq, seq_app, fmap_app, <- Hh1. f_equal.
    f_equal. f_equal; lia.
  - rewrite length_app, length_fmap, length_seq. lia.
Qed.

Lemma hashes_at_refused t r h count :
  (length t < count)%nat \/ (identity_size r < count)%nat -> hashes_at t r count h = (Throw out_of_range, h).
Proof.
  intros Hbad. unfold hashes_at.
  replace ((length t <? count)%nat || (identity_size r <? count)%nat) with true; [done|].
  symmetry. apply orb_true_iff. rewrite !Nat.ltb_lt. done.
Qed.

Lemma agree_le n m a b : agree n a b -> (m <= n)%nat -> agree m a b.
Proof.
  intros (Ht & Hy & H0 & H1 & H2 & pre & sa & sb & Ea & Eb & Hsa & Hsb) Hm.
  assert (forall l k : list Z, take n l = take n k -> take m l = take m k) as Htk.
  { intros l k E. replace m with (Nat.min m n) by lia. by rewrite <- !take_take, E. }
  unfold agree. split_and!; [auto..|]. exists pre, sa, sb. split_and!; [done..| |];
    (eapply Forall_impl; [eassumption|]); intros it [? ?]; (split; [done|lia]).
Qed.

Lemma new_owner_ok : owner_ok new_owner.
Proof. split; [done|constructor|simpl; lia|done]. Qed.

Lemma owner_assign_ok p r h chain r' h' :
  Forall item_ok (vision_items p) -> prefix_hash_chain p = Ok chain ->
  identity_assign p r = (Ok tt, r') -> hashes_assign chain h = (Ok tt, h') ->
  owner_ok (MkOwner (token_ids p) r' h').
Proof.
  intros Hok Hc Hr Hh. destruct (prefix_hash_chain_spec p chain Hc) as [Hs Hchain].
  destruct (bad_shape_false p Hs) as [Lt Lp].
  unfold identity_assign in Hr. rewrite Hs, (st_bind_Ok _ _ r tt r) in Hr by done. injection Hr as <-.
  unfold hashes_assign in Hh. st_inv Hh. assert (h' = chain) as -> by (unfold put in Hh; congruence).
  assert (length chain = S (length (token_ids p))) as Lc
    by (rewrite Hchain, length_fmap, length_seq; done).
  split; cbn [o_tokens o_identity o_hashes].
  - unfold axes_full, identity_size, prompt_axes. cbn -[Nat.mul]. rewrite !length_take, !length_drop. lia.
  - done.
  - unfold identity_size. cbn. lia.
  - rewrite Lc. exact Hchain.
Qed.

Lemma owner_truncate_ok t r h p nt nr r' h' :
  owner_ok (MkOwner t r h) -> (p <= nt)%nat -> (p <= nr)%nat -> hashes_truncate p h = (Ok tt, h') ->
  identity_truncate nr r = (Ok tt, r') -> owner_ok (MkOwner (take nt t) r' h').
Proof.
  intros [Hax Hit [Hl1 Hl2] Hh] Hpt Hpr Eh Er. cbn [o_tokens o_identity o_hashes] in *.
  destruct (identity_truncate_agree nr nt r r' t Er Hax Hit) as (Hax' & Hit' & Hsz & Hag).
  assert (h' = take (p + 1) h) as ->.
  { unfold hashes_truncate in Eh. rewrite (st_bind_Ok _ _ h h h) in Eh by done. injection Eh as <-.
    destruct (Nat.ltb_spec (p + 1) (length h)); [done|]. by rewrite take_ge. }
  split; cbn [o_tokens o_identity o_hashes]; [done|done|rewrite !length_take; lia|].
  apply (hashes_agree _ (resident_inputs t r) _ (Nat.min nt nr)); [|done|rewrite length_take; lia].
  rewrite Hh at 1. rewrite <- fmap_take, take_seq, length_take. done.
Qed.

Lemma owner_step_ok o o' : owner_step o o' -> owner_ok o -> owner_ok o'.
Proof.
  intros Hs Ho. destruct Hs as [t r h r' h' Hr Hh|t r h p chain r' h' Hi Hc Hr Hh|t r h more
    |t r h count d out r' Hg|t r h p nt nr r' h' Hpt Hpr Hh Hr|t r h count out h' Hq].
  - injection Hr as <-. injection Hh as <-. apply new_owner_ok.
  - by eapply owner_assign_ok.
  - destruct Ho as [Hax Hit [Hl1 Hl2] Hh]. cbn [o_tokens o_identity o_hashes] in *.
    split; cbn [o_tokens o_identity o_hashes]; [done|done|rewrite length_app; lia|].
    apply (hashes_agree _ (resident_inputs t r) _ (length t)); [done| |done]. unfold agree, resident_inputs. cbn.
    split_and!; [by apply take_app_agree|done..|]. exists (vision_items_ r), [], [].
    rewrite app_nil_r. by split_and!.
  - destruct Ho as [Hax Hit [Hl1 Hl2] Hh]. cbn [o_tokens o_identity o_hashes] in *.
    pose proof (append_generated_grown _ _ _ _ _ Hg Hax) as Hgr.
    destruct (grown_agree r r' t Hax Hgr) as [Hsz Hag]. destruct Hgr as (Hax' & Hv & _).
    split; cbn [o_tokens o_identity o_hashes]; [done|by rewrite Hv|lia|]. by eapply hashes_agree.
  - by eapply owner_truncate_ok.
  - destruct Ho as [Hax Hit [Hl1 Hl2] Hh]. cbn [o_tokens o_identity o_hashes] in *.
    destruct (decide (count <= length t /\ count <= identity_size r)%nat) as [[Ht Hr]|Hbad].
    + destruct (hashes_at_query t r h count Hh Ht Hr) as (h2 & E & Hh2 & Hlen).
      rewrite E in Hq. injection Hq as <- <-. split; cbn [o_tokens o_identity o_hashes]; [done|done|lia|done].
    + rewrite hashes_at_refused in Hq by lia. by injection Hq as <- <-.
Qed.

Lemma owner_reach_ok o : rtc owner_step new_owner o -> owner_ok o.
Proof.
  intros H. remember new_owner as o0. assert (owner_ok o0) as H0 by (subst; apply new_owner_ok).
  clear Heqo0. induction H as [|x y z Hs _ IH]; [done|]. apply IH. by eapply owner_step_ok.
Qed.

(** C40: The incremental hash cache is exact: after any sequence of installing
    prompts, appending, truncating (the cache at or below the cut) and querying,
    [ResidentPrefixHashes::at] answers every count as [prefix_hash_at], which
    hashes the whole prefix again, does, and refuses the same counts. *)
Theorem resident_hashes_exact o count :
  rtc owner_step new_owner o ->
  fst (hashes_at (o_tokens o) (o_identity o) count (o_hashes o)) =
  prefix_hash_at (o_tokens o) (o_identity o) count.
Proof.
  intros [Hax Hit _ Hh]%owner_reach_ok. set (t := o_tokens o) in *. set (r := o_identity o) in *.
  unfold prefix_hash_at.
  destruct (decide (count <= length t /\ count <= identity_size r)%nat) as [[Ht Hr]|Hbad].
  - destruct (hashes_at_query t r _ count Hh Ht Hr) as (h' & -> & _).
    rewrite (proj2 (Nat.ltb_ge _ _) Ht), (proj2 (Nat.ltb_ge _ _) Hr).
    cbn [orb throw_if mbind res_bind]. by rewrite (proj1 (extend_initial _ _)).
  - rewrite hashes_at_refused by lia.
    replace ((length t <? count)%nat || (identity_size r <? count)%nat) with true; [done|].
    symmetry. apply orb_true_iff. rewrite !Nat.ltb_lt. lia.
Qed.

(** ** Exact matching *)
Lemma vector_eq_true {A} (eqb : A -> A -> bool) l k :
  (forall x y, x ∈ l -> y ∈ k -> eqb x y = true -> x = y) -> vector_eq eqb l k = true -> l = k.
Proof.
  revert k. induction l as [|x l IH]; intros [|y k] He H; simpl in H; try done.
  apply andb_true_iff in H as [H1 H2]. f_equal.
  - apply He; [by left|by left|done].
  - apply IH; [|done]. intros a b Ha Hb. apply He; by right.
Qed.

(** No timestamp is the negative zero, so [==] on them is bit equality. *)
Definition canonical_times (item : VisionItem) : Prop :=
  Forall (fun t => f64_zero t = true -> t = 0) (timestamps item).

#[export] Instance canonical_times_dec item : Decision (canonical_times item).
Proof. unfold canonical_times. apply _. Defined.

Lemma same_item_eq a b :
  canonical_times a -> canonical_times b -> same_item a b = true -> a = b.
Proof.
  unfold canonical_times. rewrite !Forall_forall.
  destruct a as [ma [ta ha wa] pa qa da sa xa], b as [mb [tb hb wb] pb qb db sb xb].
  unfold same_item, same_grid, same_spans. cbn. intros Ca Cb H. guards.
  repeat match goal with H : _ && _ = true |- _ => apply andb_true_iff in H as [? ?] end. guards. subst.
  f_equal.
  - eapply vector_eq_true; [|done]. intros x y _ _. apply Z.eqb_eq.
  - eapply vector_eq_true; [|done]. unfold f64_eq. intros x y Hx Hy Hxy. guards.
    match goal with H : _ || _ = true |- _ => apply orb_true_iff in H as [E|E] end; guards; [done|].
    rewrite (Ca x), (Cb y) by done. done.
  - eapply vector_eq_true; [|done]. intros [b1 c1] [b2 c2] _ _ E. simpl in E. guards. by subst.
Qed.

Lemma equal_n_true n a b : equal_n n a b = true -> take n a = take n b.
Proof. apply bool_decide_eq_true_1. Qed.

Lemma identity_matches_agree p tokens r n :
  Forall item_ok (vision_items p) -> Forall item_ok (vision_items_ r) ->
  Forall canonical_times (vision_items p) -> Forall canonical_times (vision_items_ r) ->
  prefix_matches p tokens r n = true ->
  bad_shape p = false /\ (n <= length (token_ids p))%nat /\ (n <= length tokens)%nat /\
  (n <= identity_size r)%nat /\
  agree n (MkInputs (token_ids p) (token_types p) (prompt_axes p) (vision_items p))
          (resident_inputs tokens r).
Proof.
  intros Kp Kr Cp Cr. unfold prefix_matches, identity_matches.
  destruct ((length (token_ids p) <? n)%nat || (length tokens <? n)%nat) eqn:E1; [done|].
  intros [Et H]%andb_true_iff. apply equal_n_true in Et.
  destruct ((length (token_ids p) <? n)%nat || (identity_size r <? n)%nat || bad_shape p) eqn:E2; [done|].
  destruct (equal_n n (token_types p) (token_types_ r)) eqn:E3; [|done].
  apply equal_n_true in E3. cbn [negb] in H.
  destruct (equal_n n (axis0 (prompt_axes p)) (axis0 (positions_ r))) eqn:A0; [|done].
  destruct (equal_n n (axis1 (prompt_axes p)) (axis1 (positions_ r))) eqn:A1; [|done].
  destruct (equal_n n (axis2 (prompt_axes p)) (axis2 (positions_ r))) eqn:A2; [|done].
  apply equal_n_true in A0, A1, A2. cbn [negb andb] in H.
  destruct (prefix_item_count (vision_items p) n) as [c|] eqn:Cnt; [|done].
  destruct (prefix_item_count (vision_items_ r) n) as [d|] eqn:Cnt'; [|done].
  apply andb_true_iff in H as [<-%Nat.eqb_eq Hsame].
  destruct (prefix_item_count_spec _ _ _ Kp Cnt) as (_ & _ & Bp).
  destruct (prefix_item_count_spec _ _ _ Kr Cnt') as (_ & _ & Br).
  apply orb_false_iff in E1 as [N1%Nat.ltb_ge N2%Nat.ltb_ge].
  apply orb_false_iff in E2 as [[_ N3%Nat.ltb_ge]%orb_false_iff Hsh].
  split_and!; [done|lia|lia|lia|]. unfold agree, resident_inputs. cbn [in_tokens in_types in_axes in_items].
  split_and!; [done..|].
  exists (take c (vision_items p)), (drop c (vision_items p)), (drop c (vision_items_ r)).
  rewrite take_drop. split_and!; [done| |done|done].
  rewrite <- (take_drop c (vision_items_ r)) at 1. f_equal. symmetry.
  eapply vector_eq_true; [|exact Hsame]. intros x y Hx Hy. apply same_item_eq.
  - rewrite Forall_forall in Cp. apply Cp. by eapply subseteq_take.
  - rewrite Forall_forall in Cr. apply Cr. by eapply subseteq_take.
Qed.

(** The hashes of the two sides of a match. *)
Lemma matching_hash p tokens r n :
  Forall item_ok (vision_items p) -> Forall item_ok (vision_items_ r) ->
  Forall canonical_times (vision_items p) -> Forall canonical_times (vision_items_ r) ->
  prefix_matches p tokens r n = true ->
  exists chain h, prefix_hash_chain p = Ok chain /\ chain !! n = Some h /\
    prefix_hash_at tokens r n = Ok h.
Proof.
  intros Kp Kr Cp Cr H.
  destruct (identity_matches_agree p tokens r n Kp Kr Cp Cr H) as (Hs & N1 & N2 & N3 & Hag).
  exists (initial_hash :: snd (extend_hash initial_hash
    (MkInputs (token_ids p) (token_types p) (prompt_axes p) (vision_items p)) 0 (length (token_ids p)))).
  exists (prefix_hash (resident_inputs tokens r) n). split_and!.
  - unfold prefix_hash_chain. by rewrite Hs.
  - rewrite (proj2 (extend_initial _ _)), <- (agree_hash n _ _ n Hag) by done.
    destruct n as [|n]; [done|]. rewrite lookup_cons, list_lookup_fmap, lookup_seq_lt by lia. done.
  - unfold prefix_hash_at. rewrite (proj2 (Nat.ltb_ge _ _) N2), (proj2 (Nat.ltb_ge _ _) N3).
    cbn [orb throw_if mbind res_bind]. by rewrite (proj1 (extend_initial _ _)).
Qed.

(** A prefix that [prefix_matches] accepts has the same hash on both sides: the
    prompt's [prefix_hash_chain] at that count equals [prefix_hash_at] of the
    resident ledger, so the hash filter of the prefix caches never hides an exact
    match; and the two sides agree on every token, type, position and Vision item
    the prefix represents. *)
Theorem matching_prefix_same_hash p tokens r n :
  Forall item_ok (vision_items p) -> Forall item_ok (vision_items_ r) ->
  Forall canonical_times (vision_items p) -> Forall canonical_times (vision_items_ r) ->
  prefix_matches p tokens r n = true ->
  take n (token_ids p) = take n tokens /\ take n (token_types p) = take n (token_types_ r) /\
  (exists pre sp sr, vision_items p = pre ++ sp /\ vision_items_ r = pre ++ sr /\
     Forall (beyond n) sp /\ Forall (beyond n) sr) /\
  exists chain h, prefix_hash_chain p = Ok chain /\ chain !! n = Some h /\
    prefix_hash_at tokens r n = Ok h.
Proof.
  intros Kp Kr Cp Cr H.
  destruct (identity_matches_agree p tokens r n Kp Kr Cp Cr H) as (_ & _ & _ & _ & Hag).
  pose proof Hag as (T1 & T2 & _ & _ & _ & Hit). cbn in T1, T2, Hit. split_and!; [done..|].
  by apply matching_hash.
Qed.

(** ** Serialisation *)
Definition item_packable (it : VisionItem) : Prop :=
  is_byte (modality it) /\ i32 (temporal (grid it)) /\ i32 (grid_height (grid it)) /\
  i32 (grid_width (grid it)) /\ u64 (patch_begin it) /\ u64 (patch_count it) /\
  length (content_digest it) = 32%nat /\
  Forall u64 (timestamps it) /\ Z.of_nat (length (timestamps it)) <= u32_max /\
  item_ok it /\ Z.of_nat (length (token_spans it)) <= u32_max.

#[export] Instance item_packable_dec it : Decision (item_packable it).
Proof. unfold item_packable, is_byte. apply _. Defined.

(** An identity whose values have the widths of their C++ types. *)
Definition packable (r : ResidentPrefixIdentity) : Prop :=
  axes_full r /\ Forall i32 (axis0 (positions_ r)) /\ Forall i32 (axis1 (positions_ r)) /\
  Forall i32 (axis2 (positions_ r)) /\ Z.of_nat (identity_size r) <= u32_max /\
  Forall item_packable (vision_items_ r) /\ Z.of_nat (length (vision_items_ r)) <= u32_max.

#[export] Instance packable_dec r : Decision (packable r).
Proof. unfold packable, axes_full. apply _. Defined.

Definition span_image (s : TokenSpan) : list Z := le_bytes 8 (span_begin s) ++ le_bytes 8 (span_count s).

Definition item_image (it : VisionItem) : list Z :=
  le_bytes 1 (modality it) ++ le_bytes 4 (temporal (grid it)) ++ le_bytes 4 (grid_height (grid it)) ++
  le_bytes 4 (grid_width (grid it)) ++ le_bytes 8 (patch_begin it) ++ le_bytes 8 (patch_count it) ++
  content_digest it ++ le_bytes 4 (Z.of_nat (length (timestamps it))) ++
  concat (le_bytes 8 <$> timestamps it) ++ le_bytes 4 (Z.of_nat (length (token_spans it))) ++
  concat (span_image <$> token_spans it).

Definition identity_image (r : ResidentPrefixIdentity) : list Z :=
  le_bytes 4 (Z.of_nat (length (token_types_ r))) ++ le_bytes 4 (Z.of_nat (length (vision_items_ r))) ++
  token_types_ r ++ i32_image (axis0 (positions_ r)) ++ i32_image (axis1 (positions_ r)) ++
  i32_image (axis2 (positions_ r)) ++ concat (item_image <$> vision_items_ r).

Lemma length_concat_const {A} (f : A -> list Z) n l :
  (forall x, length (f x) = n) -> length (concat (f <$> l)) = (length l * n)%nat.
Proof. intros H. induction l as [|x l IH]; [done|]. rewrite fmap_cons. cbn [concat length].
  rewrite length_app, H, IH. lia.
Qed.

Lemma length_item_image it :
  length (content_digest it) = 32%nat -> Z.of_nat (length (item_image it)) = item_bytes it.
Proof.
  intros Hd. unfold item_image, item_bytes. rewrite !length_app, !length_le_bytes, Hd.
  rewrite (length_concat_const _ 8), (length_concat_const span_image 16) by (intros; apply length_le_bytes || done).
  lia.
Qed.

Lemma length_identity_image r :
  packable r -> Z.of_nat (length (identity_image r)) = packed_bytes r.
Proof.
  intros ((L0 & L1 & L2) & _ & _ & _ & _ & Hit & _). unfold identity_image, packed_bytes.
  rewrite !length_app, !length_le_bytes, !length_i32_image, L0, L1, L2.
  set (base := 8 + Z.of_nat (identity_size r) + 3 * Z.of_nat (identity_size r) * 4).
  assert (forall items t, Forall item_packable items ->
    foldl (fun total item => total + item_bytes item) t items =
    t + Z.of_nat (length (concat (item_image <$> items)))) as Hf.
  { intros items. induction items as [|it items IH]; intros t Hf; [cbn; lia|].
    apply Forall_cons in Hf as [H1 H2]. cbn [foldl]. rewrite IH by done.
    rewrite fmap_cons. cbn [concat]. rewrite length_app, <- (length_item_image it) by apply H1. lia. }
  rewrite Hf by done. unfold base, identity_size. lia.
Qed.

Lemma wrap32_le_bytes x : le_bytes 4 (wrap32 x) = le_bytes 4 x.
Proof. apply (le_bytes_wrap 4). Qed.

Lemma writes_item it : writes (write_item it) (item_image it).
Proof.
  unfold write_item, item_image. rewrite <- (wrap32_le_bytes (Z.of_nat (length (timestamps it)))).
  rewrite <- (wrap32_le_bytes (Z.of_nat (length (token_spans it)))).
  repeat (apply writes_bind; [apply writes_field|]).
  apply writes_for_each. intros s _. apply writes_bind; apply writes_field.
Qed.

Lemma pack_image r : packable r -> pack r false = Ok (identity_image r).
Proof.
  intros Hr. pose proof (length_identity_image r Hr) as Hl. unfold pack. cbn [throw_if mbind res_bind].
  assert (writes (Writer_u32 (wrap32 (Z.of_nat (length (token_types_ r)))) ;;
    Writer_u32 (wrap32 (Z.of_nat (length (vision_items_ r)))) ;;
    Writer_bytes (token_types_ r) ;;
    Writer_bytes (i32_image (axis0 (positions_ r))) ;;
    Writer_bytes (i32_image (axis1 (positions_ r))) ;;
    Writer_bytes (i32_image (axis2 (positions_ r))) ;;
    for_each (vision_items_ r) write_item) (identity_image r)) as Hw.
  { unfold identity_image. rewrite <- (wrap32_le_bytes (Z.of_nat (length (token_types_ r)))).
    rewrite <- (wrap32_le_bytes (Z.of_nat (length (vision_items_ r)))).
    repeat (apply writes_bind; [apply writes_field|]).
    apply writes_for_each. intros it _. apply writes_item. }
  rewrite (Hw (MkCursor [] (packed_bytes r))) by (cbn [room]; lia). cbn [advance written room app].
  rewrite Hl, Z.sub_diag. done.
Qed.

Lemma reads_remain {A} (bad : Z -> bool) e (k : st InCursor A) l y :
  (forall n, Z.of_nat (length l) <= n -> bad n = false) -> reads k l y ->
  reads (left ← remain; st_throw_if (bad left) e ;; k) l y.
Proof.
  intros Hb Hk rest.
  rewrite (st_bind_Ok _ _ _ (Z.of_nat (length (l ++ rest))) (l ++ rest)) by done.
  rewrite (st_bind_Ok _ _ _ tt (l ++ rest)); [apply Hk|].
  unfold st_throw_if, lift, throw_if. rewrite Hb; [done|]. rewrite length_app. lia.
Qed.

Lemma reads_many {A} (one : st InCursor A) (f : A -> list Z) xs :
  (forall x, x ∈ xs -> reads one (f x) x) -> reads (read_many (length xs) one) (concat (f <$> xs)) xs.
Proof.
  induction xs as [|x xs IH]; intros H; [apply reads_ret|]. cbn [length read_many fmap list_fmap concat].
  eapply reads_bind; [apply H; by left|]. eapply reads_map; [|done].
  apply IH. intros y Hy. apply H. by right.
Qed.

Lemma chunks_image w xs rest :
  chunks w (length xs) (concat (le_bytes w <$> xs) ++ rest) = (fun x => le_value (le_bytes w x)) <$> xs.
Proof.
  induction xs as [|x xs IH]; [done|]. cbn [length chunks fmap list_fmap concat]. rewrite <- app_assoc.
  rewrite take_app_length' by (symmetry; apply length_le_bytes). rewrite drop_app_length' by (symmetry; apply length_le_bytes).
  by rewrite IH.
Qed.

Lemma reads_i32s xs n : Forall i32 xs -> n = Z.of_nat (length xs) -> reads (Reader_i32s n) (i32_image xs) xs.
Proof.
  intros Hx ->. unfold Reader_i32s.
  eapply reads_map; [apply reads_field; rewrite length_i32_image; lia|]. rewrite Nat2Z.id.
  unfold i32_image. rewrite <- (app_nil_r (concat _)), chunks_image, <- list_fmap_compose.
  rewrite <- (list_fmap_id xs) at 2. apply list_fmap_ext. intros i x Hi. simpl.
  apply le_value_i32. rewrite Forall_lookup in Hx. eauto.
Qed.

Lemma reads_f64s xs n :
  Forall u64 xs -> n = Z.of_nat (length xs) -> reads (Reader_f64s n) (concat (le_bytes 8 <$> xs)) xs.
Proof.
  intros Hx ->. unfold Reader_f64s.
  eapply reads_map;
    [apply reads_field; rewrite (length_concat_const _ 8) by (intros; apply length_le_bytes); lia|].
  rewrite Nat2Z.id. rewrite <- (app_nil_r (concat _)), chunks_image.
  rewrite <- (list_fmap_id xs) at 2. apply list_fmap_ext. intros i x Hi. simpl.
  apply le_value_u64. rewrite Forall_lookup in Hx. eauto.
Qed.

Lemma count_u32 n : Z.of_nat n <= u32_max -> u32 (Z.of_nat n).
Proof. unfold u32. lia. Qed.

(** The guard [count != 0 && remain / width < count] lets a full payload through. *)
Lemma room_guard width count n :
  0 < width -> count * width <= n -> negb (count =? 0) && (n / width <? count) = false.
Proof.
  intros Hw Hn. apply andb_false_iff. right. apply Z.ltb_ge.
  apply Z.div_le_lower_bound; lia.
Qed.

Lemma reads_span s : u64 (span_begin s) /\ u64 (span_count s) -> reads read_span (span_image s) s.
Proof.
  intros [H1 H2]. unfold read_span, span_image. destruct s as [b c]. cbn [span_begin span_count] in *.
  eapply reads_bind; [by apply reads_field_u64|]. eapply reads_map; [by apply reads_field_u64|done].
Qed.

Lemma reads_item it : item_packable it -> reads read_item (item_image it) it.
Proof.
  intros (Hm & Ht & Hh & Hw & Hpb & Hpc & Hd & Hts & Htn & Hsp & Hsn).
  unfold read_item, item_image.
  eapply reads_bind; [by apply reads_field_u8|]. eapply reads_bind; [by apply reads_field_i32|].
  eapply reads_bind; [by apply reads_field_i32|]. eapply reads_bind; [by apply reads_field_i32|].
  eapply reads_bind; [by apply reads_field_u64|]. eapply reads_bind; [by apply reads_field_u64|].
  eapply reads_bind; [apply reads_field; lia|].
  eapply reads_bind; [by apply reads_field_u32, count_u32|].
  apply (reads_remain (fun left => _)).
  { intros n Hn. apply room_guard; [lia|]. rewrite length_app in Hn.
    rewrite (length_concat_const _ 8) in Hn by (intros; apply length_le_bytes). lia. }
  eapply reads_bind; [by apply reads_f64s|].
  eapply reads_bind; [by apply reads_field_u32, count_u32|].
  apply (reads_remain (fun left => _)).
  { intros n Hn. apply room_guard; [lia|].
    rewrite (length_concat_const span_image 16) in Hn by done. lia. }
  eapply reads_map.
  - rewrite Nat2Z.id. apply reads_many. intros s Hs. apply reads_span.
    unfold item_ok in Hsp. rewrite Forall_forall in Hsp. by apply Hsp.
  - by destruct it as [? [] ? ? ? ? ?].
Qed.

(** The token guard of [unpack]: the division undoes the multiplication. *)
Lemma token_guard n left :
  0 <= n <= u32_max -> 13 * n <= left ->
  (negb (n =? 0) && negb (wrap64 (n + 3 * n * 4) / n =? 1 + 3 * 4)) || (left <? wrap64 (n + 3 * n * 4))
  = false.
Proof.
  intros Hn Hl. rewrite wrap64_id by width_lia. replace (n + 3 * n * 4) with (13 * n) by lia.
  apply orb_false_iff. split; [|by apply Z.ltb_ge].
  destruct (Z.eqb_spec n 0); [done|]. rewrite Z.div_mul by done. done.
Qed.

Lemma concat_items_length items :
  Forall item_packable items ->
  Z.of_nat (length items) * kMinVisionItemBytes <= Z.of_nat (length (concat (item_image <$> items))).
Proof.
  induction 1 as [|it items Hit _ IH]; [done|]. rewrite fmap_cons. cbn [concat length].
  rewrite length_app, Nat2Z.inj_add, (length_item_image it) by apply Hit.
  unfold kMinVisionItemBytes, item_bytes in *. lia.
Qed.

Lemma reads_payload r : packable r ->
  reads (read_payload (Z.of_nat (identity_size r)) (Z.of_nat (length (vision_items_ r))))
    (token_types_ r ++ i32_image (axis0 (positions_ r)) ++ i32_image (axis1 (positions_ r)) ++
     i32_image (axis2 (positions_ r)) ++ concat (item_image <$> vision_items_ r)) r.
Proof.
  intros ((L0 & L1 & L2) & P0 & P1 & P2 & Hn & Hit & Hni). unfold read_payload.
  apply (reads_remain (fun left => _)).
  { intros left Hl. apply token_guard; [lia|].
    rewrite !length_app, !length_i32_image, L0, L1, L2 in Hl. unfold identity_size in *. lia. }
  eapply reads_bind; [by apply reads_field|].
  eapply reads_bind; [apply reads_i32s; [done|lia]|]. eapply reads_bind; [apply reads_i32s; [done|lia]|].
  eapply reads_bind; [apply reads_i32s; [done|lia]|]. apply (reads_remain (fun left => _)).
  { intros left Hl. apply room_guard; [done|]. pose proof (concat_items_length _ Hit). lia. }
  eapply reads_map.
  - rewrite Nat2Z.id. apply reads_many. intros it Hin. apply reads_item.
    rewrite Forall_forall in Hit. by apply Hit.
  - by destruct r as [? [] ?].
Qed.

Lemma read_identity_image r : packable r -> read_identity (identity_image r) = (Ok r, []).
Proof.
  intros Hr. pose proof Hr as (_ & _ & _ & _ & Hn & _ & Hni). unfold read_identity, identity_image.
  fold (identity_size r).
  rewrite (st_bind_Ok _ _ _ _ _ (reads_field_u32 _ (count_u32 _ Hn) _)).
  rewrite (st_bind_Ok _ _ _ _ _ (reads_field_u32 _ (count_u32 _ Hni) _)).
  pose proof (reads_payload r Hr []) as Hp. rewrite app_nil_r in Hp.
  by rewrite (st_bind_Ok _ _ _ _ _ Hp).
Qed.

(** Packing a resident identity writes exactly [packed_bytes] bytes, and
    unpacking them gives the identity back, every token type, position and Vision
    item included. *)
Theorem identity_pack_unpack r :
  packable r ->
  exists l, pack r false = Ok l /\ Z.of_nat (length l) = packed_bytes r /\ unpack false l = Ok r.
Proof.
  intros Hr. exists (identity_image r). split_and!.
  - by apply pack_image.
  - by apply length_identity_image.
  - unfold unpack. cbn [andb throw_if mbind res_bind]. by rewrite read_identity_image.
Qed.

(** ** The longest common prefix *)

(** Vision items in the order of the tokens they cover, apart from each other. *)
Definition spaced (items : list VisionItem) : Prop :=
  StronglySorted (fun x y => item_end x <= item_begin y) items /\
  Forall (fun x => 0 <= item_begin x < item_end x) items.

(** Items with ordinary timestamps: bit equality and [==] are the same. *)
Definition plain_times (item : VisionItem) : Prop :=
  canonical_times item /\ Forall (fun t => f64_nan t = false) (timestamps item).

#[export] Instance plain_times_dec item : Decision (plain_times item).
Proof. unfold plain_times. apply _. Defined.

Lemma vector_eq_refl {A} (eqb : A -> A -> bool) l :
  Forall (fun x => eqb x x = true) l -> vector_eq eqb l l = true.
Proof. induction 1; simpl; [done|]. by apply andb_true_iff. Qed.

Lemma same_item_refl a : plain_times a -> same_item a a = true.
Proof.
  intros [_ Hn]. unfold same_item, same_grid, same_spans. rewrite !Z.eqb_refl.
  rewrite !vector_eq_refl; [done|..]; apply Forall_forall.
  - intros s _. by rewrite !Z.eqb_refl.
  - intros t Ht. rewrite Forall_forall in Hn. unfold f64_eq. by rewrite (Hn t Ht), Z.eqb_refl.
  - intros d _. apply Z.eqb_refl.
Qed.

(** [n] ends outside the items of both sides, which agree before it. *)
Definition items_meet (n : Z) (la lb : list VisionItem) : Prop :=
  exists pre sa sb, la = pre ++ sa /\ lb = pre ++ sb /\
    Forall (fun x => item_end x <= n) pre /\
    Forall (fun x => n <= item_begin x) sa /\ Forall (fun x => n <= item_begin x) sb.

Lemma items_meet_cons n x la lb : item_end x <= n -> items_meet n la lb -> items_meet n (x :: la) (x :: lb).
Proof.
  intros Hx (pre & sa & sb & -> & -> & Hp & Ha & Hb). exists (x :: pre), sa, sb.
  split_and!; [done..|by constructor|done|done].
Qed.

Lemma spaced_begins n x l : spaced (x :: l) -> n <= item_begin x -> Forall (fun y => n <= item_begin y) (x :: l).
Proof.
  intros [Hs Hp] Hn. apply StronglySorted_inv in Hs as [_ Hs]. apply Forall_cons in Hp as [Hx _].
  constructor; [done|]. eapply Forall_impl; [apply Hs|]. intros y Hy. simpl in *. lia.
Qed.

Lemma spaced_tail x l : spaced (x :: l) -> spaced l.
Proof. intros [Hs Hp]. apply StronglySorted_inv in Hs as [Hs _]. apply Forall_cons in Hp as [_ Hp]. done. Qed.

Lemma items_meet_nil n la lb :
  Forall (fun x => n <= item_begin x) la -> Forall (fun x => n <= item_begin x) lb -> items_meet n la lb.
Proof. intros Ha Hb. exists [], la, lb. split_and!; [done..|constructor|done|done]. Qed.

Lemma cut_items_sound count : forall la lb,
  0 <= count -> spaced la -> spaced lb -> Forall canonical_times la -> Forall canonical_times lb ->
  let n := cut_items count la lb in
  0 <= n <= count /\ items_meet n la lb /\
  (forall e, Forall (fun x => e <= item_begin x) la -> Forall (fun x => e <= item_begin x) lb ->
     e <= count -> e <= n).
Proof.
  induction la as [|a la IH]; intros [|b lb] Hc Sa Sb Ca Cb; cbn [cut_items].
  - split_and!; [lia|lia|by apply items_meet_nil|done].
  - pose proof Sb as [_ [Hb _]%Forall_cons]. split_and!; [lia|lia| |].
    + apply items_meet_nil; [constructor|]. apply spaced_begins; [done|lia].
    + intros e _ [He _]%Forall_cons Hec. lia.
  - pose proof Sa as [_ [Ha _]%Forall_cons]. split_and!; [lia|lia| |].
    + apply items_meet_nil; [|constructor]. apply spaced_begins; [done|lia].
    + intros e [He _]%Forall_cons _ Hec. lia.
  - pose proof Sa as [Ssa [Ha _]%Forall_cons]. pose proof Sb as [Ssb [Hb _]%Forall_cons]. cbv zeta.
    destruct (Z.leb_spec count (Z.min (item_begin a) (item_begin b))) as [Hle|Hlt].
    { split_and!; [lia|lia| |done]. apply items_meet_nil; apply spaced_begins; [done|lia|done|lia]. }
    destruct (negb (same_item a b) || (count <? item_end a) || (count <? item_end b)) eqn:E.
    { split_and!; [lia|lia| |]. { apply items_meet_nil; apply spaced_begins; [done|lia|done|lia]. }
      intros e [He _]%Forall_cons [He' _]%Forall_cons _. lia. }
    guards. apply Forall_cons in Ca as [Ca1 Ca]. apply Forall_cons in Cb as [Cb1 Cb].
    assert (a = b) as <- by (by apply same_item_eq).
    apply StronglySorted_inv in Ssa as [_ Ssa]. apply StronglySorted_inv in Ssb as [_ Ssb].
    destruct (IH lb Hc (spaced_tail _ _ Sa) (spaced_tail _ _ Sb) Ca Cb) as (Hn & Hm & Hg).
    assert (item_end a <= cut_items count la lb) as Hend by (by apply Hg).
    split_and!; [lia|lia|by apply items_meet_cons|]. intros e [He _]%Forall_cons _ _. lia.
Qed.

Lemma cut_items_maximal count m : forall la lb,
  m <= count -> Forall plain_times la -> items_meet m la lb -> m <= cut_items count la lb.
Proof.
  induction la as [|a la IH]; intros lb Hm Pa (pre & sa & sb & Ea & -> & Hp & Ha & Hb).
  - destruct pre; [|done]. simpl. destruct sb as [|b sb]; [done|]. simpl.
    apply Forall_cons in Hb as [Hb _]. lia.
  - destruct pre as [|x pre]; simpl in Ea.
    + subst sa. apply Forall_cons in Ha as [Ha1 Ha]. destruct sb as [|b sb]; simpl; [lia|].
      apply Forall_cons in Hb as [Hb1 Hb]. repeat case_match; guards; try lia.
      apply Forall_cons in Pa as [_ Pa]. apply IH; [done|done|by apply items_meet_nil].
    + injection Ea as <- ->. apply Forall_cons in Hp as [Hx Hp]. apply Forall_cons in Pa as [Pa1 Pa].
      simpl. rewrite same_item_refl by done. cbn [negb orb].
      destruct (Z.leb_spec count (Z.min (item_begin a) (item_begin a))); [done|].
      rewrite (proj2 (Z.ltb_ge count (item_end a))) by lia. cbn [orb].
      apply IH; [done|done|]. by exists pre, sa, sb.
Qed.

(** The five per-token arrays agree at [i]. *)
Definition tokens_agree (lt : list Z) (l : ResidentPrefixIdentity) (rt : list Z)
    (r : ResidentPrefixIdentity) (i : nat) : Prop :=
  lt !! i = rt !! i /\ token_types_ l !! i = token_types_ r !! i /\
  axis0 (positions_ l) !! i = axis0 (positions_ r) !! i /\
  axis1 (positions_ l) !! i = axis1 (positions_ r) !! i /\
  axis2 (positions_ l) !! i = axis2 (positions_ r) !! i.

Lemma match_tokens_spec lt l rt r n : forall i,
  let j := match_tokens lt l rt r n i in
  (i <= j <= i + n)%nat /\ (forall k, (i <= k < j)%nat -> tokens_agree lt l rt r k) /\
  (forall m, (m <= i + n)%nat -> (forall k, (i <= k < m)%nat -> tokens_agree lt l rt r k) -> (m <= j)%nat).
Proof.
  induction n as [|n IH]; intros i; cbn [match_tokens].
  { split_and!; [lia|lia|intros k ?; lia|intros; lia]. }
  match goal with |- context [if ?b then _ else _] => destruct b eqn:E end.
  - assert (tokens_agree lt l rt r i) as Hi.
    { repeat match goal with H : _ && _ = true |- _ => apply andb_true_iff in H as [? ?] end.
      repeat match goal with H : bool_decide _ = true |- _ => apply bool_decide_eq_true in H end. done. }
    destruct (IH (S i)) as (Hj & Hk & Hm). split_and!; [lia|lia| |].
    + intros k Hkj. destruct (decide (k = i)) as [->|]; [done|]. apply Hk. lia.
    + intros m Hmn Ha. destruct (decide (m <= i)%nat); [lia|]. apply Hm; [lia|]. intros k ?. apply Ha. lia.
  - split_and!; [lia|lia|intros k ?; lia|]. intros m Hmn Ha. destruct (decide (m <= i)%nat); [done|]. exfalso.
    destruct (Ha i ltac:(lia)) as (H1 & H2 & H3 & H4 & H5).
    by rewrite !bool_decide_eq_true_2 in E.
Qed.

(** [m] tokens are a common prefix that ends outside every Vision item. *)
Definition common_prefix (lt : list Z) (l : ResidentPrefixIdentity) (rt : list Z)
    (r : ResidentPrefixIdentity) (m : nat) : Prop :=
  (m <= length lt)%nat /\ (m <= length rt)%nat /\ (m <= identity_size l)%nat /\
  (m <= identity_size r)%nat /\ (forall i, (i < m)%nat -> tokens_agree lt l rt r i) /\
  items_meet (Z.of_nat m) (vision_items_ l) (vision_items_ r).

(** [longest_matching_prefix] is the longest: its result is a common prefix of
    the two ledgers, within the limit and outside every Vision item, and no longer
    common prefix within the limit exists. *)
Theorem longest_matching_prefix_exact lt l rt r limit :
  spaced (vision_items_ l) -> spaced (vision_items_ r) ->
  Forall plain_times (vision_items_ l) -> Forall plain_times (vision_items_ r) ->
  let n := longest_matching_prefix lt l rt r limit in
  (n <= limit)%nat /\ common_prefix lt l rt r n /\
  forall m, (m <= limit)%nat -> common_prefix lt l rt r m -> (m <= n)%nat.
Proof.
  intros Sl Sr Pl Pr. unfold longest_matching_prefix.
  set (bound := Nat.min limit _). destruct (match_tokens_spec lt l rt r bound 0) as (Hj & Hk & Hm).
  set (j := match_tokens lt l rt r bound 0) in *.
  assert (Forall canonical_times (vision_items_ l) /\ Forall canonical_times (vision_items_ r)) as [Cl Cr]
    by (split; (eapply Forall_impl; [eassumption|]); intros x [Hx _]; exact Hx).
  destruct (cut_items_sound (Z.of_nat j) _ _ ltac:(lia) Sl Sr Cl Cr) as (Hn & Hmeet & _).
  set (c := cut_items (Z.of_nat j) (vision_items_ l) (vision_items_ r)) in *.
  unfold bound in Hj. split_and!; [lia| |].
  - split_and!; [lia..| |rewrite Z2Nat.id by lia; done]. intros i Hi. apply Hk. lia.
  - intros m Hml (M1 & M2 & M3 & M4 & Hag & Hme).
    assert (m <= j)%nat as Hmj by (apply Hm; [unfold bound; lia|]; intros k ?; apply Hag; lia).
    pose proof (cut_items_maximal (Z.of_nat j) (Z.of_nat m) _ _ ltac:(lia) Pl Hme). fold c in H. lia.
Qed.

(** ** Concrete instances *)
Definition demo_item : VisionItem :=
  MkItem 1 (MkGrid 1 2 2) 0 4 (repeat 7 32) [0x3FF0000000000000] [MkTokenSpan 1 2].

Definition demo_prompt : PreparedPromptData :=
  MkPrompt [11; 12; 13; 14] [0; 1; 1; 0] [0; 1; 1; 2; 0; 1; 1; 2; 0; 1; 2; 2] [demo_item].

Definition demo_identity : ResidentPrefixIdentity :=
  Eval vm_compute in snd (identity_assign demo_prompt empty_identity).

Definition demo_owner : owner := Eval vm_compute in
  MkOwner (token_ids demo_prompt) demo_identity
    match prefix_hash_chain demo_prompt with Ok chain => chain | Throw _ => [] end.

Lemma resident_hashes_exact_witness :
  fst (hashes_at [11; 12; 13; 14] demo_identity 3 (o_hashes demo_owner)) =
  prefix_hash_at [11; 12; 13; 14] demo_identity 3.
Proof.
  apply (resident_hashes_exact demo_owner 3). eapply rtc_once.
  apply (owner_assign [] empty_identity [] demo_prompt (o_hashes demo_owner)).
  - apply (bool_decide_unpack _). vm_compute. exact I.
  - vm_compute. reflexivity.
  - reflexivity.
  - vm_compute. reflexivity.
Defined.

Lemma matching_prefix_same_hash_witness :
  prefix_matches demo_prompt [11; 12; 13; 99] demo_identity 3 = true /\
  exists chain h, prefix_hash_chain demo_prompt = Ok chain /\ chain !! 3%nat = Some h /\
    prefix_hash_at [11; 12; 13; 99] demo_identity 3 = Ok h.
Proof.
  split; [vm_compute; reflexivity|].
  destruct (matching_prefix_same_hash demo_prompt [11; 12; 13; 99] demo_identity 3) as (_ & _ & _ & H).
  1-4: apply (bool_decide_unpack _); vm_compute; exact I.
  - vm_compute. reflexivity.
  - exact H.
Defined.

Lemma identity_pack_unpack_witness :
  exists l, pack demo_identity false = Ok l /\ Z.of_nat (length l) = 153 /\ unpack false l = Ok demo_identity.
Proof.
  apply (identity_pack_unpack demo_identity). apply (bool_decide_unpack _). vm_compute. exact I.
Defined.

Lemma longest_matching_prefix_exact_witness :
  longest_matching_prefix [11; 12; 13; 14] demo_identity [11; 12; 99; 14] demo_identity 4 = 1%nat /\
  common_prefix [11; 12; 13; 14] demo_identity [11; 12; 99; 14] demo_identity 1.
Proof.
  assert (spaced (vision_items_ demo_identity)) as Hs.
  { split; [repeat constructor|]. constructor; [split; vm_compute; congruence|constructor]. }
  assert (Forall plain_times (vision_items_ demo_identity)) as Hp
    by (apply (bool_decide_unpack _); vm_compute; exact I).
  split; [vm_compute; reflexivity|].
  exact (proj1 (proj2 (longest_matching_prefix_exact [11; 12; 13; 14] demo_identity [11; 12; 99; 14]
    demo_identity 4 Hs Hs Hp Hp))).
Defined.
