(* ===== verification/ContextReuse.v ===== *)
(** * targets/qwen3_6/impl/runtime/context_checkpoint.h: reusing a resident prefix

    A lane keeps the state of its last request, a rewrite checkpoint, and
    context-checkpoint heads at earlier frontiers.  The planner compares a new
    prompt with all of them and picks the longest one the speculative backend can
    continue from.  The pool of head images is in [CheckpointPool]. *)

From stdpp Require Import prelude list.
From Stdlib Require Import ZArith Lia.
From S2P Require Import Prelude.
From S2P Require Import PrefixIdentity.
From S2P Require Import PrefixTheorems.
#[local] Open Scope Z_scope.

Inductive ContextCheckpointKind : Type := Ladder | TurnRollback | OnDemand.

Inductive PrefixReusePath : Type :=
| FullReset
| AppendAtFrontier
| RestoreTurnCheckpoint
| RestoreResponseCheckpoint
| RestoreContextCheckpoint
| RestoreTurnRollback.

(** [NoBackend] is [SpeculativeBackend::None]. *)
Inductive SpeculativeBackend : Type := NoBackend | Mtp | DFlash.

Inductive RewriteCheckpointKind : Type := TurnClosure | ResponseReplay.

#[export] Instance ContextCheckpointKind_eq_dec : EqDecision ContextCheckpointKind.
Proof. solve_decision. Defined.
#[export] Instance PrefixReusePath_eq_dec : EqDecision PrefixReusePath.
Proof. solve_decision. Defined.
#[export] Instance SpeculativeBackend_eq_dec : EqDecision SpeculativeBackend.
Proof. solve_decision. Defined.
#[export] Instance RewriteCheckpointKind_eq_dec : EqDecision RewriteCheckpointKind.
Proof. solve_decision. Defined.

Definition reuse_path_for_context_checkpoint_kind (kind : ContextCheckpointKind) : PrefixReusePath :=
  if bool_decide (kind = TurnRollback) then RestoreTurnRollback else RestoreContextCheckpoint.

Record PrefillReuseHead : Type := MkReuseHead { rh_frontier : Z; rh_kind : ContextCheckpointKind }.

(** ** Restore paths *)
Definition is_rewrite_checkpoint_restore (path : PrefixReusePath) : bool :=
  bool_decide (path = RestoreTurnCheckpoint) || bool_decide (path = RestoreResponseCheckpoint).

Definition is_staged_checkpoint_restore (path : PrefixReusePath) : bool :=
  bool_decide (path = RestoreContextCheckpoint) || bool_decide (path = RestoreTurnRollback).

Definition is_complete_checkpoint_restore (path : PrefixReusePath) : bool :=
  is_rewrite_checkpoint_restore path || is_staged_checkpoint_restore path.

(** [reuse_base - 1] is a 32-bit subtraction, taken only behind [reuse_base != 0]. *)
Definition mtp_complete_checkpoint_ready (reuse : PrefixReusePath) (reuse_base mtp_kv_valid : Z) : bool :=
  is_complete_checkpoint_restore reuse && negb (reuse_base =? 0) && (reuse_base - 1 <=? mtp_kv_valid).

Definition mtp_prefix_reuse_ready (reuse : PrefixReusePath) (reuse_base mtp_kv_valid : Z)
    (tail_hidden_valid mtp_cache : bool) : bool :=
  if bool_decide (reuse = FullReset) then true
  else if negb mtp_cache then false
  else if bool_decide (reuse = AppendAtFrontier)
  then tail_hidden_valid && ((reuse_base =? 0) || (reuse_base - 1 <=? mtp_kv_valid))
  else mtp_complete_checkpoint_ready reuse reuse_base mtp_kv_valid.

Definition dflash_rewrite_checkpoint_ready (backend_image_present : bool)
    (dflash_context_frontier reuse_base : Z) : bool :=
  backend_image_present && (reuse_base <=? dflash_context_frontier).

(** Restoring to [restore_frontier] keeps the heads at it. *)
Definition retain_context_checkpoint_head (head_frontier restore_frontier : Z) : bool :=
  head_frontier <=? restore_frontier.

Definition staging_holds_restore_identity (occupied : bool) (staging_lane : Z) (staging_hash : PrefixHash128)
    (staging_frontier lane : Z) (hash : PrefixHash128) (frontier : Z) : bool :=
  occupied && (staging_lane =? lane) && (staging_frontier =? frontier) && bool_decide (staging_hash = hash).

Definition restore_may_d2d_staging (staging_holds_identity head_present : bool) : bool :=
  staging_holds_identity && head_present.

Definition mtp_bridge_reads_rewrite_hidden (path : PrefixReusePath) : bool :=
  is_rewrite_checkpoint_restore path.

Definition occupy_drops_rewrite_ahead_of_restore (reuse : PrefixReusePath) (rewrite_valid : bool)
    (rewrite_frontier restore_frontier : Z) : bool :=
  is_staged_checkpoint_restore reuse && rewrite_valid && (restore_frontier <? rewrite_frontier).

Definition occupy_clears_context_checkpoints (reuse : PrefixReusePath) : bool :=
  bool_decide (reuse = FullReset).

Definition occupy_keeps_context_checkpoint_head (reuse : PrefixReusePath) (head_frontier new_base : Z) : bool :=
  if occupy_clears_context_checkpoints reuse then false
  else if bool_decide (reuse = AppendAtFrontier) || is_staged_checkpoint_restore reuse
          || is_rewrite_checkpoint_restore reuse
  then retain_context_checkpoint_head head_frontier new_base
  else false.

(** ** Selection *)
Record PrefillReuseSelection : Type := MkSelection { sel_path : PrefixReusePath; sel_frontier : Z }.

(** The loop over the heads, from the best selection so far. *)
Fixpoint select_heads (best : PrefillReuseSelection) (heads : list PrefillReuseHead) : PrefillReuseSelection :=
  match heads with
  | [] => best
  | head :: heads =>
      select_heads
        (if sel_frontier best <? rh_frontier head
         then MkSelection (reuse_path_for_context_checkpoint_kind (rh_kind head)) (rh_frontier head)
         else best) heads
  end.

Definition select_resident_prefill_reuse (current_matches : bool) (execution_frontier : Z)
    (rewrite_matches : bool) (rewrite_frontier : Z) (rewrite_path : PrefixReusePath)
    (matching_heads : list PrefillReuseHead) : PrefillReuseSelection :=
  if current_matches && negb (execution_frontier =? 0)
  then MkSelection AppendAtFrontier execution_frontier
  else
    let best := MkSelection FullReset 0 in
    let best :=
      if rewrite_matches && negb (rewrite_frontier =? 0) && (sel_frontier best <? rewrite_frontier)
      then MkSelection rewrite_path rewrite_frontier else best in
    select_heads best matching_heads.

Record ContextCheckpointRef : Type := MkRef {
  ref_frontier : Z;
  ref_hash : PrefixHash128;
  ref_kind : ContextCheckpointKind;
}.

Record ResidentReuseState : Type := MkReuseState {
  ledger : list Z;
  identity : ResidentPrefixIdentity;
  execution_frontier : Z;
  rewrite_valid : bool;
  rewrite_kind : RewriteCheckpointKind;
  rewrite_frontier : Z;
  mtp_kv_valid : Z;
  dflash_context_frontier : Z;
  tail_hidden_valid : bool;
  backend_image_present : bool;
  context_checkpoints : list ContextCheckpointRef;
}.

Definition rewrite_restore_path (kind : RewriteCheckpointKind) : PrefixReusePath :=
  if bool_decide (kind = TurnClosure) then RestoreTurnCheckpoint else RestoreResponseCheckpoint.

Record ReuseBackendPolicy : Type := MkPolicy {
  backend : SpeculativeBackend;
  mtp_cache_present : bool;
  dflash_present : bool;
  dflash_full_layers : bool;
}.

Definition reuse_candidate_ready (state : ResidentReuseState) (path : PrefixReusePath)
    (frontier prompt_tokens : Z) (policy : ReuseBackendPolicy) : bool :=
  if bool_decide (path = AppendAtFrontier)
     && (((prompt_tokens =? frontier) && negb (tail_hidden_valid state))
         || (bool_decide (backend policy = DFlash) && negb (dflash_context_frontier state =? frontier)))
  then false
  else if bool_decide (backend policy = Mtp)
          && negb (mtp_prefix_reuse_ready path frontier (mtp_kv_valid state) (tail_hidden_valid state)
                     (mtp_cache_present policy))
  then false
  else if is_rewrite_checkpoint_restore path && bool_decide (backend policy = DFlash)
  then
    if negb (dflash_present policy) || (dflash_context_frontier state <? frontier) then false
    else if dflash_full_layers policy
            && negb (dflash_rewrite_checkpoint_ready (backend_image_present state)
                       (dflash_context_frontier state) frontier)
    then false else true
  else true.

(** [decide_resident_reuse]; the four arguments of the policy as [policy]. *)
Definition decide_resident_reuse (state : ResidentReuseState) (prompt : PreparedPromptData)
    (prompt_hashes : list PrefixHash128) (policy : ReuseBackendPolicy) : res PrefillReuseSelection :=
  let tokens := length (token_ids prompt) in
  throw_if (negb (bool_decide (context_checkpoints state = [])) && negb (length prompt_hashes =? tokens + 1)%nat)
    invalid_argument ;;
  let ready path frontier := reuse_candidate_ready state path frontier (Z.of_nat tokens) policy in
  let matches frontier := prefix_matches prompt (ledger state) (identity state) (Z.to_nat frontier) in
  let current_matches :=
    negb (execution_frontier state =? 0) && ready AppendAtFrontier (execution_frontier state)
    && matches (execution_frontier state) in
  let rewrite_matches :=
    negb current_matches && rewrite_valid state && negb (rewrite_frontier state =? 0)
    && matches (rewrite_frontier state)
    && ready (rewrite_restore_path (rewrite_kind state)) (rewrite_frontier state) in
  let matching_heads :=
    if current_matches then []
    else omap (fun head =>
           if negb (ref_frontier head =? 0) && (ref_frontier head <=? Z.of_nat tokens)
              && bool_decide (nth (Z.to_nat (ref_frontier head)) prompt_hashes initial_hash = ref_hash head)
              && matches (ref_frontier head)
              && ready (reuse_path_for_context_checkpoint_kind (ref_kind head)) (ref_frontier head)
           then Some (MkReuseHead (ref_frontier head) (ref_kind head)) else None) (context_checkpoints state) in
  Ok (select_resident_prefill_reuse current_matches (execution_frontier state) rewrite_matches
        (if rewrite_matches then rewrite_frontier state else 0)
        (if rewrite_matches then rewrite_restore_path (rewrite_kind state) else FullReset) matching_heads).

(** ** The decision is the best usable one *)
Inductive candidate (s : ResidentReuseState) : PrefixReusePath -> Z -> Prop :=
| cand_append : candidate s AppendAtFrontier (execution_frontier s)
| cand_rewrite : rewrite_valid s = true ->
    candidate s (rewrite_restore_path (rewrite_kind s)) (rewrite_frontier s)
| cand_head h : h ∈ context_checkpoints s ->
    candidate s (reuse_path_for_context_checkpoint_kind (ref_kind h)) (ref_frontier h).

(** A candidate the prompt extends and the backend can continue from. *)
Definition usable (s : ResidentReuseState) (p : PreparedPromptData) (policy : ReuseBackendPolicy)
    (path : PrefixReusePath) (f : Z) : Prop :=
  candidate s path f /\ 0 < f /\ prefix_matches p (ledger s) (identity s) (Z.to_nat f) = true /\
  reuse_candidate_ready s path f (Z.of_nat (length (token_ids p))) policy = true.

(** Head hashes are those of the resident prefix, as [prefix_hashes.at] computes them. *)
Definition heads_exact (s : ResidentReuseState) : Prop :=
  Forall (fun h => 0 <= ref_frontier h /\
    prefix_hash_at (ledger s) (identity s) (Z.to_nat (ref_frontier h)) = Ok (ref_hash h))
    (context_checkpoints s).

Lemma select_heads_spec heads : forall best,
  let out := select_heads best heads in
  (out = best \/ exists h, h ∈ heads /\ out =
     MkSelection (reuse_path_for_context_checkpoint_kind (rh_kind h)) (rh_frontier h) /\
     sel_frontier best < rh_frontier h) /\
  sel_frontier best <= sel_frontier out /\ forall h, h ∈ heads -> rh_frontier h <= sel_frontier out.
Proof.
  induction heads as [|h heads IH]; intros best; cbn [select_heads]; cbv zeta.
  { split_and!; [by left|lia|]. by intros h ?%elem_of_nil. }
  set (b := if sel_frontier best <? rh_frontier h then _ else best).
  assert (sel_frontier best <= sel_frontier b /\ rh_frontier h <= sel_frontier b) as [Hb Hh].
  { subst b. destruct (sel_frontier best <? rh_frontier h) eqn:E; guards; cbn; lia. }
  destruct (IH b) as (Hout & Hmono & Hall). split_and!; [|lia|].
  - destruct Hout as [E|(k & Hk & E & Hlt)].
    + rewrite E. subst b. destruct (sel_frontier best <? rh_frontier h) eqn:El; [|by left].
      guards. right. exists h. split_and!; [by left|done|done].
    + right. exists k. split_and!; [by right|done|lia].
  - intros k [->|Hk]%elem_of_cons; [lia|by apply Hall].
Qed.

Section decision.
Context (s : ResidentReuseState) (p : PreparedPromptData) (policy : ReuseBackendPolicy)
        (chain : list PrefixHash128).
Context (Kp : Forall item_ok (vision_items p)) (Kr : Forall item_ok (vision_items_ (identity s)))
        (Cp : Forall canonical_times (vision_items p))
        (Cr : Forall canonical_times (vision_items_ (identity s))).
Context (Hchain : prefix_hash_chain p = Ok chain) (Hheads : heads_exact s)
        (He : 0 <= execution_frontier s) (Hrw : 0 <= rewrite_frontier s).

(** The hash filter of a head accepts every head whose prefix matches. *)
Lemma head_filter_exact h :
  h ∈ context_checkpoints s ->
  prefix_matches p (ledger s) (identity s) (Z.to_nat (ref_frontier h)) = true ->
  (ref_frontier h <=? Z.of_nat (length (token_ids p))) = true /\
  bool_decide (nth (Z.to_nat (ref_frontier h)) chain initial_hash = ref_hash h) = true.
Proof.
  intros Hin Hm. unfold heads_exact in Hheads. rewrite Forall_forall in Hheads.
  destruct (Hheads h Hin) as [H0 Hh].
  destruct (matching_hash p (ledger s) (identity s) _ Kp Kr Cp Cr Hm) as (chain' & x & E & Hx & E').
  assert (chain' = chain) as -> by congruence. assert (x = ref_hash h) as -> by congruence.
  destruct (identity_matches_agree p _ _ _ Kp Kr Cp Cr Hm) as (_ & Hl & _). split.
  - apply Z.leb_le. lia.
  - apply bool_decide_eq_true_2. by apply nth_lookup_Some.
Qed.

Lemma chain_covers : length chain = (length (token_ids p) + 1)%nat.
Proof.
  destruct (prefix_hash_chain_spec p chain Hchain) as [_ ->]. rewrite length_fmap, length_seq. lia.
Qed.

(** The heads that pass the filter are the usable ones. *)
Lemma usable_heads hs h :
  hs = omap (fun head =>
         if negb (ref_frontier head =? 0) && (ref_frontier head <=? Z.of_nat (length (token_ids p)))
            && bool_decide (nth (Z.to_nat (ref_frontier head)) chain initial_hash = ref_hash head)
            && prefix_matches p (ledger s) (identity s) (Z.to_nat (ref_frontier head))
            && reuse_candidate_ready s (reuse_path_for_context_checkpoint_kind (ref_kind head)) (ref_frontier head)
                 (Z.of_nat (length (token_ids p))) policy
         then Some (MkReuseHead (ref_frontier head) (ref_kind head)) else None) (context_checkpoints s) ->
  h ∈ hs <-> exists r, r ∈ context_checkpoints s /\ h = MkReuseHead (ref_frontier r) (ref_kind r) /\
    usable s p policy (reuse_path_for_context_checkpoint_kind (ref_kind r)) (ref_frontier r).
Proof.
  intros ->. rewrite list_elem_of_omap. split.
  - intros (r & Hr & E). exists r. match type of E with (if ?b then _ else _) = _ => destruct b eqn:Eb end; [|done].
    injection E as <-. repeat match goal with H : _ && _ = true |- _ => apply andb_true_iff in H as [? ?] end.
    guards. split_and!; [done|done|]. unfold heads_exact in Hheads. rewrite Forall_forall in Hheads.
    destruct (Hheads r Hr). split_and!; [by constructor|lia|done|done].
  - intros (r & Hr & -> & _ & H0 & Hm & Hrd). exists r. split; [done|].
    destruct (head_filter_exact r Hr Hm) as [H1 H2]. rewrite H1, H2, Hm, Hrd.
    by rewrite (proj2 (Z.eqb_neq _ _)) by lia.
Qed.

(** The append is taken whenever it is usable. *)
Lemma append_usable :
  usable s p policy AppendAtFrontier (execution_frontier s) <->
  negb (execution_frontier s =? 0) &&
    reuse_candidate_ready s AppendAtFrontier (execution_frontier s) (Z.of_nat (length (token_ids p))) policy
    && prefix_matches p (ledger s) (identity s) (Z.to_nat (execution_frontier s)) = true.
Proof.
  unfold usable. rewrite !andb_true_iff, negb_true_iff, Z.eqb_neq. split.
  - intros (_ & ? & ? & ?). split_and!; [lia|done|done].
  - intros [[? ?] ?]. split_and!; [constructor|lia|done|done].
Qed.

Definition beats (sel : PrefillReuseSelection) : Prop :=
  forall path f, usable s p policy path f -> f <= sel_frontier sel.

(** At equal frontiers the rewrite checkpoint is preferred to a head. *)
Definition rewrite_first (sel : PrefillReuseSelection) : Prop :=
  is_staged_checkpoint_restore (sel_path sel) = true -> rewrite_valid s = true ->
  usable s p policy (rewrite_restore_path (rewrite_kind s)) (rewrite_frontier s) ->
  rewrite_frontier s < sel_frontier sel.

Lemma rewrite_path_not_staged kind : is_staged_checkpoint_restore (rewrite_restore_path kind) = false.
Proof. by destruct kind. Qed.

Lemma decide_without_append rewrite hs :
  let append := usable s p policy AppendAtFrontier (execution_frontier s) in
  ~ append ->
  (rewrite = true <-> rewrite_valid s = true /\
     usable s p policy (rewrite_restore_path (rewrite_kind s)) (rewrite_frontier s)) ->
  (forall h, h ∈ hs <-> exists r, r ∈ context_checkpoints s /\ h = MkReuseHead (ref_frontier r) (ref_kind r) /\
     usable s p policy (reuse_path_for_context_checkpoint_kind (ref_kind r)) (ref_frontier r)) ->
  let sel := select_resident_prefill_reuse false (execution_frontier s) rewrite
               (if rewrite then rewrite_frontier s else 0)
               (if rewrite then rewrite_restore_path (rewrite_kind s) else FullReset) hs in
  (sel = MkSelection FullReset 0 \/ usable s p policy (sel_path sel) (sel_frontier sel)) /\ beats sel /\ rewrite_first sel.
Proof.
  cbv zeta. intros Ha Hrwt Hhs. unfold select_resident_prefill_reuse. cbn [andb].
  set (b := if rewrite && _ && _ then _ else _).
  assert ((b = MkSelection FullReset 0 /\ rewrite = false) \/
          (rewrite = true /\ b = MkSelection (rewrite_restore_path (rewrite_kind s)) (rewrite_frontier s))) as Hb.
  { subst b. destruct rewrite; [|by left]. right. split; [done|]. destruct Hrwt as [Hr _].
    destruct (Hr eq_refl) as (_ & _ & H0 & _). cbn [sel_frontier].
    rewrite (proj2 (Z.eqb_neq _ _)), (proj2 (Z.ltb_lt _ _)) by lia. done. }
  destruct (select_heads_spec hs b) as (Hout & Hmono & Hall). split_and!.
  - destruct Hout as [->|(h & Hh & -> & _)].
    + destruct Hb as [[-> _]|[E ->]]; [by left|right]. by apply Hrwt.
    + right. apply Hhs in Hh as (r & _ & -> & Hu). exact Hu.
  - intros path f Hu. destruct Hu as (Hc & H0 & Hm & Hrd). destruct Hc as [|Hv|h Hin].
    + destruct Ha. split_and!; [constructor|done|done|done].
    + assert (rewrite = true) as E
        by (apply Hrwt; split; [done|]; split_and!; [by constructor|done|done|done]).
      destruct Hb as [[_ ?]|[_ Eb]]; [congruence|]. rewrite <- Hmono, Eb. done.
    + apply (Hall (MkReuseHead (ref_frontier h) (ref_kind h))). apply Hhs. exists h.
      split_and!; [done|done|]. split_and!; [by constructor|done|done|done].
  - intros Hs Hv Hu. assert (rewrite = true) as E by (by apply Hrwt). destruct Hb as [[_ ?]|[_ Eb]]; [congruence|].
    destruct Hout as [Eo|(h & _ & Eo & Hlt)]; rewrite Eo in *; [|by rewrite Eb in Hlt].
    rewrite Eb in Hs. cbn [sel_path] in Hs. by rewrite rewrite_path_not_staged in Hs.
Qed.
End decision.

(** C31: The reuse decision is the best usable one: with the prompt's hash chain and
    heads stored with the hash of their resident prefix, [decide_resident_reuse]
    never throws; what it selects is a checkpoint of the lane whose whole prefix the
    prompt repeats and which the speculative backend can continue from, or a full
    reset; the append at the current frontier is taken whenever it is usable;
    otherwise no usable checkpoint is longer than the selected one (the hash
    filter never hides one), and a head is selected only over a strictly shorter
    rewrite checkpoint. *)
Theorem reuse_decision_optimal s p policy chain :
  Forall item_ok (vision_items p) -> Forall item_ok (vision_items_ (identity s)) ->
  Forall canonical_times (vision_items p) -> Forall canonical_times (vision_items_ (identity s)) ->
  prefix_hash_chain p = Ok chain -> heads_exact s -> 0 <= execution_frontier s -> 0 <= rewrite_frontier s ->
  exists sel, decide_resident_reuse s p chain policy = Ok sel /\
    (sel = MkSelection FullReset 0 \/ usable s p policy (sel_path sel) (sel_frontier sel)) /\
    (usable s p policy AppendAtFrontier (execution_frontier s) ->
       sel = MkSelection AppendAtFrontier (execution_frontier s)) /\
    (~ usable s p policy AppendAtFrontier (execution_frontier s) -> beats s p policy sel) /\
    rewrite_first s p policy sel.
Proof.
  intros Kp Kr Cp Cr Hchain Hh He Hrw. unfold decide_resident_reuse.
  rewrite (chain_covers p chain Hchain), Nat.eqb_refl, andb_false_r. cbn [throw_if mbind res_bind].
  eexists. split; [reflexivity|]. pose proof (append_usable s p policy He) as Happ.
  match type of Happ with _ <-> ?b = true => destruct b eqn:Eb end.
  - assert (usable s p policy AppendAtFrontier (execution_frontier s)) as Hu by (by apply Happ).
    unfold select_resident_prefill_reuse. destruct Hu as (? & H0 & ?).
    rewrite (proj2 (Z.eqb_neq _ _)) by lia. cbn [andb negb]. split_and!; [right; by apply Happ|done| |done].
    intros Hn. destruct Hn. by apply Happ.
  - assert (~ usable s p policy AppendAtFrontier (execution_frontier s)) as Hn by (rewrite Happ; done).
    cbn [negb andb]. match goal with |- context [select_resident_prefill_reuse _ _ ?rw _ _ ?hs] =>
      destruct (decide_without_append s p policy rw hs Hn) as (H1 & H2 & H3) end.
    + rewrite !andb_true_iff, negb_true_iff, Z.eqb_neq. unfold usable. split.
      * intros [[[? ?] ?] ?]. split_and!; [done|by apply cand_rewrite|lia|done|done].
      * intros (? & _ & ? & ? & ?). split_and!; [done|lia|done|done].
    + intros h. by apply (usable_heads s p policy chain).
    + split_and!; [exact H1|done|intros _; exact H2|exact H3].
Qed.

(** ** A lane whose last turn was rewritten *)
Definition reuse_prompt : PreparedPromptData :=
  MkPrompt [5; 6; 7; 8] [0; 0; 0; 0] [0; 1; 2; 3; 0; 1; 2; 3; 0; 1; 2; 3] [].

Definition reuse_identity : ResidentPrefixIdentity :=
  MkIdentity [0; 0; 0; 0] (MkAxes [0; 1; 2; 3] [0; 1; 2; 3] [0; 1; 2; 3]) [].

Definition reuse_hash (n : nat) : PrefixHash128 :=
  fst (extend_hash initial_hash (resident_inputs [5; 6; 7; 9] reuse_identity) 0 n).

Definition reuse_state : ResidentReuseState :=
  MkReuseState [5; 6; 7; 9] reuse_identity 4 true TurnClosure 1 3 4 true true
    [MkRef 2 (reuse_hash 2) Ladder; MkRef 3 (reuse_hash 3) TurnRollback].

Lemma reuse_decision_optimal_witness :
  exists sel, decide_resident_reuse reuse_state reuse_prompt
    (default [] (match prefix_hash_chain reuse_prompt with Ok c => Some c | Throw _ => None end))
    (MkPolicy Mtp true false false) = Ok sel /\ 3 <= sel_frontier sel.
Proof.
  destruct (reuse_decision_optimal reuse_state reuse_prompt (MkPolicy Mtp true false false)
    (default [] (match prefix_hash_chain reuse_prompt with Ok c => Some c | Throw _ => None end)))
    as (sel & E & _ & _ & Hb & _).
  - constructor.
  - constructor.
  - constructor.
  - constructor.
  - vm_compute. reflexivity.
  - repeat constructor; vm_compute; congruence.
  - vm_compute. congruence.
  - vm_compute. congruence.
  - exists sel. split; [exact E|]. apply (Hb (fun H => ltac:(destruct H as (_ & _ & H & _); vm_compute in H; discriminate H))
      RestoreTurnRollback 3). split_and!.
    + apply (cand_head reuse_state (MkRef 3 (reuse_hash 3) TurnRollback)). right. left.
    + lia.
    + vm_compute. reflexivity.
    + vm_compute. reflexivity.
Defined.
