(* ===== verification/CheckpointPool.v ===== *)
(** * Context-checkpoint heads and their image pool

    context_checkpoint.h sizes the pool of pinned images at startup and says when a
    lane freezes a head; program_impl.h takes images from the pool and returns
    them.  The copies into and out of an image are not part of this model: an image
    is its number in the slab. *)

From stdpp Require Import prelude list list_numbers sorting.
From Stdlib Require Import ZArith Lia.
From S2P Require Import Prelude.
From S2P Require Import PrefixIdentity.
From S2P Require Import ContextReuse.
#[local] Open Scope Z_scope.

(** ** Sizing *)

(** How many leading marks a sequence can reach. *)
Fixpoint reachable_marks (sequence_capacity : Z) (marks : list Z) : nat :=
  match marks with
  | mark :: marks => if mark <=? sequence_capacity then S (reachable_marks sequence_capacity marks) else O
  | [] => O
  end.

(** [k == 0 ? 0 : marks[k - 1]] *)
Definition mark_cost (marks : list Z) (k : nat) : Z :=
  match k with O => 0 | S j => nth j marks 0 end.

(** The loop of [best] from [k] down, with [self] the recursive call for one lane less. *)
Fixpoint best_loop (self : nat -> Z -> Z) (marks : list Z) (lanes : nat) (budget : Z) (k : nat) (result : Z) : Z :=
  if wrap64 (Z.of_nat k * Z.of_nat lanes) <=? result then result
  else
    let cost := mark_cost marks k in
    let result :=
      if budget <? cost then result
      else Z.max result (wrap64 (Z.of_nat k + self k (budget - cost))) in
    match k with
    | O => result
    | S k => best_loop self marks lanes budget k result
    end.

Fixpoint best (marks : list Z) (lanes : nat) (max_k : nat) (budget : Z) : Z :=
  match lanes with
  | O => 0
  | S rest => best_loop (best marks rest) marks lanes budget max_k 0
  end.

Definition context_checkpoint_image_pool_capacity (max_concurrency : Z) (marks : list Z)
    (sequence_capacity kv_capacity : Z) : Z :=
  wrap64 (max_concurrency +
          best marks (Z.to_nat max_concurrency) (reachable_marks sequence_capacity marks) kv_capacity).

(** ** Marks *)
Definition kMaxContextCheckpointMarks : Z := 16.
Definition kPrefillContextMarks : list Z := [24576; 36864; 53248; 77824; 102400; 151552].

Fixpoint next_prefill_context_mark (frontier : Z) (marks : list Z) : option Z :=
  match marks with
  | [] => None
  | mark :: marks => if frontier <? mark then Some mark else next_prefill_context_mark frontier marks
  end.

Definition first_prefill_context_mark (marks : list Z) : Z :=
  match marks with [] => 0 | mark :: _ => mark end.

Definition resolved_prefill_context_marks (configured : option (list Z)) : list Z :=
  match configured with None => kPrefillContextMarks | Some marks => marks end.

(** The loop of [validate_configured_context_checkpoint_marks]. *)
Fixpoint validate_marks (previous : Z) (marks : list Z) : res unit :=
  match marks with
  | [] => Ok tt
  | mark :: marks =>
      throw_if ((mark =? 0) || (mark <=? previous)) invalid_argument ;; validate_marks mark marks
  end.

Definition validate_configured_context_checkpoint_marks (configured : option (list Z))
    (spec : SpeculativeBackend) : res unit :=
  match configured with
  | None => Ok tt
  | Some marks =>
      throw_if (kMaxContextCheckpointMarks <? Z.of_nat (length marks)) invalid_argument ;;
      validate_marks 0 marks ;;
      throw_if (negb (bool_decide (marks = [])) && bool_decide (spec = NoBackend)) invalid_argument
  end.

(** ** When a head is written *)
Definition capture_prefill_context_checkpoints (allow_prefix_reuse speculative : bool) : bool :=
  allow_prefix_reuse && speculative.

Definition should_freeze_prefill_context_checkpoint (prefill_chunk capture_enabled : bool)
    (chunk_end next_mark : Z) (already_has_head_at_end prefix_items_complete : bool) : bool :=
  if negb prefill_chunk || negb capture_enabled then false
  else if (next_mark =? 0) || (chunk_end <? next_mark) then false
  else if already_has_head_at_end || negb prefix_items_complete then false
  else true.

Definition advertised_context_checkpoint_frontier (chunk_end : Z) : Z := chunk_end.

Definition newly_frozen_context_checkpoint_tokens (advertised_frontier existing_frontier : Z) : Z :=
  if existing_frontier <? advertised_frontier then advertised_frontier - existing_frontier else 0.

Definition should_capture_turn_rollback (reuse : PrefixReusePath) (execution_frontier prompt_tokens : Z)
    (capture_enabled tail_hidden_valid already_has_head_at_e prefix_items_complete : bool) : bool :=
  if negb (bool_decide (reuse = AppendAtFrontier)) then false
  else if (execution_frontier =? 0) || (prompt_tokens <=? execution_frontier) then false
  else if negb capture_enabled || negb tail_hidden_valid || already_has_head_at_e || negb prefix_items_complete
  then false else true.

Definition should_capture_exact_hit_pin (request_pin : bool) (execution_frontier prompt_tokens : Z)
    (capture_enabled tail_hidden_valid already_has_head_at_e prefix_items_complete : bool) : bool :=
  if negb request_pin || (execution_frontier =? 0) || negb (prompt_tokens =? execution_frontier) then false
  else if negb capture_enabled || negb tail_hidden_valid || already_has_head_at_e || negb prefix_items_complete
  then false else true.

(** ** Heads, lanes, pool *)
Record ContextCheckpointHead : Type := MkHead {
  ch_frontier : Z;
  ch_hash : PrefixHash128;
  ch_kind : ContextCheckpointKind;
  ch_image : N;
}.

Record LaneHeads : Type := MkLane {
  lane_heads : list ContextCheckpointHead;
  next_context_mark : Z;
}.

Record Checkpoints : Type := MkCheckpoints {
  context_checkpoint_pool_ : list ContextCheckpointHead;
  pool_reserved : nat;  (** [context_checkpoint_pool_.capacity()] *)
  lanes_ : list LaneHeads;
}.

Definition empty_lane : LaneHeads := MkLane [] 0.
Definition lane_of (s : Checkpoints) (lane : nat) : LaneHeads := default empty_lane (lanes_ s !! lane).

Definition set_pool (s : Checkpoints) (pool : list ContextCheckpointHead) : Checkpoints :=
  MkCheckpoints pool (pool_reserved s) (lanes_ s).
Definition set_lane (s : Checkpoints) (lane : nat) (l : LaneHeads) : Checkpoints :=
  MkCheckpoints (context_checkpoint_pool_ s) (pool_reserved s) (<[lane := l]> (lanes_ s)).

(** [recycle_checkpoint_image]; a full pool would drop the image. *)
Definition recycle_checkpoint_image (reserved : nat) (pool : list ContextCheckpointHead)
    (head : ContextCheckpointHead) : list ContextCheckpointHead :=
  if (length pool =? reserved)%nat then pool
  else pool ++ [MkHead 0 (MkHash 0 0) Ladder (ch_image head)].

Definition recycle_all (s : Checkpoints) (heads : list ContextCheckpointHead) : Checkpoints :=
  set_pool s (foldl (recycle_checkpoint_image (pool_reserved s)) (context_checkpoint_pool_ s) heads).

(** [back()] and [pop_back()] *)
Definition acquire_context_checkpoint_head (s : Checkpoints) : option (ContextCheckpointHead * Checkpoints) :=
  match last (context_checkpoint_pool_ s) with
  | None => None
  | Some head => Some (head, set_pool s (removelast (context_checkpoint_pool_ s)))
  end.

Section ops.
Context (context_marks : list Z).

Definition clear_context_checkpoints (lane : nat) (s : Checkpoints) : Checkpoints :=
  set_lane (recycle_all s (lane_heads (lane_of s lane))) lane
    (MkLane [] (first_prefill_context_mark context_marks)).

Definition drop_context_checkpoints_after (lane : nat) (frontier : Z) (s : Checkpoints) : Checkpoints :=
  let heads := lane_heads (lane_of s lane) in
  let keep h := retain_context_checkpoint_head (ch_frontier h) frontier = true in
  set_lane (recycle_all s (filter (fun h => ~ keep h) heads)) lane
    (MkLane (filter keep heads) (default 0 (next_prefill_context_mark frontier context_marks))).

Definition has_head_at (heads : list ContextCheckpointHead) (frontier : Z) : bool :=
  existsb (fun h => ch_frontier h =? frontier) heads.

(** The guards of [maybe_freeze_context_checkpoint] and the image it acquires;
    [capture_enabled] is the conjunction the function computes. *)
Definition freeze_head (lane : nat) (prefill capture_enabled complete : bool) (frontier ledger_size : Z)
    (s : Checkpoints) : option (ContextCheckpointHead * Checkpoints) :=
  let l := lane_of s lane in
  if negb prefill then None
  else if negb (should_freeze_prefill_context_checkpoint true capture_enabled frontier (next_context_mark l)
                  (has_head_at (lane_heads l) frontier) complete) then None
  else if ledger_size <? frontier then None
  else acquire_context_checkpoint_head s.

(** The lane's heads and next mark after [maybe_freeze_context_checkpoint]; [hash] is
    what [prefix_hashes.at] returns for [frontier]. *)
Definition maybe_freeze_context_checkpoint (lane : nat) (prefill capture_enabled complete : bool)
    (frontier ledger_size : Z) (hash : PrefixHash128) (s : Checkpoints) : Checkpoints :=
  let l := lane_of s lane in
  match freeze_head lane prefill capture_enabled complete frontier ledger_size s with
  | None => s
  | Some (head, s) =>
      set_lane s lane
        (MkLane (lane_heads l ++
                 [MkHead (advertised_context_checkpoint_frontier frontier) hash Ladder (ch_image head)])
                (default 0 (next_prefill_context_mark frontier context_marks)))
  end.

(** [std::find_if] for the rollback head: the heads before it, it, the heads after it. *)
Fixpoint find_rollback (heads : list ContextCheckpointHead)
    : option (list ContextCheckpointHead * ContextCheckpointHead * list ContextCheckpointHead) :=
  match heads with
  | [] => None
  | h :: heads =>
      if bool_decide (ch_kind h = TurnRollback) then Some ([], h, heads)
      else match find_rollback heads with
           | Some (before, r, after) => Some (h :: before, r, after)
           | None => None
           end
  end.

(** The guards of [maybe_capture_turn_rollback], the image it reuses or acquires, and
    the heads it keeps; [enabled], [complete] and [auto_rollback] are the function's
    own booleans, [tail_present] is [tail_hidden.data != nullptr]. *)
Definition rollback_head (lane : nat) (reuse : PrefixReusePath) (base prompt_tokens : Z)
    (enabled tail_hidden_valid complete request_pin auto_rollback tail_present : bool)
    (ledger_size : Z) (s : Checkpoints) : option (N * list ContextCheckpointHead * Checkpoints) :=
  let l := lane_of s lane in
  let already := has_head_at (lane_heads l) base in
  if negb (auto_rollback &&
           should_capture_turn_rollback reuse base prompt_tokens enabled tail_hidden_valid already complete)
     && negb (should_capture_exact_hit_pin request_pin base prompt_tokens enabled tail_hidden_valid already complete)
  then None
  else if (ledger_size <? base) || negb tail_present then None
  else
    match find_rollback (lane_heads l) with
    | Some (before, existing, after) => Some (ch_image existing, before ++ after, s)
    | None =>
        match acquire_context_checkpoint_head s with
        | None => None
        | Some (head, s) => Some (ch_image head, lane_heads l, s)
        end
    end.

(** The lane's heads after [maybe_capture_turn_rollback]. *)
Definition maybe_capture_turn_rollback (lane : nat) (reuse : PrefixReusePath) (base prompt_tokens : Z)
    (enabled tail_hidden_valid complete request_pin auto_rollback tail_present : bool)
    (ledger_size : Z) (hash : PrefixHash128) (s : Checkpoints) : Checkpoints :=
  match rollback_head lane reuse base prompt_tokens enabled tail_hidden_valid complete request_pin auto_rollback
          tail_present ledger_size s with
  | None => s
  | Some (image, heads, s') =>
      set_lane s' lane (MkLane (heads ++ [MkHead base hash TurnRollback image]) (next_context_mark (lane_of s lane)))
  end.

(** The fields of [RamLadderImage] that [install_ram_context_checkpoints] reads;
    a size is zero when the image's pointer is null. *)
Record InstallImage : Type := MkInstall {
  ii_frontier : Z;
  ii_hash : PrefixHash128;
  ii_kind : ContextCheckpointKind;
  ii_sizes : list Z;
}.

(** The loop over the entry's images; [layout] are the sizes of the pool's images. *)
Fixpoint install_loop (layout : list Z) (reuse_base : Z) (images : list InstallImage)
    (heads : list ContextCheckpointHead) (s : Checkpoints) : list ContextCheckpointHead * Checkpoints :=
  match images with
  | [] => (heads, s)
  | image :: images =>
      if reuse_base <? ii_frontier image then install_loop layout reuse_base images heads s
      else if bool_decide (context_checkpoint_pool_ s = []) then (heads, s)
      else if negb (bool_decide (ii_sizes image = layout)) then install_loop layout reuse_base images heads s
      else
        match acquire_context_checkpoint_head s with
        | None => (heads, s)
        | Some (head, s) =>
            install_loop layout reuse_base images
              (heads ++ [MkHead (ii_frontier image) (ii_hash image) (ii_kind image) (ch_image head)]) s
        end
  end.

(** [copies_ok] is false when [copy_from_entry] throws. *)
Definition install_ram_context_checkpoints (lane : nat) (layout : list Z) (reuse_base : Z)
    (images : list InstallImage) (copies_ok : bool) (s : Checkpoints) : res unit * Checkpoints :=
  let '(heads, s) := install_loop layout reuse_base images [] s in
  if negb copies_ok then (Throw runtime_error, recycle_all s heads)
  else
    let s := clear_context_checkpoints lane s in
    (Ok tt, set_lane s lane (MkLane heads (next_context_mark (lane_of s lane)))).

(** Startup: [pool_heads] images carved from the slab, every lane at the first mark. *)
Definition startup (max_concurrency pool_heads : nat) : Checkpoints :=
  MkCheckpoints (MkHead 0 (MkHash 0 0) Ladder <$> (N.of_nat <$> seq 0 pool_heads)) pool_heads
    (replicate max_concurrency (MkLane [] (first_prefill_context_mark context_marks))).
End ops.

Example pool_capacity_default :
  context_checkpoint_image_pool_capacity 4 kPrefillContextMarks 262144 262144 = 18.
Proof. vm_compute. reflexivity. Qed.
