(* ===== verification/CheckpointTheorems.v ===== *)
(** * Context checkpoints: the pool is exactly large enough, heads are never lost *)

From stdpp Require Import prelude list list_numbers sorting.
From Stdlib Require Import ZArith Lia.
From S2P Require Import Prelude.
From S2P Require Import PrefixIdentity.
From S2P Require Import ContextReuse.
From S2P Require Import CheckpointPool.
#[local] Open Scope Z_scope.

(** ** The optimum that [best] computes *)
Definition total (ks : list nat) : Z := sumZ (Z.of_nat <$> ks).
Definition cost (marks : list Z) (ks : list nat) : Z := sumZ (mark_cost marks <$> ks).

Definition dominates (a b : nat) : Prop := (b <= a)%nat.

#[export] Instance dominates_dec a b : Decision (dominates a b).
Proof. unfold dominates. apply _. Defined.

(** Ladder counts per lane within a budget, the counts nonincreasing. *)
Record plan (marks : list Z) (lanes max_k : nat) (budget : Z) (ks : list nat) : Prop := MkPlan {
  plan_lanes : length ks = lanes;
  plan_max : Forall (fun k => (k <= max_k)%nat) ks;
  plan_order : StronglySorted dominates ks;
  plan_cost : cost marks ks <= budget;
}.

Definition optimum (marks : list Z) (lanes max_k : nat) (budget b : Z) : Prop :=
  (forall ks, plan marks lanes max_k budget ks -> total ks <= b) /\
  exists ks, plan marks lanes max_k budget ks /\ total ks = b.

Lemma total_le k ks : Forall (fun j => (j <= k)%nat) ks -> 0 <= total ks <= Z.of_nat k * Z.of_nat (length ks).
Proof.
  unfold total. induction 1 as [|j ks Hj _ IH]; [cbn; lia|]. rewrite sum_cons. cbn [length]. nia.
Qed.

Section optimum.
Context (marks : list Z) (Hmarks : Forall (fun m => 0 <= m) marks).

Lemma mark_cost_nonneg k : 0 <= mark_cost marks k.
Proof.
  destruct k as [|k]; [done|]. cbn. destruct (nth_in_or_default k marks 0) as [Hin| ->]; [|done].
  rewrite Forall_forall in Hmarks. apply Hmarks. by apply list_elem_of_In.
Qed.

Lemma cost_nonneg ks : 0 <= cost marks ks.
Proof.
  unfold cost. induction ks as [|k ks IH]; [done|]. rewrite sum_cons. pose proof (mark_cost_nonneg k). lia.
Qed.

Lemma plan_cons lanes max_k budget k ks :
  plan marks (S lanes) max_k budget (k :: ks) <->
  (k <= max_k)%nat /\ mark_cost marks k <= budget /\ plan marks lanes k (budget - mark_cost marks k) ks.
Proof.
  split.
  - intros [Hl Hm Ho Hc]. apply Forall_cons in Hm as [Hk Hm]. apply StronglySorted_inv in Ho as [Ho Hf].
    unfold cost in Hc. rewrite sum_cons in Hc. pose proof (cost_nonneg ks) as H0. unfold cost in H0.
    split_and!; [done|lia|]. split; [by injection Hl|done|done|]. unfold cost. lia.
  - intros (Hk & Hc & [Hl Hm Ho Hc']). split.
    + cbn. by rewrite Hl.
    + constructor; [done|]. eapply Forall_impl; [exact Hm|]. cbn. lia.
    + by constructor.
    + unfold cost in *. rewrite sum_cons. lia.
Qed.

(** One lane's loop, given the optimum for the other lanes. *)
Lemma best_loop_spec self lanes max_k budget :
  (forall k b, (k <= max_k)%nat -> 0 <= b -> optimum marks lanes k b (self k b)) ->
  Z.of_nat max_k * Z.of_nat (S lanes) <= size_max ->
  forall k result, (k <= max_k)%nat -> 0 <= result ->
  let out := best_loop self marks (S lanes) budget k result in
  result <= out /\ (forall ks, plan marks (S lanes) k budget ks -> total ks <= out) /\
  (out = result \/ exists ks, plan marks (S lanes) k budget ks /\ total ks = out).
Proof.
  intros Hself Hsize. cbv zeta. induction k as [|k IH]; intros result Hk Hr; cbn [best_loop].
  - rewrite (proj2 (Z.leb_le _ _)) by done. split_and!; [lia| |by left].
    intros ks [Hl Hm _ _]. apply total_le in Hm. lia.
  - assert (Z.of_nat (S k) * Z.of_nat (S lanes) <= size_max) as Hprod by nia.
    rewrite (wrap64_id (Z.of_nat (S k) * _)) by (unfold u64; lia).
    destruct (Z.of_nat (S k) * Z.of_nat (S lanes) <=? result) eqn:Estop; guards.
    { split_and!; [lia| |by left]. intros ks [Hl Hm _ _]. apply total_le in Hm. rewrite Hl in Hm. lia. }
    set (c := mark_cost marks (S k)). set (r := if budget <? c then _ else _).
    assert (result <= r /\ (forall ks, plan marks lanes (S k) (budget - c) ks -> c <= budget ->
        Z.of_nat (S k) + total ks <= r) /\
      (r = result \/ exists ks, plan marks (S lanes) (S k) budget (S k :: ks) /\ total (S k :: ks) = r))
      as (R1 & R2 & R3).
    { subst r. destruct (budget <? c) eqn:Ec; guards; [split_and!; [lia|intros; lia|by left]|].
      destruct (Hself (S k) (budget - c) Hk ltac:(lia)) as [Hub (ks & Hp & Ht)].
      pose proof (total_le (S k) ks (plan_max _ _ _ _ _ Hp)) as Hle. rewrite (plan_lanes _ _ _ _ _ Hp) in Hle.
      rewrite wrap64_id by (unfold u64; nia). split_and!.
      - lia.
      - intros ks' Hp' _. specialize (Hub ks' Hp'). lia.
      - destruct (Z.max_spec result (Z.of_nat (S k) + self (S k) (budget - c))) as [[_ ->]|[_ ->]]; [right|by left].
        exists ks. split; [by apply plan_cons|]. unfold total in *. rewrite sum_cons. lia. }
    destruct (IH r ltac:(lia) ltac:(lia)) as (I1 & I2 & I3). split_and!; [lia| |].
    + intros [|j ks] Hp; [by destruct Hp|]. pose proof Hp as Hp'. apply plan_cons in Hp as (Hj & Hc & Hp).
      destruct (decide (j = S k)) as [->|Hne].
      * specialize (R2 ks Hp Hc). unfold total in *. rewrite sum_cons. lia.
      * apply I2. apply plan_cons. split_and!; [lia|done|done].
    + destruct I3 as [->|(ks & Hp & Ht)].
      * destruct R3 as [?|(ks & Hp & Ht)]; [by left|right; eauto].
      * right. exists ks. split; [|done]. destruct Hp as [Hl Hm Ho Hc]. split; [done| |done|done].
        eapply Forall_impl; [exact Hm|]. cbn. lia.
Qed.

Lemma best_spec lanes : forall max_k budget,
  Z.of_nat max_k * Z.of_nat lanes <= size_max -> 0 <= budget ->
  optimum marks lanes max_k budget (best marks lanes max_k budget).
Proof.
  induction lanes as [|lanes IH]; intros max_k budget Hsize Hb; cbn [best].
  - split.
    + intros ks [Hl _ _ _]. by destruct ks.
    + exists []. split; [|done]. split; [done|constructor|constructor|done].
  - destruct (best_loop_spec (best marks lanes) lanes max_k budget) with (k := max_k) (result := 0)
      as (H1 & H2 & H3); [|done|done|done|].
    { intros k b Hk H0. apply IH; [nia|done]. }
    split; [done|]. destruct H3 as [E|?]; [|done]. exists (replicate (S lanes) 0%nat).
    assert (total (replicate (S lanes) 0%nat) = 0) as Ht.
    { unfold total. generalize (S lanes) as n. induction n; [done|]. cbn [replicate]. by rewrite sum_cons, IHn. }
    split; [|lia]. split.
    + by rewrite length_replicate.
    + apply Forall_replicate. lia.
    + clear. generalize (S lanes) as n. induction n; [constructor|]. cbn. constructor; [done|].
      apply Forall_replicate. unfold dominates; lia.
    + transitivity 0; [|done]. clear. unfold cost. generalize (S lanes) as n. induction n; [done|].
      cbn [replicate]. rewrite sum_cons. cbn. lia.
Qed.

(** The order of the lanes does not matter. *)
Lemma best_upper lanes max_k budget ks :
  Z.of_nat max_k * Z.of_nat lanes <= size_max -> 0 <= budget ->
  length ks = lanes -> Forall (fun k => (k <= max_k)%nat) ks -> cost marks ks <= budget ->
  total ks <= best marks lanes max_k budget.
Proof.
  intros Hs Hb Hl Hm Hc. set (sorted := merge_sort dominates ks).
  assert (sorted ≡ₚ ks) as Hp by apply merge_sort_Permutation.
  assert (total ks = total sorted) as -> by (unfold total; apply sumZ_Permutation; by rewrite Hp).
  apply (best_spec lanes max_k budget Hs Hb). split.
  - by rewrite (Permutation_length Hp).
  - by rewrite Hp.
  - apply StronglySorted_merge_sort.
    + unfold dominates. intros a b d ? ?. lia.
    + unfold dominates. intros a b. lia.
  - unfold cost in *. rewrite (sumZ_Permutation _ (mark_cost marks <$> ks)) by (by rewrite Hp). done.
Qed.
End optimum.

(** ** Ladders *)

(** The k-th ladder head lies at or past the k-th mark. *)
Definition crossed (marks ladder : list Z) : Prop :=
  forall k f, ladder !! k = Some f -> exists m, marks !! k = Some m /\ m <= f.

(** Marks as the validation accepts them. *)
Definition marks_ok (marks : list Z) : Prop :=
  Forall (fun m => 0 < m) marks /\ StronglySorted Z.lt marks /\ Z.of_nat (length marks) <= u32_max.

Lemma marks_nonneg marks : marks_ok marks -> Forall (fun m => 0 <= m) marks.
Proof. intros [H _]. eapply Forall_impl; [exact H|]. cbn. lia. Qed.

Lemma reachable_length cap marks : (reachable_marks cap marks <= length marks)%nat.
Proof. induction marks as [|m marks IH]; cbn; [done|]. destruct (m <=? cap); lia. Qed.

(** A mark at or below the sequence capacity is reachable, with all before it. *)
Lemma reachable_spec cap marks k :
  StronglySorted Z.lt marks -> (k < reachable_marks cap marks)%nat <-> exists m, marks !! k = Some m /\ m <= cap.
Proof.
  intros Hs. revert k. induction Hs as [|m marks Hs IH Hm]; intros k; cbn [reachable_marks].
  - split; [lia|by intros (? & ? & _)].
  - destruct (m <=? cap) eqn:E; guards.
    + destruct k as [|k]; cbn [lookup list_lookup]; [split; [eauto|lia]|]. rewrite <- Nat.succ_lt_mono. apply IH.
    + split; [lia|]. intros (x & Hx & Hle). destruct k as [|k]; cbn in Hx; [injection Hx as <-; lia|].
      rewrite Forall_lookup in Hm. specialize (Hm k x Hx). lia.
Qed.

Lemma crossed_count cap marks ladder resident :
  StronglySorted Z.lt marks -> crossed marks ladder -> Forall (fun f => f <= resident) ladder ->
  resident <= cap -> 0 <= resident ->
  (length ladder <= reachable_marks cap marks)%nat /\ mark_cost marks (length ladder) <= resident.
Proof.
  intros Hs Hc Hf Hr H0. destruct (length ladder) as [|k] eqn:El; [split; [lia|done]|].
  destruct (lookup_lt_is_Some_2 ladder k) as [f Hk]; [lia|]. destruct (Hc k f Hk) as (m & Hm & Hle).
  rewrite Forall_lookup in Hf. specialize (Hf k f Hk). cbn in Hf. split.
  - apply Nat.le_succ_l. apply reachable_spec; [done|]. exists m. split; [done|lia].
  - cbn. rewrite (nth_lookup_Some _ _ _ _ Hm). lia.
Qed.

Lemma pool_capacity_sum max_concurrency marks seq kv :
  marks_ok marks -> u32 max_concurrency ->
  context_checkpoint_image_pool_capacity max_concurrency marks seq kv =
    max_concurrency + best marks (Z.to_nat max_concurrency) (reachable_marks seq marks) kv \/ kv < 0.
Proof.
  intros Hm Hc. destruct (decide (kv < 0)); [by right|left]. unfold context_checkpoint_image_pool_capacity.
  pose proof (reachable_length seq marks) as Hr. pose proof (proj2 (proj2 Hm)) as Hl.
  assert (Z.of_nat (reachable_marks seq marks) * Z.of_nat (Z.to_nat max_concurrency) <= u32_max * u32_max) as Hp
    by (unfold u32, u32_max in *; nia).
  destruct (best_spec marks (marks_nonneg _ Hm) (Z.to_nat max_concurrency) (reachable_marks seq marks) kv)
    as [_ (ks & Hks & <-)]; [unfold u32_max, size_max in *; lia|lia|].
  pose proof (total_le _ _ (plan_max _ _ _ _ _ Hks)) as Ht. rewrite (plan_lanes _ _ _ _ _ Hks) in Ht.
  apply wrap64_id. unfold u64, u32, size_max, u32_max in *. lia.
Qed.

(** Lanes as (resident tokens, ladder frontiers) within the shared KV budget. *)
Record resident_lanes (marks : list Z) (max_concurrency seq kv : Z) (lanes : list (Z * list Z)) : Prop :=
  MkResidentLanes {
    rl_count : Z.of_nat (length lanes) = max_concurrency;
    rl_tokens : Forall (fun l => 0 <= fst l <= seq) lanes;
    rl_shared : sumZ (fst <$> lanes) <= kv;
    rl_inside : Forall (fun l => Forall (fun f => f <= fst l) (snd l)) lanes;
    rl_crossed : Forall (fun l => crossed marks (snd l)) lanes;
  }.

Definition ladder_images (lanes : list (Z * list Z)) : Z :=
  sumZ ((fun l => Z.of_nat (length (snd l))) <$> lanes).

Lemma resident_lanes_bound marks max_concurrency seq kv lanes :
  marks_ok marks -> u32 max_concurrency -> 0 <= kv -> resident_lanes marks max_concurrency seq kv lanes ->
  max_concurrency + ladder_images lanes <= context_checkpoint_image_pool_capacity max_concurrency marks seq kv.
Proof.
  intros Hm Hc Hkv [H1 H2 H3 H4 H5]. destruct (pool_capacity_sum max_concurrency marks seq kv Hm Hc) as [->|]; [|lia].
  pose proof (reachable_length seq marks) as Hr. pose proof (marks_nonneg _ Hm) as Hn.
  destruct Hm as (_ & Hs & Hl).
  apply Z.add_le_mono_l. rewrite Forall_forall in H2, H4, H5.
  assert (forall l, l ∈ lanes -> (length (snd l) <= reachable_marks seq marks)%nat /\
            mark_cost marks (length (snd l)) <= fst l) as Hlane.
  { intros l Hin. destruct (H2 l Hin). apply (crossed_count seq); auto; lia. }
  replace (ladder_images lanes) with (total ((fun l => length (snd l)) <$> lanes))
    by (unfold total, ladder_images; by rewrite <- list_fmap_compose).
  apply best_upper; [done| |done|by rewrite length_fmap; lia| |].
  - unfold u32, u32_max, size_max in *. nia.
  - apply Forall_fmap, Forall_forall. intros l Hin. by apply Hlane.
  - etransitivity; [|exact H3]. unfold cost. rewrite <- list_fmap_compose. apply sumZ_le.
    intros l Hin. by apply Hlane.
Qed.

(** C37: The image pool is exactly large enough: whatever ladders the lanes hold, each
    inside its resident tokens, the lanes together inside the KV capacity, and the
    k-th head of a lane at or past the k-th mark, one image per head and one rollback
    image per lane fit in [context_checkpoint_image_pool_capacity]; and some lanes
    need all of it.  The computation does not overflow. *)
Theorem image_pool_capacity_exact marks max_concurrency seq kv :
  marks_ok marks -> u32 max_concurrency -> 0 <= seq -> 0 <= kv ->
  (forall lanes, resident_lanes marks max_concurrency seq kv lanes ->
     max_concurrency + ladder_images lanes
       <= context_checkpoint_image_pool_capacity max_concurrency marks seq kv) /\
  exists lanes, resident_lanes marks max_concurrency seq kv lanes /\
    max_concurrency + ladder_images lanes
      = context_checkpoint_image_pool_capacity max_concurrency marks seq kv.
Proof.
  intros Hm Hc Hq Hkv. split; [intros lanes; by apply resident_lanes_bound|].
  destruct (pool_capacity_sum max_concurrency marks seq kv Hm Hc) as [->|]; [|lia].
  pose proof (reachable_length seq marks) as Hr. pose proof (marks_nonneg _ Hm) as Hn. destruct Hm as (_ & Hs & Hl).
  destruct (best_spec marks Hn (Z.to_nat max_concurrency) (reachable_marks seq marks) kv) as [_ (ks & Hp & <-)];
    [unfold u32, u32_max, size_max in *; nia|done|]. destruct Hp as [P1 P2 _ P4]. rewrite Forall_forall in P2.
  exists ((fun k => (mark_cost marks k, take k marks)) <$> ks).
  assert (forall k, k ∈ ks -> length (take k marks) = k) as Hlen
    by (intros k Hk; rewrite length_take; specialize (P2 k Hk); cbn in P2; lia).
  assert (forall k m, k ∈ ks -> k <> O -> marks !! pred k = Some m -> m <= seq) as Hcap.
  { intros k m Hk H0 Hlk. destruct (proj1 (reachable_spec seq marks (pred k) Hs)) as (x & Hx & Hle);
      [specialize (P2 k Hk); cbn in P2; lia|]. congruence. }
  split.
  - split.
    + rewrite length_fmap, P1. unfold u32 in Hc. lia.
    + apply Forall_fmap, Forall_forall. intros k Hk. cbn. split; [by apply mark_cost_nonneg|].
      destruct k as [|k]; [done|]. cbn. destruct (lookup_lt_is_Some_2 marks k) as [m Hlk];
        [specialize (P2 _ Hk); cbn in P2; lia|]. rewrite (nth_lookup_Some _ _ _ _ Hlk). by apply (Hcap (S k)).
    + rewrite <- list_fmap_compose. exact P4.
    + apply Forall_fmap, Forall_forall. intros k Hk. cbn. apply Forall_lookup. intros i f Hi.
      apply lookup_take_Some in Hi as [Hi Hlt]. destruct k as [|k]; [lia|]. cbn.
      destruct (lookup_lt_is_Some_2 marks k) as [m Hlk]; [specialize (P2 _ Hk); cbn in P2; lia|].
      rewrite (nth_lookup_Some _ _ _ _ Hlk). destruct (decide (i = k)) as [->|]; [assert (f = m) by congruence; lia|].
      pose proof (sorted_lookup_lt _ _ _ _ _ _ Hs Hi Hlk ltac:(lia)). lia.
    + apply Forall_fmap, Forall_forall. intros k Hk i f Hi. cbn in Hi.
      apply lookup_take_Some in Hi as [Hi _]. eauto with lia.
  - unfold ladder_images, total. rewrite <- list_fmap_compose. f_equal. f_equal.
    apply list_fmap_ext. intros i k Hk. cbn. f_equal. apply Hlen. by eapply list_elem_of_lookup_2.
Qed.

(** ** The heads of a lane *)
Definition ladders (heads : list ContextCheckpointHead) : list Z :=
  ch_frontier <$> filter (fun h => ch_kind h = Ladder) heads.

Definition pins (heads : list ContextCheckpointHead) : list ContextCheckpointHead :=
  filter (fun h => ch_kind h <> Ladder) heads.

(** Ladder heads in increasing order, each past its mark, and at most one rollback. *)
Record heads_ok (marks : list Z) (heads : list ContextCheckpointHead) : Prop := MkHeadsOk {
  hk_crossed : crossed marks (ladders heads);
  hk_sorted : StronglySorted Z.lt (ladders heads);
  hk_pins : (length (pins heads) <= 1)%nat;
  hk_kinds : Forall (fun h => ch_kind h <> OnDemand) heads;
}.

(** The next mark lies past every ladder head and past as many marks. *)
Definition next_ok (marks ladder : list Z) (next : Z) : Prop :=
  next = 0 \/ exists j, marks !! j = Some next /\ (length ladder <= j)%nat /\ Forall (fun f => f < next) ladder.

Record lane_ok (marks : list Z) (l : LaneHeads) : Prop := MkLaneOk {
  lo_heads : heads_ok marks (lane_heads l);
  lo_next : next_ok marks (ladders (lane_heads l)) (next_context_mark l);
}.

Lemma ladders_app a b : ladders (a ++ b) = ladders a ++ ladders b.
Proof. unfold ladders. by rewrite filter_app, fmap_app. Qed.

Lemma pins_app a b : pins (a ++ b) = pins a ++ pins b.
Proof. unfold pins. by rewrite filter_app. Qed.

Lemma length_heads heads : length heads = (length (ladders heads) + length (pins heads))%nat.
Proof.
  unfold ladders, pins. rewrite length_fmap. induction heads as [|h heads IH]; [done|].
  rewrite !filter_cons. destruct (decide (ch_kind h = Ladder)), (decide (ch_kind h <> Ladder)); cbn; try done; lia.
Qed.

Lemma crossed_sublist marks k l :
  k `sublist_of` l -> StronglySorted Z.lt l -> crossed marks l -> crossed marks k.
Proof.
  intros Hk Hs Hc i f Hi. destruct (sublist_lookup _ _ _ _ Hk Hi) as (j & Hij & Hj).
  destruct (lookup_lt_is_Some_2 l i) as [g Hg]; [apply lookup_lt_Some in Hj; lia|].
  destruct (Hc i g Hg) as (m & Hm & Hle). exists m. split; [done|].
  destruct (decide (i = j)) as [->|]; [assert (f = g) by congruence; lia|].
  pose proof (sorted_lookup_lt _ _ _ _ _ _ Hs Hg Hj ltac:(lia)). lia.
Qed.

Lemma filter_mono {A} (P : A -> Prop) `{!forall x, Decision (P x)} k l :
  k `sublist_of` l -> filter P k `sublist_of` filter P l.
Proof.
  induction 1 as [|x k l Hk IH|x k l Hk IH]; [done|..]; rewrite !filter_cons; destruct (decide (P x)); try done;
    by constructor.
Qed.

Lemma heads_ok_sublist marks k l : k `sublist_of` l -> heads_ok marks l -> heads_ok marks k.
Proof.
  intros Hk [H1 H2 H3 H4].
  assert (ladders k `sublist_of` ladders l) as Hl by (unfold ladders; by apply fmap_sublist, filter_mono).
  assert (pins k `sublist_of` pins l) as Hp by (by apply filter_mono).
  split.
  - by eapply crossed_sublist.
  - by eapply sorted_sublist.
  - apply sublist_length in Hp. lia.
  - by eapply Forall_sublist.
Qed.

(** [next_prefill_context_mark] finds the first mark past the frontier. *)
Lemma next_mark_spec f marks m :
  next_prefill_context_mark f marks = Some m ->
  exists j, marks !! j = Some m /\ f < m /\ forall i x, (i < j)%nat -> marks !! i = Some x -> x <= f.
Proof.
  induction marks as [|x marks IH]; cbn [next_prefill_context_mark]; [done|].
  destruct (f <? x) eqn:E; guards.
  - intros [= <-]. exists O. split_and!; [done|done|]. intros. lia.
  - intros H. destruct (IH H) as (j & Hj & Hlt & Hbelow). exists (S j). split_and!; [done|done|].
    intros [|i] y Hi Hy; [injection Hy as <-; lia|]. apply (Hbelow i); [lia|done].
Qed.

Lemma next_ok_after marks ladder f :
  StronglySorted Z.lt marks -> crossed marks ladder -> Forall (fun x => x <= f) ladder ->
  next_ok marks ladder (default 0 (next_prefill_context_mark f marks)).
Proof.
  intros Hs Hc Hf. destruct (next_prefill_context_mark f marks) as [m|] eqn:E; [right|by left].
  destruct (next_mark_spec f marks m E) as (j & Hj & Hlt & Hbelow). exists j. split_and!; [done| |].
  - destruct (length ladder) as [|k] eqn:El; [lia|].
    destruct (lookup_lt_is_Some_2 ladder k) as [g Hg]; [lia|]. destruct (Hc k g Hg) as (x & Hx & Hle).
    rewrite Forall_lookup in Hf. specialize (Hf k g Hg). cbn in Hf. destruct (decide (k < j)%nat); [lia|].
    destruct (decide (k = j)) as [->|]; [assert (x = m) by congruence; lia|].
    pose proof (sorted_lookup_lt _ _ _ _ _ _ Hs Hj Hx ltac:(lia)). lia.
  - eapply Forall_impl; [exact Hf|]. cbn. lia.
Qed.

(** Freezing extends the ladder past the mark it reached. *)
Lemma freeze_heads_ok marks l f hash image :
  StronglySorted Z.lt marks -> lane_ok marks l -> next_context_mark l <> 0 -> next_context_mark l <= f ->
  lane_ok marks (MkLane (lane_heads l ++ [MkHead f hash Ladder image])
    (default 0 (next_prefill_context_mark f marks))).
Proof.
  intros Hs [[H1 H2 H3 H4] Hn] H0 Hle. destruct Hn as [?|(j & Hj & Hlen & Hlt)]; [done|].
  assert (crossed marks (ladders (lane_heads l ++ [MkHead f hash Ladder image]))) as Hc.
  { rewrite ladders_app. intros k g Hk. apply lookup_app_Some in Hk as [Hk|[Hk Hg]]; [by apply H1|].
    change (ladders [MkHead f hash Ladder image]) with [f] in Hg. apply list_lookup_singleton_Some in Hg as [Hk0 <-].
    destruct (lookup_lt_is_Some_2 marks k) as [m Hm]; [apply lookup_lt_Some in Hj; lia|].
    exists m. split; [done|]. destruct (decide (k = j)) as [->|]; [assert (m = next_context_mark l) by congruence; lia|].
    pose proof (sorted_lookup_lt _ _ _ _ _ _ Hs Hm Hj ltac:(lia)). lia. }
  assert (Forall (fun x => x <= f) (ladders (lane_heads l ++ [MkHead f hash Ladder image]))) as Hf.
  { rewrite ladders_app. apply Forall_app. split; [|constructor; [cbn; lia|constructor]].
    eapply Forall_impl; [exact Hlt|]. cbn. lia. }
  split; cbn [lane_heads next_context_mark]; [|by apply next_ok_after]. split; [done| | |].
  - rewrite ladders_app. change (ladders [MkHead f hash Ladder image]) with [f].
    apply StronglySorted_app_2; [|done|by repeat constructor]. intros x y Hx Hy. apply list_elem_of_singleton in Hy as ->. rewrite Forall_forall in Hlt. specialize (Hlt x Hx). cbn in Hlt. lia.
  - rewrite pins_app, length_app. change (pins [MkHead f hash Ladder image]) with (@nil ContextCheckpointHead).
    cbn. lia.
  - apply Forall_app. split; [done|]. by repeat constructor.
Qed.

Lemma find_rollback_spec heads :
  match find_rollback heads with
  | Some (before, r, after) => heads = before ++ r :: after /\ ch_kind r = TurnRollback
  | None => Forall (fun h => ch_kind h <> TurnRollback) heads
  end.
Proof.
  induction heads as [|h heads IH]; cbn [find_rollback]; [constructor|].
  destruct (bool_decide (ch_kind h = TurnRollback)) eqn:E.
  - apply bool_decide_eq_true in E. done.
  - apply bool_decide_eq_false in E. destruct (find_rollback heads) as [[[before r] after]|].
    + destruct IH as [-> Hr]. done.
    + by constructor.
Qed.

Lemma no_pins heads :
  Forall (fun h => ch_kind h <> OnDemand) heads -> Forall (fun h => ch_kind h <> TurnRollback) heads -> pins heads = [].
Proof.
  intros H1 H2. unfold pins. induction heads as [|h heads IH]; [done|].
  apply Forall_cons in H1 as [? ?]. apply Forall_cons in H2 as [? ?].
  rewrite filter_cons_False; [by apply IH|]. destruct (ch_kind h); intros Hn; by apply Hn.
Qed.

(** Pinning a rollback head replaces the old one and leaves the ladder alone. *)
Lemma pin_heads_ok marks l heads base hash image :
  lane_ok marks l -> ladders heads = ladders (lane_heads l) -> pins heads = [] ->
  Forall (fun h => ch_kind h <> OnDemand) heads ->
  lane_ok marks (MkLane (heads ++ [MkHead base hash TurnRollback image]) (next_context_mark l)).
Proof.
  intros [[H1 H2 H3 H4] Hn] El Ep Hk.
  assert (ladders (heads ++ [MkHead base hash TurnRollback image]) = ladders (lane_heads l)) as E
    by (rewrite ladders_app, El; apply app_nil_r).
  split; cbn [lane_heads next_context_mark]; rewrite ?E; [|done]. split; rewrite ?E; [done|done| |].
  - rewrite pins_app, Ep. done.
  - apply Forall_app. split; [done|]. by repeat constructor.
Qed.

(** ** Images are conserved *)
Definition images (heads : list ContextCheckpointHead) : list N := ch_image <$> heads.

Definition owned_images (s : Checkpoints) : list N :=
  concat ((fun l => images (lane_heads l)) <$> lanes_ s).

(** Every image carved at startup is in the pool, in one lane's heads, or in the
    hands of the call in progress. *)
Definition conserved (n : nat) (s : Checkpoints) (hand : list ContextCheckpointHead) : Prop :=
  pool_reserved s = n /\
  images (context_checkpoint_pool_ s) ++ owned_images s ++ images hand ≡ₚ N.of_nat <$> seq 0 n.

Lemma conserved_room n s hand :
  conserved n s hand -> (length (context_checkpoint_pool_ s) + length (owned_images s) + length hand)%nat = n.
Proof.
  intros [_ Hp]. apply Permutation_length in Hp. unfold images in Hp.
  rewrite !length_app, !length_fmap, length_seq in Hp. lia.
Qed.

Lemma recycle_foldl reserved heads : forall pool,
  (length pool + length heads <= reserved)%nat ->
  images (foldl (recycle_checkpoint_image reserved) pool heads) = images pool ++ images heads.
Proof.
  induction heads as [|h heads IH]; intros pool Hl; cbn [foldl]; [by rewrite app_nil_r|].
  cbn [length] in Hl. assert (recycle_checkpoint_image reserved pool h = pool ++ [MkHead 0 (MkHash 0 0) Ladder (ch_image h)]) as ->.
  { unfold recycle_checkpoint_image. by rewrite (proj2 (Nat.eqb_neq _ _)) by lia. }
  rewrite IH by (rewrite length_app; cbn; lia). unfold images. by rewrite fmap_app, <- app_assoc.
Qed.

(** Returning the heads in hand. *)
Lemma recycle_conserved n s back hand :
  conserved n s (back ++ hand) -> conserved n (recycle_all s back) hand.
Proof.
  intros Hc. pose proof (conserved_room n s _ Hc) as Hl. rewrite length_app in Hl. destruct Hc as [Hr Hp].
  split; [done|]. unfold recycle_all, set_pool, owned_images in *. cbn [context_checkpoint_pool_ lanes_ pool_reserved] in *.
  rewrite recycle_foldl by lia. rewrite <- Hp. unfold images. rewrite fmap_app. solve_Permutation.
Qed.

Lemma owned_insert s lane l l' :
  lanes_ s !! lane = Some l ->
  images (lane_heads l) ++ owned_images (set_lane s lane l') ≡ₚ images (lane_heads l') ++ owned_images s.
Proof.
  intros Hl. unfold owned_images, set_lane. cbn [lanes_].
  rewrite (insert_take_drop _ _ _ (lookup_lt_Some _ _ _ Hl)).
  rewrite <- (take_drop_middle (lanes_ s) lane l Hl) at 3. rewrite !fmap_app, !fmap_cons, !concat_app. cbn.
  solve_Permutation.
Qed.

(** Replacing a lane's heads, exchanging images with the hand. *)
Lemma set_lane_conserved n s lane l l' hand hand' :
  lanes_ s !! lane = Some l -> conserved n s hand ->
  images (lane_heads l) ++ images hand ≡ₚ images (lane_heads l') ++ images hand' ->
  conserved n (set_lane s lane l') hand'.
Proof.
  intros Hl [Hr Hp] He. split; [done|]. rewrite <- Hp. cbn [context_checkpoint_pool_ set_lane].
  apply Permutation_app_head. apply (Permutation_app_inv_l (images (lane_heads l))).
  rewrite app_assoc, (owned_insert s lane l l' Hl).
  transitivity (owned_images s ++ (images (lane_heads l) ++ images hand)); [rewrite He|]; solve_Permutation.
Qed.

Lemma acquire_spec s :
  match acquire_context_checkpoint_head s with
  | Some (h, s') => s' = set_pool s (context_checkpoint_pool_ s') /\
      context_checkpoint_pool_ s = context_checkpoint_pool_ s' ++ [h]
  | None => context_checkpoint_pool_ s = []
  end.
Proof.
  unfold acquire_context_checkpoint_head. destruct (context_checkpoint_pool_ s) as [|h p] eqn:E using rev_ind; [done|].
  rewrite last_snoc. cbn. by rewrite removelast_last.
Qed.

Lemma acquire_conserved n s h s' hand :
  acquire_context_checkpoint_head s = Some (h, s') -> conserved n s hand -> conserved n s' (h :: hand).
Proof.
  intros E. pose proof (acquire_spec s) as H. rewrite E in H. destruct H as [-> Hp]. intros [Hr Hc].
  split; [done|]. rewrite <- Hc, Hp. unfold owned_images, images. cbn [context_checkpoint_pool_ set_pool lanes_].
  rewrite fmap_app, fmap_cons. cbn. solve_Permutation.
Qed.

(** A head keeps its image whatever is written into it. *)
Lemma conserved_hand n s hand hand' : images hand' ≡ₚ images hand -> conserved n s hand -> conserved n s hand'.
Proof. intros E [Hr Hc]. split; [done|]. by rewrite E. Qed.

(** ** The calls of a lane *)
Record checkpoints_ok (marks : list Z) (n : nat) (s : Checkpoints) : Prop := MkCheckpointsOk {
  cp_conserved : conserved n s [];
  cp_lanes : Forall (lane_ok marks) (lanes_ s);
}.

Lemma first_mark_ok marks : lane_ok marks (MkLane [] (first_prefill_context_mark marks)).
Proof.
  split; cbn [lane_heads next_context_mark].
  - split; [by intros k f|constructor|cbn; lia|constructor].
  - destruct marks as [|m ms]; [by left|right]. exists O. split_and!; [done|cbn; lia|constructor].
Qed.

Section calls.
Context (marks : list Z) (Hmarks : marks_ok marks) (n : nat).

Lemma lane_of_Some s lane l : lanes_ s !! lane = Some l -> lane_of s lane = l.
Proof. unfold lane_of. by intros ->. Qed.

Lemma clear_conserved s lane l hand :
  lanes_ s !! lane = Some l -> conserved n s hand -> conserved n (clear_context_checkpoints marks lane s) hand.
Proof.
  intros Hl Hc. unfold clear_context_checkpoints. rewrite (lane_of_Some s lane l Hl).
  apply (recycle_conserved n (set_lane s lane (MkLane [] (first_prefill_context_mark marks))) (lane_heads l)).
  eapply set_lane_conserved; [exact Hl|exact Hc|]. cbn. unfold images. by rewrite fmap_app.
Qed.

Lemma clear_ok s lane l :
  lanes_ s !! lane = Some l -> checkpoints_ok marks n s -> checkpoints_ok marks n (clear_context_checkpoints marks lane s).
Proof.
  intros Hl [Hc Hf]. split; [by eapply clear_conserved|]. apply Forall_insert; [done|]. apply first_mark_ok.
Qed.

(** Dropping only needs the lane's heads to be in order. *)
Lemma drop_ok s lane l frontier :
  lanes_ s !! lane = Some l -> conserved n s [] -> heads_ok marks (lane_heads l) ->
  (forall j k, j <> lane -> lanes_ s !! j = Some k -> lane_ok marks k) ->
  checkpoints_ok marks n (drop_context_checkpoints_after marks lane frontier s).
Proof.
  intros Hl Hc Hh Ho. unfold drop_context_checkpoints_after. rewrite (lane_of_Some s lane l Hl).
  set (keep := fun h => retain_context_checkpoint_head (ch_frontier h) frontier = true).
  set (l' := MkLane _ _). split.
  - apply (recycle_conserved n (set_lane s lane l')).
    eapply set_lane_conserved; [exact Hl|exact Hc|]. cbn [l' lane_heads]. unfold images.
    rewrite !app_nil_r, <- fmap_app. apply Permutation_map. symmetry.
    assert (forall hs, filter keep hs ++ filter (fun h => ~ keep h) hs ≡ₚ hs) as Hp; [|apply Hp].
    induction hs as [|h hs IH]; [done|]. rewrite !filter_cons.
    destruct (decide (keep h)), (decide (~ keep h)); try done; [by cbn; rewrite IH|].
    rewrite <- Permutation_middle. by rewrite IH.
  - cbn [lanes_ set_lane recycle_all set_pool]. rewrite Forall_lookup. intros j k Hk.
    destruct (decide (j = lane)) as [->|Hne]; [|rewrite list_lookup_insert_ne in Hk by done; by apply (Ho j)].
    rewrite list_lookup_insert_eq in Hk by (by eapply lookup_lt_Some). injection Hk as <-.
    assert (heads_ok marks (lane_heads l')) as Hh' by (eapply heads_ok_sublist; [apply sublist_filter|done]).
    split; [done|]. destruct Hmarks as (_ & Hs & _). apply next_ok_after; [done|by apply hk_crossed|].
    apply Forall_fmap, Forall_forall. intros h Hin. cbn in Hin.
    apply list_elem_of_filter in Hin as [_ Hin]. apply list_elem_of_filter in Hin as [Hin _].
    unfold keep, retain_context_checkpoint_head in Hin. cbn. guards. lia.
Qed.

Lemma lanes_acquired s h s' : acquire_context_checkpoint_head s = Some (h, s') -> lanes_ s' = lanes_ s.
Proof. intros E. pose proof (acquire_spec s) as H. rewrite E in H. destruct H as [-> _]. done. Qed.

(** Appending a head filled into an acquired image. *)
Lemma append_ok s h s' lane l head next :
  lanes_ s !! lane = Some l -> checkpoints_ok marks n s -> acquire_context_checkpoint_head s = Some (h, s') ->
  ch_image head = ch_image h -> lane_ok marks (MkLane (lane_heads l ++ [head]) next) ->
  checkpoints_ok marks n (set_lane s' lane (MkLane (lane_heads l ++ [head]) next)).
Proof.
  intros Hl [Hc Hf] Ea Ei Hok. pose proof (lanes_acquired _ _ _ Ea) as El. split.
  - eapply set_lane_conserved; [by rewrite El|by eapply acquire_conserved|].
    unfold images. cbn [lane_heads]. rewrite fmap_app. cbn. rewrite Ei. by rewrite app_nil_r.
  - cbn [lanes_ set_lane]. rewrite El. by apply Forall_insert.
Qed.

Lemma should_freeze_facts chunk enabled f next already complete :
  should_freeze_prefill_context_checkpoint chunk enabled f next already complete = true -> next <> 0 /\ next <= f.
Proof.
  unfold should_freeze_prefill_context_checkpoint. intros H. repeat case_match; try done. guards. split; [done|lia].
Qed.

Lemma freeze_ok s lane l prefill enabled complete frontier size hash :
  lanes_ s !! lane = Some l -> checkpoints_ok marks n s ->
  checkpoints_ok marks n (maybe_freeze_context_checkpoint marks lane prefill enabled complete frontier size hash s).
Proof.
  intros Hl Hok. unfold maybe_freeze_context_checkpoint, freeze_head. rewrite (lane_of_Some s lane l Hl).
  destruct (negb prefill); [done|]. destruct (should_freeze_prefill_context_checkpoint _ _ _ _ _ _) eqn:E; [|done].
  cbn [negb]. destruct (size <? frontier); [done|].
  destruct (acquire_context_checkpoint_head s) as [[h s']|] eqn:Ea; [|done].
  pose proof (cp_lanes _ _ _ Hok) as Hf. rewrite Forall_lookup in Hf. specialize (Hf lane l Hl).
  destruct (should_freeze_facts _ _ _ _ _ _ E).
  eapply append_ok; [done|done|done|done|]. destruct Hmarks as (_ & Hs & _). by apply freeze_heads_ok.
Qed.

(** Taking the rollback head out leaves the ladder, and no pin. *)
Lemma without_rollback heads before x after :
  heads_ok marks heads -> heads = before ++ x :: after -> ch_kind x = TurnRollback ->
  ladders (before ++ after) = ladders heads /\ pins (before ++ after) = [].
Proof.
  intros Hh El Er. split.
  - rewrite El, !ladders_app. f_equal. unfold ladders. rewrite filter_cons_False; [done|]. by rewrite Er.
  - pose proof (hk_pins _ _ Hh) as Hp. rewrite El, pins_app in Hp. unfold pins in *.
    rewrite filter_cons_True, length_app in Hp by (by rewrite Er). cbn in Hp.
    apply nil_length_inv. rewrite filter_app, length_app. lia.
Qed.

(** Where the image of a new rollback comes from. *)
Lemma rollback_head_spec s lane l reuse base prompt enabled valid complete pin auto present size image heads s' :
  lanes_ s !! lane = Some l ->
  rollback_head lane reuse base prompt enabled valid complete pin auto present size s = Some (image, heads, s') ->
  has_head_at (lane_heads l) base = false /\
  ((exists before x after, lane_heads l = before ++ x :: after /\ ch_kind x = TurnRollback /\ image = ch_image x /\
      heads = before ++ after /\ s' = s) \/
   (exists h, acquire_context_checkpoint_head s = Some (h, s') /\ image = ch_image h /\ heads = lane_heads l /\
      Forall (fun x => ch_kind x <> TurnRollback) (lane_heads l))).
Proof.
  intros Hl. unfold rollback_head. rewrite (lane_of_Some s lane l Hl).
  destruct (negb (auto && _) && negb _) eqn:Eg; [done|]. destruct (_ || negb present); [done|].
  pose proof (find_rollback_spec (lane_heads l)) as Hfind. intros H. split.
  - unfold should_capture_turn_rollback, should_capture_exact_hit_pin in Eg.
    destruct (has_head_at (lane_heads l) base); [|done]. rewrite !orb_true_r in Eg. cbn [orb] in Eg.
    destruct auto; repeat case_match; done.
  - destruct (find_rollback (lane_heads l)) as [[[before x] after]|].
    + injection H as <- <- <-. destruct Hfind as [El Er]. left. by exists before, x, after.
    + destruct (acquire_context_checkpoint_head s) as [[h s1]|] eqn:Ea; [|done]. injection H as <- <- <-.
      right. exists h. by split_and!.
Qed.

Lemma rollback_ok s lane l reuse base prompt enabled valid complete pin auto present size hash :
  lanes_ s !! lane = Some l -> checkpoints_ok marks n s ->
  checkpoints_ok marks n (maybe_capture_turn_rollback lane reuse base prompt enabled valid complete pin auto present size hash s).
Proof.
  intros Hl Hok. unfold maybe_capture_turn_rollback.
  destruct (rollback_head _ _ _ _ _ _ _ _ _ _ _ s) as [[[image heads] s']|] eqn:E; [|done].
  pose proof (cp_lanes _ _ _ Hok) as Hf. rewrite Forall_lookup in Hf. specialize (Hf lane l Hl).
  pose proof (hk_kinds _ _ (lo_heads _ _ Hf)) as Hk. rewrite (lane_of_Some s lane l Hl).
  destruct (rollback_head_spec _ _ _ _ _ _ _ _ _ _ _ _ _ _ _ _ Hl E)
    as [_ [(before & x & after & El & Er & -> & -> & ->)|(h & Ea & -> & -> & Hno)]].
  - destruct (without_rollback (lane_heads l) before x after (lo_heads _ _ Hf) El Er) as [Hlad Hpin].
    destruct Hok as [Hc Hlanes]. split.
    + eapply set_lane_conserved; [done|exact Hc|]. cbn [lane_heads]. unfold images. rewrite El, !fmap_app. cbn.
      rewrite !app_nil_r. solve_Permutation.
    + apply Forall_insert; [done|]. apply pin_heads_ok; [done|done|done|].
      rewrite El in Hk. apply Forall_app in Hk as [? Hk]. apply Forall_cons in Hk as [_ ?]. by apply Forall_app.
  - eapply append_ok; [done|done|done|done|]. apply pin_heads_ok; [done|done|by apply no_pins|done].
Qed.
End calls.

(** ** Restoring the heads of a cached entry *)
Definition stamp (h : ContextCheckpointHead) : ContextCheckpointHead :=
  MkHead (ch_frontier h) (ch_hash h) (ch_kind h) 0%N.

Definition image_head (i : InstallImage) : ContextCheckpointHead :=
  MkHead (ii_frontier i) (ii_hash i) (ii_kind i) 0%N.

Lemma ladders_stamp hs : ladders (stamp <$> hs) = ladders hs.
Proof.
  unfold ladders. induction hs as [|h hs IH]; [done|]. rewrite fmap_cons, !filter_cons.
  change (ch_kind (stamp h)) with (ch_kind h). destruct (decide (ch_kind h = Ladder)); cbn; by rewrite ?IH.
Qed.

Lemma pins_stamp hs : length (pins (stamp <$> hs)) = length (pins hs).
Proof.
  pose proof (length_heads hs) as H1. pose proof (length_heads (stamp <$> hs)) as H2.
  rewrite ladders_stamp, length_fmap in H2. lia.
Qed.

Lemma heads_ok_stamp marks hs : heads_ok marks (stamp <$> hs) -> heads_ok marks hs.
Proof.
  intros [H1 H2 H3 H4]. rewrite ladders_stamp in H1, H2. rewrite pins_stamp in H3.
  split; [done|done|done|]. rewrite Forall_forall in *. intros h Hh. apply (H4 (stamp h)).
  apply list_elem_of_fmap. by exists h.
Qed.

Section restore.
Context (marks : list Z) (Hmarks : marks_ok marks) (n : nat).

(** The heads taken from the pool carry a selection of the entry's images. *)
Lemma install_loop_spec layout base imgs : forall heads s,
  conserved n s heads ->
  let '(heads', s') := install_loop layout base imgs heads s in
  conserved n s' heads' /\ lanes_ s' = lanes_ s /\
  exists added, heads' = heads ++ added /\ (stamp <$> added) `sublist_of` (image_head <$> imgs).
Proof.
  induction imgs as [|i imgs IH]; intros heads s Hc; cbn [install_loop].
  { split_and!; [done|done|]. exists []. by rewrite app_nil_r. }
  assert (forall a b, (exists added, b = a ++ added /\ (stamp <$> added) `sublist_of` (image_head <$> imgs)) ->
    exists added, b = a ++ added /\ (stamp <$> added) `sublist_of` (image_head <$> i :: imgs)) as Hskip.
  { intros a b (added & -> & Hs). exists added. split; [done|]. rewrite fmap_cons. by constructor. }
  assert (exists added, heads = heads ++ added /\ (stamp <$> added) `sublist_of` (image_head <$> i :: imgs)) as Hnone.
  { exists []. split; [by rewrite app_nil_r|]. apply sublist_nil_l. }
  destruct (base <? ii_frontier i).
  { specialize (IH heads s Hc). destruct (install_loop layout base imgs heads s) as [heads' s'].
    destruct IH as (? & ? & ?). split_and!; auto. }
  destruct (bool_decide (context_checkpoint_pool_ s = [])); [done|].
  destruct (negb (bool_decide (ii_sizes i = layout))).
  { specialize (IH heads s Hc). destruct (install_loop layout base imgs heads s) as [heads' s'].
    destruct IH as (? & ? & ?). split_and!; auto. }
  destruct (acquire_context_checkpoint_head s) as [[h s1]|] eqn:Ea; [|done].
  set (new := MkHead (ii_frontier i) (ii_hash i) (ii_kind i) (ch_image h)).
  assert (conserved n s1 (heads ++ [new])) as Hc1.
  { eapply conserved_hand; [|by eapply acquire_conserved]. unfold images. rewrite fmap_app, fmap_cons. cbn.
    solve_Permutation. }
  specialize (IH (heads ++ [new]) s1 Hc1). destruct (install_loop layout base imgs (heads ++ [new]) s1) as [heads' s'].
  destruct IH as (C & El & added & -> & Hs). split_and!; [done|by rewrite El, (lanes_acquired _ _ _ Ea)|].
  exists (new :: added). split; [by rewrite <- app_assoc|]. rewrite !fmap_cons. by constructor.
Qed.

(** Installing the heads of an entry captured under the same marks, then trimming to
    the restored base, as the occupying request does. *)
Definition restore_heads (lane : nat) (layout : list Z) (base : Z) (imgs : list InstallImage)
    (copies_ok : bool) (s : Checkpoints) : Checkpoints :=
  match install_ram_context_checkpoints marks lane layout base imgs copies_ok s with
  | (Ok _, s) => drop_context_checkpoints_after marks lane base s
  | (Throw _, s) => s
  end.

Lemma restore_ok s lane l layout base imgs copies_ok :
  lanes_ s !! lane = Some l -> checkpoints_ok marks n s -> heads_ok marks (image_head <$> imgs) ->
  checkpoints_ok marks n (restore_heads lane layout base imgs copies_ok s).
Proof.
  intros Hl [Hc Hf] Hi. unfold restore_heads, install_ram_context_checkpoints.
  pose proof (install_loop_spec layout base imgs [] s Hc) as Hspec.
  destruct (install_loop layout base imgs [] s) as [heads s1].
  destruct Hspec as (Hc1 & El & added & E & Hs). cbn in E. subst added. destruct copies_ok; cbn [negb].
  - assert (heads_ok marks heads) as Hh by (apply heads_ok_stamp; by eapply heads_ok_sublist).
    assert (lanes_ s1 !! lane = Some l) as Hl1 by (by rewrite El).
    pose proof (clear_conserved marks n s1 lane l heads Hl1 Hc1) as Hc2.
    set (s2 := clear_context_checkpoints marks lane s1) in *.
    assert (lanes_ s2 = <[lane := MkLane [] (first_prefill_context_mark marks)]> (lanes_ s)) as El2
      by (unfold s2, clear_context_checkpoints; cbn; by rewrite El).
    assert (lanes_ s2 !! lane = Some (MkLane [] (first_prefill_context_mark marks))) as Hl2
      by (rewrite El2; apply list_lookup_insert_eq; by eapply lookup_lt_Some).
    set (l3 := MkLane heads (next_context_mark (lane_of s2 lane))).
    eapply (drop_ok marks Hmarks n (set_lane s2 lane l3) lane l3); [| |done|].
    + cbn. apply list_lookup_insert_eq. by eapply lookup_lt_Some.
    + eapply set_lane_conserved; [done|exact Hc2|]. cbn. by rewrite app_nil_r.
    + intros j k Hne Hk. change (lanes_ (set_lane s2 lane l3)) with (<[lane := l3]> (lanes_ s2)) in Hk.
      rewrite list_lookup_insert_ne, El2, list_lookup_insert_ne in Hk by done.
      rewrite Forall_lookup in Hf. by apply (Hf j).
  - split.
    + apply recycle_conserved. by rewrite app_nil_r.
    + cbn. by rewrite El.
Qed.
End restore.

(** ** Reachable states *)
Inductive cp_op : Type :=
| CpClear
| CpDrop (frontier : Z)
| CpFreeze (prefill enabled complete : bool) (frontier size : Z) (hash : PrefixHash128)
| CpRollback (reuse : PrefixReusePath) (base prompt : Z)
    (enabled valid complete pin auto present : bool) (size : Z) (hash : PrefixHash128)
| CpRestore (layout : list Z) (base : Z) (imgs : list InstallImage) (copies_ok : bool).

Definition cp_exec (marks : list Z) (lane : nat) (o : cp_op) (s : Checkpoints) : Checkpoints :=
  match o with
  | CpClear => clear_context_checkpoints marks lane s
  | CpDrop frontier => drop_context_checkpoints_after marks lane frontier s
  | CpFreeze prefill enabled complete frontier size hash =>
      maybe_freeze_context_checkpoint marks lane prefill enabled complete frontier size hash s
  | CpRollback reuse base prompt enabled valid complete pin auto present size hash =>
      maybe_capture_turn_rollback lane reuse base prompt enabled valid complete pin auto present size hash s
  | CpRestore layout base imgs copies_ok => restore_heads marks lane layout base imgs copies_ok s
  end.

(** Restored entries were captured under the same marks. *)
Definition cp_callable (marks : list Z) (lane : nat) (o : cp_op) (s : Checkpoints) : Prop :=
  (lane < length (lanes_ s))%nat /\
  match o with CpRestore _ _ imgs _ => heads_ok marks (image_head <$> imgs) | _ => True end.

Inductive cp_reach (marks : list Z) (lanes n : nat) : Checkpoints -> Prop :=
| cp_start : cp_reach marks lanes n (startup marks lanes n)
| cp_step lane o s : cp_reach marks lanes n s -> cp_callable marks lane o s ->
    cp_reach marks lanes n (cp_exec marks lane o s).

Lemma startup_ok marks lanes n : checkpoints_ok marks n (startup marks lanes n).
Proof.
  split.
  - split; [done|]. assert (owned_images (startup marks lanes n) = []) as ->.
    { unfold owned_images, startup. cbn [lanes_]. induction lanes as [|k IH]; [done|]. cbn [replicate].
      rewrite fmap_cons. cbn [concat lane_heads images fmap list_fmap app]. exact IH. }
    cbn [images fmap list_fmap app]. rewrite app_nil_r. unfold images, startup. cbn [context_checkpoint_pool_].
    rewrite <- !list_fmap_compose. done.
  - apply Forall_replicate, first_mark_ok.
Qed.

Lemma cp_reach_ok marks lanes n s : marks_ok marks -> cp_reach marks lanes n s ->
  checkpoints_ok marks n s /\ length (lanes_ s) = lanes.
Proof.
  intros Hm Hr. induction Hr as [|lane o s _ [IH IHl] [Hlane Ho]].
  - split; [apply startup_ok|]. apply length_replicate.
  - destruct (lookup_lt_is_Some_2 (lanes_ s) lane Hlane) as [l Hl]. split.
    + pose proof (cp_lanes _ _ _ IH) as Hf. rewrite Forall_lookup in Hf.
      destruct o; cbn [cp_exec].
      * by eapply clear_ok.
      * eapply drop_ok; [done|done|by eapply cp_conserved|by apply (Hf lane)|intros; by eapply Hf].
      * by eapply freeze_ok.
      * by eapply rollback_ok.
      * by eapply restore_ok.
    + rewrite <- IHl. destruct o; cbn [cp_exec]; try (cbn; by rewrite length_insert).
      * unfold maybe_freeze_context_checkpoint, freeze_head. repeat case_match; try done. cbn. rewrite length_insert.
        by erewrite lanes_acquired.
      * unfold maybe_capture_turn_rollback.
        destruct (rollback_head _ _ _ _ _ _ _ _ _ _ _ s) as [[[image heads] s']|] eqn:E; [|done]. cbn. rewrite length_insert.
        destruct (lookup_lt_is_Some_2 (lanes_ s) lane) as [l' Hl']; [done|].
        destruct (rollback_head_spec _ _ _ _ _ _ _ _ _ _ _ _ _ _ _ _ Hl' E)
          as [_ [(? & ? & ? & _ & _ & _ & _ & ->)|(? & Ea & _)]]; [done|by erewrite lanes_acquired].
      * unfold restore_heads, install_ram_context_checkpoints.
        pose proof (install_loop_spec n layout base imgs [] s (cp_conserved _ _ _ IH)) as Hspec.
        destruct (install_loop layout base imgs [] s) as [heads s1]. destruct Hspec as (_ & El & _).
        destruct copies_ok; cbn; rewrite ?length_insert, El; done.
Qed.

(** Checkpoint heads stay consistent: from startup, through any freezes, rollback
    pins, trims, clears and restores of entries captured under the same marks (failed
    ones included), every image is in the pool or in exactly one lane's heads; the
    ladder heads of a lane are in increasing order and its k-th one lies at or past
    the k-th mark; a lane has at most one rollback head; and its next mark lies past
    all its ladder heads. *)
Theorem checkpoint_heads_consistent marks lanes n s :
  marks_ok marks -> cp_reach marks lanes n s ->
  images (context_checkpoint_pool_ s) ++ owned_images s ≡ₚ N.of_nat <$> seq 0 n /\
  NoDup (images (context_checkpoint_pool_ s) ++ owned_images s) /\
  Forall (lane_ok marks) (lanes_ s).
Proof.
  intros Hm Hr. destruct (cp_reach_ok marks lanes n s Hm Hr) as [[[_ Hc] Hf] _].
  cbn in Hc. rewrite app_nil_r in Hc. split_and!; [done| |done].
  rewrite Hc. apply NoDup_fmap_2; [intros x y; lia|apply NoDup_seq].
Qed.

(** ** The pool never runs out *)

(** The tokens resident in each lane, which its heads do not exceed. *)
Definition within (seq : Z) (residents : list Z) (lanes : list LaneHeads) : Prop :=
  Forall2 (fun r l => 0 <= r <= seq /\ Forall (fun h => ch_frontier h <= r) (lane_heads l)) residents lanes.

Definition lane_plan (residents : list Z) (lanes : list LaneHeads) : list (Z * list Z) :=
  zip_with (fun r l => (r, ladders (lane_heads l))) residents lanes.

Lemma ladders_within r heads : Forall (fun h => ch_frontier h <= r) heads -> Forall (fun f => f <= r) (ladders heads).
Proof.
  rewrite !Forall_forall. unfold ladders. intros H f Hf.
  apply list_elem_of_fmap in Hf as (h & -> & Hh). apply list_elem_of_filter in Hh as [_ Hh]. by apply H.
Qed.

Lemma lane_plan_resident marks seq kv residents lanes :
  within seq residents lanes -> sumZ residents <= kv -> Forall (lane_ok marks) lanes ->
  resident_lanes marks (Z.of_nat (length lanes)) seq kv (lane_plan residents lanes).
Proof.
  intros Hw Hk Hf. unfold lane_plan.
  assert (fst <$> zip_with (fun r l => (r, ladders (lane_heads l))) residents lanes = residents) as E.
  { clear -Hw. induction Hw as [|x y rs ls _ _ IH]; [done|]. cbn. by f_equal. }
  split.
  - rewrite length_zip_with. apply Forall2_length in Hw. lia.
  - clear -Hw. induction Hw as [|r l rs ls [Hr _] _ IH]; cbn; constructor; [exact Hr|done].
  - by rewrite E.
  - clear -Hw. induction Hw as [|r l rs ls [_ Hr] _ IH]; cbn; constructor; [by apply ladders_within|done].
  - clear -Hw Hf. induction Hw; cbn; [constructor|]. apply Forall_cons in Hf as [Hl Hf].
    constructor; [by apply (hk_crossed _ _ (lo_heads _ _ Hl))|by apply IHHw].
Qed.

(** Heads counted by kind: at most one rollback per lane. *)
Lemma owned_count marks residents lanes seq s :
  within seq residents lanes -> lanes_ s = lanes -> Forall (lane_ok marks) lanes ->
  Z.of_nat (length (owned_images s)) =
    ladder_images (lane_plan residents lanes) + sumZ ((fun l => Z.of_nat (length (pins (lane_heads l)))) <$> lanes) /\
  sumZ ((fun l => Z.of_nat (length (pins (lane_heads l)))) <$> lanes) <= Z.of_nat (length lanes).
Proof.
  intros Hw El Hf. unfold owned_images, ladder_images, lane_plan. rewrite El. clear El.
  induction Hw as [|r l rs ls _ _ IH]; [done|]. apply Forall_cons in Hf as [Hl Hf].
  destruct (IH Hf) as [IH1 IH2]. cbn [zip_with]. rewrite !fmap_cons. cbn [concat sumZ foldr length snd].
  unfold images at 1. rewrite length_app, length_fmap. pose proof (length_heads (lane_heads l)) as Hh.
  pose proof (hk_pins _ _ (lo_heads _ _ Hl)) as Hp. unfold sumZ in *. split; lia.
Qed.

Section suffices.
Context (marks : list Z) (mc seq kv : Z) (Hm : marks_ok marks) (Hmc : u32 mc) (Hkv : 0 <= kv).
Let n := Z.to_nat (context_checkpoint_image_pool_capacity mc marks seq kv).
Context (s : Checkpoints) (Hok : checkpoints_ok marks n s) (Hlanes : length (lanes_ s) = Z.to_nat mc).
Context (residents : list Z) (Hw : within seq residents (lanes_ s)) (Hshare : sumZ residents <= kv).
Context (lane : nat) (l : LaneHeads) (r : Z).
Context (Hl : lanes_ s !! lane = Some l) (Hr : residents !! lane = Some r).

(** A plan that needs more images than the lanes own leaves one in the pool. *)
Lemma pool_has_image plan :
  resident_lanes marks mc seq kv plan -> Z.of_nat (length (owned_images s)) < mc + ladder_images plan ->
  exists h s', acquire_context_checkpoint_head s = Some (h, s').
Proof.
  intros Hp Hlt. pose proof (resident_lanes_bound marks mc seq kv plan Hm Hmc Hkv Hp) as Hb.
  pose proof (conserved_room n s [] (cp_conserved _ _ _ Hok)) as Hroom. cbn in Hroom.
  pose proof (acquire_spec s) as Ha. destruct (acquire_context_checkpoint_head s) as [[h s']|]; [eauto|].
  rewrite Ha in Hroom. cbn in Hroom. unfold n in Hroom. lia.
Qed.

Lemma freeze_image f :
  next_context_mark l <> 0 -> next_context_mark l <= f -> f <= r ->
  exists h s', acquire_context_checkpoint_head s = Some (h, s').
Proof.
  intros H0 Hn Hf. pose proof (cp_lanes _ _ _ Hok) as Hall. pose proof Hall as Hall'. rewrite Forall_lookup in Hall'.
  pose proof (Hall' lane l Hl) as Hlane. destruct Hm as (_ & Hs & _).
  pose proof (freeze_heads_ok marks l f (MkHash 0 0) 0%N Hs Hlane H0 Hn) as Hnew.
  set (p := lane_plan residents (lanes_ s)).
  assert (p !! lane = Some (r, ladders (lane_heads l))) as Hp
    by (unfold p, lane_plan; by rewrite lookup_zip_with, Hr, Hl).
  pose proof (lane_plan_resident marks seq kv _ _ Hw Hshare Hall) as Hres. fold p in Hres.
  apply (pool_has_image (<[lane := (r, ladders (lane_heads l) ++ [f])]> p)).
  - destruct Hres as [R1 R2 R3 R4 R5]. split.
    + rewrite length_insert, R1, Hlanes. unfold u32 in Hmc. lia.
    + apply Forall_insert; [done|]. rewrite Forall_lookup in R2. by apply (R2 _ _ Hp).
    + rewrite (sumZ_insert fst p lane _ _ Hp). cbn. lia.
    + apply Forall_insert; [done|]. rewrite Forall_lookup in R4. specialize (R4 _ _ Hp). cbn in R4 |- *.
      apply Forall_app. split; [done|]. constructor; [done|constructor].
    + apply Forall_insert; [done|]. cbn.
      pose proof (hk_crossed _ _ (lo_heads _ _ Hnew)) as Hc. cbn [lane_heads] in Hc. by rewrite ladders_app in Hc.
  - destruct (owned_count marks residents (lanes_ s) seq s Hw eq_refl Hall) as [-> Hpins]. fold p.
    unfold ladder_images. rewrite (sumZ_insert _ p lane _ _ Hp). cbn [snd].
    rewrite length_app. cbn [length]. rewrite Hlanes in Hpins. unfold u32 in Hmc. lia.
Qed.

Lemma rollback_image :
  pins (lane_heads l) = [] -> exists h s', acquire_context_checkpoint_head s = Some (h, s').
Proof.
  intros Hpin. pose proof (cp_lanes _ _ _ Hok) as Hall.
  pose proof (lane_plan_resident marks seq kv _ _ Hw Hshare Hall) as Hres.
  apply (pool_has_image (lane_plan residents (lanes_ s))).
  - destruct Hres as [R1 R2 R3 R4 R5]. split; try done. rewrite R1, Hlanes. unfold u32 in Hmc. lia.
  - destruct (owned_count marks residents (lanes_ s) seq s Hw eq_refl Hall) as [-> _].
    assert (sumZ ((fun l => Z.of_nat (length (pins (lane_heads l)))) <$> lanes_ s) < mc); [|lia].
    assert (sumZ ((fun _ => 1) <$> lanes_ s) = mc) as <-.
    { unfold u32 in Hmc. replace mc with (Z.of_nat (length (lanes_ s))) at 1 by lia. clear.
      induction (lanes_ s) as [|x ls IH]; [done|]. rewrite sum_cons. cbn [length]. lia. }
    rewrite <- (take_drop_middle (lanes_ s) lane l Hl), !fmap_app, !fmap_cons, !sumZ_app. cbn [sumZ foldr].
    rewrite Hpin. cbn [length]. rewrite Forall_forall in Hall.
    assert (forall ls, (forall x, x ∈ ls -> x ∈ lanes_ s) ->
      sumZ ((fun l => Z.of_nat (length (pins (lane_heads l)))) <$> ls) <= sumZ ((fun _ => 1) <$> ls)) as Hle.
    { intros ls Hin. apply sumZ_le. intros x Hx. pose proof (hk_pins _ _ (lo_heads _ _ (Hall x (Hin x Hx)))). lia. }
    pose proof (Hle (take lane (lanes_ s)) (fun x => subseteq_take _ _ x)).
    pose proof (Hle (drop (S lane) (lanes_ s)) (fun x => subseteq_drop _ _ x)). unfold sumZ in *. lia.
Qed.
End suffices.

(** With the startup capacity the image pool never runs out: in every reachable
    state whose heads lie inside the lanes' resident tokens, the lanes together
    inside the KV capacity, a prefill chunk that should freeze a head does freeze it,
    and a turn rollback that should be pinned is pinned, each at the right frontier
    with the right hash, in an image of its own. *)
Theorem checkpoint_images_suffice marks mc seq kv s residents lane l r :
  marks_ok marks -> u32 mc -> 0 <= kv ->
  cp_reach marks (Z.to_nat mc) (Z.to_nat (context_checkpoint_image_pool_capacity mc marks seq kv)) s ->
  within seq residents (lanes_ s) -> sumZ residents <= kv ->
  lanes_ s !! lane = Some l -> residents !! lane = Some r ->
  (forall enabled complete frontier size hash,
     should_freeze_prefill_context_checkpoint true enabled frontier (next_context_mark l)
       (has_head_at (lane_heads l) frontier) complete = true -> frontier <= r -> frontier <= size ->
     exists image next,
       lanes_ (maybe_freeze_context_checkpoint marks lane true enabled complete frontier size hash s) !! lane =
       Some (MkLane (lane_heads l ++ [MkHead frontier hash Ladder image]) next)) /\
  (forall reuse base prompt enabled valid complete pin size hash,
     should_capture_turn_rollback reuse base prompt enabled valid
       (has_head_at (lane_heads l) base) complete = true -> base <= size ->
     exists heads image,
       lanes_ (maybe_capture_turn_rollback lane reuse base prompt enabled valid complete pin true true size hash s)
         !! lane = Some (MkLane (heads ++ [MkHead base hash TurnRollback image]) (next_context_mark l)) /\
       ladders heads = ladders (lane_heads l) /\ pins heads = []).
Proof.
  intros Hm Hmc Hkv Hreach Hw Hshare Hl Hr. destruct (cp_reach_ok _ _ _ _ Hm Hreach) as [Hok Hlanes]. split.
  - intros enabled complete f size hash Hsf Hf Hsize. destruct (should_freeze_facts _ _ _ _ _ _ Hsf) as [H0 Hn].
    destruct (freeze_image marks mc seq kv Hm Hmc Hkv s Hok Hlanes residents Hw Hshare lane l r Hl Hr f H0 Hn Hf)
      as (h & s' & Ea). unfold maybe_freeze_context_checkpoint, freeze_head.
    rewrite (lane_of_Some s lane l Hl), Hsf, (proj2 (Z.ltb_ge _ _)), Ea by done. cbn [negb].
    eexists _, _. cbn [lanes_ set_lane].
    rewrite (lanes_acquired _ _ _ Ea). apply list_lookup_insert_eq. by eapply lookup_lt_Some.
  - intros reuse base prompt enabled valid complete pin size hash Hsc Hsize.
    unfold maybe_capture_turn_rollback, rollback_head. rewrite (lane_of_Some s lane l Hl), Hsc, (proj2 (Z.ltb_ge _ _)) by done.
    cbn [negb andb orb]. pose proof (cp_lanes _ _ _ Hok) as Hall. rewrite Forall_lookup in Hall.
    pose proof (lo_heads _ _ (Hall lane l Hl)) as Hh. pose proof (find_rollback_spec (lane_heads l)) as Hfind.
    destruct (find_rollback (lane_heads l)) as [[[before x] after]|].
    + destruct Hfind as [El Ex]. destruct (without_rollback marks (lane_heads l) before x after Hh El Ex) as [H1 H2].
      exists (before ++ after), (ch_image x). split_and!; [|done|done]. cbn [lanes_ set_lane].
      apply list_lookup_insert_eq. by eapply lookup_lt_Some.
    + pose proof (no_pins _ (hk_kinds _ _ Hh) Hfind) as Hp.
      destruct (rollback_image marks mc seq kv Hm Hmc Hkv s Hok Hlanes residents Hw Hshare lane l Hl Hp) as (h & s' & Ea).
      rewrite Ea. exists (lane_heads l), (ch_image h). split_and!; [|done|done]. cbn [lanes_ set_lane].
      rewrite (lanes_acquired _ _ _ Ea). apply list_lookup_insert_eq. by eapply lookup_lt_Some.
Qed.

(** ** Two lanes *)
Definition demo_marks : list Z := [100; 200; 400].

Lemma demo_marks_ok : marks_ok demo_marks.
Proof. split_and!; [repeat constructor|repeat constructor|vm_compute; congruence]. Qed.

Lemma image_pool_capacity_exact_witness :
  exists lanes, resident_lanes demo_marks 2 1000 500 lanes /\ 2 + ladder_images lanes = 6.
Proof.
  destruct (image_pool_capacity_exact demo_marks 2 1000 500) as [_ (lanes & H1 & H2)].
  - exact demo_marks_ok.
  - vm_compute. split; congruence.
  - lia.
  - lia.
  - exists lanes. split; [exact H1|]. rewrite H2. vm_compute. reflexivity.
Defined.

Definition demo_frozen : Checkpoints :=
  cp_exec demo_marks 0 (CpFreeze true true true 128 128 (MkHash 1 1)) (startup demo_marks 2 6).

Lemma demo_frozen_reach : cp_reach demo_marks 2 6 demo_frozen.
Proof. apply cp_step; [apply cp_start|]. split; [cbn; lia|done]. Qed.

Lemma checkpoint_heads_consistent_witness :
  NoDup (images (context_checkpoint_pool_ demo_frozen) ++ owned_images demo_frozen) /\
  owned_images demo_frozen = [5%N].
Proof.
  split; [|vm_compute; reflexivity].
  exact (proj1 (proj2 (checkpoint_heads_consistent demo_marks 2 6 demo_frozen demo_marks_ok demo_frozen_reach))).
Defined.

Lemma checkpoint_images_suffice_witness :
  exists image next,
    lanes_ (maybe_freeze_context_checkpoint demo_marks 0 true true true 256 256 (MkHash 2 2) demo_frozen) !! 0%nat =
    Some (MkLane [MkHead 128 (MkHash 1 1) Ladder 5%N; MkHead 256 (MkHash 2 2) Ladder image] next).
Proof.
  destruct (checkpoint_images_suffice demo_marks 2 1000 500 demo_frozen [300; 200] 0
    (MkLane [MkHead 128 (MkHash 1 1) Ladder 5%N] 200) 300) as [H _].
  - exact demo_marks_ok.
  - vm_compute. split; congruence.
  - lia.
  - exact demo_frozen_reach.
  - unfold within. apply (bool_decide_unpack _). vm_compute. exact I.
  - vm_compute. congruence.
  - vm_compute. reflexivity.
  - reflexivity.
  - apply (H true true 256 256 (MkHash 2 2)); [reflexivity|lia|lia].
Defined.
