(* ===== verification/CheckpointStreams.v ===== *)
(** * targets/qwen3_6/impl/runtime/program_impl.h, core/host_copy.h: checkpoint copies

    Checkpoint images are written and read on three CUDA streams: the compute stream,
    the copy stream and the RAM tier's host-copy stream.  Nothing but events orders
    them.  A handler is modelled by what it does to the heads and the staging slot,
    and by the stream commands it enqueues; the commands run on a model of streams
    and events that keeps, for every stream, what it is ordered after, and notices an
    access that no event orders after a conflicting one.  Slots and images hold the
    hash of the prefix whose state they contain. *)

From stdpp Require Import prelude list list_numbers.
From Stdlib Require Import ZArith Lia.
From S2P Require Import Prelude.
From S2P Require Import PrefixIdentity.
From S2P Require Import ContextReuse.
From S2P Require Import CheckpointPool.
#[local] Open Scope Z_scope.

(** ** Streams and events *)
Inductive stream : Type := Compute | CopyS | HostS.
Inductive part : Type := Gdn | Hidden | Cyclic.

(** A lane's current state, the staging slot, a pooled head image, a lane's rewrite
    image. *)
Inductive loc : Type :=
| Cur (lane : nat) (p : part)
| Stg (p : part)
| Img (image : N) (p : part)
| Rew (lane : nat) (p : part).

(** [d2d_done] and [copies_done] of the staging slot, [copies_done] of a head and of
    a lane's rewrite image, [joined_] of the host-copy stream. *)
Inductive event : Type :=
| StgD2D
| StgCopies
| HeadFence (image : N)
| RewFence (lane : nat)
| Joined.

#[export] Instance stream_eq_dec : EqDecision stream.
Proof. solve_decision. Defined.
#[export] Instance part_eq_dec : EqDecision part.
Proof. solve_decision. Defined.
#[export] Instance loc_eq_dec : EqDecision loc.
Proof. solve_decision. Defined.
#[export] Instance event_eq_dec : EqDecision event.
Proof. solve_decision. Defined.

(** How many commands of each stream something is ordered after. *)
Definition clock : Type := stream -> nat.
Definition join (c d : clock) : clock := fun s => Nat.max (c s) (d s).

Record access : Type := MkAccess { a_stream : stream; a_time : nat; a_loc : loc; a_write : bool }.

Record Device : Type := MkDevice {
  seen : stream -> clock;   (** what the next command of a stream is ordered after *)
  fence : event -> clock;   (** what an event's last record was ordered after *)
  log : list access;
  clean : bool;             (** no access so far was unordered with a conflicting one *)
  val : loc -> option PrefixHash128;
}.

Definition device_start : Device := MkDevice (fun _ _ => O) (fun _ _ => O) [] true (fun _ => None).

(** [cudaStreamWaitEvent]; an event never recorded is no obstacle. *)
Definition wait (s : stream) (e : event) (d : Device) : Device :=
  MkDevice (fun s' => if decide (s' = s) then join (seen d s) (fence d e) else seen d s')
    (fence d) (log d) (clean d) (val d).

(** [cudaEventRecord] *)
Definition record (e : event) (s : stream) (d : Device) : Device :=
  MkDevice (seen d) (fun e' => if decide (e' = e) then seen d s else fence d e') (log d) (clean d) (val d).

(** The lanes' current state is ordered by the executor's own synchronisation. *)
Definition tracked (l : loc) : bool := match l with Cur _ _ => false | _ => true end.

Definition conflicts (l : loc) (write : bool) (a : access) : bool :=
  bool_decide (a_loc a = l) && (write || a_write a).

Definition ordered (d : Device) (s : stream) (a : access) : bool := (a_time a <=? seen d s (a_stream a))%nat.

(** One access of a command on [s]. *)
Definition touch (s : stream) (l : loc) (write : bool) (d : Device) : Device :=
  if negb (tracked l) then d
  else
    let t := S (seen d s s) in
    MkDevice (fun s' => if decide (s' = s) then (fun r => if decide (r = s) then t else seen d s r) else seen d s')
      (fence d) (MkAccess s t l write :: log d)
      (clean d && forallb (fun a => negb (conflicts l write a) || ordered d s a) (log d)) (val d).

Definition set_val (l : loc) (v : option PrefixHash128) (d : Device) : Device :=
  MkDevice (seen d) (fence d) (log d) (clean d) (fun l' => if decide (l' = l) then v else val d l').

Inductive cmd : Type :=
| CWait (s : stream) (e : event)
| CRecord (e : event) (s : stream)
| CCopy (s : stream) (dst src : loc)
| CRead (s : stream) (src : loc)
| CWrite (s : stream) (dst : loc) (v : option PrefixHash128).

Definition exec (d : Device) (c : cmd) : Device :=
  match c with
  | CWait s e => wait s e d
  | CRecord e s => record e s d
  | CCopy s dst src => set_val dst (val d src) (touch s dst true (touch s src false d))
  | CRead s src => touch s src false d
  | CWrite s dst v => set_val dst v (touch s dst true d)
  end.

Definition run (cmds : list cmd) (d : Device) : Device := foldl exec d cmds.

(** ** HostCopyStream

    The accesses of the copies as [CRead] and [CWrite] commands. *)
Definition enqueue_fenced (copies : list cmd) (fences : list event) : list cmd :=
  (CWait HostS <$> fences) ++ copies ++ ((fun e => CRecord e HostS) <$> fences).

Definition host_run (copies : list cmd) (fences : list event) (consumer : stream) : list cmd :=
  if bool_decide (copies = []) then []
  else enqueue_fenced copies fences ++ [CRecord Joined HostS; CWait consumer Joined].

Definition run_detached (copies : list cmd) (fences : list event) : list cmd :=
  if bool_decide (copies = []) then [] else enqueue_fenced copies fences.

(** ** Staging and the lanes *)
Record ContextCheckpointStaging : Type := MkStaging {
  s_occupied : bool;
  s_lane : nat;
  s_frontier : Z;
  s_hash : PrefixHash128;
  s_kind : ContextCheckpointKind;
  s_rewrite : bool;
  s_rewrite_generation : Z;
}.

(** [unoccupy_staging] *)
Definition unoccupied : ContextCheckpointStaging := MkStaging false 0 0 (MkHash 0 0) Ladder false 0.

(** The fields of a lane's [SequenceState] the copies depend on. *)
Record CopyLane : Type := MkCopyLane {
  rewrite_image_generation : Z;
  tier_unpacked_context_base : Z;
  tier_unpacked_context_hash : PrefixHash128;
}.

Record World : Type := MkWorld {
  cps : Checkpoints;
  staging_ : ContextCheckpointStaging;
  copy_lanes : nat -> CopyLane;
  device : Device;
}.

Definition set_staging (w : World) (s : ContextCheckpointStaging) : World :=
  MkWorld (cps w) s (copy_lanes w) (device w).
Definition set_cps (w : World) (c : Checkpoints) : World := MkWorld c (staging_ w) (copy_lanes w) (device w).
Definition set_copy_lane (w : World) (lane : nat) (l : CopyLane) : World :=
  MkWorld (cps w) (staging_ w) (fun i => if decide (i = lane) then l else copy_lanes w i) (device w).
Definition enqueue (cmds : list cmd) (w : World) : World :=
  MkWorld (cps w) (staging_ w) (copy_lanes w) (run cmds (device w)).

Section handlers.
(** [staging_hidden.data != nullptr] is [staged]: there is a staging slot. *)
Context (context_marks : list Z) (backend : SpeculativeBackend) (staged : bool).

Definition dflash : bool := bool_decide (backend = DFlash).
Definition when_dflash (cmds : list cmd) : list cmd := if dflash then cmds else [].

(** [snapshot_dflash_cyclic_to_staging] and [pack_dflash_cyclic_to_head] *)
Definition snapshot_dflash_cyclic_to_staging (lane : nat) : list cmd :=
  when_dflash [CCopy Compute (Stg Cyclic) (Cur lane Cyclic)].
Definition pack_dflash_cyclic_to_head (image : N) : list cmd :=
  when_dflash [CCopy CopyS (Img image Cyclic) (Stg Cyclic)].
Definition restore_dflash_cyclic_from_head (lane : nat) (image : N) : list cmd :=
  when_dflash [CWait Compute (HeadFence image); CCopy Compute (Cur lane Cyclic) (Img image Cyclic)].

(** The copies of a capture: the current slot into staging on the compute stream,
    staging into the head's image on the copy stream.  [hidden] writes the staging
    hidden. *)
Definition capture_cmds (lane : nat) (image : N) (hidden : cmd) : list cmd :=
  [CWait Compute StgCopies; CCopy Compute (Stg Gdn) (Cur lane Gdn); hidden]
  ++ snapshot_dflash_cyclic_to_staging lane
  ++ [CRecord StgD2D Compute; CWait CopyS StgD2D; CWait CopyS (HeadFence image);
      CCopy CopyS (Img image Gdn) (Stg Gdn); CCopy CopyS (Img image Hidden) (Stg Hidden)]
  ++ pack_dflash_cyclic_to_head image
  ++ [CRecord (HeadFence image) CopyS; CRecord StgCopies CopyS].

Definition find_head (heads : list ContextCheckpointHead) (p : ContextCheckpointHead -> bool)
    : option ContextCheckpointHead := head (filter (fun h => p h = true) heads).

(** Pooled heads carry every image, so the presence checks of the source hold. *)
Definition reload_turn_rollback_into_staging (lane : nat) (hash : PrefixHash128) (frontier : Z) (w : World) : World :=
  if negb (lane <? length (lanes_ (cps w)))%nat || negb staged then set_staging w unoccupied
  else
    match find_head (lane_heads (lane_of (cps w) lane))
            (fun h => bool_decide (ch_kind h = TurnRollback) && (ch_frontier h =? frontier)
                      && bool_decide (ch_hash h = hash)) with
    | None => set_staging w unoccupied
    | Some h =>
        let w := enqueue [CWait CopyS (HeadFence (ch_image h)); CWait CopyS StgD2D;
                          CCopy CopyS (Stg Gdn) (Img (ch_image h) Gdn);
                          CCopy CopyS (Stg Hidden) (Img (ch_image h) Hidden);
                          CRecord StgCopies CopyS; CRecord (HeadFence (ch_image h)) CopyS] w in
        set_staging w (MkStaging true lane frontier hash TurnRollback false (s_rewrite_generation (staging_ w)))
    end.

(** [maybe_freeze_context_checkpoint], the whole handler.  The last hidden of the
    chunk is the hidden of the prefix [hash]. *)
Definition freeze_staged (lane : nat) (prefill enabled complete : bool) (frontier ledger_size : Z)
    (hash : PrefixHash128) (rewrite_capture_follows : bool) (w : World) : World :=
  match freeze_head lane prefill (enabled && staged) complete frontier ledger_size (cps w) with
  | None => w
  | Some (head, _) =>
      let saved := staging_ w in
      let reload_rollback := negb rewrite_capture_follows && s_occupied saved
                             && bool_decide (s_kind saved = TurnRollback) in
      let w' := enqueue (capture_cmds lane (ch_image head) (CWrite Compute (Stg Hidden) (Some hash))) w in
      let w' := set_staging w' (if reload_rollback then unoccupied
                                else MkStaging true lane (advertised_context_checkpoint_frontier frontier) hash Ladder
                                       false 0) in
      let w' := set_cps w' (maybe_freeze_context_checkpoint context_marks lane prefill (enabled && staged) complete
                              frontier ledger_size hash (cps w)) in
      if reload_rollback
      then reload_turn_rollback_into_staging (s_lane saved) (s_hash saved) (s_frontier saved) w'
      else w'
  end.

(** [maybe_capture_turn_rollback], the whole handler. *)
Definition rollback_staged (lane : nat) (reuse : PrefixReusePath) (base prompt_tokens : Z)
    (enabled tail_hidden_valid complete request_pin auto_rollback tail_present : bool)
    (ledger_size : Z) (hash : PrefixHash128) (w : World) : World :=
  match rollback_head lane reuse base prompt_tokens (enabled && staged) tail_hidden_valid complete request_pin
          auto_rollback tail_present ledger_size (cps w) with
  | None => w
  | Some (image, _, _) =>
      let w' := enqueue (capture_cmds lane image (CCopy Compute (Stg Hidden) (Cur lane Hidden))) w in
      let w' := set_staging w' (MkStaging true lane base hash TurnRollback false 0) in
      set_cps w' (maybe_capture_turn_rollback lane reuse base prompt_tokens (enabled && staged) tail_hidden_valid
                    complete request_pin auto_rollback tail_present ledger_size hash (cps w))
  end.

(** [++sequence.rewrite_image_generation] *)
Definition bump_generation (lane : nat) (w : World) : World :=
  let l := copy_lanes w lane in
  set_copy_lane w lane (MkCopyLane (wrap64 (rewrite_image_generation l + 1)) (tier_unpacked_context_base l)
                          (tier_unpacked_context_hash l)).

Definition capture_rewrite_image (lane : nat) (w : World) : res unit * World :=
  let w := bump_generation lane w in
  if negb staged then
    if dflash then (Throw logic_error, w)
    else (Ok tt, enqueue [CWait Compute (RewFence lane); CCopy Compute (Rew lane Gdn) (Cur lane Gdn);
                          CRecord (RewFence lane) Compute] w)
  else
    let w := enqueue
      ([CWait Compute StgCopies; CCopy Compute (Stg Gdn) (Cur lane Gdn)]
       ++ when_dflash [CCopy Compute (Stg Cyclic) (Cur lane Cyclic)]
       ++ [CRecord StgD2D Compute; CWait CopyS StgD2D; CWait CopyS (RewFence lane);
           CCopy CopyS (Rew lane Gdn) (Stg Gdn)]
       ++ when_dflash [CCopy CopyS (Rew lane Cyclic) (Stg Cyclic)]
       ++ [CRecord (RewFence lane) CopyS; CRecord StgCopies CopyS]) w in
    (Ok tt, set_staging w (MkStaging false lane 0 (MkHash 0 0) Ladder true
                             (rewrite_image_generation (copy_lanes w lane)))).

Definition restore_rewrite_checkpoint_state (lane : nat) (w : World) : World :=
  let s := staging_ w in
  if s_rewrite s && (s_lane s =? lane)%nat
     && (s_rewrite_generation s =? rewrite_image_generation (copy_lanes w lane))
  then enqueue ([CCopy Compute (Cur lane Gdn) (Stg Gdn)]
                ++ when_dflash [CCopy Compute (Cur lane Cyclic) (Stg Cyclic)]) w
  else enqueue ([CWait Compute (RewFence lane); CCopy Compute (Cur lane Gdn) (Rew lane Gdn)]
                ++ when_dflash [CCopy Compute (Cur lane Cyclic) (Rew lane Cyclic)]
                ++ [CRecord (RewFence lane) Compute]) w.

(** [staging_holds(lane, hash, frontier)] *)
Definition staging_holds (s : ContextCheckpointStaging) (lane : nat) (hash : PrefixHash128) (frontier : Z) : bool :=
  staging_holds_restore_identity (s_occupied s) (Z.of_nat (s_lane s)) (s_hash s) (s_frontier s) (Z.of_nat lane) hash
    frontier.

Definition restore_context_checkpoint_state (lane : nat) (base : Z) (w : World) : res unit * World :=
  let head := find_head (lane_heads (lane_of (cps w) lane)) (fun h => ch_frontier h =? base) in
  let l := copy_lanes w lane in
  if (tier_unpacked_context_base l =? base)
     && match head with None => true | Some h => bool_decide (tier_unpacked_context_hash l = ch_hash h) end
  then (Ok tt, w)
  else
    match head with
    | None => (Throw logic_error, w)
    | Some h =>
        let image := ch_image h in
        if restore_may_d2d_staging (staging_holds (staging_ w) lane (ch_hash h) base) true
           && bool_decide (s_kind (staging_ w) = ch_kind h) && staged
        then (Ok tt, enqueue ([CWait Compute StgCopies; CCopy Compute (Cur lane Gdn) (Stg Gdn);
                               CCopy Compute (Cur lane Hidden) (Stg Hidden)]
                              ++ restore_dflash_cyclic_from_head lane image
                              ++ [CRecord (HeadFence image) Compute]) w)
        else (Ok tt, enqueue ([CWait Compute (HeadFence image); CCopy Compute (Cur lane Gdn) (Img image Gdn);
                               CCopy Compute (Cur lane Hidden) (Img image Hidden)]
                              ++ restore_dflash_cyclic_from_head lane image
                              ++ [CRecord (HeadFence image) Compute]) w)
    end.

(** The image copies of a RAM capture: the rewrite image, when the entry takes it as its
    rewrite set or, cut at the turn checkpoint, as its current set, and the heads the
    entry takes, behind their fences, joined by the copy stream. *)
Definition image_parts : list part := [Gdn; Hidden] ++ (if dflash then [Cyclic] else []).
Definition rewrite_parts : list part := [Gdn] ++ (if dflash then [Cyclic] else []).

Definition ram_capture_images (lane : nat) (rewrite_valid : bool) (heads : list ContextCheckpointHead) (w : World) : World :=
  let rewrite := if rewrite_valid then (fun p => CRead HostS (Rew lane p)) <$> rewrite_parts else [] in
  let ladder := concat ((fun h => (fun p => CRead HostS (Img (ch_image h) p)) <$> image_parts) <$> heads) in
  enqueue (host_run (rewrite ++ ladder)
             ((if rewrite_valid then [RewFence lane] else []) ++ ((fun h => HeadFence (ch_image h)) <$> heads)) CopyS) w.

(** [rewrite_state_host_target] and the copies of [unpack_device] into the image. *)
Definition ram_restore_rewrite (lane : nat) (hash : PrefixHash128) (w : World) : World :=
  enqueue (host_run ((fun p => CWrite HostS (Rew lane p) (Some hash)) <$> rewrite_parts) [RewFence lane] CopyS)
    (bump_generation lane w).

(** [install_ram_context_checkpoints] with its copies. *)
Definition install_staged (lane : nat) (layout : list Z) (reuse_base : Z) (images : list InstallImage) (w : World) : World :=
  let heads := fst (install_loop layout reuse_base images [] (cps w)) in
  let copies := concat ((fun h => (fun p => CWrite HostS (Img (ch_image h) p) (Some (ch_hash h))) <$> image_parts) <$> heads) in
  let w' := enqueue (run_detached copies ((fun h => HeadFence (ch_image h)) <$> heads)) w in
  set_cps w' (snd (install_ram_context_checkpoints context_marks lane layout reuse_base images true (cps w))).

(** The part of [clear_lane] that concerns checkpoints. *)
Definition clear_lane_staged (lane : nat) (w : World) : World :=
  let s := staging_ w in
  let w := if s_occupied s && (s_lane s =? lane)%nat then set_staging w unoccupied else w in
  let w := set_copy_lane w lane (MkCopyLane (rewrite_image_generation (copy_lanes w lane)) 0 (MkHash 0 0)) in
  set_cps w (clear_context_checkpoints context_marks lane (cps w)).
End handlers.
