(* ===== verification/StreamTheorems.v ===== *)
(** * Checkpoint copies: what the events order

    No access to a staging slot or a checkpoint image is ever unordered with a
    conflicting one, and a restore brings back the state of the checkpoint it names. *)

From stdpp Require Import prelude list list_numbers.
From Stdlib Require Import ZArith Lia.
From S2P Require Import Prelude.
From S2P Require Import PrefixIdentity.
From S2P Require Import ContextReuse.
From S2P Require Import CheckpointPool.
From S2P Require Import CheckpointTheorems.
From S2P Require Import CheckpointStreams.
#[local] Open Scope Z_scope.

(** ** A batch of commands of one stream *)

(** The stream and the accesses of a command that records nothing. *)
Definition on_stream (s : stream) (c : cmd) : Prop :=
  match c with CCopy s' _ _ | CRead s' _ | CWrite s' _ _ | CWait s' _ => s' = s | CRecord _ _ => False end.

Definition touches (c : cmd) : list (loc * bool) :=
  match c with
  | CCopy _ dst src => [(src, false); (dst, true)]
  | CRead _ src => [(src, false)]
  | CWrite _ dst _ => [(dst, true)]
  | CWait _ _ | CRecord _ _ => []
  end.

Definition touched (cs : list cmd) : list (loc * bool) := concat (touches <$> cs).

(** Accesses are counted by their own stream. *)
Definition counted (d : Device) : Prop :=
  forall a, a ∈ log d -> (a_time a <= seen d (a_stream a) (a_stream a))%nat.

(** [d'] is [d] after accesses [ts] of stream [s], ordered after at least [c]. *)
Record after (s : stream) (c : clock) (ts : list (loc * bool)) (d d' : Device) : Prop := MkAfter {
  af_clean : clean d' = true;
  af_counted : counted d';
  af_fence : fence d' = fence d;
  af_others : forall s', s' <> s -> seen d' s' = seen d s';
  af_seen : forall r, (Nat.max (seen d s r) (c r) <= seen d' s r)%nat;
  af_old : forall a, a ∈ log d -> a ∈ log d';
  af_new : forall a, a ∈ log d' -> a ∈ log d \/ (a_stream a = s /\ (a_loc a, a_write a) ∈ ts);
}.

(** Every earlier access that conflicts with one of [ts] is seen by [s] or in [c]. *)
Definition safe (s : stream) (c : clock) (ts : list (loc * bool)) (d : Device) : Prop :=
  forall l w a, (l, w) ∈ ts -> tracked l = true -> a ∈ log d -> a_loc a = l -> w || a_write a = true ->
    (a_time a <= Nat.max (seen d s (a_stream a)) (c (a_stream a)))%nat.

Definition no_clock : clock := fun _ => O.

Lemma after_refl s d : clean d = true -> counted d -> after s no_clock [] d d.
Proof. intros H1 H2. split; try done; [intros r; unfold no_clock; lia|intros a Ha; by left]. Qed.

Lemma after_trans s c c' ts ts' d d' d'' :
  after s c ts d d' -> after s c' ts' d' d'' -> after s (join c c') (ts ++ ts') d d''.
Proof.
  intros [A1 A2 A3 A4 A5 A6 A7] [B1 B2 B3 B4 B5 B6 B7]. split; [done|done|congruence| | | |].
  - intros s' Hs. by rewrite B4, A4.
  - intros r. specialize (A5 r). specialize (B5 r). unfold join. lia.
  - intros a Ha. by apply B6, A6.
  - intros a [Ha|[? ?]]%B7; [|right; split; [done|by apply elem_of_app; right]].
    apply A7 in Ha as [?|[? ?]]; [by left|right; split; [done|by apply elem_of_app; left]].
Qed.

(** After a batch, what was safe for the stream still is. *)
Lemma safe_after s c c0 ts ts0 d d' : after s c0 ts0 d d' -> counted d -> safe s c ts d -> safe s c ts d'.
Proof.
  intros A Hc Hs l w a Hin Ht Ha Hl Hw. destruct (af_new _ _ _ _ _ A a Ha) as [Ho|[E _]].
  - specialize (Hs l w a Hin Ht Ho Hl Hw). pose proof (af_seen _ _ _ _ _ A (a_stream a)). lia.
  - pose proof (af_counted _ _ _ _ _ A a Ha) as H. rewrite E in *. lia.
Qed.

Lemma wait_after s e d : clean d = true -> counted d -> after s (fence d e) [] d (wait s e d).
Proof.
  intros H1 H2. split; cbn [wait clean fence seen log]; try done.
  - intros a Ha. cbn. case_decide as E; [|by apply H2]. rewrite E. unfold join. pose proof (H2 a Ha) as H. rewrite E in H. lia.
  - intros s' Hs. by rewrite decide_False.
  - intros r. rewrite decide_True by done. unfold join. lia.
  - intros a Ha. by left.
Qed.

Lemma touch_after s l w d : clean d = true -> counted d -> safe s no_clock [(l, w)] d ->
  after s no_clock [(l, w)] d (touch s l w d).
Proof.
  intros H1 H2 Hs. unfold touch. destruct (tracked l) eqn:Et; cbn [negb].
  2: { destruct (after_refl s d H1 H2) as [? ? ? ? ? ? A7]. split; try done. intros a Ha. by left. }
  split; cbn [clean fence seen log].
  - rewrite H1. apply forallb_forall. intros a Ha%list_elem_of_In. unfold conflicts, ordered.
    destruct (bool_decide (a_loc a = l) && (w || a_write a)) eqn:E; [|done]. apply andb_true_iff in E as [E1 E2].
    apply bool_decide_eq_true_1 in E1. specialize (Hs l w a ltac:(by left) Et Ha E1 E2). unfold no_clock in Hs.
    cbn. apply Nat.leb_le. lia.
  - intros a [->|Ha]%elem_of_cons; cbn [a_stream a_time].
    + cbn. rewrite !decide_True by done. lia.
    + cbn. pose proof (H2 a Ha) as H. case_decide as E; [|done]. rewrite decide_True by done. rewrite E in H. lia.
  - done.
  - intros s' Hs'. by rewrite decide_False.
  - intros r. rewrite decide_True by done. unfold no_clock. case_decide as E; [subst r|]; lia.
  - intros a Ha. by right.
  - intros a [->|Ha]%elem_of_cons; [right; cbn; split; [done|by left]|by left].
Qed.

Lemma set_val_after s c ts d d' l v : after s c ts d d' -> after s c ts d (set_val l v d').
Proof. intros [A1 A2 A3 A4 A5 A6 A7]. by split. Qed.

Lemma join_no_clock c r : join c no_clock r = c r.
Proof. unfold join, no_clock. lia. Qed.

Lemma after_weaken s c c' ts d d' : (forall r, (c' r <= c r)%nat) -> after s c ts d d' -> after s c' ts d d'.
Proof. intros Hc [A1 A2 A3 A4 A5 A6 A7]. split; try done. intros r. specialize (A5 r). specialize (Hc r). lia. Qed.

Lemma safe_sub s c ts ts' d : (forall x, x ∈ ts -> x ∈ ts') -> safe s c ts' d -> safe s c ts d.
Proof. intros Hsub Hs l w a Hin. apply Hs. by apply Hsub. Qed.

Lemma safe_seen s c ts d d' : after s c [] d d' -> safe s c ts d -> safe s no_clock ts d'.
Proof.
  intros A Hs l w a Hin Ht Ha Hl Hw. destruct (af_new _ _ _ _ _ A a Ha) as [Ho|[_ ?%elem_of_nil]]; [|done].
  specialize (Hs l w a Hin Ht Ho Hl Hw). pose proof (af_seen _ _ _ _ _ A (a_stream a)). unfold no_clock. lia.
Qed.

Lemma copy_after s c d : on_stream s c -> clean d = true -> counted d -> safe s no_clock (touches c) d ->
  after s no_clock (touches c) d (exec d c).
Proof.
  destruct c as [s' e| |s' dst src|s' src|s' dst v]; cbn [on_stream touches exec]; intros Hc H1 H2 Hs; try done; subst s'.
  - eapply after_weaken; [|by apply wait_after]. intros r. unfold no_clock. lia.
  - apply set_val_after. assert (after s no_clock [(src, false)] d (touch s src false d)) as A.
    { apply touch_after; [done|done|]. eapply safe_sub; [|exact Hs]. intros x. rewrite list_elem_of_singleton. intros ->. by left. }
    eapply after_weaken; [|eapply (after_trans s _ _ [(src, false)] [(dst, true)]); [exact A|]].
    + intros r. unfold no_clock. lia.
    + apply touch_after; [apply A|apply A|]. eapply safe_after; [exact A|done|].
      eapply safe_sub; [|exact Hs]. intros x. rewrite list_elem_of_singleton. intros ->. right. by left.
  - by apply touch_after.
  - apply set_val_after. by apply touch_after.
Qed.

Lemma copies_after s cs : forall d, Forall (on_stream s) cs -> clean d = true -> counted d ->
  safe s no_clock (touched cs) d -> after s no_clock (touched cs) d (run cs d).
Proof.
  induction cs as [|c cs IH]; intros d Hf H1 H2 Hs; [by apply after_refl|].
  apply Forall_cons in Hf as [Hc Hf]. unfold touched. rewrite fmap_cons. cbn [concat run foldl]. fold (touched cs).
  assert (after s no_clock (touches c) d (exec d c)) as A.
  { apply copy_after; [done|done|done|]. eapply safe_sub; [|exact Hs]. intros x Hx. unfold touched. rewrite fmap_cons. cbn.
    apply elem_of_app. by left. }
  eapply after_weaken; [|eapply after_trans; [exact A|]].
  - intros r. unfold no_clock. lia.
  - apply IH; [done|apply A|apply A|]. eapply safe_after; [exact A|done|]. eapply safe_sub; [|exact Hs].
    intros x Hx. unfold touched. rewrite fmap_cons. cbn. apply elem_of_app. by right.
Qed.

(** What a list of events was recorded after. *)
Definition fences (d : Device) (es : list event) : clock := fun r => foldr (fun e n => Nat.max (fence d e r) n) O es.

Lemma fences_le d es e r : e ∈ es -> (fence d e r <= fences d es r)%nat.
Proof.
  induction es as [|e' es IH]; [by intros ?%elem_of_nil|]. cbn. intros [->|H]%elem_of_cons; [lia|]. specialize (IH H).
  unfold fences in IH. lia.
Qed.

Lemma waits_after s es : forall d, clean d = true -> counted d -> after s (fences d es) [] d (run (CWait s <$> es) d).
Proof.
  induction es as [|e es IH]; intros d H1 H2; [by apply after_refl|]. rewrite fmap_cons. cbn [run foldl exec].
  pose proof (wait_after s e d H1 H2) as A. pose proof (IH (wait s e d) (af_clean _ _ _ _ _ A) (af_counted _ _ _ _ _ A)) as B.
  eapply after_weaken; [|exact (after_trans _ _ _ _ _ _ _ _ A B)]. intros r. unfold join, fences. cbn. lia.
Qed.

(** Waits, then copies, of one stream. *)
Lemma batch_after s es cs d : Forall (on_stream s) cs -> clean d = true -> counted d ->
  safe s (fences d es) (touched cs) d ->
  after s (fences d es) (touched cs) d (run ((CWait s <$> es) ++ cs) d).
Proof.
  intros Hf H1 H2 Hs. unfold run. rewrite foldl_app. fold (run (CWait s <$> es) d).
  pose proof (waits_after s es d H1 H2) as A. fold (run cs (run (CWait s <$> es) d)).
  eapply after_weaken; [|eapply (after_trans s _ no_clock [] (touched cs)); [exact A|]].
  - intros r. unfold join, no_clock. lia.
  - apply copies_after; [done|apply A|apply A|]. by eapply safe_seen.
Qed.

Lemma run_app a b d : run (a ++ b) d = run b (run a d).
Proof. apply foldl_app. Qed.

(** ** Phases

    Every copy of a checkpoint is a phase: a stream waits for events, copies, and
    records events. *)
Definition phase (s : stream) (es : list event) (cs : list cmd) (rs : list event) : list cmd :=
  (CWait s <$> es) ++ cs ++ ((fun e => CRecord e s) <$> rs).

Lemma records_run s rs : forall d,
  let d' := run ((fun e => CRecord e s) <$> rs) d in
  seen d' = seen d /\ log d' = log d /\ clean d' = clean d /\
  (forall e, e ∈ rs -> fence d' e = seen d s) /\ (forall e, e ∉ rs -> fence d' e = fence d e).
Proof.
  induction rs as [|r rs IH]; intros d; cbv zeta.
  - split_and!; try done. by intros e ?%elem_of_nil.
  - rewrite fmap_cons. cbn [run foldl exec]. fold (run ((fun e => CRecord e s) <$> rs) (record r s d)).
    destruct (IH (record r s d)) as (-> & -> & -> & Hin & Hout). split_and!; try done.
    + intros e He. destruct (decide (e ∈ rs)) as [Hr|Hr]; [by rewrite Hin|]. rewrite Hout by done. cbn.
      apply elem_of_cons in He as [->|]; [by rewrite decide_True|done].
    + intros e He. apply not_elem_of_cons in He as [Hne Hr]. rewrite Hout by done. cbn. by rewrite decide_False.
Qed.

(** [d'] is [d] after a phase. *)
Record phased (s : stream) (es : list event) (cs : list cmd) (rs : list event) (d d' : Device) : Prop := MkPhased {
  ph_clean : clean d' = true;
  ph_counted : counted d';
  ph_in : forall e, e ∈ rs -> fence d' e = seen d' s;
  ph_out : forall e, e ∉ rs -> fence d' e = fence d e;
  ph_others : forall s', s' <> s -> seen d' s' = seen d s';
  ph_seen : forall r, (Nat.max (seen d s r) (fences d es r) <= seen d' s r)%nat;
  ph_new : forall a, a ∈ log d' -> a ∈ log d \/ (a_stream a = s /\ (a_loc a, a_write a) ∈ touched cs);
}.

Lemma phase_run s es cs rs d : Forall (on_stream s) cs -> clean d = true -> counted d ->
  safe s (fences d es) (touched cs) d -> phased s es cs rs d (run (phase s es cs rs) d).
Proof.
  intros Hf H1 H2 Hs. unfold phase. rewrite app_assoc, run_app.
  pose proof (batch_after s es cs d Hf H1 H2 Hs) as A. set (d1 := run ((CWait s <$> es) ++ cs) d) in *.
  destruct (records_run s rs d1) as (E1 & E2 & E3 & Hin & Hout).
  split; unfold counted; rewrite ?E1, ?E2, ?E3; try apply A.
  - exact Hin.
  - intros e He. rewrite Hout by done. by rewrite (af_fence _ _ _ _ _ A).
Qed.

(** ** The discipline of the events *)

(** The event that covers an image. *)
Definition fence_of (l : loc) : option event :=
  match l with Img i _ => Some (HeadFence i) | Rew lane _ => Some (RewFence lane) | Cur _ _ | Stg _ => None end.

(** Reads of head images by the RAM tier: the copy stream joins them. *)
Definition host_read (a : access) : bool :=
  match a_stream a, a_write a, a_loc a with HostS, false, Img _ _ => true | _, _, _ => false end.

Record dev_ok (d : Device) : Prop := MkDevOk {
  do_clean : clean d = true;
  do_counted : counted d;
  do_copy : forall a, a ∈ log d -> a_stream a = CopyS -> (a_time a <= fence d StgCopies CopyS)%nat;
  do_copies : forall r, (fence d StgCopies r <= seen d CopyS r)%nat;
  do_fence : forall a e, a ∈ log d -> fence_of (a_loc a) = Some e -> host_read a = false ->
    (a_time a <= fence d e (a_stream a))%nat;
  do_staging : forall a p, a ∈ log d -> a_loc a = Stg p -> a_stream a <> HostS;
}.

Definition host_reads_seen (d : Device) : Prop :=
  forall a, a ∈ log d -> host_read a = true -> (a_time a <= seen d CopyS HostS)%nat.

(** Copy-stream writes of the staging slot are behind the compute stream. *)
Definition staging_writes_seen (d : Device) : Prop :=
  forall a p, a ∈ log d -> a_loc a = Stg p -> a_stream a = CopyS -> a_write a = true ->
    (a_time a <= seen d Compute CopyS)%nat.

(** The compute stream's accesses of the staging slot are behind [d2d_done]. *)
Definition staging_accesses_recorded (d : Device) : Prop :=
  forall a p, a ∈ log d -> a_loc a = Stg p -> a_stream a = Compute -> (a_time a <= fence d StgD2D Compute)%nat.

(** Host writes of an image are behind the staging event. *)
Definition image_staged (d : Device) (i : N) : Prop :=
  forall a p, a ∈ log d -> a_loc a = Img i p -> a_stream a = HostS -> a_write a = true ->
    (a_time a <= fence d StgCopies HostS)%nat.

(** The accesses a phase of [s] behind [es] may make to a location. *)
Definition access_fits (d : Device) (s : stream) (es : list event) (l : loc) (w : bool) : Prop :=
  match l with
  | Cur _ _ => True
  | Stg _ =>
      match s with
      | Compute => StgCopies ∈ es \/ (w = false /\ staging_writes_seen d)
      | CopyS => StgD2D ∈ es /\ staging_accesses_recorded d
      | HostS => False
      end
  | Img i _ => HeadFence i ∈ es /\ (w = true -> s <> Compute)
  | Rew lane _ => RewFence lane ∈ es
  end.

Lemma fits_fence d s es l w e : access_fits d s es l w -> fence_of l = Some e -> e ∈ es.
Proof. destruct l; cbn; intros H [= <-]; [by destruct H|done]. Qed.

Lemma fits_safe d s es ts : dev_ok d -> host_reads_seen d ->
  (forall l w, (l, w) ∈ ts -> access_fits d s es l w) -> safe s (fences d es) ts d.
Proof.
  intros Hd Hr Hfit l w a Hin Ht Ha Hl Hw. specialize (Hfit l w Hin). pose proof (do_counted _ Hd a Ha) as Hc.
  destruct (fence_of l) as [e|] eqn:Ef.
  - pose proof (fences_le d es e (a_stream a) (fits_fence _ _ _ _ _ _ Hfit Ef)) as Hle.
    destruct (host_read a) eqn:Er; [|pose proof (do_fence _ Hd a e Ha ltac:(by rewrite Hl) Er); lia].
    pose proof (Hr a Ha Er) as H. unfold host_read in Er. destruct (a_stream a) eqn:Es, (a_write a), (a_loc a); try done.
    rewrite orb_false_r in Hw. subst l w. cbn in Hfit. destruct s; [by destruct Hfit as [_ []]|lia|lia].
  - destruct l as [| p| |]; try done. pose proof (do_staging _ Hd a p Ha Hl) as Hns.
    destruct s; cbn in Hfit; [| |done].
    + destruct (a_stream a) eqn:Es; [lia| |done]. destruct Hfit as [Hin'|[-> Hseen]].
      * pose proof (fences_le d es StgCopies CopyS Hin'). pose proof (do_copy _ Hd a Ha Es). lia.
      * pose proof (Hseen a p Ha Hl Es Hw). lia.
    + destruct Hfit as [Hin' Hrec]. destruct (a_stream a) eqn:Es; [|lia|done].
      pose proof (fences_le d es StgD2D Compute Hin'). pose proof (Hrec a p Ha Hl Es). lia.
Qed.

(** What a phase waits for and records. *)
Record phase_fits (s : stream) (es : list event) (cs : list cmd) (rs : list event) (d : Device) : Prop := MkPhaseFits {
  pf_stream : Forall (on_stream s) cs;
  pf_access : forall l w, (l, w) ∈ touched cs -> access_fits d s es l w;
  pf_copies : StgCopies ∈ rs -> s = CopyS;
  pf_copied : s = CopyS -> touched cs <> [] -> StgCopies ∈ rs;
  pf_images : forall l w e, (l, w) ∈ touched cs -> fence_of l = Some e -> e ∈ rs;
  pf_covers : forall a e, e ∈ rs -> a ∈ log d -> fence_of (a_loc a) = Some e -> host_read a = false ->
    (a_time a <= Nat.max (seen d s (a_stream a)) (fences d es (a_stream a)))%nat;
}.

(** An event that is waited for first may be recorded again. *)
Lemma covers_waited d s es a e : dev_ok d -> e ∈ es -> a ∈ log d -> fence_of (a_loc a) = Some e -> host_read a = false ->
  (a_time a <= Nat.max (seen d s (a_stream a)) (fences d es (a_stream a)))%nat.
Proof.
  intros Hd He Ha Hf Hr. pose proof (fences_le d es e (a_stream a) He). pose proof (do_fence _ Hd a e Ha Hf Hr). lia.
Qed.

Section phase.
Context (s : stream) (es : list event) (cs : list cmd) (rs : list event) (d : Device).
Context (Hd : dev_ok d) (Hr : host_reads_seen d) (Hp : phase_fits s es cs rs d).

Lemma phase_phased : phased s es cs rs d (run (phase s es cs rs) d).
Proof. apply phase_run; [apply Hp|apply Hd|apply Hd|]. apply fits_safe; [done|done|apply Hp]. Qed.

Context (d' : Device) (P : phased s es cs rs d d').

Lemma phase_dev_ok : dev_ok d'.
Proof.
  destruct P as [P1 P2 P3 P4 P5 P6 P7]. destruct Hp as [F1 F2 F3 F3' F4 F5]. split; [done|done| | | |].
  - intros a Ha Es. pose proof (P2 a Ha) as Hc. rewrite Es in Hc. destruct (decide (StgCopies ∈ rs)) as [Hin|Hout].
    + rewrite P3 by done. apply F3 in Hin. by rewrite Hin.
    + rewrite P4 by done. destruct (P7 a Ha) as [Ho|[E Ht]]; [by apply Hd|]. destruct Hout.
      apply F3'; [congruence|]. intros E0. rewrite E0 in Ht. by apply elem_of_nil in Ht.
  - intros r. destruct (decide (StgCopies ∈ rs)) as [Hin|Hout].
    + rewrite P3 by done. apply F3 in Hin. by rewrite Hin.
    + rewrite P4 by done. pose proof (do_copies _ Hd r). destruct (decide (s = CopyS)) as [E|E]; [|by rewrite P5].
      specialize (P6 r). rewrite E in P6. lia.
  - intros a e Ha Hf Hh. destruct (decide (e ∈ rs)) as [Hin|Hout].
    + rewrite P3 by done. destruct (P7 a Ha) as [Ho|[E _]].
      * pose proof (F5 a e Hin Ho Hf Hh). specialize (P6 (a_stream a)). lia.
      * pose proof (P2 a Ha) as Hc. by rewrite E in Hc |- *.
    + rewrite P4 by done. destruct (P7 a Ha) as [Ho|[_ E]]; [by apply Hd|]. destruct Hout. by eapply F4.
  - intros a p Ha Hl Es. destruct (P7 a Ha) as [Ho|[E Ht]]; [by destruct (do_staging _ Hd a p Ho Hl)|].
    pose proof (F2 _ _ Ht) as Hfit. rewrite Hl in Hfit. rewrite Es in E. by rewrite <- E in Hfit.
Qed.

Lemma phase_seen s' r : (seen d s' r <= seen d' s' r)%nat.
Proof.
  destruct (decide (s' = s)) as [->|Hne]; [|by rewrite (ph_others _ _ _ _ _ _ P)].
  pose proof (ph_seen _ _ _ _ _ _ P r). lia.
Qed.

Lemma phase_host_reads : (s = HostS -> forall i p, (Img i p, false) ∉ touched cs) -> host_reads_seen d'.
Proof.
  intros Hn a Ha Er. destruct (ph_new _ _ _ _ _ _ P a Ha) as [Ho|[E Ht]].
  - pose proof (Hr a Ho Er). pose proof (phase_seen CopyS HostS). lia.
  - unfold host_read in Er. destruct (a_stream a), (a_write a), (a_loc a); try done. by destruct (Hn (eq_sym E) _ _ Ht).
Qed.

Lemma phase_writes_seen : (s = CopyS -> forall p, (Stg p, true) ∉ touched cs) -> staging_writes_seen d -> staging_writes_seen d'.
Proof.
  intros Hn Hw a p Ha Hl Es Ew. destruct (ph_new _ _ _ _ _ _ P a Ha) as [Ho|[E Ht]].
  - pose proof (Hw a p Ho Hl Es Ew). pose proof (phase_seen Compute CopyS). lia.
  - rewrite Hl, Ew in Ht. rewrite Es in E. by destruct (Hn (eq_sym E) p).
Qed.

(** Waiting for [copies_done] on the compute stream. *)
Lemma phase_writes_waited : s = Compute -> StgCopies ∈ es -> staging_writes_seen d'.
Proof.
  intros Es Hin a p Ha Hl Ea _. destruct (ph_new _ _ _ _ _ _ P a Ha) as [Ho|[E _]]; [|congruence].
  pose proof (do_copy _ Hd a Ho Ea). pose proof (fences_le d es StgCopies CopyS Hin).
  pose proof (ph_seen _ _ _ _ _ _ P CopyS). rewrite Es in *. lia.
Qed.

Lemma phase_recorded : s = Compute -> StgD2D ∈ rs -> staging_accesses_recorded d'.
Proof.
  intros Es Hin a p Ha _ Ea. rewrite (ph_in _ _ _ _ _ _ P _ Hin), Es. pose proof (ph_counted _ _ _ _ _ _ P a Ha) as H.
  by rewrite Ea in H.
Qed.

Lemma phase_keeps_recorded : s <> Compute -> StgD2D ∉ rs -> staging_accesses_recorded d -> staging_accesses_recorded d'.
Proof.
  intros Hne Hout Hrec a p Ha Hl Ea. rewrite (ph_out _ _ _ _ _ _ P _ Hout).
  destruct (ph_new _ _ _ _ _ _ P a Ha) as [Ho|[E _]]; [by eapply Hrec|]. congruence.
Qed.

(** [copies_done] moves forward. *)
Lemma phase_copies r : (fence d StgCopies r <= fence d' StgCopies r)%nat.
Proof.
  destruct (decide (StgCopies ∈ rs)) as [Hin|Hout]; [|by rewrite (ph_out _ _ _ _ _ _ P _ Hout)].
  rewrite (ph_in _ _ _ _ _ _ P _ Hin). apply Hp in Hin. pose proof (do_copies _ Hd r). pose proof (phase_seen s r).
  rewrite Hin in *. lia.
Qed.

Lemma phase_keeps_staged i : (s = HostS -> forall p, (Img i p, true) ∉ touched cs) -> image_staged d i -> image_staged d' i.
Proof.
  intros Hn Hi a p Ha Hl Es Ew. pose proof (phase_copies HostS). destruct (ph_new _ _ _ _ _ _ P a Ha) as [Ho|[E Ht]].
  - pose proof (Hi a p Ho Hl Es Ew). lia.
  - rewrite Hl, Ew in Ht. rewrite Es in E. by destruct (Hn (eq_sym E) p).
Qed.

Lemma phase_stages i : StgCopies ∈ rs -> HeadFence i ∈ es -> image_staged d' i.
Proof.
  intros Hrs Hin a p Ha Hl Ea Ew. pose proof (pf_copies _ _ _ _ _ Hp Hrs) as Es. rewrite (ph_in _ _ _ _ _ _ P _ Hrs), Es.
  destruct (ph_new _ _ _ _ _ _ P a Ha) as [Ho|[E _]]; [|congruence].
  assert (host_read a = false) as Er by (unfold host_read; by rewrite Ea, Ew).
  pose proof (do_fence _ Hd a (HeadFence i) Ho ltac:(by rewrite Hl) Er) as H. rewrite Ea in H.
  pose proof (fences_le d es (HeadFence i) HostS Hin). pose proof (ph_seen _ _ _ _ _ _ P HostS). rewrite Es in *. lia.
Qed.
End phase.

(** ** The copies *)
Definition disciplined (d : Device) : Prop := dev_ok d /\ host_reads_seen d.

(** Images other than [written] keep their place behind the staging event. *)
Definition keeps_staged (written : N -> Prop) (d d' : Device) : Prop :=
  forall i, ~ written i -> image_staged d i -> image_staged d' i.

Definition nothing (_ : N) : Prop := False.

Lemma keeps_staged_trans w d d' d'' : keeps_staged w d d' -> keeps_staged w d' d'' -> keeps_staged w d d''.
Proof. intros H1 H2 i Hi Hs. by apply H2, H1. Qed.

(** Cases on the accesses of a list of commands. *)
Ltac on_touches H :=
  unfold touched in H; rewrite ?fmap_cons, ?fmap_nil in H; cbn [touches concat app fmap list_fmap] in H;
  repeat (apply elem_of_cons in H as [H|H]; [simplify_eq|]); try by apply elem_of_nil in H.

(** A phase off the host-copy stream. *)
Lemma device_phase s es cs rs d : disciplined d -> phase_fits s es cs rs d -> s <> HostS ->
  let d' := run (phase s es cs rs) d in
  disciplined d' /\ keeps_staged nothing d d' /\ phased s es cs rs d d'.
Proof.
  intros [Hd Hr] Hp Hs d'. pose proof (phase_phased _ _ _ _ _ Hd Hr Hp) as P. split_and!; [split|..|exact P].
  - by eapply phase_dev_ok.
  - by eapply phase_host_reads.
  - intros i _. by eapply phase_keeps_staged.
Qed.

Section capture.
Context (d : Device) (cs1 cs2 : list cmd) (F : event) (Hd : disciplined d).
Context (HF : F <> StgD2D /\ F <> StgCopies).
Context (H1 : Forall (on_stream Compute) cs1) (H2 : Forall (on_stream CopyS) cs2).
Context (T1 : forall l w, (l, w) ∈ touched cs1 -> (exists lane p, l = Cur lane p) \/ (exists p, l = Stg p)).
Context (T2 : forall l w, (l, w) ∈ touched cs2 -> (exists p, l = Stg p /\ w = false) \/ fence_of l = Some F).

Definition captured : Device :=
  run (phase CopyS [StgD2D; F] cs2 [F; StgCopies]) (run (phase Compute [StgCopies] cs1 [StgD2D]) d).

Lemma capture_first : phase_fits Compute [StgCopies] cs1 [StgD2D] d.
Proof.
  split; [done| | |done| |].
  - intros l w Hin. destruct (T1 l w Hin) as [(lane & p & ->)|(p & ->)]; cbn; [done|left; by left].
  - by intros [|?%elem_of_nil]%elem_of_cons.
  - intros l w e Hin Hf. by destruct (T1 l w Hin) as [(lane & p & ->)|(p & ->)].
  - intros a e [->|?%elem_of_nil]%elem_of_cons Ha Hf; [|done]. by destruct (a_loc a).
Qed.

Lemma capture_second d1 : dev_ok d1 -> staging_accesses_recorded d1 -> phase_fits CopyS [StgD2D; F] cs2 [F; StgCopies] d1.
Proof.
  intros Hd1 Hrec. split; [done| |done| | |].
  - intros l w Hin. destruct (T2 l w Hin) as [(p & -> & ->)|Hf]; cbn; [split; [by left|done]|].
    destruct l; cbn in Hf |- *; try done; injection Hf as <-; [|right; by left]. split; [right; by left|done].
  - intros _ _. right. by left.
  - intros l w e Hin Hf. destruct (T2 l w Hin) as [(p & -> & ->)|Hf']; [done|]. assert (e = F) as -> by congruence. by left.
  - intros a e Hin Ha Hf Hr. eapply covers_waited; try done. apply elem_of_cons in Hin as [->|Hin]; [right; by left|].
    apply elem_of_cons in Hin as [->|?%elem_of_nil]; [|done]. by destruct (a_loc a).
Qed.

(** After a capture the discipline holds, the slot's accesses are recorded, and the
    image's host writes are behind the staging event. *)
Lemma capture_ok :
  disciplined captured /\ keeps_staged nothing d captured /\ staging_writes_seen captured /\
  staging_accesses_recorded captured /\ (forall i, F = HeadFence i -> image_staged captured i).
Proof.
  destruct (device_phase _ _ _ _ d Hd capture_first) as (D1 & K1 & P1); [done|]. unfold captured.
  set (d1 := run (phase Compute [StgCopies] cs1 [StgD2D]) d) in *.
  assert (staging_accesses_recorded d1) as Hrec by (eapply phase_recorded; [exact P1|done|by left]).
  pose proof (capture_second d1 (proj1 D1) Hrec) as Hfit.
  destruct (device_phase _ _ _ _ d1 D1 Hfit) as (D2 & K2 & P2); [done|]. destruct HF as [HF1 HF2]. split_and!.
  - done.
  - by eapply keeps_staged_trans.
  - eapply phase_writes_seen; [exact P2| |].
    + intros _ p Hin. destruct (T2 _ _ Hin) as [(q & _ & ?)|?]; done.
    + eapply phase_writes_waited; [apply Hd|exact capture_first|exact P1|done|by left].
  - eapply phase_keeps_recorded; [exact P2|done| |done].
    intros [E|[E|?%elem_of_nil]%elem_of_cons]%elem_of_cons; [by symmetry in E|done|done].
  - intros i ->. eapply phase_stages; [apply D1|exact Hfit|exact P2|right; by left|right; by left].
Qed.
End capture.

Lemma when_dflash_cases backend cmds : when_dflash backend cmds = cmds \/ when_dflash backend cmds = [].
Proof. unfold when_dflash. destruct (dflash backend); [by left|by right]. Qed.

(** [maybe_freeze_context_checkpoint] and [maybe_capture_turn_rollback] *)
Lemma capture_cmds_ok backend lane image hidden d : disciplined d -> on_stream Compute hidden ->
  (forall l w, (l, w) ∈ touches hidden -> (exists lane p, l = Cur lane p) \/ (exists p, l = Stg p)) ->
  let d' := run (capture_cmds backend lane image hidden) d in
  disciplined d' /\ keeps_staged nothing d d' /\ staging_writes_seen d' /\ staging_accesses_recorded d' /\ image_staged d' image.
Proof.
  intros Hd Hs Ht d'.
  set (cs1 := [CCopy Compute (Stg Gdn) (Cur lane Gdn); hidden] ++ snapshot_dflash_cyclic_to_staging backend lane).
  set (cs2 := [CCopy CopyS (Img image Gdn) (Stg Gdn); CCopy CopyS (Img image Hidden) (Stg Hidden)]
              ++ pack_dflash_cyclic_to_head backend image).
  assert (d' = captured d cs1 cs2 (HeadFence image)) as ->.
  { unfold captured. rewrite <- run_app. unfold d', capture_cmds, phase, cs1, cs2. cbn [fmap list_fmap app].
    by rewrite <- !app_assoc. }
  destruct (capture_ok d cs1 cs2 (HeadFence image)) as (A & B & C & D & E).
  - done.
  - done.
  - unfold cs1, snapshot_dflash_cyclic_to_staging. destruct (when_dflash_cases backend [CCopy Compute (Stg Cyclic) (Cur lane Cyclic)]) as [-> | ->];
      cbn; repeat constructor; done.
  - unfold cs2, pack_dflash_cyclic_to_head. destruct (when_dflash_cases backend [CCopy CopyS (Img image Cyclic) (Stg Cyclic)]) as [-> | ->];
      cbn; repeat constructor; done.
  - intros l w Hin. unfold cs1, touched in Hin. rewrite fmap_app, concat_app, !fmap_cons in Hin. cbn [concat] in Hin.
    rewrite !elem_of_app in Hin. destruct Hin as [[Hin|[Hin|Hin]]|Hin]; [|by eapply Ht|by apply elem_of_nil in Hin|].
    + cbn [touches] in Hin. on_touches Hin; eauto.
    + unfold snapshot_dflash_cyclic_to_staging in Hin. destruct (when_dflash_cases backend [CCopy Compute (Stg Cyclic) (Cur lane Cyclic)]) as [E|E];
        rewrite E in Hin; on_touches Hin; eauto.
  - intros l w Hin. unfold cs2, pack_dflash_cyclic_to_head in Hin.
    destruct (when_dflash_cases backend [CCopy CopyS (Img image Cyclic) (Stg Cyclic)]) as [E|E];
      rewrite E in Hin; on_touches Hin; eauto.
  - split_and!; auto.
Qed.

(** [capture_rewrite_image] with a staging slot. *)
Definition rewrite_capture_cmds (backend : SpeculativeBackend) (lane : nat) : list cmd :=
  [CWait Compute StgCopies; CCopy Compute (Stg Gdn) (Cur lane Gdn)]
  ++ when_dflash backend [CCopy Compute (Stg Cyclic) (Cur lane Cyclic)]
  ++ [CRecord StgD2D Compute; CWait CopyS StgD2D; CWait CopyS (RewFence lane); CCopy CopyS (Rew lane Gdn) (Stg Gdn)]
  ++ when_dflash backend [CCopy CopyS (Rew lane Cyclic) (Stg Cyclic)]
  ++ [CRecord (RewFence lane) CopyS; CRecord StgCopies CopyS].

Lemma rewrite_capture_ok backend lane d : disciplined d ->
  let d' := run (rewrite_capture_cmds backend lane) d in
  disciplined d' /\ keeps_staged nothing d d' /\ staging_writes_seen d'.
Proof.
  intros Hd d'.
  set (cs1 := CCopy Compute (Stg Gdn) (Cur lane Gdn) :: when_dflash backend [CCopy Compute (Stg Cyclic) (Cur lane Cyclic)]).
  set (cs2 := CCopy CopyS (Rew lane Gdn) (Stg Gdn) :: when_dflash backend [CCopy CopyS (Rew lane Cyclic) (Stg Cyclic)]).
  assert (d' = captured d cs1 cs2 (RewFence lane)) as ->.
  { unfold captured. rewrite <- run_app. unfold d', rewrite_capture_cmds, phase, cs1, cs2. cbn [fmap list_fmap app].
    by rewrite <- !app_assoc. }
  destruct (capture_ok d cs1 cs2 (RewFence lane)) as (A & B & C & _ & _); [done|done| | | | |done].
  - unfold cs1. destruct (when_dflash_cases backend [CCopy Compute (Stg Cyclic) (Cur lane Cyclic)]) as [-> | ->];
      repeat constructor.
  - unfold cs2. destruct (when_dflash_cases backend [CCopy CopyS (Rew lane Cyclic) (Stg Cyclic)]) as [-> | ->];
      repeat constructor.
  - intros l w Hin. unfold cs1 in Hin. destruct (when_dflash_cases backend [CCopy Compute (Stg Cyclic) (Cur lane Cyclic)]) as [E|E];
      rewrite E in Hin; on_touches Hin; eauto.
  - intros l w Hin. unfold cs2 in Hin. destruct (when_dflash_cases backend [CCopy CopyS (Rew lane Cyclic) (Stg Cyclic)]) as [E|E];
      rewrite E in Hin; on_touches Hin; eauto.
Qed.

(** A phase of the compute stream behind the event of the only image it touches. *)
Lemma image_phase F cs d : disciplined d -> Forall (on_stream Compute) cs -> F <> StgCopies ->
  (forall l w, (l, w) ∈ touched cs -> (exists lane p, l = Cur lane p) \/
     (fence_of l = Some F /\ (w = true -> forall i p, l <> Img i p))) ->
  let d' := run (phase Compute [F] cs [F]) d in
  disciplined d' /\ keeps_staged nothing d d' /\ phased Compute [F] cs [F] d d'.
Proof.
  intros Hd Hf HF Ht d'. apply device_phase; [done| |done]. split; [done| | |done| |].
  - intros l w Hin. destruct (Ht l w Hin) as [(lane & p & ->)|[E Hw]]; [done|].
    destruct l; cbn in E |- *; try done; injection E as <-; [|by left]. split; [by left|].
    intros -> _. by destruct (Hw eq_refl image p).
  - intros [E|?%elem_of_nil]%elem_of_cons; [by symmetry in E|done].
  - intros l w e Hin He. destruct (Ht l w Hin) as [(lane & p & ->)|[E Hw]]; [done|]. assert (e = F) as -> by congruence. by left.
  - intros a e Hin Ha He Hr. by eapply covers_waited; [apply Hd|..].
Qed.

(** [reload_turn_rollback_into_staging] *)
Definition reload_cmds (i : N) : list cmd :=
  [CWait CopyS (HeadFence i); CWait CopyS StgD2D; CCopy CopyS (Stg Gdn) (Img i Gdn); CCopy CopyS (Stg Hidden) (Img i Hidden);
   CRecord StgCopies CopyS; CRecord (HeadFence i) CopyS].

Lemma reload_ok i d : disciplined d -> staging_accesses_recorded d ->
  let d' := run (reload_cmds i) d in
  disciplined d' /\ keeps_staged nothing d d' /\ image_staged d' i.
Proof.
  intros Hd Hrec d'. set (cs := [CCopy CopyS (Stg Gdn) (Img i Gdn); CCopy CopyS (Stg Hidden) (Img i Hidden)]).
  assert (phase_fits CopyS [HeadFence i; StgD2D] cs [StgCopies; HeadFence i] d) as Hfit.
  { split; [repeat constructor| |done|by left| |].
    - intros l w Hin. unfold cs in Hin. on_touches Hin; cbn; (split; [|done]); [by left|right; by left|by left|right; by left].
    - intros l w e Hin He. unfold cs in Hin. on_touches Hin; try done; injection He as <-; right; by left.
    - intros a e Hin Ha He Hr. eapply covers_waited; [apply Hd| |done..].
      apply elem_of_cons in Hin as [->|Hin]; [by destruct (a_loc a)|].
      apply elem_of_cons in Hin as [->|?%elem_of_nil]; [by left|done]. }
  destruct (device_phase _ _ _ _ d Hd Hfit) as (A & B & P); [done|]. split_and!; [done|done|].
  eapply phase_stages; [apply Hd|exact Hfit|exact P|by left|by left].
Qed.

(** Reading the staging slot on the compute stream, behind [copies_done]. *)
Lemma slot_phase cs rs d : disciplined d -> Forall (on_stream Compute) cs -> StgCopies ∉ rs ->
  (forall l w, (l, w) ∈ touched cs -> (exists lane p, l = Cur lane p) \/ (exists p, l = Stg p)) ->
  (forall i, HeadFence i ∈ rs -> image_staged d i) -> (forall lane, RewFence lane ∉ rs) ->
  let d' := run (phase Compute [StgCopies] cs rs) d in
  disciplined d' /\ keeps_staged nothing d d' /\ phased Compute [StgCopies] cs rs d d'.
Proof.
  intros Hd Hf HF Ht Hi Hrew d'. apply device_phase; [done| |done]. split; [done| |done|done| |].
  - intros l w Hin. destruct (Ht l w Hin) as [(lane & p & ->)|[p ->]]; [done|]. left. by left.
  - intros l w e Hin He. by destruct (Ht l w Hin) as [(lane & p & ->)|[p ->]].
  - intros a e Hin Ha He Hr. pose proof (do_counted _ (proj1 Hd) a Ha) as Hc.
    pose proof (fences_le d [StgCopies] StgCopies (a_stream a) ltac:(by left)) as Hle.
    destruct (a_stream a) eqn:Es; [lia|pose proof (do_copy _ (proj1 Hd) a Ha Es); lia|].
    destruct (a_loc a) as [| |i p|lane p] eqn:El; try done; injection He as <-; [|by destruct (Hrew lane)].
    unfold host_read in Hr. rewrite Es, El in Hr. destruct (a_write a) eqn:Ew; [|done].
    pose proof (Hi i Hin a p Ha El Es Ew). lia.
Qed.

(** [restore_context_checkpoint_state] from the staging slot. *)
Definition restore_slot_cmds (backend : SpeculativeBackend) (lane : nat) (i : N) : list cmd :=
  [CWait Compute StgCopies; CCopy Compute (Cur lane Gdn) (Stg Gdn); CCopy Compute (Cur lane Hidden) (Stg Hidden)]
  ++ restore_dflash_cyclic_from_head backend lane i ++ [CRecord (HeadFence i) Compute].

Lemma restore_slot_ok backend lane i d : disciplined d -> image_staged d i ->
  let d' := run (restore_slot_cmds backend lane i) d in
  disciplined d' /\ keeps_staged nothing d d' /\ (staging_writes_seen d -> staging_writes_seen d').
Proof.
  intros Hd Hi. set (cs := [CCopy Compute (Cur lane Gdn) (Stg Gdn); CCopy Compute (Cur lane Hidden) (Stg Hidden)]).
  assert (forall l w, (l, w) ∈ touched cs -> (exists lane p, l = Cur lane p) \/ (exists p, l = Stg p)) as Ht.
  { intros l w Hin. unfold cs in Hin. on_touches Hin; eauto. }
  unfold restore_slot_cmds, restore_dflash_cyclic_from_head, when_dflash. destruct (dflash backend); cbv zeta.
  - change (run _ d) with (run (phase Compute [HeadFence i] [CCopy Compute (Cur lane Cyclic) (Img i Cyclic)] [HeadFence i])
      (run (phase Compute [StgCopies] cs []) d)).
    destruct (slot_phase cs [] d Hd) as (A & B & P);
      [repeat constructor|by intros ?%elem_of_nil|done|by intros ? ?%elem_of_nil|by intros ? ?%elem_of_nil|].
    set (d1 := run (phase Compute [StgCopies] cs []) d) in *.
    destruct (image_phase (HeadFence i) [CCopy Compute (Cur lane Cyclic) (Img i Cyclic)] d1 A) as (A' & B' & P');
      [repeat constructor|done|intros l w Hin; on_touches Hin; [by right|left; eauto]|].
    split_and!; [done|by eapply keeps_staged_trans|]. intros Hw. eapply phase_writes_seen; [exact P'|done|].
    eapply phase_writes_seen; [exact P|done|done].
  - destruct (slot_phase cs [HeadFence i] d Hd) as (A & B & P); [repeat constructor| |done| | |].
    + by intros [|?%elem_of_nil]%elem_of_cons.
    + intros j [[= ->]|?%elem_of_nil]%elem_of_cons; done.
    + by intros k [|?%elem_of_nil]%elem_of_cons.
    + split_and!; [done|done|]. intros Hw. eapply phase_writes_seen; [exact P|done|done].
Qed.

(** [restore_context_checkpoint_state] from the head's image. *)
Definition restore_image_cmds (backend : SpeculativeBackend) (lane : nat) (i : N) : list cmd :=
  [CWait Compute (HeadFence i); CCopy Compute (Cur lane Gdn) (Img i Gdn); CCopy Compute (Cur lane Hidden) (Img i Hidden)]
  ++ restore_dflash_cyclic_from_head backend lane i ++ [CRecord (HeadFence i) Compute].

Lemma restore_image_ok backend lane i d : disciplined d ->
  let d' := run (restore_image_cmds backend lane i) d in
  disciplined d' /\ keeps_staged nothing d d' /\ (staging_writes_seen d -> staging_writes_seen d').
Proof.
  intros Hd. set (cs := [CCopy Compute (Cur lane Gdn) (Img i Gdn); CCopy Compute (Cur lane Hidden) (Img i Hidden)]
                        ++ restore_dflash_cyclic_from_head backend lane i).
  destruct (image_phase (HeadFence i) cs d Hd) as (A & B & P).
  - unfold cs, restore_dflash_cyclic_from_head, when_dflash. destruct (dflash backend); repeat constructor.
  - done.
  - unfold cs, restore_dflash_cyclic_from_head, when_dflash.
    destruct (dflash backend); intros l w Hin; on_touches Hin; try (by right); left; eauto.
  - split_and!; [done|done|]. intros Hw. eapply phase_writes_seen; [exact P|done|done].
Qed.

(** [restore_rewrite_checkpoint_state]: the slot was written on the compute stream, so
    reading it there waits for nothing. *)
Lemma rewrite_slot_ok backend lane d : disciplined d -> staging_writes_seen d ->
  let d' := run ([CCopy Compute (Cur lane Gdn) (Stg Gdn)] ++ when_dflash backend [CCopy Compute (Cur lane Cyclic) (Stg Cyclic)]) d in
  disciplined d' /\ keeps_staged nothing d d' /\ staging_writes_seen d'.
Proof.
  intros Hd Hw. set (cs := _ ++ _). assert (phase Compute [] cs [] = cs) as E by apply app_nil_r. rewrite <- E.
  destruct (device_phase Compute [] cs [] d Hd) as (A & B & P); [|done|].
  - split; [| |by intros ?%elem_of_nil|done| |by intros ? ? ?%elem_of_nil].
    + unfold cs, when_dflash. destruct (dflash backend); repeat constructor.
    + intros l w. unfold cs, when_dflash. destruct (dflash backend); intros Hin; on_touches Hin; cbn; auto.
    + intros l w e. unfold cs, when_dflash. destruct (dflash backend); intros Hin; on_touches Hin; done.
  - split_and!; [done|done|]. eapply phase_writes_seen; [exact P|done|done].
Qed.

(** A phase of the compute stream on a lane's rewrite image: its restore, and its
    capture without a staging slot. *)
Lemma rewrite_image_ok lane cs d : disciplined d -> Forall (on_stream Compute) cs ->
  (forall l w, (l, w) ∈ touched cs -> (exists lane p, l = Cur lane p) \/ (exists p, l = Rew lane p)) ->
  let d' := run (phase Compute [RewFence lane] cs [RewFence lane]) d in
  disciplined d' /\ keeps_staged nothing d d' /\ (staging_writes_seen d -> staging_writes_seen d').
Proof.
  intros Hd Hf Ht. destruct (image_phase (RewFence lane) cs d Hd Hf) as (A & B & P); [done| |].
  - intros l w Hin. destruct (Ht l w Hin) as [?|[p ->]]; [by left|by right].
  - split_and!; [done|done|]. intros Hw. eapply phase_writes_seen; [exact P|done|done].
Qed.

(** Host copies behind the fences of the images they touch. *)
Lemma host_phase_fits cs fs rs d : dev_ok d -> Forall (on_stream HostS) cs ->
  (forall l w, (l, w) ∈ touched cs -> exists e, fence_of l = Some e /\ e ∈ fs) ->
  (forall e, e ∈ rs -> e ∈ fs \/ e = Joined) -> (forall e, e ∈ fs -> e ∈ rs) -> StgCopies ∉ fs ->
  phase_fits HostS fs cs rs d.
Proof.
  intros Hd Hf Ht H1 H2 H3. split; [done| | |done| |].
  - intros l w Hin. destruct (Ht l w Hin) as (e & E & He). destruct l; cbn in E |- *; try done; by injection E as <-.
  - intros Hin. by destruct (H1 _ Hin).
  - intros l w e Hin He. destruct (Ht l w Hin) as (e' & E & He'). apply H2. congruence.
  - intros a e Hin Ha He Hr. destruct (H1 _ Hin) as [?| ->]; [by eapply covers_waited|]. by destruct (a_loc a).
Qed.

(** [HostCopyStream::run_detached] *)
Lemma run_detached_ok cs fs written d : disciplined d -> Forall (on_stream HostS) cs ->
  (forall l w, (l, w) ∈ touched cs -> w = true /\ exists e, fence_of l = Some e /\ e ∈ fs) ->
  (forall i p w, (Img i p, w) ∈ touched cs -> written i) -> StgCopies ∉ fs ->
  let d' := run (run_detached cs fs) d in
  disciplined d' /\ keeps_staged written d d' /\ (staging_writes_seen d -> staging_writes_seen d').
Proof.
  intros [Hd Hr] Hf Ht Hi Hc. unfold run_detached. case_bool_decide; [by split_and!; [|intros i _|]|].
  change (enqueue_fenced cs fs) with (phase HostS fs cs fs).
  assert (phase_fits HostS fs cs fs d) as Hfit.
  { apply host_phase_fits; auto. intros l w Hin. by apply (Ht l w). }
  pose proof (phase_phased _ _ _ _ _ Hd Hr Hfit) as P. split_and!; [split|..].
  - by eapply phase_dev_ok.
  - eapply phase_host_reads; [exact Hr|exact P|]. intros _ i p Hin. by destruct (Ht _ _ Hin).
  - intros i Hn. eapply phase_keeps_staged; [exact Hd|exact Hfit|exact P|]. intros _ p Hin. by eapply Hn, Hi.
  - intros Hw. eapply phase_writes_seen; [exact P|done|done].
Qed.

(** [HostCopyStream::run], joined by the copy stream. *)
Lemma host_run_ok cs fs d : disciplined d -> Forall (on_stream HostS) cs ->
  (forall l w, (l, w) ∈ touched cs -> exists e, fence_of l = Some e /\ e ∈ fs) ->
  (forall i p, (Img i p, true) ∉ touched cs) -> StgCopies ∉ fs -> Joined ∉ fs ->
  let d' := run (host_run cs fs CopyS) d in
  disciplined d' /\ keeps_staged nothing d d' /\ (staging_writes_seen d -> staging_writes_seen d').
Proof.
  intros [Hd Hr] Hf Ht Hi Hc Hj. unfold host_run. case_bool_decide; [by split_and!; [|intros i _|]|].
  assert (enqueue_fenced cs fs ++ [CRecord Joined HostS; CWait CopyS Joined] =
    phase HostS fs cs (fs ++ [Joined]) ++ phase CopyS [Joined] [] []) as ->.
  { unfold enqueue_fenced, phase. rewrite fmap_app, <- !app_assoc. done. }
  rewrite run_app. assert (phase_fits HostS fs cs (fs ++ [Joined]) d) as Hfit.
  { apply host_phase_fits; [done|done|done| | |done].
    - intros e [?|[->|?%elem_of_nil]%elem_of_cons]%elem_of_app; auto. done.
    - intros e He. apply elem_of_app. by left. }
  pose proof (phase_phased _ _ _ _ _ Hd Hr Hfit) as P. set (d1 := run (phase HostS fs cs (fs ++ [Joined])) d) in *.
  pose proof (phase_dev_ok _ _ _ _ _ Hd Hfit _ P) as Hd1.
  assert (phased CopyS [Joined] [] [] d1 (run (phase CopyS [Joined] [] []) d1)) as P2.
  { apply phase_run; [constructor|apply Hd1|apply Hd1|]. by intros l w a ?%elem_of_nil. }
  assert (phase_fits CopyS [Joined] [] [] d1) as Hfit2.
  { split; [constructor|by intros ? ? ?%elem_of_nil|by intros ?%elem_of_nil|done|by intros ? ? ? ?%elem_of_nil|].
    by intros ? ? ?%elem_of_nil. }
  set (d2 := run (phase CopyS [Joined] [] []) d1) in *. split_and!; [split|..].
  - by eapply phase_dev_ok.
  - intros a Ha Er. destruct (ph_new _ _ _ _ _ _ P2 a Ha) as [Ho|[_ ?%elem_of_nil]]; [|done].
    pose proof (ph_counted _ _ _ _ _ _ P a Ho) as Hcnt. pose proof (ph_seen _ _ _ _ _ _ P2 HostS) as Hs.
    pose proof (fences_le d1 [Joined] Joined HostS ltac:(by left)) as Hle.
    rewrite (ph_in _ _ _ _ _ _ P Joined) in Hle by (apply elem_of_app; right; by left).
    unfold host_read in Er. destruct (a_stream a); try done. lia.
  - eapply (keeps_staged_trans _ _ d1).
    + intros i _. eapply phase_keeps_staged; [exact Hd|exact Hfit|exact P|]. intros _ p Hin. by eapply Hi.
    + intros i _. eapply phase_keeps_staged; [exact Hd1|exact Hfit2|exact P2|done].
  - intros Hw. eapply phase_writes_seen; [exact P2| |]; [intros _ p ?%elem_of_nil; done|].
    eapply phase_writes_seen; [exact P|done|done].
Qed.
