(* ===== verification/CheckpointWorld.v ===== *)
(** * Checkpoint copies: what a restore brings back

    The calls that capture, restore, install and drop checkpoints, in any order and on
    any lanes: the copies they enqueue are always ordered, and a restore puts back the
    state of the checkpoint it names, whichever copy it reads. *)

From stdpp Require Import prelude list list_numbers.
From Stdlib Require Import ZArith Lia.
From S2P Require Import Prelude.
From S2P Require Import PrefixIdentity.
From S2P Require Import ContextReuse.
From S2P Require Import CheckpointPool.
From S2P Require Import CheckpointTheorems.
From S2P Require Import CheckpointStreams.
From S2P Require Import StreamTheorems.
#[local] Open Scope Z_scope.

(** ** Values *)
Definition upd (v : loc -> option PrefixHash128) (l : loc) (x : option PrefixHash128) : loc -> option PrefixHash128 :=
  fun l' => if decide (l' = l) then x else v l'.

Definition val_step (v : loc -> option PrefixHash128) (c : cmd) : loc -> option PrefixHash128 :=
  match c with
  | CCopy _ dst src => upd v dst (v src)
  | CWrite _ dst x => upd v dst x
  | CWait _ _ | CRecord _ _ | CRead _ _ => v
  end.

Lemma val_touch s l w d : val (touch s l w d) = val d.
Proof. unfold touch. by destruct (negb (tracked l)). Qed.

Lemma run_val cs : forall d, val (run cs d) = foldl val_step (val d) cs.
Proof.
  induction cs as [|c cs IH]; intros d; [done|]. cbn [run foldl]. fold (run cs (exec d c)). rewrite IH. f_equal.
  destruct c; cbn [exec val_step val wait record set_val]; unfold upd; rewrite ?val_touch; done.
Qed.

(** What is not written keeps its value. *)
Lemma run_keeps l cs : forall d, (l, true) ∉ touched cs -> val (run cs d) l = val d l.
Proof.
  induction cs as [|c cs IH]; intros d Hn; [done|]. unfold touched in Hn. rewrite fmap_cons in Hn. cbn [concat] in Hn.
  rewrite elem_of_app in Hn. cbn [run foldl]. fold (run cs (exec d c)). rewrite IH by (intros ?; apply Hn; by right).
  destruct c; cbn [exec wait record val set_val]; rewrite ?val_touch; try done.
  - rewrite decide_False; [done|]. intros ->. apply Hn. left. cbn. right. by left.
  - rewrite decide_False; [done|]. intros ->. apply Hn. left. by left.
Qed.

(** What the last command that concerns a location writes there. *)
Lemma run_write_last l x cs s d : (l, true) ∉ touched cs -> val (run (CWrite s l x :: cs) d) l = x.
Proof. intros Hn. cbn [run foldl]. fold (run cs (exec d (CWrite s l x))). rewrite run_keeps by done. cbn. by rewrite decide_True. Qed.

Ltac eval_copies :=
  rewrite run_val; cbn [foldl val_step app]; unfold upd;
  repeat match goal with
  | |- context [decide (?a = ?a)] => rewrite (decide_True (P := a = a)) by done
  | |- context [decide (?a = ?b)] => rewrite (decide_False (P := a = b)) by congruence
  end.

(** ** Heads *)
Definition heads_of (c : Checkpoints) (lane : nat) : list ContextCheckpointHead := lane_heads (lane_of c lane).

Lemma concat_disjoint {A} (ls : list (list A)) i j a b x :
  NoDup (concat ls) -> ls !! i = Some a -> ls !! j = Some b -> x ∈ a -> x ∈ b -> i = j.
Proof.
  revert i j. induction ls as [|l ls IH]; intros i j Hd Hi Hj Ha Hb; [done|]. cbn [concat] in Hd.
  apply NoDup_app in Hd as (_ & Hx & Hd).
  assert (forall k c, ls !! k = Some c -> x ∈ c -> x ∈ concat ls) as Hin.
  { intros k c Hk Hc. apply list_elem_of_In, in_concat. exists c. split; apply list_elem_of_In; [by eapply list_elem_of_lookup_2|done]. }
  destruct i as [|i], j as [|j]; cbn in Hi, Hj; [done| | |f_equal; by eapply IH].
  - injection Hi as <-. destruct (Hx x Ha). by eapply Hin.
  - injection Hj as <-. destruct (Hx x Hb). by eapply Hin.
Qed.

Lemma concat_part {A} (ls : list (list A)) i a : NoDup (concat ls) -> ls !! i = Some a -> NoDup a.
Proof.
  revert i. induction ls as [|l ls IH]; intros i Hd Hi; [done|]. cbn [concat] in Hd. apply NoDup_app in Hd as (Hl & _ & Hd).
  destruct i; cbn in Hi; [by injection Hi as <-|by eapply IH].
Qed.

Lemma heads_of_lookup c lane h : h ∈ heads_of c lane -> exists l, lanes_ c !! lane = Some l /\ h ∈ lane_heads l.
Proof.
  unfold heads_of, lane_of. destruct (lanes_ c !! lane) as [l|]; [by exists l|]. by intros ?%elem_of_nil.
Qed.

(** An image belongs to one head. *)
Lemma image_owner n c hand i j h h' :
  conserved n c hand -> h ∈ heads_of c i -> h' ∈ heads_of c j -> ch_image h = ch_image h' -> i = j /\ h = h'.
Proof.
  intros [_ Hc] Hi Hj E. apply heads_of_lookup in Hi as (a & Hi & Ha). apply heads_of_lookup in Hj as (b & Hj & Hb).
  assert (NoDup (owned_images c)) as Hd.
  { assert (NoDup (images (context_checkpoint_pool_ c) ++ owned_images c ++ images hand)) as H.
    { rewrite Hc. apply NoDup_fmap_2; [intros x y; lia|apply NoDup_seq]. }
    apply NoDup_app in H as (_ & _ & H). by apply NoDup_app in H as (H & _ & _). }
  unfold owned_images in Hd.
  assert (i = j) as ->.
  { eapply (concat_disjoint _ i j (images (lane_heads a)) (images (lane_heads b)) (ch_image h)); [exact Hd|..].
    - by rewrite list_lookup_fmap, Hi.
    - by rewrite list_lookup_fmap, Hj.
    - apply list_elem_of_fmap. by exists h.
    - rewrite E. apply list_elem_of_fmap. by exists h'. }
  split; [done|]. rewrite Hi in Hj. injection Hj as <-.
  assert (NoDup (images (lane_heads a))) as Ha' by (eapply concat_part; [exact Hd|by rewrite list_lookup_fmap, Hi]).
  apply list_elem_of_lookup in Ha as [k Hk]. apply list_elem_of_lookup in Hb as [m Hm].
  unfold images in Ha'. assert (k = m) as ->; [|congruence].
  eapply NoDup_lookup; [exact Ha'|rewrite list_lookup_fmap, Hk; done|rewrite list_lookup_fmap, Hm; cbn; by rewrite E].
Qed.

(** An image in hand belongs to no head. *)
Lemma hand_owner n c hand i h x : conserved n c hand -> h ∈ heads_of c i -> x ∈ hand -> ch_image h <> ch_image x.
Proof.
  intros [_ Hc] Hi Hx E. apply heads_of_lookup in Hi as (a & Hi & Ha).
  assert (NoDup (images (context_checkpoint_pool_ c) ++ owned_images c ++ images hand)) as H.
  { rewrite Hc. apply NoDup_fmap_2; [intros u v; lia|apply NoDup_seq]. }
  apply NoDup_app in H as (_ & _ & H). apply NoDup_app in H as (_ & H & _). apply (H (ch_image h)).
  - apply list_elem_of_In, in_concat. exists (images (lane_heads a)). split; apply list_elem_of_In.
    + apply list_elem_of_fmap. exists a. split; [done|]. by eapply list_elem_of_lookup_2.
    + apply list_elem_of_fmap. by exists h.
  - rewrite E. apply list_elem_of_fmap. by exists x.
Qed.

Lemma heads_of_set c lane l i h : h ∈ heads_of (set_lane c lane l) i ->
  (i = lane /\ h ∈ lane_heads l) \/ (i <> lane /\ h ∈ heads_of c i).
Proof.
  intros (l' & Hl & Hh)%heads_of_lookup. cbn [lanes_ set_lane] in Hl. destruct (decide (i = lane)) as [->|Hne].
  - left. destruct (lookup_lt_is_Some_2 (<[lane := l]> (lanes_ c)) lane) as [x Hx]; [by eapply lookup_lt_Some|].
    pose proof (lookup_lt_Some _ _ _ Hx) as Hlt. rewrite length_insert in Hlt. rewrite list_lookup_insert_eq in Hl by done.
    by injection Hl as <-.
  - right. rewrite list_lookup_insert_ne in Hl by done. split; [done|]. unfold heads_of, lane_of. by rewrite Hl.
Qed.

Lemma heads_of_set_eq c lane l : (lane < length (lanes_ c))%nat -> heads_of (set_lane c lane l) lane = lane_heads l.
Proof. intros Hl. unfold heads_of, lane_of. cbn [lanes_ set_lane]. by rewrite list_lookup_insert_eq. Qed.

Lemma heads_of_lanes c c' lane : lanes_ c' = lanes_ c -> heads_of c' lane = heads_of c lane.
Proof. unfold heads_of, lane_of. by intros ->. Qed.

Lemma has_head_at_false heads f h : has_head_at heads f = false -> h ∈ heads -> ch_frontier h <> f.
Proof.
  intros H Hin E. assert (has_head_at heads f = true); [|congruence]. apply existsb_exists. exists h.
  split; [by apply list_elem_of_In|by apply Z.eqb_eq].
Qed.

(** Freezing appends one head, at a frontier where there was none. *)
Lemma freeze_heads marks lane prefill enabled complete frontier size hash head s s' :
  (lane < length (lanes_ s))%nat -> freeze_head lane prefill enabled complete frontier size s = Some (head, s') ->
  let c := maybe_freeze_context_checkpoint marks lane prefill enabled complete frontier size hash s in
  let new := MkHead frontier hash Ladder (ch_image head) in
  new ∈ heads_of c lane /\ (forall i h, h ∈ heads_of c i -> (i = lane /\ h = new) \/ h ∈ heads_of s i) /\
  (forall h, h ∈ heads_of s lane -> ch_frontier h <> frontier).
Proof.
  intros Hl Hf c new. unfold c, maybe_freeze_context_checkpoint. rewrite Hf.
  assert (lanes_ s' = lanes_ s /\ has_head_at (heads_of s lane) frontier = false) as [El Hn].
  { unfold freeze_head in Hf. destruct (negb prefill); [done|].
    destruct (should_freeze_prefill_context_checkpoint _ _ _ _ _ _) eqn:Es; [|done]. cbn [negb] in Hf.
    destruct (size <? frontier); [done|]. split; [by eapply lanes_acquired|]. unfold should_freeze_prefill_context_checkpoint in Es.
    unfold heads_of. destruct (has_head_at (lane_heads (lane_of s lane)) frontier); [|done]. cbn in Es. repeat case_match; done. }
  split_and!.
  - rewrite heads_of_set_eq by (by rewrite El). cbn [lane_heads]. apply elem_of_app. right. by left.
  - intros i h [[-> Hh]|[_ Hh]]%heads_of_set; [|right; by rewrite (heads_of_lanes s) in Hh].
    cbn [lane_heads] in Hh. apply elem_of_app in Hh as [?|Hh]; [by right|left]. by apply list_elem_of_singleton in Hh.
  - intros h Hh. by eapply has_head_at_false.
Qed.

(** Pinning a rollback appends one head in place of the old rollback. *)
Lemma rollback_heads lane reuse base prompt enabled valid complete pin auto present size hash s image heads s' :
  (lane < length (lanes_ s))%nat ->
  rollback_head lane reuse base prompt enabled valid complete pin auto present size s = Some (image, heads, s') ->
  let c := maybe_capture_turn_rollback lane reuse base prompt enabled valid complete pin auto present size hash s in
  let new := MkHead base hash TurnRollback image in
  new ∈ heads_of c lane /\ (forall i h, h ∈ heads_of c i -> (i = lane /\ h = new) \/ h ∈ heads_of s i) /\
  (forall h, h ∈ heads_of s lane -> ch_frontier h <> base).
Proof.
  intros Hl Hf c new. unfold c, maybe_capture_turn_rollback. rewrite Hf.
  destruct (lookup_lt_is_Some_2 (lanes_ s) lane Hl) as [l Hlk].
  destruct (rollback_head_spec _ _ _ _ _ _ _ _ _ _ _ _ _ _ _ _ Hlk Hf) as [Hn Hcase].
  assert (heads_of s lane = lane_heads l) as Eh by (unfold heads_of; by rewrite (lane_of_Some s lane l)).
  assert (lanes_ s' = lanes_ s /\ forall h, h ∈ heads -> h ∈ heads_of s lane) as [El Hsub].
  { rewrite Eh. destruct Hcase as [(before & x & after & E & _ & _ & -> & ->)|(x & Ea & _ & -> & _)].
    - split; [done|]. rewrite E. intros h. rewrite !elem_of_app, elem_of_cons. tauto.
    - split; [by eapply lanes_acquired|done]. }
  split_and!.
  - rewrite heads_of_set_eq by (by rewrite El). cbn [lane_heads]. apply elem_of_app. right. by left.
  - intros i h [[-> Hh]|[_ Hh]]%heads_of_set; [|right; by rewrite (heads_of_lanes s) in Hh].
    cbn [lane_heads] in Hh. apply elem_of_app in Hh as [?|Hh]; [right; by apply Hsub|left]. by apply list_elem_of_singleton in Hh.
  - intros h Hh. rewrite Eh in Hh. by eapply has_head_at_false.
Qed.

(** ** The invariant *)
Section world.
Context (marks : list Z) (n : nat) (backend : SpeculativeBackend) (staged : bool).

(** Every head's image holds the state of the prefix the head names. *)
Definition heads_hold (c : Checkpoints) (v : loc -> option PrefixHash128) : Prop :=
  forall lane h p, h ∈ heads_of c lane -> p ∈ image_parts backend -> v (Img (ch_image h) p) = Some (ch_hash h).

Definition slot_holds (hash : PrefixHash128) (v : loc -> option PrefixHash128) : Prop :=
  v (Stg Gdn) = Some hash /\ v (Stg Hidden) = Some hash.

Definition rewrite_slot_holds (s : ContextCheckpointStaging) (lanes : nat -> CopyLane)
    (v : loc -> option PrefixHash128) : Prop :=
  s_rewrite_generation s = rewrite_image_generation (lanes (s_lane s)) ->
  forall p, p ∈ rewrite_parts backend -> v (Stg p) = v (Rew (s_lane s) p).

(** The head whose state the slot advertises has its host writes behind the slot. *)
Definition slot_staged (c : Checkpoints) (s : ContextCheckpointStaging) (d : Device) : Prop :=
  forall h, h ∈ heads_of c (s_lane s) -> ch_frontier h = s_frontier s -> ch_hash h = s_hash s -> ch_kind h = s_kind s ->
    image_staged d (ch_image h).

Record world_ok (w : World) : Prop := MkWorldOk {
  wo_cps : checkpoints_ok marks n (cps w);
  wo_device : disciplined (device w);
  wo_heads : heads_hold (cps w) (val (device w));
  wo_staged : s_occupied (staging_ w) = true -> slot_staged (cps w) (staging_ w) (device w);
  wo_slot : s_occupied (staging_ w) = true -> slot_holds (s_hash (staging_ w)) (val (device w));
  wo_writes : s_rewrite (staging_ w) = true -> staging_writes_seen (device w);
  wo_rewrite : s_rewrite (staging_ w) = true -> rewrite_slot_holds (staging_ w) (copy_lanes w) (val (device w));
  wo_generation : s_rewrite (staging_ w) = true ->
    s_rewrite_generation (staging_ w) <= rewrite_image_generation (copy_lanes w (s_lane (staging_ w)));
}.

(** Dropping heads. *)
Lemma world_cps w c : world_ok w -> checkpoints_ok marks n c ->
  (forall lane h, h ∈ heads_of c lane -> h ∈ heads_of (cps w) lane) -> world_ok (set_cps w c).
Proof.
  intros [W1 W2 W3 W4 W5 W6 W7 W8] Hc Hsub. split; try done.
  - intros lane h p Hh. apply (W3 lane). by apply Hsub.
  - intros Ho h Hh. apply (W4 Ho). by apply Hsub.
Qed.

Lemma world_unstage w : world_ok w -> world_ok (set_staging w unoccupied).
Proof. intros [W1 W2 W3 W4 W5 W6 W7 W8]. by split. Qed.

(** Copies that write no slot and no image. *)
Lemma world_reads w cs : world_ok w ->
  (let d' := run cs (device w) in
   disciplined d' /\ keeps_staged nothing (device w) d' /\ (staging_writes_seen (device w) -> staging_writes_seen d')) ->
  (forall l, (l, true) ∈ touched cs -> tracked l = false) -> world_ok (enqueue cs w).
Proof.
  intros [W1 W2 W3 W4 W5 W6 W7 W8] (D & K & S) Hn.
  assert (forall l, tracked l = true -> val (run cs (device w)) l = val (device w) l) as Hv.
  { intros l Hl. apply run_keeps. intros Ht%Hn. congruence. }
  split; cbn [enqueue cps staging_ copy_lanes device]; try done; auto.
  - intros lane h p Hh Hp. rewrite Hv by done. by apply (W3 lane).
  - intros Ho h Hh E1 E2 E3. apply (K _ id). by apply W4.
  - intros Ho. destruct (W5 Ho). split; by rewrite Hv.
  - intros Hr Hg p Hp. rewrite !Hv by done. by apply W7.
Qed.

(** Copies into a lane's rewrite image, which gets a new generation. *)
Lemma world_rewritten w lane cs : world_ok w -> u64 (rewrite_image_generation (copy_lanes w lane) + 1) ->
  (let d' := run cs (device w) in
   disciplined d' /\ keeps_staged nothing (device w) d' /\ (staging_writes_seen (device w) -> staging_writes_seen d')) ->
  (forall l, (l, true) ∈ touched cs -> exists p, l = Rew lane p) -> world_ok (enqueue cs (bump_generation lane w)).
Proof.
  intros [W1 W2 W3 W4 W5 W6 W7 W8] Hg (D & K & S) Hn.
  assert (forall l, (forall p, l <> Rew lane p) -> val (run cs (device w)) l = val (device w) l) as Hv.
  { intros l Hl. apply run_keeps. intros Ht%Hn. destruct Ht as [p Ht]. by destruct (Hl p). }
  split; cbn [enqueue bump_generation set_copy_lane cps staging_ copy_lanes device]; try done; auto.
  - intros i h p Hh Hp. rewrite Hv by done. by apply (W3 i).
  - intros Ho h Hh E1 E2 E3. apply (K _ id). by apply W4.
  - intros Ho. destruct (W5 Ho). split; by rewrite Hv.
  - intros Hr. specialize (W8 Hr). specialize (W7 Hr). unfold rewrite_slot_holds in *.
    case_decide as El; cbn [rewrite_image_generation].
    + rewrite <- El in Hg. rewrite <- El, wrap64_id by done. lia.
    + intros Hg' p Hp. rewrite !Hv; [by apply W7|congruence|done].
  - intros Hr. specialize (W8 Hr). case_decide as El; [|done]. cbn [rewrite_image_generation].
    rewrite <- El in Hg |- *. rewrite wrap64_id by done. lia.
Qed.

(** The command that writes the staging hidden of the prefix [hash]. *)
Definition hidden_of (lane : nat) (hash : PrefixHash128) (v : loc -> option PrefixHash128) (hidden : cmd) : Prop :=
  hidden = CWrite Compute (Stg Hidden) (Some hash) \/
  (hidden = CCopy Compute (Stg Hidden) (Cur lane Hidden) /\ v (Cur lane Hidden) = Some hash).

(** The lane's current state, as far as a capture reads it, is that of the prefix. *)
Definition current_is (lane : nat) (hash : PrefixHash128) (v : loc -> option PrefixHash128) : Prop :=
  forall p, p ∈ rewrite_parts backend -> v (Cur lane p) = Some hash.

Lemma capture_values lane image hash hidden d :
  current_is lane hash (val d) -> hidden_of lane hash (val d) hidden ->
  let v := val (run (capture_cmds backend lane image hidden) d) in
  slot_holds hash v /\ (forall p, p ∈ image_parts backend -> v (Img image p) = Some hash) /\
  (forall j p, j <> image -> v (Img j p) = val d (Img j p)).
Proof.
  intros Hc Hh v. unfold current_is in Hc.
  assert (forall j p, j <> image -> v (Img j p) = val d (Img j p)) as Ho.
  { intros j p Hj. apply run_keeps. unfold capture_cmds, snapshot_dflash_cyclic_to_staging, pack_dflash_cyclic_to_head, when_dflash.
    intros Hin. destruct Hh as [->|[-> _]], (dflash backend); on_touches Hin; done. }
  assert (val d (Cur lane Gdn) = Some hash) as Hg by (apply Hc; unfold rewrite_parts; destruct (dflash backend); by left).
  unfold slot_holds, v, capture_cmds, snapshot_dflash_cyclic_to_staging, pack_dflash_cyclic_to_head, when_dflash, image_parts in *.
  split_and!; [| | |done].
  - destruct Hh as [->|[-> Hh]], (dflash backend); eval_copies; done.
  - destruct Hh as [->|[-> Hh]], (dflash backend); eval_copies; done.
  - assert (dflash backend = true -> val d (Cur lane Cyclic) = Some hash) as Hcy.
    { intros E. apply Hc. unfold rewrite_parts. rewrite E. right. by left. }
    intros p Hp. destruct (dflash backend) eqn:E; cbn [app] in Hp;
      repeat (apply elem_of_cons in Hp as [->|Hp]); try (by apply elem_of_nil in Hp);
      (destruct Hh as [->|[-> Hh]]; eval_copies; auto).
Qed.

Lemma hidden_touches lane hash v hidden : hidden_of lane hash v hidden ->
  on_stream Compute hidden /\
  forall l w, (l, w) ∈ touches hidden -> (exists lane p, l = Cur lane p) \/ (exists p, l = Stg p).
Proof. intros [->|[-> _]]; (split; [done|]); intros l w Hin; cbn in Hin; on_touches Hin; eauto. Qed.

Lemma world_captured w c lane new hidden : world_ok w -> checkpoints_ok marks n c ->
  new ∈ heads_of c lane -> (forall i h, h ∈ heads_of c i -> (i = lane /\ h = new) \/ h ∈ heads_of (cps w) i) ->
  current_is lane (ch_hash new) (val (device w)) -> hidden_of lane (ch_hash new) (val (device w)) hidden ->
  let d' := run (capture_cmds backend lane (ch_image new) hidden) (device w) in
  world_ok (MkWorld c unoccupied (copy_lanes w) d') /\ staging_accesses_recorded d' /\
  slot_holds (ch_hash new) (val d') /\ image_staged d' (ch_image new).
Proof.
  intros [W1 W2 W3 W4 W5 W6 W7 W8] Hc Hnew Hsub Hcur Hh d'. destruct (hidden_touches _ _ _ _ Hh) as [Hs Ht].
  destruct (capture_cmds_ok backend lane (ch_image new) hidden _ W2 Hs Ht) as (D & K & _ & R & I).
  destruct (capture_values lane (ch_image new) _ _ _ Hcur Hh) as (V1 & V2 & V3). fold d' in D, K, R, I, V1, V2, V3.
  split_and!; [|done|done..]. split; try done. intros i h p Hin Hp. cbn [device].
  destruct (Hsub i h Hin) as [[-> ->]|Hold]; [by apply V2|].
  destruct (decide (ch_image h = ch_image new)) as [E|Hne].
  - destruct (image_owner n c [] i lane h new (cp_conserved _ _ _ Hc) Hin Hnew E) as [-> ->]. by apply V2.
  - rewrite V3 by done. by apply (W3 i).
Qed.

(** Advertising the slot. *)
Lemma world_stage w lane frontier hash kind g : world_ok w -> slot_holds hash (val (device w)) ->
  slot_staged (cps w) (MkStaging true lane frontier hash kind false g) (device w) ->
  world_ok (set_staging w (MkStaging true lane frontier hash kind false g)).
Proof. intros [W1 W2 W3 W4 W5 W6 W7 W8] Hv Hs. by split. Qed.

Lemma world_reload w lane hash frontier : world_ok w -> staging_ w = unoccupied -> staging_accesses_recorded (device w) ->
  world_ok (reload_turn_rollback_into_staging staged lane hash frontier w).
Proof.
  intros Hw Hu Hrec. unfold reload_turn_rollback_into_staging.
  destruct (negb _ || negb staged); [by apply world_unstage|].
  destruct (find_head _ _) as [h|] eqn:Ef; [|by apply world_unstage].
  unfold find_head in Ef. apply head_Some_elem_of, list_elem_of_filter in Ef as [Ep Hin].
  apply andb_true_iff in Ep as [Ep Eh]. apply andb_true_iff in Ep as [Ek Ef].
  apply bool_decide_eq_true_1 in Eh, Ek. apply Z.eqb_eq in Ef. fold (heads_of (cps w) lane) in Hin.
  destruct Hw as [W1 W2 W3 W4 W5 W6 W7 W8].
  destruct (reload_ok (ch_image h) (device w) W2 Hrec) as (D & K & I). fold (reload_cmds (ch_image h)).
  assert (forall p, p = Gdn \/ p = Hidden -> val (device w) (Img (ch_image h) p) = Some hash) as Hv.
  { intros p Hp. rewrite <- Eh. apply (W3 lane); [done|]. unfold image_parts. destruct Hp as [-> | ->]; [by left|right; by left]. }
  apply world_stage.
  - split; cbn [enqueue cps staging_ copy_lanes device]; try done; try (by rewrite Hu).
  - cbn [enqueue device]. unfold reload_cmds. split; eval_copies; auto.
  - intros x Hx Ex1 Ex2 Ex3. cbn in Hx, Ex1, Ex2, Ex3 |- *.
    assert (x = h) as ->; [|done]. apply heads_of_lookup in Hin as (l & Hl & Hin). apply heads_of_lookup in Hx as (l' & Hl' & Hx).
    rewrite Hl in Hl'. injection Hl' as <-. pose proof (cp_lanes _ _ _ W1) as Hf. rewrite Forall_lookup in Hf.
    pose proof (hk_pins _ _ (lo_heads _ _ (Hf lane l Hl))) as Hp.
    assert (x ∈ pins (lane_heads l) /\ h ∈ pins (lane_heads l)) as [Px Ph].
    { split; apply list_elem_of_filter; (split; [|done]); congruence. }
    destruct (pins (lane_heads l)) as [|y [|]]; cbn in Hp; [by apply elem_of_nil in Px| |lia].
    apply list_elem_of_singleton in Px, Ph. congruence.
Qed.

(** ** The calls *)
Context (Hmarks : marks_ok marks).

(** The captured head is the one the slot advertises. *)
Lemma captured_staged c s lane new d : new ∈ heads_of c lane ->
  (forall i h, h ∈ heads_of c i -> (i = lane /\ h = new) \/ h ∈ heads_of s i) ->
  (forall h, h ∈ heads_of s lane -> ch_frontier h <> ch_frontier new) -> image_staged d (ch_image new) ->
  slot_staged c (MkStaging true lane (ch_frontier new) (ch_hash new) (ch_kind new) false 0) d.
Proof.
  intros Hnew Hsub Hno Hi h Hh E _ _. cbn in Hh, E. destruct (Hsub lane h Hh) as [[_ ->]|Hold]; [done|].
  by destruct (Hno h Hold).
Qed.

Lemma world_freeze w lane prefill enabled complete frontier size hash follows : world_ok w ->
  (lane < length (lanes_ (cps w)))%nat -> current_is lane hash (val (device w)) ->
  world_ok (freeze_staged marks backend staged lane prefill enabled complete frontier size hash follows w).
Proof.
  intros Hw Hl Hcur. unfold freeze_staged.
  destruct (freeze_head _ _ _ _ _ _ (cps w)) as [[head s']|] eqn:Ef; [|done].
  destruct (lookup_lt_is_Some_2 _ _ Hl) as [l Hlk].
  pose proof (freeze_ok marks Hmarks n (cps w) lane l prefill (enabled && staged) complete frontier size hash Hlk (wo_cps _ Hw)) as Hc.
  destruct (freeze_heads marks _ _ _ _ _ _ hash _ _ _ Hl Ef) as (Hnew & Hsub & Hno).
  set (c := maybe_freeze_context_checkpoint marks lane prefill (enabled && staged) complete frontier size hash (cps w)) in *.
  set (new := MkHead frontier hash Ladder (ch_image head)) in *.
  destruct (world_captured w c lane new (CWrite Compute (Stg Hidden) (Some hash)) Hw Hc Hnew Hsub Hcur) as (Hw1 & R & V & I);
    [by left|]. cbv zeta.
  destruct (negb follows && _ && _); [by apply world_reload|].
  eapply (world_stage (MkWorld c unoccupied (copy_lanes w) _) lane frontier hash Ladder 0 Hw1 V).
  by eapply (captured_staged c (cps w) lane new).
Qed.

Lemma world_rollback w lane reuse base prompt enabled valid complete pin auto present size hash : world_ok w ->
  (lane < length (lanes_ (cps w)))%nat -> current_is lane hash (val (device w)) ->
  val (device w) (Cur lane Hidden) = Some hash ->
  world_ok (rollback_staged backend staged lane reuse base prompt enabled valid complete pin auto present size hash w).
Proof.
  intros Hw Hl Hcur Hh. unfold rollback_staged.
  destruct (rollback_head _ _ _ _ _ _ _ _ _ _ _ (cps w)) as [[[image heads] s']|] eqn:Ef; [|done].
  destruct (lookup_lt_is_Some_2 _ _ Hl) as [l Hlk].
  pose proof (rollback_ok marks n (cps w) lane l reuse base prompt (enabled && staged) valid complete pin auto present size hash
    Hlk (wo_cps _ Hw)) as Hc.
  destruct (rollback_heads _ _ _ _ _ _ _ _ _ _ _ hash _ _ _ _ Hl Ef) as (Hnew & Hsub & Hno).
  set (c := maybe_capture_turn_rollback _ _ _ _ _ _ _ _ _ _ _ _ _) in *.
  set (new := MkHead base hash TurnRollback image) in *.
  destruct (world_captured w c lane new (CCopy Compute (Stg Hidden) (Cur lane Hidden)) Hw Hc Hnew Hsub Hcur) as (Hw1 & R & V & I);
    [by right|].
  eapply (world_stage (MkWorld c unoccupied (copy_lanes w) _) lane base hash TurnRollback 0 Hw1 V).
  by eapply (captured_staged c (cps w) lane new).
Qed.

Lemma world_bump w lane : world_ok w -> u64 (rewrite_image_generation (copy_lanes w lane) + 1) ->
  world_ok (bump_generation lane w).
Proof.
  intros Hw Hg. pose proof (world_rewritten w lane [] Hw Hg) as H. apply H.
  - split_and!; [apply Hw|by intros i _|done].
  - by intros l ?%elem_of_nil.
Qed.

Lemma world_capture_rewrite w lane : world_ok w -> u64 (rewrite_image_generation (copy_lanes w lane) + 1) ->
  world_ok (snd (capture_rewrite_image backend staged lane w)).
Proof.
  intros Hw Hg. pose proof (world_bump w lane Hw Hg) as Hb. unfold capture_rewrite_image. destruct staged; cbn [negb snd].
  - destruct Hb as [W1 W2 W3 W4 W5 W6 W7 W8]. set (b := bump_generation lane w) in *.
    fold (rewrite_capture_cmds backend lane). destruct (rewrite_capture_ok backend lane (device b) W2) as (D & K & S).
    split; cbn [set_staging enqueue cps staging_ copy_lanes device s_occupied s_rewrite s_lane s_rewrite_generation]; try done.
    + intros i h p Hh Hp. rewrite run_keeps; [by apply (W3 i)|]. intros Ht.
      unfold rewrite_capture_cmds, when_dflash in Ht. destruct (dflash backend); on_touches Ht.
    + intros _ _ p Hp. cbn [s_lane]. unfold rewrite_capture_cmds, when_dflash, rewrite_parts in *.
      destruct (dflash backend); cbn [app] in Hp;
        repeat (apply elem_of_cons in Hp as [->|Hp]; [eval_copies; done|]); by apply elem_of_nil in Hp.
  - destruct (dflash backend) eqn:Ed; cbn [snd]; [done|]. apply world_rewritten; [done|done| |].
    + apply (rewrite_image_ok lane [CCopy Compute (Rew lane Gdn) (Cur lane Gdn)]); [apply Hw|repeat constructor|].
      intros l w' Hin. on_touches Hin; eauto.
    + intros l Hin. on_touches Hin. eauto.
Qed.

Lemma world_restore_rewrite w lane : world_ok w -> world_ok (restore_rewrite_checkpoint_state backend lane w).
Proof.
  intros Hw. unfold restore_rewrite_checkpoint_state. destruct (_ && _ && _) eqn:E.
  - apply andb_true_iff in E as [E _]. apply andb_true_iff in E as [E _]. apply world_reads; [done| |].
    + destruct (rewrite_slot_ok backend lane (device w)) as (D & K & S); [apply Hw|by apply Hw|]. by split_and!.
    + unfold when_dflash. destruct (dflash backend); intros l Hin; on_touches Hin; done.
  - set (cs := CCopy Compute (Cur lane Gdn) (Rew lane Gdn) :: when_dflash backend [CCopy Compute (Cur lane Cyclic) (Rew lane Cyclic)]).
    apply (world_reads w (phase Compute [RewFence lane] cs [RewFence lane])); [done| |].
    + apply rewrite_image_ok; [apply Hw| |]; unfold cs, when_dflash.
      * destruct (dflash backend); repeat constructor.
      * destruct (dflash backend); intros l w' Hin; on_touches Hin; eauto.
    + unfold cs, when_dflash. destruct (dflash backend); intros l Hin; on_touches Hin; done.
Qed.

(** The head a restore finds, and the slot when it may stand in for it. *)
Lemma restore_slot_head w lane h base : world_ok w -> h ∈ heads_of (cps w) lane -> ch_frontier h = base ->
  restore_may_d2d_staging (staging_holds (staging_ w) lane (ch_hash h) base) true
    && bool_decide (s_kind (staging_ w) = ch_kind h) && staged = true ->
  image_staged (device w) (ch_image h) /\ slot_holds (ch_hash h) (val (device w)).
Proof.
  intros Hw Hh Hb E. apply andb_true_iff in E as [E _]. apply andb_true_iff in E as [E Ek]. apply bool_decide_eq_true_1 in Ek.
  unfold restore_may_d2d_staging, staging_holds, staging_holds_restore_identity in E. rewrite andb_true_r in E.
  repeat (apply andb_true_iff in E as [E ?]).
  assert (s_lane (staging_ w) = lane /\ s_hash (staging_ w) = ch_hash h /\ s_frontier (staging_ w) = base) as (E1 & E2 & E3).
  { repeat match goal with H : (_ =? _) = true |- _ => apply Z.eqb_eq in H | H : bool_decide _ = true |- _ => apply bool_decide_eq_true_1 in H end.
    split_and!; [lia|done|lia]. }
  split; [|rewrite <- E2; by apply Hw]. apply (wo_staged _ Hw); [done|by rewrite E1|congruence..].
Qed.

Lemma find_head_Some heads p h : find_head heads p = Some h -> h ∈ heads /\ p h = true.
Proof. unfold find_head. intros H%head_Some_elem_of. by apply list_elem_of_filter in H as [? ?]. Qed.

Lemma world_restore_context w lane base : world_ok w -> world_ok (snd (restore_context_checkpoint_state backend staged lane base w)).
Proof.
  intros Hw. unfold restore_context_checkpoint_state. destruct (_ && match find_head _ _ with _ => _ end); [done|].
  destruct (find_head _ _) as [h|] eqn:Ef; [|done]. apply find_head_Some in Ef as [Hh Eb]. apply Z.eqb_eq in Eb.
  destruct (_ && _ && staged) eqn:E; cbn [snd].
  - destruct (restore_slot_head w lane h base Hw Hh Eb E) as [Hi _].
    apply (world_reads w (restore_slot_cmds backend lane (ch_image h))); [done|by apply restore_slot_ok; [apply Hw|]|].
    unfold restore_slot_cmds, restore_dflash_cyclic_from_head, when_dflash.
    destruct (dflash backend); intros l Hin; on_touches Hin; done.
  - apply (world_reads w (restore_image_cmds backend lane (ch_image h))); [done|by apply restore_image_ok; apply Hw|].
    unfold restore_image_cmds, restore_dflash_cyclic_from_head, when_dflash.
    destruct (dflash backend); intros l Hin; on_touches Hin; done.
Qed.

(** Accesses of the copies of several images. *)
Lemma touched_images (mk : loc -> cmd) (w : bool) (parts : list part) (heads : list ContextCheckpointHead) l w' :
  (forall l, touches (mk l) = [(l, w)]) ->
  (l, w') ∈ touched (concat ((fun h => (fun p => mk (Img (ch_image h) p)) <$> parts) <$> heads)) ->
  w' = w /\ exists h p, h ∈ heads /\ p ∈ parts /\ l = Img (ch_image h) p.
Proof.
  intros Hm Hin. unfold touched in Hin. apply list_elem_of_In, in_concat in Hin as (t & Ht & Hin). apply list_elem_of_In in Ht, Hin.
  apply list_elem_of_fmap in Ht as (c & -> & Hc). apply list_elem_of_In, in_concat in Hc as (cs & Hcs & Hc).
  apply list_elem_of_In in Hcs, Hc. apply list_elem_of_fmap in Hcs as (h & -> & Hh).
  apply list_elem_of_fmap in Hc as (p & -> & Hp). rewrite Hm in Hin. apply list_elem_of_singleton in Hin as [= -> ->].
  split; [done|]. by exists h, p.
Qed.

Lemma touched_rewrite (mk : loc -> cmd) (w : bool) lane (parts : list part) l w' :
  (forall l, touches (mk l) = [(l, w)]) -> (l, w') ∈ touched ((fun p => mk (Rew lane p)) <$> parts) ->
  w' = w /\ exists p, l = Rew lane p.
Proof.
  intros Hm Hin. unfold touched in Hin. apply list_elem_of_In, in_concat in Hin as (t & Ht & Hin). apply list_elem_of_In in Ht, Hin.
  apply list_elem_of_fmap in Ht as (c & -> & Hc). apply list_elem_of_fmap in Hc as (p & -> & Hp). rewrite Hm in Hin.
  apply list_elem_of_singleton in Hin as [= -> ->]. split; [done|]. by exists p.
Qed.

Lemma Forall_images (mk : loc -> cmd) P (parts : list part) (heads : list ContextCheckpointHead) : (forall l, P (mk l)) ->
  Forall P (concat ((fun h => (fun p => mk (Img (ch_image h) p)) <$> parts) <$> heads)).
Proof.
  intros HP. induction heads as [|h heads IH]; [constructor|]. rewrite fmap_cons. cbn [concat]. apply Forall_app.
  split; [|done]. apply Forall_fmap, Forall_true. intros p. apply HP.
Qed.

Lemma touched_app a b : touched (a ++ b) = touched a ++ touched b.
Proof. unfold touched. by rewrite fmap_app, concat_app. Qed.

Lemma touched_waits s fs : touched (CWait s <$> fs) = [].
Proof. by induction fs. Qed.

Lemma touched_records s fs : touched ((fun e => CRecord e s) <$> fs) = [].
Proof. by induction fs. Qed.

Lemma touched_fenced cs fs : touched (enqueue_fenced cs fs) = touched cs.
Proof. unfold enqueue_fenced. rewrite !touched_app, touched_waits, touched_records. by rewrite app_nil_r. Qed.

Lemma touched_host_run cs fs s : touched (host_run cs fs s) = touched cs.
Proof.
  unfold host_run. case_bool_decide as E; [by rewrite E|]. rewrite touched_app, touched_fenced. apply app_nil_r.
Qed.

Lemma touched_detached cs fs : touched (run_detached cs fs) = touched cs.
Proof. unfold run_detached. case_bool_decide as E; [by rewrite E|]. apply touched_fenced. Qed.

Lemma world_ram_capture w lane valid heads : world_ok w -> world_ok (ram_capture_images backend lane valid heads w).
Proof.
  intros Hw. unfold ram_capture_images.
  set (rewrite := if valid then _ else _). set (ladder := concat _).
  set (fs := (if valid then [RewFence lane] else []) ++ _).
  assert (forall l b, (l, b) ∈ touched (rewrite ++ ladder) -> b = false /\ exists e, fence_of l = Some e /\ e ∈ fs) as Ht.
  { intros l b Hin. rewrite touched_app, elem_of_app in Hin. destruct Hin as [Hin|Hin].
    - unfold rewrite in Hin. destruct valid; [|by apply elem_of_nil in Hin].
      apply (touched_rewrite (CRead HostS) false) in Hin as [-> [p ->]]; [|done]. split; [done|]. exists (RewFence lane).
      split; [done|]. apply elem_of_app. left. by left.
    - apply (touched_images (CRead HostS) false) in Hin as [-> (h & p & Hh & _ & ->)]; [|done]. split; [done|].
      exists (HeadFence (ch_image h)). split; [done|]. apply elem_of_app. right. apply list_elem_of_fmap. by exists h. }
  assert (forall e, e ∈ fs -> exists l, fence_of l = Some e) as Hfs.
  { intros e [He|He]%elem_of_app.
    - destruct valid; [|by apply elem_of_nil in He]. apply list_elem_of_singleton in He as ->. by exists (Rew lane Gdn).
    - apply list_elem_of_fmap in He as (h & -> & _). by exists (Img (ch_image h) Gdn). }
  apply world_reads; [done| |].
  - apply host_run_ok; [apply Hw| | | | |].
    + apply Forall_app. split; [|by apply Forall_images]. unfold rewrite. destruct valid; [|constructor]. by apply Forall_fmap, Forall_forall.
    + intros l b Hin. by apply (Ht l b).
    + intros i p Hin. by destruct (Ht _ _ Hin).
    + intros H. destruct (Hfs _ H) as [l Hl]. by destruct l.
    + intros H. destruct (Hfs _ H) as [l Hl]. by destruct l.
  - intros l Hin. rewrite touched_host_run in Hin. by destruct (Ht _ _ Hin).
Qed.

Lemma world_ram_restore_rewrite w lane hash : world_ok w -> u64 (rewrite_image_generation (copy_lanes w lane) + 1) ->
  world_ok (ram_restore_rewrite backend lane hash w).
Proof.
  intros Hw Hg. unfold ram_restore_rewrite. set (cs := (fun p => CWrite HostS (Rew lane p) (Some hash)) <$> rewrite_parts backend).
  assert (forall l b, (l, b) ∈ touched cs -> exists p, l = Rew lane p) as Ht.
  { intros l b Hin. by apply (touched_rewrite (fun l => CWrite HostS l (Some hash)) true) in Hin as [_ ?]. }
  apply world_rewritten; [done|done| |].
  - apply host_run_ok; [apply Hw|by apply Forall_fmap, Forall_forall| | | |].
    + intros l b Hin. destruct (Ht l b Hin) as [p ->]. exists (RewFence lane). split; [done|by left].
    + intros i p Hin. by destruct (Ht _ _ Hin).
    + by intros ?%list_elem_of_singleton.
    + by intros ?%list_elem_of_singleton.
  - intros l Hin. rewrite touched_host_run in Hin. by eapply Ht.
Qed.

(** Values of the images of installed heads. *)
Lemma image_writes i v parts p : p ∈ parts -> forall d,
  val (run ((fun p => CWrite HostS (Img i p) v) <$> parts) d) (Img i p) = v.
Proof.
  induction parts as [|q parts IH]; [by intros ?%elem_of_nil|]. intros Hp d. rewrite fmap_cons. cbn [run foldl].
  fold (run ((fun p => CWrite HostS (Img i p) v) <$> parts) (exec d (CWrite HostS (Img i q) v))).
  destruct (decide (p ∈ parts)) as [Hin|Hout]; [by apply IH|]. apply elem_of_cons in Hp as [<-|?]; [|done].
  rewrite run_keeps.
  - cbn [exec val set_val]. by rewrite decide_True.
  - unfold touched. rewrite <- list_fmap_compose. intros Hin. apply list_elem_of_In, in_concat in Hin as (t & Ht & Hin).
    apply list_elem_of_In in Ht, Hin. apply list_elem_of_fmap in Ht as (r & -> & Hr). cbn in Hin.
    apply list_elem_of_singleton in Hin as [= ->]. done.
Qed.

Definition install_copies (heads : list ContextCheckpointHead) : list cmd :=
  concat ((fun h => (fun p => CWrite HostS (Img (ch_image h) p) (Some (ch_hash h))) <$> image_parts backend) <$> heads).

Lemma install_touches heads l b : (l, b) ∈ touched (install_copies heads) ->
  b = true /\ exists h p, h ∈ heads /\ l = Img (ch_image h) p.
Proof.
  intros Hin. unfold touched in Hin. apply list_elem_of_In, in_concat in Hin as (t & Ht & Hin). apply list_elem_of_In in Ht, Hin.
  apply list_elem_of_fmap in Ht as (c & -> & Hc). apply list_elem_of_In, in_concat in Hc as (cs & Hcs & Hc).
  apply list_elem_of_In in Hcs, Hc. apply list_elem_of_fmap in Hcs as (h & -> & Hh).
  apply list_elem_of_fmap in Hc as (p & -> & Hp). cbn in Hin. apply list_elem_of_singleton in Hin as [= -> ->].
  split; [done|]. by exists h, p.
Qed.

Lemma install_values heads h p : NoDup (images heads) -> h ∈ heads -> p ∈ image_parts backend -> forall d,
  val (run (install_copies heads) d) (Img (ch_image h) p) = Some (ch_hash h).
Proof.
  induction heads as [|x heads IH]; intros Hd Hh Hp d; [by apply elem_of_nil in Hh|].
  unfold images in Hd. rewrite fmap_cons in Hd. apply NoDup_cons in Hd as [Hx Hd].
  unfold install_copies. rewrite fmap_cons. cbn [concat]. rewrite run_app. fold (install_copies heads).
  apply elem_of_cons in Hh as [<-|Hh]; [|by apply IH]. rewrite run_keeps; [by apply image_writes|].
  intros Hin. apply install_touches in Hin as [_ (y & q & Hy & [= E])]. apply Hx. rewrite E. apply list_elem_of_fmap. by exists y.
Qed.

Lemma detached_values heads h p fs d : NoDup (images heads) -> h ∈ heads -> p ∈ image_parts backend ->
  val (run (run_detached (install_copies heads) fs) d) (Img (ch_image h) p) = Some (ch_hash h).
Proof.
  intros Hd Hh Hp. unfold run_detached. case_bool_decide as E.
  - pose proof (install_values heads h p Hd Hh Hp d) as H. by rewrite E in H.
  - unfold enqueue_fenced. rewrite !run_app, run_keeps by (rewrite touched_records; apply not_elem_of_nil).
    by apply install_values.
Qed.

(** The lane gets the installed heads, cut at the base; the others keep theirs. *)
Lemma restore_heads_of layout base imgs s lane i h : (lane < length (lanes_ s))%nat ->
  h ∈ heads_of (restore_heads marks lane layout base imgs true s) i ->
  lanes_ (snd (install_loop layout base imgs [] s)) = lanes_ s ->
  (i = lane /\ h ∈ fst (install_loop layout base imgs [] s)) \/ (i <> lane /\ h ∈ heads_of s i).
Proof.
  intros Hl Hh El. unfold restore_heads, install_ram_context_checkpoints in Hh.
  destruct (install_loop layout base imgs [] s) as [heads s1]. cbn [fst snd negb] in *.
  unfold drop_context_checkpoints_after in Hh. apply heads_of_set in Hh as [[-> Hh]|[Hne Hh]].
  - left. split; [done|]. cbn [lane_heads] in Hh. apply list_elem_of_filter in Hh as [_ Hh].
    fold (heads_of (set_lane (clear_context_checkpoints marks lane s1) lane
      (MkLane heads (next_context_mark (lane_of (clear_context_checkpoints marks lane s1) lane)))) lane) in Hh.
    rewrite heads_of_set_eq in Hh; [done|]. cbn. by rewrite length_insert, El.
  - right. split; [done|]. rewrite (heads_of_lanes (set_lane (clear_context_checkpoints marks lane s1) lane
      (MkLane heads (next_context_mark (lane_of (clear_context_checkpoints marks lane s1) lane))))) in Hh by done.
    apply heads_of_set in Hh as [[? _]|[_ Hh]]; [done|]. unfold clear_context_checkpoints in Hh.
    apply heads_of_set in Hh as [[? _]|[_ Hh]]; [done|]. by rewrite (heads_of_lanes s) in Hh.
Qed.

(** [install_ram_context_checkpoints], then the trim to the restored base by the
    request that takes the lane. *)
Definition restore_staged (lane : nat) (layout : list Z) (base : Z) (imgs : list InstallImage) (w : World) : World :=
  let w := install_staged marks backend lane layout base imgs w in
  set_cps w (drop_context_checkpoints_after marks lane base (cps w)).

Definition staging_of (w : World) (lane : nat) : Prop := s_occupied (staging_ w) = true /\ s_lane (staging_ w) = lane.

Lemma restore_staged_eq lane layout base imgs w :
  let heads := fst (install_loop layout base imgs [] (cps w)) in
  restore_staged lane layout base imgs w =
  set_cps (enqueue (run_detached (install_copies heads) ((fun h => HeadFence (ch_image h)) <$> heads)) w)
    (restore_heads marks lane layout base imgs true (cps w)).
Proof.
  unfold restore_staged, install_staged, restore_heads, install_ram_context_checkpoints, install_copies. cbv zeta.
  by destruct (install_loop layout base imgs [] (cps w)).
Qed.

(** The copies of an install, on the device. *)
Lemma install_device heads d : disciplined d ->
  let d' := run (run_detached (install_copies heads) ((fun h => HeadFence (ch_image h)) <$> heads)) d in
  disciplined d' /\ keeps_staged (fun i => i ∈ images heads) d d' /\ (staging_writes_seen d -> staging_writes_seen d') /\
  (forall l, (forall h p, h ∈ heads -> l <> Img (ch_image h) p) -> val d' l = val d l).
Proof.
  intros Hd. set (fs := (fun h => HeadFence (ch_image h)) <$> heads).
  destruct (run_detached_ok (install_copies heads) fs (fun i => i ∈ images heads) d Hd) as (D & K & S).
  - clear. induction heads as [|h heads IH]; [constructor|]. unfold install_copies. rewrite fmap_cons. cbn [concat].
    apply Forall_app. split; [by apply Forall_fmap, Forall_forall|done].
  - intros l b Hin. apply install_touches in Hin as [-> (h & p & Hh & ->)]. split; [done|]. exists (HeadFence (ch_image h)).
    split; [done|]. apply list_elem_of_fmap. by exists h.
  - intros i p b Hin. apply install_touches in Hin as [_ (h & q & Hh & [= -> _])]. apply list_elem_of_fmap. by exists h.
  - intros (h & ? & _)%list_elem_of_fmap. done.
  - split_and!; [done|done|done|]. intros l H. apply run_keeps. rewrite touched_detached. intros Hin.
    apply install_touches in Hin as [_ (h & p & Hh & ->)]. by destruct (H h p).
Qed.

(** The installed heads: their images are theirs alone. *)
Lemma installed_images heads s s1 : conserved n s1 heads -> lanes_ s1 = lanes_ s ->
  NoDup (images heads) /\ forall i h, h ∈ heads_of s i -> ch_image h ∉ images heads.
Proof.
  intros Hcon El. split.
  - destruct Hcon as [_ Hp]. assert (NoDup (images (context_checkpoint_pool_ s1) ++ owned_images s1 ++ images heads)) as H.
    { rewrite Hp. apply NoDup_fmap_2; [intros x y; lia|apply NoDup_seq]. }
    apply NoDup_app in H as (_ & _ & H). by apply NoDup_app in H as (_ & _ & H).
  - intros i h Hh (x & E & Hx)%list_elem_of_fmap. eapply hand_owner; [exact Hcon| |exact Hx|exact E].
    by rewrite (heads_of_lanes s).
Qed.

Lemma world_restore w lane layout base imgs : world_ok w -> (lane < length (lanes_ (cps w)))%nat ->
  heads_ok marks (image_head <$> imgs) -> ~ staging_of w lane -> world_ok (restore_staged lane layout base imgs w).
Proof.
  intros Hw Hl Hi Hstg. rewrite restore_staged_eq. cbv zeta. destruct (lookup_lt_is_Some_2 _ _ Hl) as [l Hlk].
  pose proof (restore_ok marks Hmarks n (cps w) lane l layout base imgs true Hlk (wo_cps _ Hw) Hi) as Hc.
  pose proof (install_loop_spec n layout base imgs [] (cps w) (cp_conserved _ _ _ (wo_cps _ Hw))) as Hspec.
  pose proof (restore_heads_of layout base imgs (cps w) lane) as Hof.
  destruct (install_loop layout base imgs [] (cps w)) as [heads s1]. destruct Hspec as (Hcon & El & _). cbn [fst snd] in *.
  destruct (installed_images heads (cps w) s1 Hcon El) as [Hnd Hne].
  destruct Hw as [W1 W2 W3 W4 W5 W6 W7 W8]. destruct (install_device heads (device w) W2) as (D & K & S & V).
  split; cbn [set_cps enqueue cps staging_ copy_lanes device]; auto.
  - intros i h p Hh Hp. destruct (Hof i h Hl Hh El) as [[-> Hin]|[_ Hin]]; [by apply detached_values|].
    rewrite V; [by apply (W3 i)|]. intros x q Hx [= E _]. apply (Hne i h Hin). apply list_elem_of_fmap. by exists x.
  - intros Ho h Hh E1 E2 E3. destruct (Hof _ h Hl Hh El) as [[E _]|[_ Hin]]; [by destruct Hstg|].
    apply K; [by eapply Hne|]. by apply W4.
  - intros Ho. destruct (W5 Ho). split; by rewrite V.
  - intros Hr Hg p Hp. rewrite !V by done. by apply W7.
Qed.

Lemma world_drop w lane frontier : world_ok w -> (lane < length (lanes_ (cps w)))%nat ->
  world_ok (set_cps w (drop_context_checkpoints_after marks lane frontier (cps w))).
Proof.
  intros Hw Hl. destruct (lookup_lt_is_Some_2 _ _ Hl) as [l Hlk]. pose proof (wo_cps _ Hw) as [Hc Hf]. rewrite Forall_lookup in Hf.
  apply world_cps; [done| |].
  - eapply drop_ok; [done|done|done|apply (Hf lane l Hlk)|]. intros j k _ Hk. by apply (Hf j).
  - intros i h Hh. unfold drop_context_checkpoints_after in Hh. apply heads_of_set in Hh as [[-> Hh]|[_ Hh]].
    + cbn [lane_heads] in Hh. by apply list_elem_of_filter in Hh as [_ ?].
    + by rewrite (heads_of_lanes (cps w)) in Hh.
Qed.

Lemma world_clear_heads w lane : world_ok w -> (lane < length (lanes_ (cps w)))%nat ->
  world_ok (set_cps w (clear_context_checkpoints marks lane (cps w))).
Proof.
  intros Hw Hl. destruct (lookup_lt_is_Some_2 _ _ Hl) as [l Hlk]. apply world_cps; [done| |].
  - eapply clear_ok; [done|apply Hw].
  - intros i h Hh. unfold clear_context_checkpoints in Hh. apply heads_of_set in Hh as [[_ Hh]|[_ Hh]];
      [by apply elem_of_nil in Hh|]. by rewrite (heads_of_lanes (cps w)) in Hh.
Qed.

(** The tier-restore marker of a lane. *)
Lemma world_tier w lane base hash : world_ok w ->
  world_ok (set_copy_lane w lane (MkCopyLane (rewrite_image_generation (copy_lanes w lane)) base hash)).
Proof.
  intros [W1 W2 W3 W4 W5 W6 W7 W8]. split; cbn [set_copy_lane cps staging_ copy_lanes device]; auto.
  - intros Hr. specialize (W7 Hr). unfold rewrite_slot_holds in *. case_decide as E; [|done]. by rewrite <- E.
  - intros Hr. specialize (W8 Hr). case_decide as E; [|done]. by rewrite <- E.
Qed.

Lemma world_clear w lane : world_ok w -> (lane < length (lanes_ (cps w)))%nat -> world_ok (clear_lane_staged marks lane w).
Proof.
  intros Hw Hl. unfold clear_lane_staged. set (w1 := if _ && _ then _ else _).
  assert (world_ok w1 /\ cps w1 = cps w) as [H1 Ec] by (unfold w1; destruct (_ && _); split; auto; by apply world_unstage).
  pose proof (world_tier w1 lane 0 (MkHash 0 0) H1) as H2. apply (world_clear_heads _ lane H2). cbn. by rewrite Ec.
Qed.

(** ** Reachable worlds

    Any interleaving of the calls over any lanes.  A capture is called with the
    current state of the prefix it names; a tier restore fills an emptied lane from an
    entry captured under the same marks; generations do not wrap. *)
Inductive cw_step (w : World) : World -> Prop :=
| cw_compute lane p v : cw_step w (enqueue [CWrite Compute (Cur lane p) v] w)
| cw_freeze lane prefill enabled complete frontier size hash follows :
    (lane < length (lanes_ (cps w)))%nat -> current_is lane hash (val (device w)) ->
    cw_step w (freeze_staged marks backend staged lane prefill enabled complete frontier size hash follows w)
| cw_rollback lane reuse base prompt enabled valid complete pin auto present size hash :
    (lane < length (lanes_ (cps w)))%nat -> current_is lane hash (val (device w)) ->
    val (device w) (Cur lane Hidden) = Some hash ->
    cw_step w (rollback_staged backend staged lane reuse base prompt enabled valid complete pin auto present size hash w)
| cw_capture_rewrite lane : u64 (rewrite_image_generation (copy_lanes w lane) + 1) ->
    cw_step w (snd (capture_rewrite_image backend staged lane w))
| cw_restore_rewrite lane : cw_step w (restore_rewrite_checkpoint_state backend lane w)
| cw_restore_context lane base : cw_step w (snd (restore_context_checkpoint_state backend staged lane base w))
| cw_ram_capture lane valid heads : cw_step w (ram_capture_images backend lane valid heads w)
| cw_ram_rewrite lane hash : u64 (rewrite_image_generation (copy_lanes w lane) + 1) ->
    cw_step w (ram_restore_rewrite backend lane hash w)
| cw_ram_restore lane layout base imgs : (lane < length (lanes_ (cps w)))%nat ->
    heads_ok marks (image_head <$> imgs) -> ~ staging_of w lane -> cw_step w (restore_staged lane layout base imgs w)
| cw_tier lane base hash :
    cw_step w (set_copy_lane w lane (MkCopyLane (rewrite_image_generation (copy_lanes w lane)) base hash))
| cw_drop lane frontier : (lane < length (lanes_ (cps w)))%nat ->
    cw_step w (set_cps w (drop_context_checkpoints_after marks lane frontier (cps w)))
| cw_clear lane : (lane < length (lanes_ (cps w)))%nat -> cw_step w (clear_lane_staged marks lane w).

Definition world_start (lanes : nat) : World :=
  MkWorld (startup marks lanes n) unoccupied (fun _ => MkCopyLane 0 0 (MkHash 0 0)) device_start.

Inductive cw_reach (lanes : nat) : World -> Prop :=
| cw_start : cw_reach lanes (world_start lanes)
| cw_next w w' : cw_reach lanes w -> cw_step w w' -> cw_reach lanes w'.

Lemma world_start_ok lanes : world_ok (world_start lanes).
Proof.
  assert (forall a, a ∉ log device_start) as Hn by (intros a; apply not_elem_of_nil).
  split; cbn [world_start cps staging_ copy_lanes device]; try done.
  - apply startup_ok.
  - split; [split|]; try done; try (intros a; by intros ?%Hn); intros; by destruct (Hn a).
  - intros lane h p Hh. exfalso. apply heads_of_lookup in Hh as (l & Hl & Hh). cbn in Hl.
    apply lookup_replicate in Hl as [-> _]. by apply elem_of_nil in Hh.
Qed.

Lemma cw_step_ok w w' : world_ok w -> cw_step w w' -> world_ok w'.
Proof.
  intros Hw [ ].
  - apply world_reads; [done| |intros l Hin; on_touches Hin; done]. cbv zeta.
    change (run _ (device w)) with (set_val (Cur lane p) v (device w)). split_and!; [|by intros i _|done].
    destruct (wo_device _ Hw) as [[D1 D2 D3 D4 D5 D6] R]. by split; [split|].
  - by apply world_freeze.
  - by apply world_rollback.
  - by apply world_capture_rewrite.
  - by apply world_restore_rewrite.
  - by apply world_restore_context.
  - by apply world_ram_capture.
  - by apply world_ram_restore_rewrite.
  - by apply world_restore.
  - by apply world_tier.
  - by apply world_drop.
  - by apply world_clear.
Qed.

Lemma cw_reach_ok lanes w : cw_reach lanes w -> world_ok w.
Proof. induction 1 as [|w w' _ IH Hs]; [apply world_start_ok|by eapply cw_step_ok]. Qed.
End world.


(** The values a context restore leaves. *)
Lemma restore_values marks n backend staged w lane base h : world_ok marks n backend w ->
  find_head (heads_of (cps w) lane) (fun h => ch_frontier h =? base) = Some h ->
  (tier_unpacked_context_base (copy_lanes w lane) =? base)
    && bool_decide (tier_unpacked_context_hash (copy_lanes w lane) = ch_hash h) = false ->
  exists w', restore_context_checkpoint_state backend staged lane base w = (Ok tt, w') /\
    forall p, p ∈ image_parts backend -> val (device w') (Cur lane p) = Some (ch_hash h).
Proof.
  intros Hw Hf Ht. unfold heads_of in Hf. unfold restore_context_checkpoint_state. rewrite Hf, Ht.
  apply find_head_Some in Hf as [Hh Eb]. apply Z.eqb_eq in Eb. fold (heads_of (cps w) lane) in Hh.
  pose proof (fun p => wo_heads _ _ _ _ Hw lane h p Hh) as Hv. unfold image_parts in *.
  destruct (_ && _ && staged) eqn:E; eexists; (split; [reflexivity|]); intros p Hp; cbn [enqueue device];
    unfold restore_dflash_cyclic_from_head, when_dflash in *.
  - destruct (restore_slot_head marks n backend staged w lane h base Hw Hh Eb E) as [_ [V1 V2]].
    destruct (dflash backend); cbn [app] in *; specialize (Hv p Hp);
      repeat (apply elem_of_cons in Hp as [->|Hp]; [eval_copies; done|]); by apply elem_of_nil in Hp.
  - destruct (dflash backend); cbn [app] in *; specialize (Hv p Hp);
      repeat (apply elem_of_cons in Hp as [->|Hp]; [eval_copies; done|]); by apply elem_of_nil in Hp.
Qed.

(** The values a rewrite restore leaves. *)
Lemma restore_rewrite_values marks n backend w lane p : world_ok marks n backend w -> p ∈ rewrite_parts backend ->
  val (device (restore_rewrite_checkpoint_state backend lane w)) (Cur lane p) = val (device w) (Rew lane p).
Proof.
  intros Hw Hp. unfold restore_rewrite_checkpoint_state. destruct (_ && _ && _) eqn:E.
  - apply andb_true_iff in E as [E Eg]. apply andb_true_iff in E as [E El]. apply Nat.eqb_eq in El. apply Z.eqb_eq in Eg.
    pose proof (wo_rewrite _ _ _ _ Hw E) as Hv. unfold rewrite_slot_holds in Hv. rewrite El in Hv. specialize (Hv Eg p Hp).
    rewrite <- Hv. cbn [enqueue device]. unfold when_dflash, rewrite_parts in *. destruct (dflash backend); cbn [app] in Hp;
      repeat (apply elem_of_cons in Hp as [->|Hp]; [eval_copies; done|]); by apply elem_of_nil in Hp.
  - cbn [enqueue device]. unfold when_dflash, rewrite_parts in *. destruct (dflash backend); cbn [app] in Hp;
      repeat (apply elem_of_cons in Hp as [->|Hp]; [eval_copies; done|]); by apply elem_of_nil in Hp.
Qed.


(** ** A lane that freezes a head, moves on and comes back *)
Definition demo_hash : PrefixHash128 := MkHash 7 7.

Definition demo_frozen_world : World :=
  freeze_staged demo_marks Mtp true 0 true true true 128 128 demo_hash false
    (enqueue [CWrite Compute (Cur 0 Gdn) (Some demo_hash)] (world_start demo_marks 6 2)).

Definition demo_moved : World := enqueue [CWrite Compute (Cur 0 Gdn) (Some (MkHash 9 9))] demo_frozen_world.

Lemma demo_moved_reach : cw_reach demo_marks 6 Mtp true 2 demo_moved.
Proof.
  eapply cw_next; [|apply cw_compute]. eapply cw_next; [|apply cw_freeze].
  - eapply cw_next; [apply cw_start|apply cw_compute].
  - cbn. lia.
  - intros p Hp. apply elem_of_cons in Hp as [->|?%elem_of_nil]; [|done]. vm_compute. reflexivity.
Qed.


