(* ===== verification/RamFormat.v ===== *)
(** * targets/qwen3_6/impl/runtime/kv_ram_cache.cpp: the format of an entry

    A cached sequence is one pinned block: a fixed header, a fingerprint per KV
    plane, the metadata of the context-checkpoint heads, then twelve sections and
    the heads' images.  A block is the list of its bytes; a pointer into it is an
    offset, null is [None].  Enumerations read from a byte or a word keep their
    underlying value, as the casts in the code do. *)

From stdpp Require Import prelude list list_numbers.
From Stdlib Require Import ZArith Lia.
From S2P Require Import Prelude.
From S2P Require Import Tensor.
From S2P Require Import Bytes.
From S2P Require Import PagedPool.
From S2P Require Import CyclicKV.
From S2P Require Import Codec.
From S2P Require Import PrefixIdentity.
From S2P Require Import PrefixTheorems.
#[local] Open Scope Z_scope.

Definition kRamMagic : Z := 0x4D41524E.
Definition kRamVersion : Z := 5.
Definition kSectionCount : Z := 12.
Definition kHostAlign : Z := 8.
Definition kDeviceAlign : Z := 256.
Definition kFingerprint : Z := 56.
Definition kLadderMetaBytes : Z := 88.
Definition kFixedHeader : Z := 364.
Definition kDiskTicketOffset : Z := 156.

(** [(value + align - 1) & ~(align - 1)] on [size_t] *)
Definition ram_align_up (value align : Z) : Z :=
  clear_mask (wrap64 (value + align - 1)) (align - 1).

(** The parts of a head that reach the header: the images' sizes, not their bytes. *)
Record RamLadderHead : Type := MkLadderHead {
  lh_frontier : Z;
  lh_hash : PrefixHash128;
  lh_kind : Z;
  lh_conv_bytes : Z;
  lh_recurrent_bytes : Z;
  lh_hidden_bytes : Z;
  lh_dflash_bytes : Z;
}.

Record RamLadderIndex : Type := MkLadderIndex {
  li_frontier : Z;
  li_hash : PrefixHash128;
  li_kind : Z;
}.

Record RamLadderImage : Type := MkLadderImage {
  im_frontier : Z;
  im_hash : PrefixHash128;
  im_kind : Z;
  im_conv : option Z;
  im_recurrent : option Z;
  im_hidden : option Z;
  im_dflash : option Z;
  im_conv_bytes : Z;
  im_recurrent_bytes : Z;
  im_hidden_bytes : Z;
  im_dflash_bytes : Z;
}.

Record HeaderView : Type := MkHeader {
  h_execution_frontier : Z;
  h_ledger_frontier : Z;
  h_rope_delta : Z;
  h_text_kv_valid : Z;
  h_mtp_kv_valid : Z;
  h_dflash_context_frontier : Z;
  h_tail_hidden_valid : bool;
  h_rewrite_valid : bool;
  h_rewrite_kind : Z;
  h_hash_c_valid : bool;
  h_rewrite_frontier : Z;
  h_text_mapped_pages : Z;
  h_backend_mapped_pages : Z;
  h_text_plane_count : Z;
  h_backend_plane_count : Z;
  h_hash_f : PrefixHash128;
  h_hash_c : PrefixHash128;
  h_has_gdn : bool;
  h_has_dflash : bool;
  h_cyclic_layers : Z;
  h_cyclic_capacity : Z;
  h_cyclic_padded : Z;
  h_cyclic_kv_heads : Z;
  h_cyclic_head_dim : Z;
  h_cyclic_lane_capacity : Z;
  h_tail_hidden_bytes : Z;
  h_gdn_conv_bytes : Z;
  h_gdn_recurrent_bytes : Z;
  h_cyclic_lane_bytes : Z;
  h_ladder_count : Z;
  h_disk_entry_id : Z;
  h_section : list (Z * Z);
  h_entry_bytes : Z;
  h_header_bytes : Z;
  h_ladders : list RamLadderIndex;
  h_ladder_images : list RamLadderImage;
}.

Definition dtype_code (d : DType) : Z :=
  match d with
  | BF16 => 0 | FP32 => 1 | I32 => 2 | U8 => 3 | I64 => 4 | I8 => 5 | FP16 => 6 | FP8_E4M3FN => 7
  end.

Definition order_code (o : PagedKVPlaneOrder) : Z :=
  match o with PageMajor => 0 | HeadMajor => 1 end.

(** [flag ? 1 : 0] and [r.u8() != 0] *)
Definition flag (b : bool) : Z := if b then 1 else 0.
Definition read_flag : st InCursor bool := v ← InCursor_u8; mret (negb (v =? 0)).

Definition read_hash : st InCursor PrefixHash128 :=
  l ← InCursor_u64; h ← InCursor_u64; mret (MkHash l h).

Definition write_fingerprint (plane : Tensor) (order : PagedKVPlaneOrder) : st Cursor unit :=
  Cursor_u8 (dtype_code (dtype plane)) ;;
  Cursor_u8 (order_code order) ;;
  Cursor_u8 0 ;; Cursor_u8 0 ;; Cursor_u8 0 ;; Cursor_u8 0 ;; Cursor_u8 0 ;; Cursor_u8 0 ;;
  for_each [0; 1; 2; 3] (fun i => Cursor_i32 (vget (ne plane) i)) ;;
  for_each [0; 1; 2; 3] (fun i => Cursor_i64 (vget (nb plane) i)).

Definition check_fingerprint (plane : Tensor) (order : PagedKVPlaneOrder) : st InCursor unit :=
  stored_dtype ← InCursor_u8;
  stored_order ← InCursor_u8;
  InCursor_skip 6 ;;
  n0 ← InCursor_i32; n1 ← InCursor_i32; n2 ← InCursor_i32; n3 ← InCursor_i32;
  b0 ← InCursor_i64; b1 ← InCursor_i64; b2 ← InCursor_i64; b3 ← InCursor_i64;
  st_throw_if (negb (stored_dtype =? dtype_code (dtype plane)) || negb (stored_order =? order_code order))
    logic_error ;;
  st_throw_if (negb (bool_decide (Vec4 n0 n1 n2 n3 = ne plane))
               || negb (bool_decide (Vec4 b0 b1 b2 b3 = nb plane))) logic_error.

(** [text_planes + backend_planes] is a 32-bit sum. *)
Definition header_bytes_for (text_planes backend_planes ladder_count : Z) : Z :=
  ram_align_up (wrap64 (kFixedHeader + kFingerprint * wrap32 (text_planes + backend_planes)
                        + ladder_count * kLadderMetaBytes)) kHostAlign.

Definition write_fixed_header (h : HeaderView) : st Cursor unit :=
  Cursor_u32 kRamMagic ;;
  Cursor_u32 kRamVersion ;;
  Cursor_u32 (h_execution_frontier h) ;;
  Cursor_u32 (h_ledger_frontier h) ;;
  Cursor_i32 (h_rope_delta h) ;;
  Cursor_u32 (h_text_kv_valid h) ;;
  Cursor_u32 (h_mtp_kv_valid h) ;;
  Cursor_u32 (h_dflash_context_frontier h) ;;
  Cursor_u8 (flag (h_tail_hidden_valid h)) ;;
  Cursor_u8 (flag (h_rewrite_valid h)) ;;
  Cursor_u8 (h_rewrite_kind h) ;;
  Cursor_u8 (flag (h_hash_c_valid h)) ;;
  Cursor_u32 (h_rewrite_frontier h) ;;
  Cursor_u32 (h_text_mapped_pages h) ;;
  Cursor_u32 (h_backend_mapped_pages h) ;;
  Cursor_u32 (h_text_plane_count h) ;;
  Cursor_u32 (h_backend_plane_count h) ;;
  Cursor_u64 (lo (h_hash_f h)) ;;
  Cursor_u64 (hi (h_hash_f h)) ;;
  Cursor_u64 (lo (h_hash_c h)) ;;
  Cursor_u64 (hi (h_hash_c h)) ;;
  Cursor_u8 (flag (h_has_gdn h)) ;;
  Cursor_u8 (flag (h_has_dflash h)) ;;
  Cursor_u8 0 ;;
  Cursor_u8 0 ;;
  Cursor_u32 (h_cyclic_layers h) ;;
  Cursor_u32 (h_cyclic_capacity h) ;;
  Cursor_u32 (h_cyclic_padded h) ;;
  Cursor_i32 (h_cyclic_kv_heads h) ;;
  Cursor_i32 (h_cyclic_head_dim h) ;;
  Cursor_i32 (h_cyclic_lane_capacity h) ;;
  Cursor_u64 (h_tail_hidden_bytes h) ;;
  Cursor_u64 (h_gdn_conv_bytes h) ;;
  Cursor_u64 (h_gdn_recurrent_bytes h) ;;
  Cursor_u64 (h_cyclic_lane_bytes h) ;;
  Cursor_u32 (h_ladder_count h) ;;
  Cursor_u32 0 ;;
  Cursor_u64 (h_disk_entry_id h) ;;
  for_each (h_section h) (fun s => Cursor_u64 (fst s) ;; Cursor_u64 (snd s)) ;;
  Cursor_u64 (h_entry_bytes h).

Definition read_section : st InCursor (Z * Z) := o ← InCursor_u64; n ← InCursor_u64; mret (o, n).

(** One round of the loop over the ladder metadata. *)
Definition read_ladder : st InCursor (RamLadderIndex * RamLadderImage) :=
  frontier ← InCursor_u32;
  kind ← InCursor_u32;
  hash ← read_hash;
  conv_off ← InCursor_u64; rec_off ← InCursor_u64; hidden_off ← InCursor_u64; dflash_off ← InCursor_u64;
  conv_bytes ← InCursor_u64; recurrent_bytes ← InCursor_u64;
  hidden_bytes ← InCursor_u64; dflash_bytes ← InCursor_u64;
  let at_off n off := if n =? 0 then None else Some off in
  mret (MkLadderIndex frontier hash kind,
        MkLadderImage frontier hash kind
          (at_off conv_bytes conv_off) (at_off recurrent_bytes rec_off)
          (at_off hidden_bytes hidden_off) (at_off dflash_bytes dflash_off)
          conv_bytes recurrent_bytes hidden_bytes dflash_bytes).

(** The part of [read_header] that runs on the first cursor. *)
Definition read_fixed_header : st InCursor HeaderView :=
  magic ← InCursor_u32;
  st_throw_if (negb (magic =? kRamMagic)) logic_error ;;
  version ← InCursor_u32;
  st_throw_if (negb (version =? kRamVersion)) logic_error ;;
  execution_frontier ← InCursor_u32;
  ledger_frontier ← InCursor_u32;
  rope_delta ← InCursor_i32;
  text_kv_valid ← InCursor_u32;
  mtp_kv_valid ← InCursor_u32;
  dflash_context_frontier ← InCursor_u32;
  tail_hidden_valid ← read_flag;
  rewrite_valid ← read_flag;
  rewrite_kind ← InCursor_u8;
  hash_c_valid ← read_flag;
  rewrite_frontier ← InCursor_u32;
  text_mapped_pages ← InCursor_u32;
  backend_mapped_pages ← InCursor_u32;
  text_plane_count ← InCursor_u32;
  backend_plane_count ← InCursor_u32;
  hash_f ← read_hash;
  hash_c ← read_hash;
  has_gdn ← read_flag;
  has_dflash ← read_flag;
  InCursor_skip 2 ;;
  cyclic_layers ← InCursor_u32;
  cyclic_capacity ← InCursor_u32;
  cyclic_padded ← InCursor_u32;
  cyclic_kv_heads ← InCursor_i32;
  cyclic_head_dim ← InCursor_i32;
  cyclic_lane_capacity ← InCursor_i32;
  tail_hidden_bytes ← InCursor_u64;
  gdn_conv_bytes ← InCursor_u64;
  gdn_recurrent_bytes ← InCursor_u64;
  cyclic_lane_bytes ← InCursor_u64;
  ladder_count ← InCursor_u32;
  InCursor_skip 4 ;;
  disk_entry_id ← InCursor_u64;
  section ← read_many (Z.to_nat kSectionCount) read_section;
  entry_bytes ← InCursor_u64;
  mret (MkHeader execution_frontier ledger_frontier rope_delta text_kv_valid mtp_kv_valid dflash_context_frontier tail_hidden_valid rewrite_valid rewrite_kind hash_c_valid rewrite_frontier text_mapped_pages backend_mapped_pages text_plane_count backend_plane_count hash_f hash_c has_gdn has_dflash cyclic_layers cyclic_capacity cyclic_padded cyclic_kv_heads cyclic_head_dim cyclic_lane_capacity tail_hidden_bytes gdn_conv_bytes gdn_recurrent_bytes cyclic_lane_bytes ladder_count disk_entry_id section entry_bytes 0 [] []).

Definition set_ladders (h : HeaderView) (header_bytes : Z)
    (ladders : list (RamLadderIndex * RamLadderImage)) : HeaderView :=
  MkHeader (h_execution_frontier h) (h_ledger_frontier h) (h_rope_delta h) (h_text_kv_valid h) (h_mtp_kv_valid h) (h_dflash_context_frontier h) (h_tail_hidden_valid h) (h_rewrite_valid h) (h_rewrite_kind h) (h_hash_c_valid h) (h_rewrite_frontier h) (h_text_mapped_pages h) (h_backend_mapped_pages h) (h_text_plane_count h) (h_backend_plane_count h) (h_hash_f h) (h_hash_c h) (h_has_gdn h) (h_has_dflash h) (h_cyclic_layers h) (h_cyclic_capacity h) (h_cyclic_padded h) (h_cyclic_kv_heads h) (h_cyclic_head_dim h) (h_cyclic_lane_capacity h) (h_tail_hidden_bytes h) (h_gdn_conv_bytes h) (h_gdn_recurrent_bytes h) (h_cyclic_lane_bytes h) (h_ladder_count h) (h_disk_entry_id h) (h_section h) (h_entry_bytes h)
    header_bytes (fst <$> ladders) (snd <$> ladders).

Definition read_header (null : bool) (block : list Z) : res HeaderView :=
  let bytes := Z.of_nat (length block) in
  throw_if (null || (bytes <? kFixedHeader)) logic_error ;;
  h ← fst (read_fixed_header block);
  let header_bytes := header_bytes_for (h_text_plane_count h) (h_backend_plane_count h) (h_ladder_count h) in
  throw_if ((bytes <? h_entry_bytes h) || (bytes <? header_bytes)) logic_error ;;
  let meta_begin := kFixedHeader + kFingerprint * wrap32 (h_text_plane_count h + h_backend_plane_count h) in
  let meta := take (Z.to_nat (header_bytes - meta_begin)) (drop (Z.to_nat meta_begin) block) in
  ladders ← fst (read_many (Z.to_nat (h_ladder_count h)) read_ladder meta);
  Ok (set_ladders h header_bytes ladders).

(** [section_ptr(block, header, index)]: the offset, [None] for an empty section. *)
Definition section_ptr (h : HeaderView) (index : nat) : option Z :=
  match h_section h !! index with
  | Some (offset, length) => if length =? 0 then None else Some offset
  | None => None
  end.

Definition verify_pool (planes : list Tensor) (order : PagedKVPlaneOrder) (stored_planes : Z)
    : st InCursor unit :=
  st_throw_if (negb (stored_planes =? Z.of_nat (length planes))) logic_error ;;
  for_each planes (fun plane => check_fingerprint plane order).

Definition verify_cyclic (h : HeaderView) (cache : CyclicKVCache) : res unit :=
  lane_bytes ← lane_host_bytes cache;
  throw_if (negb (h_cyclic_layers h =? layer_count cache) || negb (h_cyclic_capacity h =? capacity_ cache)
            || negb (h_cyclic_padded h =? padded_capacity_ cache)
            || negb (h_cyclic_kv_heads h =? num_kv_heads_ cache)
            || negb (h_cyclic_head_dim h =? head_dim_ cache)
            || negb (h_cyclic_lane_capacity h =? lane_capacity_ cache)
            || negb (h_cyclic_lane_bytes h =? lane_bytes)) logic_error.

(** ** Restoring the host state *)
Record RamRestoredHost : Type := MkRestored {
  rh_execution_frontier : Z;
  rh_ledger_frontier : Z;
  rh_rope_delta : Z;
  rh_text_kv_valid : Z;
  rh_mtp_kv_valid : Z;
  rh_dflash_context_frontier : Z;
  rh_tail_hidden_valid : bool;
  rh_rewrite_valid : bool;
  rh_rewrite_kind : Z;
  rh_rewrite_frontier : Z;
  rh_backend_image_present : bool;
  rh_ledger : list Z;
  rh_identity : ResidentPrefixIdentity;
  rh_ladders : list RamLadderIndex;
  rh_ladder_images : list RamLadderImage;
  rh_disk_entry_id : Z;
}.

Definition section_bytes (block : list Z) (h : HeaderView) (index : nat) : list Z :=
  match h_section h !! index with
  | Some (offset, length) => take (Z.to_nat length) (drop (Z.to_nat offset) block)
  | None => []
  end.

Definition section_length (h : HeaderView) (index : nat) : Z :=
  match h_section h !! index with Some (_, length) => length | None => 0 end.

Definition host_from_header (block : list Z) (h : HeaderView) : res RamRestoredHost :=
  throw_if (negb (section_length h 0 =? h_ledger_frontier h * 4)) logic_error ;;
  let ledger := to_i32 <$> chunks 4 (Z.to_nat (h_ledger_frontier h)) (section_bytes block h 0) in
  identity ← unpack (bool_decide (section_ptr h 1 = None)) (section_bytes block h 1);
  Ok (MkRestored (h_execution_frontier h) (h_ledger_frontier h) (h_rope_delta h) (h_text_kv_valid h)
        (h_mtp_kv_valid h) (h_dflash_context_frontier h) (h_tail_hidden_valid h) (h_rewrite_valid h)
        (h_rewrite_kind h) (h_rewrite_frontier h) (0 <? h_backend_mapped_pages h)
        ledger identity (h_ladders h) (h_ladder_images h) (h_disk_entry_id h)).

(** ** Laying out a new entry *)

(** One section: an empty one takes no room and keeps offset zero. *)
Definition place (cursor bytes align : Z) : (Z * Z) * Z :=
  if bytes =? 0 then ((0, 0), cursor)
  else let off := ram_align_up cursor align in ((off, bytes), wrap64 (off + bytes)).

Fixpoint place_sections (cursor : Z) (parts : list (Z * Z)) : list (Z * Z) * Z :=
  match parts with
  | [] => ([], cursor)
  | (bytes, align) :: parts =>
      let p := place cursor bytes align in
      let rest := place_sections (snd p) parts in
      (fst p :: fst rest, snd rest)
  end.

(** Sections 0 and 1 are host data, the others device images. *)
Definition section_aligns : list Z := kHostAlign :: kHostAlign :: repeat kDeviceAlign 10.

Record LadderLayout : Type := MkLadderLayout {
  ll_conv : Z * Z;
  ll_rec : Z * Z;
  ll_hidden : Z * Z;
  ll_dflash : Z * Z;
}.

Definition place_head (cursor : Z) (head : RamLadderHead) : LadderLayout * Z :=
  let conv := place cursor (lh_conv_bytes head) kDeviceAlign in
  let rec := place (snd conv) (lh_recurrent_bytes head) kDeviceAlign in
  let hidden := place (snd rec) (lh_hidden_bytes head) kDeviceAlign in
  let dflash := place (snd hidden) (lh_dflash_bytes head) kDeviceAlign in
  (MkLadderLayout (fst conv) (fst rec) (fst hidden) (fst dflash), snd dflash).

Fixpoint place_heads (cursor : Z) (heads : list RamLadderHead) : list LadderLayout * Z :=
  match heads with
  | [] => ([], cursor)
  | head :: heads =>
      let p := place_head cursor head in
      let rest := place_heads (snd p) heads in
      (fst p :: fst rest, snd rest)
  end.

(** Sections, head images and the entry's size. *)
Definition entry_layout (header_bytes : Z) (lengths : list Z) (heads : list RamLadderHead)
    : list (Z * Z) * list LadderLayout * Z :=
  let sections := place_sections header_bytes (zip lengths section_aligns) in
  let ladders := place_heads (snd sections) heads in
  (fst sections, fst ladders, ram_align_up (snd ladders) kDeviceAlign).

Definition write_ladder (p : RamLadderHead * LadderLayout) : st Cursor unit :=
  let (head, layout) := p in
  Cursor_u32 (lh_frontier head) ;;
  Cursor_u32 (lh_kind head) ;;
  Cursor_u64 (lo (lh_hash head)) ;;
  Cursor_u64 (hi (lh_hash head)) ;;
  Cursor_u64 (fst (ll_conv layout)) ;;
  Cursor_u64 (fst (ll_rec layout)) ;;
  Cursor_u64 (fst (ll_hidden layout)) ;;
  Cursor_u64 (fst (ll_dflash layout)) ;;
  Cursor_u64 (snd (ll_conv layout)) ;;
  Cursor_u64 (snd (ll_rec layout)) ;;
  Cursor_u64 (snd (ll_hidden layout)) ;;
  Cursor_u64 (snd (ll_dflash layout)).

(** The header bytes of a new entry, from the start of the block on. *)
Definition write_entry_header (h : HeaderView) (text : list Tensor) (text_order : PagedKVPlaneOrder)
    (backend : list Tensor) (backend_order : PagedKVPlaneOrder)
    (ladders : list (RamLadderHead * LadderLayout)) : st Cursor unit :=
  write_fixed_header h ;;
  for_each text (fun plane => write_fingerprint plane text_order) ;;
  for_each backend (fun plane => write_fingerprint plane backend_order) ;;
  for_each ladders write_ladder.

(** The ticket write of [set_disk_entry_id]: a cursor over eight bytes of the block. *)
Definition write_ticket (block : list Z) (disk_id : Z) : list Z :=
  let w := snd (Cursor_u64 disk_id (MkCursor [] 8)) in
  take (Z.to_nat kDiskTicketOffset) block ++ written w
  ++ drop (Z.to_nat (kDiskTicketOffset + 8)) block.
