(* ===== verification/RamTheorems.v ===== *)
(** * The entry format of the RAM cache: header round trip, layout, disk ticket *)

From stdpp Require Import prelude list list_numbers sorting.
From Stdlib Require Import ZArith Lia.
From S2P Require Import Prelude.
From S2P Require Import Tensor.
From S2P Require Import Bytes.
From S2P Require Import PagedPool.
From S2P Require Import Codec.
From S2P Require Import PrefixIdentity.
From S2P Require Import PrefixTheorems.
From S2P Require Import RamFormat.
#[local] Open Scope Z_scope.

Definition hash_ok (x : PrefixHash128) : Prop := u64 (lo x) /\ u64 (hi x).

#[export] Instance hash_ok_dec x : Decision (hash_ok x).
Proof. unfold hash_ok. apply _. Defined.

(** Every field has the width of its C++ type. *)
Definition header_ok (h : HeaderView) : Prop :=
  u32 (h_execution_frontier h) /\
  u32 (h_ledger_frontier h) /\
  i32 (h_rope_delta h) /\
  u32 (h_text_kv_valid h) /\
  u32 (h_mtp_kv_valid h) /\
  u32 (h_dflash_context_frontier h) /\
  u32 (h_rewrite_frontier h) /\
  u32 (h_text_mapped_pages h) /\
  u32 (h_backend_mapped_pages h) /\
  u32 (h_text_plane_count h) /\
  u32 (h_backend_plane_count h) /\
  hash_ok (h_hash_f h) /\
  hash_ok (h_hash_c h) /\
  u32 (h_cyclic_layers h) /\
  u32 (h_cyclic_capacity h) /\
  u32 (h_cyclic_padded h) /\
  i32 (h_cyclic_kv_heads h) /\
  i32 (h_cyclic_head_dim h) /\
  i32 (h_cyclic_lane_capacity h) /\
  u64 (h_tail_hidden_bytes h) /\
  u64 (h_gdn_conv_bytes h) /\
  u64 (h_gdn_recurrent_bytes h) /\
  u64 (h_cyclic_lane_bytes h) /\
  u32 (h_ladder_count h) /\
  u64 (h_disk_entry_id h) /\
  u64 (h_entry_bytes h) /\
  length (h_section h) = 12%nat /\ Forall (fun s => u64 (fst s) /\ u64 (snd s)) (h_section h).

#[export] Instance header_ok_dec h : Decision (header_ok h).
Proof. unfold header_ok. apply _. Defined.

Definition hash_image (x : PrefixHash128) : list Z := le_bytes 8 (lo x) ++ le_bytes 8 (hi x).
Definition section_image (s : Z * Z) : list Z := le_bytes 8 (fst s) ++ le_bytes 8 (snd s).

Definition fixed_image (h : HeaderView) : list Z :=
  le_bytes 4 kRamMagic ++
  le_bytes 4 kRamVersion ++
  le_bytes 4 (h_execution_frontier h) ++
  le_bytes 4 (h_ledger_frontier h) ++
  le_bytes 4 (h_rope_delta h) ++
  le_bytes 4 (h_text_kv_valid h) ++
  le_bytes 4 (h_mtp_kv_valid h) ++
  le_bytes 4 (h_dflash_context_frontier h) ++
  [flag (h_tail_hidden_valid h)] ++
  [flag (h_rewrite_valid h)] ++
  [h_rewrite_kind h] ++
  [flag (h_hash_c_valid h)] ++
  le_bytes 4 (h_rewrite_frontier h) ++
  le_bytes 4 (h_text_mapped_pages h) ++
  le_bytes 4 (h_backend_mapped_pages h) ++
  le_bytes 4 (h_text_plane_count h) ++
  le_bytes 4 (h_backend_plane_count h) ++
  hash_image (h_hash_f h) ++
  hash_image (h_hash_c h) ++
  [flag (h_has_gdn h)] ++
  [flag (h_has_dflash h)] ++
  [0; 0] ++
  le_bytes 4 (h_cyclic_layers h) ++
  le_bytes 4 (h_cyclic_capacity h) ++
  le_bytes 4 (h_cyclic_padded h) ++
  le_bytes 4 (h_cyclic_kv_heads h) ++
  le_bytes 4 (h_cyclic_head_dim h) ++
  le_bytes 4 (h_cyclic_lane_capacity h) ++
  le_bytes 8 (h_tail_hidden_bytes h) ++
  le_bytes 8 (h_gdn_conv_bytes h) ++
  le_bytes 8 (h_gdn_recurrent_bytes h) ++
  le_bytes 8 (h_cyclic_lane_bytes h) ++
  le_bytes 4 (h_ladder_count h) ++
  le_bytes 4 0 ++
  le_bytes 8 (h_disk_entry_id h) ++
  concat (section_image <$> h_section h) ++
  le_bytes 8 (h_entry_bytes h).

Lemma length_fixed_image h : length (h_section h) = 12%nat -> length (fixed_image h) = 364%nat.
Proof.
  intros Hs. unfold fixed_image, hash_image.
  rewrite !length_app, !length_le_bytes, (length_concat_const section_image 16), Hs by done. done.
Qed.

(** One field of a writer. *)
Ltac write_field :=
  lazymatch goal with
  | |- writes (Cursor_u8 _) _ => apply writes_u8
  | |- writes (Cursor_u32 _) _ => apply writes_u32
  | |- writes (Cursor_i32 _) _ => apply writes_i32
  | |- writes (Cursor_u64 _) _ => apply writes_u64
  | |- writes (Cursor_i64 _) _ => apply writes_i64
  | |- writes (for_each (h_section _) _) _ =>
      apply (writes_for_each _ section_image); intros ? _; apply writes_bind; apply writes_u64
  end.

Ltac write_fields :=
  lazymatch goal with
  | |- writes (mbind _ _) _ => eapply writes_bind; [write_field|write_fields]
  | |- _ => write_field
  end.

Lemma writes_hash x : writes (Cursor_u64 (lo x) ;; Cursor_u64 (hi x)) (hash_image x).
Proof. apply writes_bind; apply writes_u64. Qed.

Lemma writes_fixed_header h : writes (write_fixed_header h) (fixed_image h).
Proof.
  eapply writes_eq.
  - unfold write_fixed_header.
    write_fields.
  - unfold fixed_image, hash_image. rewrite <- !app_assoc. reflexivity.
Qed.

Lemma reads_flag b : reads read_flag [flag b] b.
Proof. eapply reads_map; [apply reads_u8|]. by destruct b. Qed.

Lemma reads_hash x : hash_ok x -> reads read_hash (hash_image x) x.
Proof.
  intros [H1 H2]. unfold read_hash, hash_image. destruct x as [a b]. cbn [lo hi] in *.
  eapply reads_bind; [by apply reads_u64|]. eapply reads_map; [by apply reads_u64|done].
Qed.

Lemma reads_section s : u64 (fst s) /\ u64 (snd s) -> reads read_section (section_image s) s.
Proof.
  intros [H1 H2]. destruct s as [a b]. unfold read_section, section_image. cbn [fst snd] in *.
  eapply reads_bind; [by apply reads_u64|]. eapply reads_map; [by apply reads_u64|done].
Qed.

Lemma reads_guard {A} b e (k : st InCursor A) l y :
  b = false -> reads k l y -> reads (st_throw_if b e ;; k) l y.
Proof. intros -> Hk rest. rewrite (st_bind_Ok _ _ _ tt (l ++ rest)) by done. apply Hk. Qed.

(** One field of a reader. *)
Ltac read_field :=
  lazymatch goal with
  | |- reads InCursor_u8 _ _ => apply reads_u8
  | |- reads InCursor_u32 _ _ => by apply reads_u32
  | |- reads InCursor_i32 _ _ => by apply reads_i32
  | |- reads InCursor_u64 _ _ => by apply reads_u64
  | |- reads InCursor_i64 _ _ => by apply reads_i64
  | |- reads read_flag _ _ => apply reads_flag
  | |- reads read_hash _ _ => by apply reads_hash
  | |- reads (InCursor_skip _) _ _ => by apply reads_skip
  end.

(** The header as [read_fixed_header] returns it: the ladder fields come later. *)
Definition without_ladders (h : HeaderView) : HeaderView := set_ladders h 0 [].

Lemma reads_fixed_header h : header_ok h -> reads read_fixed_header (fixed_image h) (without_ladders h).
Proof.
  intros Hok. unfold header_ok in Hok. destruct_and! Hok. unfold read_fixed_header, fixed_image.
  eapply reads_bind; [by apply reads_u32|]. apply reads_guard; [done|].
  eapply reads_bind; [by apply reads_u32|]. apply reads_guard; [done|].
  repeat lazymatch goal with |- reads (mbind _ _) _ _ => eapply reads_bind; [read_field|] end.
  eapply reads_bind.
  - replace (Z.to_nat kSectionCount) with (length (h_section h)) by done. apply reads_many.
    intros s Hs. apply reads_section. rewrite Forall_forall in *. auto.
  - eapply reads_map; [by apply reads_u64|]. done.
Qed.

(** ** Fingerprints *)
Definition plane_widths (t : Tensor) : Prop :=
  i32 (v0 (ne t)) /\ i32 (v1 (ne t)) /\ i32 (v2 (ne t)) /\ i32 (v3 (ne t)) /\
  i64 (v0 (nb t)) /\ i64 (v1 (nb t)) /\ i64 (v2 (nb t)) /\ i64 (v3 (nb t)).

#[export] Instance plane_widths_dec t : Decision (plane_widths t).
Proof. unfold plane_widths. apply _. Defined.

Definition fingerprint_image (order : PagedKVPlaneOrder) (t : Tensor) : list Z :=
  [dtype_code (dtype t)] ++ [order_code order] ++ [0; 0; 0; 0; 0; 0] ++
  le_bytes 4 (v0 (ne t)) ++ le_bytes 4 (v1 (ne t)) ++ le_bytes 4 (v2 (ne t)) ++ le_bytes 4 (v3 (ne t)) ++
  le_bytes 8 (v0 (nb t)) ++ le_bytes 8 (v1 (nb t)) ++ le_bytes 8 (v2 (nb t)) ++ le_bytes 8 (v3 (nb t)).

Lemma length_fingerprint order t : length (fingerprint_image order t) = 56%nat.
Proof. done. Qed.

Lemma writes_fingerprint t order : writes (write_fingerprint t order) (fingerprint_image order t).
Proof.
  eapply writes_eq.
  - unfold write_fingerprint.
    do 8 (eapply writes_bind; [apply writes_u8|]). eapply writes_bind.
    + apply (writes_for_each _ (fun i => le_bytes 4 (vget (ne t) i))). intros. apply writes_i32.
    + apply (writes_for_each _ (fun i => le_bytes 8 (vget (nb t) i))). intros. apply writes_i64.
  - unfold fingerprint_image. cbn [fmap list_fmap concat vget Z.eqb]. rewrite !app_nil_r, <- !app_assoc. done.
Qed.

(** The planes are laid out alike: what the fingerprint records. *)
Definition same_geometry (t u : Tensor) : Prop := dtype t = dtype u /\ ne t = ne u /\ nb t = nb u.

#[export] Instance same_geometry_dec t u : Decision (same_geometry t u).
Proof. unfold same_geometry. apply _. Defined.

Lemma dtype_code_inj a b : dtype_code a = dtype_code b -> a = b.
Proof. by destruct a, b. Qed.

Lemma order_code_inj a b : order_code a = order_code b -> a = b.
Proof. by destruct a, b. Qed.

(** Reading a fingerprint back against a plane: every field is consumed, then the
    comparison decides. *)
Lemma check_fingerprint_run t o u o' rest :
  plane_widths t ->
  check_fingerprint u o' (fingerprint_image o t ++ rest) =
  (if bool_decide (same_geometry t u /\ o = o') then Ok tt else Throw logic_error, rest).
Proof.
  intros (N0 & N1 & N2 & N3 & B0 & B1 & B2 & B3). unfold check_fingerprint, fingerprint_image.
  rewrite <- !app_assoc.
  rewrite (st_bind_Ok _ _ _ _ _ (reads_u8 _ _)), (st_bind_Ok _ _ _ _ _ (reads_u8 _ _)).
  rewrite (st_bind_Ok _ _ _ _ _ (reads_skip [0; 0; 0; 0; 0; 0] 6 eq_refl _)).
  rewrite (st_bind_Ok _ _ _ _ _ (reads_i32 _ N0 _)), (st_bind_Ok _ _ _ _ _ (reads_i32 _ N1 _)).
  rewrite (st_bind_Ok _ _ _ _ _ (reads_i32 _ N2 _)), (st_bind_Ok _ _ _ _ _ (reads_i32 _ N3 _)).
  rewrite (st_bind_Ok _ _ _ _ _ (reads_i64 _ B0 _)), (st_bind_Ok _ _ _ _ _ (reads_i64 _ B1 _)).
  rewrite (st_bind_Ok _ _ _ _ _ (reads_i64 _ B2 _)), (st_bind_Ok _ _ _ _ _ (reads_i64 _ B3 _)).
  replace (Vec4 (v0 (ne t)) (v1 (ne t)) (v2 (ne t)) (v3 (ne t))) with (ne t) by (by destruct (ne t)).
  replace (Vec4 (v0 (nb t)) (v1 (nb t)) (v2 (nb t)) (v3 (nb t))) with (nb t) by (by destruct (nb t)).
  unfold same_geometry.
  destruct (Z.eqb_spec (dtype_code (dtype t)) (dtype_code (dtype u))) as [Ed|Ed].
  2: { rewrite (bool_decide_eq_false_2 (_ /\ o = o')) by (intros [(E & _ & _) _]; congruence). done. }
  apply dtype_code_inj in Ed.
  destruct (Z.eqb_spec (order_code o) (order_code o')) as [Eo|Eo].
  2: { rewrite (bool_decide_eq_false_2 (_ /\ o = o')) by (intros [_ E]; congruence). done. }
  apply order_code_inj in Eo. rewrite (st_bind_Ok _ _ rest tt rest) by done.
  destruct (decide (ne t = ne u)) as [E1|E1]; destruct (decide (nb t = nb u)) as [E2|E2].
  - rewrite !bool_decide_eq_true_2 by done. done.
  - rewrite (bool_decide_eq_false_2 (nb t = nb u)), orb_true_r, (bool_decide_eq_false_2 (_ /\ o = o')) by tauto. done.
  - rewrite (bool_decide_eq_false_2 (ne t = ne u)), (bool_decide_eq_false_2 (_ /\ o = o')) by tauto. done.
  - rewrite (bool_decide_eq_false_2 (ne t = ne u)), (bool_decide_eq_false_2 (_ /\ o = o')) by tauto. done.
Qed.

Lemma check_planes_run ts o us o' : Forall plane_widths ts -> forall rest,
  length ts = length us ->
  (fst (for_each us (fun u => check_fingerprint u o') (concat (fingerprint_image o <$> ts) ++ rest)) = Ok tt <->
   Forall2 same_geometry ts us /\ (ts <> [] -> o = o')) /\
  (Forall2 same_geometry ts us /\ (ts <> [] -> o = o') ->
   snd (for_each us (fun u => check_fingerprint u o') (concat (fingerprint_image o <$> ts) ++ rest)) = rest).
Proof.
  intros Hw. revert us. induction Hw as [|t ts Ht _ IH]; intros [|u us] rest Hl; try done.
  rewrite fmap_cons. cbn [concat for_each]. rewrite <- app_assoc.
  pose proof (check_fingerprint_run t o u o' (concat (fingerprint_image o <$> ts) ++ rest) Ht) as E.
  case_bool_decide as Hg.
  - rewrite (st_bind_Ok _ _ _ _ _ E). destruct Hg as [Hg ->].
    destruct (IH us rest ltac:(simpl in Hl; lia)) as [IH1 IH2].
    split; [|intros [H2 _]; apply IH2; split; [by inversion H2|done]].
    rewrite IH1. split; [intros [? ?]; split; [by constructor|done]|].
    intros [H2 _]. split; [by inversion H2|done].
  - rewrite (st_bind_Throw _ _ _ _ _ E). split; [split; [done|]|]; intros [H2 Ho]; exfalso; apply Hg;
      (split; [by inversion H2|by apply Ho]).
Qed.

(** ** Ladder metadata *)
Definition ladder_ok (p : RamLadderHead * LadderLayout) : Prop :=
  let (head, layout) := p in
  u32 (lh_frontier head) /\ u32 (lh_kind head) /\ hash_ok (lh_hash head) /\
  u64 (fst (ll_conv layout)) /\ u64 (fst (ll_rec layout)) /\ u64 (fst (ll_hidden layout)) /\
  u64 (fst (ll_dflash layout)) /\ u64 (snd (ll_conv layout)) /\ u64 (snd (ll_rec layout)) /\
  u64 (snd (ll_hidden layout)) /\ u64 (snd (ll_dflash layout)).

#[export] Instance ladder_ok_dec p : Decision (ladder_ok p).
Proof. destruct p. simpl. apply _. Defined.

Definition ladder_image (p : RamLadderHead * LadderLayout) : list Z :=
  let (head, layout) := p in
  le_bytes 4 (lh_frontier head) ++ le_bytes 4 (lh_kind head) ++ hash_image (lh_hash head) ++
  le_bytes 8 (fst (ll_conv layout)) ++ le_bytes 8 (fst (ll_rec layout)) ++
  le_bytes 8 (fst (ll_hidden layout)) ++ le_bytes 8 (fst (ll_dflash layout)) ++
  le_bytes 8 (snd (ll_conv layout)) ++ le_bytes 8 (snd (ll_rec layout)) ++
  le_bytes 8 (snd (ll_hidden layout)) ++ le_bytes 8 (snd (ll_dflash layout)).

Lemma length_ladder_image p : length (ladder_image p) = 88%nat.
Proof. by destruct p. Qed.

(** What a reader sees of a head: its index and the offsets of its images. *)
Definition part_offset (part : Z * Z) : option Z := if snd part =? 0 then None else Some (fst part).

Definition ladder_view (p : RamLadderHead * LadderLayout) : RamLadderIndex * RamLadderImage :=
  let (head, layout) := p in
  (MkLadderIndex (lh_frontier head) (lh_hash head) (lh_kind head),
   MkLadderImage (lh_frontier head) (lh_hash head) (lh_kind head)
     (part_offset (ll_conv layout)) (part_offset (ll_rec layout))
     (part_offset (ll_hidden layout)) (part_offset (ll_dflash layout))
     (snd (ll_conv layout)) (snd (ll_rec layout)) (snd (ll_hidden layout)) (snd (ll_dflash layout))).

Lemma writes_ladder p : writes (write_ladder p) (ladder_image p).
Proof.
  destruct p as [head layout]. eapply writes_eq; [unfold write_ladder; write_fields|].
  unfold ladder_image, hash_image. rewrite <- !app_assoc. reflexivity.
Qed.

Lemma reads_ladder p : ladder_ok p -> reads read_ladder (ladder_image p) (ladder_view p).
Proof.
  destruct p as [head layout]. intros Hok. cbn [ladder_ok] in Hok. destruct_and! Hok.
  unfold read_ladder, ladder_image.
  do 10 (eapply reads_bind; [read_field|]). eapply reads_map; [by apply reads_u64|]. done.
Qed.

Lemma reads_many_map {A B} (one : st InCursor B) (f : A -> list Z) (g : A -> B) xs :
  (forall x, x ∈ xs -> reads one (f x) (g x)) ->
  reads (read_many (length xs) one) (concat (f <$> xs)) (g <$> xs).
Proof.
  induction xs as [|x xs IH]; intros H; [apply reads_ret|]. rewrite !fmap_cons. cbn [length read_many concat].
  eapply reads_bind; [apply H; by left|]. eapply reads_map; [|done].
  apply IH. intros y Hy. apply H. by right.
Qed.

(** ** The whole header *)
Definition entry_header_image (h : HeaderView) (text : list Tensor) (to : PagedKVPlaneOrder)
    (backend : list Tensor) (bo : PagedKVPlaneOrder) (ladders : list (RamLadderHead * LadderLayout))
    : list Z :=
  fixed_image h ++ concat (fingerprint_image to <$> text) ++ concat (fingerprint_image bo <$> backend) ++
  concat (ladder_image <$> ladders).

Lemma writes_entry_header h text to backend bo ladders :
  writes (write_entry_header h text to backend bo ladders)
         (entry_header_image h text to backend bo ladders).
Proof.
  unfold write_entry_header, entry_header_image.
  apply writes_bind; [apply writes_fixed_header|].
  apply writes_bind; [apply writes_for_each; intros; apply writes_fingerprint|].
  apply writes_bind; [apply writes_for_each; intros; apply writes_fingerprint|].
  apply writes_for_each. intros. apply writes_ladder.
Qed.

Lemma ram_align_up_spec v a :
  0 <= v -> 0 <= a -> is_power_of_two a = true -> v + a <= size_max ->
  v <= ram_align_up v a < v + a /\ ram_align_up v a mod a = 0.
Proof.
  intros Hv Ha Hp Hs. pose proof (is_power_of_two_pos a Ha Hp). unfold ram_align_up.
  rewrite wrap64_id by (unfold u64; lia). replace (v + a - 1) with (v + (a - 1)) by lia.
  by apply clear_mask_align.
Qed.

(** The counts in the header are those of what follows it, and the header's size
    does not overflow. *)
Record header_for (h : HeaderView) (text backend : list Tensor)
    (ladders : list (RamLadderHead * LadderLayout)) : Prop := MkHeaderFor {
  hf_ok : header_ok h;
  hf_text : h_text_plane_count h = Z.of_nat (length text);
  hf_backend : h_backend_plane_count h = Z.of_nat (length backend);
  hf_ladders : h_ladder_count h = Z.of_nat (length ladders);
  hf_planes : Z.of_nat (length text) + Z.of_nat (length backend) <= u32_max;
  hf_layouts : Forall ladder_ok ladders;
}.

Definition header_size (h : HeaderView) : Z :=
  header_bytes_for (h_text_plane_count h) (h_backend_plane_count h) (h_ladder_count h).

Definition meta_offset (text backend : list Tensor) : Z :=
  364 + 56 * (Z.of_nat (length text) + Z.of_nat (length backend)).

Lemma header_bytes_bounds text backend ladders :
  0 <= text -> 0 <= backend -> text + backend <= u32_max -> u32 ladders ->
  let exact := 364 + 56 * (text + backend) + 88 * ladders in
  exact <= header_bytes_for text backend ladders < exact + 8 /\ header_bytes_for text backend ladders mod 8 = 0.
Proof.
  intros Ht Hb Hp Hl exact. unfold header_bytes_for. rewrite (wrap32_id (_ + _)) by (unfold u32; lia).
  unfold kFixedHeader, kFingerprint, kLadderMetaBytes, kHostAlign.
  replace (364 + 56 * (text + backend) + ladders * 88) with exact by (unfold exact; lia).
  assert (0 <= exact /\ exact + 8 <= size_max) as [? ?] by (unfold exact; width_lia).
  rewrite wrap64_id by (unfold u64; lia). apply ram_align_up_spec; [done|lia|done|done].
Qed.

Lemma header_size_bounds h text backend ladders :
  header_for h text backend ladders ->
  let exact := meta_offset text backend + 88 * Z.of_nat (length ladders) in
  exact <= header_size h < exact + 8 /\ header_size h mod 8 = 0.
Proof.
  intros [Hok Ht Hb Hl Hp _]. unfold header_size, meta_offset. rewrite Ht, Hb, Hl.
  apply header_bytes_bounds; [lia|lia|lia|]. rewrite <- Hl. unfold header_ok in Hok. tauto.
Qed.

Lemma length_entry_header_image h text to backend bo ladders :
  header_ok h ->
  Z.of_nat (length (entry_header_image h text to backend bo ladders)) =
  meta_offset text backend + 88 * Z.of_nat (length ladders).
Proof.
  intros Hok. unfold entry_header_image, meta_offset.
  rewrite !length_app, length_fixed_image by (unfold header_ok in Hok; tauto).
  rewrite !(length_concat_const (fingerprint_image _) 56) by done.
  rewrite (length_concat_const ladder_image 88) by apply length_ladder_image. lia.
Qed.

Lemma meta_bytes h text to backend bo ladders rest :
  header_for h text backend ladders ->
  exists pad,
    take (Z.to_nat (header_size h - meta_offset text backend))
      (drop (Z.to_nat (meta_offset text backend))
            (entry_header_image h text to backend bo ladders ++ rest)) =
    concat (ladder_image <$> ladders) ++ pad.
Proof.
  intros Hf. destruct (header_size_bounds _ _ _ _ Hf) as [Hs _]. destruct Hf as [Hok _ _ _ _ _].
  unfold entry_header_image. rewrite (app_assoc (concat (fingerprint_image to <$> text))), app_assoc, <- app_assoc.
  rewrite drop_app_length'.
  2: { unfold meta_offset. rewrite !length_app, length_fixed_image by (unfold header_ok in Hok; tauto).
       rewrite !(length_concat_const (fingerprint_image _) 56) by done. lia. }
  exists (take (Z.to_nat (header_size h - meta_offset text backend) - length ladders * 88) rest).
  rewrite take_app, (length_concat_const ladder_image 88) by apply length_ladder_image.
  rewrite take_ge; [done|]. rewrite (length_concat_const ladder_image 88) by apply length_ladder_image. lia.
Qed.

Lemma read_entry_header h text to backend bo ladders rest :
  header_for h text backend ladders ->
  let block := entry_header_image h text to backend bo ladders ++ rest in
  h_entry_bytes h <= Z.of_nat (length block) -> header_size h <= Z.of_nat (length block) ->
  read_header false block = Ok (set_ladders h (header_size h) (ladder_view <$> ladders)).
Proof.
  intros Hf block He Hh. pose proof Hf as [Hok Ht Hb Hl Hp Hll]. unfold read_header.
  pose proof (length_entry_header_image h text to backend bo ladders Hok) as Hlen.
  assert (364 <= Z.of_nat (length block)) as H364
    by (unfold block; rewrite length_app; unfold meta_offset in Hlen; lia).
  rewrite (proj2 (Z.ltb_ge (Z.of_nat (length block)) kFixedHeader)) by done.
  cbn [orb throw_if mbind res_bind].
  assert (fst (read_fixed_header block) = Ok (without_ladders h)) as ->.
  { unfold block, entry_header_image. rewrite <- app_assoc. by rewrite (reads_fixed_header h Hok). }
  cbn [mbind res_bind]. cbn [without_ladders set_ladders h_text_plane_count h_backend_plane_count
    h_ladder_count h_entry_bytes].
  change (header_bytes_for (h_text_plane_count h) (h_backend_plane_count h) (h_ladder_count h))
    with (header_size h).
  rewrite (proj2 (Z.ltb_ge _ (h_entry_bytes h))), (proj2 (Z.ltb_ge _ (header_size h))) by done.
  cbn [orb throw_if mbind res_bind].
  rewrite (wrap32_id (h_text_plane_count h + _)) by (rewrite Ht, Hb; unfold u32; lia).
  replace (kFixedHeader + kFingerprint * (h_text_plane_count h + h_backend_plane_count h))
    with (meta_offset text backend) by (rewrite Ht, Hb; done).
  destruct (meta_bytes h text to backend bo ladders rest Hf) as [pad Hpad]. fold block in Hpad.
  rewrite Hpad, Hl, Nat2Z.id.
  rewrite (reads_many_map _ _ ladder_view ladders); [done|].
  intros p Hin. apply reads_ladder. rewrite Forall_forall in Hll. by apply Hll.
Qed.

(** The RAM entry header round-trips: writing it never overruns the bytes
    [header_bytes_for] reserves, and reading any block that starts with those bytes
    returns every field of the header, with the index and image offsets of every
    context-checkpoint head; the stored fingerprints then accept exactly the pools
    whose planes have the same type, shape, strides and order. *)
Theorem ram_header_roundtrip h text to backend bo ladders :
  header_for h text backend ladders -> Forall plane_widths text ->
  exists image pad,
    write_entry_header h text to backend bo ladders (MkCursor [] (header_size h)) =
      (Ok tt, MkCursor image pad) /\ 0 <= pad < 8 /\
    forall rest, let block := image ++ rest in
      h_entry_bytes h <= Z.of_nat (length block) -> header_size h <= Z.of_nat (length block) ->
      read_header false block = Ok (set_ladders h (header_size h) (ladder_view <$> ladders)) /\
      forall text' to',
        fst (verify_pool text' to' (h_text_plane_count h) (drop (Z.to_nat kFixedHeader) block)) = Ok tt <->
        Forall2 same_geometry text text' /\ (text <> [] -> to = to').
Proof.
  intros Hf Hw. destruct (header_size_bounds _ _ _ _ Hf) as [Hs _]. pose proof Hf as [Hok Ht Hb Hl Hp Hll].
  pose proof (length_entry_header_image h text to backend bo ladders Hok) as Hlen.
  set (image := entry_header_image h text to backend bo ladders) in *.
  exists image, (header_size h - Z.of_nat (length image)). split_and!; [|lia|lia|].
  { rewrite (writes_entry_header h text to backend bo ladders) by (fold image; cbn [room]; lia). done. }
  intros rest block He Hh. split; [by apply read_entry_header|]. intros text' to'.
  assert (drop (Z.to_nat kFixedHeader) block = concat (fingerprint_image to <$> text) ++
    (concat (fingerprint_image bo <$> backend) ++ concat (ladder_image <$> ladders)) ++ rest) as ->.
  { unfold block, image, entry_header_image. rewrite <- !app_assoc.
    apply drop_app_length'. rewrite length_fixed_image by (unfold header_ok in Hok; tauto). done. }
  unfold verify_pool, st_throw_if. rewrite Ht.
  destruct (Z.eqb_spec (Z.of_nat (length text)) (Z.of_nat (length text'))) as [El|El]; cbn [negb].
  - rewrite (st_bind_Ok _ _ _ tt _) by done. apply check_planes_run; [done|lia].
  - split; [done|]. intros [H2 _]. apply Forall2_length in H2. lia.
Qed.

(** ** The disk ticket *)
Definition set_ticket (h : HeaderView) (disk_id : Z) : HeaderView :=
  MkHeader (h_execution_frontier h) (h_ledger_frontier h) (h_rope_delta h) (h_text_kv_valid h)
  (h_mtp_kv_valid h) (h_dflash_context_frontier h) (h_tail_hidden_valid h) (h_rewrite_valid h)
  (h_rewrite_kind h) (h_hash_c_valid h) (h_rewrite_frontier h) (h_text_mapped_pages h)
  (h_backend_mapped_pages h) (h_text_plane_count h) (h_backend_plane_count h) (h_hash_f h) (h_hash_c
  h) (h_has_gdn h) (h_has_dflash h) (h_cyclic_layers h) (h_cyclic_capacity h) (h_cyclic_padded h)
  (h_cyclic_kv_heads h) (h_cyclic_head_dim h) (h_cyclic_lane_capacity h) (h_tail_hidden_bytes h)
  (h_gdn_conv_bytes h) (h_gdn_recurrent_bytes h) (h_cyclic_lane_bytes h) (h_ladder_count h) disk_id
  (h_section h) (h_entry_bytes h) (h_header_bytes h) (h_ladders h) (h_ladder_images h).

(** What precedes the ticket in the fixed header, and what follows it. *)
Definition before_ticket (h : HeaderView) : list Z :=
  le_bytes 4 kRamMagic ++ le_bytes 4 kRamVersion ++ le_bytes 4 (h_execution_frontier h) ++ le_bytes
  4 (h_ledger_frontier h) ++ le_bytes 4 (h_rope_delta h) ++ le_bytes 4 (h_text_kv_valid h) ++
  le_bytes 4 (h_mtp_kv_valid h) ++ le_bytes 4 (h_dflash_context_frontier h) ++ [flag
  (h_tail_hidden_valid h)] ++ [flag (h_rewrite_valid h)] ++ [h_rewrite_kind h] ++ [flag
  (h_hash_c_valid h)] ++ le_bytes 4 (h_rewrite_frontier h) ++ le_bytes 4 (h_text_mapped_pages h) ++
  le_bytes 4 (h_backend_mapped_pages h) ++ le_bytes 4 (h_text_plane_count h) ++ le_bytes 4
  (h_backend_plane_count h) ++ hash_image (h_hash_f h) ++ hash_image (h_hash_c h) ++ [flag
  (h_has_gdn h)] ++ [flag (h_has_dflash h)] ++ [0; 0] ++ le_bytes 4 (h_cyclic_layers h) ++ le_bytes
  4 (h_cyclic_capacity h) ++ le_bytes 4 (h_cyclic_padded h) ++ le_bytes 4 (h_cyclic_kv_heads h) ++
  le_bytes 4 (h_cyclic_head_dim h) ++ le_bytes 4 (h_cyclic_lane_capacity h) ++ le_bytes 8
  (h_tail_hidden_bytes h) ++ le_bytes 8 (h_gdn_conv_bytes h) ++ le_bytes 8 (h_gdn_recurrent_bytes h)
  ++ le_bytes 8 (h_cyclic_lane_bytes h) ++ le_bytes 4 (h_ladder_count h) ++ le_bytes 4 0.

Definition after_ticket (h : HeaderView) : list Z :=
  concat (section_image <$> h_section h) ++ le_bytes 8 (h_entry_bytes h).

Lemma fixed_image_ticket h :
  fixed_image h = before_ticket h ++ le_bytes 8 (h_disk_entry_id h) ++ after_ticket h.
Proof. unfold fixed_image, before_ticket, after_ticket. rewrite <- !app_assoc. reflexivity. Qed.

Lemma write_ticket_image h text to backend bo ladders rest disk_id :
  write_ticket (entry_header_image h text to backend bo ladders ++ rest) disk_id =
  entry_header_image (set_ticket h disk_id) text to backend bo ladders ++ rest.
Proof.
  unfold write_ticket, entry_header_image. rewrite !fixed_image_ticket, (writes_u64 disk_id) by done.
  cbn [snd advance written app]. rewrite <- !app_assoc.
  rewrite take_app_length' by done. f_equal.
Qed.

(** [set_disk_entry_id] rewrites the ticket in place: the eight bytes at its
    fixed offset are the header's [disk_entry_id] field, so reading the block again
    returns the same header with the new ticket and no other change. *)
Theorem ram_ticket_in_place h text to backend bo ladders rest disk_id :
  header_for h text backend ladders -> u64 disk_id ->
  let block := entry_header_image h text to backend bo ladders ++ rest in
  h_entry_bytes h <= Z.of_nat (length block) -> header_size h <= Z.of_nat (length block) ->
  length (write_ticket block disk_id) = length block /\
  exists view, read_header false block = Ok view /\
    read_header false (write_ticket block disk_id) = Ok (set_ticket view disk_id).
Proof.
  intros Hf Hd block He Hh. unfold block. rewrite write_ticket_image.
  assert (header_for (set_ticket h disk_id) text backend ladders) as Hf'.
  { destruct Hf as [Hok Ht Hb Hl Hp Hll]. split; try done. unfold header_ok in *. cbn. tauto. }
  pose proof (length_entry_header_image h text to backend bo ladders (hf_ok _ _ _ _ Hf)) as L1.
  pose proof (length_entry_header_image _ text to backend bo ladders (hf_ok _ _ _ _ Hf')) as L2.
  assert (length (entry_header_image (set_ticket h disk_id) text to backend bo ladders ++ rest) = length block)
    as Hlen by (unfold block; rewrite !length_app; lia).
  split; [done|]. exists (set_ladders h (header_size h) (ladder_view <$> ladders)).
  split; [by apply read_entry_header|].
  rewrite (read_entry_header _ text to backend bo ladders rest Hf') by (rewrite Hlen; done). done.
Qed.

(** ** Layout *)
Definition parts_ok (parts : list (Z * Z)) : Prop :=
  Forall (fun p => 0 <= fst p /\ 0 <= snd p /\ is_power_of_two (snd p) = true) parts.

Fixpoint parts_sum (parts : list (Z * Z)) : Z :=
  match parts with [] => 0 | (bytes, align) :: parts => bytes + align + parts_sum parts end.

Lemma parts_sum_nonneg parts : parts_ok parts -> 0 <= parts_sum parts.
Proof. induction 1 as [|[b a] parts (H1 & H2 & _) _ IH]; simpl in *; lia. Qed.

Lemma place_spec cursor bytes align :
  0 <= cursor -> 0 <= bytes -> 0 <= align -> is_power_of_two align = true ->
  cursor + bytes + align <= size_max ->
  let p := place cursor bytes align in
  snd (fst p) = bytes /\ cursor <= snd p <= cursor + bytes + align /\
  (bytes <> 0 -> cursor <= fst (fst p) /\ fst (fst p) mod align = 0 /\ fst (fst p) + bytes <= snd p).
Proof.
  intros Hc Hb Ha Hp Hs. unfold place. destruct (Z.eqb_spec bytes 0) as [->|Hne]; cbn [fst snd].
  { split_and!; [done|lia|lia|done]. }
  destruct (ram_align_up_spec cursor align Hc Ha Hp ltac:(lia)) as [Hr Hm].
  rewrite wrap64_id by (unfold u64; lia). split_and!; [done|lia|lia|].
  intros _. split_and!; [lia|done|lia].
Qed.

Lemma place_sections_spec parts : forall cursor,
  parts_ok parts -> 0 <= cursor -> cursor + parts_sum parts <= size_max ->
  let out := place_sections cursor parts in
  cursor <= snd out <= cursor + parts_sum parts /\
  Forall2 (fun r p => snd r = fst p /\
    (fst p <> 0 -> cursor <= fst r /\ fst r mod snd p = 0 /\ fst r + snd r <= snd out)) (fst out) parts /\
  StronglySorted (fun r r' => snd r <> 0 -> snd r' <> 0 -> fst r + snd r <= fst r') (fst out).
Proof.
  induction parts as [|[bytes align] parts IH]; intros cursor Hok Hc Hs; cbn [place_sections parts_sum] in *.
  { cbn. split_and!; [lia|lia|constructor|constructor]. }
  apply Forall_cons in Hok as [(Hb & Ha & Hp) Hok]. cbn [fst snd] in *.
  pose proof (parts_sum_nonneg parts Hok) as Hn.
  destruct (place_spec cursor bytes align Hc Hb Ha Hp ltac:(lia)) as (P1 & P2 & P3).
  set (p := place cursor bytes align) in *.
  destruct (IH (snd p) Hok ltac:(lia) ltac:(lia)) as (Hend & Hall & Hsort).
  set (rest := place_sections (snd p) parts) in *. cbn [fst snd]. split_and!; [lia|lia| |].
  - constructor.
    + split; [done|]. intros Hne. destruct (P3 Hne) as (? & ? & ?). split_and!; [lia|done|]. rewrite P1. lia.
    + eapply Forall2_impl; [exact Hall|]. intros r q [E H]. split; [done|]. intros Hq.
      destruct (H Hq) as (? & ? & ?). split_and!; [lia|done|lia].
  - constructor; [done|]. rewrite Forall_forall. intros r Hr Hne Hne'.
    apply list_elem_of_lookup_1 in Hr as [i Hi].
    destruct (Forall2_lookup_l _ _ _ _ _ Hall Hi) as (q & Hq & E & H).
    rewrite P1 in Hne. destruct (P3 Hne) as (_ & _ & ?).
    destruct H as (? & _ & _); [by rewrite <- E|]. rewrite P1. lia.
Qed.

Definition head_regions (l : LadderLayout) : list (Z * Z) := [ll_conv l; ll_rec l; ll_hidden l; ll_dflash l].

Definition head_parts (head : RamLadderHead) : list (Z * Z) :=
  [(lh_conv_bytes head, kDeviceAlign); (lh_recurrent_bytes head, kDeviceAlign);
   (lh_hidden_bytes head, kDeviceAlign); (lh_dflash_bytes head, kDeviceAlign)].

Lemma place_sections_app parts parts' cursor :
  place_sections cursor (parts ++ parts') =
  (fst (place_sections cursor parts) ++ fst (place_sections (snd (place_sections cursor parts)) parts'),
   snd (place_sections (snd (place_sections cursor parts)) parts')).
Proof.
  revert cursor. induction parts as [|[b a] parts IH]; intros cursor; cbn [place_sections app].
  - cbn [fst snd app]. by destruct (place_sections cursor parts').
  - rewrite IH. done.
Qed.

(** The heads' images are placed as more sections are. *)
Lemma place_heads_sections heads : forall cursor,
  place_sections cursor (concat (head_parts <$> heads)) =
  (concat (head_regions <$> fst (place_heads cursor heads)), snd (place_heads cursor heads)).
Proof.
  induction heads as [|head heads IH]; intros cursor; [done|].
  rewrite fmap_cons. cbn [concat place_heads]. rewrite place_sections_app. cbn [fst snd].
  rewrite fmap_cons. cbn [concat].
  change (snd (place_sections cursor (head_parts head))) with (snd (place_head cursor head)).
  rewrite IH. done.
Qed.

(** What an entry has to hold, as (bytes, alignment): the sections, then the four
    images of every head. *)
Definition entry_parts (lengths : list Z) (heads : list RamLadderHead) : list (Z * Z) :=
  zip lengths section_aligns ++ concat (head_parts <$> heads).

Definition entry_regions (layout : list (Z * Z) * list LadderLayout * Z) : list (Z * Z) :=
  fst (fst layout) ++ concat (head_regions <$> snd (fst layout)).

(** The regions of a laid out entry: sizes, alignment, order. *)
Lemma entry_layout_spec header_bytes lengths heads :
  0 <= header_bytes -> parts_ok (entry_parts lengths heads) ->
  header_bytes + parts_sum (entry_parts lengths heads) + kDeviceAlign <= size_max ->
  let layout := entry_layout header_bytes lengths heads in
  let regions := entry_regions layout in
  let entry_bytes := snd layout in
  header_bytes <= entry_bytes <= size_max /\ entry_bytes mod kDeviceAlign = 0 /\
  Forall2 (fun r p => snd r = fst p /\
    (fst p <> 0 -> header_bytes <= fst r /\ fst r mod snd p = 0 /\ fst r + snd r <= entry_bytes))
    regions (entry_parts lengths heads) /\
  (forall i j r r', (i < j)%nat -> regions !! i = Some r -> regions !! j = Some r' ->
     snd r <> 0 -> snd r' <> 0 -> fst r + snd r <= fst r').
Proof.
  intros Hh Hok Hs. cbv zeta. destruct (place_sections_spec _ header_bytes Hok Hh ltac:(unfold kDeviceAlign in *; lia))
    as (Hend & Hall & Hsort).
  unfold entry_parts in Hend, Hall, Hsort. rewrite place_sections_app, place_heads_sections in Hend, Hall, Hsort.
  cbn [fst snd] in Hend, Hall, Hsort. unfold entry_regions, entry_layout. cbn [fst snd].
  set (sections := place_sections header_bytes (zip lengths section_aligns)) in *.
  set (ladders := place_heads (snd sections) heads) in *. fold (entry_parts lengths heads) in Hend, Hall.
  destruct (ram_align_up_spec (snd ladders) kDeviceAlign) as [Hr Hm]; [lia|done|done|lia|].
  split_and!; [lia|lia|done| |].
  - eapply Forall2_impl; [exact Hall|]. intros r p [E H]. split; [done|]. intros Hp.
    destruct (H Hp) as (? & ? & ?). split_and!; [done|done|lia].
  - intros i j r r' Hij Hi Hj Hr1 Hr2. by apply (sorted_lookup_lt _ _ i j r r' Hsort Hi Hj Hij).
Qed.

(** The layout of a RAM entry is sound: every section and every head image gets
    its size, at its alignment, after the header and inside [entry_bytes], no two
    overlap, and the entry is a whole number of device alignment units. *)
Theorem ram_layout_disjoint header_bytes lengths heads :
  0 <= header_bytes -> parts_ok (entry_parts lengths heads) ->
  header_bytes + parts_sum (entry_parts lengths heads) + kDeviceAlign <= size_max ->
  let layout := entry_layout header_bytes lengths heads in
  let regions := entry_regions layout in
  let entry_bytes := snd layout in
  entry_bytes mod kDeviceAlign = 0 /\
  Forall2 (fun r p => snd r = fst p /\
    (fst p <> 0 -> header_bytes <= fst r /\ fst r mod snd p = 0 /\ fst r + snd r <= entry_bytes))
    regions (entry_parts lengths heads) /\
  (forall i j r r', (i < j)%nat -> regions !! i = Some r -> regions !! j = Some r' ->
     snd r <> 0 -> snd r' <> 0 -> fst r + snd r <= fst r').
Proof. intros. by destruct (entry_layout_spec header_bytes lengths heads) as (_ & ?). Qed.

(** ** Concrete instances *)
Definition demo_head : RamLadderHead := MkLadderHead 64 (MkHash 5 6) 0 512 1024 0 0.
Definition demo_lengths : list Z := [8; 100; 4096; 0; 512; 0; 1024; 0; 64; 0; 0; 0].
Definition demo_layout : list (Z * Z) * list LadderLayout * Z :=
  Eval vm_compute in entry_layout (header_bytes_for 1 0 1) demo_lengths [demo_head].

Definition demo_plane : Tensor := MkTensor 4096 BF16 (Vec4 16 4 2 8) (Vec4 2 32 128 256).

Definition demo_header : HeaderView :=
  MkHeader 1 2 (-3) 1 0 0 true false 0 false 0 1 0 1 0 (MkHash 1 2) (MkHash 0 0) true false
    0 0 0 0 0 0 64 512 1024 0 1 0 (fst (fst demo_layout)) (snd demo_layout) 0 [] [].

Definition demo_ladders : list (RamLadderHead * LadderLayout) := zip [demo_head] (snd (fst demo_layout)).

Lemma demo_header_for : header_for demo_header [demo_plane] [] demo_ladders.
Proof.
  split; [|done|done|done|done|]; apply (bool_decide_unpack _); vm_compute; exact I.
Qed.

Lemma ram_header_roundtrip_witness :
  exists image pad,
    write_entry_header demo_header [demo_plane] PageMajor [] PageMajor demo_ladders (MkCursor [] 512) =
    (Ok tt, MkCursor image pad).
Proof.
  destruct (ram_header_roundtrip demo_header [demo_plane] PageMajor [] PageMajor demo_ladders demo_header_for)
    as (image & pad & H & _).
  - apply (bool_decide_unpack _). vm_compute. exact I.
  - exists image, pad. exact H.
Defined.

Lemma ram_ticket_in_place_witness :
  let block := entry_header_image demo_header [demo_plane] PageMajor [] PageMajor demo_ladders
                 ++ repeat 0 (Z.to_nat 8192) in
  exists view, read_header false block = Ok view /\
    read_header false (write_ticket block 77) = Ok (set_ticket view 77).
Proof.
  intros block.
  assert (Z.of_nat (length block) = 508 + 8192) as Hl by (vm_compute; reflexivity).
  refine (proj2 (ram_ticket_in_place demo_header [demo_plane] PageMajor [] PageMajor demo_ladders
    (repeat 0 (Z.to_nat 8192)) 77 demo_header_for _ _ _)).
  - apply (bool_decide_unpack _). vm_compute. exact I.
  - fold block. rewrite Hl. vm_compute. congruence.
  - fold block. rewrite Hl. vm_compute. congruence.
Defined.

Lemma ram_layout_disjoint_witness : snd demo_layout mod kDeviceAlign = 0.
Proof.
  refine (proj1 (ram_layout_disjoint (header_bytes_for 1 0 1) demo_lengths [demo_head] _ _ _)).
  - vm_compute. congruence.
  - apply (bool_decide_unpack _). vm_compute. exact I.
  - vm_compute. congruence.
Defined.
