(* ===== verification/RamIndex.v ===== *)
(** * targets/qwen3_6/impl/runtime/kv_ram_cache.{h,cpp}: the index

    The table of cached entries, their order of arrival and the pinned arena their
    blocks live in.  Every public call runs under the cache's mutex, so a call is
    one transition; [ready] is what [cudaEventQuery] answers about an event during
    the call.  Not modelled: copy timing (the elapsed seconds and the events that
    start a measurement) and the test hooks. *)

From stdpp Require Import prelude list list_numbers sorting gmap.
From Stdlib Require Import ZArith Lia.
From S2P Require Import Prelude.
From S2P Require Import HostArena.
From S2P Require Import PrefixIdentity.
From S2P Require Import ContextReuse.
From S2P Require Import RamFormat.
#[local] Open Scope Z_scope.

(** [KVRamCache::Record]; [r_copies_done] and [r_block_done] are event handles. *)
Record RamRecord : Type := MkRecord {
  r_hash_f : PrefixHash128;
  r_hash_c : PrefixHash128;
  r_hash_c_valid : bool;
  r_execution_frontier : Z;
  r_checkpoint_frontier : Z;
  r_checkpoint_valid : bool;
  r_checkpoint_path : PrefixReusePath;
  r_ladders : list RamLadderIndex;
  r_block : Z;
  r_bytes : Z;
  r_pinned : bool;
  r_retired : bool;
  r_io_pins : Z;
  r_disk_entry_id : Z;
  r_copies_done : option Z;
  r_block_done : option Z;
}.

#[export] Instance RamLadderIndex_eq_dec : EqDecision RamLadderIndex.
Proof. solve_decision. Defined.

#[export] Instance RamRecord_eq_dec : EqDecision RamRecord.
Proof. solve_decision. Defined.

Definition set_flags (r : RamRecord) (pinned retired : bool) (io_pins : Z) : RamRecord :=
  MkRecord (r_hash_f r) (r_hash_c r) (r_hash_c_valid r) (r_execution_frontier r)
    (r_checkpoint_frontier r) (r_checkpoint_valid r) (r_checkpoint_path r) (r_ladders r) (r_block r) (r_bytes r)
    pinned retired io_pins (r_disk_entry_id r) (r_copies_done r) (r_block_done r).

Definition set_pinned (r : RamRecord) (pinned : bool) : RamRecord :=
  set_flags r pinned (r_retired r) (r_io_pins r).
Definition set_io_pins (r : RamRecord) (io_pins : Z) : RamRecord :=
  set_flags r (r_pinned r) (r_retired r) io_pins.
Definition set_retired (r : RamRecord) : RamRecord := set_flags r false true (r_io_pins r).

Definition set_disk_id (r : RamRecord) (disk_id : Z) : RamRecord :=
  MkRecord (r_hash_f r) (r_hash_c r) (r_hash_c_valid r) (r_execution_frontier r)
    (r_checkpoint_frontier r) (r_checkpoint_valid r) (r_checkpoint_path r) (r_ladders r) (r_block r) (r_bytes r)
    (r_pinned r) (r_retired r) (r_io_pins r) disk_id (r_copies_done r) (r_block_done r).

Record KVRamCache : Type := MkCache {
  arena_ : HostPinnedArena;
  fifo_ : list Z;
  records_ : gmap Z RamRecord;
  pending_save_ids_ : list Z;
  pending_load_ids_ : list Z;
  next_id_ : Z;
  index_version_ : Z;
  captures_ : Z;
  restores_ : Z;
  evictions_ : Z;
  drops_ : Z;
}.

(** [KVRamCache(HostPinnedArena&&)] *)
Definition ram_cache_new (arena : HostPinnedArena) : KVRamCache :=
  MkCache arena [] ∅ [] [] 1 1 0 0 0 0.

Definition set_records (c : KVRamCache) (records : gmap Z RamRecord) : KVRamCache :=
  MkCache (arena_ c) (fifo_ c) records (pending_save_ids_ c) (pending_load_ids_ c) (next_id_ c)
    (index_version_ c) (captures_ c) (restores_ c) (evictions_ c) (drops_ c).

Definition set_arena (c : KVRamCache) (arena : HostPinnedArena) : KVRamCache :=
  MkCache arena (fifo_ c) (records_ c) (pending_save_ids_ c) (pending_load_ids_ c) (next_id_ c)
    (index_version_ c) (captures_ c) (restores_ c) (evictions_ c) (drops_ c).

Definition set_counters (c : KVRamCache) (restores evictions drops : Z) : KVRamCache :=
  MkCache (arena_ c) (fifo_ c) (records_ c) (pending_save_ids_ c) (pending_load_ids_ c) (next_id_ c)
    (index_version_ c) (captures_ c) restores evictions drops.

Definition bump_version : st KVRamCache unit :=
  c ← get;
  put (MkCache (arena_ c) (fifo_ c) (records_ c) (pending_save_ids_ c) (pending_load_ids_ c) (next_id_ c)
         (wrap64 (index_version_ c + 1)) (captures_ c) (restores_ c) (evictions_ c) (drops_ c)).

Definition put_record (id : Z) (r : RamRecord) : st KVRamCache unit :=
  c ← get; put (set_records c (<[id := r]> (records_ c))).

Definition erase_record (id : Z) : st KVRamCache unit :=
  c ← get; put (set_records c (delete id (records_ c))).

(** Live (unretired) entries only. *)
Definition ram_require (id : Z) : st KVRamCache RamRecord :=
  c ← get;
  match records_ c !! id with
  | Some r => if r_retired r then throw logic_error else mret r
  | None => throw logic_error
  end.

Definition require_block (id : Z) : st KVRamCache RamRecord :=
  c ← get;
  match records_ c !! id with Some r => mret r | None => throw logic_error end.

Section index.
Context (ready : Z -> bool).

(** A missing event is no obstacle; [CUDA_CHECK] aborts on any other error. *)
Definition fence_ready (fence : option Z) : bool :=
  match fence with None => true | Some e => ready e end.

Definition retired_free_locked (r : RamRecord) : bool :=
  if negb (r_retired r) || negb (r_io_pins r =? 0) then false
  else fence_ready (r_copies_done r) && fence_ready (r_block_done r).

Definition free_block_locked (r : RamRecord) : st KVRamCache unit :=
  if r_block r =? 0 then mret tt
  else
    c ← get;
    let '(out, arena) := host_free_block (r_block r) (arena_ c) in
    put (set_arena c arena) ;; lift out.

(** [free_block_locked(it->second); records_.erase(it)] *)
Definition free_entry (id : Z) (r : RamRecord) : st KVRamCache unit :=
  free_block_locked r ;; erase_record id.

Definition drop_pending_save (id : Z) : st KVRamCache unit :=
  c ← get;
  put (MkCache (arena_ c) (fifo_ c) (records_ c) (filter (.≠ id) (pending_save_ids_ c))
         (pending_load_ids_ c) (next_id_ c) (index_version_ c) (captures_ c) (restores_ c)
         (evictions_ c) (drops_ c)).

Definition drop_pending_id (id : Z) : st KVRamCache unit :=
  drop_pending_save id ;;
  c ← get;
  put (MkCache (arena_ c) (fifo_ c) (records_ c) (pending_save_ids_ c)
         (filter (.≠ id) (pending_load_ids_ c)) (next_id_ c) (index_version_ c) (captures_ c)
         (restores_ c) (evictions_ c) (drops_ c)).

(** [fifo_.erase(std::remove(fifo_.begin(), fifo_.end(), entry_id), fifo_.end())] *)
Definition drop_fifo (id : Z) : st KVRamCache unit :=
  c ← get;
  put (MkCache (arena_ c) (filter (.≠ id) (fifo_ c)) (records_ c) (pending_save_ids_ c)
         (pending_load_ids_ c) (next_id_ c) (index_version_ c) (captures_ c) (restores_ c)
         (evictions_ c) (drops_ c)).

Definition retire_locked (id : Z) : st KVRamCache unit :=
  c ← get;
  match records_ c !! id with
  | None => mret tt
  | Some r =>
      if r_retired r then mret tt
      else
        put_record id (set_retired r) ;;
        drop_fifo id ;;
        drop_pending_id id ;;
        bump_version ;;
        if retired_free_locked (set_retired r) then free_entry id (set_retired r) else mret tt
  end.

(** The sweep over the table; the order of the table is immaterial. *)
Definition reap_retired_locked : st KVRamCache unit :=
  c ← get;
  for_each (map_to_list (records_ c)) (fun entry =>
    if retired_free_locked (snd entry) then free_entry (fst entry) (snd entry) else mret tt).

Definition retired_pending : st KVRamCache bool :=
  c ← get;
  mret (existsb (fun entry => r_retired (snd entry) && negb (retired_free_locked (snd entry)))
          (map_to_list (records_ c))).

Definition retired_fence_pending : st KVRamCache bool :=
  c ← get;
  mret (existsb (fun entry => r_retired (snd entry) && (r_io_pins (snd entry) =? 0)
                              && negb (retired_free_locked (snd entry)))
          (map_to_list (records_ c))).

Definition claim (id : Z) : st KVRamCache unit :=
  r ← ram_require id;
  st_throw_if (r_pinned r) logic_error ;;
  put_record id (set_pinned r true) ;;
  bump_version.

Definition is_claimed (id : Z) : st KVRamCache bool :=
  c ← get;
  mret (match records_ c !! id with Some r => r_pinned r | None => false end).

Definition release (id : Z) : st KVRamCache unit :=
  r ← ram_require id;
  st_throw_if (negb (r_pinned r)) logic_error ;;
  put_record id (set_pinned r false) ;;
  bump_version.

Definition count_restore : st KVRamCache unit :=
  c ← get; put (set_counters c (wrap64 (restores_ c + 1)) (evictions_ c) (drops_ c)).
Definition count_eviction : st KVRamCache unit :=
  c ← get; put (set_counters c (restores_ c) (wrap64 (evictions_ c + 1)) (drops_ c)).
Definition count_drop : st KVRamCache unit :=
  c ← get; put (set_counters c (restores_ c) (evictions_ c) (wrap64 (drops_ c + 1))).

Definition consume (id : Z) : st KVRamCache unit :=
  reap_retired_locked ;;
  r ← ram_require id;
  st_throw_if (negb (r_pinned r)) logic_error ;;
  count_restore ;;
  retire_locked id.

Definition release_restored (id : Z) : st KVRamCache unit :=
  r ← ram_require id;
  st_throw_if (negb (r_pinned r)) logic_error ;;
  put_record id (set_pinned r false) ;;
  count_restore ;;
  bump_version.

Definition discard (id : Z) : st KVRamCache unit :=
  reap_retired_locked ;;
  c ← get;
  match records_ c !! id with
  | None => mret tt
  | Some r =>
      if r_retired r then mret tt
      else
        st_throw_if (r_pinned r) logic_error ;;
        count_eviction ;;
        retire_locked id
  end.

Fixpoint unpinned_loop (records : gmap Z RamRecord) (ids : list Z) : res (list Z) :=
  match ids with
  | [] => Ok []
  | id :: ids =>
      match records !! id with
      | Some r =>
          throw_if (r_retired r) logic_error ;;
          rest ← unpinned_loop records ids;
          Ok (if negb (r_pinned r) && (r_io_pins r =? 0) then id :: rest else rest)
      | None => Throw logic_error
      end
  end.

(** Oldest-first ids that are neither claimed nor pinned for I/O. *)
Definition unpinned_ids (c : KVRamCache) : res (list Z) := unpinned_loop (records_ c) (fifo_ c).

Definition pin_for_io (id : Z) : st KVRamCache unit :=
  r ← ram_require id;
  put_record id (set_io_pins r (wrap32 (r_io_pins r + 1))).

Definition unpin_for_io (id : Z) : st KVRamCache unit :=
  c ← get;
  match records_ c !! id with
  | None => throw logic_error
  | Some r =>
      st_throw_if (r_io_pins r =? 0) logic_error ;;
      let r := set_io_pins r (r_io_pins r - 1) in
      put_record id r ;;
      if retired_free_locked r then free_entry id r else mret tt
  end.

Definition evict_one_unpinned (id : Z) : st KVRamCache bool :=
  reap_retired_locked ;;
  c ← get;
  match records_ c !! id with
  | None => mret false
  | Some r =>
      if r_retired r then mret false
      else if r_pinned r || negb (r_io_pins r =? 0) then mret false
      else count_eviction ;; retire_locked id ;; mret true
  end.

(** The table part of [set_disk_entry_id]; the block's bytes change as
    [RamFormat.write_ticket] says. *)
Definition set_disk_entry_id (id disk_id : Z) : st KVRamCache unit :=
  c ← get;
  match records_ c !! id with
  | Some r =>
      if r_retired r then mret tt
      else
        st_throw_if ((r_block r =? 0) || (r_bytes r <? kDiskTicketOffset + 8)) logic_error ;;
        put_record id (set_disk_id r disk_id)
  | None => throw logic_error
  end.

Definition record_drop : st KVRamCache unit := count_drop ;; bump_version.

(** [snapshot().used_bytes] *)
Definition used_bytes (c : KVRamCache) : Z :=
  foldr (fun entry total => r_bytes (snd entry) + total) 0 (map_to_list (records_ c)).

(** The first critical section of [wait_retired_copies]: reap, then pin every
    retired entry that still has a fence and no pin. *)
Definition pin_retired : st KVRamCache (list Z) :=
  reap_retired_locked ;;
  c ← get;
  let waiting := filter (fun entry =>
    r_retired (snd entry) && (r_io_pins (snd entry) =? 0)
    && (bool_decide (is_Some (r_copies_done (snd entry))) || bool_decide (is_Some (r_block_done (snd entry))))
    = true) (map_to_list (records_ c)) in
  for_each waiting (fun entry =>
    put_record (fst entry) (set_io_pins (snd entry) (wrap32 (r_io_pins (snd entry) + 1)))) ;;
  mret (fst <$> waiting).

(** [unpin_copy_events]: the waited fences are complete by now. *)
Definition unpin_copy_events (ids : list Z) : st KVRamCache unit :=
  for_each ids (fun id =>
    c ← get;
    match records_ c !! id with
    | Some r => if r_io_pins r =? 0 then mret tt else put_record id (set_io_pins r (r_io_pins r - 1))
    | None => mret tt
    end) ;;
  reap_retired_locked.

(** ** Capture: room, publication, failure *)

(** [<] on pairs of offset and size, as [std::sort] uses it. *)
Definition pair_le (a b : block) : Prop :=
  blk_off a < blk_off b \/ blk_off a = blk_off b /\ blk_size a <= blk_size b.

#[export] Instance pair_le_dec a b : Decision (pair_le a b).
Proof. unfold pair_le. apply _. Defined.

(** The intervals of the claimed blocks, in address order. *)
Definition claimed_spans (c : KVRamCache) : list block :=
  merge_sort pair_le
    (omap (fun entry => if r_pinned (snd entry)
                        then Some (MkBlock (r_block (snd entry) - host_base (arena_ c)) (r_bytes (snd entry)))
                        else None) (map_to_list (records_ c))).

(** The largest interval left between claimed blocks from [begin] on. *)
Fixpoint largest_gap (begin largest cap : Z) (claimed : list block) : Z :=
  match claimed with
  | [] => Z.max largest (cap - begin)
  | b :: claimed => largest_gap (blk_off b + blk_size b) (Z.max largest (blk_off b - begin)) cap claimed
  end.

Inductive RamReserve : Type := Reserved (block : Z) | NeedsEviction | Dropped.

Definition drop_capture : st KVRamCache RamReserve := count_drop ;; bump_version ;; mret Dropped.

(** [capture] up to the point where it has a block, or gives up. *)
Definition capture_reserve (entry_bytes : Z) : st KVRamCache RamReserve :=
  c ← get;
  if host_cap (arena_ c) <? entry_bytes then drop_capture
  else
    reap_retired_locked ;;
    c ← get;
    let '(out, arena) := try_alloc entry_bytes kDeviceAlign (arena_ c) in
    put (set_arena c arena) ;;
    found ← lift out;
    match found with
    | Some block => mret (Reserved block)
    | None =>
        c ← get;
        if largest_gap 0 0 (host_cap (arena_ c)) (claimed_spans c) <? entry_bytes
        then drop_capture else mret NeedsEviction
    end.

(** The record of a new entry. *)
Definition new_record (src : RamRecord) (block entry_bytes event : Z) : RamRecord :=
  MkRecord (r_hash_f src) (r_hash_c src) (r_hash_c_valid src) (r_execution_frontier src)
    (r_checkpoint_frontier src) (r_checkpoint_valid src) (r_checkpoint_path src) (r_ladders src) block entry_bytes
    false false 0 (r_disk_entry_id src) (Some event) None.

(** The publication at the end of [capture]: [src] carries the source's index
    fields, [event] is the completion event recorded behind the copies. *)
Definition capture_publish (src : RamRecord) (block entry_bytes event : Z) : st KVRamCache Z :=
  c ← get;
  st_throw_if (next_id_ c =? 0) logic_error ;;
  let id := next_id_ c in
  put (MkCache (arena_ c) (fifo_ c) (records_ c) (pending_save_ids_ c) (pending_load_ids_ c)
         (wrap64 (next_id_ c + 1)) (index_version_ c) (captures_ c) (restores_ c) (evictions_ c) (drops_ c)) ;;
  st_throw_if (bool_decide (is_Some (records_ c !! id))) logic_error ;;
  put (MkCache (arena_ c) (fifo_ c ++ [id])
         (<[id := new_record src block entry_bytes event]> (records_ c))
         (pending_save_ids_ c ++ [id]) (pending_load_ids_ c) (wrap64 (next_id_ c + 1))
         (index_version_ c) (wrap64 (captures_ c + 1)) (restores_ c) (evictions_ c) (drops_ c)) ;;
  bump_version ;;
  mret id.

(** A capture that failed before its record was inserted returns the block. *)
Definition capture_abort (block : Z) : st KVRamCache unit :=
  c ← get;
  let '(out, arena) := host_free_block block (arena_ c) in
  put (set_arena c arena) ;; lift out.
End index.
