(* ===== verification/RamIndexTheorems.v ===== *)
(** * The RAM cache index: invariant, lifetime of blocks, room for a capture *)

From stdpp Require Import prelude list list_numbers sorting gmap.
From Stdlib Require Import ZArith Lia.
From S2P Require Import Prelude.
From S2P Require Import HostArena.
From S2P Require Import PrefixIdentity.
From S2P Require Import RamFormat.
From S2P Require Import ContextReuse.
From S2P Require Import RamIndex.
#[local] Open Scope Z_scope.

(** [flight] is the block a capture holds between its reservation and its
    publication: the arena knows it, the table does not. *)
Record ram_ok (c : KVRamCache) (flight : option (Z * Z)) : Prop := MkRamOk {
  ro_arena : host_ok (arena_ c);
  ro_nodup : NoDup (fifo_ c);
  ro_fifo : forall id, id ∈ fifo_ c <-> exists r, records_ c !! id = Some r /\ r_retired r = false;
  ro_retired : forall id r, records_ c !! id = Some r -> r_retired r = true -> r_pinned r = false;
  ro_pins : forall id r, records_ c !! id = Some r -> 0 <= r_io_pins r;
  ro_next : u64 (next_id_ c);
  ro_ids : forall id r, records_ c !! id = Some r -> 0 < id /\ (next_id_ c = 0 \/ id < next_id_ c);
  ro_block : forall id r, records_ c !! id = Some r ->
    exists b, host_live (arena_ c) !! r_block r = Some b /\ blk_size b = r_bytes r;
  ro_inj : forall id id' r r', records_ c !! id = Some r -> records_ c !! id' = Some r' ->
    r_block r = r_block r' -> id = id';
  ro_flight : forall p n, flight = Some (p, n) ->
    (exists b, host_live (arena_ c) !! p = Some b /\ blk_size b = n) /\
    forall id r, records_ c !! id = Some r -> r_block r <> p;
  ro_no_leak : forall p b, host_live (arena_ c) !! p = Some b ->
    (exists id r, records_ c !! id = Some r /\ r_block r = p) \/ exists n, flight = Some (p, n);
}.

(** The fields the invariant reads. *)
Lemma ram_ok_ext c c' fl :
  arena_ c' = arena_ c -> fifo_ c' = fifo_ c -> records_ c' = records_ c -> next_id_ c' = next_id_ c ->
  ram_ok c fl -> ram_ok c' fl.
Proof. intros E1 E2 E3 E4 []. split; rewrite ?E1, ?E2, ?E3, ?E4; done. Qed.

Lemma record_block_pos c fl id r : ram_ok c fl -> records_ c !! id = Some r -> 0 < r_block r.
Proof.
  intros Hok Hr. destruct (ro_block _ _ Hok id r Hr) as (b & Hb & _).
  pose proof (ro_arena _ _ Hok) as Ha. destruct (ok_live _ Ha _ _ Hb) as [-> _].
  destruct (ok_bounds _ b Ha) as (_ & ? & _); [right; by apply live_blocks_elem; eauto|].
  pose proof (ok_base _ Ha). lia.
Qed.

(** Changing an entry's flags: it keeps its block, and its place in the order. *)
Lemma ram_update_ok c fl id r r' :
  ram_ok c fl -> records_ c !! id = Some r -> r_block r' = r_block r -> r_bytes r' = r_bytes r ->
  r_retired r' = r_retired r -> (r_retired r' = true -> r_pinned r' = false) -> 0 <= r_io_pins r' ->
  ram_ok (set_records c (<[id := r']> (records_ c))) fl.
Proof.
  intros Hok Hr Eb En Et Hp Hi. destruct Hok as [Ha Hnd Hf Hret Hpin Hnx Hids Hblk Hinj Hfl Hleak].
  split; cbn [arena_ fifo_ records_ next_id_ set_records]; try done.
  - intros j. rewrite Hf. destruct (decide (j = id)) as [->|Hne].
    + rewrite lookup_insert_eq. split; intros (x & Hx & Hx'); eexists; (split; [done|]); congruence.
    + by rewrite lookup_insert_ne.
  - intros j x. rewrite lookup_insert_Some. intros [[<- <-]|[_ Hx]]; eauto.
  - intros j x. rewrite lookup_insert_Some. intros [[<- <-]|[_ Hx]]; eauto.
  - intros j x. rewrite lookup_insert_Some. intros [[<- <-]|[_ Hx]]; eauto.
  - intros j x. rewrite lookup_insert_Some. intros [[<- <-]|[_ Hx]]; [rewrite Eb, En|]; eauto.
  - intros j k x y. rewrite !lookup_insert_Some.
    intros [[<- <-]|[_ Hx]] [[<- <-]|[_ Hy]] E; [done|..]; rewrite ?Eb in E; eauto.
  - intros p n E. destruct (Hfl p n E) as [H1 H2]. split; [done|].
    intros j x. rewrite lookup_insert_Some. intros [[<- <-]|[_ Hx]]; [rewrite Eb|]; eauto.
  - intros p b Hb. destruct (Hleak p b Hb) as [(j & x & Hx & Ex)|?]; [left|by right].
    destruct (decide (j = id)) as [->|Hne].
    + exists id, r'. rewrite lookup_insert_eq. split; congruence.
    + exists j, x. by rewrite lookup_insert_ne.
Qed.

Lemma host_free_geometry p a a' :
  host_free_block p a = (Ok tt, a') -> host_base a' = host_base a /\ host_cap a' = host_cap a.
Proof.
  unfold host_free_block, mbind, st_bind, get, put, st_throw_if, lift, throw_if.
  intros H. repeat case_match; by simplify_eq.
Qed.

(** Freeing a retired entry: its block goes back to the arena, nothing else moves. *)
Lemma free_entry_ok c fl id r :
  ram_ok c fl -> records_ c !! id = Some r -> r_retired r = true ->
  exists arena, free_entry id r c =
    (Ok tt, set_records (set_arena c arena) (delete id (records_ c))) /\
    ram_ok (set_records (set_arena c arena) (delete id (records_ c))) fl /\
    host_base arena = host_base (arena_ c) /\ host_cap arena = host_cap (arena_ c).
Proof.
  intros Hok Hr Ht. destruct (ro_block _ _ Hok id r Hr) as (b & Hb & _).
  destruct (host_free_spec _ _ b (ro_arena _ _ Hok) Hb) as (arena & Ef & Hao & Hlive & _).
  pose proof (record_block_pos c fl id r Hok Hr) as Hpos.
  exists arena. split.
  { unfold free_entry, free_block_locked. replace (r_block r =? 0) with false by lia.
    unfold mbind, st_bind, get, put, lift, erase_record. rewrite Ef. done. }
  split; [|by eapply host_free_geometry].
  destruct Hok as [Ha Hnd Hf Hret Hpin Hnx Hids Hblk Hinj Hfl Hleak].
  split; cbn [arena_ fifo_ records_ next_id_ set_records set_arena]; try done.
  - intros j. rewrite Hf. destruct (decide (j = id)) as [->|Hne].
    + rewrite lookup_delete_eq. split; [|by intros (? & ? & _)]. intros (x & Hx & Hx'). congruence.
    + by rewrite lookup_delete_ne.
  - intros j x [_ Hx]%lookup_delete_Some. eauto.
  - intros j x [_ Hx]%lookup_delete_Some. eauto.
  - intros j x [_ Hx]%lookup_delete_Some. eauto.
  - intros j x [Hne Hx]%lookup_delete_Some. rewrite Hlive.
    rewrite lookup_delete_ne by (intros E; apply Hne; by eapply Hinj). eauto.
  - intros j k x y [_ Hx]%lookup_delete_Some [_ Hy]%lookup_delete_Some. by apply Hinj.
  - intros p n E. destruct (Hfl p n E) as [H1 H2]. rewrite Hlive. split.
    + rewrite lookup_delete_ne by eauto. done.
    + intros j x [_ Hx]%lookup_delete_Some. eauto.
  - intros p b'. rewrite Hlive. intros [Hne Hb']%lookup_delete_Some.
    destruct (Hleak p b' Hb') as [(j & x & Hx & Ex)|?]; [left|by right].
    exists j, x. split; [|done]. rewrite lookup_delete_ne; [done|]. intros <-. congruence.
Qed.

(** Only the arena and the table changed. *)
Definition same_index (c c' : KVRamCache) : Prop :=
  fifo_ c' = fifo_ c /\ pending_save_ids_ c' = pending_save_ids_ c /\
  pending_load_ids_ c' = pending_load_ids_ c /\ next_id_ c' = next_id_ c /\ drops_ c' = drops_ c /\
  host_base (arena_ c') = host_base (arena_ c) /\ host_cap (arena_ c') = host_cap (arena_ c).

Section steps.
Context (ready : Z -> bool).

(** The sweep over the entries [l], all of them still in the table. *)
Lemma reap_loop_ok fl l : forall c,
  ram_ok c fl -> NoDup l.*1 -> (forall id r, (id, r) ∈ l -> records_ c !! id = Some r) ->
  exists c',
    for_each l (fun entry => if retired_free_locked ready (snd entry)
                             then free_entry (fst entry) (snd entry) else mret tt) c = (Ok tt, c') /\
    ram_ok c' fl /\ same_index c c' /\
    forall id, records_ c' !! id =
      match records_ c !! id with
      | Some r => if bool_decide ((id, r) ∈ l) && retired_free_locked ready r then None else Some r
      | None => None
      end.
Proof.
  induction l as [|[id r] l IH]; intros c Hok Hnd Hl.
  { exists c. split_and!; [done|done|done|]. intros j. destruct (records_ c !! j); [|done].
    rewrite bool_decide_eq_false_2; [done|]. by apply not_elem_of_nil. }
  cbn [for_each fst snd]. rewrite fmap_cons in Hnd. apply NoDup_cons in Hnd as [Hnot Hnd]. cbn [fst] in Hnot.
  assert (records_ c !! id = Some r) as Hr by (apply Hl; by left).
  assert (forall x, (id, x) ∉ l) as Hnx by (intros x Hx; apply Hnot; apply list_elem_of_fmap; by exists (id, x)).
  destruct (retired_free_locked ready r) eqn:Efree.
  - assert (r_retired r = true) as Ht.
    { unfold retired_free_locked in Efree. destruct (r_retired r); [done|]. discriminate. }
    destruct (free_entry_ok c fl id r Hok Hr Ht) as (arena & E & Hok1 & Gb & Gc).
    set (c1 := set_records (set_arena c arena) (delete id (records_ c))) in *.
    destruct (IH c1 Hok1 Hnd) as (c' & E' & Hok' & Hsame & Hlook).
    { intros j x Hx. cbn. rewrite lookup_delete_ne; [apply Hl; by right|]. intros <-. by apply (Hnx x). }
    exists c'. rewrite (st_bind_Ok _ _ _ _ _ E). split_and!; [done|done|..].
    { destruct Hsame as (S1 & S2 & S3 & S4 & S5 & S6 & S7). cbn in *. split_and!; congruence. }
    intros j. rewrite Hlook. cbn [c1 records_ set_records]. destruct (decide (j = id)) as [->|Hne].
    + rewrite lookup_delete_eq, Hr, Efree, bool_decide_eq_true_2 by (by left). done.
    + rewrite lookup_delete_ne by done. destruct (records_ c !! j) as [x|]; [|done].
      erewrite bool_decide_ext; [done|]. rewrite elem_of_cons.
      split; [by right|]. by intros [[= ? ?]|?].
  - rewrite (st_bind_Ok _ _ c tt c) by done.
    destruct (IH c Hok Hnd) as (c' & E' & Hok' & Hsame & Hlook); [intros j x Hx; apply Hl; by right|].
    exists c'. split_and!; [done|done|apply Hsame..|]. intros j. rewrite Hlook.
    destruct (records_ c !! j) as [x|] eqn:Ex; [|done]. destruct (decide (j = id)) as [->|Hne].
    + assert (x = r) as -> by congruence. by rewrite Efree, !andb_false_r.
    + erewrite bool_decide_ext; [done|]. rewrite elem_of_cons.
      split; [by right|]. by intros [[= ? ?]|?].
Qed.

(** [reap_retired_locked] frees exactly the retired entries without pins whose
    fences are complete. *)
Lemma reap_ok c fl :
  ram_ok c fl ->
  exists c', reap_retired_locked ready c = (Ok tt, c') /\ ram_ok c' fl /\ same_index c c' /\
    forall id, records_ c' !! id =
      match records_ c !! id with
      | Some r => if retired_free_locked ready r then None else Some r
      | None => None
      end.
Proof.
  intros Hok. unfold reap_retired_locked. rewrite (st_bind_Ok _ _ c c c) by done.
  destruct (reap_loop_ok fl (map_to_list (records_ c)) c Hok) as (c' & E & Hok' & Hs & Hl).
  - apply NoDup_fst_map_to_list.
  - intros id r Hin. by apply elem_of_map_to_list.
  - exists c'. split_and!; [done|done|apply Hs..|]. intros id. rewrite Hl.
    destruct (records_ c !! id) as [r|] eqn:Er; [|done].
    rewrite bool_decide_eq_true_2 by (by apply elem_of_map_to_list). done.
Qed.

(** Retiring a live entry takes it out of the order; its block is freed at once
    when nothing reads it. *)
Lemma retire_ok c fl id r :
  ram_ok c fl -> records_ c !! id = Some r -> r_retired r = false ->
  exists c', retire_locked ready id c = (Ok tt, c') /\ ram_ok c' fl /\
    fifo_ c' = filter (.≠ id) (fifo_ c) /\ next_id_ c' = next_id_ c /\
    records_ c' !! id = (if retired_free_locked ready (set_retired r) then None else Some (set_retired r)) /\
    forall j, j <> id -> records_ c' !! j = records_ c !! j.
Proof.
  intros Hok Hr Ht. unfold retire_locked. rewrite (st_bind_Ok _ _ c c c) by done. rewrite Hr, Ht.
  set (c1 := MkCache (arena_ c) (filter (.≠ id) (fifo_ c)) (<[id := set_retired r]> (records_ c))
    (filter (.≠ id) (pending_save_ids_ c)) (filter (.≠ id) (pending_load_ids_ c)) (next_id_ c)
    (wrap64 (index_version_ c + 1)) (captures_ c) (restores_ c) (evictions_ c) (drops_ c)).
  assert (ram_ok c1 fl) as Hok1.
  { destruct Hok as [Ha Hnd Hf Hret Hpin Hnx Hids Hblk Hinj Hfl Hleak].
    split; cbn [c1 arena_ fifo_ records_ next_id_]; try done.
    - by apply NoDup_filter.
    - intros j. rewrite list_elem_of_filter, Hf. destruct (decide (j = id)) as [->|Hne].
      + rewrite lookup_insert_eq. split; [by intros [? _]|]. by intros (x & [= <-] & ?).
      + rewrite lookup_insert_ne by done. split; [by intros [_ ?]|done].
    - intros j x. rewrite lookup_insert_Some. intros [[<- <-]|[_ Hx]]; [done|eauto].
    - intros j x. rewrite lookup_insert_Some. intros [[<- <-]|[_ Hx]]; [exact (Hpin id r Hr)|eauto].
    - intros j x. rewrite lookup_insert_Some. intros [[<- <-]|[_ Hx]]; eauto.
    - intros j x. rewrite lookup_insert_Some. intros [[<- <-]|[_ Hx]]; [exact (Hblk id r Hr)|eauto].
    - intros j k x y. rewrite !lookup_insert_Some.
      intros [[<- <-]|[_ Hx]] [[<- <-]|[_ Hy]] E; [done|exact (Hinj _ _ _ _ Hr Hy E)|exact (Hinj _ _ _ _ Hx Hr E)|exact (Hinj _ _ _ _ Hx Hy E)].
    - intros p n E. destruct (Hfl p n E) as [H1 H2]. split; [done|].
      intros j x. rewrite lookup_insert_Some. intros [[<- <-]|[_ Hx]]; [exact (H2 id r Hr)|eauto].
    - intros p b Hb. destruct (Hleak p b Hb) as [(j & x & Hx & Ex)|?]; [left|by right].
      destruct (decide (j = id)) as [->|Hne].
      + exists id, (set_retired r). rewrite lookup_insert_eq. split; [done|]. cbn. congruence.
      + exists j, x. by rewrite lookup_insert_ne. }
  rewrite (st_bind_Ok _ _ c tt (set_records c (<[id := set_retired r]> (records_ c)))) by done.
  erewrite (st_bind_Ok (drop_fifo id)) by reflexivity. erewrite (st_bind_Ok (drop_pending_id id)) by reflexivity.
  erewrite (st_bind_Ok bump_version) by reflexivity.
  change (exists c', (if retired_free_locked ready (set_retired r) then free_entry id (set_retired r)
    else mret tt) c1 = (Ok tt, c') /\ ram_ok c' fl /\ fifo_ c' = fifo_ c1 /\ next_id_ c' = next_id_ c1 /\
    records_ c' !! id = (if retired_free_locked ready (set_retired r) then None else Some (set_retired r)) /\
    forall j, j <> id -> records_ c' !! j = records_ c !! j).
  destruct (retired_free_locked ready (set_retired r)).
  - destruct (free_entry_ok c1 fl id (set_retired r) Hok1) as (arena & E & Hok2 & _);
      [apply lookup_insert_eq|done|].
    eexists. split_and!; [exact E|done|done|done|apply lookup_delete_eq|].
    intros j Hj. cbn. by rewrite lookup_delete_ne, lookup_insert_ne.
  - exists c1. split_and!; [done|done|done|done|apply lookup_insert_eq|].
    intros j Hj. cbn. by rewrite lookup_insert_ne.
Qed.
End steps.

(** ** Transitions *)
Inductive ram_op : Type :=
| OpClaim (id : Z) | OpRelease (id : Z) | OpConsume (id : Z) | OpReleaseRestored (id : Z)
| OpDiscard (id : Z) | OpPin (id : Z) | OpUnpin (id : Z) | OpEvict (id : Z)
| OpTicket (id disk_id : Z) | OpDrop | OpPinRetired | OpUnpinEvents (ids : list Z)
| OpReserve (entry_bytes : Z) | OpPublish (src : RamRecord) (event : Z) | OpAbort.

(** The cache with the block of a capture in progress. *)
Definition ram_world : Type := KVRamCache * option (Z * Z).

Definition ram_exec (ready : Z -> bool) (o : ram_op) (w : ram_world) : ram_world :=
  let (c, fl) := w in
  match o with
  | OpClaim id => (snd (claim id c), fl)
  | OpRelease id => (snd (release id c), fl)
  | OpConsume id => (snd (consume ready id c), fl)
  | OpReleaseRestored id => (snd (release_restored id c), fl)
  | OpDiscard id => (snd (discard ready id c), fl)
  | OpPin id => (snd (pin_for_io id c), fl)
  | OpUnpin id => (snd (unpin_for_io ready id c), fl)
  | OpEvict id => (snd (evict_one_unpinned ready id c), fl)
  | OpTicket id disk_id => (snd (set_disk_entry_id id disk_id c), fl)
  | OpDrop => (snd (record_drop c), fl)
  | OpPinRetired => (snd (pin_retired ready c), fl)
  | OpUnpinEvents ids => (snd (unpin_copy_events ready ids c), fl)
  | OpReserve n =>
      match capture_reserve ready n c with
      | (Ok (Reserved p), c') => (c', Some (p, n))
      | (_, c') => (c', fl)
      end
  | OpPublish src event =>
      match fl with
      | Some (p, n) =>
          match capture_publish src p n event c with
          | (Ok _, c') => (c', None)
          | (Throw _, c') => (c', fl)
          end
      | None => w
      end
  | OpAbort =>
      match fl with Some (p, _) => (snd (capture_abort p c), None) | None => w end
  end.

(** One capture runs at a time; fewer than 2^32 readers hold an entry. *)
Definition ram_callable (o : ram_op) (w : ram_world) : Prop :=
  match o with
  | OpReserve n => snd w = None /\ 0 < n /\
      host_base (arena_ (fst w)) + host_cap (arena_ (fst w)) + kDeviceAlign <= size_max
  | OpPublish _ _ | OpAbort => is_Some (snd w)
  | OpPin id => forall r, records_ (fst w) !! id = Some r -> r_io_pins r < u32_max
  | _ => True
  end.

(** How many pins of [id] a call gives back. *)
Definition unpins (o : ram_op) (id : Z) : Z :=
  match o with
  | OpUnpin j => if decide (j = id) then 1 else 0
  | OpUnpinEvents ids => Z.of_nat (length (filter (.= id) ids))
  | _ => 0
  end.

(** What a call does to the entries that were there: one that stays keeps its
    block and fences, loses no pin it was not asked to drop, and is not retired
    while it is claimed, unless it is being consumed; one that goes had its fences
    complete and no other pin. *)
Definition kept (ready : Z -> bool) (c c' : KVRamCache) (U : Z -> Z) (taken : Z -> bool) : Prop :=
  forall id r, records_ c !! id = Some r ->
    match records_ c' !! id with
    | Some r' =>
        r_block r' = r_block r /\ r_bytes r' = r_bytes r /\ r_copies_done r' = r_copies_done r /\
        r_block_done r' = r_block_done r /\ r_io_pins r - U id <= r_io_pins r' /\
        (r_pinned r = true -> taken id = false -> r_retired r' = false)
    | None =>
        fence_ready ready (r_copies_done r) = true /\ fence_ready ready (r_block_done r) = true /\
        r_io_pins r <= U id /\ (r_pinned r = true -> taken id = true)
    end.

Definition none_taken (_ : Z) : bool := false.
Definition no_unpins (_ : Z) : Z := 0.

Section kept.
Context (ready : Z -> bool) (fl : option (Z * Z)).

Lemma kept_same c c' (U : Z -> Z) taken :
  ram_ok c fl -> records_ c' = records_ c -> (forall id, 0 <= U id) -> kept ready c c' U taken.
Proof.
  intros Hok E HU id r Hr. rewrite E, Hr. specialize (HU id). split_and!; [done..|lia|].
  intros Hp _. destruct (r_retired r) eqn:Et; [|done]. by rewrite (ro_retired _ _ Hok id r Hr Et) in Hp.
Qed.

Lemma kept_update c c' id r r' (U : Z -> Z) taken :
  ram_ok c fl -> records_ c !! id = Some r -> records_ c' = <[id := r']> (records_ c) ->
  (forall j, 0 <= U j) ->
  r_block r' = r_block r -> r_bytes r' = r_bytes r -> r_copies_done r' = r_copies_done r ->
  r_block_done r' = r_block_done r -> r_retired r' = r_retired r -> r_io_pins r - U id <= r_io_pins r' ->
  kept ready c c' U taken.
Proof.
  intros Hok Hr E HU E1 E2 E3 E4 E5 Hp j x Hx. rewrite E. destruct (decide (j = id)) as [->|Hne].
  - rewrite lookup_insert_eq. assert (x = r) as -> by congruence. split_and!; [done..|].
    intros Hpin _. rewrite E5. destruct (r_retired r) eqn:Et; [|done].
    by rewrite (ro_retired _ _ Hok id r Hr Et) in Hpin.
  - rewrite lookup_insert_ne by done. exact (kept_same c c U taken Hok eq_refl HU j x Hx).
Qed.

Lemma retired_free_facts r :
  retired_free_locked ready r = true ->
  r_retired r = true /\ r_io_pins r = 0 /\ fence_ready ready (r_copies_done r) = true /\
  fence_ready ready (r_block_done r) = true.
Proof.
  unfold retired_free_locked. destruct (r_retired r); [|done]. destruct (Z.eqb_spec (r_io_pins r) 0); [|done].
  simpl. intros [? ?]%andb_true_iff. done.
Qed.

(** What the sweep leaves, as a premise. *)
Definition reaped (c c' : KVRamCache) : Prop :=
  forall id, records_ c' !! id =
    match records_ c !! id with
    | Some r => if retired_free_locked ready r then None else Some r
    | None => None
    end.

Lemma kept_then_reap c c1 c2 U taken :
  kept ready c c1 U taken -> reaped c1 c2 -> kept ready c c2 U taken.
Proof.
  intros H1 H2 id r Hr. specialize (H1 id r Hr). rewrite H2.
  destruct (records_ c1 !! id) as [r1|]; [|done]. destruct H1 as (E1 & E2 & E3 & E4 & Hp & Ht).
  destruct (retired_free_locked ready r1) eqn:Ef; [|done].
  apply retired_free_facts in Ef as (F1 & F2 & F3 & F4). rewrite E3 in F3. rewrite E4 in F4.
  split_and!; [done|done|lia|]. intros Hpin. destruct (taken id) eqn:Et; [done|]. specialize (Ht Hpin eq_refl). congruence.
Qed.

Definition sound (c c' : KVRamCache) (U : Z -> Z) (taken : Z -> bool) : Prop :=
  ram_ok c' fl /\ kept ready c c' U taken.

(** Nothing the invariant reads changed. *)
Lemma sound_same c c' (U : Z -> Z) taken :
  ram_ok c fl -> arena_ c' = arena_ c -> fifo_ c' = fifo_ c -> records_ c' = records_ c ->
  next_id_ c' = next_id_ c -> (forall id, 0 <= U id) -> sound c c' U taken.
Proof. intros Hok E1 E2 E3 E4 HU. split; [by eapply ram_ok_ext|by apply kept_same]. Qed.

Lemma sound_refl c U taken : ram_ok c fl -> (forall id : Z, 0 <= U id) -> sound c c U taken.
Proof. intros. by apply sound_same. Qed.

(** One entry's flags changed. *)
Lemma sound_update c c' id r pinned io_pins (U : Z -> Z) taken :
  ram_ok c fl -> records_ c !! id = Some r ->
  records_ c' = <[id := set_flags r pinned (r_retired r) io_pins]> (records_ c) ->
  arena_ c' = arena_ c -> fifo_ c' = fifo_ c -> next_id_ c' = next_id_ c -> (forall j, 0 <= U j) ->
  (r_retired r = true -> pinned = false) -> 0 <= io_pins -> r_io_pins r - U id <= io_pins ->
  sound c c' U taken.
Proof.
  intros Hok Hr E E1 E2 E3 HU Hp H0 Hpins. split.
  - apply (ram_ok_ext (set_records c (<[id := set_flags r pinned (r_retired r) io_pins]> (records_ c)))); try done.
    by apply (ram_update_ok c fl id r).
  - by apply (kept_update c c' id r (set_flags r pinned (r_retired r) io_pins)).
Qed.

Lemma ram_require_cases id c :
  (exists r, records_ c !! id = Some r /\ r_retired r = false /\ ram_require id c = (Ok r, c)) \/
  ram_require id c = (Throw logic_error, c).
Proof.
  unfold ram_require. rewrite (st_bind_Ok _ _ c c c) by done.
  destruct (records_ c !! id) as [r|]; [|by right]. destruct (r_retired r) eqn:E; [by right|].
  left. by exists r.
Qed.

Lemma no_unpins_nonneg id : 0 <= no_unpins id.
Proof. done. Qed.

Lemma claim_sound id c : ram_ok c fl -> sound c (snd (claim id c)) no_unpins none_taken.
Proof.
  intros Hok. unfold claim. destruct (ram_require_cases id c) as [(r & Hr & Ht & E)|E].
  2: { rewrite (st_bind_Throw _ _ _ _ _ E). by apply sound_refl. }
  rewrite (st_bind_Ok _ _ _ _ _ E). destruct (r_pinned r); [by apply sound_refl|].
  pose proof (ro_pins _ _ Hok id r Hr).
  apply (sound_update c _ id r true (r_io_pins r)); try done; [congruence|unfold no_unpins; lia].
Qed.

Lemma release_sound id c : ram_ok c fl -> sound c (snd (release id c)) no_unpins none_taken.
Proof.
  intros Hok. unfold release. destruct (ram_require_cases id c) as [(r & Hr & Ht & E)|E].
  2: { rewrite (st_bind_Throw _ _ _ _ _ E). by apply sound_refl. }
  rewrite (st_bind_Ok _ _ _ _ _ E). destruct (r_pinned r); [|by apply sound_refl].
  pose proof (ro_pins _ _ Hok id r Hr).
  apply (sound_update c _ id r false (r_io_pins r)); try done. unfold no_unpins. lia.
Qed.

Lemma release_restored_sound id c :
  ram_ok c fl -> sound c (snd (release_restored id c)) no_unpins none_taken.
Proof.
  intros Hok. unfold release_restored. destruct (ram_require_cases id c) as [(r & Hr & Ht & E)|E].
  2: { rewrite (st_bind_Throw _ _ _ _ _ E). by apply sound_refl. }
  rewrite (st_bind_Ok _ _ _ _ _ E). destruct (r_pinned r); [|by apply sound_refl].
  pose proof (ro_pins _ _ Hok id r Hr).
  apply (sound_update c _ id r false (r_io_pins r)); try done. unfold no_unpins. lia.
Qed.

Lemma pin_sound id c :
  ram_ok c fl -> (forall r, records_ c !! id = Some r -> r_io_pins r < u32_max) ->
  sound c (snd (pin_for_io id c)) no_unpins none_taken.
Proof.
  intros Hok Hlt. unfold pin_for_io. destruct (ram_require_cases id c) as [(r & Hr & Ht & E)|E].
  2: { rewrite (st_bind_Throw _ _ _ _ _ E). by apply sound_refl. }
  rewrite (st_bind_Ok _ _ _ _ _ E). pose proof (ro_pins _ _ Hok id r Hr). specialize (Hlt r Hr).
  rewrite wrap32_id by width_lia.
  apply (sound_update c _ id r (r_pinned r) (r_io_pins r + 1)); try done; [congruence|lia|unfold no_unpins; lia].
Qed.

Lemma ticket_sound id disk_id c :
  ram_ok c fl -> sound c (snd (set_disk_entry_id id disk_id c)) no_unpins none_taken.
Proof.
  intros Hok. unfold set_disk_entry_id. rewrite (st_bind_Ok _ _ c c c) by done.
  destruct (records_ c !! id) as [r|] eqn:Hr; [|by apply sound_refl].
  destruct (r_retired r) eqn:Ht; [by apply sound_refl|].
  destruct ((r_block r =? 0) || (r_bytes r <? kDiskTicketOffset + 8)); [by apply sound_refl|].
  pose proof (ro_pins _ _ Hok id r Hr). split.
  - apply (ram_update_ok c fl id r); try done. cbn. congruence.
  - apply (kept_update c _ id r (set_disk_id r disk_id)); try done. unfold no_unpins. cbn. lia.
Qed.

Lemma drop_sound c : ram_ok c fl -> sound c (snd (record_drop c)) no_unpins none_taken.
Proof. intros Hok. by apply sound_same. Qed.

Lemma kept_reap_then c c1 c2 (U : Z -> Z) taken :
  ram_ok c fl -> (forall id, 0 <= U id) -> reaped c c1 ->
  (forall id, records_ c1 !! id = None -> records_ c2 !! id = None) ->
  kept ready c1 c2 U taken -> kept ready c c2 U taken.
Proof.
  intros Hok HU H1 Hnew H2 id r Hr. specialize (H1 id). rewrite Hr in H1.
  destruct (retired_free_locked ready r) eqn:Ef; [|by apply H2].
  apply retired_free_facts in Ef as (F1 & F2 & F3 & F4). specialize (HU id).
  rewrite (Hnew id H1). split_and!; [done|done|lia|]. intros Hp.
  by rewrite (ro_retired _ _ Hok id r Hr F1) in Hp.
Qed.

Lemma retire_sound c id r (U : Z -> Z) taken :
  ram_ok c fl -> records_ c !! id = Some r -> r_retired r = false ->
  (r_pinned r = true -> taken id = true) -> (forall j, 0 <= U j) ->
  exists c', retire_locked ready id c = (Ok tt, c') /\ sound c c' U taken /\
    forall j, records_ c !! j = None -> records_ c' !! j = None.
Proof.
  intros Hok Hr Ht Htk HU. destruct (retire_ok ready c fl id r Hok Hr Ht) as (c' & E & Hok' & _ & _ & Hid & Hoth).
  exists c'. split; [done|]. split; [split; [done|]|].
  - intros j x Hx. destruct (decide (j = id)) as [->|Hne].
    + assert (x = r) as -> by congruence. rewrite Hid. specialize (HU id).
      destruct (retired_free_locked ready (set_retired r)) eqn:Ef.
      * apply retired_free_facts in Ef as (F1 & F2 & F3 & F4). cbn in F2, F3, F4. split_and!; [done|done|lia|done].
      * cbn. split_and!; [done..|lia|]. intros Hp Hn. rewrite Htk in Hn by done. done.
    + rewrite Hoth by done. exact (kept_same c c U taken Hok eq_refl HU j x Hx).
  - intros j Hj. destruct (decide (j = id)) as [->|Hne]; [congruence|]. by rewrite Hoth.
Qed.

(** Reap, count, then retire: [consume], [discard] and [evict_one_unpinned]. *)
Lemma reap_retire_sound c c1 c2 id r (taken : Z -> bool) :
  ram_ok c fl -> ram_ok c1 fl -> reaped c c1 ->
  arena_ c2 = arena_ c1 -> fifo_ c2 = fifo_ c1 -> records_ c2 = records_ c1 -> next_id_ c2 = next_id_ c1 ->
  records_ c1 !! id = Some r -> r_retired r = false -> (r_pinned r = true -> taken id = true) ->
  exists c', retire_locked ready id c2 = (Ok tt, c') /\ sound c c' no_unpins taken.
Proof.
  intros Hok Hok1 Hre E1 E2 E3 E4 Hr Ht Htk.
  assert (ram_ok c2 fl) as Hok2 by (by eapply ram_ok_ext).
  destruct (retire_sound c2 id r no_unpins taken Hok2) as (c' & E & [Hok' Hk] & Hnew);
    [by rewrite E3|done|done|done|].
  exists c'. split; [done|]. split; [done|].
  apply (kept_reap_then c c2); [done|done| |done|done]. intros j. rewrite E3. apply Hre.
Qed.

(** A call that only reaped. *)
Lemma reap_only_sound c c1 (taken : Z -> bool) :
  ram_ok c fl -> ram_ok c1 fl -> reaped c c1 -> sound c c1 no_unpins taken.
Proof.
  intros Hok Hok1 Hre. split; [done|]. apply (kept_then_reap c c); [|done].
  by apply (kept_same c c).
Qed.

Definition taken_by (id : Z) (j : Z) : bool := bool_decide (j = id).

Lemma consume_sound id c : ram_ok c fl -> sound c (snd (consume ready id c)) no_unpins (taken_by id).
Proof.
  intros Hok. unfold consume. destruct (reap_ok ready c fl Hok) as (c1 & E & Hok1 & _ & Hre).
  rewrite (st_bind_Ok _ _ _ _ _ E). destruct (ram_require_cases id c1) as [(r & Hr & Ht & E1)|E1].
  2: { rewrite (st_bind_Throw _ _ _ _ _ E1). by apply reap_only_sound. }
  rewrite (st_bind_Ok _ _ _ _ _ E1). destruct (r_pinned r) eqn:Hp; [|by apply reap_only_sound].
  rewrite (st_bind_Ok _ _ c1 tt c1) by done. rewrite (st_bind_Ok count_restore _ c1 tt (snd (count_restore c1))) by done.
  destruct (reap_retire_sound c c1 (snd (count_restore c1)) id r (taken_by id)) as (c' & E' & Hs); try done.
  - intros _. unfold taken_by. by rewrite bool_decide_eq_true_2.
  - rewrite E'. exact Hs.
Qed.

Lemma discard_sound id c : ram_ok c fl -> sound c (snd (discard ready id c)) no_unpins none_taken.
Proof.
  intros Hok. unfold discard. destruct (reap_ok ready c fl Hok) as (c1 & E & Hok1 & _ & Hre).
  rewrite (st_bind_Ok _ _ _ _ _ E), (st_bind_Ok _ _ c1 c1 c1) by done.
  destruct (records_ c1 !! id) as [r|] eqn:Hr; [|by apply reap_only_sound].
  destruct (r_retired r) eqn:Ht; [by apply reap_only_sound|].
  destruct (r_pinned r) eqn:Hp; [by apply reap_only_sound|].
  rewrite (st_bind_Ok _ _ c1 tt c1) by done. rewrite (st_bind_Ok count_eviction _ c1 tt (snd (count_eviction c1))) by done.
  destruct (reap_retire_sound c c1 (snd (count_eviction c1)) id r none_taken) as (c' & E' & Hs); try done.
  - congruence.
  - rewrite E'. exact Hs.
Qed.

Lemma evict_sound id c :
  ram_ok c fl -> sound c (snd (evict_one_unpinned ready id c)) no_unpins none_taken.
Proof.
  intros Hok. unfold evict_one_unpinned. destruct (reap_ok ready c fl Hok) as (c1 & E & Hok1 & _ & Hre).
  rewrite (st_bind_Ok _ _ _ _ _ E), (st_bind_Ok _ _ c1 c1 c1) by done.
  destruct (records_ c1 !! id) as [r|] eqn:Hr; [|by apply reap_only_sound].
  destruct (r_retired r) eqn:Ht; [by apply reap_only_sound|].
  destruct (r_pinned r || negb (r_io_pins r =? 0)) eqn:Hp; [by apply reap_only_sound|].
  apply orb_false_iff in Hp as [Hp _]. rewrite (st_bind_Ok count_eviction _ c1 tt (snd (count_eviction c1))) by done.
  destruct (reap_retire_sound c c1 (snd (count_eviction c1)) id r none_taken) as (c' & E' & Hs); try done.
  - congruence.
  - rewrite (st_bind_Ok _ _ _ _ _ E'). exact Hs.
Qed.

(** Only pin counts changed, by at most [U] downwards. *)
Definition repinned (c c' : KVRamCache) (U : Z -> Z) : Prop :=
  arena_ c' = arena_ c /\ fifo_ c' = fifo_ c /\ next_id_ c' = next_id_ c /\
  forall j, match records_ c !! j with
            | Some r => exists p, records_ c' !! j = Some (set_io_pins r p) /\ 0 <= p /\ r_io_pins r - U j <= p
            | None => records_ c' !! j = None
            end.

Lemma set_io_pins_same r : set_io_pins r (r_io_pins r) = r.
Proof. by destruct r. Qed.

Lemma repinned_refl c : ram_ok c fl -> repinned c c no_unpins.
Proof.
  intros Hok. split_and!; [done..|]. intros j. destruct (records_ c !! j) as [r|] eqn:Hr; [|done].
  exists (r_io_pins r). pose proof (ro_pins _ _ Hok j r Hr). rewrite set_io_pins_same.
  split_and!; [done|lia|unfold no_unpins; lia].
Qed.

Lemma repinned_trans c c1 c2 U V :
  repinned c c1 U -> repinned c1 c2 V -> repinned c c2 (fun j => U j + V j).
Proof.
  intros (A1 & A2 & A3 & A4) (B1 & B2 & B3 & B4). split_and!; [congruence..|].
  intros j. specialize (A4 j). specialize (B4 j). destruct (records_ c !! j) as [r|].
  - destruct A4 as (p & E & Hp & Hle). rewrite E in B4. destruct B4 as (q & E' & Hq & Hle'). exists q.
    cbn in Hle'. split_and!; [done|done|lia].
  - by rewrite A4 in B4.
Qed.

Lemma repinned_put c id r p (U : Z -> Z) :
  ram_ok c fl -> records_ c !! id = Some r -> 0 <= p -> r_io_pins r - U id <= p -> (forall j, 0 <= U j) ->
  repinned c (set_records c (<[id := set_io_pins r p]> (records_ c))) U.
Proof.
  intros Hok Hr Hp Hle HU. split_and!; [done..|]. intros j. cbn [records_ set_records].
  destruct (decide (j = id)) as [->|Hne].
  - rewrite Hr, lookup_insert_eq. by exists p.
  - rewrite lookup_insert_ne by done. destruct (records_ c !! j) as [x|] eqn:Hx; [|done].
    exists (r_io_pins x). pose proof (ro_pins _ _ Hok j x Hx). specialize (HU j).
    rewrite set_io_pins_same. split_and!; [done|lia|lia].
Qed.

Lemma repinned_inv c c' U j r' :
  repinned c c' U -> records_ c' !! j = Some r' ->
  exists r p, records_ c !! j = Some r /\ r' = set_io_pins r p /\ 0 <= p.
Proof.
  intros (_ & _ & _ & H) Hr'. specialize (H j). destruct (records_ c !! j) as [r|]; [|congruence].
  destruct H as (p & E & Hp & _). exists r, p. split_and!; [done|congruence|done].
Qed.

Lemma repinned_fwd c c' U j r :
  repinned c c' U -> records_ c !! j = Some r -> exists p, records_ c' !! j = Some (set_io_pins r p).
Proof. intros (_ & _ & _ & H) Hr. specialize (H j). rewrite Hr in H. destruct H as (p & E & _). eauto. Qed.

Lemma repinned_ok c c' U : ram_ok c fl -> repinned c c' U -> ram_ok c' fl.
Proof.
  intros [Ha Hnd Hf Hret Hpin Hnx Hids Hblk Hinj Hfl Hleak] Hrp. pose proof Hrp as (E1 & E2 & E3 & _).
  split; rewrite ?E1, ?E2, ?E3; try done.
  - intros j. rewrite Hf. split.
    + intros (r & Hr & Ht). destruct (repinned_fwd _ _ _ _ _ Hrp Hr) as [p Hp]. by exists (set_io_pins r p).
    + intros (r' & Hr' & Ht). destruct (repinned_inv _ _ _ _ _ Hrp Hr') as (r & p & Hr & -> & _). by exists r.
  - intros j x Hx. destruct (repinned_inv _ _ _ _ _ Hrp Hx) as (r & p & Hr & -> & _). exact (Hret j r Hr).
  - intros j x Hx. by destruct (repinned_inv _ _ _ _ _ Hrp Hx) as (r & p & Hr & -> & ?).
  - intros j x Hx. destruct (repinned_inv _ _ _ _ _ Hrp Hx) as (r & p & Hr & -> & _). exact (Hids j r Hr).
  - intros j x Hx. destruct (repinned_inv _ _ _ _ _ Hrp Hx) as (r & p & Hr & -> & _). exact (Hblk j r Hr).
  - intros j k x y Hx Hy. destruct (repinned_inv _ _ _ _ _ Hrp Hx) as (r & p & Hr & -> & _).
    destruct (repinned_inv _ _ _ _ _ Hrp Hy) as (q & p' & Hq & -> & _). exact (Hinj j k r q Hr Hq).
  - intros p n E. destruct (Hfl p n E) as [H1 H2]. split; [done|].
    intros j x Hx. destruct (repinned_inv _ _ _ _ _ Hrp Hx) as (r & p' & Hr & -> & _). exact (H2 j r Hr).
  - intros p b Hb. destruct (Hleak p b Hb) as [(j & x & Hx & Ex)|?]; [left|by right].
    destruct (repinned_fwd _ _ _ _ _ Hrp Hx) as [q Hq]. by exists j, (set_io_pins x q).
Qed.

Lemma repinned_sound c c' (U : Z -> Z) taken :
  ram_ok c fl -> repinned c c' U -> sound c c' U taken.
Proof.
  intros Hok Hrp. split; [by eapply repinned_ok|]. intros j r Hr. pose proof Hrp as (_ & _ & _ & H).
  specialize (H j). rewrite Hr in H. destruct H as (p & -> & Hp & Hle). cbn. split_and!; [done..|].
  intros Hpin _. destruct (r_retired r) eqn:Et; [|done]. by rewrite (ro_retired _ _ Hok j r Hr Et) in Hpin.
Qed.

Lemma unpin_sound id c :
  ram_ok c fl -> sound c (snd (unpin_for_io ready id c)) (unpins (OpUnpin id)) none_taken.
Proof.
  intros Hok. assert (forall j, 0 <= unpins (OpUnpin id) j) as HU by (intros j; cbn; by destruct (decide _)).
  unfold unpin_for_io. rewrite (st_bind_Ok _ _ c c c) by done.
  destruct (records_ c !! id) as [r|] eqn:Hr; [|by apply sound_refl].
  pose proof (ro_pins _ _ Hok id r Hr) as Hp0.
  destruct (Z.eqb_spec (r_io_pins r) 0) as [|Hne]; [by apply sound_refl|].
  rewrite (st_bind_Ok _ _ c tt c) by done. set (r1 := set_io_pins r (r_io_pins r - 1)).
  set (c1 := set_records c (<[id := r1]> (records_ c))). rewrite (st_bind_Ok _ _ c tt c1) by done.
  assert (repinned c c1 (unpins (OpUnpin id))) as Hrp.
  { apply repinned_put; [done|done|lia| |done]. cbn. rewrite decide_True by done. lia. }
  destruct (repinned_sound c c1 _ none_taken Hok Hrp) as [Hok1 Hk1].
  destruct (retired_free_locked ready r1) eqn:Ef; [|by split].
  apply retired_free_facts in Ef as (F1 & F2 & F3 & F4).
  destruct (free_entry_ok c1 fl id r1 Hok1) as (arena & E & Hok2 & _); [apply lookup_insert_eq|done|].
  rewrite E. cbn [snd]. split; [done|]. intros j x Hx. cbn [records_ set_records].
  specialize (Hk1 j x Hx). destruct (decide (j = id)) as [->|Hj]; [|by rewrite lookup_delete_ne].
  rewrite lookup_delete_eq. assert (x = r) as -> by congruence. cbn in F2. cbn. rewrite decide_True by done.
  split_and!; [done|done|lia|]. intros Hp. by rewrite (ro_retired _ _ Hok id r Hr F1) in Hp.
Qed.

Lemma unpin_loop_ok ids : forall c, ram_ok c fl ->
  exists c', for_each ids (fun id =>
      c ← get;
      match records_ c !! id with
      | Some r => if r_io_pins r =? 0 then mret tt else put_record id (set_io_pins r (r_io_pins r - 1))
      | None => mret tt
      end) c = (Ok tt, c') /\ repinned c c' (unpins (OpUnpinEvents ids)).
Proof.
  induction ids as [|id ids IH]; intros c Hok; [exists c; split; [done|by apply repinned_refl]|].
  cbn [for_each].
  assert (exists c1, (c ← get;
      match records_ c !! id with
      | Some r => if r_io_pins r =? 0 then mret tt else put_record id (set_io_pins r (r_io_pins r - 1))
      | None => mret tt
      end) c = (Ok tt, c1) /\ repinned c c1 (unpins (OpUnpin id))) as (c1 & E & Hrp).
  { rewrite (st_bind_Ok _ _ c c c) by done.
    assert (repinned c c (unpins (OpUnpin id))) as Hrefl.
    { destruct (repinned_refl c Hok) as (? & ? & ? & H). split_and!; [done..|]. intros j. specialize (H j).
      destruct (records_ c !! j); [|done]. destruct H as (p & ? & ? & Hle). exists p.
      split_and!; [done|done|]. unfold no_unpins in Hle. cbn. destruct (decide _); lia. }
    destruct (records_ c !! id) as [r|] eqn:Hr; [|by exists c]. destruct (Z.eqb_spec (r_io_pins r) 0); [by exists c|].
    eexists. split; [reflexivity|]. pose proof (ro_pins _ _ Hok id r Hr).
    apply repinned_put; [done|done|lia|cbn; rewrite decide_True by done; lia|].
    intros j. cbn. by destruct (decide _). }
  rewrite (st_bind_Ok _ _ _ _ _ E). destruct (IH c1 (repinned_ok _ _ _ Hok Hrp)) as (c' & E' & Hrp').
  exists c'. split; [done|]. destruct (repinned_trans _ _ _ _ _ Hrp Hrp') as (? & ? & ? & H).
  split_and!; [done..|]. intros j. specialize (H j). destruct (records_ c !! j); [|done].
  destruct H as (p & ? & ? & Hle). exists p. split_and!; [done|done|]. cbn [unpins] in *.
  rewrite filter_cons. destruct (decide (id = j)); cbn [length]; lia.
Qed.

Lemma unpin_events_sound ids c :
  ram_ok c fl -> sound c (snd (unpin_copy_events ready ids c)) (unpins (OpUnpinEvents ids)) none_taken.
Proof.
  intros Hok. unfold unpin_copy_events. destruct (unpin_loop_ok ids c Hok) as (c1 & E & Hrp).
  rewrite (st_bind_Ok _ _ _ _ _ E). destruct (repinned_sound _ _ _ none_taken Hok Hrp) as [Hok1 Hk].
  destruct (reap_ok ready c1 fl Hok1) as (c2 & -> & Hok2 & _ & Hre). split; [done|].
  by apply (kept_then_reap c c1).
Qed.

Lemma pin_loop_ok l : forall c, ram_ok c fl -> NoDup l.*1 ->
  (forall id r, (id, r) ∈ l -> records_ c !! id = Some r /\ r_io_pins r = 0) ->
  exists c', for_each l (fun entry =>
      put_record (fst entry) (set_io_pins (snd entry) (wrap32 (r_io_pins (snd entry) + 1)))) c = (Ok tt, c') /\
    repinned c c' no_unpins.
Proof.
  induction l as [|[id r] l IH]; intros c Hok Hnd Hl; [exists c; split; [done|by apply repinned_refl]|].
  rewrite fmap_cons in Hnd. apply NoDup_cons in Hnd as [Hnot Hnd]. cbn [for_each fst snd] in *.
  destruct (Hl id r) as [Hr Hp]; [by left|].
  set (c1 := set_records c (<[id := set_io_pins r (wrap32 (r_io_pins r + 1))]> (records_ c))).
  rewrite (st_bind_Ok _ _ c tt c1) by done.
  assert (repinned c c1 no_unpins) as Hrp by (apply repinned_put; rewrite ?Hp; done).
  destruct (IH c1 (repinned_ok _ _ _ Hok Hrp) Hnd) as (c' & E & Hrp').
  - intros j x Hx. cbn [c1 records_ set_records]. rewrite lookup_insert_ne; [apply Hl; by right|].
    intros <-. apply Hnot. apply list_elem_of_fmap. by exists (id, x).
  - exists c'. split; [done|]. by apply (repinned_trans _ _ _ _ _ Hrp).
Qed.

Lemma pin_retired_sound c : ram_ok c fl -> sound c (snd (pin_retired ready c)) no_unpins none_taken.
Proof.
  intros Hok. unfold pin_retired. destruct (reap_ok ready c fl Hok) as (c1 & E & Hok1 & _ & Hre).
  rewrite (st_bind_Ok _ _ _ _ _ E), (st_bind_Ok _ _ c1 c1 c1) by done. cbv zeta.
  match goal with |- context [for_each ?l _] => destruct (pin_loop_ok l c1 Hok1) as (c2 & E2 & Hrp) end.
  - eapply sublist_NoDup; [apply (NoDup_fst_map_to_list (records_ c1))|]. apply fmap_sublist, sublist_filter.
  - intros id r [Hf Hin]%list_elem_of_filter. cbn in Hf. split; [by apply elem_of_map_to_list|]. guards. done.
  - rewrite (st_bind_Ok _ _ _ _ _ E2). cbn [snd mret st_ret].
    destruct (repinned_sound _ _ _ none_taken Hok1 Hrp) as [Hok2 Hk]. split; [done|].
    apply (kept_reap_then c c1); [done|done|done| |done]. intros j Hj.
    destruct Hrp as (_ & _ & _ & H). specialize (H j). by rewrite Hj in H.
Qed.
End kept.

(** ** The three steps of a capture *)
Lemma reserve_block_ok c arena p n :
  ram_ok c None -> host_ok arena -> host_live arena = <[p := MkBlock (p - host_base (arena_ c)) n]> (host_live (arena_ c)) ->
  (forall q b, host_live (arena_ c) !! q = Some b -> q <> p) -> ram_ok (set_arena c arena) (Some (p, n)).
Proof.
  intros Hok Ha' Hlive Hfresh. destruct Hok as [Ha Hnd Hf Hret Hpin Hnx Hids Hblk Hinj Hfl Hleak].
  split; cbn [arena_ fifo_ records_ next_id_ set_arena]; try done.
  - intros j r Hr. destruct (Hblk j r Hr) as (b & Hb & Hn). exists b. rewrite Hlive.
    rewrite lookup_insert_ne by (intros E; by eapply Hfresh). done.
  - intros q m [= <- <-]. rewrite Hlive, lookup_insert_eq. split; [by eexists|].
    intros j r Hr. destruct (Hblk j r Hr) as (b & Hb & _). by eapply Hfresh.
  - intros q b. rewrite Hlive, lookup_insert_Some. intros [[<- _]|[_ Hb]]; [right; by exists n|].
    destruct (Hleak q b Hb) as [?|[m ?]]; [by left|done].
Qed.

Lemma reserve_sound ready n c :
  ram_ok c None -> 0 < n -> host_base (arena_ c) + host_cap (arena_ c) + kDeviceAlign <= size_max ->
  let w := ram_exec ready (OpReserve n) (c, None) in
  ram_ok (fst w) (snd w) /\ kept ready c (fst w) no_unpins none_taken.
Proof.
  intros Hok Hn Hmax. cbn [ram_exec]. unfold capture_reserve. rewrite (st_bind_Ok _ _ c c c) by done.
  destruct (host_cap (arena_ c) <? n); [by apply (sound_same ready None c)|].
  destruct (reap_ok ready c None Hok) as (c1 & E & Hok1 & Hsame & Hre).
  destruct Hsame as (_ & _ & _ & _ & Gd & Gb & Gc).
  rewrite (st_bind_Ok _ _ _ _ _ E), (st_bind_Ok _ _ c1 c1 c1) by done.
  destruct (try_alloc_spec (arena_ c1) n kDeviceAlign (ro_arena _ _ Hok1) Hn ltac:(done) ltac:(done)
    ltac:(rewrite Gb, Gc; done)) as [(p & arena & Ea & Ha & _ & Hb & _ & Hlive & _ & Hap)|[Ea _]]; rewrite Ea.
  - rewrite (st_bind_Ok _ _ c1 tt (set_arena c1 arena)) by done.
    rewrite (st_bind_Ok _ _ _ (Some p) (set_arena c1 arena)) by done. cbn [fst snd mret st_ret]. split.
    + apply reserve_block_ok; try done. intros q b Hq ->. specialize (Hap p b Hq).
      pose proof (ro_arena _ _ Hok1) as Ha1. destruct (ok_live _ Ha1 _ _ Hq) as [Hp Hs].
      destruct Hap as [Hap|Hap]; cbn in Hap; lia.
    + apply (kept_then_reap ready c c); [by apply (kept_same ready None c c)|]. exact Hre.
  - assert (set_arena c1 (arena_ c1) = c1) as Eid by (by destruct c1).
    rewrite (st_bind_Ok _ _ c1 tt c1) by (unfold put; by rewrite Eid).
    rewrite (st_bind_Ok _ _ c1 None c1), (st_bind_Ok _ _ c1 c1 c1) by done.
    destruct (reap_only_sound ready None c c1 none_taken Hok Hok1 Hre) as [H1 H2].
    destruct (largest_gap 0 0 (host_cap (arena_ c1)) (claimed_spans c1) <? n); cbn [fst snd]; [|done].
    split; [by apply (ram_ok_ext c1)|]. exact H2.
Qed.

Lemma ram_publish_ok src p n event c :
  ram_ok c (Some (p, n)) ->
  let w := ram_exec (fun _ => true) (OpPublish src event) (c, Some (p, n)) in
  ram_ok (fst w) (snd w) /\
  (forall id r, records_ c !! id = Some r -> records_ (fst w) !! id = Some r).
Proof.
  intros Hok. cbn [ram_exec].
  destruct (Z.eqb_spec (next_id_ c) 0) as [Hz|Hnz].
  { unfold capture_publish. rewrite (st_bind_Ok _ _ c c c) by done. by rewrite Hz. }
  assert (records_ c !! next_id_ c = None) as Hnone.
  { destruct (records_ c !! next_id_ c) as [r|] eqn:Er; [|done].
    destruct (ro_ids _ _ Hok _ _ Er). lia. }
  assert (capture_publish src p n event c = (Ok (next_id_ c),
    MkCache (arena_ c) (fifo_ c ++ [next_id_ c])
      (<[next_id_ c := new_record src p n event]> (records_ c))
      (pending_save_ids_ c ++ [next_id_ c]) (pending_load_ids_ c) (wrap64 (next_id_ c + 1))
      (wrap64 (index_version_ c + 1)) (wrap64 (captures_ c + 1)) (restores_ c) (evictions_ c) (drops_ c))) as ->.
  { unfold capture_publish. rewrite (st_bind_Ok _ _ c c c) by done.
    rewrite (proj2 (Z.eqb_neq _ _)) by done. rewrite (st_bind_Ok _ _ c tt c) by done.
    erewrite (st_bind_Ok (put _)) by reflexivity.
    rewrite bool_decide_eq_false_2 by (rewrite Hnone; by intros [? ?]). done. }
  cbn [fst snd]. split; [|intros id r Hr; cbn; rewrite lookup_insert_ne; congruence].
  destruct Hok as [Ha Hnd Hf Hret Hpin Hnx Hids Hblk Hinj Hfl Hleak].
  destruct (Hfl p n eq_refl) as [Hpb Hpd]. set (id := next_id_ c) in *.
  assert (u64 (wrap64 (id + 1)) /\ (wrap64 (id + 1) = 0 \/ wrap64 (id + 1) = id + 1)) as [Hw Hw'].
  { split; [apply wrap64_range|]. unfold wrap64. unfold u64, size_max in Hnx.
    destruct (decide (id = 2 ^ 64 - 1)) as [->|]; [left; done|right; apply Z.mod_small; lia]. }
  split; cbn [arena_ fifo_ records_ next_id_]; try done.
  - apply NoDup_app. split_and!; [done| |apply NoDup_singleton]. intros j Hj ->%list_elem_of_singleton.
    apply Hf in Hj as (r & Hr & _). congruence.
  - intros j. rewrite elem_of_app, list_elem_of_singleton, Hf. destruct (decide (j = id)) as [->|Hne].
    + rewrite lookup_insert_eq. split; [intros _; by eexists|by right].
    + rewrite lookup_insert_ne by done. split; [by intros [?|?]|by left].
  - intros j r. rewrite lookup_insert_Some. intros [[<- <-]|[_ Hr]]; [done|eauto].
  - intros j r. rewrite lookup_insert_Some. intros [[<- <-]|[_ Hr]]; [done|eauto].
  - intros j r. rewrite lookup_insert_Some. unfold u64 in Hnx. intros [[<- <-]|[_ Hr]]; [lia|].
    destruct (Hids j r Hr) as [? [?|?]]; lia.
  - intros j r. rewrite lookup_insert_Some. intros [[<- <-]|[_ Hr]]; [done|eauto].
  - intros j k r q. rewrite !lookup_insert_Some.
    intros [[<- <-]|[_ Hr]] [[<- <-]|[_ Hq]] E; [done|by destruct (Hpd k q Hq)|by destruct (Hpd j r Hr)|eauto].
  - intros q b Hb. left. destruct (Hleak q b Hb) as [(j & r & Hr & Er)|[m [= <- _]]].
    + exists j, r. split; [|done]. rewrite lookup_insert_ne; [done|]. congruence.
    + exists id, (new_record src p n event). by rewrite lookup_insert_eq.
Qed.

Lemma abort_ok p n c :
  ram_ok c (Some (p, n)) ->
  ram_ok (snd (capture_abort p c)) None /\ records_ (snd (capture_abort p c)) = records_ c.
Proof.
  intros Hok. destruct (ro_flight _ _ Hok p n eq_refl) as [(b & Hb & _) Hpd].
  destruct (host_free_spec _ _ b (ro_arena _ _ Hok) Hb) as (arena & Ef & Hao & Hlive & _).
  assert (capture_abort p c = (Ok tt, set_arena c arena)) as ->.
  { unfold capture_abort. rewrite (st_bind_Ok _ _ c c c) by done. by rewrite Ef. }
  cbn [snd]. split; [|done].
  destruct Hok as [Ha Hnd Hf Hret Hpin Hnx Hids Hblk Hinj Hfl Hleak].
  split; cbn [arena_ fifo_ records_ next_id_ set_arena]; try done.
  - intros j r Hr. rewrite Hlive, lookup_delete_ne by (intros E; by apply (Hpd j r Hr)). eauto.
  - intros q b'. rewrite Hlive. intros [Hne Hb']%lookup_delete_Some.
    destruct (Hleak q b' Hb') as [?|[m [= E _]]]; [by left|congruence].
Qed.

(** ** Reachable caches *)
Definition taken_of (o : ram_op) : Z -> bool :=
  match o with OpConsume id => taken_by id | _ => none_taken end.

Lemma ram_step_sound ready o c fl :
  ram_ok c fl -> ram_callable o (c, fl) ->
  let w := ram_exec ready o (c, fl) in
  ram_ok (fst w) (snd w) /\ kept ready c (fst w) (unpins o) (taken_of o).
Proof.
  intros Hok Hc. destruct o as [id|id|id|id|id|id|id|id|id d| | |ids|n|src ev|]; cbn [ram_exec fst snd].
  - by apply claim_sound.
  - by apply release_sound.
  - by apply consume_sound.
  - by apply release_restored_sound.
  - by apply discard_sound.
  - by apply pin_sound.
  - by apply unpin_sound.
  - by apply evict_sound.
  - by apply ticket_sound.
  - by apply drop_sound.
  - by apply pin_retired_sound.
  - by apply unpin_events_sound.
  - destruct Hc as (Hf & Hn & Hm). cbn in Hf. subst fl. by apply (reserve_sound ready n c).
  - destruct Hc as [[p n] Hf]. cbn in Hf. subst fl.
    destruct (ram_publish_ok src p n ev c Hok) as [H1 H2]. split; [exact H1|]. intros id r Hr.
    specialize (H2 id r Hr). cbn [ram_exec] in H2. rewrite H2.
    pose proof (kept_same ready _ c c no_unpins none_taken Hok eq_refl ltac:(done) id r Hr) as H.
    by rewrite Hr in H.
  - destruct Hc as [[p n] Hf]. cbn in Hf. subst fl. destruct (abort_ok p n c Hok) as [H1 H2].
    split; [exact H1|]. by apply (kept_same ready (Some (p, n))).
Qed.

(** Any sequence of calls, with any answers of the device about its events. *)
Inductive ram_reach (a : HostPinnedArena) : ram_world -> Prop :=
| ram_reach_new : ram_reach a (ram_cache_new a, None)
| ram_reach_step ready o w :
    ram_reach a w -> ram_callable o w -> ram_reach a (ram_exec ready o w).

Lemma ram_new_ok a : host_ok a -> host_live a = ∅ -> ram_ok (ram_cache_new a) None.
Proof.
  intros Ha Hl. split; cbn [ram_cache_new arena_ fifo_ records_ next_id_]; try done.
  - constructor.
  - intros id. rewrite elem_of_nil. split; [done|]. by intros (r & ? & _).
  - intros p b. by rewrite Hl.
Qed.

Lemma ram_reach_ok base cap a w :
  0 < base -> 0 <= cap -> base + cap <= size_max -> host_arena_new base cap = Ok a ->
  ram_reach a w -> ram_ok (fst w) (snd w).
Proof.
  intros Hb Hc Hm Hn Hr. induction Hr as [|ready o [c fl] _ IH Hcall].
  - apply ram_new_ok; [by eapply host_new_ok|]. unfold host_arena_new in Hn. res_inv Hn. by injection Hn as <-.
  - by apply ram_step_sound.
Qed.

Lemma unpinned_loop_spec records ids :
  (forall id, id ∈ ids -> exists r, records !! id = Some r /\ r_retired r = false) ->
  exists l, unpinned_loop records ids = Ok l /\ l `sublist_of` ids /\
    forall id, id ∈ l <-> id ∈ ids /\ exists r, records !! id = Some r /\ r_pinned r = false /\ r_io_pins r = 0.
Proof.
  induction ids as [|id ids IH]; intros H.
  { exists []. split_and!; [done|done|]. intros id. rewrite elem_of_nil. split; [done|]. by intros [? _]. }
  destruct IH as (l & E & Hs & Hl); [intros j Hj; apply H; by right|].
  destruct (H id) as (r & Hr & Ht); [by left|]. cbn [unpinned_loop]. rewrite Hr, Ht.
  cbn [throw_if mbind res_bind]. rewrite E. cbn [mbind res_bind]. eexists. split; [done|].
  destruct (negb (r_pinned r) && (r_io_pins r =? 0)) eqn:Eb.
  - guards. split; [by constructor|]. intros j. rewrite !elem_of_cons, Hl. split.
    + intros [->|[? ?]]; [split; [by left|]; by exists r|]. split; [by right|done].
    + intros [[->|?] ?]; [by left|]. right. done.
  - split; [by constructor|]. intros j. rewrite elem_of_cons, Hl. split; [intros [? ?]; by split; [right|]|].
    intros [[->|?] Hx]; [|done]. destruct Hx as (x & Hx & Hp & Hi). assert (x = r) as -> by congruence.
    by rewrite Hp, Hi in Eb.
Qed.



(** ** Room for a capture *)

(** Blocks in address order from [begin] on, apart from each other, inside [cap]. *)
Fixpoint chained (begin cap : Z) (l : list block) : Prop :=
  match l with
  | [] => True
  | b :: l => begin <= blk_off b /\ 0 < blk_size b /\ blk_off b + blk_size b <= cap /\
              chained (blk_off b + blk_size b) cap l
  end.

Lemma chained_weaken begin begin' cap l : begin' <= begin -> chained begin cap l -> chained begin' cap l.
Proof. destruct l as [|b l]; simpl; [done|]. intros H (? & ? & ? & ?). split_and!; [lia|done..]. Qed.

Lemma chained_apart begin cap o n l :
  chained begin cap l -> o + n <= begin -> Forall (apart (MkBlock o n)) l.
Proof.
  revert begin. induction l as [|b l IH]; intros begin Hc Ho; [constructor|].
  destruct Hc as (H1 & H2 & H3 & H4). constructor.
  - left. cbn. lia.
  - eapply IH; [exact H4|]. lia.
Qed.

Lemma largest_gap_spec n cap : 0 < n -> forall l begin largest,
  chained begin cap l ->
  n <= largest_gap begin largest cap l <->
  n <= largest \/ exists o, begin <= o /\ o + n <= cap /\ Forall (apart (MkBlock o n)) l.
Proof.
  intros Hn. induction l as [|b l IH]; intros begin largest Hc; cbn [largest_gap].
  - split.
    + intros H. destruct (decide (n <= largest)); [by left|right]. exists begin. split_and!; [lia|lia|constructor].
    + intros [?|(o & ? & ? & _)]; lia.
  - destruct Hc as (H1 & H2 & H3 & H4). rewrite (IH _ _ H4). split.
    + intros [Hm|(o & Ho & Hcap & Hf)].
      * destruct (decide (n <= largest)); [by left|right]. exists begin. split_and!; [lia|lia|].
        constructor; [left; cbn; lia|]. eapply chained_apart; [exact H4|]. lia.
      * right. exists o. split_and!; [lia|lia|]. constructor; [right; cbn; lia|done].
    + intros [?|(o & Ho & Hcap & Hf)]; [left; lia|]. apply Forall_cons in Hf as [[Ha|Ha] Hf]; cbn in Ha.
      * left. lia.
      * right. exists o. split_and!; [lia|done|done].
Qed.

Lemma chained_sorted cap l :
  StronglySorted pair_le l -> NoDup l ->
  (forall b, b ∈ l -> 0 < blk_size b /\ 0 <= blk_off b /\ blk_off b + blk_size b <= cap) ->
  (forall b b', b ∈ l -> b' ∈ l -> b <> b' -> apart b b') -> chained 0 cap l.
Proof.
  induction 1 as [|b l Hs IH Hb]; intros Hnd Hin Hap; [done|]. apply NoDup_cons in Hnd as [Hnot Hnd].
  destruct (Hin b) as (H1 & H2 & H3); [by left|]. cbn [chained]. split_and!; [done..|].
  assert (chained 0 cap l) as Hc
    by (apply IH; [done|intros; apply Hin; by right|intros; apply Hap; [by right|by right|done]]).
  destruct l as [|b' l]; [done|]. destruct Hc as (C1 & C2 & C3 & C4). split_and!; [|done..].
  apply Forall_cons in Hb as [Hle _]. destruct (Hap b b') as [?|Ha]; [by left|by right; left| |done|].
  - intros ->. apply Hnot. by left.
  - unfold pair_le in Hle. lia.
Qed.

(** Two live blocks of a well-formed arena do not overlap. *)
Lemma live_apart a p q b b' :
  host_ok a -> host_live a !! p = Some b -> host_live a !! q = Some b' -> p <> q -> apart b b'.
Proof.
  intros Ha Hb Hb' Hne. destruct (ok_live _ Ha _ _ Hb) as [_ Hs]. destruct (ok_live _ Ha _ _ Hb') as [_ Hs'].
  apply (cover_apart b b' (map_to_list (delete q (host_live a))).*2); [|done|done|].
  - apply list_elem_of_fmap. exists (p, b). split; [done|]. apply elem_of_map_to_list.
    by rewrite lookup_delete_ne.
  - intros x. pose proof (ok_cover _ Ha x) as Hc. pose proof (cover_nonneg x (host_free a)).
    rewrite (cover_Permutation x (live_blocks a) (b' :: (map_to_list (delete q (host_live a))).*2)) in Hc
      by (by apply live_blocks_delete). rewrite cover_cons in Hc.
    destruct ((0 <=? x) && (x <? host_cap a)); simpl in Hc; lia.
Qed.

Definition entry_span (c : KVRamCache) (r : RamRecord) : block :=
  MkBlock (r_block r - host_base (arena_ c)) (r_bytes r).

Lemma entry_span_live c fl id r :
  ram_ok c fl -> records_ c !! id = Some r -> host_live (arena_ c) !! r_block r = Some (entry_span c r).
Proof.
  intros Hok Hr. destruct (ro_block _ _ Hok id r Hr) as ([o n] & Hb & Hn). rewrite Hb. f_equal.
  destruct (ok_live _ (ro_arena _ _ Hok) _ _ Hb) as [Hp _]. cbn in *. unfold entry_span. f_equal; lia.
Qed.

Lemma claimed_spans_elem c b :
  b ∈ claimed_spans c <->
  exists id r, records_ c !! id = Some r /\ r_pinned r = true /\ b = entry_span c r.
Proof.
  unfold claimed_spans. rewrite merge_sort_Permutation, list_elem_of_omap. split.
  - intros ([id r] & Hin%elem_of_map_to_list & E). cbn in E. destruct (r_pinned r) eqn:Hp; [|done].
    injection E as <-. by exists id, r.
  - intros (id & r & Hr & Hp & ->). exists (id, r). split; [by apply elem_of_map_to_list|]. cbn. by rewrite Hp.
Qed.

#[export] Instance pair_le_total : Total pair_le.
Proof. intros a b. unfold pair_le. lia. Qed.

#[export] Instance pair_le_trans : Transitive pair_le.
Proof. intros a b d. unfold pair_le. lia. Qed.

Lemma claimed_spans_chained c fl : ram_ok c fl -> chained 0 (host_cap (arena_ c)) (claimed_spans c).
Proof.
  intros Hok. pose proof (ro_arena _ _ Hok) as Ha. apply chained_sorted.
  - apply StronglySorted_merge_sort; apply _.
  - unfold claimed_spans. rewrite merge_sort_Permutation.
    assert (forall l : list (Z * RamRecord), NoDup l.*1 -> (forall id r, (id, r) ∈ l -> records_ c !! id = Some r) ->
      NoDup (omap (fun entry : Z * RamRecord => if r_pinned (snd entry) then Some (entry_span c (snd entry)) else None) l))
      as H; [|apply H; [apply NoDup_fst_map_to_list|intros id r; apply elem_of_map_to_list]].
    induction l as [|[id r] l IH]; intros Hnd Hl; [constructor|].
    rewrite fmap_cons in Hnd. apply NoDup_cons in Hnd as [Hnot Hnd].
    assert (NoDup (omap (fun entry : Z * RamRecord =>
      if r_pinned (snd entry) then Some (entry_span c (snd entry)) else None) l)) as Hr
      by (apply IH; [done|intros; apply Hl; by right]).
    cbn. destruct (r_pinned r); [|done]. apply NoDup_cons. split; [|done].
    rewrite list_elem_of_omap. intros ([j x] & Hin & E). cbn in E. destruct (r_pinned x); [|done].
    injection E as E1 E2. apply Hnot, list_elem_of_fmap. exists (j, x). split; [|done]. cbn.
    apply (ro_inj _ _ Hok id j r x); [apply Hl; by left|apply Hl; by right|lia].
  - intros b (id & r & Hr & _ & ->)%claimed_spans_elem.
    pose proof (entry_span_live c fl id r Hok Hr) as Hl.
    destruct (ok_bounds _ (entry_span c r) Ha) as (H1 & H2 & H3); [right; apply live_blocks_elem; eauto|].
    destruct (ok_live _ Ha _ _ Hl). split_and!; lia.
  - intros b b' (id & r & Hr & _ & ->)%claimed_spans_elem (id' & r' & Hr' & _ & ->)%claimed_spans_elem Hne.
    apply (live_apart (arena_ c) (r_block r) (r_block r') _ _ Ha);
      [by eapply entry_span_live..|]. intros E. apply Hne.
    assert (id = id') as <- by (by apply (ro_inj _ _ Hok id id' r r')). by assert (r = r') as -> by congruence.
Qed.

(** [n] contiguous bytes of the arena that no claimed entry occupies. *)
Definition evictable_room (c : KVRamCache) (n : Z) : Prop :=
  exists o, 0 <= o /\ o + n <= host_cap (arena_ c) /\
    forall id r, records_ c !! id = Some r -> r_pinned r = true -> apart (MkBlock o n) (entry_span c r).

Lemma largest_gap_room c fl n :
  ram_ok c fl -> 0 < n ->
  n <= largest_gap 0 0 (host_cap (arena_ c)) (claimed_spans c) <-> evictable_room c n.
Proof.
  intros Hok Hn. rewrite (largest_gap_spec n _ Hn _ 0 0 (claimed_spans_chained c fl Hok)).
  assert (forall o, Forall (apart (MkBlock o n)) (claimed_spans c) <->
    forall id r, records_ c !! id = Some r -> r_pinned r = true -> apart (MkBlock o n) (entry_span c r)) as H.
  { intros o. rewrite Forall_forall. split.
    - intros H id r Hr Hp. apply H, claimed_spans_elem. by exists id, r.
    - intros H b (id & r & Hr & Hp & ->)%claimed_spans_elem. by apply (H id). }
  unfold evictable_room. split.
  - intros [?|(o & ? & ? & Hf)]; [lia|]. exists o. split_and!; [done|done|]. by apply H.
  - intros (o & ? & ? & Hf). right. exists o. split_and!; [done|done|]. by apply H.
Qed.

(** The sweep before the reservation takes no claimed entry away. *)
Lemma evictable_room_reaped ready c c1 fl n :
  ram_ok c fl -> same_index c c1 ->
  (forall id, records_ c1 !! id = match records_ c !! id with
     | Some r => if retired_free_locked ready r then None else Some r | None => None end) ->
  evictable_room c1 n <-> evictable_room c n.
Proof.
  intros Hok (_ & _ & _ & _ & Gd & Gb & Gc) Hre. unfold evictable_room, entry_span. rewrite Gb, Gc.
  assert (forall id r, r_pinned r = true -> records_ c1 !! id = Some r <-> records_ c !! id = Some r) as H.
  { intros id r Hp. rewrite Hre. destruct (records_ c !! id) as [x|] eqn:Ex; [|done].
    destruct (retired_free_locked ready x) eqn:Ef; [|done]. split; [done|intros [= ->]].
    unfold retired_free_locked in Ef. destruct (r_retired r) eqn:Et; [|done].
    pose proof (ro_retired _ _ Hok id r Ex Et). congruence. }
  split; intros (o & H1 & H2 & H3); exists o; (split_and!; [done|done|]);
    intros id r Hr Hp; apply (H3 id r); [by apply H|done|by apply H|done].
Qed.

(** What the reservation of a capture answers, in any reachable cache with no
    capture in progress: it never throws; a block it hands out has the wanted size,
    the device alignment, and overlaps no live block; it asks for evictions only if
    some interval of the arena could be cleared of entries without touching a claimed
    one, and it gives the capture up only if there is no such interval, counting the
    drop. *)
Theorem capture_reserve_exact base cap a c ready n :
  0 < base -> 0 <= cap -> base + cap <= size_max -> host_arena_new base cap = Ok a ->
  ram_reach a (c, None) -> ram_callable (OpReserve n) (c, None) ->
  exists out c', capture_reserve ready n c = (Ok out, c') /\
    match out with
    | Reserved p =>
        p mod kDeviceAlign = 0 /\ host_live (arena_ c') !! p = Some (MkBlock (p - host_base (arena_ c)) n) /\
        forall id r, records_ c' !! id = Some r -> apart (entry_span c' r) (MkBlock (p - host_base (arena_ c)) n)
    | NeedsEviction => evictable_room c n /\ drops_ c' = drops_ c
    | Dropped => ~ evictable_room c n /\ drops_ c' = wrap64 (drops_ c + 1)
    end.
Proof.
  intros Hb Hc Hm Hnew Hr (_ & Hn & Hmax). pose proof (ram_reach_ok base cap a _ Hb Hc Hm Hnew Hr) as Hok.
  cbn [fst snd] in Hok, Hmax. unfold capture_reserve. rewrite (st_bind_Ok _ _ c c c) by done.
  destruct (host_cap (arena_ c) <? n) eqn:Ecap.
  { eexists _, _. split; [reflexivity|]. split; [|done]. intros (o & ? & ? & _). guards. lia. }
  destruct (reap_ok ready c None Hok) as (c1 & E & Hok1 & Hsame & Hre).
  pose proof (evictable_room_reaped ready c c1 None n Hok Hsame Hre) as Hroom.
  destruct Hsame as (_ & _ & _ & _ & Gd & Gb & Gc).
  rewrite (st_bind_Ok _ _ _ _ _ E), (st_bind_Ok _ _ c1 c1 c1) by done.
  destruct (try_alloc_spec (arena_ c1) n kDeviceAlign (ro_arena _ _ Hok1) Hn ltac:(done) ltac:(done)
    ltac:(rewrite Gb, Gc; done)) as [(p & arena & Ea & Ha & Hal & Hpb & _ & Hlive & _ & Hap)|[Ea _]]; rewrite Ea.
  - rewrite (st_bind_Ok _ _ c1 tt (set_arena c1 arena)) by done.
    rewrite (st_bind_Ok _ _ _ (Some p) (set_arena c1 arena)) by done. eexists _, _. split; [reflexivity|].
    cbn [arena_ set_arena records_]. rewrite <- Gb. split_and!; [done|by rewrite Hlive, lookup_insert_eq|].
    intros id r Hid. pose proof (entry_span_live c1 None id r Hok1 Hid) as Hl. specialize (Hap _ _ Hl).
    assert (host_base arena = host_base (arena_ c1)) as Hbase.
    { assert (host_live arena !! p = Some (MkBlock (p - host_base (arena_ c1)) n)) as Hp
        by (by rewrite Hlive, lookup_insert_eq).
      destruct (ok_live _ Ha _ _ Hp) as [Hq _]. cbn in Hq. lia. }
    unfold entry_span. cbn. by rewrite Hbase.
  - assert (set_arena c1 (arena_ c1) = c1) as Eid by (by destruct c1).
    rewrite (st_bind_Ok _ _ c1 tt c1) by (unfold put; by rewrite Eid).
    rewrite (st_bind_Ok _ _ c1 None c1), (st_bind_Ok _ _ c1 c1 c1) by done.
    pose proof (largest_gap_room c1 None n Hok1 Hn) as Hgap. rewrite Hroom in Hgap.
    destruct (largest_gap 0 0 (host_cap (arena_ c1)) (claimed_spans c1) <? n) eqn:Eg; guards;
      (eexists _, _; split; [reflexivity|]).
    + cbn [drops_ set_counters]. rewrite Gd. split; [|done]. rewrite <- Hgap. lia.
    + rewrite Gd. split; [|done]. apply Hgap. lia.
Qed.

(** ** A cache with one claimed entry *)
Definition demo_source : RamRecord :=
  MkRecord (MkHash 1 2) (MkHash 0 0) false 64 0 false RestoreTurnCheckpoint [] 0 0 false false 0 0 None None.

(** No copy is complete yet. *)
Definition all_pending (_ : Z) : bool := false.
Definition all_done (_ : Z) : bool := true.

Definition demo_publish : list ram_op := [OpReserve 512; OpPublish demo_source 7].
Definition demo_ops : list ram_op := demo_publish ++ [OpClaim 1].

Definition demo_run (ops : list ram_op) : ram_world :=
  foldl (fun w o => ram_exec all_pending o w) (ram_cache_new demo_host, None) ops.

Lemma demo_run_snoc ops o :
  ram_reach demo_host (demo_run ops) -> ram_callable o (demo_run ops) -> ram_reach demo_host (demo_run (ops ++ [o])).
Proof. intros Hr Hc. unfold demo_run. rewrite foldl_app. by constructor. Qed.

Lemma demo_reach_published : ram_reach demo_host (demo_run demo_publish).
Proof.
  apply (demo_run_snoc [OpReserve 512] (OpPublish demo_source 7)).
  - apply (demo_run_snoc [] (OpReserve 512)); [constructor|]. vm_compute. done.
  - vm_compute. by eexists.
Qed.

Lemma demo_reach : ram_reach demo_host (demo_run demo_ops).
Proof. apply (demo_run_snoc demo_publish (OpClaim 1)); [apply demo_reach_published|done]. Qed.



Lemma capture_reserve_exact_witness :
  ~ evictable_room (fst (demo_run demo_ops)) 768.
Proof.
  destruct (capture_reserve_exact 4096 1024 demo_host (fst (demo_run demo_ops)) all_pending 768)
    as (out & c' & E & H).
  - lia.
  - lia.
  - vm_compute. congruence.
  - exact demo_host_new.
  - exact demo_reach.
  - vm_compute. split_and!; congruence.
  - destruct out; [vm_compute in E; discriminate E|vm_compute in E; discriminate E|exact (proj1 H)].
Defined.
