(* ===== verification/RamCapture.v ===== *)
(** * targets/qwen3_6/impl/runtime/kv_ram_cache.cpp: capturing and reading an entry

    The header and the layout [KVRamCache::capture] computes from its source, and
    the bytes of the block once its copies have landed.  A copy into the block is a
    store at the section's offset; the bytes the device and host copies bring are
    arguments.  What is read back from the block is what was captured. *)

From stdpp Require Import prelude list list_numbers.
From Stdlib Require Import ZArith Lia.
From S2P Require Import Prelude.
From S2P Require Import Tensor.
From S2P Require Import Bytes.
From S2P Require Import PagedPool.
From S2P Require Import PagedCopy.
From S2P Require Import CyclicKV.
From S2P Require Import Codec.
From S2P Require Import PrefixIdentity.
From S2P Require Import PrefixTheorems.
From S2P Require Import ContextReuse.
From S2P Require Import RamFormat.
From S2P Require Import RamTheorems.
#[local] Open Scope Z_scope.

(** ** The source of a capture *)

(** [RewriteStateHostSource]: which of its images are present. *)
Record RewriteStateHostSource : Type := MkHostSource {
  hs_conv : bool;
  hs_recurrent : bool;
  hs_dflash : bool;
}.

Definition no_host_state : RewriteStateHostSource := MkHostSource false false false.

(** [RamCaptureSource]; [None] is a null pointer, [cs_gdn] the conv and recurrent
    host image sizes of the linear-attention state. *)
Record RamCaptureSource : Type := MkSource {
  cs_execution_frontier : Z;
  cs_ledger_frontier : Z;
  cs_rope_delta : Z;
  cs_text_kv_valid : Z;
  cs_mtp_kv_valid : Z;
  cs_dflash_context_frontier : Z;
  cs_tail_hidden_valid : bool;
  cs_rewrite_valid : bool;
  cs_rewrite_kind : RewriteCheckpointKind;
  cs_rewrite_frontier : Z;
  cs_ledger : list Z;
  cs_identity : option ResidentPrefixIdentity;
  cs_hash_f : PrefixHash128;
  cs_hash_c : PrefixHash128;
  cs_hash_c_valid : bool;
  cs_text : option PagedKVAllocation;
  cs_text_pool : option PagedKVPool;
  cs_backend : option PagedKVAllocation;
  cs_backend_pool : option PagedKVPool;
  cs_text_pages : option Z;
  cs_backend_pages : option Z;
  cs_gdn : option (Z * Z);
  cs_rewrite_state : RewriteStateHostSource;
  cs_current_state : RewriteStateHostSource;
  cs_tail_hidden : option Tensor;
  cs_rewrite_checkpoint_hidden : option Tensor;
  cs_ladder_heads : list RamLadderHead;
  cs_disk_entry_id : Z;
  cs_dflash_local : option CyclicKVCache;
}.

Definition kind_code (kind : RewriteCheckpointKind) : Z :=
  match kind with TurnClosure => 0 | ResponseReplay => 1 end.

Definition mapped (a : PagedKVAllocation) : Z := Z.of_nat (length (page_ids_ a)).
Definition planes_of (pool : option PagedKVPool) : list Tensor :=
  match pool with Some p => planes_ p | None => [] end.
Definition order_of (pool : option PagedKVPool) : PagedKVPlaneOrder :=
  match pool with Some p => plane_order (spec_ p) | None => PageMajor end.

(** An optional tensor's size, zero for a null pointer. *)
Definition bytes_of (t : option Tensor) : res Z := match t with Some t => bytes t | None => Ok 0 end.
Definition lane_bytes_of (c : option CyclicKVCache) : res Z :=
  match c with Some c => lane_host_bytes c | None => Ok 0 end.
Definition image_bytes_of (p : option PagedKVPool) (pages : Z) : res Z :=
  match p with Some p => paged_kv_host_image_bytes p pages | None => Ok 0 end.
Definition backend_pages_of (s : RamCaptureSource) : Z :=
  match cs_backend s with Some b => default (mapped b) (cs_backend_pages s) | None => 0 end.

(** The lengths of the twelve sections. *)
Definition section_lengths (s : RamCaptureSource) (identity : ResidentPrefixIdentity)
    (text_bytes backend_bytes tail_bytes rewrite_hidden_bytes lane_bytes : Z) : list Z :=
  let '(conv, recurrent) := default (0, 0) (cs_gdn s) in
  let kept (n : Z) := if cs_rewrite_valid s then n else 0 in
  [Z.of_nat (length (cs_ledger s)) * 4; packed_bytes identity; text_bytes; backend_bytes;
   conv; kept conv; recurrent; kept recurrent; tail_bytes; kept rewrite_hidden_bytes;
   lane_bytes; kept lane_bytes].

(** The header and the head layouts [capture] computes before it asks for a block. *)
Definition capture_header (s : RamCaptureSource) : res (HeaderView * list LadderLayout) :=
  match cs_identity s, cs_text s, cs_text_pool s with
  | Some identity, Some text, Some text_pool =>
      throw_if (negb (Z.of_nat (length (cs_ledger s)) =? cs_ledger_frontier s)
                || negb (cs_ledger_frontier s =? wrap32 (cs_execution_frontier s + 1))) logic_error ;;
      let text_pages := default (mapped text) (cs_text_pages s) in
      let backend_pages := backend_pages_of s in
      throw_if ((mapped text <? text_pages)
                || match cs_backend s with Some b => mapped b <? backend_pages | None => false end)
        invalid_argument ;;
      throw_if (hs_conv (cs_current_state s)
                && (negb (hs_recurrent (cs_current_state s))
                    || (bool_decide (is_Some (cs_dflash_local s)) && negb (hs_dflash (cs_current_state s)))))
        invalid_argument ;;
      lane_bytes ← lane_bytes_of (cs_dflash_local s);
      tail_bytes ← bytes_of (cs_tail_hidden s);
      text_bytes ← paged_kv_host_image_bytes text_pool text_pages;
      backend_bytes ← image_bytes_of (cs_backend_pool s) backend_pages;
      rewrite_hidden ← (if cs_rewrite_valid s then bytes_of (cs_rewrite_checkpoint_hidden s) else Ok 0);
      let lengths := section_lengths s identity text_bytes backend_bytes tail_bytes rewrite_hidden lane_bytes in
      let length_at i := nth i lengths 0 in
      throw_if ((negb (length_at 5%nat =? 0) || negb (length_at 7%nat =? 0))
                && (negb (hs_conv (cs_rewrite_state s)) || negb (hs_recurrent (cs_rewrite_state s)))) invalid_argument ;;
      throw_if (negb (length_at 11%nat =? 0) && negb (hs_dflash (cs_rewrite_state s))) invalid_argument ;;
      let text_planes := wrap32 (Z.of_nat (length (planes_ text_pool))) in
      let backend_planes := wrap32 (Z.of_nat (length (planes_of (cs_backend_pool s)))) in
      let ladder_count := wrap32 (Z.of_nat (length (cs_ladder_heads s))) in
      let header_bytes := header_bytes_for text_planes backend_planes ladder_count in
      let '(sections, ladders, entry_bytes) := entry_layout header_bytes lengths (cs_ladder_heads s) in
      let cyc (f : CyclicKVCache -> Z) := match cs_dflash_local s with Some c => f c | None => 0 end in
      let '(conv, recurrent) := default (0, 0) (cs_gdn s) in
      Ok (MkHeader (cs_execution_frontier s) (cs_ledger_frontier s) (cs_rope_delta s) (cs_text_kv_valid s)
            (cs_mtp_kv_valid s) (cs_dflash_context_frontier s) (cs_tail_hidden_valid s) (cs_rewrite_valid s)
            (kind_code (cs_rewrite_kind s)) (cs_hash_c_valid s) (cs_rewrite_frontier s) text_pages backend_pages
            text_planes backend_planes (cs_hash_f s) (cs_hash_c s) (bool_decide (is_Some (cs_gdn s)))
            (bool_decide (is_Some (cs_dflash_local s))) (cyc layer_count) (cyc capacity_) (cyc padded_capacity_)
            (cyc num_kv_heads_) (cyc head_dim_) (cyc lane_capacity_) tail_bytes conv recurrent lane_bytes
            ladder_count (cs_disk_entry_id s) sections entry_bytes header_bytes [] [], ladders)
  | _, _, _ => Throw invalid_argument
  end.

(** ** The block *)

(** A copy into the block. *)
Definition store (block : list Z) (w : Z * list Z) : list Z :=
  take (Z.to_nat (fst w)) block ++ snd w ++ drop (Z.to_nat (fst w) + length (snd w)) block.

(** [n] bytes from [offset] on. *)
Definition slice_at (offset n : Z) (block : list Z) : list Z := take (Z.to_nat n) (drop (Z.to_nat offset) block).

(** The bytes [memset] and the header's cursor leave in the first [header_bytes]. *)
Definition header_region (s : RamCaptureSource) (h : HeaderView) (layouts : list LadderLayout) : res (list Z) :=
  let w := write_entry_header h (planes_of (cs_text_pool s)) (order_of (cs_text_pool s))
             (planes_of (cs_backend_pool s)) (order_of (cs_backend_pool s)) (zip (cs_ladder_heads s) layouts) in
  match w (MkCursor [] (h_header_bytes h)) with
  | (Ok _, c) => Ok (written c ++ replicate (Z.to_nat (h_header_bytes h) - length (written c)) 0)
  | (Throw e, _) => Throw e
  end.

(** Every section's copy and every head image's copy, at its offset.  [images] are
    the bytes of sections 2 to 11, [heads] those of the four images of each head. *)
Definition section_copies (s : RamCaptureSource) (identity : list Z) (images heads : list (list Z))
    (h : HeaderView) (layouts : list LadderLayout) : list (Z * list Z) :=
  zip (fst <$> (h_section h ++ concat (head_regions <$> layouts)))
      ([i32_image (cs_ledger s); identity] ++ images ++ heads).

(** The block [capture] publishes, over whatever the block held before. *)
Definition capture_block (s : RamCaptureSource) (images heads : list (list Z)) (h : HeaderView)
    (layouts : list LadderLayout) (block : list Z) : res (list Z) :=
  header ← header_region s h layouts;
  identity ← match cs_identity s with Some i => pack i false | None => Throw invalid_argument end;
  Ok (foldl store block ((0, header) :: section_copies s identity images heads h layouts)).

(** [load_host] on the bytes of an entry's block. *)
Definition load_host (block : list Z) : res RamRestoredHost :=
  header ← read_header false block; host_from_header block header.

(** ** Reading back what was stored *)
Section stores.
#[local] Abbreviation len w := (Z.of_nat (length (snd w))).

Lemma length_store block w : 0 <= fst w -> fst w + len w <= Z.of_nat (length block) ->
  length (store block w) = length block.
Proof. intros H0 H. unfold store. rewrite !length_app, length_take, length_drop. lia. Qed.

Lemma slice_store_same block w : 0 <= fst w -> fst w + len w <= Z.of_nat (length block) ->
  slice_at (fst w) (len w) (store block w) = snd w.
Proof.
  intros H0 H. unfold slice_at, store. rewrite drop_app_length' by (rewrite length_take; lia).
  by rewrite take_app_length' by lia.
Qed.

Lemma slice_store_other block w o n : 0 <= fst w -> fst w + len w <= Z.of_nat (length block) ->
  0 <= o -> 0 <= n -> snd w = [] \/ o + n <= fst w \/ fst w + len w <= o ->
  slice_at o n (store block w) = slice_at o n block.
Proof.
  intros H0 H Ho Hn Hd. destruct Hd as [E|Hd].
  { unfold store. rewrite E. cbn [app length]. by rewrite Nat.add_0_r, take_drop. }
  apply list_eq. intros i. unfold slice_at, store.
  destruct (decide (i < Z.to_nat n)%nat) as [Hi|]; [|by rewrite !lookup_take_ge by lia].
  rewrite !lookup_take_lt, !lookup_drop by lia. destruct Hd as [Hd|Hd].
  - rewrite lookup_app_l by (rewrite length_take; lia). by rewrite lookup_take_lt by lia.
  - rewrite lookup_app_r, length_take by (rewrite length_take; lia).
    rewrite lookup_app_r by lia. rewrite lookup_drop. f_equal. lia.
Qed.

(** Stores inside the block. *)
Definition inside (block : list Z) (ws : list (Z * list Z)) : Prop :=
  Forall (fun w => 0 <= fst w /\ fst w + len w <= Z.of_nat (length block)) ws.

Lemma inside_length block block' ws : length block = length block' -> inside block ws -> inside block' ws.
Proof. unfold inside. by intros ->. Qed.

Lemma stores_other ws : forall block o n, inside block ws -> 0 <= o -> 0 <= n ->
  Forall (fun w => snd w = [] \/ o + n <= fst w \/ fst w + len w <= o) ws ->
  length (foldl store block ws) = length block /\ slice_at o n (foldl store block ws) = slice_at o n block.
Proof.
  induction ws as [|w ws IH]; intros block o n Hin Ho Hn Hd; [done|]. cbn [foldl].
  apply Forall_cons in Hin as [[H0 H1] Hin], Hd as [Hd1 Hd].
  pose proof (length_store block w H0 H1) as El.
  destruct (IH (store block w) o n) as [E1 E2]; [by apply (inside_length block)|done|done|done|].
  rewrite E1, E2. split; [done|]. by apply slice_store_other.
Qed.

(** Disjoint stores can all be read back. *)
Lemma stores_read ws : forall block,
  inside block ws ->
  (forall i j w w', (i < j)%nat -> ws !! i = Some w -> ws !! j = Some w' -> snd w <> [] -> snd w' <> [] ->
     fst w + len w <= fst w') ->
  length (foldl store block ws) = length block /\
  forall i w, ws !! i = Some w -> slice_at (fst w) (len w) (foldl store block ws) = snd w.
Proof.
  induction ws as [|w ws IH]; intros block Hin Hd; [done|]. cbn [foldl].
  apply Forall_cons in Hin as [[H0 H1] Hin]. pose proof (length_store block w H0 H1) as El.
  assert (inside (store block w) ws) as Hin' by (by apply (inside_length block)).
  destruct (IH (store block w) Hin') as [E1 E2].
  { intros i j x y Hij Hi Hj. apply (Hd (S i) (S j)); [lia|done|done]. }
  split; [congruence|]. intros [|i] x Hx; [|exact (E2 i x Hx)]. injection Hx as <-.
  destruct (decide (snd w = [])) as [En|En]; [rewrite En; unfold slice_at; by rewrite take_0|].
  etransitivity; [|by apply (slice_store_same block w)]. refine (proj2 (stores_other ws _ _ _ Hin' H0 _ _)); [lia|].
  apply Forall_lookup. intros j y Hy. destruct (decide (snd y = [])) as [Ey|Ey]; [by left|].
  right. left. apply (Hd O (S j) w y); [lia|done|done|done|done].
Qed.
End stores.

(** ** The header a capture computes *)

(** The values of a source have the widths of their C++ types. *)
Record source_ok (s : RamCaptureSource) : Prop := MkSourceOk {
  so_scalars : u32 (cs_execution_frontier s) /\ i32 (cs_rope_delta s) /\ u32 (cs_text_kv_valid s) /\
    u32 (cs_mtp_kv_valid s) /\ u32 (cs_dflash_context_frontier s) /\ u32 (cs_rewrite_frontier s) /\
    u64 (cs_disk_entry_id s);
  so_hashes : hash_ok (cs_hash_f s) /\ hash_ok (cs_hash_c s);
  so_ledger : Forall i32 (cs_ledger s);
  so_identity : forall i, cs_identity s = Some i -> packable i;
  so_pages : (forall t, cs_text s = Some t -> u32 (default (mapped t) (cs_text_pages s))) /\ u32 (backend_pages_of s);
  so_planes : Z.of_nat (length (planes_of (cs_text_pool s))) + Z.of_nat (length (planes_of (cs_backend_pool s)))
    <= u32_max;
  so_gdn : u64 (fst (default (0, 0) (cs_gdn s))) /\ u64 (snd (default (0, 0) (cs_gdn s)));
  so_cyclic : forall c, cs_dflash_local s = Some c -> u32 (layer_count c) /\ u32 (capacity_ c) /\
    u32 (padded_capacity_ c) /\ i32 (num_kv_heads_ c) /\ i32 (head_dim_ c) /\ i32 (lane_capacity_ c);
  so_heads : Z.of_nat (length (cs_ladder_heads s)) <= u32_max /\
    Forall (fun h => u32 (lh_frontier h) /\ u32 (lh_kind h) /\ hash_ok (lh_hash h) /\ 0 <= lh_conv_bytes h /\
      0 <= lh_recurrent_bytes h /\ 0 <= lh_hidden_bytes h /\ 0 <= lh_dflash_bytes h) (cs_ladder_heads s);
}.

Lemma bytes_u64 t n : bytes t = Ok n -> u64 n.
Proof.
  unfold bytes. intros H. res_inv H. injection H as <-. guards.
  assert (0 < dtype_size (dtype t)) as Hd by (by destruct (dtype t)).
  rewrite (proj2 (Z.eqb_neq _ _)) in H2 by lia. cbn [negb andb] in H2. guards.
  pose proof (Z.mul_div_le size_max (dtype_size (dtype t)) Hd). unfold u64. nia.
Qed.

Lemma bytes_of_u64 t n : bytes_of t = Ok n -> u64 n.
Proof. destruct t; [apply bytes_u64|]. intros [= <-]. by unfold u64. Qed.

Lemma lane_bytes_of_u64 c n : lane_bytes_of c = Ok n -> u64 n.
Proof.
  destruct c as [c|]; cbn [lane_bytes_of]; [|intros [= <-]; by unfold u64]. unfold lane_host_bytes.
  destruct (k_ c), (v_ c); intros H; res_inv H; injection H as <-; try (by unfold u64). apply wrap64_range.
Qed.

Lemma image_bytes_u64 order k : 0 <= k -> forall planes total n,
  u64 total -> host_image_bytes planes order k total = Ok n -> u64 n.
Proof.
  intros Hk. induction planes as [|t planes IH]; intros total n Ht H; cbn [host_image_bytes] in H; [by injection H as <-|].
  res_inv H. apply IH in H; [done|]. assert (0 <= a) as Ha.
  { unfold plane_page_bytes in *. pose proof wrap64_range as W. unfold u64 in W.
    destruct order; match goal with Hp : mbind _ _ = Ok a |- _ => res_inv Hp; injection Hp as <- end; guards; [lia|].
    apply W. }
  guards. unfold u64 in *. nia.
Qed.

Lemma pool_image_bytes_u64 p k n : u32 k -> paged_kv_host_image_bytes p k = Ok n -> u64 n.
Proof. intros [Hk _]. apply (image_bytes_u64 _ k Hk). by unfold u64. Qed.

Lemma place_sections_sizes parts : forall cursor, snd <$> fst (place_sections cursor parts) = fst <$> parts.
Proof.
  induction parts as [|[b a] parts IH]; intros cursor; [done|]. cbn [place_sections fst]. rewrite !fmap_cons, IH.
  f_equal. unfold place. by destruct (Z.eqb_spec b 0) as [->|].
Qed.

Lemma length_place_heads heads : forall cursor, length (fst (place_heads cursor heads)) = length heads.
Proof. induction heads as [|h heads IH]; intros cursor; [done|]. cbn [place_heads fst length]. by rewrite IH. Qed.

(** What a successful [capture_header] gives, apart from the copied scalars. *)
Record header_of (s : RamCaptureSource) (identity : ResidentPrefixIdentity) (lengths : list Z)
    (h : HeaderView) (layouts : list LadderLayout) : Prop := MkHeaderOf {
  ho_identity : cs_identity s = Some identity;
  ho_frontier : cs_ledger_frontier s = Z.of_nat (length (cs_ledger s)) /\ u32 (cs_ledger_frontier s);
  ho_lengths : length lengths = 12%nat /\ Forall (fun n => 0 <= n) lengths;
  ho_host : take 2 lengths = [Z.of_nat (length (cs_ledger s)) * 4; packed_bytes identity];
  ho_size : h_header_bytes h = header_size h;
  ho_layout : entry_layout (h_header_bytes h) lengths (cs_ladder_heads s) = (h_section h, layouts, h_entry_bytes h);
  ho_view : h = MkHeader (cs_execution_frontier s) (cs_ledger_frontier s) (cs_rope_delta s) (cs_text_kv_valid s)
    (cs_mtp_kv_valid s) (cs_dflash_context_frontier s) (cs_tail_hidden_valid s) (cs_rewrite_valid s)
    (kind_code (cs_rewrite_kind s)) (cs_hash_c_valid s) (cs_rewrite_frontier s) (h_text_mapped_pages h)
    (backend_pages_of s) (Z.of_nat (length (planes_of (cs_text_pool s))))
    (Z.of_nat (length (planes_of (cs_backend_pool s)))) (cs_hash_f s) (cs_hash_c s) (h_has_gdn h) (h_has_dflash h)
    (h_cyclic_layers h) (h_cyclic_capacity h) (h_cyclic_padded h) (h_cyclic_kv_heads h) (h_cyclic_head_dim h)
    (h_cyclic_lane_capacity h) (h_tail_hidden_bytes h) (h_gdn_conv_bytes h) (h_gdn_recurrent_bytes h)
    (h_cyclic_lane_bytes h) (Z.of_nat (length (cs_ladder_heads s))) (cs_disk_entry_id s) (h_section h)
    (h_entry_bytes h) (h_header_bytes h) [] [];
  ho_widths : u32 (h_text_mapped_pages h) /\ u64 (h_tail_hidden_bytes h) /\ u64 (h_gdn_conv_bytes h) /\
    u64 (h_gdn_recurrent_bytes h) /\ u64 (h_cyclic_lane_bytes h) /\ u32 (h_cyclic_layers h) /\
    u32 (h_cyclic_capacity h) /\ u32 (h_cyclic_padded h) /\ i32 (h_cyclic_kv_heads h) /\
    i32 (h_cyclic_head_dim h) /\ i32 (h_cyclic_lane_capacity h);
}.

Lemma capture_header_of s h layouts :
  source_ok s -> capture_header s = Ok (h, layouts) ->
  exists identity lengths, header_of s identity lengths h layouts.
Proof.
  intros Hok. unfold capture_header.
  destruct (cs_identity s) as [identity|] eqn:Ei, (cs_text s) as [text|] eqn:Et, (cs_text_pool s) as [pool|] eqn:Ep;
    try done.
  intros H. res_inv H. destruct (entry_layout _ _ _) as [[sections ladders] entry] eqn:El.
  destruct (default (0, 0) (cs_gdn s)) as [conv recurrent] eqn:Eg. injection H as <- <-.
  match goal with H : lane_bytes_of _ = Ok ?x |- _ => rename x into lane; pose proof (lane_bytes_of_u64 _ _ H) end.
  match goal with H : bytes_of (cs_tail_hidden _) = Ok ?x |- _ => rename x into tail; pose proof (bytes_of_u64 _ _ H) end.
  match goal with H : paged_kv_host_image_bytes _ _ = Ok ?x |- _ =>
    rename x into tb; rename H into Htb end.
  assert (u64 tb).
  { eapply pool_image_bytes_u64; [|exact Htb]. by apply (so_pages s Hok). }
  match goal with H : image_bytes_of _ _ = Ok ?x |- _ => rename x into bb; assert (u64 bb) end.
  { unfold image_bytes_of in *. destruct (cs_backend_pool s) as [bp|] eqn:Eb; [|simplify_eq; by unfold u64].
    eapply pool_image_bytes_u64; [|eassumption]. apply (so_pages s Hok). }
  match goal with H : (if cs_rewrite_valid s then _ else _) = Ok ?x |- _ => rename x into rh; assert (u64 rh) end.
  { destruct (cs_rewrite_valid s); [by eapply bytes_of_u64|]. simplify_eq. by unfold u64. }
  pose proof (so_planes s Hok) as Hpl. rewrite Ep in Hpl. cbn [planes_of] in Hpl.
  destruct (so_heads s Hok) as [Hlh _]. destruct (so_gdn s Hok) as [G1 G2]. rewrite Eg in G1, G2. cbn [fst snd] in G1, G2.
  rewrite !(wrap32_id (Z.of_nat _)) in * by (unfold u32; lia). guards.
  exists identity, (section_lengths s identity tb bb tail rh lane). split; cbn.
  - done.
  - split; [done|]. match goal with H : cs_ledger_frontier s = wrap32 _ |- _ => rewrite H end. apply wrap32_range.
  - unfold section_lengths. rewrite Eg. split; [done|].
    pose proof (length_identity_image identity (so_identity s Hok _ Ei)). unfold u64 in *.
    destruct (cs_rewrite_valid s); repeat (constructor; [lia|]); constructor.
  - unfold section_lengths. by rewrite Eg.
  - done.
  - exact El.
  - rewrite Ep. done.
  - destruct (so_pages s Hok) as [Hp _]. specialize (Hp text Et).
    destruct (cs_dflash_local s) as [c|] eqn:Ec; [destruct (so_cyclic s Hok c Ec) as (? & ? & ? & ? & ? & ?)|];
      split_and!; done.
Qed.

(** The entry's size does not overflow [size_t]. *)
Definition entry_fits (h : HeaderView) (heads : list RamLadderHead) : Prop :=
  h_header_bytes h + parts_sum (entry_parts (snd <$> h_section h) heads) + kDeviceAlign <= size_max.

Lemma place_sections_empty parts : forall cursor,
  Forall (fun r => snd r = 0 -> fst r = 0) (fst (place_sections cursor parts)).
Proof.
  induction parts as [|[b a] parts IH]; intros cursor; cbn [place_sections fst]; constructor; [|apply IH].
  unfold place. by destruct (Z.eqb_spec b 0).
Qed.

Lemma entry_regions_place header_bytes lengths heads :
  entry_regions (entry_layout header_bytes lengths heads) = fst (place_sections header_bytes (entry_parts lengths heads)).
Proof. unfold entry_regions, entry_layout, entry_parts. by rewrite place_sections_app, place_heads_sections. Qed.

Section captured.
Context (s : RamCaptureSource) (identity : ResidentPrefixIdentity) (lengths : list Z) (h : HeaderView)
        (layouts : list LadderLayout).
Context (Hok : source_ok s) (Hof : header_of s identity lengths h layouts) (Hfits : entry_fits h (cs_ladder_heads s)).

Lemma section_sizes : snd <$> h_section h = lengths.
Proof.
  pose proof (ho_layout _ _ _ _ _ Hof) as El. unfold entry_layout in El. injection El as El _ _. rewrite <- El.
  rewrite place_sections_sizes, fst_zip; [done|]. by rewrite (proj1 (ho_lengths _ _ _ _ _ Hof)).
Qed.

Lemma captured_regions : h_section h ++ concat (head_regions <$> layouts) =
  entry_regions (entry_layout (h_header_bytes h) lengths (cs_ladder_heads s)).
Proof. by rewrite (ho_layout _ _ _ _ _ Hof). Qed.

Lemma parts_fine : parts_ok (entry_parts lengths (cs_ladder_heads s)).
Proof.
  destruct (ho_lengths _ _ _ _ _ Hof) as [Hl Hn]. destruct (so_heads s Hok) as [_ Hh].
  apply Forall_app. split.
  - apply Forall_forall. intros [n a] Hin. pose proof (elem_of_zip_l _ _ _ _ Hin) as H1.
    pose proof (elem_of_zip_r _ _ _ _ Hin) as H2. rewrite Forall_forall in Hn. cbn [fst snd].
    assert (Forall (fun a => 0 <= a /\ is_power_of_two a = true) section_aligns) as Ha by (repeat constructor; done).
    rewrite Forall_forall in Ha. destruct (Ha a H2). split_and!; [by apply Hn|done|done].
  - clear Hfits. induction Hh as [|hd hs (_ & _ & _ & ? & ? & ? & ?) _ IH]; [constructor|]. rewrite fmap_cons. cbn [concat].
    apply Forall_app. split; [by repeat constructor|done].
Qed.

Lemma header_nonneg : 364 <= h_header_bytes h.
Proof.
  pose proof (so_planes s Hok). destruct (so_heads s Hok) as [Hn _]. rewrite (ho_size _ _ _ _ _ Hof). unfold header_size.
  rewrite (ho_view _ _ _ _ _ Hof). cbn [h_text_plane_count h_backend_plane_count h_ladder_count].
  destruct (header_bytes_bounds (Z.of_nat (length (planes_of (cs_text_pool s))))
    (Z.of_nat (length (planes_of (cs_backend_pool s)))) (Z.of_nat (length (cs_ladder_heads s)))) as [Hb _];
    [lia|lia|lia|unfold u32; lia|]. lia.
Qed.

(** Sizes, bounds and order of the entry's regions. *)
Lemma region_facts :
  h_header_bytes h <= h_entry_bytes h <= size_max /\
  Forall (fun r => 0 <= snd r /\ (snd r = 0 -> fst r = 0) /\
    (snd r <> 0 -> h_header_bytes h <= fst r /\ fst r + snd r <= h_entry_bytes h))
    (h_section h ++ concat (head_regions <$> layouts)) /\
  (forall i j r r', (i < j)%nat -> (h_section h ++ concat (head_regions <$> layouts)) !! i = Some r ->
     (h_section h ++ concat (head_regions <$> layouts)) !! j = Some r' ->
     snd r <> 0 -> snd r' <> 0 -> fst r + snd r <= fst r').
Proof.
  pose proof header_nonneg as H0. pose proof Hfits as Hf. unfold entry_fits in Hf. rewrite section_sizes in Hf.
  destruct (entry_layout_spec (h_header_bytes h) lengths (cs_ladder_heads s)) as (He & _ & Hall & Hsort);
    [lia|apply parts_fine|done|].
  pose proof (place_sections_empty (entry_parts lengths (cs_ladder_heads s)) (h_header_bytes h)) as Hz.
  rewrite <- entry_regions_place in Hz. rewrite captured_regions.
  rewrite (ho_layout _ _ _ _ _ Hof) in He, Hall |- *. cbn [snd] in He, Hall. rewrite (ho_layout _ _ _ _ _ Hof) in Hz, Hsort.
  split_and!; [lia|lia| |exact Hsort].
  apply Forall_lookup. intros i r Hr. destruct (Forall2_lookup_l _ _ _ _ _ Hall Hr) as (q & Hq & E & Hb).
  pose proof parts_fine as Hp. unfold parts_ok in Hp. rewrite Forall_lookup in Hp, Hz. destruct (Hp i q Hq) as (Hp1 & _ & _).
  rewrite E in *. split_and!; [done|intros E0; apply (Hz i r Hr); congruence|]. intros Hne.
  destruct (Hb Hne) as (? & _ & ?). rewrite <- E in *. done.
Qed.

Lemma regions_u64 : Forall (fun r => u64 (fst r) /\ u64 (snd r)) (h_section h ++ concat (head_regions <$> layouts)).
Proof.
  destruct region_facts as (He & Hf & _). pose proof header_nonneg. eapply Forall_impl; [exact Hf|].
  intros r (H0 & Hz & Hn). unfold u64. destruct (decide (snd r = 0)) as [E|E]; [rewrite (Hz E), E; done|].
  destruct (Hn E). lia.
Qed.

Lemma length_layouts : length layouts = length (cs_ladder_heads s).
Proof.
  pose proof (ho_layout _ _ _ _ _ Hof) as El. unfold entry_layout in El. injection El as _ <- _. apply length_place_heads.
Qed.

Lemma captured_header_for :
  header_for h (planes_of (cs_text_pool s)) (planes_of (cs_backend_pool s)) (zip (cs_ladder_heads s) layouts).
Proof.
  pose proof regions_u64 as [Hsec Hlad]%Forall_app. destruct region_facts as ([He1 He2] & _ & _). pose proof header_nonneg.
  destruct (so_scalars s Hok) as (? & ? & ? & ? & ? & ? & ?). destruct (so_hashes s Hok). pose proof (so_planes s Hok) as Hpl.
  destruct (so_pages s Hok). destruct (so_heads s Hok) as [Hhl Hh]. destruct (ho_frontier _ _ _ _ _ Hof).
  destruct (ho_widths _ _ _ _ _ Hof) as (? & ? & ? & ? & ? & ? & ? & ? & ? & ? & ?).
  assert (length (h_section h) = 12%nat) as Hs12
    by (rewrite <- (length_fmap snd), section_sizes; by apply (ho_lengths _ _ _ _ _ Hof)).
  pose proof (ho_view _ _ _ _ _ Hof) as Hv. split.
  - unfold header_ok. rewrite Hv. cbn. split_and!; try done; unfold u32, u64; lia.
  - by rewrite Hv.
  - by rewrite Hv.
  - rewrite Hv. cbn [h_ladder_count]. rewrite length_zip_with, length_layouts. lia.
  - done.
  - apply Forall_forall. intros [hd l] Hin. pose proof (elem_of_zip_l _ _ _ _ Hin) as Hhd.
    pose proof (elem_of_zip_r _ _ _ _ Hin) as Hl. rewrite Forall_forall in Hh. destruct (Hh hd Hhd) as (? & ? & [? ?] & _).
    assert (forall r, r ∈ head_regions l -> u64 (fst r) /\ u64 (snd r)) as Hr.
    { intros r Hr. rewrite Forall_forall in Hlad. apply Hlad. apply list_elem_of_In, in_concat. exists (head_regions l).
      split; apply list_elem_of_In; [|done]. apply list_elem_of_fmap. by exists l. }
    unfold head_regions in Hr.
    destruct (Hr (ll_conv l)), (Hr (ll_rec l)), (Hr (ll_hidden l)), (Hr (ll_dflash l)); try (by repeat constructor).
    by split_and!.
Qed.
End captured.

(** The bytes of the copies, in the order of the regions they go to. *)
Definition copied (s : RamCaptureSource) (identity : ResidentPrefixIdentity) (images heads : list (list Z)) : list (list Z) :=
  [i32_image (cs_ledger s); identity_image identity] ++ images ++ heads.

(** Each of the section and head images has the length its region was given. *)
Definition images_fit (h : HeaderView) (layouts : list LadderLayout) (images heads : list (list Z)) : Prop :=
  Forall2 (fun d r => Z.of_nat (length d) = snd r) images (drop 2 (h_section h)) /\
  Forall2 (fun d r => Z.of_nat (length d) = snd r) heads (concat (head_regions <$> layouts)).

Section block.
Context (s : RamCaptureSource) (identity : ResidentPrefixIdentity) (lengths : list Z) (h : HeaderView)
        (layouts : list LadderLayout) (images heads : list (list Z)) (block : list Z).
Context (Hok : source_ok s) (Hof : header_of s identity lengths h layouts) (Hfits : entry_fits h (cs_ladder_heads s)).
Context (Himages : images_fit h layouts images heads) (Hblock : Z.of_nat (length block) = h_entry_bytes h).

#[local] Abbreviation regions := (h_section h ++ concat (head_regions <$> layouts)).
#[local] Abbreviation ladders := (zip (cs_ladder_heads s) layouts).
#[local] Abbreviation header_image := (entry_header_image h (planes_of (cs_text_pool s)) (order_of (cs_text_pool s))
  (planes_of (cs_backend_pool s)) (order_of (cs_backend_pool s)) ladders).
#[local] Abbreviation padding := (replicate (Z.to_nat (h_header_bytes h) - length header_image) 0).

Lemma copies_fit : Forall2 (fun d r => Z.of_nat (length d) = snd r) (copied s identity images heads) regions.
Proof.
  destruct Himages as [Hi Hh]. unfold copied. rewrite app_assoc. apply Forall2_app; [|done].
  rewrite <- (take_drop 2 (h_section h)). apply Forall2_app; [|done].
  pose proof (section_sizes _ _ _ _ _ Hof) as Hs. pose proof (ho_host _ _ _ _ _ Hof) as Hh2. rewrite <- Hs, <- fmap_take in Hh2.
  destruct (take 2 (h_section h)) as [|a [|b [|? ?]]]; try done. injection Hh2 as E1 E2.
  repeat constructor; [rewrite E1, length_i32_image; lia|rewrite E2].
  apply length_identity_image, (so_identity s Hok), (ho_identity _ _ _ _ _ Hof).
Qed.

Lemma header_written : header_region s h layouts = Ok (header_image ++ padding) /\
  Z.of_nat (length (header_image ++ padding)) = h_header_bytes h.
Proof.
  pose proof (captured_header_for _ _ _ _ _ Hok Hof Hfits) as Hf. destruct (header_size_bounds _ _ _ _ Hf) as [Hs _].
  pose proof (length_entry_header_image h (planes_of (cs_text_pool s)) (order_of (cs_text_pool s))
    (planes_of (cs_backend_pool s)) (order_of (cs_backend_pool s)) ladders (hf_ok _ _ _ _ Hf)) as Hl.
  pose proof (ho_size _ _ _ _ _ Hof) as Hz. unfold header_region. rewrite writes_entry_header by (cbn [room]; lia).
  split; [done|]. rewrite length_app, length_replicate. lia.
Qed.

Definition final : list Z :=
  foldl store block ((0, header_image ++ padding) :: zip (fst <$> regions) (copied s identity images heads)).

Lemma capture_block_final : capture_block s images heads h layouts block = Ok final.
Proof.
  unfold capture_block. rewrite (proj1 header_written). cbn [mbind res_bind].
  rewrite (ho_identity _ _ _ _ _ Hof), pack_image by (apply (so_identity s Hok), (ho_identity _ _ _ _ _ Hof)). done.
Qed.

Lemma copy_lookup i w : zip (fst <$> regions) (copied s identity images heads) !! i = Some w ->
  exists r, regions !! i = Some r /\ copied s identity images heads !! i = Some (snd w) /\
    fst w = fst r /\ Z.of_nat (length (snd w)) = snd r.
Proof.
  rewrite lookup_zip_with_Some. intros (x & d & -> & Hx & Hd). apply list_lookup_fmap_Some in Hx as (r & -> & Hr). exists r. split_and!; [done|done|done|].
  destruct (Forall2_lookup_l _ _ _ _ _ copies_fit Hd) as (r' & Hr' & E). cbn [snd]. congruence.
Qed.

Lemma final_reads :
  length final = length block /\ slice_at 0 (h_header_bytes h) final = header_image ++ padding /\
  forall i r d, regions !! i = Some r -> copied s identity images heads !! i = Some d ->
    slice_at (fst r) (snd r) final = d.
Proof.
  destruct (region_facts _ _ _ _ _ Hok Hof Hfits) as (He & Hr & Hsort). destruct header_written as [_ Hl].
  pose proof (header_nonneg _ _ _ _ _ Hok Hof) as H0. rewrite Forall_lookup in Hr.
  unfold final. revert Hl. generalize (header_image ++ padding). intros H Hl.
  destruct (stores_read ((0, H) :: zip (fst <$> regions) (copied s identity images heads)) block)
    as [E1 E2].
  - constructor; [cbn [fst snd]; lia|]. apply Forall_lookup. intros i w Hw.
    destruct (copy_lookup i w Hw) as (r & Hri & _ & -> & ->). destruct (Hr i r Hri) as (R0 & Rz & Rn).
    destruct (decide (snd r = 0)) as [E|E]; [rewrite (Rz E), E|destruct (Rn E)]; lia.
  - intros [|i] [|j] w w' Hij Hi Hj Hne Hne'; try lia.
    + injection Hi as <-. cbn [fst snd] in *. destruct (copy_lookup j w' Hj) as (r & Hrj & _ & -> & Ew).
      destruct (Hr j r Hrj) as (_ & _ & Rn). destruct (decide (snd r = 0)); [destruct Hne'; apply nil_length_inv; lia|].
      destruct (Rn ltac:(done)). lia.
    + cbn in Hi, Hj. destruct (copy_lookup i w Hi) as (r & Hri & _ & -> & Ew), (copy_lookup j w' Hj) as (r' & Hrj & _ & -> & Ew').
      rewrite Ew. apply (Hsort i j r r' ltac:(lia) Hri Hrj); intros E; [apply Hne|apply Hne']; apply nil_length_inv; lia.
  - split_and!; [done| |].
    + pose proof (E2 O _ eq_refl) as E. cbn [fst snd] in E. by rewrite Hl in E.
    + intros i r d Hri Hd. destruct (Forall2_lookup_l _ _ _ _ _ copies_fit Hd) as (r' & Hr' & El).
      assert (r' = r) as -> by congruence. rewrite <- El. apply (E2 (S i) (fst r, d)).
      change (zip (fst <$> regions) (copied s identity images heads) !! i = Some (fst r, d)).
      apply lookup_zip_with_Some. exists (fst r), d. split_and!; [done| |done]. apply list_lookup_fmap_Some. by exists r.
Qed.
End block.

(** What a reader of the entry should see of the source. *)
Definition captured_host (s : RamCaptureSource) (identity : ResidentPrefixIdentity) (layouts : list LadderLayout)
    : RamRestoredHost :=
  let ladders := ladder_view <$> zip (cs_ladder_heads s) layouts in
  MkRestored (cs_execution_frontier s) (cs_ledger_frontier s) (cs_rope_delta s) (cs_text_kv_valid s)
    (cs_mtp_kv_valid s) (cs_dflash_context_frontier s) (cs_tail_hidden_valid s) (cs_rewrite_valid s)
    (kind_code (cs_rewrite_kind s)) (cs_rewrite_frontier s) (0 <? backend_pages_of s) (cs_ledger s) identity
    (fst <$> ladders) (snd <$> ladders) (cs_disk_entry_id s).

Section read_back.
Context (s : RamCaptureSource) (identity : ResidentPrefixIdentity) (lengths : list Z) (h : HeaderView)
        (layouts : list LadderLayout) (images heads : list (list Z)) (block : list Z).
Context (Hok : source_ok s) (Hof : header_of s identity lengths h layouts) (Hfits : entry_fits h (cs_ladder_heads s)).
Context (Himages : images_fit h layouts images heads) (Hblock : Z.of_nat (length block) = h_entry_bytes h).

#[local] Abbreviation image := (final s identity h layouts images heads block).
#[local] Abbreviation read := (set_ladders h (header_size h) (ladder_view <$> zip (cs_ladder_heads s) layouts)).

Lemma read_captured_header : read_header false image = Ok read.
Proof.
  destruct (final_reads _ _ _ _ _ _ _ _ Hok Hof Hfits Himages Hblock) as (El & Eh & _).
  destruct (region_facts _ _ _ _ _ Hok Hof Hfits) as (He & _). pose proof (header_nonneg _ _ _ _ _ Hok Hof).
  pose proof (captured_header_for _ _ _ _ _ Hok Hof Hfits) as Hf. unfold slice_at in Eh. rewrite drop_0 in Eh.
  rewrite <- (take_drop (Z.to_nat (h_header_bytes h)) image), Eh, <- app_assoc.
  apply read_entry_header; [done| |]; rewrite app_assoc, <- Eh, take_drop, El;
    rewrite <- ?(ho_size _ _ _ _ _ Hof); lia.
Qed.

Lemma read_captured_section i d : copied s identity images heads !! i = Some d -> (i < 12)%nat ->
  section_bytes image read i = d /\ section_length read i = Z.of_nat (length d).
Proof.
  intros Hd Hi. destruct (final_reads _ _ _ _ _ _ _ _ Hok Hof Hfits Himages Hblock) as (_ & _ & Er).
  assert (Forall2 (fun d r => Z.of_nat (length d) = snd r) (copied s identity images heads)
    (h_section h ++ concat (head_regions <$> layouts))) as Hc by (eapply copies_fit; eassumption).
  destruct (Forall2_lookup_l _ _ _ _ _ Hc Hd) as (r & Hr & El).
  unfold section_bytes, section_length. cbn [set_ladders h_section].
  pose proof (Er i r d Hr Hd) as E. rewrite lookup_app_l in Hr.
  - rewrite Hr. destruct r as [o n]. split; [exact E|done].
  - rewrite <- (length_fmap snd), (section_sizes _ _ _ _ _ Hof). by rewrite (proj1 (ho_lengths _ _ _ _ _ Hof)).
Qed.

Lemma read_captured_host : host_from_header image read = Ok (captured_host s identity layouts).
Proof.
  destruct (read_captured_section 0 _ eq_refl) as [E0 L0]; [lia|].
  destruct (read_captured_section 1 _ eq_refl) as [E1 L1]; [lia|].
  pose proof (ho_view _ _ _ _ _ Hof) as Hv. destruct (ho_frontier _ _ _ _ _ Hof) as [Hlf _].
  assert (h_ledger_frontier read = Z.of_nat (length (cs_ledger s))) as Hl by (cbn; by rewrite Hv).
  unfold host_from_header. rewrite E0, E1, L0, Hl, length_i32_image, (proj2 (Z.eqb_eq _ _)) by lia.
  cbn [negb throw_if mbind res_bind]. rewrite Nat2Z.id. unfold i32_image. rewrite <- (app_nil_r (concat _)), chunks_image.
  assert (bool_decide (section_ptr read 1 = None) = false) as ->.
  { apply bool_decide_eq_false_2. unfold section_ptr. unfold section_length in L1.
    assert (8 <= Z.of_nat (length (identity_image identity))) as H8
      by (unfold identity_image; rewrite !length_app, !length_le_bytes; lia).
    destruct (h_section read !! 1%nat) as [[o n]|]; [|lia]. subst n. by rewrite (proj2 (Z.eqb_neq _ _)) by lia. }
  unfold unpack. cbn [andb throw_if mbind res_bind].
  rewrite read_identity_image by (apply (so_identity s Hok), (ho_identity _ _ _ _ _ Hof)). cbn [fst].
  assert (to_i32 <$> ((fun x => le_value (le_bytes 4 x)) <$> cs_ledger s) = cs_ledger s) as ->.
  { rewrite <- list_fmap_compose. rewrite <- (list_fmap_id (cs_ledger s)) at 2. apply list_fmap_ext. intros j x Hx.
    apply le_value_i32. pose proof (so_ledger s Hok) as Hi. rewrite Forall_lookup in Hi. by apply (Hi j). }
  unfold captured_host. rewrite Hlf. cbn [mbind res_bind]. f_equal. f_equal; cbn [set_ladders h_execution_frontier
    h_rope_delta h_text_kv_valid h_mtp_kv_valid h_dflash_context_frontier h_tail_hidden_valid h_rewrite_valid
    h_rewrite_kind h_rewrite_frontier h_backend_mapped_pages h_ladders h_ladder_images h_disk_entry_id];
    first [reflexivity|rewrite Hv; reflexivity].
Qed.

Lemma read_captured_image k d : heads !! k = Some d ->
  exists r, concat (head_regions <$> layouts) !! k = Some r /\ slice_at (fst r) (snd r) image = d.
Proof.
  intros Hd. destruct (final_reads _ _ _ _ _ _ _ _ Hok Hof Hfits Himages Hblock) as (_ & _ & Er).
  destruct (Forall2_lookup_l _ _ _ _ _ (proj2 Himages) Hd) as (r & Hr & _). exists r. split; [done|].
  assert (length (h_section h) = 12%nat) as L12
    by (rewrite <- (length_fmap snd), (section_sizes _ _ _ _ _ Hof); apply (ho_lengths _ _ _ _ _ Hof)).
  assert (length images = 10%nat) as L10 by (rewrite (Forall2_length _ _ _ (proj1 Himages)), length_drop, L12; done).
  apply (Er (12 + k)%nat r d).
  - rewrite lookup_app_r by lia. rewrite L12. by replace (12 + k - 12)%nat with k by lia.
  - unfold copied. rewrite app_assoc, lookup_app_r; rewrite length_app, L10; cbn [length]; [|lia].
    by replace (12 + k - (2 + 10))%nat with k by lia.
Qed.
End read_back.

(** The host part alone. *)
Lemma captured_loads s h layouts images heads block identity image :
  source_ok s -> capture_header s = Ok (h, layouts) -> entry_fits h (cs_ladder_heads s) ->
  images_fit h layouts images heads -> Z.of_nat (length block) = h_entry_bytes h -> cs_identity s = Some identity ->
  capture_block s images heads h layouts block = Ok image -> load_host image = Ok (captured_host s identity layouts).
Proof.
  intros Hok Hc Hfits Hi Hb Hid Hbl. destruct (capture_header_of s h layouts Hok Hc) as (identity' & lengths & Hof).
  assert (identity' = identity) as -> by (pose proof (ho_identity _ _ _ _ _ Hof); congruence).
  rewrite (capture_block_final s identity lengths) in Hbl by done. injection Hbl as <-.
  unfold load_host. rewrite (read_captured_header s identity lengths) by done. cbn [mbind res_bind].
  by apply (read_captured_host s identity lengths).
Qed.

(** C24: A captured entry reads back: for a source whose capture computes a header,
    and an entry that fits, the block written by the header, ledger, identity and
    image copies is as long as before, [load_host] returns the source's frontiers,
    flags, ledger, identity and checkpoint heads, and each device section and each
    head image is found unchanged at the offset the header gives for it. *)
Theorem captured_entry_reads_back s h layouts images heads block :
  source_ok s -> capture_header s = Ok (h, layouts) -> entry_fits h (cs_ladder_heads s) ->
  images_fit h layouts images heads -> Z.of_nat (length block) = h_entry_bytes h ->
  exists identity image header,
    cs_identity s = Some identity /\ capture_block s images heads h layouts block = Ok image /\
    length image = length block /\ read_header false image = Ok header /\
    load_host image = Ok (captured_host s identity layouts) /\
    (forall i d, images !! i = Some d -> section_bytes image header (2 + i) = d) /\
    (forall k d, heads !! k = Some d ->
       exists r, concat (head_regions <$> layouts) !! k = Some r /\ slice_at (fst r) (snd r) image = d).
Proof.
  intros Hok Hc Hfits Hi Hb. destruct (capture_header_of s h layouts Hok Hc) as (identity & lengths & Hof).
  pose proof (read_captured_header _ _ _ _ _ _ _ _ Hok Hof Hfits Hi Hb) as Hr.
  exists identity, (final s identity h layouts images heads block),
    (set_ladders h (header_size h) (ladder_view <$> zip (cs_ladder_heads s) layouts)). split_and!; [apply Hof| | |exact Hr| | |].
  - by apply (capture_block_final s identity lengths).
  - by apply (final_reads s identity lengths).
  - unfold load_host. rewrite Hr. cbn [mbind res_bind]. by apply (read_captured_host s identity lengths).
  - intros i d Hd. apply (read_captured_section s identity lengths h layouts images heads block Hok Hof Hfits Hi Hb (2 + i)).
    + unfold copied. rewrite lookup_app_r by (cbn; lia). cbn [length]. replace (2 + i - 2)%nat with i by lia.
      rewrite lookup_app_l; [done|by apply lookup_lt_Some in Hd].
    + apply lookup_lt_Some in Hd. rewrite (Forall2_length _ _ _ (proj1 Hi)), length_drop in Hd.
      rewrite <- (length_fmap snd (h_section h)), (section_sizes _ _ _ _ _ Hof) in Hd.
      rewrite (proj1 (ho_lengths _ _ _ _ _ Hof)) in Hd. lia.
  - intros k d. by apply (read_captured_image s identity lengths).
Qed.

(** ** A captured lane: two text tokens, one page of one plane, one checkpoint head *)
Definition capture_pool : PagedKVPool :=
  MkPool (MkPoolSpec 2 2 1 PageMajor []) [demo_plane] demo_plane [] [] 0 1.

Definition capture_identity : ResidentPrefixIdentity :=
  MkIdentity [0; 0] (MkAxes [0; 1] [0; 1] [0; 1]) [].

(** The hash of the first token. *)
Definition capture_hash : PrefixHash128 := MkHash 17048174690006386780 16547698287899838755.

Definition capture_source : RamCaptureSource :=
  MkSource 1 2 0 1 0 0 false false TurnClosure 0 [17; -1] (Some capture_identity) capture_hash (MkHash 0 0) false
    (Some (MkAlloc None [0] 1 (-1))) (Some capture_pool) None None None None None no_host_state no_host_state
    None None [MkLadderHead 1 capture_hash 1 3 2 0 0] 0 None.

Definition capture_result : HeaderView * list LadderLayout :=
  Eval vm_compute in
    match capture_header capture_source with
    | Ok r => r
    | Throw _ => (set_ladders demo_header 0 [], [])
    end.

Lemma capture_source_ok : source_ok capture_source.
Proof.
  split.
  - by vm_compute.
  - by vm_compute.
  - by repeat constructor.
  - intros i [= <-]. apply (bool_decide_unpack _). by vm_compute.
  - split; [intros t [= <-]|]; by vm_compute.
  - by vm_compute.
  - by vm_compute.
  - done.
  - split; [by vm_compute|]. constructor; [|constructor]. unfold u32, hash_ok, u64. cbn. split_and!; by vm_compute.
Qed.

(** The bytes of the text page and of the head's two images. *)
Definition capture_images : list (list Z) := [replicate 256 7; []; []; []; []; []; []; []; []; []].
Definition capture_heads : list (list Z) := [[1; 2; 3]; [4; 5]; []; []].

Lemma capture_result_ok : capture_header capture_source = Ok capture_result.
Proof. vm_compute. reflexivity. Qed.

Lemma capture_result_fits : entry_fits (fst capture_result) (cs_ladder_heads capture_source).
Proof. vm_compute. discriminate. Qed.

Lemma capture_images_fit : images_fit (fst capture_result) (snd capture_result) capture_images capture_heads.
Proof. split; repeat (constructor; [vm_compute; reflexivity|]); constructor. Qed.

Lemma captured_entry_reads_back_witness :
  exists identity image header,
    cs_identity capture_source = Some identity /\
    capture_block capture_source capture_images capture_heads (fst capture_result) (snd capture_result)
      (replicate (Z.to_nat (h_entry_bytes (fst capture_result))) 0) = Ok image /\
    read_header false image = Ok header /\ section_bytes image header 2 = replicate 256 7.
Proof.
  destruct (captured_entry_reads_back capture_source (fst capture_result) (snd capture_result) capture_images capture_heads
    (replicate (Z.to_nat (h_entry_bytes (fst capture_result))) 0)) as (identity & image & header & E1 & E2 & _ & E3 & _ & E4 & _).
  - apply capture_source_ok.
  - apply capture_result_ok.
  - apply capture_result_fits.
  - apply capture_images_fit.
  - vm_compute. reflexivity.
  - exists identity, image, header. split_and!; [exact E1|exact E2|exact E3|]. apply (E4 0%nat). reflexivity.
Defined.
