(* ===== verification/RamMatch.v ===== *)
(** * targets/qwen3_6/impl/runtime/kv_ram_cache.cpp: matching a prompt

    [KVRamCache::plan_match] looks for the cached entry a prompt can reuse the most
    of.  It filters by hash, reads the entry's header, ledger and identity back from
    its block, and compares the prefixes exactly.  The filter never hides an entry,
    and the answer is the longest usable one.  Not modelled: the counter of exact
    comparisons and the test hook. *)

From stdpp Require Import prelude list list_numbers gmap.
From Stdlib Require Import ZArith Lia.
From S2P Require Import Prelude.
From S2P Require Import HostArena.
From S2P Require Import PrefixIdentity.
From S2P Require Import PrefixTheorems.
From S2P Require Import ContextReuse.
From S2P Require Import RamFormat.
From S2P Require Import RamTheorems.
From S2P Require Import RamIndex.
From S2P Require Import RamIndexTheorems.
From S2P Require Import RamCapture.
#[local] Open Scope Z_scope.

Record RamMatch : Type := MkMatch { m_entry_id : Z; m_reuse : PrefixReusePath; m_reuse_base : Z }.

#[export] Instance RamMatch_eq_dec : EqDecision RamMatch.
Proof. solve_decision. Defined.

(** [static_cast<ContextCheckpointKind>] of the stored number. *)
Definition kind_of_code (code : Z) : ContextCheckpointKind :=
  if code =? 1 then TurnRollback else if code =? 2 then OnDemand else Ladder.

Section plan.
(** [mem block bytes]: the bytes of a block of the arena. *)
Context (mem : Z -> Z -> list Z).
Context (prompt : PreparedPromptData) (hash_chain : list PrefixHash128) (policy : ReuseBackendPolicy).

Definition hash_hits (frontier : Z) (hash : PrefixHash128) : bool :=
  (0 <? frontier) && (frontier <? Z.of_nat (length hash_chain))
  && bool_decide (nth (Z.to_nat frontier) hash_chain initial_hash = hash).

(** The candidates of a record whose hash the prompt's chain hits, in the order
    they are considered. *)
Definition hash_candidates (r : RamRecord) : list (PrefixReusePath * Z) :=
  (if hash_hits (r_execution_frontier r) (r_hash_f r) then [(AppendAtFrontier, r_execution_frontier r)] else [])
  ++ (if r_hash_c_valid r && hash_hits (r_checkpoint_frontier r) (r_hash_c r)
      then [(r_checkpoint_path r, r_checkpoint_frontier r)] else [])
  ++ omap (fun l => if hash_hits (li_frontier l) (li_hash l)
                    then Some (reuse_path_for_context_checkpoint_kind (kind_of_code (li_kind l)), li_frontier l)
                    else None) (r_ladders r).

(** The fields of [ResidentReuseState] that [plan_match] sets. *)
Definition match_state (host : RamRestoredHost) : ResidentReuseState :=
  MkReuseState [] (MkIdentity [] (MkAxes [] [] []) []) 0 false TurnClosure 0 (rh_mtp_kv_valid host)
    (rh_dflash_context_frontier host) (rh_tail_hidden_valid host) (rh_backend_image_present host) [].

Definition consider (host : RamRestoredHost) (candidate : RamMatch) (c : PrefixReusePath * Z) : RamMatch :=
  let '(path, base) := c in
  if (base =? 0) || negb (reuse_candidate_ready (match_state host) path base
                            (Z.of_nat (length (token_ids prompt))) policy) then candidate
  else if negb (prefix_matches prompt (rh_ledger host) (rh_identity host) (Z.to_nat base)) then candidate
  else if m_reuse_base candidate <? base then MkMatch (m_entry_id candidate) path base
  else candidate.

(** One turn of the loop. *)
Definition match_entry (id : Z) (r : RamRecord) : res (option RamMatch) :=
  let candidates := hash_candidates r in
  if bool_decide (candidates = []) then Ok None
  else
    let block := mem (r_block r) (r_bytes r) in
    header ← read_header (r_block r =? 0) block;
    host ← host_from_header block header;
    let candidate := foldl (consider host) (MkMatch id FullReset 0) candidates in
    Ok (if m_reuse_base candidate =? 0 then None else Some candidate).

Fixpoint match_loop (records : gmap Z RamRecord) (ids : list Z) (best : option RamMatch) : res (option RamMatch) :=
  match ids with
  | [] => Ok best
  | id :: ids =>
      match records !! id with
      | None => Throw logic_error
      | Some r =>
          if r_retired r then Throw logic_error
          else if r_pinned r then match_loop records ids best
          else
            candidate ← match_entry id r;
            match_loop records ids
              (match candidate with
               | None => best
               | Some m =>
                   match best with
                   | None => Some m
                   | Some b => if m_reuse_base b <? m_reuse_base m then Some m else Some b
                   end
               end)
      end
  end.

Definition plan_match (c : KVRamCache) : res (option RamMatch) := match_loop (records_ c) (fifo_ c) None.
End plan.

(** ** The filter hides nothing, the answer is the longest *)

(** What the entry offers, as the resident reuse decision sees a lane. *)
Definition entry_state (r : RamRecord) (host : RamRestoredHost) : ResidentReuseState :=
  MkReuseState (rh_ledger host) (rh_identity host) (r_execution_frontier r) (r_hash_c_valid r)
    (if bool_decide (r_checkpoint_path r = RestoreTurnCheckpoint) then TurnClosure else ResponseReplay)
    (r_checkpoint_frontier r) (rh_mtp_kv_valid host) (rh_dflash_context_frontier host) (rh_tail_hidden_valid host)
    (rh_backend_image_present host)
    ((fun l => MkRef (li_frontier l) (li_hash l) (kind_of_code (li_kind l))) <$> r_ladders r).

(** The record's index fields describe the sequence stored in the block. *)
Record indexed (r : RamRecord) (host : RamRestoredHost) : Prop := MkIndexed {
  ix_frontiers : 0 <= r_execution_frontier r /\ 0 <= r_checkpoint_frontier r;
  ix_path : r_checkpoint_path r = RestoreTurnCheckpoint \/ r_checkpoint_path r = RestoreResponseCheckpoint;
  ix_items : Forall item_ok (vision_items_ (rh_identity host)) /\ Forall canonical_times (vision_items_ (rh_identity host));
  ix_hash_f : prefix_hash_at (rh_ledger host) (rh_identity host) (Z.to_nat (r_execution_frontier r)) = Ok (r_hash_f r);
  ix_hash_c : r_hash_c_valid r = true ->
    prefix_hash_at (rh_ledger host) (rh_identity host) (Z.to_nat (r_checkpoint_frontier r)) = Ok (r_hash_c r);
  ix_heads : heads_exact (entry_state r host);
}.

Section optimal.
Context (mem : Z -> Z -> list Z).
Context (p : PreparedPromptData) (chain : list PrefixHash128) (policy : ReuseBackendPolicy).
Context (Kp : Forall item_ok (vision_items p)) (Cp : Forall canonical_times (vision_items p)).
Context (Hchain : prefix_hash_chain p = Ok chain).

(** Usable, seen through the comparison [consider] makes. *)
Definition accepts (host : RamRestoredHost) (path : PrefixReusePath) (f : Z) : Prop :=
  0 < f /\ prefix_matches p (rh_ledger host) (rh_identity host) (Z.to_nat f) = true /\
  reuse_candidate_ready (match_state host) path f (Z.of_nat (length (token_ids p))) policy = true.

Lemma usable_accepts r host path f :
  usable (entry_state r host) p policy path f <-> candidate (entry_state r host) path f /\ accepts host path f.
Proof. done. Qed.

Lemma match_hits ledger identity f hash :
  Forall item_ok (vision_items_ identity) -> Forall canonical_times (vision_items_ identity) ->
  0 < f -> prefix_matches p ledger identity (Z.to_nat f) = true ->
  prefix_hash_at ledger identity (Z.to_nat f) = Ok hash -> hash_hits chain f hash = true.
Proof.
  intros Kr Cr Hf Hm Hh.
  destruct (matching_hash p ledger identity _ Kp Kr Cp Cr Hm) as (chain' & x & E & Hx & E').
  assert (chain' = chain) as -> by congruence. assert (x = hash) as -> by congruence.
  pose proof (lookup_lt_Some _ _ _ Hx). unfold hash_hits.
  rewrite (proj2 (Z.ltb_lt _ _)), (proj2 (Z.ltb_lt _ _)) by lia. apply bool_decide_eq_true_2. by apply nth_lookup_Some.
Qed.

Lemma checkpoint_path_kind r host : indexed r host ->
  rewrite_restore_path (rewrite_kind (entry_state r host)) = r_checkpoint_path r.
Proof. intros Hi. cbn [entry_state rewrite_kind]. by destruct (ix_path r host Hi) as [-> | ->]. Qed.

(** The hash filter keeps exactly the candidates that can match. *)
Lemma hash_candidates_exact r host path f : indexed r host -> accepts host path f ->
  (path, f) ∈ hash_candidates chain r <-> candidate (entry_state r host) path f.
Proof.
  intros Hi (H0 & Hm & _). destruct (ix_items r host Hi) as [Kr Cr]. pose proof (checkpoint_path_kind r host Hi) as Hk.
  unfold hash_candidates. rewrite !elem_of_app. split.
  - intros [H|[H|H]].
    + destruct (hash_hits _ _ _); apply list_elem_of_singleton in H || apply elem_of_nil in H; [|done].
      injection H as -> ->. apply (cand_append (entry_state r host)).
    + destruct (r_hash_c_valid r && _) eqn:E; apply list_elem_of_singleton in H || apply elem_of_nil in H; [|done].
      injection H as -> ->. rewrite <- Hk. apply andb_true_iff in E as [E _]. by apply (cand_rewrite (entry_state r host)).
    + apply list_elem_of_omap in H as (l & Hl & E). destruct (hash_hits _ _ _); [|done]. injection E as <- <-.
      apply (cand_head (entry_state r host) (MkRef (li_frontier l) (li_hash l) (kind_of_code (li_kind l)))).
      apply list_elem_of_fmap. by exists l.
  - intros Hc. destruct Hc as [|Hv|ref Href].
    + left. cbn [entry_state execution_frontier] in *. rewrite (match_hits _ _ _ _ Kr Cr H0 Hm (ix_hash_f r host Hi)). by left.
    + right. left. rewrite Hk. cbn [entry_state rewrite_frontier rewrite_valid] in *.
      rewrite Hv, (match_hits _ _ _ _ Kr Cr H0 Hm (ix_hash_c r host Hi Hv)). by left.
    + right. right. apply list_elem_of_fmap in Href as (l & -> & Hl). cbn [ref_frontier ref_kind ref_hash] in *.
      apply list_elem_of_omap. exists l. split; [done|].
      pose proof (ix_heads r host Hi) as Hh. unfold heads_exact in Hh. rewrite Forall_forall in Hh.
      destruct (Hh (MkRef (li_frontier l) (li_hash l) (kind_of_code (li_kind l)))) as [_ E].
      { apply list_elem_of_fmap. by exists l. }
      cbn [ref_hash ref_frontier] in E. by rewrite (match_hits _ _ _ _ Kr Cr H0 Hm E).
Qed.

Lemma consider_fold host cands : forall m, 0 <= m_reuse_base m ->
  let out := foldl (consider p policy host) m cands in
  m_entry_id out = m_entry_id m /\ m_reuse_base m <= m_reuse_base out /\
  (out = m \/ ((m_reuse out, m_reuse_base out) ∈ cands /\ accepts host (m_reuse out) (m_reuse_base out))) /\
  forall path f, (path, f) ∈ cands -> accepts host path f -> f <= m_reuse_base out.
Proof.
  induction cands as [|[path f] cands IH]; intros m Hm; cbn [foldl]; cbv zeta.
  { split_and!; [done|lia|by left|]. by intros ? ? ?%elem_of_nil. }
  set (m' := consider p policy host m (path, f)).
  assert ((m' = m /\ (accepts host path f -> f <= m_reuse_base m)) \/
          (m' = MkMatch (m_entry_id m) path f /\ m_reuse_base m < f /\ accepts host path f)) as Hm'.
  { subst m'. unfold consider, accepts. destruct (f =? 0) eqn:E0; guards; [left; split; [done|intros (? & _); lia]|].
    destruct (reuse_candidate_ready _ _ _ _ _); [|left; split; [done|by intros (_ & _ & ?)]]. cbn [orb negb].
    destruct (prefix_matches _ _ _ _); [|left; split; [done|by intros (_ & ? & _)]]. cbn [negb].
    destruct (m_reuse_base m <? f) eqn:E; guards; [right; split_and!; [done|lia|lia|done|done]|left; split; [done|intros _; lia]]. }
  assert (m_reuse_base m <= m_reuse_base m' /\ m_entry_id m' = m_entry_id m) as [Hb Hid]
    by (destruct Hm' as [[-> _]|(-> & ? & _)]; cbn; (split; [lia|done])).
  destruct (IH m' ltac:(lia)) as (I1 & I2 & I3 & I4). split_and!; [congruence|lia| |].
  - destruct I3 as [E|[? ?]]; [|right; split; [by right|done]].
    destruct Hm' as [[-> _]|(Em & _ & Ha)]; [by left|right]. rewrite E, Em. cbn. split; [by left|done].
  - intros path' f' [[= -> ->]|Hin]%elem_of_cons Ha; [|by apply (I4 path')].
    destruct Hm' as [[Em Hle]|(Em & _ & _)]; [specialize (Hle Ha); lia|]. assert (m_reuse_base m' = f) by (by rewrite Em). lia.
Qed.

(** An entry whose block can be read and whose index is right. *)
Definition entry_sound (r : RamRecord) : Prop :=
  r_block r <> 0 /\ exists host, load_host (mem (r_block r) (r_bytes r)) = Ok host /\ indexed r host.

(** What the entry offers the prompt. *)
Definition entry_offers (r : RamRecord) (path : PrefixReusePath) (f : Z) : Prop :=
  exists host, load_host (mem (r_block r) (r_bytes r)) = Ok host /\ usable (entry_state r host) p policy path f.

Lemma match_entry_spec id r : entry_sound r ->
  exists out, match_entry mem p chain policy id r = Ok out /\
  match out with
  | None => forall path f, ~ entry_offers r path f
  | Some m => m_entry_id m = id /\ entry_offers r (m_reuse m) (m_reuse_base m) /\
      forall path f, entry_offers r path f -> f <= m_reuse_base m
  end.
Proof.
  intros (Hb & host & Hl & Hi). unfold match_entry.
  assert (forall path f, entry_offers r path f -> (path, f) ∈ hash_candidates chain r /\ accepts host path f) as Hoff.
  { intros path f (host' & Hl' & Hu). assert (host' = host) as -> by congruence.
    apply usable_accepts in Hu as [Hc Ha]. split; [by apply (hash_candidates_exact r host)|done]. }
  destruct (bool_decide _) eqn:E; [apply bool_decide_eq_true_1 in E|].
  { exists None. split; [done|]. intros path f Ho. destruct (Hoff path f Ho) as [Hin _]. rewrite E in Hin.
    by apply elem_of_nil in Hin. }
  rewrite (proj2 (Z.eqb_neq _ _)) by done. unfold load_host in Hl. res_inv Hl. rewrite H. cbn [mbind res_bind]. rewrite Hl.
  cbn [mbind res_bind]. eexists. split; [reflexivity|].
  destruct (consider_fold host (hash_candidates chain r) (MkMatch id FullReset 0) ltac:(done)) as (I1 & I2 & I3 & I4).
  set (out := foldl _ _ _) in *. cbn [m_reuse_base m_entry_id] in *. destruct (m_reuse_base out =? 0) eqn:E0; guards.
  - intros path f Ho. destruct (Hoff path f Ho) as [Hin Ha]. pose proof (I4 path f Hin Ha). destruct Ha as [? _]. lia.
  - split_and!; [done| |].
    + destruct I3 as [Eo|[Hin Ha]]; [by rewrite Eo in E0|]. exists host. unfold load_host. rewrite H. split; [done|].
      apply usable_accepts. split; [by apply (hash_candidates_exact r host)|done].
    + intros path f Ho. destruct (Hoff path f Ho) as [Hin Ha]. by apply (I4 path).
Qed.

(** The best offer of the unclaimed entries [ids], the first one at equal length. *)
Definition best_offer (records : gmap Z RamRecord) (ids : list Z) (best : option RamMatch) : Prop :=
  let offers id path f := exists r, records !! id = Some r /\ r_pinned r = false /\ entry_offers r path f in
  match best with
  | None => forall id path f, id ∈ ids -> ~ offers id path f
  | Some m => exists before after, ids = before ++ m_entry_id m :: after /\
      offers (m_entry_id m) (m_reuse m) (m_reuse_base m) /\
      (forall id path f, id ∈ ids -> offers id path f -> f <= m_reuse_base m) /\
      forall id path f, id ∈ before -> offers id path f -> f < m_reuse_base m
  end.

#[local] Abbreviation offers records id path f :=
  (exists r, records !! id = Some r /\ r_pinned r = false /\ entry_offers r path f).

Lemma best_offer_skip records ids id best :
  (forall path f, ~ offers records id path f) -> best_offer records ids best -> best_offer records (ids ++ [id]) best.
Proof.
  intros Hn. unfold best_offer. destruct best as [m|].
  - intros (before & after & -> & Ho & Hall & Hb). exists before, (after ++ [id]).
    split_and!; [by rewrite <- app_assoc|done| |done].
    intros j path f [Hj| ->%list_elem_of_singleton]%elem_of_app Hx; [by apply (Hall j path)|by destruct (Hn path f)].
  - intros Hall j path f [Hj| ->%list_elem_of_singleton]%elem_of_app; [by apply Hall|by apply Hn].
Qed.

Lemma best_offer_take records ids m best :
  offers records (m_entry_id m) (m_reuse m) (m_reuse_base m) ->
  (forall path f, offers records (m_entry_id m) path f -> f <= m_reuse_base m) -> 0 < m_reuse_base m ->
  best_offer records ids best ->
  best_offer records (ids ++ [m_entry_id m])
    (match best with
     | None => Some m
     | Some b => if m_reuse_base b <? m_reuse_base m then Some m else Some b
     end).
Proof.
  intros Ho Hmax H0 Hbest.
  assert ((forall id path f, id ∈ ids -> offers records id path f -> f < m_reuse_base m) ->
    best_offer records (ids ++ [m_entry_id m]) (Some m)) as Hnew.
  { intros Hlt. exists ids, []. split_and!; [done|done| |done].
    intros j path f [Hj| ->%list_elem_of_singleton]%elem_of_app Hx; [specialize (Hlt j path f Hj Hx); lia|by apply (Hmax path)]. }
  destruct best as [b|].
  - destruct (m_reuse_base b <? m_reuse_base m) eqn:E; guards.
    + apply Hnew. destruct Hbest as (before & after & Eids & _ & Hall & _). intros j path f Hj Hx.
      specialize (Hall j path f Hj Hx). lia.
    + destruct Hbest as (before & after & -> & Hb & Hall & Hlt). exists before, (after ++ [m_entry_id m]).
      split_and!; [by rewrite <- app_assoc|done| |done].
      intros j path f [Hj| ->%list_elem_of_singleton]%elem_of_app Hx; [by apply (Hall j path)|].
      specialize (Hmax path f Hx). lia.
  - apply Hnew. intros j path f Hj Hx. by destruct (Hbest j path f Hj).
Qed.

Lemma match_loop_spec records ids : forall done_ids best,
  (forall id, id ∈ ids -> exists r, records !! id = Some r /\ r_retired r = false /\ (r_pinned r = false -> entry_sound r)) ->
  best_offer records done_ids best ->
  exists out, match_loop mem p chain policy records ids best = Ok out /\ best_offer records (done_ids ++ ids) out.
Proof.
  induction ids as [|id ids IH]; intros done_ids best Hs Hbest; cbn [match_loop].
  { exists best. by rewrite app_nil_r. }
  destruct (Hs id ltac:(by left)) as (r & Hr & Hret & Hsound). rewrite Hr, Hret.
  assert (forall out, best_offer records (done_ids ++ [id]) out ->
    exists out', match_loop mem p chain policy records ids out = Ok out' /\ best_offer records (done_ids ++ id :: ids) out')
    as Hgo.
  { intros out Ho. destruct (IH (done_ids ++ [id]) out) as (out' & E & Hb); [intros j Hj; apply Hs; by right|done|].
    exists out'. split; [done|]. by rewrite <- app_assoc in Hb. }
  destruct (r_pinned r) eqn:Ep.
  { apply Hgo, best_offer_skip; [|done]. intros path f (r' & Hr' & Hp & _). congruence. }
  destruct (match_entry_spec id r (Hsound eq_refl)) as (out & -> & Hout). cbn [mbind res_bind]. apply Hgo.
  destruct out as [m|].
  - destruct Hout as (<- & Ho & Hmax). apply best_offer_take; [by exists r| | |done].
    + intros path f (r' & Hr' & _ & Hx). assert (r' = r) as -> by congruence. by apply (Hmax path).
    + destruct Ho as (host & _ & (_ & H0 & _)). exact H0.
  - apply best_offer_skip; [|done]. intros path f (r' & Hr' & _ & Hx). assert (r' = r) as -> by congruence. by apply (Hout path f).
Qed.
End optimal.

Lemma plan_match_best base cap a w mem p chain policy :
  0 < base -> 0 <= cap -> base + cap <= size_max -> host_arena_new base cap = Ok a -> ram_reach a w ->
  Forall item_ok (vision_items p) -> Forall canonical_times (vision_items p) -> prefix_hash_chain p = Ok chain ->
  (forall id r, records_ (fst w) !! id = Some r -> r_retired r = false -> r_pinned r = false ->
     exists host, load_host (mem (r_block r) (r_bytes r)) = Ok host /\ indexed r host) ->
  exists out, plan_match mem p chain policy (fst w) = Ok out /\
    best_offer mem p policy (records_ (fst w)) (fifo_ (fst w)) out.
Proof.
  intros Hb Hc Hm Ha Hr Kp Cp Hchain Hs. pose proof (ram_reach_ok base cap a w Hb Hc Hm Ha Hr) as Hok.
  destruct (match_loop_spec mem p chain policy Kp Cp Hchain (records_ (fst w)) (fifo_ (fst w)) [] None) as (out & E & Ho).
  - intros id Hid. apply (ro_fifo _ _ Hok) in Hid as (r & Hid & Hret). exists r. split_and!; [done|done|]. intros Hp.
    split; [|by apply (Hs id r)]. pose proof (record_block_pos _ _ id r Hok Hid). lia.
  - intros id path f Hin. by apply elem_of_nil in Hin.
  - exists out. split; [exact E|exact Ho].
Qed.

(** C23: [plan_match] finds the longest reusable entry: in any reachable state of the
    cache whose unclaimed blocks hold what their index says, it returns without
    throwing, with an unclaimed entry, a reuse path and a frontier the prompt can
    continue from, such that no unclaimed entry offers a longer one and no older
    entry one as long; and nothing only if no unclaimed entry offers anything.  The
    hash filter never hides an entry. *)
Theorem plan_match_longest base cap a w mem p chain policy :
  0 < base -> 0 <= cap -> base + cap <= size_max -> host_arena_new base cap = Ok a -> ram_reach a w ->
  Forall item_ok (vision_items p) -> Forall canonical_times (vision_items p) -> prefix_hash_chain p = Ok chain ->
  (forall id r, records_ (fst w) !! id = Some r -> r_retired r = false -> r_pinned r = false ->
     exists host, load_host (mem (r_block r) (r_bytes r)) = Ok host /\ indexed r host) ->
  exists out, plan_match mem p chain policy (fst w) = Ok out /\
    best_offer mem p policy (records_ (fst w)) (fifo_ (fst w)) out.
Proof. apply plan_match_best. Qed.

(** ** A captured lane is found again *)

(** The index fields [capture] copies from its source into the record. *)
Definition index_record (s : RamCaptureSource) : RamRecord :=
  MkRecord (cs_hash_f s) (cs_hash_c s) (cs_hash_c_valid s) (cs_execution_frontier s) (cs_rewrite_frontier s)
    (cs_rewrite_valid s)
    (if bool_decide (cs_rewrite_kind s = TurnClosure) then RestoreTurnCheckpoint else RestoreResponseCheckpoint)
    ((fun h => MkLadderIndex (lh_frontier h) (lh_hash h) (lh_kind h)) <$> cs_ladder_heads s)
    0 0 false false 0 (cs_disk_entry_id s) None None.

(** The hashes of a source are those of its sequence, as [prefix_hashes.at] gives them. *)
Record source_hashed (s : RamCaptureSource) (identity : ResidentPrefixIdentity) : Prop := MkSourceHashed {
  sh_items : Forall item_ok (vision_items_ identity) /\ Forall canonical_times (vision_items_ identity);
  sh_f : prefix_hash_at (cs_ledger s) identity (Z.to_nat (cs_execution_frontier s)) = Ok (cs_hash_f s);
  sh_c : cs_hash_c_valid s = true ->
    prefix_hash_at (cs_ledger s) identity (Z.to_nat (cs_rewrite_frontier s)) = Ok (cs_hash_c s);
  sh_heads : Forall (fun h => prefix_hash_at (cs_ledger s) identity (Z.to_nat (lh_frontier h)) = Ok (lh_hash h))
    (cs_ladder_heads s);
}.

Lemma captured_indexed s identity layouts block bytes event :
  source_ok s -> source_hashed s identity ->
  indexed (new_record (index_record s) block bytes event) (captured_host s identity layouts).
Proof.
  intros Hok [Hit Hf Hc Hh]. destruct (so_scalars s Hok) as ((? & _) & _ & _ & _ & _ & (? & _) & _).
  split; [by split| |done|done|done|].
  - cbn. destruct (cs_rewrite_kind s); [by left|by right].
  - unfold heads_exact. cbn. rewrite <- list_fmap_compose. apply Forall_fmap, Forall_forall. intros h Hin. cbn.
    rewrite Forall_forall in Hh. destruct (so_heads s Hok) as [_ Hw]. rewrite Forall_forall in Hw.
    destruct (Hw h Hin) as ((? & _) & _). split; [done|by apply Hh].
Qed.

(** A captured lane is found again: once an entry holds the block a capture wrote
    and is unclaimed, [plan_match] on any prompt that continues the captured
    sequence, with a backend that can append to it, returns an entry with at least
    the captured frontier reusable. *)
Theorem captured_lane_found base cap a w mem p chain policy s identity h layouts images heads block id blk event :
  0 < base -> 0 <= cap -> base + cap <= size_max -> host_arena_new base cap = Ok a -> ram_reach a w ->
  Forall item_ok (vision_items p) -> Forall canonical_times (vision_items p) -> prefix_hash_chain p = Ok chain ->
  source_ok s -> capture_header s = Ok (h, layouts) -> entry_fits h (cs_ladder_heads s) ->
  images_fit h layouts images heads -> Z.of_nat (length block) = h_entry_bytes h ->
  cs_identity s = Some identity -> source_hashed s identity ->
  records_ (fst w) !! id = Some (new_record (index_record s) blk (h_entry_bytes h) event) ->
  capture_block s images heads h layouts block = Ok (mem blk (h_entry_bytes h)) ->
  (forall id' r, id' <> id -> records_ (fst w) !! id' = Some r -> r_retired r = false -> r_pinned r = false ->
     exists host, load_host (mem (r_block r) (r_bytes r)) = Ok host /\ indexed r host) ->
  0 < cs_execution_frontier s ->
  prefix_matches p (cs_ledger s) identity (Z.to_nat (cs_execution_frontier s)) = true ->
  reuse_candidate_ready (match_state (captured_host s identity layouts)) AppendAtFrontier (cs_execution_frontier s)
    (Z.of_nat (length (token_ids p))) policy = true ->
  exists m, plan_match mem p chain policy (fst w) = Ok (Some m) /\ cs_execution_frontier s <= m_reuse_base m.
Proof.
  intros Hb Hc Hm Ha Hr Kp Cp Hchain Hok Hh Hfits Himg Hlen Hid Hsh Hrec Hblk Hoth H0 Hmatch Hready.
  pose proof (captured_loads _ _ _ _ _ _ _ _ Hok Hh Hfits Himg Hlen Hid Hblk) as Hl.
  pose proof (captured_indexed s identity layouts blk (h_entry_bytes h) event Hok Hsh) as Hi.
  destruct (plan_match_best base cap a w mem p chain policy Hb Hc Hm Ha Hr Kp Cp Hchain) as (out & E & Hbest).
  - intros id' r Hr' Hret Hp. destruct (decide (id' = id)) as [->|Hne]; [|by apply (Hoth id')].
    rewrite Hrec in Hr'. injection Hr' as <-. by eexists.
  - assert (entry_offers mem p policy (new_record (index_record s) blk (h_entry_bytes h) event) AppendAtFrontier
      (cs_execution_frontier s)) as Hoff.
    { eexists. split; [exact Hl|]. split_and!; [|done|done|done].
      apply (cand_append (entry_state (new_record (index_record s) blk (h_entry_bytes h) event) _)). }
    assert (id ∈ fifo_ (fst w)) as Hin
      by (apply (ro_fifo _ _ (ram_reach_ok base cap a w Hb Hc Hm Ha Hr)); by eexists).
    destruct out as [m|]; [|by destruct (Hbest id AppendAtFrontier (cs_execution_frontier s) Hin ltac:(by eexists))].
    exists m. split; [done|]. destruct Hbest as (_ & _ & _ & _ & Hall & _).
    apply (Hall id AppendAtFrontier); [done|]. by eexists.
Qed.

(** ** A cache holding the captured lane, and a prompt that continues it *)
Definition match_host : HostPinnedArena := MkHost 4096 4096 0 [MkBlock 0 4096] 1 ∅.

Lemma match_host_new : host_arena_new 4096 4096 = Ok match_host.
Proof. vm_compute. reflexivity. Qed.

Definition match_ops : list ram_op := [OpReserve 1536; OpPublish (index_record capture_source) 7].

Definition match_world : ram_world :=
  foldl (fun w o => ram_exec all_pending o w) (ram_cache_new match_host, None) match_ops.

Lemma match_world_reach : ram_reach match_host match_world.
Proof.
  unfold match_world, match_ops. cbn [foldl]. constructor; [constructor; [constructor|]|]; vm_compute; [done|by eexists].
Qed.

Definition match_record : RamRecord := new_record (index_record capture_source) 4096 1536 7.

Lemma match_world_records : records_ (fst match_world) = {[ 1 := match_record ]}.
Proof. vm_compute. reflexivity. Qed.

Definition match_block : list Z := replicate 1536 0.

(** The arena's bytes: the captured block, whatever the address. *)
Definition match_mem (_ _ : Z) : list Z :=
  match capture_block capture_source capture_images capture_heads (fst capture_result) (snd capture_result) match_block with
  | Ok image => image
  | Throw _ => []
  end.

Lemma match_mem_holds :
  capture_block capture_source capture_images capture_heads (fst capture_result) (snd capture_result) match_block =
  Ok (match_mem 4096 1536).
Proof.
  unfold match_mem. destruct (capture_header_of _ _ _ capture_source_ok capture_result_ok) as (identity & lengths & Hof).
  rewrite (capture_block_final capture_source identity lengths); [done|apply capture_source_ok|done|apply capture_result_fits].
Qed.

Lemma match_source_hashed : source_hashed capture_source capture_identity.
Proof. split; [by repeat constructor|vm_compute; reflexivity|done|]. by repeat constructor. Qed.

Lemma match_entry_loads : load_host (match_mem 4096 1536) = Ok (captured_host capture_source capture_identity (snd capture_result)).
Proof.
  apply (captured_loads capture_source (fst capture_result) (snd capture_result) capture_images capture_heads match_block);
    [apply capture_source_ok|apply capture_result_ok|apply capture_result_fits|apply capture_images_fit
    |vm_compute; reflexivity|done|apply match_mem_holds].
Qed.

Definition match_prompt : PreparedPromptData := MkPrompt [17; 5] [0; 0] [0; 1; 0; 1; 0; 1] [].

Definition match_chain : list PrefixHash128 :=
  Eval vm_compute in match prefix_hash_chain match_prompt with Ok c => c | Throw _ => [] end.

Definition match_policy : ReuseBackendPolicy := MkPolicy NoBackend false false false.

Lemma plan_match_longest_witness :
  exists out, plan_match match_mem match_prompt match_chain match_policy (fst match_world) = Ok out /\ out <> None.
Proof.
  destruct (plan_match_longest 4096 4096 match_host match_world match_mem match_prompt match_chain match_policy)
    as (out & E & Hbest).
  - lia.
  - lia.
  - vm_compute. congruence.
  - apply match_host_new.
  - apply match_world_reach.
  - constructor.
  - constructor.
  - vm_compute. reflexivity.
  - intros id r Hr _ _. rewrite match_world_records in Hr. apply lookup_singleton_Some in Hr as [_ <-].
    eexists. split; [exact match_entry_loads|]. apply captured_indexed; [apply capture_source_ok|apply match_source_hashed].
  - exists out. split; [exact E|]. intros ->. apply (Hbest 1 AppendAtFrontier 1); [vm_compute; left|].
    exists match_record. split_and!; [by rewrite match_world_records|done|]. eexists. split; [exact match_entry_loads|].
    split_and!; [apply (cand_append (entry_state match_record _))|lia|vm_compute; reflexivity|vm_compute; reflexivity].
Defined.

Lemma captured_lane_found_witness :
  exists m, plan_match match_mem match_prompt match_chain match_policy (fst match_world) = Ok (Some m) /\
    1 <= m_reuse_base m.
Proof.
  apply (captured_lane_found 4096 4096 match_host match_world match_mem match_prompt match_chain match_policy
    capture_source capture_identity (fst capture_result) (snd capture_result) capture_images capture_heads match_block 1 4096 7).
  - lia.
  - lia.
  - vm_compute. congruence.
  - apply match_host_new.
  - apply match_world_reach.
  - constructor.
  - constructor.
  - vm_compute. reflexivity.
  - apply capture_source_ok.
  - apply capture_result_ok.
  - apply capture_result_fits.
  - apply capture_images_fit.
  - vm_compute. reflexivity.
  - reflexivity.
  - apply match_source_hashed.
  - rewrite match_world_records. vm_compute. reflexivity.
  - apply match_mem_holds.
  - intros id' r Hne Hr. rewrite match_world_records in Hr. apply lookup_singleton_Some in Hr as [<- _]. done.
  - reflexivity.
  - vm_compute. reflexivity.
  - vm_compute. reflexivity.
Defined.
