(* ===== verification/GenerationGuards.v ===== *)
(** * runtime/contract/{typical_cycle,reasoning_recovery}.h

    Two guards over the tokens of a running generation: the cycle exit, which
    excludes the token that would continue a periodic tail, and the detector of
    repeated reasoning passages behind the recovery of a looping request. *)

From stdpp Require Import prelude list list_numbers.
From Stdlib Require Import ZArith Lia.
From S2P Require Import Prelude.
From S2P Require Import Capacity.
#[local] Open Scope Z_scope.

(** ** typical_cycle.h *)
Definition kTypicalCyclePeriodMin : nat := 32.
Definition kTypicalCyclePeriodMax : nat := 2048.
Definition kTypicalCycleHammingScale : nat := 512.

Record TypicalCycle : Type := MkCycle { period : nat; continuation : Z }.

Definition typical_cycle_hamming_max (p : nat) : nat := (2 * p / kTypicalCycleHammingScale)%nat.

(** The comparison loop; it stops one past [max]. *)
Fixpoint hamming_loop (max mism : nat) (a b : list Z) : nat :=
  match a, b with
  | x :: a, y :: b =>
      if negb (x =? y)
      then if (max <? S mism)%nat then S mism else hamming_loop max (S mism) a b
      else hamming_loop max mism a b
  | _, _ => mism
  end.

Definition suffix_square_hamming (generated : list Z) (p : nat) : nat :=
  let n := length generated in
  hamming_loop (typical_cycle_hamming_max p) 0 (take p (drop (n - 2 * p) generated))
    (take p (drop (n - p) generated)).

(** The loop over periods, [count] of them from [p] on. *)
Fixpoint period_loop (generated : list Z) (p count : nat) : option TypicalCycle :=
  match count with
  | O => None
  | S count =>
      if (suffix_square_hamming generated p <=? typical_cycle_hamming_max p)%nat
      then Some (MkCycle p (nth (length generated - p) generated 0))
      else period_loop generated (S p) count
  end.

Definition least_square_period (generated : list Z) (p_min p_max : nat) : option TypicalCycle :=
  let n := length generated in
  if (p_min =? 0)%nat || (p_max <? p_min)%nat || (n <? 2 * p_min)%nat then None
  else
    let p_hi := Nat.min p_max (n / 2) in
    period_loop generated p_min (S p_hi - p_min).

Definition typical_exclude_token (generated : list Z) : Z :=
  match least_square_period generated kTypicalCyclePeriodMin kTypicalCyclePeriodMax with
  | Some hit => continuation hit
  | None => -1
  end.

(** [temperature_positive] is [temperature > 0.0f]. *)
Definition typical_exclude_for_sample (in_reasoning p_less temperature_positive : bool) (generated : list Z) : Z :=
  if negb in_reasoning || negb p_less || negb temperature_positive then -1
  else typical_exclude_token generated.

(** ** reasoning_recovery.h *)
(** [stop_token_ids] are the caller's [StopPolicy::token_ids]. *)
Definition generation_recovery_allowed_at_finish (reason : FinishReason) (generated : list Z)
    (stop_token_ids : list Z) : bool :=
  match reason with
  | OutputLimit | ContextCapacity => true
  | StopToken =>
      match last generated with
      | None => false
      | Some token => negb (existsb (Z.eqb token) stop_token_ids)
      end
  | FinishNone | StopString | Cancelled => false
  end.

Definition window : nat := 256.
Definition minimum_repeated_tokens : nat := 16 * 256.
Definition base_ : Z := 0x100000001b3.
Definition power_ : Z := Nat.iter (window - 1) (fun result => wrap64 (result * base_)) 1.

Definition atom (token : Z) : Z := wrap32 token + 1.

Record Occurrence : Type := MkOccurrence { first_begin : nat; last_end : nat; copies : nat }.

(** The multimap as the list of its entries; at most one entry matches a window, so
    the order of entries with equal hashes is immaterial. *)
Record RepeatedReasoningSpan : Type := MkSpanState {
  processed_ : nat;
  repeated_tokens_ : nat;
  covered_end_ : nat;
  has_three_ : bool;
  hash_ : Z;
  occurrences_ : list (Z * Occurrence);
}.

Definition fresh_span : RepeatedReasoningSpan := MkSpanState 0 0 0 false 0 [].

(** The window of [generated] that starts at [begin]. *)
Definition passage (generated : list Z) (begin : nat) : list Z := take window (drop begin generated).

(** The rolling hash after token [i]. *)
Definition roll (generated : list Z) (i : nat) (hash : Z) : Z :=
  let hash := if (window <=? i)%nat
              then wrap64 (hash - atom (nth (i - window) generated 0) * power_) else hash in
  wrap64 (hash * base_ + atom (nth i generated 0)).

(** The candidates of [equal_range(hash)], up to the one whose tokens are equal:
    the entries before it, it, the entries after it. *)
Fixpoint find_occurrence (generated : list Z) (hash : Z) (begin : nat) (l : list (Z * Occurrence))
    : option (list (Z * Occurrence) * Occurrence * list (Z * Occurrence)) :=
  match l with
  | [] => None
  | (key, o) :: l =>
      if (key =? hash) && bool_decide (passage generated begin = passage generated (first_begin o))
      then Some ([], o, l)
      else match find_occurrence generated hash begin l with
           | Some (before, found, after) => Some ((key, o) :: before, found, after)
           | None => None
           end
  end.

(** One iteration of the [while] of [observe]; [true] is its [return true]. *)
Definition observe_token (generated : list Z) (s : RepeatedReasoningSpan) : bool * RepeatedReasoningSpan :=
  let i := processed_ s in
  let hash := roll generated i (hash_ s) in
  let processed := S i in
  if (processed <? window)%nat
  then (false, MkSpanState processed (repeated_tokens_ s) (covered_end_ s) (has_three_ s) hash (occurrences_ s))
  else
    let begin := (processed - window)%nat in
    match find_occurrence generated hash begin (occurrences_ s) with
    | None =>
        (false, MkSpanState processed (repeated_tokens_ s) (covered_end_ s) (has_three_ s) hash
                  (occurrences_ s ++ [(hash, MkOccurrence begin processed 1)]))
    | Some (before, o, after) =>
        let repeat := (first_begin o + window <=? begin)%nat in
        let repeated := if repeat
                        then (repeated_tokens_ s + (processed - Nat.max begin (covered_end_ s)))%nat
                        else repeated_tokens_ s in
        let covered := if repeat then processed else covered_end_ s in
        let apart := (window <=? processed - last_end o)%nat in
        let o' := if apart then MkOccurrence (first_begin o) processed (S (copies o)) else o in
        let three := if apart then has_three_ s || (3 <=? copies o')%nat else has_three_ s in
        (three && (minimum_repeated_tokens <=? repeated)%nat,
         MkSpanState processed repeated covered three hash (before ++ (hash, o') :: after))
    end.

(** The loop, for the [count] tokens from [processed_] on. *)
Fixpoint observe_loop (generated : list Z) (count : nat) (s : RepeatedReasoningSpan) : bool * RepeatedReasoningSpan :=
  match count with
  | O => (false, s)
  | S count =>
      match observe_token generated s with
      | (true, s) => (true, s)
      | (false, s) => observe_loop generated count s
      end
  end.

Definition observe (generated : list Z) (s : RepeatedReasoningSpan) : bool * RepeatedReasoningSpan :=
  let s := if (length generated <? processed_ s)%nat then fresh_span else s in
  observe_loop generated (length generated - processed_ s) s.
