(* ===== verification/GuardTheorems.v ===== *)
(** * Generation guards: least near-square period, exact repetition detector *)

From stdpp Require Import prelude list list_numbers.
From Stdlib Require Import ZArith Lia.
From S2P Require Import Prelude.
From S2P Require Import GenerationGuards.
#[local] Open Scope Z_scope.

(** ** typical_cycle.h *)

(** The number of positions where two lists differ. *)
Fixpoint hamming (a b : list Z) : nat :=
  match a, b with
  | x :: a, y :: b => ((if decide (x = y) then 0 else 1) + hamming a b)%nat
  | _, _ => O
  end.

Lemma hamming_loop_spec max a : forall b mism, (mism <= max)%nat ->
  (hamming_loop max mism a b <= max)%nat <-> (mism + hamming a b <= max)%nat.
Proof.
  induction a as [|x a IH]; intros b mism Hm; [cbn; lia|]. destruct b as [|y b]; [cbn; lia|].
  cbn [hamming_loop hamming]. destruct (decide (x = y)) as [->|Hne].
  - rewrite Z.eqb_refl. cbn [negb]. rewrite IH by done. lia.
  - rewrite (proj2 (Z.eqb_neq _ _) Hne). cbn [negb]. destruct (max <? S mism)%nat eqn:E.
    + apply Nat.ltb_lt in E. lia.
    + apply Nat.ltb_ge in E. rewrite IH by done. lia.
Qed.

(** The last [2p] tokens are a square but for [2p / 512] substitutions. *)
Definition near_square (g : list Z) (p : nat) : Prop :=
  (hamming (take p (drop (length g - 2 * p) g)) (take p (drop (length g - p) g)) <= 2 * p / kTypicalCycleHammingScale)%nat.

#[export] Instance near_square_dec g p : Decision (near_square g p).
Proof. unfold near_square. apply _. Defined.

Lemma suffix_square_spec g p :
  (suffix_square_hamming g p <=? typical_cycle_hamming_max p)%nat = true <-> near_square g p.
Proof. rewrite Nat.leb_le. unfold suffix_square_hamming, near_square. rewrite hamming_loop_spec; [done|lia]. Qed.

Lemma period_loop_spec g count : forall p,
  match period_loop g p count with
  | Some hit => (p <= period hit < p + count)%nat /\ near_square g (period hit) /\
      (forall q, (p <= q < period hit)%nat -> ~ near_square g q) /\
      continuation hit = nth (length g - period hit) g 0
  | None => forall q, (p <= q < p + count)%nat -> ~ near_square g q
  end.
Proof.
  induction count as [|count IH]; intros p; cbn [period_loop]; [intros; lia|].
  destruct (_ <=? _)%nat eqn:E.
  - apply suffix_square_spec in E. cbn. split_and!; [lia|lia|done|intros; lia|done].
  - assert (~ near_square g p) as Hp by (rewrite <- suffix_square_spec; congruence).
    specialize (IH (S p)). destruct (period_loop g (S p) count) as [hit|].
    + destruct IH as (H1 & H2 & H3 & H4). split_and!; [lia|lia|done| |done].
      intros q Hq. destruct (decide (q = p)) as [->|]; [done|]. apply H3. lia.
    + intros q Hq. destruct (decide (q = p)) as [->|]; [done|]. apply IH. lia.
Qed.

Lemma hamming_0 a : forall b, length a = length b -> hamming a b = O -> a = b.
Proof.
  induction a as [|x a IH]; intros [|y b] Hl H; try done. cbn [hamming] in H.
  destruct (decide (x = y)) as [->|]; [|lia]. f_equal. apply IH; [by injection Hl|lia].
Qed.

(** An exact square: token [i] of the second half is the token [p] before it. *)
Definition periodic_tail (g : list Z) (p : nat) : Prop :=
  forall i, (length g - p <= i < length g)%nat -> g !! i = g !! (i - p)%nat.

Lemma near_square_exact g p :
  (0 < p < 256)%nat -> (2 * p <= length g)%nat -> near_square g p -> periodic_tail g p.
Proof.
  intros Hp Hn H i Hi. unfold near_square, kTypicalCycleHammingScale in H. rewrite Nat.div_small in H by lia.
  apply Nat.le_0_r, hamming_0 in H; [|rewrite !length_take, !length_drop; lia].
  assert (take p (drop (length g - 2 * p) g) !! (i - (length g - p))%nat =
          take p (drop (length g - p) g) !! (i - (length g - p))%nat) as E by (by rewrite H).
  rewrite !lookup_take_lt, !lookup_drop in E by lia.
  replace (length g - p + (i - (length g - p)))%nat with i in E by lia.
  by replace (length g - 2 * p + (i - (length g - p)))%nat with (i - p)%nat in E by lia.
Qed.

(** The cycle exit finds the least period: [least_square_period] answers the
    least [p] in range whose last [2p] tokens are a square up to [2p/512]
    substitutions, with the token [p] back as its continuation, and nothing exactly
    when there is no such period.  Below 256 the square is exact, so appending the
    continuation it excludes would make the tail repeat once more. *)
Theorem cycle_exit_least_period g p_min p_max :
  (0 < p_min <= p_max)%nat ->
  match least_square_period g p_min p_max with
  | Some hit =>
      (p_min <= period hit <= p_max)%nat /\ (2 * period hit <= length g)%nat /\ near_square g (period hit) /\
      (forall q, (p_min <= q < period hit)%nat -> ~ near_square g q) /\
      g !! (length g - period hit)%nat = Some (continuation hit) /\
      ((period hit < 256)%nat -> periodic_tail (g ++ [continuation hit]) (period hit))
  | None => forall q, (p_min <= q <= p_max)%nat -> (2 * q <= length g)%nat -> ~ near_square g q
  end.
Proof.
  intros Hp. unfold least_square_period. destruct (_ || _ || _) eqn:E.
  { intros q Hq Hn. apply orb_true_iff in E as [[E|E]%orb_true_iff|E]; [apply Nat.eqb_eq in E; lia|..];
      apply Nat.ltb_lt in E; lia. }
  apply orb_false_iff in E as [_ E]. apply Nat.ltb_ge in E.
  pose proof (period_loop_spec g (S (Nat.min p_max (length g / 2)) - p_min) p_min) as H.
  pose proof (Nat.Div0.mul_div_le (length g) 2) as Hd. pose proof (Nat.div_mod_eq (length g) 2) as Hdm.
  pose proof (Nat.mod_upper_bound (length g) 2 ltac:(lia)) as Hmod.
  destruct (period_loop _ _ _) as [hit|].
  - destruct H as (H1 & H2 & H3 & H4). assert (2 * period hit <= length g)%nat as Hn by lia.
    destruct (lookup_lt_is_Some_2 g (length g - period hit)) as [t Ht]; [lia|].
    assert (continuation hit = t) as -> by (rewrite H4; by apply nth_lookup_Some).
    split_and!; [lia|lia|done|done|done|done|]. intros Hs i Hi. rewrite length_app in Hi. cbn in Hi.
    pose proof (near_square_exact g (period hit) ltac:(lia) Hn H2) as Hper.
    destruct (decide (i = length g)) as [->|].
    + rewrite lookup_app_r, Nat.sub_diag, lookup_app_l by lia. by rewrite Ht.
    + rewrite !lookup_app_l by lia. apply Hper. lia.
  - intros q Hq Hn. apply H. lia.
Qed.

Lemma cycle_exit_least_period_witness :
  exists hit, least_square_period [9; 1; 2; 3; 1; 2; 3] 2 10 = Some hit /\ (2 * period hit <= 7)%nat /\
    continuation hit = 1.
Proof.
  pose proof (cycle_exit_least_period [9; 1; 2; 3; 1; 2; 3] 2 10 ltac:(lia)) as H.
  destruct (least_square_period [9; 1; 2; 3; 1; 2; 3] 2 10) as [hit|] eqn:E; [|vm_compute in E; discriminate E].
  exists hit. split; [reflexivity|]. split; [exact (proj1 (proj2 H))|]. vm_compute in E. injection E as <-. reflexivity.
Defined.

(** ** reasoning_recovery.h: the rolling hash *)
Lemma window_pos : (0 < window)%nat.
Proof. unfold window. lia. Qed.

(** The hash of a passage, read from left to right. *)
Definition poly (l : list Z) : Z := foldl (fun h t => h * base_ + atom t) 0 l.

Lemma poly_snoc l t : poly (l ++ [t]) = poly l * base_ + atom t.
Proof. unfold poly. by rewrite foldl_app. Qed.

Lemma poly_cons t l : poly (t :: l) = atom t * base_ ^ Z.of_nat (length l) + poly l.
Proof.
  induction l as [|u l IH] using rev_ind; [cbn; lia|].
  change (t :: l ++ [u]) with ((t :: l) ++ [u]). rewrite !poly_snoc, IH, length_app. cbn [length].
  replace (Z.of_nat (length l + 1)) with (Z.succ (Z.of_nat (length l))) by lia.
  rewrite Z.pow_succ_r by lia. ring.
Qed.

Lemma power_spec k : Nat.iter k (fun result => wrap64 (result * base_)) 1 = wrap64 (base_ ^ Z.of_nat k).
Proof.
  induction k as [|k IH]; [done|]. cbn [Nat.iter nat_rect]. unfold Nat.iter in IH. rewrite IH. unfold wrap64.
  rewrite Zmult_mod_idemp_l. f_equal. rewrite Nat2Z.inj_succ, Z.pow_succ_r by lia. ring.
Qed.

Lemma wrap64_rep x : exists k, wrap64 x = x + k * 2 ^ 64.
Proof. exists (- (x / 2 ^ 64)). unfold wrap64. rewrite Z.mod_eq by done. ring. Qed.

Lemma wrap64_shift a b k : a = b + k * 2 ^ 64 -> wrap64 a = wrap64 b.
Proof. intros ->. apply Z_mod_plus_full. Qed.

(** The last [window] tokens of the first [e], or all of them. *)
Definition recent (g : list Z) (e : nat) : list Z := drop (e - window) (take e g).

Lemma recent_passage g e : (window <= e <= length g)%nat -> recent g e = passage g (e - window).
Proof.
  intros He. unfold recent, passage. rewrite skipn_firstn_comm. f_equal. lia.
Qed.

Lemma roll_poly g i :
  (i < length g)%nat -> roll g i (wrap64 (poly (recent g i))) = wrap64 (poly (recent g (S i))).
Proof.
  intros Hi. unfold roll. destruct (lookup_lt_is_Some_2 g i Hi) as [t Ht].
  rewrite (nth_lookup_Some _ _ _ _ Ht). destruct (window <=? i)%nat eqn:E.
  - apply Nat.leb_le in E. pose proof window_pos as Hw.
    assert (recent g i = nth (i - window) g 0 :: drop (S i - window) (take i g)) as E1.
    { unfold recent. destruct (lookup_lt_is_Some_2 g (i - window)) as [x Hx]; [lia|].
      rewrite (nth_lookup_Some _ _ _ _ Hx). rewrite (drop_S _ x) by (by rewrite lookup_take_lt by lia).
      do 2 f_equal. lia. }
    assert (recent g (S i) = drop (S i - window) (take i g) ++ [t]) as E2.
    { unfold recent. rewrite (take_S_r _ _ _ Ht). rewrite drop_app_le; [done|]. rewrite length_take. lia. }
    rewrite E1, E2, poly_snoc, poly_cons. unfold power_. rewrite power_spec.
    replace (length (drop (S i - window) (take i g))) with (window - 1)%nat by (rewrite length_drop, length_take; lia).
    set (x := atom (nth (i - window) g 0)). set (b := base_ ^ Z.of_nat (window - 1)). set (p := poly _).
    destruct (wrap64_rep (x * b + p)) as [k1 ->]. destruct (wrap64_rep b) as [k2 ->].
    destruct (wrap64_rep (x * b + p + k1 * 2 ^ 64 - x * (b + k2 * 2 ^ 64))) as [k3 ->].
    apply (wrap64_shift _ _ ((k1 - x * k2 + k3) * base_)). ring.
  - apply Nat.leb_gt in E. unfold recent. replace (i - window)%nat with O by lia. replace (S i - window)%nat with O by lia.
    rewrite !drop_0, (take_S_r _ _ _ Ht), poly_snoc. unfold wrap64.
    by rewrite <- Zplus_mod_idemp_l, Zmult_mod_idemp_l, Zplus_mod_idemp_l.
Qed.

(** ** The reference: repeated passages of a sequence *)

(** The passages at [a] and [b] are the same. *)
Abbreviation same g a b := (passage g a = passage g b).

(** The passage at [b] repeats an earlier one that does not overlap it. *)
Definition is_repeat (g : list Z) (b : nat) : bool :=
  existsb (fun a => bool_decide (same g a b)) (seq 0 (S b - window)).

(** Position [x] lies in a repeating passage within the first [e] tokens. *)
Definition covered (g : list Z) (e x : nat) : bool :=
  existsb (fun b => (b <=? x)%nat && (x <? b + window)%nat && is_repeat g b) (seq 0 (S e - window)).

Fixpoint count (f : nat -> bool) (n : nat) : nat :=
  match n with
  | O => O
  | S n => (count f n + (if f n then 1 else 0))%nat
  end.

Definition repeated_positions (g : list Z) (e : nat) : nat := count (covered g e) e.

(** Some passage occurs three times without overlap within the first [e] tokens. *)
Definition thrice (g : list Z) (e : nat) : Prop :=
  exists a b c, (a + window <= b)%nat /\ (b + window <= c)%nat /\ (c + window <= e)%nat /\ same g a b /\ same g b c.

Definition alert (g : list Z) (e : nat) : Prop :=
  thrice g e /\ (minimum_repeated_tokens <= repeated_positions g e)%nat.

Lemma is_repeat_spec g b :
  is_repeat g b = true <-> exists a, (a + window <= b)%nat /\ same g a b.
Proof.
  unfold is_repeat. rewrite existsb_exists. pose proof window_pos. split.
  - intros (a & Ha & E). apply in_seq in Ha. apply bool_decide_eq_true in E. exists a. split; [lia|done].
  - intros (a & Ha & E). exists a. rewrite in_seq, bool_decide_eq_true. split; [lia|done].
Qed.

Lemma covered_spec g e x :
  covered g e x = true <-> exists b, (b <= x < b + window)%nat /\ (b + window <= e)%nat /\ is_repeat g b = true.
Proof.
  unfold covered. rewrite existsb_exists. pose proof window_pos. split.
  - intros (b & Hb & E). apply in_seq in Hb. apply andb_true_iff in E as [[E1 E2]%andb_true_iff E3].
    apply Nat.leb_le in E1. apply Nat.ltb_lt in E2. exists b. split_and!; [lia|lia|lia|done].
  - intros (b & Hx & Hb & E). exists b. rewrite in_seq, E, andb_true_r, andb_true_iff, Nat.leb_le, Nat.ltb_lt. lia.
Qed.

Lemma count_ext f f' n : (forall x, (x < n)%nat -> f x = f' x) -> count f n = count f' n.
Proof. intros H. induction n as [|n IH]; [done|]. cbn. rewrite IH, H by (intros; try apply H; lia). done. Qed.

Lemma count_all f lo n : (lo <= n)%nat -> (forall x, (lo <= x < n)%nat -> f x = true) -> count f n = (count f lo + (n - lo))%nat.
Proof.
  intros Hn H. induction Hn as [|n Hn IH]; [lia|]. cbn. rewrite IH by (intros; apply H; lia). rewrite H by lia. lia.
Qed.

Lemma count_none f lo n : (lo <= n)%nat -> (forall x, (lo <= x < n)%nat -> f x = false) -> count f n = count f lo.
Proof.
  intros Hn H. induction Hn as [|n Hn IH]; [done|]. cbn. rewrite IH by (intros; apply H; lia). rewrite H by lia. lia.
Qed.

(** [c] is the end of the last repeating passage within the first [e] tokens. *)
Definition last_repeat (g : list Z) (e c : nat) : Prop :=
  (c <= e)%nat /\ (c = O \/ exists b, c = (b + window)%nat /\ is_repeat g b = true) /\
  forall b, (b + window <= e)%nat -> is_repeat g b = true -> (b + window <= c)%nat.

Lemma covered_below g e c x :
  last_repeat g e c -> (S e - window <= x)%nat -> covered g e x = (x <? c)%nat.
Proof.
  intros (Hc & Hlast & Hall) Hx. pose proof window_pos. apply eq_true_iff_eq. rewrite covered_spec, Nat.ltb_lt. split.
  - intros (b & Hb & He & Hr). specialize (Hall b He Hr). lia.
  - intros Hlt. destruct Hlast as [->|(b & -> & Hr)]; [lia|]. exists b. split_and!; [lia|lia|lia|done].
Qed.

(** One more token, when a passage ends there. *)
Lemma repeated_step g e c :
  (window <= S e)%nat -> last_repeat g e c ->
  let b := (S e - window)%nat in
  repeated_positions g (S e) =
    (if is_repeat g b then repeated_positions g e + (S e - Nat.max b c) else repeated_positions g e)%nat /\
  last_repeat g (S e) (if is_repeat g b then S e else c).
Proof.
  intros Hw Hl b. pose proof window_pos as Hpos. pose proof Hl as (Hc & Hlast & Hall).
  assert (forall x, covered g (S e) x = covered g e x || ((b <=? x)%nat && (x <? S e)%nat && is_repeat g b)) as Hcov.
  { intros x. apply eq_true_iff_eq. rewrite orb_true_iff, !andb_true_iff, !covered_spec, Nat.leb_le, Nat.ltb_lt. split.
    - intros (k & Hk & He & Hr). destruct (decide (k = b)) as [->|]; [right; split; [lia|done]|].
      left. exists k. split_and!; [lia|lia|lia|done].
    - intros [(k & Hk & He & Hr)|[Hx Hr]]; [exists k; split_and!; [lia|lia|lia|done]|].
      exists b. split_and!; [lia|lia|lia|done]. }
  assert (forall x, (b <= x)%nat -> covered g e x = (x <? c)%nat) as Hbelow
    by (intros x Hx; by apply covered_below).
  destruct (is_repeat g b) eqn:Er; split.
  - unfold repeated_positions. set (lo := Nat.max b c).
    assert (forall n, (lo <= n)%nat -> count (covered g e) n = count (covered g e) lo) as Hnone.
    { intros n Hn. apply count_none; [done|]. intros x Hx. rewrite Hbelow by lia. apply Nat.ltb_ge. lia. }
    rewrite (count_all (covered g (S e)) lo) by
      (try lia; intros x Hx; rewrite Hcov, (proj2 (Nat.leb_le b x)), (proj2 (Nat.ltb_lt x (S e))) by lia;
       by rewrite orb_true_r).
    rewrite (Hnone e) by lia. f_equal. apply count_ext. intros x Hx. rewrite Hcov.
    destruct (decide (b <= x)%nat).
    + rewrite Hbelow by done. assert (x < c)%nat by lia. by rewrite (proj2 (Nat.ltb_lt x c)).
    + rewrite (proj2 (Nat.leb_gt b x)) by lia. by rewrite orb_false_r.
  - split_and!; [lia| |intros; lia]. right. exists b. split; [lia|done].
  - unfold repeated_positions. cbn [count]. rewrite (count_ext (covered g (S e)) (covered g e))
      by (intros x _; rewrite Hcov, andb_false_r; apply orb_false_r).
    rewrite Hcov, andb_false_r, orb_false_r, Hbelow by lia. rewrite (proj2 (Nat.ltb_ge e c)) by lia. lia.
  - split_and!; [lia|done|]. intros k Hk Hr. destruct (decide (k = b)) as [->|]; [congruence|]. apply Hall; [lia|done].
Qed.

(** Before the first passage nothing repeats. *)
Lemma repeated_short g e : (e < window)%nat -> repeated_positions g e = O.
Proof.
  intros He. unfold repeated_positions. rewrite (count_none _ O); [done|lia|].
  intros x _. apply not_true_iff_false. rewrite covered_spec. intros (b & _ & Hb & _). lia.
Qed.

(** ** What the detector knows after [e] tokens *)

(** The copies of a passage, counted greedily from its first occurrence. *)
Definition copies_ok (g : list Z) (e : nat) (o : Occurrence) : Prop :=
  let f := first_begin o in
  let inside b := same g f b /\ (b + window <= e)%nat in
  (copies o = 1%nat /\ last_end o = (f + window)%nat /\ forall b, inside b -> (b < last_end o)%nat) \/
  (copies o = 2%nat /\ (exists m, last_end o = (m + window)%nat /\ inside m /\ (f + window <= m)%nat /\
     forall b, inside b -> (f + window <= b)%nat -> (m <= b)%nat) /\ forall b, inside b -> (b < last_end o)%nat) \/
  ((3 <= copies o)%nat /\ thrice g e).

Record occurrence_ok (g : list Z) (e : nat) (key : Z) (o : Occurrence) : Prop := MkOccOk {
  oo_inside : (first_begin o + window <= e)%nat;
  oo_key : key = wrap64 (poly (passage g (first_begin o)));
  oo_first : forall b, same g (first_begin o) b -> (b + window <= e)%nat -> (first_begin o <= b)%nat;
  oo_last : (last_end o <= e)%nat;
  oo_copies : copies_ok g e o;
}.

Definition entry_passage (g : list Z) (entry : Z * Occurrence) : list Z := passage g (first_begin (snd entry)).

Record span_ok (g : list Z) (s : RepeatedReasoningSpan) : Prop := MkSpanOk {
  so_length : (processed_ s <= length g)%nat;
  so_hash : hash_ s = wrap64 (poly (recent g (processed_ s)));
  so_entries : forall key o, (key, o) ∈ occurrences_ s -> occurrence_ok g (processed_ s) key o;
  so_distinct : NoDup (entry_passage g <$> occurrences_ s);
  so_complete : forall b, (b + window <= processed_ s)%nat ->
    exists key o, (key, o) ∈ occurrences_ s /\ same g (first_begin o) b;
  so_three : has_three_ s = true <-> thrice g (processed_ s);
  so_repeated : repeated_tokens_ s = repeated_positions g (processed_ s);
  so_covered : last_repeat g (processed_ s) (covered_end_ s);
}.

Lemma fresh_ok g : span_ok g fresh_span.
Proof.
  pose proof window_pos. split; cbn [processed_ hash_ occurrences_ has_three_ repeated_tokens_ covered_end_ fresh_span].
  - lia.
  - done.
  - by intros key o ?%elem_of_nil.
  - constructor.
  - intros b Hb. lia.
  - split; [done|]. intros (a & b & c & ? & ? & ? & _). lia.
  - done.
  - split_and!; [lia|by left|intros; lia].
Qed.

Lemma find_occurrence_spec g hash b l :
  match find_occurrence g hash b l with
  | Some (before, o, after) => exists key, l = before ++ (key, o) :: after /\ key = hash /\ same g (first_begin o) b
  | None => forall key o, (key, o) ∈ l -> key = hash -> ~ same g (first_begin o) b
  end.
Proof.
  induction l as [|[key o] l IH]; cbn [find_occurrence]; [by intros key o ?%elem_of_nil|].
  destruct ((key =? hash) && _) eqn:E.
  - apply andb_true_iff in E as [E1%Z.eqb_eq E2%bool_decide_eq_true]. exists key. done.
  - destruct (find_occurrence g hash b l) as [[[before x] after]|].
    + destruct IH as (k & -> & Hk & Hs). exists k. done.
    + intros k x [E'|Hin]%elem_of_cons Hk Hs; [|by eapply IH]. injection E' as -> ->.
      rewrite Hk, Z.eqb_refl, bool_decide_eq_true_2 in E by done. done.
Qed.

(** A passage that ends one token later is another one, or the new one. *)
Lemma inside_step e b : (b + window <= S e)%nat -> (b + window <= e)%nat \/ b = (S e - window)%nat.
Proof. lia. Qed.

Lemma thrice_mono g e : thrice g e -> thrice g (S e).
Proof. intros (x & y & z & ? & ? & ? & ? & ?). exists x, y, z. split_and!; try done; lia. Qed.

Section step.
Context (g : list Z) (e : nat) (Hw : (window <= S e)%nat).
Let b := (S e - window)%nat.

(** Entries of other passages are not affected by the new one. *)
Lemma occurrence_other key o :
  occurrence_ok g e key o -> ~ same g (first_begin o) b -> occurrence_ok g (S e) key o.
Proof.
  intros [H1 H2 H3 H4 H5] Hne. split; [lia|done| |lia|].
  - intros k Hs Hk. apply inside_step in Hk as [Hk| ->]; [by apply H3|done].
  - assert (forall k, same g (first_begin o) k /\ (k + window <= S e)%nat ->
      same g (first_begin o) k /\ (k + window <= e)%nat) as Hin.
    { intros k [Hs Hk]. apply inside_step in Hk as [?| ->]; [done|by destruct Hne]. }
    destruct H5 as [(C1 & C2 & C3)|[(C1 & (m & M1 & [M2 M2'] & M3 & M4) & C3)|(C1 & C2)]].
    + left. split_and!; [done|done|]. intros k Hk. by apply C3, Hin.
    + right; left. split_and!; [done| |intros k Hk; by apply C3, Hin]. exists m.
      split_and!; [done|done|lia|done|]. intros k Hk. by apply M4, Hin.
    + right; right. split; [done|by apply thrice_mono].
Qed.

(** Three copies within one more token: known before, or the new passage is the last. *)
Lemma thrice_new o :
  same g (first_begin o) b -> thrice g (S e) ->
  thrice g e \/ exists x y, (x + window <= y)%nat /\ (y + window <= b)%nat /\
    same g (first_begin o) x /\ same g (first_begin o) y.
Proof.
  intros Hs (x & y & z & Hxy & Hyz & Hz & Sxy & Syz). apply inside_step in Hz as [Hz| ->].
  - left. exists x, y, z. done.
  - right. fold b in Hyz, Syz. exists x, y. split_and!; [done|done|congruence|congruence].
Qed.

(** The passage was known: when the new copy is apart from the last one counted, it
    counts; three copies are known exactly when they exist. *)
Lemma occurrence_again key o :
  occurrence_ok g e key o -> same g (first_begin o) b ->
  let apart := (window <=? S e - last_end o)%nat in
  let o' := if apart then MkOccurrence (first_begin o) (S e) (S (copies o)) else o in
  occurrence_ok g (S e) key o' /\
  (thrice g (S e) <-> thrice g e \/ apart = true /\ (3 <= copies o')%nat).
Proof.
  intros [H1 H2 H3 H4 H5] Hs. cbv zeta. pose proof window_pos as Hpos.
  pose proof (thrice_mono g e) as Hmono. pose proof (thrice_new o Hs) as Hnew.
  assert (forall k, same g (first_begin o) k /\ (k + window <= S e)%nat -> k <> b ->
    same g (first_begin o) k /\ (k + window <= e)%nat) as Hin.
  { intros k [Hk Hle] Hne. apply inside_step in Hle as [?| ->]; [done|by destruct Hne]. }
  destruct (window <=? S e - last_end o)%nat eqn:Ea.
  - apply Nat.leb_le in Ea. split.
    + split; cbn [first_begin last_end copies]; [lia|done| |lia|].
      { intros k Hk Hle. apply inside_step in Hle as [?| ->]; [by apply H3|lia]. }
      destruct H5 as [(C1 & C2 & C3)|[(C1 & (m & M1 & [M2 M2'] & M3 & M4) & C3)|(C1 & C2)]];
        unfold copies_ok; cbn [first_begin last_end copies].
      * right; left. split_and!; [lia| |intros k [Hk Hle]; lia]. exists b.
        split_and!; [lia|done|lia|lia|]. intros k Hk Hf. destruct (decide (k = b)) as [->|Hne]; [lia|].
        specialize (C3 k (Hin k Hk Hne)). lia.
      * right; right. split; [lia|]. exists (first_begin o), m, b. split_and!; [done|lia|lia|done|congruence].
      * right; right. split; [lia|by apply Hmono].
    + split.
      * intros Ht. destruct (Hnew Ht) as [?|(x & y & Hxy & Hyb & Sx & Sy)]; [by left|right]. split; [done|].
        cbn [copies]. destruct H5 as [(C1 & C2 & C3)|[(C1 & _)|(C1 & _)]]; [|lia|lia].
        specialize (C3 y ltac:(split; [done|lia])). specialize (H3 x Sx ltac:(lia)). lia.
      * intros [?|[_ Hc]]; [by apply Hmono|]. cbn [copies] in Hc.
        destruct H5 as [(C1 & _)|[(C1 & (m & M1 & [M2 M2'] & M3 & M4) & C3)|(C1 & C2)]]; [lia| |by apply Hmono].
        exists (first_begin o), m, b. split_and!; [done|lia|lia|done|congruence].
  - apply Nat.leb_gt in Ea. split.
    + split; [lia|done| |lia|].
      { intros k Hk Hle. apply inside_step in Hle as [?| ->]; [by apply H3|lia]. }
      destruct H5 as [(C1 & C2 & C3)|[(C1 & (m & M1 & [M2 M2'] & M3 & M4) & C3)|(C1 & C2)]].
      * left. split_and!; [done|done|]. intros k Hk. destruct (decide (k = b)) as [->|Hne]; [lia|].
        by apply C3, Hin.
      * right; left. split_and!; [done| |].
        -- exists m. split_and!; [done|done|lia|done|]. intros k Hk Hf. destruct (decide (k = b)) as [->|Hne]; [lia|].
           by apply M4; [apply Hin|].
        -- intros k Hk. destruct (decide (k = b)) as [->|Hne]; [lia|]. by apply C3, Hin.
      * right; right. split; [done|by apply Hmono].
    + split; [|by intros [?|[? _]]; [apply Hmono|]]. intros Ht.
      destruct (Hnew Ht) as [?|(x & y & Hxy & Hyb & Sx & Sy)]; [by left|].
      destruct H5 as [(C1 & C2 & C3)|[(C1 & (m & M1 & M2 & M3 & M4) & C3)|(C1 & C2)]]; [..|by left].
      * specialize (C3 y ltac:(split; [done|lia])). specialize (H3 x Sx ltac:(lia)). lia.
      * specialize (H3 x Sx ltac:(lia)). specialize (M4 y ltac:(split; [done|lia]) ltac:(lia)). lia.
Qed.
End step.

Section observe.
Context (g : list Z) (s : RepeatedReasoningSpan) (Hok : span_ok g s) (Hlt : (processed_ s < length g)%nat).
Let e := processed_ s.
Let hash := roll g e (hash_ s).
Let b := (S e - window)%nat.

Lemma rolled : hash = wrap64 (poly (recent g (S e))).
Proof. unfold hash. rewrite (so_hash _ _ Hok). by apply roll_poly. Qed.

Lemma rolled_passage : (window <= S e)%nat -> hash = wrap64 (poly (passage g b)).
Proof. intros Hw. rewrite rolled, recent_passage; [done|]. split; [done|lia]. Qed.

(** Before the first whole passage. *)
Lemma observe_short :
  (S e < window)%nat ->
  span_ok g (MkSpanState (S e) (repeated_tokens_ s) (covered_end_ s) (has_three_ s) hash (occurrences_ s)) /\
  ~ alert g (S e).
Proof.
  intros Hw. assert (forall n, (n <= S e)%nat -> ~ thrice g n) as Hno
    by (intros n Hn (x & y & z & ? & ? & ? & _); lia).
  split; [|by intros [Ht _]; apply (Hno (S e))].
  destruct Hok as [H1 H2 H3 H4 H5 H6 H7 H8].
  split; cbn [processed_ hash_ occurrences_ has_three_ repeated_tokens_ covered_end_].
  - lia.
  - apply rolled.
  - intros key o Hin. destruct (H3 key o Hin) as [Hi _ _ _ _]. fold e in Hi. lia.
  - done.
  - intros k Hk. lia.
  - rewrite H6. split; intros Ht; exfalso; [apply (Hno e)|apply (Hno (S e))]; auto with lia.
  - rewrite H7. fold e. by rewrite !repeated_short by lia.
  - destruct H8 as (Hc & Hl & Ha). fold e in Hc. split_and!; [lia|done|intros; lia].
Qed.

(** A passage seen for the first time. *)
Lemma observe_new :
  (window <= S e)%nat -> find_occurrence g hash b (occurrences_ s) = None ->
  span_ok g (MkSpanState (S e) (repeated_tokens_ s) (covered_end_ s) (has_three_ s) hash
               (occurrences_ s ++ [(hash, MkOccurrence b (S e) 1)])) /\
  (alert g (S e) <-> alert g e).
Proof.
  intros Hw Hf. pose proof (find_occurrence_spec g hash b (occurrences_ s)) as Hspec. rewrite Hf in Hspec.
  destruct Hok as [H1 H2 H3 H4 H5 H6 H7 H8]. fold e in H1, H2, H3, H5, H6, H7, H8. pose proof window_pos as Hpos.
  assert (forall key o, (key, o) ∈ occurrences_ s -> ~ same g (first_begin o) b) as Hnone.
  { intros key o Hin Hs. apply (Hspec key o Hin); [|done]. rewrite (oo_key _ _ _ _ (H3 _ _ Hin)), Hs.
    symmetry. by apply rolled_passage. }
  assert (forall k, same g k b -> (k + window <= S e)%nat -> k = b) as Huniq.
  { intros k Hs Hk. apply inside_step in Hk as [Hk|Hk]; [|done]. destruct (H5 k Hk) as (key & o & Hin & Ho).
    destruct (Hnone key o Hin). congruence. }
  assert (is_repeat g b = false) as Hrep.
  { apply not_true_iff_false. rewrite is_repeat_spec. intros (a & Ha & Hs). specialize (Huniq a Hs). lia. }
  assert (thrice g (S e) <-> thrice g e) as Hth.
  { split; [|apply thrice_mono]. intros (x & y & z & Hxy & Hyz & Hz & Sxy & Syz).
    apply inside_step in Hz as [Hz| ->]; [by exists x, y, z|]. specialize (Huniq y Syz). lia. }
  destruct (repeated_step g e (covered_end_ s) Hw H8) as [Hr Hl]. fold b in Hr, Hl. rewrite Hrep in Hr, Hl.
  split; [|unfold alert; by rewrite Hr, Hth].
  split; cbn [processed_ hash_ occurrences_ has_three_ repeated_tokens_ covered_end_]; [lia|apply rolled|..].
  - intros key o [Hin|Hin]%elem_of_app; [apply occurrence_other; [done|auto|by eapply Hnone]|].
    apply list_elem_of_singleton in Hin as [= -> ->]. split; cbn [first_begin last_end copies]; [lia| | |lia|].
    + by apply rolled_passage.
    + intros k Hs Hk. rewrite (Huniq k); [lia|done|done].
    + left. cbn [first_begin last_end copies]. split_and!; [done|lia|]. intros k [Hs Hk]. lia.
  - rewrite fmap_app. apply NoDup_app. split_and!; [done| |apply NoDup_singleton].
    intros x Hx Hx'. apply list_elem_of_singleton in Hx' as ->.
    apply list_elem_of_fmap in Hx as ([key o] & Ex & Hin). apply (Hnone key o Hin). by symmetry.
  - intros k Hk. apply inside_step in Hk as [Hk| ->].
    + destruct (H5 k Hk) as (key & o & Hin & Hs). exists key, o. split; [|done]. apply elem_of_app. by left.
    + exists hash, (MkOccurrence b (S e) 1). split; [|done]. apply elem_of_app. right. by left.
  - by rewrite H6, Hth.
  - by rewrite H7, Hr.
  - done.
Qed.

(** A known passage. *)
Lemma observe_again before o after :
  (window <= S e)%nat -> find_occurrence g hash b (occurrences_ s) = Some (before, o, after) ->
  let repeat := (first_begin o + window <=? b)%nat in
  let repeated := (if repeat then repeated_tokens_ s + (S e - Nat.max b (covered_end_ s)) else repeated_tokens_ s)%nat in
  let apart := (window <=? S e - last_end o)%nat in
  let o' := if apart then MkOccurrence (first_begin o) (S e) (S (copies o)) else o in
  let three := if apart then has_three_ s || (3 <=? copies o')%nat else has_three_ s in
  span_ok g (MkSpanState (S e) repeated (if repeat then S e else covered_end_ s) three hash
               (before ++ (hash, o') :: after)) /\
  (three && (minimum_repeated_tokens <=? repeated)%nat = true <-> alert g (S e)).
Proof.
  intros Hw Hf. pose proof (find_occurrence_spec g hash b (occurrences_ s)) as Hspec. rewrite Hf in Hspec.
  destruct Hspec as (key & El & Ek & Hs). subst key.
  destruct Hok as [H1 H2 H3 H4 H5 H6 H7 H8]. fold e in H1, H2, H3, H5, H6, H7, H8. cbv zeta.
  pose proof window_pos as Hpos.
  assert ((hash, o) ∈ occurrences_ s) as Hin by (rewrite El; apply elem_of_app; right; by left).
  pose proof (H3 _ _ Hin) as Ho.
  assert ((first_begin o + window <=? b)%nat = is_repeat g b) as ->.
  { apply eq_true_iff_eq. rewrite Nat.leb_le, is_repeat_spec. split; [by exists (first_begin o)|].
    intros (a & Ha & Hsa). pose proof (oo_first _ _ _ _ Ho a ltac:(congruence) ltac:(lia)). lia. }
  destruct (repeated_step g e (covered_end_ s) Hw H8) as [Hr Hl]. fold b in Hr, Hl. rewrite <- H7 in Hr. rewrite <- Hr.
  destruct (occurrence_again g e Hw hash o Ho Hs) as [Ho' Hth]. fold b in Hth.
  set (o' := if (window <=? S e - last_end o)%nat then _ else o) in *.
  set (three := if (window <=? S e - last_end o)%nat then _ else has_three_ s).
  assert (three = true <-> thrice g (S e)) as Hthree.
  { rewrite Hth, <- H6. unfold three. destruct (window <=? S e - last_end o)%nat.
    - rewrite orb_true_iff, Nat.leb_le. intuition.
    - intuition congruence. }
  assert (first_begin o' = first_begin o) as Ef by (unfold o'; by destruct (window <=? S e - last_end o)%nat).
  split.
  - split; cbn [processed_ hash_ occurrences_ has_three_ repeated_tokens_ covered_end_]; [lia|apply rolled|..|done|done|done].
    + intros key x Hx. rewrite elem_of_app, elem_of_cons in Hx.
      assert ((key, x) = (hash, o') \/ (key, x) ∈ before \/ (key, x) ∈ after) as [[= -> ->]|Hx']
        by tauto; [exact Ho'|]. apply occurrence_other; [done|apply H3; rewrite El, elem_of_app, elem_of_cons; tauto|].
      intros Hsx. fold b in Hsx. rewrite El, fmap_app, fmap_cons, <- Permutation_middle in H4. apply NoDup_cons in H4 as [Hnot _].
      apply Hnot. rewrite <- fmap_app. apply list_elem_of_fmap. exists (key, x). split; [|by apply elem_of_app].
      unfold entry_passage. cbn [snd]. congruence.
    + rewrite El in H4. rewrite fmap_app, fmap_cons in H4 |- *. unfold entry_passage at 2. cbn [snd]. by rewrite Ef.
    + intros k Hk. assert (exists key x, (key, x) ∈ occurrences_ s /\ same g (first_begin x) k) as (key & x & Hx & Hsx).
      { apply inside_step in Hk as [Hk| ->]; [by apply H5|]. by exists hash, o. }
      rewrite El, elem_of_app, elem_of_cons in Hx. destruct Hx as [Hx|[[= -> ->]|Hx]].
      * exists key, x. split; [|done]. apply elem_of_app. by left.
      * exists hash, o'. split; [apply elem_of_app; right; by left|]. by rewrite Ef.
      * exists key, x. split; [|done]. apply elem_of_app. right. by right.
  - rewrite andb_true_iff, Hthree, Nat.leb_le. unfold alert. by rewrite Hr.
Qed.
End observe.

(** One token: the invariant, and the alert at the first moment it holds. *)
Lemma observe_token_ok g s :
  span_ok g s -> (processed_ s < length g)%nat -> ~ alert g (processed_ s) ->
  let '(r, s') := observe_token g s in
  span_ok g s' /\ processed_ s' = S (processed_ s) /\ (r = true <-> alert g (S (processed_ s))).
Proof.
  intros Hok Hlt Hna. unfold observe_token. destruct (S (processed_ s) <? window)%nat eqn:Ew.
  - apply Nat.ltb_lt in Ew. destruct (observe_short g s Hok Hlt Ew) as [H1 H2]. split_and!; [done|done|]. done.
  - apply Nat.ltb_ge in Ew.
    destruct (find_occurrence _ _ _ _) as [[[before o] after]|] eqn:Ef.
    + destruct (observe_again g s Hok Hlt before o after Ew Ef) as [H1 H2]. split_and!; [exact H1|done|exact H2].
    + destruct (observe_new g s Hok Hlt Ew Ef) as [H1 H2]. split_and!; [exact H1|done|]. by rewrite H2.
Qed.

Lemma observe_loop_ok g count : forall s,
  span_ok g s -> ~ alert g (processed_ s) -> (processed_ s + count <= length g)%nat ->
  let '(r, s') := observe_loop g count s in
  if r then exists e, (e <= processed_ s + count)%nat /\ alert g e
  else span_ok g s' /\ processed_ s' = (processed_ s + count)%nat /\ ~ alert g (processed_ s').
Proof.
  induction count as [|count IH]; intros s Hok Hna Hl; cbn [observe_loop]; [split_and!; [done|lia|done]|].
  pose proof (observe_token_ok g s Hok ltac:(lia) Hna) as H. destruct (observe_token g s) as [r s1].
  destruct H as (Hok1 & E1 & Hr). destruct r.
  - exists (S (processed_ s)). split; [lia|by apply Hr].
  - assert (~ alert g (processed_ s1)) as Hna1 by (rewrite E1, <- Hr; done).
    specialize (IH s1 Hok1 Hna1 ltac:(lia)). destruct (observe_loop g count s1) as [r s2]. destruct r.
    + destruct IH as (e & He & Ha). exists e. split; [lia|done].
    + destruct IH as (I1 & I2 & I3). split_and!; [done|lia|done].
Qed.

(** More tokens never withdraw an alert. *)
Lemma repeated_mono g e : (repeated_positions g e <= repeated_positions g (S e))%nat.
Proof.
  unfold repeated_positions. assert (forall x, covered g e x = true -> covered g (S e) x = true) as H.
  { intros x. rewrite !covered_spec. intros (b & ? & ? & ?). exists b. split_and!; [lia|lia|lia|done]. }
  cbn [count]. assert (forall n, (count (covered g e) n <= count (covered g (S e)) n)%nat) as Hn; [|specialize (Hn e); lia].
  induction n as [|n IH]; [done|]. cbn [count]. specialize (H n). destruct (covered g e n); [rewrite H by done|]; lia.
Qed.

Lemma alert_mono g e e' : (e <= e')%nat -> alert g e -> alert g e'.
Proof.
  induction 1 as [|e' _ IH]; [done|]. intros Ha. destruct (IH Ha) as [Ht Hr].
  split; [by apply thrice_mono|]. pose proof (repeated_mono g e'). lia.
Qed.

(** The invariant depends only on the tokens processed so far. *)
Lemma passage_prefix g g' e b :
  take e g = take e g' -> (b + window <= e)%nat -> passage g b = passage g' b.
Proof.
  intros Hp Hb. unfold passage. assert (forall l : list Z, take window (drop b l) = take window (drop b (take e l))) as H.
  { intros l. rewrite skipn_firstn_comm, take_take. f_equal. lia. }
  by rewrite (H g), (H g'), Hp.
Qed.

Lemma thrice_prefix g g' e : take e g = take e g' -> thrice g e -> thrice g' e.
Proof.
  intros Hp (x & y & z & Hxy & Hyz & Hz & S1 & S2). exists x, y, z.
  rewrite <- !(passage_prefix g g' e) by (done || lia). done.
Qed.

Lemma is_repeat_prefix g g' e b :
  take e g = take e g' -> (b + window <= e)%nat -> is_repeat g b = is_repeat g' b.
Proof.
  intros Hp Hb. apply eq_true_iff_eq. rewrite !is_repeat_spec.
  split; intros (a & Ha & Hs); exists a; (split; [done|]).
  - by rewrite <- !(passage_prefix g g' e) by (done || lia).
  - by rewrite !(passage_prefix g g' e) by (done || lia).
Qed.

Lemma repeated_prefix g g' e : take e g = take e g' -> repeated_positions g e = repeated_positions g' e.
Proof.
  intros Hp. apply count_ext. intros x _. apply eq_true_iff_eq. rewrite !covered_spec.
  split; intros (b & Hx & Hb & Hr); exists b; (split_and!; [lia|lia|lia|]).
  - by rewrite <- (is_repeat_prefix g g' e).
  - by rewrite (is_repeat_prefix g g' e).
Qed.

Lemma copies_prefix g g' e o :
  take e g = take e g' -> (first_begin o + window <= e)%nat -> copies_ok g e o -> copies_ok g' e o.
Proof.
  intros Hp Hf. unfold copies_ok. pose proof (passage_prefix g g' e _ Hp Hf) as Ef.
  assert (forall b, passage g' (first_begin o) = passage g' b /\ (b + window <= e)%nat ->
                    passage g (first_begin o) = passage g b /\ (b + window <= e)%nat) as Hin.
  { intros b [Hs Hb]. split; [|done]. by rewrite Ef, (passage_prefix g g' e b Hp Hb). }
  intros [(C1 & C2 & C3)|[(C1 & (m & M1 & [M2 M2'] & M3 & M4) & C3)|(C1 & C2)]].
  - left. split_and!; [done|done|]. intros b Hb. by apply C3, Hin.
  - right; left. split_and!; [done| |intros b Hb; by apply C3, Hin]. exists m. split_and!; [done| |done|done|].
    + by rewrite <- Ef, <- (passage_prefix g g' e m Hp M2').
    + intros b Hb. by apply M4, Hin.
  - right; right. split; [done|by apply (thrice_prefix g)].
Qed.

Lemma span_ok_prefix g g' s :
  span_ok g s -> take (processed_ s) g = take (processed_ s) g' -> (processed_ s <= length g')%nat -> span_ok g' s.
Proof.
  intros [H1 H2 H3 H4 H5 H6 H7 H8] Hp Hl. set (e := processed_ s) in *.
  assert (forall b, (b + window <= e)%nat -> passage g b = passage g' b) as Hpass
    by (intros b; by apply passage_prefix).
  assert (forall key o, (key, o) ∈ occurrences_ s -> passage g (first_begin o) = passage g' (first_begin o)) as Hent
    by (intros key o Hin; by apply Hpass, (oo_inside _ _ _ _ (H3 _ _ Hin))).
  split; fold e.
  - done.
  - rewrite H2. unfold recent. by rewrite Hp.
  - intros key o Hin. pose proof (H3 _ _ Hin) as [O1 O2 O3 O4 O5]. split; [done| | |done|by eapply copies_prefix].
    + by rewrite O2, Hpass.
    + intros b Hs Hb. apply O3; [|done]. rewrite !Hpass by done. done.
  - erewrite list_fmap_ext; [exact H4|]. intros i [key o] Hi. unfold entry_passage. cbn [snd]. symmetry.
    eapply Hent. by eapply list_elem_of_lookup_2.
  - intros b Hb. destruct (H5 b Hb) as (key & o & Hin & Hs). exists key, o. split; [done|].
    by rewrite <- (Hent key o Hin), <- Hpass.
  - rewrite H6. split; by apply thrice_prefix.
  - rewrite H7. by apply repeated_prefix.
  - destruct H8 as (Hc & Hlast & Hall). split_and!; [done| |].
    + destruct Hlast as [?|(b & Eb & Hr)]; [by left|right]. exists b. split; [done|].
      by rewrite <- (is_repeat_prefix g g' e) by (done || lia).
    + intros b Hb Hr. apply Hall; [done|]. by rewrite (is_repeat_prefix g g' e).
Qed.

(** A detector that has watched a generation up to [g] without an alert; a shorter
    sequence is a new attempt. *)
Inductive watched : list Z -> RepeatedReasoningSpan -> Prop :=
| watched_fresh : watched [] fresh_span
| watched_more g g' s s' : watched g s -> g `prefix_of` g' -> observe g' s = (false, s') -> watched g' s'
| watched_again g g' s s' : watched g s -> (length g' < length g)%nat -> observe g' s = (false, s') -> watched g' s'.

Lemma no_alert_short g : ~ alert g 0.
Proof. intros [(x & y & z & ? & ? & ? & _) _]. pose proof window_pos. lia. Qed.

(** One call, from a detector that is up to date with a prefix. *)
Lemma observe_from g s :
  span_ok g s -> ~ alert g (processed_ s) ->
  let '(r, s') := observe_loop g (length g - processed_ s) s in
  (r = true <-> alert g (length g)) /\ (r = false -> span_ok g s' /\ processed_ s' = length g).
Proof.
  intros Hok Hna. pose proof (so_length _ _ Hok) as Hl.
  pose proof (observe_loop_ok g (length g - processed_ s) s Hok Hna ltac:(lia)) as H.
  destruct (observe_loop g (length g - processed_ s) s) as [r s']. destruct r.
  - destruct H as (e & He & Ha). split; [|done]. split; [intros _|done]. apply (alert_mono g e); [lia|done].
  - destruct H as (H1 & H2 & H3). replace (processed_ s') with (length g) in * by lia. split; [done|]. intros _. split; [done|lia].
Qed.

Lemma observe_exact_from g g' s :
  span_ok g s -> processed_ s = length g -> ~ alert g (length g) ->
  g `prefix_of` g' \/ (length g' < length g)%nat ->
  let '(r, s') := observe g' s in
  (r = true <-> alert g' (length g')) /\ (r = false -> span_ok g' s' /\ processed_ s' = length g').
Proof.
  intros Hok Hp Hna Hg. unfold observe. rewrite Hp. destruct (length g' <? length g)%nat eqn:E.
  - apply observe_from; [apply fresh_ok|apply no_alert_short].
  - apply Nat.ltb_ge in E. destruct Hg as [[k ->]|?]; [|lia].
    assert (take (length g) g = take (length g) (g ++ k)) as Ht by (rewrite take_app_length, firstn_all; done).
    apply observe_from.
    + eapply span_ok_prefix; [exact Hok|by rewrite Hp|lia].
    + intros [H1 H2]. apply Hna. rewrite Hp in *. split.
      * by apply (thrice_prefix (g ++ k)).
      * by rewrite (repeated_prefix g (g ++ k)).
Qed.

Lemma watched_ok g s : watched g s -> span_ok g s /\ processed_ s = length g /\ ~ alert g (length g).
Proof.
  induction 1 as [|g g' s s' _ (I1 & I2 & I3) Hp Ho|g g' s s' _ (I1 & I2 & I3) Hp Ho].
  - split_and!; [apply fresh_ok|done|apply no_alert_short].
  - pose proof (observe_exact_from g g' s I1 I2 I3 (or_introl Hp)) as H. rewrite Ho in H.
    destruct H as [H1 H2]. destruct (H2 eq_refl). split_and!; [done|done|]. rewrite <- H1. done.
  - pose proof (observe_exact_from g g' s I1 I2 I3 (or_intror Hp)) as H. rewrite Ho in H.
    destruct H as [H1 H2]. destruct (H2 eq_refl). split_and!; [done|done|]. rewrite <- H1. done.
Qed.

(** C35: The repetition detector is exact: however a generation was fed to it (in any
    increments, after any number of earlier attempts), the next [observe] answers
    true exactly when some 256-token passage occurs three times without overlap and
    at least 4096 positions lie in passages that repeat an earlier one without
    overlap.  The rolling hash, the candidate table and the covered-end arithmetic
    have no effect on the answer. *)
Theorem repetition_detector_exact g s g' :
  watched g s -> g `prefix_of` g' \/ (length g' < length g)%nat ->
  fst (observe g' s) = true <->
  thrice g' (length g') /\ (minimum_repeated_tokens <= repeated_positions g' (length g'))%nat.
Proof.
  intros Hw Hg. destruct (watched_ok g s Hw) as (H1 & H2 & H3).
  pose proof (observe_exact_from g g' s H1 H2 H3 Hg) as H. destruct (observe g' s) as [r s']. apply H.
Qed.

Lemma repetition_detector_exact_witness :
  ~ (thrice [1; 2; 3] 3 /\ (minimum_repeated_tokens <= repeated_positions [1; 2; 3]%Z 3)%nat).
Proof.
  assert (watched [1; 2] (snd (observe [1; 2] fresh_span))) as Hw.
  { apply (watched_more [] [1; 2] fresh_span); [constructor|by exists [1; 2]|vm_compute; reflexivity]. }
  intros H. apply (repetition_detector_exact [1; 2] (snd (observe [1; 2] fresh_span)) [1; 2; 3] Hw) in H.
  - vm_compute in H. discriminate H.
  - left. exists [3]. reflexivity.
Defined.
