(* ===== verification/PrefillSchedule.v ===== *)
(** * targets/qwen3_6/impl/runtime/{prefill_schedule,vision_prefill,score_index}.h

    How a prompt is cut into prefill chunks: by the workspace width, at the rewrite
    checkpoint, at turn closures when the prompt has media, and around the columns
    of the Vision items; and which next-token targets a scored chunk has. *)

From stdpp Require Import prelude list list_numbers sorting.
From Stdlib Require Import ZArith Lia.
From S2P Require Import Prelude.
#[local] Open Scope Z_scope.

Definition kPrefillChunkAlignment : Z := 128.
Definition kIrregularPrefillSplit : Z := 4096.

Definition select_prefill_chunk (remaining maximum : Z) : Z :=
  let nominal := Z.min remaining maximum in
  if (kIrregularPrefillSplit <? maximum) && (kIrregularPrefillSplit <? nominal)
     && negb (nominal mod kPrefillChunkAlignment =? 0)
  then kIrregularPrefillSplit else nominal.

(** The [while] of [prefill_chunk_count]; [None] when [fuel] iterations are not enough. *)
Fixpoint chunk_count_loop (fuel : nat) (tokens maximum count : Z) : option Z :=
  if tokens =? 0 then Some count
  else
    match fuel with
    | O => None
    | S fuel => chunk_count_loop fuel (tokens - select_prefill_chunk tokens maximum) maximum (wrap64 (count + 1))
    end.

Definition prefill_chunk_count (tokens maximum : Z) : option Z :=
  chunk_count_loop (Z.to_nat tokens) tokens maximum 0.

(** [std::upper_bound] on the sorted frontiers: the first one past [begin]. *)
Fixpoint upper_bound (frontiers : list Z) (begin : Z) : option Z :=
  match frontiers with
  | [] => None
  | f :: frontiers => if begin <? f then Some f else upper_bound frontiers begin
  end.

Definition cap_prefill_at_frontiers (begin length : Z) (frontiers : list Z) : Z :=
  match upper_bound frontiers begin with
  | None => length
  | Some next => Z.min length (next - begin)
  end.

(** [item_index] and [output_begin] do not take part in the schedule. *)
Record VisionUseSpan : Type := MkUse { use_begin : Z; text_begin : Z; use_end : Z }.

Record VisionChunkSelection : Type := MkChunkSelection { chunk_length : Z; use_index : option nat }.

(** The loop over the uses from [index] on, with the current [end] and [active]. *)
Fixpoint select_uses (begin : Z) (uses : list VisionUseSpan) (index : nat) (endv : Z) (active : option nat)
    : Z * option nat :=
  match uses with
  | [] => (endv, active)
  | use :: uses =>
      if use_end use <=? begin then select_uses begin uses (S index) endv active
      else if endv <=? use_begin use then (endv, active)
      else
        match active with
        | None =>
            if begin <? text_begin use then
              let endv := Z.min endv (text_begin use) in
              (endv, if use_begin use <? endv then Some index else None)
            else select_uses begin uses (S index) endv (Some index)
        | Some _ => (Z.min endv (use_begin use), active)
        end
  end.

Definition select_vision_prefill_chunk (uses : list VisionUseSpan) (begin length : Z) : VisionChunkSelection :=
  let '(endv, active) := select_uses begin uses 0 (begin + length) None in
  MkChunkSelection (endv - begin) active.

(** The uses of a prompt, as [plan_request_base] builds and checks them; [items]
    are the scatter indices of each Vision item, [fits] its workspace test. *)
Fixpoint build_uses (mtp : bool) (prompt_tokens previous_end : Z) (fits : list Z -> bool) (items : list (list Z))
    : res (list VisionUseSpan) :=
  match items with
  | [] => Ok []
  | item :: items =>
      match head item, last item with
      | Some first, Some last =>
          let begin := if mtp && negb (first =? 0) then first - 1 else first in
          let endv := last + 1 in
          throw_if (begin <? previous_end) invalid_argument ;;
          throw_if (prompt_tokens <? endv) invalid_argument ;;
          throw_if (negb (fits item)) invalid_argument ;;
          rest ← build_uses mtp prompt_tokens endv fits items;
          Ok (MkUse begin first endv :: rest)
      | _, _ => Throw invalid_argument
      end
  end.

(** The parts of a prompt the projection reads. *)
Record PrefillInput : Type := MkPrefill {
  pf_tokens : Z;
  pf_has_media : bool;
  pf_closures : list Z;
  pf_uses : list VisionUseSpan;
  pf_rewrite : option Z;
}.

(** The length of the chunk at [begin], the body of the loop of [projected_prefill_work]. *)
Definition prefill_chunk_at (p : PrefillInput) (maximum begin : Z) : Z :=
  let length := select_prefill_chunk (pf_tokens p - begin) maximum in
  let length :=
    match pf_rewrite p with
    | Some rewrite_frontier => if begin <? rewrite_frontier then Z.min length (rewrite_frontier - begin) else length
    | None => length
    end in
  let length := if pf_has_media p then cap_prefill_at_frontiers begin length (pf_closures p) else length in
  chunk_length (select_vision_prefill_chunk (pf_uses p) begin length).

Fixpoint prefill_work_loop (fuel : nat) (p : PrefillInput) (maximum begin result : Z) : option Z :=
  if negb (begin <? pf_tokens p) then Some result
  else
    match fuel with
    | O => None
    | S fuel => prefill_work_loop fuel p maximum (begin + prefill_chunk_at p maximum begin) (result + 1)
    end.

Definition projected_prefill_work (p : PrefillInput) (reuse_base maximum : Z) : option Z :=
  if pf_tokens p =? reuse_base then Some 1
  else prefill_work_loop (Z.to_nat (pf_tokens p - reuse_base)) p maximum reuse_base 0.

(** ** Chunks *)
Lemma select_chunk_range remaining maximum :
  0 < remaining -> 0 < maximum ->
  0 < select_prefill_chunk remaining maximum <= Z.min remaining maximum.
Proof.
  intros Hr Hm. unfold select_prefill_chunk, kIrregularPrefillSplit.
  destruct (_ && _ && _) eqn:E; [|lia]. guards. lia.
Qed.

Lemma upper_bound_spec frontiers begin :
  StronglySorted Z.le frontiers ->
  match upper_bound frontiers begin with
  | Some next => begin < next /\ next ∈ frontiers /\ forall f, f ∈ frontiers -> begin < f -> next <= f
  | None => forall f, f ∈ frontiers -> f <= begin
  end.
Proof.
  induction 1 as [|f fs Hs IH Hf]; cbn [upper_bound]; [by intros f ?%elem_of_nil|].
  destruct (begin <? f) eqn:E; guards.
  - split_and!; [done|by left|]. intros g [->|Hg]%elem_of_cons _; [lia|]. rewrite Forall_forall in Hf. by apply Hf.
  - destruct (upper_bound fs begin) as [next|].
    + destruct IH as (H1 & H2 & H3). split_and!; [done|by right|].
      intros g [->|Hg]%elem_of_cons Hlt; [lia|]. by apply H3.
    + intros g [->|Hg]%elem_of_cons; [done|by apply IH].
Qed.

Lemma cap_frontiers_spec begin length frontiers :
  StronglySorted Z.le frontiers -> 0 < length ->
  let out := cap_prefill_at_frontiers begin length frontiers in
  0 < out <= length /\ forall f, f ∈ frontiers -> ~ (begin < f < begin + out).
Proof.
  intros Hs Hl. cbv zeta. unfold cap_prefill_at_frontiers. pose proof (upper_bound_spec frontiers begin Hs) as H.
  destruct (upper_bound frontiers begin) as [next|].
  - destruct H as (H1 & _ & H3). split; [lia|]. intros f Hf Hin. specialize (H3 f Hf). lia.
  - split; [lia|]. intros f Hf Hin. specialize (H f Hf). lia.
Qed.

(** Uses in order: consumers start at the Text columns or one before, and never
    overlap the previous item. *)
Inductive uses_ok : Z -> list VisionUseSpan -> Prop :=
| uses_nil e : uses_ok e []
| uses_cons e u us : e <= use_begin u -> use_begin u <= text_begin u <= use_begin u + 1 -> text_begin u < use_end u ->
    uses_ok (use_end u) us -> uses_ok e (u :: us).

Lemma uses_ok_elem e us u : uses_ok e us -> u ∈ us ->
  e <= use_begin u /\ use_begin u <= text_begin u <= use_begin u + 1 /\ text_begin u < use_end u.
Proof.
  induction 1 as [|e v us H1 H2 H3 _ IH]; intros Hin; [by apply elem_of_nil in Hin|].
  apply elem_of_cons in Hin as [->|Hin]; [lia|]. specialize (IH Hin). lia.
Qed.

(** The chunk [begin, e) touches the columns of a use. *)
Definition touches (begin e : Z) (u : VisionUseSpan) : Prop := use_begin u < e /\ begin < use_end u.

(** What the selection guarantees for the uses it still has to look at. *)
Definition uses_cut (begin e : Z) (us : list VisionUseSpan) : Prop :=
  (forall u, u ∈ us -> ~ (begin < text_begin u < e)) /\
  forall i j u v, us !! i = Some u -> us !! j = Some v -> touches begin e u -> touches begin e v -> i = j.

(** Uses that start at or past the end of the chunk are out of its way. *)
Lemma uses_beyond lo begin e us : uses_ok lo us -> e <= lo -> uses_cut begin e us.
Proof.
  intros Hu He. split.
  - intros u Hin Ht. destruct (uses_ok_elem _ _ _ Hu Hin). lia.
  - intros i j u v Hi _ [Ht _] _. apply list_elem_of_lookup_2 in Hi. destruct (uses_ok_elem _ _ _ Hu Hi). lia.
Qed.

Lemma uses_ok_weaken lo lo' us : lo' <= lo -> uses_ok lo us -> uses_ok lo' us.
Proof. intros H. destruct 1; constructor; [lia|done..]. Qed.

Lemma uses_skip begin e u us : use_end u <= begin -> text_begin u < use_end u -> uses_cut begin e us -> uses_cut begin e (u :: us).
Proof.
  intros Hu Htb [H1 H2]. split.
  - intros v [->|Hin]%elem_of_cons; [lia|by apply H1].
  - intros [|i] [|j] v w Hi Hj [Ti Ti'] [Tj Tj']; [done|..].
    + injection Hi as <-. lia.
    + injection Hj as <-. lia.
    + f_equal. by eapply H2.
Qed.

(** One use touches the chunk, the ones behind it start past its end. *)
Lemma uses_single lo begin e u us :
  ~ (begin < text_begin u < e) -> uses_ok lo us -> e <= lo -> uses_cut begin e (u :: us).
Proof.
  intros Hu Hus He. destruct (uses_beyond lo begin e us Hus He) as [H1 H2]. split.
  - intros v [->|Hin]%elem_of_cons; [done|by apply H1].
  - intros [|i] [|j] v w Hi Hj [Ti Ti'] [Tj Tj']; [done|..].
    + apply (list_elem_of_lookup_2 us) in Hj. destruct (uses_ok_elem _ _ _ Hus Hj). lia.
    + apply (list_elem_of_lookup_2 us) in Hi. destruct (uses_ok_elem _ _ _ Hus Hi). lia.
    + f_equal. by eapply H2.
Qed.

Lemma uses_shrink begin e e' us : e' <= e -> uses_cut begin e us -> uses_cut begin e' us.
Proof.
  intros He [H1 H2]. split.
  - intros u Hin Ht. apply (H1 u Hin). lia.
  - intros i j u v Hi Hj [? ?] [? ?]. eapply H2; [done|done|split; lia|split; lia].
Qed.

Lemma uses_ok_raise lo e us : (forall u, u ∈ us -> e <= use_begin u) -> uses_ok lo us -> uses_ok e us.
Proof. intros H. destruct 1; constructor; [|done..]. apply H. by left. Qed.

Lemma select_active lo begin us index endv a :
  uses_ok lo us -> begin < lo -> begin < endv ->
  exists e, select_uses begin us index endv (Some a) = (e, Some a) /\ begin < e <= endv /\
    forall u, u ∈ us -> e <= use_begin u.
Proof.
  intros Hu Hb He. destruct Hu as [|lo u us H1 H2 H3 Hus]; cbn [select_uses].
  { exists endv. split_and!; [done|done|lia|]. by intros u ?%elem_of_nil. }
  rewrite (proj2 (Z.leb_gt _ _)) by lia.
  assert (forall x, x <= use_begin u -> forall v, v ∈ u :: us -> x <= use_begin v) as Hall.
  { intros x Hx v [->|Hin]%elem_of_cons; [done|]. destruct (uses_ok_elem _ _ _ Hus Hin). lia. }
  destruct (endv <=? use_begin u) eqn:E; guards.
  - exists endv. split_and!; [done|done|lia|]. by apply Hall.
  - exists (Z.min endv (use_begin u)). split_and!; [done|lia|lia|]. apply Hall. lia.
Qed.

Lemma select_uses_spec us : forall lo begin index endv,
  uses_ok lo us -> begin < endv ->
  let '(e, active) := select_uses begin us index endv None in
  begin < e <= endv /\ uses_cut begin e us.
Proof.
  induction us as [|u us IH]; intros lo begin index endv Hu He; cbn [select_uses].
  { split; [lia|]. apply (uses_beyond endv); [constructor|lia]. }
  inversion Hu as [|? ? ? H1 H2 H3 Hus]; subst. destruct (use_end u <=? begin) eqn:E1; guards.
  - specialize (IH (use_end u) begin (S index) endv Hus He).
    destruct (select_uses begin us (S index) endv None) as [e active]. destruct IH as [Hr Hc].
    split; [done|]. by apply uses_skip.
  - destruct (endv <=? use_begin u) eqn:E2; guards.
    + split; [lia|]. apply (uses_beyond (use_begin u)); [|done]. by constructor.
    + destruct (begin <? text_begin u) eqn:E3; guards.
      * split; [lia|]. apply (uses_single (use_end u)); [lia|done|lia].
      * destruct (select_active (use_end u) begin us (S index) endv index Hus E1 He) as (e & -> & Hr & Hall).
        split; [done|]. apply (uses_single e); [lia|by eapply uses_ok_raise|lia].
Qed.

Lemma build_uses_ok mtp tokens fits items : forall previous uses,
  0 <= previous -> Forall (fun item => forall a b, head item = Some a -> last item = Some b -> 0 <= a <= b) items ->
  build_uses mtp tokens previous fits items = Ok uses -> uses_ok previous uses.
Proof.
  induction items as [|item items IH]; intros previous uses Hp Hf H; cbn [build_uses] in H.
  { injection H as <-. constructor. }
  apply Forall_cons in Hf as [Hi Hf]. destruct (head item) as [a|] eqn:Ea; [|done].
  destruct (last item) as [z|] eqn:Ez; [|done]. specialize (Hi a z eq_refl eq_refl).
  res_inv H. injection H as <-. guards. constructor; cbn [use_begin text_begin use_end].
  - done.
  - destruct (mtp && negb (a =? 0)); lia.
  - lia.
  - eapply IH; [lia|done|eassumption].
Qed.

(** ** The schedule *)

(** A chunk of [len] tokens at [begin] that respects every boundary. *)
Record chunk_ok (p : PrefillInput) (maximum begin len : Z) : Prop := MkChunkOk {
  ck_size : 0 < len <= maximum;
  ck_inside : begin + len <= pf_tokens p;
  ck_rewrite : forall f, pf_rewrite p = Some f -> ~ (begin < f < begin + len);
  ck_closures : pf_has_media p = true -> forall f, f ∈ pf_closures p -> ~ (begin < f < begin + len);
  ck_uses : uses_cut begin (begin + len) (pf_uses p);
}.

Lemma prefill_chunk_ok p maximum begin lo :
  0 < maximum -> begin < pf_tokens p -> StronglySorted Z.le (pf_closures p) -> uses_ok lo (pf_uses p) ->
  chunk_ok p maximum begin (prefill_chunk_at p maximum begin).
Proof.
  intros Hm Hb Hs Hu. unfold prefill_chunk_at.
  pose proof (select_chunk_range (pf_tokens p - begin) maximum ltac:(lia) Hm) as H0.
  set (l0 := select_prefill_chunk _ _) in *.
  set (l1 := match pf_rewrite p with Some _ => _ | None => l0 end).
  assert (0 < l1 <= l0 /\ forall f, pf_rewrite p = Some f -> ~ (begin < f < begin + l1)) as [H1 Hr].
  { subst l1. destruct (pf_rewrite p) as [f|]; [|split; [lia|done]].
    destruct (begin <? f) eqn:E; guards; (split; [lia|]); intros g [= <-]; lia. }
  set (l2 := if pf_has_media p then _ else l1).
  assert (0 < l2 <= l1 /\ (pf_has_media p = true -> forall f, f ∈ pf_closures p -> ~ (begin < f < begin + l2))) as [H2 Hc].
  { subst l2. destruct (pf_has_media p); [|split; [lia|done]].
    destruct (cap_frontiers_spec begin l1 (pf_closures p) Hs ltac:(lia)) as [Hl Hf]. split; [lia|]. intros _. exact Hf. }
  unfold select_vision_prefill_chunk. pose proof (select_uses_spec (pf_uses p) lo begin 0 (begin + l2) Hu ltac:(lia)) as H3.
  destruct (select_uses _ _ _ _ _) as [e active]. destruct H3 as [He Hcut]. cbn [chunk_length].
  split; [lia|lia| | |].
  - intros f Hf Hin. apply (Hr f Hf). lia.
  - intros Hmed f Hf Hin. apply (Hc Hmed f Hf). lia.
  - by replace (begin + (e - begin)) with e by lia.
Qed.

(** Chunks one after the other from [begin] to the end of the prompt. *)
Inductive tiles (p : PrefillInput) (maximum : Z) : Z -> list Z -> Prop :=
| tiles_done : tiles p maximum (pf_tokens p) []
| tiles_chunk begin len chunks : chunk_ok p maximum begin len -> tiles p maximum (begin + len) chunks ->
    tiles p maximum begin (len :: chunks).

Lemma prefill_work_tiles p maximum lo fuel : forall begin result,
  0 < maximum -> StronglySorted Z.le (pf_closures p) -> uses_ok lo (pf_uses p) ->
  begin <= pf_tokens p -> pf_tokens p - begin <= Z.of_nat fuel ->
  exists chunks, prefill_work_loop fuel p maximum begin result = Some (result + Z.of_nat (length chunks)) /\
    tiles p maximum begin chunks.
Proof.
  induction fuel as [|fuel IH]; intros begin result Hm Hs Hu Hb Hf; cbn [prefill_work_loop].
  - rewrite (proj2 (Z.ltb_ge _ _)) by lia. cbn [negb]. exists []. split; [f_equal; cbn; lia|].
    replace begin with (pf_tokens p) by lia. constructor.
  - destruct (begin <? pf_tokens p) eqn:E; guards; cbn [negb].
    + pose proof (prefill_chunk_ok p maximum begin lo Hm E Hs Hu) as Hc.
      destruct (IH (begin + prefill_chunk_at p maximum begin) (result + 1) Hm Hs Hu) as (chunks & Ew & Ht);
        [apply ck_inside in Hc; lia|apply ck_size in Hc; lia|].
      exists (prefill_chunk_at p maximum begin :: chunks). split; [rewrite Ew; f_equal; cbn [length]; lia|].
      by constructor.
    + exists []. split; [f_equal; cbn; lia|]. replace begin with (pf_tokens p) by lia. constructor.
Qed.

(** C36: The prefill projection terminates and counts a valid schedule: for a prompt
    whose Vision uses passed the planner's overlap checks, the loop ends within one
    iteration per remaining token, and its result is the number of chunks of a
    tiling of the rest of the prompt in which every chunk is nonempty, at most the
    workspace width, crosses neither the rewrite checkpoint nor (with media) a turn
    closure nor the first column of a Vision item, and touches at most one item. *)
Theorem prefill_schedule_sound p mtp fits items base maximum :
  0 < maximum -> 0 <= base < pf_tokens p -> StronglySorted Z.le (pf_closures p) ->
  Forall (fun item => forall a b, head item = Some a -> last item = Some b -> 0 <= a <= b) items ->
  build_uses mtp (pf_tokens p) 0 fits items = Ok (pf_uses p) ->
  exists chunks, projected_prefill_work p base maximum = Some (Z.of_nat (length chunks)) /\
    tiles p maximum base chunks.
Proof.
  intros Hm Hb Hs Hi Hu. pose proof (build_uses_ok _ _ _ _ 0 _ ltac:(lia) Hi Hu) as Hok.
  unfold projected_prefill_work. rewrite (proj2 (Z.eqb_neq _ _)) by lia.
  destruct (prefill_work_tiles p maximum 0 (Z.to_nat (pf_tokens p - base)) base 0 Hm Hs Hok ltac:(lia) ltac:(lia))
    as (chunks & E & Ht).
  exists chunks. split; [rewrite E; f_equal; lia|done].
Qed.

(** The execution policy alone also ends, in at most one step per token. *)
Lemma chunk_count_terminates fuel : forall tokens maximum count,
  0 < maximum -> 0 <= tokens <= Z.of_nat fuel -> 0 <= count -> count + tokens <= size_max ->
  exists n, chunk_count_loop fuel tokens maximum count = Some n /\ count <= n <= count + tokens /\
    tokens <= (n - count) * maximum.
Proof.
  induction fuel as [|fuel IH]; intros tokens maximum count Hm Ht Hc Hmax; cbn [chunk_count_loop].
  - rewrite (proj2 (Z.eqb_eq _ _)) by lia. exists count. split_and!; [done|lia|lia|lia].
  - destruct (tokens =? 0) eqn:E; guards; [exists count; split_and!; [done|lia|lia|lia]|].
    pose proof (select_chunk_range tokens maximum ltac:(lia) Hm) as Hr.
    rewrite wrap64_id by (unfold u64; lia).
    destruct (IH (tokens - select_prefill_chunk tokens maximum) maximum (count + 1) Hm ltac:(lia) ltac:(lia) ltac:(lia))
      as (n & En & Hn & Hn'). exists n. split_and!; [done|lia|lia|]. nia.
Qed.

(** ** score_index.h *)
Definition resolve_score_skip (prompt_tokens : Z) (skip_tokens : option Z) : res Z :=
  throw_if (prompt_tokens <? 2) invalid_argument ;;
  let max_skip := prompt_tokens - 2 in
  match skip_tokens with
  | None => Ok (Z.min (prompt_tokens / 2) max_skip)
  | Some skip => throw_if (max_skip <? skip) invalid_argument ;; Ok skip
  end.

Definition resolve_decode_prefix (prompt_tokens skip : Z) : res Z :=
  throw_if (prompt_tokens <? 3) invalid_argument ;;
  let prefix := Z.max skip 1 in
  throw_if (prompt_tokens <=? wrap32 (prefix + 1)) invalid_argument ;;
  Ok prefix.

(** The loop over the chunk's columns, [count] of them from [position] on. *)
Fixpoint targets_loop (ids : list Z) (skip position : Z) (count : nat) : list Z :=
  match count with
  | O => []
  | S count =>
      if position <? skip then targets_loop ids skip (position + 1) count
      else if Z.of_nat (length ids) <=? position + 1 then []
      else nth (Z.to_nat (position + 1)) ids 0 :: targets_loop ids skip (position + 1) count
  end.

Definition prefill_chunk_targets (ids : list Z) (chunk_begin chunk_tokens skip : Z) : list Z :=
  let n := Z.of_nat (length ids) in
  if (chunk_tokens =? 0) || (n <=? chunk_begin) then []
  else targets_loop ids skip chunk_begin (Z.to_nat (Z.min chunk_tokens (n - chunk_begin))).

(** The targets of the chunks of a prefill from [begin] on. *)
Fixpoint scored_targets (ids : list Z) (skip begin : Z) (chunks : list Z) : list Z :=
  match chunks with
  | [] => []
  | len :: chunks => prefill_chunk_targets ids begin len skip ++ scored_targets ids skip (begin + len) chunks
  end.

Lemma targets_loop_spec ids skip count : forall position rest,
  0 <= position -> 0 <= skip -> position + Z.of_nat count <= Z.of_nat (length ids) ->
  rest = drop (Z.to_nat (Z.max (position + Z.of_nat count) skip + 1)) ids ->
  targets_loop ids skip position count ++ rest = drop (Z.to_nat (Z.max position skip + 1)) ids.
Proof.
  induction count as [|count IH]; intros position rest Hp Hs Hl ->; cbn [targets_loop].
  { cbn [app]. do 3 f_equal. lia. }
  destruct (position <? skip) eqn:E; guards.
  - rewrite (IH (position + 1)); [do 3 f_equal; lia|lia|done|lia|do 3 f_equal; lia].
  - destruct (Z.of_nat (length ids) <=? position + 1) eqn:E2; guards; cbn [app].
    + rewrite !drop_ge by lia. done.
    + rewrite (IH (position + 1)); [|lia|done|lia|do 3 f_equal; lia].
      destruct (lookup_lt_is_Some_2 ids (Z.to_nat (position + 1))) as [t Ht]; [lia|].
      rewrite (nth_lookup_Some _ _ _ _ Ht). rewrite (drop_S ids t (Z.to_nat (Z.max position skip + 1)))
        by (by replace (Z.to_nat (Z.max position skip + 1)) with (Z.to_nat (position + 1)) by lia).
      do 2 f_equal. lia.
Qed.

Lemma scored_targets_spec ids skip chunks : forall begin,
  0 <= begin -> 0 <= skip -> Forall (fun len => 0 < len) chunks ->
  begin + sumZ chunks = Z.of_nat (length ids) ->
  scored_targets ids skip begin chunks = drop (Z.to_nat (Z.max begin skip + 1)) ids.
Proof.
  induction chunks as [|len chunks IH]; intros begin Hb Hs Hf Hsum; cbn [scored_targets].
  { cbn in Hsum. rewrite drop_ge; [done|lia]. }
  apply Forall_cons in Hf as [Hlen Hf]. cbn [sumZ foldr] in Hsum. fold (sumZ chunks) in Hsum.
  assert (0 <= sumZ chunks) as H0.
  { clear -Hf. induction Hf; [done|]. cbn [sumZ foldr]. fold (sumZ l). lia. }
  unfold prefill_chunk_targets. rewrite (proj2 (Z.eqb_neq _ _)), (proj2 (Z.leb_gt _ _)) by lia. cbn [orb].
  apply targets_loop_spec; [done|done|lia|]. rewrite IH; [|lia|done|done|lia]. do 3 f_equal. lia.
Qed.

(** Scoring covers every position once: with the skip the options resolve to,
    and any cut of the prompt into prefill chunks, the targets of the chunks in order
    are exactly the tokens after the skipped ones, at least one of them; and the
    decode prefix, when accepted, leaves a target too. *)
Theorem score_targets_exact ids option_skip skip chunks :
  Z.of_nat (length ids) <= u32_max -> match option_skip with Some s => 0 <= s | None => True end ->
  resolve_score_skip (Z.of_nat (length ids)) option_skip = Ok skip ->
  Forall (fun len => 0 < len) chunks -> sumZ chunks = Z.of_nat (length ids) ->
  scored_targets ids skip 0 chunks = drop (Z.to_nat (skip + 1)) ids /\ drop (Z.to_nat (skip + 1)) ids <> [] /\
  forall prefix, resolve_decode_prefix (Z.of_nat (length ids)) skip = Ok prefix ->
    skip <= prefix /\ 1 <= prefix /\ prefix + 1 < Z.of_nat (length ids).
Proof.
  intros Hl Ho Hr Hf Hsum. unfold resolve_score_skip in Hr. res_inv Hr. guards.
  assert (0 <= skip <= Z.of_nat (length ids) - 2) as Hskip.
  { destruct option_skip as [s|]; [res_inv Hr; injection Hr as <-; guards; lia|]. injection Hr as <-.
    pose proof (Z.div_pos (Z.of_nat (length ids)) 2). lia. }
  split_and!.
  - rewrite scored_targets_spec; [do 3 f_equal; lia|lia|lia|done|lia].
  - intros E. apply (f_equal length) in E. rewrite length_drop in E. cbn in E. lia.
  - intros prefix Hp. unfold resolve_decode_prefix in Hp. res_inv Hp. injection Hp as <-. guards.
    unfold wrap32 in *. rewrite Z.mod_small in * by (unfold u32_max in *; lia). lia.
Qed.

(** ** A prompt with one image *)
Definition demo_prefill : PrefillInput :=
  MkPrefill 9000 true [100; 6000] [MkUse 199 200 300] (Some 5000).

Example demo_prefill_work : projected_prefill_work demo_prefill 0 8192 = Some 5.
Proof. vm_compute. reflexivity. Qed.

Lemma prefill_schedule_sound_witness :
  exists chunks, tiles demo_prefill 8192 0 chunks /\ length chunks = 5%nat.
Proof.
  destruct (prefill_schedule_sound demo_prefill true (fun _ => true) [[200; 299]] 0 8192) as (chunks & E & Ht).
  - lia.
  - cbn. lia.
  - cbn. repeat constructor; vm_compute; congruence.
  - constructor; [|constructor]. cbn. intros a b [= <-] [= <-]. lia.
  - vm_compute. reflexivity.
  - exists chunks. split; [exact Ht|]. apply Nat2Z.inj. vm_compute in E. injection E as E. exact (eq_sym E).
Defined.

Lemma score_targets_exact_witness :
  scored_targets [10; 11; 12; 13; 14] 2 0 [2; 3] = [13; 14].
Proof.
  apply (score_targets_exact [10; 11; 12; 13; 14] None 2 [2; 3]).
  - vm_compute. congruence.
  - exact I.
  - vm_compute. reflexivity.
  - repeat constructor.
  - vm_compute. reflexivity.
Defined.
