(* ===== verification/Crc32c.v ===== *)
(** * targets/qwen3_6/impl/runtime/kv_disk_cache.cpp: CRC-32C

    The checksum of every record, journal frame and index image on disk: bit by bit in
    software, word by word with the SSE 4.2 instructions, and, for large payloads, in
    three interleaved streams whose checksums are combined by multiplying bit matrices.
    The instructions are the parameter [Crc32Isa]; [Crc32IsaSpec] is their documented
    effect, accumulating the operand's bytes from the low one. *)

From stdpp Require Import prelude list list_numbers.
From Stdlib Require Import ZArith Lia.
From S2P Require Import Prelude.
From S2P Require Import Bytes.
#[local] Open Scope Z_scope.

(** ** Software *)
Definition crc_poly : Z := 0x82F63B78.

(** [(crc >> 1) ^ (0x82F63B78U & static_cast<std::uint32_t>(-(crc & 1U)))] *)
Definition bit_step (crc : Z) : Z :=
  Z.lxor (Z.shiftr crc 1) (Z.land crc_poly (wrap32 (- Z.land crc 1))).

Fixpoint bit_loop (bits : nat) (crc : Z) : Z :=
  match bits with
  | O => crc
  | S bits => bit_loop bits (bit_step crc)
  end.

Definition crc32c_update_software (crc : Z) (bytes : list Z) : Z :=
  foldl (fun crc byte => bit_loop 8 (Z.lxor crc byte)) crc bytes.

(** [~crc] of a [std::uint32_t] *)
Definition not32 (x : Z) : Z := wrap32 (Z.lnot x).

(** ** SSE 4.2 *)
Class Crc32Isa : Type := {
  mm_crc32_u8 : Z -> Z -> Z;
  mm_crc32_u16 : Z -> Z -> Z;
  mm_crc32_u32 : Z -> Z -> Z;
  mm_crc32_u64 : Z -> Z -> Z;
}.

Class Crc32IsaSpec (isa : Crc32Isa) : Prop := {
  crc32_u8_spec crc w : u32 crc -> 0 <= w < 2 ^ 8 -> mm_crc32_u8 crc w = crc32c_update_software crc (le_bytes 1 w);
  crc32_u16_spec crc w : u32 crc -> 0 <= w < 2 ^ 16 -> mm_crc32_u16 crc w = crc32c_update_software crc (le_bytes 2 w);
  crc32_u32_spec crc w : u32 crc -> 0 <= w < 2 ^ 32 -> mm_crc32_u32 crc w = crc32c_update_software crc (le_bytes 4 w);
  crc32_u64_spec crc w : u32 crc -> 0 <= w < 2 ^ 64 -> mm_crc32_u64 crc w = crc32c_update_software crc (le_bytes 8 w);
}.

Section crc.
Context `{Crc32Isa}.

(** [while (size >= sizeof(std::uint64_t))]; a word per byte of fuel is enough. *)
Fixpoint hardware_words (fuel : nat) (crc : Z) (bytes : list Z) : Z * list Z :=
  match fuel with
  | O => (crc, bytes)
  | S fuel =>
      if 8 <=? Z.of_nat (length bytes)
      then hardware_words fuel (wrap32 (mm_crc32_u64 crc (le_value (take 8 bytes)))) (drop 8 bytes)
      else (crc, bytes)
  end.

Definition crc32c_update_hardware (crc : Z) (bytes : list Z) : Z :=
  let '(crc, bytes) := hardware_words (length bytes) crc bytes in
  let '(crc, bytes) :=
    if 4 <=? Z.of_nat (length bytes) then (mm_crc32_u32 crc (le_value (take 4 bytes)), drop 4 bytes) else (crc, bytes) in
  let '(crc, bytes) :=
    if 2 <=? Z.of_nat (length bytes) then (mm_crc32_u16 crc (le_value (take 2 bytes)), drop 2 bytes) else (crc, bytes) in
  match bytes with [] => crc | byte :: _ => mm_crc32_u8 crc byte end.

Definition crc32c_update (hardware : bool) (crc : Z) (bytes : list Z) : Z :=
  if hardware then crc32c_update_hardware crc bytes else crc32c_update_software crc bytes.

(** ** Combining *)

(** [while (vector != 0)]; a 32-bit vector ends within the 32 rows. *)
Fixpoint matrix_times_loop (matrix : list Z) (vector result : Z) : Z :=
  match matrix with
  | [] => result
  | row :: matrix =>
      if vector =? 0 then result
      else matrix_times_loop matrix (Z.shiftr vector 1)
             (if negb (Z.land vector 1 =? 0) then Z.lxor result row else result)
  end.

Definition crc32c_matrix_times (matrix : list Z) (vector : Z) : Z := matrix_times_loop matrix vector 0.

Definition crc32c_matrix_square (matrix : list Z) : list Z := crc32c_matrix_times matrix <$> matrix.

(** [odd[bit] = row; row <<= 1] *)
Fixpoint odd_rows (rows : nat) (row : Z) : list Z :=
  match rows with
  | O => []
  | S rows => row :: odd_rows rows (wrap32 (Z.shiftl row 1))
  end.

(** The [do]-[while] loop; each round consumes two bits of [right_bytes], so 33 rounds
    are enough for 64 bits. *)
Fixpoint combine_loop (fuel : nat) (odd : list Z) (left right_bytes : Z) : Z :=
  match fuel with
  | O => left
  | S fuel =>
      let even := crc32c_matrix_square odd in
      let left := if negb (Z.land right_bytes 1 =? 0) then crc32c_matrix_times even left else left in
      let right_bytes := Z.shiftr right_bytes 1 in
      if right_bytes =? 0 then left
      else
        let odd := crc32c_matrix_square even in
        let left := if negb (Z.land right_bytes 1 =? 0) then crc32c_matrix_times odd left else left in
        let right_bytes := Z.shiftr right_bytes 1 in
        if right_bytes =? 0 then left else combine_loop fuel odd left right_bytes
  end.

Definition crc32c_combine (left right right_bytes : Z) : Z :=
  if right_bytes =? 0 then left
  else
    let odd := crc_poly :: odd_rows 31 1 in
    let even := crc32c_matrix_square odd in
    let odd := crc32c_matrix_square even in
    Z.lxor (combine_loop 33 odd left right_bytes) right.

(** ** Three streams *)
Definition word_at (bytes : list Z) (off : Z) : Z := le_value (take 8 (drop (Z.to_nat off) bytes)).

(** [for (std::size_t off = 0; off < block; off += sizeof(std::uint64_t))] *)
Fixpoint three_way_loop (words : nat) (off block : Z) (bytes : list Z) (crcs : Z * Z * Z) : Z * Z * Z :=
  match words with
  | O => crcs
  | S words =>
      let '(first, second, third) := crcs in
      three_way_loop words (off + 8) block bytes
        (wrap32 (mm_crc32_u64 first (word_at bytes off)),
         wrap32 (mm_crc32_u64 second (word_at bytes (block + off))),
         wrap32 (mm_crc32_u64 third (word_at bytes (2 * block + off))))
  end.

Definition crc32c_three_way_hardware (bytes : list Z) : Z :=
  let size := Z.of_nat (length bytes) in
  let block := Z.land (size / 3) (wrap64 (Z.lnot 7)) in
  let '(crc_first, crc_second, crc_third) :=
    three_way_loop (Z.to_nat (block / 8)) 0 block bytes (not32 0, not32 0, not32 0) in
  let crc_third := crc32c_update_hardware crc_third (take (Z.to_nat (size - 3 * block)) (drop (Z.to_nat (3 * block)) bytes)) in
  let first_second := crc32c_combine (not32 crc_first) (not32 crc_second) block in
  crc32c_combine first_second (not32 crc_third) (size - 2 * block).

Definition kParallelCrcMinBytes : Z := Z.shiftl 512 10.

Definition crc32c (hardware : bool) (bytes : list Z) : Z :=
  if hardware && (kParallelCrcMinBytes <=? Z.of_nat (length bytes)) then crc32c_three_way_hardware bytes
  else not32 (crc32c_update hardware (not32 0) bytes).

(** A part without data, or empty, is skipped. *)
Definition crc32c_parts (hardware : bool) (parts : list (option (list Z))) : Z :=
  not32 (foldl (fun crc part =>
    match part with
    | None | Some [] => crc
    | Some bytes => crc32c_update hardware crc bytes
    end) (not32 0) parts).
End crc.
