(* ===== verification/CrcTheorems.v ===== *)
(** * CRC-32C: every path computes the same checksum, and bursts are detected *)

From stdpp Require Import prelude list list_numbers.
From Stdlib Require Import ZArith Lia.
From S2P Require Import Prelude.
From S2P Require Import Bytes.
From S2P Require Import Crc32c.
#[local] Open Scope Z_scope.

(** ** The step is linear *)
Lemma u32_ones x : u32 x <-> Z.land x (Z.ones 32) = x.
Proof.
  rewrite Z.land_ones by lia. unfold u32, u32_max. split; intros H; [rewrite Z.mod_small; lia|].
  rewrite <- H. pose proof (Z.mod_pos_bound x (2 ^ 32)). lia.
Qed.

Lemma lxor_u32 x y : u32 x -> u32 y -> u32 (Z.lxor x y).
Proof.
  rewrite !u32_ones. intros Hx Hy. apply Z.bits_inj'. intros k Hk. rewrite Z.land_spec, Z.lxor_spec.
  rewrite <- Hx, <- Hy, !Z.land_spec. by destruct (Z.testbit x k), (Z.testbit y k), (Z.testbit (Z.ones 32) k).
Qed.

Lemma bit_step_odd x : bit_step x = Z.lxor (Z.shiftr x 1) (if Z.odd x then crc_poly else 0).
Proof.
  unfold bit_step. f_equal. assert (Z.land x 1 = x mod 2) as -> by apply (Z.land_ones x 1 ltac:(lia)).
  rewrite Zmod_odd. by destruct (Z.odd x).
Qed.

Lemma odd_lxor x y : Z.odd (Z.lxor x y) = xorb (Z.odd x) (Z.odd y).
Proof. rewrite <- !Z.bit0_odd. apply Z.lxor_spec. Qed.

Lemma bit_step_lxor x y : bit_step (Z.lxor x y) = Z.lxor (bit_step x) (bit_step y).
Proof.
  rewrite !bit_step_odd, odd_lxor, Z.shiftr_lxor. apply Z.bits_inj'. intros k Hk. rewrite !Z.lxor_spec.
  destruct (Z.odd x), (Z.odd y); cbn [xorb]; rewrite ?Z.bits_0;
    by destruct (Z.testbit (Z.shiftr x 1) k), (Z.testbit (Z.shiftr y 1) k), (Z.testbit crc_poly k).
Qed.

Lemma shiftr_range x : u32 x -> 0 <= Z.shiftr x 1 < 2 ^ 31.
Proof. unfold u32, u32_max. rewrite Z.shiftr_div_pow2 by lia. intros. split; [apply Z.div_pos|apply Z.div_lt_upper_bound]; lia. Qed.

Lemma bit_step_u32 x : u32 x -> u32 (bit_step x).
Proof.
  intros Hx. rewrite bit_step_odd. apply lxor_u32.
  - pose proof (shiftr_range x Hx). unfold u32, u32_max. lia.
  - destruct (Z.odd x); by vm_compute.
Qed.

Lemma bit_loop_u32 n : forall x, u32 x -> u32 (bit_loop n x).
Proof. induction n as [|n IH]; intros x Hx; [done|]. by apply IH, bit_step_u32. Qed.

Lemma bit_loop_lxor n : forall x y, bit_loop n (Z.lxor x y) = Z.lxor (bit_loop n x) (bit_loop n y).
Proof. induction n as [|n IH]; intros x y; [done|]. cbn [bit_loop]. by rewrite bit_step_lxor, IH. Qed.

Lemma bit_loop_add n m : forall x, bit_loop (n + m) x = bit_loop m (bit_loop n x).
Proof. induction n as [|n IH]; intros x; [done|]. apply IH. Qed.

Lemma bit_loop_0 n : bit_loop n 0 = 0.
Proof. induction n as [|n IH]; [done|]. cbn [bit_loop]. by change (bit_step 0) with 0. Qed.

(** ** The software update *)
Lemma update_app c a b : crc32c_update_software c (a ++ b) = crc32c_update_software (crc32c_update_software c a) b.
Proof. apply foldl_app. Qed.

Lemma byte_u32 b : is_byte b -> u32 b.
Proof. unfold is_byte, u32, u32_max. lia. Qed.

Lemma update_u32 bytes : Forall is_byte bytes -> forall c, u32 c -> u32 (crc32c_update_software c bytes).
Proof.
  induction 1 as [|b bytes Hb _ IH]; intros c Hc; [done|]. apply IH, bit_loop_u32, lxor_u32; [done|by apply byte_u32].
Qed.

(** A difference in the state passes through the bytes unchanged by them. *)
Lemma update_lxor bytes : forall c e,
  crc32c_update_software (Z.lxor c e) bytes = Z.lxor (crc32c_update_software c bytes) (bit_loop (8 * length bytes) e).
Proof.
  induction bytes as [|b bytes IH]; intros c e; [done|]. cbn [crc32c_update_software foldl].
  fold (crc32c_update_software (bit_loop 8 (Z.lxor (Z.lxor c e) b)) bytes).
  fold (crc32c_update_software (bit_loop 8 (Z.lxor c b)) bytes).
  replace (Z.lxor (Z.lxor c e) b) with (Z.lxor (Z.lxor c b) e) by (rewrite !Z.lxor_assoc; f_equal; apply Z.lxor_comm).
  rewrite bit_loop_lxor, IH. f_equal. cbn [length]. rewrite <- bit_loop_add. f_equal. lia.
Qed.

Lemma not32_lxor x : u32 x -> not32 x = Z.lxor x (not32 0).
Proof.
  intros Hx. unfold not32, wrap32. rewrite <- !Z.land_ones by lia. apply Z.bits_inj'. intros k Hk.
  apply u32_ones in Hx. rewrite Z.lxor_spec, !Z.land_spec, !Z.lnot_spec by lia. rewrite Z.bits_0. rewrite <- Hx, Z.land_spec.
  by destruct (Z.testbit x k), (Z.testbit (Z.ones 32) k).
Qed.

Lemma not32_u32 x : u32 (not32 x).
Proof. apply wrap32_range. Qed.

Lemma not32_involutive x : u32 x -> not32 (not32 x) = x.
Proof.
  intros Hx. rewrite (not32_lxor (not32 x)) by apply not32_u32. rewrite not32_lxor by done.
  by rewrite Z.lxor_assoc, Z.lxor_nilpotent, Z.lxor_0_r.
Qed.

(** The reference checksum. *)
Definition crc_of (bytes : list Z) : Z := not32 (crc32c_update_software (not32 0) bytes).

Lemma crc_of_u32 bytes : u32 (crc_of bytes).
Proof. apply not32_u32. Qed.

(** Appending bytes: the left checksum is pushed through as many zero bytes. *)
Lemma crc_of_app a b : Forall is_byte a -> Forall is_byte b ->
  crc_of (a ++ b) = Z.lxor (bit_loop (8 * length b) (crc_of a)) (crc_of b).
Proof.
  intros Ha Hb. unfold crc_of at 1. rewrite update_app.
  assert (crc32c_update_software (not32 0) a = Z.lxor (not32 0) (crc_of a)) as ->.
  { assert (u32 (crc32c_update_software (not32 0) a)) as Hu by (apply update_u32; [done|apply not32_u32]).
    unfold crc_of. rewrite (not32_lxor _ Hu), Z.lxor_comm, Z.lxor_assoc, Z.lxor_nilpotent. by rewrite Z.lxor_0_r. }
  rewrite update_lxor. change (crc_of b) with (not32 (crc32c_update_software (not32 0) b)).
  assert (u32 (crc32c_update_software (not32 0) b)) as Hu by (apply update_u32; [done|apply not32_u32]).
  rewrite not32_lxor by (apply lxor_u32; [done|apply bit_loop_u32, crc_of_u32]). rewrite (not32_lxor _ Hu).
  rewrite !Z.lxor_assoc, (Z.lxor_comm (crc32c_update_software (not32 0) b)), !Z.lxor_assoc. f_equal. apply Z.lxor_comm.
Qed.

(** ** Bit matrices *)

(** The matrix of [k] zero bits. *)
Definition rows (k : nat) : list Z := (fun i => bit_loop k (2 ^ i)) <$> seqZ 0 32.

Lemma split_bit v : 0 <= v -> v = Z.lxor (Z.land v 1) (2 * Z.shiftr v 1).
Proof.
  intros Hv. apply Z.bits_inj'. intros k Hk. rewrite Z.lxor_spec, Z.land_spec.
  destruct (decide (k = 0)) as [->|Hne].
  - rewrite Z.testbit_even_0. by destruct (Z.testbit v 0).
  - replace k with (Z.succ (k - 1)) by lia. rewrite (Z.testbit_even_succ _ (k - 1)) by lia. rewrite Z.shiftr_spec by lia.
    replace (k - 1 + 1) with (Z.succ (k - 1)) by lia.
    replace (Z.testbit 1 (Z.succ (k - 1))) with false; [by destruct (Z.testbit v (Z.succ (k - 1)))|].
    symmetry. apply Z.bits_above_log2; [lia|]. cbn. lia.
Qed.

Lemma land_1_cases v : Z.land v 1 = 0 \/ Z.land v 1 = 1.
Proof. assert (Z.land v 1 = v mod 2) as -> by apply (Z.land_ones v 1 ltac:(lia)). pose proof (Z.mod_pos_bound v 2). lia. Qed.

Lemma lxor_mul_pow2 x y n : 0 <= n -> Z.lxor x y * 2 ^ n = Z.lxor (x * 2 ^ n) (y * 2 ^ n).
Proof. intros Hn. by rewrite <- !Z.shiftl_mul_pow2, Z.shiftl_lxor by done. Qed.

Lemma matrix_times_rows k n : forall m v r, 0 <= m -> 0 <= v < 2 ^ Z.of_nat n ->
  matrix_times_loop ((fun i => bit_loop k (2 ^ i)) <$> seqZ m (Z.of_nat n)) v r = Z.lxor r (bit_loop k (v * 2 ^ m)).
Proof.
  induction n as [|n IH]; intros m v r Hm Hv.
  - assert (v = 0) as -> by (change (2 ^ Z.of_nat 0) with 1 in Hv; lia). cbn. by rewrite bit_loop_0, Z.lxor_0_r.
  - rewrite seqZ_cons by lia. rewrite fmap_cons. cbn [matrix_times_loop].
    destruct (v =? 0) eqn:Ev; guards; [subst v; by rewrite Z.mul_0_l, bit_loop_0, Z.lxor_0_r|].
    replace (Z.pred (Z.of_nat (S n))) with (Z.of_nat n) by lia.
    rewrite IH; [|lia|]. 2: {
      rewrite Z.shiftr_div_pow2 by lia. rewrite Nat2Z.inj_succ, Z.pow_succ_r in Hv by lia.
      split; [apply Z.div_pos; lia|apply Z.div_lt_upper_bound; lia]. }
    rewrite (split_bit v) at 3 by lia. rewrite lxor_mul_pow2 by lia. rewrite bit_loop_lxor.
    replace (2 * Z.shiftr v 1 * 2 ^ m) with (Z.shiftr v 1 * 2 ^ Z.succ m) by (rewrite Z.pow_succ_r by lia; ring).
    destruct (land_1_cases v) as [-> | ->]; cbn [Z.eqb negb].
    + by rewrite Z.mul_0_l, bit_loop_0, Z.lxor_0_l.
    + by rewrite Z.mul_1_l, Z.lxor_assoc.
Qed.

Lemma times_rows k x : u32 x -> crc32c_matrix_times (rows k) x = bit_loop k x.
Proof.
  intros Hx. unfold crc32c_matrix_times, rows. pose proof (matrix_times_rows k 32 0 x 0) as H.
  change (Z.of_nat 32) with 32 in H. rewrite H; [by rewrite Z.lxor_0_l, Z.mul_1_r|lia|]. unfold u32, u32_max in Hx. lia.
Qed.

Lemma square_rows k : crc32c_matrix_square (rows k) = rows (k + k).
Proof.
  unfold crc32c_matrix_square, rows at 2 3. rewrite <- list_fmap_compose. apply list_fmap_ext.
  intros j i Hi. apply lookup_seqZ in Hi as [-> Hj]. cbn [compose]. rewrite times_rows; [symmetry; apply bit_loop_add|].
  apply bit_loop_u32. unfold u32, u32_max. pose proof (Z.pow_pos_nonneg 2 (0 + Z.of_nat j)).
  pose proof (Z.pow_le_mono_r 2 (0 + Z.of_nat j) 31). lia.
Qed.

Lemma odd_is_rows : crc_poly :: odd_rows 31 1 = rows 1.
Proof. vm_compute. reflexivity. Qed.

(** The loop applies the matrix of all the zero bytes. *)
Lemma combine_loop_spec fuel : forall k left n, u32 left -> 0 <= n < 2 ^ (2 * Z.of_nat fuel) ->
  combine_loop fuel (rows k) left n = bit_loop (2 * k * Z.to_nat n) left.
Proof.
  induction fuel as [|fuel IH]; intros k left n Hl Hn.
  - assert (n = 0) as -> by (change (2 ^ (2 * Z.of_nat 0)) with 1 in Hn; lia). cbn. by rewrite Nat.mul_0_r.
  - cbn [combine_loop]. rewrite !square_rows.
    assert (exists b q c, (b = 0 \/ b = 1)%nat /\ (c = 0 \/ c = 1)%nat /\ Z.land n 1 = Z.of_nat b /\ Z.shiftr n 1 = Z.of_nat (c + 2 * q) /\
      Z.land (Z.shiftr n 1) 1 = Z.of_nat c /\ Z.shiftr (Z.shiftr n 1) 1 = Z.of_nat q /\ Z.to_nat n = (b + 2 * (c + 2 * q))%nat)
      as (b & q & c & Hb & Hc & E1 & E2 & E3 & E4 & E5).
    { assert (forall x, Z.land x 1 = x mod 2) as Hland by (intros x; apply (Z.land_ones x 1); lia).
      assert (forall x, Z.shiftr x 1 = x / 2) as Hshr by (intros x; apply Z.shiftr_div_pow2; lia).
      exists (Z.to_nat (n mod 2)), (Z.to_nat (n / 2 / 2)), (Z.to_nat (n / 2 mod 2)). rewrite !Hshr, !Hland.
      pose proof (Z.mod_pos_bound n 2). pose proof (Z.mod_pos_bound (n / 2) 2). pose proof (Z.div_mod n 2). pose proof (Z.div_mod (n / 2) 2).
      pose proof (Z.div_pos n 2). pose proof (Z.div_pos (n / 2) 2). split_and!; lia. }
    assert (Z.of_nat q < 2 ^ (2 * Z.of_nat fuel)) as Hq.
    { replace (2 * Z.of_nat (S fuel)) with (2 + 2 * Z.of_nat fuel) in Hn by lia. rewrite Z.pow_add_r in Hn by lia. lia. }
    rewrite E1, E3, E4, E2, E5. set (l1 := if negb (Z.of_nat b =? 0) then _ else left).
    assert (l1 = bit_loop ((k + k) * b) left) as E6.
    { unfold l1. destruct Hb as [-> | ->]; cbn [Z.of_nat Z.eqb negb]; [by rewrite Nat.mul_0_r|]. rewrite times_rows by done. by rewrite Nat.mul_1_r. }
    assert (u32 l1) as Hl1 by (rewrite E6; by apply bit_loop_u32).
    destruct (Z.of_nat (c + 2 * q) =? 0) eqn:Ez; guards; [rewrite E6; f_equal; assert (c = 0 /\ q = 0)%nat as [-> ->] by lia; lia|].
    set (l2 := if negb (Z.of_nat c =? 0) then _ else l1).
    assert (l2 = bit_loop ((k + k + (k + k)) * c) l1) as E7.
    { unfold l2. destruct Hc as [-> | ->]; cbn [Z.of_nat Z.eqb negb]; [by rewrite Nat.mul_0_r|]. rewrite times_rows by done. by rewrite Nat.mul_1_r. }
    assert (u32 l2) as Hl2 by (rewrite E7; by apply bit_loop_u32).
    destruct (Z.of_nat q =? 0) eqn:Eq; guards.
    + rewrite E7, E6, <- bit_loop_add. f_equal. assert (q = 0%nat) as -> by lia. lia.
    + rewrite IH by (done || lia). rewrite Nat2Z.id, E7, E6, <- !bit_loop_add. f_equal. lia.
Qed.

Lemma combine_spec left right n : u32 left -> u64 n -> u32 right -> (n = 0 -> right = 0) ->
  crc32c_combine left right n = Z.lxor (bit_loop (8 * Z.to_nat n) left) right.
Proof.
  intros Hl Hn Hr H0. unfold crc32c_combine. destruct (n =? 0) eqn:E; guards.
  - subst n. rewrite (H0 eq_refl). cbn. by rewrite Z.lxor_0_r.
  - rewrite odd_is_rows, !square_rows. cbn [Nat.add]. rewrite combine_loop_spec; [done|done|].
    unfold u64, size_max in Hn. change (2 * Z.of_nat 33) with 66. lia.
Qed.

Lemma combine_exact a b : Forall is_byte a -> Forall is_byte b -> u64 (Z.of_nat (length b)) ->
  crc32c_combine (crc_of a) (crc_of b) (Z.of_nat (length b)) = crc_of (a ++ b).
Proof.
  intros Ha Hb Hl. rewrite combine_spec; [|apply crc_of_u32|done|apply crc_of_u32|].
  - by rewrite Nat2Z.id, crc_of_app.
  - destruct b; [by vm_compute|cbn [length]; lia].
Qed.

(** ** The instructions *)
Lemma le_bytes_value l : Forall is_byte l -> le_bytes (length l) (le_value l) = l.
Proof.
  induction 1 as [|b l Hb _ IH]; [done|]. cbn [length le_bytes le_value]. unfold is_byte in Hb.
  replace (b + 256 * le_value l) with (b + le_value l * 256) by lia.
  rewrite Z_mod_plus_full, Z.div_add, Z.mod_small, Z.div_small by lia. by rewrite Z.add_0_l, IH.
Qed.

Lemma le_value_bound l : Forall is_byte l -> 0 <= le_value l < 2 ^ (8 * Z.of_nat (length l)).
Proof.
  intros Hl. pose proof (le_value_bytes (length l) (le_value l)) as H. rewrite le_bytes_value in H by done.
  rewrite H. apply Z.mod_pos_bound. apply Z.pow_pos_nonneg; lia.
Qed.

Section hardware.
Context `{!Crc32Isa} `{!Crc32IsaSpec _}.

(** A word of the input, through one instruction. *)
Lemma word_step c l : u32 c -> Forall is_byte l -> length l = 8%nat ->
  wrap32 (mm_crc32_u64 c (le_value l)) = crc32c_update_software c l.
Proof.
  intros Hc Hl Hlen. pose proof (le_value_bound l Hl) as Hb. rewrite Hlen in Hb.
  rewrite crc32_u64_spec by done. pose proof (le_bytes_value l Hl) as E. rewrite Hlen in E. rewrite E. apply wrap32_id. by apply update_u32.
Qed.

Lemma hardware_words_spec fuel : forall c bytes, u32 c -> Forall is_byte bytes -> (length bytes <= fuel)%nat ->
  exists c' rest, hardware_words fuel c bytes = (c', rest) /\ u32 c' /\ Forall is_byte rest /\ (length rest < 8)%nat /\
    crc32c_update_software c' rest = crc32c_update_software c bytes.
Proof.
  induction fuel as [|fuel IH]; intros c bytes Hc Hb Hl; cbn [hardware_words].
  - exists c, bytes. split_and!; try done. lia.
  - destruct (8 <=? Z.of_nat (length bytes)) eqn:E; guards; [|exists c, bytes; split_and!; try done; lia].
    assert (Forall is_byte (take 8 bytes)) as Ht by (by apply Forall_take).
    rewrite word_step by (done || rewrite length_take; lia).
    destruct (IH (crc32c_update_software c (take 8 bytes)) (drop 8 bytes)) as (c' & rest & -> & H1 & H2 & H3 & H4).
    + by apply update_u32.
    + by apply Forall_drop.
    + rewrite length_drop. lia.
    + exists c', rest. split_and!; try done. rewrite H4, <- update_app. by rewrite take_drop.
Qed.

Lemma hardware_update c bytes : u32 c -> Forall is_byte bytes ->
  crc32c_update_hardware c bytes = crc32c_update_software c bytes.
Proof.
  intros Hc Hb. unfold crc32c_update_hardware.
  destruct (hardware_words_spec (length bytes) c bytes Hc Hb ltac:(lia)) as (c1 & r1 & -> & U1 & B1 & L1 & <-).
  set (p := if 4 <=? Z.of_nat (length r1) then _ else _).
  assert (exists c2 r2, p = (c2, r2) /\ u32 c2 /\ Forall is_byte r2 /\ (length r2 < 4)%nat /\
    crc32c_update_software c2 r2 = crc32c_update_software c1 r1) as (c2 & r2 & -> & U2 & B2 & L2 & <-).
  { unfold p. destruct (4 <=? Z.of_nat (length r1)) eqn:E; guards; [|exists c1, r1; split_and!; try done; lia].
    assert (Forall is_byte (take 4 r1)) as Ht by (by apply Forall_take). pose proof (le_value_bound _ Ht) as Hv.
    assert (length (take 4 r1) = 4%nat) as Hlen by (rewrite length_take; lia). rewrite Hlen in Hv.
    rewrite crc32_u32_spec by done. pose proof (le_bytes_value _ Ht) as Ev. rewrite Hlen in Ev. rewrite Ev. eexists _, _. split; [reflexivity|].
    split_and!; [by apply update_u32|by apply Forall_drop|rewrite length_drop; lia|]. rewrite <- update_app. by rewrite take_drop. }
  set (p := if 2 <=? Z.of_nat (length r2) then _ else _).
  assert (exists c3 r3, p = (c3, r3) /\ u32 c3 /\ Forall is_byte r3 /\ (length r3 < 2)%nat /\
    crc32c_update_software c3 r3 = crc32c_update_software c2 r2) as (c3 & r3 & -> & U3 & B3 & L3 & <-).
  { unfold p. destruct (2 <=? Z.of_nat (length r2)) eqn:E; guards; [|exists c2, r2; split_and!; try done; lia].
    assert (Forall is_byte (take 2 r2)) as Ht by (by apply Forall_take). pose proof (le_value_bound _ Ht) as Hv.
    assert (length (take 2 r2) = 2%nat) as Hlen by (rewrite length_take; lia). rewrite Hlen in Hv.
    rewrite crc32_u16_spec by done. pose proof (le_bytes_value _ Ht) as Ev. rewrite Hlen in Ev. rewrite Ev. eexists _, _. split; [reflexivity|].
    split_and!; [by apply update_u32|by apply Forall_drop|rewrite length_drop; lia|]. rewrite <- update_app. by rewrite take_drop. }
  destruct r3 as [|b [|]]; [done| |cbn in L3; lia]. apply Forall_cons in B3 as [Hb3 _]. unfold is_byte in Hb3.
  rewrite crc32_u8_spec by done. cbn [le_bytes]. by rewrite Z.mod_small by lia.
Qed.

(** ** Three streams *)
Lemma three_way_spec words : forall off block bytes a b c,
  Forall is_byte bytes -> u32 a -> u32 b -> u32 c -> 0 <= off -> 0 <= block ->
  2 * block + off + 8 * Z.of_nat words <= Z.of_nat (length bytes) ->
  three_way_loop words off block bytes (a, b, c) =
    (crc32c_update_software a (take (8 * words) (drop (Z.to_nat off) bytes)),
     crc32c_update_software b (take (8 * words) (drop (Z.to_nat (block + off)) bytes)),
     crc32c_update_software c (take (8 * words) (drop (Z.to_nat (2 * block + off)) bytes))).
Proof.
  induction words as [|words IH]; intros off block bytes a b c Hb Ha Hb' Hc Ho Hbl Hlen; [done|].
  cbn [three_way_loop]. unfold word_at.
  assert (forall c0 o, u32 c0 -> 0 <= o -> o + 8 <= Z.of_nat (length bytes) ->
    wrap32 (mm_crc32_u64 c0 (le_value (take 8 (drop (Z.to_nat o) bytes)))) =
      crc32c_update_software c0 (take 8 (drop (Z.to_nat o) bytes)) /\
    u32 (crc32c_update_software c0 (take 8 (drop (Z.to_nat o) bytes)))) as Hw.
  { intros c0 o Hc0 Ho0 Hlo. split; [|apply update_u32; [by apply Forall_take, Forall_drop|done]].
    apply word_step; [done|by apply Forall_take, Forall_drop|]. rewrite length_take, length_drop. lia. }
  destruct (Hw a off) as [-> Ua]; [done|lia|lia|]. destruct (Hw b (block + off)) as [-> Ub]; [done|lia|lia|].
  destruct (Hw c (2 * block + off)) as [-> Uc]; [done|lia|lia|].
  rewrite IH by (done || lia). assert (forall o, 0 <= o -> take 8 (drop (Z.to_nat o) bytes) ++ take (8 * words) (drop (Z.to_nat (o + 8)) bytes)
    = take (8 * S words) (drop (Z.to_nat o) bytes)) as Hj.
  { intros o Ho'. replace (Z.to_nat (o + 8)) with (Z.to_nat o + 8)%nat by lia. rewrite <- drop_drop.
    replace (8 * S words)%nat with (8 + 8 * words)%nat by lia. by rewrite take_take_drop. }
  rewrite <- !update_app. replace (block + (off + 8)) with (block + off + 8) by lia.
  replace (2 * block + (off + 8)) with (2 * block + off + 8) by lia. by rewrite !Hj by lia.
Qed.

Lemma block_spec q : 0 <= q <= size_max -> exists w, Z.land q (wrap64 (Z.lnot 7)) = 8 * w /\ 0 <= w /\ 8 * w <= q.
Proof.
  intros Hq. exists (q / 8). assert (Z.land q (wrap64 (Z.lnot 7)) = Z.ldiff q 7) as ->.
  { unfold wrap64. rewrite <- Z.land_ones by lia. apply Z.bits_inj'. intros k Hk. rewrite !Z.land_spec, Z.ldiff_spec, Z.lnot_spec by lia.
    assert (q = Z.land q (Z.ones 64)) as E by (rewrite Z.land_ones by lia; rewrite Z.mod_small; unfold size_max in Hq; lia).
    assert (Z.testbit q k = Z.testbit q k && Z.testbit (Z.ones 64) k) as Eq by (rewrite E at 1; apply Z.land_spec). revert Eq.
    by destruct (Z.testbit q k), (Z.testbit 7 k), (Z.testbit (Z.ones 64) k). }
  change 7 with (Z.ones 3). rewrite Z.ldiff_ones_r, Z.shiftl_mul_pow2, Z.shiftr_div_pow2 by lia. change (2 ^ 3) with 8.
  pose proof (Z.div_mod q 8 ltac:(lia)). pose proof (Z.mod_pos_bound q 8 ltac:(lia)). split_and!; lia.
Qed.

Lemma three_way_exact bytes : Forall is_byte bytes -> u64 (Z.of_nat (length bytes)) ->
  crc32c_three_way_hardware bytes = crc_of bytes.
Proof.
  intros Hb Hl. unfold crc32c_three_way_hardware. set (size := Z.of_nat (length bytes)) in *.
  assert (0 <= size / 3 /\ 3 * (size / 3) <= size) as [Hd0 Hd1].
  { pose proof (Z.div_mod size 3 ltac:(lia)). pose proof (Z.mod_pos_bound size 3 ltac:(lia)). pose proof (Z.div_pos size 3). lia. }
  destruct (block_spec (size / 3)) as (w & -> & Hw & Hle); [unfold u64 in Hl; lia|].
  replace (8 * w / 8) with w by (rewrite Z.mul_comm, Z.div_mul; lia).
  rewrite three_way_spec by (done || apply not32_u32 || lia). cbv zeta. set (n := Z.to_nat (8 * w)).
  replace (8 * Z.to_nat w)%nat with n by lia. replace (Z.to_nat 0) with 0%nat by done. rewrite drop_0.
  replace (Z.to_nat (8 * w + 0)) with n by lia. replace (Z.to_nat (2 * (8 * w) + 0)) with (n + n)%nat by lia.
  replace (Z.to_nat (3 * (8 * w))) with (n + n + n)%nat by lia.
  rewrite (take_ge (drop (n + n + n) bytes)) by (rewrite length_drop; lia).
  assert (forall k, Forall is_byte (drop k bytes)) as Hdrop by (intros; by apply Forall_drop).
  assert (forall k, Forall is_byte (take n (drop k bytes))) as Htake by (intros; by apply Forall_take).
  rewrite hardware_update by (done || (apply update_u32; [done|apply not32_u32])). rewrite <- update_app.
  rewrite <- (drop_drop bytes n (n + n)), take_drop.
  fold (crc_of (take n bytes)) (crc_of (take n (drop n bytes))) (crc_of (drop (n + n) bytes)).
  assert (Forall is_byte (take n bytes)) as Ht0 by (by apply Forall_take).
  replace (8 * w) with (Z.of_nat (length (take n (drop n bytes)))) at 1 by (rewrite length_take, length_drop; lia).
  rewrite combine_exact by (done || (rewrite length_take, length_drop; unfold u64 in *; lia)).
  replace (size - 2 * (8 * w)) with (Z.of_nat (length (drop (n + n) bytes))) by (rewrite length_drop; lia).
  rewrite combine_exact; [|by apply Forall_app|done|rewrite length_drop; unfold u64 in *; lia].
  f_equal. rewrite <- drop_drop. by rewrite <- app_assoc, !take_drop.
Qed.
End hardware.

Section paths.
Context `{!Crc32Isa} `{!Crc32IsaSpec _}.

Lemma update_paths hardware c bytes : u32 c -> Forall is_byte bytes ->
  crc32c_update hardware c bytes = crc32c_update_software c bytes.
Proof. intros Hc Hb. unfold crc32c_update. destruct hardware; [by apply hardware_update|done]. Qed.

Lemma crc32c_exact hardware bytes : Forall is_byte bytes -> u64 (Z.of_nat (length bytes)) ->
  crc32c hardware bytes = crc_of bytes.
Proof.
  intros Hb Hl. unfold crc32c. destruct (hardware && _); [by apply three_way_exact|].
  rewrite update_paths by (done || apply not32_u32). done.
Qed.

Lemma parts_exact hardware parts : Forall (Forall is_byte) (default [] <$> parts) ->
  crc32c_parts hardware parts = crc_of (concat (default [] <$> parts)).
Proof.
  intros Hp. unfold crc32c_parts, crc_of. f_equal. pose proof (not32_u32 0) as Hc. revert Hp Hc. generalize (not32 0) as c.
  induction parts as [|part parts IH]; intros c Hp Hc; [done|]. rewrite fmap_cons in Hp |- *. apply Forall_cons in Hp as [Hd Hp].
  cbn [foldl concat]. rewrite update_app. destruct part as [[|b l]|]; cbn [default id] in *; [by apply IH| |by apply IH].
  rewrite update_paths by done. apply IH; [done|]. by apply update_u32.
Qed.
End paths.

(** C29: One checksum on every path: bit by bit, word by word with the instructions, in
    three interleaved streams, or part by part, [crc32c] is the CRC-32C of the whole
    byte string; and [crc32c_combine] of two checksums is the checksum of the
    concatenation. *)
Theorem crc32c_paths_agree `{!Crc32Isa} `{!Crc32IsaSpec _} hardware bytes parts more :
  Forall is_byte bytes -> u64 (Z.of_nat (length bytes)) -> Forall (Forall is_byte) (default [] <$> parts) ->
  Forall is_byte more ->
  crc32c hardware bytes = not32 (crc32c_update_software (not32 0) bytes) /\
  (u64 (Z.of_nat (length (concat (default [] <$> parts)))) ->
   crc32c_parts hardware parts = crc32c hardware (concat (default [] <$> parts))) /\
  (u64 (Z.of_nat (length (more ++ bytes))) ->
   crc32c_combine (crc32c hardware more) (crc32c hardware bytes) (Z.of_nat (length bytes)) = crc32c hardware (more ++ bytes)).
Proof.
  intros Hb Hl Hp Hm. split_and!.
  - by apply crc32c_exact.
  - intros Hlen. rewrite parts_exact by done. rewrite crc32c_exact; [done| |done]. by apply Forall_concat.
  - intros Hlen. rewrite length_app in Hlen. unfold u64 in *.
    rewrite !crc32c_exact; [by apply combine_exact|by apply Forall_app|unfold u64; rewrite length_app; lia|done|done|done|unfold u64; lia].
Qed.

(** ** Bursts *)
Lemma bit_step_zero x : u32 x -> bit_step x = 0 -> x = 0.
Proof.
  intros Hx. rewrite bit_step_odd. pose proof (shiftr_range x Hx) as Hr. destruct (Z.odd x) eqn:Eo; intros H.
  - apply Z.lxor_eq in H. rewrite H in Hr. unfold crc_poly in Hr. lia.
  - rewrite Z.lxor_0_r, Z.shiftr_div_pow2 in H by lia. change (2 ^ 1) with 2 in H.
    pose proof (Z.div_mod x 2 ltac:(lia)) as Hd. rewrite Zmod_odd, Eo in Hd. lia.
Qed.

Lemma bit_loop_inj n : forall x y, u32 x -> u32 y -> bit_loop n x = bit_loop n y -> x = y.
Proof.
  induction n as [|n IH]; intros x y Hx Hy H; [done|]. cbn [bit_loop] in H.
  apply IH in H; [|by apply bit_step_u32..]. apply Z.lxor_eq. apply bit_step_zero; [by apply lxor_u32|].
  rewrite bit_step_lxor, H. apply Z.lxor_nilpotent.
Qed.

Lemma bit_loop_shiftl n v : bit_loop n (Z.shiftl v (Z.of_nat n)) = v.
Proof.
  induction n as [|n IH]; [apply Z.shiftl_0_r|]. cbn [bit_loop]. rewrite bit_step_odd.
  assert (Z.odd (Z.shiftl v (Z.of_nat (S n))) = false) as ->.
  { rewrite <- Z.bit0_odd. apply Z.shiftl_spec_low. lia. }
  rewrite Z.lxor_0_r, Z.shiftr_shiftl_l by lia. replace (Z.of_nat (S n) - 1) with (Z.of_nat n) by lia. exact IH.
Qed.

(** Bytes enter the checksum as one little-endian number. *)
Lemma update_value bytes : Forall is_byte bytes -> forall c,
  crc32c_update_software c bytes = bit_loop (8 * length bytes) (Z.lxor c (le_value bytes)).
Proof.
  induction 1 as [|b bytes Hb Hbs IH]; intros c; cbn [le_value length]; [by rewrite Z.lxor_0_r|].
  cbn [crc32c_update_software foldl]. fold (crc32c_update_software (bit_loop 8 (Z.lxor c b)) bytes). rewrite IH.
  replace (8 * S (length bytes))%nat with (8 + 8 * length bytes)%nat by lia. rewrite bit_loop_add. f_equal.
  assert (b + 256 * le_value bytes = Z.lxor b (Z.shiftl (le_value bytes) (Z.of_nat 8))) as ->.
  { rewrite Z.shiftl_mul_pow2 by lia. change (2 ^ Z.of_nat 8) with 256. rewrite (Z.mul_comm 256). unfold is_byte in Hb.
    rewrite Z.add_nocarry_lxor; [done|]. apply Z.bits_inj'. intros k Hk. rewrite Z.land_spec, Z.bits_0.
    destruct (decide (k < 8)).
    - replace (le_value bytes * 256) with (le_value bytes * 2 ^ 8) by done. rewrite Z.mul_pow2_bits_low by lia. by rewrite andb_false_r.
    - rewrite (Z.bits_above_log2 b); [done|lia|]. destruct (decide (b = 0)) as [->|]; [cbn; lia|].
      apply Z.log2_lt_pow2; [lia|]. pose proof (Z.pow_le_mono_r 2 8 k). lia. }
  rewrite <- (bit_loop_shiftl 8 (le_value bytes)) at 1. rewrite <- bit_loop_lxor. by rewrite Z.lxor_assoc.
Qed.

Lemma update_inj bytes c c' : u32 c -> u32 c' -> crc32c_update_software c bytes = crc32c_update_software c' bytes -> c = c'.
Proof.
  intros Hc Hc' E. apply Z.lxor_eq. apply (bit_loop_inj (8 * length bytes)); [by apply lxor_u32|by vm_compute|].
  rewrite bit_loop_0. pose proof (update_lxor bytes c (Z.lxor c c')) as H.
  rewrite <- Z.lxor_assoc, Z.lxor_nilpotent, Z.lxor_0_l, <- E in H.
  apply (f_equal (Z.lxor (crc32c_update_software c bytes))) in H. by rewrite Z.lxor_nilpotent, <- Z.lxor_assoc, Z.lxor_nilpotent, Z.lxor_0_l in H.
Qed.

(** A burst of at most 32 bits is always detected: two byte strings that differ only
    inside four consecutive bytes have different checksums, on every path. *)
Theorem crc32c_detects_bursts `{!Crc32Isa} `{!Crc32IsaSpec _} hardware before burst burst' after :
  Forall is_byte (before ++ burst ++ after) -> Forall is_byte burst' -> length burst' = length burst ->
  (length burst <= 4)%nat -> u64 (Z.of_nat (length (before ++ burst ++ after))) -> burst <> burst' ->
  crc32c hardware (before ++ burst ++ after) <> crc32c hardware (before ++ burst' ++ after).
Proof.
  intros Hb Hb' Hl H4 Hlen Hne E. apply Forall_app in Hb as [H1 Hb]. apply Forall_app in Hb as [H2 H3].
  rewrite !crc32c_exact in E; [|by repeat (apply Forall_app; split)|rewrite !length_app in *; rewrite Hl; done|
    by repeat (apply Forall_app; split)|done].
  apply Hne. rewrite <- (le_bytes_value burst H2), <- (le_bytes_value burst' Hb'), Hl. f_equal.
  unfold crc_of in E. rewrite !update_app in E. set (c := crc32c_update_software (not32 0) before) in *.
  assert (u32 c) as Hc by (apply update_u32; [done|apply not32_u32]).
  assert (forall l, Forall is_byte l -> (length l <= 4)%nat -> u32 (le_value l)) as Hv.
  { intros l Hbl Hll. pose proof (le_value_bound l Hbl). pose proof (Z.pow_le_mono_r 2 (8 * Z.of_nat (length l)) 32).
    unfold u32, u32_max. lia. }
  assert (forall l, Forall is_byte l -> u32 (crc32c_update_software c l)) as Hu by (intros; by apply update_u32).
  apply (f_equal not32) in E. rewrite !not32_involutive in E by (apply update_u32; auto).
  apply update_inj in E; [|by apply Hu..]. rewrite !update_value, Hl in E by done.
  apply bit_loop_inj in E.
  - apply (f_equal (Z.lxor c)) in E. by rewrite <- !Z.lxor_assoc, Z.lxor_nilpotent, !Z.lxor_0_l in E.
  - apply lxor_u32; [done|]. by apply Hv.
  - apply lxor_u32; [done|]. apply Hv; [done|lia].
Qed.

(** ** The check value of CRC-32C *)
#[export] Instance software_isa : Crc32Isa := {|
  mm_crc32_u8 crc w := crc32c_update_software crc (le_bytes 1 w);
  mm_crc32_u16 crc w := crc32c_update_software crc (le_bytes 2 w);
  mm_crc32_u32 crc w := crc32c_update_software crc (le_bytes 4 w);
  mm_crc32_u64 crc w := crc32c_update_software crc (le_bytes 8 w);
|}.

#[export] Instance software_isa_spec : Crc32IsaSpec software_isa.
Proof. by split. Qed.

(** "123456789" *)
Definition check_bytes : list Z := [49; 50; 51; 52; 53; 54; 55; 56; 57].

Lemma check_bytes_ok : Forall is_byte check_bytes.
Proof. unfold is_byte, check_bytes. repeat (constructor; [lia|]). constructor. Qed.

Lemma crc32c_paths_agree_witness :
  crc32c true check_bytes = 0xE3069283 /\ crc32c_parts true [Some [49; 50; 51]; None; Some [52; 53; 54; 55; 56; 57]] = 0xE3069283.
Proof.
  destruct (crc32c_paths_agree true check_bytes [Some [49; 50; 51]; None; Some [52; 53; 54; 55; 56; 57]] []) as (H1 & H2 & _).
  - exact check_bytes_ok.
  - vm_compute. split; congruence.
  - cbn. unfold is_byte. repeat (constructor; [repeat (constructor; [lia|]); constructor|]). constructor.
  - constructor.
  - split.
    + rewrite H1. vm_compute. reflexivity.
    + rewrite H2; [|vm_compute; split; congruence]. change (concat _) with check_bytes. rewrite H1. vm_compute. reflexivity.
Defined.

Lemma crc32c_detects_bursts_witness : crc32c true check_bytes <> crc32c true [49; 50; 51; 0; 53; 54; 56; 56; 57].
Proof.
  apply (crc32c_detects_bursts true [49; 50; 51] [52; 53; 54; 55] [0; 53; 54; 56] [56; 57]).
  - exact check_bytes_ok.
  - unfold is_byte. repeat (constructor; [lia|]). constructor.
  - reflexivity.
  - cbn. lia.
  - vm_compute. split; congruence.
  - congruence.
Defined.
