(* ===== verification/DiskFormat.v ===== *)
(** * targets/qwen3_6/impl/runtime/kv_disk_format.h, kv_disk_cache.cpp: the files of the disk tier

    The images the disk cache writes: the fingerprint of the model a store belongs to,
    the metadata of an entry, the tombstone of an evicted one, the object-map journal
    and its base, and the set of packs.  Enumerations are their underlying codes,
    because the decoders cast raw bytes.  A float is its bit pattern. *)

From stdpp Require Import prelude list list_numbers sorting.
From Stdlib Require Import ZArith Lia.
From S2P Require Import Prelude.
From S2P Require Import Bytes.
From S2P Require Import Codec.
From S2P Require Import Tensor.
From S2P Require Import PagedPool.
From S2P Require Import PrefixIdentity.
From S2P Require Import Crc32c.
#[local] Open Scope Z_scope.

(** ** OutBuf: the bytes each call appends *)
Definition OutBuf_u8 (v : Z) : list Z := [wrap8 v].
Definition OutBuf_u16 (v : Z) : list Z := OutBuf_u8 v ++ OutBuf_u8 (Z.shiftr v 8).
Definition OutBuf_u32 (v : Z) : list Z :=
  OutBuf_u8 v ++ OutBuf_u8 (Z.shiftr v 8) ++ OutBuf_u8 (Z.shiftr v 16) ++ OutBuf_u8 (Z.shiftr v 24).
Definition OutBuf_i32 (v : Z) : list Z := OutBuf_u32 (wrap32 v).
Definition OutBuf_u64 (v : Z) : list Z := concat ((fun s => OutBuf_u8 (Z.shiftr v s)) <$> byte_shifts).
Definition OutBuf_str (s : list Z) : list Z := OutBuf_u32 (wrap32 (Z.of_nat (length s))) ++ s.
Definition OutBuf_bool (b : bool) : list Z := OutBuf_u8 (if b then 1 else 0).

(** ** InBuf: what lies between [p] and [end] *)
Definition InBuf_u8 : st InCursor Z :=
  fun r => match r with [] => (Throw runtime_error, r) | b :: r => (Ok b, r) end.

Definition InBuf_u16 : st InCursor Z := a ← InBuf_u8; b ← InBuf_u8; mret (Z.lor a (Z.shiftl b 8)).

Definition InBuf_u32 : st InCursor Z :=
  a ← InBuf_u8; b ← InBuf_u8; c ← InBuf_u8; d ← InBuf_u8;
  mret (Z.lor (Z.lor (Z.lor a (Z.shiftl b 8)) (Z.shiftl c 16)) (Z.shiftl d 24)).

Definition InBuf_i32 : st InCursor Z := v ← InBuf_u32; mret (to_i32 v).

Fixpoint InBuf_u64_loop (v : Z) (shifts : list Z) : st InCursor Z :=
  match shifts with
  | [] => mret v
  | s :: shifts => b ← InBuf_u8; InBuf_u64_loop (Z.lor v (Z.shiftl b s)) shifts
  end.

Definition InBuf_u64 : st InCursor Z := InBuf_u64_loop 0 byte_shifts.

Definition InBuf_str : st InCursor (list Z) :=
  n ← InBuf_u32;
  r ← get;
  st_throw_if (Z.of_nat (length r) <? n) runtime_error ;;
  put (drop (Z.to_nat n) r) ;;
  mret (take (Z.to_nat n) r).

Definition InBuf_skip (n : Z) : st InCursor unit :=
  r ← get;
  st_throw_if (Z.of_nat (length r) <? n) runtime_error ;;
  put (drop (Z.to_nat n) r).

Definition InBuf_bool : st InCursor bool := v ← InBuf_u8; mret (negb (v =? 0)).

Fixpoint InBuf_repeat {A} (n : nat) (read : st InCursor A) : st InCursor (list A) :=
  match n with
  | O => mret []
  | S n => x ← read; xs ← InBuf_repeat n read; mret (x :: xs)
  end.

(** ** kv_disk_format.h *)
Definition kDiskFingerprintMagic : list Z := [78; 73; 68; 75; 70; 80; 48; 49].
Definition kDiskMetaMagic : list Z := [78; 73; 68; 75; 77; 84; 48; 49].
Definition kDiskTombstoneMagic : list Z := [78; 73; 68; 75; 84; 66; 48; 49].
Definition kDiskPackSetMagic : list Z := [78; 73; 68; 75; 80; 83; 48; 49].
Definition kDiskObjectMapMagic : list Z := [78; 73; 68; 75; 79; 77; 48; 49].
Definition kDiskFormatVersion : Z := 8.
Definition kDiskPageIoAlignment : Z := 4096.
Definition kDiskFingerprintPlaneBytes : Z := 20.

(** [DiskMapRecordKind] *)
Definition MapPut : Z := 1.
Definition MapDelete : Z := 2.
Definition MapMove : Z := 3.

(** [DiskObjectKind] *)
Definition KindMain : Z := 0.
Definition KindBackend : Z := 1.
Definition KindState : Z := 2.
Definition KindLedger : Z := 3.
Definition KindIdentity : Z := 4.

Record DiskCheckpointSlot : Type := MkSlot {
  sl_frontier : Z;
  sl_hash : PrefixHash128;
  sl_kind : Z;
  sl_gdn_id : Z;
  sl_hidden_id : Z;
  sl_dflash_id : Z;
}.

Record DiskPlaneSchema : Type := MkSchema {
  ps_dtype : DType;
  ps_order : PagedKVPlaneOrder;
  ps_leading_extent : Z;
  ps_head_extent : Z;
  ps_page_bytes : Z;
}.

Record DiskFingerprint : Type := MkFingerprint {
  fp_artifact_tensor_identity : list Z;
  fp_model_id : list Z;
  fp_weights_id : list Z;
  fp_kv_cache : Z;
  fp_speculative : Z;
  fp_sage_attn : bool;
  fp_keep_frac : Z;
  fp_xattn_tau : Z;
  fp_xattn_min_len : Z;
  fp_page_size : Z;
  fp_gdn_conv_bytes : Z;
  fp_gdn_recurrent_bytes : Z;
  fp_cyclic_lane_bytes : Z;
  fp_cyclic_layers : Z;
  fp_cyclic_capacity : Z;
  fp_cyclic_padded : Z;
  fp_cyclic_kv_heads : Z;
  fp_cyclic_head_dim : Z;
  fp_snapshot_version : Z;
  fp_text_planes : list DiskPlaneSchema;
  fp_backend_planes : list DiskPlaneSchema;
}.

Record DiskMeta : Type := MkMeta {
  m_entry_id : Z;
  m_execution_frontier : Z;
  m_ledger_frontier : Z;
  m_rope_delta : Z;
  m_text_kv_valid : Z;
  m_mtp_kv_valid : Z;
  m_dflash_context_frontier : Z;
  m_tail_hidden_valid : bool;
  m_rewrite_valid : bool;
  m_rewrite_kind : Z;
  m_hash_c_valid : bool;
  m_rewrite_frontier : Z;
  m_hash_f : PrefixHash128;
  m_hash_c : PrefixHash128;
  m_ledger_id : Z;
  m_identity_id : Z;
  m_current_gdn_id : Z;
  m_current_hidden_id : Z;
  m_current_cyclic_id : Z;
  m_rewrite_gdn_id : Z;
  m_rewrite_hidden_id : Z;
  m_rewrite_cyclic_id : Z;
  m_rollback : DiskCheckpointSlot;
  m_ladder0 : DiskCheckpointSlot;
  m_ladder1 : DiskCheckpointSlot;
  m_main_page_ids : list Z;
  m_backend_page_ids : list Z;
}.

Definition dtype_code (d : DType) : Z :=
  match d with BF16 => 0 | FP32 => 1 | I32 => 2 | U8 => 3 | I64 => 4 | I8 => 5 | FP16 => 6 | FP8_E4M3FN => 7 end.

Definition dtype_of_code (c : Z) : option DType :=
  head (filter (fun d => dtype_code d = c) [BF16; FP32; I32; U8; I64; I8; FP16; FP8_E4M3FN]).

Definition order_code (o : PagedKVPlaneOrder) : Z := match o with PageMajor => 0 | HeadMajor => 1 end.

Definition order_of_code (c : Z) : option PagedKVPlaneOrder :=
  if c =? 0 then Some PageMajor else if c =? 1 then Some HeadMajor else None.

(** ** Fingerprint *)

(** [bytes *= extent], checked. *)
Definition schema_times (bytes extent : Z) : res Z :=
  throw_if (size_max / extent <? bytes) runtime_error ;; Ok (bytes * extent).

Definition plane_schema_bytes (dtype : DType) (page_size leading_extent head_extent : Z) : res Z :=
  throw_if ((page_size =? 0) || (leading_extent <=? 0) || (head_extent <=? 0)) runtime_error ;;
  res_foldl schema_times [page_size; leading_extent; head_extent] (dtype_size dtype).

Definition encode_plane_schema (plane : DiskPlaneSchema) : list Z :=
  OutBuf_u8 (dtype_code (ps_dtype plane)) ++ OutBuf_u8 (order_code (ps_order plane)) ++ OutBuf_u16 0 ++
  OutBuf_i32 (ps_leading_extent plane) ++ OutBuf_i32 (ps_head_extent plane) ++ OutBuf_u64 (ps_page_bytes plane).

Definition decode_plane_schema (page_size : Z) : st InCursor DiskPlaneSchema :=
  dtype_raw ← InBuf_u8;
  order_raw ← InBuf_u8;
  zero ← InBuf_u16;
  match dtype_of_code dtype_raw, order_of_code order_raw with
  | Some dtype, Some order =>
      st_throw_if (negb (zero =? 0)) runtime_error ;;
      leading_extent ← InBuf_i32;
      head_extent ← InBuf_i32;
      page_bytes ← InBuf_u64;
      bytes ← lift (plane_schema_bytes dtype page_size leading_extent head_extent);
      st_throw_if (negb (page_bytes =? bytes)) runtime_error ;;
      mret (MkSchema dtype order leading_extent head_extent page_bytes)
  | _, _ => throw runtime_error
  end.

Definition encode_fingerprint (fp : DiskFingerprint) : res (list Z) :=
  let text_planes := Z.of_nat (length (fp_text_planes fp)) in
  let backend_planes := Z.of_nat (length (fp_backend_planes fp)) in
  throw_if ((u32_max <? text_planes) || (u32_max <? backend_planes)) logic_error ;;
  Ok (kDiskFingerprintMagic ++ OutBuf_u32 kDiskFormatVersion ++ OutBuf_str (fp_model_id fp) ++
      OutBuf_str (fp_weights_id fp) ++ OutBuf_str (fp_artifact_tensor_identity fp) ++ OutBuf_u8 (fp_kv_cache fp) ++
      OutBuf_u8 (fp_speculative fp) ++ OutBuf_bool (fp_sage_attn fp) ++ OutBuf_u32 (fp_keep_frac fp) ++
      OutBuf_u32 (fp_xattn_tau fp) ++ OutBuf_i32 (fp_xattn_min_len fp) ++ OutBuf_u32 (fp_page_size fp) ++
      OutBuf_u32 text_planes ++ OutBuf_u32 backend_planes ++ OutBuf_u64 (fp_gdn_conv_bytes fp) ++
      OutBuf_u64 (fp_gdn_recurrent_bytes fp) ++ OutBuf_u64 (fp_cyclic_lane_bytes fp) ++ OutBuf_u32 (fp_cyclic_layers fp) ++
      OutBuf_u32 (fp_cyclic_capacity fp) ++ OutBuf_u32 (fp_cyclic_padded fp) ++ OutBuf_i32 (fp_cyclic_kv_heads fp) ++
      OutBuf_i32 (fp_cyclic_head_dim fp) ++ OutBuf_u32 (fp_snapshot_version fp) ++
      concat (encode_plane_schema <$> fp_text_planes fp) ++ concat (encode_plane_schema <$> fp_backend_planes fp)).

Definition fingerprint_body : st InCursor DiskFingerprint :=
  version ← InBuf_u32;
  st_throw_if (negb (version =? kDiskFormatVersion)) runtime_error ;;
  model_id ← InBuf_str; weights_id ← InBuf_str; artifact ← InBuf_str;
  kv_cache ← InBuf_u8; speculative ← InBuf_u8; sage ← InBuf_bool;
  keep_frac ← InBuf_u32; tau ← InBuf_u32; min_len ← InBuf_i32; page_size ← InBuf_u32;
  text_plane_count ← InBuf_u32; backend_plane_count ← InBuf_u32;
  conv ← InBuf_u64; recurrent ← InBuf_u64; lane_bytes ← InBuf_u64;
  layers ← InBuf_u32; capacity ← InBuf_u32; padded ← InBuf_u32;
  kv_heads ← InBuf_i32; head_dim ← InBuf_i32; snapshot ← InBuf_u32;
  r ← get;
  let plane_count := text_plane_count + backend_plane_count in
  st_throw_if ((2 ^ 20 <? plane_count) || (Z.of_nat (length r) / kDiskFingerprintPlaneBytes <? plane_count)) runtime_error ;;
  text ← InBuf_repeat (Z.to_nat text_plane_count) (decode_plane_schema page_size);
  backend ← InBuf_repeat (Z.to_nat backend_plane_count) (decode_plane_schema page_size);
  r ← get;
  st_throw_if (negb (Z.of_nat (length r) =? 0)) runtime_error ;;
  mret (MkFingerprint artifact model_id weights_id kv_cache speculative sage keep_frac tau min_len page_size
          conv recurrent lane_bytes layers capacity padded kv_heads head_dim snapshot text backend).

Definition decode_fingerprint (bytes : list Z) : res DiskFingerprint :=
  throw_if ((Z.of_nat (length bytes) <? 8) || negb (bool_decide (take 8 bytes = kDiskFingerprintMagic))) runtime_error ;;
  fst (fingerprint_body (drop 8 bytes)).

(** ** Entry metadata *)
Definition encode_slot (slot : DiskCheckpointSlot) : list Z :=
  OutBuf_u32 (sl_frontier slot) ++ OutBuf_u32 (sl_kind slot) ++ OutBuf_u64 (lo (sl_hash slot)) ++
  OutBuf_u64 (hi (sl_hash slot)) ++ OutBuf_u64 (sl_gdn_id slot) ++ OutBuf_u64 (sl_hidden_id slot) ++
  OutBuf_u64 (sl_dflash_id slot).

Definition decode_slot : st InCursor DiskCheckpointSlot :=
  frontier ← InBuf_u32; kind ← InBuf_u32; hlo ← InBuf_u64; hhi ← InBuf_u64;
  gdn ← InBuf_u64; hidden ← InBuf_u64; dflash ← InBuf_u64;
  mret (MkSlot frontier (MkHash hlo hhi) kind gdn hidden dflash).

Definition encode_meta (meta : DiskMeta) : list Z :=
  kDiskMetaMagic ++ OutBuf_u32 kDiskFormatVersion ++ OutBuf_u64 (m_entry_id meta) ++
  OutBuf_u32 (m_execution_frontier meta) ++ OutBuf_u32 (m_ledger_frontier meta) ++ OutBuf_i32 (m_rope_delta meta) ++
  OutBuf_u32 (m_text_kv_valid meta) ++ OutBuf_u32 (m_mtp_kv_valid meta) ++ OutBuf_u32 (m_dflash_context_frontier meta) ++
  OutBuf_bool (m_tail_hidden_valid meta) ++ OutBuf_bool (m_rewrite_valid meta) ++ OutBuf_u8 (m_rewrite_kind meta) ++
  OutBuf_bool (m_hash_c_valid meta) ++ OutBuf_u32 (m_rewrite_frontier meta) ++
  OutBuf_u64 (lo (m_hash_f meta)) ++ OutBuf_u64 (hi (m_hash_f meta)) ++
  OutBuf_u64 (lo (m_hash_c meta)) ++ OutBuf_u64 (hi (m_hash_c meta)) ++
  OutBuf_u64 (m_ledger_id meta) ++ OutBuf_u64 (m_identity_id meta) ++ OutBuf_u64 (m_current_gdn_id meta) ++
  OutBuf_u64 (m_current_hidden_id meta) ++ OutBuf_u64 (m_current_cyclic_id meta) ++ OutBuf_u64 (m_rewrite_gdn_id meta) ++
  OutBuf_u64 (m_rewrite_hidden_id meta) ++ OutBuf_u64 (m_rewrite_cyclic_id meta) ++
  encode_slot (m_rollback meta) ++ encode_slot (m_ladder0 meta) ++ encode_slot (m_ladder1 meta) ++
  OutBuf_u32 (wrap32 (Z.of_nat (length (m_main_page_ids meta)))) ++
  OutBuf_u32 (wrap32 (Z.of_nat (length (m_backend_page_ids meta)))) ++
  concat (OutBuf_u64 <$> m_main_page_ids meta) ++ concat (OutBuf_u64 <$> m_backend_page_ids meta).

Definition kDiskMetaMaxPageIds : Z := Z.shiftl 1 16.

(** The enumerators in play: [TurnRollback] is 1, [Ladder] 0, [OnDemand] 2,
    [ResponseReplay] 1. *)
Definition valid_checkpoint_kind (kind : Z) : bool := kind <=? 2.
Definition valid_rewrite_kind (kind : Z) : bool := kind <=? 1.

Definition bad_slot (slot : DiskCheckpointSlot) (kind : Z) : bool :=
  negb (sl_frontier slot =? 0) && (negb (sl_kind slot =? kind) || negb (valid_checkpoint_kind (sl_kind slot))).

(** The body of [try_decode_meta]; [None] is an early [return std::nullopt]. *)
Definition meta_body : st InCursor (option DiskMeta) :=
  version ← InBuf_u32;
  if negb (version =? kDiskFormatVersion) then mret None
  else
    entry_id ← InBuf_u64;
    execution ← InBuf_u32; ledger ← InBuf_u32; rope ← InBuf_i32; text ← InBuf_u32; mtp ← InBuf_u32; dflash ← InBuf_u32;
    tail ← InBuf_bool; rewrite ← InBuf_bool; rkind ← InBuf_u8; cvalid ← InBuf_bool; rfrontier ← InBuf_u32;
    flo ← InBuf_u64; fhi ← InBuf_u64; clo ← InBuf_u64; chi ← InBuf_u64;
    ledger_id ← InBuf_u64; identity_id ← InBuf_u64;
    cg ← InBuf_u64; ch ← InBuf_u64; cc ← InBuf_u64; rg ← InBuf_u64; rh ← InBuf_u64; rc ← InBuf_u64;
    rollback ← decode_slot; ladder0 ← decode_slot; ladder1 ← decode_slot;
    if (rewrite && negb (valid_rewrite_kind rkind)) || bad_slot rollback 1 || bad_slot ladder0 0 || bad_slot ladder1 0
    then mret None
    else
      main_n ← InBuf_u32; backend_n ← InBuf_u32;
      if (kDiskMetaMaxPageIds <? main_n) || (kDiskMetaMaxPageIds <? backend_n) then mret None
      else
        r ← get;
        let need := wrap64 (main_n * 8 + backend_n * 8) in
        if negb (need / 8 =? main_n + backend_n) || (Z.of_nat (length r) <? need) then mret None
        else
          main ← InBuf_repeat (Z.to_nat main_n) InBuf_u64;
          backend ← InBuf_repeat (Z.to_nat backend_n) InBuf_u64;
          mret (Some (MkMeta entry_id execution ledger rope text mtp dflash tail rewrite rkind cvalid rfrontier
                        (MkHash flo fhi) (MkHash clo chi) ledger_id identity_id cg ch cc rg rh rc
                        rollback ladder0 ladder1 main backend)).

Definition try_decode_meta (bytes : list Z) : option DiskMeta :=
  if (Z.of_nat (length bytes) <? 16) || negb (bool_decide (take 8 bytes = kDiskMetaMagic)) then None
  else match fst (meta_body (drop 8 bytes)) with Ok meta => meta | Throw _ => None end.

(** [for_each_meta_object]: the nonzero references, in order. *)
Definition slot_objects (slot : DiskCheckpointSlot) : list (Z * Z) :=
  [(KindState, sl_gdn_id slot); (KindState, sl_hidden_id slot); (KindState, sl_dflash_id slot)].

Definition for_each_meta_object (meta : DiskMeta) : list (Z * Z) :=
  filter (fun o => snd o <> 0)
    ([(KindLedger, m_ledger_id meta); (KindIdentity, m_identity_id meta); (KindState, m_current_gdn_id meta);
      (KindState, m_current_hidden_id meta); (KindState, m_current_cyclic_id meta); (KindState, m_rewrite_gdn_id meta);
      (KindState, m_rewrite_hidden_id meta); (KindState, m_rewrite_cyclic_id meta)]
     ++ slot_objects (m_rollback meta) ++ slot_objects (m_ladder0 meta) ++ slot_objects (m_ladder1 meta)
     ++ (pair KindMain <$> m_main_page_ids meta) ++ (pair KindBackend <$> m_backend_page_ids meta)).

(** ** Tombstones *)
Definition encode_tombstone (objects : list (Z * Z)) : list Z :=
  kDiskTombstoneMagic ++ OutBuf_u32 kDiskFormatVersion ++ OutBuf_u32 (wrap32 (Z.of_nat (length objects))) ++
  concat ((fun o => OutBuf_u8 (fst o) ++ OutBuf_u64 (snd o)) <$> objects).

(** The loop over the [n] objects; [None] when a kind is unknown. *)
Fixpoint tombstone_loop (n : nat) (objects : list (Z * Z)) : st InCursor (option (list (Z * Z))) :=
  match n with
  | O => mret (Some objects)
  | S n =>
      kind ← InBuf_u8; id ← InBuf_u64;
      if KindIdentity <? kind then mret None
      else tombstone_loop n (if negb (id =? 0) then objects ++ [(kind, id)] else objects)
  end.

Definition tombstone_body : st InCursor (option (list (Z * Z))) :=
  version ← InBuf_u32;
  if negb (version =? kDiskFormatVersion) then mret None
  else
    n ← InBuf_u32;
    if 2 ^ 20 <? n then mret None
    else
      r ← get;
      let need := wrap64 (n * 9) in
      if negb (need / 9 =? n) || (Z.of_nat (length r) <? need) then mret None
      else tombstone_loop (Z.to_nat n) [].

Definition try_decode_tombstone (bytes : list Z) : option (list (Z * Z)) :=
  if bool_decide (bytes = []) then None
  else if (Z.of_nat (length bytes) <? 16) || negb (bool_decide (take 8 bytes = kDiskTombstoneMagic)) then None
  else match fst (tombstone_body (drop 8 bytes)) with Ok objects => objects | Throw _ => None end.

(** ** Packs and the object map *)
Record PackedMapEntry : Type := MkEntry {
  e_id : Z;
  e_kind : Z;
  e_segment : Z;
  e_offset : Z;
  e_extent_bytes : Z;
  e_stored_bytes : Z;
  e_logical_bytes : Z;
  e_record_crc32c : Z;
}.

#[export] Instance PackedMapEntry_eq_dec : EqDecision PackedMapEntry.
Proof. solve_decision. Defined.

Definition kPackMapPutBytes : Z := 52.
Definition kPackMapFrameBytes : Z := 4 + 4 + kPackMapPutBytes.
Definition kPackMapBaseEndianLittle : Z := 1.
Definition kPackMapBaseHeaderBytes : Z := 8 + 4 + 4 + 8 + 8 + 8 + 8.

Definition encode_map_entry (entry : PackedMapEntry) : list Z :=
  OutBuf_u64 (e_id entry) ++ OutBuf_u8 (e_kind entry) ++ OutBuf_u8 0 ++ OutBuf_u8 0 ++ OutBuf_u8 0 ++
  OutBuf_u32 (e_segment entry) ++ OutBuf_u64 (e_offset entry) ++ OutBuf_u64 (e_extent_bytes entry) ++
  OutBuf_u64 (e_stored_bytes entry) ++ OutBuf_u64 (e_logical_bytes entry) ++ OutBuf_u32 (e_record_crc32c entry).

Definition decode_map_entry : st InCursor PackedMapEntry :=
  id ← InBuf_u64; kind ← InBuf_u8; InBuf_skip 3 ;;
  segment ← InBuf_u32; offset ← InBuf_u64; extent ← InBuf_u64; stored ← InBuf_u64; logical ← InBuf_u64; crc ← InBuf_u32;
  mret (MkEntry id kind segment offset extent stored logical crc).

Definition entry_before (a b : PackedMapEntry) : Prop := e_id a <= e_id b.

#[export] Instance entry_before_dec a b : Decision (entry_before a b).
Proof. unfold entry_before. apply _. Defined.

Section images.
Context `{Crc32Isa} (hardware : bool).

(** The CRC stored after an image. *)
Definition with_crc (bytes : list Z) : list Z := bytes ++ OutBuf_u32 (crc32c hardware bytes).

(** [bytes[i] | bytes[i + 1] << 8 | ...] *)
Definition stored_u32 (bytes : list Z) (i : nat) : Z :=
  let at_ k := nth (i + k) bytes 0 in
  Z.lor (Z.lor (Z.lor (at_ 0%nat) (Z.shiftl (at_ 1%nat) 8)) (Z.shiftl (at_ 2%nat) 16)) (Z.shiftl (at_ 3%nat) 24).

Definition encode_packset (generation next_object_id : Z) : list Z :=
  with_crc (kDiskPackSetMagic ++ OutBuf_u32 kDiskFormatVersion ++ OutBuf_u64 generation ++ OutBuf_u64 next_object_id).

Definition packset_body : st InCursor (option (Z * Z)) :=
  version ← InBuf_u32;
  if negb (version =? kDiskFormatVersion) then mret None
  else
    generation ← InBuf_u64;
    next_object_id ← InBuf_u64;
    mret (if negb (generation =? 0) && negb (next_object_id =? 0) then Some (generation, next_object_id) else None).

Definition decode_packset (bytes : list Z) : option (Z * Z) :=
  if negb (Z.of_nat (length bytes) =? 32) || negb (bool_decide (take 8 bytes = kDiskPackSetMagic)) then None
  else if negb (crc32c hardware (take 28 bytes) =? stored_u32 bytes 28) then None
  else match fst (packset_body (take 20 (drop 8 bytes))) with Ok p => p | Throw _ => None end.

Definition encode_pack_map_frame (entry : PackedMapEntry) (kind : Z) : list Z :=
  with_crc (OutBuf_u32 kPackMapFrameBytes ++ OutBuf_u8 kind ++ OutBuf_u8 0 ++ OutBuf_u8 0 ++ OutBuf_u8 0 ++
            encode_map_entry entry).

Definition encode_pack_map_base (generation next_id : Z) (entries : list PackedMapEntry) : list Z :=
  let entries := merge_sort entry_before entries in
  let count := Z.of_nat (length entries) in
  with_crc (kDiskObjectMapMagic ++ OutBuf_u32 kDiskFormatVersion ++ OutBuf_u32 kPackMapBaseEndianLittle ++
            OutBuf_u64 generation ++ OutBuf_u64 next_id ++ OutBuf_u64 count ++
            OutBuf_u64 (wrap64 (count * kPackMapPutBytes)) ++ concat (encode_map_entry <$> entries)).
End images.
