(* ===== verification/DiskFormatTheorems.v ===== *)
(** * The files of the disk tier: what is written is read back *)

From stdpp Require Import prelude list list_numbers sorting.
From Stdlib Require Import ZArith Lia.
From S2P Require Import Prelude.
From S2P Require Import Bytes.
From S2P Require Import Codec.
From S2P Require Import Tensor.
From S2P Require Import PagedPool.
From S2P Require Import PrefixIdentity.
From S2P Require Import Crc32c.
From S2P Require Import CrcTheorems.
From S2P Require Import DiskFormat.
#[local] Open Scope Z_scope.

(** ** The images of the fields *)
Lemma out_u16 v : OutBuf_u16 v = le_bytes 2 v.
Proof. unfold OutBuf_u16, OutBuf_u8, wrap8. cbn. by rewrite Z.shiftr_div_pow2 by lia. Qed.

Lemma out_u32 v : OutBuf_u32 v = le_bytes 4 v.
Proof. unfold OutBuf_u32, OutBuf_u8, wrap8. cbn. by rewrite !Z.shiftr_div_pow2, !Z.div_div by lia. Qed.

Lemma out_u64 v : OutBuf_u64 v = le_bytes 8 v.
Proof. unfold OutBuf_u64, OutBuf_u8, wrap8. simpl. by rewrite !Z.shiftr_div_pow2, !Z.div_div, ?Z.div_1_r by lia. Qed.

Lemma out_i32 v : OutBuf_i32 v = le_bytes 4 v.
Proof. unfold OutBuf_i32. rewrite out_u32. apply (le_bytes_wrap 4). Qed.

Lemma length_out_u32 v : length (OutBuf_u32 v) = 4%nat.
Proof. by rewrite out_u32, length_le_bytes. Qed.

Lemma length_out_u64 v : length (OutBuf_u64 v) = 8%nat.
Proof. by rewrite out_u64, length_le_bytes. Qed.

(** ** Reading a field back *)
Lemma inbuf_u8 b : reads InBuf_u8 [b] b.
Proof. done. Qed.

Lemma inbuf_byte v : is_byte v -> reads InBuf_u8 (OutBuf_u8 v) v.
Proof. intros Hv rest. unfold OutBuf_u8, wrap8. unfold is_byte in Hv. by rewrite Z.mod_small. Qed.

Lemma inbuf_u16 v : 0 <= v < 2 ^ 16 -> reads InBuf_u16 (OutBuf_u16 v) v.
Proof.
  intros Hv rest. unfold InBuf_u16, InBuf_u8, OutBuf_u16, OutBuf_u8, wrap8, mbind, st_bind, mret, st_ret.
  cbn -[Z.lor Z.shiftl Z.modulo Z.shiftr]. do 2 f_equal. rewrite Z.shiftr_div_pow2 by lia. change (2 ^ 8) with 256.
  pose proof (Z.mod_pos_bound v 256). rewrite lor_shiftl by lia. rewrite (Z.mod_small (v / 256)).
  - pose proof (Z.div_mod v 256). lia.
  - split; [apply Z.div_pos; lia|apply Z.div_lt_upper_bound; lia].
Qed.

Lemma inbuf_u32_value l : length l = 4%nat -> Forall is_byte l -> reads InBuf_u32 l (le_value l).
Proof.
  intros Hl Hb. destruct l as [|a [|b [|c [|d [|]]]]]; try done.
  intros rest. unfold InBuf_u32, InBuf_u8, mbind, st_bind, mret, st_ret. cbn -[Z.lor Z.shiftl Z.mul Z.add]. do 2 f_equal.
  decompose_Forall_hyps. unfold is_byte in *.
  rewrite (lor_shiftl a b 8) by lia. rewrite (lor_shiftl _ c 16) by lia. rewrite lor_shiftl by lia. lia.
Qed.

Lemma inbuf_u64_value l : length l = 8%nat -> Forall is_byte l -> reads InBuf_u64 l (le_value l).
Proof.
  intros Hl Hb. destruct l as [|a [|b [|c [|d [|e [|f [|g [|h [|]]]]]]]]]; try done.
  intros rest. unfold InBuf_u64, InBuf_u64_loop, InBuf_u8, mbind, st_bind, mret, st_ret.
  cbn -[Z.lor Z.shiftl Z.mul Z.add]. do 2 f_equal.
  decompose_Forall_hyps. unfold is_byte in *. rewrite Z.shiftl_0_r, Z.lor_0_l.
  rewrite (lor_shiftl a b 8) by lia. rewrite (lor_shiftl _ c 16) by lia.
  rewrite (lor_shiftl _ d 24) by lia. rewrite (lor_shiftl _ e 32) by lia.
  rewrite (lor_shiftl _ f 40) by lia. rewrite (lor_shiftl _ g 48) by lia. rewrite lor_shiftl by lia. lia.
Qed.

Lemma inbuf_u32 v : u32 v -> reads InBuf_u32 (OutBuf_u32 v) v.
Proof.
  intros Hv. rewrite out_u32. rewrite <- (le_value_u32 v Hv) at 2. apply inbuf_u32_value; [done|apply le_bytes_bytes].
Qed.

Lemma inbuf_u64 v : u64 v -> reads InBuf_u64 (OutBuf_u64 v) v.
Proof.
  intros Hv. rewrite out_u64. rewrite <- (le_value_u64 v Hv) at 2. apply inbuf_u64_value; [done|apply le_bytes_bytes].
Qed.

Lemma inbuf_i32 v : i32 v -> reads InBuf_i32 (OutBuf_i32 v) v.
Proof.
  intros Hv. rewrite out_i32. eapply reads_map; [apply inbuf_u32_value; [done|apply le_bytes_bytes]|]. by apply le_value_i32.
Qed.

Lemma inbuf_bool b : reads InBuf_bool (OutBuf_bool b) b.
Proof. eapply reads_map; [apply inbuf_byte; by destruct b|]. by destruct b. Qed.

Lemma inbuf_check e : reads (st_throw_if false e) [] tt.
Proof. done. Qed.

Lemma inbuf_skip l n : n = Z.of_nat (length l) -> reads (InBuf_skip n) l tt.
Proof.
  intros -> rest. unfold InBuf_skip. rewrite (st_bind_Ok _ _ (l ++ rest) (l ++ rest) (l ++ rest)) by done.
  rewrite (st_bind_Ok _ _ _ tt (l ++ rest)).
  - rewrite Nat2Z.id, drop_app_length. done.
  - unfold st_throw_if, lift, throw_if. rewrite (proj2 (Z.ltb_ge _ _)); [done|]. rewrite length_app. lia.
Qed.

Lemma inbuf_str s : Z.of_nat (length s) <= u32_max -> reads InBuf_str (OutBuf_str s) s.
Proof.
  intros Hs. unfold InBuf_str, OutBuf_str. assert (u32 (Z.of_nat (length s))) as Hu by (unfold u32; lia).
  rewrite wrap32_id by done. eapply reads_bind; [by apply inbuf_u32|]. intros rest.
  rewrite (st_bind_Ok _ _ (s ++ rest) (s ++ rest) (s ++ rest)) by done.
  rewrite (st_bind_Ok _ _ _ tt (s ++ rest)).
  - rewrite Nat2Z.id, drop_app_length, take_app_length. done.
  - unfold st_throw_if, lift, throw_if. rewrite (proj2 (Z.ltb_ge _ _)); [done|]. rewrite length_app. lia.
Qed.

(** A read that looks at what remains. *)
Lemma reads_get {A} (k : InCursor -> st InCursor A) l x :
  (forall rest, k (l ++ rest) (l ++ rest) = (Ok x, rest)) -> reads (get ≫= k) l x.
Proof. intros H rest. rewrite (st_bind_Ok _ _ (l ++ rest) (l ++ rest) (l ++ rest)) by done. apply H. Qed.

Lemma inbuf_repeat {A} (read : st InCursor A) (image : A -> list Z) xs :
  Forall (fun x => reads read (image x) x) xs -> reads (InBuf_repeat (length xs) read) (concat (image <$> xs)) xs.
Proof.
  induction 1 as [|x xs Hx _ IH]; [done|]. cbn [length InBuf_repeat]. rewrite fmap_cons. cbn [concat].
  eapply reads_bind; [exact Hx|]. rewrite <- (app_nil_r (concat _)). eapply reads_bind; [exact IH|]. apply reads_ret.
Qed.

#[export] Hint Resolve inbuf_byte inbuf_u16 inbuf_u32 inbuf_u64 inbuf_i32 inbuf_bool inbuf_str : codec.

(** One field, and all the fields up to the end of a record. *)
Ltac next_field := eapply reads_bind; [solve [eauto with codec]|].
Ltac last_field := rewrite <- (app_nil_r (OutBuf_u64 _)); next_field; apply reads_ret.

(** ** Entry metadata *)
Definition hash_wide (x : PrefixHash128) : Prop := u64 (lo x) /\ u64 (hi x).

Record slot_wide (s : DiskCheckpointSlot) (kind : Z) : Prop := MkSlotWide {
  sw_frontier : u32 (sl_frontier s);
  sw_hash : hash_wide (sl_hash s);
  sw_kind : u32 (sl_kind s);
  sw_gdn : u64 (sl_gdn_id s);
  sw_hidden : u64 (sl_hidden_id s);
  sw_dflash : u64 (sl_dflash_id s);
  sw_used : sl_frontier s <> 0 -> sl_kind s = kind;
}.

(** Fields of the width of their C++ types, slots of their own kinds, and no more page
    ids than the format allows. *)
Record meta_ok (m : DiskMeta) : Prop := MkMetaOk {
  mo_entry : u64 (m_entry_id m);
  mo_frontiers : Forall u32 [m_execution_frontier m; m_ledger_frontier m; m_text_kv_valid m; m_mtp_kv_valid m;
                             m_dflash_context_frontier m; m_rewrite_frontier m];
  mo_rope : i32 (m_rope_delta m);
  mo_kind : is_byte (m_rewrite_kind m);
  mo_rewrite : m_rewrite_valid m = true -> m_rewrite_kind m <= 1;
  mo_hashes : hash_wide (m_hash_f m) /\ hash_wide (m_hash_c m);
  mo_ids : Forall u64 [m_ledger_id m; m_identity_id m; m_current_gdn_id m; m_current_hidden_id m; m_current_cyclic_id m;
                       m_rewrite_gdn_id m; m_rewrite_hidden_id m; m_rewrite_cyclic_id m];
  mo_rollback : slot_wide (m_rollback m) 1;
  mo_ladder0 : slot_wide (m_ladder0 m) 0;
  mo_ladder1 : slot_wide (m_ladder1 m) 0;
  mo_main : Forall u64 (m_main_page_ids m) /\ Z.of_nat (length (m_main_page_ids m)) <= kDiskMetaMaxPageIds;
  mo_backend : Forall u64 (m_backend_page_ids m) /\ Z.of_nat (length (m_backend_page_ids m)) <= kDiskMetaMaxPageIds;
}.

Lemma slot_reads s kind : slot_wide s kind -> reads decode_slot (encode_slot s) s.
Proof.
  intros [H1 [H2 H3] H4 H5 H6 H7 _]. unfold decode_slot, encode_slot. do 6 next_field.
  rewrite <- (app_nil_r (OutBuf_u64 (sl_dflash_id s))). next_field. by destruct s as [? [? ?] ? ? ? ?].
Qed.

Lemma slot_good s kind : 0 <= kind <= 2 -> slot_wide s kind -> bad_slot s kind = false.
Proof.
  intros Hk [_ _ _ _ _ _ Hu]. unfold bad_slot, valid_checkpoint_kind. destruct (sl_frontier s =? 0) eqn:E; [done|]. guards.
  rewrite (Hu E), Z.eqb_refl. cbn. by replace (kind <=? 2) with true by lia.
Qed.

Lemma length_images_u64 ids : length (concat (OutBuf_u64 <$> ids)) = (8 * length ids)%nat.
Proof.
  induction ids as [|x ids IH]; [done|]. rewrite fmap_cons. cbn [concat length]. rewrite length_app, length_out_u64, IH. lia.
Qed.

Lemma page_ids_read ids : Forall u64 ids -> reads (InBuf_repeat (length ids) InBuf_u64) (concat (OutBuf_u64 <$> ids)) ids.
Proof. intros H. apply inbuf_repeat. eapply Forall_impl; [exact H|]. apply inbuf_u64. Qed.

(** The page ids at the end of the metadata. *)
Lemma page_lists_read {A} (main backend : list Z) (k : list Z -> list Z -> st InCursor (option A)) x :
  Forall u64 main -> Z.of_nat (length main) <= kDiskMetaMaxPageIds ->
  Forall u64 backend -> Z.of_nat (length backend) <= kDiskMetaMaxPageIds ->
  (forall rest, k main backend rest = (Ok x, rest)) ->
  reads (main_n ← InBuf_u32; backend_n ← InBuf_u32;
         if (kDiskMetaMaxPageIds <? main_n) || (kDiskMetaMaxPageIds <? backend_n) then mret None
         else
           r ← get;
           let need := wrap64 (main_n * 8 + backend_n * 8) in
           if negb (need / 8 =? main_n + backend_n) || (Z.of_nat (length r) <? need) then mret None
           else
             main ← InBuf_repeat (Z.to_nat main_n) InBuf_u64;
             backend ← InBuf_repeat (Z.to_nat backend_n) InBuf_u64;
             k main backend)
    (OutBuf_u32 (wrap32 (Z.of_nat (length main))) ++ OutBuf_u32 (wrap32 (Z.of_nat (length backend))) ++
     concat (OutBuf_u64 <$> main) ++ concat (OutBuf_u64 <$> backend)) x.
Proof.
  intros Hm Lm Hb Lb Hk. change kDiskMetaMaxPageIds with 65536 in *. set (n := Z.of_nat (length main)) in *.
  set (m := Z.of_nat (length backend)) in *.
  assert (u32 n /\ u32 m) as [Un Um] by (unfold u32, u32_max; lia). rewrite !wrap32_id by done. next_field. next_field.
  rewrite (proj2 (Z.ltb_ge _ n)), (proj2 (Z.ltb_ge _ m)) by lia. cbn [orb].
  apply reads_get. intros rest. cbv zeta. rewrite wrap64_id by (unfold u64, size_max; lia).
  replace ((n * 8 + m * 8) / 8) with (n + m) by (rewrite <- Z.mul_add_distr_r, Z.div_mul; lia). rewrite Z.eqb_refl. cbn [negb orb].
  rewrite (proj2 (Z.ltb_ge _ _)) by (rewrite !length_app, !length_images_u64; lia).
  unfold n, m. rewrite !Nat2Z.id, <- app_assoc.
  rewrite (st_bind_Ok _ _ _ _ _ (page_ids_read main Hm _)). rewrite (st_bind_Ok _ _ _ _ _ (page_ids_read backend Hb _)). apply Hk.
Qed.

Lemma meta_reads m : meta_ok m -> reads meta_body (drop 8 (encode_meta m)) (Some m).
Proof.
  intros [H1 H2 H3 H4 H5 [[Hf1 Hf2] [Hc1 Hc2]] HI S1 S2 S3 [M1 M2] [B1 B2]]. repeat (apply Forall_cons in H2 as [? H2]).
  repeat (apply Forall_cons in HI as [? HI]). unfold encode_meta. rewrite (drop_app_length' _ _ 8) by done. unfold meta_body.
  eapply reads_bind; [apply (inbuf_u32 kDiskFormatVersion); by vm_compute|]. rewrite Z.eqb_refl. cbn [negb].
  do 24 next_field. eapply reads_bind; [by eapply slot_reads|]. eapply reads_bind; [by eapply slot_reads|].
  eapply reads_bind; [by eapply slot_reads|].
  replace (m_rewrite_valid m && negb (valid_rewrite_kind (m_rewrite_kind m))) with false.
  2: { destruct (m_rewrite_valid m); [|done]. unfold valid_rewrite_kind. specialize (H5 eq_refl). by replace (m_rewrite_kind m <=? 1) with true by lia. }
  rewrite (slot_good _ 1), (slot_good _ 0), (slot_good _ 0) by (done || lia). cbn [orb].
  apply page_lists_read; try done. intros rest.
  destruct m as [? ? ? ? ? ? ? ? ? ? ? ? [? ?] [? ?] ? ? ? ? ? ? ? ? ? ? ? ? ?]. done.
Qed.

Lemma length_encode_slot s : length (encode_slot s) = 48%nat.
Proof. unfold encode_slot. by rewrite !length_app, !length_out_u32, !length_out_u64. Qed.

Lemma meta_roundtrip m : meta_ok m -> try_decode_meta (encode_meta m) = Some m.
Proof.
  intros Hm. unfold try_decode_meta. rewrite (proj2 (Z.ltb_ge _ _)).
  2: { unfold encode_meta. rewrite !length_app, length_out_u32, length_out_u64. cbn [length kDiskMetaMagic]. lia. }
  rewrite bool_decide_true by (unfold encode_meta; by rewrite (take_app_length' _ _ 8)). cbn [orb negb].
  rewrite <- (app_nil_r (drop 8 (encode_meta m))). by rewrite (meta_reads m Hm []).
Qed.

(** ** Tombstones *)
Definition object_wide (o : Z * Z) : Prop := 0 <= fst o <= KindIdentity /\ u64 (snd o).

Definition object_image (o : Z * Z) : list Z := OutBuf_u8 (fst o) ++ OutBuf_u64 (snd o).

Lemma length_object_images objects : length (concat (object_image <$> objects)) = (9 * length objects)%nat.
Proof.
  induction objects as [|o objects IH]; [done|]. rewrite fmap_cons. cbn [concat length]. unfold object_image at 1.
  rewrite !length_app, length_out_u64, IH. cbn [OutBuf_u8 length]. lia.
Qed.

Lemma tombstone_loop_reads objects : Forall object_wide objects -> forall acc,
  reads (tombstone_loop (length objects) acc) (concat (object_image <$> objects))
    (Some (acc ++ filter (fun o => snd o <> 0) objects)).
Proof.
  induction 1 as [|[kind id] objects [Hk Hi] _ IH]; intros acc; [cbn; rewrite app_nil_r; apply reads_ret|].
  cbn [length tombstone_loop]. rewrite fmap_cons. cbn [concat]. unfold object_image at 1. cbn [fst snd] in *.
  rewrite <- !app_assoc. change KindIdentity with 4 in *. eapply reads_bind; [apply inbuf_byte; unfold is_byte; lia|].
  eapply reads_bind; [by apply inbuf_u64|]. rewrite (proj2 (Z.ltb_ge 4 kind)) by lia. rewrite filter_cons. cbn [snd].
  destruct (id =? 0) eqn:E; guards; cbn [negb].
  - rewrite decide_False by tauto. apply IH.
  - rewrite decide_True by done. replace (acc ++ (kind, id) :: filter (fun o => snd o <> 0) objects)
      with ((acc ++ [(kind, id)]) ++ filter (fun o => snd o <> 0) objects) by (by rewrite <- app_assoc). apply IH.
Qed.

Lemma tombstone_roundtrip objects : Forall object_wide objects -> Z.of_nat (length objects) <= 2 ^ 20 ->
  try_decode_tombstone (encode_tombstone objects) = Some (filter (fun o => snd o <> 0) objects).
Proof.
  intros Ho Hl. unfold try_decode_tombstone. rewrite bool_decide_false by done.
  set (n := Z.of_nat (length objects)) in *. assert (u32 n) as Hn by (unfold u32, u32_max; lia).
  assert (encode_tombstone objects = kDiskTombstoneMagic ++ OutBuf_u32 kDiskFormatVersion ++ OutBuf_u32 n ++ concat (object_image <$> objects))
    as E by (unfold encode_tombstone; fold n; by rewrite wrap32_id).
  rewrite E. rewrite (proj2 (Z.ltb_ge _ _)) by (rewrite !length_app, !length_out_u32; cbn [length kDiskTombstoneMagic]; lia).
  rewrite bool_decide_true by (by rewrite (take_app_length' _ _ 8)). cbn [orb negb]. rewrite (drop_app_length' _ _ 8) by done.
  assert (reads tombstone_body (OutBuf_u32 kDiskFormatVersion ++ OutBuf_u32 n ++ concat (object_image <$> objects))
    (Some (filter (fun o => snd o <> 0) objects))) as H.
  { unfold tombstone_body. eapply reads_bind; [apply inbuf_u32; by vm_compute|]. rewrite Z.eqb_refl. cbn [negb].
    eapply reads_bind; [by apply inbuf_u32|]. rewrite (proj2 (Z.ltb_ge _ _)) by done. apply reads_get. intros rest. cbv zeta.
    rewrite wrap64_id by (unfold u64, size_max; lia). rewrite Z.div_mul, Z.eqb_refl by lia. cbn [negb orb].
    rewrite (proj2 (Z.ltb_ge _ _)) by (rewrite length_app, length_object_images; lia). unfold n. rewrite Nat2Z.id.
    apply (tombstone_loop_reads objects Ho []). }
  specialize (H []). rewrite app_nil_r in H. by rewrite H.
Qed.

Lemma meta_objects_wide m : meta_ok m -> Forall object_wide (for_each_meta_object m) /\
  Z.of_nat (length (for_each_meta_object m)) <= 2 ^ 20.
Proof.
  intros [H1 H2 H3 H4 H5 _ HI S1 S2 S3 [M1 M2] [B1 B2]]. unfold for_each_meta_object. split.
  - eapply Forall_sublist; [|apply sublist_filter]. repeat (apply Forall_cons in HI as [? HI]).
    assert (forall s k, slot_wide s k -> Forall object_wide (slot_objects s)) as Hs.
    { intros s k [_ _ _ G1 G2 G3 _]. unfold slot_objects, object_wide. repeat (constructor; [done|]). constructor. }
    assert (forall k ids, 0 <= k <= KindIdentity -> Forall u64 ids -> Forall object_wide (pair k <$> ids)) as Hp.
    { intros k ids Hk Hids. apply Forall_fmap. eapply Forall_impl; [exact Hids|]. done. }
    rewrite !Forall_app. split_and!; try (by eapply Hs); try (by apply Hp). repeat (constructor; [done|]). constructor.
  - etransitivity; [apply inj_le, length_filter|]. rewrite !length_app, !length_fmap. change kDiskMetaMaxPageIds with 65536 in *.
    cbn [length slot_objects]. lia.
Qed.

(** ** Fingerprint *)
Record schema_ok (page_size : Z) (p : DiskPlaneSchema) : Prop := MkSchemaOk {
  so_leading : i32 (ps_leading_extent p);
  so_head : i32 (ps_head_extent p);
  so_bytes : u64 (ps_page_bytes p);
  so_geometry : plane_schema_bytes (ps_dtype p) page_size (ps_leading_extent p) (ps_head_extent p) = Ok (ps_page_bytes p);
}.

Record fingerprint_ok (f : DiskFingerprint) : Prop := MkFingerprintOk {
  fo_strings : Forall (fun s : list Z => Z.of_nat (length s) <= u32_max) [fp_model_id f; fp_weights_id f; fp_artifact_tensor_identity f];
  fo_bytes : is_byte (fp_kv_cache f) /\ is_byte (fp_speculative f);
  fo_words : Forall u32 [fp_keep_frac f; fp_xattn_tau f; fp_page_size f; fp_cyclic_layers f; fp_cyclic_capacity f;
                         fp_cyclic_padded f; fp_snapshot_version f];
  fo_ints : Forall i32 [fp_xattn_min_len f; fp_cyclic_kv_heads f; fp_cyclic_head_dim f];
  fo_longs : Forall u64 [fp_gdn_conv_bytes f; fp_gdn_recurrent_bytes f; fp_cyclic_lane_bytes f];
  fo_planes : Forall (schema_ok (fp_page_size f)) (fp_text_planes f ++ fp_backend_planes f);
  fo_count : Z.of_nat (length (fp_text_planes f ++ fp_backend_planes f)) <= 2 ^ 20;
}.

Lemma schema_reads page_size p : schema_ok page_size p -> reads (decode_plane_schema page_size) (encode_plane_schema p) p.
Proof.
  intros [H1 H2 H3 H4]. unfold decode_plane_schema, encode_plane_schema.
  eapply reads_bind; [apply inbuf_byte; destruct (ps_dtype p); by vm_compute|].
  eapply reads_bind; [apply inbuf_byte; destruct (ps_order p); by vm_compute|].
  eapply reads_bind; [by apply inbuf_u16|].
  assert (dtype_of_code (dtype_code (ps_dtype p)) = Some (ps_dtype p)) as -> by (by destruct (ps_dtype p)).
  assert (order_of_code (order_code (ps_order p)) = Some (ps_order p)) as -> by (by destruct (ps_order p)).
  rewrite <- (app_nil_l (OutBuf_i32 (ps_leading_extent p) ++ _)). eapply reads_bind; [apply inbuf_check|]. do 2 next_field.
  rewrite <- (app_nil_r (OutBuf_u64 (ps_page_bytes p))). next_field.
  intros rest. rewrite H4. unfold lift, mbind, st_bind. rewrite Z.eqb_refl. cbn. by destruct p.
Qed.

Lemma length_schema p : length (encode_plane_schema p) = 20%nat.
Proof. unfold encode_plane_schema. by rewrite !length_app, out_u16, !out_i32, !length_le_bytes, length_out_u64. Qed.

Lemma length_schemas planes : length (concat (encode_plane_schema <$> planes)) = (20 * length planes)%nat.
Proof.
  induction planes as [|p planes IH]; [done|]. rewrite fmap_cons. cbn [concat length]. rewrite length_app, length_schema, IH. lia.
Qed.

Lemma schemas_read page_size planes : Forall (schema_ok page_size) planes ->
  reads (InBuf_repeat (length planes) (decode_plane_schema page_size)) (concat (encode_plane_schema <$> planes)) planes.
Proof. intros H. apply inbuf_repeat. eapply Forall_impl; [exact H|]. apply schema_reads. Qed.

Lemma fingerprint_roundtrip f : fingerprint_ok f ->
  exists bytes, encode_fingerprint f = Ok bytes /\ decode_fingerprint bytes = Ok f.
Proof.
  intros [H1 [H2 H3] H4 H5 H6 H7 H8]. repeat (apply Forall_cons in H1 as [? H1]). repeat (apply Forall_cons in H4 as [? H4]).
  repeat (apply Forall_cons in H5 as [? H5]). repeat (apply Forall_cons in H6 as [? H6]). apply Forall_app in H7 as [P1 P2].
  rewrite length_app in H8. set (n := Z.of_nat (length (fp_text_planes f))) in *. set (m := Z.of_nat (length (fp_backend_planes f))) in *.
  assert (u32 n /\ u32 m) as [Hn Hm] by (unfold u32, u32_max; lia).
  eexists. split.
  { unfold encode_fingerprint. fold n m. rewrite (proj2 (Z.ltb_ge _ n)), (proj2 (Z.ltb_ge _ m)) by (unfold u32 in *; lia). reflexivity. }
  unfold decode_fingerprint. rewrite (proj2 (Z.ltb_ge _ _)) by (rewrite length_app; cbn [length kDiskFingerprintMagic]; lia).
  rewrite bool_decide_true by (by rewrite (take_app_length' _ _ 8)). cbn [orb negb throw_if mbind res_bind].
  rewrite (drop_app_length' _ _ 8) by done.
  match goal with |- fst (fingerprint_body ?l) = _ => assert (fingerprint_body l = (Ok f, [])) as Hr; [|by rewrite Hr] end.
  rewrite <- (app_nil_r (OutBuf_u32 kDiskFormatVersion ++ _)) at 1. unfold fingerprint_body.
  assert (forall A (r : st InCursor A) l x, reads r l x -> forall B (k : A -> st InCursor B) l' y,
    (k x (l' ++ []) = (Ok y, [])) -> (r ≫= k) ((l ++ l') ++ []) = (Ok y, [])) as Hbind.
  { intros A r l x Hr B k l' y Hk. rewrite <- app_assoc. by rewrite (st_bind_Ok _ _ _ _ _ (Hr (l' ++ []))). }
  eapply Hbind; [apply (inbuf_u32 kDiskFormatVersion); by vm_compute|]. rewrite Z.eqb_refl. cbn [negb].
  rewrite <- (app_nil_l (OutBuf_str (fp_model_id f) ++ _)). eapply Hbind; [apply inbuf_check|].
  do 21 (eapply Hbind; [solve [eauto with codec]|]). rewrite app_nil_r.
  rewrite (st_bind_Ok get _ _ _ _ eq_refl). cbv zeta. rewrite (proj2 (Z.ltb_ge _ _)) by lia. cbn [orb].
  rewrite (proj2 (Z.ltb_ge _ _)).
  2: { rewrite length_app, !length_schemas. unfold kDiskFingerprintPlaneBytes. apply Z.div_le_lower_bound; lia. }
  rewrite (st_bind_Ok (st_throw_if false runtime_error) _ _ _ _ eq_refl).
  unfold n, m. rewrite !Nat2Z.id. rewrite (st_bind_Ok _ _ _ _ _ (schemas_read _ _ P1 _)).
  rewrite <- (app_nil_r (concat (encode_plane_schema <$> fp_backend_planes f))).
  rewrite (st_bind_Ok _ _ _ _ _ (schemas_read _ _ P2 [])). by destruct f.
Qed.

(** C30: What the disk tier writes about an entry is what a restart reads: the metadata
    of any entry decodes to itself, its tombstone to exactly its objects, and the
    fingerprint of a store to itself, so a store is never refused by the model that
    wrote it. *)
Theorem disk_files_roundtrip meta fp :
  meta_ok meta -> fingerprint_ok fp ->
  try_decode_meta (encode_meta meta) = Some meta /\
  try_decode_tombstone (encode_tombstone (for_each_meta_object meta)) = Some (for_each_meta_object meta) /\
  exists bytes, encode_fingerprint fp = Ok bytes /\ decode_fingerprint bytes = Ok fp.
Proof.
  intros Hm Hf. split_and!; [by apply meta_roundtrip| |by apply fingerprint_roundtrip].
  destruct (meta_objects_wide meta Hm) as [Ho Hl]. rewrite tombstone_roundtrip by done. f_equal.
  unfold for_each_meta_object. by rewrite list_filter_filter_l.
Qed.

(** ** One entry of one store *)
Definition demo_slot (frontier kind : Z) : DiskCheckpointSlot := MkSlot frontier (MkHash 3 4) kind 21 22 0.

Definition demo_meta : DiskMeta :=
  MkMeta 7 600 601 (-2) 600 599 0 true true 1 true 512 (MkHash 1 2) (MkHash 5 6) 11 12 13 14 0 15 16 0
    (demo_slot 300 1) (demo_slot 256 0) (demo_slot 0 9) [31; 32; 33] [41].

Definition demo_fingerprint : DiskFingerprint :=
  MkFingerprint [97] [98; 99] [] 2 1 true 1065353216 1065353216 1024 256 4096 8192 0 0 0 0 0 0 8
    [MkSchema I8 PageMajor 128 8 262144] [].

Lemma demo_slot_wide frontier kind kind' : u32 frontier -> u32 kind -> (frontier <> 0 -> kind = kind') ->
  slot_wide (demo_slot frontier kind) kind'.
Proof. intros H1 H2 H3. split; try done; (unfold hash_wide, demo_slot; cbn; width_lia). Qed.

Lemma demo_meta_ok : meta_ok demo_meta.
Proof.
  assert (forall x, 0 <= x < 2 ^ 31 -> u32 x /\ u64 x /\ i32 x) as Hx by (intros x Hx; width_lia).
  split; cbn.
  - apply Hx. lia.
  - repeat (constructor; [apply Hx; lia|]). constructor.
  - width_lia.
  - unfold is_byte. lia.
  - intros _. lia.
  - split; (split; apply Hx; cbn; lia).
  - repeat (constructor; [apply Hx; lia|]). constructor.
  - apply demo_slot_wide; [apply Hx; lia|apply Hx; lia|done].
  - apply demo_slot_wide; [apply Hx; lia|apply Hx; lia|done].
  - apply demo_slot_wide; [apply Hx; lia|apply Hx; lia|done].
  - split; [repeat (constructor; [apply Hx; lia|]); constructor|by vm_compute].
  - split; [repeat (constructor; [apply Hx; lia|]); constructor|by vm_compute].
Qed.

Lemma demo_fingerprint_ok : fingerprint_ok demo_fingerprint.
Proof.
  assert (forall x, 0 <= x < 2 ^ 31 -> u32 x /\ u64 x /\ i32 x) as Hx by (intros x Hx; width_lia).
  split; cbn.
  - repeat (constructor; [by vm_compute|]). constructor.
  - unfold is_byte. lia.
  - repeat (constructor; [apply Hx; lia|]). constructor.
  - repeat (constructor; [apply Hx; lia|]). constructor.
  - repeat (constructor; [apply Hx; lia|]). constructor.
  - constructor; [|constructor]. split; cbn; [apply Hx; lia|apply Hx; lia|apply Hx; lia|by vm_compute].
  - lia.
Qed.

Lemma disk_files_roundtrip_witness : try_decode_meta (encode_meta demo_meta) = Some demo_meta.
Proof. exact (proj1 (disk_files_roundtrip demo_meta demo_fingerprint demo_meta_ok demo_fingerprint_ok)). Defined.
