(* ===== verification/DiskMap.v ===== *)
(** * targets/qwen3_6/impl/runtime/kv_disk_cache.cpp: the object map and its journal

    Where every object of the disk tier lies in the packs.  The map is a base image and
    a journal of frames appended to it; a restart replays the journal, drops a torn
    tail, and refuses a map whose extents overlap.  A checkpoint writes the next epoch's
    base and empty journal, then selects that epoch by renaming PACKSET.  Files are
    byte strings; a missing file is [None]. *)

From stdpp Require Import prelude list list_numbers sorting gmap.
From Stdlib Require Import ZArith Lia.
From S2P Require Import Prelude.
From S2P Require Import Bytes.
From S2P Require Import Codec.
From S2P Require Import Crc32c.
From S2P Require Import DiskFormat.
#[local] Open Scope Z_scope.

(** [objects_], without the reference counts. *)
Definition ObjectMap : Type := gmap Z PackedMapEntry.

Definition kPackSegmentBytes : Z := Z.shiftl 1 30.

Definition bump_next_id (next seen : Z) : Z :=
  if seen =? 0 then next
  else if seen =? size_max then seen
  else Z.max next (seen + 1).

(** The first guard of [install]. *)
Definition location_invalid (entry : PackedMapEntry) : bool :=
  (e_id entry =? 0) || (5 <=? e_kind entry) || (e_extent_bytes entry =? 0)
  || negb (e_extent_bytes entry mod kDiskPageIoAlignment =? 0) || (e_stored_bytes entry =? 0)
  || (e_extent_bytes entry <? e_stored_bytes entry) || (e_logical_bytes entry =? 0)
  || negb (e_offset entry mod kDiskPageIoAlignment =? 0) || (kPackSegmentBytes <? e_extent_bytes entry)
  || (kPackSegmentBytes - e_extent_bytes entry <? e_offset entry).

Definition install (state : ObjectMap * Z) (entry : PackedMapEntry) : res (ObjectMap * Z) :=
  let '(objects, next) := state in
  throw_if (location_invalid entry) runtime_error ;;
  match objects !! e_id entry with
  | None => Ok (<[e_id entry := entry]> objects, bump_next_id next (e_id entry))
  | Some old => throw_if (negb (bool_decide (old = entry))) runtime_error ;; Ok (objects, next)
  end.

Section map.
Context `{Crc32Isa} (hardware : bool).

(** The base between the magic and its CRC. *)
Definition base_body (index_epoch next_object_id : Z) : st InCursor (ObjectMap * Z) :=
  version ← InBuf_u32; endian ← InBuf_u32; epoch ← InBuf_u64;
  st_throw_if (negb (version =? kDiskFormatVersion) || negb (endian =? kPackMapBaseEndianLittle)
               || negb (epoch =? index_epoch)) runtime_error ;;
  next ← InBuf_u64; count ← InBuf_u64; payload_bytes ← InBuf_u64;
  r ← get;
  st_throw_if ((size_max / kPackMapPutBytes <? count) || negb (payload_bytes =? count * kPackMapPutBytes)
               || negb (Z.of_nat (length r) =? payload_bytes)) runtime_error ;;
  entries ← InBuf_repeat (Z.to_nat count) decode_map_entry;
  lift (res_foldl install entries (∅, bump_next_id next_object_id next)).

Definition load_base (index_epoch next_object_id : Z) (bytes : list Z) : res (ObjectMap * Z) :=
  let size := Z.of_nat (length bytes) in
  throw_if ((size <? kPackMapBaseHeaderBytes + 4) || negb (bool_decide (take 8 bytes = kDiskObjectMapMagic))) runtime_error ;;
  let image := take (length bytes - 4) bytes in
  throw_if (negb (crc32c hardware image =? stored_u32 bytes (length bytes - 4))) runtime_error ;;
  fst (base_body index_epoch next_object_id (drop 8 image)).

(** What the journal's frame holds. *)
Definition frame_body : st InCursor (Z * PackedMapEntry) :=
  type ← InBuf_u8;
  st_throw_if (negb (type =? MapPut) && negb (type =? MapDelete) && negb (type =? MapMove)) runtime_error ;;
  a ← InBuf_u8; st_throw_if (negb (a =? 0)) runtime_error ;;
  b ← InBuf_u8; st_throw_if (negb (b =? 0)) runtime_error ;;
  c ← InBuf_u8; st_throw_if (negb (c =? 0)) runtime_error ;;
  entry ← decode_map_entry;
  mret (type, entry).

Definition same_object (old entry : PackedMapEntry) : bool :=
  (e_kind old =? e_kind entry) && (e_extent_bytes old =? e_extent_bytes entry) && (e_stored_bytes old =? e_stored_bytes entry)
  && (e_logical_bytes old =? e_logical_bytes entry) && (e_record_crc32c old =? e_record_crc32c entry).

(** One record applied to the map. *)
Definition replay (state : ObjectMap * Z) (record : Z * PackedMapEntry) : res (ObjectMap * Z) :=
  let '(objects, next) := state in
  let '(type, entry) := record in
  let next := bump_next_id next (e_id entry) in
  if type =? MapDelete then Ok (delete (e_id entry) objects, next)
  else if type =? MapMove then
    match objects !! e_id entry with
    | None => Throw runtime_error
    | Some old =>
        throw_if (negb (same_object old entry)) runtime_error ;;
        install (delete (e_id entry) objects, next) entry
    end
  else install (objects, next) entry.

(** [while (off < bytes.size())]; a frame is never empty, so the length is enough fuel.
    The result counts the bytes replayed. *)
Fixpoint replay_log (fuel : nat) (bytes : list Z) (state : ObjectMap * Z) (off : Z) : res (ObjectMap * Z * Z) :=
  match fuel with
  | O => Ok (state, off)
  | S fuel =>
      if Z.of_nat (length bytes) <? kPackMapFrameBytes + 4 then Ok (state, off)
      else
        let frame := stored_u32 bytes 0 in
        throw_if (negb (frame =? kPackMapFrameBytes)) runtime_error ;;
        let n := Z.to_nat kPackMapFrameBytes in
        throw_if (negb (crc32c hardware (take n bytes) =? stored_u32 bytes n)) runtime_error ;;
        record ← fst (frame_body (drop 4 (take n bytes)));
        state ← replay state record;
        replay_log fuel (drop (n + 4) bytes) state (off + (kPackMapFrameBytes + 4))
  end.

(** The extents of one segment, in order. *)
Definition extent_before (a b : Z * Z) : Prop := fst a < fst b \/ (fst a = fst b /\ snd a <= snd b).

#[export] Instance extent_before_dec a b : Decision (extent_before a b).
Proof. unfold extent_before. apply _. Defined.

Definition extent_of (e : PackedMapEntry) : Z * Z := (e_offset e, e_offset e + e_extent_bytes e).

Definition segment_extents (entries : list PackedMapEntry) (kind segment : Z) : list (Z * Z) :=
  merge_sort extent_before (extent_of <$> filter (fun e => e_kind e = kind /\ e_segment e = segment) entries).

Fixpoint extents_overlap (previous : Z) (extents : list (Z * Z)) : bool :=
  match extents with
  | [] => false
  | e :: extents => (fst e <? previous) || extents_overlap (snd e) extents
  end.

Definition segment_overlaps (entries : list PackedMapEntry) (e : PackedMapEntry) : bool :=
  match segment_extents entries (e_kind e) (e_segment e) with
  | [] => false
  | first :: rest => extents_overlap (snd first) rest
  end.

(** The check of every segment; [entries] are [objects_] in some order. *)
Definition map_overlaps (objects : ObjectMap) : bool :=
  let entries := (map_to_list objects).*2 in
  existsb (segment_overlaps entries) entries.

Definition load_pack_map (index_epoch next_object_id : Z) (base log : option (list Z)) : res (ObjectMap * Z * Z) :=
  match base, log with
  | Some base, Some log =>
      state ← load_base index_epoch next_object_id base;
      '(state, off) ← replay_log (length log) log state 0;
      throw_if (map_overlaps (fst state)) runtime_error ;;
      Ok (state, off)
  | _, _ => Throw runtime_error
  end.

(** The bytes [append_pack_map] adds to the journal. *)
Definition append_pack_map (records : list PackedMapEntry) (kind : Z) : list Z :=
  concat ((fun e => encode_pack_map_frame hardware e kind) <$> records).
End map.

(** ** Checkpoints *)

(** The files of the store that select and describe the map. *)
Record MapStore : Type := MkStore {
  packset : list Z;
  map_bases : gmap Z (list Z);
  map_logs : gmap Z (list Z);
}.

Section store.
Context `{Crc32Isa} (hardware : bool).

(** What [open_pack_store] loads: the epoch and id reservation of PACKSET, then the map. *)
Definition open_map (s : MapStore) : res (ObjectMap * Z * Z) :=
  match decode_packset hardware (packset s) with
  | None => Throw runtime_error
  | Some (index_epoch, next_object_id) =>
      load_pack_map hardware index_epoch next_object_id (map_bases s !! index_epoch) (map_logs s !! index_epoch)
  end.

(** A durable step of [checkpoint_object_map].  A file write can be cut short by a
    crash; renaming PACKSET and removing a file cannot. *)
Inductive MapWrite : Type :=
  | WriteBase (epoch : Z) (bytes : list Z)
  | WriteLog (epoch : Z) (bytes : list Z)
  | RenamePackset (bytes : list Z)
  | RemoveBase (epoch : Z)
  | RemoveLog (epoch : Z).

Definition apply_write (s : MapStore) (w : MapWrite) : MapStore :=
  match w with
  | WriteBase epoch bytes => MkStore (packset s) (<[epoch := bytes]> (map_bases s)) (map_logs s)
  | WriteLog epoch bytes => MkStore (packset s) (map_bases s) (<[epoch := bytes]> (map_logs s))
  | RenamePackset bytes => MkStore bytes (map_bases s) (map_logs s)
  | RemoveBase epoch => MkStore (packset s) (delete epoch (map_bases s)) (map_logs s)
  | RemoveLog epoch => MkStore (packset s) (map_bases s) (delete epoch (map_logs s))
  end.

(** The files of the maps directory, as the iterator lists them: a base or a log. *)
Definition remove_file (file : bool * Z) : MapWrite := if fst file then RemoveBase (snd file) else RemoveLog (snd file).

Definition checkpoint_writes (next next_object_id reserved : Z) (entries : list PackedMapEntry) (files : list (bool * Z)) : list MapWrite :=
  [WriteBase next (encode_pack_map_base hardware next next_object_id entries);
   WriteLog next [];
   RenamePackset (encode_packset hardware next reserved)]
  ++ (remove_file <$> filter (fun file => snd file <> next) files).

(** The store a crash leaves: the first [k] steps, and the first [cut] bytes of a file
    write that was under way. *)
Definition crash_at (s : MapStore) (writes : list MapWrite) (k cut : nat) : MapStore :=
  let done := foldl apply_write s (take k writes) in
  match writes !! k with
  | Some (WriteBase epoch bytes) => apply_write done (WriteBase epoch (take cut bytes))
  | Some (WriteLog epoch bytes) => apply_write done (WriteLog epoch (take cut bytes))
  | _ => done
  end.
End store.
