(* ===== verification/DiskMapTheorems.v ===== *)
(** * The object map survives a crash, and what a restart accepts is sound *)

From stdpp Require Import prelude list list_numbers sorting gmap.
From Stdlib Require Import ZArith Lia.
From S2P Require Import Prelude.
From S2P Require Import Bytes.
From S2P Require Import Codec.
From S2P Require Import Crc32c.
From S2P Require Import CrcTheorems.
From S2P Require Import DiskFormat.
From S2P Require Import DiskFormatTheorems.
From S2P Require Import DiskMap.
#[local] Open Scope Z_scope.

(** ** Images are bytes *)
Lemma out_u8_bytes v : Forall is_byte (OutBuf_u8 v).
Proof. constructor; [|constructor]. unfold is_byte, wrap8. apply Z.mod_pos_bound. lia. Qed.

Lemma out_u32_bytes v : Forall is_byte (OutBuf_u32 v).
Proof. rewrite out_u32. apply le_bytes_bytes. Qed.

Lemma out_u64_bytes v : Forall is_byte (OutBuf_u64 v).
Proof. rewrite out_u64. apply le_bytes_bytes. Qed.

Lemma entry_bytes e : Forall is_byte (encode_map_entry e).
Proof.
  unfold encode_map_entry. rewrite !Forall_app. split_and!;
    first [apply out_u8_bytes|apply out_u32_bytes|apply out_u64_bytes].
Qed.

Lemma length_entry e : length (encode_map_entry e) = 52%nat.
Proof. unfold encode_map_entry. by rewrite !length_app, !length_out_u32, !length_out_u64. Qed.

(** The stored word of an image. *)
Lemma stored_u32_spec l v rest : u32 v -> stored_u32 (l ++ OutBuf_u32 v ++ rest) (length l) = v.
Proof.
  intros Hv. pose proof (inbuf_u32 v Hv rest) as H. rewrite out_u32 in *. unfold stored_u32.
  assert (forall k, nth (length l + k) (l ++ le_bytes 4 v ++ rest) 0 = nth k (le_bytes 4 v ++ rest) 0) as E.
  { intros k. rewrite app_nth2 by lia. f_equal. lia. }
  rewrite !E. pose proof (le_bytes_bytes 4 v) as Hb. pose proof (length_le_bytes 4 v) as Hl.
  destruct (le_bytes 4 v) as [|a [|b [|c [|d0 [|]]]]]; try done.
  unfold InBuf_u32, InBuf_u8, mbind, st_bind, mret, st_ret in H. cbn -[Z.lor Z.shiftl] in H |- *. by injection H.
Qed.

(** ** Entries *)
Record entry_wide (e : PackedMapEntry) : Prop := MkEntryWide {
  ew_id : u64 (e_id e);
  ew_kind : is_byte (e_kind e);
  ew_segment : u32 (e_segment e);
  ew_longs : Forall u64 [e_offset e; e_extent_bytes e; e_stored_bytes e; e_logical_bytes e];
  ew_crc : u32 (e_record_crc32c e);
}.

Lemma entry_reads e : entry_wide e -> reads decode_map_entry (encode_map_entry e) e.
Proof.
  intros [H1 H2 H3 H4 H5]. repeat (apply Forall_cons in H4 as [? H4]). unfold decode_map_entry, encode_map_entry. do 2 next_field.
  replace (OutBuf_u8 0 ++ OutBuf_u8 0 ++ OutBuf_u8 0 ++ OutBuf_u32 (e_segment e) ++ OutBuf_u64 (e_offset e) ++
    OutBuf_u64 (e_extent_bytes e) ++ OutBuf_u64 (e_stored_bytes e) ++ OutBuf_u64 (e_logical_bytes e) ++ OutBuf_u32 (e_record_crc32c e))
    with ([0; 0; 0] ++ OutBuf_u32 (e_segment e) ++ OutBuf_u64 (e_offset e) ++
    OutBuf_u64 (e_extent_bytes e) ++ OutBuf_u64 (e_stored_bytes e) ++ OutBuf_u64 (e_logical_bytes e) ++ OutBuf_u32 (e_record_crc32c e))
    by reflexivity.
  eapply reads_bind; [by apply inbuf_skip|]. do 5 next_field.
  rewrite <- (app_nil_r (OutBuf_u32 (e_record_crc32c e))). next_field. by destruct e.
Qed.

(** ** Frames *)
Section frames.
Context `{!Crc32Isa} `{!Crc32IsaSpec _} (hardware : bool).

Lemma crc32c_u32 bytes : Forall is_byte bytes -> u64 (Z.of_nat (length bytes)) -> u32 (crc32c hardware bytes).
Proof. intros Hb Hl. rewrite crc32c_exact by done. apply crc_of_u32. Qed.

Definition frame_image (r : Z * PackedMapEntry) : list Z :=
  OutBuf_u32 kPackMapFrameBytes ++ OutBuf_u8 (fst r) ++ OutBuf_u8 0 ++ OutBuf_u8 0 ++ OutBuf_u8 0 ++ encode_map_entry (snd r).

Definition frame_of (r : Z * PackedMapEntry) : list Z := encode_pack_map_frame hardware (snd r) (fst r).

Lemma length_frame_image r : length (frame_image r) = 60%nat.
Proof. unfold frame_image. by rewrite !length_app, length_out_u32, length_entry. Qed.

Lemma frame_image_bytes r : Forall is_byte (frame_image r).
Proof.
  unfold frame_image. rewrite !Forall_app. split_and!; first [apply out_u8_bytes|apply out_u32_bytes|apply entry_bytes].
Qed.

Lemma frame_crc r : u32 (crc32c hardware (frame_image r)).
Proof. apply crc32c_u32; [apply frame_image_bytes|]. rewrite length_frame_image. by vm_compute. Qed.

Lemma length_frame r : length (frame_of r) = 64%nat.
Proof.
  change (frame_of r) with (frame_image r ++ OutBuf_u32 (crc32c hardware (frame_image r))).
  by rewrite length_app, length_frame_image, length_out_u32.
Qed.

Definition record_type (t : Z) : Prop := t = MapPut \/ t = MapDelete \/ t = MapMove.

Lemma frame_reads r : record_type (fst r) -> entry_wide (snd r) -> fst (frame_body (drop 4 (frame_image r))) = Ok r.
Proof.
  intros Ht He. unfold frame_image. rewrite (drop_app_length' _ _ 4) by (by rewrite length_out_u32).
  assert (reads frame_body (OutBuf_u8 (fst r) ++ OutBuf_u8 0 ++ OutBuf_u8 0 ++ OutBuf_u8 0 ++ encode_map_entry (snd r)) r) as Hread.
  { unfold frame_body. eapply reads_bind; [apply inbuf_byte; unfold is_byte; destruct Ht as [-> |[-> | ->]]; by vm_compute|].
    replace (negb (fst r =? MapPut) && negb (fst r =? MapDelete) && negb (fst r =? MapMove)) with false
      by (destruct Ht as [-> |[-> | ->]]; done).
    assert (forall (k : unit -> st InCursor (Z * PackedMapEntry)) e l, reads (k tt) l r -> reads (st_throw_if false e ≫= k) l r) as Hc.
    { intros k e l Hk. rewrite <- (app_nil_l l). eapply reads_bind; [apply inbuf_check|done]. }
    apply Hc. eapply reads_bind; [by apply inbuf_byte|]. apply Hc. eapply reads_bind; [by apply inbuf_byte|]. apply Hc.
    eapply reads_bind; [by apply inbuf_byte|]. apply Hc.
    rewrite <- (app_nil_r (encode_map_entry _)). eapply reads_bind; [by apply entry_reads|]. by destruct r. }
  specialize (Hread []). rewrite app_nil_r in Hread. by rewrite Hread.
Qed.

(** The journal is replayed frame by frame; what is too short to be a frame is left. *)
Lemma replay_frames rs tail : Forall (fun r => record_type (fst r) /\ entry_wide (snd r)) rs -> (length tail < 64)%nat ->
  forall fuel state off state', (length (concat (frame_of <$> rs) ++ tail) <= fuel)%nat -> res_foldl replay rs state = Ok state' ->
  replay_log hardware fuel (concat (frame_of <$> rs) ++ tail) state off = Ok (state', off + 64 * Z.of_nat (length rs)).
Proof.
  intros Hrs Htail. induction Hrs as [|r rs [Ht He] _ IH]; intros fuel state off state' Hfuel Hrep.
  - cbn in Hrep. injection Hrep as <-. cbn [fmap list_fmap concat app length] in *. rewrite Z.mul_0_r, Z.add_0_r.
    destruct fuel as [|fuel]; [done|]. cbn [replay_log]. change (kPackMapFrameBytes + 4) with 64.
    rewrite (proj2 (Z.ltb_lt _ _)) by lia. done.
  - rewrite fmap_cons in Hfuel |- *. cbn [concat] in *. rewrite <- app_assoc in *. rewrite length_app, length_frame in Hfuel.
    destruct fuel as [|fuel]; [lia|]. cbn [replay_log]. change (kPackMapFrameBytes + 4) with 64. change (Z.to_nat kPackMapFrameBytes) with 60%nat.
    rewrite (proj2 (Z.ltb_ge _ _)) by (rewrite length_app, length_frame; lia).
    set (rest := concat (frame_of <$> rs) ++ tail) in *.
    assert (frame_of r ++ rest = frame_image r ++ OutBuf_u32 (crc32c hardware (frame_image r)) ++ rest) as E by (unfold frame_of, encode_pack_map_frame, with_crc; by rewrite <- app_assoc).
    assert (stored_u32 (frame_of r ++ rest) 0 = kPackMapFrameBytes) as ->.
    { rewrite E. unfold frame_image. rewrite <- app_assoc. apply (stored_u32_spec []). by vm_compute. }
    rewrite Z.eqb_refl. cbn [negb throw_if mbind res_bind].
    assert (take 60 (frame_of r ++ rest) = frame_image r) as ->.
    { rewrite E. apply take_app_length'. by rewrite length_frame_image. }
    assert (stored_u32 (frame_of r ++ rest) 60 = crc32c hardware (frame_image r)) as ->.
    { rewrite E. pose proof (stored_u32_spec (frame_image r) _ rest (frame_crc r)) as Hc. by rewrite length_frame_image in Hc. }
    rewrite Z.eqb_refl. cbn [negb throw_if mbind res_bind]. rewrite frame_reads by done.
    cbn [res_foldl] in Hrep. apply res_bind_Ok in Hrep as (s1 & Hs1 & Hrep).
    cbn [mbind res_bind]. rewrite Hs1. cbn [mbind res_bind].
    replace (drop (60 + 4) (frame_of r ++ rest)) with rest by (symmetry; apply drop_app_length'; by rewrite length_frame).
    rewrite (IH fuel s1 (off + 64) state') by (done || lia). do 2 f_equal. cbn [length]. lia.
Qed.
End frames.

(** ** Disjoint extents *)

(** [R] holds between the elements at any two positions. *)
Definition pairwise {A} (R : A -> A -> Prop) (l : list A) : Prop :=
  forall i j x y, i <> j -> l !! i = Some x -> l !! j = Some y -> R x y.

Lemma pairwise_perm {A} (R : A -> A -> Prop) l k : l ≡ₚ k -> pairwise R k -> pairwise R l.
Proof.
  intros [_ (f & Hf & Hl)]%Permutation_inj Hk i j x y Hij Hx Hy. rewrite Hl in Hx, Hy.
  eapply (Hk (f i) (f j)); [|done|done]. intros E. by apply Hij, Hf.
Qed.

Lemma pairwise_fmap {A B} (R : B -> B -> Prop) (f : A -> B) l : pairwise R (f <$> l) <-> pairwise (fun x y => R (f x) (f y)) l.
Proof.
  split; intros Hl i j x y Hij Hx Hy.
  - eapply Hl; [done|by rewrite list_lookup_fmap, Hx|by rewrite list_lookup_fmap, Hy].
  - rewrite list_lookup_fmap in Hx, Hy. apply fmap_Some in Hx as (a & Ha & ->), Hy as (b & Hb & ->). by eapply Hl.
Qed.

Lemma pairwise_cons {A} (R : A -> A -> Prop) a l : Symmetric R ->
  pairwise R (a :: l) <-> Forall (R a) l /\ pairwise R l.
Proof.
  intros Hs. split.
  - intros Hl. split.
    + apply Forall_lookup_2. intros i x Hx. by apply (Hl 0%nat (S i)).
    + intros i j x y Hij. apply (Hl (S i) (S j)). lia.
  - intros [Ha Hl] [|i] [|j] x y Hij Hx Hy; cbn in Hx, Hy; simplify_eq; [by eapply Forall_lookup_1| |].
    + symmetry. by eapply Forall_lookup_1.
    + eapply Hl; [|done|done]. lia.
Qed.

Lemma pairwise_nodup {A} (R : A -> A -> Prop) l : NoDup l ->
  pairwise R l <-> forall x y, x ∈ l -> y ∈ l -> x <> y -> R x y.
Proof.
  intros Hn. split.
  - intros Hl x y [i Hi]%list_elem_of_lookup [j Hj]%list_elem_of_lookup Hxy. eapply (Hl i j); [|done|done]. by intros ->; simplify_eq.
  - intros Hl i j x y Hij Hx Hy. apply Hl; [by eapply list_elem_of_lookup_2|by eapply list_elem_of_lookup_2|].
    intros <-. by apply Hij, (NoDup_lookup _ _ _ _ Hn Hx).
Qed.

(** Two half-open ranges that do not meet. *)
Definition apart (a b : Z * Z) : Prop := snd a <= fst b \/ snd b <= fst a.

#[export] Instance apart_sym : Symmetric apart.
Proof. intros a b [?|?]; [right|left]; done. Qed.

#[export] Instance extent_before_trans : Transitive extent_before.
Proof. unfold extent_before. intros a b c. lia. Qed.

#[export] Instance extent_before_total : Total extent_before.
Proof. unfold extent_before. intros a b. lia. Qed.

Lemma adjacent_apart a l : Forall (fun e => fst e < snd e) l -> extents_overlap (snd a) l = false ->
  Forall (fun e => snd a <= fst e) l /\ pairwise apart (a :: l).
Proof.
  revert a. induction l as [|b l IH]; intros a Hp Ho.
  - split; [done|]. apply pairwise_cons; [apply _|]. by split.
  - apply Forall_cons in Hp as [Hb Hp]. cbn [extents_overlap] in Ho. apply orb_false_iff in Ho as [Ho1%Z.ltb_ge Ho2].
    destruct (IH b Hp Ho2) as [Hle Hpw].
    assert (Forall (fun e => snd a <= fst e) (b :: l)) as Hall.
    { constructor; [done|]. eapply Forall_impl; [exact Hle|]. cbn. intros; lia. }
    split; [done|]. apply pairwise_cons; [apply _|]. split; [|done]. eapply Forall_impl; [exact Hall|]. by left.
Qed.

Lemma apart_adjacent a l : Forall (fun e => fst e < snd e) l -> StronglySorted extent_before (a :: l) ->
  pairwise apart (a :: l) -> extents_overlap (snd a) l = false.
Proof.
  revert a. induction l as [|b l IH]; intros a Hp Hs Hpw; [done|]. apply Forall_cons in Hp as [Hb Hp].
  apply StronglySorted_inv in Hs as [Hs Ha]. apply pairwise_cons in Hpw as [Hab Hpw]; [|apply _].
  apply Forall_cons in Ha as [Hbef _]. apply Forall_cons in Hab as [Hab _]. cbn [extents_overlap].
  rewrite IH, orb_false_r by done. apply Z.ltb_ge. unfold extent_before, apart in *. lia.
Qed.

(** What two entries of one map owe each other. *)
Definition extents_disjoint (e f : PackedMapEntry) : Prop :=
  e_kind e <> e_kind f \/ e_segment e <> e_segment f \/ apart (extent_of e) (extent_of f).

Lemma segment_overlaps_spec entries e : NoDup entries -> Forall (fun e => 0 < e_extent_bytes e) entries ->
  segment_overlaps entries e = false <->
  forall x y, x ∈ entries -> y ∈ entries -> x <> y -> e_kind x = e_kind e /\ e_segment x = e_segment e ->
    e_kind y = e_kind e /\ e_segment y = e_segment e -> apart (extent_of x) (extent_of y).
Proof.
  intros Hn Hp. unfold segment_overlaps, segment_extents. set (es := filter _ entries).
  pose proof (merge_sort_Permutation extent_before (extent_of <$> es)) as Hperm.
  pose proof (StronglySorted_merge_sort extent_before (extent_of <$> es)) as Hsort.
  assert (Forall (fun r => fst r < snd r) (merge_sort extent_before (extent_of <$> es))) as Hpos.
  { rewrite Hperm, Forall_fmap. apply Forall_forall. intros x [_ Hx]%list_elem_of_filter.
    rewrite Forall_forall in Hp. specialize (Hp x Hx). cbn. lia. }
  transitivity (pairwise apart (merge_sort extent_before (extent_of <$> es))).
  { destruct (merge_sort _ _) as [|a l]; [split; [|done]; intros _ i j x y _ [=]|]. apply Forall_cons in Hpos as [_ Hpos]. split.
    - intros Ho. by apply adjacent_apart.
    - by apply apart_adjacent. }
  transitivity (pairwise apart (extent_of <$> es)).
  { split; apply pairwise_perm; [by symmetry|done]. }
  rewrite pairwise_fmap, pairwise_nodup by (by apply NoDup_filter). subst es. split; intros Hx x y.
  - intros. apply Hx; [by apply list_elem_of_filter|by apply list_elem_of_filter|done].
  - intros [? ?]%list_elem_of_filter [? ?]%list_elem_of_filter ?. by apply Hx.
Qed.

(** ** Sound maps *)
Definition sound_entry (i : Z) (e : PackedMapEntry) : Prop := e_id e = i /\ location_invalid e = false /\ entry_wide e.

Definition disjoint_map (m : ObjectMap) : Prop :=
  forall i j e f, i <> j -> m !! i = Some e -> m !! j = Some f -> extents_disjoint e f.

Definition sound_map (m : ObjectMap) : Prop := map_Forall sound_entry m /\ disjoint_map m.

Lemma sound_extent i e : sound_entry i e -> 0 < e_extent_bytes e.
Proof.
  intros (_ & Hv & [_ _ _ Hw _]). unfold location_invalid in Hv. guards. apply Forall_cons in Hw as [_ Hw]. apply Forall_cons in Hw as [Hw _].
  width_lia.
Qed.

Lemma values_in (m : ObjectMap) e : map_Forall sound_entry m -> e ∈ (map_to_list m).*2 <-> m !! e_id e = Some e.
Proof.
  intros Hm. rewrite list_elem_of_fmap. split.
  - intros ([i e'] & -> & He%elem_of_map_to_list). cbn. destruct (Hm i e' He) as [-> _]. done.
  - intros He. exists (e_id e, e). split; [done|]. by apply elem_of_map_to_list.
Qed.

Lemma ids_of_values (m : ObjectMap) : map_Forall sound_entry m -> e_id <$> (map_to_list m).*2 = (map_to_list m).*1.
Proof.
  intros Hm. rewrite <- list_fmap_compose. apply list_fmap_ext. intros k [i e] Hk. cbn.
  apply (Hm i e). apply elem_of_map_to_list. by eapply list_elem_of_lookup_2.
Qed.

Lemma nodup_values (m : ObjectMap) : map_Forall sound_entry m -> NoDup (map_to_list m).*2.
Proof. intros Hm. apply (NoDup_fmap_1 e_id). rewrite ids_of_values by done. apply NoDup_fst_map_to_list. Qed.

Lemma map_overlaps_spec m : map_Forall sound_entry m -> map_overlaps m = false <-> disjoint_map m.
Proof.
  intros Hm. unfold map_overlaps. set (es := (map_to_list m).*2).
  assert (Forall (fun e => 0 < e_extent_bytes e) es) as Hp.
  { apply Forall_forall. intros e He%values_in; [|done]. eapply sound_extent, (Hm _ _ He). }
  pose proof (nodup_values m Hm) as Hn. split.
  - intros Ho i j e f Hij He Hf. destruct (Hm i e He) as [<- _], (Hm j f Hf) as [<- _]. unfold extents_disjoint.
    destruct (decide (e_kind e = e_kind f)) as [Hk|]; [|by left]. destruct (decide (e_segment e = e_segment f)) as [Hs|]; [|by right; left].
    right. right. assert (e ∈ es /\ f ∈ es) as [Hie Hif] by (by split; apply (values_in m _ Hm)).
    eapply (proj1 (segment_overlaps_spec es e Hn Hp)); [|done|done|by intros ->|done|done].
    apply not_true_iff_false. intros Hbad. apply not_true_iff_false in Ho. apply Ho, existsb_exists. exists e. by rewrite <- list_elem_of_In.
  - intros Hd. apply not_true_iff_false. rewrite existsb_exists. intros (e & _ & Hov). apply not_false_iff_true in Hov. apply Hov.
    apply (segment_overlaps_spec es e Hn Hp). intros x y Hx%values_in Hy%values_in Hxy [K S] [K' S']; [|done|done].
    assert (e_id x <> e_id y) as Hid by (intros E; rewrite E in Hx; congruence).
    destruct (Hd _ _ _ _ Hid Hx Hy) as [?|[?|?]]; congruence.
Qed.

(** Every id of the map is below the next one to be handed out, until the id space is
    exhausted. *)
Definition ids_below (m : ObjectMap) (next : Z) : Prop :=
  next <= size_max /\ forall i, is_Some (m !! i) -> i < next \/ next = size_max.

Lemma bump_bound next i : u64 i -> next <= size_max ->
  next <= bump_next_id next i <= size_max /\ (i <> 0 -> i < bump_next_id next i \/ bump_next_id next i = size_max).
Proof.
  intros Hi Hn. unfold bump_next_id. destruct (Z.eqb_spec i 0) as [->|]; [lia|]. destruct (Z.eqb_spec i size_max) as [->|]; [lia|].
  width_lia.
Qed.

Lemma ids_below_bump m next i : u64 i -> ids_below m next -> ids_below m (bump_next_id next i).
Proof.
  intros Hi [Hn Hm]. pose proof (bump_bound next i Hi Hn) as [? _]. split; [lia|]. intros k Hk. specialize (Hm k Hk). lia.
Qed.
