(* ===== verification/DiskRecovery.v ===== *)
(** * Restarting from the object map

    What a restart accepts is sound; an append interrupted at any byte recovers as the
    records that were complete; a checkpoint interrupted anywhere keeps the map. *)

From stdpp Require Import prelude list list_numbers sorting gmap.
From Stdlib Require Import ZArith Lia.
From S2P Require Import Prelude.
From S2P Require Import Bytes.
From S2P Require Import Codec.
From S2P Require Import Crc32c.
From S2P Require Import CrcTheorems.
From S2P Require Import DiskFormat.
From S2P Require Import DiskFormatTheorems.
From S2P Require Import DiskMap.
From S2P Require Import DiskMapTheorems.
#[local] Open Scope Z_scope.

(** ** What a reader returns from bytes *)
Definition yields {A} (r : st InCursor A) (P : A -> Prop) : Prop :=
  forall l x l', Forall is_byte l -> r l = (Ok x, l') -> P x /\ Forall is_byte l'.

Lemma yields_bind {A B} (r : st InCursor A) (k : A -> st InCursor B) P Q :
  yields r P -> (forall x, P x -> yields (k x) Q) -> yields (r ≫= k) Q.
Proof.
  intros Hr Hk l y l' Hl H. apply st_bind_inv in H as (x & l1 & Hx & Hy). destruct (Hr l x l1 Hl Hx) as [HP Hl1].
  by apply (Hk x HP l1).
Qed.

Lemma yields_ret {A} (x : A) (P : A -> Prop) : P x -> yields (mret x) P.
Proof. intros HP l y l' Hl [= <- <-]. done. Qed.

Lemma yields_check b e : yields (st_throw_if b e) (fun _ => b = false).
Proof. intros l x l' Hl [H ->]%lift_inv. by apply throw_if_Ok in H. Qed.

Lemma yields_get (P : InCursor -> Prop) : (forall l, Forall is_byte l -> P l) -> yields get P.
Proof. intros HP l x l' Hl [= <- <-]. by split; [apply HP|]. Qed.

Lemma yields_u8 : yields InBuf_u8 is_byte.
Proof. intros [|b l] x l' Hl H; [done|]. injection H as <- <-. by apply Forall_cons in Hl. Qed.

Lemma yields_u32 : yields InBuf_u32 u32.
Proof.
  intros l x l' Hl H. destruct l as [|a [|b [|c [|d rest]]]]; try done.
  change (a :: b :: c :: d :: rest) with ([a; b; c; d] ++ rest) in *. apply Forall_app in Hl as [Hl Hrest].
  rewrite inbuf_u32_value in H by done. injection H as <- <-. split; [|done]. pose proof (le_value_range _ Hl) as Hr.
  change (256 ^ Z.of_nat (length [a; b; c; d])) with (2 ^ 32) in Hr. cbn [le_value] in Hr. unfold u32, u32_max. lia.
Qed.

Lemma yields_u64 : yields InBuf_u64 u64.
Proof.
  intros l x l' Hl H. destruct l as [|a [|b [|c [|d [|e [|f [|g [|h rest]]]]]]]]; try done.
  change (a :: b :: c :: d :: e :: f :: g :: h :: rest) with ([a; b; c; d; e; f; g; h] ++ rest) in *. apply Forall_app in Hl as [Hl Hrest].
  rewrite inbuf_u64_value in H by done. injection H as <- <-. split; [|done]. pose proof (le_value_range _ Hl) as Hr.
  change (256 ^ Z.of_nat (length [a; b; c; d; e; f; g; h])) with (2 ^ 64) in Hr. cbn [le_value] in Hr. unfold u64, size_max. lia.
Qed.

Lemma yields_skip n : yields (InBuf_skip n) (fun _ => True).
Proof.
  intros l x l' Hl H. unfold InBuf_skip in H. st_inv H. injection H0 as <-. injection H as _ <-. split; [done|]. by apply Forall_drop.
Qed.

Lemma yields_repeat {A} (r : st InCursor A) P n : yields r P -> yields (InBuf_repeat n r) (Forall P).
Proof.
  intros Hr. induction n as [|n IH]; cbn [InBuf_repeat]; [by apply yields_ret|].
  eapply yields_bind; [exact Hr|]. intros x Hx. eapply yields_bind; [exact IH|]. intros xs Hxs. apply yields_ret. by constructor.
Qed.

Lemma yields_entry : yields decode_map_entry entry_wide.
Proof.
  unfold decode_map_entry.
  eapply yields_bind; [apply yields_u64|]. intros id Hid. eapply yields_bind; [apply yields_u8|]. intros kind Hkind.
  eapply yields_bind; [apply yields_skip|]. intros _ _. eapply yields_bind; [apply yields_u32|]. intros seg Hseg.
  do 4 (eapply yields_bind; [apply yields_u64|]; intros ? ?). eapply yields_bind; [apply yields_u32|]. intros crc Hcrc.
  apply yields_ret. constructor; [done..| |done]. by repeat (apply Forall_cons; split).
Qed.

Lemma yields_frame : yields frame_body (fun r => entry_wide (snd r)).
Proof.
  unfold frame_body. eapply yields_bind; [apply yields_u8|]. intros t _. eapply yields_bind; [apply yields_check|]. intros _ _.
  do 3 (eapply yields_bind; [apply yields_u8|]; intros ? _; eapply yields_bind; [apply yields_check|]; intros _ _).
  eapply yields_bind; [apply yields_entry|]. intros e He. by apply yields_ret.
Qed.

(** ** What a replay keeps *)
Definition good (state : ObjectMap * Z) : Prop := map_Forall sound_entry (fst state) /\ ids_below (fst state) (snd state).

Lemma install_good state e state' : entry_wide e -> good state -> install state e = Ok state' -> good state'.
Proof.
  intros He [Hm Hb] H. destruct state as [m next]. unfold install in H. res_inv H.
  destruct (m !! e_id e) as [old|]; [res_inv H; by injection H as <-|]. injection H as <-. unfold good. cbn [fst snd] in *. split.
  - apply map_Forall_insert_2; [|done]. done.
  - pose proof (ids_below_bump m next (e_id e) (ew_id e He) Hb) as [Hn Hold]. split; [done|].
    intros i [<-|Hi]%lookup_insert_is_Some'; [|by apply Hold]. apply bump_bound; [apply He|apply Hb|]. unfold location_invalid in H0. by guards.
Qed.

Lemma replay_good state r state' : entry_wide (snd r) -> good state -> replay state r = Ok state' -> good state'.
Proof.
  intros He [Hm Hb] H. destruct state as [m next], r as [t e]. cbn [fst snd] in *. unfold replay in H.
  pose proof (ids_below_bump m next (e_id e) (ew_id e He) Hb) as Hbump.
  assert (good (delete (e_id e) m, bump_next_id next (e_id e))) as Hdel.
  { split; cbn [fst snd]; [by apply map_Forall_delete|]. destruct Hbump as [Hn Hi]. split; [done|]. intros i Hs. apply Hi.
    apply lookup_delete_is_Some in Hs. tauto. }
  destruct (t =? MapDelete); [by injection H as <-|]. destruct (t =? MapMove).
  - destruct (m !! e_id e); [|done]. res_inv H. by eapply install_good.
  - eapply install_good; [done| |done]. by split.
Qed.

Section recovery.
Context `{isa : !Crc32Isa} (hardware : bool).

Lemma replay_log_good fuel bytes state off state' off' : Forall is_byte bytes -> (length bytes <= fuel)%nat -> good state ->
  replay_log hardware fuel bytes state off = Ok (state', off') ->
  good state' /\ exists k : nat, off' = off + 64 * Z.of_nat k /\ (64 * k <= length bytes < 64 * k + 64)%nat.
Proof.
  revert bytes state off. induction fuel as [|fuel IH]; intros bytes state off Hb Hf Hg H.
  - injection H as <- <-. split; [done|]. exists 0%nat. lia.
  - cbn [replay_log] in H. change (kPackMapFrameBytes + 4) with 64 in H. destruct (Z.ltb_spec (Z.of_nat (length bytes)) 64).
    { injection H as <- <-. split; [done|]. exists 0%nat. lia. }
    apply res_bind_Ok in H as (? & _ & H). apply res_bind_Ok in H as (? & _ & H).
    apply res_bind_Ok in H as (r & Hr & H). apply res_bind_Ok in H as (s1 & Hs1 & H).
    apply IH in H as (Hg' & k & -> & Hk).
    + rewrite length_drop in Hk. change (Z.to_nat kPackMapFrameBytes + 4)%nat with 64%nat in Hk. split; [done|]. exists (S k). lia.
    + by apply Forall_drop.
    + rewrite length_drop. change (Z.to_nat kPackMapFrameBytes + 4)%nat with 64%nat. lia.
    + eapply replay_good; [|exact Hg|exact Hs1]. destruct (frame_body _) as [res l'] eqn:E. cbn in Hr. subst res.
      eapply yields_frame; [|exact E]. by apply Forall_drop, Forall_take.
Qed.

Lemma fold_install_good es state state' : Forall entry_wide es -> good state -> res_foldl install es state = Ok state' -> good state'.
Proof.
  intros Hes. revert state. induction Hes as [|e es He _ IH]; intros state Hg H; [by injection H as <-|].
  cbn [res_foldl] in H. apply res_bind_Ok in H as (s1 & Hs1 & H). eapply IH; [|done]. by eapply install_good.
Qed.

Lemma load_base_good epoch next bytes state : Forall is_byte bytes -> next <= size_max ->
  load_base hardware epoch next bytes = Ok state -> good state.
Proof.
  intros Hb Hn H. unfold load_base in H. apply res_bind_Ok in H as (? & _ & H). apply res_bind_Ok in H as (? & _ & H).
  assert (yields (base_body epoch next) good) as Hy.
  { unfold base_body. do 2 (eapply yields_bind; [apply yields_u32|]; intros ? _). eapply yields_bind; [apply yields_u64|]; intros ? _.
    eapply yields_bind; [apply yields_check|]; intros _ _. eapply yields_bind; [apply yields_u64|]; intros nx Hnx.
    do 2 (eapply yields_bind; [apply yields_u64|]; intros ? _). eapply yields_bind; [by apply (yields_get (fun _ => True))|]; intros ? _.
    eapply yields_bind; [apply yields_check|]; intros _ _. eapply yields_bind; [apply yields_repeat, yields_entry|]; intros es Hes.
    intros l y l' Hl [Hx ->]%lift_inv. split; [|done]. eapply fold_install_good; [exact Hes| |exact Hx].
    split; [apply map_Forall_empty|]. split; [apply bump_bound; done|]. intros i Hi. cbn [fst] in Hi. by apply lookup_empty_is_Some in Hi. }
  destruct (base_body _ _ _) as [res l'] eqn:E. cbn in H. subst res. eapply Hy; [|exact E]. by apply Forall_drop, Forall_take.
Qed.

(** A map that loads is sound, whatever the bytes of its files. *)
Lemma load_sound epoch next base log m next' off : Forall is_byte base -> Forall is_byte log -> next <= size_max ->
  load_pack_map hardware epoch next (Some base) (Some log) = Ok (m, next', off) ->
  sound_map m /\ ids_below m next' /\ exists k : nat, off = 64 * Z.of_nat k /\ (64 * k <= length log < 64 * k + 64)%nat.
Proof.
  intros Hbase Hlog Hn H. unfold load_pack_map in H. apply res_bind_Ok in H as (s0 & Hs0 & H).
  apply res_bind_Ok in H as ([[m1 n1] off1] & Hs1 & H). apply res_bind_Ok in H as (? & Ho%throw_if_Ok & H). injection H as -> -> ->.
  apply replay_log_good in Hs1 as [[Hm Hb] (k & -> & Hk)]; [|done|done|exact (load_base_good _ _ _ _ Hbase Hn Hs0)]. cbn [fst snd] in *.
  split; [|split; [done|exists k; lia]]. split; [done|]. by apply map_overlaps_spec.
Qed.

(** A file that was replayed to its end, with more bytes after it. *)
Lemma replay_log_app fuel log state off state' : replay_log hardware fuel log state off = Ok (state', off + Z.of_nat (length log)) ->
  forall more fuel', (length (log ++ more) <= fuel')%nat -> exists fuel'', (length more <= fuel'')%nat /\
    replay_log hardware fuel' (log ++ more) state off = replay_log hardware fuel'' more state' (off + Z.of_nat (length log)).
Proof.
  revert log state off. induction fuel as [|fuel IH]; intros log state off H more fuel' Hf.
  - injection H as -> E. destruct log; [|cbn [length] in E; lia]. exists fuel'. by rewrite Z.add_0_r.
  - cbn [replay_log] in H. change (kPackMapFrameBytes + 4) with 64 in H. change (Z.to_nat kPackMapFrameBytes) with 60%nat in H.
    destruct (Z.ltb_spec (Z.of_nat (length log)) 64) as [Hs|Hs].
    { injection H as -> E. destruct log; [|cbn [length] in E; lia]. exists fuel'. by rewrite Z.add_0_r. }
    destruct fuel' as [|fuel']; [rewrite length_app in Hf; lia|]. cbn [replay_log]. change (kPackMapFrameBytes + 4) with 64.
    change (Z.to_nat kPackMapFrameBytes) with 60%nat. rewrite (proj2 (Z.ltb_ge _ _)) by (rewrite length_app; lia).
    assert (forall i, (i + 3 < length log)%nat -> stored_u32 (log ++ more) i = stored_u32 log i) as Hst.
    { intros i Hi. unfold stored_u32. by rewrite !app_nth1 by lia. }
    rewrite !Hst, take_app_le, drop_app_le by lia.
    apply res_bind_Ok in H as (u & -> & H). apply res_bind_Ok in H as (v & -> & H). cbn [mbind res_bind].
    apply res_bind_Ok in H as (r & -> & H). cbn [mbind res_bind]. apply res_bind_Ok in H as (s1 & -> & H). cbn [mbind res_bind].
    assert (Z.of_nat (length log) = 64 + Z.of_nat (length (drop (60 + 4) log))) as El by (rewrite length_drop; lia).
    rewrite El, Z.add_assoc in H |- *. apply (IH _ _ _ H more fuel'). rewrite !length_app in *. rewrite length_drop. lia.
Qed.

Context `{spec : !Crc32IsaSpec isa}.

(** Any prefix of a journal is whole frames and a torn one. *)
Lemma torn_frames rs (c : nat) : exists tail, (length tail < 64)%nat /\
  take c (concat (frame_of hardware <$> rs)) = concat (frame_of hardware <$> take (c / 64) rs) ++ tail.
Proof.
  revert c. induction rs as [|r rs IH]; intros c.
  - exists []. split; [cbn; lia|]. rewrite take_nil. cbn [fmap list_fmap concat app]. apply take_nil.
  - rewrite fmap_cons. cbn [concat]. destruct (decide (c < 64)%nat) as [Hc|Hc].
    + exists (take c (frame_of hardware r ++ concat (frame_of hardware <$> rs))). rewrite length_take. split; [lia|].
      by rewrite (Nat.div_small c 64) by lia.
    + destruct (IH (c - 64)%nat) as (tail & Ht & E). exists tail. split; [done|].
      assert (c / 64 = S ((c - 64) / 64))%nat as ->.
      { replace c with ((c - 64) + 1 * 64)%nat at 1 by lia. rewrite Nat.div_add by lia. lia. }
      rewrite firstn_cons, fmap_cons. cbn [concat]. rewrite take_app_ge by (rewrite length_frame; lia).
      rewrite length_frame, E. by rewrite <- app_assoc.
Qed.
End recovery.

(** ** Records against a map *)
Definition apply_record (m : ObjectMap) (r : Z * PackedMapEntry) : ObjectMap :=
  if fst r =? MapDelete then delete (e_id (snd r)) m else <[e_id (snd r) := snd r]> m.

(** The extent of [e] is free in [m]. *)
Definition extent_free (m : ObjectMap) (e : PackedMapEntry) : Prop := forall i f, m !! i = Some f -> extents_disjoint e f.

(** What the writer of a record owes the map it is applied to. *)
Definition record_ok (m : ObjectMap) (r : Z * PackedMapEntry) : Prop :=
  let e := snd r in
  entry_wide e /\
  (fst r = MapDelete \/
   location_invalid e = false /\ extent_free (delete (e_id e) m) e /\
   (fst r = MapPut /\ m !! e_id e = None \/
    fst r = MapMove /\ exists old, m !! e_id e = Some old /\ same_object old e = true)).

Fixpoint records_ok (m : ObjectMap) (rs : list (Z * PackedMapEntry)) : Prop :=
  match rs with
  | [] => True
  | r :: rs => record_ok m r /\ records_ok (apply_record m r) rs
  end.

Lemma extents_disjoint_sym e f : extents_disjoint e f -> extents_disjoint f e.
Proof. unfold extents_disjoint. intros [?|[?|?]]; [left; congruence|right; left; congruence|right; right; by symmetry]. Qed.

Lemma insert_sound m e : sound_map m -> entry_wide e -> location_invalid e = false -> extent_free (delete (e_id e) m) e ->
  sound_map (<[e_id e := e]> m).
Proof.
  intros [Hm Hd] He Hv Hfree. split; [by apply map_Forall_insert_2|]. intros i j x y Hij Hx Hy.
  apply lookup_insert_Some in Hx as [[<- <-]|[Hi Hx]], Hy as [[<- <-]|[Hj Hy]]; [done| | |by apply (Hd i j)].
  - apply (Hfree j). apply lookup_delete_Some. done.
  - apply extents_disjoint_sym, (Hfree i). apply lookup_delete_Some. done.
Qed.

Lemma apply_record_sound m r : sound_map m -> record_ok m r -> sound_map (apply_record m r).
Proof.
  intros Hs [He Hr]. unfold apply_record. destruct (Z.eqb_spec (fst r) MapDelete) as [|Hne].
  - destruct Hs as [Hm Hd]. split; [by apply map_Forall_delete|]. intros i j x y Hij Hx Hy.
    apply lookup_delete_Some in Hx as [_ Hx], Hy as [_ Hy]. by apply (Hd i j).
  - destruct Hr as [|(Hv & Hfree & _)]; [done|]. by apply insert_sound.
Qed.

Lemma replay_record m n r : record_ok m r -> exists n', replay (m, n) r = Ok (apply_record m r, n').
Proof.
  intros [He Hr]. destruct r as [t e]. unfold replay, apply_record. cbn [fst snd] in *.
  destruct Hr as [-> |(Hv & _ & [[-> Hi]|(-> & old & Hi & Hsame)])]; [by eexists| |].
  - cbn [Z.eqb Pos.eqb MapPut MapDelete MapMove]. unfold install. rewrite Hv, Hi. by eexists.
  - cbn [Z.eqb Pos.eqb MapPut MapDelete MapMove]. rewrite Hi, Hsame. unfold install. rewrite Hv.
    assert (delete (e_id e) m !! e_id e = None) as -> by apply lookup_delete_eq.
    eexists. cbn [negb throw_if mbind res_bind]. do 2 f_equal. apply insert_delete_eq.
Qed.

Lemma replay_records rs m n : sound_map m -> records_ok m rs ->
  exists n', res_foldl replay rs (m, n) = Ok (foldl apply_record m rs, n') /\ sound_map (foldl apply_record m rs).
Proof.
  revert m n. induction rs as [|r rs IH]; intros m n Hs Hrs; [by eexists|]. destruct Hrs as [Hr Hrs].
  destruct (replay_record m n r Hr) as [n1 Hn1]. cbn [res_foldl foldl]. rewrite Hn1. cbn [mbind res_bind].
  apply IH; [by apply apply_record_sound|done].
Qed.

Lemma records_ok_take k rs m : records_ok m rs -> records_ok m (take k rs).
Proof.
  revert k m. induction rs as [|r rs IH]; intros [|k] m H; [done..|]. destruct H as [Hr Hrs]. rewrite firstn_cons. split; [done|by apply IH].
Qed.

Lemma records_ok_wide rs m : records_ok m rs -> Forall (fun r => record_type (fst r) /\ entry_wide (snd r)) rs.
Proof.
  revert m. induction rs as [|r rs IH]; intros m H; [done|]. destruct H as [[He Hr] Hrs]. constructor; [|by eapply IH].
  split; [|done]. unfold record_type. destruct Hr as [?|(_ & _ & [[? _]|[? _]])]; auto.
Qed.

(** ** Appends *)
Section appends.
Context `{isa : !Crc32Isa} `{spec : !Crc32IsaSpec isa} (hardware : bool).

Lemma load_append epoch next base log m n rs tail : Forall is_byte base -> Forall is_byte log -> next <= size_max ->
  load_pack_map hardware epoch next (Some base) (Some log) = Ok (m, n, Z.of_nat (length log)) ->
  records_ok m rs -> (length tail < 64)%nat -> exists n',
  load_pack_map hardware epoch next (Some base) (Some (log ++ concat (frame_of hardware <$> rs) ++ tail))
  = Ok (foldl apply_record m rs, n', Z.of_nat (length log) + 64 * Z.of_nat (length rs)) /\
  sound_map (foldl apply_record m rs).
Proof.
  intros Hb Hl Hn H Hrs Ht. destruct (load_sound _ _ _ _ _ _ _ _ Hb Hl Hn H) as (Hsound & _ & _).
  unfold load_pack_map in *. apply res_bind_Ok in H as (s0 & -> & H). cbn [mbind res_bind].
  apply res_bind_Ok in H as ([s1 off1] & Hs1 & H). apply res_bind_Ok in H as (? & _ & H). injection H as -> ->.
  destruct (replay_records rs m n Hsound Hrs) as (n' & Hrep & Hsound'). exists n'. split; [|done].
  edestruct (replay_log_app hardware _ _ _ 0 _ Hs1) as (fuel & Hfuel & ->); [reflexivity|].
  rewrite (replay_frames hardware rs tail) with (state' := (foldl apply_record m rs, n'));
    [|by eapply records_ok_wide|done|done|done]. cbn [mbind res_bind fst].
  rewrite (proj2 (map_overlaps_spec _ (proj1 Hsound'))) by apply Hsound'. done.
Qed.

Lemma append_frames records kind : append_pack_map hardware records kind = concat (frame_of hardware <$> (pair kind <$> records)).
Proof. unfold append_pack_map. by rewrite <- list_fmap_compose. Qed.

(** C26: an append to the object map's journal that a crash cuts at any byte: the restart
    recovers exactly the records whose frames were complete, the extents of the map it
    recovers are valid and disjoint, and once the torn tail is truncated the journal
    ends at a frame boundary and loads as the same map. *)
Theorem journal_append_recovers epoch next base log m n kind records (c : nat)
  (Hbase : Forall is_byte base) (Hlog : Forall is_byte log) (Hnext : next <= size_max)
  (Hload : load_pack_map hardware epoch next (Some base) (Some log) = Ok (m, n, Z.of_nat (length log)))
  (Hrecords : records_ok m (pair kind <$> records)) :
  let whole := take (c / 64) records in
  let m' := foldl apply_record m (pair kind <$> whole) in
  let log' := log ++ take c (append_pack_map hardware records kind) in
  let off := Z.of_nat (length log) + 64 * Z.of_nat (length whole) in
  sound_map m' /\ exists n',
  load_pack_map hardware epoch next (Some base) (Some log') = Ok (m', n', off) /\
  exists n'', load_pack_map hardware epoch next (Some base) (Some (take (Z.to_nat off) log')) = Ok (m', n'', off) /\
  Z.of_nat (length (take (Z.to_nat off) log')) = off.
Proof.
  intros whole m' log' off. destruct (torn_frames hardware (pair kind <$> records) c) as (tail & Ht & Htorn).
  assert (Hlog' : log' = log ++ concat (frame_of hardware <$> (pair kind <$> whole)) ++ tail).
  { subst log' whole. by rewrite append_frames, Htorn, (fmap_take (pair kind)). }
  assert (Hok : records_ok m (pair kind <$> whole)).
  { subst whole. rewrite fmap_take. by apply records_ok_take. }
  assert (Hlen : length (concat (frame_of hardware <$> (pair kind <$> whole))) = (64 * length whole)%nat).
  { generalize whole. intros l. induction l as [|e l IH]; [done|]. rewrite !fmap_cons. cbn [concat].
    rewrite length_app, length_frame, IH. cbn [length]. lia. }
  destruct (load_append _ _ _ _ _ _ _ tail Hbase Hlog Hnext Hload Hok Ht) as (n1 & Hn1 & Hs).
  destruct (load_append _ _ _ _ _ _ _ [] Hbase Hlog Hnext Hload Hok) as (n2 & Hn2 & _); [cbn; lia|].
  rewrite length_fmap in Hn1, Hn2. rewrite app_nil_r in Hn2. split; [done|]. exists n1. rewrite Hlog'. split; [done|].
  assert (take (Z.to_nat off) (log ++ concat (frame_of hardware <$> (pair kind <$> whole)) ++ tail)
          = log ++ concat (frame_of hardware <$> (pair kind <$> whole))) as ->.
  { rewrite app_assoc. apply take_app_length'. rewrite length_app, Hlen. lia. }
  exists n2. split; [exact Hn2|]. rewrite length_app, Hlen. lia.
Qed.
End appends.

(** ** Bases *)
Lemma install_fresh es m n : Forall (fun e => entry_wide e /\ location_invalid e = false) es -> NoDup (e_id <$> es) ->
  Forall (fun e => m !! e_id e = None) es -> n <= size_max ->
  exists m' n', res_foldl install es (m, n) = Ok (m', n') /\ n <= n' <= size_max /\
  forall i e, m' !! i = Some e <-> (e ∈ es /\ e_id e = i) \/ m !! i = Some e.
Proof.
  intros Hes. revert m n. induction Hes as [|e es [Hw Hv] _ IH]; intros m n Hnd Hfresh Hn.
  - exists m, n. split; [done|]. split; [lia|]. intros i e. split; [by right|]. by intros [[?%elem_of_nil _]|].
  - rewrite fmap_cons in Hnd. apply NoDup_cons in Hnd as [Hnew Hnd]. apply Forall_cons in Hfresh as [Hi Hfresh].
    pose proof (bump_bound n (e_id e) (ew_id e Hw) Hn) as [Hbump _].
    destruct (IH (<[e_id e := e]> m) (bump_next_id n (e_id e)) Hnd) as (m' & n' & Hfold & Hn' & Hm'); [|lia|].
    { apply Forall_forall. intros f Hf. rewrite Forall_forall in Hfresh.
      apply lookup_insert_None. split; [by apply Hfresh|]. intros E. apply Hnew. rewrite E. by apply list_elem_of_fmap_2. }
    exists m', n'. cbn [res_foldl install]. rewrite Hv, Hi. cbn [throw_if mbind res_bind]. split; [exact Hfold|]. split; [lia|].
    intros i f. rewrite Hm', elem_of_cons. split.
    + intros [[? ?]|[[<- <-]|[_ ?]]%lookup_insert_Some]; [by left; auto|by left; auto|by right].
    + intros [[[->|?] <-]|Hf]; [right; apply lookup_insert_eq|by left|]. right. apply lookup_insert_Some.
      right. split; [|done]. intros <-. congruence.
Qed.

Section bases.
Context `{isa : !Crc32Isa} `{spec : !Crc32IsaSpec isa} (hardware : bool).

Lemma length_entries es : length (concat (encode_map_entry <$> es)) = (52 * length es)%nat.
Proof. induction es as [|e es IH]; [done|]. rewrite fmap_cons. cbn [concat length]. rewrite length_app, length_entry, IH. lia. Qed.

Lemma base_reads epoch nx next es state : u64 epoch -> u64 next -> u64 (52 * Z.of_nat (length es)) -> Forall entry_wide es ->
  res_foldl install es (∅, bump_next_id nx next) = Ok state ->
  fst (base_body epoch nx (OutBuf_u32 kDiskFormatVersion ++ OutBuf_u32 kPackMapBaseEndianLittle ++ OutBuf_u64 epoch ++
    OutBuf_u64 next ++ OutBuf_u64 (Z.of_nat (length es)) ++ OutBuf_u64 (wrap64 (Z.of_nat (length es) * kPackMapPutBytes)) ++
    concat (encode_map_entry <$> es))) = Ok state.
Proof.
  intros He Hn Hl Hes Hfold. unfold base_body.
  assert (u64 (Z.of_nat (length es))) as Hc by width_lia. assert (kPackMapPutBytes = 52) as E52 by done.
  rewrite wrap64_id by (rewrite E52; width_lia).
  erewrite st_bind_Ok by (by apply inbuf_u32; vm_compute). erewrite st_bind_Ok by (by apply inbuf_u32; vm_compute).
  erewrite st_bind_Ok by (by apply inbuf_u64). rewrite !Z.eqb_refl. erewrite st_bind_Ok by done.
  erewrite st_bind_Ok by (by apply inbuf_u64). erewrite st_bind_Ok by (by apply inbuf_u64).
  erewrite st_bind_Ok by (apply inbuf_u64; rewrite E52; width_lia). erewrite st_bind_Ok by done.
  rewrite length_entries, Z.eqb_refl, (proj2 (Z.eqb_eq _ _)) by (rewrite E52; lia).
  rewrite (proj2 (Z.ltb_ge _ _)) by (rewrite E52; apply Z.div_le_lower_bound; width_lia).
  erewrite st_bind_Ok by done. rewrite Nat2Z.id.
  pose proof (inbuf_repeat decode_map_entry encode_map_entry es) as Hr.
  rewrite <- (app_nil_r (concat _)). erewrite st_bind_Ok; [by rewrite Hfold|]. apply Hr.
  eapply Forall_impl; [exact Hes|]. apply entry_reads.
Qed.

Lemma length_with_crc image : length (with_crc hardware image) = (length image + 4)%nat.
Proof. unfold with_crc. by rewrite length_app, length_out_u32. Qed.

Lemma with_crc_reads image : Forall is_byte image -> u64 (Z.of_nat (length image)) ->
  take (length image) (with_crc hardware image) = image /\
  stored_u32 (with_crc hardware image) (length image) = crc32c hardware image.
Proof.
  intros Hb Hl. unfold with_crc. split; [by apply take_app_length|].
  rewrite <- (app_nil_r (OutBuf_u32 _)). apply stored_u32_spec. by apply crc32c_u32.
Qed.

Lemma load_base_encoded epoch nx next es state : u64 epoch -> u64 next -> u64 (52 * Z.of_nat (length es) + 48) ->
  let sorted := merge_sort entry_before es in
  Forall entry_wide es -> res_foldl install sorted (∅, bump_next_id nx next) = Ok state ->
  load_base hardware epoch nx (encode_pack_map_base hardware epoch next es) = Ok state.
Proof.
  intros He Hn Hl sorted Hes Hfold.
  assert (length sorted = length es) as Hlen by (apply Permutation_length, merge_sort_Permutation).
  assert (Forall entry_wide sorted) as Hs by (unfold sorted; by rewrite merge_sort_Permutation).
  unfold encode_pack_map_base. fold sorted. set (body := OutBuf_u32 kDiskFormatVersion ++ _).
  assert (fst (base_body epoch nx body) = Ok state) as Hbody by (apply base_reads; [done|done|rewrite Hlen; width_lia|done|done]).
  assert (length body = 40 + 52 * length es)%nat as Hbl.
  { subst body. rewrite !length_app, !length_out_u32, !length_out_u64, length_entries, Hlen. lia. }
  assert (Forall is_byte (kDiskObjectMapMagic ++ body)) as Hb.
  { subst body. rewrite !Forall_app. split_and!; [by repeat constructor|..]; try apply out_u32_bytes; try apply out_u64_bytes.
    apply Forall_concat, Forall_fmap, Forall_true. apply entry_bytes. }
  unfold load_base. rewrite length_with_crc. replace (length (kDiskObjectMapMagic ++ body) + 4 - 4)%nat with (length (kDiskObjectMapMagic ++ body)) by lia.
  assert (length (kDiskObjectMapMagic ++ body) = 48 + 52 * length es)%nat as Hil by (rewrite length_app, Hbl; cbn; lia).
  assert (u64 (Z.of_nat (length (kDiskObjectMapMagic ++ body)))) as Hu by (rewrite Hil; width_lia).
  destruct (with_crc_reads _ Hb Hu) as [-> ->].
  rewrite (proj2 (Z.ltb_ge _ _)) by (rewrite Hil; change (kPackMapBaseHeaderBytes + 4) with 52; lia).
  assert (take 8 (with_crc hardware (kDiskObjectMapMagic ++ body)) = kDiskObjectMapMagic) as ->.
  { unfold with_crc. rewrite <- app_assoc. by apply take_app_length'. }
  rewrite bool_decide_true, Z.eqb_refl by done. cbn [negb orb throw_if mbind res_bind].
  rewrite (drop_app_length' _ _ 8) by done. exact Hbody.
Qed.

(** The base a checkpoint writes for a sound map loads as that map. *)
Lemma checkpoint_base_loads epoch nx next m : u64 epoch -> u64 next -> nx <= size_max -> next <> 0 ->
  u64 (52 * Z.of_nat (size m) + 48) -> sound_map m ->
  exists n', next <= n' /\
  load_pack_map hardware epoch nx (Some (encode_pack_map_base hardware epoch next (map_to_list m).*2)) (Some []) = Ok (m, n', 0).
Proof.
  intros He Hn Hnx Hn0 Hsize Hm. set (es := (map_to_list m).*2). destruct Hm as [Hent Hdis].
  pose proof (merge_sort_Permutation entry_before es) as Hperm.
  assert (Forall (fun e => entry_wide e /\ location_invalid e = false) es) as Hes.
  { apply Forall_forall. intros e He'%values_in; [|done]. destruct (Hent _ _ He') as (_ & ? & ?). done. }
  pose proof (bump_bound nx next Hn Hnx) as [Hb1 Hb2].
  destruct (install_fresh (merge_sort entry_before es) ∅ (bump_next_id nx next)) as (m' & n' & Hfold & Hn' & Hm').
  - by rewrite Hperm.
  - rewrite Hperm. unfold es. rewrite ids_of_values by done. apply NoDup_fst_map_to_list.
  - apply Forall_true. intros e. apply lookup_empty.
  - lia.
  - assert (m' = m) as ->.
    { apply map_eq. intros i. apply option_eq. intros e. rewrite Hm', Hperm.
      pose proof (values_in m e Hent : e ∈ es <-> _) as ->. split.
      - intros [[? <-]|Hx]; [done|]. by apply lookup_empty_Some in Hx.
      - intros Hi. left. destruct (Hent i e Hi) as [<- _]. done. }
    exists n'. split; [specialize (Hb2 Hn0); unfold u64 in Hn; lia|]. unfold load_pack_map.
    rewrite (load_base_encoded epoch nx next es (m, n')); [|done|done| |by eapply Forall_impl; [exact Hes|intros ? []]|done].
    + cbn [mbind res_bind length replay_log fst]. by rewrite (proj2 (map_overlaps_spec m Hent) Hdis).
    + unfold es. rewrite length_fmap. rewrite <- (length_map_to_list m) in Hsize. exact Hsize.
Qed.
End bases.

(** ** Checkpoints *)
Section checkpoints.
Context `{isa : !Crc32Isa} `{spec : !Crc32IsaSpec isa} (hardware : bool).

Lemma packset_roundtrip epoch reserved : u64 epoch -> u64 reserved -> epoch <> 0 -> reserved <> 0 ->
  decode_packset hardware (encode_packset hardware epoch reserved) = Some (epoch, reserved).
Proof.
  intros He Hr He0 Hr0. unfold encode_packset. set (body := OutBuf_u32 kDiskFormatVersion ++ _).
  assert (length body = 20)%nat as Hbl by (subst body; by rewrite !length_app, length_out_u32, !length_out_u64).
  assert (Forall is_byte (kDiskPackSetMagic ++ body)) as Hb.
  { subst body. rewrite !Forall_app. split_and!; [by repeat constructor|..]; try apply out_u32_bytes; apply out_u64_bytes. }
  assert (length (kDiskPackSetMagic ++ body) = 28)%nat as Hil by (by rewrite length_app, Hbl).
  unfold decode_packset. rewrite length_with_crc, Hil.
  destruct (with_crc_reads hardware _ Hb) as [Ht Hc]; [by rewrite Hil|]. rewrite Hil in Ht, Hc. rewrite Ht, Hc.
  assert (take 8 (with_crc hardware (kDiskPackSetMagic ++ body)) = kDiskPackSetMagic) as ->.
  { unfold with_crc. rewrite <- app_assoc. by apply take_app_length'. }
  assert (take 20 (drop 8 (with_crc hardware (kDiskPackSetMagic ++ body))) = body) as ->.
  { unfold with_crc. rewrite <- app_assoc, (drop_app_length' kDiskPackSetMagic _ 8) by done. by apply take_app_length'. }
  rewrite bool_decide_true, Z.eqb_refl by done. change (negb (Z.of_nat (28 + 4) =? 32)) with false. cbn [negb orb].
  assert (reads packset_body body (Some (epoch, reserved))) as Hread.
  { unfold packset_body. eapply reads_bind; [by apply inbuf_u32|]. cbn [Z.eqb Pos.eqb kDiskFormatVersion negb].
    next_field. rewrite <- (app_nil_r (OutBuf_u64 _)). next_field.
    rewrite (proj2 (Z.eqb_neq _ _) He0), (proj2 (Z.eqb_neq _ _) Hr0). apply reads_ret. }
  specialize (Hread []). rewrite app_nil_r in Hread. rewrite Hread, Z.eqb_refl. done.
Qed.

(** Removing files of other epochs. *)
Lemma remove_files s next files : Forall (fun file => snd file <> next) files -> let s' := foldl apply_write s (remove_file <$> files) in
  packset s' = packset s /\ map_bases s' !! next = map_bases s !! next /\ map_logs s' !! next = map_logs s !! next.
Proof.
  cbn zeta. intros Hf. revert s. induction Hf as [|[b e] files Hne _ IH]; intros s; [done|].
  rewrite fmap_cons. cbn [foldl]. destruct (IH (apply_write s (remove_file (b, e)))) as (-> & -> & ->). cbn [snd] in Hne.
  unfold remove_file. destruct b; cbn; rewrite lookup_delete_ne by done; done.
Qed.

(** A crash inside the steps that follow the rename leaves some of the removals done. *)
Lemma crash_removals s w1 w2 w3 next files k cut :
  let writes := [w1; w2; w3] ++ (remove_file <$> filter (fun file => snd file <> next) files) in
  (3 <= k)%nat -> let s1 := foldl apply_write s [w1; w2; w3] in let s' := crash_at s writes k cut in
  packset s' = packset s1 /\ map_bases s' !! next = map_bases s1 !! next /\ map_logs s' !! next = map_logs s1 !! next.
Proof.
  intros writes Hk s1 s'. set (rm := filter _ files) in writes.
  assert (s' = foldl apply_write s1 (remove_file <$> take (k - 3) rm)) as ->.
  { subst s' writes. unfold crash_at. rewrite lookup_app_r, take_app_ge, foldl_app, fmap_take by (cbn; lia). cbn [length].
    rewrite list_lookup_fmap. destruct (rm !! (k - 3)%nat) as [[[] e]|]; done. }
  apply remove_files, Forall_take, Forall_forall. intros f Hf. by apply list_elem_of_filter in Hf as [? _].
Qed.

Lemma packset_wide bytes epoch next : Forall is_byte bytes -> decode_packset hardware bytes = Some (epoch, next) ->
  u64 epoch /\ u64 next /\ epoch <> 0.
Proof.
  intros Hb H. unfold decode_packset in H. repeat case_match; try done. subst.
  assert (yields packset_body (fun p => forall e n, p = Some (e, n) -> u64 e /\ u64 n /\ e <> 0)) as Hy.
  { unfold packset_body. eapply yields_bind; [apply yields_u32|]. intros v _. destruct (v =? kDiskFormatVersion); [|by apply yields_ret].
    eapply yields_bind; [apply yields_u64|]. intros e He. eapply yields_bind; [apply yields_u64|]. intros n Hn. apply yields_ret.
    intros e' n'. destruct (Z.eqb_spec e 0); [done|]. destruct (n =? 0); [done|]. by intros [= <- <-]. }
  destruct (packset_body _) as [res l] eqn:E. cbn in *. subst res. eapply Hy; [|exact E|done]. by apply Forall_take, Forall_drop.
Qed.

(** What [open_map] reads of a store. *)
Lemma open_map_selected s s' epoch next : decode_packset hardware (packset s) = Some (epoch, next) -> packset s' = packset s ->
  map_bases s' !! epoch = map_bases s !! epoch -> map_logs s' !! epoch = map_logs s !! epoch ->
  open_map hardware s' = open_map hardware s.
Proof. intros Hp Ep Eb El. unfold open_map. by rewrite Ep, Hp, Eb, El. Qed.

(** C25: a checkpoint of the object map that a crash interrupts anywhere (inside a file
    write at any byte, before or after the rename, among the removals in any order): the
    store opens with the same objects; before the rename as if nothing had been
    written, after it with an empty journal and no object id below the one in use free
    to be issued again. *)
Theorem checkpoint_crash_safe s m n off cur high next_object_id reserved files (k cut : nat)
  (Hfiles : Forall is_byte (packset s) /\ map_Forall (fun _ => Forall is_byte) (map_bases s) /\ map_Forall (fun _ => Forall is_byte) (map_logs s))
  (Hpackset : decode_packset hardware (packset s) = Some (cur, high)) (Hcur : cur <> size_max)
  (Hopen : open_map hardware s = Ok (m, n, off))
  (Hids : 0 < next_object_id <= size_max /\ 0 < reserved <= size_max) (Hsize : u64 (52 * Z.of_nat (size m) + 48)) :
  let writes := checkpoint_writes hardware (cur + 1) next_object_id reserved (map_to_list m).*2 files in
  exists n' off', open_map hardware (crash_at s writes k cut) = Ok (m, n', off') /\
  ((k < 3)%nat -> n' = n /\ off' = off) /\ ((3 <= k)%nat -> next_object_id <= n' /\ off' = 0).
Proof.
  destruct Hfiles as (Hp & Hbs & Hls), Hids as [Hnext Hres]. destruct (packset_wide _ _ _ Hp Hpackset) as (Hc & Hh & Hc0). cbn zeta.
  destruct (decide (k < 3)%nat) as [Hk|Hk].
  - exists n, off. split; [|split; [done|lia]]. rewrite <- Hopen. eapply open_map_selected; [exact Hpackset|..];
      destruct k as [|[|[|]]]; try lia; cbn; rewrite ?lookup_insert_ne by lia; done.
  - unfold open_map in Hopen. rewrite Hpackset in Hopen. unfold load_pack_map in Hopen at 1.
    destruct (map_bases s !! cur) as [base|] eqn:Eb; [|done]. destruct (map_logs s !! cur) as [log|] eqn:El; [|done].
    assert (load_pack_map hardware cur high (Some base) (Some log) = Ok (m, n, off)) as Hload by exact Hopen.
    apply load_sound in Hload as (Hsound & _ & _); [|by eapply Hbs|by eapply Hls|width_lia].
    destruct (checkpoint_base_loads hardware (cur + 1) reserved next_object_id m) as (n' & Hn' & Hload); try done; try width_lia.
    exists n', 0. split; [|split; [lia|done]].
    destruct (crash_removals s (WriteBase (cur + 1) (encode_pack_map_base hardware (cur + 1) next_object_id (map_to_list m).*2))
      (WriteLog (cur + 1) []) (RenamePackset (encode_packset hardware (cur + 1) reserved)) (cur + 1) files k cut) as (E1 & E2 & E3); [lia|].
    unfold checkpoint_writes, open_map. rewrite E1. cbn [foldl apply_write packset map_bases map_logs] in *.
    rewrite packset_roundtrip by width_lia. by rewrite E2, E3, !lookup_insert_eq.
Qed.
End checkpoints.

(** ** What a restart accepts *)

(** C27: whatever bytes the base and the journal hold, a map that loads is sound: every
    object has its own nonzero id and an aligned extent inside its segment that holds
    what is stored of it, no two extents of a segment meet, no id in use can be issued
    again before the id space is exhausted, and the journal was replayed up to its last
    whole frame. *)
Theorem load_pack_map_sound `{isa : !Crc32Isa} hardware epoch next base log m next' off
  (Hbase : Forall is_byte base) (Hlog : Forall is_byte log) (Hnext : next <= size_max)
  (Hload : load_pack_map hardware epoch next (Some base) (Some log) = Ok (m, next', off)) :
  (forall i e, m !! i = Some e -> e_id e = i /\ i <> 0 /\ (i < next' \/ next' = size_max) /\
     e_offset e mod kDiskPageIoAlignment = 0 /\ e_extent_bytes e mod kDiskPageIoAlignment = 0 /\
     0 < e_stored_bytes e <= e_extent_bytes e /\ 0 <= e_offset e /\ e_offset e + e_extent_bytes e <= kPackSegmentBytes) /\
  (forall i j e f, i <> j -> m !! i = Some e -> m !! j = Some f -> e_kind e = e_kind f -> e_segment e = e_segment f ->
     e_offset e + e_extent_bytes e <= e_offset f \/ e_offset f + e_extent_bytes f <= e_offset e) /\
  exists k, off = 64 * k /\ off <= Z.of_nat (length log) < off + 64.
Proof.
  destruct (load_sound hardware _ _ _ _ _ _ _ Hbase Hlog Hnext Hload) as ([Hent Hdis] & [_ Hids] & k & -> & Hk).
  split; [|split; [|exists (Z.of_nat k); lia]].
  - intros i e He. destruct (Hent i e He) as (<- & Hv & [_ _ _ Hw _]). unfold location_invalid in Hv. guards.
    repeat (apply Forall_cons in Hw as [? Hw]). specialize (Hids (e_id e)). split_and!; try done; [apply Hids; by eexists| |width_lia..].
    autounfold with width in *; lia.
  - intros i j e f Hij He Hf Hk' Hs. destruct (Hdis i j e f Hij He Hf) as [?|[?|?]]; done.
Qed.

(** ** Examples *)
Definition demo_entry (id offset : Z) : PackedMapEntry := MkEntry id KindMain 0 offset 4096 100 128 5.

Definition demo_base : list Z := encode_pack_map_base false 1 1 [].

Definition demo_log : list Z := append_pack_map false [demo_entry 7 0; demo_entry 8 4096] MapPut.

Lemma demo_bytes : Forall is_byte demo_base /\ Forall is_byte demo_log.
Proof. split; vm_compute; repeat (apply List.Forall_cons; [split; [discriminate|reflexivity]|]); apply List.Forall_nil. Qed.

Definition demo_map : ObjectMap := {[7 := demo_entry 7 0; 8 := demo_entry 8 4096]}.

Lemma demo_loads : load_pack_map false 1 1 (Some demo_base) (Some demo_log) = Ok (demo_map, 9, Z.of_nat (length demo_log)).
Proof. vm_compute. reflexivity. Qed.

Lemma demo_entry_wide id offset : u64 id -> u64 offset -> entry_wide (demo_entry id offset).
Proof. intros Hi Ho. constructor; [done|by vm_compute|by vm_compute| |by vm_compute]. repeat (apply Forall_cons; split); done. Qed.

Lemma extent_free_list (m : ObjectMap) e :
  Forall (fun kv : Z * PackedMapEntry => extents_disjoint e (snd kv)) (map_to_list m) -> extent_free m e.
Proof. intros Hm i f Hf%elem_of_map_to_list. rewrite Forall_forall in Hm. by apply (Hm (i, f)). Qed.

Lemma load_pack_map_sound_witness : exists k, Z.of_nat (length demo_log) = 64 * k.
Proof.
  destruct (load_pack_map_sound false 1 1 demo_base demo_log demo_map 9 (Z.of_nat (length demo_log))) as (_ & _ & k & Hk & _).
  - apply demo_bytes.
  - apply demo_bytes.
  - by vm_compute.
  - apply demo_loads.
  - by exists k.
Defined.

Lemma journal_append_recovers_witness : exists n',
  load_pack_map false 1 1 (Some demo_base) (Some (demo_log ++ take 100 (append_pack_map false [demo_entry 7 8192; demo_entry 8 0] MapMove)))
  = Ok (<[7 := demo_entry 7 8192]> demo_map, n', 192).
Proof.
  destruct (journal_append_recovers false 1 1 demo_base demo_log demo_map 9 MapMove [demo_entry 7 8192; demo_entry 8 0] 100) as (_ & n' & Hn' & _).
  - apply demo_bytes.
  - apply demo_bytes.
  - by vm_compute.
  - apply demo_loads.
  - repeat split; try (by apply demo_entry_wide; vm_compute); right; (split; [done|]); (split; [apply extent_free_list|right; split; [done|by eexists]]).
    all: vm_compute map_to_list; repeat (apply Forall_cons; split); try done; right; right; (by left; vm_compute) || (by right; vm_compute).
  - exists n'. exact Hn'.
Defined.

Definition demo_store : MapStore := MkStore (encode_packset false 1 65537) {[1 := demo_base]} {[1 := demo_log]}.

Lemma checkpoint_crash_safe_witness : exists n' off',
  open_map false (crash_at demo_store (checkpoint_writes false 2 9 65537 (map_to_list demo_map).*2 [(true, 1); (false, 1); (true, 2)]) 4 0)
  = Ok (demo_map, n', off').
Proof.
  destruct (checkpoint_crash_safe false demo_store demo_map 65537 128 1 65537 9 65537 [(true, 1); (false, 1); (true, 2)] 4 0) as (n' & off' & E & _).
  - split; [|split; apply map_Forall_singleton, demo_bytes].
    vm_compute; repeat (apply List.Forall_cons; [split; [discriminate|reflexivity]|]); apply List.Forall_nil.
  - by vm_compute.
  - by vm_compute.
  - vm_compute. reflexivity.
  - by vm_compute.
  - by vm_compute.
  - exists n', off'. exact E.
Defined.
