(* ===== verification/DiskExtents.v ===== *)
(** * targets/qwen3_6/impl/runtime/kv_disk_cache.cpp: where extents come from

    Each kind of object has its own pack, a list of segment files.  Space released
    inside a segment becomes a hole; a reservation takes the smallest hole that fits and
    otherwise appends; the tail of a segment is truncated away when it is free.

    [FreeExtentIndex] keeps every hole twice, in a multimap by size and in a map by
    position whose values are iterators into the first.  Here a node of either is the
    hole itself: its size is the key of the one and its position the key of the other,
    so that following an iterator is finding the equal node. *)

From stdpp Require Import prelude list list_numbers sorting gmap.
From Stdlib Require Import ZArith Lia.
From S2P Require Import Prelude.
From S2P Require Import DiskFormat.
From S2P Require Import DiskMap.
#[local] Open Scope Z_scope.

(** An extent of one kind's pack. *)
Record Extent : Type := MkExtent { x_seg : Z; x_off : Z; x_len : Z }.

#[export] Instance Extent_eq_dec : EqDecision Extent.
Proof. solve_decision. Defined.

Definition x_end (e : Extent) : Z := x_off e + x_len e.

(** [std::pair]'s order on [ExtentKey]. *)
Definition key_lt (s o s' o' : Z) : Prop := s < s' \/ (s = s' /\ o < o').

#[export] Instance key_lt_dec s o s' o' : Decision (key_lt s o s' o').
Proof. unfold key_lt. apply _. Defined.

Record FreeExtentIndex : Type := MkIndex { sizes : list Extent; offsets : list Extent }.

(** What lies before [lower_bound({segment, offset})], and the rest. *)
Definition offsets_before (l : list Extent) (segment offset : Z) : list Extent :=
  filter (fun e => key_lt (x_seg e) (x_off e) segment offset) l.
Definition offsets_from (l : list Extent) (segment offset : Z) : list Extent :=
  filter (fun e => ~ key_lt (x_seg e) (x_off e) segment offset) l.

Definition has_key (l : list Extent) (e : Extent) : bool :=
  existsb (fun f => (x_seg f =? x_seg e) && (x_off f =? x_off e)) l.

(** [offsets.insert]: an existing key is kept. *)
Definition offsets_insert (e : Extent) (l : list Extent) : list Extent :=
  if has_key l e then l else offsets_before l (x_seg e) (x_off e) ++ e :: offsets_from l (x_seg e) (x_off e).

(** [sizes.insert]: behind the nodes of the same size. *)
Definition sizes_insert (e : Extent) (l : list Extent) : list Extent :=
  filter (fun f => x_len f <= x_len e) l ++ e :: filter (fun f => x_len e < x_len f) l.

(** [erase] and [extract] of one node. *)
Fixpoint remove_node (e : Extent) (l : list Extent) : list Extent :=
  match l with
  | [] => []
  | f :: l => if decide (f = e) then l else f :: remove_node e l
  end.

(** [sizes.lower_bound(bytes)] *)
Fixpoint sizes_lower_bound (bytes : Z) (l : list Extent) : option Extent :=
  match l with
  | [] => None
  | e :: l => if bytes <=? x_len e then Some e else sizes_lower_bound bytes l
  end.

Definition index_erase (e : Extent) (f : FreeExtentIndex) : FreeExtentIndex :=
  MkIndex (remove_node e (sizes f)) (remove_node e (offsets f)).

Definition index_insert (e : Extent) (f : FreeExtentIndex) : FreeExtentIndex :=
  MkIndex (sizes_insert e (sizes f)) (offsets_insert e (offsets f)).

(** The hole that ends where [{segment, offset}] begins. *)
Definition hole_before (l : list Extent) (segment offset : Z) : option Extent :=
  match last (offsets_before l segment offset) with
  | Some e => if (x_seg e =? segment) && (x_end e =? offset) then Some e else None
  | None => None
  end.

(** The hole that begins at [{segment, offset}]. *)
Definition hole_at (l : list Extent) (segment at_ next_offset : Z) : option Extent :=
  match offsets_from l segment at_ with
  | e :: _ => if (x_seg e =? segment) && (x_off e =? next_offset) then Some e else None
  | [] => None
  end.

Definition erase_opt (e : option Extent) (f : FreeExtentIndex) : FreeExtentIndex :=
  match e with Some e => index_erase e f | None => f end.

Definition insert_free_extent (segment offset bytes : Z) : st FreeExtentIndex unit := fun f =>
  if bytes =? 0 then (Ok tt, f)
  else
    let previous := hole_before (offsets f) segment offset in
    let next := hole_at (offsets f) segment offset (offset + bytes) in
    let begin := match previous with Some e => x_off e | None => offset end in
    let joined := match previous with Some e => x_len e + bytes | None => bytes end in
    let joined := match next with Some e => joined + x_len e | None => joined end in
    let e := MkExtent segment begin joined in
    let f := erase_opt next (erase_opt previous f) in
    if has_key (offsets f) e then (Throw logic_error, MkIndex (sizes_insert e (sizes f)) (offsets f))
    else (Ok tt, index_insert e f).

(** Taking the first [bytes] of a hole: its nodes are reused for what remains. *)
Definition carve (fit : Extent) (bytes : Z) (f : FreeExtentIndex) : FreeExtentIndex :=
  let remaining := x_len fit - bytes in
  let f := index_erase fit f in
  if negb (remaining =? 0) then index_insert (MkExtent (x_seg fit) (x_off fit + bytes) remaining) f else f.

(** ** The packs *)
Record PackSegment : Type := MkSegment { seg_bytes : Z; occupied_bytes : Z; trimming : bool }.

Definition empty_segment : PackSegment := MkSegment 0 0 false.

Record KindPack : Type := MkKind {
  free_extents : FreeExtentIndex;
  segments : gmap Z PackSegment;
  active_segment : Z;
  active_tail : Z;
  last_segment : Z;
}.

(** The arrays over the five kinds, and [pack_storage_bytes_]. *)
Record PackStore : Type := MkPacks { kinds : list KindPack; pack_storage_bytes : Z }.

Definition no_kind : KindPack := MkKind (MkIndex [] []) ∅ 0 0 0.

Definition kind_of (s : PackStore) (k : nat) : KindPack := nth k (kinds s) no_kind.

Definition set_kind (s : PackStore) (k : nat) (p : KindPack) : PackStore := MkPacks (<[k := p]> (kinds s)) (pack_storage_bytes s).

Definition with_free (p : KindPack) (f : FreeExtentIndex) : KindPack :=
  MkKind f (segments p) (active_segment p) (active_tail p) (last_segment p).

Definition with_segments (p : KindPack) (m : gmap Z PackSegment) : KindPack :=
  MkKind (free_extents p) m (active_segment p) (active_tail p) (last_segment p).

(** [pack_segments_[k][segment]]: a missing segment is created empty. *)
Definition segment_of (p : KindPack) (segment : Z) : PackSegment := default empty_segment (segments p !! segment).
Definition touch (p : KindPack) (segment : Z) : KindPack := with_segments p (<[segment := segment_of p segment]> (segments p)).

Definition occupy (p : KindPack) (segment bytes : Z) (s : PackSegment) : KindPack :=
  with_segments p (<[segment := MkSegment (seg_bytes s) (occupied_bytes s + bytes) (trimming s)]> (segments p)).

Section store.
Variable capacity_bytes : Z.

(** The append of [reserve_pack_extent]; [create] and [reopen] say whether the two
    [open] calls succeed. *)
Definition reserve_tail (k : nat) (bytes : Z) (create reopen : bool) : st PackStore (Z * Z) := fun s =>
  if (capacity_bytes <? bytes) || (capacity_bytes - bytes <? pack_storage_bytes s) then (Throw runtime_error, s)
  else
    let segment := active_segment (kind_of s k) in
    let offset := active_tail (kind_of s k) in
    let p := touch (kind_of s k) segment in
    let full := trimming (segment_of p segment) || (kPackSegmentBytes - bytes <? offset) in
    if full && (last_segment p =? u32_max) then (Throw runtime_error, set_kind s k p)
    else
      let p := if full then MkKind (free_extents p) (segments p) (active_segment p) (active_tail p) (last_segment p + 1) else p in
      let segment := if full then last_segment p else segment in
      let offset := if full then 0 else offset in
      if full && negb create then (Throw runtime_error, set_kind s k p)
      else
        let p := touch p segment in
        if (seg_bytes (segment_of p segment) =? 0) && negb reopen then (Throw runtime_error, set_kind s k p)
        else
          let state := segment_of p segment in
          let m := <[segment := MkSegment (offset + bytes) (occupied_bytes state + bytes) (trimming state)]> (segments p) in
          (Ok (segment, offset),
           MkPacks (<[k := MkKind (free_extents p) m segment (offset + bytes) (last_segment p)]> (kinds s))
                   (pack_storage_bytes s + bytes)).

Definition reserve_pack_extent (k : nat) (bytes : Z) (create reopen : bool) : st PackStore (Z * Z) := fun s =>
  if (bytes =? 0) || (kPackSegmentBytes <? bytes) || negb (bytes mod kDiskPageIoAlignment =? 0) then (Throw logic_error, s)
  else
    let p := kind_of s k in
    match sizes_lower_bound bytes (sizes (free_extents p)) with
    | Some fit =>
        let p := with_free p (carve fit bytes (free_extents p)) in
        match segments p !! x_seg fit with
        | None => (Throw out_of_range, set_kind s k p)
        | Some state => (Ok (x_seg fit, x_off fit), set_kind s k (occupy p (x_seg fit) bytes state))
        end
    | None => reserve_tail k bytes create reopen s
    end.
End store.

(** The relocation of [defrag_idle_step] takes the first hole below its source that is
    large enough. *)
Fixpoint relocation_hole (bytes from_segment from_offset : Z) (holes : list Extent) : option Extent :=
  match holes with
  | [] => None
  | fit :: holes =>
      if decide (key_lt (x_seg fit) (x_off fit) from_segment from_offset)
      then if x_len fit <? bytes then relocation_hole bytes from_segment from_offset holes else Some fit
      else None
  end.

Definition reserve_relocation (k : nat) (source : Extent) : st PackStore (option (Z * Z)) := fun s =>
  let p := kind_of s k in
  match relocation_hole (x_len source) (x_seg source) (x_off source) (offsets (free_extents p)) with
  | None => (Ok None, s)
  | Some fit =>
      let p := with_free p (carve fit (x_len source) (free_extents p)) in
      match segments p !! x_seg fit with
      | None => (Throw out_of_range, set_kind s k p)
      | Some state => (Ok (Some (x_seg fit, x_off fit)), set_kind s k (occupy p (x_seg fit) (x_len source) state))
      end
  end.

(** [location.store] is present; its extent is [e]. *)
Definition release_pack_extent (k : nat) (e : Extent) : st PackStore unit := fun s =>
  if x_len e =? 0 then (Ok tt, s)
  else
    let p := kind_of s k in
    match segments p !! x_seg e with
    | None => (Throw out_of_range, s)
    | Some state =>
        if occupied_bytes state <? x_len e then (Throw logic_error, s)
        else
          let '(r, f) := insert_free_extent (x_seg e) (x_off e) (x_len e) (free_extents p) in
          let p := with_free p f in
          match r with
          | Throw exn => (Throw exn, set_kind s k p)
          | Ok _ => (Ok tt, set_kind s k (occupy p (x_seg e) (- x_len e) state))
          end
    end.

(** ** Trimming

    One turn of the loop of [trim_pack_tails], cut where it releases the mutex: the
    free tail is taken out of the index and the segment is marked; after the file was
    truncated, or was not, the turn is finished. *)
Definition with_trimming (p : KindPack) (segment : Z) (state : PackSegment) (b : bool) : KindPack :=
  with_segments p (<[segment := MkSegment (seg_bytes state) (occupied_bytes state) b]> (segments p)).

(** The last hole up to [{segment, bytes}]. *)
Definition tail_hole (l : list Extent) (segment bytes : Z) : option Extent :=
  match last (filter (fun e => ~ key_lt segment bytes (x_seg e) (x_off e)) l) with
  | Some e => if (x_seg e =? segment) && (x_end e =? bytes) then Some e else None
  | None => None
  end.

Definition trim_begin (k : nat) (empty_only : bool) (segment : Z) (s : PackStore) : option Extent * PackStore :=
  let p := kind_of s k in
  match segments p !! segment with
  | None => (None, s)
  | Some state =>
      if (seg_bytes state =? 0) || trimming state || (empty_only && negb (occupied_bytes state =? 0)) then (None, s)
      else
        match tail_hole (offsets (free_extents p)) segment (seg_bytes state) with
        | None => (None, s)
        | Some e => (Some e, set_kind s k (with_trimming (with_free p (index_erase e (free_extents p))) segment state true))
        end
  end.

(** The hole goes back, joined with what was freed before it meanwhile. *)
Definition trim_undo (e : Extent) (f : FreeExtentIndex) : FreeExtentIndex :=
  match hole_before (offsets f) (x_seg e) (x_off e) with
  | Some q => index_insert (MkExtent (x_seg e) (x_off q) (x_len e + x_len q)) (index_erase q f)
  | None => index_insert e f
  end.

Definition trim_end (k : nat) (e : Extent) (truncated : bool) : st PackStore unit := fun s =>
  let p := kind_of s k in
  let state := segment_of p (x_seg e) in
  if negb truncated
  then (Throw runtime_error, set_kind s k (with_trimming (with_free p (trim_undo e (free_extents p))) (x_seg e) state false))
  else
    let m := <[x_seg e := MkSegment (x_off e) (occupied_bytes state) false]> (segments p) in
    let tail := if x_seg e =? active_segment p then x_off e else active_tail p in
    (Ok tt, MkPacks (<[k := MkKind (free_extents p) m (active_segment p) tail (last_segment p)]> (kinds s))
                    (pack_storage_bytes s - x_len e)).

(** ** Start-up *)
Definition entry_extent (e : PackedMapEntry) : Extent := MkExtent (e_segment e) (e_offset e) (e_extent_bytes e).

(** The object's extent lies in its segment's file. *)
Definition in_segment (m : gmap Z PackSegment) (e : PackedMapEntry) : bool :=
  match m !! e_segment e with
  | Some s => (e_offset e <=? seg_bytes s) && (e_extent_bytes e <=? seg_bytes s - e_offset e)
  | None => false
  end.

(** One object of the kind: charged to its segment and recorded in [occupied]. *)
Definition rebuild_object (state : gmap Z PackSegment * list Extent) (e : PackedMapEntry) : gmap Z PackSegment * list Extent :=
  let '(m, occupied) := state in
  match m !! e_segment e with
  | Some s =>
      if in_segment m e
      then (<[e_segment e := MkSegment (seg_bytes s) (occupied_bytes s + e_extent_bytes e) (trimming s)]> m,
            offsets_insert (entry_extent e) occupied)
      else (m, occupied)
  | None => (m, occupied)
  end.

(** The holes between the occupied extents of a segment; the result is the end of the
    last one. *)
Fixpoint rebuild_gaps (segment offset : Z) (occupied : list Extent) : st FreeExtentIndex Z :=
  match occupied with
  | [] => mret offset
  | e :: occupied =>
      (if offset <? x_off e then insert_free_extent segment offset (x_off e - offset) else mret tt) ;;
      rebuild_gaps segment (x_end e) occupied
  end.

(** The segments in order; [truncate] says whether cutting a segment's unowned tail
    succeeds. *)
Fixpoint rebuild_segments (truncate : Z -> bool) (occupied : list Extent) (segs : list (Z * PackSegment)) (p : KindPack) (storage : Z)
    : res (KindPack * Z) :=
  match segs with
  | [] => Ok (p, storage)
  | (segment, state) :: segs =>
      let '(r, f) := rebuild_gaps segment 0 (filter (fun e => x_seg e = segment) occupied) (free_extents p) in
      offset ← r;
      throw_if ((offset <? seg_bytes state) && negb (truncate segment)) runtime_error ;;
      let state := if offset <? seg_bytes state then MkSegment offset (occupied_bytes state) (trimming state) else state in
      let tail := if segment =? active_segment p then seg_bytes state else active_tail p in
      let p := MkKind f (<[segment := state]> (segments p)) (active_segment p) tail (last_segment p) in
      rebuild_segments truncate occupied segs p (storage + seg_bytes state)
  end.

Definition segment_before (a b : Z * PackSegment) : Prop := fst a <= fst b.

#[export] Instance segment_before_dec a b : Decision (segment_before a b).
Proof. unfold segment_before. apply _. Defined.

(** One kind: [files] are its segment files with their sizes, [entries] the objects of
    the map that are of this kind. *)
Definition rebuild_kind (truncate : Z -> bool) (files : gmap Z Z) (entries : list PackedMapEntry) (storage : Z) : res (KindPack * Z) :=
  let m := (fun bytes => MkSegment bytes 0 false) <$> files in
  let last := foldr Z.max 0 (map_to_list files).*1 in
  let '(m, occupied) := foldl rebuild_object (m, []) entries in
  rebuild_segments truncate occupied (merge_sort segment_before (map_to_list m)) (MkKind (MkIndex [] []) m last 0 last) storage.

Fixpoint rebuild_kinds (truncate : nat -> Z -> bool) (files : list (gmap Z Z)) (k : nat) (entries : list PackedMapEntry) (s : PackStore)
    : res PackStore :=
  match files with
  | [] => Ok s
  | f :: files =>
      '(p, storage) ← rebuild_kind (truncate k) f (filter (fun e => e_kind e = Z.of_nat k) entries) (pack_storage_bytes s);
      rebuild_kinds truncate files (S k) entries (MkPacks (kinds s ++ [p]) storage)
  end.

(** [rebuild_free_extents]; the map's entries come in any order. *)
Definition rebuild_free_extents (truncate : nat -> Z -> bool) (files : list (gmap Z Z)) (entries : list PackedMapEntry) : res PackStore :=
  rebuild_kinds truncate files 0 entries (MkPacks [] 0).
