(* ===== verification/ExtentIndex.v ===== *)
(** * The index of free extents: both copies agree, and every byte is accounted for *)

From stdpp Require Import prelude list list_numbers sorting gmap.
From Stdlib Require Import ZArith Lia.
From S2P Require Import Prelude.
From S2P Require Import DiskExtents.
#[local] Open Scope Z_scope.

(** ** Counting the extents over a byte *)
Definition inside (s x : Z) (e : Extent) : bool := (x_seg e =? s) && (x_off e <=? x) && (x <? x_end e).

Definition hits (l : list Extent) (s x : Z) : Z := foldr (fun e n => Z.b2z (inside s x e) + n) 0 l.

Lemma hits_cons e l s x : hits (e :: l) s x = Z.b2z (inside s x e) + hits l s x.
Proof. done. Qed.

Lemma hits_nil s x : hits [] s x = 0.
Proof. done. Qed.

Lemma hits_app l k s x : hits (l ++ k) s x = hits l s x + hits k s x.
Proof. induction l as [|e l IH]; [done|]. cbn [app]. rewrite !hits_cons, IH. lia. Qed.

Create Rewrite HintDb hits.
#[export] Hint Rewrite hits_cons hits_nil hits_app : hits.

Lemma hits_perm l k s x : l ≡ₚ k -> hits l s x = hits k s x.
Proof. induction 1; rewrite ?hits_cons in *; lia. Qed.

Lemma hits_nonneg l s x : 0 <= hits l s x.
Proof. induction l as [|e l IH]; [done|]. rewrite hits_cons. destruct (inside s x e); cbn; lia. Qed.

Lemma inside_true s x e : inside s x e = true <-> x_seg e = s /\ x_off e <= x < x_end e.
Proof. unfold inside. lia. Qed.

Lemma hits_elem l e s x : e ∈ l -> inside s x e = true -> 1 <= hits l s x.
Proof.
  intros [l1 [l2 ->]]%list_elem_of_split Hi. rewrite hits_app, hits_cons, Hi.
  pose proof (hits_nonneg l1 s x). pose proof (hits_nonneg l2 s x). cbn. lia.
Qed.

Lemma hits_pos l s x : 0 < hits l s x -> exists e, e ∈ l /\ inside s x e = true.
Proof.
  induction l as [|e l IH]; [by rewrite hits_nil|]. rewrite hits_cons. intros H. destruct (inside s x e) eqn:E.
  - exists e. split; [left|done].
  - destruct IH as (f & ? & ?); [cbn in H; lia|]. exists f. split; [by right|done].
Qed.

(** No byte in both. *)
Definition separate (a b : Extent) : Prop := x_seg a <> x_seg b \/ x_end a <= x_off b \/ x_end b <= x_off a.

Lemma separate_sym a b : separate a b -> separate b a.
Proof. unfold separate. lia. Qed.

(** Two members of a list that covers no byte twice. *)
Lemma hits_separate l i j a b : (forall s x, hits l s x <= 1) -> i <> j -> l !! i = Some a -> l !! j = Some b ->
  0 < x_len a -> 0 < x_len b -> separate a b.
Proof.
  intros Hl Hij Ha Hb La Lb. destruct (decide (separate a b)) as [|Hn]; [done|]. exfalso. unfold separate, x_end in Hn.
  set (x := Z.max (x_off a) (x_off b)). specialize (Hl (x_seg a) x).
  assert (inside (x_seg a) x a = true /\ inside (x_seg a) x b = true) as [Ia Ib] by (rewrite !inside_true; unfold x_end; lia).
  rewrite (hits_perm l (a :: delete i l)) in Hl by (by apply delete_Permutation). rewrite hits_cons, Ia in Hl.
  assert (b ∈ delete i l) as Hin.
  { apply list_elem_of_lookup. destruct (decide (j < i)%nat).
    - exists j. by rewrite list_lookup_delete_lt.
    - exists (j - 1)%nat. rewrite list_lookup_delete_ge by lia. by replace (S (j - 1)) with j by lia. }
  pose proof (hits_elem _ _ _ _ Hin Ib). cbn in Hl. lia.
Qed.

(** An extent over bytes nothing covers is separate from everything. *)
Lemma fresh_separate l a b : (forall s x, inside s x a = true -> hits l s x = 0) -> 0 < x_len a -> 0 < x_len b -> b ∈ l -> separate b a.
Proof.
  intros Ha La Lb Hb. destruct (decide (separate b a)) as [|Hn]; [done|]. exfalso. unfold separate, x_end in Hn.
  set (x := Z.max (x_off a) (x_off b)).
  assert (inside (x_seg a) x a = true /\ inside (x_seg a) x b = true) as [Ia Ib] by (rewrite !inside_true; unfold x_end; lia).
  pose proof (hits_elem _ _ _ _ Hb Ib). rewrite (Ha _ _ Ia) in *. lia.
Qed.

(** Adjacent extents cover what their union covers. *)
Lemma inside_join s x seg o a b : 0 <= a -> 0 <= b ->
  Z.b2z (inside s x (MkExtent seg o (a + b))) = Z.b2z (inside s x (MkExtent seg o a)) + Z.b2z (inside s x (MkExtent seg (o + a) b)).
Proof.
  intros Ha Hb. unfold inside, x_end. cbn [x_seg x_off x_len]. destruct (seg =? s); [|done]. cbn [andb].
  destruct (Z.leb_spec o x), (Z.leb_spec (o + a) x), (Z.ltb_spec x (o + a)), (Z.ltb_spec x (o + (a + b))), (Z.ltb_spec x (o + a + b)); cbn; lia.
Qed.

(** ** Sorted lists of extents *)
Definition gap (a b : Extent) : Prop := x_seg a < x_seg b \/ (x_seg a = x_seg b /\ x_end a < x_off b).

Lemma remove_node_perm e l : e ∈ l -> l ≡ₚ e :: remove_node e l.
Proof.
  induction l as [|f l IH]; intros H; [by apply elem_of_nil in H|]. cbn [remove_node]. destruct (decide (f = e)) as [->|Hne]; [done|].
  apply elem_of_cons in H as [->|H]; [done|]. rewrite (IH H) at 1. constructor.
Qed.

Lemma remove_node_sublist e l : remove_node e l `sublist_of` l.
Proof. induction l as [|f l IH]; [done|]. cbn [remove_node]. destruct (decide (f = e)); [by apply sublist_cons|by apply sublist_skip]. Qed.

(** A sorted list is what satisfies a downward closed predicate, then the rest. *)
Lemma sorted_split {A} (R : relation A) (P : A -> Prop) `{!forall x, Decision (P x)} l :
  (forall a b, R a b -> P b -> P a) -> StronglySorted R l -> l = filter P l ++ filter (fun x => ~ P x) l.
Proof.
  intros HP. induction l as [|a l IH]; intros Hs; [done|]. apply StronglySorted_cons in Hs as [Ha Hs].
  rewrite !filter_cons. destruct (decide (P a)) as [Pa|Na].
  - rewrite (decide_False (P := ~ P a)) by tauto. cbn [app]. by rewrite <- IH.
  - rewrite (decide_True (P := ~ P a)) by done.
    assert (filter P l = []) as E.
    { destruct (filter P l) as [|b k] eqn:E; [done|]. assert (b ∈ filter P l) as [Pb Hb]%list_elem_of_filter by (rewrite E; left).
      exfalso. apply Na. rewrite Forall_forall in Ha. by apply (HP a b (Ha b Hb)). }
    rewrite E. cbn [app]. f_equal. rewrite (IH Hs) at 1. by rewrite E.
Qed.

Lemma sorted_insert {A} (R : relation A) l k a : StronglySorted R (l ++ k) -> Forall (fun b => R b a) l -> Forall (R a) k ->
  StronglySorted R (l ++ a :: k).
Proof.
  rewrite !StronglySorted_app. rewrite StronglySorted_cons. intros (Hlk & Hl & Hk) Hla Hak. split_and!; [|done|done|done].
  intros x y Hx [->|Hy]%elem_of_cons; [|by apply Hlk]. rewrite Forall_forall in Hla. by apply Hla.
Qed.

(** ** The index *)
Definition index_ok (f : FreeExtentIndex) : Prop :=
  StronglySorted gap (offsets f) /\ Forall (fun e => 0 < x_len e) (offsets f) /\
  sizes f ≡ₚ offsets f /\ StronglySorted (fun a b => x_len a <= x_len b) (sizes f).

Definition index_hits (f : FreeExtentIndex) (s x : Z) : Z := hits (offsets f) s x.

Lemma index_len f e : index_ok f -> e ∈ offsets f -> 0 < x_len e.
Proof. intros (_ & Hl & _) He. rewrite Forall_forall in Hl. by apply Hl. Qed.

Lemma gap_trans a b c : 0 < x_len b -> gap a b -> gap b c -> gap a c.
Proof. unfold gap, x_end. lia. Qed.

(** Two different holes have a gap between them. *)
Lemma index_gap f a b : index_ok f -> a ∈ offsets f -> b ∈ offsets f -> a <> b -> gap a b \/ gap b a.
Proof.
  intros (Hs & _) Ha Hb Hab. revert Ha Hb. induction Hs as [|c l _ IH Hc]; intros Ha Hb; [by apply elem_of_nil in Ha|].
  rewrite Forall_forall in Hc. apply elem_of_cons in Ha as [->|Ha], Hb as [->|Hb]; [done|left; by apply Hc|right; by apply Hc|by apply IH].
Qed.

Lemma index_erase_ok f e : index_ok f -> e ∈ offsets f -> index_ok (index_erase e f) /\ offsets f ≡ₚ e :: offsets (index_erase e f).
Proof.
  intros (Hs & Hl & Hp & Hz) He. pose proof (remove_node_perm e (offsets f) He) as Ho.
  assert (e ∈ sizes f) as He' by (by rewrite Hp). pose proof (remove_node_perm e (sizes f) He') as Hsz.
  split; [|done]. split_and!; cbn [index_erase offsets sizes].
  - eapply sorted_sublist; [apply remove_node_sublist|done].
  - eapply Forall_sublist; [exact Hl|apply remove_node_sublist].
  - apply (Permutation.Permutation_cons_inv (a := e)). rewrite <- Ho, <- Hsz. done.
  - eapply sorted_sublist; [apply remove_node_sublist|done].
Qed.

Lemma gap_before a b s o : 0 < x_len a -> gap a b -> key_lt (x_seg b) (x_off b) s o -> key_lt (x_seg a) (x_off a) s o.
Proof. unfold gap, key_lt, x_end. lia. Qed.

Lemma offsets_split f s o : index_ok f -> offsets f = offsets_before (offsets f) s o ++ offsets_from (offsets f) s o.
Proof.
  intros (Hs & Hl & _). unfold offsets_before, offsets_from.
  assert (StronglySorted (fun a b => gap a b /\ 0 < x_len a) (offsets f)) as Hs'.
  { clear -Hs Hl. induction Hs as [|c l _ IH Hc]; [constructor|]. apply Forall_cons in Hl as [Hlc Hl]. apply StronglySorted_cons.
    split; [|by apply IH]. eapply Forall_impl; [exact Hc|]. done. }
  eapply sorted_split; [|exact Hs']. intros a b [Hg Ha]. by apply gap_before.
Qed.

Lemma index_insert_ok f e : index_ok f -> 0 < x_len e -> (forall g, g ∈ offsets f -> gap g e \/ gap e g) ->
  has_key (offsets f) e = false /\ index_ok (index_insert e f) /\ offsets (index_insert e f) ≡ₚ e :: offsets f.
Proof.
  intros Hf He Hg. pose proof Hf as (Hs & Hl & Hp & Hz). rewrite Forall_forall in Hl.
  assert (has_key (offsets f) e = false) as Hk.
  { apply not_true_iff_false. unfold has_key. rewrite existsb_exists. intros (g & Hin & E). apply list_elem_of_In in Hin.
    specialize (Hl g Hin). specialize (Hg g Hin). guards. unfold gap, x_end in Hg. lia. }
  split; [done|]. unfold index_insert, offsets_insert. rewrite Hk. cbn [offsets].
  pose proof (offsets_split f (x_seg e) (x_off e) Hf) as Hsplit.
  set (bf := offsets_before _ _ _) in *. set (af := offsets_from _ _ _) in *.
  assert (bf ++ e :: af ≡ₚ e :: offsets f) as Hperm by (rewrite Hsplit; symmetry; apply Permutation_middle).
  pose proof (sorted_split _ (fun g => x_len g <= x_len e) _ (fun a b Hab Hb => Z.le_trans _ _ _ Hab Hb) Hz) as Es.
  assert (filter (fun g => x_len e < x_len g) (sizes f) = filter (fun g => ~ x_len g <= x_len e) (sizes f)) as Eiff
    by (apply list_filter_iff; intros g; lia).
  split; [|done]. split_and!; cbn [offsets sizes].
  - apply sorted_insert; [by rewrite <- Hsplit| |].
    + apply Forall_forall. intros g [Hlt Hin]%list_elem_of_filter. specialize (Hl g Hin). destruct (Hg g Hin) as [?|Hb]; [done|].
      unfold gap, key_lt, x_end in *. lia.
    + apply Forall_forall. intros g [Hlt Hin]%list_elem_of_filter. specialize (Hl g Hin). destruct (Hg g Hin) as [Hb|?]; [|done].
      unfold gap, key_lt, x_end in *. lia.
  - rewrite Hperm. constructor; [done|]. by apply Forall_forall.
  - rewrite Hperm. unfold sizes_insert. rewrite Eiff, <- Permutation_middle, <- Es. by constructor.
  - unfold sizes_insert. rewrite Eiff. apply sorted_insert; [by rewrite <- Es| |].
    + apply Forall_forall. by intros g [? _]%list_elem_of_filter.
    + apply Forall_forall. intros g [? _]%list_elem_of_filter. lia.
Qed.

(** Two indexes with the same holes cover the same bytes. *)
Lemma erase_opt_ok f o : index_ok f -> (forall q, o = Some q -> q ∈ offsets f) ->
  index_ok (erase_opt o f) /\ offsets f ≡ₚ option_list o ++ offsets (erase_opt o f).
Proof. intros Hf Ho. destruct o as [q|]; [|done]. apply index_erase_ok; [done|by apply Ho]. Qed.

(** ** The operations on the index *)
Lemma last_sorted_gap l e g : StronglySorted gap l -> last l = Some e -> g ∈ l -> g <> e -> gap g e.
Proof.
  intros Hs He Hg Hne. apply last_Some in He as [l' ->]. apply StronglySorted_app in Hs as (Hs & _ & _).
  apply elem_of_app in Hg as [Hg|Hg]; [|by apply list_elem_of_singleton in Hg]. apply Hs; [done|left].
Qed.

Lemma hole_before_Some l s o q : hole_before l s o = Some q -> q ∈ l /\ x_seg q = s /\ x_end q = o.
Proof.
  unfold hole_before. destruct (last (offsets_before l s o)) as [e|] eqn:E; [|done]. destruct (_ && _) eqn:Hb; [|done].
  intros [= <-]. guards. split; [|done]. apply last_Some in E as [l' E].
  assert (e ∈ offsets_before l s o) as [_ ?]%list_elem_of_filter by (rewrite E; apply elem_of_app; right; left). done.
Qed.

Lemma hole_before_None f s o g : index_ok f -> hole_before (offsets f) s o = None -> g ∈ offsets f -> x_seg g = s -> x_end g <> o.
Proof.
  intros Hf Hn Hg Hs He. pose proof (index_len f g Hf Hg) as Lg.
  assert (g ∈ offsets_before (offsets f) s o) as Hin.
  { apply list_elem_of_filter. split; [|done]. unfold key_lt, x_end in *. lia. }
  unfold hole_before in Hn. destruct (last (offsets_before (offsets f) s o)) as [e|] eqn:E.
  - destruct (decide (g = e)) as [->|Hne]; [rewrite Hs, He, !Z.eqb_refl in Hn; done|].
    assert (gap g e) as Hgap.
    { eapply last_sorted_gap; [|exact E|done|done]. eapply sorted_sublist; [apply sublist_filter|apply Hf]. }
    apply last_Some in E as [l' E]. assert (e ∈ offsets_before (offsets f) s o) as [Hlt Hein]%list_elem_of_filter
      by (rewrite E; apply elem_of_app; right; left).
    unfold gap, key_lt, x_end in *. lia.
  - apply last_None in E. rewrite E in Hin. by apply elem_of_nil in Hin.
Qed.

Lemma hole_at_Some l s o n q : hole_at l s o n = Some q -> q ∈ l /\ x_seg q = s /\ x_off q = n.
Proof.
  unfold hole_at. destruct (offsets_from l s o) as [|e k] eqn:E; [done|]. destruct (_ && _) eqn:Hb; [|done].
  intros [= <-]. guards. split; [|done].
  assert (e ∈ offsets_from l s o) as [_ ?]%list_elem_of_filter by (rewrite E; left). done.
Qed.

Lemma hole_at_None f s o b g : index_ok f -> 0 < b -> (forall e, e ∈ offsets f -> separate e (MkExtent s o b)) ->
  hole_at (offsets f) s o (o + b) = None -> g ∈ offsets f -> x_seg g = s -> x_off g <> o + b.
Proof.
  intros Hf Hb Hsep Hn Hg Hs Ho.
  assert (g ∈ offsets_from (offsets f) s o) as Hin.
  { apply list_elem_of_filter. split; [|done]. unfold key_lt. lia. }
  unfold hole_at in Hn. destruct (offsets_from (offsets f) s o) as [|e k] eqn:E; [by apply elem_of_nil in Hin|].
  assert (e ∈ offsets_from (offsets f) s o) as [Hlt Hein]%list_elem_of_filter by (rewrite E; left).
  destruct (decide (g = e)) as [->|Hne]; [rewrite Hs, Ho, !Z.eqb_refl in Hn; done|].
  assert (StronglySorted gap (e :: k)) as [Hek _]%StronglySorted_cons by (rewrite <- E; eapply sorted_sublist; [apply sublist_filter|apply Hf]).
  apply elem_of_cons in Hin as [->|Hin]; [done|]. rewrite Forall_forall in Hek. specialize (Hek g Hin).
  pose proof (Hsep e Hein) as He. pose proof (index_len f e Hf Hein). unfold gap, separate, key_lt, x_end in *. cbn in He. lia.
Qed.

Lemma erase_opt_elem o f g : g ∈ offsets (erase_opt o f) -> g ∈ offsets f.
Proof.
  destruct o as [q|]; [|done]. cbn. intros Hg. by apply (sublist_subseteq _ _ (remove_node_sublist q (offsets f))).
Qed.

Lemma index_nodup f : index_ok f -> NoDup (offsets f).
Proof.
  intros (Hs & Hl & _). induction Hs as [|c l _ IH Hc]; [constructor|]. apply Forall_cons in Hl as [Hlc Hl]. constructor; [|by apply IH].
  intros Hin. rewrite Forall_forall in Hc. specialize (Hc c Hin). unfold gap, x_end in Hc. lia.
Qed.

(** What joining leaves next to the new hole. *)
Lemma joined_gap f s o b (previous next : option Extent) g :
  index_ok f -> 0 < b -> (forall e, e ∈ offsets f -> separate e (MkExtent s o b)) ->
  previous = hole_before (offsets f) s o -> next = hole_at (offsets f) s o (o + b) ->
  g ∈ offsets f -> Some g <> previous -> Some g <> next ->
  let begin := match previous with Some e => x_off e | None => o end in
  let finish := match next with Some e => x_end e | None => o + b end in
  x_seg g <> s \/ x_end g < begin \/ finish < x_off g.
Proof.
  intros Hf Hb Hsep Hp Hn Hg Hgp Hgn begin finish. destruct (decide (x_seg g = s)) as [Hs|]; [|by left].
  pose proof (Hsep g Hg) as Hsg. pose proof (index_len f g Hf Hg) as Lg. unfold separate in Hsg. cbn [x_seg x_off x_len] in Hsg.
  change (x_end (MkExtent s o b)) with (o + b) in Hsg. destruct Hsg as [?|[Hle|Hge]]; [done|right; left|right; right].
  - subst begin. destruct previous as [q|].
    + symmetry in Hp. apply hole_before_Some in Hp as (Hq & Hqs & Hqe). pose proof (index_len f q Hf Hq).
      assert (g <> q) as Hne by congruence. destruct (index_gap f g q Hf Hg Hq Hne); unfold gap, x_end in *; lia.
    + pose proof (hole_before_None f s o g Hf (eq_sym Hp) Hg Hs). lia.
  - subst finish. destruct next as [q|].
    + symmetry in Hn. apply hole_at_Some in Hn as (Hq & Hqs & Hqe). pose proof (index_len f q Hf Hq).
      assert (g <> q) as Hne by congruence. destruct (index_gap f g q Hf Hg Hq Hne); unfold gap, x_end in *; lia.
    + pose proof (hole_at_None f s o b g Hf Hb Hsep (eq_sym Hn) Hg Hs). lia.
Qed.

Definition page_aligned (e : Extent) : Prop := x_off e mod 4096 = 0 /\ x_len e mod 4096 = 0.

Lemma aligned_add a b : a mod 4096 = 0 -> b mod 4096 = 0 -> (a + b) mod 4096 = 0.
Proof. intros Ha Hb. by rewrite Z.add_mod, Ha, Hb. Qed.

Lemma aligned_sub a b : a mod 4096 = 0 -> b mod 4096 = 0 -> (a - b) mod 4096 = 0.
Proof. intros Ha Hb. by rewrite Zminus_mod, Ha, Hb. Qed.

(** Taking the neighbours out, in this order. *)
Lemma erase_neighbours f s o b (previous next : option Extent) : index_ok f -> 0 < b ->
  previous = hole_before (offsets f) s o -> next = hole_at (offsets f) s o (o + b) ->
  let f2 := erase_opt next (erase_opt previous f) in
  index_ok f2 /\ offsets f ≡ₚ option_list previous ++ option_list next ++ offsets f2 /\
  forall g, g ∈ offsets f2 -> g ∈ offsets f /\ Some g <> previous /\ Some g <> next.
Proof.
  intros Hf Hb Hp Hn f2.
  assert (forall q, previous = Some q -> q ∈ offsets f) as Hpin by (intros q E; rewrite Hp in E; by apply hole_before_Some in E as [? _]).
  destruct (erase_opt_ok f previous Hf Hpin) as [Hf1 Hperm1]. set (f1 := erase_opt previous f) in *.
  assert (forall q, next = Some q -> q ∈ offsets f1) as Hnin.
  { intros q ->. symmetry in Hn. apply hole_at_Some in Hn as (Hq & Hqs & Hqo). rewrite Hperm1 in Hq. apply elem_of_app in Hq as [Hq|Hq]; [|done].
    destruct previous as [q1|]; [|by apply elem_of_nil in Hq]. apply list_elem_of_singleton in Hq as ->. symmetry in Hp.
    apply hole_before_Some in Hp as (Hq1 & _ & Hqe). pose proof (index_len f q1 Hf Hq1). unfold x_end in Hqe. lia. }
  destruct (erase_opt_ok f1 next Hf1 Hnin) as [Hf2 Hperm2].
  assert (offsets f ≡ₚ option_list previous ++ option_list next ++ offsets f2) as Hperm by (by rewrite Hperm1, Hperm2).
  split_and!; [done|done|]. intros g Hg. split; [by eapply erase_opt_elem, erase_opt_elem|].
  pose proof (index_nodup f Hf) as Hnd. rewrite Hperm in Hnd. apply NoDup_app in Hnd as (_ & Hx & Hnd). apply NoDup_app in Hnd as (_ & Hy & _).
  split; intros E.
  - apply (Hx g); [rewrite <- E; left|]. apply elem_of_app. by right.
  - apply (Hy g); [rewrite <- E; left|done].
Qed.

(** Giving back bytes that no hole covers: it succeeds, and the index covers exactly
    those bytes more. *)
Lemma insert_free_spec f s o b : index_ok f -> 0 < b -> (forall e, e ∈ offsets f -> separate e (MkExtent s o b)) ->
  exists f', insert_free_extent s o b f = (Ok tt, f') /\ index_ok f' /\
  (forall t x, hits (offsets f') t x = hits (offsets f) t x + Z.b2z (inside t x (MkExtent s o b))) /\
  (Forall page_aligned (offsets f) -> page_aligned (MkExtent s o b) -> Forall page_aligned (offsets f')).
Proof.
  intros Hf Hb Hsep. unfold insert_free_extent. rewrite (proj2 (Z.eqb_neq b 0)) by lia.
  set (previous := hole_before _ _ _). set (next := hole_at _ _ _ _). cbn zeta.
  destruct (erase_neighbours f s o b previous next Hf Hb eq_refl eq_refl) as (Hf2 & Hperm & Hrest). set (f2 := erase_opt next _) in *.
  set (e := MkExtent s _ _).
  assert (forall q, previous = Some q -> x_seg q = s /\ x_end q = o /\ 0 < x_len q) as Hpq.
  { intros q Hq. apply hole_before_Some in Hq as (Hin & ? & ?). split; [done|]. split; [done|]. by apply (index_len f q). }
  assert (forall q, next = Some q -> x_seg q = s /\ x_off q = o + b /\ 0 < x_len q) as Hnq.
  { intros q Hq. apply hole_at_Some in Hq as (Hin & ? & ?). split; [done|]. split; [done|]. by apply (index_len f q). }
  assert (x_off e = match previous with Some q => x_off q | None => o end) as Hoff by done.
  assert (x_end e = match next with Some q => x_end q | None => o + b end /\ 0 < x_len e) as [Hend Hlen].
  { unfold e, x_end. cbn. destruct previous as [q|] eqn:E1, next as [q'|] eqn:E2;
      try (destruct (Hpq q eq_refl) as (? & ? & ?)); try (destruct (Hnq q' eq_refl) as (? & ? & ?)); unfold x_end in *; lia. }
  destruct (index_insert_ok f2 e Hf2 Hlen) as (-> & Hf3 & Hperm3).
  { intros g Hg. destruct (Hrest g Hg) as (Hin & H1 & H2). pose proof (joined_gap f s o b previous next g Hf Hb Hsep eq_refl eq_refl Hin H1 H2) as Hj.
    cbn zeta in Hj. rewrite <- Hoff, <- Hend in Hj. pose proof (index_len f g Hf Hin). change s with (x_seg e) in Hj. unfold gap, x_end in *. lia. }
  exists (index_insert e f2). split_and!; [done|done| |].
  - intros t x. rewrite (hits_perm _ _ t x Hperm3), (hits_perm _ _ t x Hperm). autorewrite with hits.
    assert (Z.b2z (inside t x e) = hits (option_list previous) t x + Z.b2z (inside t x (MkExtent s o b)) + hits (option_list next) t x) as ->; [|lia].
    unfold e. clear -Hb Hpq Hnq. destruct previous as [[ps po pl]|], next as [[ns no nl]|]; cbn -[hits inside Z.add Z.b2z]; autorewrite with hits;
      try (destruct (Hnq _ eq_refl) as (En1 & En2 & Hnl); cbn in En1, En2, Hnl; subst ns no);
      try (destruct (Hpq _ eq_refl) as (Ep1 & Ep2 & Hpl); unfold x_end in Ep2; cbn in Ep1, Ep2, Hpl; subst ps o);
      rewrite ?inside_join by lia; rewrite ?Z.add_assoc; lia.
  - intros Ha [He1 He2]. rewrite Hperm3. rewrite Hperm in Ha. rewrite !Forall_app in Ha. destruct Ha as (A1 & A2 & A3).
    constructor; [|done]. unfold page_aligned, e. cbn [x_off x_len] in *.
    destruct previous as [q|], next as [q'|]; cbn in A1, A2; decompose_Forall_hyps; unfold page_aligned in *; destruct_and?;
      split; auto using aligned_add.
Qed.

(** Taking the first bytes of a hole. *)
Lemma carve_spec f fit b : index_ok f -> fit ∈ offsets f -> 0 < b <= x_len fit ->
  index_ok (carve fit b f) /\
  (forall t x, hits (offsets f) t x = hits (offsets (carve fit b f)) t x + Z.b2z (inside t x (MkExtent (x_seg fit) (x_off fit) b))) /\
  (Forall page_aligned (offsets f) -> b mod 4096 = 0 -> Forall page_aligned (offsets (carve fit b f))).
Proof.
  intros Hf Hin Hb. destruct (index_erase_ok f fit Hf Hin) as [Hf1 Hperm]. unfold carve. set (f1 := index_erase fit f) in *.
  assert (fit = MkExtent (x_seg fit) (x_off fit) (x_len fit)) as Efit by (by destruct fit).
  destruct (Z.eqb_spec (x_len fit - b) 0) as [E|Hne]; cbn [negb].
  - split_and!; [done| |].
    + intros t x. rewrite (hits_perm _ _ t x Hperm), hits_cons. replace b with (x_len fit) by lia. rewrite <- Efit. lia.
    + intros Ha _. rewrite Hperm in Ha. by apply Forall_cons in Ha as [_ ?].
  - set (e := MkExtent (x_seg fit) (x_off fit + b) (x_len fit - b)).
    destruct (index_insert_ok f1 e Hf1) as (_ & Hf2 & Hperm2); [cbn; lia| |].
    { intros g Hg. assert (g ∈ offsets f) as Hgf by (rewrite Hperm; by right).
      assert (g <> fit) as Hne'. { intros ->. pose proof (index_nodup f Hf) as Hnd. rewrite Hperm in Hnd. by apply NoDup_cons in Hnd as [? _]. }
      pose proof (index_len f g Hf Hgf). destruct (index_gap f g fit Hf Hgf Hin Hne') as [Hg'|Hg']; unfold gap, x_end in *; cbn; lia. }
    split_and!; [done| |].
    + intros t x. rewrite (hits_perm _ _ t x Hperm), (hits_perm _ _ t x Hperm2), !hits_cons. unfold e.
      rewrite Efit at 1. replace (x_len fit) with (b + (x_len fit - b)) at 1 by lia. rewrite inside_join by lia. lia.
    + intros Ha Hb4. rewrite Hperm2. rewrite Hperm in Ha. apply Forall_cons in Ha as [[A1 A2] Ha]. constructor; [|done].
      split; cbn; [by apply aligned_add|by apply aligned_sub].
Qed.

(** [lower_bound] on the sizes is best fit. *)
Lemma sizes_lower_bound_Some b l e : StronglySorted (fun a b => x_len a <= x_len b) l -> sizes_lower_bound b l = Some e ->
  e ∈ l /\ b <= x_len e /\ forall g, g ∈ l -> b <= x_len g -> x_len e <= x_len g.
Proof.
  induction 1 as [|a l _ IH Ha]; [done|]. cbn [sizes_lower_bound]. rewrite Forall_forall in Ha. destruct (Z.leb_spec b (x_len a)).
  - intros [= ->]. split_and!; [left|done|]. intros g [->|Hg]%elem_of_cons _; [done|by apply Ha].
  - intros He. destruct (IH He) as (? & ? & Hmin). split_and!; [by right|done|]. intros g [->|Hg]%elem_of_cons Hb; [lia|by apply Hmin].
Qed.

Lemma sizes_lower_bound_None b l g : sizes_lower_bound b l = None -> g ∈ l -> x_len g < b.
Proof.
  induction l as [|a l IH]; intros H Hg; [by apply elem_of_nil in Hg|]. cbn [sizes_lower_bound] in H.
  destruct (Z.leb_spec b (x_len a)); [done|]. apply elem_of_cons in Hg as [->|Hg]; [done|by apply IH].
Qed.

Lemma relocation_hole_Some b s o l fit : relocation_hole b s o l = Some fit -> fit ∈ l /\ b <= x_len fit /\ key_lt (x_seg fit) (x_off fit) s o.
Proof.
  induction l as [|a l IH]; [done|]. cbn [relocation_hole]. destruct (decide (key_lt (x_seg a) (x_off a) s o)); [|done].
  destruct (Z.ltb_spec (x_len a) b).
  - intros H1. destruct (IH H1) as (? & ?). split; [by right|done].
  - intros [= <-]. split; [left|done].
Qed.

Lemma tail_hole_Some l s b e : tail_hole l s b = Some e -> e ∈ l /\ x_seg e = s /\ x_end e = b.
Proof.
  unfold tail_hole. destruct (last (filter _ l)) as [q|] eqn:E; [|done]. destruct (_ && _) eqn:Hb; [|done]. intros [= <-]. guards.
  split; [|done]. apply last_Some in E as [l' E].
  assert (q ∈ filter (fun e => ~ key_lt s b (x_seg e) (x_off e)) l) as [_ ?]%list_elem_of_filter by (rewrite E; apply elem_of_app; right; left). done.
Qed.

(** Putting a tail back that ends where its segment ends. *)
Lemma trim_undo_spec f e : index_ok f -> 0 < x_len e -> (forall g, g ∈ offsets f -> separate g e) ->
  (forall g, g ∈ offsets f -> x_seg g = x_seg e -> x_end g <= x_end e) ->
  index_ok (trim_undo e f) /\
  (forall t x, hits (offsets (trim_undo e f)) t x = hits (offsets f) t x + Z.b2z (inside t x e)) /\
  (Forall page_aligned (offsets f) -> page_aligned e -> Forall page_aligned (offsets (trim_undo e f))).
Proof.
  intros Hf He Hsep Hend. assert (e = MkExtent (x_seg e) (x_off e) (x_len e)) as Ee by (by destruct e).
  unfold trim_undo. destruct (hole_before _ _ _) as [q|] eqn:E.
  - pose proof E as E'. apply hole_before_Some in E' as (Hq & Hqs & Hqe). pose proof (index_len f q Hf Hq).
    destruct (index_erase_ok f q Hf Hq) as [Hf1 Hperm]. set (e' := MkExtent _ _ _).
    destruct (index_insert_ok (index_erase q f) e' Hf1) as (_ & Hf2 & Hperm2); [cbn; lia| |].
    { intros g Hg. assert (g ∈ offsets f) as Hgf by (rewrite Hperm; by right).
      assert (g <> q) as Hne by (intros ->; pose proof (index_nodup f Hf) as Hnd; rewrite Hperm in Hnd; by apply NoDup_cons in Hnd as [? _]).
      pose proof (index_len f g Hf Hgf). specialize (Hsep g Hgf). specialize (Hend g Hgf).
      destruct (index_gap f g q Hf Hgf Hq Hne); unfold gap, separate, x_end in *; cbn; lia. }
    split_and!; [done| |].
    + intros t x. rewrite (hits_perm _ _ t x Hperm2), (hits_perm _ _ t x Hperm), !hits_cons. unfold e'. rewrite Z.add_comm, Z.add_comm with (n := x_len e).
      rewrite inside_join by lia. unfold x_end in Hqe. rewrite Hqe, <- Ee, <- Hqs. destruct q as [qs qo ql]; cbn [x_seg x_off x_len]. lia.
    + intros Ha [A1 A2]. rewrite Hperm2. rewrite Hperm in Ha. apply Forall_cons in Ha as [[B1 B2] Ha]. constructor; [|done].
      split; cbn; [done|by apply aligned_add].
  - destruct (index_insert_ok f e Hf He) as (_ & Hf2 & Hperm2).
    { intros g Hg. pose proof (hole_before_None _ _ _ g Hf E Hg) as Hn. pose proof (index_len f g Hf Hg). specialize (Hsep g Hg). specialize (Hend g Hg).
      unfold gap, separate, x_end in *. destruct (decide (x_seg g = x_seg e)) as [Hs|]; [specialize (Hn Hs)|]; lia. }
    split_and!; [done| |].
    + intros t x. rewrite (hits_perm _ _ t x Hperm2), hits_cons. lia.
    + intros Ha Ha'. rewrite Hperm2. by constructor.
Qed.
