(* ===== verification/ExtentTheorems.v ===== *)
(** * The packs: every byte of every segment has exactly one owner *)

From stdpp Require Import prelude list list_numbers sorting gmap.
From Stdlib Require Import ZArith Lia.
From S2P Require Import Prelude.
From S2P Require Import DiskFormat.
From S2P Require Import DiskMap.
From S2P Require Import DiskMapTheorems.
From S2P Require Import DiskExtents.
From S2P Require Import ExtentIndex.
#[local] Open Scope Z_scope.

(** ** One kind *)
Definition seg_at (m : gmap Z PackSegment) (s : Z) : PackSegment := default empty_segment (m !! s).

Lemma seg_at_insert m s v t : seg_at (<[s := v]> m) t = if decide (s = t) then v else seg_at m t.
Proof. unfold seg_at. destruct (decide (s = t)) as [<-|]; [by rewrite lookup_insert_eq|by rewrite lookup_insert_ne]. Qed.

Definition sum_len (l : list Extent) (s : Z) : Z := foldr (fun e n => (if x_seg e =? s then x_len e else 0) + n) 0 l.

Lemma sum_len_cons e l s : sum_len (e :: l) s = (if x_seg e =? s then x_len e else 0) + sum_len l s.
Proof. done. Qed.

Lemma sum_len_perm l k s : l ≡ₚ k -> sum_len l s = sum_len k s.
Proof. induction 1; rewrite ?sum_len_cons in *; lia. Qed.

Lemma sum_len_nonneg l s : Forall (fun e => 0 < x_len e) l -> 0 <= sum_len l s.
Proof. induction 1 as [|e l He _ IH]; [done|]. rewrite sum_len_cons. destruct (x_seg e =? s); lia. Qed.

Lemma sum_len_elem l e : Forall (fun e => 0 < x_len e) l -> e ∈ l -> x_len e <= sum_len l (x_seg e).
Proof.
  intros Hl He. rewrite (sum_len_perm l (e :: remove_node e l)) by (by apply remove_node_perm). rewrite sum_len_cons, Z.eqb_refl.
  pose proof (sum_len_nonneg _ (x_seg e) (Forall_sublist _ _ _ Hl (remove_node_sublist e l))). lia.
Qed.

(** [owned] are the extents handed out, [held] the tails being trimmed. *)
Record kind_ok (p : KindPack) (owned held : list Extent) : Prop := MkKindOk {
  ko_index : index_ok (free_extents p);
  ko_cover : forall s x, hits owned s x + hits held s x + hits (offsets (free_extents p)) s x
                         = Z.b2z ((0 <=? x) && (x <? seg_bytes (segment_of p s)));
  ko_len : Forall (fun e => 0 < x_len e) (owned ++ held);
  ko_aligned : Forall page_aligned (owned ++ held ++ offsets (free_extents p));
  ko_occupied : forall s, occupied_bytes (segment_of p s) = sum_len owned s;
  ko_held : forall e, e ∈ held -> x_end e = seg_bytes (segment_of p (x_seg e)) /\ trimming (segment_of p (x_seg e)) = true;
  ko_one_held : NoDup (x_seg <$> held);
  ko_tail : active_tail p = seg_bytes (segment_of p (active_segment p));
  ko_last : 0 <= active_segment p <= last_segment p /\ last_segment p <= u32_max /\
            forall s, is_Some (segments p !! s) -> 0 <= s <= last_segment p;
  ko_bytes : forall s, 0 <= seg_bytes (segment_of p s) <= kPackSegmentBytes /\ seg_bytes (segment_of p s) mod 4096 = 0;
}.

Section kind.
Variables (p : KindPack) (owned held : list Extent).
Hypothesis Hok : kind_ok p owned held.

Lemma kind_range s x : 0 < hits owned s x + hits held s x + hits (offsets (free_extents p)) s x -> 0 <= x < seg_bytes (segment_of p s).
Proof. rewrite (ko_cover _ _ _ Hok). destruct (Z.leb_spec 0 x), (Z.ltb_spec x (seg_bytes (segment_of p s))); cbn; lia. Qed.

(** Every extent lies inside its segment's file. *)
Lemma kind_inside e : e ∈ owned ++ held ++ offsets (free_extents p) -> 0 < x_len e ->
  0 <= x_off e /\ x_end e <= seg_bytes (segment_of p (x_seg e)).
Proof.
  intros He Hl. assert (forall x, x_off e <= x < x_end e -> 0 <= x < seg_bytes (segment_of p (x_seg e))) as Hx.
  { intros x Hx. apply kind_range. rewrite <- Z.add_assoc, <- !hits_app.
    pose proof (hits_elem _ e (x_seg e) x He) as H1. rewrite inside_true in H1. specialize (H1 (conj eq_refl Hx)). lia. }
  pose proof (Hx (x_off e)). pose proof (Hx (x_end e - 1)). unfold x_end in *. lia.
Qed.

Lemma kind_segment e : e ∈ owned ++ held ++ offsets (free_extents p) -> 0 < x_len e -> exists state, segments p !! x_seg e = Some state.
Proof.
  intros He Hl. pose proof (kind_inside e He Hl) as [H1 H2]. unfold segment_of in H2. destruct (segments p !! x_seg e); [by eexists|].
  cbn in H2. unfold x_end in H2. lia.
Qed.

Lemma kind_cover_le s x : hits (owned ++ held ++ offsets (free_extents p)) s x <= 1.
Proof. rewrite !hits_app, Z.add_assoc, (ko_cover _ _ _ Hok). destruct (_ && _); cbn; lia. Qed.

Lemma kind_fresh_hole g e : g ∈ offsets (free_extents p) -> e ∈ owned ++ held -> separate g e.
Proof.
  intros Hg He. pose proof (ko_len _ _ _ Hok) as Hl. rewrite Forall_forall in Hl. specialize (Hl e He).
  pose proof (index_len _ g (ko_index _ _ _ Hok) Hg) as Lg.
  apply list_elem_of_lookup in Hg as [i Hi]. apply list_elem_of_lookup in He as [j Hj].
  apply (hits_separate (owned ++ held ++ offsets (free_extents p)) (length (owned ++ held) + i) j); [apply kind_cover_le| | | |done|done].
  - apply lookup_lt_Some in Hj. lia.
  - rewrite app_assoc, lookup_app_r by lia. by replace (length (owned ++ held) + i - length (owned ++ held))%nat with i by lia.
  - rewrite app_assoc, lookup_app_l; [done|]. by apply lookup_lt_Some in Hj.
Qed.
End kind.

Ltac segs := rewrite ?seg_at_insert; try case_decide; cbn [seg_bytes occupied_bytes trimming]; subst; try done.

(** Handing out the first bytes of a hole. *)
Lemma carve_kind p owned held fit b : kind_ok p owned held -> fit ∈ offsets (free_extents p) -> 0 < b <= x_len fit -> b mod 4096 = 0 ->
  exists state, segments p !! x_seg fit = Some state /\
  kind_ok (occupy (with_free p (carve fit b (free_extents p))) (x_seg fit) b state) (MkExtent (x_seg fit) (x_off fit) b :: owned) held.
Proof.
  intros Hok Hfit Hb Hb4. destruct (kind_segment _ _ _ Hok fit) as [state Hst]; [by rewrite !elem_of_app; auto|lia|]. exists state. split; [done|].
  assert (segment_of p (x_seg fit) = state) as Es by (unfold segment_of; by rewrite Hst).
  destruct (carve_spec _ fit b (ko_index _ _ _ Hok) Hfit Hb) as (Hidx & Hhits & Hal).
  pose proof (ko_aligned _ _ _ Hok) as Ha. rewrite !Forall_app in Ha. destruct Ha as (A1 & A2 & A3).
  assert (forall s, segment_of (occupy (with_free p (carve fit b (free_extents p))) (x_seg fit) b state) s =
    if decide (x_seg fit = s) then MkSegment (seg_bytes state) (occupied_bytes state + b) (trimming state) else segment_of p s) as Hseg
    by (intros s; apply seg_at_insert).
  constructor; cbn [free_extents occupy with_free with_segments active_tail active_segment last_segment segments]; intros *.
  - done.
  - rewrite Hseg, hits_cons. pose proof (ko_cover _ _ _ Hok s x) as Hc. rewrite Hhits in Hc.
    replace (seg_bytes (if decide (x_seg fit = s) then _ else _)) with (seg_bytes (segment_of p s)); [lia|]. case_decide; [|done]. by subst.
  - constructor; [cbn; lia|apply Hok].
  - cbn [app]. constructor; [|rewrite !Forall_app; split_and!; [done|done|by apply Hal]].
    rewrite Forall_forall in A3. by destruct (A3 fit Hfit).
  - rewrite Hseg, sum_len_cons. cbn [x_seg x_len]. pose proof (ko_occupied _ _ _ Hok s) as Ho.
    case_decide as E; [subst s; rewrite Z.eqb_refl; rewrite Es in Ho; cbn; lia|]. rewrite (proj2 (Z.eqb_neq _ _) E). lia.
  - intros He. destruct (ko_held _ _ _ Hok e He) as [H1 H2]. rewrite Hseg. case_decide as E; [|done]. rewrite <- E, Es in *. done.
  - apply Hok.
  - rewrite Hseg, (ko_tail _ _ _ Hok). case_decide as E; [|done]. by rewrite <- E, Es.
  - destruct (ko_last _ _ _ Hok) as (H1 & H2 & H3). split; [done|]. split; [done|].
    intros t [<-|Hs]%lookup_insert_is_Some'; apply H3; [by eexists|done].
  - rewrite Hseg. pose proof (ko_bytes _ _ _ Hok s) as Hbs. case_decide as E; [|done]. by rewrite <- E, Es in Hbs.
Qed.

Lemma occupy_seg p f b st s t : segment_of (occupy (with_free p f) s b st) t
  = if decide (s = t) then MkSegment (seg_bytes st) (occupied_bytes st + b) (trimming st) else segment_of p t.
Proof. apply seg_at_insert. Qed.

Lemma hits_remove l e s x : e ∈ l -> hits l s x = Z.b2z (inside s x e) + hits (remove_node e l) s x.
Proof. intros He. by rewrite (hits_perm _ _ s x (remove_node_perm e l He)). Qed.

Lemma sum_len_remove l e s : e ∈ l -> sum_len l s = (if x_seg e =? s then x_len e else 0) + sum_len (remove_node e l) s.
Proof. intros He. by rewrite (sum_len_perm _ _ s (remove_node_perm e l He)). Qed.

Lemma remove_node_elem e f l : f ∈ remove_node e l -> f ∈ l.
Proof. apply (sublist_subseteq _ _ (remove_node_sublist e l)). Qed.

(** Giving an extent back: it cannot fail. *)
Lemma release_kind p owned held e : kind_ok p owned held -> e ∈ owned ->
  exists state f, segments p !! x_seg e = Some state /\ x_len e <> 0 /\ x_len e <= occupied_bytes state /\
  insert_free_extent (x_seg e) (x_off e) (x_len e) (free_extents p) = (Ok tt, f) /\
  kind_ok (occupy (with_free p f) (x_seg e) (- x_len e) state) (remove_node e owned) held.
Proof.
  intros Hok He. pose proof (ko_len _ _ _ Hok) as Hlen. apply Forall_app in Hlen as [Hlo Hlh].
  assert (0 < x_len e) as Hl by (rewrite Forall_forall in Hlo; by apply Hlo).
  destruct (kind_segment _ _ _ Hok e) as [state Hst]; [by rewrite !elem_of_app; auto|done|].
  assert (segment_of p (x_seg e) = state) as Es by (unfold segment_of; by rewrite Hst).
  assert (e = MkExtent (x_seg e) (x_off e) (x_len e)) as Ee by (by destruct e).
  destruct (insert_free_spec (free_extents p) (x_seg e) (x_off e) (x_len e) (ko_index _ _ _ Hok) Hl) as (f & Hf & Hidx & Hhits & Hal).
  { rewrite <- Ee. intros g Hg. eapply kind_fresh_hole; [exact Hok|done|]. apply elem_of_app. by left. }
  rewrite <- Ee in Hhits, Hal. exists state, f. pose proof (ko_occupied _ _ _ Hok (x_seg e)) as Hocc. rewrite Es in Hocc.
  split_and!; [done|lia|rewrite Hocc; by apply sum_len_elem|done|].
  pose proof (ko_aligned _ _ _ Hok) as Ha. rewrite !Forall_app in Ha. destruct Ha as (A1 & A2 & A3).
  constructor; cbn [free_extents occupy with_free with_segments active_tail active_segment last_segment segments]; intros *.
  - done.
  - rewrite occupy_seg. pose proof (ko_cover _ _ _ Hok s x) as Hc. rewrite (hits_remove owned e) in Hc by done. rewrite Hhits.
    replace (seg_bytes (if decide (x_seg e = s) then _ else _)) with (seg_bytes (segment_of p s)); [lia|]. case_decide; [|done]. by subst.
  - apply Forall_app. split; [|done]. eapply Forall_sublist; [|apply remove_node_sublist]; done.
  - rewrite !Forall_app. split_and!; [eapply Forall_sublist; [|apply remove_node_sublist]; done|done|]. apply Hal; [done|].
    rewrite Forall_forall in A1. by apply A1.
  - rewrite occupy_seg. pose proof (ko_occupied _ _ _ Hok s) as Ho. rewrite (sum_len_remove owned e) in Ho by done.
    case_decide as E; [subst s; rewrite Es, Z.eqb_refl in Ho; cbn; lia|]. rewrite (proj2 (Z.eqb_neq _ _) E) in Ho. lia.
  - intros He0. destruct (ko_held _ _ _ Hok e0 He0) as [H1 H2]. rewrite occupy_seg. case_decide as E; [|done]. rewrite <- E, Es in *. done.
  - apply Hok.
  - rewrite occupy_seg, (ko_tail _ _ _ Hok). case_decide as E; [|done]. by rewrite <- E, Es.
  - destruct (ko_last _ _ _ Hok) as (H1 & H2 & H3). split; [done|]. split; [done|].
    intros t [<-|Hs]%lookup_insert_is_Some'; apply H3; [by eexists|done].
  - rewrite occupy_seg. pose proof (ko_bytes _ _ _ Hok s) as Hbs. case_decide as E; [|done]. by rewrite <- E, Es in Hbs.
Qed.

(** ** Appending *)
Lemma touch_seg p s t : segment_of (touch p s) t = segment_of p t.
Proof. unfold segment_of at 1. cbn [touch with_segments segments]. rewrite (seg_at_insert _ _ _ t : default _ _ = _). case_decide as E; [by subst|done]. Qed.

(** The invariant reads the segments only through [segment_of]. *)
Lemma kind_ok_ext p q owned held : kind_ok p owned held -> free_extents q = free_extents p -> (forall s, segment_of q s = segment_of p s) ->
  active_tail q = active_tail p -> active_segment q = active_segment p ->
  (active_segment q <= last_segment q <= u32_max /\ forall s, is_Some (segments q !! s) -> 0 <= s <= last_segment q) -> kind_ok q owned held.
Proof.
  intros [] Ef Es Et Ea [Hlast Hkeys]. constructor; rewrite ?Ef, ?Et, ?Ea in *; try done; try (setoid_rewrite Es; done).
  split; [|split; [lia|done]]. destruct ko_last0. lia.
Qed.

Lemma touch_kind p owned held s : kind_ok p owned held -> 0 <= s <= last_segment p -> kind_ok (touch p s) owned held.
Proof.
  intros Hok Hs. pose proof (ko_last _ _ _ Hok) as (H1 & H2 & H3). eapply kind_ok_ext; [exact Hok|done|apply touch_seg|done|done|].
  cbn. split; [lia|]. by intros t [<-|Ht]%lookup_insert_is_Some'; [|apply H3].
Qed.

Definition next_segment (p : KindPack) : KindPack :=
  MkKind (free_extents p) (segments p) (active_segment p) (active_tail p) (last_segment p + 1).

Lemma next_kind p owned held : kind_ok p owned held -> last_segment p <> u32_max ->
  kind_ok (next_segment p) owned held /\ segment_of p (last_segment p + 1) = empty_segment.
Proof.
  intros Hok Hl. pose proof (ko_last _ _ _ Hok) as (H1 & H2 & H3). split.
  - eapply kind_ok_ext; [exact Hok|done|done|done|done|]. cbn. split; [lia|]. intros s Hs. specialize (H3 s Hs). lia.
  - unfold segment_of. destruct (segments p !! (last_segment p + 1)) eqn:E; [|done]. exfalso. specialize (H3 (last_segment p + 1) (ex_intro _ _ E)). lia.
Qed.

Definition append_segment (p : KindPack) (s b : Z) : KindPack :=
  let state := segment_of p s in
  MkKind (free_extents p) (<[s := MkSegment (seg_bytes state + b) (occupied_bytes state + b) (trimming state)]> (segments p))
         s (seg_bytes state + b) (last_segment p).

Lemma append_kind p owned held s b : kind_ok p owned held -> 0 <= s <= last_segment p -> trimming (segment_of p s) = false ->
  0 < b -> b mod 4096 = 0 -> seg_bytes (segment_of p s) + b <= kPackSegmentBytes ->
  kind_ok (append_segment p s b) (MkExtent s (seg_bytes (segment_of p s)) b :: owned) held.
Proof.
  intros Hok Hs Htr Hb Hb4 Hfit. set (st := segment_of p s) in *. set (e := MkExtent s (seg_bytes st) b).
  destruct (ko_bytes _ _ _ Hok s) as [Hr Hr4]. fold st in Hr, Hr4.
  assert (forall t, segment_of (append_segment p s b) t = if decide (s = t) then MkSegment (seg_bytes st + b) (occupied_bytes st + b) (trimming st)
    else segment_of p t) as Hseg by (intros t; apply seg_at_insert).
  constructor; cbn [free_extents append_segment active_tail active_segment last_segment segments]; intros *.
  - apply Hok.
  - rewrite Hseg, hits_cons. pose proof (ko_cover _ _ _ Hok s0 x) as Hc. unfold inside, e, x_end. cbn [x_seg x_off x_len].
    case_decide as E; [subst s0; fold st in Hc; rewrite Z.eqb_refl|rewrite (proj2 (Z.eqb_neq _ _) E); cbn; lia]. cbn [andb seg_bytes].
    destruct (Z.leb_spec 0 x), (Z.ltb_spec x (seg_bytes st)), (Z.leb_spec (seg_bytes st) x), (Z.ltb_spec x (seg_bytes st + b)); cbn in *; lia.
  - constructor; [done|apply Hok].
  - cbn [app]. constructor; [done|apply Hok].
  - rewrite Hseg, sum_len_cons. pose proof (ko_occupied _ _ _ Hok s0) as Ho. cbn [x_seg x_len e].
    case_decide as E; [subst s0; fold st in Ho; rewrite Z.eqb_refl; cbn; lia|]. rewrite (proj2 (Z.eqb_neq _ _) E). lia.
  - intros He. destruct (ko_held _ _ _ Hok e0 He) as [H1 H2]. rewrite Hseg. case_decide as E; [|done]. rewrite <- E in H2. fold st in H2. congruence.
  - apply Hok.
  - rewrite Hseg. by rewrite decide_True.
  - destruct (ko_last _ _ _ Hok) as (H1 & H2 & H3). split; [done|]. split; [done|].
    by intros t [<-|Ht]%lookup_insert_is_Some'; [|apply H3].
  - rewrite Hseg. case_decide; [|apply Hok]. cbn. split; [lia|by apply aligned_add].
Qed.

(** ** Trimming *)
Lemma with_trimming_seg p f s st b t : segment_of (with_trimming (with_free p f) s st b) t
  = if decide (s = t) then MkSegment (seg_bytes st) (occupied_bytes st) b else segment_of p t.
Proof. apply seg_at_insert. Qed.

Lemma trim_begin_kind p owned held s st e : kind_ok p owned held -> segments p !! s = Some st -> trimming st = false ->
  tail_hole (offsets (free_extents p)) s (seg_bytes st) = Some e ->
  x_seg e = s /\ kind_ok (with_trimming (with_free p (index_erase e (free_extents p))) s st true) owned (e :: held).
Proof.
  intros Hok Hst Htr He. apply tail_hole_Some in He as (Hin & Hs & Hend). split; [done|].
  assert (segment_of p s = st) as Es by (unfold segment_of; by rewrite Hst).
  destruct (index_erase_ok _ e (ko_index _ _ _ Hok) Hin) as [Hidx Hperm]. pose proof (index_len _ e (ko_index _ _ _ Hok) Hin) as Hl.
  pose proof (ko_aligned _ _ _ Hok) as Ha. pose proof (ko_len _ _ _ Hok) as Hlen.
  rewrite Hperm in Ha. rewrite Forall_app in Hlen. destruct Hlen as [L1 L2].
  constructor; cbn [free_extents with_trimming with_free with_segments active_tail active_segment last_segment segments]; intros *.
  - done.
  - rewrite with_trimming_seg. pose proof (ko_cover _ _ _ Hok s0 x) as Hc. rewrite (hits_perm _ _ s0 x Hperm), hits_cons in Hc. rewrite hits_cons.
    replace (seg_bytes (if decide (s = s0) then _ else _)) with (seg_bytes (segment_of p s0)); [lia|]. case_decide; [|done]. by subst.
  - apply Forall_app. split; [done|by constructor].
  - rewrite !Forall_app, !Forall_cons in *. tauto.
  - rewrite with_trimming_seg. rewrite <- (ko_occupied _ _ _ Hok). case_decide as E; [|done]. by rewrite <- E, Es.
  - intros [->|He0]%elem_of_cons; rewrite with_trimming_seg; [by rewrite decide_True|].
    destruct (ko_held _ _ _ Hok e0 He0) as [H1 H2]. case_decide as E; [|done]. rewrite <- E, Es in *. done.
  - cbn. constructor; [|apply Hok]. intros (e0 & Es0 & He0)%list_elem_of_fmap.
    destruct (ko_held _ _ _ Hok e0 He0) as [_ H2]. rewrite <- Es0, Hs, Es in H2. congruence.
  - rewrite with_trimming_seg, (ko_tail _ _ _ Hok). case_decide as E; [|done]. by rewrite <- E, Es.
  - destruct (ko_last _ _ _ Hok) as (H1 & H2 & H3). split; [done|]. split; [done|].
    intros t [<-|Ht]%lookup_insert_is_Some'; apply H3; [by eexists|done].
  - rewrite with_trimming_seg. pose proof (ko_bytes _ _ _ Hok s0) as Hbs. case_decide as E; [|done]. by rewrite <- E, Es in Hbs.
Qed.

(** The other tails being trimmed are in other segments. *)
Lemma other_held held e f : NoDup (x_seg <$> held) -> e ∈ held -> f ∈ remove_node e held -> x_seg f <> x_seg e.
Proof.
  intros Hn He Hf E. rewrite (remove_node_perm e held He) in Hn. cbn in Hn. apply NoDup_cons in Hn as [Hn _].
  apply Hn. rewrite <- E. by apply list_elem_of_fmap_2.
Qed.

Lemma nodup_remove held e : NoDup (x_seg <$> held) -> NoDup (x_seg <$> remove_node e held).
Proof. intros Hn. eapply sublist_NoDup; [exact Hn|]. apply fmap_sublist, remove_node_sublist. Qed.

Lemma trim_undo_kind p owned held e : kind_ok p owned held -> e ∈ held ->
  kind_ok (with_trimming (with_free p (trim_undo e (free_extents p))) (x_seg e) (segment_of p (x_seg e)) false) owned (remove_node e held).
Proof.
  intros Hok He. pose proof (ko_len _ _ _ Hok) as Hlen. apply Forall_app in Hlen as [Hlo Hlh].
  assert (0 < x_len e) as Hl by (rewrite Forall_forall in Hlh; by apply Hlh). destruct (ko_held _ _ _ Hok e He) as [Hend _].
  destruct (trim_undo_spec (free_extents p) e (ko_index _ _ _ Hok) Hl) as (Hidx & Hhits & Hal).
  { intros g Hg. eapply kind_fresh_hole; [exact Hok|done|]. apply elem_of_app. by right. }
  { intros g Hg Es. rewrite Hend, <- Es. eapply (kind_inside _ _ _ Hok g); [by rewrite !elem_of_app; auto|]. by eapply index_len, Hg; apply Hok. }
  pose proof (ko_aligned _ _ _ Hok) as Ha. rewrite !Forall_app in Ha. destruct Ha as (A1 & A2 & A3).
  constructor; cbn [free_extents with_trimming with_free with_segments active_tail active_segment last_segment segments]; intros *.
  - done.
  - rewrite with_trimming_seg, Hhits. pose proof (ko_cover _ _ _ Hok s x) as Hc. rewrite (hits_remove held e) in Hc by done.
    replace (seg_bytes (if decide (x_seg e = s) then _ else _)) with (seg_bytes (segment_of p s)); [lia|]. case_decide; [|done]. by subst.
  - apply Forall_app. split; [done|]. eapply Forall_sublist; [|apply remove_node_sublist]; done.
  - rewrite !Forall_app. split_and!; [done|eapply Forall_sublist; [|apply remove_node_sublist]; done|]. apply Hal; [done|].
    rewrite Forall_forall in A2. by apply A2.
  - rewrite with_trimming_seg. rewrite <- (ko_occupied _ _ _ Hok). case_decide as E; [|done]. by rewrite <- E.
  - intros He0. pose proof (other_held held e e0 (ko_one_held _ _ _ Hok) He He0) as Hne. apply remove_node_elem in He0.
    rewrite with_trimming_seg, decide_False by done. by apply (ko_held _ _ _ Hok).
  - apply nodup_remove, Hok.
  - rewrite with_trimming_seg, (ko_tail _ _ _ Hok). case_decide as E; [|done]. by rewrite <- E.
  - destruct (ko_last _ _ _ Hok) as (H1 & H2 & H3). split; [done|]. split; [done|].
    destruct (kind_segment _ _ _ Hok e) as [st Hst]; [by rewrite !elem_of_app; auto|done|].
    intros t [<-|Ht]%lookup_insert_is_Some'; apply H3; [by eexists|done].
  - rewrite with_trimming_seg. pose proof (ko_bytes _ _ _ Hok s) as Hbs. case_decide as E; [|done]. by rewrite <- E in Hbs.
Qed.

Definition cut_segment (p : KindPack) (e : Extent) : KindPack :=
  MkKind (free_extents p) (<[x_seg e := MkSegment (x_off e) (occupied_bytes (segment_of p (x_seg e))) false]> (segments p))
    (active_segment p) (if x_seg e =? active_segment p then x_off e else active_tail p) (last_segment p).

Lemma trim_cut_kind p owned held e : kind_ok p owned held -> e ∈ held -> kind_ok (cut_segment p e) owned (remove_node e held).
Proof.
  intros Hok He. pose proof (ko_len _ _ _ Hok) as Hlen. apply Forall_app in Hlen as [Hlo Hlh].
  assert (0 < x_len e) as Hl by (rewrite Forall_forall in Hlh; by apply Hlh). destruct (ko_held _ _ _ Hok e He) as [Hend _].
  destruct (kind_inside _ _ _ Hok e) as [Hoff _]; [by rewrite !elem_of_app; auto|done|].
  pose proof (ko_aligned _ _ _ Hok) as Ha. rewrite !Forall_app in Ha. destruct Ha as (A1 & A2 & A3).
  assert (forall t, segment_of (cut_segment p e) t = if decide (x_seg e = t) then MkSegment (x_off e) (occupied_bytes (segment_of p (x_seg e))) false
    else segment_of p t) as Hseg by (intros t; apply seg_at_insert).
  constructor; cbn [free_extents cut_segment active_tail active_segment last_segment segments]; intros *.
  - apply Hok.
  - rewrite Hseg. pose proof (ko_cover _ _ _ Hok s x) as Hc. rewrite (hits_remove held e) in Hc by done. unfold inside in Hc.
    case_decide as E; [subst s; rewrite Z.eqb_refl in Hc|by rewrite (proj2 (Z.eqb_neq _ _) E) in Hc]. cbn [andb seg_bytes] in *. rewrite <- Hend in Hc.
    unfold x_end in *. destruct (Z.leb_spec 0 x), (Z.ltb_spec x (x_off e + x_len e)), (Z.leb_spec (x_off e) x), (Z.ltb_spec x (x_off e)); cbn in *; lia.
  - apply Forall_app. split; [done|]. eapply Forall_sublist; [|apply remove_node_sublist]; done.
  - rewrite !Forall_app. split_and!; [done|eapply Forall_sublist; [|apply remove_node_sublist]; done|done].
  - rewrite Hseg. rewrite <- (ko_occupied _ _ _ Hok). case_decide as E; [|done]. by rewrite <- E.
  - intros He0. pose proof (other_held held e e0 (ko_one_held _ _ _ Hok) He He0) as Hne. apply remove_node_elem in He0.
    rewrite Hseg, decide_False by done. by apply (ko_held _ _ _ Hok).
  - apply nodup_remove, Hok.
  - rewrite Hseg, (ko_tail _ _ _ Hok). destruct (Z.eqb_spec (x_seg e) (active_segment p)) as [E|E]; [by rewrite decide_True|by rewrite decide_False].
  - destruct (ko_last _ _ _ Hok) as (H1 & H2 & H3). split; [done|]. split; [done|].
    destruct (kind_segment _ _ _ Hok e) as [st Hst]; [by rewrite !elem_of_app; auto|done|].
    intros t [<-|Ht]%lookup_insert_is_Some'; apply H3; [by eexists|done].
  - rewrite Hseg. pose proof (ko_bytes _ _ _ Hok s) as Hbs. case_decide as E; [|done]. cbn. rewrite <- E, <- Hend in Hbs. unfold x_end in Hbs.
    split; [lia|]. rewrite Forall_forall in A2. by destruct (A2 e He).
Qed.
