(* ===== verification/PackWorld.v ===== *)
(** * The packs as a state machine: reservations, releases, relocations and trims in any
      interleaving *)

From stdpp Require Import prelude functions list list_numbers sorting gmap.
From Stdlib Require Import ZArith Lia.
From S2P Require Import Prelude.
From S2P Require Import DiskFormat.
From S2P Require Import DiskMap.
From S2P Require Import DiskMapTheorems.
From S2P Require Import DiskExtents.
From S2P Require Import ExtentIndex.
From S2P Require Import ExtentTheorems.
#[local] Open Scope Z_scope.

(** ** File bytes *)
Definition kind_bytes (m : gmap Z PackSegment) : Z := foldr (fun kv n => seg_bytes (snd kv) + n) 0 (map_to_list m).

Lemma kind_bytes_perm (l k : list (Z * PackSegment)) : l ≡ₚ k ->
  foldr (fun kv n => seg_bytes (snd kv) + n) 0 l = foldr (fun kv n => seg_bytes (snd kv) + n) 0 k.
Proof. induction 1; cbn [foldr]; lia. Qed.

Lemma kind_bytes_fresh m s v : m !! s = None -> kind_bytes (<[s := v]> m) = seg_bytes v + kind_bytes m.
Proof. intros Hm. unfold kind_bytes. by rewrite (kind_bytes_perm _ _ (map_to_list_insert m s v Hm)). Qed.

Lemma kind_bytes_insert m s v : kind_bytes (<[s := v]> m) = kind_bytes m - seg_bytes (seg_at m s) + seg_bytes v.
Proof.
  unfold seg_at. destruct (m !! s) as [old|] eqn:E.
  - rewrite <- (insert_delete_eq m s v), kind_bytes_fresh by apply lookup_delete_eq.
    rewrite <- (insert_id m s old E) at 2. rewrite <- (insert_delete_eq m s old), kind_bytes_fresh by apply lookup_delete_eq. cbn. lia.
  - rewrite kind_bytes_fresh by done. cbn. lia.
Qed.

Definition total_bytes (l : list KindPack) : Z := foldr (fun p n => kind_bytes (segments p) + n) 0 l.

Lemma total_bytes_insert l k p : (k < length l)%nat ->
  total_bytes (<[k := p]> l) = total_bytes l - kind_bytes (segments (nth k l no_kind)) + kind_bytes (segments p).
Proof.
  revert k. induction l as [|q l IH]; intros [|k] Hk; cbn in Hk; try lia; cbn [insert list_insert total_bytes foldr nth].
  - lia.
  - fold (total_bytes (<[k := p]> l)). fold (total_bytes l). rewrite IH by lia. lia.
Qed.

(** ** The invariant *)
Definition store_ok (s : PackStore) (owned held : nat -> list Extent) : Prop :=
  length (kinds s) = 5%nat /\ (forall k, (k < 5)%nat -> kind_ok (kind_of s k) (owned k) (held k)) /\
  pack_storage_bytes s = total_bytes (kinds s).

Lemma kind_of_insert l st k p j : (k < length l)%nat -> kind_of (MkPacks (<[k := p]> l) st) j = if decide (k = j) then p else nth j l no_kind.
Proof.
  intros Hk. unfold kind_of. cbn [kinds]. destruct (decide (k = j)) as [<-|Hne].
  - apply nth_lookup_Some. by apply list_lookup_insert_eq.
  - rewrite !nth_lookup. by rewrite list_lookup_insert_ne.
Qed.

(** One kind changed, by [delta] file bytes. *)
Lemma store_update s owned held k p delta O H : store_ok s owned held -> (k < 5)%nat -> kind_ok p O H ->
  kind_bytes (segments p) = kind_bytes (segments (kind_of s k)) + delta ->
  store_ok (MkPacks (<[k := p]> (kinds s)) (pack_storage_bytes s + delta)) (<[k := O]> owned) (<[k := H]> held).
Proof.
  intros (Hlen & Hk & Hst) Hlt Hp Hb. split_and!; cbn [kinds pack_storage_bytes].
  - by rewrite length_insert.
  - intros j Hj. rewrite kind_of_insert by lia. destruct (decide (k = j)) as [<-|Hne].
    + by rewrite !fn_lookup_insert.
    + rewrite !fn_lookup_insert_ne by done. by apply Hk.
  - rewrite total_bytes_insert by lia. fold (kind_of s k). lia.
Qed.

Lemma store_same s owned held k p O H : store_ok s owned held -> (k < 5)%nat -> kind_ok p O H ->
  kind_bytes (segments p) = kind_bytes (segments (kind_of s k)) -> store_ok (set_kind s k p) (<[k := O]> owned) (<[k := H]> held).
Proof.
  intros Hs Hk Hp Hb. unfold set_kind. replace (pack_storage_bytes s) with (pack_storage_bytes s + 0) by lia.
  eapply store_update; [done|done|done|lia].
Qed.

(** The invariant does not depend on how the owners are written down. *)
Lemma store_ext s o h o' h' : store_ok s o h -> (forall k, (k < 5)%nat -> o' k = o k /\ h' k = h k) -> store_ok s o' h'.
Proof. intros (? & Hk & ?) Heq. split_and!; [done| |done]. intros k Hlt. destruct (Heq k Hlt) as [-> ->]. by apply Hk. Qed.

Lemma fn_same {A} (f : nat -> A) k j : <[k := f k]> f j = f j.
Proof. destruct (decide (k = j)) as [<-|]; [by rewrite fn_lookup_insert|by rewrite fn_lookup_insert_ne]. Qed.

Lemma occupy_bytes p f s b st : segments p !! s = Some st -> kind_bytes (segments (occupy (with_free p f) s b st)) = kind_bytes (segments p).
Proof. intros Hst. cbn. rewrite kind_bytes_insert. unfold seg_at. rewrite Hst. cbn. lia. Qed.

Lemma touch_bytes p s : kind_bytes (segments (touch p s)) = kind_bytes (segments p).
Proof. cbn. rewrite kind_bytes_insert. unfold segment_of, seg_at. lia. Qed.

Lemma append_bytes p s b : kind_bytes (segments (append_segment p s b)) = kind_bytes (segments p) + b.
Proof. cbn. rewrite kind_bytes_insert. unfold segment_of, seg_at. cbn. lia. Qed.

Lemma trimming_bytes p f s st b : segment_of p s = st -> kind_bytes (segments (with_trimming (with_free p f) s st b)) = kind_bytes (segments p).
Proof. intros Hst. cbn. rewrite kind_bytes_insert. unfold segment_of, seg_at in *. rewrite Hst. cbn. lia. Qed.

Lemma cut_bytes p e : x_end e = seg_bytes (segment_of p (x_seg e)) -> kind_bytes (segments (cut_segment p e)) = kind_bytes (segments p) - x_len e.
Proof. intros He. cbn. rewrite kind_bytes_insert. unfold segment_of, seg_at, x_end in *. cbn. lia. Qed.

(** ** The operations *)
Section ops.
Variable capacity : Z.

Definition good_size (b : Z) : Prop := 0 < b <= kPackSegmentBytes /\ b mod 4096 = 0.

(** A call that fails keeps every owner and every file; only which empty segments are
    known may change. *)
Definition failed (s s' : PackStore) (owned held : nat -> list Extent) : Prop :=
  store_ok s' owned held /\ pack_storage_bytes s' = pack_storage_bytes s.

Lemma same_kind_failed s owned held k p : store_ok s owned held -> (k < 5)%nat -> kind_ok p (owned k) (held k) ->
  kind_bytes (segments p) = kind_bytes (segments (kind_of s k)) -> failed s (set_kind s k p) owned held.
Proof.
  intros Hs Hk Hp Hb. split; [|done]. eapply store_ext; [by apply store_same|]. intros j _. by rewrite !fn_same.
Qed.

Lemma append_update s owned held k p seg b : store_ok s owned held -> (k < 5)%nat -> kind_ok p (owned k) (held k) ->
  kind_bytes (segments p) = kind_bytes (segments (kind_of s k)) -> 0 <= seg <= last_segment p -> trimming (segment_of p seg) = false ->
  good_size b -> seg_bytes (segment_of p seg) + b <= kPackSegmentBytes ->
  store_ok (MkPacks (<[k := append_segment p seg b]> (kinds s)) (pack_storage_bytes s + b))
    (<[k := MkExtent seg (seg_bytes (segment_of p seg)) b :: owned k]> owned) held.
Proof.
  intros Hs Hk Hp Hb Hseg Htr [Hgb Hg4] Hfit. eapply store_ext.
  - apply (store_update s owned held k _ b); [done|done|apply append_kind; [exact Hp|done|done|lia|done|done]|]. rewrite append_bytes. lia.
  - intros j _. split; [done|]. by rewrite fn_same.
Qed.

Lemma reserve_tail_spec s owned held k b create reopen : store_ok s owned held -> (k < 5)%nat -> good_size b ->
  b <= capacity -> pack_storage_bytes s <= capacity - b ->
  exists r s', reserve_tail capacity k b create reopen s = (r, s') /\
  match r with
  | Ok (seg, off) => store_ok s' (<[k := MkExtent seg off b :: owned k]> owned) held /\ pack_storage_bytes s' = pack_storage_bytes s + b
                     /\ off = seg_bytes (segment_of (kind_of s k) seg)
  | Throw e => e = runtime_error /\ failed s s' owned held /\
               (create = false \/ reopen = false \/ last_segment (kind_of s k) = u32_max)
  end.
Proof.
  intros Hs Hk Hb Hcap Hroom. pose proof Hs as (Hlen & Hkinds & _). specialize (Hkinds k Hk). pose proof (ko_last _ _ _ Hkinds) as (Ha & Hl & _).
  unfold reserve_tail. rewrite (proj2 (Z.ltb_ge capacity b) Hcap), (proj2 (Z.ltb_ge _ _) Hroom). cbn [orb].
  set (p := touch (kind_of s k) (active_segment (kind_of s k))).
  assert (kind_ok p (owned k) (held k)) as Hp by (by apply touch_kind). assert (kind_bytes (segments p) = kind_bytes (segments (kind_of s k))) as Hpb by apply touch_bytes.
  assert (forall t, segment_of p t = segment_of (kind_of s k) t) as Hps by (intros; apply touch_seg).
  set (full := _ || _). destruct full eqn:Hfull; cbn [andb].
  - destruct (Z.eqb_spec (last_segment p) u32_max) as [Hmax|Hmax].
    { eexists _, _. split; [done|]. split_and!; [done|by apply same_kind_failed|by right; right]. }
    destruct (next_kind p _ _ Hp Hmax) as [Hq Hempty]. fold (next_segment p). cbn zeta. set (q := next_segment p) in *.
    destruct create; cbn [negb].
    2: { eexists _, _. split; [done|]. split_and!; [done|by apply same_kind_failed|by left]. }
    change (last_segment q) with (last_segment p + 1). set (seg := last_segment p + 1). set (q' := touch q seg).
    assert (kind_ok q' (owned k) (held k)) as Hq' by (apply touch_kind; [done|]; cbn; unfold seg; change (last_segment p) with (last_segment (kind_of s k)); lia).
    assert (kind_bytes (segments q') = kind_bytes (segments (kind_of s k))) as Hqb by (unfold q'; rewrite touch_bytes; exact Hpb).
    assert (segment_of q' seg = empty_segment) as Hseg by (unfold q'; rewrite touch_seg; exact Hempty).
    rewrite Hseg. cbn [seg_bytes empty_segment]. rewrite Z.eqb_refl. cbn [andb].
    destruct reopen; cbn [negb].
    2: { eexists _, _. split; [done|]. split_and!; [done|by apply same_kind_failed|by right; left]. }
    eexists _, _. split; [done|]. cbn beta iota. split_and!; [|done|].
    + pose proof (append_update s owned held k q' seg b Hs Hk Hq' Hqb) as H. rewrite Hseg in H. cbn [seg_bytes empty_segment] in H.
      unfold append_segment in H. rewrite Hseg in H. cbn [seg_bytes occupied_bytes trimming empty_segment] in H.
      apply H; [cbn; unfold seg; change (last_segment p) with (last_segment (kind_of s k)); lia|done|done|destruct Hb; lia].
    + rewrite <- Hps. unfold seg. by rewrite Hempty.
  - apply orb_false_iff in Hfull as [Htr Hfit%Z.ltb_ge]. cbn zeta. set (seg := active_segment (kind_of s k)) in *. set (q' := touch p seg).
    assert (kind_ok q' (owned k) (held k)) as Hq' by (apply touch_kind; done).
    assert (kind_bytes (segments q') = kind_bytes (segments (kind_of s k))) as Hqb by (unfold q'; by rewrite touch_bytes).
    assert (forall t, segment_of q' t = segment_of (kind_of s k) t) as Hqs by (intros; unfold q'; rewrite touch_seg; apply Hps).
    destruct ((seg_bytes (segment_of q' seg) =? 0) && negb reopen) eqn:Hopen.
    { eexists _, _. split; [done|]. split_and!; [done|by apply same_kind_failed|]. apply andb_true_iff in Hopen as [_ ?]. right. left. by destruct reopen. }
    eexists _, _. split; [done|]. cbn beta iota. rewrite (ko_tail _ _ _ Hkinds) in *. fold seg. split_and!; [|done|done].
    rewrite <- Hqs. apply append_update; [done|done|done|done|exact Ha|rewrite Hqs, <- Hps; done|done|].
    rewrite Hqs. fold seg in Hfit. lia.
Qed.

Definition holes (s : PackStore) (k : nat) : list Extent := offsets (free_extents (kind_of s k)).

Lemma carve_update s owned held k fit b st : store_ok s owned held -> (k < 5)%nat -> fit ∈ holes s k -> 0 < b <= x_len fit -> b mod 4096 = 0 ->
  segments (kind_of s k) !! x_seg fit = Some st ->
  store_ok (set_kind s k (occupy (with_free (kind_of s k) (carve fit b (free_extents (kind_of s k)))) (x_seg fit) b st))
    (<[k := MkExtent (x_seg fit) (x_off fit) b :: owned k]> owned) held.
Proof.
  intros Hs Hk Hfit Hb Hb4 Hst. pose proof Hs as (_ & Hkinds & _). specialize (Hkinds k Hk).
  destruct (carve_kind _ _ _ fit b Hkinds Hfit Hb Hb4) as (st' & Hst' & Hok). rewrite Hst in Hst'. injection Hst' as <-.
  eapply store_ext; [apply store_same; [exact Hs|done|exact Hok|by apply occupy_bytes]|].
  intros j _. split; [done|]. by rewrite fn_same.
Qed.

Lemma hole_segment s owned held k fit : store_ok s owned held -> (k < 5)%nat -> fit ∈ holes s k -> exists st, segments (kind_of s k) !! x_seg fit = Some st.
Proof.
  intros (_ & Hkinds & _) Hk Hfit. specialize (Hkinds k Hk). eapply kind_segment; [exact Hkinds|by rewrite !elem_of_app; auto|].
  by eapply index_len, Hfit; apply Hkinds.
Qed.

(** What a reservation does: the best hole, else an append, else an error for a stated
    reason. *)
Lemma reserve_extent_spec s owned held k b create reopen : store_ok s owned held -> (k < 5)%nat -> good_size b ->
  (exists fit s', fit ∈ holes s k /\ b <= x_len fit /\ (forall g, g ∈ holes s k -> b <= x_len g -> x_len fit <= x_len g) /\
     reserve_pack_extent capacity k b create reopen s = (Ok (x_seg fit, x_off fit), s') /\
     store_ok s' (<[k := MkExtent (x_seg fit) (x_off fit) b :: owned k]> owned) held /\ pack_storage_bytes s' = pack_storage_bytes s) \/
  ((forall g, g ∈ holes s k -> x_len g < b) /\
   reserve_pack_extent capacity k b create reopen s = reserve_tail capacity k b create reopen s).
Proof.
  intros Hs Hk Hb. pose proof Hs as (_ & Hkinds & _). specialize (Hkinds k Hk). destruct (ko_index _ _ _ Hkinds) as (_ & _ & Hperm & Hsort).
  unfold reserve_pack_extent. destruct Hb as [[Hb1 Hb2] Hb4]. change kDiskPageIoAlignment with 4096.
  rewrite (proj2 (Z.eqb_neq b 0)), (proj2 (Z.ltb_ge _ b)), Hb4 by lia. cbn [orb negb Z.eqb].
  destruct (sizes_lower_bound b (sizes (free_extents (kind_of s k)))) as [fit|] eqn:Hfit.
  - left. apply sizes_lower_bound_Some in Hfit as (Hin & Hle & Hmin); [|done]. rewrite Hperm in Hin.
    destruct (hole_segment s owned held k fit Hs Hk Hin) as [st Hst]. cbn [with_free segments]. rewrite Hst.
    exists fit. eexists. split_and!; [done|done| |done|by apply carve_update|done].
    intros g Hg. apply Hmin. by rewrite Hperm.
  - right. split; [|done]. intros g Hg. eapply sizes_lower_bound_None; [exact Hfit|]. by rewrite Hperm.
Qed.

Lemma relocate_spec s owned held k src : store_ok s owned held -> (k < 5)%nat -> src ∈ owned k ->
  exists r s', reserve_relocation k src s = (Ok r, s') /\ pack_storage_bytes s' = pack_storage_bytes s /\
  match r with
  | Some (seg, off) => key_lt seg off (x_seg src) (x_off src) /\ store_ok s' (<[k := MkExtent seg off (x_len src) :: owned k]> owned) held
  | None => s' = s
  end.
Proof.
  intros Hs Hk Hsrc. pose proof Hs as (_ & Hkinds & _). specialize (Hkinds k Hk). pose proof (ko_len _ _ _ Hkinds) as Hl. pose proof (ko_aligned _ _ _ Hkinds) as Ha.
  rewrite Forall_app in Hl. destruct Hl as [Hl _]. rewrite Forall_app in Ha. destruct Ha as [Ha _]. rewrite Forall_forall in Hl, Ha.
  specialize (Hl src Hsrc). destruct (Ha src Hsrc) as [_ Ha2].
  unfold reserve_relocation. destruct (relocation_hole _ _ _ _) as [fit|] eqn:Hfit; [|by eexists None, s].
  apply relocation_hole_Some in Hfit as (Hin & Hle & Hlt). destruct (hole_segment s owned held k fit Hs Hk Hin) as [st Hst].
  cbn [with_free segments]. rewrite Hst. eexists (Some _), _. split_and!; [done|done|split; [done|by apply carve_update]].
Qed.

Lemma release_extent_spec s owned held k e : store_ok s owned held -> (k < 5)%nat -> e ∈ owned k ->
  exists s', release_pack_extent k e s = (Ok tt, s') /\ store_ok s' (<[k := remove_node e (owned k)]> owned) held /\
  pack_storage_bytes s' = pack_storage_bytes s.
Proof.
  intros Hs Hk He. pose proof Hs as (_ & Hkinds & _). specialize (Hkinds k Hk).
  destruct (release_kind _ _ _ e Hkinds He) as (st & f & Hst & Hne & Hle & Hins & Hok).
  unfold release_pack_extent. rewrite (proj2 (Z.eqb_neq _ _) Hne), Hst, (proj2 (Z.ltb_ge _ _) Hle), Hins.
  eexists. split_and!; [done| |done].
  eapply store_ext; [apply store_same; [exact Hs|done|exact Hok|by apply occupy_bytes]|]. intros j _. split; [done|]. by rewrite fn_same.
Qed.

Lemma trim_begin_spec s owned held k empty_only seg : store_ok s owned held -> (k < 5)%nat ->
  match trim_begin k empty_only seg s with
  | (None, s') => s' = s
  | (Some e, s') => x_seg e = seg /\ store_ok s' owned (<[k := e :: held k]> held) /\ pack_storage_bytes s' = pack_storage_bytes s
  end.
Proof.
  intros Hs Hk. pose proof Hs as (_ & Hkinds & _). specialize (Hkinds k Hk). unfold trim_begin.
  destruct (segments (kind_of s k) !! seg) as [st|] eqn:Hst; [|done]. destruct (_ || _) eqn:Hg; [done|].
  destruct (tail_hole _ _ _) as [e|] eqn:He; [|done]. apply orb_false_iff in Hg as [[_ Htr]%orb_false_iff _].
  destruct (trim_begin_kind _ _ _ seg st e Hkinds Hst Htr He) as [Hse Hok]. split_and!; [done| |done].
  eapply store_ext; [apply store_same; [exact Hs|done|exact Hok|]|].
  - apply trimming_bytes. unfold segment_of. by rewrite Hst.
  - intros j _. split; [by rewrite fn_same|done].
Qed.

Lemma trim_end_spec s owned held k e truncated : store_ok s owned held -> (k < 5)%nat -> e ∈ held k ->
  exists r s', trim_end k e truncated s = (r, s') /\ (r = Ok tt <-> truncated = true) /\
  store_ok s' owned (<[k := remove_node e (held k)]> held) /\
  pack_storage_bytes s' = pack_storage_bytes s - (if truncated then x_len e else 0).
Proof.
  intros Hs Hk He. pose proof Hs as (_ & Hkinds & _). specialize (Hkinds k Hk). unfold trim_end.
  destruct (ko_held _ _ _ Hkinds e He) as [Hend _]. destruct truncated; cbn [negb]; eexists _, _; (split; [done|]); split_and!; try done.
  - eapply store_ext; [apply (store_update s owned held k (cut_segment (kind_of s k) e) (- x_len e)); [done|done|by apply trim_cut_kind|]|].
    + rewrite cut_bytes by done. lia.
    + intros j _. split; [by rewrite fn_same|done].
  - eapply store_ext; [apply store_same; [exact Hs|done|by apply trim_undo_kind|by apply trimming_bytes]|].
    intros j _. split; [by rewrite fn_same|done].
  - cbn. lia.
Qed.
End ops.
