(* ===== verification/PackRebuild.v ===== *)
(** * Start-up: the free space is what the map does not own *)

From stdpp Require Import prelude functions list list_numbers sorting gmap.
From Stdlib Require Import ZArith Lia.
From S2P Require Import Prelude.
From S2P Require Import DiskFormat.
From S2P Require Import DiskMap.
From S2P Require Import DiskMapTheorems.
From S2P Require Import DiskExtents.
From S2P Require Import ExtentIndex.
From S2P Require Import ExtentTheorems.
From S2P Require Import PackWorld.
#[local] Open Scope Z_scope.

Lemma separate_hits l s x : pairwise separate l -> hits l s x <= 1.
Proof.
  induction l as [|e l IH]; intros Hl; [by rewrite hits_nil|]. apply pairwise_cons in Hl as [He Hl]; [|intros ??; apply separate_sym].
  specialize (IH Hl). rewrite hits_cons. destruct (inside s x e) eqn:Ie; [|cbn; lia]. cbn.
  assert (hits l s x = 0) as ->; [|lia]. pose proof (hits_nonneg l s x). destruct (decide (hits l s x = 0)) as [|Hne]; [done|].
  destruct (hits_pos l s x) as (f & Hf & If); [lia|]. rewrite Forall_forall in He. specialize (He f Hf).
  rewrite inside_true in Ie, If. unfold separate in He. lia.
Qed.

(** ** The occupied extents in order *)
Definition precede (a b : Extent) : Prop := x_seg a < x_seg b \/ (x_seg a = x_seg b /\ x_end a <= x_off b).

Lemma offsets_insert_sorted l e : StronglySorted precede l -> Forall (fun e => 0 < x_len e) l -> 0 < x_len e -> (forall g, g ∈ l -> separate g e) ->
  StronglySorted precede (offsets_insert e l) /\ offsets_insert e l ≡ₚ e :: l.
Proof.
  intros Hs Hl He Hsep. rewrite Forall_forall in Hl.
  assert (has_key l e = false) as Hk.
  { apply not_true_iff_false. unfold has_key. rewrite existsb_exists. intros (g & Hin & E). apply list_elem_of_In in Hin.
    specialize (Hl g Hin). specialize (Hsep g Hin). guards. unfold separate, x_end in Hsep. lia. }
  unfold offsets_insert. rewrite Hk. unfold offsets_before, offsets_from.
  assert (l = filter (fun g => key_lt (x_seg g) (x_off g) (x_seg e) (x_off e)) l ++ filter (fun g => ~ key_lt (x_seg g) (x_off g) (x_seg e) (x_off e)) l) as Hsplit.
  { assert (StronglySorted (fun a b => precede a b /\ 0 < x_len a) l) as Hs'.
    { clear -Hs Hl. induction Hs as [|c l _ IH Hc]; [constructor|]. apply StronglySorted_cons. split; [|apply IH; intros g Hg; apply Hl; by right].
      eapply Forall_impl; [exact Hc|]. intros g Hg. split; [done|apply Hl; left]. }
    eapply sorted_split; [|exact Hs']. intros a b [Hab Ha]. unfold precede, key_lt, x_end in *. lia. }
  split; [|rewrite <- Permutation_middle; by rewrite <- Hsplit].
  apply sorted_insert; [by rewrite <- Hsplit| |]; apply Forall_forall; intros g [Hlt Hin]%list_elem_of_filter; specialize (Hl g Hin); specialize (Hsep g Hin);
    unfold precede, separate, key_lt, x_end in *; lia.
Qed.

(** ** The holes of one segment *)
Definition span (s seg lo hi x : Z) : Z := Z.b2z ((s =? seg) && (lo <=? x) && (x <? hi)).

Lemma rebuild_gaps_spec seg occ : Forall (fun e => x_seg e = seg /\ 0 < x_len e /\ page_aligned e) occ -> StronglySorted precede occ ->
  forall f offset, index_ok f -> Forall page_aligned (offsets f) -> offset mod 4096 = 0 -> Forall (fun e => offset <= x_off e) occ ->
  (forall x, offset <= x -> hits (offsets f) seg x = 0) ->
  exists fin f', rebuild_gaps seg offset occ f = (Ok fin, f') /\ index_ok f' /\ Forall page_aligned (offsets f') /\ offset <= fin /\ fin mod 4096 = 0 /\
  (forall hi, offset <= hi -> Forall (fun e => x_end e <= hi) occ -> fin <= hi) /\
  forall s x, hits (offsets f') s x + hits occ s x = hits (offsets f) s x + span s seg offset fin x.
Proof.
  induction occ as [|e occ IH]; intros Hocc Hs f offset Hf Ha Ho4 Hoff Hfree.
  { exists offset, f. split_and!; try done. intros s x. rewrite hits_nil. unfold span.
    destruct (s =? seg), (Z.leb_spec offset x), (Z.ltb_spec x offset); cbn; lia. }
  apply Forall_cons in Hocc as [(Es & Hl & [A1 A2]) Hocc]. apply Forall_cons in Hoff as [He Hoff]. apply StronglySorted_cons in Hs as [He' Hs].
  assert (exists f1, (if offset <? x_off e then insert_free_extent seg offset (x_off e - offset) else mret tt) f = (Ok tt, f1) /\ index_ok f1 /\
    Forall page_aligned (offsets f1) /\ forall s x, hits (offsets f1) s x = hits (offsets f) s x + span s seg offset (x_off e) x) as (f1 & E1 & Hf1 & Ha1 & Hh1).
  { destruct (Z.ltb_spec offset (x_off e)) as [Hlt|Hge].
    - destruct (insert_free_spec f seg offset (x_off e - offset) Hf) as (f1 & E1 & Hf1 & Hh1 & Hal); [lia| |].
      { intros g Hg. eapply fresh_separate; [|cbn; lia|by eapply index_len|exact Hg]. intros s x Hx%inside_true. cbn in Hx. destruct Hx as [<- Hx]. apply Hfree. lia. }
      exists f1. split_and!; [done|done| |].
      + apply Hal; [done|]. split; cbn; [done|by apply aligned_sub].
      + intros s x. rewrite Hh1. unfold inside, x_end, span. cbn [x_seg x_off x_len]. rewrite (Z.eqb_sym seg s). do 3 f_equal. f_equal. lia.
    - exists f. split_and!; [done..|]. intros s x. unfold span. destruct (s =? seg), (Z.leb_spec offset x), (Z.ltb_spec x (x_off e)); cbn; lia. }
  destruct (IH Hocc Hs f1 (x_end e)) as (fin & f' & E2 & Hf' & Ha' & Hfin & Hfin4 & Hhi & Hh'); try done.
  { unfold x_end. by apply aligned_add. }
  { apply Forall_forall. intros g Hg. rewrite Forall_forall in He', Hocc. specialize (He' g Hg). destruct (Hocc g Hg) as [Eg _]. unfold precede in He'. lia. }
  { intros x Hx. rewrite Hh1, Hfree by (unfold x_end in Hx; lia). unfold span. unfold x_end in Hx.
    destruct (Z.ltb_spec x (x_off e)); [lia|]. by rewrite andb_false_r. }
  exists fin, f'. cbn [rebuild_gaps]. rewrite (st_bind_Ok _ _ _ _ _ E1). split_and!; try done.
  - unfold x_end in Hfin. lia.
  - intros hi H1 H2. apply Forall_cons in H2 as [H2 H3]. by apply Hhi.
  - intros s x. specialize (Hh' s x). rewrite hits_cons. rewrite Hh1 in Hh'. unfold inside. rewrite Es, (Z.eqb_sym seg s).
    unfold span, x_end in *. destruct (s =? seg); cbn [andb] in *; [|cbn in *; lia].
    destruct (Z.leb_spec offset x), (Z.ltb_spec x (x_off e)), (Z.leb_spec (x_off e + x_len e) x), (Z.ltb_spec x fin), (Z.leb_spec (x_off e) x),
      (Z.ltb_spec x (x_off e + x_len e)); cbn in *; lia.
Qed.

(** ** The objects *)

(** The extents of the entries that lie inside their files. *)
Definition kept (m : gmap Z PackSegment) (entries : list PackedMapEntry) : list Extent :=
  entry_extent <$> filter (fun e => in_segment m e = true) entries.

Lemma kept_cons m e entries : kept m (e :: entries) = if in_segment m e then entry_extent e :: kept m entries else kept m entries.
Proof. unfold kept. rewrite filter_cons. destruct (in_segment m e); [by rewrite decide_True|by rewrite decide_False]. Qed.

Lemma rebuild_objects_spec m0 entries : pairwise separate (kept m0 entries) -> Forall (fun e => 0 < x_len e) (kept m0 entries) ->
  forall m occ, (forall s, seg_bytes (seg_at m s) = seg_bytes (seg_at m0 s) /\ (is_Some (m !! s) <-> is_Some (m0 !! s))) ->
  StronglySorted precede occ -> Forall (fun e => 0 < x_len e) occ -> (forall a b, a ∈ occ -> b ∈ kept m0 entries -> separate a b) ->
  exists m' occ', foldl rebuild_object (m, occ) entries = (m', occ') /\ StronglySorted precede occ' /\ occ' ≡ₚ kept m0 entries ++ occ /\
  forall s, seg_bytes (seg_at m' s) = seg_bytes (seg_at m0 s) /\ (is_Some (m' !! s) <-> is_Some (m0 !! s)) /\
    occupied_bytes (seg_at m' s) = occupied_bytes (seg_at m s) + sum_len (kept m0 entries) s /\ trimming (seg_at m' s) = trimming (seg_at m s).
Proof.
  induction entries as [|e entries IH]; intros Hpw Hl m occ Hm Hs Hlo Hsep.
  { exists m, occ. split_and!; [done|done|done|]. intros s. destruct (Hm s). split_and!; [done|done|cbn; lia|done]. }
  assert (in_segment m e = in_segment m0 e) as Ein.
  { unfold in_segment. destruct (Hm (e_segment e)) as [Hb Hd]. unfold seg_at in Hb. unfold is_Some in Hd.
    destruct (m !! e_segment e), (m0 !! e_segment e); cbn in *; [by rewrite Hb|by destruct (proj1 Hd) as [? [=]]; eexists|by destruct (proj2 Hd) as [? [=]]; eexists|done]. }
  rewrite kept_cons in Hpw, Hl, Hsep |- *. cbn [foldl]. unfold rebuild_object at 2. rewrite Ein. destruct (in_segment m0 e) eqn:Hin.
  - destruct (m !! e_segment e) as [st|] eqn:Est; [|unfold in_segment in Ein; by rewrite Est in Ein].
    apply pairwise_cons in Hpw as [He Hpw]; [|intros ??; apply separate_sym]. apply Forall_cons in Hl as [Hle Hl].
    destruct (offsets_insert_sorted occ (entry_extent e) Hs Hlo Hle) as [Hs' Hperm']; [intros g Hg; apply Hsep; [done|left]|].
    assert (forall s, seg_at (<[e_segment e := MkSegment (seg_bytes st) (occupied_bytes st + e_extent_bytes e) (trimming st)]> m) s =
      if decide (e_segment e = s) then MkSegment (seg_bytes st) (occupied_bytes st + e_extent_bytes e) (trimming st) else seg_at m s) as Hseg
      by (intros s; apply seg_at_insert).
    assert (seg_at m (e_segment e) = st) as Est' by (unfold seg_at; by rewrite Est).
    destruct (IH Hpw Hl (<[e_segment e := MkSegment (seg_bytes st) (occupied_bytes st + e_extent_bytes e) (trimming st)]> m) (offsets_insert (entry_extent e) occ))
      as (m' & occ' & E & Hs'' & Hperm & Hfin).
    + intros s. rewrite Hseg. destruct (Hm s) as [Hb Hd]. split; [case_decide as D; [subst s; by rewrite <- Hb, Est'|done]|].
      rewrite <- Hd, lookup_insert_is_Some'. split; [intros [<-|?]; [by eexists|done]|by right].
    + done.
    + rewrite Hperm'. by constructor.
    + intros a b Ha Hb. rewrite Hperm' in Ha. apply elem_of_cons in Ha as [->|Ha]; [rewrite Forall_forall in He; by apply He|]. apply Hsep; [done|by right].
    + exists m', occ'. split_and!; [done|done|rewrite Hperm, Hperm'; by rewrite <- Permutation_middle|]. intros s. destruct (Hfin s) as (F1 & F2 & F3 & F4).
      split_and!; [done|done| |]; [rewrite F3, sum_len_cons|rewrite F4]; rewrite Hseg; cbn [x_seg x_len entry_extent]; case_decide as D;
        [subst s; rewrite Z.eqb_refl, Est'; cbn; lia|rewrite (proj2 (Z.eqb_neq _ _) D); lia|subst s; by rewrite Est'|done].
  - destruct (m !! e_segment e); by apply IH.
Qed.

(** ** The segments *)
Section segments.
Variable occ : list Extent.
Hypothesis Hsort : StronglySorted precede occ.
Hypothesis Hocc : Forall (fun e => 0 < x_len e /\ page_aligned e /\ 0 <= x_off e /\ x_end e <= kPackSegmentBytes) occ.

Definition in_seg (s : Z) : list Extent := filter (fun e => x_seg e = s) occ.

Lemma hits_in_seg s x : hits (in_seg s) s x = hits occ s x.
Proof.
  unfold in_seg. clear Hsort Hocc. induction occ as [|e l IH]; [done|]. rewrite filter_cons, hits_cons. destruct (decide (x_seg e = s)) as [E|E].
  - rewrite hits_cons. lia.
  - unfold inside. rewrite (proj2 (Z.eqb_neq _ _) E). exact IH.
Qed.

Lemma hits_in_other s t x : s <> t -> hits (in_seg s) t x = 0.
Proof.
  intros Hne. unfold in_seg. clear Hsort Hocc. induction occ as [|e l IH]; [done|]. rewrite filter_cons. destruct (decide (x_seg e = s)) as [E|E]; [|done].
  rewrite hits_cons, IH. unfold inside. rewrite E, (proj2 (Z.eqb_neq _ _) Hne). done.
Qed.

(** The segments of [todo] still have their file sizes and no holes. *)
Record partly (p : KindPack) (todo : list Z) : Prop := MkPartly {
  pa_index : index_ok (free_extents p);
  pa_aligned : Forall page_aligned (offsets (free_extents p));
  pa_todo : forall s, s ∈ todo -> (forall x, hits (offsets (free_extents p)) s x = 0) /\ 0 <= seg_bytes (segment_of p s) /\
            Forall (fun e => x_end e <= seg_bytes (segment_of p s)) (in_seg s);
  pa_done : forall s, s ∉ todo -> (0 <= seg_bytes (segment_of p s) <= kPackSegmentBytes /\ seg_bytes (segment_of p s) mod 4096 = 0) /\
            forall x, hits occ s x + hits (offsets (free_extents p)) s x = Z.b2z ((0 <=? x) && (x <? seg_bytes (segment_of p s)));
  pa_tail : active_segment p ∉ todo -> active_tail p = seg_bytes (segment_of p (active_segment p));
}.

Definition same_rest (p q : KindPack) : Prop :=
  active_segment q = active_segment p /\ last_segment q = last_segment p /\
  forall s, occupied_bytes (segment_of q s) = occupied_bytes (segment_of p s) /\ trimming (segment_of q s) = trimming (segment_of p s) /\
            (is_Some (segments q !! s) <-> is_Some (segments p !! s)).

Lemma rebuild_segment p s todo st fin f : partly p (s :: todo) -> s ∉ todo -> segments p !! s = Some st ->
  rebuild_gaps s 0 (in_seg s) (free_extents p) = (Ok fin, f) -> exists st', fin = seg_bytes st' /\
  st' = (if fin <? seg_bytes st then MkSegment fin (occupied_bytes st) (trimming st) else st) /\
  let q := MkKind f (<[s := st']> (segments p)) (active_segment p) (if s =? active_segment p then seg_bytes st' else active_tail p) (last_segment p) in
  partly q todo /\ same_rest p q.
Proof.
  intros [Hidx Hal Htodo Hdone Htail] Hnew Hst E. assert (segment_of p s = st) as Es by (unfold segment_of; by rewrite Hst).
  destruct (Htodo s) as (Hfree & Hpos & Hend); [left|]. rewrite Es in Hpos, Hend.
  destruct (rebuild_gaps_spec s (in_seg s)) with (f := free_extents p) (offset := 0) as (fin' & f' & E' & Hidx' & Hal' & Hfin & Hfin4 & Hhi & Hhits); try done.
  { apply Forall_forall. intros e [He Hin]%list_elem_of_filter. rewrite Forall_forall in Hocc. destruct (Hocc e Hin) as (? & ? & _). done. }
  { eapply sorted_sublist; [apply sublist_filter|done]. }
  { apply Forall_forall. intros e [He Hin]%list_elem_of_filter. rewrite Forall_forall in Hocc. apply (Hocc e Hin). }
  rewrite E in E'. injection E' as <- <-. pose proof (Hhi _ Hpos Hend) as Hle.
  assert (fin <= kPackSegmentBytes) as Hcap.
  { apply Hhi; [by vm_compute|]. apply Forall_forall. intros e [He Hin]%list_elem_of_filter. rewrite Forall_forall in Hocc. apply (Hocc e Hin). }
  set (st' := if fin <? seg_bytes st then _ else _). assert (seg_bytes st' = fin /\ occupied_bytes st' = occupied_bytes st /\ trimming st' = trimming st) as (B1 & B2 & B3).
  { unfold st'. destruct (Z.ltb_spec fin (seg_bytes st)); cbn; [done|]. split; [lia|done]. }
  exists st'. split; [done|]. split; [done|]. set (q := MkKind _ _ _ _ _). cbn zeta.
  assert (forall t, segment_of q t = if decide (s = t) then st' else segment_of p t) as Hseg by (intros t; apply seg_at_insert).
  split; [constructor; cbn [q free_extents active_segment active_tail]; try done|].
  - intros t Ht. assert (s <> t) as Hne by (by intros ->). destruct (Htodo t) as (F1 & F2 & F3); [by right|]. rewrite Hseg, decide_False by done.
    split; [|done]. intros x. specialize (Hhits t x). rewrite F1, hits_in_other in Hhits by done. unfold span in Hhits.
    rewrite (proj2 (Z.eqb_neq t s)) in Hhits by done. cbn in Hhits. lia.
  - intros t Ht. rewrite Hseg. case_decide as D.
    + subst t. rewrite B1. split; [done|]. intros x. specialize (Hhits s x). rewrite Hfree, hits_in_seg in Hhits. unfold span in Hhits. rewrite Z.eqb_refl in Hhits. cbn [andb] in Hhits. lia.
    + destruct (Hdone t) as [G1 G2]; [by intros [->|?]%elem_of_cons|]. split; [done|]. intros x. specialize (Hhits t x). rewrite hits_in_other in Hhits by done.
      unfold span in Hhits. rewrite (proj2 (Z.eqb_neq t s)) in Hhits by done. cbn in Hhits. rewrite <- G2. lia.
  - intros Ha. rewrite Hseg. destruct (Z.eqb_spec s (active_segment p)) as [D|D]; [by rewrite decide_True|rewrite decide_False by done].
    apply Htail. by intros [<-|?]%elem_of_cons.
  - split_and!; [done|done|]. intros t. rewrite Hseg. split_and!; [case_decide as D; [subst t; by rewrite B2, Es|done]|case_decide as D; [subst t; by rewrite B3, Es|done]|].
    cbn [q segments]. rewrite lookup_insert_is_Some'. split; [intros [<-|?]; [by eexists|done]|by right].
Qed.

Lemma rebuild_segments_spec truncate segs : forall p storage, partly p segs.*1 -> NoDup segs.*1 -> Forall (fun sv => segments p !! fst sv = Some (snd sv)) segs ->
  match rebuild_segments truncate occ segs p storage with
  | Throw e => e = runtime_error /\ exists s, truncate s = false
  | Ok (q, storage') => partly q [] /\ same_rest p q /\
      storage' - kind_bytes (segments q) = storage - kind_bytes (segments p) + foldr (fun kv n => seg_bytes (snd kv) + n) 0 segs
  end.
Proof.
  induction segs as [|[s st] segs IH]; intros p storage Hp Hn Hsegs.
  { cbn [rebuild_segments foldr]. split; [done|]. split; [|lia]. split_and!; [done|done|]. done. }
  rewrite fmap_cons in Hp, Hn. cbn [fst] in Hp, Hn. apply NoDup_cons in Hn as [Hnew Hn]. apply Forall_cons in Hsegs as [Hst Hsegs]. cbn [fst snd] in Hst.
  cbn [rebuild_segments]. fold (in_seg s). destruct (rebuild_gaps s 0 (in_seg s) (free_extents p)) as [r f] eqn:E.
  assert (exists fin, r = Ok fin) as [fin ->].
  { destruct (pa_todo _ _ Hp s) as (Hfree & _ & _); [left|].
    destruct (rebuild_gaps_spec s (in_seg s)) with (f := free_extents p) (offset := 0) as (fin' & f' & E' & _); try apply Hp; try done.
    - apply Forall_forall. intros e [He Hin]%list_elem_of_filter. rewrite Forall_forall in Hocc. destruct (Hocc e Hin) as (? & ? & _). done.
    - eapply sorted_sublist; [apply sublist_filter|done].
    - apply Forall_forall. intros e [He Hin]%list_elem_of_filter. rewrite Forall_forall in Hocc. apply (Hocc e Hin).
    - rewrite E in E'. injection E' as -> _. by eexists. }
  destruct (rebuild_segment p s segs.*1 st fin f Hp Hnew Hst E) as (st' & Hfin & Est' & Hq & Hsame). cbn [mbind res_bind].
  destruct ((fin <? seg_bytes st) && negb (truncate s)) eqn:Htr; cbn [throw_if mbind res_bind].
  { apply andb_true_iff in Htr as [_ Htr]. split; [done|]. exists s. by destruct (truncate s). }
  rewrite <- Est'. set (q := MkKind _ _ _ _ _) in *.
  assert (Forall (fun sv => segments q !! fst sv = Some (snd sv)) segs) as Hsegs'.
  { rewrite Forall_forall in Hsegs |- *. intros [t v] Ht. cbn [fst snd q segments]. rewrite lookup_insert_ne; [by apply (Hsegs (t, v))|].
    intros ->. apply Hnew. by apply (list_elem_of_fmap_2 fst _ (t, v)). }
  specialize (IH q (storage + seg_bytes st') Hq Hn Hsegs'). destruct (rebuild_segments _ _ _ _ _) as [[q' storage']|]; [|done].
  destruct IH as (I1 & I2 & I3). split; [done|]. split.
  - destruct Hsame as (S1 & S2 & S3), I2 as (T1 & T2 & T3). split_and!; [congruence|congruence|]. intros t. destruct (S3 t) as (? & ? & ?), (T3 t) as (? & ? & ?).
    split_and!; [congruence|congruence|tauto].
  - rewrite I3. cbn [foldr snd q segments]. rewrite kind_bytes_insert. unfold seg_at. rewrite Hst. cbn. lia.
Qed.
End segments.

(** ** A kind *)
Lemma pairwise_sublist {A} (R : A -> A -> Prop) l k : Symmetric R -> l `sublist_of` k -> pairwise R k -> pairwise R l.
Proof.
  intros Hs Hsub. induction Hsub as [|x l k Hsub IH|x l k Hsub IH]; intros Hk; [done| |].
  - apply pairwise_cons in Hk as [Hx Hk]; [|done]. apply pairwise_cons; [done|]. split; [by eapply Forall_sublist|by apply IH].
  - apply pairwise_cons in Hk as [_ Hk]; [|done]. by apply IH.
Qed.

Lemma kept_sublist m entries : kept m entries `sublist_of` (entry_extent <$> entries).
Proof. unfold kept. apply fmap_sublist, sublist_filter. Qed.

Lemma foldr_max_bound l x : x ∈ l -> x <= foldr Z.max 0 l.
Proof. induction l as [|y l IH]; intros H; [by apply elem_of_nil in H|]. cbn. apply elem_of_cons in H as [->|H]; [lia|]. specialize (IH H). lia. Qed.

Lemma foldr_max_range l hi : 0 <= hi -> Forall (fun x => x <= hi) l -> 0 <= foldr Z.max 0 l <= hi.
Proof. intros Hhi. induction 1 as [|y l Hy _ IH]; cbn; lia. Qed.

Definition good_extent (e : Extent) : Prop := 0 < x_len e /\ page_aligned e /\ 0 <= x_off e /\ x_end e <= kPackSegmentBytes.

Definition file_segments (files : gmap Z Z) : gmap Z PackSegment := (fun bytes => MkSegment bytes 0 false) <$> files.

Lemma kept_inside files entries e : (forall s size, files !! s = Some size -> 0 <= s <= u32_max /\ 0 <= size) ->
  e ∈ kept (file_segments files) entries -> is_Some (file_segments files !! x_seg e) /\ x_end e <= seg_bytes (seg_at (file_segments files) (x_seg e)).
Proof.
  intros Hf (pe & -> & [Hin _]%list_elem_of_filter)%list_elem_of_fmap. unfold in_segment, seg_at, x_end in *. cbn [entry_extent x_seg x_off x_len].
  destruct (file_segments files !! e_segment pe) as [st|]; [|done]. guards. split; [by eexists|]. cbn. lia.
Qed.

(** What [rebuild_kind] reaches before the segments are walked. *)
Section rebuild.
Variables (files : gmap Z Z) (entries : list PackedMapEntry) (m : gmap Z PackSegment) (occ : list Extent).
Let m0 := file_segments files.
Let K := kept m0 entries.
Hypothesis Hfiles : forall s size, files !! s = Some size -> 0 <= s <= u32_max /\ 0 <= size.
Hypothesis Hgood : Forall good_extent K.
Hypothesis Hperm : occ ≡ₚ K.
Hypothesis Hm : forall s, seg_bytes (seg_at m s) = seg_bytes (seg_at m0 s) /\ (is_Some (m !! s) <-> is_Some (m0 !! s)) /\
  occupied_bytes (seg_at m s) = occupied_bytes (seg_at m0 s) + sum_len K s /\ trimming (seg_at m s) = trimming (seg_at m0 s).

Let last := foldr Z.max 0 (map_to_list files).*1.
Let p0 := MkKind (MkIndex [] []) m last 0 last.

Lemma files_nonneg s : 0 <= seg_bytes (seg_at m0 s).
Proof. unfold seg_at, m0, file_segments. rewrite lookup_fmap. destruct (files !! s) eqn:E; cbn; [|done]. by eapply Hfiles. Qed.

Lemma partly_start todo : (forall s, s ∈ todo <-> is_Some (m !! s)) -> partly occ p0 todo.
Proof.
  intros Hkeys. constructor; cbn [p0 free_extents offsets active_segment active_tail].
  - split_and!; constructor.
  - constructor.
  - intros s Hs. split; [done|]. change (segment_of p0 s) with (seg_at m s). destruct (Hm s) as (B1 & _). rewrite B1. split; [apply files_nonneg|].
    apply Forall_forall. intros e [<- He]%list_elem_of_filter. rewrite Hperm in He. by eapply kept_inside.
  - intros s Hs. rewrite Hkeys in Hs. change (segment_of p0 s) with (seg_at m s). destruct (Hm s) as (B1 & B2 & _).
    assert (m0 !! s = None) as E by (apply eq_None_not_Some; by rewrite <- B2). rewrite B1. unfold seg_at. rewrite E. cbn [default empty_segment seg_bytes].
    split; [done|]. intros x. rewrite hits_nil. assert (hits occ s x = 0) as ->.
    { pose proof (hits_nonneg occ s x). destruct (decide (hits occ s x = 0)) as [|Hne]; [done|]. destruct (hits_pos occ s x) as (e & He & Ie); [lia|].
      apply inside_true in Ie as [<- _]. rewrite Hperm in He. apply kept_inside in He as [[v Hv] _]; [|done]. unfold m0 in E. congruence. }
    destruct (Z.leb_spec 0 x), (Z.ltb_spec x 0); cbn; lia.
  - intros Hs. rewrite Hkeys in Hs. change (segment_of p0 last) with (seg_at m last). unfold seg_at. by destruct (m !! last); [destruct Hs|].
Qed.

Lemma last_range : 0 <= last <= u32_max /\ forall s, is_Some (m !! s) -> 0 <= s <= last.
Proof.
  split.
  - apply foldr_max_range; [by vm_compute|]. apply Forall_forall. intros s ([t size] & -> & Ht%elem_of_map_to_list)%list_elem_of_fmap. cbn. by eapply Hfiles.
  - intros s Hs. destruct (Hm s) as (_ & B2 & _). rewrite B2 in Hs. destruct Hs as [v Hv]. unfold m0, file_segments in Hv. rewrite lookup_fmap in Hv.
    apply fmap_Some in Hv as (size & Hsz & _). split; [destruct (Hfiles s size Hsz); lia|]. apply foldr_max_bound, list_elem_of_fmap. exists (s, size).
    split; [done|]. by apply elem_of_map_to_list.
Qed.

Lemma partly_finish q : partly occ q [] -> same_rest p0 q -> kind_ok q K [].
Proof.
  intros [Qi Qa _ Qd Qt] (R1 & R2 & R3). pose proof last_range as [Hlast Hrange]. constructor; intros *.
  - done.
  - rewrite hits_nil. destruct (Qd s) as [_ Qc]; [by apply not_elem_of_nil|]. rewrite <- Qc. rewrite (hits_perm _ _ s x Hperm). lia.
  - rewrite app_nil_r. eapply Forall_impl; [exact Hgood|]. by intros e (? & _).
  - rewrite Forall_app. split; [|done]. eapply Forall_impl; [exact Hgood|]. by intros e (_ & ? & _).
  - destruct (R3 s) as (-> & _). change (segment_of p0 s) with (seg_at m s). destruct (Hm s) as (_ & _ & -> & _).
    assert (occupied_bytes (seg_at m0 s) = 0) as ->; [|lia]. unfold seg_at, m0, file_segments. rewrite lookup_fmap. by destruct (files !! s).
  - by intros He%elem_of_nil.
  - constructor.
  - apply Qt, not_elem_of_nil.
  - rewrite R1, R2. cbn [p0 active_segment last_segment]. split; [lia|]. split; [lia|]. intros s Hs. destruct (R3 s) as (_ & _ & Hd). rewrite Hd in Hs.
    by apply Hrange.
  - destruct (Qd s) as [Qb _]; [by apply not_elem_of_nil|]. done.
Qed.
End rebuild.

Lemma rebuild_kind_spec truncate files entries storage :
  (forall s size, files !! s = Some size -> 0 <= s <= u32_max /\ 0 <= size) ->
  pairwise separate (entry_extent <$> entries) -> Forall good_extent (entry_extent <$> entries) ->
  match rebuild_kind truncate files entries storage with
  | Throw e => e = runtime_error /\ exists s, truncate s = false
  | Ok (q, storage') => kind_ok q (kept (file_segments files) entries) [] /\ storage' = storage + kind_bytes (segments q)
  end.
Proof.
  intros Hfiles Hpw Hgood. set (m0 := file_segments files). set (K := kept m0 entries).
  assert (pairwise separate K) as HpwK by (eapply pairwise_sublist; [intros ??; apply separate_sym|apply kept_sublist|done]).
  assert (Forall good_extent K) as HgK by (eapply Forall_sublist; [|apply kept_sublist]; done).
  assert (Forall (fun e => 0 < x_len e) K) as HlK by (eapply Forall_impl; [exact HgK|]; by intros e (? & _)).
  destruct (rebuild_objects_spec m0 entries HpwK HlK m0 []) as (m & occ & Efold & Hsort & Hperm & Hm); [done|constructor|done|by intros a b Ha%elem_of_nil|].
  rewrite app_nil_r in Hperm. unfold rebuild_kind. fold (file_segments files). fold m0. rewrite Efold.
  set (segs := merge_sort segment_before (map_to_list m)). assert (segs ≡ₚ map_to_list m) as Hsegs by apply merge_sort_Permutation.
  set (p0 := MkKind _ _ _ _ _).
  assert (partly occ p0 segs.*1) as Hpart.
  { apply (partly_start files entries m occ Hfiles Hperm Hm). intros s. rewrite Hsegs, list_elem_of_fmap. split.
    - intros ([t v] & -> & Hv%elem_of_map_to_list). by eexists.
    - intros [v Hv]. exists (s, v). split; [done|]. by apply elem_of_map_to_list. }
  assert (NoDup segs.*1) as Hnd by (rewrite Hsegs; apply NoDup_fst_map_to_list).
  assert (Forall (fun sv => segments p0 !! fst sv = Some (snd sv)) segs) as Hin by (apply Forall_forall; intros [s v]; rewrite Hsegs; apply elem_of_map_to_list).
  assert (Forall good_extent occ) as Hocc by (by rewrite Hperm).
  pose proof (rebuild_segments_spec occ Hsort Hocc truncate segs p0 storage Hpart Hnd Hin) as Hrs.
  destruct (rebuild_segments _ _ _ _ _) as [[q storage']|]; [|done]. destruct Hrs as (Hfin & Hsame & Hst).
  split; [by apply (partly_finish files entries m occ Hfiles HgK Hperm Hm)|]. rewrite (kind_bytes_perm _ _ Hsegs) in Hst. cbn [p0 segments] in Hst. unfold kind_bytes at 2 in Hst. lia.
Qed.

(** ** All kinds *)
Definition kind_entries (entries : list PackedMapEntry) (k : nat) : list PackedMapEntry := filter (fun e => e_kind e = Z.of_nat k) entries.

(** The extents of kind [k] that the map owns and the files hold. *)
Definition map_extents (files : list (gmap Z Z)) (entries : list PackedMapEntry) (k : nat) : list Extent :=
  kept (file_segments (nth k files ∅)) (kind_entries entries k).

Lemma rebuild_kinds_spec truncate entries files : 
  Forall (fun f : gmap Z Z => forall s size, f !! s = Some size -> 0 <= s <= u32_max /\ 0 <= size) files ->
  (forall k, pairwise separate (entry_extent <$> kind_entries entries k) /\ Forall good_extent (entry_extent <$> kind_entries entries k)) ->
  forall s, pack_storage_bytes s = total_bytes (kinds s) ->
  match rebuild_kinds truncate files (length (kinds s)) entries s with
  | Throw e => e = runtime_error /\ exists k seg, truncate k seg = false
  | Ok s' => exists ps, kinds s' = kinds s ++ ps /\ length ps = length files /\ pack_storage_bytes s' = total_bytes (kinds s') /\
      forall j, (j < length files)%nat ->
        kind_ok (nth j ps no_kind) (kept (file_segments (nth j files ∅)) (kind_entries entries (length (kinds s) + j))) []
  end.
Proof.
  intros Hf Hk. induction Hf as [|f files Hf _ IH]; intros s Hst.
  { cbn [rebuild_kinds]. exists []. rewrite app_nil_r. split_and!; [done|done|done|]. intros j Hj. cbn in Hj. lia. }
  cbn [rebuild_kinds]. fold (kind_entries entries (length (kinds s))). destruct (Hk (length (kinds s))) as [Hpw Hg].
  pose proof (rebuild_kind_spec (truncate (length (kinds s))) f _ (pack_storage_bytes s) Hf Hpw Hg) as Hr.
  destruct (rebuild_kind _ _ _ _) as [[p storage]|e]; [|destruct Hr as [-> [seg Hseg]]; split; [done|by eexists _, _]].
  destruct Hr as [Hp Hstorage]. cbn [mbind res_bind]. specialize (IH (MkPacks (kinds s ++ [p]) storage)). cbn [kinds pack_storage_bytes] in IH.
  rewrite length_app in IH. cbn [length] in IH. rewrite Nat.add_comm in IH. cbn [Nat.add] in IH.
  assert (forall l, total_bytes (l ++ [p]) = total_bytes l + kind_bytes (segments p)) as Ht.
  { intros l. unfold total_bytes. rewrite foldr_app. cbn [foldr]. induction l as [|q l IHl]; cbn [foldr]; [lia|]. rewrite IHl. lia. }
  rewrite Ht, <- Hst in IH. specialize (IH Hstorage). destruct (rebuild_kinds _ _ _ _ _) as [s'|]; [|done].
  destruct IH as (ps & E & Hl & Hb & Hj). exists (p :: ps). split_and!; [by rewrite E, <- app_assoc|cbn; by rewrite Hl|done|].
  intros [|j] Hlt; cbn [nth length] in *; [by rewrite Nat.add_0_r|]. replace (length (kinds s) + S j)%nat with (S (length (kinds s)) + j)%nat by lia. apply Hj. lia.
Qed.
