(* ===== verification/DiskPacks.v ===== *)
(** * The disk tier's space: what is owned, what is free, and what may be journaled *)

From stdpp Require Import prelude functions list list_numbers sorting gmap.
From Stdlib Require Import ZArith Lia.
From S2P Require Import Prelude.
From S2P Require Import Bytes.
From S2P Require Import DiskFormat.
From S2P Require Import DiskMap.
From S2P Require Import DiskMapTheorems.
From S2P Require Import DiskRecovery.
From S2P Require Import DiskExtents.
From S2P Require Import ExtentIndex.
From S2P Require Import ExtentTheorems.
From S2P Require Import PackWorld.
From S2P Require Import PackRebuild.
#[local] Open Scope Z_scope.

(** ** Starting from a sound map *)
Lemma sound_good_extent i e : sound_entry i e -> good_extent (entry_extent e).
Proof.
  intros (_ & Hv & [_ _ _ Hw _]). unfold location_invalid in Hv. guards. repeat (apply Forall_cons in Hw as [? Hw]).
  unfold good_extent, page_aligned, x_end. cbn [entry_extent x_off x_len]. change kDiskPageIoAlignment with 4096 in *.
  split_and!; try done; unfold u64 in *; lia.
Qed.

Lemma map_entries_good m k : sound_map m ->
  pairwise separate (entry_extent <$> kind_entries (map_to_list m).*2 k) /\ Forall good_extent (entry_extent <$> kind_entries (map_to_list m).*2 k).
Proof.
  intros [Hm Hd]. split.
  - apply pairwise_fmap, (proj2 (pairwise_nodup _ _ (NoDup_filter _ _ (nodup_values m Hm)))). cbn beta.
    intros x y [Kx Hx]%list_elem_of_filter [Ky Hy]%list_elem_of_filter Hxy. apply (values_in m _ Hm) in Hx, Hy.
    assert (e_id x <> e_id y) as Hid by (intros E; rewrite E in Hx; congruence).
    destruct (Hd _ _ _ _ Hid Hx Hy) as [?|[?|Ha]]; [congruence|by left|]. right. exact Ha.
  - rewrite Forall_fmap. apply Forall_forall. intros x [_ Hx%values_in]%list_elem_of_filter; [|done]. cbn. eapply sound_good_extent, (Hm _ _ Hx).
Qed.

Definition files_ok (files : list (gmap Z Z)) : Prop :=
  length files = 5%nat /\ Forall (fun f : gmap Z Z => forall s size, f !! s = Some size -> 0 <= s <= u32_max /\ 0 <= size) files.

Lemma rebuild_free_spec truncate files m : files_ok files -> sound_map m ->
  match rebuild_free_extents truncate files (map_to_list m).*2 with
  | Throw e => e = runtime_error /\ exists k seg, truncate k seg = false
  | Ok s => store_ok s (map_extents files (map_to_list m).*2) (fun _ => [])
  end.
Proof.
  intros [Hlen Hf] Hm. unfold rebuild_free_extents.
  pose proof (rebuild_kinds_spec truncate (map_to_list m).*2 files Hf (fun k => map_entries_good m k Hm) (MkPacks [] 0) eq_refl) as Hr.
  cbn [kinds length] in Hr. destruct (rebuild_kinds _ _ _ _ _) as [s|e]; [|done].
  destruct Hr as (ps & E & Hps & Hb & Hk). cbn [app] in E. split_and!; [by rewrite E, Hps|intros k Hlt|done].
  unfold kind_of. rewrite E. apply Hk. lia.
Qed.

(** ** Interleavings *)
Record World : Type := MkWorld { w_store : PackStore; w_owned : nat -> list Extent; w_held : nat -> list Extent }.

#[export] Instance good_size_dec b : Decision (good_size b).
Proof. unfold good_size. apply _. Defined.

Section worlds.
Variable capacity : Z.

(** One call, or one half of a trim; a reservation may fail and a truncation may not
    succeed. *)
Inductive pack_step : World -> World -> Prop :=
  | step_reserve w k bytes create reopen r s :
      (k < 5)%nat -> u64 bytes -> reserve_pack_extent capacity k bytes create reopen (w_store w) = (r, s) ->
      pack_step w (MkWorld s (match r with Ok (seg, off) => <[k := MkExtent seg off bytes :: w_owned w k]> (w_owned w) | Throw _ => w_owned w end) (w_held w))
  | step_relocate w k source r s :
      (k < 5)%nat -> source ∈ w_owned w k -> reserve_relocation k source (w_store w) = (r, s) ->
      pack_step w (MkWorld s (match r with Ok (Some (seg, off)) => <[k := MkExtent seg off (x_len source) :: w_owned w k]> (w_owned w) | _ => w_owned w end) (w_held w))
  | step_release w k e r s :
      (k < 5)%nat -> e ∈ w_owned w k -> release_pack_extent k e (w_store w) = (r, s) ->
      pack_step w (MkWorld s (<[k := remove_node e (w_owned w k)]> (w_owned w)) (w_held w))
  | step_trim_begin w k empty_only seg e s :
      (k < 5)%nat -> trim_begin k empty_only seg (w_store w) = (Some e, s) ->
      pack_step w (MkWorld s (w_owned w) (<[k := e :: w_held w k]> (w_held w)))
  | step_trim_end w k e truncated r s :
      (k < 5)%nat -> e ∈ w_held w k -> trim_end k e truncated (w_store w) = (r, s) ->
      pack_step w (MkWorld s (w_owned w) (<[k := remove_node e (w_held w k)]> (w_held w))).

Inductive pack_reach : World -> Prop :=
  | reach_start truncate files m s :
      files_ok files -> sound_map m -> rebuild_free_extents truncate files (map_to_list m).*2 = Ok s ->
      pack_reach (MkWorld s (map_extents files (map_to_list m).*2) (fun _ => []))
  | reach_step w w' : pack_reach w -> pack_step w w' -> pack_reach w'.

Definition world_ok (w : World) : Prop := store_ok (w_store w) (w_owned w) (w_held w).

Lemma reserve_ok s owned held k b create reopen r s' : store_ok s owned held -> (k < 5)%nat -> u64 b ->
  reserve_pack_extent capacity k b create reopen s = (r, s') ->
  store_ok s' (match r with Ok (seg, off) => <[k := MkExtent seg off b :: owned k]> owned | Throw _ => owned end) held.
Proof.
  intros Hs Hk Hu E. destruct (decide (good_size b)) as [Hb|Hb].
  - destruct (reserve_extent_spec capacity s owned held k b create reopen Hs Hk Hb) as [(fit & s1 & _ & _ & _ & E1 & Hs1 & _)|[_ E1]].
    + rewrite E1 in E. by injection E as <- <-.
    + rewrite E1 in E. destruct (decide (b <= capacity /\ pack_storage_bytes s <= capacity - b)) as [[H1 H2]|Hn].
      * destruct (reserve_tail_spec capacity s owned held k b create reopen Hs Hk Hb H1 H2) as (r1 & s1 & E2 & Hr). rewrite E2 in E. injection E as <- <-.
        destruct r1 as [[seg off]|e]; [by destruct Hr|]. by destruct Hr as (_ & [? _] & _).
      * unfold reserve_tail in E. destruct ((capacity <? b) || (capacity - b <? pack_storage_bytes s)) eqn:Hg; [by injection E as <- <-|]. guards. lia.
  - unfold reserve_pack_extent in E. destruct ((b =? 0) || (kPackSegmentBytes <? b) || negb (b mod kDiskPageIoAlignment =? 0)) eqn:Hg.
    + by injection E as <- <-.
    + exfalso. guards. apply Hb. unfold u64 in Hu. split; [lia|done].
Qed.

Lemma step_ok w w' : world_ok w -> pack_step w w' -> world_ok w'.
Proof.
  unfold world_ok. intros Hw Hs. destruct Hs as [w k b create reopen r s Hk Hu E|w k src r s Hk Hin E|w k e r s Hk Hin E|w k eo seg e s Hk E|w k e t r s Hk Hin E];
    cbn [w_store w_owned w_held].
  - by eapply reserve_ok.
  - destruct (relocate_spec _ _ _ k src Hw Hk Hin) as (r1 & s1 & E1 & _ & Hr). rewrite E1 in E. injection E as <- <-.
    destruct r1 as [[seg off]|]; [by destruct Hr|by subst].
  - destruct (release_extent_spec _ _ _ k e Hw Hk Hin) as (s1 & E1 & Hs1 & _). rewrite E1 in E. by injection E as <- <-.
  - pose proof (trim_begin_spec _ _ _ k eo seg Hw Hk) as Ht. rewrite E in Ht. by destruct Ht as (_ & ? & _).
  - destruct (trim_end_spec _ _ _ k e t Hw Hk Hin) as (r1 & s1 & E1 & _ & Hs1 & _). rewrite E1 in E. by injection E as <- <-.
Qed.

Lemma pack_reach_ok w : pack_reach w -> world_ok w.
Proof.
  induction 1 as [truncate files m s Hf Hm E|w w' _ IH Hs]; [|by eapply step_ok].
  pose proof (rebuild_free_spec truncate files m Hf Hm) as Hr. by rewrite E in Hr.
Qed.
End worlds.

Lemma storage_nonneg s owned held : store_ok s owned held -> 0 <= pack_storage_bytes s.
Proof.
  intros (Hlen & Hk & ->). assert (Forall (fun p => 0 <= kind_bytes (segments p)) (kinds s)) as Hall.
  { apply Forall_lookup_2. intros k p Hp. assert (k < 5)%nat as Hlt by (rewrite <- Hlen; by eapply lookup_lt_Some).
    pose proof (ko_bytes _ _ _ (Hk k Hlt)) as Hb. unfold kind_of in Hb. rewrite (nth_lookup_Some _ _ _ _ Hp) in Hb.
    unfold kind_bytes. assert (Forall (fun kv => 0 <= seg_bytes (snd kv)) (map_to_list (segments p))) as Hm.
    { apply Forall_forall. intros [i v] Hi%elem_of_map_to_list. destruct (Hb i) as [[? _] _]. unfold segment_of in *. by rewrite Hi in *. }
    induction Hm as [|[i v] l Hv _ IH]; cbn in *; lia. }
  unfold total_bytes. clear -Hall. induction Hall as [|p l Hp _ IH]; cbn [foldr]; lia.
Qed.

(** The number of extents of [l] over byte [x] of segment [s]. *)
Definition owners (l : list Extent) (s x : Z) : nat := length (filter (fun e => inside s x e = true) l).

Lemma owners_hits l s x : Z.of_nat (owners l s x) = hits l s x.
Proof.
  unfold owners. induction l as [|e l IH]; [done|]. rewrite filter_cons, hits_cons. destruct (inside s x e).
  - rewrite decide_True by done. cbn [length Z.b2z]. lia.
  - rewrite decide_False by done. cbn. lia.
Qed.

(** C28: starting from a sound object map and running reservations, relocations,
    releases and trims in any interleaving, with any of them failing: every byte of
    every segment file has exactly one owner (an object's extent, a hole, or a tail that
    is being cut off) and no other byte has one, the two copies of the free index
    agree, the accounted storage is the size of the files, and giving an extent back
    always succeeds. *)
Theorem pack_space_partitioned capacity w (Hreach : pack_reach capacity w) :
  (forall k, (k < 5)%nat -> let p := kind_of (w_store w) k in
    (forall s x, (owners (w_owned w k) s x + owners (w_held w k) s x + owners (offsets (free_extents p)) s x)%nat
                 = if decide (0 <= x < seg_bytes (segment_of p s)) then 1%nat else 0%nat) /\
    sizes (free_extents p) ≡ₚ offsets (free_extents p) /\
    forall e, e ∈ w_owned w k -> exists s', release_pack_extent k e (w_store w) = (Ok tt, s')) /\
  pack_storage_bytes (w_store w) = total_bytes (kinds (w_store w)).
Proof.
  apply pack_reach_ok in Hreach as Hw. pose proof Hw as (_ & Hk & Hst). split; [|done]. intros k Hlt p. specialize (Hk k Hlt). split_and!.
  - intros s x. pose proof (ko_cover _ _ _ Hk s x) as Hc. fold p in Hc. apply Nat2Z.inj. rewrite !Nat2Z.inj_add, !owners_hits, Hc.
    destruct (decide _) as [D|D], (Z.leb_spec 0 x), (Z.ltb_spec x (seg_bytes (segment_of p s))); cbn; lia.
  - apply (ko_index _ _ _ Hk).
  - intros e He. destruct (release_extent_spec _ _ _ k e Hw Hlt He) as (s' & E & _). by exists s'.
Qed.

(** What a reservation does in any reachable state: it takes the front of the smallest
    hole that is large enough and no file grows; only if there is none it appends at the
    end of a segment, and the files grow by exactly its size within the capacity; it
    fails only for lack of capacity, of segment numbers or because a file cannot be
    opened, and then nobody loses an extent. *)
Theorem reserve_pack_extent_exact capacity w k b create reopen
  (Hreach : pack_reach capacity w) (Hk : (k < 5)%nat) (Hb : good_size b) :
  let s := w_store w in
  match reserve_pack_extent capacity k b create reopen s with
  | (Ok (seg, off), s') =>
      (exists fit, fit ∈ holes s k /\ x_seg fit = seg /\ x_off fit = off /\ b <= x_len fit /\
         (forall g, g ∈ holes s k -> b <= x_len g -> x_len fit <= x_len g) /\ pack_storage_bytes s' = pack_storage_bytes s) \/
      ((forall g, g ∈ holes s k -> x_len g < b) /\ off = seg_bytes (segment_of (kind_of s k) seg) /\
         pack_storage_bytes s' = pack_storage_bytes s + b /\ pack_storage_bytes s' <= capacity)
  | (Throw e, s') =>
      e = runtime_error /\ (forall g, g ∈ holes s k -> x_len g < b) /\ store_ok s' (w_owned w) (w_held w) /\
      (capacity - pack_storage_bytes s < b \/ create = false \/ reopen = false \/ last_segment (kind_of s k) = u32_max)
  end.
Proof.
  apply pack_reach_ok in Hreach as Hw. intros s. pose proof (storage_nonneg _ _ _ Hw) as Hpos. fold s in Hpos.
  destruct (reserve_extent_spec capacity s _ _ k b create reopen Hw Hk Hb) as [(fit & s' & Hin & Hle & Hmin & -> & _ & Hst)|[Hno ->]].
  { left. by exists fit. }
  destruct (decide (b <= capacity /\ pack_storage_bytes s <= capacity - b)) as [[H1 H2]|Hn].
  - destruct (reserve_tail_spec capacity s _ _ k b create reopen Hw Hk Hb H1 H2) as (r & s' & -> & Hr).
    destruct r as [[seg off]|e].
    + destruct Hr as (_ & Hst & Hoff). right. split_and!; [done|done|done|lia].
    + destruct Hr as (-> & [Hok _] & Hwhy). split_and!; [done|done|done|by right].
  - unfold reserve_tail. destruct (_ || _) eqn:Hg; [split_and!; [done|done|exact Hw|left; guards; lia]|].
    guards. lia.
Qed.

(** An extent just handed out lies in a file of its kind and meets no other owner's. *)
Lemma new_extent_free s owned held k e : store_ok s (<[k := e :: owned k]> owned) held -> (k < 5)%nat -> 0 < x_len e ->
  (forall f, f ∈ owned k -> separate e f) /\ 0 <= x_seg e <= u32_max /\ 0 <= x_off e /\ x_end e <= kPackSegmentBytes /\ page_aligned e.
Proof.
  intros (_ & Hk & _) Hlt Hl. specialize (Hk k Hlt). rewrite fn_lookup_insert in Hk.
  pose proof (ko_len _ _ _ Hk) as Hlen. apply Forall_app in Hlen as [Hlen _]. rewrite Forall_forall in Hlen.
  assert (e ∈ (e :: owned k) ++ held k ++ offsets (free_extents (kind_of s k))) as Hin by (cbn; left).
  split_and!.
  - intros f [j Hj]%list_elem_of_lookup. eapply (hits_separate _ 0 (S j)); [apply (kind_cover_le _ _ _ Hk)|done|done| |done|].
    + cbn. by apply lookup_app_l_Some.
    + apply Hlen. right. by eapply list_elem_of_lookup_2.
  - destruct (kind_segment _ _ _ Hk e Hin Hl) as [st Hst]. destruct (ko_last _ _ _ Hk) as (_ & Hl2 & Hl3).
    destruct (Hl3 (x_seg e)); [by eexists|done].
  - destruct (kind_segment _ _ _ Hk e Hin Hl) as [st Hst]. destruct (ko_last _ _ _ Hk) as (_ & Hl2 & Hl3).
    destruct (Hl3 (x_seg e)); [by eexists|lia].
  - apply (kind_inside _ _ _ Hk e Hin Hl).
  - destruct (kind_inside _ _ _ Hk e Hin Hl) as [_ H2]. destruct (ko_bytes _ _ _ Hk (x_seg e)). lia.
  - pose proof (ko_aligned _ _ _ Hk) as Ha. rewrite Forall_forall in Ha. by apply Ha.
Qed.

(** The map's extents of kind [k] are owned. *)
Definition journaled (m : ObjectMap) (k : nat) (owned : list Extent) : Prop :=
  forall i e, m !! i = Some e -> e_kind e = Z.of_nat k -> entry_extent e ∈ owned.

(** The extent a reservation returns can be journaled: the Put record of the object
    written there is one the journal accepts (its id is new, its location is valid, its
    extent meets no object of the map), and afterwards the map's extents are again among
    the owned ones. *)
Theorem reserved_extent_journals capacity w k b create reopen seg off s' m id stored logical crc
  (Hreach : pack_reach capacity w) (Hk : (k < 5)%nat) (Hb : good_size b) (Howned : journaled m k (w_owned w k))
  (Hreserve : reserve_pack_extent capacity k b create reopen (w_store w) = (Ok (seg, off), s'))
  (Hid : 0 < id <= size_max) (Hnew : m !! id = None) (Hsizes : 0 < stored <= b /\ 0 < logical <= size_max) (Hcrc : u32 crc) :
  let e := MkEntry id (Z.of_nat k) seg off b stored logical crc in
  record_ok m (MapPut, e) /\ journaled (apply_record m (MapPut, e)) k (MkExtent seg off b :: w_owned w k).
Proof.
  intros e. apply pack_reach_ok in Hreach as Hw. destruct Hb as [Hb Hb4].
  assert (u64 b) as Hu by (unfold u64, size_max; change kPackSegmentBytes with 1073741824 in Hb; lia).
  pose proof (reserve_ok capacity _ _ _ k b create reopen _ _ Hw Hk Hu Hreserve) as Hs'.
  destruct (new_extent_free _ _ _ k _ Hs' Hk) as (Hsep & Hseg & Hoff & Hend & [A1 A2]); [cbn; lia|]. cbn [x_seg x_off x_len] in *. unfold x_end in Hend. cbn in Hend.
  split.
  - split; cbn [fst snd].
    + constructor; cbn; [unfold u64; lia|unfold is_byte; lia|done| |done]. repeat (apply Forall_cons; split); try done; change kPackSegmentBytes with 1073741824 in *; unfold u64, size_max in *; cbn; lia.
    + right. split_and!; [|intros i f [_ Hf]%lookup_delete_Some|by left].
      * unfold location_invalid. cbn [e e_id e_kind e_extent_bytes e_stored_bytes e_logical_bytes e_offset]. change kDiskPageIoAlignment with 4096. rewrite A1, Hb4.
        rewrite !orb_false_iff. split_and!; try done; first [apply Z.eqb_neq|apply Z.ltb_ge|apply Z.leb_gt]; lia.
      * destruct (decide (e_kind f = Z.of_nat k)) as [Hkf|Hne]; [|left; cbn; congruence].
        destruct (Hsep _ (Howned i f Hf Hkf)) as [?|?]; [right; left; done|right; right; done].
  - intros i f Hf Hkf. cbn in Hf. apply lookup_insert_Some in Hf as [[_ <-]|[_ Hf]]; [left|]. right. by eapply Howned.
Qed.

(** ** Examples *)
Definition demo_files : list (gmap Z Z) := [{[0 := 16384]}; ∅; ∅; ∅; ∅].

Definition demo_packs : PackStore :=
  match rebuild_free_extents (fun _ _ => true) demo_files (map_to_list demo_map).*2 with Ok s => s | Throw _ => MkPacks [] 0 end.

Lemma demo_rebuilt : rebuild_free_extents (fun _ _ => true) demo_files (map_to_list demo_map).*2 = Ok demo_packs.
Proof. vm_compute. reflexivity. Qed.

Lemma demo_files_ok : files_ok demo_files.
Proof.
  split; [done|]. repeat (apply Forall_cons; split); try done.
  intros s size H. apply lookup_singleton_Some in H as [<- <-]. by vm_compute.
Qed.

Lemma demo_map_sound : sound_map demo_map.
Proof. eapply (load_sound false 1 1 demo_base demo_log); [apply demo_bytes|apply demo_bytes|by vm_compute|apply demo_loads]. Qed.

Definition demo_pack_world : World := MkWorld demo_packs (map_extents demo_files (map_to_list demo_map).*2) (fun _ => []).

Lemma demo_pack_reach capacity : pack_reach capacity demo_pack_world.
Proof. apply (reach_start _ (fun _ _ => true)); [apply demo_files_ok|apply demo_map_sound|apply demo_rebuilt]. Qed.

Lemma pack_space_partitioned_witness : pack_storage_bytes demo_packs = total_bytes (kinds demo_packs).
Proof. apply (pack_space_partitioned 65536 demo_pack_world (demo_pack_reach 65536)). Defined.

Lemma reserve_pack_extent_exact_witness : pack_storage_bytes (snd (reserve_pack_extent 65536 0 4096 true true demo_packs)) <= 65536.
Proof.
  assert (good_size 4096) as Hb by (by vm_compute).
  pose proof (reserve_pack_extent_exact 65536 demo_pack_world 0 4096 true true (demo_pack_reach 65536) (ltac:(lia)) Hb) as H.
  cbn [w_store demo_pack_world] in H. destruct (reserve_pack_extent 65536 0 4096 true true demo_packs) as [[[seg off]|e] s'] eqn:E.
  - destruct H as [(fit & _ & _ & _ & _ & _ & Hst)|(_ & _ & _ & Hle)]; [cbn [snd]; rewrite Hst; by vm_compute|exact Hle].
  - exfalso. vm_compute in E. discriminate E.
Defined.

Lemma reserved_extent_journals_witness : record_ok demo_map (MapPut, MkEntry 9 0 0 8192 4096 100 128 5).
Proof.
  refine (proj1 (reserved_extent_journals 65536 demo_pack_world 0 4096 true true 0 8192 (snd (reserve_pack_extent 65536 0 4096 true true demo_packs))
    demo_map 9 100 128 5 (demo_pack_reach 65536) _ _ _ _ _ _ _ _)).
  - lia.
  - by vm_compute.
  - intros i e He _. unfold demo_map in He. apply lookup_insert_Some in He as [[<- <-]|[_ He]]; [|apply lookup_singleton_Some in He as [<- <-]]; vm_compute; first [left|right; left].
  - vm_compute. reflexivity.
  - by vm_compute.
  - by vm_compute.
  - by vm_compute.
  - by vm_compute.
Defined.
