(* ===== verification/ExecState.v ===== *)
(** * The state of the executor

    runtime/engine/concurrent_executor.h.  [ConcurrentExecutor<Instance>] is a class template:
    everything it calls on its instance (the Program, the output sessions of the
    frontend), the clock and the other threads is the class [Instance] below, an
    arbitrary stateful environment.  An operation declared [noexcept] always
    returns, every other one may throw anything at any call.

    The state of the executor is [Executor]: one field per member variable, the
    [Request] objects behind their shared pointers as a store indexed by the
    request's id, and the program points of the worker and of the client threads.
    Member variables that only hold statistics or times for reports are left out.
    Counters that count submissions, plans or epochs are 64 bits wide in the code
    and do not wrap here. *)

From stdpp Require Import prelude functions list list_numbers sorting gmap.
From Stdlib Require Import ZArith Lia.
From S2P Require Import Prelude Admission Capacity GenerationGuards.
#[local] Open Scope Z_scope.

(** ** Data of the runtime contract *)
Inductive PrefixReuseSource : Type := SourceNone | VramResident | HostRam | HostDisk.

#[export] Instance PrefixReuseSource_eq_dec : EqDecision PrefixReuseSource.
Proof. solve_decision. Defined.

Record RequestPlanSummary : Type := MkSummary {
  prompt_tokens : Z;
  reusable_prompt_tokens : Z;
  effective_output_tokens : Z;
  effective_limit_reason : FinishReason;
  transient_bytes : Z;
  transient_alignment : Z;
  admission : AdmissionResources;
  service_work_quanta : Z;
  ram_entry_id : Z;
  disk_entry_id : Z;
  reuse_source : PrefixReuseSource;
}.

(** The reused path and its source are opaque to the executor. *)
Record BeginSummary : Type := MkBegin { reused_prompt_tokens : Z; prefix_reuse_source : PrefixReuseSource }.

Record OutputDecision : Type := MkDecision {
  accepted_tokens : Z;
  finish_reason : FinishReason;
  reject_generated_round : bool;
}.

Definition finished (d : OutputDecision) : bool := negb (bool_decide (finish_reason d = FinishNone)).

Inductive OutputChannel : Type := Content | Reasoning.

#[export] Instance OutputChannel_eq_dec : EqDecision OutputChannel.
Proof. solve_decision. Defined.

(** Text is a list of bytes; the log probabilities a delta may carry are floats
    and not modelled. *)
Record OutputDelta : Type := MkDelta { channel : OutputChannel; text : list Z }.

Inductive OutputDelivery : Type := TerminalOnly | Streaming.
Inductive PrefillPace : Type := Exclusive | Shared.

#[export] Instance PrefillPace_eq_dec : EqDecision PrefillPace.
Proof. solve_decision. Defined.

Record PrefillStepResult : Type := MkStep {
  step_summary : BeginSummary;
  step_tokens : list Z;
  processed_prompt_tokens : Z;
  complete : bool;
  host_input_consumed : bool;
}.

Record BatchedGeneratedRound : Type := MkRound {
  round_tokens : list Z;
  row_counts : list Z;
  row_stride : Z;
  cycle_exclusion_rows : nat -> bool;
}.

Inductive CacheReadIntent : Type := Consume | Fork.
Inductive AdmissionProgress : Type := ProgressNone | ControlProgress | CopyHolding | RanGpuUnit.

#[export] Instance AdmissionProgress_eq_dec : EqDecision AdmissionProgress.
Proof. solve_decision. Defined.

Inductive RecoveryEventKind : Type :=
| CycleExclusion | RetryTriggered | RetryStarted | RetryPrefillComplete | Finished | Exhausted.
Inductive RecoveryCause : Type := repeated_reasoning | duplicate_tool_call.

Record RecoveryEvent : Type := MkEvent {
  event_kind : RecoveryEventKind;
  event_attempts : Z;
  event_cycle_exclusions : Z;
  event_discarded_tool_calls : Z;
  event_discarded_reasoning_tokens : Z;
  event_generated_tokens : Z;
  event_remaining_tokens : Z;
}.

(** What a caller fixes at submission: [ResolvedRequestOptions], the summary of
    its prompt, the deadline of its wait and whether its session has a recovery
    context. *)
Record RequestOptions : Type := MkOptions {
  allow_prefix_reuse : bool;
  cache_write : bool;
  temperature_positive : bool;
  caller_stop_token_ids : list Z;
  wants_logprobs : bool;
  delivery : OutputDelivery;
  deadline : Z;
  has_media : bool;
  recovery_context : bool;
}.

(** The fields of [ResolvedExecutionOptions] that change during a request: the
    output limit of a retry ([None] is the caller's), cold prefill after a failed
    restore, and the tokens excluded from sampling. *)
Record ExecutionOptions : Type := MkExecution {
  requested_output_tokens : option Z;
  execution_force_cold : bool;
  execution_suppressed : list Z;
}.

(** [GenerationResult]: what the caller gets, without its timings. *)
Record GenerationResult : Type := MkResult {
  generated_token_ids : list Z;
  result_content : list Z;
  result_reasoning : list Z;
  result_tool_calls : Z;
  result_finish_reason : FinishReason;
  result_begin : option BeginSummary;
}.

(** The constructor arguments the executor keeps. *)
Class EngineOptions : Type := {
  max_concurrency : nat;
  max_pending_requests : Z;
  pending_timeout : Z;
  admission_capacity : AdmissionResources;
  context_capacity : Z;
  generation_recovery : bool;
  shared_prefill : bool;
  mixed_forward_rounds : Z;
  mixed_forward_min_tokens : Z;
}.

(** What the other threads do between two critical sections of the worker. *)
Inductive ClientAction (BasePlan Prompt : Type) : Type :=
| SubmitReserve
| SubmitFail (id : Z)
| SubmitPublish (id : Z) (options : RequestOptions) (prompt : Prompt) (base : BasePlan) (suppressed : list Z) (stops_allowed : bool)
| ReleaseConsumer (id : Z)
| ReturnCapacity
| TakeEvents (id : Z)
| StopEngine.
Arguments SubmitReserve {BasePlan Prompt}.
Arguments SubmitFail {BasePlan Prompt} id.
Arguments SubmitPublish {BasePlan Prompt} id options prompt base suppressed stops_allowed.
Arguments ReleaseConsumer {BasePlan Prompt} id.
Arguments ReturnCapacity {BasePlan Prompt}.
Arguments TakeEvents {BasePlan Prompt} id.
Arguments StopEngine {BasePlan Prompt}.

(** ** The environment

    [noexcept E A] is an operation that always returns, [st E A] one that may
    throw, [E -> A] a constant query of state that only the worker changes. *)
Definition noexcept (E A : Type) : Type := E -> A * E.

Class Instance : Type := {
  Env : Type;
  Plan : Type;
  BasePlan : Type;
  Prompt : Type;
  summary : Plan -> RequestPlanSummary;
  base_summary : BasePlan -> RequestPlanSummary;
  prompt_size : Prompt -> Z;
  (* the clock and the other threads *)
  now : noexcept Env Z;
  cancelled : Z -> noexcept Env bool;
  other_threads : noexcept Env (list (ClientAction BasePlan Prompt));
  (* planning *)
  plan_request_base : Z -> Prompt -> ExecutionOptions -> st Env BasePlan;
  plan_request_for_lane : nat -> Prompt -> BasePlan -> st Env Plan;
  plan_ram_reuse : Prompt -> BasePlan -> st Env Plan;
  plan_disk_reuse : Prompt -> BasePlan -> st Env Plan;
  kv_ram_index_version : noexcept Env Z;
  kv_disk_index_version : noexcept Env Z;
  retarget_plan_to_ram : Plan -> Z -> st Env Plan;
  (* lanes *)
  can_admit_lane : nat -> Plan -> Env -> bool;
  can_admit_lane_after_retained_eviction : nat -> Plan -> Env -> bool;
  can_admit_lane_after_releasing : nat -> Plan -> list nat -> Env -> bool;
  has_retained_lane : nat -> Env -> bool;
  retained_lane_precedes : nat -> nat -> Env -> bool;
  retained_lane_cache_writable : nat -> Env -> bool;
  abort_lane : nat -> noexcept Env unit;
  evict_retained_lane : nat -> noexcept Env unit;
  mark_turn_closed : nat -> noexcept Env unit;
  retain_reusable_lane : nat -> st Env bool;
  revert_cancelled_prefill_lane : nat -> st Env bool;
  fork_retained_lane : nat -> nat -> Plan -> st Env unit;
  (* prefill and decode *)
  start_prefill_lane : nat -> Prompt -> Plan -> Z * Z * Z -> PrefillPace -> st Env PrefillStepResult;
  advance_prefill_lane : nat -> PrefillPace -> st Env PrefillStepResult;
  prefill_remaining_tokens : nat -> st Env Z;
  prefill_suspendable : nat -> st Env bool;
  prefill_mixable : nat -> st Env bool;
  resume_prefill_lane : nat -> st Env unit;
  resolve_prefill_lane : nat -> bool -> st Env unit;
  decode_batch : list nat -> list Z -> st Env BatchedGeneratedRound;
  decode_batch_with_prefill : list nat -> list Z -> nat -> st Env (BatchedGeneratedRound * PrefillStepResult);
  resolve_pending_batch : list nat -> list Z -> list bool -> list bool -> list bool -> st Env unit;
  set_suppressed_tokens_lane : nat -> list Z -> st Env unit;
  clear_suppressed_tokens_lane : nat -> st Env unit;
  set_typical_cycle_reasoning_lane : nat -> bool -> st Env unit;
  (* the cache tiers *)
  capture_retained_lane : nat -> bool -> list Z -> st Env (Z * bool);
  preserve_retained_lane : nat -> bool -> st Env (bool * Z * bool);
  claim_ram_entry : Z -> st Env unit;
  release_ram_entry : Z -> st Env unit;
  discard_ram_capture : Z -> st Env unit;
  finish_ram_restore : Z -> CacheReadIntent -> st Env unit;
  restore_ram_entry : nat -> Z -> Plan -> st Env unit;
  ram_restore_ready : Z -> st Env bool;
  claim_disk_entry : RequestPlanSummary -> st Env bool;
  prefetch_disk_plan : Z -> Plan -> st Env unit;
  release_disk_entry : Z -> st Env unit;
  invalidate_disk_entry : Z -> st Env unit;
  consume_disk_entry : Z -> st Env unit;
  restore_disk_entry : nat -> Z -> Plan -> st Env unit;
  disk_restore_ready : Z -> st Env bool;
  pump_disk_restore : st Env unit;
  cancel_disk_restore : st Env unit;
  kv_disk_restore_failed : st Env bool;
  kv_ram_reclaim_pending : st Env bool;
  kv_ram_copies_ready : st Env bool;
  kv_copies_ready : st Env bool;
  wait_kv_ram_copies : st Env unit;
  wait_kv_disk_copies : st Env unit;
  wait_kv_ram_copies_on_compute : st Env unit;
  harvest_kv_copy_times : st Env unit;
  begin_copy_hold_cancel : st Env unit;
  copy_hold_cancel_settled : st Env bool;
  synchronize_all : st Env unit;
  set_cache_idle : bool -> st Env unit;
  shutdown_kv_tiers : st Env unit;
  (* the frontend and the output session of a request *)
  default_stop_token_ids : list Z;
  session_terminal : Z -> Env -> bool;
  preview_terminal : Z -> FinishReason -> st Env unit;
  preview : Z -> list Z -> Z -> FinishReason -> st Env OutputDecision;
  commit_preview : Z -> noexcept Env (list OutputDelta);
  discard_preview : Z -> noexcept Env unit;
  model_stop_tokens_allowed : Z -> Env -> bool;
  suppressed_reasoning_end_token : Z -> Env -> option Z;
  in_reasoning : Z -> Env -> bool;
  reasoning_tokens : Z -> Env -> Z;
  tool_calls : Z -> Env -> Z;
  repeats : Z -> list Z -> Env -> bool;
  collect_token_logprobs : Z -> nat -> list Z -> st Env unit;
  copy_reusable_prompt : nat -> Z -> st Env (option (list Z));
  prepare : Z -> st Env (list Z);
  splice_recovery_prompt : Z -> list Z -> Z -> st Env (option Prompt);
  make_output_session : Z -> Prompt -> st Env (bool * option Z);
  install_output_session : Z -> noexcept Env unit;
}.

Section State.
Context {I : Instance}.

(** The plans a waiting request has computed, with the versions they are valid for. *)
Record Planning : Type := MkPlanning {
  base_plan : option BasePlan;
  lane_plans : gmap nat Plan;
  lane_plan_versions : nat -> Z;
  ram_plan : option Plan;
  ram_index_version : Z;
  disk_plan : option Plan;
  disk_index_version : Z;
}.

(** The part of a request its caller sees, guarded by [Request::mutex]. *)
Record Publication : Type := MkPublication {
  events : list OutputDelta;
  recovery_events : list RecoveryEvent;
  result : option GenerationResult;
  error : option exn;
  done : bool;
  consumer_released : bool;
  capacity_released : bool;
}.

(** Which sources of a fork could not be preserved, and when that was found. *)
Record Preservation : Type := MkPreservation {
  preservation_unavailable : nat -> bool;
  preservation_ram_versions : nat -> Z;
  preservation_lane_versions : nat -> Z;
}.

(** The bounded recovery of repetitive generation. *)
Record Recovery : Type := MkRecovery {
  attempts : Z;
  cycle_exclusions : Z;
  discarded_tool_calls : Z;
  discarded_reasoning_tokens : Z;
  recovery_cause : option RecoveryCause;
  recovery_pending : bool;
  recovery_reasoning_begin : nat;
  recovery_generated_begin : nat;
  reasoning_cycle : RepeatedReasoningSpan;
}.

(** [struct Request].  The output session is part of the environment. *)
Record Request : Type := MkRequest {
  queue_order : Z;
  options : RequestOptions;
  prompt : option Prompt;
  resident_prompt_tokens : Z;
  host_input : bool;
  cache_fallback : bool;
  force_cold_prefill : bool;
  suppressed_token_ids : list Z;
  stop_suppression_active : bool;
  budget : option GenerationBudget;
  begin_summary : option BeginSummary;
  generated : list Z;
  content : list Z;
  reasoning : list Z;
  lane : option nat;
  decode_ready : bool;
  preservation : Preservation;
  recovery : Recovery;
  planning : Planning;
  admission_resources : AdmissionResources;
  remaining_service_work : Z;
  request_backfill_epoch : Z;
  request_backfill_class : BackfillClass;
  publication : Publication;
}.

(** [struct CopyHold]: an admission whose copies are still running. *)
Record CopyHold : Type := MkHold {
  hold_request : Z;
  hold_lane : nat;
  hold_plan : Plan;
  fork_source : option nat;
  fork_source_version : Z;
  ram_hit : bool;
  hold_ram_entry_id : Z;
  ram_claimed : bool;
  ram_consumed : bool;
  disk_hit : bool;
  hold_disk_entry_id : Z;
  disk_claimed : bool;
  disk_consumed : bool;
  victim_lanes : list nat;
  victims_evicted : bool;
  restored : bool;
  needs_prefill : bool;
  recovery_base : option BasePlan;
  recovery_stale_retries : Z;
  cancel_pending : bool;
  restore_failed : bool;
  discard_failed_source : bool;
  replan_restore : bool;
}.

(** Where the worker is: at the top of its loop, inside the wait for a request, or
    returned. *)
Inductive WorkerPoint : Type := AtTop | AtWait | Exited.

(** The local variables of [admit_planned_request] its exception handler reads. *)
Record Frame : Type := MkFrame {
  frame_ram_entry_id : Z;
  frame_ram_claimed : bool;
  frame_disk_claimed : bool;
  captured_ram_ids : list Z;
}.

(** [reserved] are the ids of the submissions between their two critical sections,
    [releasing] counts the threads between taking a request's capacity and
    giving it back. *)
Record Executor : Type := MkExec {
  requests : Z -> Request;
  submitted : list Z;
  pending : list Z;
  recovery_queue : list Z;
  outstanding : Z;
  next_request_id : Z;
  next_queue_order : Z;
  slots : nat -> option Z;
  prefill_lane : option nat;
  suspended_prefill_lane : option nat;
  prefill_interruptible : bool;
  suspended_prefill_must_advance : bool;
  suspended_decode_rounds_since_prefill : Z;
  decode_rounds_since_prefill : Z;
  copy_hold : option CopyHold;
  plan_versions : nat -> Z;
  protection : option AdmissionProtection;
  next_protection_epoch : Z;
  request_memory : RequestMemory;
  published_waiting : Z;
  control_dirty : bool;
  stopping : bool;
  failed : bool;
  burst : DecodeAdmissionBurst;
  stable_decode_epoch : bool;
  worker : WorkerPoint;
  frame : Frame;
  reserved : list Z;
  releasing : nat;
}.

End State.

(** ** Field updates *)
Ltac update e g v :=
  let t := eval hnf in e in
  match eval pattern g in t with ?f _ => let r := eval cbv beta in (f v) in exact r end.

Section Updates.
Context {I : Instance}.

Definition eta_Planning (p : Planning) : Planning :=
  MkPlanning (base_plan p) (lane_plans p) (lane_plan_versions p) (ram_plan p) (ram_index_version p)
    (disk_plan p) (disk_index_version p).

Definition eta_Publication (p : Publication) : Publication :=
  MkPublication (events p) (recovery_events p) (result p) (error p) (done p) (consumer_released p)
    (capacity_released p).

Definition eta_Preservation (p : Preservation) : Preservation :=
  MkPreservation (preservation_unavailable p) (preservation_ram_versions p) (preservation_lane_versions p).

Definition eta_Recovery (r : Recovery) : Recovery :=
  MkRecovery (attempts r) (cycle_exclusions r) (discarded_tool_calls r) (discarded_reasoning_tokens r)
    (recovery_cause r) (recovery_pending r) (recovery_reasoning_begin r) (recovery_generated_begin r)
    (reasoning_cycle r).

Definition eta_Request (r : Request) : Request :=
  MkRequest (queue_order r) (options r) (prompt r) (resident_prompt_tokens r) (host_input r)
    (cache_fallback r) (force_cold_prefill r) (suppressed_token_ids r) (stop_suppression_active r) (budget r)
    (begin_summary r) (generated r) (content r) (reasoning r) (lane r) (decode_ready r) (preservation r)
    (recovery r) (planning r) (admission_resources r) (remaining_service_work r) (request_backfill_epoch r)
    (request_backfill_class r) (publication r).

Definition eta_CopyHold (h : CopyHold) : CopyHold :=
  MkHold (hold_request h) (hold_lane h) (hold_plan h) (fork_source h) (fork_source_version h) (ram_hit h)
    (hold_ram_entry_id h) (ram_claimed h) (ram_consumed h) (disk_hit h) (hold_disk_entry_id h)
    (disk_claimed h) (disk_consumed h) (victim_lanes h) (victims_evicted h) (restored h) (needs_prefill h)
    (recovery_base h) (recovery_stale_retries h) (cancel_pending h) (restore_failed h)
    (discard_failed_source h) (replan_restore h).

Definition eta_Executor (x : Executor) : Executor :=
  MkExec (requests x) (submitted x) (pending x) (recovery_queue x) (outstanding x) (next_request_id x)
    (next_queue_order x) (slots x) (prefill_lane x) (suspended_prefill_lane x) (prefill_interruptible x)
    (suspended_prefill_must_advance x) (suspended_decode_rounds_since_prefill x)
    (decode_rounds_since_prefill x) (copy_hold x) (plan_versions x) (protection x) (next_protection_epoch x)
    (request_memory x) (published_waiting x) (control_dirty x) (stopping x) (failed x) (burst x)
    (stable_decode_epoch x) (worker x) (frame x) (reserved x) (releasing x).

Definition set_base_plan (v : option BasePlan) (p : Planning) : Planning := ltac:(update (eta_Planning p) (base_plan p) v).
Definition set_lane_plans (v : gmap nat Plan) (p : Planning) : Planning := ltac:(update (eta_Planning p) (lane_plans p) v).
Definition set_lane_plan_versions (v : nat -> Z) (p : Planning) : Planning := ltac:(update (eta_Planning p) (lane_plan_versions p) v).
Definition set_ram_plan (v : option Plan) (p : Planning) : Planning := ltac:(update (eta_Planning p) (ram_plan p) v).
Definition set_ram_index_version (v : Z) (p : Planning) : Planning := ltac:(update (eta_Planning p) (ram_index_version p) v).
Definition set_disk_plan (v : option Plan) (p : Planning) : Planning := ltac:(update (eta_Planning p) (disk_plan p) v).
Definition set_disk_index_version (v : Z) (p : Planning) : Planning := ltac:(update (eta_Planning p) (disk_index_version p) v).

Definition set_events (v : list OutputDelta) (p : Publication) : Publication := ltac:(update (eta_Publication p) (events p) v).
Definition set_recovery_events (v : list RecoveryEvent) (p : Publication) : Publication := ltac:(update (eta_Publication p) (recovery_events p) v).
Definition set_result (v : option GenerationResult) (p : Publication) : Publication := ltac:(update (eta_Publication p) (result p) v).
Definition set_error (v : option exn) (p : Publication) : Publication := ltac:(update (eta_Publication p) (error p) v).
Definition set_done (v : bool) (p : Publication) : Publication := ltac:(update (eta_Publication p) (done p) v).
Definition set_consumer_released (v : bool) (p : Publication) : Publication := ltac:(update (eta_Publication p) (consumer_released p) v).
Definition set_capacity_released (v : bool) (p : Publication) : Publication := ltac:(update (eta_Publication p) (capacity_released p) v).

Definition set_attempts (v : Z) (r : Recovery) : Recovery := ltac:(update (eta_Recovery r) (attempts r) v).
Definition set_cycle_exclusions (v : Z) (r : Recovery) : Recovery := ltac:(update (eta_Recovery r) (cycle_exclusions r) v).
Definition set_discarded_tool_calls (v : Z) (r : Recovery) : Recovery := ltac:(update (eta_Recovery r) (discarded_tool_calls r) v).
Definition set_discarded_reasoning_tokens (v : Z) (r : Recovery) : Recovery := ltac:(update (eta_Recovery r) (discarded_reasoning_tokens r) v).
Definition set_recovery_cause (v : option RecoveryCause) (r : Recovery) : Recovery := ltac:(update (eta_Recovery r) (recovery_cause r) v).
Definition set_recovery_pending (v : bool) (r : Recovery) : Recovery := ltac:(update (eta_Recovery r) (recovery_pending r) v).
Definition set_recovery_reasoning_begin (v : nat) (r : Recovery) : Recovery := ltac:(update (eta_Recovery r) (recovery_reasoning_begin r) v).
Definition set_recovery_generated_begin (v : nat) (r : Recovery) : Recovery := ltac:(update (eta_Recovery r) (recovery_generated_begin r) v).
Definition set_reasoning_cycle (v : RepeatedReasoningSpan) (r : Recovery) : Recovery := ltac:(update (eta_Recovery r) (reasoning_cycle r) v).

Definition set_prompt (v : option Prompt) (r : Request) : Request := ltac:(update (eta_Request r) (prompt r) v).
Definition set_resident_prompt_tokens (v : Z) (r : Request) : Request := ltac:(update (eta_Request r) (resident_prompt_tokens r) v).
Definition set_host_input (v : bool) (r : Request) : Request := ltac:(update (eta_Request r) (host_input r) v).
Definition set_cache_fallback (v : bool) (r : Request) : Request := ltac:(update (eta_Request r) (cache_fallback r) v).
Definition set_force_cold_prefill (v : bool) (r : Request) : Request := ltac:(update (eta_Request r) (force_cold_prefill r) v).
Definition set_suppressed_token_ids (v : list Z) (r : Request) : Request := ltac:(update (eta_Request r) (suppressed_token_ids r) v).
Definition set_stop_suppression_active (v : bool) (r : Request) : Request := ltac:(update (eta_Request r) (stop_suppression_active r) v).
Definition set_budget (v : option GenerationBudget) (r : Request) : Request := ltac:(update (eta_Request r) (budget r) v).
Definition set_begin_summary (v : option BeginSummary) (r : Request) : Request := ltac:(update (eta_Request r) (begin_summary r) v).
Definition set_generated (v : list Z) (r : Request) : Request := ltac:(update (eta_Request r) (generated r) v).
Definition set_content (v : list Z) (r : Request) : Request := ltac:(update (eta_Request r) (content r) v).
Definition set_reasoning (v : list Z) (r : Request) : Request := ltac:(update (eta_Request r) (reasoning r) v).
Definition set_lane (v : option nat) (r : Request) : Request := ltac:(update (eta_Request r) (lane r) v).
Definition set_decode_ready (v : bool) (r : Request) : Request := ltac:(update (eta_Request r) (decode_ready r) v).
Definition set_recovery (v : Recovery) (r : Request) : Request := ltac:(update (eta_Request r) (recovery r) v).
Definition set_planning (v : Planning) (r : Request) : Request := ltac:(update (eta_Request r) (planning r) v).
Definition set_admission_resources (v : AdmissionResources) (r : Request) : Request := ltac:(update (eta_Request r) (admission_resources r) v).
Definition set_remaining_service_work (v : Z) (r : Request) : Request := ltac:(update (eta_Request r) (remaining_service_work r) v).
Definition set_request_backfill_epoch (v : Z) (r : Request) : Request := ltac:(update (eta_Request r) (request_backfill_epoch r) v).
Definition set_request_backfill_class (v : BackfillClass) (r : Request) : Request := ltac:(update (eta_Request r) (request_backfill_class r) v).
Definition set_publication (v : Publication) (r : Request) : Request := ltac:(update (eta_Request r) (publication r) v).

Definition set_ram_claimed (v : bool) (h : CopyHold) : CopyHold := ltac:(update (eta_CopyHold h) (ram_claimed h) v).
Definition set_ram_consumed (v : bool) (h : CopyHold) : CopyHold := ltac:(update (eta_CopyHold h) (ram_consumed h) v).
Definition set_disk_claimed (v : bool) (h : CopyHold) : CopyHold := ltac:(update (eta_CopyHold h) (disk_claimed h) v).
Definition set_disk_consumed (v : bool) (h : CopyHold) : CopyHold := ltac:(update (eta_CopyHold h) (disk_consumed h) v).
Definition set_victims_evicted (v : bool) (h : CopyHold) : CopyHold := ltac:(update (eta_CopyHold h) (victims_evicted h) v).
Definition set_restored (v : bool) (h : CopyHold) : CopyHold := ltac:(update (eta_CopyHold h) (restored h) v).
Definition set_cancel_pending (v : bool) (h : CopyHold) : CopyHold := ltac:(update (eta_CopyHold h) (cancel_pending h) v).
Definition set_restore_failed (v : bool) (h : CopyHold) : CopyHold := ltac:(update (eta_CopyHold h) (restore_failed h) v).
Definition set_discard_failed_source (v : bool) (h : CopyHold) : CopyHold := ltac:(update (eta_CopyHold h) (discard_failed_source h) v).
Definition set_replan_restore (v : bool) (h : CopyHold) : CopyHold := ltac:(update (eta_CopyHold h) (replan_restore h) v).

Definition set_requests (v : Z -> Request) (x : Executor) : Executor := ltac:(update (eta_Executor x) (requests x) v).
Definition set_submitted (v : list Z) (x : Executor) : Executor := ltac:(update (eta_Executor x) (submitted x) v).
Definition set_pending (v : list Z) (x : Executor) : Executor := ltac:(update (eta_Executor x) (pending x) v).
Definition set_recovery_queue (v : list Z) (x : Executor) : Executor := ltac:(update (eta_Executor x) (recovery_queue x) v).
Definition set_outstanding (v : Z) (x : Executor) : Executor := ltac:(update (eta_Executor x) (outstanding x) v).
Definition set_next_request_id (v : Z) (x : Executor) : Executor := ltac:(update (eta_Executor x) (next_request_id x) v).
Definition set_next_queue_order (v : Z) (x : Executor) : Executor := ltac:(update (eta_Executor x) (next_queue_order x) v).
Definition set_slots (v : nat -> option Z) (x : Executor) : Executor := ltac:(update (eta_Executor x) (slots x) v).
Definition set_prefill_lane (v : option nat) (x : Executor) : Executor := ltac:(update (eta_Executor x) (prefill_lane x) v).
Definition set_suspended_prefill_lane (v : option nat) (x : Executor) : Executor := ltac:(update (eta_Executor x) (suspended_prefill_lane x) v).
Definition set_prefill_interruptible (v : bool) (x : Executor) : Executor := ltac:(update (eta_Executor x) (prefill_interruptible x) v).
Definition set_suspended_prefill_must_advance (v : bool) (x : Executor) : Executor := ltac:(update (eta_Executor x) (suspended_prefill_must_advance x) v).
Definition set_suspended_decode_rounds_since_prefill (v : Z) (x : Executor) : Executor := ltac:(update (eta_Executor x) (suspended_decode_rounds_since_prefill x) v).
Definition set_decode_rounds_since_prefill (v : Z) (x : Executor) : Executor := ltac:(update (eta_Executor x) (decode_rounds_since_prefill x) v).
Definition set_copy_hold (v : option CopyHold) (x : Executor) : Executor := ltac:(update (eta_Executor x) (copy_hold x) v).
Definition set_plan_versions (v : nat -> Z) (x : Executor) : Executor := ltac:(update (eta_Executor x) (plan_versions x) v).
Definition set_protection (v : option AdmissionProtection) (x : Executor) : Executor := ltac:(update (eta_Executor x) (protection x) v).
Definition set_next_protection_epoch (v : Z) (x : Executor) : Executor := ltac:(update (eta_Executor x) (next_protection_epoch x) v).
Definition set_request_memory (v : RequestMemory) (x : Executor) : Executor := ltac:(update (eta_Executor x) (request_memory x) v).
Definition set_published_waiting (v : Z) (x : Executor) : Executor := ltac:(update (eta_Executor x) (published_waiting x) v).
Definition set_control_dirty (v : bool) (x : Executor) : Executor := ltac:(update (eta_Executor x) (control_dirty x) v).
Definition set_stopping (v : bool) (x : Executor) : Executor := ltac:(update (eta_Executor x) (stopping x) v).
Definition set_failed (v : bool) (x : Executor) : Executor := ltac:(update (eta_Executor x) (failed x) v).
Definition set_burst (v : DecodeAdmissionBurst) (x : Executor) : Executor := ltac:(update (eta_Executor x) (burst x) v).
Definition set_stable_decode_epoch (v : bool) (x : Executor) : Executor := ltac:(update (eta_Executor x) (stable_decode_epoch x) v).
Definition set_worker (v : WorkerPoint) (x : Executor) : Executor := ltac:(update (eta_Executor x) (worker x) v).
Definition set_frame (v : Frame) (x : Executor) : Executor := ltac:(update (eta_Executor x) (frame x) v).
Definition set_reserved (v : list Z) (x : Executor) : Executor := ltac:(update (eta_Executor x) (reserved x) v).
Definition set_releasing (v : nat) (x : Executor) : Executor := ltac:(update (eta_Executor x) (releasing x) v).

Definition set_preservation (v : Preservation) (r : Request) : Request := ltac:(update (eta_Request r) (preservation r) v).

End Updates.
