(* ===== verification/ExecCore.v ===== *)
(** * The executor: queue, callers and completion

    The parts of concurrent_executor.h that move a request between its caller,
    the queue and its result: the two critical sections of [submit], the release
    of capacity by callers, the critical sections of the worker, and the ways a
    request completes.  A call of [lock] is the acquisition of [queue_mutex_] or of a
    [Request::mutex] by the worker: before it, the other threads may have taken
    any number of their own critical sections. *)

From stdpp Require Import prelude functions list list_numbers sorting gmap.
From Stdlib Require Import ZArith Lia.
From S2P Require Import Prelude Admission Capacity GenerationGuards ExecState.
#[local] Open Scope Z_scope.

Section Core.
Context {I : Instance} {Opt : EngineOptions}.

(** ** The monad of the worker *)
Definition M (A : Type) : Type := st (Executor * Env) A.

Definition exec : M Executor := fun s => (Ok s.1, s).
Definition modify (f : Executor -> Executor) : M unit := fun s => (Ok tt, (f s.1, s.2)).
(** The environment throws C++ exceptions, it does not report undefined behaviour. *)
Definition call {A} (op : st Env A) : M A := fun s =>
  let '(r, e) := op s.2 in
  (match r with Throw undefined => Throw runtime_error | r => r end, (s.1, e)).
Definition total {A} (op : noexcept Env A) : M A := fun s => let '(a, e) := op s.2 in (Ok a, (s.1, e)).
Definition ask {A} (query : Env -> A) : M A := fun s => (Ok (query s.2), s).

(** [try { m } catch (...) { h }]; no handler runs after [std::abort] or undefined
    behaviour. *)
Definition try_catch {A} (m : M A) (h : exn -> M A) : M A := fun s =>
  match m s with
  | (Ok a, s) => (Ok a, s)
  | (Throw aborted, s) => (Throw aborted, s)
  | (Throw undefined, s) => (Throw undefined, s)
  | (Throw e, s) => h e s
  end.

Definition run_secondary_cleanup (step : M unit) : M unit := try_catch step (fun _ => mret tt).

(** [*request] *)
Definition request (q : Z) : M Request := x ← exec; mret (requests x q).
Definition update_request (q : Z) (f : Request -> Request) : M unit :=
  modify (fun x => set_requests (<[q := f (requests x q)]> (requests x)) x).
Definition update_publication (q : Z) (f : Publication -> Publication) : M unit :=
  update_request q (fun r => set_publication (f (publication r)) r).

(** [*slots_[lane]], where the code dereferences it without a test. *)
Definition slot_request (l : nat) : M Z :=
  x ← exec; match slots x l with Some q => mret q | None => throw undefined end.

(** [*optional] *)
Definition deref {A} (o : option A) : M A := match o with Some a => mret a | None => throw undefined end.

(** The lanes [0 .. max_concurrency_ - 1]. *)
Definition lanes : list nat := seq 0 max_concurrency.

(** [erase(std::find(..., request))] *)
Fixpoint erase_first (q : Z) (l : list Z) : list Z :=
  match l with
  | [] => []
  | y :: l => if bool_decide (y = q) then l else y :: erase_first q l
  end.

(** ** Client threads *)
Definition new_request (order : Z) (o : RequestOptions) (p : Prompt) (base : BasePlan)
    (suppressed : list Z) (stops_allowed : bool) : Request :=
  MkRequest order o (Some p) (prompt_size p) true false false suppressed (negb stops_allowed) None None [] [] [] None
    false (MkPreservation (fun _ => false) (fun _ => 0) (fun _ => 0))
    (MkRecovery 0 0 0 0 None false 0 0 fresh_span)
    (MkPlanning (Some base) ∅ (fun _ => 0) None 0 None 0)
    (MkResources 0 0 0) 0 0 NoBackfill (MkPublication [] [] None None false false false).

Definition max_outstanding : Z := Z.of_nat max_concurrency + max_pending_requests.

(** The first critical section of [submit]. *)
Definition submit_reserve : st Executor Z :=
  x ← get;
  st_throw_if (stopping x || failed x) (request_error Unavailable) ;;
  st_throw_if (max_outstanding <=? outstanding x) (request_error Overloaded) ;;
  put (set_reserved (next_request_id x :: reserved x)
        (set_next_request_id (next_request_id x + 1) (set_outstanding (outstanding x + 1) x))) ;;
  mret (next_request_id x).

Definition release_reserved_capacity (x : Executor) : Executor :=
  if negb (outstanding x =? 0) then set_outstanding (outstanding x - 1) x else x.

(** The constructor or the planner threw: the reservation is given back. *)
Definition submit_fail (id : Z) (x : Executor) : Executor :=
  if bool_decide (id ∈ reserved x)
  then release_reserved_capacity (set_reserved (erase_first id (reserved x)) x) else x.

Definition signal_control (x : Executor) : Executor := set_control_dirty true x.

(** The second critical section of [submit] and the signal after it. *)
Definition submit_publish (id : Z) (o : RequestOptions) (p : Prompt) (base : BasePlan)
    (suppressed : list Z) (stops_allowed : bool) : st Executor unit :=
  x ← get;
  if bool_decide (id ∈ reserved x) then
    put (set_reserved (erase_first id (reserved x)) x) ;;
    x ← get;
    if stopping x || failed x then
      put (set_outstanding (outstanding x - 1) x) ;;
      throw (request_error Unavailable)
    else
      let r := new_request (next_queue_order x) o p base suppressed stops_allowed in
      let queue := pending x ++ [id] in
      put (signal_control
            (set_published_waiting (Z.of_nat (length queue))
              (set_pending queue
                (set_next_queue_order (next_queue_order x + 1)
                  (set_submitted (id :: submitted x) (set_requests (<[id := r]> (requests x)) x))))))
  else mret tt.

(** [release_consumer]: the section under the request's mutex; a thread that took the
    capacity gives it back later ([ReturnCapacity]). *)
Definition release_consumer (id : Z) (x : Executor) : Executor :=
  if bool_decide (id ∈ submitted x) then
    let r := requests x id in
    let p := set_consumer_released true (publication r) in
    let release := done p && negb (capacity_released p) in
    let p := if release then set_capacity_released true p else p in
    let x := set_requests (<[id := set_publication p r]> (requests x)) x in
    if release then set_releasing (S (releasing x)) x else x
  else x.

(** The caller's swap of [Request::events] in [wait_for_request]. *)
Definition take_events (id : Z) (x : Executor) : Executor :=
  let r := requests x id in
  set_requests (<[id := set_publication (set_events [] (set_recovery_events [] (publication r))) r]> (requests x)) x.

Definition client_step (a : ClientAction BasePlan Prompt) (x : Executor) : Executor :=
  match a with
  | SubmitReserve => snd (submit_reserve x)
  | SubmitFail id => submit_fail id x
  | SubmitPublish id o p base suppressed allowed => snd (submit_publish id o p base suppressed allowed x)
  | ReleaseConsumer id => release_consumer id x
  | ReturnCapacity =>
      match releasing x with
      | O => x
      | S n => release_reserved_capacity (set_releasing n x)
      end
  | TakeEvents id => take_events id x
  | StopEngine => signal_control (set_stopping true x)
  end.

(** Acquiring a mutex: what the other threads did before is visible now. *)
Definition lock : M unit :=
  actions ← total other_threads;
  modify (fun x => foldl (fun x a => client_step a x) x actions).

(** ** Statistics and lanes *)
Definition publish_waiting (x : Executor) : Executor := set_published_waiting (Z.of_nat (length (pending x))) x.

(** The queue length is the part of the statistics that is modelled. *)
Definition publish_runtime_stats : M unit := lock ;; modify publish_waiting.

Definition invalidate_lane_plans (l : nat) : M unit :=
  modify (fun x => set_plan_versions (<[l := plan_versions x l + 1]> (plan_versions x)) x).

Definition remove_completed_slot (l : nat) : M unit :=
  modify (fun x => set_slots (<[l := None]> (slots x)) x) ;; invalidate_lane_plans l.

(** [request_memory.deactivate(); prefill_lane_.reset()] where [lane] owns the
    staged prefill, as the code repeats it. *)
Definition release_prefill (l : nat) : M unit :=
  x ← exec;
  if bool_decide (prefill_lane x = Some l) then
    modify (fun x => set_prefill_lane None (set_request_memory (snd (deactivate (request_memory x))) x))
  else mret tt.

(** ** Queue *)
Definition pending_snapshot : M (list Z) := lock ;; x ← exec; mret (pending x).

Definition remove_pending (q : Z) (x : Executor) : Executor :=
  publish_waiting (set_pending (erase_first q (pending x)) x).

Definition erase_pending (q : Z) : M bool :=
  lock ;;
  x ← exec;
  if bool_decide (q ∈ pending x) then modify (remove_pending q) ;; mret true else mret false.

Definition clear_protection_if_head (q : Z) : M unit :=
  x ← exec;
  match protection x with
  | Some p => if head_request_id p =? q then modify (set_protection None) else mret tt
  | None => mret tt
  end.

(** ** Completion *)
Definition release_planning_state (q : Z) : M unit :=
  update_request q (fun r =>
    set_planning (MkPlanning None ∅ (lane_plan_versions (planning r)) None 0 None 0) r).

Definition retire_request (q : Z) : M unit :=
  r ← request q;
  match lane r with
  | Some l =>
      x ← exec;
      (if bool_decide (suspended_prefill_lane x = Some l) then modify (set_suspended_prefill_lane None) else mret tt) ;;
      (if bool_decide (slots x l = Some q) then remove_completed_slot l else mret tt)
  | None => mret tt
  end ;;
  publish_runtime_stats.

(** The section of [mark_completed] under the request's mutex. *)
Definition mark_completed (q : Z) : M bool :=
  lock ;;
  r ← request q;
  if consumer_released (publication r) && negb (capacity_released (publication r)) then
    update_publication q (set_capacity_released true) ;; mret true
  else mret false.

(** [if (mark_completed(request)) { release_reserved_capacity(); }] *)
Definition settle_capacity (q : Z) : M unit :=
  release ← mark_completed q;
  if release : bool then lock ;; modify release_reserved_capacity else mret tt.

(** Publishes an outcome once. *)
Definition publish_outcome (q : Z) (f : Publication -> Publication) : M unit :=
  lock ;;
  r ← request q;
  if done (publication r) then mret tt
  else update_publication q (fun p => set_done true (f p)) ;; settle_capacity q.

Definition complete_error (q : Z) (e : exn) : M unit :=
  release_planning_state q ;;
  update_request q (fun r => set_host_input false (set_prompt None r)) ;;
  retire_request q ;;
  publish_outcome q (set_error (Some e)).

Definition publish_recovery (q : Z) (kind : RecoveryEventKind) : M unit :=
  lock ;;
  update_request q (fun r =>
    let c := recovery r in
    let event := MkEvent kind (attempts c) (cycle_exclusions c) (discarded_tool_calls c)
                   (discarded_reasoning_tokens c) (Z.of_nat (length (generated r)))
                   (default 0 (budget_remaining <$> budget r)) in
    set_publication (set_recovery_events (recovery_events (publication r) ++ [event]) (publication r)) r).

(** A turn that stopped without a tool call is not continued from its frontier. *)
Definition close_turn (q : Z) (calls : Z) (reason : FinishReason) : M unit :=
  r ← request q;
  match lane r with
  | Some l =>
      if (calls =? 0) && (bool_decide (reason = StopToken) || bool_decide (reason = StopString))
      then total (mark_turn_closed l) else mret tt
  | None => mret tt
  end.

Definition complete_success (q : Z) (reason : FinishReason) : M unit :=
  r ← request q;
  (if negb (cycle_exclusions (recovery r) =? 0) || bool_decide (is_Some (recovery_cause (recovery r)))
   then publish_recovery q Finished else mret tt) ;;
  release_planning_state q ;;
  r ← request q;
  calls ← ask (tool_calls q);
  update_request q (fun r =>
    set_generated [] (set_content [] (set_reasoning [] (set_host_input false (set_prompt None r))))) ;;
  close_turn q calls reason ;;
  let outcome := MkResult (generated r) (content r) (reasoning r)
    (if bool_decide (reason = Cancelled) then 0 else calls) reason (begin_summary r) in
  retire_request q ;;
  publish_outcome q (set_result (Some outcome)).

Definition append_text (r : Request) (d : OutputDelta) : Request :=
  match channel d with
  | Reasoning => set_reasoning (reasoning r ++ text d) r
  | Content => set_content (content r ++ text d) r
  end.

Definition append_output (q : Z) (output : list OutputDelta) : M unit :=
  if bool_decide (output = []) then mret tt
  else
    update_request q (fun r => foldl append_text r output) ;;
    r ← request q;
    match delivery (options r) with
    | TerminalOnly => mret tt
    | Streaming => lock ;; update_publication q (fun p => set_events (events p ++ output) p)
    end.

(** Closes the output session and publishes what it still holds. *)
Definition close_session (q : Z) : M unit :=
  terminal ← ask (session_terminal q);
  if terminal : bool then mret tt
  else call (preview_terminal q Cancelled) ;; output ← total (commit_preview q); append_output q output.

Definition complete_cancelled (q : Z) : M unit := close_session q ;; complete_success q Cancelled.

Definition remove_pending_error (q : Z) (e : exn) : M AdmissionProgress :=
  erased ← erase_pending q;
  if erased : bool then clear_protection_if_head q ;; complete_error q e ;; mret ControlProgress
  else mret ProgressNone.

(** ** Expiry *)

(** The loop over [pending_]: what stays, what was cancelled, what expired. *)
Fixpoint expire_scan (time : Z) (queue : list Z) : M (list Z * list Z * list Z) :=
  match queue with
  | [] => mret ([], [], [])
  | q :: queue =>
      gone ← total (cancelled q);
      r ← request q;
      '(keep, dropped, expired) ← expire_scan time queue;
      if gone : bool then mret (keep, q :: dropped, expired)
      else if negb (cache_fallback r) && (deadline (options r) <=? time) then mret (keep, dropped, q :: expired)
      else mret (q :: keep, dropped, expired)
  end.

Definition expire_pending_requests : M bool :=
  lock ;;
  time ← total now;
  x ← exec;
  '(keep, dropped, expired) ← expire_scan time (pending x);
  modify (fun x => publish_waiting (set_pending keep x)) ;;
  x ← exec;
  match protection x with
  | Some p =>
      if bool_decide (head_request_id p ∈ dropped ++ expired) then modify (set_protection None) else mret tt
  | None => mret tt
  end ;;
  for_each dropped complete_cancelled ;;
  for_each expired (fun q => complete_error q (request_error QueueTimeout)) ;;
  mret (negb (bool_decide (keep = []))).

(** ** Copy holds *)
Definition update_hold (f : CopyHold -> CopyHold) : M unit :=
  modify (fun x => set_copy_hold (f <$> copy_hold x) x).

(** Settles the copies of the hold and gives its host claims back; a failed
    restore also drops its source. *)
Definition release_copy_hold_host : M unit :=
  run_secondary_cleanup (call cancel_disk_restore) ;;
  run_secondary_cleanup (call synchronize_all) ;;
  run_secondary_cleanup (call harvest_kv_copy_times) ;;
  x ← exec;
  match copy_hold x with
  | None => mret tt
  | Some h =>
      (if ram_claimed h && negb (ram_consumed h) then
         run_secondary_cleanup (call (release_ram_entry (hold_ram_entry_id h))) ;;
         update_hold (set_ram_claimed false)
       else mret tt) ;;
      (if restore_failed h && discard_failed_source h && ram_hit h && negb (ram_consumed h) then
         run_secondary_cleanup (call (discard_ram_capture (hold_ram_entry_id h)))
       else mret tt) ;;
      (if disk_claimed h && negb (disk_consumed h) then
         run_secondary_cleanup (call (release_disk_entry (hold_disk_entry_id h))) ;;
         update_hold (set_disk_claimed false)
       else mret tt) ;;
      (if restore_failed h && discard_failed_source h && disk_hit h && negb (disk_consumed h) then
         run_secondary_cleanup (call (invalidate_disk_entry (hold_disk_entry_id h)))
       else mret tt)
  end.

Definition evict_victims (victims : list nat) : M unit :=
  for_each victims (fun v => total (evict_retained_lane v) ;; invalidate_lane_plans v).

Definition evict_copy_hold_victims : M unit :=
  x ← exec;
  match copy_hold x with
  | Some h =>
      if victims_evicted h then mret tt
      else run_secondary_cleanup (evict_victims (victim_lanes h)) ;; update_hold (set_victims_evicted true)
  | None => mret tt
  end.

Definition drain_copy_hold_before_abort : M unit :=
  x ← exec;
  match copy_hold x with
  | None => mret tt
  | Some h =>
      release_copy_hold_host ;;
      evict_copy_hold_victims ;;
      total (abort_lane (hold_lane h)) ;;
      modify (set_copy_hold None)
  end.

Definition is_request_local_error (e : exn) : bool :=
  match e with request_error _ | cache_restore_failure _ => true | _ => false end.

Definition is_cache_restore_failure (e : exn) : bool :=
  match e with cache_restore_failure _ => true | _ => false end.

(** A request that owns a lane failed.  Returns whether the engine continues. *)
Definition fail_admitted_request (q : Z) (l : nat) (e : exn) : M bool :=
  x ← exec;
  (if bool_decide (hold_request <$> copy_hold x = Some q) then drain_copy_hold_before_abort else mret tt) ;;
  total (abort_lane l) ;;
  release_prefill l ;;
  x ← exec;
  (if bool_decide (slots x l = Some q) then remove_completed_slot l else mret tt) ;;
  update_request q (fun r => set_decode_ready false (set_recovery (set_recovery_pending false (recovery r)) r)) ;;
  complete_error q e ;;
  mret (is_request_local_error e).

End Core.
