(* ===== verification/ExecPlanning.v ===== *)
(** * The executor: plans, lanes and membership

    The parts of concurrent_executor.h that only choose: the cached plans of a
    waiting request, the lane an admission takes ([find_fork_lane],
    [find_admission_lane]), who decodes in a round, what the admission policy
    sees, and which tokens are excluded from sampling. *)

From stdpp Require Import prelude functions list list_numbers sorting gmap.
From Stdlib Require Import ZArith Lia.
From S2P Require Import Prelude Admission Capacity GenerationGuards ExecState ExecCore.
#[local] Open Scope Z_scope.

(** [struct LaneChoice] *)
Record LaneChoice : Type := MkChoice {
  choice_lane : nat;
  evict_retained : bool;
  choice_ram_entry_id : Z;
  choice_disk_entry_id : Z;
  choice_fork_source : option nat;
  preserve_source : bool;
  protected_lanes : nat -> bool;
}.

Definition set_evict_retained (v : bool) (c : LaneChoice) : LaneChoice :=
  MkChoice (choice_lane c) v (choice_ram_entry_id c) (choice_disk_entry_id c) (choice_fork_source c)
    (preserve_source c) (protected_lanes c).
Definition set_choice_ram_entry_id (v : Z) (c : LaneChoice) : LaneChoice :=
  MkChoice (choice_lane c) (evict_retained c) v (choice_disk_entry_id c) (choice_fork_source c)
    (preserve_source c) (protected_lanes c).
Definition protect (l : nat) (c : LaneChoice) : LaneChoice :=
  MkChoice (choice_lane c) (evict_retained c) (choice_ram_entry_id c) (choice_disk_entry_id c) (choice_fork_source c)
    (preserve_source c) (<[l := true]> (protected_lanes c)).

Definition no_lanes : nat -> bool := fun _ => false.

Section Planning.
Context {I : Instance} {Opt : EngineOptions}.

(** ** Plan caches *)
Definition update_planning (q : Z) (f : Planning -> Planning) : M unit :=
  update_request q (fun r => set_planning (f (planning r)) r).

Definition execution_options (r : Request) : ExecutionOptions :=
  MkExecution None (force_cold_prefill r) (suppressed_token_ids r).

(** [std::optional::value()]: [bad_optional_access] is represented by [logic_error]. *)
Definition value {A} (o : option A) : M A := match o with Some a => mret a | None => throw logic_error end.

(** [PreparedPromptAccess::view] *)
Definition view_prompt (p : option Prompt) : M Prompt :=
  match p with Some p => mret p | None => throw invalid_argument end.

Definition ensure_base_plan (q : Z) : M unit :=
  r ← request q;
  (match base_plan (planning r) with
   | Some _ => mret tt
   | None =>
       p ← view_prompt (prompt r);
       base ← call (plan_request_base q p (execution_options r));
       update_planning q (set_base_plan (Some base))
   end) ;;
  r ← request q;
  base ← deref (base_plan (planning r));
  st_throw_if (negb (active_lanes (admission (base_summary base)) =? 1)
               || (service_work_quanta (base_summary base) =? 0)) logic_error.

Definition ensure_lane_plan (q : Z) (l : nat) : M unit :=
  x ← exec;
  let p := planning (requests x q) in
  if bool_decide (is_Some (slots x l)) then mret tt
  else if (lane_plan_versions p l =? plan_versions x l) && bool_decide (is_Some (lane_plans p !! l)) then mret tt
  else
    update_planning q (fun p => set_lane_plans (delete l (lane_plans p)) p) ;;
    input ← view_prompt (prompt (requests x q));
    base ← deref (base_plan p);
    plan ← call (plan_request_for_lane l input base);
    update_planning q (fun p =>
      set_lane_plan_versions (<[l := plan_versions x l]> (lane_plan_versions p))
        (set_lane_plans (<[l := plan]> (lane_plans p)) p)).

(** Running out of host memory while looking up an optional tier is no plan. *)
Definition optional_host_reuse_plan (lookup : M Plan) : M (option Plan) :=
  try_catch (plan ← lookup; mret (Some plan))
    (fun e => match e with bad_alloc => mret None | e => throw e end).

Definition ram_plan_usable (plan : Plan) : bool :=
  (0 <? reusable_prompt_tokens (summary plan)) && negb (ram_entry_id (summary plan) =? 0)
  && bool_decide (reuse_source (summary plan) = HostRam).

Definition disk_plan_usable (plan : Plan) : bool :=
  (0 <? reusable_prompt_tokens (summary plan)) && negb (disk_entry_id (summary plan) =? 0)
  && bool_decide (reuse_source (summary plan) = HostDisk).

(** Keeps a plan that passes a test. *)
Definition plan_if (usable : Plan -> bool) (plan : option Plan) : option Plan :=
  match plan with Some p => if usable p then Some p else None | None => None end.

Definition ensure_ram_candidate (q : Z) : M unit :=
  r ← request q;
  if negb (allow_prefix_reuse (options r)) then update_planning q (set_ram_plan None)
  else
    version ← total kv_ram_index_version;
    if ram_index_version (planning r) =? version then mret tt
    else
      update_planning q (set_ram_plan None) ;;
      plan ← optional_host_reuse_plan
        (input ← view_prompt (prompt r); base ← deref (base_plan (planning r)); call (plan_ram_reuse input base));
      update_planning q (fun p => set_ram_index_version version (set_ram_plan (plan_if ram_plan_usable plan) p)).

Definition ensure_disk_candidate (q : Z) : M unit :=
  r ← request q;
  if negb (allow_prefix_reuse (options r)) then update_planning q (set_disk_plan None)
  else
    version ← total kv_disk_index_version;
    if disk_index_version (planning r) =? version then mret tt
    else
      update_planning q (set_disk_plan None) ;;
      plan ← optional_host_reuse_plan
        (input ← view_prompt (prompt r); base ← deref (base_plan (planning r)); call (plan_disk_reuse input base));
      update_planning q (fun p => set_disk_index_version version (set_disk_plan (plan_if disk_plan_usable plan) p)).

(** ** The lane of a disposable request

    [consider] of [find_fork_lane], over the choice made so far with its reuse and
    rank.  The queries are constant, so the whole selection is a function of the
    slots, the plans and the state of the program. *)
Definition Ranked : Type := option (LaneChoice * Z * nat).

Definition retained_victims (slot : nat -> option Z) (c : LaneChoice) (e : Env) : list nat :=
  filter (fun other => other ≠ choice_lane c /\ slot other = None /\ protected_lanes c other = false /\
                       has_retained_lane other e = true) lanes.

Definition consider (slot : nat -> option Z) (e : Env) (selected : Ranked) (candidate : LaneChoice * Plan * nat) : Ranked :=
  let '(choice, plan, rank) := candidate in
  let choice := match choice_fork_source choice with Some s => protect s choice | None => choice end in
  if negb (can_admit_lane_after_releasing (choice_lane choice) plan (retained_victims slot choice e) e) then selected
  else
    let choice := set_evict_retained (negb (can_admit_lane (choice_lane choice) plan e)) choice in
    let reuse := reusable_prompt_tokens (summary plan) in
    let taken := Some (choice, reuse, rank) in
    match selected with
    | None => taken
    | Some (best, best_reuse, best_rank) =>
        if (reuse <? best_reuse) || ((reuse =? best_reuse) && (best_rank <? rank)%nat) then selected
        else if (reuse =? best_reuse) && (rank =? best_rank)%nat then
          let dirty := has_retained_lane (choice_lane choice) e in
          let best_dirty := has_retained_lane (choice_lane best) e in
          if dirty && negb best_dirty then selected
          else if Bool.eqb dirty best_dirty && negb (retained_lane_precedes (choice_lane choice) (choice_lane best) e)
          then selected
          else taken
        else taken
    end.

(** The calls of [consider], in order. *)
Definition fork_candidates (slot : nat -> option Z) (r : Request) (keep : nat -> bool) (e : Env)
    : list (LaneChoice * Plan * nat) :=
  let free := filter (fun l => slot l = None) lanes in
  let choose l := MkChoice l false 0 0 None false no_lanes in
  mjoin ((fun source =>
    match lane_plans (planning r) !! source with
    | Some plan =>
        if keep source then
          ((fun destination => (MkChoice destination false 0 0 (Some source) false no_lanes, plan, 0%nat))
             <$> filter (fun destination => destination ≠ source) free)
          ++ (if negb (preservation_unavailable (preservation r) source) && retained_lane_cache_writable source e
              then [(MkChoice source false 0 0 (Some source) true no_lanes, plan, 3%nat)] else [])
        else []
    | None => []
    end) <$> lanes)
  ++ mjoin ((fun destination =>
    match ram_plan (planning r) with
    | Some plan => [(MkChoice destination false (ram_entry_id (summary plan)) 0 None false no_lanes, plan, 1%nat)]
    | None => []
    end
    ++ match disk_plan (planning r) with
       | Some plan => [(MkChoice destination false 0 (disk_entry_id (summary plan)) None false no_lanes, plan, 2%nat)]
       | None => []
       end
    ++ match lane_plans (planning r) !! destination with
       | Some plan =>
           if keep destination then []
           else [(MkChoice destination false 0 0 None false keep, plan, 4%nat)]
       | None => []
       end) <$> free).

(** The first loop: plans every free lane, forgets outdated failures to
    preserve, and marks the lanes the request could reuse. *)
Fixpoint protect_sources (q : Z) (l : list nat) (keep : nat -> bool) (any_active : bool) : M ((nat -> bool) * bool) :=
  match l with
  | [] => mret (keep, any_active)
  | l :: rest =>
      x ← exec;
      if bool_decide (is_Some (slots x l)) then protect_sources q rest keep true
      else
        ensure_lane_plan q l ;;
        version ← total kv_ram_index_version;
        x ← exec;
        let p := preservation (requests x q) in
        (if negb (preservation_ram_versions p l =? version) || negb (preservation_lane_versions p l =? plan_versions x l)
         then update_request q (fun r =>
                let p := preservation r in
                set_preservation (MkPreservation (<[l := false]> (preservation_unavailable p))
                  (preservation_ram_versions p) (preservation_lane_versions p)) r)
         else mret tt) ;;
        r ← request q;
        plan ← value (lane_plans (planning r) !! l);
        protect_sources q rest (<[l := negb (reusable_prompt_tokens (summary plan) =? 0)]> keep) any_active
  end.

Definition find_fork_lane (q : Z) : M (option LaneChoice) :=
  '(keep, any_active) ← protect_sources q lanes no_lanes false;
  ensure_ram_candidate q ;;
  ensure_disk_candidate q ;;
  x ← exec;
  selected ← ask (fun e => foldl (consider (slots x) e) None (fork_candidates (slots x) (requests x q) keep e));
  match selected with
  | Some (choice, _, _) => mret (Some choice)
  | None => if any_active : bool then mret None else throw (request_error Overloaded)
  end.

(** ** The lane of an ordinary request *)
Definition Selected : Type := option (LaneChoice * Z * bool).

Definition consider_vram (e : Env) (l : nat) (reuse : Z) (evict : bool) (selected : Selected) : Selected :=
  let dirty := has_retained_lane l e in
  let taken := Some (MkChoice l evict 0 0 None false no_lanes, reuse, dirty) in
  match selected with
  | None => taken
  | Some (best, best_reuse, best_dirty) =>
      if reuse <? best_reuse then selected
      else if reuse =? best_reuse then
        if negb best_dirty then selected
        else if dirty && negb (retained_lane_precedes l (choice_lane best) e) then selected
        else taken
      else taken
  end.

Definition consider_host (e : Env) (reuse ram_id disk_id : Z) (l : option nat) (evict : bool) (selected : Selected)
    : Selected :=
  match l with
  | None => selected
  | Some l =>
      let taken := Some (MkChoice l evict ram_id disk_id None false no_lanes, reuse, has_retained_lane l e) in
      if reuse =? 0 then selected
      else
        match selected with
        | Some (_, best_reuse, _) => if reuse <=? best_reuse then selected else taken
        | None => taken
        end
  end.

Fixpoint first_host_lane (slot : nat -> option Z) (e : Env) (plan : Plan) (after_eviction : bool)
    (dirty : option nat) (l : list nat) : option nat :=
  match l with
  | [] => dirty
  | l :: rest =>
      let feasible := if after_eviction then can_admit_lane_after_retained_eviction l plan e else can_admit_lane l plan e in
      if bool_decide (is_Some (slot l)) || negb feasible then first_host_lane slot e plan after_eviction dirty rest
      else if negb (has_retained_lane l e) then Some l
      else
        match dirty with
        | Some d => first_host_lane slot e plan after_eviction (if retained_lane_precedes l d e then Some l else dirty) rest
        | None => first_host_lane slot e plan after_eviction (Some l) rest
        end
  end.

(** One pass over the lanes, without or with the eviction of retained lanes. *)
Fixpoint vram_pass (q : Z) (evict : bool) (l : list nat) (selected : Selected) : M Selected :=
  match l with
  | [] => mret selected
  | l :: rest =>
      x ← exec;
      if bool_decide (is_Some (slots x l)) then vram_pass q evict rest selected
      else
        ensure_lane_plan q l ;;
        r ← request q;
        plan ← value (lane_plans (planning r) !! l);
        feasible ← ask (fun e => if evict then can_admit_lane_after_retained_eviction l plan e else can_admit_lane l plan e);
        selected ← (if feasible : bool then ask (fun e => consider_vram e l (reusable_prompt_tokens (summary plan)) evict selected)
                    else mret selected);
        vram_pass q evict rest selected
  end.

Definition host_pass (q : Z) (evict : bool) (selected : Selected) : M Selected :=
  x ← exec;
  let p := planning (requests x q) in
  let first plan e := first_host_lane (slots x) e plan evict None lanes in
  selected ← match ram_plan p with
             | Some plan =>
                 if 0 <? reusable_prompt_tokens (summary plan)
                 then ask (fun e => consider_host e (reusable_prompt_tokens (summary plan)) (ram_entry_id (summary plan)) 0
                                      (first plan e) evict selected)
                 else mret selected
             | None => mret selected
             end;
  match disk_plan p with
  | Some plan =>
      if 0 <? reusable_prompt_tokens (summary plan)
      then ask (fun e => consider_host e (reusable_prompt_tokens (summary plan)) 0 (disk_entry_id (summary plan))
                           (first plan e) evict selected)
      else mret selected
  | None => mret selected
  end.

(** Whether some free lane can take the request at all. *)
Fixpoint lane_feasible (q : Z) (l : list nat) : M bool :=
  match l with
  | [] => mret false
  | l :: rest =>
      x ← exec;
      if bool_decide (is_Some (slots x l)) then lane_feasible q rest
      else
        ensure_lane_plan q l ;;
        r ← request q;
        plan ← value (lane_plans (planning r) !! l);
        feasible ← ask (fun e => can_admit_lane l plan e || can_admit_lane_after_retained_eviction l plan e);
        if feasible : bool then mret true else lane_feasible q rest
  end.

Definition find_admission_lane (q : Z) : M (option LaneChoice) :=
  r ← request q;
  if negb (cache_write (options r)) then find_fork_lane q
  else
    feasible ← lane_feasible q lanes;
    if negb feasible then mret None
    else
      ensure_ram_candidate q ;;
      ensure_disk_candidate q ;;
      selected ← vram_pass q false lanes None;
      selected ← host_pass q false selected;
      match selected with
      | Some (choice, _, _) => mret (Some choice)
      | None =>
          selected ← vram_pass q true lanes None;
          selected ← host_pass q true selected;
          mret (match selected with Some (choice, _, _) => Some choice | None => None end)
      end.

(** ** Membership, pace and accounting *)
Fixpoint membership_of (x : Executor) (l : list nat) : res (list (nat * Z)) :=
  match l with
  | [] => Ok []
  | l :: rest =>
      match slots x l with
      | Some q =>
          let r := requests x q in
          if decode_ready r then
            match budget r with
            | Some b => members ← membership_of x rest; Ok ((l, budget_remaining b) :: members)
            | None => Throw logic_error
            end
          else membership_of x rest
      | None => membership_of x rest
      end
  end.

Definition build_round_membership : M (list (nat * Z)) := x ← exec; lift (membership_of x lanes).

Definition membership_contains (members : list (nat * Z)) (l : nat) : bool := bool_decide (l ∈ members.*1).

Definition prefill_pace (remaining_tokens : Z) : M PrefillPace :=
  x ← exec;
  mret (if negb shared_prefill || (remaining_tokens <? mixed_forward_min_tokens) then Exclusive
        else if existsb (fun l => match slots x l with Some q => decode_ready (requests x q) | None => false end)
                  (seq 0 kMaximumConcurrency)
        then Shared else Exclusive).

Fixpoint active_set (x : Executor) (l : list nat) : res (list ActiveAdmissionSnapshot) :=
  match l with
  | [] => Ok []
  | l :: rest =>
      match slots x l with
      | Some q =>
          let r := requests x q in
          throw_if ((active_lanes (admission_resources r) =? 0) || (remaining_service_work r =? 0)) logic_error ;;
          active ← active_set x rest;
          Ok (MkSnapshot q (admission_resources r) (remaining_service_work r) (request_backfill_epoch r)
                (request_backfill_class r) :: active)
      | None => active_set x rest
      end
  end.

Definition active_admission_set : M (list ActiveAdmissionSnapshot) := x ← exec; lift (active_set x lanes).

Definition consume_service_work (q : Z) (work : Z) : M unit :=
  r ← request q;
  st_throw_if ((work =? 0) || (remaining_service_work r <? work)) logic_error ;;
  update_request q (fun r => set_remaining_service_work (remaining_service_work r - work) r).

(** ** Tokens excluded from sampling *)
Definition kMaximumSuppressedTokens : nat := 4.

(** [configure_output_suppression], given the session's reasoning-end token. *)
Definition suppression (end_token : option Z) (suppress_model_stops : bool) : res (list Z) :=
  let tokens := (if suppress_model_stops then default_stop_token_ids else []) ++ option_list end_token in
  throw_if (kMaximumSuppressedTokens <? length tokens)%nat logic_error ;; Ok tokens.

(** The append that finds the array full throws after the earlier ones were stored. *)
Definition configure_output_suppression (q : Z) (suppress_model_stops : bool) : M (list Z) :=
  end_token ← ask (suppressed_reasoning_end_token q);
  match suppression end_token suppress_model_stops with
  | Ok tokens => update_request q (set_suppressed_token_ids tokens) ;; mret tokens
  | Throw e =>
      update_request q (set_suppressed_token_ids
        (take kMaximumSuppressedTokens ((if suppress_model_stops then default_stop_token_ids else []) ++ option_list end_token))) ;;
      throw e
  end.

Definition enable_stop_suppression (q : Z) (l : nat) : M unit :=
  r ← request q;
  if stop_suppression_active r then mret tt
  else
    tokens ← configure_output_suppression q true;
    call (set_suppressed_tokens_lane l tokens) ;;
    update_request q (set_stop_suppression_active true).

Definition synchronize_stop_suppression (q : Z) (l : nat) : M unit :=
  r ← request q;
  allowed ← ask (model_stop_tokens_allowed q);
  update_request q (set_stop_suppression_active (negb allowed)) ;;
  tokens ← configure_output_suppression q (negb allowed);
  (if bool_decide (suppressed_token_ids r = tokens) then mret tt
   else if bool_decide (tokens = []) then call (clear_suppressed_tokens_lane l)
   else call (set_suppressed_tokens_lane l tokens)) ;;
  thinking ← ask (in_reasoning q);
  call (set_typical_cycle_reasoning_lane l (generation_recovery && thinking)).

End Planning.
