(* ===== verification/ExecRounds.v ===== *)
(** * The executor: prefill steps and decode rounds

    The parts of concurrent_executor.h that turn the tokens of a GPU step into
    output: resolving a prefill step or a decode round, finishing a generation or
    queueing its recovery, and cancelling an active lane.  Log probabilities are
    floats: their collection is an operation of the environment that may throw, and
    the textless deltas that only carry them are left out. *)

From stdpp Require Import prelude functions list list_numbers sorting gmap.
From Stdlib Require Import ZArith Lia.
From S2P Require Import Prelude Admission Capacity GenerationGuards ExecState ExecCore ExecPlanning.
#[local] Open Scope Z_scope.

Section Rounds.
Context {I : Instance} {Opt : EngineOptions}.

Definition update_recovery (q : Z) (f : Recovery -> Recovery) : M unit :=
  update_request q (fun r => set_recovery (f (recovery r)) r).

(** [budget->commit(tokens)] *)
Definition commit_budget (q : Z) (tokens : Z) : M unit :=
  r ← request q;
  b ← deref (budget r);
  match commit tokens b with
  | (Ok _, b) => update_request q (set_budget (Some b))
  | (Throw e, _) => throw e
  end.

(** ** Recovery of repetitive generation *)
Definition maximum_attempts : Z := 2.

Definition recovery_exhausted (q : Z) : M unit :=
  publish_recovery q Exhausted ;;
  r ← request q;
  l ← deref (lane r);
  total (abort_lane l) ;;
  release_prefill l ;;
  update_recovery q (set_recovery_pending false) ;;
  complete_error q (request_error RecoveryExhausted).

(** Retries a repetition, or gives up when no attempt or no token is left. *)
Definition retry_or_exhaust (q : Z) : M unit :=
  publish_recovery q RetryTriggered ;;
  r ← request q;
  b ← deref (budget r);
  if (maximum_attempts <=? attempts (recovery r)) || (budget_remaining b =? 0) then recovery_exhausted q
  else
    update_request q (fun r => set_decode_ready false (set_recovery (set_recovery_pending true (recovery r)) r)) ;;
    modify (fun x => signal_control (set_recovery_queue (recovery_queue x ++ [q]) x)).

Definition recover_persistent_reasoning (q : Z) : M bool :=
  r ← request q;
  thinking ← ask (in_reasoning q);
  if negb (recovery_context (options r)) || negb thinking || negb (bool_decide (content r = []))
     || negb (temperature_positive (options r)) then mret false
  else
    let current := drop (recovery_generated_begin (recovery r)) (generated r) in
    let '(found, cycle) := observe current (reasoning_cycle (recovery r)) in
    update_recovery q (set_reasoning_cycle cycle) ;;
    if negb found then mret false
    else
      tokens ← ask (reasoning_tokens q);
      update_recovery q (fun c =>
        set_recovery_cause (Some repeated_reasoning)
          (set_discarded_reasoning_tokens (wrap64 (discarded_reasoning_tokens c + tokens)) c)) ;;
      retry_or_exhaust q ;;
      mret true.

Definition finish_generation (q : Z) (reason : FinishReason) : M unit :=
  r ← request q;
  if negb (generation_recovery_allowed_at_finish reason (generated r) (caller_stop_token_ids (options r)))
  then complete_success q reason
  else
    recovered ← (if bool_decide (reason = OutputLimit) || bool_decide (reason = ContextCapacity)
                 then recover_persistent_reasoning q else mret false);
    if recovered : bool then mret tt
    else
      calls ← ask (tool_calls q);
      r ← request q;
      st_throw_if (length (reasoning r) <? recovery_reasoning_begin (recovery r))%nat out_of_range ;;
      repeated ← ask (repeats q (drop (recovery_reasoning_begin (recovery r)) (reasoning r)));
      if recovery_context (options r) && repeated then
        tokens ← ask (reasoning_tokens q);
        update_recovery q (fun c =>
          set_recovery_cause (Some duplicate_tool_call)
            (set_discarded_tool_calls (wrap32 (discarded_tool_calls c + calls))
              (set_discarded_reasoning_tokens (wrap64 (discarded_reasoning_tokens c + tokens)) c))) ;;
        retry_or_exhaust q
      else complete_success q reason.

(** ** Prefill *)
Definition logprobs_of (q : Z) (first_slot : nat) (tokens : list Z) : M unit :=
  r ← request q;
  if wants_logprobs (options r) && negb (bool_decide (tokens = []))
  then call (collect_token_logprobs q first_slot tokens) else mret tt.

(** The first token of a request.  Returns whether its generation ended. *)
Definition resolve_round (q : Z) (token : Z) (cancel_at_boundary : bool) : M bool :=
  r ← request q;
  l ← deref (lane r);
  if cancel_at_boundary then
    call (preview_terminal q Cancelled) ;;
    call (resolve_prefill_lane l true) ;;
    output ← total (commit_preview q);
    append_output q output ;;
    complete_success q Cancelled ;;
    mret true
  else
    b ← deref (budget r);
    decision ← call (preview q [token] (budget_remaining b) (limit_reason b));
    st_throw_if (reject_generated_round decision) logic_error ;;
    st_throw_if (negb (accepted_tokens decision =? 1)) logic_error ;;
    update_request q (fun r => set_generated (generated r ++ [token]) r) ;;
    call (resolve_prefill_lane l (finished decision)) ;;
    commit_budget q 1 ;;
    logprobs_of q 0 [token] ;;
    output ← total (commit_preview q);
    (if finished decision then mret tt else synchronize_stop_suppression q l) ;;
    append_output q output ;;
    if finished decision then finish_generation q (finish_reason decision) ;; mret true
    else mret false.

Definition resolve_prefill_step (q : Z) (step : PrefillStepResult) (cancel_at_boundary : bool) : M bool :=
  consume_service_work q 1 ;;
  (if host_input_consumed step || complete step then update_request q (set_host_input false) else mret tt) ;;
  r ← request q;
  if cancel_at_boundary then
    l ← value (lane r);
    release_prefill l ;;
    (if complete step then call (resolve_prefill_lane l true)
     else
       reverted ← call (revert_cancelled_prefill_lane l);
       if reverted : bool then mret tt else total (abort_lane l)) ;;
    complete_cancelled q ;;
    mret true
  else if negb (complete step) then
    x ← exec;
    (if negb (processed_prompt_tokens step =? 0) && bool_decide (suspended_prefill_lane x = None)
     then modify (set_prefill_interruptible true) else mret tt) ;;
    mret false
  else
    l ← value (lane r);
    release_prefill l ;;
    (if attempts (recovery r) =? 0 then update_request q (set_begin_summary (Some (step_summary step)))
     else publish_recovery q RetryPrefillComplete) ;;
    match step_tokens step with
    | [token] =>
        ended ← resolve_round q token false;
        (if ended : bool then mret tt else update_request q (set_decode_ready true)) ;;
        mret true
    | _ => throw logic_error
    end.

Definition run_prefill_step : M unit :=
  x ← exec;
  l ← value (prefill_lane x);
  q ← value (slots x l);
  r ← request q;
  st_throw_if (decode_ready r) logic_error ;;
  remaining ← call (prefill_remaining_tokens l);
  pace ← prefill_pace remaining;
  step ← call (advance_prefill_lane l pace);
  gone ← total (cancelled q);
  resolved ← resolve_prefill_step q step gone;
  if resolved : bool then publish_runtime_stats else mret tt.

(** ** Cancelling active lanes *)
Definition cancel_lane (l : nat) : M unit :=
  q ← slot_request l;
  x ← exec;
  (if bool_decide (hold_lane <$> copy_hold x = Some l) then drain_copy_hold_before_abort else mret tt) ;;
  r ← request q;
  kept ← (if decode_ready r then call (retain_reusable_lane l) else call (revert_cancelled_prefill_lane l));
  (if kept : bool then mret tt else total (abort_lane l)) ;;
  release_prefill l ;;
  complete_cancelled q.

Fixpoint snapshot_cancellations (l : list nat) : M (list nat) :=
  match l with
  | [] => mret []
  | l :: rest =>
      x ← exec;
      gone ← match slots x l with Some q => total (cancelled q) | None => mret false end;
      others ← snapshot_cancellations rest;
      mret (if gone : bool then l :: others else others)
  end.

(** [cancelled_at_boundary] as the list of the lanes it marks. *)
Definition cancel_active_requests (cancelled_at_boundary : list nat) : M unit :=
  for_each cancelled_at_boundary (fun l =>
    x ← exec;
    match slots x l with
    | None => mret tt
    | Some _ =>
        members ← (if bool_decide (hold_lane <$> copy_hold x = Some l) then build_round_membership else mret []);
        if negb (bool_decide (members = [])) then
          match copy_hold x with
          | Some h =>
              if cancel_pending h then mret tt
              else call begin_copy_hold_cancel ;; update_hold (set_cancel_pending true)
          | None => mret tt
          end
        else cancel_lane l
    end).

(** ** Decode *)

(** The first loop: members cancelled since the membership was built leave. *)
Fixpoint live_members (members : list (nat * Z)) : M (list (nat * Z)) :=
  match members with
  | [] => mret []
  | (l, b) :: members =>
      x ← exec;
      gone ← match slots x l with Some q => total (cancelled q) | None => mret false end;
      match slots x l with
      | Some q =>
          if gone : bool then
            (if bool_decide (hold_lane <$> copy_hold x = Some l) then drain_copy_hold_before_abort else mret tt) ;;
            kept ← call (retain_reusable_lane l);
            (if kept : bool then mret tt else total (abort_lane l)) ;;
            complete_cancelled q ;;
            live_members members
          else live ← live_members members; mret ((l, b) :: live)
      | None => live ← live_members members; mret ((l, b) :: live)
      end
  end.

Definition note_exclusion (q : Z) : M unit :=
  update_recovery q (fun c => set_cycle_exclusions (wrap32 (cycle_exclusions c + 1)) c) ;;
  r ← request q;
  let count := cycle_exclusions (recovery r) in
  if Z.land count (wrap32 (count - 1)) =? 0 then publish_recovery q CycleExclusion else mret tt.

Record Row : Type := MkRow {
  row_lane : nat;
  row_tokens : list Z;
  row_accepted : Z;
  row_terminal : bool;
  row_cancelled : bool;
  row_rejected : bool;
  row_reason : FinishReason;
}.

(** The tokens the round licensed for a row. *)
Definition licensed (round : BatchedGeneratedRound) (row : nat) : list Z :=
  let count := match row_counts round with [] => 1 | counts => nth row counts 0 end in
  take (Z.to_nat count) (drop (row * Z.to_nat (row_stride round)) (round_tokens round)).

Definition licensed_count (round : BatchedGeneratedRound) (row : nat) : Z :=
  match row_counts round with [] => 1 | counts => nth row counts 0 end.

Definition preview_row (round : BatchedGeneratedRound) (row : nat) (l : nat) (gone : bool) : M Row :=
  q ← slot_request l;
  let count := licensed_count round row in
  st_throw_if ((count =? 0) || (row_stride round <? count)) logic_error ;;
  let tokens := licensed round row in
  if gone then
    call (preview_terminal q Cancelled) ;;
    mret (MkRow l tokens 0 true true false Cancelled)
  else
    r ← request q;
    b ← deref (budget r);
    decision ← call (preview q tokens (budget_remaining b) (limit_reason b));
    (if reject_generated_round decision then
       st_throw_if (negb (accepted_tokens decision =? 0) || finished decision) logic_error ;;
       st_throw_if (stop_suppression_active r) logic_error ;;
       enable_stop_suppression q l
     else
       st_throw_if ((accepted_tokens decision =? 0) || (count <? accepted_tokens decision)) logic_error) ;;
    mret (MkRow l tokens (accepted_tokens decision) (finished decision) false
            (reject_generated_round decision) (finish_reason decision)).

Fixpoint preview_rows (round : BatchedGeneratedRound) (row : nat) (rows : list (nat * bool)) : M (list Row) :=
  match rows with
  | [] => mret []
  | (l, gone) :: rows =>
      first ← preview_row round row l gone;
      others ← preview_rows round (S row) rows;
      mret (first :: others)
  end.

Definition commit_row (stride : Z) (row : nat) (o : Row) : M unit :=
  q ← slot_request (row_lane o);
  if row_rejected o then total (discard_preview q)
  else
    (if row_cancelled o then mret tt
     else
       let tokens := take (Z.to_nat (row_accepted o)) (row_tokens o) in
       update_request q (fun r => set_generated (generated r ++ tokens) r) ;;
       commit_budget q (row_accepted o) ;;
       consume_service_work q (row_accepted o) ;;
       logprobs_of q (row * Z.to_nat stride) tokens) ;;
    output ← total (commit_preview q);
    (if row_terminal o then mret tt else synchronize_stop_suppression q (row_lane o)) ;;
    append_output q output ;;
    if row_terminal o then finish_generation q (row_reason o)
    else recover_persistent_reasoning q ;; mret tt.

Fixpoint commit_rows (stride : Z) (row : nat) (rows : list Row) : M unit :=
  match rows with
  | [] => mret tt
  | o :: rows => commit_row stride row o ;; commit_rows stride (S row) rows
  end.

Fixpoint load_cancellations (l : list nat) : M (list bool) :=
  match l with
  | [] => mret []
  | l :: rest =>
      q ← slot_request l;
      gone ← total (cancelled q);
      others ← load_cancellations rest;
      mret (gone :: others)
  end.

(** The members whose root selection excluded a cycle. *)
Fixpoint note_exclusions (round : BatchedGeneratedRound) (row : nat) (l : list nat) : M unit :=
  match l with
  | [] => mret tt
  | l :: rest =>
      (if cycle_exclusion_rows round row then q ← slot_request l; note_exclusion q else mret tt) ;;
      note_exclusions round (S row) rest
  end.

(** What follows the forward pass: the rows resolve, and the owner's prefill step. *)
Definition finish_round (round : BatchedGeneratedRound) (live : list (nat * Z)) (owner_step : option (nat * PrefillStepResult)) : M unit :=
  note_exclusions round 0 live.*1 ;;
  gone ← load_cancellations live.*1;
  st_throw_if ((row_stride round =? 0)
    || (negb (bool_decide (row_counts round = [])) && negb (length (row_counts round) =? length live)%nat)
    || (Z.of_nat (length (round_tokens round)) <? row_stride round * Z.of_nat (length live))) logic_error ;;
  rows ← preview_rows round 0 (zip live.*1 gone);
  call (resolve_pending_batch live.*1 (row_accepted <$> rows) (row_terminal <$> rows) (row_cancelled <$> rows)
          (row_rejected <$> rows)) ;;
  commit_rows (row_stride round) 0 rows ;;
  match owner_step with
  | Some (o, step) =>
      q ← slot_request o;
      gone ← total (cancelled q);
      resolved ← resolve_prefill_step q step gone;
      if resolved : bool then publish_runtime_stats else mret tt
  | None => mret tt
  end.

Definition run_decode_round (members : list (nat * Z)) (owner : option nat) : M unit :=
  live ← live_members members;
  if bool_decide (live = []) then
    match owner with Some _ => run_prefill_step | None => mret tt end
  else
    '(round, owner_step) ←
      match owner with
      | Some o => '(round, step) ← call (decode_batch_with_prefill live.*1 live.*2 o); mret (round, Some (o, step))
      | None => round ← call (decode_batch live.*1 live.*2); mret (round, None)
      end;
    finish_round round live owner_step.

End Rounds.
