(* ===== verification/ExecAdmit.v ===== *)
(** * The executor: admission and recovery

    The parts of concurrent_executor.h that put a request on a lane: the retry of a
    repetitive generation, the copy-hold of an admission and its completion, the
    admission of a planned request, the scan of the queue under the admission
    policy, and the interruption of a long prefill. *)

From stdpp Require Import prelude functions list list_numbers sorting gmap.
From Stdlib Require Import ZArith Lia.
From S2P Require Import Prelude Admission Capacity GenerationGuards ExecState ExecCore ExecPlanning ExecRounds.
#[local] Open Scope Z_scope.

(** ** generation_recovery.cpp: the route of a retry *)
Inductive RecoveryPrefillRoute : Type := ResidentSuffix | RouteHostRam | RouteHostDisk | Cold | Exhaust.

#[export] Instance RecoveryPrefillRoute_eq_dec : EqDecision RecoveryPrefillRoute.
Proof. solve_decision. Defined.

Record RecoveryPrefillInput : Type := MkRoute {
  splice_accepted : bool;
  route_allow_prefix_reuse : bool;
  route_force_cold : bool;
  lane_retained : bool;
  resident_reusable_tokens : Z;
  route_can_admit_lane : bool;
  output_budget_preserved : bool;
  pages_fit : bool;
  ram_reusable_tokens : Z;
  disk_reusable_tokens : Z;
}.

Definition route_recovery_prefill (i : RecoveryPrefillInput) : RecoveryPrefillRoute :=
  if negb (splice_accepted i) then Exhaust
  else if negb (output_budget_preserved i) || negb (pages_fit i) then Exhaust
  else if route_force_cold i || negb (route_allow_prefix_reuse i) then Cold
  else if lane_retained i && (0 <? resident_reusable_tokens i) then
    if negb (route_can_admit_lane i) then Exhaust else ResidentSuffix
  else
    let ram := ram_reusable_tokens i in
    let disk := disk_reusable_tokens i in
    if (ram =? 0) && (disk =? 0) then Cold else if ram <? disk then RouteHostDisk else RouteHostRam.

Definition recovery_output_budget_preserved (spliced capacity remaining : Z) : bool :=
  if capacity <? spliced then false else remaining <=? capacity - spliced + 1.

Definition recovery_splice_prefix (resident original : list Z) : list Z :=
  match resident with [] => original | _ => resident end.

Section Admit.
Context {I : Instance} {Opt : EngineOptions}.

(** ** Starting a prefill *)
Definition activate_memory (n alignment : Z) : M unit := fun s =>
  let '(r, m) := activate n alignment (request_memory s.1) in (r, (set_request_memory m s.1, s.2)).

(** [std::move(request->prompt)] into [PreparedPromptAccess::take]. *)
Definition take_prompt (q : Z) : M Prompt :=
  r ← request q;
  match prompt r with
  | Some p => update_request q (set_prompt None) ;; mret p
  | None => throw invalid_argument
  end.

(** The uncached suffix of a plan, as a 32-bit difference. *)
Definition suffix_tokens (s : RequestPlanSummary) : Z := wrap32 (prompt_tokens s - reusable_prompt_tokens s).

Definition release_recovery_lane (l : nat) : M unit := total (abort_lane l) ;; release_prefill l.

(** The step that makes [l] the owner of the staged prefill. *)
Definition own_prefill (l : nat) (s : RequestPlanSummary) : M unit :=
  activate_memory (transient_bytes s) (transient_alignment s) ;;
  modify (fun x => set_decode_rounds_since_prefill 0 (set_prefill_lane (Some l) x)).

Definition begin_recovery_prefill (q : Z) (l : nat) (plan : Plan) : M PrefillStepResult :=
  own_prefill l (summary plan) ;;
  pace ← prefill_pace (suffix_tokens (summary plan));
  x ← exec;
  input ← take_prompt q;
  call (start_prefill_lane l input plan (transient_region (request_memory x)) pace).

Definition resolve_recovery_prefill (q : Z) (first : PrefillStepResult) : M unit :=
  gone ← total (cancelled q);
  resolve_prefill_step q first gone ;;
  publish_runtime_stats.

Definition recovery_cold_prefill (q : Z) (l : nat) (base : BasePlan) : M unit :=
  release_recovery_lane l ;;
  r ← request q;
  input ← view_prompt (prompt r);
  plan ← call (plan_request_for_lane l input base);
  first ← begin_recovery_prefill q l plan;
  resolve_recovery_prefill q first.

(** ** Completing a copy-hold

    [admit_complete], [finish_failed_restore] and [hold_recovery_restore] call each
    other: a retry whose host plan was stale plans once more and holds again.  The
    mutual recursion is open here, over the [resume] of the next hold, and closed
    below. *)
Section Open.
Context (resume : bool -> M AdmissionProgress).

Definition hold_recovery_restore (q : Z) (l : nat) (ram : bool) (plan : Plan) (base : BasePlan) (stale_retries : Z)
    : M bool :=
  let s := summary plan in
  claimed ← (if ram then call (claim_ram_entry (ram_entry_id s)) ;; mret true
             else
               claimed ← call (claim_disk_entry s);
               if claimed : bool then
                 try_catch (call (prefetch_disk_plan (disk_entry_id s) plan))
                   (fun e => run_secondary_cleanup (call (release_disk_entry (disk_entry_id s))) ;; throw e) ;;
                 mret true
               else mret false);
  if negb claimed then mret false
  else
    modify (set_copy_hold (Some (MkHold q l plan None 0 ram (if ram then ram_entry_id s else 0) ram false
      (negb ram) (if ram then 0 else disk_entry_id s) (negb ram) false [] true false
      (reusable_prompt_tokens s <? prompt_tokens s) (Some base) stale_retries false false true false))) ;;
    members ← build_round_membership;
    (if bool_decide (members = []) then resume true ;; mret tt else mret tt) ;;
    mret true.

(** What a host plan of a retry is worth. *)
Definition host_tokens (plan : option Plan) (ram : bool) : Z :=
  match plan with
  | Some plan =>
      let s := summary plan in
      if bool_decide (reuse_source s = if ram then HostRam else HostDisk)
         && negb ((if ram then ram_entry_id s else disk_entry_id s) =? 0)
      then reusable_prompt_tokens s else 0
  | None => 0
  end.

(** [queue_order] decides the position: [std::lower_bound] on a sorted queue. *)
Fixpoint insert_by_order (order : Z -> Z) (q : Z) (queue : list Z) : list Z :=
  match queue with
  | [] => [q]
  | y :: rest => if order y <? order q then y :: insert_by_order order q rest else q :: queue
  end.

(** A retry keeps its lane: it looks up the host tiers once more if the plan was
    stale, and else computes the prompt. *)
Definition retry_failed_restore (q : Z) (l : nat) (base : BasePlan) (replan : bool) : M AdmissionProgress :=
  held ← (if replan then
            release_recovery_lane l ;;
            r ← request q;
            from_ram ← optional_host_reuse_plan (input ← view_prompt (prompt r); call (plan_ram_reuse input base));
            from_disk ← optional_host_reuse_plan (input ← view_prompt (prompt r); call (plan_disk_reuse input base));
            let ram_tokens := host_tokens from_ram true in
            let disk_tokens := host_tokens from_disk false in
            let ram := disk_tokens <=? ram_tokens in
            if negb (ram_tokens =? 0) || negb (disk_tokens =? 0) then
              plan ← value (if ram then from_ram else from_disk);
              hold_recovery_restore q l ram plan base 1
            else mret false
          else mret false);
  if held : bool then mret CopyHolding else recovery_cold_prefill q l base ;; mret RanGpuUnit.

(** A new request returns to its place in the queue. *)
Definition requeue_failed_restore (q : Z) (l : nat) (replan : bool) : M AdmissionProgress :=
  lock ;;
  modify (fun x => publish_waiting
    (set_pending (insert_by_order (fun p => queue_order (requests x p)) q (pending x)) x)) ;;
  total (abort_lane l) ;;
  modify (set_copy_hold None) ;;
  remove_completed_slot l ;;
  release_planning_state q ;;
  update_request q (fun r =>
    set_request_backfill_class NoBackfill (set_request_backfill_epoch 0 (set_remaining_service_work 0
      (set_admission_resources (MkResources 0 0 0) (set_budget None (set_lane None r)))))) ;;
  (if replan then mret tt
   else update_request q (fun r => set_force_cold_prefill true (set_cache_fallback true r))) ;;
  publish_runtime_stats ;;
  mret ControlProgress.

Definition finish_failed_restore : M AdmissionProgress :=
  x ← exec;
  h ← value (copy_hold x);
  let q := hold_request h in
  let l := hold_lane h in
  release_copy_hold_host ;;
  evict_copy_hold_victims ;;
  match recovery_base h with
  | Some base =>
      modify (set_copy_hold None) ;;
      try_catch (retry_failed_restore q l base (replan_restore h && (recovery_stale_retries h =? 0)))
        (fun e => local ← fail_admitted_request q l e; if local : bool then mret ControlProgress else throw e)
  | None => requeue_failed_restore q l (replan_restore h)
  end.

Definition mark_restore_failure (e : exn) : M unit :=
  update_hold (fun h =>
    let h := set_restore_failed true h in
    match e with
    | cache_restore_failure kind =>
        set_replan_restore (bool_decide (kind = StalePlan)) (set_discard_failed_source (bool_decide (kind = InvalidSource)) h)
    | _ => h
    end).

Definition restore_failure_falls_back (e : exn) (q : Z) (x : Executor) : bool :=
  let r := requests x q in
  is_cache_restore_failure e &&
  match copy_hold x with
  | None => false
  | Some h =>
      (ram_hit h || disk_hit h) && bool_decide (is_Some (prompt r)) && bool_decide (prefill_lane x = None)
      && (bool_decide (is_Some (recovery_base h))
          || (negb (cache_fallback r) && bool_decide (begin_summary r = None) && bool_decide (generated r = [])))
  end.

Definition fail_host_restore (membership_empty : bool) (e : exn) : M AdmissionProgress :=
  mark_restore_failure e ;;
  if membership_empty then finish_failed_restore
  else call begin_copy_hold_cancel ;; mret CopyHolding.

(** The restore of a hold.  [false]: its copies are not ready and others decode. *)
Definition hold_restore (h : CopyHold) (membership_empty : bool) : M bool :=
  let l := hold_lane h in
  match fork_source h with
  | Some source =>
      if restored h then mret true
      else
        x ← exec;
        st_throw_if (negb (plan_versions x source =? fork_source_version h)) logic_error ;;
        call (fork_retained_lane l source (hold_plan h)) ;;
        update_hold (set_restored true) ;;
        mret true
  | None => mret true
  end ≫= fun _ =>
  x ← exec;
  h ← deref (copy_hold x);
  ready ← (if ram_hit h && negb (restored h) then
             ready ← (if membership_empty then mret true else call (ram_restore_ready (hold_ram_entry_id h)));
             if ready : bool then
               call (restore_ram_entry l (hold_ram_entry_id h) (hold_plan h)) ;;
               update_hold (set_restored true) ;;
               mret true
             else mret false
           else mret true);
  if negb ready then mret false
  else
    x ← exec;
    h ← deref (copy_hold x);
    if disk_hit h && negb (restored h) then
      ready ← (if membership_empty then mret true else call (disk_restore_ready (hold_disk_entry_id h)));
      if ready : bool then
        call (restore_disk_entry l (hold_disk_entry_id h) (hold_plan h)) ;;
        update_hold (set_restored true) ;;
        mret true
      else mret false
    else mret true.

Definition evict_held_victims (h : CopyHold) (membership_empty : bool) : M bool :=
  if victims_evicted h then mret true
  else
    ready ← call kv_ram_copies_ready;
    if negb ready && negb membership_empty then mret false
    else
      (if ready then mret tt else call wait_kv_ram_copies) ;;
      evict_victims (victim_lanes h) ;;
      update_hold (set_victims_evicted true) ;;
      mret true.

Definition settle_copies (membership_empty : bool) : M bool :=
  call pump_disk_restore ;;
  broken ← call kv_disk_restore_failed;
  (if broken : bool then call wait_kv_disk_copies else mret tt) ;;
  ready ← call kv_copies_ready;
  if negb ready && negb membership_empty then mret false
  else
    ready ← call kv_copies_ready;
    (if ready : bool then mret tt else call wait_kv_ram_copies) ;;
    call wait_kv_disk_copies ;;
    call wait_kv_ram_copies_on_compute ;;
    mret true.

(** The first prefill step of a restored request, and the end of its hold. *)
Definition start_held_prefill (h : CopyHold) : M AdmissionProgress :=
  let q := hold_request h in
  let l := hold_lane h in
  let s := summary (hold_plan h) in
  (if needs_prefill h then own_prefill l s else mret tt) ;;
  x ← exec;
  let transient := if needs_prefill h then transient_region (request_memory x) else (0, 0, 1) in
  pace ← prefill_pace (suffix_tokens s);
  input ← take_prompt q;
  first ← call (start_prefill_lane l input (hold_plan h) transient pace);
  call harvest_kv_copy_times ;;
  r ← request q;
  (if ram_hit h then
     call (finish_ram_restore (hold_ram_entry_id h) (if cache_write (options r) then Consume else Fork)) ;;
     update_hold (set_ram_consumed true)
   else mret tt) ;;
  (if disk_hit h then call (consume_disk_entry (hold_disk_entry_id h)) ;; update_hold (set_disk_consumed true)
   else mret tt) ;;
  x ← exec;
  st_throw_if (negb (complete first) && negb (bool_decide (prefill_lane x = Some l))) logic_error ;;
  gone ← total (cancelled q);
  modify (set_copy_hold None) ;;
  resolve_prefill_step q first gone ;;
  publish_runtime_stats ;;
  mret RanGpuUnit.

Definition admit_complete_try (h : CopyHold) (membership_empty : bool) : M AdmissionProgress :=
  go ← evict_held_victims h membership_empty;
  if negb go then mret CopyHolding
  else
    go ← hold_restore h membership_empty;
    if negb go then mret CopyHolding
    else
      go ← settle_copies membership_empty;
      if negb go then mret CopyHolding
      else x ← exec; h ← deref (copy_hold x); start_held_prefill h.

(** The handler.  Once the hold is gone its consumed sources are exactly its hits. *)
Definition admit_complete_failed (h : CopyHold) (membership_empty : bool) (e : exn) : M AdmissionProgress :=
  let q := hold_request h in
  x ← exec;
  if restore_failure_falls_back e q x then fail_host_restore membership_empty e
  else
    (if bool_decide (is_Some (copy_hold x)) && is_cache_restore_failure e then mark_restore_failure e else mret tt) ;;
    (if bool_decide (copy_hold x = None) then
       (if ram_claimed h && negb (ram_consumed h || ram_hit h)
        then run_secondary_cleanup (call (release_ram_entry (hold_ram_entry_id h))) else mret tt) ;;
       (if disk_claimed h && negb (disk_consumed h || disk_hit h)
        then run_secondary_cleanup (call (release_disk_entry (hold_disk_entry_id h))) else mret tt)
     else mret tt) ;;
    local ← fail_admitted_request q (hold_lane h) e;
    if local : bool then mret ControlProgress else throw e.

Definition admit_complete_body (membership_empty : bool) : M AdmissionProgress :=
  x ← exec;
  match copy_hold x with
  | None => throw logic_error
  | Some h =>
      st_throw_if (negb (bool_decide (slots x (hold_lane h) = Some (hold_request h)))) logic_error ;;
      try_catch (admit_complete_try h membership_empty) (admit_complete_failed h membership_empty)
  end.

End Open.

(** The depth of the recursion: a hold, and the hold of its one stale replan. *)
Fixpoint admit_depth (n : nat) : bool -> M AdmissionProgress :=
  match n with
  | O => fun _ => throw logic_error
  | S n => admit_complete_body (admit_depth n)
  end.

Definition admit_complete : bool -> M AdmissionProgress := admit_depth 2.

(** ** Retrying a generation *)
Definition route_of (r : Request) (spliced retained budget_ok pages_ok : bool) (resident : Z) (can_admit : bool) (ram disk : Z)
    : RecoveryPrefillRoute :=
  route_recovery_prefill (MkRoute spliced (allow_prefix_reuse (options r)) (force_cold_prefill r) retained resident
    can_admit budget_ok pages_ok ram disk).

(** Installs the spliced prompt and its session: the attempt counts from here. *)
Definition begin_attempt (q : Z) (attempt : Z) (spliced : Prompt) : M unit :=
  total (install_output_session q) ;;
  update_request q (fun r =>
    set_recovery (set_recovery_pending false (set_attempts attempt (recovery r)))
      (set_resident_prompt_tokens (prompt_size spliced) (set_prompt (Some spliced) r))) ;;
  publish_recovery q RetryStarted ;;
  r ← request q;
  (if bool_decide (reasoning r = []) then mret tt else append_output q [MkDelta Reasoning [10; 10]]) ;;
  allowed ← ask (model_stop_tokens_allowed q);
  update_request q (fun r =>
    set_stop_suppression_active (negb allowed)
      (set_recovery (set_reasoning_cycle fresh_span
        (set_recovery_generated_begin (length (generated r))
          (set_recovery_reasoning_begin (length (reasoning r)) (recovery r)))) r)).

Definition start_recovery_attempt (q : Z) (l : nat) : M unit :=
  r ← request q;
  b ← deref (budget r);
  let attempt := wrap32 (attempts (recovery r) + 1) in
  let reuse_enabled := allow_prefix_reuse (options r) && negb (force_cold_prefill r) in
  retained ← (if reuse_enabled then call (retain_reusable_lane l) else mret false);
  invalidate_lane_plans l ;;
  release_planning_state q ;;
  copied ← call (copy_reusable_prompt l (resident_prompt_tokens r));
  original ← match copied with
             | Some _ => mret []
             | None =>
                 rebuilt ← call (prepare q);
                 update_request q (set_resident_prompt_tokens (Z.of_nat (length rebuilt))) ;;
                 mret rebuilt
             end;
  spliced ← call (splice_recovery_prompt q (recovery_splice_prefix (default [] copied) original) attempt);
  match spliced with
  | None => recovery_exhausted q
  | Some spliced =>
      if negb (recovery_output_budget_preserved (prompt_size spliced) context_capacity (budget_remaining b))
      then recovery_exhausted q
      else
        '(allowed, end_token) ← call (make_output_session q spliced);
        suppressed ← lift (suppression end_token (negb allowed));
        base ← call (plan_request_base q spliced
          (MkExecution (Some (budget_remaining b)) (force_cold_prefill r) suppressed));
        let pages_ok := admission_resources_fit (admission (base_summary base)) (admission_resources r)
                        && (effective_output_tokens (base_summary base) =? budget_remaining b) in
        if negb pages_ok then recovery_exhausted q
        else
          lane_plan ← (if retained : bool then plan ← call (plan_request_for_lane l spliced base); mret (Some plan)
                       else mret None);
          can_admit ← match lane_plan with Some plan => ask (can_admit_lane l plan) | None => mret true end;
          let resident := match lane_plan with Some plan => reusable_prompt_tokens (summary plan) | None => 0 end in
          let first_route := route_of r true retained true true resident can_admit 0 0 in
          '(from_ram, from_disk) ←
            (if bool_decide (first_route = Cold) && reuse_enabled then
               from_ram ← optional_host_reuse_plan (call (plan_ram_reuse spliced base));
               from_disk ← optional_host_reuse_plan (call (plan_disk_reuse spliced base));
               mret (from_ram, from_disk)
             else mret (None, None));
          let route := if bool_decide (first_route = Cold) && reuse_enabled
                       then route_of r true retained true true resident can_admit (host_tokens from_ram true)
                              (host_tokens from_disk false)
                       else first_route in
          if bool_decide (route = Exhaust) then recovery_exhausted q
          else
            gone ← total (cancelled q);
            if gone : bool then release_recovery_lane l ;; complete_cancelled q
            else
              begin_attempt q attempt spliced ;;
              match route with
              | ResidentSuffix =>
                  plan ← value lane_plan;
                  first ← begin_recovery_prefill q l plan;
                  resolve_recovery_prefill q first
              | RouteHostRam | RouteHostDisk =>
                  release_recovery_lane l ;;
                  let ram := bool_decide (route = RouteHostRam) in
                  plan ← value (if ram then from_ram else from_disk);
                  held ← hold_recovery_restore admit_complete q l ram plan base 0;
                  if held : bool then mret tt else recovery_cold_prefill q l base
              | Cold => recovery_cold_prefill q l base
              | Exhaust => throw logic_error
              end
  end.

(** [while (!recovery_queue_.empty())]; the loop ends with the first entry that is
    still waiting for its retry. *)
Fixpoint recovery_loop (queue : list Z) : M bool :=
  match queue with
  | [] => mret false
  | q :: queue =>
      modify (set_recovery_queue queue) ;;
      x ← exec;
      let r := requests x q in
      match lane r with
      | Some l =>
          if bool_decide (slots x l = Some q) && recovery_pending (recovery r) then
            try_catch (start_recovery_attempt q l)
              (fun e =>
                 lock ;;
                 r ← request q;
                 local ← (if done (publication r) then mret (is_request_local_error e) else fail_admitted_request q l e);
                 if local : bool then mret tt else throw e) ;;
            mret true
          else recovery_loop queue
      | None => recovery_loop queue
      end
  end.

Definition start_generation_recovery : M bool := x ← exec; recovery_loop (recovery_queue x).

End Admit.
