(* ===== verification/ExecWorker.v ===== *)
(** * The executor: scheduling and the worker loop

    The parts of concurrent_executor.h that drive everything else: admitting a
    planned request, the scan of the queue under the admission policy
    ([try_admit_one]), interrupting and resuming a long prefill, failing every
    request, and one iteration of [worker_loop].  The executor as a whole is the
    transition system [exec_step]: iterations of the worker, interleaved at every lock
    with the critical sections of the client threads. *)

From stdpp Require Import prelude functions list list_numbers sorting gmap.
From Stdlib Require Import ZArith Lia.
From S2P Require Import Prelude Admission Capacity GenerationGuards ExecState ExecCore ExecPlanning ExecRounds ExecAdmit.
#[local] Open Scope Z_scope.

Section Worker.
Context {I : Instance} {Opt : EngineOptions}.

(** ** Admitting a planned request *)
Definition set_frame_ram (id : Z) (claimed : bool) (f : Frame) : Frame :=
  MkFrame id claimed (frame_disk_claimed f) (captured_ram_ids f).
Definition set_frame_disk (claimed : bool) (f : Frame) : Frame :=
  MkFrame (frame_ram_entry_id f) (frame_ram_claimed f) claimed (captured_ram_ids f).
Definition set_frame_captured (ids : list Z) (f : Frame) : Frame :=
  MkFrame (frame_ram_entry_id f) (frame_ram_claimed f) (frame_disk_claimed f) ids.

Definition update_frame (f : Frame -> Frame) : M unit := modify (fun x => set_frame (f (frame x)) x).

Definition release_host_if_needed (disk_id : Z) : M unit :=
  x ← exec;
  let f := frame x in
  (if frame_ram_claimed f then
     run_secondary_cleanup (call (release_ram_entry (frame_ram_entry_id f))) ;;
     update_frame (set_frame_ram (frame_ram_entry_id f) false)
   else mret tt) ;;
  (if frame_disk_claimed f then
     run_secondary_cleanup (call (release_disk_entry disk_id)) ;; update_frame (set_frame_disk false)
   else mret tt).

Definition rollback_ram_captures : M unit :=
  x ← exec;
  for_each (captured_ram_ids (frame x)) (fun id => run_secondary_cleanup (call (discard_ram_capture id))) ;;
  update_frame (set_frame_captured []).

Definition defer_for_reclaim (disk_id : Z) : M unit :=
  run_secondary_cleanup (call harvest_kv_copy_times) ;;
  release_host_if_needed disk_id ;;
  rollback_ram_captures.

(** The victim the next eviction takes: the retained lane that precedes the others. *)
Definition next_victim (slot : nat -> option Z) (c : LaneChoice) (victims : list nat) (e : Env) : option nat :=
  foldl (fun victim l =>
    if bool_decide (l = choice_lane c) || protected_lanes c l || bool_decide (is_Some (slot l)) || negb (has_retained_lane l e)
       || bool_decide (l ∈ victims) then victim
    else
      match victim with
      | Some v => if retained_lane_precedes l v e then Some l else victim
      | None => Some l
      end) None lanes.

(** Captures one lane; [false] when the capture waits for a disk spill. *)
Definition capture_lane (l : nat) (others_decoding : bool) : M bool :=
  x ← exec;
  '(id, deferred) ← call (capture_retained_lane l (negb others_decoding) (captured_ram_ids (frame x)));
  if deferred : bool then mret false
  else
    (if negb (id =? 0) then update_frame (fun f => set_frame_captured (captured_ram_ids f ++ [id]) f) else mret tt) ;;
    mret true.

(** [while (!can_admit_lane_after_releasing(...))]: every iteration adds a lane that is
    no victim yet, so [S max_concurrency] iterations are enough. *)
Fixpoint reclaim_victims (fuel : nat) (c : LaneChoice) (plan : Plan) (others_decoding : bool) (victims : list nat)
    : M (option (list nat)) :=
  match fuel with
  | O => throw logic_error
  | S fuel =>
      enough ← ask (can_admit_lane_after_releasing (choice_lane c) plan victims);
      if enough : bool then mret (Some victims)
      else
        x ← exec;
        victim ← ask (next_victim (slots x) c victims);
        match victim with
        | None => throw logic_error
        | Some v =>
            captured ← capture_lane v others_decoding;
            if captured : bool then reclaim_victims fuel c plan others_decoding (victims ++ [v]) else mret None
        end
  end.

(** The plan a choice stands for. *)
Definition winning_plan (r : Request) (c : LaneChoice) : M Plan :=
  let p := planning r in
  let chosen (test : Plan -> bool) (plan : option Plan) : M Plan :=
    match plan with Some plan => if test plan then mret plan else throw logic_error | None => throw logic_error end in
  if negb (choice_ram_entry_id c =? 0) && negb (choice_disk_entry_id c =? 0) then throw logic_error
  else if negb (choice_ram_entry_id c =? 0)
  then chosen (fun plan => ram_entry_id (summary plan) =? choice_ram_entry_id c) (ram_plan p)
  else if negb (choice_disk_entry_id c =? 0)
  then chosen (fun plan => disk_entry_id (summary plan) =? choice_disk_entry_id c) (disk_plan p)
  else chosen (fun _ => true) (lane_plans p !! default (choice_lane c) (choice_fork_source c)).

(** The source of a fork that could not be preserved is not tried again until the
    RAM tier or the lane changes; the failed attempt itself does not count. *)
Definition note_preservation_failure (source : nat) (before after : Z) (version : Z) (p : Preservation) : Preservation :=
  let versions := fun l =>
    if (l <? max_concurrency)%nat && preservation_unavailable p l && (preservation_ram_versions p l =? before)
    then after else preservation_ram_versions p l in
  MkPreservation (<[source := true]> (preservation_unavailable p)) (<[source := after]> versions)
    (<[source := version]> (preservation_lane_versions p)).

(** The result of preserving the source of a fork: go on with its RAM entry, or
    leave with a progress value. *)
Definition preserve_choice (q : Z) (c : LaneChoice) (others_decoding : bool) : M (Z + AdmissionProgress) :=
  source ← value (choice_fork_source c);
  before ← total kv_ram_index_version;
  '(preserved, id, deferred) ← call (preserve_retained_lane source (negb others_decoding));
  if deferred : bool then mret (inr ProgressNone)
  else if negb preserved || (id =? 0) then
    after ← total kv_ram_index_version;
    x ← exec;
    update_request q (fun r =>
      set_preservation (note_preservation_failure source before after (plan_versions x source) (preservation r)) r) ;;
    mret (inr ControlProgress)
  else
    update_frame (fun f => set_frame_captured (captured_ram_ids f ++ [id]) f) ;;
    mret (inl id).

(** The claims, captures and evictions of an admission.  [inl victims]: go on. *)
Definition claim_and_capture (q : Z) (c : LaneChoice) (plan : Plan) (others_decoding captures_lane : bool)
    : M (list nat + AdmissionProgress) :=
  let l := choice_lane c in
  go ← (if preserve_source c then
          kept ← preserve_choice q c others_decoding;
          match kept with
          | inl id => update_frame (set_frame_ram id false) ;; mret None
          | inr progress => mret (Some progress)
          end
        else mret None);
  match go with
  | Some progress => mret (inr progress)
  | None =>
      claimed ← (if negb (choice_disk_entry_id c =? 0) then
                   claimed ← call (claim_disk_entry (summary plan));
                   if claimed : bool then
                     update_frame (set_frame_disk true) ;;
                     call (prefetch_disk_plan (choice_disk_entry_id c) plan) ;;
                     mret true
                   else
                     update_planning q (set_disk_plan None) ;;
                     release_host_if_needed (choice_disk_entry_id c) ;;
                     mret false
                 else mret true);
      if negb claimed then mret (inr ProgressNone)
      else
        x ← exec;
        let id := frame_ram_entry_id (frame x) in
        (if negb (id =? 0) then call (claim_ram_entry id) ;; update_frame (set_frame_ram id true) else mret tt) ;;
        victims ← (if evict_retained c then reclaim_victims (S max_concurrency) c plan others_decoding []
                   else mret (Some []));
        match victims with
        | None => defer_for_reclaim (choice_disk_entry_id c) ;; mret (inr ProgressNone)
        | Some victims =>
            if captures_lane && negb (preserve_source c) then
              captured ← capture_lane l others_decoding;
              if captured : bool then mret (inl (if bool_decide (l ∈ victims) then victims else victims ++ [l]))
              else defer_for_reclaim (choice_disk_entry_id c) ;; mret (inr ProgressNone)
            else mret (inl victims)
        end
  end.

(** The request leaves the queue and takes its lane. *)
Definition occupy_lane (q : Z) (c : LaneChoice) (plan : Plan) (victims : list nat) (class : BackfillClass) (epoch : Z) : M unit :=
  let l := choice_lane c in
  let s := summary plan in
  release_planning_state q ;;
  (if bool_decide (class = Temporal) then
     x ← exec;
     match protection x with
     | Some p =>
         st_throw_if (negb (epoch_id p =? epoch) || (temporal_credit p <? service_work_quanta s)) logic_error ;;
         modify (set_protection (Some (MkProtection (epoch_id p) (head_request_id p) (head_resources p) (incumbent_ids p)
           (donor_ids p) (temporal_credit p - service_work_quanta s) (phase p))))
     | None => throw logic_error
     end
   else mret tt) ;;
  clear_protection_if_head q ;;
  b ← lift (GenerationBudget_new (effective_output_tokens s) (effective_limit_reason s));
  x ← exec;
  let id := frame_ram_entry_id (frame x) in
  update_request q (fun r =>
    set_request_backfill_class class (set_request_backfill_epoch epoch (set_remaining_service_work (service_work_quanta s)
      (set_admission_resources (admission s) (set_lane (Some l) (set_budget (Some b) r)))))) ;;
  modify (fun x => set_slots (<[l := Some q]> (slots x)) x) ;;
  invalidate_lane_plans l ;;
  x ← exec;
  modify (set_copy_hold (Some (MkHold q l plan (if preserve_source c then None else choice_fork_source c)
    (match choice_fork_source c with Some source => plan_versions x source | None => 0 end)
    (negb (id =? 0)) id (frame_ram_claimed (frame x)) false
    (negb (choice_disk_entry_id c =? 0)) (choice_disk_entry_id c) (frame_disk_claimed (frame x)) false
    victims false false (reusable_prompt_tokens s <? prompt_tokens s) None 0 false false true false))) ;;
  update_frame (fun f => set_frame_ram (frame_ram_entry_id f) false (set_frame_disk false f)) ;;
  publish_runtime_stats.

(** The body of the [try] block; [None] falls through to the copy-hold. *)
Definition admit_planned_try (q : Z) (c : LaneChoice) (plan : Plan) (others_decoding captures_lane : bool)
    (class : BackfillClass) (epoch : Z) : M (option AdmissionProgress) :=
  go ← claim_and_capture q c plan others_decoding captures_lane;
  match go with
  | inr progress => mret (Some progress)
  | inl victims =>
      x ← exec;
      let victims := if preserve_source c then victims ++ [choice_lane c] else victims in
      plan ← (if preserve_source c then call (retarget_plan_to_ram plan (frame_ram_entry_id (frame x))) else mret plan);
      x ← exec;
      update_planning q (fun p =>
        if negb (frame_ram_entry_id (frame x) =? 0) then set_ram_plan None p
        else if negb (choice_disk_entry_id c =? 0) then set_disk_plan None p
        else set_lane_plans (delete (default (choice_lane c) (choice_fork_source c)) (lane_plans p)) p) ;;
      erased ← erase_pending q;
      if erased : bool then occupy_lane q c plan victims class epoch ;; mret None
      else
        call harvest_kv_copy_times ;;
        release_host_if_needed (choice_disk_entry_id c) ;;
        rollback_ram_captures ;;
        mret (Some ProgressNone)
  end.

Definition admit_planned_failed (q : Z) (c : LaneChoice) (e : exn) : M (option AdmissionProgress) :=
  let l := choice_lane c in
  run_secondary_cleanup (call synchronize_all) ;;
  run_secondary_cleanup (call harvest_kv_copy_times) ;;
  release_host_if_needed (choice_disk_entry_id c) ;;
  x ← exec;
  let held := bool_decide (hold_lane <$> copy_hold x = Some l) in
  (if held then mret tt else rollback_ram_captures) ;;
  let claimed := bool_decide (slots x l = Some q) in
  (if held then drain_copy_hold_before_abort else mret tt) ;;
  (if claimed then total (abort_lane l) ;; release_prefill l ;; remove_completed_slot l
   else
     erased ← erase_pending q;
     if erased : bool then clear_protection_if_head q else mret tt) ;;
  complete_error q e ;;
  if is_request_local_error e then mret (Some ControlProgress) else throw e.

Definition admit_planned_request (q : Z) (c : LaneChoice) (class : BackfillClass) (epoch : Z) : M AdmissionProgress :=
  r ← request q;
  time ← total now;
  if negb (cache_fallback r) && (deadline (options r) <=? time) then remove_pending_error q (request_error QueueTimeout)
  else
    gone ← total (cancelled q);
    if gone : bool then
      erased ← erase_pending q;
      if erased : bool then clear_protection_if_head q ;; complete_cancelled q ;; mret ControlProgress
      else mret ProgressNone
    else
      r ← request q;
      plan ← winning_plan r c;
      update_frame (fun _ => MkFrame (choice_ram_entry_id c) false false []) ;;
      x ← exec;
      let l := choice_lane c in
      let others_decoding := existsb (fun other => negb (other =? l)%nat && bool_decide (is_Some (slots x other))) lanes in
      retained ← ask (has_retained_lane l);
      let captures_lane := retained && (negb (choice_ram_entry_id c =? 0) || negb (choice_disk_entry_id c =? 0)
        || bool_decide (is_Some (choice_fork_source c)) || (reusable_prompt_tokens (summary plan) =? 0)) in
      reclaiming ← (if others_decoding && (evict_retained c || captures_lane) then call kv_ram_reclaim_pending else mret false);
      if reclaiming : bool then mret ProgressNone
      else
        left ← try_catch (admit_planned_try q c plan others_decoding captures_lane class epoch) (admit_planned_failed q c);
        match left with
        | Some progress => mret progress
        | None =>
            members ← build_round_membership;
            if bool_decide (members = []) then admit_complete true else mret CopyHolding
        end.

(** ** Scanning the queue *)
Definition progress_of (control_progress : bool) : AdmissionProgress :=
  if control_progress then ControlProgress else ProgressNone.

(** What a scanned request yields before the policy looks at it. *)
Inductive Scanned : Type :=
| Removed (progress : bool)
| Unplaced (base : RequestPlanSummary)
| Placed (base : RequestPlanSummary) (c : LaneChoice).

(** The checks both loops of [try_admit_one] start with.  [head]: the protection of
    a cancelled head is cleared. *)
Definition scan_request (q : Z) (head : bool) : M Scanned :=
  gone ← total (cancelled q);
  if gone : bool then
    erased ← erase_pending q;
    if erased : bool then
      (if head then clear_protection_if_head q else mret tt) ;; complete_cancelled q ;; mret (Removed true)
    else mret (Removed false)
  else
    r ← request q;
    time ← total now;
    if negb (cache_fallback r) && (deadline (options r) <=? time)
    then remove_pending_error q (request_error QueueTimeout) ;; mret (Removed true)
    else
      planned ← try_catch (ensure_base_plan q ;; mret None) (fun e => mret (Some e));
      match planned with
      | Some e => remove_pending_error q e ;; mret (Removed true)
      | None =>
          r ← request q;
          base ← deref (base_plan (planning r));
          if negb (admission_resources_fit (admission (base_summary base)) admission_capacity)
          then remove_pending_error q (request_error ContextLengthExceeded) ;; mret (Removed true)
          else
            found ← try_catch (c ← find_admission_lane q; mret (inl c)) (fun e => mret (inr e));
            match found with
            | inr e => remove_pending_error q e ;; mret (Removed true)
            | inl None => mret (Unplaced (base_summary base))
            | inl (Some c) => mret (Placed (base_summary base) c)
            end
      end.

(** Which backfill the policy allows for a candidate that fits. *)
Definition backfill_of (p : AdmissionProtection) (active : list ActiveAdmissionSnapshot) (distance : Z) (s : RequestPlanSummary)
    : BackfillClass :=
  if persistent_backfill_is_safe p active (admission s) admission_capacity then Persistent
  else if (service_work_quanta s <=? distance) && (service_work_quanta s <=? temporal_credit p) then Temporal
  else NoBackfill.

Fixpoint backfill_loop (active : list ActiveAdmissionSnapshot) (distance : Z) (queue : list Z) (control_progress : bool)
    : M AdmissionProgress :=
  match queue with
  | [] => mret (progress_of control_progress)
  | q :: queue =>
      scanned ← scan_request q false;
      match scanned with
      | Removed progress => backfill_loop active distance queue (control_progress || progress)
      | Unplaced _ => backfill_loop active distance queue control_progress
      | Placed _ c =>
          r ← request q;
          let plans := planning r in
          plan ← value (if negb (choice_ram_entry_id c =? 0) then ram_plan plans
                        else if negb (choice_disk_entry_id c =? 0) then disk_plan plans
                        else lane_plans plans !! default (choice_lane c) (choice_fork_source c));
          x ← exec;
          p ← deref (protection x);
          let class := backfill_of p active distance (summary plan) in
          if bool_decide (class = NoBackfill) then backfill_loop active distance queue control_progress
          else admit_planned_request q c class (epoch_id p)
      end
  end.

(** The head does not fit: it is protected, and what is behind it may backfill. *)
Definition protect_head (q : Z) (base : RequestPlanSummary) (rest : list Z) (control_progress : bool) : M AdmissionProgress :=
  active ← active_admission_set;
  if bool_decide (active = []) then throw logic_error
  else
    x ← exec;
    (match protection x with
     | Some _ => mret tt
     | None =>
         modify (fun x => set_next_protection_epoch (next_protection_epoch x + 1) x) ;;
         p ← lift (make_admission_protection (next_protection_epoch x) q (admission base) active admission_capacity);
         modify (set_protection (Some p))
     end) ;;
    x ← exec;
    p ← deref (protection x);
    (if protected_head_safe_without_temporal p active admission_capacity then
       modify (set_protection (Some (MkProtection (epoch_id p) (head_request_id p) (head_resources p) (incumbent_ids p)
         (donor_ids p) (temporal_credit p) Drain)))
     else mret tt) ;;
    x ← exec;
    p ← deref (protection x);
    match phase p with
    | Drain => mret (progress_of control_progress)
    | Open => backfill_loop active (protection_frontier_distance p active) rest control_progress
    end.

Fixpoint admit_heads (queue : list Z) (control_progress : bool) : M AdmissionProgress :=
  match queue with
  | [] => modify (set_protection None) ;; mret (progress_of control_progress)
  | q :: rest =>
      x ← exec;
      (match protection x with
       | Some p => if negb (head_request_id p =? q) then modify (set_protection None) else mret tt
       | None => mret tt
       end) ;;
      scanned ← scan_request q true;
      match scanned with
      | Removed progress => admit_heads rest (control_progress || progress)
      | Placed _ c => admit_planned_request q c NoBackfill 0
      | Unplaced base => protect_head q base rest control_progress
      end
  end.

Definition try_admit_one : M AdmissionProgress :=
  queued ← pending_snapshot;
  match queued with
  | [] => modify (set_protection None) ;; mret ProgressNone
  | _ => admit_heads queued false
  end.

(** ** Interrupting a prefill *)

(** The first lane with the longest reuse that needs nothing released or restored. *)
Fixpoint interrupt_lane (q : Z) (l : list nat) (selected : option (nat * Z)) : M (option (nat * Z)) :=
  match l with
  | [] => mret selected
  | l :: rest =>
      x ← exec;
      if bool_decide (is_Some (slots x l)) then interrupt_lane q rest selected
      else
        ensure_lane_plan q l ;;
        r ← request q;
        plan ← value (lane_plans (planning r) !! l);
        let s := summary plan in
        retained ← ask (has_retained_lane l);
        admits ← ask (can_admit_lane l plan);
        if (negb (cache_write (options r)) && negb (reusable_prompt_tokens s =? 0))
           || (retained && (reusable_prompt_tokens s =? 0)) || negb (transient_bytes s =? 0)
           || (mixed_forward_min_tokens <=? suffix_tokens s) || negb admits
        then interrupt_lane q rest selected
        else
          interrupt_lane q rest
            match selected with
            | Some (_, best) => if best <? reusable_prompt_tokens s then Some (l, reusable_prompt_tokens s) else selected
            | None => Some (l, reusable_prompt_tokens s)
            end
  end.

(** The attempt for one waiting request, up to the suspension of the owner. *)
Definition interrupt_for (q : Z) : M (option nat) :=
  ensure_base_plan q ;;
  r ← request q;
  base ← deref (base_plan (planning r));
  if negb (transient_bytes (base_summary base) =? 0) then mret None
  else selected ← interrupt_lane q lanes None; mret (fst <$> selected).

Definition suspend_prefill : M unit :=
  modify (fun x =>
    set_prefill_interruptible false (set_request_memory (snd (deactivate (request_memory x)))
      (set_prefill_lane None (set_suspended_prefill_lane (prefill_lane x)
        (set_suspended_decode_rounds_since_prefill (decode_rounds_since_prefill x) x))))).

Fixpoint interrupt_scan (queue : list Z) : M bool :=
  match queue with
  | [] => mret false
  | q :: queue =>
      gone ← total (cancelled q);
      r ← request q;
      time ← (if gone || cache_fallback r then mret 0 else total now);
      if gone || (negb (cache_fallback r) && (deadline (options r) <=? time)) then interrupt_scan queue
      else if has_media (options r) then mret false
      else
        found ← try_catch (l ← interrupt_for q; mret (@inl (option nat) exn l))
          (fun e => if is_request_local_error e then mret (inr e) else throw e);
        match found with
        | inr e => remove_pending_error q e ;; mret false
        | inl None => mret false
        | inl (Some l) =>
            suspend_prefill ;;
            admit_planned_request q (MkChoice l false 0 0 None false no_lanes) NoBackfill 0 ;;
            r ← request q;
            let advance := bool_decide (is_Some (lane r)) in
            modify (set_suspended_prefill_must_advance advance) ;;
            mret advance
        end
  end.

Definition try_interrupt_prefill : M bool :=
  x ← exec;
  match prefill_lane x with
  | None => mret false
  | Some owner =>
      if bool_decide (is_Some (suspended_prefill_lane x)) || negb (prefill_interruptible x) || negb shared_prefill
         || (mixed_forward_min_tokens =? 0) then mret false
      else
        remaining ← call (prefill_remaining_tokens owner);
        if remaining <? mixed_forward_min_tokens then mret false
        else
          suspendable ← call (prefill_suspendable owner);
          if negb suspendable then mret false
          else queued ← pending_snapshot; interrupt_scan queued
  end.

Definition resume_suspended_prefill : M unit :=
  x ← exec;
  match suspended_prefill_lane x with
  | None => mret tt
  | Some l =>
      if bool_decide (is_Some (prefill_lane x)) || bool_decide (is_Some (copy_hold x)) then mret tt
      else
        let occupied := match slots x l with Some q => negb (decode_ready (requests x q)) | None => false end in
        st_throw_if (negb occupied) logic_error ;;
        call (resume_prefill_lane l) ;;
        modify (fun x =>
          set_suspended_prefill_must_advance false (set_prefill_interruptible (negb (suspended_prefill_must_advance x))
            (set_decode_rounds_since_prefill (suspended_decode_rounds_since_prefill x)
              (set_suspended_prefill_lane None (set_prefill_lane (Some l) x))))) ;;
        publish_runtime_stats
  end.

(** ** Failure *)
Definition fail_all (e : exn) : M unit :=
  lock ;;
  x ← exec;
  let waiting := pending x in
  modify (fun x => set_published_waiting 0 (set_pending [] (set_failed true x))) ;;
  drain_copy_hold_before_abort ;;
  modify (fun x =>
    match prefill_lane x with
    | Some _ => set_prefill_lane None (set_request_memory (snd (deactivate (request_memory x))) x)
    | None => x
    end) ;;
  modify (fun x => set_protection None (set_suspended_prefill_lane None x)) ;;
  for_each lanes (fun l =>
    x ← exec;
    match slots x l with Some q => total (abort_lane l) ;; complete_error q e | None => mret tt end) ;;
  for_each waiting (fun q => complete_error q e).

(** ** The worker loop *)
Definition lift_burst (op : st DecodeAdmissionBurst unit) : M unit := fun s =>
  let '(r, b) := op (burst s.1) in (r, (set_burst b s.1, s.2)).

Definition run_membership_decode (members : list (nat * Z)) : M unit :=
  run_decode_round members None ;; lift_burst complete_decode.

Definition consume_burst (members : list (nat * Z)) : M unit :=
  if bool_decide (members = []) then mret tt else lift_burst consume_admission.

(** A cancelled or failed hold: its fenced copies settle while others decode. *)
Definition settle_hold (h : CopyHold) (members : list (nat * Z)) : M unit :=
  settled ← (if bool_decide (members = []) then mret true else call copy_hold_cancel_settled);
  if negb settled then run_membership_decode members
  else if cancel_pending h then cancel_lane (hold_lane h)
  else finish_failed_restore admit_complete ;; mret tt.

Definition advance_hold (h : CopyHold) (members : list (nat * Z)) : M unit :=
  st_throw_if (membership_contains members (hold_lane h)) logic_error ;;
  ready ← (if bool_decide (members = []) then mret true else call kv_ram_copies_ready);
  if negb ready then run_membership_decode members
  else
    progress ← admit_complete (bool_decide (members = []));
    if bool_decide (progress = CopyHolding) && negb (bool_decide (members = [])) then
      x ← exec;
      h ← value (copy_hold x);
      if membership_contains members (hold_lane h) then mret tt else run_membership_decode members
    else mret tt.

(** The iteration while a prefill is staged. *)
Definition advance_owner (members : list (nat * Z)) : M unit :=
  x ← exec;
  owner ← deref (prefill_lane x);
  remaining ← call (prefill_remaining_tokens owner);
  pace ← prefill_pace remaining;
  mixed ← (if bool_decide (pace = Shared) && negb (bool_decide (members = [])) then
             x ← exec;
             let staged := match slots x owner with Some q => negb (decode_ready (requests x q)) | None => false end in
             st_throw_if (negb staged) logic_error ;;
             mixable ← call (prefill_mixable owner);
             x ← exec;
             let before := if mixable : bool then mixed_forward_rounds - 1 else mixed_forward_rounds in
             if decode_rounds_since_prefill x <? before then
               run_membership_decode members ;;
               modify (fun x => set_decode_rounds_since_prefill (decode_rounds_since_prefill x + 1) x) ;;
               mret true
             else if mixable then
               run_decode_round members (Some owner) ;;
               lift_burst complete_decode ;;
               modify (set_decode_rounds_since_prefill 0) ;;
               mret true
             else mret false
           else mret false);
  if mixed : bool then mret tt
  else run_prefill_step ;; modify (set_decode_rounds_since_prefill 0).

Definition admission_allowed (have_pending : bool) (members : list (nat * Z)) (x : Executor) : bool :=
  have_pending && (bool_decide (members = []) || allows_admission (burst x)).

(** The iteration while no admission is in flight. *)
Definition schedule (have_pending : bool) (members : list (nat * Z)) : M unit :=
  recovered ← start_generation_recovery;
  if recovered : bool then mret tt
  else
    x ← exec;
    progress ← (if admission_allowed have_pending members x then try_admit_one else mret ProgressNone);
    match progress with
    | RanGpuUnit | CopyHolding => consume_burst members
    | _ =>
        if bool_decide (progress = ControlProgress) && bool_decide (members = []) then mret tt
        else if bool_decide (members = []) then mret tt
        else run_membership_decode members ;; modify (set_stable_decode_epoch (negb have_pending))
    end.

Definition worker_body : M unit :=
  call (set_cache_idle false) ;;
  have_pending ← expire_pending_requests;
  gone ← snapshot_cancellations lanes;
  cancel_active_requests gone ;;
  resume_suspended_prefill ;;
  members ← build_round_membership;
  x ← exec;
  let active_slots := length (filter (fun l => is_Some (slots x l)) (seq 0 kMaximumConcurrency)) in
  lift_burst (observe_membership (Z.of_nat max_concurrency) (Z.of_nat active_slots) (Z.of_nat (length members))) ;;
  x ← exec;
  match copy_hold x with
  | Some h => if cancel_pending h || restore_failed h then settle_hold h members else advance_hold h members
  | None =>
      match prefill_lane x with
      | Some _ =>
          interrupted ← (if admission_allowed have_pending members x then try_interrupt_prefill else mret false);
          if interrupted : bool then consume_burst members
          else
            (if admission_allowed have_pending members x then
               x ← exec;
               if bool_decide (is_Some (suspended_prefill_lane x)) then resume_suspended_prefill else mret tt
             else mret tt) ;;
            advance_owner members
      | None => schedule have_pending members
      end
  end.

Definition worker_shutdown : M unit :=
  x ← exec;
  run_secondary_cleanup
    (match copy_hold x with
     | Some h => if cancel_pending h then cancel_lane (hold_lane h) else mret tt
     | None => mret tt
     end) ;;
  drain_copy_hold_before_abort ;;
  run_secondary_cleanup (call shutdown_kv_tiers) ;;
  fail_all (request_error Unavailable) ;;
  modify (set_worker Exited).

(** After the wait. *)
Definition worker_awake : M unit :=
  x ← exec;
  if stopping x then worker_shutdown
  else
    try_catch worker_body (fun e =>
      drain_copy_hold_before_abort ;;
      run_secondary_cleanup (call shutdown_kv_tiers) ;;
      fail_all e ;;
      modify (set_worker Exited)).

(** [queue_cv_.wait] and [wait_for]: the worker stays inside the first one while
    nothing was submitted. *)
Definition worker_wait (copies_ready : bool) : M unit :=
  lock ;;
  x ← exec;
  if copies_ready && negb (stopping x) && bool_decide (pending x = []) then modify (set_worker AtWait)
  else modify (set_worker AtTop) ;; worker_awake.

Definition worker_top : M unit :=
  x ← exec;
  let changed := control_dirty x in
  modify (set_control_dirty false) ;;
  ran ← (if stable_decode_epoch x && negb changed && bool_decide (recovery_queue x = []) then
           try_catch
             (members ← build_round_membership;
              if bool_decide (members = []) then mret false else run_decode_round members None ;; mret true)
             (fun e => fail_all e ;; modify (set_worker Exited) ;; mret true)
         else mret false);
  if ran : bool then mret tt
  else
    modify (set_stable_decode_epoch false) ;;
    lock ;;
    x ← exec;
    let idle := negb (stopping x) && bool_decide (pending x = [])
                && forallb (fun l => bool_decide (slots x l = None)) lanes in
    ready ← (if idle && bool_decide (copy_hold x = None) then
               ready ← try_catch (call kv_copies_ready) (fun _ => mret false);
               (if ready : bool then run_secondary_cleanup (call (set_cache_idle true)) else mret tt) ;;
               mret ready
             else mret false);
    worker_wait (idle && ready).

(** One iteration of [worker_loop], or its resumption inside the wait. *)
Definition worker_pass : M unit :=
  x ← exec;
  match worker x with
  | AtTop => worker_top
  | AtWait => worker_wait true
  | Exited => mret tt
  end.

(** ** The transition system *)
Definition no_request : Request :=
  MkRequest 0 (MkOptions false false false [] false TerminalOnly 0 false false) None 0 false false false [] false None None
    [] [] [] None false (MkPreservation (fun _ => false) (fun _ => 0) (fun _ => 0))
    (MkRecovery 0 0 0 0 None false 0 0 fresh_span) (MkPlanning None ∅ (fun _ => 0) None 0 None 0)
    (MkResources 0 0 0) 0 0 NoBackfill (MkPublication [] [] None None false false false).

Definition initial (memory : RequestMemory) : Executor :=
  MkExec (fun _ => no_request) [] [] [] 0 1 1 (fun _ => None) None None false false 0 0 None (fun _ => 0) None 1 memory 0
    true false false (MkBurst None 0) false AtTop (MkFrame 0 false false []) [] 0.

(** The constructor's checks; the worker starts at the top of its loop. *)
Definition construct (base capacity : Z) : res Executor :=
  throw_if ((max_concurrency =? 0)%nat || (kMaximumConcurrency <? max_concurrency)%nat || (max_pending_requests <=? 0)
            || (pending_timeout <=? 0) || (mixed_forward_rounds =? 0)) invalid_argument ;;
  throw_if (negb (active_lanes admission_capacity =? Z.of_nat max_concurrency) || (main_kv_pages admission_capacity =? 0))
    logic_error ;;
  Ok (initial (RequestMemory_new base capacity)).

(** The constructed executor, passes of the worker in any environment, and critical
    sections of the clients.  The state after [std::abort] is not observed. *)
Inductive exec_reach : Executor -> Prop :=
| reach_initial base capacity x : construct base capacity = Ok x -> exec_reach x
| reach_pass x e r x' e' :
    exec_reach x -> worker_pass (x, e) = (r, (x', e')) -> r ≠ Throw aborted -> exec_reach x'
| reach_client x a : exec_reach x -> exec_reach (client_step a x).

End Worker.
