(* ===== verification/ExecDemo.v ===== *)
(** * A concrete environment for the executor

    One lane, a program whose prefills complete in one step and whose rounds give
    one token each, sessions that accept what they are given until the budget is
    used, and clients that follow a script: one action per lock.  The witnesses of
    the executor's theorems use the states it reaches. *)

From stdpp Require Import prelude functions list list_numbers sorting gmap.
From Stdlib Require Import ZArith Lia.
From S2P Require Import Prelude Admission Capacity GenerationGuards ExecState ExecCore ExecPlanning ExecRounds ExecAdmit ExecWorker.
#[local] Open Scope Z_scope.

Definition demo_summary : RequestPlanSummary :=
  MkSummary 4 0 3 OutputLimit 0 1 (MkResources 1 1 0) 8 0 0 SourceNone.

Definition demo_step : PrefillStepResult := MkStep (MkBegin 0 SourceNone) [7] 4 true true.

Definition demo_options : RequestOptions := MkOptions false true false [] false Streaming 100 false false.

(** The script of the client threads. *)
Definition Script : Type := list (ClientAction unit unit).

Definition pop (s : Script) : list (ClientAction unit unit) * Script :=
  match s with a :: s => ([a], s) | [] => ([], []) end.

#[export] Instance demo_instance : Instance := {|
  Env := Script; Plan := unit; BasePlan := unit; Prompt := unit;
  summary _ := demo_summary; base_summary _ := demo_summary; prompt_size _ := 4;
  now e := (5, e); cancelled _ e := (false, e); other_threads := pop;
  plan_request_base _ _ _ := mret tt; plan_request_for_lane _ _ _ := mret tt;
  plan_ram_reuse _ _ := throw bad_alloc; plan_disk_reuse _ _ := throw bad_alloc;
  kv_ram_index_version e := (0, e); kv_disk_index_version e := (0, e); retarget_plan_to_ram p _ := mret p;
  can_admit_lane _ _ _ := true; can_admit_lane_after_retained_eviction _ _ _ := true;
  can_admit_lane_after_releasing _ _ _ _ := true; has_retained_lane _ _ := false;
  retained_lane_precedes _ _ _ := false; retained_lane_cache_writable _ _ := false;
  abort_lane _ e := (tt, e); evict_retained_lane _ e := (tt, e); mark_turn_closed _ e := (tt, e);
  retain_reusable_lane _ := mret true; revert_cancelled_prefill_lane _ := mret true; fork_retained_lane _ _ _ := mret tt;
  start_prefill_lane _ _ _ _ _ := mret demo_step; advance_prefill_lane _ _ := mret demo_step;
  prefill_remaining_tokens _ := mret 0; prefill_suspendable _ := mret false; prefill_mixable _ := mret false;
  resume_prefill_lane _ := mret tt; resolve_prefill_lane _ _ := mret tt;
  decode_batch l _ := mret (MkRound (replicate (length l) 9) [] 1 (fun _ => false));
  decode_batch_with_prefill l _ _ := mret (MkRound (replicate (length l) 9) [] 1 (fun _ => false), demo_step);
  resolve_pending_batch _ _ _ _ _ := mret tt; set_suppressed_tokens_lane _ _ := mret tt;
  clear_suppressed_tokens_lane _ := mret tt; set_typical_cycle_reasoning_lane _ _ := mret tt;
  capture_retained_lane _ _ _ := mret (0, false); preserve_retained_lane _ _ := mret (false, 0, false);
  claim_ram_entry _ := mret tt; release_ram_entry _ := mret tt; discard_ram_capture _ := mret tt;
  finish_ram_restore _ _ := mret tt; restore_ram_entry _ _ _ := mret tt; ram_restore_ready _ := mret true;
  claim_disk_entry _ := mret true; prefetch_disk_plan _ _ := mret tt; release_disk_entry _ := mret tt;
  invalidate_disk_entry _ := mret tt; consume_disk_entry _ := mret tt; restore_disk_entry _ _ _ := mret tt;
  disk_restore_ready _ := mret true; pump_disk_restore := mret tt; cancel_disk_restore := mret tt;
  kv_disk_restore_failed := mret false; kv_ram_reclaim_pending := mret false; kv_ram_copies_ready := mret true;
  kv_copies_ready := mret true; wait_kv_ram_copies := mret tt; wait_kv_disk_copies := mret tt;
  wait_kv_ram_copies_on_compute := mret tt; harvest_kv_copy_times := mret tt; begin_copy_hold_cancel := mret tt;
  copy_hold_cancel_settled := mret true; synchronize_all := mret tt; set_cache_idle _ := mret tt; shutdown_kv_tiers := mret tt;
  default_stop_token_ids := []; session_terminal _ _ := false; preview_terminal _ _ := mret tt;
  preview _ tokens remaining reason :=
    mret (MkDecision (Z.of_nat (length tokens)) (if Z.of_nat (length tokens) =? remaining then reason else FinishNone) false);
  commit_preview _ e := ([MkDelta Content [65]], e); discard_preview _ e := (tt, e);
  model_stop_tokens_allowed _ _ := true; suppressed_reasoning_end_token _ _ := None; in_reasoning _ _ := false;
  reasoning_tokens _ _ := 0; tool_calls _ _ := 0; repeats _ _ _ := false; collect_token_logprobs _ _ _ := mret tt;
  copy_reusable_prompt _ _ := mret None; prepare _ := mret []; splice_recovery_prompt _ _ _ := mret None;
  make_output_session _ _ := mret (true, None); install_output_session _ e := (tt, e);
|}.

#[export] Instance demo_engine : EngineOptions := {|
  max_concurrency := 1; max_pending_requests := 1; pending_timeout := 100; admission_capacity := MkResources 1 8 0; context_capacity := 64;
  generation_recovery := false; shared_prefill := false; mixed_forward_rounds := 1; mixed_forward_min_tokens := 0;
|}.

Definition demo_start : Executor := initial (RequestMemory_new 0 0).

(** A request is submitted, the worker places and prefills it, and the engine stops
    while the request is decoding. *)
Definition demo_queued : Executor :=
  Eval vm_compute in client_step (SubmitPublish 1 demo_options tt tt [] true) (client_step SubmitReserve demo_start).

Definition demo_serving : Executor := Eval vm_compute in fst (snd (worker_pass (demo_queued, []))).

Definition demo_stopped : Executor :=
  Eval vm_compute in fst (snd (worker_pass (client_step StopEngine demo_serving, []))).

Lemma demo_queued_steps :
  client_step (SubmitPublish 1 demo_options tt tt [] true) (client_step SubmitReserve demo_start) = demo_queued.
Proof. reflexivity. Qed.

Lemma demo_queued_reach : exec_reach demo_queued.
Proof. rewrite <-demo_queued_steps. do 2 apply reach_client. by apply (reach_initial 0 0). Qed.

Lemma demo_serving_pass : worker_pass (demo_queued, []) = (Ok tt, (demo_serving, [])).
Proof. reflexivity. Qed.

Lemma demo_serving_reach : exec_reach demo_serving.
Proof. exact (reach_pass _ _ _ _ _ demo_queued_reach demo_serving_pass ltac:(done)). Qed.

Lemma demo_stopped_pass : worker_pass (client_step StopEngine demo_serving, []) = (Ok tt, (demo_stopped, [])).
Proof. reflexivity. Qed.

Lemma demo_stopped_reach : exec_reach demo_stopped.
Proof. exact (reach_pass _ _ _ _ _ (reach_client _ _ demo_serving_reach) demo_stopped_pass ltac:(done)). Qed.
