(* ===== verification/ExecLogic.v ===== *)
(** * A program logic for the executor

    Weakest preconditions for the worker's monad, over the executor's state only:
    the environment is arbitrary at every call.  [wp m Q R x] says that from [x] the
    computation returns with [Q] or throws with [R], and never reaches undefined
    behaviour.  On top of it: the invariant [inv] of the executor, its accounting
    [cap], and the preorder [keeps] of the changes that leave both alone, with the
    proof that every critical section of a client thread is such a change. *)

From stdpp Require Import prelude functions list list_numbers sorting gmap.
From Stdlib Require Import ZArith Lia.
From S2P Require Import Prelude Admission Capacity GenerationGuards ExecState ExecCore ExecPlanning ExecRounds ExecAdmit ExecWorker.
#[local] Open Scope Z_scope.

Section Logic.
Context {I : Instance} {Opt : EngineOptions}.

(** ** Weakest preconditions *)
Definition outcome {A} (Q : A -> Executor -> Prop) (R : exn -> Executor -> Prop) (o : res A * (Executor * Env)) : Prop :=
  match o with
  | (Ok a, (x, _)) => Q a x
  | (Throw aborted, _) => True
  | (Throw undefined, _) => False
  | (Throw e, (x, _)) => R e x
  end.

Definition wp {A} (m : M A) (Q : A -> Executor -> Prop) (R : exn -> Executor -> Prop) (x : Executor) : Prop :=
  forall e, outcome Q R (m (x, e)).

(** An exception a handler can see. *)
Definition catchable (e : exn) : bool := match e with aborted | undefined => false | _ => true end.

Lemma outcome_throw {A} (Q : A -> Executor -> Prop) R e x (w : Env) :
  catchable e = true -> R e x -> outcome Q R (Throw e, (x, w)).
Proof. by destruct e. Qed.

Lemma wp_mono {A} (m : M A) (Q Q' : A -> Executor -> Prop) (R R' : exn -> Executor -> Prop) x :
  wp m Q R x -> (forall a y, Q a y -> Q' a y) -> (forall e y, R e y -> R' e y) -> wp m Q' R' x.
Proof.
  intros H HQ HR e. specialize (H e). unfold outcome in *.
  destruct (m (x, e)) as [[a|[]] [y w]]; auto.
Qed.

Lemma wp_ret {A} (a : A) (Q : A -> Executor -> Prop) R x : Q a x -> wp (mret a) Q R x.
Proof. intros H e. exact H. Qed.

Lemma wp_bind {A B} (m : M A) (k : A -> M B) Q R x :
  wp m (fun a y => wp (k a) Q R y) R x -> wp (m ≫= k) Q R x.
Proof.
  intros H e. specialize (H e). unfold outcome, mbind, st_bind in *.
  destruct (m (x, e)) as [[a|[]] [y w]]; try done. apply H.
Qed.

Lemma wp_exec (Q : Executor -> Executor -> Prop) R x : Q x x -> wp exec Q R x.
Proof. intros H e. exact H. Qed.

Lemma wp_modify f (Q : unit -> Executor -> Prop) R x : Q tt (f x) -> wp (modify f) Q R x.
Proof. intros H e. exact H. Qed.

Lemma wp_request q (Q : Request -> Executor -> Prop) R x : Q (requests x q) x -> wp (request q) Q R x.
Proof. intros H e. exact H. Qed.

Lemma wp_ask {A} (f : Env -> A) (Q : A -> Executor -> Prop) R x : (forall a, Q a x) -> wp (ask f) Q R x.
Proof. intros H e. apply H. Qed.

Lemma wp_total {A} (op : noexcept Env A) (Q : A -> Executor -> Prop) R x : (forall a, Q a x) -> wp (total op) Q R x.
Proof. intros H e. unfold total. simpl. destruct (op e) as [a w]. apply H. Qed.

Lemma wp_call {A} (op : st Env A) (Q : A -> Executor -> Prop) (R : exn -> Executor -> Prop) x :
  (forall a, Q a x) -> (forall e, R e x) -> wp (call op) Q R x.
Proof.
  intros H HR e. unfold call. simpl. destruct (op e) as [[a|ex] w]; [apply H|]. destruct ex; try done; apply HR.
Qed.

Lemma wp_throw {A} e (Q : A -> Executor -> Prop) (R : exn -> Executor -> Prop) x :
  catchable e = true -> R e x -> wp (throw e) Q R x.
Proof. intros He H w. by apply outcome_throw. Qed.

Lemma wp_abort {A} (Q : A -> Executor -> Prop) (R : exn -> Executor -> Prop) x : wp (throw aborted) Q R x.
Proof. intros w. exact Logic.I. Qed.

Lemma wp_throw_if b e (Q : unit -> Executor -> Prop) (R : exn -> Executor -> Prop) x :
  catchable e = true -> (b = false -> Q tt x) -> (b = true -> R e x) -> wp (st_throw_if b e) Q R x.
Proof.
  intros He HQ HR w. unfold st_throw_if, lift, throw_if. destruct b; [apply outcome_throw; auto|by apply HQ].
Qed.

Lemma wp_lift {A} (r : res A) (Q : A -> Executor -> Prop) (R : exn -> Executor -> Prop) x :
  (forall a, r = Ok a -> Q a x) -> (forall e, r = Throw e -> e ≠ undefined /\ R e x) -> wp (lift r) Q R x.
Proof.
  intros HQ HR w. unfold lift. destruct r as [a|e]; [by apply HQ|]. destruct (HR e eq_refl) as [Hu HR'].
  by destruct e.
Qed.

Lemma wp_try {A} (m : M A) h Q R x :
  wp m Q (fun e y => catchable e = true -> wp (h e) Q R y) x -> wp (try_catch m h) Q R x.
Proof.
  intros H e. specialize (H e). unfold try_catch, outcome in *.
  destruct (m (x, e)) as [[a|ex] [y w]]; [done|]. destruct ex; try done; by apply H.
Qed.

Lemma wp_cleanup (m : M unit) (Q : unit -> Executor -> Prop) R x :
  wp m Q (fun _ y => Q tt y) x -> wp (run_secondary_cleanup m) Q R x.
Proof. intros H. apply wp_try. eapply wp_mono; [exact H|done|]. intros e y Hy _. by apply wp_ret. Qed.

(** A loop whose body keeps an invariant over the elements still to come. *)
Lemma wp_for_each {A} (l : list A) body (P : list A -> Executor -> Prop) (R : exn -> Executor -> Prop) x :
  P l x ->
  (forall a rest y, P (a :: rest) y -> wp (body a) (fun _ z => P rest z) R y) ->
  wp (for_each l body) (fun _ y => P [] y) R x.
Proof.
  intros H Hb. revert x H. induction l as [|a l IH]; intros x H; simpl; [by apply wp_ret|].
  apply wp_bind. eapply wp_mono; [by apply Hb| |done]. intros a0 y Hy. by apply IH.
Qed.

(** The state after the actions of other threads. *)
Definition others (actions : list (ClientAction BasePlan Prompt)) (x : Executor) : Executor :=
  foldl (fun x a => client_step a x) x actions.

Lemma wp_lock (Q : unit -> Executor -> Prop) R x : (forall actions, Q tt (others actions x)) -> wp lock Q R x.
Proof.
  intros H. apply wp_bind, wp_total. intros actions. apply wp_modify. apply H.
Qed.

(** ** The invariant *)

(** What the invariant sees of a request, apart from the two flags of its capacity. *)
Definition vw (r : Request) : Z * option nat * bool * bool * bool * bool :=
  (queue_order r, lane r, decode_ready r, recovery_pending (recovery r), bool_decide (is_Some (budget r)), done (publication r)).
Definition flags (r : Request) : bool * bool := (consumer_released (publication r), capacity_released (publication r)).

Definition hold_view (h : CopyHold) : nat * Z * bool * Z :=
  (hold_lane h, hold_request h, bool_decide (is_Some (recovery_base h)), recovery_stale_retries h).

Definition is_done (x : Executor) (q : Z) : Prop := done (publication (requests x q)) = true.
Definition undone (x : Executor) (q : Z) : Prop := done (publication (requests x q)) = false.

(** No part of a generation is under way. *)
Definition idle (r : Request) : Prop := decode_ready r = false /\ recovery_pending (recovery r) = false.

(** The ways an occupied lane can go on: its copies, its prefill, its suspended
    prefill, the next decode round, a retry. *)
Definition roles (x : Executor) (l : nat) (q : Z) : list bool :=
  [bool_decide (hold_lane <$> copy_hold x = Some l); bool_decide (prefill_lane x = Some l);
   bool_decide (suspended_prefill_lane x = Some l); decode_ready (requests x q); recovery_pending (recovery (requests x q))].

Definition one_role (x : Executor) (l : nat) (q : Z) : Prop := length (filter (fun b => b = true) (roles x l q)) = 1%nat.

(** [held]: requests only a local variable of the worker still refers to.
    [busy]: the lane whose request the worker is moving to its next role; [any_lane], the
    number of no lane, stands for all of them while the worker fails. *)
Definition any_lane : option nat := Some max_concurrency.
Definition excused (busy : option nat) (l : nat) : Prop := busy = Some l \/ busy = any_lane.

Record inv (held : list Z) (busy : option nat) (x : Executor) : Prop := MkInv {
  i_ids : NoDup (submitted x ++ reserved x);
  i_next : 0 < next_request_id x;
  i_bound : forall q, q ∈ submitted x ++ reserved x -> 0 < q < next_request_id x;
  i_waiting_count : published_waiting x = Z.of_nat (length (pending x));
  i_sorted : StronglySorted (fun p q => queue_order (requests x p) < queue_order (requests x q)) (pending x);
  i_orders : forall q, q ∈ submitted x -> queue_order (requests x q) < next_queue_order x;
  i_inj : forall p q, p ∈ submitted x -> q ∈ submitted x -> queue_order (requests x p) = queue_order (requests x q) -> p = q;
  i_pending : forall q, q ∈ pending x -> q ∈ submitted x /\ undone x q /\ lane (requests x q) = None /\ idle (requests x q);
  i_slots : forall l q, slots x l = Some q ->
    (l < max_concurrency)%nat /\ q ∈ submitted x /\ undone x q /\ lane (requests x q) = Some l /\ is_Some (budget (requests x q));
  i_held : forall q, q ∈ held -> q ∈ submitted x /\ undone x q /\ q ∉ pending x /\ forall l, slots x l ≠ Some q;
  i_placed : forall q, q ∈ submitted x -> is_done x q \/ q ∈ pending x \/ (exists l, slots x l = Some q) \/ q ∈ held;
  i_hold : forall h, copy_hold x = Some h -> slots x (hold_lane h) = Some (hold_request h);
  i_prefill : forall l, prefill_lane x = Some l -> is_Some (slots x l);
  i_suspended : forall l, suspended_prefill_lane x = Some l -> is_Some (slots x l);
  i_excl : forall h l, copy_hold x = Some h -> prefill_lane x = Some l -> hold_lane h = l;
  i_roles : forall l q, slots x l = Some q -> ~ excused busy l -> one_role x l q;
  i_queued : forall l q, slots x l = Some q -> ~ excused busy l -> recovery_pending (recovery (requests x q)) = true ->
    q ∈ recovery_queue x;
  i_memory : active_bytes (request_memory x) ≠ 0 -> is_Some (prefill_lane x);
  i_failed : failed x = true -> pending x = [] /\ busy = any_lane;
  i_exited : worker x = Exited -> failed x = true /\ forall l, slots x l = None;
}.

Lemma excused_none l : ~ excused None l.
Proof. by intros [?|?]. Qed.

Lemma excused_some l l' : (l < max_concurrency)%nat -> excused (Some l) l' -> l' = l.
Proof. unfold excused, any_lane. intros ? [[=]|[=]]; lia. Qed.

(** Whoever is excused before, apart from [l], is excused after. *)
Definition covers (l : nat) (busy busy' : option nat) : Prop := forall l', l' ≠ l -> excused busy l' -> excused busy' l'.
Definition busy_on (l : nat) (busy : option nat) : Prop := busy = None \/ busy = Some l.

Lemma covers_none l busy : (l < max_concurrency)%nat -> busy_on l busy -> covers l busy None.
Proof. intros Hl [->| ->] l' E H; [done|]. by apply excused_some in H. Qed.

Lemma covers_any l busy : covers l busy any_lane.
Proof. intros l' _ _. by right. Qed.

Lemma covers_all l busy : covers l any_lane busy -> busy = any_lane.
Proof.
  intros H. assert (excused busy (S (l + default 0%nat busy))) as [E|E] by (apply H; [lia|by right]); [|done].
  destruct busy as [n|]; [|done]. injection E as E. simpl in E. lia.
Qed.

(** ** Accounting

    [window]: a request that is done but whose capacity the worker has not looked at
    yet.  [owed]: capacity the worker took from a request and has not returned. *)
Definition unreleased (x : Executor) : nat :=
  length (filter (fun q => capacity_released (publication (requests x q)) = false) (submitted x)).

Record cap (window : option Z) (owed : Z) (x : Executor) : Prop := MkCap {
  c_count : outstanding x = Z.of_nat (unreleased x) + Z.of_nat (length (reserved x)) + Z.of_nat (releasing x) + owed;
  c_bound : outstanding x <= max_outstanding;
  c_owed : 0 <= owed;
  c_released : forall q, q ∈ submitted x -> capacity_released (publication (requests x q)) = true ->
    is_done x q /\ consumer_released (publication (requests x q)) = true;
  c_settled : forall q, q ∈ submitted x -> window ≠ Some q -> is_done x q ->
    consumer_released (publication (requests x q)) = true -> capacity_released (publication (requests x q)) = true;
}.

End Logic.

Arguments i_ids {I Opt held busy x} _.
Arguments i_next {I Opt held busy x} _.
Arguments i_bound {I Opt held busy x} _.
Arguments i_waiting_count {I Opt held busy x} _.
Arguments i_sorted {I Opt held busy x} _.
Arguments i_orders {I Opt held busy x} _.
Arguments i_inj {I Opt held busy x} _.
Arguments i_pending {I Opt held busy x} _.
Arguments i_slots {I Opt held busy x} _.
Arguments i_held {I Opt held busy x} _.
Arguments i_placed {I Opt held busy x} _.
Arguments i_hold {I Opt held busy x} _.
Arguments i_prefill {I Opt held busy x} _.
Arguments i_suspended {I Opt held busy x} _.
Arguments i_excl {I Opt held busy x} _.
Arguments i_roles {I Opt held busy x} _.
Arguments i_queued {I Opt held busy x} _.
Arguments i_memory {I Opt held busy x} _.
Arguments i_failed {I Opt held busy x} _.
Arguments i_exited {I Opt held busy x} _.
Arguments c_count {I Opt window owed x} _.
Arguments c_bound {I Opt window owed x} _.
Arguments c_owed {I Opt window owed x} _.
Arguments c_released {I Opt window owed x} _.
Arguments c_settled {I Opt window owed x} _.
