(* ===== verification/ExecKeeps.v ===== *)
(** * Changes that keep the executor's invariant

    [alike]: nothing the invariant sees has changed; [same]: nothing the accounting sees
    has changed either.  [keeps]: the
    invariant and the accounting are kept, and the worker's own data is as before;
    other threads may have submitted, released or stopped.  Every critical section
    of a client is a [keeps] step. *)

From stdpp Require Import prelude functions list list_numbers sorting gmap.
From Stdlib Require Import ZArith Lia.
From S2P Require Import Prelude Admission Capacity GenerationGuards ExecState ExecCore ExecPlanning ExecRounds ExecAdmit ExecWorker ExecLogic.
#[local] Open Scope Z_scope.

Section Keeps.
Context {I : Instance} {Opt : EngineOptions}.

Record alike (x y : Executor) : Prop := MkAlike {
  s_submitted : submitted y = submitted x;
  s_reserved : reserved y = reserved x;
  s_id : next_request_id y = next_request_id x;
  s_order : next_queue_order y = next_queue_order x;
  s_pending : pending y = pending x;
  s_waiting : published_waiting y = published_waiting x;
  s_slots : slots y = slots x;
  s_prefill : prefill_lane y = prefill_lane x;
  s_suspended : suspended_prefill_lane y = suspended_prefill_lane x;
  s_hold : hold_view <$> copy_hold y = hold_view <$> copy_hold x;
  s_queue : recovery_queue y = recovery_queue x;
  s_memory : request_memory y = request_memory x;
  s_protection : protection y = protection x;
  s_worker : worker y = worker x;
  s_failed : failed y = failed x;
  s_vw : forall q, vw (requests y q) = vw (requests x q);
}.

Record same (x y : Executor) : Prop := MkSame {
  s_alike : alike x y;
  s_outstanding : outstanding y = outstanding x;
  s_releasing : releasing y = releasing x;
  s_flags : forall q, flags (requests y q) = flags (requests x q);
}.

(** ** Reading a view *)
Lemma vw_inv r r' : vw r = vw r' ->
  queue_order r = queue_order r' /\ lane r = lane r' /\ decode_ready r = decode_ready r' /\
  recovery_pending (recovery r) = recovery_pending (recovery r') /\ (is_Some (budget r) <-> is_Some (budget r')) /\
  done (publication r) = done (publication r').
Proof.
  unfold vw. intros [= H1 H2 H3 H4 H5 H6]. split_and!; try done.
  rewrite <- (bool_decide_eq_true (is_Some (budget r))), H5. apply bool_decide_eq_true.
Qed.

Lemma hold_view_lane (o o' : option CopyHold) :
  hold_view <$> o = hold_view <$> o' -> hold_lane <$> o = hold_lane <$> o' /\ hold_request <$> o = hold_request <$> o'.
Proof. destruct o, o'; simpl; try done. by intros [= -> -> _ _]. Qed.

Lemma roles_eq x y l q :
  hold_view <$> copy_hold y = hold_view <$> copy_hold x -> prefill_lane y = prefill_lane x ->
  suspended_prefill_lane y = suspended_prefill_lane x -> vw (requests y q) = vw (requests x q) ->
  roles y l q = roles x l q.
Proof.
  intros Hh Hp Hs Hv. unfold roles. destruct (hold_view_lane _ _ Hh) as [-> _].
  destruct (vw_inv _ _ Hv) as (_ & _ & -> & -> & _). by rewrite Hp, Hs.
Qed.

Lemma hold_back (o o' : option CopyHold) h :
  hold_view <$> o' = hold_view <$> o -> o' = Some h ->
  exists g, o = Some g /\ hold_lane g = hold_lane h /\ hold_request g = hold_request h.
Proof. intros H ->. destruct o as [g|]; [|done]. simpl in H. injection H as ? ? _ _. eauto. Qed.

Lemma inv_alike held busy x y : alike x y -> inv held busy x -> inv held busy y.
Proof.
  intros [] []. split; rewrite ?s_submitted0, ?s_reserved0, ?s_id0, ?s_order0, ?s_pending0, ?s_waiting0, ?s_slots0,
    ?s_prefill0, ?s_suspended0, ?s_queue0, ?s_memory0, ?s_worker0, ?s_failed0; try done.
  - clear -i_sorted s_vw0. induction i_sorted as [|p l _ IH Hf]; constructor; [done|].
    apply Forall_forall. intros q Hq. rewrite Forall_forall in Hf. specialize (Hf q Hq).
    destruct (vw_inv _ _ (s_vw0 p)) as [-> _]. by destruct (vw_inv _ _ (s_vw0 q)) as [-> _].
  - intros q Hq. destruct (vw_inv _ _ (s_vw0 q)) as [-> _]. auto.
  - intros p q Hp Hq. destruct (vw_inv _ _ (s_vw0 p)) as [-> _]. destruct (vw_inv _ _ (s_vw0 q)) as [-> _]. auto.
  - intros q Hq. unfold undone, idle. destruct (vw_inv _ _ (s_vw0 q)) as (_ & -> & -> & -> & _ & ->). by apply i_pending.
  - intros l q Hq. unfold undone. destruct (vw_inv _ _ (s_vw0 q)) as (_ & -> & _ & _ & Hb & ->). rewrite Hb. by apply i_slots.
  - intros q Hq. unfold undone. destruct (vw_inv _ _ (s_vw0 q)) as (_ & _ & _ & _ & _ & ->). by apply i_held.
  - intros q Hq. unfold is_done. destruct (vw_inv _ _ (s_vw0 q)) as (_ & _ & _ & _ & _ & ->). by apply i_placed.
  - intros h Hh. destruct (hold_back _ _ _ s_hold0 Hh) as (g & Hg & <- & <-). by apply i_hold.
  - intros h l Hh. destruct (hold_back _ _ _ s_hold0 Hh) as (g & Hg & <- & _). by apply i_excl.
  - intros l q Hq Hb. unfold one_role. rewrite (roles_eq x y) by done. by apply i_roles.
  - intros l q Hq Hb. destruct (vw_inv _ _ (s_vw0 q)) as (_ & _ & _ & -> & _). by apply (i_queued l).
Qed.

Lemma cap_same window owed x y : same x y -> cap window owed x -> cap window owed y.
Proof.
  intros [[] ? ? ?] [].
  assert (forall q, consumer_released (publication (requests y q)) = consumer_released (publication (requests x q)) /\
    capacity_released (publication (requests y q)) = capacity_released (publication (requests x q)) /\
    (is_done y q <-> is_done x q)) as Hq.
  { intros q. specialize (s_flags0 q). injection s_flags0 as H1 H2. split; [done|]. split; [done|].
    unfold is_done. destruct (vw_inv _ _ (s_vw0 q)) as (_ & _ & _ & _ & _ & ->). done. }
  assert (unreleased y = unreleased x) as Hu.
  { unfold unreleased. rewrite s_submitted0. f_equal. apply list_filter_iff. intros q. by destruct (Hq q) as (_ & -> & _). }
  split; rewrite ?Hu, ?s_outstanding0, ?s_reserved0, ?s_releasing0, ?s_submitted0; try done.
  - intros q Hs. destruct (Hq q) as (-> & -> & ->). by apply c_released.
  - intros q Hs. destruct (Hq q) as (-> & -> & ->). by apply c_settled.
Qed.

(** ** The preorder *)
Definition wf_ids (x : Executor) : Prop :=
  NoDup (submitted x ++ reserved x) /\ 0 < next_request_id x /\ forall q, q ∈ submitted x ++ reserved x -> 0 < q < next_request_id x.

Lemma inv_ids held busy x : inv held busy x -> wf_ids x.
Proof. intros H. split_and!; apply H. Qed.

Record keeps (x y : Executor) : Prop := MkKeeps {
  k_inv : forall held busy, inv held busy x -> inv held busy y;
  k_cap : forall window owed, wf_ids x -> cap window owed x -> cap window owed y;
  k_slots : slots y = slots x;
  k_prefill : prefill_lane y = prefill_lane x;
  k_suspended : suspended_prefill_lane y = suspended_prefill_lane x;
  k_hold : hold_view <$> copy_hold y = hold_view <$> copy_hold x;
  k_queue : recovery_queue y = recovery_queue x;
  k_memory : request_memory y = request_memory x;
  k_protection : protection y = protection x;
  k_worker : worker y = worker x;
  k_failed : failed x = true -> failed y = true;
  k_submitted : forall q, q ∈ submitted x -> q ∈ submitted y;
  k_vw : forall q, q ∈ submitted x -> wf_ids x -> vw (requests y q) = vw (requests x q);
  k_pending : forall q, q ∈ submitted x -> wf_ids x -> (q ∈ pending y <-> q ∈ pending x);
  k_prefix : exists new, pending y = pending x ++ new;
  k_ids : wf_ids x -> wf_ids y;
}.

Lemma keeps_refl x : keeps x x.
Proof. split; try done. exists []. by rewrite app_nil_r. Qed.

Lemma keeps_trans x y z : keeps x y -> keeps y z -> keeps x z.
Proof.
  intros [] []. split; auto; try congruence.
  - intros q Hq Hn. rewrite k_vw1 by auto. auto.
  - intros q Hq Hn. rewrite k_pending1 by auto. auto.
  - destruct k_prefix0 as [n1 E1], k_prefix1 as [n2 E2]. exists (n1 ++ n2). rewrite E2, E1. by rewrite app_assoc.
Qed.

#[export] Instance keeps_preorder : PreOrder keeps.
Proof. split; [exact keeps_refl|exact keeps_trans]. Qed.

Lemma keeps_same x y : same x y -> keeps x y.
Proof.
  intros H. destruct H as [Ha ? ? ?] eqn:E. pose proof Ha as []. split; try done.
  - intros held busy. by apply inv_alike.
  - intros window owed _. by apply cap_same.
  - congruence.
  - by rewrite s_submitted0.
  - by rewrite s_pending0.
  - exists []. by rewrite app_nil_r.
  - unfold wf_ids. by rewrite s_submitted0, s_reserved0, s_id0.
Qed.

(** An update of a request that the invariant does not see. *)
Lemma same_update x q r : vw r = vw (requests x q) -> flags r = flags (requests x q) ->
  same x (set_requests (<[q := r]> (requests x)) x).
Proof.
  intros Hv Hf. split; [split| | |]; try done; intros p; simpl; destruct (decide (p = q)) as [->|Hne];
    by rewrite ?fn_lookup_insert, ?fn_lookup_insert_ne.
Qed.

(** ** Client threads *)
Lemma erase_first_Permutation q l : q ∈ l -> l ≡ₚ q :: erase_first q l.
Proof.
  induction l as [|y l IH]; [by intros ?%elem_of_nil|]. intros Hq. simpl. case_bool_decide as E; [by subst|].
  apply elem_of_cons in Hq as [->|Hq]; [done|]. rewrite (IH Hq) at 1. apply Permutation_swap.
Qed.

Lemma erase_first_sublist q l : erase_first q l `sublist_of` l.
Proof. induction l as [|y l IH]; simpl; [done|]. case_bool_decide; [by apply sublist_cons|by apply sublist_skip]. Qed.

(** Moving a reservation elsewhere. *)
Lemma reserved_erase x id : id ∈ reserved x -> submitted x ++ reserved x ≡ₚ id :: submitted x ++ erase_first id (reserved x).
Proof. intros H. rewrite (erase_first_Permutation _ _ H) at 1. symmetry. apply Permutation_middle. Qed.

Lemma reserved_length x id : id ∈ reserved x -> length (reserved x) = S (length (erase_first id (reserved x))).
Proof. intros H. by rewrite (erase_first_Permutation _ _ H) at 1. Qed.

Lemma keeps_reserve x : keeps x (snd (submit_reserve x)).
Proof.
  unfold submit_reserve, st_throw_if, throw_if, lift, get, put, mbind, st_bind, mret, st_ret. simpl.
  destruct (stopping x || failed x); [apply keeps_refl|].
  destruct (Z.leb_spec max_outstanding (outstanding x)) as [_|Hlt]; [apply keeps_refl|]. simpl.
  match goal with |- keeps x ?z => set (y := z) end.
  assert (wf_ids x -> wf_ids y) as Hw.
  { intros (Hn & H0 & Hb). unfold wf_ids. simpl. rewrite <- Permutation_middle. split_and!; [|lia|].
    - constructor; [|done]. intros H. apply Hb in H. lia.
    - intros q. rewrite elem_of_app, elem_of_cons. intros [H|[->|H]]; [|lia|].
      + assert (0 < q < next_request_id x) by (apply Hb, elem_of_app; auto). lia.
      + assert (0 < q < next_request_id x) by (apply Hb, elem_of_app; auto). lia. }
  split; try done.
  - intros held busy Hi. destruct (Hw (inv_ids _ _ _ Hi)) as (? & ? & ?). destruct Hi. by split.
  - intros window owed _ []. split; try done; simpl; [|lia].
    change (unreleased y) with (unreleased x). rewrite c_count. lia.
  - exists []. by rewrite app_nil_r.
Qed.

(** Giving a reservation up. *)
Lemma keeps_unreserve x id z : id ∈ reserved x -> (forall window owed, cap window owed x -> z = outstanding x - 1) ->
  keeps x (set_outstanding z (set_reserved (erase_first id (reserved x)) x)).
Proof.
  intros Hid Hz. match goal with |- keeps x ?z => set (y := z) end.
  pose proof (reserved_erase x id Hid) as Hp. pose proof (reserved_length x id Hid) as Hlen.
  assert (wf_ids x -> wf_ids y) as Hw.
  { intros (Hn & H0 & Hb). rewrite Hp in Hn. apply NoDup_cons in Hn as [_ Hn]. split_and!; [done|done|].
    intros q Hq. apply Hb. rewrite Hp. by right. }
  split; try done.
  - intros held busy Hi. destruct (Hw (inv_ids _ _ _ Hi)) as (? & ? & ?). destruct Hi. by split.
  - intros window owed _ Hc. pose proof (Hz _ _ Hc) as ->. destruct Hc. split; try done; simpl; [|lia].
    change (unreleased y) with (unreleased x). rewrite c_count. lia.
  - exists []. by rewrite app_nil_r.
Qed.

Lemma cap_reserved window owed x id : cap window owed x -> id ∈ reserved x -> 0 < outstanding x.
Proof. intros [] Hid. rewrite c_count, (reserved_length x id Hid). lia. Qed.

Lemma keeps_fail x id : keeps x (submit_fail id x).
Proof.
  unfold submit_fail. case_bool_decide as Hid; [|apply keeps_refl]. unfold release_reserved_capacity. simpl.
  destruct (Z.eqb_spec (outstanding x) 0) as [E|E]; simpl.
  - change (set_reserved (erase_first id (reserved x)) x)
      with (set_outstanding (outstanding x) (set_reserved (erase_first id (reserved x)) x)).
    apply keeps_unreserve; [done|]. intros window owed Hc. pose proof (cap_reserved _ _ _ _ Hc Hid). lia.
  - by apply keeps_unreserve.
Qed.

Lemma length_filter_ext {A} (P P' : A -> Prop) `{!forall a, Decision (P a), !forall a, Decision (P' a)} (l : list A) :
  (forall a, a ∈ l -> (P a <-> P' a)) -> length (filter P l) = length (filter P' l).
Proof.
  induction l as [|a l IH]; intros Hext; [done|]. assert (length (filter P l) = length (filter P' l)) as E
    by (apply IH; intros b Hb; apply Hext; by right). pose proof (Hext a (list_elem_of_here _ _)) as Ha.
  rewrite !filter_cons. destruct (decide (P a)), (decide (P' a)); simpl; [by rewrite E|tauto|tauto|done].
Qed.

Lemma StronglySorted_snoc {A} (R : A -> A -> Prop) l a :
  StronglySorted R l -> (forall b, b ∈ l -> R b a) -> StronglySorted R (l ++ [a]).
Proof.
  induction 1 as [|b l _ IH Hf]; intros H; simpl; [by repeat constructor|].
  constructor; [apply IH; intros c Hc; apply H; by right|].
  apply Forall_app. split; [done|]. apply Forall_singleton, H. by left.
Qed.

Lemma StronglySorted_ext {A} (R R' : A -> A -> Prop) l :
  StronglySorted R l -> (forall a b, a ∈ l -> b ∈ l -> R a b -> R' a b) -> StronglySorted R' l.
Proof.
  induction 1 as [|b l _ IH Hf]; intros H; constructor.
  - apply IH. intros a c Ha Hc. apply H; by right.
  - rewrite Forall_forall in *. intros c Hc. apply H; [by left|by right|auto].
Qed.

(** A submission reaches the queue. *)
Definition published (id : Z) (r : Request) (x : Executor) : Executor :=
  signal_control (set_published_waiting (Z.of_nat (length (pending x ++ [id]))) (set_pending (pending x ++ [id])
    (set_next_queue_order (next_queue_order x + 1) (set_submitted (id :: submitted x)
      (set_requests (<[id := r]> (requests x)) (set_reserved (erase_first id (reserved x)) x)))))).

Definition fresh_request (order : Z) (r : Request) : Prop :=
  vw r = (order, None, false, false, false, false) /\ flags r = (false, false).

Lemma published_other id r x q : q ≠ id -> requests (published id r x) q = requests x q.
Proof. intros H. simpl. by rewrite fn_lookup_insert_ne. Qed.

Lemma published_self id r x : requests (published id r x) id = r.
Proof. simpl. by rewrite fn_lookup_insert. Qed.

Lemma published_ids id r x : id ∈ reserved x -> wf_ids x -> wf_ids (published id r x) /\ id ∉ submitted x.
Proof.
  intros Hid (Hn & H0 & Hb). pose proof (reserved_erase x id Hid) as Hp. split.
  - rewrite Hp in Hn. split_and!; [done|done|]. intros q Hq. apply Hb. by rewrite Hp.
  - intros Hin. apply NoDup_app in Hn as (_ & Hd & _). by apply (Hd id).
Qed.

Lemma inv_published held busy id r x : failed x = false -> fresh_request (next_queue_order x) r -> id ∈ reserved x ->
  inv held busy x -> inv held busy (published id r x).
Proof.
  intros Hf [Hv _] Hid Hi. destruct (published_ids id r x Hid (inv_ids _ _ _ Hi)) as [(W1 & W2 & W3) Hnew].
  injection Hv as Ho Hl Hr Hp _ Hd.
  assert (forall q, q ∈ submitted x -> requests (published id r x) q = requests x q) as Hq
    by (intros q Hq; apply published_other; congruence).
  destruct Hi. split; try done; unfold undone, is_done in *.
  - apply StronglySorted_snoc.
    + eapply StronglySorted_ext; [exact i_sorted|]. intros a b Ha%i_pending Hb%i_pending. rewrite !Hq by apply Ha || apply Hb. done.
    + intros b Hb%i_pending. rewrite (Hq b), published_self, Ho by apply Hb. apply i_orders, Hb.
  - intros q [->|Hin]%elem_of_cons; [rewrite published_self; simpl; lia|]. rewrite Hq by done. simpl.
    specialize (i_orders q Hin). lia.
  - intros p q [->|Hp']%elem_of_cons [->|Hq']%elem_of_cons; [done| | |].
    + rewrite published_self, Hq, Ho by done. intros E. specialize (i_orders q Hq'). lia.
    + rewrite published_self, Hq, Ho by done. intros E. specialize (i_orders p Hp'). lia.
    + rewrite !Hq by done. by apply i_inj.
  - intros q Hin. change (q ∈ pending x ++ [id]) in Hin.
    apply elem_of_app in Hin as [Hin|[->|Hin%elem_of_nil]%elem_of_cons]; [| |done].
    + destruct (i_pending q Hin) as (? & ? & ?). rewrite (Hq q) by done. split; [by right|done].
    + rewrite published_self. split; [by left|done].
  - intros l q Hs. destruct (i_slots l q Hs) as (? & ? & ? & ?). rewrite (Hq q) by done. split; [done|]. split; [by right|done].
  - intros q Hh. destruct (i_held q Hh) as (? & ? & Hnp & ?). rewrite (Hq q) by done. split; [by right|]. split; [done|].
    split; [|done]. change (q ∉ pending x ++ [id]).
    intros [Hin|[->|Hin%elem_of_nil]%elem_of_cons]%elem_of_app; done.
  - intros q [->|Hin]%elem_of_cons; [right; left; apply elem_of_app; right; by left|]. rewrite (Hq q) by done.
    destruct (i_placed q Hin) as [?|[?|[?|?]]]; auto. right. left. apply elem_of_app. by left.
  - intros l q Hs Hb. specialize (i_roles l q Hs Hb). unfold one_role, roles in *. rewrite (Hq q); [done|]. by apply (i_slots l).
  - intros l q Hs Hb. rewrite (Hq q); [by apply (i_queued l)|]. by apply (i_slots l).
  - intros He. change (failed x = true) in He. congruence.
Qed.

Lemma cap_published window owed id r x : fresh_request (next_queue_order x) r -> id ∈ reserved x -> wf_ids x ->
  cap window owed x -> cap window owed (published id r x).
Proof.
  intros [Hv Hfl] Hid Hw []. destruct (published_ids id r x Hid Hw) as [_ Hnew]. injection Hv as _ _ _ _ _ Hd. injection Hfl as Hr1 Hr2.
  assert (forall q, q ∈ submitted x -> requests (published id r x) q = requests x q) as Hq
    by (intros q Hq; apply published_other; congruence).
  split; try done.
  - unfold unreleased. simpl submitted. rewrite filter_cons_True by (by rewrite published_self).
    cbn [length]. rewrite (length_filter_ext _ (fun q => capacity_released (publication (requests x q)) = false))
      by (intros q Hin; by rewrite Hq). simpl. rewrite c_count, (reserved_length x id Hid). unfold unreleased. lia.
  - intros q [->|Hin]%elem_of_cons; [rewrite published_self; congruence|]. unfold is_done. rewrite (Hq q) by done. by apply c_released.
  - intros q [->|Hin]%elem_of_cons; unfold is_done; [rewrite published_self; congruence|]. rewrite (Hq q) by done. by apply c_settled.
Qed.

Lemma keeps_publish x id o p base suppressed allowed : keeps x (snd (submit_publish id o p base suppressed allowed x)).
Proof.
  unfold submit_publish, get, put, throw, mbind, st_bind, mret, st_ret. simpl.
  case_bool_decide as Hid; [|apply keeps_refl]. simpl.
  destruct (stopping x || failed x) eqn:Hs; simpl; [by apply keeps_unreserve|].
  apply orb_false_iff in Hs as [_ Hf]. set (r := new_request _ _ _ _ _ _). change (keeps x (published id r x)).
  assert (fresh_request (next_queue_order x) r) as Hr by done.
  split; try done.
  - intros held busy. by apply inv_published.
  - intros window owed. by apply cap_published.
  - intros q Hq. by right.
  - intros q Hq Hw. destruct (published_ids id r x Hid Hw) as [_ Hnew]. rewrite published_other; [done|congruence].
  - intros q Hq Hw. destruct (published_ids id r x Hid Hw) as [_ Hnew]. change (q ∈ pending x ++ [id] <-> q ∈ pending x).
    rewrite elem_of_app, list_elem_of_singleton. split; [|by left]. intros [?| ->]; done.
  - by exists [id].
  - intros Hw. by apply published_ids.
Qed.

(** Taking the capacity of one request. *)
Lemma unreleased_take x y id : NoDup (submitted x) -> id ∈ submitted x -> submitted y = submitted x ->
  (forall q, q ≠ id -> requests y q = requests x q) ->
  capacity_released (publication (requests x id)) = false -> capacity_released (publication (requests y id)) = true ->
  unreleased x = S (unreleased y).
Proof.
  intros Hn Hid Hs Hne Hx Hy. unfold unreleased. rewrite Hs.
  apply elem_of_Permutation in Hid as [k Hk]. rewrite Hk in Hn. apply NoDup_cons in Hn as [Hk' _].
  assert (forall z, length (filter (fun q => capacity_released (publication (requests z q)) = false) (submitted x)) =
                    length (filter (fun q => capacity_released (publication (requests z q)) = false) (id :: k))) as ->
    by (intros z; apply Permutation_length; by rewrite Hk).
  assert (forall z, length (filter (fun q => capacity_released (publication (requests z q)) = false) (submitted x)) =
                    length (filter (fun q => capacity_released (publication (requests z q)) = false) (id :: k))) as ->
    by (intros z; apply Permutation_length; by rewrite Hk).
  rewrite filter_cons_True, filter_cons_False by congruence. simpl. f_equal. apply length_filter_ext.
  intros q Hq. rewrite Hne; [done|]. by intros ->.
Qed.

Lemma cap_take window owed owed' x y id : NoDup (submitted x) -> id ∈ submitted x -> is_done x id ->
  capacity_released (publication (requests x id)) = false ->
  submitted y = submitted x -> reserved y = reserved x -> outstanding y = outstanding x ->
  Z.of_nat (releasing y) + owed' = Z.of_nat (releasing x) + owed + 1 -> 0 <= owed' ->
  (forall q, q ≠ id -> requests y q = requests x q) ->
  is_done y id -> flags (requests y id) = (true, true) -> cap window owed x -> cap window owed' y.
Proof.
  intros Hn Hid Hd Hc Hs Hr Ho Hrel H0 Hne Hd' [= Hf1 Hf2] [].
  pose proof (unreleased_take x y id Hn Hid Hs Hne Hc Hf2).
  split; rewrite ?Ho, ?Hr, ?Hs; try lia; try done.
  - intros q Hq. destruct (decide (q = id)) as [->|E]; [done|]. unfold is_done. rewrite Hne by done. by apply c_released.
  - intros q Hq. destruct (decide (q = id)) as [->|E]; [done|]. unfold is_done. rewrite Hne by done. by apply c_settled.
Qed.

Lemma wf_submitted x : wf_ids x -> NoDup (submitted x).
Proof. intros [Hn _]. by apply NoDup_app in Hn as [? _]. Qed.

(** The release of a consumer takes the capacity of a request that is done. *)
Lemma keeps_release x id : keeps x (release_consumer id x).
Proof.
  unfold release_consumer. case_bool_decide as Hid; [|apply keeps_refl]. simpl.
  set (r := requests x id). set (E := done (publication r) && negb (capacity_released (publication r))).
  match goal with |- keeps x ?z => set (y := z) end.
  assert (forall q, q ≠ id -> requests y q = requests x q) as Hne
    by (intros q Hq; unfold y; destruct E; simpl; by rewrite fn_lookup_insert_ne).
  assert (alike x y) as Ha.
  { unfold y. destruct E; split; try done; intros q; simpl; destruct (decide (q = id)) as [->|?];
      by rewrite ?fn_lookup_insert, ?fn_lookup_insert_ne. }
  split; try (by destruct E); try (by apply Ha).
  - intros held busy. by apply inv_alike.
  - intros window owed Hw Hc. destruct E eqn:HE; subst y E.
    + apply andb_prop in HE as [Hd Hcap%negb_true_iff].
      eapply cap_take; [by apply wf_submitted|exact Hid|exact Hd|exact Hcap|done|done|done| | |exact Hne| | |exact Hc];
        simpl; unfold is_done; simpl; rewrite ?fn_lookup_insert; try done; [lia|apply Hc].
    + destruct Hc. split; try done; simpl; unfold is_done in *; simpl.
      * rewrite c_count. do 4 f_equal. unfold unreleased. apply length_filter_ext. intros q _. simpl.
        destruct (decide (q = id)) as [->|?]; by rewrite ?fn_lookup_insert, ?fn_lookup_insert_ne.
      * intros q Hq. destruct (decide (q = id)) as [->|?]; rewrite ?fn_lookup_insert, ?fn_lookup_insert_ne by done; [|by apply c_released].
        intros Hcap. by destruct (c_released id Hid Hcap).
      * intros q Hq Hwin. destruct (decide (q = id)) as [->|?]; rewrite ?fn_lookup_insert, ?fn_lookup_insert_ne by done; [|by apply c_settled].
        simpl. intros Hd _. apply andb_false_iff in HE as [HE|HE%negb_false_iff]; [congruence|done].
  - intros q Hq _. by apply Ha.
  - exists []. rewrite app_nil_r. by destruct E.
Qed.

Lemma keeps_return x : keeps x (client_step ReturnCapacity x).
Proof.
  simpl. destruct (releasing x) as [|n] eqn:Hn; [apply keeps_refl|].
  unfold release_reserved_capacity. simpl.
  assert (forall window owed, cap window owed x -> 0 < outstanding x) as Hpos by (intros window owed []; lia).
  destruct (Z.eqb_spec (outstanding x) 0) as [E|E]; simpl; split; try done; try (exists []; by rewrite app_nil_r);
    try (intros held busy; by apply inv_alike); intros window owed _ Hc; specialize (Hpos _ _ Hc); [lia|].
  destruct Hc. split; try done; simpl; [|lia]. change (unreleased _) with (unreleased x). rewrite c_count, Hn. lia.
Qed.

Lemma keeps_client a x : keeps x (client_step a x).
Proof.
  destruct a; simpl.
  - apply keeps_reserve.
  - apply keeps_fail.
  - apply keeps_publish.
  - apply keeps_release.
  - apply keeps_return.
  - apply keeps_same, same_update; done.
  - by apply keeps_same.
Qed.

Lemma keeps_others actions x : keeps x (others actions x).
Proof.
  revert x. induction actions as [|a actions IH]; intros x; [apply keeps_refl|].
  unfold others. simpl. etransitivity; [apply keeps_client|apply IH].
Qed.

End Keeps.
