(* ===== verification/ExecNeutral.v ===== *)
(** * The operations that keep the invariant

    Most of what the worker does changes nothing the invariant sees: planning,
    choosing lanes, publishing output, claiming and capturing, waiting for copies.
    [neutral m]: whatever [m] does, and whether it returns or throws, it is a [keeps]
    step; [silent m]: and it never throws.  The hint database [neutral] collects these operations; the tactic [neutral]
    proves a new one from its definition. *)

From stdpp Require Import prelude functions list list_numbers sorting gmap.
From Stdlib Require Import ZArith Lia.
From S2P Require Import Prelude Admission Capacity GenerationGuards ExecState ExecCore ExecPlanning ExecRounds ExecAdmit ExecWorker ExecLogic ExecKeeps.
#[local] Open Scope Z_scope.

Create HintDb neutral discriminated.

Section Neutral.
Context {I : Instance} {Opt : EngineOptions}.

(** [keeping T m]: [m] is a [keeps] step, and it can throw only if [T]. *)
Definition keeping {A} (T : Prop) (m : M A) : Prop :=
  forall x, wp m (fun _ y => keeps x y) (fun _ y => T /\ keeps x y) x.

Lemma wp_keeping {A} T (m : M A) (Q : A -> Executor -> Prop) (R : exn -> Executor -> Prop) x :
  keeping T m -> (forall a y, keeps x y -> Q a y) -> (forall e y, T -> keeps x y -> R e y) -> wp m Q R x.
Proof. intros H HQ HR. eapply wp_mono; [apply H|auto|]. intros e y [? ?]. auto. Qed.

Lemma keeping_ret {A} T (a : A) : keeping T (mret a).
Proof. intros x. apply wp_ret, keeps_refl. Qed.

Lemma keeping_bind {A B} T (m : M A) (k : A -> M B) : keeping T m -> (forall a, keeping T (k a)) -> keeping T (m ≫= k).
Proof.
  intros Hm Hk x. apply wp_bind. apply (wp_keeping T); [done| |done]. intros a y Hy.
  apply (wp_keeping T); [done| |]; intros; [|split; [done|]]; by transitivity y.
Qed.

Lemma keeping_exec T : keeping T exec.
Proof. intros x. apply wp_exec, keeps_refl. Qed.

Lemma keeping_request T q : keeping T (request q).
Proof. intros x. apply wp_request, keeps_refl. Qed.

Lemma keeping_modify T f : (forall x, same x (f x)) -> keeping T (modify f).
Proof. intros H x. apply wp_modify, keeps_same, H. Qed.

Lemma keeping_lock T : keeping T lock.
Proof. intros x. apply wp_lock. intros actions. apply keeps_others. Qed.

Lemma keeping_call {A} (op : st Env A) : keeping True (call op).
Proof. intros x. apply wp_call; intros; [|split; [done|]]; apply keeps_refl. Qed.

Lemma keeping_total {A} T (op : noexcept Env A) : keeping T (total op).
Proof. intros x. apply wp_total. intros. apply keeps_refl. Qed.

Lemma keeping_ask {A} T (f : Env -> A) : keeping T (ask f).
Proof. intros x. apply wp_ask. intros. apply keeps_refl. Qed.

Lemma keeping_throw {A} e : catchable e = true -> keeping True (throw (A:=A) e).
Proof. intros H x. apply wp_throw; [done|]. split; [done|apply keeps_refl]. Qed.

Lemma keeping_throw_if b e : catchable e = true -> keeping True (st_throw_if b e).
Proof. intros H x. apply wp_throw_if; [done| |]; intros; [|split; [done|]]; apply keeps_refl. Qed.

Lemma keeping_lift {A} (r : res A) : r ≠ Throw undefined -> keeping True (lift r).
Proof. intros H x. apply wp_lift; [intros; apply keeps_refl|]. intros e ->. split; [congruence|split; [done|apply keeps_refl]]. Qed.

Lemma keeping_try {A} T (m : M A) h :
  keeping True m -> (forall e, catchable e = true -> keeping T (h e)) -> keeping T (try_catch m h).
Proof.
  intros Hm Hh x. apply wp_try. apply (wp_keeping True); [done|done|]. intros e y _ Hy He.
  apply (wp_keeping T); [auto| |]; intros; [|split; [done|]]; by transitivity y.
Qed.

Lemma keeping_cleanup T m : keeping True m -> keeping T (run_secondary_cleanup m).
Proof. intros H. apply keeping_try; [done|]. intros e _. apply keeping_ret. Qed.

Lemma keeping_for_each {A} T (l : list A) body : (forall a, keeping T (body a)) -> keeping T (for_each l body).
Proof. intros H. induction l as [|a l IH]; simpl; [apply keeping_ret|apply keeping_bind; auto]. Qed.

Lemma keeping_update T q f :
  (forall r, vw (f r) = vw r) -> (forall r, flags (f r) = flags r) -> keeping T (update_request q f).
Proof. intros Hv Hf. apply keeping_modify. intros x. by apply same_update. Qed.

Lemma keeping_publication T q f : (forall p, done (f p) = done p) ->
  (forall p, consumer_released (f p) = consumer_released p) -> (forall p, capacity_released (f p) = capacity_released p) ->
  keeping T (update_publication q f).
Proof.
  intros Hd H1 H2. apply keeping_update; intros r; unfold vw, flags; simpl; by rewrite ?Hd, ?H1, ?H2.
Qed.

Lemma keeping_hold T f : (forall h, hold_view (f h) = hold_view h) -> keeping T (update_hold f).
Proof.
  intros H. apply keeping_modify. intros x. split; [split| | |]; try done. simpl.
  destruct (copy_hold x); simpl; by rewrite ?H.
Qed.

Lemma keeping_value {A} (o : option A) : keeping True (value o).
Proof. destruct o; [apply keeping_ret|by apply keeping_throw]. Qed.

Lemma keeping_view_prompt p : keeping True (view_prompt p).
Proof. destruct p; [apply keeping_ret|by apply keeping_throw]. Qed.

End Neutral.

Notation neutral := (keeping True).
Notation silent := (keeping False).

#[export] Hint Resolve keeping_ret keeping_exec keeping_request keeping_lock keeping_call keeping_total keeping_ask
  keeping_value keeping_view_prompt : neutral.

(** A field that the invariant does not see was set. *)
Ltac by_same := intros; repeat split; simpl; done.

Ltac neutral_step :=
  match goal with
  | |- forall _, _ => intro
  | |- keeping _ _ => solve [auto with neutral nocore]
  | |- keeping _ (mbind _ _) => apply keeping_bind
  | |- keeping _ (run_secondary_cleanup _) => apply keeping_cleanup
  | |- keeping _ (try_catch _ _) => apply keeping_try
  | |- keeping _ (for_each _ _) => apply keeping_for_each
  | H : catchable aborted = true |- _ => discriminate H
  | H : catchable undefined = true |- _ => discriminate H
  | |- keeping _ (throw _) => apply keeping_throw; first [reflexivity|assumption]
  | |- keeping _ (st_throw_if _ _) => apply keeping_throw_if; reflexivity
  | |- keeping _ (modify _) => apply keeping_modify; by_same
  | |- keeping _ (update_request _ _) => apply keeping_update; by_same
  | |- keeping _ (update_publication _ _) => apply keeping_publication; by_same
  | |- keeping _ (update_hold _) => apply keeping_hold; by_same
  | |- keeping _ (let '(_, _) := ?p in _) => destruct p
  | |- keeping _ (match ?o with _ => _ end) => destruct o
  end.

Ltac neutral := repeat neutral_step.

Section Core.
Context {I : Instance} {Opt : EngineOptions}.

Lemma keeping_invalidate T l : keeping T (invalidate_lane_plans l).
Proof. unfold invalidate_lane_plans. neutral. Qed.

Lemma keeping_release_planning T q : keeping T (release_planning_state q).
Proof. unfold release_planning_state. neutral. Qed.

Lemma keeping_publish_recovery T q k : keeping T (publish_recovery q k).
Proof. unfold publish_recovery. neutral. Qed.

Lemma keeping_close_turn T q calls reason : keeping T (close_turn q calls reason).
Proof. unfold close_turn. neutral. Qed.

Lemma append_text_view r output : vw (foldl append_text r output) = vw r /\ flags (foldl append_text r output) = flags r.
Proof.
  revert r. induction output as [|d output IH]; intros r; [done|]. simpl. destruct (IH (append_text r d)) as [-> ->].
  unfold append_text. by destruct (channel d).
Qed.

Lemma keeping_append T q output : keeping T (append_output q output).
Proof.
  unfold append_output. case_bool_decide; [neutral|]. apply keeping_bind.
  - apply keeping_update; intros r; apply append_text_view.
  - neutral.
Qed.

(** The waiting count equals the length of the queue already. *)
Lemma keeps_waiting x : keeps x (publish_waiting x).
Proof.
  split; try done; [intros held busy []; by split|intros window owed _ []; by split|exists []; by rewrite app_nil_r].
Qed.

Lemma keeping_stats T : keeping T publish_runtime_stats.
Proof. unfold publish_runtime_stats. apply keeping_bind; [neutral|]. intros _ x. apply wp_modify, keeps_waiting. Qed.

Lemma keeping_release_host T : keeping T release_copy_hold_host.
Proof. unfold release_copy_hold_host. neutral. Qed.

End Core.

#[export] Hint Resolve keeping_invalidate keeping_release_planning keeping_publish_recovery
  keeping_close_turn keeping_append keeping_stats keeping_release_host : neutral.

(** ** Planning keeps the invariant

    The planning operations dereference the request's base plan.  [planned q m]: from a
    state in which [q] has one, [m] is a [keeps] step after which it still has one. *)

Create HintDb planned discriminated.

Section Planned.
Context {I : Instance} {Opt : EngineOptions}.

Definition has_base (r : Request) : Prop := is_Some (base_plan (planning r)).
Definition based (q : Z) (x : Executor) : Prop := has_base (requests x q).

Definition keeps_base (q : Z) (x y : Executor) : Prop := keeps x y /\ based q y.

Definition planned {A} (q : Z) (m : M A) : Prop :=
  forall x, based q x -> wp m (fun _ y => keeps_base q x y) (fun _ y => keeps_base q x y) x.

Lemma keeps_base_refl q x : based q x -> keeps_base q x x.
Proof. split; [apply keeps_refl|done]. Qed.

Lemma keeps_base_trans q x y z : keeps_base q x y -> keeps_base q y z -> keeps_base q x z.
Proof. intros [H1 _] [H2 H3]. split; [by transitivity y|done]. Qed.

Lemma wp_planned {A} q (m : M A) (Q : A -> Executor -> Prop) (R : exn -> Executor -> Prop) x :
  planned q m -> based q x -> (forall a y, keeps_base q x y -> Q a y) -> (forall e y, keeps_base q x y -> R e y) -> wp m Q R x.
Proof. intros H Hb HQ HR. eapply wp_mono; [by apply H|auto|auto]. Qed.

Lemma planned_bind {A B} q (m : M A) (k : A -> M B) : planned q m -> (forall a, planned q (k a)) -> planned q (m ≫= k).
Proof.
  intros Hm Hk x Hx. apply wp_bind. apply (wp_planned q); [done|done| |done]. intros a y Hy.
  apply (wp_planned q); [done|apply Hy| |]; intros ? z Hz; by eapply keeps_base_trans.
Qed.

Lemma planned_ret {A} q (a : A) : planned q (mret a).
Proof. intros x Hx. by apply wp_ret, keeps_base_refl. Qed.

(** What is read before a dereference. *)
Lemma planned_exec {B} q (k : Executor -> M B) : (forall x, based q x -> planned q (k x)) -> planned q (exec ≫= k).
Proof. intros Hk x Hx. apply wp_bind, wp_exec. by apply Hk. Qed.

Lemma planned_request {B} q (k : Request -> M B) : (forall r, has_base r -> planned q (k r)) -> planned q (request q ≫= k).
Proof. intros Hk x Hx. apply wp_bind, wp_request. by apply Hk. Qed.

Lemma planned_deref q r : has_base r -> planned q (deref (base_plan (planning r))).
Proof. intros [b Hb]. rewrite Hb. apply planned_ret. Qed.

Lemma planned_call {A} q (op : st Env A) : planned q (call op).
Proof. intros x Hx. apply wp_call; intros; by apply keeps_base_refl. Qed.

Lemma planned_total {A} q (op : noexcept Env A) : planned q (total op).
Proof. intros x Hx. apply wp_total. intros; by apply keeps_base_refl. Qed.

Lemma planned_ask {A} q (f : Env -> A) : planned q (ask f).
Proof. intros x Hx. apply wp_ask. intros; by apply keeps_base_refl. Qed.

Lemma planned_throw {A} q e : catchable e = true -> planned q (throw (A:=A) e).
Proof. intros He x Hx. by apply wp_throw, keeps_base_refl. Qed.

Lemma planned_value {A} q (o : option A) : planned q (value o).
Proof. destruct o; [apply planned_ret|by apply planned_throw]. Qed.

Lemma planned_view q p : planned q (view_prompt p).
Proof. destruct p; [apply planned_ret|by apply planned_throw]. Qed.

Lemma planned_try {A} q (m : M A) h : planned q m -> (forall e, catchable e = true -> planned q (h e)) -> planned q (try_catch m h).
Proof.
  intros Hm Hh x Hx. apply wp_try. apply (wp_planned q); [done|done|done|]. intros e y Hy He.
  apply (wp_planned q); [auto|apply Hy| |]; intros ? z Hz; by eapply keeps_base_trans.
Qed.

Lemma planned_update q f : (forall r, vw (f r) = vw r) -> (forall r, flags (f r) = flags r) ->
  (forall r, base_plan (planning (f r)) = base_plan (planning r)) -> planned q (update_request q f).
Proof.
  intros Hv Hf Hb x Hx. apply wp_modify. split; [by apply keeps_same, same_update|].
  unfold based, has_base. simpl. by rewrite fn_lookup_insert, Hb.
Qed.

Lemma planned_planning q f : (forall p, base_plan (f p) = base_plan p) -> planned q (update_planning q f).
Proof. intros H. apply planned_update; by_same || intros r; simpl; apply H. Qed.

End Planned.

#[export] Hint Resolve planned_ret planned_call planned_total planned_ask planned_value planned_view planned_deref : planned.

Ltac planned_step :=
  match goal with
  | |- forall _, _ => intro
  | |- planned _ _ => solve [auto with planned nocore]
  | |- planned _ (exec ≫= _) => apply planned_exec
  | |- planned ?q (request ?q ≫= _) => apply planned_request
  | |- planned _ (mbind _ _) => apply planned_bind
  | |- planned _ (try_catch _ _) => apply planned_try
  | H : catchable aborted = true |- _ => discriminate H
  | H : catchable undefined = true |- _ => discriminate H
  | |- planned _ (throw _) => apply planned_throw; first [reflexivity|assumption]
  | |- planned _ (update_planning _ _) => apply planned_planning; done
  | |- planned _ (update_request _ _) => apply planned_update; by_same
  | |- planned _ (let '(_, _) := ?p in _) => destruct p
  | |- planned _ (match ?o with _ => _ end) => destruct o
  end.

Ltac planned := repeat planned_step.

Section Operations.
Context {I : Instance} {Opt : EngineOptions}.

Lemma planned_lane_plan q l : planned q (ensure_lane_plan q l).
Proof.
  unfold ensure_lane_plan. apply planned_exec. intros x Hx.
  unfold based in Hx. planned.
Qed.

Lemma planned_optional q lookup : planned q lookup -> planned q (optional_host_reuse_plan lookup).
Proof. intros H. unfold optional_host_reuse_plan. planned. Qed.

Lemma planned_ram q : planned q (ensure_ram_candidate q).
Proof. unfold ensure_ram_candidate. planned. apply planned_optional. planned. Qed.

Lemma planned_disk q : planned q (ensure_disk_candidate q).
Proof. unfold ensure_disk_candidate. planned. apply planned_optional. planned. Qed.

End Operations.

#[export] Hint Resolve planned_lane_plan planned_ram planned_disk : planned.

Section Choices.
Context {I : Instance} {Opt : EngineOptions}.

Lemma planned_protect q l keep active : planned q (protect_sources q l keep active).
Proof. revert keep active. induction l as [|a l IH]; intros keep active; simpl; planned; apply IH. Qed.

Lemma planned_fork q : planned q (find_fork_lane q).
Proof. unfold find_fork_lane. apply planned_bind; [apply planned_protect|]. planned. Qed.

Lemma planned_vram q evict l selected : planned q (vram_pass q evict l selected).
Proof. revert selected. induction l as [|a l IH]; intros selected; simpl; planned; apply IH. Qed.

Lemma planned_feasible q l : planned q (lane_feasible q l).
Proof. induction l as [|a l IH]; simpl; planned; apply IH. Qed.

Lemma planned_host q evict selected : planned q (host_pass q evict selected).
Proof. unfold host_pass. planned. Qed.

Lemma planned_admission_lane q : planned q (find_admission_lane q).
Proof.
  unfold find_admission_lane. apply planned_request. intros r Hr. destruct (negb (cache_write (options r))); [apply planned_fork|].
  apply planned_bind; [apply planned_feasible|]. intros feasible. destruct (negb feasible); [planned|].
  planned; first [apply planned_vram|apply planned_host].
Qed.

Lemma planned_interrupt q l selected : planned q (interrupt_lane q l selected).
Proof. revert selected. induction l as [|a l IH]; intros selected; simpl; planned; apply IH. Qed.

(** [ensure_base_plan] gives the request its base plan or throws. *)
Lemma wp_base_plan q (Q : unit -> Executor -> Prop) (R : exn -> Executor -> Prop) x :
  (forall y, keeps_base q x y -> Q tt y) -> (forall e y, keeps x y -> R e y) -> wp (ensure_base_plan q) Q R x.
Proof.
  intros HQ HR. unfold ensure_base_plan. apply wp_bind, wp_request, wp_bind.
  assert (wp (match base_plan (planning (requests x q)) with
    | Some _ => mret tt
    | None => p ← view_prompt (prompt (requests x q));
              base ← call (plan_request_base q p (execution_options (requests x q)));
              update_planning q (set_base_plan (Some base))
    end) (fun _ y => keeps_base q x y) (fun _ y => keeps x y) x) as H.
  { destruct (base_plan (planning (requests x q))) as [b|] eqn:E.
    - apply wp_ret, keeps_base_refl. by exists b.
    - apply wp_bind. apply (wp_keeping True); [auto with neutral| |auto]. intros p y Hy.
      apply wp_bind. apply wp_call; [|done]. intros base. apply wp_modify. split.
      + etransitivity; [exact Hy|]. by apply keeps_same, same_update.
      + unfold based, has_base. simpl. rewrite fn_lookup_insert. by eexists. }
  eapply wp_mono; [exact H| |exact HR]. intros _ y [Hk [b Hb]].
  apply wp_bind, wp_request, wp_bind. unfold based, has_base in Hb. rewrite Hb. apply wp_ret. apply wp_throw_if; [done| |].
  - intros _. apply HQ. split; [done|by exists b].
  - intros _. by apply HR.
Qed.

End Choices.
