(* ===== verification/ExecComplete.v ===== *)
(** * Completing a request

    A request completes once: its slot is freed, its outcome is published, and its
    capacity returns exactly when its caller has let go of it, whatever the
    interleaving of the two. *)

From stdpp Require Import prelude functions list list_numbers sorting gmap.
From Stdlib Require Import ZArith Lia.
From S2P Require Import Prelude Admission Capacity GenerationGuards ExecState ExecCore ExecPlanning ExecRounds ExecAdmit ExecWorker ExecLogic ExecKeeps ExecNeutral.
#[local] Open Scope Z_scope.

Section Complete.
Context {I : Instance} {Opt : EngineOptions}.

Definition ok (held : list Z) (busy : option nat) (x : Executor) : Prop := inv held busy x /\ cap None 0 x.

Lemma keeps_ok held busy x y : keeps x y -> ok held busy x -> ok held busy y.
Proof. intros H [Hi Hc]. split; [by apply H|]. apply H; [|done]. by eapply inv_ids. Qed.

(** What stays while request [q] and the slots change. *)
Record framed (q : Z) (x y : Executor) : Prop := MkFramed {
  f_prefill : prefill_lane y = prefill_lane x;
  f_hold : hold_view <$> copy_hold y = hold_view <$> copy_hold x;
  f_queue : recovery_queue y = recovery_queue x;
  f_protection : protection y = protection x;
  f_worker : worker y = worker x;
  f_failed : failed x = true -> failed y = true;
  f_submitted : forall p, p ∈ submitted x -> p ∈ submitted y;
  f_vw : forall p, p ∈ submitted x -> p ≠ q -> vw (requests y p) = vw (requests x p);
  f_pending : forall p, p ∈ submitted x -> (p ∈ pending y <-> p ∈ pending x);
  f_lane : q ∈ submitted x -> lane (requests y q) = lane (requests x q);
}.

Lemma framed_refl q x : framed q x x.
Proof. by split. Qed.

Lemma framed_trans q x y z : framed q x y -> framed q y z -> framed q x z.
Proof.
  intros [] []. split; auto; try congruence.
  - intros p Hp Hq. rewrite f_vw1 by auto. auto.
  - intros p Hp. rewrite f_pending1 by auto. auto.
  - intros Hq. rewrite f_lane1 by auto. auto.
Qed.

Lemma keeps_framed q held busy x y : keeps x y -> inv held busy x -> framed q x y.
Proof.
  intros H Hi. pose proof (inv_ids _ _ _ Hi) as Hw. split; try apply H.
  - intros p Hp _. by apply H.
  - intros p Hp. by apply H.
  - intros Hq. by destruct (vw_inv _ _ (k_vw _ _ H q Hq Hw)) as (_ & -> & _).
Qed.

(** ** Publishing the outcome *)
Definition finish_request (f : Publication -> Publication) (r : Request) : Request :=
  set_publication (set_done true (f (publication r))) r.

Definition quiet (f : Publication -> Publication) : Prop :=
  (forall p, done (f p) = done p) /\ (forall p, consumer_released (f p) = consumer_released p) /\
  (forall p, capacity_released (f p) = capacity_released p).

Lemma requests_update q r x p : requests (set_requests (<[q := r]> (requests x)) x) p = if decide (p = q) then r else requests x p.
Proof. simpl. destruct (decide (p = q)) as [->|Hne]; [by rewrite fn_lookup_insert|by rewrite fn_lookup_insert_ne]. Qed.

(** Marking [q] done takes it out of the worker's hands. *)
Lemma inv_finish held busy q f x : quiet f -> inv (q :: held) busy x -> q ∉ held ->
  inv held busy (set_requests (<[q := finish_request f (requests x q)]> (requests x)) x).
Proof.
  intros (Hf1 & Hf2 & Hf3) Hi Hq. destruct (i_held Hi q (list_elem_of_here _ _)) as (Hs & Hu & Hp & Hl).
  match goal with |- inv held busy ?z => set (y := z) end.
  assert (forall p, p ≠ q -> requests y p = requests x p) as Hne by (intros p Hp'; unfold y; by rewrite requests_update, decide_False).
  assert (forall p, queue_order (requests y p) = queue_order (requests x p)) as Ho.
  { intros p. unfold y. rewrite requests_update. by destruct (decide (p = q)) as [->|]. }
  destruct Hi. split; try done; unfold undone, is_done in *.
  - eapply StronglySorted_ext; [exact i_sorted|]. intros a b _ _. by rewrite !Ho.
  - intros p. rewrite Ho. by apply i_orders.
  - intros p p'. rewrite !Ho. by apply i_inj.
  - intros p Hp'. rewrite (Hne p) by (intros ->; done). by apply i_pending.
  - intros l p Hp'. rewrite (Hne p) by (intros ->; by eapply Hl). by apply i_slots.
  - intros p Hp'. rewrite (Hne p) by (intros ->; done). apply i_held. by right.
  - intros p Hp'. destruct (decide (p = q)) as [->|E].
    + left. unfold y. by rewrite requests_update, decide_True.
    + rewrite Hne by done. destruct (i_placed p Hp') as [?|[?|[?|[?|?]%elem_of_cons]]]; auto.
  - intros l p Hp' Hb. unfold one_role, roles. rewrite (Hne p) by (intros ->; by eapply Hl). by apply i_roles.
  - intros l p Hp' Hb. rewrite (Hne p) by (intros ->; by eapply Hl). by apply (i_queued l).
Qed.

Lemma flags_inv r r' : flags r = flags r' ->
  consumer_released (publication r) = consumer_released (publication r') /\
  capacity_released (publication r) = capacity_released (publication r').
Proof. by intros [= -> ->]. Qed.

Lemma cap_finish q f x : quiet f -> undone x q -> cap None 0 x ->
  cap (Some q) 0 (set_requests (<[q := finish_request f (requests x q)]> (requests x)) x).
Proof.
  intros (Hf1 & Hf2 & Hf3) Hu []. match goal with |- cap _ _ ?z => set (y := z) end.
  assert (forall p, flags (requests y p) = flags (requests x p)) as Hfl.
  { intros p. unfold y. rewrite requests_update. destruct (decide (p = q)) as [->|]; [|done].
    unfold flags, finish_request. simpl. by rewrite Hf2, Hf3. }
  assert (forall p, p ≠ q -> requests y p = requests x p) as Hne by (intros p Hp'; unfold y; by rewrite requests_update, decide_False).
  split; try done.
  - simpl. rewrite c_count. do 4 f_equal. unfold unreleased. apply length_filter_ext. intros p _.
    by destruct (flags_inv _ _ (Hfl p)) as [_ ->].
  - intros p Hp Hc. destruct (flags_inv _ _ (Hfl p)) as [H1 H2]. rewrite H1. rewrite H2 in Hc.
    destruct (c_released p Hp Hc) as [Hd Hr]. split; [|done]. destruct (decide (p = q)) as [->|E]; [|unfold is_done; by rewrite Hne].
    unfold undone in Hu. unfold is_done in Hd. congruence.
  - intros p Hp Hw. unfold is_done. rewrite Hne by congruence. by apply c_settled.
Qed.

Lemma cap_close q owed x : cap (Some q) owed x ->
  (consumer_released (publication (requests x q)) = true -> capacity_released (publication (requests x q)) = true) ->
  cap None owed x.
Proof. intros [] H. split; try done. intros p Hp _ Hd Hc. destruct (decide (p = q)) as [->|E]; [auto|]. apply c_settled; congruence. Qed.

(** Returning the capacity the worker took. *)
Lemma cap_return x : cap None 1 x -> cap None 0 (release_reserved_capacity x).
Proof.
  intros []. unfold release_reserved_capacity. destruct (Z.eqb_spec (outstanding x) 0); simpl; [lia|].
  split; try done; simpl; [|lia]. change (unreleased _) with (unreleased x). lia.
Qed.

Lemma keeps_release_capacity held busy x : inv held busy x -> inv held busy (release_reserved_capacity x).
Proof. apply inv_alike. unfold release_reserved_capacity. destruct (negb _); by split. Qed.

Lemma wp_settle held busy q x (Q : unit -> Executor -> Prop) R :
  inv held busy x -> cap (Some q) 0 x -> q ∈ submitted x -> is_done x q ->
  (forall y, ok held busy y -> framed q x y -> slots y = slots x -> suspended_prefill_lane y = suspended_prefill_lane x ->
     request_memory y = request_memory x -> is_done y q -> Q tt y) ->
  wp (settle_capacity q) Q R x.
Proof.
  intros Hi Hc Hs Hd HQ. unfold settle_capacity, mark_completed. apply wp_bind, wp_bind, wp_lock. intros actions.
  pose proof (keeps_others actions x) as K. set (y := others actions x) in *.
  assert (inv held busy y) as Hi' by (by apply K). assert (cap (Some q) 0 y) as Hc' by (apply K; [by eapply inv_ids|done]).
  assert (is_done y q) as Hd'.
  { unfold is_done. destruct (vw_inv _ _ (k_vw _ _ K q Hs (inv_ids _ _ _ Hi))) as (_ & _ & _ & _ & _ & ->). done. }
  pose proof (keeps_framed q _ _ _ _ K Hi) as F.
  apply wp_bind, wp_request. destruct (consumer_released (publication (requests y q)) &&
    negb (capacity_released (publication (requests y q)))) eqn:E.
  - apply andb_prop in E as [E1 E2%negb_true_iff]. apply wp_bind, wp_modify, wp_ret.
    match goal with |- wp _ _ _ ?w => set (z := w) end.
    assert (alike y z) as A by (split; try done; intros p; unfold z; rewrite requests_update; by destruct (decide (p = q)) as [->|]).
    assert (cap None 1 z) as Hz.
    { apply (cap_close q); [|intros _; unfold z; by rewrite requests_update, decide_True].
      eapply (cap_take (Some q) 0 1 y z q); try done.
      - by apply wf_submitted, (inv_ids held busy).
      - by apply K.
      - change (releasing z) with (releasing y). lia.
      - intros p Hp. unfold z. by rewrite requests_update, decide_False.
      - unfold is_done, z. by rewrite requests_update, decide_True.
      - unfold z. rewrite requests_update, decide_True by done. unfold flags. simpl. by rewrite E1. }
    assert (inv held busy z) as Hi'' by (by eapply inv_alike).
    apply wp_bind, wp_lock. intros actions'. pose proof (keeps_others actions' z) as K'. set (u := others actions' z) in *.
    assert (inv held busy u) as Hu by (by apply K').
    assert (cap None 1 u) as Hcu by (apply K'; [by eapply inv_ids|done]).
    apply wp_modify.
    assert (is_done z q) as Hdz by (unfold is_done, z; by rewrite requests_update, decide_True).
    assert (q ∈ submitted z) as Hsz by (by apply K).
    assert (framed q x (release_reserved_capacity u)) as F'.
    { eapply framed_trans; [exact F|]. eapply (framed_trans q y z).
      - split; try done; [intros p Hp Hpq|intros _]; unfold z; rewrite requests_update; by repeat case_decide.
      - eapply framed_trans; [by eapply keeps_framed|]. unfold release_reserved_capacity. destruct (negb _); by split. }
    apply HQ; [split; [by apply keeps_release_capacity|by apply cap_return]|exact F'| | | |];
      unfold release_reserved_capacity; destruct (negb _);
      try (etransitivity; [apply K'|apply K]);
      unfold is_done in *; simpl; destruct (vw_inv _ _ (k_vw _ _ K' q Hsz (inv_ids _ _ _ Hi''))) as (_ & _ & _ & _ & _ & ->); done.
  - apply wp_ret, wp_ret. apply HQ; try done; try apply K. split; [done|]. apply (cap_close q); [done|].
    intros E1. rewrite E1 in E. by apply negb_false_iff in E.
Qed.

(** The state after a completion, seen from before. *)
Record closed (q : Z) (x y : Executor) : Prop := MkClosed {
  z_framed : framed q x y;
  z_memory : request_memory y = request_memory x;
  z_done : is_done y q;
}.

Lemma wp_publish_outcome held busy q f x (Q : unit -> Executor -> Prop) R :
  quiet f -> ok (q :: held) busy x -> q ∉ held ->
  (forall y, ok held busy y -> closed q x y -> slots y = slots x -> suspended_prefill_lane y = suspended_prefill_lane x -> Q tt y) ->
  wp (publish_outcome q f) Q R x.
Proof.
  intros Hf Hok Hq HQ. unfold publish_outcome. apply wp_bind, wp_lock. intros actions.
  pose proof (keeps_others actions x) as K. set (y := others actions x) in *.
  pose proof (keeps_ok _ _ _ _ K Hok) as [Hi Hc]. pose proof (keeps_framed q _ _ _ _ K (proj1 Hok)) as F.
  destruct (i_held Hi q (list_elem_of_here _ _)) as (Hs & Hu & _).
  apply wp_bind, wp_request. unfold undone in Hu. rewrite Hu. apply wp_bind, wp_modify.
  match goal with |- wp _ _ _ ?w => set (z := w) end. change z with (set_requests (<[q := finish_request f (requests y q)]> (requests y)) y) in z.
  apply (wp_settle held busy); [by apply inv_finish|by apply cap_finish|done| |].
  - unfold is_done, z. by rewrite requests_update, decide_True.
  - intros w Hw Fw H1 H2 H3 Hd. apply HQ; [done| |by rewrite H1; apply K|by rewrite H2; apply K].
    split; [|by rewrite H3; apply K|done]. eapply framed_trans; [exact F|]. eapply framed_trans; [|exact Fw].
    split; try done; [intros p Hp Hpq|intros _]; unfold z; rewrite requests_update; by repeat case_decide.
Qed.

(** ** Freeing a slot *)
Lemma inv_unbusy held l x : (l < max_concurrency)%nat -> inv held (Some l) x -> slots x l = None -> inv held None x.
Proof.
  intros Hlt Hi Hl. assert (forall l' q, slots x l' = Some q -> ~ excused (Some l) l') as Hn.
  { intros l' q Hs E%excused_some; congruence. }
  destruct Hi. split; try done; [intros l' q Hs _; apply i_roles..|intros l' q Hs _; apply (i_queued l')|]; eauto.
  intros [_ [= ->]]%i_failed. lia.
Qed.

Lemma inv_weaken held busy x : inv held None x -> inv held busy x.
Proof.
  intros []. split; try done; [intros l q Hs _; apply i_roles|intros l q Hs _; apply (i_queued l)|]; auto using excused_none.
  intros [_ ?]%i_failed. done.
Qed.

Lemma slots_inj held busy x l l' q : inv held busy x -> slots x l = Some q -> slots x l' = Some q -> l = l'.
Proof.
  intros Hi H1 H2. destruct (i_slots Hi l q H1) as (_ & _ & _ & E1 & _). destruct (i_slots Hi l' q H2) as (_ & _ & _ & E2 & _). congruence.
Qed.

Definition freed (l : nat) (x : Executor) : Executor :=
  set_slots (<[l := None]> (slots x)) (if bool_decide (suspended_prefill_lane x = Some l) then set_suspended_prefill_lane None x else x).

Lemma freed_slots l x : slots (freed l x) = <[l := None]> (slots x).
Proof. done. Qed.

Lemma freed_suspended l x : suspended_prefill_lane (freed l x) =
  if bool_decide (suspended_prefill_lane x = Some l) then None else suspended_prefill_lane x.
Proof. unfold freed. by case_bool_decide. Qed.

(** The request of a lane without copies or prefill is taken off the lane. *)
Lemma inv_freed held busy busy' l q x : inv held busy x -> slots x l = Some q -> covers l busy busy' ->
  hold_lane <$> copy_hold x ≠ Some l -> prefill_lane x ≠ Some l -> inv (q :: held) busy' (freed l x).
Proof.
  intros Hi Hl Hb Hh Hp. pose proof (fun l' H => slots_inj _ _ _ l l' q Hi Hl H) as Hinj. pose proof (i_slots Hi l q Hl) as Hq.
  assert (forall l' p, slots (freed l x) l' = Some p -> l' ≠ l /\ slots x l' = Some p) as Hback.
  { intros l' p. rewrite freed_slots. destruct (decide (l' = l)) as [->|E]; [by rewrite fn_lookup_insert|by rewrite fn_lookup_insert_ne]. }
  assert (forall l', l' ≠ l -> slots (freed l x) l' = slots x l') as Hne by (intros l' E; rewrite freed_slots; by rewrite fn_lookup_insert_ne).
  assert (requests (freed l x) = requests x /\ pending (freed l x) = pending x /\ submitted (freed l x) = submitted x /\
    reserved (freed l x) = reserved x /\ copy_hold (freed l x) = copy_hold x /\ prefill_lane (freed l x) = prefill_lane x /\
    recovery_queue (freed l x) = recovery_queue x /\ worker (freed l x) = worker x /\ failed (freed l x) = failed x) as
    (Er & Ep & Es & Ee & Eh & Epf & Eq & Ew & Ef) by (unfold freed; by case_bool_decide).
  split; try (unfold freed; case_bool_decide; by apply Hi); unfold undone, is_done; rewrite ?Er, ?Ep, ?Es, ?Eh, ?Epf, ?Eq, ?Ew, ?Ef.
  - by intros l' p [_ H]%Hback; apply Hi.
  - intros p [->|H]%elem_of_cons.
    + split_and!; [apply Hq|apply Hq| |by intros l' [E ->%Hinj]%Hback].
      intros H%(i_pending Hi). destruct H as (_ & _ & H & _), Hq as (_ & _ & _ & H' & _). congruence.
    + destruct (i_held Hi p H) as (? & ? & ? & Hs). split_and!; try done. intros l' [_ H']%Hback. by eapply Hs.
  - intros p Hp'. destruct (i_placed Hi p Hp') as [?|[?|[[l' Hs]|?]]]; [by left|by right; left| |right; right; right; by right].
    destruct (decide (l' = l)) as [->|E]; [right; right; right|right; right; left; exists l'; by rewrite Hne].
    replace p with q by congruence. by left.
  - intros h Hh'. rewrite Hne; [by apply Hi|]. intros E. apply Hh. rewrite Hh'. simpl. by f_equal.
  - intros l' Hl'. rewrite Hne; [by apply (i_prefill Hi)|]. congruence.
  - intros l'. rewrite freed_suspended. case_bool_decide as E; [done|]. intros Hl'. rewrite Hne; [by apply (i_suspended Hi)|]. congruence.
  - intros l' p [E H]%Hback Hx. unfold one_role, roles. rewrite Er, Eh, Epf, freed_suspended.
    assert (one_role x l' p) as Ho by (apply (i_roles Hi); auto).
    unfold one_role, roles in Ho. destruct (decide (suspended_prefill_lane x = Some l)) as [E'|E'];
      [rewrite (bool_decide_eq_true_2 _ E')|by rewrite (bool_decide_eq_false_2 _ E')].
    rewrite (bool_decide_eq_false_2 (None = Some l')) by done.
    by rewrite (bool_decide_eq_false_2 (suspended_prefill_lane x = Some l')) in Ho by congruence.
  - intros l' p [E H]%Hback Hx. apply (i_queued Hi l'); auto.
  - intros E. destruct (i_failed Hi E) as [? ->]. split; [done|]. by eapply covers_all.
  - intros He. destruct (i_exited Hi He) as (_ & Hn). rewrite Hn in Hl. done.
Qed.

(** ** Retiring and completing *)

(** The lanes after the request of [l] left. *)
Record left_lane (l : nat) (x y : Executor) : Prop := MkLeft {
  l_slots : slots y = <[l := None]> (slots x);
  l_suspended : suspended_prefill_lane y = if bool_decide (suspended_prefill_lane x = Some l) then None else suspended_prefill_lane x;
}.

Record same_lanes (x y : Executor) : Prop := MkSameLanes {
  sl_slots : slots y = slots x;
  sl_suspended : suspended_prefill_lane y = suspended_prefill_lane x;
}.

Lemma keeps_lanes x y : keeps x y -> same_lanes x y.
Proof. by intros []. Qed.

Lemma framed_freed q l x : framed q x (freed l x).
Proof. unfold freed. by case_bool_decide; split. Qed.

Lemma cap_freed l x : cap None 0 x -> cap None 0 (freed l x).
Proof. unfold freed. case_bool_decide; by intros []; split. Qed.

Lemma wp_retire_slot held busy busy' q l x (Q : unit -> Executor -> Prop) R :
  ok held busy x -> slots x l = Some q -> covers l busy busy' ->
  hold_lane <$> copy_hold x ≠ Some l -> prefill_lane x ≠ Some l ->
  (forall y, ok (q :: held) busy' y -> framed q x y -> request_memory y = request_memory x -> left_lane l x y -> Q tt y) ->
  wp (retire_request q) Q R x.
Proof.
  intros [Hi Hc] Hl Hb Hh Hp HQ. destruct (i_slots Hi l q Hl) as (_ & _ & _ & Elane & _).
  unfold retire_request. apply wp_bind, wp_request, wp_bind. rewrite Elane. apply wp_bind, wp_exec, wp_bind.
  assert (wp (if bool_decide (suspended_prefill_lane x = Some l) then modify (set_suspended_prefill_lane None) else mret tt)
    (fun _ y => y = if bool_decide (suspended_prefill_lane x = Some l) then set_suspended_prefill_lane None x else x) R x) as H1
    by (case_bool_decide; [by apply wp_modify|by apply wp_ret]).
  eapply wp_mono; [exact H1| |done]. intros ? y Hy. rewrite bool_decide_eq_true_2 by done.
  unfold remove_completed_slot. apply wp_bind, wp_modify.
  assert (set_slots (<[l := None]> (slots y)) y = freed l x) as -> by (cbv beta in Hy; subst y; unfold freed; by case_bool_decide).
  apply (wp_keeping False); [auto with neutral| |done]. intros [] z Kz. apply (wp_keeping False); [auto with neutral| |done]. intros [] w Kw.
  assert (keeps (freed l x) w) as K by (by transitivity z).
  assert (ok (q :: held) busy' (freed l x)) as Hf by (split; [by eapply inv_freed|by apply cap_freed]).
  apply HQ.
  - by eapply keeps_ok.
  - eapply framed_trans; [apply framed_freed|]. by eapply keeps_framed; [|apply Hf].
  - rewrite (k_memory _ _ K). unfold freed. by case_bool_decide.
  - split; [by rewrite (k_slots _ _ K)|]. rewrite (k_suspended _ _ K). apply freed_suspended.
Qed.

Lemma wp_retire_held q x (Q : unit -> Executor -> Prop) R :
  (forall l, slots x l ≠ Some q) -> (forall l, lane (requests x q) = Some l -> suspended_prefill_lane x ≠ Some l) ->
  (forall y, keeps x y -> Q tt y) -> wp (retire_request q) Q R x.
Proof.
  intros Hs Hsus HQ. unfold retire_request. apply wp_bind, wp_request, wp_bind.
  destruct (lane (requests x q)) as [l|] eqn:E; [|apply wp_ret; apply (wp_keeping False); [auto with neutral|intros []; auto|done]].
  apply wp_bind, wp_exec, wp_bind. rewrite bool_decide_eq_false_2 by (by apply Hsus). apply wp_ret.
  rewrite bool_decide_eq_false_2 by (by apply Hs). apply wp_ret. apply (wp_keeping False); [auto with neutral|intros []; auto|done].
Qed.

Lemma wp_tail_slot held busy busy' q l f x (Q : unit -> Executor -> Prop) R :
  quiet f -> ok held busy x -> slots x l = Some q -> covers l busy busy' ->
  hold_lane <$> copy_hold x ≠ Some l -> prefill_lane x ≠ Some l ->
  (forall y, ok held busy' y -> closed q x y -> left_lane l x y -> Q tt y) ->
  wp (retire_request q ;; publish_outcome q f) Q R x.
Proof.
  intros Hf Hok Hl Hb Hh Hp HQ. apply wp_bind. eapply wp_retire_slot; [done..|]. intros y Hy Fy My Ly.
  eapply wp_publish_outcome; [done|exact Hy| |].
  - intros H. destruct Hok as [Hi _]. destruct (i_held Hi q H) as (_ & _ & _ & Hn). by apply (Hn l).
  - intros z Hz [Fz Mz Dz] S1 S2. apply HQ; [done| |].
    + split; [by eapply framed_trans|by rewrite Mz|done].
    + split; [rewrite S1; apply Ly|rewrite S2; apply Ly].
Qed.

Lemma wp_tail_held held busy q f x (Q : unit -> Executor -> Prop) R :
  quiet f -> ok (q :: held) busy x -> q ∉ held -> (forall l, lane (requests x q) = Some l -> suspended_prefill_lane x ≠ Some l) ->
  (forall y, ok held busy y -> closed q x y -> same_lanes x y -> Q tt y) ->
  wp (retire_request q ;; publish_outcome q f) Q R x.
Proof.
  intros Hf Hok Hq Hl HQ. pose proof Hok as [Hi _]. destruct (i_held Hi q (list_elem_of_here _ _)) as (_ & _ & _ & Hs).
  apply wp_bind. apply wp_retire_held; [done..|]. intros y K.
  eapply wp_publish_outcome; [done|by eapply keeps_ok|done|]. intros z Hz [Fz Mz Dz] S1 S2. apply HQ; [done| |].
  - split; [|by rewrite Mz; apply K|done]. eapply framed_trans; [by eapply keeps_framed|done].
  - split; [rewrite S1; apply K|rewrite S2; apply K].
Qed.

Lemma quiet_error e : quiet (set_error e).
Proof. by split_and!. Qed.
Lemma quiet_result r : quiet (set_result r).
Proof. by split_and!. Qed.

(** What is known about a request before it completes: it is in a lane that has no
    copies or prefill, or only the worker holds it. *)
Definition on_lane (held : list Z) (busy busy' : option nat) (q : Z) (l : nat) (x : Executor) : Prop :=
  ok held busy x /\ slots x l = Some q /\ covers l busy busy' /\
  hold_lane <$> copy_hold x ≠ Some l /\ prefill_lane x ≠ Some l.

Definition in_hand (held : list Z) (busy : option nat) (q : Z) (x : Executor) : Prop :=
  ok (q :: held) busy x /\ q ∉ held /\ forall l, lane (requests x q) = Some l -> suspended_prefill_lane x ≠ Some l.

Lemma keeps_on_lane held busy busy' q l x y : keeps x y -> on_lane held busy busy' q l x -> on_lane held busy busy' q l y.
Proof.
  intros K (Hok & Hl & Hb & Hh & Hp). split_and!; [by eapply keeps_ok|by rewrite (k_slots _ _ K)|done| |by rewrite (k_prefill _ _ K)].
  destruct (hold_view_lane _ _ (k_hold _ _ K)) as [-> _]. done.
Qed.

Lemma keeps_in_hand held busy q x y : keeps x y -> in_hand held busy q x -> in_hand held busy q y.
Proof.
  intros K (Hok & Hq & Hl). split_and!; [by eapply keeps_ok|done|]. pose proof Hok as [Hi _].
  destruct (i_held Hi q (list_elem_of_here _ _)) as (Hs & _).
  destruct (vw_inv _ _ (k_vw _ _ K q Hs (inv_ids _ _ _ Hi))) as (_ & -> & _). by rewrite (k_suspended _ _ K).
Qed.

(** The result of a completion after some [keeps] steps, seen from their start. *)
Lemma closed_keeps held busy q x y z : keeps x y -> inv held busy x -> closed q y z -> closed q x z.
Proof.
  intros K Hi [F M D]. split; [|by rewrite M; apply K|done]. eapply framed_trans; [by eapply keeps_framed|done].
Qed.

Lemma left_keeps l x y z : keeps x y -> left_lane l y z -> left_lane l x z.
Proof. intros K [L1 L2]. split; [by rewrite L1, (k_slots _ _ K)|by rewrite L2, (k_suspended _ _ K)]. Qed.

Lemma lanes_keeps x y z : keeps x y -> same_lanes y z -> same_lanes x z.
Proof. intros K [L1 L2]. split; [by rewrite L1, (k_slots _ _ K)|by rewrite L2, (k_suspended _ _ K)]. Qed.

(** A completion: a [silent] or [neutral] prefix, then retirement and publication. *)
Definition completes (R : exn -> Executor -> Prop) (q : Z) (m : M unit) : Prop :=
  (forall held busy busy' l x (Q : unit -> Executor -> Prop), on_lane held busy busy' q l x ->
     (forall y, ok held busy' y -> closed q x y -> left_lane l x y -> Q tt y) -> wp m Q R x) /\
  (forall held busy x (Q : unit -> Executor -> Prop), in_hand held busy q x ->
     (forall y, ok held busy y -> closed q x y -> same_lanes x y -> Q tt y) -> wp m Q R x).

Lemma completes_tail R q f : quiet f -> completes R q (retire_request q ;; publish_outcome q f).
Proof.
  intros Hf. split.
  - intros held busy busy' l x Q (Hok & Hl & Hb & Hh & Hp) HQ. by eapply wp_tail_slot.
  - intros held busy x Q (Hok & Hq & Hl) HQ. by eapply wp_tail_held.
Qed.

Lemma completes_bind {A} R q (m : M A) k : silent m -> (forall a, completes R q (k a)) -> completes R q (m ≫= k).
Proof.
  intros Hm Hk. split.
  - intros held busy busy' l x Q H HQ. apply wp_bind. apply (wp_keeping False); [done| |done]. intros a y K.
    eapply (proj1 (Hk a)); [by eapply keeps_on_lane|]. intros z Hz Cz Lz. destruct H as [[Hi _] _].
    apply HQ; [done|by eapply closed_keeps|by eapply left_keeps].
  - intros held busy x Q H HQ. apply wp_bind. apply (wp_keeping False); [done| |done]. intros a y K.
    eapply (proj2 (Hk a)); [by eapply keeps_in_hand|]. intros z Hz Cz Lz. destruct H as [[Hi _] _].
    apply HQ; [done|by eapply closed_keeps|by eapply lanes_keeps].
Qed.

Lemma completes_error R q e : completes R q (complete_error q e).
Proof.
  unfold complete_error. apply completes_bind; [auto with neutral|]. intros _. apply completes_bind; [neutral|]. intros _.
  apply completes_tail, quiet_error.
Qed.

Lemma completes_success R q reason : completes R q (complete_success q reason).
Proof.
  unfold complete_success. repeat (apply completes_bind; [solve [neutral]|intros ?]). apply completes_tail, quiet_result.
Qed.

End Complete.
