(* ===== verification/ExecLanes.v ===== *)
(** * Moving a lane to its next role

    Between two roles of an occupied lane the invariant holds with that lane busy.
    [shift l q]: only the roles of lane [l] and of its request change.  [touches l]: what
    an operation on lane [l] leaves alone. *)

From stdpp Require Import prelude functions list list_numbers sorting gmap.
From Stdlib Require Import ZArith Lia.
From S2P Require Import Prelude Admission Capacity GenerationGuards ExecState ExecCore ExecPlanning ExecRounds ExecAdmit ExecWorker ExecLogic ExecKeeps ExecNeutral ExecComplete.
#[local] Open Scope Z_scope.

Section Lanes.
Context {I : Instance} {Opt : EngineOptions}.

(** ** Other lanes *)
Definition points (p : option nat) (l : nat) : Prop := p = Some l.
Definition hold_at (x : Executor) : option nat := hold_lane <$> copy_hold x.

Record touches (l : nat) (x y : Executor) : Prop := MkTouches {
  t_slots : forall l', l' ≠ l -> slots y l' = slots x l';
  t_vw : forall l' p, l' ≠ l -> slots x l' = Some p -> vw (requests y p) = vw (requests x p);
  t_hold : forall l', l' ≠ l -> (hold_at y = Some l' <-> hold_at x = Some l');
  t_prefill : forall l', l' ≠ l -> (prefill_lane y = Some l' <-> prefill_lane x = Some l');
  t_suspended : forall l', l' ≠ l -> (suspended_prefill_lane y = Some l' <-> suspended_prefill_lane x = Some l');
  t_queue : forall p, p ∈ recovery_queue x -> p ∈ recovery_queue y;
  t_worker : worker y = worker x;
  t_self : slots y l = slots x l \/ slots y l = None;
}.

Lemma touches_refl l x : touches l x x.
Proof. split; auto. Qed.

Lemma touches_trans l x y z : touches l x y -> touches l y z -> touches l x z.
Proof.
  intros [] []. split; auto; try congruence; try (destruct t_self1 as [->| ->]; auto).
  - intros l' E. rewrite t_slots1 by done. auto.
  - intros l' p E Hp. rewrite (t_vw1 l') by (try done; by rewrite t_slots0). by apply (t_vw0 l').
  - intros l' E. rewrite t_hold1 by done. auto.
  - intros l' E. rewrite t_prefill1 by done. auto.
  - intros l' E. rewrite t_suspended1 by done. auto.
Qed.

Lemma keeps_touches l held busy x y : keeps x y -> inv held busy x -> touches l x y.
Proof.
  intros K Hi. split.
  - intros l' _. by rewrite (k_slots _ _ K).
  - intros l' p _ Hp. apply K; [by apply (i_slots Hi l')|by eapply inv_ids].
  - intros l' _. unfold hold_at. by destruct (hold_view_lane _ _ (k_hold _ _ K)) as [-> _].
  - intros l' _. by rewrite (k_prefill _ _ K).
  - intros l' _. by rewrite (k_suspended _ _ K).
  - intros p. by rewrite (k_queue _ _ K).
  - apply K.
  - left. by rewrite (k_slots _ _ K).
Qed.

Lemma closed_touches held busy q l x y : inv held busy x -> slots x l = Some q -> closed q x y -> left_lane l x y -> touches l x y.
Proof.
  intros Hi Hl [[] _ _] [L1 L2]. split.
  - intros l' E. rewrite L1. by rewrite fn_lookup_insert_ne.
  - intros l' p E Hp. apply f_vw; [by apply (i_slots Hi l')|]. intros ->. apply E. by eapply slots_inj.
  - intros l' _. unfold hold_at. by destruct (hold_view_lane _ _ f_hold) as [-> _].
  - intros l' _. by rewrite f_prefill.
  - intros l' E. rewrite L2. case_bool_decide as E'; [|done]. rewrite E'. split; congruence.
  - intros p. by rewrite f_queue.
  - done.
  - right. rewrite L1. by rewrite fn_lookup_insert.
Qed.

Lemma left_slot l x y : left_lane l x y -> slots y l = None.
Proof. intros [-> _]. by rewrite fn_lookup_insert. Qed.

(** ** Shifting roles *)
Record shift (l : nat) (q : Z) (x y : Executor) : Prop := MkShift {
  h_submitted : submitted y = submitted x;
  h_reserved : reserved y = reserved x;
  h_id : next_request_id y = next_request_id x;
  h_order : next_queue_order y = next_queue_order x;
  h_pending : pending y = pending x;
  h_waiting : published_waiting y = published_waiting x;
  h_slots : slots y = slots x;
  h_worker : worker y = worker x;
  h_failed : failed y = failed x;
  h_outstanding : outstanding y = outstanding x;
  h_releasing : releasing y = releasing x;
  h_other : forall p, p ≠ q -> requests y p = requests x p;
  h_self : queue_order (requests y q) = queue_order (requests x q) /\ lane (requests y q) = lane (requests x q) /\
    done (publication (requests y q)) = done (publication (requests x q)) /\ flags (requests y q) = flags (requests x q) /\
    (is_Some (budget (requests x q)) -> is_Some (budget (requests y q)));
  h_hold_other : forall l', l' ≠ l -> (hold_at y = Some l' <-> hold_at x = Some l');
  h_hold : forall h, copy_hold y = Some h -> slots y (hold_lane h) = Some (hold_request h);
  h_excl : forall h l, copy_hold y = Some h -> prefill_lane y = Some l -> hold_lane h = l;
  h_prefill : forall l', l' ≠ l -> (prefill_lane y = Some l' <-> prefill_lane x = Some l');
  h_suspended : forall l', l' ≠ l -> (suspended_prefill_lane y = Some l' <-> suspended_prefill_lane x = Some l');
  h_queue : forall p, p ≠ q -> p ∈ recovery_queue x -> p ∈ recovery_queue y;
  h_memory : active_bytes (request_memory y) ≠ 0 -> is_Some (prefill_lane y);
}.

Lemma roles_iff x y l q : (hold_at y = Some l <-> hold_at x = Some l) -> (prefill_lane y = Some l <-> prefill_lane x = Some l) ->
  (suspended_prefill_lane y = Some l <-> suspended_prefill_lane x = Some l) ->
  decode_ready (requests y q) = decode_ready (requests x q) ->
  recovery_pending (recovery (requests y q)) = recovery_pending (recovery (requests x q)) -> roles y l q = roles x l q.
Proof.
  intros H1 H2 H3 H4 H5. unfold roles. fold (hold_at y) (hold_at x).
  by rewrite (bool_decide_ext _ _ H1), (bool_decide_ext _ _ H2), (bool_decide_ext _ _ H3), H4, H5.
Qed.

Lemma inv_shift held busy l q x y : inv held busy x -> slots x l = Some q -> busy_on l busy ->
  shift l q x y -> inv held (Some l) y.
Proof.
  intros Hi Hl Hb [Es Er Eid Eo Ep Ew Esl Ewk Ef _ _ Hne (S1 & S2 & S3 & _ & S5) Hh Hh' Hx Hp Hs Hq Hm].
  assert (forall p, queue_order (requests y p) = queue_order (requests x p) /\ lane (requests y p) = lane (requests x p) /\
    done (publication (requests y p)) = done (publication (requests x p)) /\ (is_Some (budget (requests x p)) -> is_Some (budget (requests y p)))) as Hv.
  { intros p. destruct (decide (p = q)) as [->|E]; [done|]. by rewrite Hne. }
  assert (forall l' p, slots x l' = Some p -> ~ excused (Some l) l' -> l' ≠ l /\ p ≠ q /\ ~ excused busy l') as Hstay.
  { intros l' p Hp' E. assert (l' ≠ l) as El by (intros ->; apply E; by left). split_and!; [done| |].
    - intros ->. apply El. by eapply slots_inj.
    - intros Hx'. apply E. destruct Hb as [->| ->]; [by apply excused_none in Hx'|done]. }
  destruct Hi. split; try done; unfold undone, is_done in *; rewrite ?Es, ?Er, ?Eid, ?Eo, ?Ep, ?Ew, ?Esl, ?Ewk, ?Ef; try done.
  - eapply StronglySorted_ext; [exact i_sorted|]. intros a b _ _. destruct (Hv a) as [-> _], (Hv b) as [-> _]. done.
  - intros p. destruct (Hv p) as [-> _]. apply i_orders.
  - intros p p'. destruct (Hv p) as [-> _], (Hv p') as [-> _]. apply i_inj.
  - intros p Hp'. destruct (i_pending p Hp') as (H1 & H2 & H3 & H4). rewrite Hne; [done|]. intros ->.
    destruct (i_slots l q Hl) as (_ & _ & _ & ? & _). congruence.
  - intros l' p Hp'. destruct (Hv p) as (_ & -> & -> & Hbud). destruct (i_slots l' p Hp') as (? & ? & ? & ? & ?). split_and!; auto.
  - intros p Hp'. destruct (Hv p) as (_ & _ & -> & _). by apply i_held.
  - intros p Hp'. destruct (Hv p) as (_ & _ & -> & _). by apply i_placed.
  - intros l'. destruct (decide (l' = l)) as [->|E]; [by rewrite Hl|]. rewrite Hp by done. apply i_prefill.
  - intros l'. destruct (decide (l' = l)) as [->|E]; [by rewrite Hl|]. rewrite Hs by done. apply i_suspended.
  - intros l' p Hp' E. destruct (Hstay l' p Hp' E) as (El & Epq & Eb).
    unfold one_role. rewrite (roles_iff x y); [by apply i_roles|by apply Hh|by apply Hp|by apply Hs|by rewrite Hne|by rewrite Hne].
  - intros l' p Hp' E. destruct (Hstay l' p Hp' E) as (El & Epq & Eb).
    rewrite Hne by done. intros H. apply Hq; [done|]. by apply (i_queued l').
  - intros [? E]%i_failed. split; [done|]. by destruct Hb as [->| ->].
Qed.

Lemma cap_shift l q x y : shift l q x y -> cap None 0 x -> cap None 0 y.
Proof.
  intros [Es Er _ _ _ _ _ _ _ Eo Erl Hne (_ & _ & S3 & S4 & _) _ _ _ _ _ _ _] Hc.
  assert (forall p, flags (requests y p) = flags (requests x p) /\ done (publication (requests y p)) = done (publication (requests x p))) as Hv.
  { intros p. destruct (decide (p = q)) as [->|E]; [done|]. by rewrite Hne. }
  destruct Hc. split; rewrite ?Eo, ?Er, ?Erl, ?Es; try done; unfold is_done in *.
  - rewrite c_count. do 4 f_equal. unfold unreleased. rewrite Es. apply length_filter_ext. intros p _.
    destruct (Hv p) as [Hf _]. by destruct (flags_inv _ _ Hf) as [_ ->].
  - intros p Hp. destruct (Hv p) as [Hf ->]. destruct (flags_inv _ _ Hf) as [-> ->]. by apply c_released.
  - intros p Hp. destruct (Hv p) as [Hf ->]. destruct (flags_inv _ _ Hf) as [-> ->]. by apply c_settled.
Qed.

Lemma ok_shift held busy l q x y : ok held busy x -> slots x l = Some q -> busy_on l busy ->
  shift l q x y -> ok held (Some l) y.
Proof. intros [Hi Hc] Hl Hb Hs. split; [by eapply inv_shift|by eapply cap_shift]. Qed.

Lemma shift_touches held busy l q x y : inv held busy x -> slots x l = Some q -> shift l q x y ->
  (forall p, p ∈ recovery_queue x -> p ∈ recovery_queue y) -> touches l x y.
Proof.
  intros Hi Hl S Hq. split; try apply S; try done.
  - intros l' _. by rewrite (h_slots _ _ _ _ S).
  - intros l' p E Hp. rewrite (h_other _ _ _ _ S); [done|]. intros ->. apply E. by eapply slots_inj.
  - left. by rewrite (h_slots _ _ _ _ S).
Qed.

(** The lane has its role again. *)
Lemma ok_settle held l q x : ok held (Some l) x -> slots x l = Some q -> one_role x l q ->
  (recovery_pending (recovery (requests x q)) = true -> q ∈ recovery_queue x) -> ok held None x.
Proof.
  intros [Hi Hc] Hl Ho Hq. split; [|done]. destruct (i_slots Hi l q Hl) as [Hlt _]. destruct Hi. split; try done; [intros l' p Hp _|intros l' p Hp _|].
  - destruct (decide (l' = l)) as [->|E]; [congruence|]. apply i_roles; [done|]. by intros ?%excused_some.
  - destruct (decide (l' = l)) as [->|E]; [replace p with q by congruence; done|]. apply (i_queued l'); [done|]. by intros ?%excused_some.
  - intros [_ [= E]]%i_failed. lia.
Qed.

Lemma ok_weaken held busy x : ok held None x -> ok held busy x.
Proof. intros [Hi Hc]. split; [by apply inv_weaken|done]. Qed.

Lemma ok_unbusy held l x : (l < max_concurrency)%nat -> ok held (Some l) x -> slots x l = None -> ok held None x.
Proof. intros Hlt [Hi Hc] Hl. split; [by eapply inv_unbusy|done]. Qed.

End Lanes.

(** ** Operations on one lane

    Releasing a prefill, draining a copy-hold, cancelling and failing the request of
    a lane.  Closing the output session of a request that is not terminal does not
    throw ([sessions_close]): a cancelled request has no other way to complete. *)

Definition sessions_close `{I : Instance} : Prop :=
  forall q e, session_terminal q e = false -> exists e', preview_terminal q Cancelled e = (Ok tt, e').

Section Ops.
Context {I : Instance} {Opt : EngineOptions} (Hclose : sessions_close).

(** ** Cancellation *)
Lemma silent_close q : silent (close_session q).
Proof.
  intros x e. unfold close_session, ask, mbind, st_bind. simpl. destruct (session_terminal q e) eqn:E; [apply keeps_refl|].
  destruct (Hclose q e E) as [e' He]. unfold call. simpl. rewrite He. simpl. unfold total. simpl.
  destruct (commit_preview q e') as [output e'']. exact (keeping_append False q output x e'').
Qed.

Lemma completes_cancelled R q : completes R q (complete_cancelled q).
Proof. unfold complete_cancelled. apply completes_bind; [apply silent_close|]. intros _. apply completes_success. Qed.

(** ** Prefill and copy-hold of a lane *)
Lemma hold_unique held busy l q h x : inv held busy x -> slots x l = Some q -> copy_hold x = Some h ->
  (hold_lane h = l <-> hold_request h = q).
Proof.
  intros Hi Hl Hh. pose proof (i_hold Hi h Hh) as Hs. split; [congruence|]. intros E. rewrite E in Hs. by eapply slots_inj.
Qed.

Lemma wp_release_prefill held busy l q x (Q : unit -> Executor -> Prop) R :
  ok held busy x -> slots x l = Some q -> busy_on l busy ->
  (forall y, ok held (Some l) y -> slots y = slots x -> suspended_prefill_lane y = suspended_prefill_lane x ->
     prefill_lane y ≠ Some l -> copy_hold y = copy_hold x -> requests y = requests x -> touches l x y -> Q tt y) ->
  wp (release_prefill l) Q R x.
Proof.
  intros Hok Hl Hb HQ. unfold release_prefill. apply wp_bind, wp_exec. case_bool_decide as E.
  - apply wp_modify. match goal with |- Q tt ?z => set (y := z) end.
    assert (shift l q x y) as S.
    { split; try done; [intros h Hh; by apply (i_hold (proj1 Hok))|].
      intros l' El. simpl. rewrite E. split; congruence. }
    assert (touches l x y) by (by eapply (shift_touches held busy); [apply Hok|..]).
    apply HQ; try done. by eapply ok_shift.
  - apply wp_ret. apply HQ; try done; try apply touches_refl. destruct Hb as [->| ->]; [by apply ok_weaken|done].
Qed.

Lemma keeping_evict T victims : keeping T (evict_victims victims).
Proof. unfold evict_victims. neutral. Qed.

Lemma keeping_evict_hold T : keeping T evict_copy_hold_victims.
Proof. unfold evict_copy_hold_victims. neutral. apply keeping_evict. Qed.

Lemma wp_drain held busy l q x (Q : unit -> Executor -> Prop) R :
  ok held busy x -> slots x l = Some q -> busy_on l busy -> hold_at x = Some l ->
  (forall y, ok held (Some l) y -> slots y = slots x -> suspended_prefill_lane y = suspended_prefill_lane x ->
     prefill_lane y = prefill_lane x -> copy_hold y = None -> vw (requests y q) = vw (requests x q) -> touches l x y -> Q tt y) ->
  wp drain_copy_hold_before_abort Q R x.
Proof.
  intros Hok Hl Hb Hh HQ. unfold drain_copy_hold_before_abort. apply wp_bind, wp_exec. unfold hold_at in Hh.
  destruct (copy_hold x) as [h|] eqn:E; [|done]. injection Hh as Hh.
  apply wp_bind. apply (wp_keeping False); [auto with neutral| |done]. intros _ y1 K1.
  apply wp_bind. apply (wp_keeping False); [apply keeping_evict_hold| |done]. intros _ y2 K2.
  apply wp_bind, wp_total. intros _. apply wp_modify. assert (keeps x y2) as K by (by transitivity y1).
  pose proof (keeps_ok _ _ _ _ K Hok) as Hok2. destruct (i_slots (proj1 Hok) l q Hl) as (_ & Hs & _).
  assert (slots y2 l = Some q) as Hl2 by (by rewrite (k_slots _ _ K)).
  assert (hold_at y2 = Some l) as Hh2.
  { unfold hold_at. destruct (hold_view_lane _ _ (k_hold _ _ K)) as [-> _]. rewrite E. simpl. by f_equal. }
  assert (shift l q y2 (set_copy_hold None y2)) as S.
  { split; try done; [|intros; by apply (i_memory (proj1 Hok2))]. intros l' El. rewrite Hh2. unfold hold_at. simpl. split; congruence. }
  apply HQ; [by eapply ok_shift|apply K|apply K|apply K|done|apply K; [done|]|]; [by eapply inv_ids, Hok|].
  eapply touches_trans; [eapply keeps_touches; [exact K|apply Hok]|]. by eapply shift_touches; [apply Hok2|..].
Qed.

(** The drain of a lane that may or may not have a hold. *)
Lemma wp_drain_if held busy l q (b : bool) x (Q : unit -> Executor -> Prop) R :
  ok held busy x -> slots x l = Some q -> busy_on l busy -> (b = true <-> hold_at x = Some l) ->
  (forall y, ok held (Some l) y -> slots y = slots x -> suspended_prefill_lane y = suspended_prefill_lane x ->
     prefill_lane y = prefill_lane x -> hold_at y ≠ Some l -> vw (requests y q) = vw (requests x q) -> touches l x y -> Q tt y) ->
  wp (if b then drain_copy_hold_before_abort else mret tt) Q R x.
Proof.
  intros Hok Hl Hb Hiff HQ. destruct b.
  - eapply wp_drain; [done..|by apply Hiff|]. intros y ? ? ? ? Hn ? ?. apply HQ; try done. unfold hold_at. by rewrite Hn.
  - apply wp_ret. apply HQ; try done; try apply touches_refl; [|by intros H%Hiff]. destruct Hb as [->| ->]; [by apply ok_weaken|done].
Qed.

(** ** A request no lane holds *)
Lemma inv_loose held busy q r x : (forall l, slots x l ≠ Some q) ->
  queue_order r = queue_order (requests x q) -> q ∉ pending x ->
  done (publication r) = done (publication (requests x q)) -> inv held busy x -> inv held busy (set_requests (<[q := r]> (requests x)) x).
Proof.
  intros Hs H1 H2 H3 Hi. match goal with |- inv held busy ?z => set (y := z) end.
  assert (forall p, p ≠ q -> requests y p = requests x p) as Hne by (intros p Hp'; unfold y; by rewrite requests_update, decide_False).
  assert (forall p, queue_order (requests y p) = queue_order (requests x p) /\
    done (publication (requests y p)) = done (publication (requests x p))) as Hv.
  { intros p. unfold y. rewrite requests_update. by destruct (decide (p = q)) as [->|]. }
  destruct Hi. split; try done; unfold undone, is_done in *.
  - eapply StronglySorted_ext; [exact i_sorted|]. intros a b _ _. destruct (Hv a) as [-> _], (Hv b) as [-> _]. done.
  - intros p. destruct (Hv p) as [-> _]. by apply i_orders.
  - intros p p'. destruct (Hv p) as [-> _], (Hv p') as [-> _]. by apply i_inj.
  - intros p Hp'. rewrite Hne by (intros ->; done). by apply i_pending.
  - intros l p Hp'. rewrite Hne by (intros ->; by eapply Hs). by apply i_slots.
  - intros p Hp'. destruct (Hv p) as (_ & ->). by apply i_held.
  - intros p Hp'. destruct (Hv p) as (_ & ->). by apply i_placed.
  - intros l p Hp'. unfold one_role, roles. rewrite Hne by (intros ->; by eapply Hs). by apply i_roles.
  - intros l p Hp'. rewrite Hne by (intros ->; by eapply Hs). by apply (i_queued l).
Qed.

Lemma ok_loose held busy q r x : (forall l, slots x l ≠ Some q) ->
  queue_order r = queue_order (requests x q) -> q ∉ pending x ->
  done (publication r) = done (publication (requests x q)) -> flags r = flags (requests x q) -> ok held busy x -> ok held busy (set_requests (<[q := r]> (requests x)) x).
Proof.
  intros Hs H1 H2 H3 H4 [Hi Hc]. split; [by apply inv_loose|].
  match goal with |- cap _ _ ?z => set (y := z) end.
  assert (forall p, flags (requests y p) = flags (requests x p) /\ done (publication (requests y p)) = done (publication (requests x p))) as Hv.
  { intros p. unfold y. rewrite requests_update. by destruct (decide (p = q)) as [->|]. }
  destruct Hc. split; try done; unfold is_done in *.
  - simpl. rewrite c_count. do 4 f_equal. unfold unreleased. apply length_filter_ext. intros p _.
    destruct (Hv p) as [Hf _]. by destruct (flags_inv _ _ Hf) as [_ ->].
  - intros p Hp. destruct (Hv p) as [Hf ->]. destruct (flags_inv _ _ Hf) as [-> ->]. by apply c_released.
  - intros p Hp. destruct (Hv p) as [Hf ->]. destruct (flags_inv _ _ Hf) as [-> ->]. by apply c_settled.
Qed.

(** ** Failing the request of a lane *)
Definition seated (held : list Z) (l : nat) (q : Z) (x : Executor) : Prop :=
  ok held (Some l) x /\ slots x l = Some q /\ suspended_prefill_lane x ≠ Some l.

Definition gone (held : list Z) (l : nat) (q : Z) (x : Executor) : Prop :=
  ok held None x /\ slots x l = None /\ q ∈ submitted x /\ is_done x q /\ lane (requests x q) = Some l.

(** Both complete errors leave the lane empty and the request done. *)
Lemma closed_gone held busy q l x y : inv held busy x -> slots x l = Some q -> ok held None y -> closed q x y -> left_lane l x y ->
  gone held l q y.
Proof.
  intros Hi Hl Hok [F M D] L. destruct (i_slots Hi l q Hl) as (_ & Hs & _ & Hlane & _).
  split_and!; [done|by eapply left_slot|by apply F|done|]. by rewrite (f_lane _ _ _ F Hs).
Qed.

Lemma bool_hold_request held busy l q x : inv held busy x -> slots x l = Some q ->
  (bool_decide (hold_request <$> copy_hold x = Some q) = true <-> hold_at x = Some l).
Proof.
  intros Hi Hl. rewrite bool_decide_eq_true. unfold hold_at. destruct (copy_hold x) as [h|] eqn:E; simpl; [|done].
  pose proof (hold_unique _ _ _ _ _ _ Hi Hl E). split; intros [= H']; f_equal; tauto.
Qed.

Lemma freed_touches held busy l q x : inv held busy x -> slots x l = Some q -> touches l x (freed l x).
Proof.
  intros Hi Hl. split; try (unfold freed; by case_bool_decide); try done.
  - intros l' E. rewrite freed_slots. by rewrite fn_lookup_insert_ne.
  - intros l' E. rewrite freed_suspended. case_bool_decide as E'; [|done]. rewrite E'. split; congruence.
  - right. rewrite freed_slots. by rewrite fn_lookup_insert.
Qed.

Lemma loose_touches l q r x : (forall l, slots x l ≠ Some q) -> touches l x (set_requests (<[q := r]> (requests x)) x).
Proof.
  intros Hs. split; try done; [|by left]. intros l' p _ Hp. rewrite requests_update, decide_False; [done|]. intros ->. by eapply Hs.
Qed.

Lemma hand_touches held busy l q x y : inv (q :: held) busy x -> closed q x y -> same_lanes x y -> touches l x y.
Proof.
  intros Hi [[] _ _] [L1 L2]. destruct (i_held Hi q (list_elem_of_here _ _)) as (_ & _ & _ & Hn). split.
  - intros l' _. by rewrite L1.
  - intros l' p _ Hp. apply f_vw; [by apply (i_slots Hi l')|]. intros ->. by eapply Hn.
  - intros l' _. unfold hold_at. by destruct (hold_view_lane _ _ f_hold) as [-> _].
  - intros l' _. by rewrite f_prefill.
  - intros l' _. by rewrite L2.
  - intros p. by rewrite f_queue.
  - done.
  - left. by rewrite L1.
Qed.

(** The request of a lane without a role is taken off it. *)
Lemma wp_remove_slot held l q z (Q : unit -> Executor -> Prop) R :
  seated held l q z -> hold_at z ≠ Some l -> prefill_lane z ≠ Some l ->
  (forall y, ok (q :: held) None y -> slots y l = None -> lane (requests y q) = Some l -> suspended_prefill_lane y ≠ Some l ->
     touches l z y -> Q tt y) ->
  wp (remove_completed_slot l) Q R z.
Proof.
  intros (Hz & Hlz & Hsus) Hh Hp HQ. unfold remove_completed_slot. apply wp_bind, wp_modify.
  assert (set_slots (<[l := None]> (slots z)) z = freed l z) as -> by (unfold freed; by rewrite bool_decide_eq_false_2).
  assert (ok (q :: held) None (freed l z)) as Hf.
  { split; [|by apply cap_freed, Hz]. destruct (i_slots (proj1 Hz) l q Hlz) as [Hlt _]. eapply inv_freed; [apply Hz|done|apply covers_none; [done|by right]|done|done]. }
  destruct (i_slots (proj1 Hz) l q Hlz) as (_ & Hsub & _ & Hlane & _).
  assert (requests (freed l z) = requests z /\ submitted (freed l z) = submitted z) as [Er Es] by (unfold freed; by case_bool_decide).
  apply (wp_keeping False); [auto with neutral| |done]. intros [] w Kw. apply HQ.
  - by eapply keeps_ok.
  - rewrite (k_slots _ _ Kw), freed_slots. by rewrite fn_lookup_insert.
  - destruct (vw_inv _ _ (k_vw _ _ Kw q (ltac:(by rewrite Es)) (inv_ids _ _ _ (proj1 Hf)))) as (_ & -> & _). by rewrite Er.
  - rewrite (k_suspended _ _ Kw), freed_suspended. case_bool_decide; congruence.
  - eapply touches_trans; [by eapply freed_touches; [apply Hz|]|]. by eapply keeps_touches; [|apply Hf].
Qed.

(** A request taken off its lane fails. *)
Lemma wp_fail_hand held l q e x (Q : unit -> Executor -> Prop) R : q ∉ held ->
  ok (q :: held) None x -> slots x l = None -> lane (requests x q) = Some l -> suspended_prefill_lane x ≠ Some l ->
  (forall y, gone held l q y -> touches l x y -> Q tt y) -> wp (complete_error q e) Q R x.
Proof.
  intros Hq Hok Hl Hlane Hsus HQ. destruct (i_held (proj1 Hok) q (list_elem_of_here _ _)) as (Hs & _).
  eapply (proj2 (completes_error R q e)).
  - split_and!; [done|done|]. intros l' E. congruence.
  - intros y Hy Cy Ly. apply HQ; [|by eapply hand_touches; [apply Hok|..]].
    split_and!; [done| |by apply Cy|by apply Cy|].
    + by rewrite (sl_slots _ _ Ly).
    + by rewrite (f_lane _ _ _ (z_framed _ _ _ Cy) Hs).
Qed.

Lemma wp_fail_seated held l q e x (Q : bool -> Executor -> Prop) R : q ∉ held ->
  seated held l q x -> (forall y, gone held l q y -> touches l x y -> Q (is_request_local_error e) y) ->
  wp (fail_admitted_request q l e) Q R x.
Proof.
  intros Hq (Hok & Hl & Hsus) HQ. unfold fail_admitted_request. apply wp_bind, wp_exec, wp_bind.
  eapply (wp_drain_if held (Some l)); [done|exact Hl|by right|by eapply bool_hold_request; [apply Hok|]|].
  intros y Hy Sy Sus Py Hh Vy Ty. apply wp_bind, wp_total. intros _.
  assert (slots y l = Some q) as Hly by (by rewrite Sy).
  apply wp_bind. eapply (wp_release_prefill held (Some l)); [done|exact Hly|by right|].
  intros z Hz Sz Susz Pz Cz Rz Tz. assert (slots z l = Some q) as Hlz by (by rewrite Sz).
  apply wp_bind, wp_exec, wp_bind. rewrite bool_decide_eq_true_2 by done.
  eapply wp_remove_slot; [split_and!; [exact Hz|exact Hlz|congruence]|unfold hold_at in *; by rewrite Cz|done|].
  intros w Hw Sw Lw Susw Tw. apply wp_bind, wp_modify. destruct (i_held (proj1 Hw) q (list_elem_of_here _ _)) as (_ & _ & Pw & Nw).
  match goal with |- wp _ _ _ ?u => set (u0 := u) end.
  assert (touches l x u0) as Tu.
  { eapply touches_trans; [exact Ty|]. eapply touches_trans; [exact Tz|]. eapply touches_trans; [exact Tw|]. by apply loose_touches. }
  apply wp_bind. eapply (wp_fail_hand held l); [done|by apply ok_loose|done| |done|].
  - unfold u0. by rewrite requests_update, decide_True.
  - intros v Gv Tv. apply wp_ret, HQ; [done|by eapply touches_trans].
Qed.

Lemma keeps_gone held l q x y : keeps x y -> gone held l q x -> gone held l q y.
Proof.
  intros K (Hok & Hl & Hs & Hd & Hlane). destruct (vw_inv _ _ (k_vw _ _ K q Hs (inv_ids _ _ _ (proj1 Hok)))) as (_ & E1 & _ & _ & _ & E2).
  split_and!; [by eapply keeps_ok|by rewrite (k_slots _ _ K)|by apply K|unfold is_done; by rewrite E2|by rewrite E1].
Qed.

Lemma gone_slots held l q x : gone held l q x -> forall l', slots x l' ≠ Some q.
Proof.
  intros (Hok & _ & _ & Hd & _) l' E. destruct (i_slots (proj1 Hok) l' q E) as (_ & _ & Hu & _).
  unfold undone, is_done in *. congruence.
Qed.

Lemma gone_pending held l q x : gone held l q x -> q ∉ pending x.
Proof.
  intros (Hok & _ & _ & Hd & _) Hq. destruct (i_pending (proj1 Hok) q Hq) as (_ & Hu & _). unfold undone, is_done in *. congruence.
Qed.

(** An error after the request completed publishes nothing. *)
Lemma wp_error_gone held l q e x (Q : unit -> Executor -> Prop) R :
  gone held l q x -> (forall y, gone held l q y -> touches l x y -> Q tt y) -> wp (complete_error q e) Q R x.
Proof.
  intros Hg HQ. unfold complete_error.
  apply wp_bind. apply (wp_keeping False); [auto with neutral| |done]. intros [] y1 K1.
  apply wp_bind. apply (wp_keeping False); [neutral| |done]. intros [] y2 K2.
  assert (gone held l q y2) as Hg2 by (eapply keeps_gone; [exact K2|by eapply keeps_gone]).
  assert (suspended_prefill_lane y2 ≠ Some l) as Hsus.
  { intros E%(i_suspended (proj1 (proj1 Hg2))). destruct Hg2 as (_ & Hl & _). rewrite Hl in E. by apply is_Some_None in E. }
  apply wp_bind. apply wp_retire_held; [by eapply gone_slots|intros l' E; destruct Hg2 as (_ & _ & _ & _ & E'); congruence|].
  intros y3 K3. unfold publish_outcome. apply wp_bind, wp_lock. intros actions. pose proof (keeps_others actions y3) as K4.
  set (z := others actions y3) in *.
  assert (keeps x z) as K by (transitivity y1; [done|]; transitivity y2; [done|]; by transitivity y3).
  pose proof (keeps_gone _ _ _ _ _ K Hg) as Hz. pose proof Hz as (_ & _ & _ & Hd & _).
  apply wp_bind, wp_request. unfold is_done in Hd. rewrite Hd. apply wp_ret, HQ; [done|].
  by eapply keeps_touches; [|apply Hg].
Qed.

(** Failing a request that completed already changes nothing. *)
Lemma wp_fail_gone held l q e x (Q : bool -> Executor -> Prop) R :
  gone held l q x -> (forall y, gone held l q y -> touches l x y -> Q (is_request_local_error e) y) ->
  wp (fail_admitted_request q l e) Q R x.
Proof.
  intros Hg HQ. pose proof (gone_slots _ _ _ _ Hg) as Hn. pose proof Hg as (Hok & Hl & Hs & Hd & Hlane).
  unfold fail_admitted_request. apply wp_bind, wp_exec, wp_bind. rewrite bool_decide_eq_false_2.
  2:{ destruct (copy_hold x) as [h|] eqn:E; [|done]. intros [= E']. apply (Hn (hold_lane h)). rewrite <- E'. by apply (i_hold (proj1 Hok)). }
  apply wp_ret, wp_bind, wp_total. intros _. apply wp_bind. unfold release_prefill. apply wp_bind, wp_exec.
  rewrite bool_decide_eq_false_2 by (intros E%(i_prefill (proj1 Hok)); rewrite Hl in E; by apply is_Some_None in E).
  apply wp_ret, wp_bind, wp_exec, wp_bind. rewrite bool_decide_eq_false_2 by done. apply wp_ret, wp_bind, wp_modify.
  match goal with |- wp _ _ _ ?u => set (y := u) end.
  assert (touches l x y) as Ty by (by apply loose_touches).
  assert (gone held l q y) as Gy.
  { split_and!; [apply ok_loose; try done; by eapply gone_pending|done|done| |]; unfold is_done, y; by rewrite requests_update, decide_True. }
  apply wp_bind. eapply wp_error_gone; [exact Gy|]. intros z Gz Tz. apply wp_ret, HQ; [done|by eapply touches_trans].
Qed.

End Ops.
