(* ===== verification/ExecGeneration.v ===== *)
(** * Lanes that generate

    Triples for the operations on a lane, whose state is the vector of its roles:
    [hoare l P m S E] says that from a state with [P] the operation [m] returns with [S]
    or throws with [E] and touches lane [l] only; the tactic [step] runs the operations
    that change no role.  With them, the operations that begin a generation. *)

From stdpp Require Import prelude functions list list_numbers sorting gmap.
From Stdlib Require Import ZArith Lia.
From S2P Require Import Prelude Admission Capacity GenerationGuards ExecState ExecCore ExecPlanning ExecRounds ExecAdmit ExecWorker ExecLogic ExecKeeps ExecNeutral ExecComplete ExecLanes.
#[local] Open Scope Z_scope.

Section Triples.
Context {I : Instance} {Opt : EngineOptions}.

(** ** The role vectors *)
Definition bare (d : bool) : list bool := [false; false; false; d; false].
Definition holding : list bool := [true; false; false; false; false].
Definition prefilling : list bool := [false; true; false; false; false].
Definition suspended : list bool := [false; false; true; false; false].
Definition retrying : list bool := [false; false; false; false; true].

Record lane_at (l : nat) (q : Z) (v : list bool) (x : Executor) : Prop := MkLaneAt {
  a_ok : ok [] (Some l) x;
  a_slot : slots x l = Some q;
  a_roles : roles x l q = v;
}.

(** A lane that failed: its request can still be failed, or it is gone already. *)
Definition stuck (l : nat) (q : Z) (x : Executor) : Prop := seated [] l q x \/ gone [] l q x.

(** A lane whose copies, if any, are over: only its prefill can still be staged. *)
Definition unheld (l : nat) (q : Z) (x : Executor) : Prop := exists p d r, lane_at l q [false; p; false; d; r] x.

Definition hoare {A} (l : nat) (P : Executor -> Prop) (m : M A) (S : A -> Executor -> Prop) (E : Executor -> Prop) : Prop :=
  forall x, P x -> wp m (fun a y => touches l x y /\ S a y) (fun _ y => touches l x y /\ E y) x.

Lemma hoare_mono {A} l (P P' : Executor -> Prop) (m : M A) (S S' : A -> Executor -> Prop) (E E' : Executor -> Prop) :
  hoare l P m S E -> (forall x, P' x -> P x) -> (forall a x, S a x -> S' a x) -> (forall x, E x -> E' x) -> hoare l P' m S' E'.
Proof. intros H HP HS HE x Hx. eapply wp_mono; [apply H; auto| |]; simpl; intros ? y [? ?]; auto. Qed.

Lemma hoare_ret {A} l (P : Executor -> Prop) (a : A) (S : A -> Executor -> Prop) E : (forall x, P x -> S a x) -> hoare l P (mret a) S E.
Proof. intros H x Hx. apply wp_ret. split; [apply touches_refl|auto]. Qed.

Lemma hoare_bind {A B} l P (m : M A) (k : A -> M B) (S : A -> Executor -> Prop) (S' : B -> Executor -> Prop) E :
  hoare l P m S E -> (forall a, hoare l (S a) (k a) S' E) -> hoare l P (m ≫= k) S' E.
Proof.
  intros Hm Hk x Hx. apply wp_bind. eapply wp_mono; [by apply Hm| |done]. intros a y [T1 Ha].
  eapply wp_mono; [by apply Hk| |]; intros ? z [T2 ?]; (split; [by eapply touches_trans|done]).
Qed.

Lemma hoare_value {A B} l P (a : A) (k : A -> M B) (S : B -> Executor -> Prop) E :
  hoare l P (k a) S E -> hoare l P (deref (Some a) ≫= k) S E.
Proof. intros H x Hx. apply wp_bind, wp_ret. by apply H. Qed.

Lemma hoare_value' {A B} l P (a : A) (k : A -> M B) (S : B -> Executor -> Prop) E :
  hoare l P (k a) S E -> hoare l P (value (Some a) ≫= k) S E.
Proof. intros H x Hx. apply wp_bind, wp_ret. by apply H. Qed.

Lemma hoare_exec {B} l P (k : Executor -> M B) (S : B -> Executor -> Prop) E :
  (forall x, P x -> hoare l (eq x) (k x) S E) -> hoare l P (exec ≫= k) S E.
Proof. intros H x Hx. apply wp_bind, wp_exec. by apply H. Qed.

Lemma hoare_try {A} l P (m : M A) h S (E E' : Executor -> Prop) :
  hoare l P m S E' -> (forall e, catchable e = true -> hoare l E' (h e) S E) -> hoare l P (try_catch m h) S E.
Proof.
  intros Hm Hh x Hx. apply wp_try. eapply wp_mono; [by apply Hm|done|]. intros e y [T1 Hy] He.
  eapply wp_mono; [by apply Hh| |]; intros ? z [T2 ?]; (split; [by eapply touches_trans|done]).
Qed.

Lemma hoare_throw {A} l (P : Executor -> Prop) e (S : A -> Executor -> Prop) (E : Executor -> Prop) :
  catchable e = true -> (forall x, P x -> E x) -> hoare l P (throw e) S E.
Proof. intros He H x Hx. apply wp_throw; [done|]. split; [apply touches_refl|auto]. Qed.

Lemma hoare_throw_if l (P : Executor -> Prop) b e (S : unit -> Executor -> Prop) (E : Executor -> Prop) :
  catchable e = true -> (b = true -> forall x, P x -> E x) -> (b = false -> forall x, P x -> S tt x) -> hoare l P (st_throw_if b e) S E.
Proof. intros He H1 H2 x Hx. apply wp_throw_if; [done| |]; intros; (split; [apply touches_refl|auto]). Qed.

(** ** Lanes *)
Lemma roles_view l q v x : roles x l q = v ->
  exists h p s, v = [h; p; s; decode_ready (requests x q); recovery_pending (recovery (requests x q))] /\
    (h = true <-> hold_at x = Some l) /\ (p = true <-> prefill_lane x = Some l) /\ (s = true <-> suspended_prefill_lane x = Some l).
Proof.
  intros <-. unfold roles. do 3 eexists. split; [reflexivity|]. unfold hold_at. by rewrite !bool_decide_eq_true.
Qed.

Lemma keeps_lane_at l q v x y : keeps x y -> lane_at l q v x -> lane_at l q v y.
Proof.
  intros K [Hok Hl Hr]. split; [by eapply keeps_ok|by rewrite (k_slots _ _ K)|]. rewrite <- Hr.
  destruct (i_slots (proj1 Hok) l q Hl) as (_ & Hs & _).
  apply roles_eq; [apply K|apply K|apply K|apply K; [done|by eapply inv_ids, Hok]].
Qed.

Lemma lane_seated l q v x : lane_at l q v x -> nth 2 v false = false -> seated [] l q x.
Proof.
  intros [Hok Hl Hr] Hv. split_and!; [done|done|]. destruct (roles_view _ _ _ _ Hr) as (h & p & s & -> & _ & _ & Hs).
  simpl in Hv. subst s. by intros ?%Hs.
Qed.

Lemma lane_stuck l q v x : lane_at l q v x -> nth 2 v false = false -> stuck l q x.
Proof. left. by eapply lane_seated. Qed.

Lemma unheld_stuck l q x : unheld l q x -> stuck l q x.
Proof. intros (p & d & r & H). by eapply lane_stuck. Qed.

(** A lane with one role is settled. *)
Lemma lane_settle l q v x : lane_at l q v x -> length (filter (fun b => b = true) v) = 1%nat ->
  (nth 4 v false = true -> q ∈ recovery_queue x) -> ok [] None x.
Proof.
  intros [Hok Hl Hr] H1 Hq. eapply ok_settle; [done|exact Hl|unfold one_role; by rewrite Hr|].
  intros E. apply Hq. rewrite <- Hr. exact E.
Qed.

(** The role of a settled lane. *)
Lemma lane_role l q x : ok [] None x -> slots x l = Some q -> exists v, lane_at l q v x /\
  v = (if bool_decide (hold_at x = Some l) then holding else if bool_decide (prefill_lane x = Some l) then prefilling
       else if bool_decide (suspended_prefill_lane x = Some l) then suspended
       else if decode_ready (requests x q) then bare true else retrying).
Proof.
  intros Hok Hl. eexists. split; [split; [by apply ok_weaken|exact Hl|]|reflexivity].
  pose proof (i_roles (proj1 Hok) l q Hl (excused_none l)) as H. unfold one_role in H. unfold hold_at. unfold roles in *.
  destruct (bool_decide (hold_lane <$> copy_hold x = Some l)), (bool_decide (prefill_lane x = Some l)),
    (bool_decide (suspended_prefill_lane x = Some l)), (decode_ready (requests x q)),
    (recovery_pending (recovery (requests x q))); vm_compute in H; done.
Qed.

Lemma hoare_keep {A} T l q v (m : M A) (E : Executor -> Prop) :
  keeping T m -> (T -> forall x, lane_at l q v x -> E x) -> hoare l (lane_at l q v) m (fun _ => lane_at l q v) E.
Proof.
  intros Hm HE x Hx. apply (wp_keeping T); [done| |]; intros ? y; [|intros HT]; intros K;
    (split; [eapply keeps_touches; [done|apply Hx]|]); [|apply HE; [done|]]; by eapply keeps_lane_at.
Qed.

Lemma hoare_request {B} l q v (k : Request -> M B) (S : B -> Executor -> Prop) E :
  (forall r, lane r = Some l -> is_Some (budget r) -> hoare l (lane_at l q v) (k r) S E) ->
  hoare l (lane_at l q v) (request q ≫= k) S E.
Proof.
  intros H x Hx. apply wp_bind, wp_request. destruct Hx as [Hok Hl Hr]. destruct (i_slots (proj1 Hok) l q Hl) as (_ & _ & _ & ? & ?).
  by apply H.
Qed.

(** A change of the roles of the lane. *)
Lemma hoare_shift l q v v' f E : (forall x, lane_at l q v x -> shift l q x (f x) /\ roles (f x) l q = v' /\
    forall p, p ∈ recovery_queue x -> p ∈ recovery_queue (f x)) ->
  hoare l (lane_at l q v) (modify f) (fun _ => lane_at l q v') E.
Proof.
  intros H x Hx. apply wp_modify. destruct (H x Hx) as (S & R & Hq). destruct Hx as [Hok Hl Hr].
  split; [by eapply shift_touches; [apply Hok|..]|]. split; [eapply ok_shift; [done|done|by right|done]| |done].
  by rewrite (h_slots _ _ _ _ S).
Qed.

(** A completion on a lane without copies or prefill. *)
Lemma hoare_complete l q s d r m E : (forall R, completes R q m) ->
  hoare l (lane_at l q [false; false; s; d; r]) m (fun _ => gone [] l q) E.
Proof.
  intros Hm x [Hok Hl Hr]. destruct (roles_view _ _ _ _ Hr) as (h & p & s' & Hv & Hh & Hp & _).
  injection Hv as <- <- <- _ _. destruct (i_slots (proj1 Hok) l q Hl) as [Hlt _].
  eapply (proj1 (Hm _)) with (l := l) (busy' := None).
  - split_and!; [exact Hok|done|apply covers_none; [done|by right]| |].
    + intros E'%Hh. done.
    + intros E'%Hp. done.
  - intros y Hy Cy Ly. split; [by eapply closed_touches; [apply Hok|..]|by eapply closed_gone; [apply Hok|..]].
Qed.

Lemma hoare_complete_ok l q s d r m E : (forall R, completes R q m) ->
  hoare l (lane_at l q [false; false; s; d; r]) m (fun _ => ok [] None) E.
Proof. intros Hm. eapply hoare_mono; [by apply hoare_complete|done| |done]. intros ? x H. apply H. Qed.

End Triples.

(** The exception of a lane without a suspended prefill. *)
Ltac stuck := intros; first [eapply lane_stuck; [eassumption|reflexivity] | by do 3 eexists | done].

Ltac keep := eapply (hoare_keep True); [solve [neutral]|stuck].

(** One operation that keeps the roles, or a case distinction of the code. *)
Ltac step :=
  match goal with
  | |- hoare _ (lane_at _ ?q _) (request ?q ≫= _) _ _ =>
      let r := fresh "r" in let Hl := fresh "Hlane" in let Hb := fresh "Hbudget" in
      apply hoare_request; intros r Hl Hb
  | Hb : is_Some (budget ?r) |- hoare _ _ (deref (budget ?r) ≫= _) _ _ =>
      let b := fresh "b" in let Eb := fresh "Eb" in
      destruct Hb as [b Eb]; rewrite Eb; apply hoare_value
  | Hl : lane ?r = Some _ |- hoare _ _ (deref (lane ?r) ≫= _) _ _ =>
      rewrite Hl; apply hoare_value
  | Hl : lane ?r = Some _ |- hoare _ _ (value (lane ?r) ≫= _) _ _ => rewrite Hl; apply hoare_value'
  | |- hoare _ (lane_at _ _ _) (_ ≫= _) _ _ => eapply hoare_bind; [keep|intros ?; cbv beta]
  | |- hoare _ (lane_at _ _ _) (let '(_, _) := ?p in _) _ _ => destruct p
  | |- hoare _ (lane_at _ _ _) (match ?o with _ => _ end) _ _ => let Eo := fresh "Eo" in destruct o eqn:Eo
  end.

(** ** Prefill and generation keep the invariant

    The operations of ExecRounds.v as triples: a prefill step and a row of a decode
    round leave their lane with one role, or free. *)

Section Roles.
Context {I : Instance} {Opt : EngineOptions}.

Lemma requests_self q r x : requests (set_requests (<[q := r]> (requests x)) x) q = r.
Proof. by rewrite requests_update, decide_True. Qed.

Record slight (r r' : Request) : Prop := MkSlight {
  n_order : queue_order r' = queue_order r;
  n_lane : lane r' = lane r;
  n_done : done (publication r') = done (publication r);
  n_flags : flags r' = flags r;
  n_budget : is_Some (budget r) -> is_Some (budget r');
}.

Lemma shift_update held busy l q r' x : inv held busy x -> slight (requests x q) r' ->
  shift l q x (set_requests (<[q := r']> (requests x)) x).
Proof.
  intros Hi []. split; try done; try apply Hi.
  - intros p Hp. by rewrite requests_update, decide_False.
  - by rewrite requests_self.
Qed.

(** An update of the request of the lane. *)
Lemma hoare_update l q h p s d r d' r' f E :
  (forall r0, slight r0 (f r0)) ->
  (forall r0, decode_ready r0 = d -> decode_ready (f r0) = d') ->
  (forall r0, recovery_pending (recovery r0) = r -> recovery_pending (recovery (f r0)) = r') ->
  hoare l (lane_at l q [h; p; s; d; r]) (update_request q f) (fun _ => lane_at l q [h; p; s; d'; r']) E.
Proof.
  intros Hf Hd Hr. apply hoare_shift. intros x [Hok Hl Hv]. unfold roles in Hv. injection Hv as Hv1 Hv2 Hv3 Hv4 Hv5.
  split_and!; [by eapply shift_update; [apply Hok|]| |done].
  unfold roles. rewrite requests_self. simpl copy_hold. simpl prefill_lane. simpl suspended_prefill_lane.
  by rewrite Hv1, Hv2, Hv3, (Hd _ Hv4), (Hr _ Hv5).
Qed.

Lemma hoare_release_prefill l q h p s d r E :
  hoare l (lane_at l q [h; p; s; d; r]) (release_prefill l) (fun _ => lane_at l q [h; false; s; d; r]) E.
Proof.
  intros x [Hok Hl Hv]. unfold roles in Hv. injection Hv as Hv1 Hv2 Hv3 Hv4 Hv5.
  eapply (wp_release_prefill []); [done|done|by right|]. intros y Hy Sy Susy Py Cy Ry Ty. split; [done|].
  split; [done|by rewrite Sy|]. unfold roles. rewrite Cy, Susy, Ry, Hv1, Hv3, Hv4, Hv5.
  by rewrite bool_decide_eq_false_2.
Qed.

End Roles.

Section Generation.
Context {I : Instance} {Opt : EngineOptions}.

Lemma keeping_logprobs q n tokens : neutral (logprobs_of q n tokens).
Proof. unfold logprobs_of. neutral. Qed.

Lemma keeping_service q work : neutral (consume_service_work q work).
Proof. unfold consume_service_work. neutral. Qed.

Lemma keeping_configure q b : neutral (configure_output_suppression q b).
Proof.
  unfold configure_output_suppression, suppression. apply keeping_bind; [auto with neutral|]. intros a.
  match goal with |- context [throw_if ?b _] => destruct b end; simpl; neutral.
Qed.

End Generation.

#[export] Hint Resolve keeping_logprobs keeping_service keeping_configure : neutral.

Section Suppression.
Context {I : Instance} {Opt : EngineOptions}.

Lemma keeping_enable q l : neutral (enable_stop_suppression q l).
Proof. unfold enable_stop_suppression. neutral. Qed.

Lemma keeping_synchronize q l : neutral (synchronize_stop_suppression q l).
Proof. unfold synchronize_stop_suppression. neutral. Qed.

Lemma keeping_pace T n : keeping T (prefill_pace n).
Proof. unfold prefill_pace. neutral. Qed.

End Suppression.

#[export] Hint Resolve keeping_enable keeping_synchronize keeping_pace : neutral.

Section Finish.
Context {I : Instance} {Opt : EngineOptions}.

Lemma commit_aborts tokens b e b' : commit tokens b = (Throw e, b') -> e = aborted.
Proof.
  unfold commit, st_throw_if, throw_if, lift, get, put, mbind, st_bind. simpl.
  destruct (_ <? _); by intros [= <-].
Qed.

(** A decision about the vector of a lane whose request has a budget. *)
Lemma hoare_commit_budget l q p d r tokens :
  hoare l (lane_at l q [false; p; false; d; r]) (commit_budget q tokens) (fun _ => lane_at l q [false; p; false; d; r]) (unheld l q).
Proof.
  unfold commit_budget. do 2 step. destruct (commit tokens b) as [[?|e] b'] eqn:Eo.
  - eapply hoare_update; [|auto|auto]. intros ?. by split.
  - apply commit_aborts in Eo as ->. intros x _. apply wp_abort.
Qed.

Lemma hoare_exhausted l q p d r :
  hoare l (lane_at l q [false; p; false; d; r]) (recovery_exhausted q) (fun _ => gone [] l q) (unheld l q).
Proof.
  unfold recovery_exhausted. repeat step.
  eapply hoare_bind; [apply hoare_release_prefill|intros ?; cbv beta].
  eapply hoare_bind; [eapply (hoare_update l q false false false d r d false); [intros ?; by split|auto|auto]|intros ?; cbv beta].
  apply hoare_complete. intros R. apply completes_error.
Qed.

Lemma gone_ok l q x : gone [] l q x -> ok [] None x.
Proof. by intros [? _]. Qed.

Lemma hoare_retry l q d : hoare l (lane_at l q (bare d)) (retry_or_exhaust q) (fun _ => ok [] None) (unheld l q).
Proof.
  unfold retry_or_exhaust, bare. repeat step.
  - eapply hoare_mono; [apply hoare_exhausted|done| |done]. intros ? x H. exact (gone_ok _ _ _ H).
  - eapply hoare_bind; [eapply (hoare_update l q false false false d false false true); [intros ?; by split|auto|auto]|intros ?; cbv beta].
    intros x Hx. apply wp_modify. match goal with |- touches l x ?z /\ _ => set (y := z) end.
    assert (shift l q x y) as S.
    { split; try done; try apply (a_ok _ _ _ _ Hx). intros p' _ Hp. apply elem_of_app. by left. }
    pose proof Hx as [Hok Hl Hr]. split; [eapply shift_touches; [apply Hok|done|done|]|].
    + intros p' Hp. apply elem_of_app. by left.
    + eapply (lane_settle l q retrying); [split; [eapply ok_shift; [done|done|by right|done]|done|done]|done|].
      intros _. apply elem_of_app. right. by left.
Qed.

Lemma hoare_recover l q d : hoare l (lane_at l q (bare d)) (recover_persistent_reasoning q)
  (fun b : bool => if b then ok [] None else lane_at l q (bare d)) (unheld l q).
Proof.
  unfold recover_persistent_reasoning, bare. step. step. step; [by apply hoare_ret|].
  destruct (observe _ _) as [found cycle]. unfold update_recovery. step. step; [by apply hoare_ret|]. do 2 step.
  eapply hoare_bind; [apply hoare_retry|intros ?; by apply hoare_ret].
Qed.

Lemma hoare_finish l q d reason : hoare l (lane_at l q (bare d)) (finish_generation q reason) (fun _ => ok [] None) (unheld l q).
Proof.
  unfold finish_generation. step.
  assert (forall reason, hoare l (lane_at l q (bare d)) (complete_success q reason) (fun _ => ok [] None) (unheld l q)) as Hs
    by (intros reason'; apply hoare_complete_ok; intros R; apply completes_success).
  step; [apply Hs|]. eapply hoare_bind with (S := fun b : bool => if b then ok [] None else lane_at l q (bare d)).
  - step; [apply hoare_recover|by apply hoare_ret].
  - intros [|]; cbv beta iota; [by apply hoare_ret|]. unfold update_recovery. repeat step; [apply hoare_retry|apply Hs].
Qed.

End Finish.

Section Resolve.
Context {I : Instance} {Opt : EngineOptions} (Hclose : sessions_close).

Lemma hoare_cancelled l q s d r E : hoare l (lane_at l q [false; false; s; d; r]) (complete_cancelled q) (fun _ => ok [] None) E.
Proof. apply hoare_complete_ok. intros R. by apply completes_cancelled. Qed.

Lemma hoare_success l q s d r reason E :
  hoare l (lane_at l q [false; false; s; d; r]) (complete_success q reason) (fun _ => ok [] None) E.
Proof. apply hoare_complete_ok. intros R. apply completes_success. Qed.

Lemma hoare_resolve_round l q d token cancel : hoare l (lane_at l q (bare d)) (resolve_round q token cancel)
  (fun b : bool => if b then ok [] None else lane_at l q (bare d)) (unheld l q).
Proof.
  unfold resolve_round, bare. repeat step.
  - eapply hoare_bind; [apply hoare_success|intros ?; by apply hoare_ret].
  - eapply hoare_bind; [apply hoare_commit_budget|intros ?; cbv beta]. repeat step.
    + eapply hoare_bind; [apply hoare_finish|intros ?; by apply hoare_ret].
    + by apply hoare_ret.
Qed.

(** A prefill step: the request is cancelled, goes on, or has its first token. *)
Lemma hoare_resolve_prefill l q p step cancel : complete step = true \/ p = true ->
  hoare l (lane_at l q [false; p; false; false; false]) (resolve_prefill_step q step cancel) (fun _ => ok [] None) (unheld l q).
Proof.
  intros Hp. unfold resolve_prefill_step. do 4 step.
  - step. eapply hoare_bind; [apply hoare_release_prefill|intros ?; cbv beta].
    step. eapply hoare_bind; [apply hoare_cancelled|intros ?; by apply hoare_ret].
  - step.
    + eapply hoare_bind; [keep|intros x]. eapply hoare_bind; [keep|intros ?]. apply hoare_ret. intros y Hy.
      eapply lane_settle; [exact Hy| |done]. destruct Hp as [Hp| ->]; [|done]. by rewrite Hp in Eo0.
    + step. eapply hoare_bind; [apply hoare_release_prefill|intros ?; cbv beta]. repeat step; try (apply hoare_throw; [done|stuck]).
      eapply hoare_bind; [apply hoare_resolve_round|]. intros [|]; cbv beta iota.
      * eapply hoare_bind; [by apply (hoare_ret _ _ _ (fun _ => ok [] None))|intros ?; by apply hoare_ret].
      * eapply hoare_bind; [eapply (hoare_update l q false false false false false true false); [intros ?; by split|auto|auto]|intros ?; cbv beta].
        apply hoare_ret. intros y Hy. by eapply lane_settle; [exact Hy|..].
Qed.

End Resolve.
