(* ===== verification/ExecDecode.v ===== *)
(** * Cancellation and decode rounds keep the invariant

    [runs m]: from a settled state [m] returns to one, and an exception leaves a state
    from which every request can still be failed.  [ready]: the lanes of a decode round. *)

From stdpp Require Import prelude functions list list_numbers sorting gmap.
From Stdlib Require Import ZArith Lia.
From S2P Require Import Prelude Admission Capacity GenerationGuards ExecState ExecCore ExecPlanning ExecRounds ExecAdmit ExecWorker ExecLogic ExecKeeps ExecNeutral ExecComplete ExecLanes ExecGeneration.
#[local] Open Scope Z_scope.

Section Runs.
Context {I : Instance} {Opt : EngineOptions}.

Definition safe (x : Executor) : Prop := exists busy, ok [] busy x.

Lemma safe_ok busy x : ok [] busy x -> safe x.
Proof. by exists busy. Qed.

Lemma safe_stuck l q x : stuck l q x -> safe x.
Proof. intros [(H & _)|(H & _)]; by eapply safe_ok. Qed.

Lemma safe_unheld l q x : unheld l q x -> safe x.
Proof. intros (p & d & r & [H _ _]). by eapply safe_ok. Qed.

Definition runs {A} (m : M A) : Prop := forall x, ok [] None x -> wp m (fun _ y => ok [] None y) (fun _ y => safe y) x.

Lemma runs_keeping {A} T (m : M A) : keeping T m -> runs m.
Proof.
  intros Hm x Hx. apply (wp_keeping T); [done| |].
  - intros a y K. by eapply keeps_ok.
  - intros e y _ K. exists None. by eapply keeps_ok.
Qed.

Lemma wp_neutral {A} (m : M A) (Q : A -> Executor -> Prop) x : neutral m -> ok [] None x ->
  (forall a y, keeps x y -> ok [] None y -> Q a y) -> wp m Q (fun _ => safe) x.
Proof.
  intros Hm Hx HQ. apply (wp_keeping True); [done| |].
  - intros a y K. apply HQ; [done|]. by eapply keeps_ok.
  - intros e y _ K. exists None. by eapply keeps_ok.
Qed.

Lemma runs_ret {A} (a : A) : runs (mret a).
Proof. apply (runs_keeping False), keeping_ret. Qed.

Lemma runs_bind {A B} (m : M A) (k : A -> M B) : runs m -> (forall a, runs (k a)) -> runs (m ≫= k).
Proof. intros Hm Hk x Hx. apply wp_bind. eapply wp_mono; [by apply Hm| |done]. intros a y Hy. by apply Hk. Qed.

(** ** What a lane is doing *)
Lemma one_vector (a b c d e : bool) : length (filter (fun b => b = true) [a; b; c; d; e]) = 1%nat ->
  (a = true -> [a; b; c; d; e] = holding) /\ (b = true -> [a; b; c; d; e] = prefilling) /\
  (c = true -> [a; b; c; d; e] = suspended) /\ (d = true -> [a; b; c; d; e] = bare true) /\ (e = true -> [a; b; c; d; e] = retrying).
Proof. destruct a, b, c, d, e; vm_compute; intros H; try discriminate H; by split_and!. Qed.

Lemma lane_vector x l q : ok [] None x -> slots x l = Some q ->
  (hold_at x = Some l -> lane_at l q holding x) /\ (prefill_lane x = Some l -> lane_at l q prefilling x) /\
  (suspended_prefill_lane x = Some l -> lane_at l q suspended x) /\ (decode_ready (requests x q) = true -> lane_at l q (bare true) x) /\
  (recovery_pending (recovery (requests x q)) = true -> lane_at l q retrying x).
Proof.
  intros Hok Hl. pose proof (i_roles (proj1 Hok) l q Hl (excused_none l)) as H.
  destruct (one_vector _ _ _ _ _ H) as (H1 & H2 & H3 & H4 & H5). rewrite !bool_decide_eq_true in *.
  split_and!; intros E; (split; [by apply ok_weaken|done|auto]).
Qed.

Lemma role_hold x h : ok [] None x -> copy_hold x = Some h -> lane_at (hold_lane h) (hold_request h) holding x.
Proof.
  intros Hok Hh. apply (lane_vector _ _ _ Hok (i_hold (proj1 Hok) h Hh)). unfold hold_at. by rewrite Hh.
Qed.

Lemma role_prefill x l : ok [] None x -> prefill_lane x = Some l -> exists q, slots x l = Some q /\ lane_at l q prefilling x.
Proof. intros Hok Hp. destruct (i_prefill (proj1 Hok) l Hp) as [q Hl]. exists q. split; [done|]. by apply lane_vector. Qed.

(** The vector of an occupied lane, whatever it is. *)
Lemma lane_any x l q : ok [] None x -> slots x l = Some q -> exists h p s d r, lane_at l q [h; p; s; d; r] x.
Proof. intros Hok Hl. do 5 eexists. split; [by apply ok_weaken|done|reflexivity]. Qed.

End Runs.

Section Cancel.
Context {I : Instance} {Opt : EngineOptions} (Hclose : sessions_close).

(** An exception on a lane leaves the others settled. *)
Definition lost (l : nat) (x : Executor) : Prop := ok [] (Some l) x.

Lemma lane_lost l q v x : lane_at l q v x -> lost l x.
Proof. by intros []. Qed.

Lemma wp_lane {A} l P (m : M A) (S : A -> Executor -> Prop) (E : Executor -> Prop) x (Q : A -> Executor -> Prop) R :
  hoare l P m S E -> P x -> (forall a y, touches l x y -> S a y -> Q a y) -> (forall e y, touches l x y -> E y -> R e y) -> wp m Q R x.
Proof. intros H Hx HQ HR. eapply wp_mono; [by apply H| |]; intros ? y [? ?]; auto. Qed.

Lemma hoare_drain l q h p s d r x (E : Executor -> Prop) : lane_at l q [h; p; s; d; r] x ->
  hoare l (eq x) (if bool_decide (hold_lane <$> copy_hold x = Some l) then drain_copy_hold_before_abort else mret tt)
    (fun _ => lane_at l q [false; p; s; d; r]) E.
Proof.
  intros [Hok Hl Hv] y <-. unfold roles in Hv. injection Hv as Hv1 Hv2 Hv3 Hv4 Hv5.
  eapply (wp_drain_if [] (Some l)); [done|exact Hl|by right|by rewrite bool_decide_eq_true|].
  intros y Hy Sy Susy Py Hh Vy Ty. destruct (vw_inv _ _ Vy) as (_ & _ & E1 & E2 & _). split; [done|]. split; [done|by rewrite Sy|].
  unfold roles. fold (hold_at y). by rewrite bool_decide_eq_false_2, Py, Susy, E1, E2, Hv2, Hv3, Hv4, Hv5.
Qed.

(** The end of a cancelled lane. *)
Ltac lost := intros; eapply lane_lost; eassumption.
Ltac keep_lost := eapply (hoare_keep True); [solve [neutral]|lost].

Lemma hoare_cancel_lane l q h p s d r :
  hoare l (lane_at l q [h; p; s; d; r]) (cancel_lane l) (fun _ => ok [] None) (lost l).
Proof.
  intros x Hx. pose proof Hx as [Hok Hl Hv]. unfold cancel_lane. apply wp_bind. unfold slot_request. apply wp_bind, wp_exec. rewrite Hl. apply wp_ret.
  revert x Hx Hok Hl Hv. cut (hoare l (lane_at l q [h; p; s; d; r])
    (x ← exec; (if bool_decide (hold_lane <$> copy_hold x = Some l) then drain_copy_hold_before_abort else mret tt) ;;
     r ← request q; kept ← (if decode_ready r then call (retain_reusable_lane l) else call (revert_cancelled_prefill_lane l));
     (if kept : bool then mret tt else total (abort_lane l)) ;; release_prefill l ;; complete_cancelled q) (fun _ => ok [] None) (lost l)).
  { intros H x Hx _ _ _. by apply H. }
  apply hoare_exec. intros x Hx. eapply hoare_bind; [by eapply hoare_drain|intros ?; cbv beta].
  apply hoare_request. intros r0 _ _. eapply hoare_bind; [keep_lost|intros kept; cbv beta].
  eapply hoare_bind; [keep_lost|intros ?; cbv beta]. eapply hoare_bind; [apply hoare_release_prefill|intros ?; cbv beta].
  by apply hoare_cancelled.
Qed.

Lemma membership_defined x L : membership_of x L ≠ Throw undefined.
Proof.
  induction L as [|l L IH]; simpl; [done|]. repeat case_match; try done. unfold mbind, res_bind. by destruct (membership_of x L) as [|[]].
Qed.

Lemma keeping_membership : neutral build_round_membership.
Proof. unfold build_round_membership. apply keeping_bind; [auto with neutral|]. intros x. apply keeping_lift, membership_defined. Qed.

Lemma wp_cancel_lane l x (Q : unit -> Executor -> Prop) : ok [] None x -> is_Some (slots x l) ->
  (forall y, touches l x y -> ok [] None y -> Q tt y) -> wp (cancel_lane l) Q (fun _ => safe) x.
Proof.
  intros Hok [q Hl] HQ. destruct (lane_any _ _ _ Hok Hl) as (h & p & s & d & r & Hv).
  eapply wp_lane; [apply hoare_cancel_lane|exact Hv|by intros []|]. intros _ y _ Hy. by eapply safe_ok.
Qed.

Lemma runs_cancel_active gone : runs (cancel_active_requests gone).
Proof.
  unfold cancel_active_requests. intros x Hx. apply (wp_for_each gone _ (fun _ x => ok [] None x)); [done|].
  intros l rest y Hy. apply wp_bind, wp_exec. destruct (slots y l) as [q|] eqn:Hl; [|by apply runs_ret].
  apply wp_bind. apply wp_neutral; [|done|].
  - destruct (bool_decide _); [apply keeping_membership|auto with neutral].
  - intros members z K Hz. destruct (negb _).
    + eapply (runs_keeping True); [|done]. neutral.
    + apply wp_cancel_lane; [done|rewrite (k_slots _ _ K), Hl; done|auto].
Qed.

Lemma keeping_snapshot T L : keeping T (snapshot_cancellations L).
Proof. induction L as [|l L IH]; simpl; neutral. Qed.

Lemma runs_prefill_step : runs run_prefill_step.
Proof.
  intros x Hx. unfold run_prefill_step. apply wp_bind, wp_exec, wp_bind.
  destruct (prefill_lane x) as [l|] eqn:Hp; [|apply wp_throw; [done|by eapply safe_ok]].
  apply wp_ret. destruct (role_prefill x l Hx Hp) as (q & Hl & Hv). rewrite Hl. apply wp_bind, wp_ret.
  eapply wp_lane with (l := l) (S := fun _ => ok [] None) (E := unheld l q); [|exact Hv|auto|intros; by eapply safe_unheld].
  unfold prefilling. repeat step. eapply hoare_bind; [apply hoare_resolve_prefill; [done|by right]|intros resolved].
  intros y Hy. assert (neutral (if resolved then publish_runtime_stats else mret tt)) as Hn by (destruct resolved; auto with neutral).
  apply (wp_keeping False); [destruct resolved; auto with neutral| |done]. intros _ z K.
  split; [by eapply keeps_touches; [|apply Hy]|by eapply keeps_ok].
Qed.

End Cancel.

#[export] Hint Resolve keeping_membership keeping_snapshot : neutral.

(** ** The lanes of a round *)
Section Round.
Context {I : Instance} {Opt : EngineOptions} (Hclose : sessions_close).

Definition ready (x : Executor) (l : nat) : Prop := exists q, slots x l = Some q /\ decode_ready (requests x q) = true.

(** The lanes outside [L] that are ready or own the prefill stay so. *)
Definition spares (L : list nat) (x y : Executor) : Prop :=
  forall l, l ∉ L -> (ready x l -> ready y l) /\ (prefill_lane x = Some l -> prefill_lane y = Some l).

Lemma spares_refl L x : spares L x x.
Proof. by intros l _. Qed.

Lemma spares_trans L x y z : spares L x y -> spares L y z -> spares L x z.
Proof. intros H1 H2 l Hl. destruct (H1 l Hl), (H2 l Hl). auto. Qed.

Lemma spares_mono L L' x y : spares L x y -> L ⊆ L' -> spares L' x y.
Proof. intros H HL l Hl. apply H. intros ?. by apply Hl, HL. Qed.

Lemma spares_touches L l x y : touches l x y -> l ∈ L -> spares L x y.
Proof.
  intros [] Hl l' Hl'. assert (l' ≠ l) by congruence. split.
  - intros (q & Hs & Hd). exists q. rewrite t_slots by done. split; [done|].
    destruct (vw_inv _ _ (t_vw l' q ltac:(done) Hs)) as (_ & _ & -> & _). done.
  - by apply t_prefill.
Qed.

Lemma spares_keeps L held busy x y : keeps x y -> inv held busy x -> spares L x y.
Proof.
  intros K Hi l _. split; [|by rewrite (k_prefill _ _ K)]. intros (q & Hs & Hd). exists q. rewrite (k_slots _ _ K). split; [done|].
  destruct (i_slots Hi l q Hs) as (_ & Hq & _). by destruct (vw_inv _ _ (k_vw _ _ K q Hq (inv_ids _ _ _ Hi))) as (_ & _ & -> & _).
Qed.

Definition round_lanes (L : list nat) (x : Executor) : Prop := ok [] None x /\ NoDup L /\ forall l, l ∈ L -> ready x l.

Lemma round_keeps L x y : keeps x y -> round_lanes L x -> round_lanes L y.
Proof.
  intros K (Hok & Hn & Hr). split_and!; [by eapply keeps_ok|done|]. intros l Hl.
  apply (spares_keeps [] [] None x y K (proj1 Hok) l); [apply not_elem_of_nil|auto].
Qed.

Lemma round_tail l L x y : round_lanes (l :: L) x -> touches l x y -> ok [] None y -> round_lanes L y.
Proof.
  intros (_ & [Hl Hn]%NoDup_cons & Hr) T Hok. split_and!; [done|done|]. intros l' Hl'.
  eapply (spares_touches [l]); [exact T|by left|by intros ->%list_elem_of_singleton|]. apply Hr. by right.
Qed.

Lemma ready_lane x l : ok [] None x -> ready x l -> exists q, slots x l = Some q /\ lane_at l q (bare true) x.
Proof. intros Hok (q & Hs & Hd). exists q. split; [done|]. by apply lane_vector. Qed.

(** The members that leave were cancelled; the rest of the round is as before. *)
Lemma wp_live_members members x (Q : list (nat * Z) -> Executor -> Prop) : round_lanes members.*1 x ->
  (forall live y, live `sublist_of` members -> round_lanes live.*1 y -> spares members.*1 x y -> Q live y) ->
  wp (live_members members) Q (fun _ => safe) x.
Proof.
  revert x Q. induction members as [|[l b] members IH]; intros x Q Hx HQ; simpl.
  - apply wp_ret. apply HQ; [done|done|apply spares_refl].
  - pose proof Hx as (Hok & Hn & Hr). destruct (Hr l (list_elem_of_here _ _)) as (q & Hs & Hd).
    apply wp_bind, wp_exec. rewrite Hs. apply wp_bind, wp_total. intros [|].
    + apply wp_bind. destruct (lane_vector x l q Hok Hs) as (_ & _ & _ & Hv & _). specialize (Hv Hd).
      eapply (wp_lane l); [by eapply hoare_drain|done| |intros ? ? _ HE; exact HE]. intros [] y Ty Hy.
      apply wp_bind. apply wp_call; [|intros; by eapply safe_ok; apply Hy]. intros kept. apply wp_bind.
      apply (wp_keeping False); [destruct kept; auto with neutral| |done]. intros [] z Kz. apply wp_bind.
      eapply (wp_lane l); [by apply hoare_cancelled|eapply keeps_lane_at; [exact Kz|exact Hy]| |intros ? ? _ HE; exact HE].
      intros [] w Tw Hw. assert (touches l x w) as T.
      { eapply touches_trans; [exact Ty|]. eapply touches_trans; [eapply keeps_touches; [exact Kz|apply Hy]|done]. }
      apply IH; [by eapply round_tail|]. intros live u Hl Hu Su. apply HQ; [by apply sublist_cons|done|].
      eapply spares_trans; [eapply spares_touches; [exact T|by left]|eapply spares_mono; [exact Su|by intros ? ?; right]].
    + apply wp_bind. apply IH; [split_and!; [done|by eapply NoDup_cons, Hn|intros l' ?; apply Hr; by right]|].
      intros live u Hl Hu Su. apply wp_ret, HQ; [by apply sublist_skip| |eapply spares_mono; [exact Su|by intros ? ?; right]].
      destruct Hu as (Hou & Hnu & Hru). apply NoDup_cons in Hn as [Hl' Hn]. split_and!; [done| |].
      * constructor; [|done]. intros H. apply Hl'. eapply elem_of_sublist; [exact H|]. by apply fmap_sublist.
      * intros l' [->|H']%elem_of_cons; [|auto]. apply (Su l Hl'). by exists q.
Qed.

(** ** Rows *)
Lemma round_row l q L x y : round_lanes L x -> touches l x y -> lane_at l q (bare true) y -> round_lanes L y.
Proof.
  intros (Hok & Hn & Hr) T Hy. assert (ok [] None y) as Hoky by (by eapply lane_settle; [exact Hy|..]).
  split_and!; [done|done|]. intros l' Hl'. destruct (decide (l' = l)) as [->|E].
  - destruct Hy as [_ Hs Hv]. exists q. split; [done|]. by injection Hv.
  - eapply (spares_touches [l]); [exact T|by left|by intros ->%list_elem_of_singleton|auto].
Qed.

(** An operation on the request of one row. *)
Lemma wp_row {A} l L (m : Z -> M A) (φ : A -> Prop) x (Q : A -> Executor -> Prop) : l ∈ L ->
  (forall q, hoare l (lane_at l q (bare true)) (m q) (fun a y => φ a /\ lane_at l q (bare true) y) (unheld l q)) ->
  round_lanes L x -> (forall a y, φ a -> round_lanes L y -> spares L x y -> Q a y) ->
  wp (slot_request l ≫= m) Q (fun _ => safe) x.
Proof.
  intros Hl Hm Hx HQ. pose proof Hx as (Hok & Hn & Hr). destruct (ready_lane x l Hok (Hr l Hl)) as (q & Hs & Hv).
  apply wp_bind. unfold slot_request. apply wp_bind, wp_exec. rewrite Hs. apply wp_ret.
  eapply wp_lane; [apply Hm|exact Hv| |intros; by eapply safe_unheld]. intros a y T [Ha Hy].
  apply HQ; [done|by eapply round_row|by eapply spares_touches].
Qed.

Lemma hoare_row_keep {A} l q (m : M A) : neutral m ->
  hoare l (lane_at l q (bare true)) m (fun _ y => True /\ lane_at l q (bare true) y) (unheld l q).
Proof. intros Hm x Hx. eapply wp_lane; [eapply (hoare_keep True l q (bare true) m (unheld l q)); [exact Hm|stuck]|done|by intros|by intros]. Qed.

Lemma keeping_note q : neutral (note_exclusion q).
Proof. unfold note_exclusion, update_recovery. neutral. Qed.

Lemma wp_note_exclusions round n L L' x (Q : unit -> Executor -> Prop) : L' ⊆ L -> round_lanes L x ->
  (forall y, round_lanes L y -> spares L x y -> Q tt y) -> wp (note_exclusions round n L') Q (fun _ => safe) x.
Proof.
  revert n x Q. induction L' as [|l L' IH]; intros n x Q HL Hx HQ; simpl; [apply wp_ret, HQ; [done|apply spares_refl]|].
  assert (forall y, round_lanes L y -> spares L x y -> wp (note_exclusions round (S n) L') Q (fun _ => safe) y) as Hrest.
  { intros y Hy Sy. apply IH; [by intros l' ?; apply HL; right|done|]. intros z Hz Sz. apply HQ; [done|by eapply spares_trans]. }
  apply wp_bind. destruct (cycle_exclusion_rows round n); [|apply wp_ret, Hrest; [done|apply spares_refl]].
  apply (wp_row l L _ (fun _ => True)); [apply HL; by left| |done|by intros []; eauto]. intros q. apply hoare_row_keep, keeping_note.
Qed.

Lemma wp_load L L' x (Q : list bool -> Executor -> Prop) : L' ⊆ L -> round_lanes L x ->
  (forall a y, length a = length L' -> round_lanes L y -> spares L x y -> Q a y) -> wp (load_cancellations L') Q (fun _ => safe) x.
Proof.
  revert x Q. induction L' as [|l L' IH]; intros x Q HL Hx HQ; simpl; [apply wp_ret, HQ; [done|done|apply spares_refl]|].
  apply wp_bind. pose proof Hx as (Hok & _ & Hr). destruct (Hr l (HL l (list_elem_of_here _ _))) as (q & Hs & _).
  unfold slot_request. apply wp_bind, wp_exec. rewrite Hs. apply wp_ret, wp_bind, wp_total. intros gone. apply wp_bind.
  apply IH; [by intros l' ?; apply HL; right|done|]. intros a y Ha Hy Sy. apply wp_ret, HQ; [by simpl; rewrite Ha|done|done].
Qed.

Lemma wp_preview_row round n L l gone x (Q : Row -> Executor -> Prop) : l ∈ L -> round_lanes L x ->
  (forall a y, row_lane a = l -> round_lanes L y -> spares L x y -> Q a y) -> wp (preview_row round n l gone) Q (fun _ => safe) x.
Proof.
  intros Hl Hx HQ. apply (wp_row l L _ (fun a => row_lane a = l)); [done| |done|done]. intros q.
  unfold bare. cbv zeta. repeat step; apply hoare_ret; by split.
Qed.

Lemma wp_preview_rows round n L rows x (Q : list Row -> Executor -> Prop) : rows.*1 ⊆ L -> round_lanes L x ->
  (forall a y, row_lane <$> a = rows.*1 -> round_lanes L y -> spares L x y -> Q a y) ->
  wp (preview_rows round n rows) Q (fun _ => safe) x.
Proof.
  revert n x Q. induction rows as [|[l gone] rows IH]; intros n x Q HL Hx HQ; simpl; [apply wp_ret, HQ; [done|done|apply spares_refl]|].
  apply wp_bind. apply (wp_preview_row round n L); [apply HL; by left|done|]. intros row y Hrow Hy Sy. apply wp_bind.
  apply IH; [by intros l' ?; apply HL; right|done|]. intros a z Ha Hz Sz.
  apply wp_ret, HQ; [by rewrite fmap_cons, Hrow, Ha|done|by eapply spares_trans].
Qed.

(** Committing a row settles its lane: it goes on, retries or is free. *)
Lemma wp_commit_row stride n o L x (Q : unit -> Executor -> Prop) : round_lanes (row_lane o :: L) x ->
  (forall y, round_lanes L y -> touches (row_lane o) x y -> Q tt y) -> wp (commit_row stride n o) Q (fun _ => safe) x.
Proof.
  intros Hx HQ. pose proof Hx as (Hok & _ & Hr). destruct (ready_lane _ _ Hok (Hr _ (list_elem_of_here _ _))) as (q & Hs & Hv).
  unfold commit_row. apply wp_bind. unfold slot_request. apply wp_bind, wp_exec. rewrite Hs. apply wp_ret.
  eapply (wp_lane (row_lane o)) with (S := fun _ => ok [] None) (E := unheld (row_lane o) q); [|exact Hv| |intros; by eapply safe_unheld].
  2:{ intros [] y T Hy. apply HQ; [by eapply round_tail|done]. }
  assert (forall x, lane_at (row_lane o) q (bare true) x -> ok [] None x) as Hset by (intros; by eapply lane_settle).
  unfold bare. step.
  - intros y Hy. eapply wp_lane; [eapply (hoare_keep False _ _ (bare true) _ (unheld (row_lane o) q)); [neutral|done]|done|auto|auto].
  - eapply hoare_bind with (S := fun _ => lane_at (row_lane o) q (bare true)).
    + unfold bare. step; [by apply hoare_ret|]. step. eapply hoare_bind; [apply hoare_commit_budget|intros ?; cbv beta]. step. keep.
    + intros ?. repeat step; [apply hoare_finish|]. eapply hoare_bind; [apply hoare_recover|]. intros [|]; by apply hoare_ret.
Qed.

Lemma wp_commit_rows stride n rows x (Q : unit -> Executor -> Prop) : round_lanes (row_lane <$> rows) x ->
  (forall y, ok [] None y -> spares (row_lane <$> rows) x y -> Q tt y) -> wp (commit_rows stride n rows) Q (fun _ => safe) x.
Proof.
  revert n x Q. induction rows as [|o rows IH]; intros n x Q Hx HQ; simpl; [apply wp_ret, HQ; [apply Hx|apply spares_refl]|].
  apply wp_bind. eapply wp_commit_row; [exact Hx|]. intros y Hy T. apply IH; [done|]. intros z Hz Sz. apply HQ; [done|].
  eapply spares_trans; [eapply spares_touches; [exact T|by left]|eapply spares_mono; [exact Sz|by intros ? ?; right]].
Qed.

(** A lane that owns the prefill is not in the round. *)
Lemma owner_apart L x l : round_lanes L x -> prefill_lane x = Some l -> l ∉ L.
Proof.
  intros (Hok & _ & Hr) Hp Hl. destruct (ready_lane x l Hok (Hr l Hl)) as (q & Hs & Hv).
  destruct (role_prefill x l Hok Hp) as (q' & Hs' & Hv'). assert (q' = q) as -> by congruence.
  destruct Hv as [_ _ E], Hv' as [_ _ E']. rewrite E in E'. done.
Qed.

Lemma wp_finish_round round live owner_step x (Q : unit -> Executor -> Prop) : round_lanes live.*1 x ->
  (forall o, fst <$> owner_step = Some o -> prefill_lane x = Some o) -> (forall y, ok [] None y -> Q tt y) ->
  wp (finish_round round live owner_step) Q (fun _ => safe) x.
Proof.
  intros Hx Ho HQ. assert (forall o, fst <$> owner_step = Some o -> o ∉ live.*1) as Hapart by (intros o E; eapply owner_apart; eauto).
  unfold finish_round. apply wp_bind. eapply wp_note_exclusions; [done|exact Hx|]. intros x1 H1 S1.
  apply wp_bind. eapply wp_load; [done|exact H1|]. intros gone x2 Hg H2 S2.
  apply wp_bind. apply wp_throw_if; [done| |intros _; eapply safe_ok, H2]. intros _.
  assert ((zip live.*1 gone).*1 = live.*1) as Hz by (apply fst_zip; lia).
  apply wp_bind. eapply wp_preview_rows; [by rewrite Hz|exact H2|]. intros rows x3 Hrows H3 S3. rewrite Hz in Hrows.
  apply wp_bind. apply wp_call; [|intros; eapply safe_ok, H3]. intros _.
  apply wp_bind. apply wp_commit_rows; [by rewrite Hrows|]. rewrite Hrows. intros x4 H4 S4.
  assert (spares live.*1 x x4) as S by (do 3 (eapply spares_trans; [eassumption|]); done).
  destruct owner_step as [[o step]|]; [|by apply wp_ret, HQ].
  assert (prefill_lane x4 = Some o) as Hp by (apply S; [by apply Hapart|by apply Ho]).
  destruct (role_prefill x4 o H4 Hp) as (q & Hs & Hv).
  apply wp_bind. unfold slot_request. apply wp_bind, wp_exec. rewrite Hs. apply wp_ret, wp_bind, wp_total. intros b. apply wp_bind.
  eapply wp_lane with (E := unheld o q); [by apply hoare_resolve_prefill; [|by right]|exact Hv| |intros; by eapply safe_unheld].
  intros resolved y _ Hy. apply (wp_keeping False); [destruct resolved; auto with neutral| |done]. intros [] z K. apply HQ. by eapply keeps_ok.
Qed.

Lemma wp_decode_round members owner x (Q : unit -> Executor -> Prop) : round_lanes members.*1 x ->
  (forall o, owner = Some o -> prefill_lane x = Some o) -> (forall y, ok [] None y -> Q tt y) ->
  wp (run_decode_round members owner) Q (fun _ => safe) x.
Proof.
  intros Hx Ho HQ. unfold run_decode_round. apply wp_bind. apply wp_live_members; [done..|]. intros live y _ Hy Sy.
  assert (forall o, owner = Some o -> prefill_lane y = Some o) as Ho'.
  { intros o E. apply Sy; [|by apply Ho]. eapply owner_apart; eauto. }
  case_bool_decide as El.
  - destruct owner as [o|]; [|by apply wp_ret, HQ; apply Hy].
    eapply wp_mono; [by apply runs_prefill_step; [|apply Hy]|by intros []|done].
  - apply wp_bind. destruct owner as [o|]; apply wp_bind; (apply wp_call; [|intros; eapply safe_ok, Hy]).
    + intros [round step]. apply wp_ret, (wp_finish_round round live (Some (o, step))); [done| |done]. intros o' [= <-]. auto.
    + intros round. by apply wp_ret, (wp_finish_round round live None).
Qed.

End Round.
