(* ===== verification/ExecHolds.v ===== *)
(** * The queue and the copies that hold it

    A request leaves the queue into the worker's hands and can return to its place: the
    queue stays sorted by submission order, and nobody is lost in between.  A held copy
    ends in a prefill, a retry or a failure. *)

From stdpp Require Import prelude functions list list_numbers sorting gmap.
From Stdlib Require Import ZArith Lia.
From S2P Require Import Prelude Admission Capacity GenerationGuards ExecState ExecCore ExecPlanning ExecRounds ExecAdmit ExecWorker ExecLogic ExecKeeps ExecNeutral ExecComplete ExecLanes ExecGeneration ExecDecode.
#[local] Open Scope Z_scope.

Section Queue.
Context {I : Instance} {Opt : EngineOptions}.

(** ** Leaving *)
Lemma erase_first_elem q p l : NoDup l -> (p ∈ erase_first q l <-> p ∈ l /\ p ≠ q).
Proof.
  induction l as [|a l IH]; intros Hn; simpl; [by split; [intros ?%elem_of_nil|intros [?%elem_of_nil _]]|].
  apply NoDup_cons in Hn as [Ha Hn]. case_bool_decide as E.
  - subst a. rewrite elem_of_cons. split; [intros H; split; [by right|congruence]|intros [[->|?] ?]; done].
  - rewrite !elem_of_cons, IH by done. split; [intros [->|[? ?]]; auto|intros [[->|?] ?]; auto].
Qed.

Lemma StronglySorted_sublist {A} (R : A -> A -> Prop) l k : k `sublist_of` l -> StronglySorted R l -> StronglySorted R k.
Proof.
  induction 1 as [|a k l Hs IH|a k l Hs IH]; intros Hl; [constructor|..]; apply StronglySorted_inv in Hl as [H1 H2]; [|auto].
  constructor; [auto|]. rewrite Forall_forall in *. intros b Hb. apply H2. by eapply elem_of_sublist.
Qed.

Lemma pending_NoDup held busy x : inv held busy x -> NoDup (pending x).
Proof.
  intros Hi. pose proof (i_sorted Hi) as H. induction H as [|a l _ IH Hf]; constructor; [|done].
  intros Ha. rewrite Forall_forall in Hf. specialize (Hf a Ha). lia.
Qed.

(** The requests of [gone] left the queue; [keep] stay, in order. *)
Lemma inv_leave held busy gone keep x : inv held busy x -> keep `sublist_of` pending x ->
  (forall q, q ∈ pending x <-> q ∈ keep \/ q ∈ gone) -> (forall q, q ∈ gone -> q ∉ keep) ->
  inv (gone ++ held) busy (publish_waiting (set_pending keep x)).
Proof.
  intros Hi Hk Hp Hd. pose proof Hi as []. split; try done; unfold undone, is_done in *; simpl.
  - by eapply StronglySorted_sublist.
  - intros q Hq. apply i_pending. apply Hp. by left.
  - intros q [Hq|Hq]%elem_of_app.
    + destruct (i_pending q) as (Hs & Hu & Hl & _); [apply Hp; by right|]. split_and!; [done|done|by apply Hd|].
      intros l El. destruct (i_slots l q El) as (_ & _ & _ & El' & _). congruence.
    + destruct (i_held q Hq) as (? & ? & Hn & ?). split_and!; [done|done| |done]. intros Hin. apply Hn, Hp. by left.
  - intros q Hq. destruct (i_placed q Hq) as [?|[[?|?]%Hp|[?|?]]]; auto; right; right; right; apply elem_of_app; auto.
  - intros E. destruct (i_failed E) as [En ->]. split; [|done]. rewrite En in Hk. by apply sublist_nil_r in Hk.
Qed.

Lemma cap_queue keep window owed x : cap window owed x -> cap window owed (publish_waiting (set_pending keep x)).
Proof. by intros []; split. Qed.

Lemma ok_erase held busy q x : ok held busy x -> q ∈ pending x -> ok (q :: held) busy (remove_pending q x).
Proof.
  intros [Hi Hc] Hq. pose proof (pending_NoDup _ _ _ Hi) as Hn. split; [|by apply cap_queue].
  apply (inv_leave held busy [q]); [done|apply erase_first_sublist| |].
  - intros p. rewrite erase_first_elem, list_elem_of_singleton by done. destruct (decide (p = q)) as [->|]; tauto.
  - intros p ->%list_elem_of_singleton. rewrite erase_first_elem by done. by intros [_ ?].
Qed.

(** ** Returning *)
Lemma insert_elem order q p l : p ∈ insert_by_order order q l <-> p = q \/ p ∈ l.
Proof.
  induction l as [|a l IH]; simpl; [by rewrite list_elem_of_singleton, elem_of_nil; tauto|].
  case_match; rewrite !elem_of_cons, ?IH; tauto.
Qed.

Lemma insert_sorted (order : Z -> Z) q l : StronglySorted (fun a b => order a < order b) l -> (forall p, p ∈ l -> order p ≠ order q) ->
  StronglySorted (fun a b => order a < order b) (insert_by_order order q l).
Proof.
  induction 1 as [|a l Hs IH Hf]; intros Hne; simpl; [by repeat constructor|]. rewrite Forall_forall in Hf.
  destruct (Z.ltb_spec (order a) (order q)) as [Hlt|Hge].
  - constructor; [apply IH; intros p Hp; apply Hne; by right|]. apply Forall_forall. intros p [->|Hp]%insert_elem; auto.
  - assert (order a ≠ order q) by (apply Hne; by left).
    constructor; [by constructor; [|apply Forall_forall]|]. apply Forall_forall.
    intros p [->|Hp]%elem_of_cons; [lia|]. specialize (Hf p Hp). lia.
Qed.

Lemma inv_return held q order x : inv (q :: held) None x -> q ∉ held -> lane (requests x q) = None -> idle (requests x q) ->
  (forall p, order p = queue_order (requests x p)) ->
  inv held None (publish_waiting (set_pending (insert_by_order order q (pending x)) x)).
Proof.
  intros Hi Hq Hl Hidle Ho. destruct (i_held Hi q (list_elem_of_here _ _)) as (Hs & Hu & Hnp & Hns).
  pose proof Hi as []. split; try done; unfold undone, is_done in *; simpl.
  - eapply StronglySorted_ext with (R := fun a b => order a < order b); [|intros a b _ _; by rewrite !Ho].
    apply insert_sorted.
    + eapply StronglySorted_ext; [exact i_sorted|]. intros a b _ _. by rewrite !Ho.
    + intros p Hp. rewrite !Ho. intros E. apply Hnp. rewrite <- (i_inj p q); [done|by apply i_pending|done|done].
  - intros p [->|Hp]%insert_elem; [done|by apply i_pending].
  - intros p Hp. destruct (i_held p) as (? & ? & Hn & ?); [by right|]. split_and!; try done. intros [->|?]%insert_elem; done.
  - intros p Hp. rewrite insert_elem. destruct (i_placed p Hp) as [?|[?|[?|[->|?]%elem_of_cons]]]; auto.
  - by intros [_ ?]%i_failed.
Qed.

Lemma ok_return held q order x : ok (q :: held) None x -> q ∉ held -> lane (requests x q) = None -> idle (requests x q) ->
  (forall p, order p = queue_order (requests x p)) ->
  ok held None (publish_waiting (set_pending (insert_by_order order q (pending x)) x)).
Proof. intros [Hi Hc] Hq Hl Hidle Ho. split; [by apply inv_return|by apply cap_queue]. Qed.

(** A request in the worker's hands may change its lane. *)
Lemma ok_unlaned held busy q r x : ok (q :: held) busy x ->
  queue_order r = queue_order (requests x q) -> done (publication r) = done (publication (requests x q)) ->
  flags r = flags (requests x q) -> ok (q :: held) busy (set_requests (<[q := r]> (requests x)) x).
Proof.
  intros Hok H1 H2 H3. destruct (i_held (proj1 Hok) q (list_elem_of_here _ _)) as (_ & _ & Hnp & Hns).
  by apply ok_loose.
Qed.

End Queue.

(** ** Copy-holds and recovery keep the invariant

    [lone l]: no other lane has copies in flight or owns the prefill; the operations of
    ExecAdmit.v run in such states.  A hold ends with a prefill step of its request, with
    its retry, with its return to the queue, or with its failure. *)

Section Lone.
Context {I : Instance} {Opt : EngineOptions}.

Definition lone (l : nat) (x : Executor) : Prop :=
  (forall l', prefill_lane x = Some l' -> l' = l) /\ (forall l', hold_at x = Some l' -> l' = l).

Definition lone_at (l : nat) (q : Z) (v : list bool) (x : Executor) : Prop := lane_at l q v x /\ lone l x.

Lemma lone_touches l x y : touches l x y -> lone l x -> lone l y.
Proof.
  intros [] [H1 H2]. split; intros l' E; destruct (decide (l' = l)) as [->|Hne]; try done.
  - by apply H1, t_prefill.
  - by apply H2, t_hold.
Qed.

(** A triple stays one when the lane is alone. *)
Lemma hoare_lone {A} l (P : Executor -> Prop) (m : M A) (S : A -> Executor -> Prop) (E : Executor -> Prop) :
  hoare l P m S E -> hoare l (fun x => P x /\ lone l x) m (fun a x => S a x /\ lone l x) E.
Proof.
  intros H x [Hx Ho]. eapply wp_mono; [by apply H| |done]. intros a y [T Hy]. split_and!; [done|done|by eapply lone_touches].
Qed.

Lemma hoare_weak {A} l (P P' : Executor -> Prop) (m : M A) S E : hoare l P m S E -> (forall x, P' x -> P x) -> hoare l P' m S E.
Proof. intros H HP x Hx. by apply H, HP. Qed.

Lemma hoare_unheld {A} l q P (m : M A) S : hoare l P m S (unheld l q) -> hoare l P m S (stuck l q).
Proof. intros H. eapply hoare_mono; [exact H|done|done|]. apply unheld_stuck. Qed.

Lemma hoare_alone {A} l q v (m : M A) S E : hoare l (lane_at l q v) m S E -> hoare l (lone_at l q v) m S E.
Proof. intros H. eapply hoare_weak; [exact H|by intros x []]. Qed.

Lemma hoare_keep_lone {A} T l q v (m : M A) (E : Executor -> Prop) :
  keeping T m -> (T -> forall x, lone_at l q v x -> E x) -> hoare l (lone_at l q v) m (fun _ => lone_at l q v) E.
Proof.
  intros Hm HE x [Hx Ho]. apply (wp_keeping T); [done| |]; intros ? y; [|intros HT]; intros K;
    assert (touches l x y) as Ty by (eapply keeps_touches; [done|apply Hx]); (split; [done|]); [|apply HE; [done|]];
    (split; [by eapply keeps_lane_at|by eapply lone_touches]).
Qed.

Lemma hoare_request_lone {B} l q v (k : Request -> M B) (S : B -> Executor -> Prop) E :
  (forall r, lane r = Some l -> is_Some (budget r) -> hoare l (lone_at l q v) (k r) S E) ->
  hoare l (lone_at l q v) (request q ≫= k) S E.
Proof.
  intros H x Hx. apply wp_bind, wp_request. destruct Hx as [[Hok Hl Hr] Ho]. destruct (i_slots (proj1 Hok) l q Hl) as (_ & _ & _ & ? & ?).
  by apply H.
Qed.

Lemma lone_stuck l q v x : lone_at l q v x -> nth 2 v false = false -> stuck l q x.
Proof. intros [H _]. by apply lane_stuck. Qed.

(** ** The prefill of a lane *)
Lemma activate_fails n a m e m' : activate n a m = (Throw e, m') -> e = invalid_argument /\ m' = m.
Proof.
  unfold activate, deactivate, st_throw_if, throw_if, lift, get, put, mbind, st_bind.
  destruct (n =? 0).
  - destruct (negb _); simpl; intros [=]; by subst.
  - destruct (negb _ || _); simpl; [intros [=]; by subst|].
    destruct (arena_capacity m) as [c|]; [destruct (c <? n)|]; simpl; intros [=]; by subst.
Qed.

Lemma hoare_own l q h d r s : hoare l (lone_at l q [h; false; false; d; r]) (own_prefill l s)
  (fun _ => lone_at l q [h; true; false; d; r]) (lone_at l q [h; false; false; d; r]).
Proof.
  intros x [Hx Ho]. unfold own_prefill, activate_memory. intros e. unfold mbind, st_bind. simpl.
  destruct (activate _ _ _) as [[u|ex] m] eqn:Ea; simpl.
  - match goal with |- touches l x ?z /\ _ => set (y := z) end. pose proof Hx as [Hok Hl Hv].
    unfold roles in Hv. injection Hv as Hv1 Hv2 Hv3 Hv4 Hv5.
    assert (shift l q x y) as Sh.
    { split; try done; try apply Hok.
      - intros h' l' Hh [= <-]. apply Ho. change (copy_hold x = Some h') in Hh. unfold hold_at. by rewrite Hh.
      - intros l' E. simpl. split; [congruence|]. by intros ?%(proj1 Ho). }
    assert (touches l x y) as T by (by eapply shift_touches; [apply Hok|..]).
    split; [done|]. split; [|by eapply lone_touches]. split; [by eapply ok_shift; [|..|by right|]|done|].
    unfold roles. simpl. by rewrite Hv1, Hv3, Hv4, Hv5, bool_decide_eq_true_2.
  - apply activate_fails in Ea as [-> ->]. simpl.
    assert (keeps x (set_request_memory (request_memory x) x)) as K by (apply keeps_same; by split; [split|..]).
    assert (touches l x (set_request_memory (request_memory x) x)) as T by (eapply keeps_touches; [exact K|apply Hx]).
    split; [done|]. split; [by eapply keeps_lane_at|by eapply lone_touches].
Qed.

Lemma hoare_release_lone l q h p s d r E :
  hoare l (lone_at l q [h; p; s; d; r]) (release_prefill l) (fun _ => lone_at l q [h; false; s; d; r]) E.
Proof. apply (hoare_lone l _ _ (fun _ => lane_at l q [h; false; s; d; r])). apply hoare_release_prefill. Qed.

Lemma keeping_take_prompt q : neutral (take_prompt q).
Proof. unfold take_prompt. neutral. Qed.

End Lone.

#[export] Hint Resolve keeping_take_prompt : neutral.

Ltac keep_lone := eapply (hoare_keep_lone True); [solve [neutral]|intros; eapply lone_stuck; [eassumption|reflexivity]].

Ltac step_lone :=
  match goal with
  | |- hoare _ (lone_at _ ?q _) (request ?q ≫= _) _ _ =>
      let r := fresh "r" in let Hl := fresh "Hlane" in let Hb := fresh "Hbudget" in
      apply hoare_request_lone; intros r Hl Hb
  | Hb : is_Some (budget ?r) |- hoare _ _ (deref (budget ?r) ≫= _) _ _ =>
      let b := fresh "b" in let Eb := fresh "Eb" in
      destruct Hb as [b Eb]; rewrite Eb; apply hoare_value
  | |- hoare _ (lone_at _ _ _) (_ ≫= _) _ _ => eapply hoare_bind; [keep_lone|intros ?; cbv beta]
  | |- hoare _ (lone_at _ _ _) (let '(_, _) := ?p in _) _ _ => destruct p
  | |- hoare _ (lone_at _ _ _) (match ?o with _ => _ end) _ _ => let Eo := fresh "Eo" in destruct o eqn:Eo
  end.

Section Holds.
Context {I : Instance} {Opt : EngineOptions} (Hclose : sessions_close).

Lemma hoare_silent {A} l (m : M A) (E : Executor -> Prop) : silent m -> hoare l (ok [] None) m (fun _ => ok [] None) E.
Proof.
  intros Hm x Hx. apply (wp_keeping False); [done| |done]. intros a y K.
  split; [by eapply keeps_touches; [|apply Hx]|by eapply keeps_ok].
Qed.

(** ** Prefill of a retry *)
Lemma hoare_begin_recovery l q plan : hoare l (lone_at l q (bare false)) (begin_recovery_prefill q l plan)
  (fun _ => lone_at l q prefilling) (stuck l q).
Proof.
  unfold begin_recovery_prefill, bare, prefilling. eapply hoare_bind.
  { eapply hoare_mono; [apply hoare_own|done|done|]. intros x Hx. by eapply lone_stuck. }
  intros ?; cbv beta.
  do 3 step_lone. keep_lone.
Qed.

Lemma hoare_resolve_recovery l q first : hoare l (lone_at l q prefilling) (resolve_recovery_prefill q first) (fun _ => ok [] None) (stuck l q).
Proof.
  unfold resolve_recovery_prefill, prefilling. step_lone.
  eapply hoare_bind; [apply hoare_unheld, hoare_alone, hoare_resolve_prefill; [done|by right]|intros ?; cbv beta].
  apply hoare_silent. auto with neutral.
Qed.

Lemma hoare_cold l q p base : hoare l (lone_at l q [false; p; false; false; false]) (recovery_cold_prefill q l base)
  (fun _ => ok [] None) (stuck l q).
Proof.
  unfold recovery_cold_prefill, release_recovery_lane. eapply hoare_bind.
  - step_lone. apply hoare_release_lone.
  - intros ?; cbv beta. do 3 step_lone. eapply hoare_bind; [apply hoare_begin_recovery|intros ?; apply hoare_resolve_recovery].
Qed.

(** ** Setting a hold *)
Lemma set_hold_at l q p s d r h x : hold_lane h = l -> hold_request h = q -> lone_at l q [false; p; s; d; r] x ->
  touches l x (set_copy_hold (Some h) x) /\ lone_at l q [true; p; s; d; r] (set_copy_hold (Some h) x).
Proof.
  intros <- <- [Hx Ho]. set (y := set_copy_hold (Some h) x). pose proof Hx as [Hok Hl Hv].
  unfold roles in Hv. injection Hv as Hv1 Hv2 Hv3 Hv4 Hv5.
  assert (shift (hold_lane h) (hold_request h) x y) as Sh.
  { split; try done; try apply Hok.
    - intros l' E'. unfold hold_at. simpl. split; [congruence|]. by intros ?%(proj2 Ho).
    - by intros h' [= <-].
    - intros h' l' [= <-] Hp. symmetry. by apply (proj1 Ho). }
  assert (touches (hold_lane h) x y) as T by (by eapply shift_touches; [apply Hok|..]).
  split; [done|]. split; [|by eapply lone_touches]. split; [by eapply ok_shift; [|..|by right|]|done|].
  unfold roles. simpl. by rewrite Hv2, Hv3, Hv4, Hv5, bool_decide_eq_true_2.
Qed.

Lemma hoare_set_hold l q p s d r h E : hold_lane h = l -> hold_request h = q ->
  hoare l (lone_at l q [false; p; s; d; r]) (modify (set_copy_hold (Some h))) (fun _ => lone_at l q [true; p; s; d; r]) E.
Proof. intros Hl Hq x Hx. by apply wp_modify, set_hold_at. Qed.

Lemma clear_hold_at l q p s d r x : lone_at l q [true; p; s; d; r] x ->
  touches l x (set_copy_hold None x) /\ lone_at l q [false; p; s; d; r] (set_copy_hold None x).
Proof.
  intros [Hx Ho]. set (y := set_copy_hold None x). pose proof Hx as [Hok Hl Hv].
  unfold roles in Hv. injection Hv as Hv1 Hv2 Hv3 Hv4 Hv5.
  assert (shift l q x y) as Sh.
  { split; try done; try apply Hok. intros l' E'. unfold hold_at. simpl. split; [done|]. by intros ?%(proj2 Ho). }
  assert (touches l x y) as T by (by eapply shift_touches; [apply Hok|..]).
  split; [done|]. split; [|by eapply lone_touches]. split; [by eapply ok_shift; [|..|by right|]|done|].
  unfold roles. simpl. by rewrite Hv2, Hv3, Hv4, Hv5.
Qed.

Lemma hoare_clear_hold l q p s d r E :
  hoare l (lone_at l q [true; p; s; d; r]) (modify (set_copy_hold None)) (fun _ => lone_at l q [false; p; s; d; r]) E.
Proof. intros x Hx. by apply wp_modify, clear_hold_at. Qed.

Lemma holding_ok l q x : lone_at l q holding x -> ok [] None x.
Proof. intros [H _]. by eapply lane_settle; [exact H|..]. Qed.

Definition admits (resume : bool -> M AdmissionProgress) : Prop :=
  forall l q b, hoare l (lone_at l q holding) (resume b) (fun _ => ok [] None) (stuck l q).

Section Open.
Context (resume : bool -> M AdmissionProgress) (Hadmit : admits resume).

Lemma hoare_hold_recovery l q ram plan base n : hoare l (lone_at l q (bare false)) (hold_recovery_restore resume q l ram plan base n)
  (fun b : bool => if b then ok [] None else lone_at l q (bare false)) (stuck l q).
Proof.
  unfold hold_recovery_restore, bare. cbv zeta. step_lone. step_lone; [by apply hoare_ret|].
  eapply hoare_bind; [by apply hoare_set_hold|intros ?; cbv beta]. step_lone.
  eapply hoare_bind with (S := fun _ => ok [] None).
  - step_lone; [eapply hoare_bind; [apply Hadmit|intros ?; by apply hoare_ret]|]. apply hoare_ret. apply holding_ok.
  - intros ?. by apply hoare_ret.
Qed.

Lemma keeping_optional lookup : neutral lookup -> neutral (optional_host_reuse_plan lookup).
Proof. intros H. unfold optional_host_reuse_plan. neutral. Qed.

Lemma hoare_retry_restore l q base replan : hoare l (lone_at l q (bare false)) (retry_failed_restore resume q l base replan)
  (fun _ => ok [] None) (stuck l q).
Proof.
  unfold retry_failed_restore, bare. eapply hoare_bind with (S := fun b : bool => if b then ok [] None else lone_at l q (bare false)).
  - step_lone; [|by apply hoare_ret]. eapply hoare_bind.
    + unfold release_recovery_lane. step_lone. apply hoare_release_lone.
    + intros ?; cbv beta. step_lone.
      do 2 (eapply hoare_bind; [eapply (hoare_keep_lone True); [apply keeping_optional; neutral|intros; eapply lone_stuck; [eassumption|reflexivity]]|intros ?; cbv beta zeta]).
      step_lone; [|by apply hoare_ret]. step_lone. apply hoare_hold_recovery.
  - intros [|]; [by apply hoare_ret|]. eapply hoare_bind; [apply hoare_cold|intros ?; by apply hoare_ret].
Qed.

End Open.
(** ** Returning to the queue *)
Definition set_request (q : Z) (x : Executor) (f : Request -> Request) : Executor :=
  set_requests (<[q := f (requests x q)]> (requests x)) x.

Definition mild (f : Request -> Request) : Prop := forall r,
  queue_order (f r) = queue_order r /\ done (publication (f r)) = done (publication r) /\ flags (f r) = flags r /\ (idle r -> idle (f r)).

Lemma hand_updates l q fs x : Forall mild fs -> ok [q] None x ->
  ok [q] None (foldl (set_request q) x fs) /\ touches l x (foldl (set_request q) x fs) /\
  (idle (requests x q) -> idle (requests (foldl (set_request q) x fs) q)) /\
  forall p, queue_order (requests (foldl (set_request q) x fs) p) = queue_order (requests x p).
Proof.
  intros H. revert x. induction H as [|f fs Hf _ IH]; intros x Hx; simpl; [split_and!; [done|apply touches_refl|done|done]|].
  destruct (Hf (requests x q)) as (H1 & H2 & H3 & H4).
  destruct (IH (set_request q x f)) as (K1 & K2 & K4 & K3); [by apply ok_unlaned|]. split_and!; [done| | |].
  - eapply touches_trans; [|exact K2]. apply loose_touches. apply (i_held (proj1 Hx)). by left.
  - intros Hi%H4. apply K4. unfold set_request. by rewrite requests_update, decide_True.
  - intros p. rewrite K3. unfold set_request. rewrite requests_update. by destruct (decide (p = q)) as [->|].
Qed.

(** The state after a failed restore put its request back. *)
Lemma requeue_ok l q x order v fs : lone_at l q holding x -> (forall p, order p = queue_order (requests x p)) -> Forall mild fs ->
  let y := foldl (set_request q) (set_plan_versions v (set_slots (<[l := None]> (slots x)) (set_copy_hold None x))) fs in
  lane (requests y q) = None ->
  let z := publish_waiting (set_pending (insert_by_order order q (pending x)) y) in ok [] None z /\ touches l x z.
Proof.
  intros Hx Ho Hfs y Hl z. destruct (clear_hold_at _ _ _ _ _ _ _ Hx) as [T1 [Hc _]]. pose proof Hc as [Hokc Hlc Hvc].
  set (c := set_copy_hold None x) in *. destruct (roles_view _ _ _ _ Hvc) as (h' & p' & s' & Hv & Hv1 & Hv2 & Hv3).
  injection Hv as <- <- <- Hd Hr.
  assert (hold_at c ≠ Some l /\ prefill_lane c ≠ Some l /\ suspended_prefill_lane c ≠ Some l) as (Nh & Np & Ns)
    by (by rewrite <- Hv1, <- Hv2, <- Hv3). destruct (i_slots (proj1 Hokc) l q Hlc) as [Hlt _].
  assert (ok [q] None (freed l c)) as Hf.
  { split; [|by apply cap_freed, Hokc]. eapply inv_freed; [apply Hokc|done|by apply covers_none; [|right]|done|done]. }
  assert (set_slots (<[l := None]> (slots x)) c = freed l c) as E by (unfold freed; by rewrite bool_decide_eq_false_2).
  assert (keeps (freed l c) (set_plan_versions v (freed l c))) as K by (apply keeps_same; by split; [split|..]).
  assert (touches l x (set_plan_versions v (freed l c))) as T2.
  { eapply touches_trans; [exact T1|]. eapply touches_trans; [by eapply freed_touches; [apply Hokc|]|]. by eapply keeps_touches; [|apply Hf]. }
  destruct (hand_updates l q fs _ Hfs (keeps_ok _ _ _ _ K Hf)) as (Hy & T3 & Hi & Hord). rewrite <- E in *. fold y in Hy, T3, Hi, Hord.
  assert (touches l x y) as T by (by eapply touches_trans).
  assert (pending y = pending x) as Hp.
  { unfold y. clear. assert (forall z, pending (foldl (set_request q) z fs) = pending z) as H; [|by rewrite H].
    induction fs as [|f fs IH]; intros z; simpl; [done|by rewrite IH]. }
  split; [|eapply touches_trans; [exact T|by split; auto]].
  unfold z. rewrite <- Hp. apply (ok_return [] q); [done|by intros ?%elem_of_nil|done|by apply Hi|]. intros p. by rewrite Ho, Hord.
Qed.

Lemma hoare_requeue l q replan E : hoare l (lone_at l q holding) (requeue_failed_restore q l replan) (fun _ => ok [] None) E.
Proof.
  unfold requeue_failed_restore. eapply hoare_bind; [eapply (hoare_keep_lone False); [auto with neutral|done]|intros ?; cbv beta].
  intros x Hx. apply wp_bind, wp_modify, wp_bind, wp_total. intros _. apply wp_bind, wp_modify. unfold remove_completed_slot, invalidate_lane_plans.
  apply wp_bind, wp_bind, wp_modify, wp_modify. unfold release_planning_state, update_request. apply wp_bind, wp_modify, wp_bind, wp_modify.
  assert (forall x0 z, ok [] None z /\ touches l x0 z -> wp (publish_runtime_stats ;; mret ControlProgress)
    (fun _ y => touches l x0 y /\ ok [] None y) (fun _ y => touches l x0 y /\ E y) z) as Hend.
  { intros x0 z [Hz Tz]. apply wp_bind. apply (wp_keeping False); [auto with neutral| |done]. intros [] u K. apply wp_ret.
    split; [eapply touches_trans; [exact Tz|by eapply keeps_touches; [|apply Hz]]|by eapply keeps_ok]. }
  set (order := fun p => queue_order (requests x p)).
  set (f1 := fun r => set_planning (MkPlanning None ∅ (lane_plan_versions (planning r)) None 0 None 0) r).
  set (f2 := fun r => set_request_backfill_class NoBackfill (set_request_backfill_epoch 0 (set_remaining_service_work 0
        (set_admission_resources (MkResources 0 0 0) (set_budget None (set_lane None r)))))).
  set (f3 := fun r => set_force_cold_prefill true (set_cache_fallback true r)).
  set (v := <[l := plan_versions x l + 1]> (plan_versions x)). apply wp_bind.
  destruct replan; [apply wp_ret; pose proof (requeue_ok l q x order v [f1; f2] Hx) as H
                   |apply wp_modify; pose proof (requeue_ok l q x order v [f1; f2; f3] Hx) as H];
    apply Hend; (apply H; [done|repeat (constructor; [by intros r; split_and!|]); constructor|]); unfold set_request; simpl; by rewrite !fn_lookup_insert.
Qed.

(** ** Failing *)
Lemma hoare_fail l q e E : hoare l (stuck l q) (fail_admitted_request q l e) (fun _ => gone [] l q) E.
Proof.
  intros x [Hx|Hx].
  - apply (wp_fail_seated [] l); [by intros ?%elem_of_nil|done|]. by intros y Hy T.
  - apply (wp_fail_gone [] l); [done|]. by intros y Hy T.
Qed.

(** A failure the engine survives, or the exception goes on. *)
Lemma hoare_fail_or l q e : catchable e = true ->
  hoare l (stuck l q) (local ← fail_admitted_request q l e; if local : bool then mret ControlProgress else throw e)
    (fun _ => ok [] None) (stuck l q).
Proof.
  intros He. eapply hoare_bind; [apply hoare_fail|]. intros [|]; cbv beta iota.
  - apply hoare_ret. apply gone_ok.
  - apply hoare_throw; [done|by right].
Qed.

Lemma holding_view l q p x : lone_at l q [true; p; false; false; false] x ->
  exists h, copy_hold x = Some h /\ hold_lane h = l /\ hold_request h = q /\ (p = true <-> prefill_lane x = Some l).
Proof.
  intros [[Hok Hl Hv] _]. destruct (roles_view _ _ _ _ Hv) as (h' & p' & s' & E & H1 & H2 & _). injection E as <- <- <- _ _.
  pose proof (proj1 H1 eq_refl) as Hh. unfold hold_at in Hh. destruct (copy_hold x) as [h|] eqn:Eh; [|done]. injection Hh as Hh.
  exists h. split_and!; try done; [|apply H2..]. by eapply (hold_unique [] (Some l) l q h x); [apply Hok|..].
Qed.

Lemma keeping_mark T e : keeping T (mark_restore_failure e).
Proof. unfold mark_restore_failure. apply keeping_hold. intros h. by destruct e. Qed.

(** The hold of a lane, where the code reads it. *)
Lemma hoare_hold {B} l q p (k : Executor -> M B) (S : B -> Executor -> Prop) E :
  (forall x h, copy_hold x = Some h -> hold_lane h = l -> hold_request h = q -> (p = true <-> prefill_lane x = Some l) ->
     hoare l (lone_at l q [true; p; false; false; false]) (k x) S E) ->
  hoare l (lone_at l q [true; p; false; false; false]) (exec ≫= k) S E.
Proof.
  intros H x Hx. apply wp_bind, wp_exec. destruct (holding_view _ _ _ _ Hx) as (h & H1 & H2 & H3 & H4). by eapply H.
Qed.

Section Open.
Context (resume : bool -> M AdmissionProgress) (Hadmit : admits resume).

Lemma hoare_finish_failed l q : hoare l (lone_at l q holding) (finish_failed_restore resume) (fun _ => ok [] None) (stuck l q).
Proof.
  unfold finish_failed_restore. apply hoare_hold. intros x h Eh El Eq _. rewrite Eh. apply hoare_value'. rewrite El, Eq.
  eapply hoare_bind; [keep_lone|intros ?; cbv beta].
  eapply hoare_bind; [eapply (hoare_keep_lone False); [apply keeping_evict_hold|done]|intros ?; cbv beta].
  destruct (recovery_base h) as [base|]; [|apply hoare_requeue].
  eapply hoare_bind; [apply hoare_clear_hold|intros ?; cbv beta].
  eapply hoare_try; [by apply hoare_retry_restore|]. intros e He. by apply hoare_fail_or.
Qed.

Lemma hoare_fail_host l q b e : hoare l (lone_at l q holding) (fail_host_restore resume b e) (fun _ => ok [] None) (stuck l q).
Proof.
  unfold fail_host_restore. eapply hoare_bind; [eapply (hoare_keep_lone False); [apply keeping_mark|done]|intros ?; cbv beta].
  destruct b; [apply hoare_finish_failed|]. unfold holding. step_lone. apply hoare_ret, holding_ok.
Qed.

Lemma keeping_evict_held h b : neutral (evict_held_victims h b).
Proof. unfold evict_held_victims. neutral. apply keeping_evict. Qed.

Lemma keeping_settle_copies b : neutral (settle_copies b).
Proof. unfold settle_copies. neutral. Qed.

(** ** Completing *)

(** Where an admission can fail: with its copies in flight, or after them. *)
Definition broken (l : nat) (q : Z) (x : Executor) : Prop :=
  (exists p, lone_at l q [true; p; false; false; false] x) \/ (copy_hold x = None /\ unheld l q x).

Lemma lone_broken l q p x : lone_at l q [true; p; false; false; false] x -> broken l q x.
Proof. left. by exists p. Qed.

Ltac keep_hold := eapply (hoare_keep_lone True); [solve [neutral]|intros; by eapply lone_broken].
Ltac step_hold := first [eapply hoare_bind; [keep_hold|intros ?; cbv beta]
  | apply hoare_request_lone; intros ? ? ?
  | match goal with |- hoare _ (lone_at _ _ _) (match ?o with _ => _ end) _ _ => destruct o end].

(** A restore keeps its hold. *)
Lemma hoare_restore_part l q p {B} (k : CopyHold -> M B) S E :
  (forall h, hold_lane h = l -> hold_request h = q -> hoare l (lone_at l q [true; p; false; false; false]) (k h) S E) ->
  hoare l (lone_at l q [true; p; false; false; false]) (x ← exec; h ← deref (copy_hold x); k h) S E.
Proof. intros H. apply hoare_hold. intros x h Eh El Eq _. rewrite Eh. apply hoare_value. auto. Qed.

Lemma hoare_hold_restore l q h b : hold_lane h = l ->
  hoare l (lone_at l q holding) (hold_restore h b) (fun _ => lone_at l q holding) (broken l q).
Proof.
  intros El. unfold hold_restore, holding. cbv zeta. rewrite El. eapply hoare_bind with (S := fun _ => lone_at l q holding).
  - destruct (fork_source h); [destruct (restored h); [by apply hoare_ret|]|by apply hoare_ret]. unfold holding. keep_hold.
  - intros ?. apply hoare_restore_part. intros h1 _ _. eapply hoare_bind; [keep_hold|intros ready; cbv beta].
    destruct (negb ready); [by apply hoare_ret|]. apply hoare_restore_part. intros h2 _ _. keep_hold.
Qed.

Lemma prefill_view l q p x : lone_at l q [true; p; false; false; false] x -> bool_decide (prefill_lane x = Some l) = p.
Proof. intros [[_ _ Hv] _]. unfold roles in Hv. by injection Hv. Qed.

Lemma hoare_first_step l q p h first : hold_request h = q ->
  hoare l (lone_at l q [true; p; false; false; false])
    (x ← exec; st_throw_if (negb (complete first) && negb (bool_decide (prefill_lane x = Some l))) logic_error ;;
     gone ← total (cancelled q); modify (set_copy_hold None) ;; resolve_prefill_step q first gone ;; publish_runtime_stats ;; mret RanGpuUnit)
    (fun _ => ok [] None) (broken l q).
Proof.
  intros Eq. apply hoare_exec. intros x Hx. rewrite (prefill_view _ _ _ _ Hx).
  eapply hoare_bind with (S := fun _ y => lone_at l q [true; p; false; false; false] y /\ (complete first = true \/ p = true)).
  - intros y <-. apply wp_throw_if; [done| |intros _; split; [apply touches_refl|by eapply lone_broken]].
    intros Hb. split; [apply touches_refl|]. split; [done|]. destruct (complete first), p; auto.
  - intros ? y [Hy Hp]. revert y Hy. change (hoare l (lone_at l q [true; p; false; false; false])
      (gone ← total (cancelled q); modify (set_copy_hold None) ;; resolve_prefill_step q first gone ;; publish_runtime_stats ;; mret RanGpuUnit)
      (fun _ => ok [] None) (broken l q)).
    eapply hoare_bind; [keep_hold|intros gone; cbv beta]. eapply hoare_bind; [apply hoare_clear_hold|intros ?; cbv beta].
    eapply hoare_bind with (S := fun _ => ok [] None).
    + intros y [Hy Ho]. eapply wp_lane with (E := unheld l q) (S := fun _ => ok [] None); [by apply hoare_resolve_prefill|exact Hy|done|].
      intros e z T Hz. split; [done|]. right. split; [|done]. destruct (lone_touches _ _ _ T Ho) as [_ H2].
      destruct Hz as (p' & d & r & [_ _ Hv]). destruct (roles_view _ _ _ _ Hv) as (h' & ? & ? & E & H1 & _). injection E as <- _ _ _ _.
      unfold hold_at in *. destruct (copy_hold z) as [g|]; [|done]. simpl in *. by rewrite (H2 _ eq_refl) in H1; destruct H1 as [_ H1]; specialize (H1 eq_refl).
    + intros ?. eapply hoare_bind; [apply hoare_silent; auto with neutral|intros ?; by apply hoare_ret].
Qed.

Lemma hoare_start_held l q h : hold_lane h = l -> hold_request h = q ->
  hoare l (lone_at l q holding) (start_held_prefill h) (fun _ => ok [] None) (broken l q).
Proof.
  intros El Eq. unfold start_held_prefill. cbv zeta. rewrite El, Eq.
  eapply hoare_bind with (S := fun _ => lone_at l q [true; needs_prefill h; false; false; false]).
  { destruct (needs_prefill h); [|by apply hoare_ret].
    eapply hoare_mono; [apply hoare_own|done|done|]. intros x Hx. by eapply lone_broken. }
  intros ?; cbv beta. do 8 step_hold.
  by apply (hoare_first_step l q _ h).
Qed.

Lemma hoare_complete_try l q h b : hold_lane h = l -> hold_request h = q ->
  hoare l (lone_at l q holding) (admit_complete_try h b) (fun _ => ok [] None) (broken l q).
Proof.
  intros El Eq. unfold admit_complete_try, holding.
  eapply hoare_bind; [eapply (hoare_keep_lone True); [apply keeping_evict_held|intros; by eapply lone_broken]|intros go; cbv beta].
  destruct (negb go); [apply hoare_ret, holding_ok|].
  eapply hoare_bind; [by apply hoare_hold_restore|intros go1; cbv beta]. destruct (negb go1); [apply hoare_ret, holding_ok|].
  eapply hoare_bind; [eapply (hoare_keep_lone True); [apply keeping_settle_copies|intros; by eapply lone_broken]|intros go2; cbv beta].
  destruct (negb go2); [apply hoare_ret, holding_ok|]. apply hoare_restore_part. intros h' E1 E2. by apply hoare_start_held.
Qed.

Lemma broken_stuck l q x : broken l q x -> stuck l q x.
Proof. intros [[p H]|[_ H]]; [by eapply lone_stuck|by apply unheld_stuck]. Qed.

Lemma hoare_keep_stuck {A} l q (m : M A) E : silent m -> hoare l (stuck l q) m (fun _ => stuck l q) E.
Proof.
  intros Hm x Hx. apply (wp_keeping False); [done| |done]. intros a y K. destruct Hx as [(Hok & Hl & Hs)|Hx].
  - split; [by eapply keeps_touches; [|apply Hok]|]. left. split_and!; [by eapply keeps_ok|by rewrite (k_slots _ _ K)|by rewrite (k_suspended _ _ K)].
  - split; [by eapply keeps_touches; [|apply Hx]|]. right. by eapply keeps_gone.
Qed.

(** The handler: the request falls back to a cold prefill, or fails. *)
Lemma hoare_complete_failed l q h b e : catchable e = true -> hold_lane h = l -> hold_request h = q ->
  hoare l (broken l q) (admit_complete_failed resume h b e) (fun _ => ok [] None) (stuck l q).
Proof.
  intros He El Eq. unfold admit_complete_failed. cbv zeta. rewrite El, Eq. apply hoare_exec. intros x Hx.
  destruct (restore_failure_falls_back e q x) eqn:Ef.
  - eapply hoare_weak; [apply hoare_fail_host|]. intros y <-. unfold restore_failure_falls_back in Ef.
    destruct Hx as [[p Hp]|[Hn _]]; [|rewrite Hn, andb_false_r in Ef; done].
    destruct (copy_hold x) as [g|]; [|by rewrite andb_false_r in Ef].
    assert (bool_decide (prefill_lane x = None) = true) as Hpf by (destruct (bool_decide (prefill_lane x = None)); [done|];
      by rewrite andb_false_r, andb_false_l, andb_false_r in Ef).
    apply bool_decide_eq_true in Hpf. pose proof (prefill_view _ _ _ _ Hp) as E. rewrite Hpf in E. by subst p.
  - eapply hoare_weak with (P := stuck l q); [|intros y <-; by apply broken_stuck].
    eapply hoare_bind; [apply hoare_keep_stuck; destruct (_ && _); [apply keeping_mark|neutral]|intros ?; cbv beta].
    eapply hoare_bind; [apply hoare_keep_stuck; neutral|intros ?; cbv beta]. by apply hoare_fail_or.
Qed.

Lemma hoare_body l q b : hoare l (lone_at l q holding) (admit_complete_body resume b) (fun _ => ok [] None) (stuck l q).
Proof.
  unfold admit_complete_body. apply hoare_hold. intros x h Eh El Eq _. rewrite Eh.
  eapply hoare_bind; [keep_lone|intros ?; cbv beta]. eapply hoare_try; [by apply hoare_complete_try|].
  intros e He. by apply hoare_complete_failed.
Qed.

End Open.

Lemma admits_depth n : admits (admit_depth n).
Proof.
  induction n as [|n IH]; intros l q b; simpl; [|by apply hoare_body].
  apply hoare_throw; [done|]. intros x Hx. by eapply lone_stuck.
Qed.

Lemma hoare_admit l q b : hoare l (lone_at l q holding) (admit_complete b) (fun _ => ok [] None) (stuck l q).
Proof. apply admits_depth. Qed.

End Holds.
