(* ===== verification/ExecChoice.v ===== *)
(** * Retrying a generation and choosing a lane

    An attempt prefills the spliced prompt, holds a restore from a host tier, or gives up;
    its lane always ends with a role or free.  Choosing a lane for a request keeps the
    invariant. *)

From stdpp Require Import prelude functions list list_numbers sorting gmap.
From Stdlib Require Import ZArith Lia.
From S2P Require Import Prelude Admission Capacity GenerationGuards ExecState ExecCore ExecPlanning ExecRounds ExecAdmit ExecWorker ExecLogic ExecKeeps ExecNeutral ExecComplete ExecLanes ExecGeneration ExecDecode ExecHolds.
#[local] Open Scope Z_scope.

Section Recovery.
Context {I : Instance} {Opt : EngineOptions} (Hclose : sessions_close).

Lemma hoare_exhausted_ok l q d r : hoare l (lone_at l q [false; false; false; d; r]) (recovery_exhausted q) (fun _ => ok [] None) (stuck l q).
Proof.
  apply hoare_unheld, hoare_alone. eapply hoare_mono; [apply hoare_exhausted|done| |done]. intros ? x H. exact (gone_ok _ _ _ H).
Qed.

Lemma hoare_update_lone l q h p s d r d' r' f E :
  (forall r0, slight r0 (f r0)) -> (forall r0, decode_ready r0 = d -> decode_ready (f r0) = d') ->
  (forall r0, recovery_pending (recovery r0) = r -> recovery_pending (recovery (f r0)) = r') ->
  hoare l (lone_at l q [h; p; s; d; r]) (update_request q f) (fun _ => lone_at l q [h; p; s; d'; r']) E.
Proof. intros H1 H2 H3. apply (hoare_lone l _ _ (fun _ => lane_at l q [h; p; s; d'; r'])). by apply hoare_update. Qed.

Lemma hoare_begin_attempt l q attempt spliced : hoare l (lone_at l q retrying) (begin_attempt q attempt spliced)
  (fun _ => lone_at l q (bare false)) (stuck l q).
Proof.
  unfold begin_attempt, retrying, bare. step_lone.
  eapply hoare_bind; [eapply (hoare_update_lone l q false false false false true false false); [intros ?; by split|auto|auto]|intros ?; cbv beta].
  repeat step_lone; keep_lone.
Qed.

Lemma lift_suppression end_token b : neutral (lift (suppression end_token b)).
Proof.
  apply keeping_lift. unfold suppression. intros H. match type of H with context [throw_if ?c _] => destruct c end; done.
Qed.

#[local] Hint Resolve lift_suppression keeping_optional : neutral.

(** After the attempt began: one prefill, from the resident prefix, a host tier or cold. *)
Lemma hoare_route l q route lane_plan from_ram from_disk base :
  hoare l (lone_at l q (bare false))
    match route with
    | ResidentSuffix => plan ← value lane_plan; first ← begin_recovery_prefill q l plan; resolve_recovery_prefill q first
    | RouteHostRam | RouteHostDisk =>
        release_recovery_lane l ;;
        plan ← value (if bool_decide (route = RouteHostRam) then from_ram else from_disk);
        held ← hold_recovery_restore admit_complete q l (bool_decide (route = RouteHostRam)) plan base 0;
        if held : bool then mret tt else recovery_cold_prefill q l base
    | Cold => recovery_cold_prefill q l base
    | Exhaust => throw logic_error
    end (fun _ => ok [] None) (stuck l q).
Proof.
  assert (forall ram plan, hoare l (lone_at l q (bare false)) (release_recovery_lane l ;; plan ← value plan;
    held ← hold_recovery_restore admit_complete q l ram plan base 0; if held : bool then mret tt else recovery_cold_prefill q l base)
    (fun _ => ok [] None) (stuck l q)) as Hhost.
  { intros ram plan. eapply hoare_bind; [unfold release_recovery_lane, bare; step_lone; apply hoare_release_lone|intros ?; cbv beta].
    step_lone. eapply hoare_bind; [apply hoare_hold_recovery; intros ? ? ?; by apply hoare_admit|].
    intros [|]; [by apply hoare_ret|by apply hoare_cold]. }
  unfold bare. destruct route; [|apply Hhost..|by apply hoare_cold|].
  - step_lone. eapply hoare_bind; [apply hoare_begin_recovery|intros ?; by apply hoare_resolve_recovery].
  - apply hoare_throw; [done|]. intros x Hx. by eapply lone_stuck.
Qed.

Lemma hoare_start_attempt l q : hoare l (lone_at l q retrying) (start_recovery_attempt q l) (fun _ => ok [] None) (stuck l q).
Proof.
  unfold start_recovery_attempt, retrying. cbv zeta. repeat step_lone; try apply hoare_exhausted_ok.
  - eapply hoare_bind; [unfold release_recovery_lane; step_lone; apply hoare_release_lone|intros ?; cbv beta].
    by apply hoare_alone, hoare_cancelled.
  - eapply hoare_bind; [apply hoare_begin_attempt|intros ?; cbv beta]. apply hoare_route.
Qed.

(** ** The queue of retries *)

(** What a scan that found nothing to retry leaves. *)
Record idle_scan (x y : Executor) : Prop := MkIdleScan {
  q_ok : ok [] None y;
  q_slots : slots y = slots x;
  q_hold : copy_hold y = copy_hold x;
  q_prefill : prefill_lane y = prefill_lane x;
  q_suspended : suspended_prefill_lane y = suspended_prefill_lane x;
  q_requests : requests y = requests x;
  q_pending : pending y = pending x;
}.

Definition quiescent (x : Executor) : Prop := copy_hold x = None /\ prefill_lane x = None.

Lemma quiescent_lone l x : quiescent x -> lone l x.
Proof. intros [H1 H2]. unfold lone, hold_at. rewrite H1, H2. done. Qed.

(** Taking an entry that has nothing to retry. *)
Lemma pop_stale q queue x : ok [] None x -> recovery_queue x = q :: queue ->
  (forall l, slots x l = Some q -> recovery_pending (recovery (requests x q)) = false) -> ok [] None (set_recovery_queue queue x).
Proof.
  intros [Hi Hc] Hq Hs. split; [|by destruct Hc; split]. pose proof Hi as []. split; try done. simpl.
  intros l p Hp Hb Hr. pose proof (i_queued l p Hp Hb Hr) as Hin. rewrite Hq in Hin.
  apply elem_of_cons in Hin as [->|?]; [|done]. by rewrite (Hs l Hp) in Hr.
Qed.

Lemma pop_retrying l q queue x : ok [] None x -> quiescent x -> recovery_queue x = q :: queue -> slots x l = Some q ->
  recovery_pending (recovery (requests x q)) = true -> lone_at l q retrying (set_recovery_queue queue x).
Proof.
  intros Hok Hn Hq Hl Hp. destruct (lane_vector x l q Hok Hl) as (_ & _ & _ & _ & [_ _ Hv]); [done|].
  split; [|by apply quiescent_lone]. split; [|done|done]. eapply ok_shift; [exact Hok|exact Hl|by left|].
  split; try done; try apply Hok. intros p Hne. rewrite Hq. by intros [->|?]%elem_of_cons.
Qed.

(** The handler of an attempt. *)
Lemma hoare_attempt_failed l q e : catchable e = true ->
  hoare l (stuck l q) (lock ;; r ← request q;
    local ← (if done (publication r) then mret (is_request_local_error e) else fail_admitted_request q l e);
    if local : bool then mret tt else throw e) (fun _ => ok [] None) (stuck l q).
Proof.
  intros He. eapply hoare_bind; [apply hoare_keep_stuck; auto with neutral|intros ?; cbv beta].
  intros x Hx. apply wp_bind, wp_request. revert x Hx.
  cut (forall b, hoare l (fun x => stuck l q x /\ (b = true -> gone [] l q x))
    (local ← (if b : bool then mret (is_request_local_error e) else fail_admitted_request q l e); if local : bool then mret tt else throw e)
    (fun _ => ok [] None) (stuck l q)).
  { intros H x Hx. apply H. split; [done|]. intros Hd. destruct Hx as [(Hok & Hl & _)|]; [|done].
    destruct (i_slots (proj1 Hok) l q Hl) as (_ & _ & Hu & _). unfold undone in Hu. congruence. }
  intros b. eapply hoare_bind with (S := fun _ => gone [] l q).
  - destruct b; [apply hoare_ret; intros x [_ Hg]; auto|]. eapply hoare_weak; [apply hoare_fail|by intros x []].
  - intros [|]; [apply hoare_ret, gone_ok|]. apply hoare_throw; [done|by right].
Qed.

Lemma wp_recovery_loop queue x (Q : bool -> Executor -> Prop) : ok [] None x -> quiescent x -> recovery_queue x = queue ->
  (forall y, ok [] None y -> Q true y) -> (forall y, idle_scan x y -> Q false y) ->
  wp (recovery_loop queue) Q (fun _ => safe) x.
Proof.
  revert x Q. induction queue as [|q queue IH]; intros x Q Hok Hn Hq Ht Hf; simpl; [by apply wp_ret, Hf|].
  apply wp_bind, wp_modify, wp_bind, wp_exec. change (requests (set_recovery_queue queue x)) with (requests x).
  change (slots (set_recovery_queue queue x)) with (slots x).
  assert ((forall l, slots x l = Some q -> recovery_pending (recovery (requests x q)) = false) ->
    wp (recovery_loop queue) Q (fun _ => safe) (set_recovery_queue queue x)) as Hstale.
  { intros Hs. apply IH; [by eapply pop_stale|done|done|done|]. intros y []. by apply Hf. }
  destruct (lane (requests x q)) as [l|] eqn:Hlane.
  - destruct (bool_decide (slots x l = Some q) && _) eqn:E.
    + apply andb_prop in E as [Hl%bool_decide_eq_true Hp]. apply wp_bind.
      pose proof (pop_retrying _ _ _ _ Hok Hn Hq Hl Hp) as Hr.
      eapply wp_lane with (S := fun _ => ok [] None) (E := stuck l q); [|exact Hr| |intros; by eapply safe_stuck].
      * eapply hoare_try; [apply hoare_start_attempt|]. intros e He. by apply hoare_attempt_failed.
      * intros [] y _ Hy. by apply wp_ret, Ht.
    + apply Hstale. intros l' Hl'. destruct (i_slots (proj1 Hok) l' q Hl') as (_ & _ & _ & E' & _).
      assert (l' = l) as -> by congruence. rewrite bool_decide_eq_true_2 in E by done. done.
  - apply Hstale. intros l Hl. destruct (i_slots (proj1 Hok) l q Hl) as (_ & _ & _ & E' & _). congruence.
Qed.

End Recovery.

(** ** Every chosen lane is free

    The lane searches return lanes without a request: the admission that follows can
    occupy the lane.  [chooses q s φ m]: with the lanes [s] and a base plan of [q], the
    operation keeps everything and returns a value with [φ]. *)

Section Chooses.
Context {I : Instance} {Opt : EngineOptions}.

Definition chooses {A} (q : Z) (s : nat -> option Z) (φ : A -> Prop) (m : M A) : Prop :=
  forall x, based q x -> slots x = s -> wp m (fun a y => keeps_base q x y /\ φ a) (fun _ y => keeps_base q x y) x.

Lemma chooses_planned {A} q s (φ : A -> Prop) m : planned q m -> (forall a, φ a) -> chooses q s φ m.
Proof. intros Hm Hφ x Hx _. apply (wp_planned q); auto. Qed.

Lemma chooses_ret {A} q s (φ : A -> Prop) a : φ a -> chooses q s φ (mret a).
Proof. intros H x Hx _. apply wp_ret. split; [by apply keeps_base_refl|done]. Qed.

Lemma chooses_bind {A B} q s (ψ : A -> Prop) (φ : B -> Prop) (m : M A) k :
  chooses q s ψ m -> (forall a, ψ a -> chooses q s φ (k a)) -> chooses q s φ (m ≫= k).
Proof.
  intros Hm Hk x Hx Es. apply wp_bind. eapply wp_mono; [by apply Hm| |done]. intros a y [Hy Ha].
  eapply wp_mono; [apply Hk; [done|apply Hy|by rewrite (k_slots _ _ (proj1 Hy))]| |].
  - intros b z [Hz Hb]. split; [by eapply keeps_base_trans|done].
  - intros e z Hz. by eapply keeps_base_trans.
Qed.

Lemma chooses_step {A B} q s (φ : B -> Prop) (m : M A) k :
  planned q m -> (forall a, chooses q s φ (k a)) -> chooses q s φ (m ≫= k).
Proof. intros Hm Hk. eapply (chooses_bind _ _ (fun _ => True)); [by apply chooses_planned|auto]. Qed.

Lemma chooses_exec {B} q s (φ : B -> Prop) k :
  (forall x, based q x -> slots x = s -> chooses q s φ (k x)) -> chooses q s φ (exec ≫= k).
Proof. intros Hk x Hx Es. apply wp_bind, wp_exec. by apply Hk. Qed.

Lemma chooses_request {B} q s (φ : B -> Prop) k : (forall r, has_base r -> chooses q s φ (k r)) -> chooses q s φ (request q ≫= k).
Proof. intros Hk x Hx Es. apply wp_bind, wp_request. by apply Hk. Qed.

Lemma chooses_ask {A B} q s (f : Env -> A) (ψ : A -> Prop) (φ : B -> Prop) k :
  (forall e, ψ (f e)) -> (forall a, ψ a -> chooses q s φ (k a)) -> chooses q s φ (ask f ≫= k).
Proof.
  intros Hf Hk. eapply chooses_bind; [|exact Hk]. intros x Hx _ e. split; [by apply keeps_base_refl|apply Hf].
Qed.

Definition free (s : nat -> option Z) (l : nat) : Prop := l ∈ lanes /\ s l = None.

(** ** Ordinary requests *)
Definition free_selected (s : nat -> option Z) (o : Selected) : Prop :=
  match o with Some (c, _, _) => free s (choice_lane c) | None => True end.

Lemma consider_vram_free s e l reuse evict o : free s l -> free_selected s o -> free_selected s (consider_vram e l reuse evict o).
Proof. intros Hl Ho. unfold consider_vram. destruct o as [[[c br] bd]|]; [|done]. repeat case_match; done. Qed.

Lemma first_host_free s e plan after dirty L : (forall l, l ∈ L -> l ∈ lanes) -> (forall d, dirty = Some d -> free s d) ->
  forall l, first_host_lane s e plan after dirty L = Some l -> free s l.
Proof.
  revert dirty. induction L as [|l L IH]; intros dirty HL Hd l'; simpl; [apply Hd|].
  assert (forall l, l ∈ L -> l ∈ lanes) as HL' by (intros; apply HL; by right).
  destruct (bool_decide (is_Some (s l)) || _) eqn:E; [by apply IH|]. apply orb_false_iff in E as [E _].
  assert (free s l) as Hl.
  { split; [apply HL; by left|]. apply bool_decide_eq_false in E. by apply eq_None_not_Some. }
  destruct (negb (has_retained_lane l e)); [by intros [= <-]|].
  destruct dirty as [d|]; apply IH; try done; [|by intros d [= <-]]. intros d'. case_match; [by intros [= <-]|by apply Hd].
Qed.

Lemma consider_host_free s e reuse ram disk l evict o : (forall l', l = Some l' -> free s l') -> free_selected s o ->
  free_selected s (consider_host e reuse ram disk l evict o).
Proof. intros Hl Ho. unfold consider_host. destruct l as [l|]; [|done]. repeat case_match; try done; simpl; auto. Qed.

Lemma not_some s (l : nat) : bool_decide (is_Some (s l)) = false -> s l = (None : option Z).
Proof. intros H. apply bool_decide_eq_false in H. by apply eq_None_not_Some. Qed.

Lemma chooses_vram q s evict L o : (forall l, l ∈ L -> l ∈ lanes) -> free_selected s o ->
  chooses q s (free_selected s) (vram_pass q evict L o).
Proof.
  revert o. induction L as [|l L IH]; intros o HL Ho; simpl; [by apply chooses_ret|].
  assert (forall l, l ∈ L -> l ∈ lanes) as HL' by (intros; apply HL; by right).
  apply chooses_exec. intros x _ Es. rewrite Es. destruct (bool_decide (is_Some (s l))) eqn:E; [by apply IH|]. apply not_some in E.
  apply chooses_step; [auto with planned|intros _]. apply chooses_request. intros r Hr.
  apply chooses_step; [auto with planned|intros plan]. apply chooses_step; [auto with planned|intros feasible].
  eapply (chooses_bind _ _ (free_selected s)); [|intros o' Ho'; by apply IH].
  destruct feasible; [|by apply chooses_ret]. intros y Hy _ e. split; [by apply keeps_base_refl|].
  apply consider_vram_free; [|done]. split; [apply HL; by left|done].
Qed.

Lemma chooses_host q s evict o : free_selected s o -> chooses q s (free_selected s) (host_pass q evict o).
Proof.
  intros Ho. unfold host_pass. apply chooses_exec. intros x _ Es. rewrite Es. cbv zeta.
  assert (forall o' plan f, free_selected s o' -> (forall e, free_selected s (f e)) ->
    chooses q s (free_selected s) (if 0 <? reusable_prompt_tokens (summary plan) then ask f else mret o')) as Hask.
  { intros o' plan f Ho' Hf. destruct (0 <? _); [|by apply chooses_ret]. intros y Hy _ e. split; [by apply keeps_base_refl|apply Hf]. }
  assert (forall e o' reuse ram disk plan, free_selected s o' ->
    free_selected s (consider_host e reuse ram disk (first_host_lane s e plan evict None lanes) evict o')) as Hc.
  { intros. apply consider_host_free; [|done]. by apply first_host_free. }
  eapply (chooses_bind _ _ (free_selected s)).
  - destruct (ram_plan _); [|by apply chooses_ret]. apply Hask; auto.
  - intros o' Ho'. destruct (disk_plan _); [|by apply chooses_ret]. apply Hask; auto.
Qed.

(** ** Disposable requests *)
Definition free_keep (s : nat -> option Z) (keep : nat -> bool) : Prop := forall l, keep l = true -> s l = None.

Lemma chooses_protect q s L keep active : free_keep s keep ->
  chooses q s (fun r => free_keep s (fst r)) (protect_sources q L keep active).
Proof.
  revert keep active. induction L as [|l L IH]; intros keep active Hk; simpl; [by apply chooses_ret|].
  apply chooses_exec. intros x _ Es. rewrite Es. destruct (bool_decide (is_Some (s l))) eqn:E; [by apply IH|]. apply not_some in E.
  apply chooses_step; [auto with planned|intros _]. apply chooses_step; [auto with planned|intros version].
  apply chooses_exec. intros y _ _. apply chooses_step; [planned|intros _]. apply chooses_request. intros r _.
  apply chooses_step; [auto with planned|intros plan]. apply IH. intros l' Hl'.
  destruct (decide (l' = l)) as [->|Hne]; [done|]. rewrite fn_lookup_insert_ne in Hl' by done. by apply Hk.
Qed.

Definition free_ranked (s : nat -> option Z) (o : Ranked) : Prop :=
  match o with Some (c, _, _) => free s (choice_lane c) | None => True end.

Lemma protect_lane source c : choice_lane (protect source c) = choice_lane c.
Proof. done. Qed.

Lemma consider_free s e o candidate : free s (choice_lane candidate.1.1) -> free_ranked s o -> free_ranked s (consider s e o candidate).
Proof.
  destruct candidate as [[c plan] rank]. simpl. intros Hc Ho. unfold consider.
  set (c' := match choice_fork_source c with Some f => protect f c | None => c end).
  assert (free s (choice_lane c')) as Hc' by (unfold c'; by destruct (choice_fork_source c)).
  destruct (negb _); [done|]. destruct o as [[[b br] brk]|]; [|done]. repeat case_match; done.
Qed.

Lemma consider_all_free s e candidates o : Forall (fun c => free s (choice_lane c.1.1)) candidates -> free_ranked s o ->
  free_ranked s (foldl (consider s e) o candidates).
Proof. intros H. revert o. induction H as [|c cs Hc _ IH]; intros o Ho; simpl; [done|]. apply IH. by apply consider_free. Qed.

Lemma free_lanes s l : l ∈ filter (fun l => s l = None) lanes -> free s l.
Proof. rewrite list_elem_of_filter. by intros [? ?]. Qed.

Lemma fork_candidates_free s r keep e : free_keep s keep -> Forall (fun c => free s (choice_lane c.1.1)) (fork_candidates s r keep e).
Proof.
  intros Hk. unfold fork_candidates. cbv zeta. apply Forall_app. split; apply Forall_forall; intros c Hc.
  - apply list_elem_of_join in Hc as (cs & Hc & Hcs). apply list_elem_of_fmap in Hcs as (source & -> & Hs).
    destruct (lane_plans (planning r) !! source); [|by apply elem_of_nil in Hc]. destruct (keep source) eqn:Ek; [|by apply elem_of_nil in Hc].
    apply elem_of_app in Hc as [Hc|Hc].
    + apply list_elem_of_fmap in Hc as (d & -> & [_ Hd]%list_elem_of_filter). by apply free_lanes.
    + destruct (_ && _); [|by apply elem_of_nil in Hc]. apply list_elem_of_singleton in Hc as ->. split; [done|by apply Hk].
  - apply list_elem_of_join in Hc as (cs & Hc & Hcs). apply list_elem_of_fmap in Hcs as (d & -> & Hd%free_lanes).
    assert (choice_lane c.1.1 = d) as ->; [|done]. apply elem_of_app in Hc as [Hc|Hc]; [|apply elem_of_app in Hc as [Hc|Hc]];
      repeat case_match; try (by apply elem_of_nil in Hc); by apply list_elem_of_singleton in Hc as ->.
Qed.

Definition free_choice (s : nat -> option Z) (o : option LaneChoice) : Prop := forall c, o = Some c -> free s (choice_lane c).

Lemma chooses_fork q s : chooses q s (free_choice s) (find_fork_lane q).
Proof.
  unfold find_fork_lane. eapply chooses_bind; [by apply chooses_protect|]. intros [keep active] Hk.
  do 2 (apply chooses_step; [auto with planned|intros _]). apply chooses_exec. intros x _ Es. rewrite Es.
  eapply (chooses_ask _ _ _ (free_ranked s)); [intros e; apply consider_all_free; [by apply fork_candidates_free|done]|].
  intros [[[c reuse] rank]|] Hc; [apply chooses_ret; by intros ? [= <-]|]. destruct active; [by apply chooses_ret|].
  intros y Hy _. by apply wp_throw, keeps_base_refl.
Qed.

Lemma chooses_admission_lane q s : chooses q s (free_choice s) (find_admission_lane q).
Proof.
  unfold find_admission_lane. apply chooses_request. intros r _. destruct (negb _); [apply chooses_fork|].
  apply chooses_step; [apply planned_feasible|intros feasible]. destruct (negb feasible); [by apply chooses_ret|].
  do 2 (apply chooses_step; [auto with planned|intros _]).
  assert (forall evict o, free_selected s o -> chooses q s (free_selected s) (o ← vram_pass q evict lanes o; host_pass q evict o)) as Hpass.
  { intros evict o Ho. eapply chooses_bind; [by apply chooses_vram|]. intros o' Ho'. by apply chooses_host. }
  eapply chooses_bind; [by apply (chooses_vram q s false)|]. intros o1 H1. eapply chooses_bind; [by apply (chooses_host q s false)|].
  intros [[[c reuse] dirty]|] H2; [apply chooses_ret; by intros ? [= <-]|].
  eapply chooses_bind; [by apply (chooses_vram q s true)|]. intros o3 H3. eapply chooses_bind; [by apply (chooses_host q s true)|].
  intros [[[c reuse] dirty]|] H4; apply chooses_ret; [by intros ? [= <-]|done].
Qed.

(** ** Interrupting *)
Lemma chooses_interrupt q s L o : (forall l, l ∈ L -> l ∈ lanes) -> (forall l n, o = Some (l, n) -> free s l) ->
  chooses q s (fun o => forall l n, o = Some (l, n) -> free s l) (interrupt_lane q L o).
Proof.
  revert o. induction L as [|l L IH]; intros o HL Ho; simpl; [by apply chooses_ret|].
  assert (forall l, l ∈ L -> l ∈ lanes) as HL' by (intros; apply HL; by right).
  apply chooses_exec. intros x _ Es. rewrite Es. destruct (bool_decide (is_Some (s l))) eqn:E; [by apply IH|]. apply not_some in E.
  assert (free s l) as Hl by (split; [apply HL; by left|done]).
  apply chooses_step; [auto with planned|intros _]. apply chooses_request. intros r _.
  do 3 (apply chooses_step; [auto with planned|intros ?]). case_match; [by apply IH|]. apply IH; [done|]. intros l' n.
  destruct o as [[l0 best]|]; [case_match|]; try (by intros [= <- <-]); by apply Ho.
Qed.

End Chooses.
