(* ===== verification/ExecAdmission.v ===== *)
(** * Admission keeps the invariant

    A request leaves the queue for a lane, for its caller, or stays: claims, captures and
    evictions change nothing the invariant sees, and every failure is local to the
    request. *)

From stdpp Require Import prelude functions list list_numbers sorting gmap.
From Stdlib Require Import ZArith Lia.
From S2P Require Import Prelude Admission Capacity GenerationGuards ExecState ExecCore ExecPlanning ExecRounds ExecAdmit ExecWorker ExecLogic ExecKeeps ExecNeutral ExecComplete ExecLanes ExecGeneration ExecDecode ExecHolds ExecChoice.
#[local] Open Scope Z_scope.

Section Claims.
Context {I : Instance} {Opt : EngineOptions}.

Lemma keeping_frame T f : keeping T (update_frame f).
Proof. unfold update_frame. neutral. Qed.

Lemma keeping_planning T q f : keeping T (update_planning q f).
Proof. unfold update_planning. neutral. Qed.

Lemma keeping_release_if T id : keeping T (release_host_if_needed id).
Proof. unfold release_host_if_needed. neutral; apply keeping_frame. Qed.

Lemma keeping_rollback T : keeping T rollback_ram_captures.
Proof. unfold rollback_ram_captures. neutral. apply keeping_frame. Qed.

End Claims.

#[export] Hint Resolve keeping_frame keeping_planning keeping_release_if keeping_rollback : neutral.

Section Captures.
Context {I : Instance} {Opt : EngineOptions}.

Lemma keeping_defer T id : keeping T (defer_for_reclaim id).
Proof. unfold defer_for_reclaim. neutral. Qed.

Lemma keeping_capture l b : neutral (capture_lane l b).
Proof. unfold capture_lane. neutral. Qed.

Lemma keeping_winning r c : neutral (winning_plan r c).
Proof. unfold winning_plan. cbv zeta. repeat (case_match || neutral_step). Qed.

Lemma keeping_preserve q c b : neutral (preserve_choice q c b).
Proof. unfold preserve_choice. neutral. Qed.

End Captures.

#[export] Hint Resolve keeping_defer keeping_capture keeping_winning keeping_preserve : neutral.

Section Capture.
Context {I : Instance} {Opt : EngineOptions}.

Lemma keeping_reclaim fuel c plan b victims : neutral (reclaim_victims fuel c plan b victims).
Proof. revert victims. induction fuel as [|fuel IH]; intros victims; simpl; neutral. Qed.

Lemma keeping_claim q c plan b captures : neutral (claim_and_capture q c plan b captures).
Proof. unfold claim_and_capture. cbv zeta. neutral. apply keeping_reclaim. Qed.

End Capture.

#[export] Hint Resolve keeping_reclaim keeping_claim : neutral.

(** ** Out of the queue *)
Section Erase.
Context {I : Instance} {Opt : EngineOptions} (Hclose : sessions_close).

(** A waiting request in the worker's hands. *)
Definition in_hands (q : Z) (x : Executor) : Prop := ok [q] None x /\ lane (requests x q) = None /\ idle (requests x q).

Lemma keeps_hands q x y : keeps x y -> in_hands q x -> in_hands q y.
Proof.
  intros K (Hok & Hl & H1 & H2). destruct (i_held (proj1 Hok) q (list_elem_of_here _ _)) as (Hs & _).
  destruct (vw_inv _ _ (k_vw _ _ K q Hs (inv_ids _ _ _ (proj1 Hok)))) as (_ & E1 & E2 & E3 & _).
  split_and!; [by eapply keeps_ok|by rewrite E1|]. unfold idle. by rewrite E2, E3.
Qed.

(** What an operation on one waiting request leaves: the lanes, the rest of the queue,
    and a protection that is not its own. *)
Record aside (q : Z) (x y : Executor) : Prop := MkAside {
  as_touches : forall l, touches l x y;
  as_pending : forall p, p ≠ q -> p ∈ submitted x -> p ∈ pending x -> p ∈ pending y;
  as_submitted : forall p, p ∈ submitted x -> p ∈ submitted y;
  as_protection : forall p, protection x = Some p -> head_request_id p ≠ q -> protection y = Some p;
  as_same : forall p, protection y = Some p -> protection x = Some p;
}.

Lemma aside_trans q x y z : aside q x y -> aside q y z -> aside q x z.
Proof.
  intros [] []. split; auto. intros l. by eapply touches_trans.
Qed.

Lemma keeps_aside q held busy x y : keeps x y -> inv held busy x -> aside q x y.
Proof.
  intros K Hi. split; [intros l; by eapply keeps_touches| |apply K|intros p; by rewrite (k_protection _ _ K)|intros p; by rewrite (k_protection _ _ K)].
  intros p _ Hp. by apply (k_pending _ _ K p Hp (inv_ids _ _ _ Hi)).
Qed.

Lemma closed_aside q held busy x y : inv (q :: held) busy x -> closed q x y -> same_lanes x y -> aside q x y.
Proof.
  intros Hi C L. pose proof (z_framed _ _ _ C) as F. split; [intros l; by eapply hand_touches| |apply F|intros p; by rewrite (f_protection _ _ _ F)|intros p; by rewrite (f_protection _ _ _ F)].
  intros p _ Hp Hin. by apply F.
Qed.

Lemma wp_erase q x (Q : bool -> Executor -> Prop) R : ok [] None x -> q ∈ submitted x ->
  (forall y, q ∈ pending x -> in_hands q y -> aside q x y -> Q true y) ->
  (forall y, q ∉ pending x -> keeps x y -> Q false y) -> wp (erase_pending q) Q R x.
Proof.
  intros Hok Hs Ht Hf. unfold erase_pending. apply wp_bind. apply (wp_keeping False); [auto with neutral| |done]. intros [] y K.
  pose proof (keeps_ok _ _ _ _ K Hok) as Hy. pose proof (k_pending _ _ K q Hs (inv_ids _ _ _ (proj1 Hok))) as Hp.
  apply wp_bind, wp_exec. case_bool_decide as E.
  - apply wp_bind, wp_modify, wp_ret. destruct (i_pending (proj1 Hy) q E) as (_ & _ & Hl & Hidle).
    apply Ht; [by apply Hp|split_and!; [by apply ok_erase|done|done]|].
    eapply aside_trans; [by eapply keeps_aside; [|apply Hok]|]. split; try done; [intros l; by split; auto|].
    intros p Hne _ Hin. apply erase_first_elem; [by eapply pending_NoDup, Hy|done].
  - apply wp_ret, Hf; [by rewrite <- Hp|done].
Qed.

(** A waiting request completes. *)
Lemma wp_hands q m x (Q : unit -> Executor -> Prop) R : (forall R, completes R q m) -> in_hands q x ->
  (forall y, ok [] None y -> aside q x y -> Q tt y) -> wp m Q R x.
Proof.
  intros Hm (Hok & Hl & Hidle) HQ. eapply (proj2 (Hm R)) with (held := []).
  - split_and!; [exact Hok|by intros ?%elem_of_nil|]. intros l E. congruence.
  - intros y Hy C L. apply HQ; [done|]. eapply closed_aside; [apply Hok|done|done].
Qed.

(** Dropping the protection of its head. *)
Lemma protection_same x p : (forall held busy, inv held busy x -> inv held busy (set_protection p x)) /\
  (forall window owed, cap window owed x -> cap window owed (set_protection p x)) /\ forall l, touches l x (set_protection p x).
Proof. split_and!; [by intros held busy []; split|by intros window owed []; split|by intros l; split; auto]. Qed.

Lemma ok_protection held busy p x : ok held busy x -> ok held busy (set_protection p x).
Proof. intros [H1 H2]. split; by apply protection_same. Qed.

Lemma hands_protection q p x : in_hands q x -> in_hands q (set_protection p x).
Proof. intros (H1 & H2 & H3). split_and!; [by apply ok_protection|done|done]. Qed.

Lemma wp_clear q x (P : Executor -> Prop) (Q : unit -> Executor -> Prop) R : P x -> (forall p, P (set_protection p x)) ->
  (forall y, P y -> aside q x y -> Q tt y) -> wp (clear_protection_if_head q) Q R x.
Proof.
  intros Hx HP HQ. unfold clear_protection_if_head. apply wp_bind, wp_exec.
  assert (aside q x x) as Hrefl by (split; auto; intros l; apply touches_refl).
  destruct (protection x) as [p|] eqn:Ep; [|by apply wp_ret, HQ].
  destruct (Z.eqb_spec (head_request_id p) q) as [E|E]; [|by apply wp_ret, HQ]. apply wp_modify, HQ; [apply HP|].
  split; auto; [apply protection_same|intros p' Ep' Hne; congruence|done].
Qed.

Lemma wp_remove_error q e x (Q : AdmissionProgress -> Executor -> Prop) R : ok [] None x -> q ∈ submitted x ->
  (forall p y, ok [] None y -> aside q x y -> Q p y) -> wp (remove_pending_error q e) Q R x.
Proof.
  intros Hok Hs HQ. unfold remove_pending_error. apply wp_bind, wp_erase; [done|done| |].
  - intros y _ Hy A. apply wp_bind.
    apply (wp_clear q y (in_hands q)); [done|intros p; by apply hands_protection|]. intros z Hz A'.
    apply wp_bind. apply (wp_hands q); [intros R'; apply completes_error|done|]. intros w Hw A''.
    apply wp_ret, HQ; [done|]. eapply aside_trans; [exact A|]. by eapply aside_trans.
  - intros y _ K. apply wp_ret, HQ; [by eapply keeps_ok|by eapply keeps_aside; [|apply Hok]].
Qed.

End Erase.

(** ** Scanning *)
Section Scan.
Context {I : Instance} {Opt : EngineOptions} (Hclose : sessions_close).

Definition scanned (q : Z) (x : Executor) (r : Scanned) (y : Executor) : Prop :=
  ok [] None y /\ aside q x y /\
  match r with
  | Removed _ => True
  | Unplaced _ => q ∈ pending y
  | Placed _ c => q ∈ pending y /\ free (slots y) (choice_lane c)
  end.

Lemma wp_plan_base q x (Q : option exn -> Executor -> Prop) R :
  (forall y, keeps_base q x y -> Q None y) -> (forall e y, keeps x y -> Q (Some e) y) ->
  wp (try_catch (ensure_base_plan q ;; mret None) (fun e => mret (Some e))) Q R x.
Proof.
  intros H1 H2. apply wp_try, wp_bind, wp_base_plan.
  - intros y K. by apply wp_ret, H1.
  - intros e y K _. by apply wp_ret, H2.
Qed.

Lemma wp_find_lane q x (Q : option LaneChoice + exn -> Executor -> Prop) R : based q x ->
  (forall c y, keeps_base q x y -> free_choice (slots x) c -> Q (inl c) y) -> (forall e y, keeps_base q x y -> Q (inr e) y) ->
  wp (try_catch (c ← find_admission_lane q; mret (inl c)) (fun e => mret (inr e))) Q R x.
Proof.
  intros Hb H1 H2. apply wp_try, wp_bind. eapply wp_mono; [by apply (chooses_admission_lane q (slots x))| |].
  - intros c y [K Hc]. apply wp_ret. auto.
  - intros e y K _. by apply wp_ret, H2.
Qed.

Lemma wp_scan q head x (Q : Scanned -> Executor -> Prop) R : ok [] None x -> q ∈ pending x ->
  (forall r y, scanned q x r y -> Q r y) -> wp (scan_request q head) Q R x.
Proof.
  intros Hok Hq HQ. assert (forall y, keeps x y -> ok [] None y /\ q ∈ pending y /\ q ∈ submitted y /\ aside q x y) as Hk.
  { intros y K. destruct (i_pending (proj1 Hok) q Hq) as (Hs & _).
    split_and!; [by eapply keeps_ok|by apply (k_pending _ _ K q Hs (inv_ids _ _ _ (proj1 Hok)))|by apply K|by eapply keeps_aside; [|apply Hok]]. }
  assert (forall e y, keeps x y -> wp (remove_pending_error q e ;; mret (Removed true)) Q R y) as Hremove.
  { intros e y K. destruct (Hk y K) as (Hy & _ & Hs & A). apply wp_bind, wp_remove_error; [done|done|]. intros p z Hz A'.
    apply wp_ret, HQ. split_and!; [done|by eapply aside_trans|done]. }
  destruct (Hk x (keeps_refl x)) as (_ & _ & Hs & _).
  unfold scan_request. apply wp_bind, wp_total. intros [|].
  - apply wp_bind, wp_erase; [done|done| |].
    + intros y _ Hy A. apply wp_bind. assert (forall z, in_hands q z -> aside q y z -> wp (complete_cancelled q ;; mret (Removed true)) Q R z) as Hc.
      { intros z Hz A'. apply wp_bind. apply (wp_hands q); [intros R'; by apply completes_cancelled|done|]. intros w Hw A''.
        apply wp_ret, HQ. split_and!; [done| |done]. eapply aside_trans; [exact A|]. by eapply aside_trans. }
      destruct head; [|by apply wp_ret, Hc; [|split; auto; intros l; apply touches_refl]].
      apply (wp_clear q y (in_hands q)); [done|intros p; by apply hands_protection|]. intros z Hz A'. by apply Hc.
    + intros y _ K. apply wp_ret, HQ. destruct (Hk y K) as (? & ? & ? & ?). by split_and!.
  - apply wp_bind, wp_request, wp_bind, wp_total. intros time. destruct (_ && _); [by apply Hremove|].
    apply wp_bind, wp_plan_base; [|intros e y K; by apply Hremove]. intros y [K Hb].
    apply wp_bind, wp_request, wp_bind. destruct Hb as [b Eb]. rewrite Eb. apply wp_ret. destruct (negb _); [by apply Hremove|].
    apply wp_bind, wp_find_lane; [by exists b| |].
    + intros c z [K' _] Hc. assert (keeps x z) as Kz by (by transitivity y). destruct (Hk z Kz) as (? & ? & ? & ?).
      destruct c as [c|]; apply wp_ret, HQ; split_and!; try done. rewrite (k_slots _ _ K'). by apply Hc.
    + intros e z [K' _]. apply Hremove. by transitivity y.
Qed.

End Scan.

(** ** Taking the lane *)
Section Occupy.
Context {I : Instance} {Opt : EngineOptions} (Hclose : sessions_close).

(** Everything outside lane [l] is as before. *)
Record calm (l : nat) (x y : Executor) : Prop := MkCalm {
  m_slots : forall l', l' ≠ l -> slots y l' = slots x l';
  m_vw : forall l' p, l' ≠ l -> slots x l' = Some p -> vw (requests y p) = vw (requests x p);
  m_hold : forall l', l' ≠ l -> (hold_at y = Some l' <-> hold_at x = Some l');
  m_prefill : forall l', l' ≠ l -> (prefill_lane y = Some l' <-> prefill_lane x = Some l');
  m_suspended : forall l', l' ≠ l -> (suspended_prefill_lane y = Some l' <-> suspended_prefill_lane x = Some l');
}.

Lemma touches_calm l x y : touches l x y -> calm l x y.
Proof. by intros []; split. Qed.

Lemma calm_trans l x y z : calm l x y -> calm l y z -> calm l x z.
Proof.
  intros [] []. split.
  - intros l' E. rewrite m_slots1 by done. auto.
  - intros l' p E Hp. rewrite (m_vw1 l') by (try done; by rewrite m_slots0). by apply (m_vw0 l').
  - intros l' E. rewrite m_hold1 by done. auto.
  - intros l' E. rewrite m_prefill1 by done. auto.
  - intros l' E. rewrite m_suspended1 by done. auto.
Qed.

Lemma lanes_below l : l ∈ lanes -> (l < max_concurrency)%nat.
Proof. unfold lanes. rewrite elem_of_seq. lia. Qed.

Lemma inv_occupy q l x : inv [q] None x -> free (slots x) l -> lane (requests x q) = Some l -> is_Some (budget (requests x q)) ->
  inv [] (Some l) (set_slots (<[l := Some q]> (slots x)) x).
Proof.
  intros Hi [Hlt%lanes_below Hfree] Hl Hb. destruct (i_held Hi q (list_elem_of_here _ _)) as (Hs & Hu & Hnp & Hns).
  set (y := set_slots (<[l := Some q]> (slots x)) x).
  assert (forall l', l' ≠ l -> slots y l' = slots x l') as Hne by (intros l' E; unfold y; simpl; by rewrite fn_lookup_insert_ne).
  assert (slots y l = Some q) as Hself by (unfold y; simpl; by rewrite fn_lookup_insert).
  assert (forall l' p, slots x l' = Some p -> slots y l' = Some p) as Hmore by (intros l' p E; rewrite Hne; [done|congruence]).
  assert (forall l', is_Some (slots x l') -> is_Some (slots y l')) as Hsome by (intros l' [p E]; eauto).
  pose proof Hi as []. split; try done.
  - intros l' p. destruct (decide (l' = l)) as [->|E]; [rewrite Hself; by intros [= <-]|rewrite Hne by done; apply i_slots].
  - by intros p ?%elem_of_nil.
  - intros p Hp. destruct (i_placed p Hp) as [?|[?|[[l' ?]| ->%list_elem_of_singleton]]]; [by left|by right; left|right; right; left; eauto|].
    right. right. left. by exists l.
  - intros h Hh. by apply Hmore, i_hold.
  - intros l' Hp. by apply Hsome, i_prefill.
  - intros l' Hp. by apply Hsome, i_suspended.
  - intros l' p Hp E. assert (l' ≠ l) as El by (intros ->; apply E; by left). rewrite Hne in Hp by done.
    apply (i_roles l' p Hp). apply excused_none.
  - intros l' p Hp E. assert (l' ≠ l) as El by (intros ->; apply E; by left). rewrite Hne in Hp by done.
    apply (i_queued l' p Hp), excused_none.
  - by intros [_ ?]%i_failed.
  - intros He. destruct (i_exited He) as [Hf _]. by destruct (i_failed Hf).
Qed.

Lemma cap_slots s window owed x : cap window owed x -> cap window owed (set_slots s x).
Proof. by intros []; split. Qed.

(** The lane of a waiting request in the worker's hands, with its copies in flight. *)
Lemma occupied q l x v f h : ok [q] None x -> quiescent x -> free (slots x) l -> idle (requests x q) ->
  (forall r, queue_order (f r) = queue_order r /\ done (publication (f r)) = done (publication r) /\ flags (f r) = flags r /\
    (idle r -> idle (f r)) /\ lane (f r) = Some l /\ is_Some (budget (f r))) ->
  hold_lane h = l -> hold_request h = q ->
  let y := set_copy_hold (Some h) (set_plan_versions v (set_slots (<[l := Some q]> (slots x)) (set_request q x f))) in
  lone_at l q holding y /\ calm l x y.
Proof.
  intros Hok Hquiet Hfree Hidle Hf Hl Hq y. destruct (Hf (requests x q)) as (F1 & F2 & F3 & F4 & F5 & F6).
  assert (ok [q] None (set_request q x f)) as H1 by (by apply ok_unlaned).
  assert (requests (set_request q x f) q = f (requests x q)) as Eq by (unfold set_request; by rewrite requests_update, decide_True).
  assert (ok [] (Some l) (set_slots (<[l := Some q]> (slots x)) (set_request q x f))) as H2.
  { split; [|by apply cap_slots, H1]. apply (inv_occupy q l (set_request q x f)); [apply H1|done|by rewrite Eq|by rewrite Eq]. }
  set (z := set_slots (<[l := Some q]> (slots x)) (set_request q x f)) in *.
  assert (keeps z (set_plan_versions v z)) as K by (apply keeps_same; by split; [split|..]).
  pose proof (keeps_ok _ _ _ _ K H2) as H3.
  assert (lone_at l q (bare false) (set_plan_versions v z)) as H4.
  { split; [|by apply quiescent_lone]. split; [done|simpl; by rewrite fn_lookup_insert|].
    destruct Hquiet as [Q1 Q2]. unfold roles. simpl. change (requests (set_request q x f) q) with (requests (set_request q x f) q).
    rewrite Q1, Q2. destruct (F4 Hidle) as [I1 I2].
    assert (requests (set_plan_versions v z) q = f (requests x q)) as E by exact Eq. simpl in E. rewrite E, I1, I2.
    rewrite (bool_decide_eq_false_2 (suspended_prefill_lane x = Some l)); [done|].
    intros Es%(i_suspended (proj1 Hok)). destruct Hfree as [_ Hn]. rewrite Hn in Es. by apply is_Some_None in Es. }
  destruct (set_hold_at _ _ _ _ _ _ h _ Hl Hq H4) as [T H5]. split; [exact H5|].
  eapply calm_trans; [|apply touches_calm; exact T]. split; try done.
  - intros l' E. simpl. by rewrite fn_lookup_insert_ne.
  - intros l' p E Hp. simpl. destruct (i_held (proj1 Hok) q (list_elem_of_here _ _)) as (_ & _ & _ & Hn).
    rewrite fn_lookup_insert_ne; [done|]. intros E'. subst p. by eapply Hn.
Qed.

(** The lanes are as before. *)
Definition still (x y : Executor) : Prop := forall l, touches l x y.

Lemma still_refl x : still x x.
Proof. intros l. apply touches_refl. Qed.

Lemma still_trans x y z : still x y -> still y z -> still x z.
Proof. intros H1 H2 l. by eapply touches_trans. Qed.

Lemma still_keeps held busy x y : keeps x y -> inv held busy x -> still x y.
Proof. intros K Hi l. by eapply keeps_touches. Qed.

Lemma still_slots x y l : still x y -> slots y l = slots x l.
Proof. intros A. apply (t_slots _ _ _ (A (S l))). lia. Qed.

Lemma still_quiescent x y : still x y -> quiescent x -> quiescent y.
Proof.
  intros A [H1 H2]. split.
  - destruct (copy_hold y) as [h|] eqn:E; [|done]. assert (hold_at x = Some (hold_lane h)) as E'; [|unfold hold_at in E'; by rewrite H1 in E'].
    apply (t_hold _ _ _ (A (S (hold_lane h)))); [lia|]. unfold hold_at. by rewrite E.
  - destruct (prefill_lane y) as [l|] eqn:E; [|done]. assert (prefill_lane x = Some l); [|congruence].
    by apply (t_prefill _ _ _ (A (S l))); [lia|].
Qed.

Lemma still_free x y l : still x y -> free (slots x) l -> free (slots y) l.
Proof. intros A [H1 H2]. split; [done|]. by rewrite (still_slots _ _ _ A). Qed.

(** Still in the worker's hands. *)
Definition handed (q : Z) (x y : Executor) : Prop := in_hands q y /\ still x y.

Lemma handed_keeps q x y z : handed q x y -> keeps y z -> handed q x z.
Proof.
  intros [H A] K. split; [by eapply keeps_hands|]. eapply still_trans; [exact A|]. eapply still_keeps; [exact K|apply H].
Qed.

Lemma handed_protection q x y p : handed q x y -> handed q x (set_protection p y).
Proof. intros [H A]. split; [by apply hands_protection|]. eapply still_trans; [exact A|]. intros l. apply protection_same. Qed.

Lemma wp_handed {A} T q (m : M A) x y (Q : A -> Executor -> Prop) (R : exn -> Executor -> Prop) : keeping T m -> handed q x y ->
  (forall a z, handed q x z -> Q a z) -> (forall e z, T -> handed q x z -> R e z) -> wp m Q R y.
Proof. intros Hm Hy HQ HR. apply (wp_keeping T); [done| |]; intros; [apply HQ|apply HR; [done|]]; by eapply handed_keeps. Qed.

Lemma budget_lift n reason : neutral (lift (GenerationBudget_new n reason)).
Proof. apply keeping_lift. unfold GenerationBudget_new. by destruct (negb _ && _). Qed.

Lemma wp_clear_handed q x y (Q : unit -> Executor -> Prop) R : handed q x y -> (forall z, handed q x z -> Q tt z) ->
  wp (clear_protection_if_head q) Q R y.
Proof.
  intros H HQ. apply (wp_clear q y (handed q x)); [done|intros p; by apply handed_protection|]. intros z Hz _. by apply HQ.
Qed.

(** The lane is occupied: its copies are in flight. *)
Definition seated_at (q : Z) (l : nat) (x y : Executor) : Prop := lone_at l q holding y /\ calm l x y.

Lemma seated_keeps q l x y z : seated_at q l x y -> keeps y z -> seated_at q l x z.
Proof.
  intros [[Hl Ho] C] K. assert (touches l y z) as T by (eapply keeps_touches; [exact K|apply Hl]).
  split; [split; [by eapply keeps_lane_at|by eapply lone_touches]|]. eapply calm_trans; [exact C|by apply touches_calm].
Qed.

(** The credit of a temporal backfill. *)
Lemma wp_credit q (class : BackfillClass) epoch quanta x y (Q : unit -> Executor -> Prop) (R : exn -> Executor -> Prop) :
  handed q x y -> (forall z, handed q x z -> Q tt z) -> (forall e z, handed q x z -> R e z) ->
  wp (if bool_decide (class = Temporal) then
     x ← exec;
     match protection x with
     | Some p =>
         st_throw_if (negb (epoch_id p =? epoch) || (temporal_credit p <? quanta)) logic_error ;;
         modify (set_protection (Some (MkProtection (epoch_id p) (head_request_id p) (head_resources p) (incumbent_ids p)
           (donor_ids p) (temporal_credit p - quanta) (phase p))))
     | None => throw logic_error
     end
   else mret tt) Q R y.
Proof.
  intros H HQ HR. destruct (bool_decide _); [|by apply wp_ret, HQ]. apply wp_bind, wp_exec.
  destruct (protection y) as [p|]; [|by apply wp_throw, HR]. apply wp_bind, wp_throw_if; [done| |].
  - intros _. by apply wp_modify, HQ, handed_protection.
  - intros _. by apply HR.
Qed.

Lemma wp_occupy q c plan victims class epoch x y (Q : unit -> Executor -> Prop) (R : exn -> Executor -> Prop) :
  handed q x y -> quiescent x -> free (slots x) (choice_lane c) ->
  (forall z, seated_at q (choice_lane c) x z -> Q tt z) -> (forall e z, handed q x z -> R e z) ->
  wp (occupy_lane q c plan victims class epoch) Q R y.
Proof.
  intros Hy Hquiet Hfree HQ HR. unfold occupy_lane. cbv zeta.
  apply wp_bind. apply (wp_handed False q _ x); [auto with neutral|done| |done]. intros [] y1 H1.
  apply wp_bind. apply (wp_credit q _ _ _ x); [done| |done]. intros y2 H2. apply wp_bind, (wp_clear_handed q x); [done|]. intros y3 H3.
  apply wp_bind. apply (wp_handed True q _ x); [apply budget_lift|done| |auto]. intros b y4 H4.
  apply wp_bind, wp_exec, wp_bind, wp_modify, wp_bind, wp_modify, wp_bind. unfold invalidate_lane_plans. apply wp_modify.
  apply wp_bind, wp_exec, wp_bind, wp_modify. destruct H4 as [(Hok & _ & Hidle) Hstill].
  match goal with |- wp _ _ _ (set_copy_hold (Some ?h) (set_plan_versions ?v (set_slots _ (set_requests (<[_ := _]> _) _)))) =>
    pose proof (occupied q (choice_lane c) y4 v (fun r => set_request_backfill_class class (set_request_backfill_epoch epoch
      (set_remaining_service_work (service_work_quanta (summary plan)) (set_admission_resources (admission (summary plan))
        (set_lane (Some (choice_lane c)) (set_budget (Some b) r)))))) h Hok) as Ho end.
  destruct Ho as [Hl Hc]; [by eapply still_quiescent|by eapply still_free|done|intros r; by split_and!|done|done|].
  match goal with |- wp _ _ _ ?z => assert (seated_at q (choice_lane c) x z) as Hz end.
  { split; [exact Hl|]. eapply calm_trans; [apply touches_calm, Hstill|exact Hc]. }
  apply wp_bind. apply (wp_keeping False); [auto with neutral| |done]. intros [] z1 K1.
  apply (wp_keeping False); [auto with neutral| |done]. intros [] z2 K2. apply HQ. eapply seated_keeps; [|exact K2]. by eapply seated_keeps.
Qed.

End Occupy.

(** ** Admitting *)
Section Request.
Context {I : Instance} {Opt : EngineOptions} (Hclose : sessions_close).

(** Still in the queue, with the lanes as before. *)
Definition queued (q : Z) (x y : Executor) : Prop := ok [] None y /\ q ∈ pending y /\ still x y.

Lemma queued_keeps q x y z : queued q x y -> keeps y z -> queued q x z.
Proof.
  intros (Hok & Hq & S) K. destruct (i_pending (proj1 Hok) q Hq) as (Hs & _). split_and!; [by eapply keeps_ok| |].
  - by apply (k_pending _ _ K q Hs (inv_ids _ _ _ (proj1 Hok))).
  - eapply still_trans; [exact S|]. eapply still_keeps; [exact K|apply Hok].
Qed.

Lemma wp_queued {A} T q (m : M A) x y (Q : A -> Executor -> Prop) (R : exn -> Executor -> Prop) : keeping T m -> queued q x y ->
  (forall a z, queued q x z -> Q a z) -> (forall e z, T -> queued q x z -> R e z) -> wp m Q R y.
Proof. intros Hm Hy HQ HR. apply (wp_keeping T); [done| |]; intros; [apply HQ|apply HR; [done|]]; by eapply queued_keeps. Qed.

Definition loose (q : Z) (x y : Executor) : Prop := queued q x y \/ handed q x y.

Lemma wp_erase_queued q x y (Q : bool -> Executor -> Prop) R : queued q x y -> (forall z, handed q x z -> Q true z) ->
  wp (erase_pending q) Q R y.
Proof.
  intros (Hok & Hq & S) HQ. destruct (i_pending (proj1 Hok) q Hq) as (Hs & _). apply wp_erase; [done|done| |done].
  intros z _ Hz A. apply HQ. split; [done|]. eapply still_trans; [exact S|exact (as_touches _ _ _ A)].
Qed.

Lemma wp_planned_try q c plan b captures class epoch x (Q : option AdmissionProgress -> Executor -> Prop) R :
  queued q x x -> quiescent x -> free (slots x) (choice_lane c) ->
  (forall p y, ok [] None y -> still x y -> Q (Some p) y) -> (forall y, seated_at q (choice_lane c) x y -> Q None y) ->
  (forall e y, loose q x y -> R e y) -> wp (admit_planned_try q c plan b captures class epoch) Q R x.
Proof.
  intros Hx Hquiet Hfree H1 H2 HR. assert (forall e y, True -> queued q x y -> R e y) as HRq by (intros; apply HR; by left).
  unfold admit_planned_try. apply wp_bind, (wp_queued True q _ x); [auto with neutral|done| |done].
  intros [victims|p] y1 Q1; [|apply wp_ret, H1; apply Q1].
  apply wp_bind, wp_exec, wp_bind, (wp_queued True q _ x); [destruct (preserve_source c); neutral|done| |done]. intros plan' y2 Q2.
  apply wp_bind, wp_exec, wp_bind, (wp_queued False q _ x); [auto with neutral|done| |done]. intros [] y3 Q3.
  apply wp_bind, (wp_erase_queued q x); [done|]. intros y4 Q4.
  apply wp_bind. eapply wp_occupy; [exact Q4|done|done| |intros e z Hz; apply HR; by right].
  intros z Hz. by apply wp_ret, H2.
Qed.

Lemma wp_planned_failed q c e x y (Q : option AdmissionProgress -> Executor -> Prop) : catchable e = true -> loose q x y -> quiescent x ->
  free (slots x) (choice_lane c) -> (forall p z, ok [] None z -> still x z -> Q (Some p) z) ->
  wp (admit_planned_failed q c e) Q (fun _ => safe) y.
Proof.
  intros He Hy Hquiet Hfree HQ. unfold admit_planned_failed. cbv zeta.
  assert (forall T (m : M unit) (k : unit -> M (option AdmissionProgress)) z, keeping T m -> (T -> False) -> loose q x z ->
    (forall w, loose q x w -> wp (k tt) Q (fun _ => safe) w) -> wp (m ≫= k) Q (fun _ => safe) z) as Hstep.
  { intros T m k z Hm HT Hz Hk. apply wp_bind. apply (wp_keeping T); [done| |intros; exfalso; auto]. intros [] w K. apply Hk.
    destruct Hz; [left; by eapply queued_keeps|right; by eapply handed_keeps]. }
  do 3 (eapply (Hstep False); [solve [neutral]|by intros []|eassumption|]; clear y Hy; intros y Hy).
  apply wp_bind, wp_exec. assert (still x y) as S by (destruct Hy as [(_ & _ & S)|[_ S]]; exact S).
  destruct (still_quiescent _ _ S Hquiet) as [Hh Hp]. destruct (still_free _ _ _ S Hfree) as [_ Hl].
  assert (bool_decide (hold_lane <$> copy_hold y = Some (choice_lane c)) = false) as -> by (by rewrite Hh).
  assert (bool_decide (slots y (choice_lane c) = Some q) = false) as -> by (by rewrite Hl).
  eapply (Hstep False); [auto with neutral|by intros []|done|]. clear y Hy S Hh Hp Hl. intros y Hy.
  apply wp_bind, wp_ret, wp_bind.
  assert (forall z, handed q x z -> wp (complete_error q e ;; if is_request_local_error e then mret (Some ControlProgress) else throw e)
    Q (fun _ => safe) z) as Hend.
  { intros z [Hz Sz]. apply wp_bind, (wp_hands q); [intros R'; apply completes_error|done|]. intros w Hw A.
    destruct (is_request_local_error e); [|by apply wp_throw; [|exists None]]. apply wp_ret, HQ; [done|].
    eapply still_trans; [exact Sz|exact (as_touches _ _ _ A)]. }
  destruct Hy as [Hy|Hy].
  - apply wp_bind, (wp_erase_queued q x); [done|]. intros z Hz. apply (wp_clear_handed q x); [done|]. intros w Hw. by apply Hend.
  - unfold erase_pending. apply wp_bind, wp_bind, (wp_handed False q _ x); [auto with neutral|done| |done]. intros [] z Hz.
    destruct (i_held (proj1 (proj1 (proj1 Hz))) q (list_elem_of_here _ _)) as (_ & _ & Hn & _).
    apply wp_bind, wp_exec. rewrite bool_decide_eq_false_2 by done. by apply wp_ret, wp_ret, Hend.
Qed.

(** The result of an admission: at most its own lane changed. *)
Definition settled_at (q : Z) (l : nat) (x y : Executor) : Prop :=
  ok [] None y /\ calm l x y /\ (slots y l = None \/ slots y l = Some q).

Lemma still_settled q l x y : ok [] None y -> still x y -> free (slots x) l -> settled_at q l x y.
Proof. intros Hy S Hf. split_and!; [done|by apply touches_calm|left]. by destruct (still_free _ _ _ S Hf). Qed.

Lemma seated_settled q l x y z : seated_at q l x y -> ok [] None z -> touches l y z -> settled_at q l x z.
Proof.
  intros [[Hl Ho] C] Hz T. split_and!; [done|by eapply calm_trans; [|apply touches_calm]|].
  rewrite <- (a_slot _ _ _ _ Hl). destruct (t_self _ _ _ T); auto.
Qed.

(** The first step of an admission on its lane. *)
Lemma wp_admitted q l x y (Q : AdmissionProgress -> Executor -> Prop) : seated_at q l x y ->
  (forall p z, settled_at q l x z -> Q p z) ->
  wp (members ← build_round_membership; if bool_decide (members = []) then admit_complete true else mret CopyHolding) Q (fun _ => safe) y.
Proof.
  intros Hy HQ. pose proof Hy as [[Hl Ho] _]. assert (ok [] None y) as Hok by (by eapply holding_ok).
  apply wp_bind, wp_neutral; [auto with neutral|done|]. intros members z K Hz. pose proof (seated_keeps _ _ _ _ _ Hy K) as Sz.
  case_bool_decide.
  - eapply wp_lane; [by apply hoare_admit|apply Sz| |intros; by eapply safe_stuck]. intros p w T Hw.
    apply HQ. eapply seated_settled; [exact Sz|done|done].
  - apply wp_ret, HQ. eapply seated_settled; [exact Sz|done|apply touches_refl].
Qed.

Lemma wp_planned_request q c class epoch x (Q : AdmissionProgress -> Executor -> Prop) : ok [] None x -> q ∈ pending x ->
  quiescent x -> free (slots x) (choice_lane c) -> (forall p y, settled_at q (choice_lane c) x y -> Q p y) ->
  wp (admit_planned_request q c class epoch) Q (fun _ => safe) x.
Proof.
  intros Hok Hq Hquiet Hfree HQ. destruct (i_pending (proj1 Hok) q Hq) as (Hs & _).
  assert (forall p y, ok [] None y -> still x y -> Q p y) as Hstill by (intros; by apply HQ, still_settled).
  assert (forall y, keeps x y -> queued q x y) as Hk by (intros y K; eapply queued_keeps; [|exact K]; split_and!; [done|done|apply still_refl]).
  assert (forall (e : exn) y, True -> queued q x y -> safe y) as HR by (intros e y _ H; exists None; apply H).
  unfold admit_planned_request. apply wp_bind, wp_request, wp_bind, wp_total. intros time. destruct (_ && _).
  { apply wp_remove_error; [done|done|]. intros p y Hy A. apply Hstill; [done|exact (as_touches _ _ _ A)]. }
  apply wp_bind, wp_total. intros [|].
  { apply wp_bind, wp_erase; [done|done| |].
    - intros y _ Hy A. apply wp_bind. apply (wp_clear_handed q x); [split; [done|exact (as_touches _ _ _ A)]|]. intros z [Hz Sz].
      apply wp_bind, (wp_hands q); [intros R'; by apply completes_cancelled|done|]. intros w Hw A'.
      apply wp_ret, Hstill; [done|]. eapply still_trans; [exact Sz|exact (as_touches _ _ _ A')].
    - intros y Hn _. done. }
  apply wp_bind, wp_request, wp_bind, (wp_queued True q _ x); [auto with neutral|apply Hk, keeps_refl| |auto]. intros plan y1 Q1.
  apply wp_bind, (wp_queued False q _ x); [auto with neutral|done| |done]. intros [] y2 Q2.
  apply wp_bind, wp_exec. cbv zeta. apply wp_bind, wp_ask. intros retained. apply wp_bind.
  apply (wp_queued True q _ x); [neutral|done| |auto]. intros reclaiming y3 Q3.
  destruct reclaiming; [apply wp_ret, Hstill; apply Q3|]. pose proof Q3 as (Hok3 & Hq3 & S3).
  apply wp_bind, wp_try, wp_planned_try; [split_and!; [done|done|apply still_refl]|by eapply still_quiescent|by eapply still_free|..].
  - intros p z Hz Sz. apply wp_ret, Hstill; [done|by eapply still_trans].
  - intros z Sz. apply (wp_admitted q (choice_lane c) x); [|done]. destruct Sz as [Hl C]. split; [done|].
    eapply calm_trans; [apply touches_calm, S3|done].
  - intros e z Hz He. apply (wp_planned_failed q c e y3); [done|done|by eapply still_quiescent|by eapply still_free|].
    intros p w Hw Sw. apply wp_ret, Hstill; [done|by eapply still_trans].
Qed.

End Request.

(** ** The queue under the admission policy *)
Section Policy.
Context {I : Instance} {Opt : EngineOptions} (Hclose : sessions_close).

(** Occupied lanes go on as before. *)
Definition steady (x y : Executor) : Prop :=
  forall l q, slots x l = Some q -> slots y l = Some q /\ vw (requests y q) = vw (requests x q).

Lemma steady_trans x y z : steady x y -> steady y z -> steady x z.
Proof. intros H1 H2 l q Hl. destruct (H1 l q Hl) as [E1 V1]. destruct (H2 l q E1) as [E2 V2]. split; [done|congruence]. Qed.

Lemma still_steady x y : still x y -> steady x y.
Proof.
  intros S l q Hl. split; [by rewrite (still_slots _ _ _ S)|]. apply (t_vw (Datatypes.S l) x y (S _) l); [lia|done].
Qed.

Lemma calm_steady l x y : calm l x y -> slots x l = None -> steady x y.
Proof.
  intros C Hn l' q Hl. assert (l' ≠ l) by congruence. split; [by rewrite (m_slots _ _ _ C)|by apply (m_vw _ _ _ C l')].
Qed.

Lemma steady_ready x y l : steady x y -> ready x l -> ready y l.
Proof.
  intros S (q & Hl & Hd). destruct (S l q Hl) as [E V]. exists q. split; [done|]. by destruct (vw_inv _ _ V) as (_ & _ & -> & _).
Qed.

Definition admitted (x y : Executor) : Prop := ok [] None y /\ steady x y.

(** The requests a scan still has to look at. *)
Record scanning (queue : list Z) (x : Executor) : Prop := MkScanning {
  n_ok : ok [] None x;
  n_quiet : quiescent x;
  n_waiting : forall q, q ∈ queue -> q ∈ pending x;
  n_nodup : NoDup queue;
}.

Lemma scanning_next q queue x y : scanning (q :: queue) x -> ok [] None y -> aside q x y -> scanning queue y.
Proof.
  intros [Hok Hn Hq Hd] Hy A. apply NoDup_cons in Hd as [Hd Hd']. split; [done| | |done].
  - eapply still_quiescent; [|exact Hn]. exact (as_touches _ _ _ A).
  - intros p Hp. assert (p ∈ pending x) as Hpx by (apply Hq; by right). apply (as_pending _ _ _ A); [congruence| |done].
    by apply (i_pending (proj1 Hok)).
Qed.

Lemma aside_steady q x y : aside q x y -> steady x y.
Proof. intros A. apply still_steady. exact (as_touches _ _ _ A). Qed.

Lemma wp_scanned_request q queue c class epoch x y (Q : AdmissionProgress -> Executor -> Prop) : scanning (q :: queue) x ->
  ok [] None y -> aside q x y -> q ∈ pending y -> free (slots y) (choice_lane c) -> (forall p z, admitted x z -> Q p z) ->
  wp (admit_planned_request q c class epoch) Q (fun _ => safe) y.
Proof.
  intros Hx Hy A Hq Hf HQ. apply wp_planned_request; [done|done|done| |done|].
  - eapply still_quiescent; [exact (as_touches _ _ _ A)|apply Hx].
  - intros p z (Hz & C & _). apply HQ. split; [done|]. eapply steady_trans; [by eapply aside_steady|]. eapply calm_steady; [exact C|apply Hf].
Qed.

Lemma wp_backfill active distance queue progress p x (Q : AdmissionProgress -> Executor -> Prop) : scanning queue x ->
  protection x = Some p -> head_request_id p ∉ queue -> (forall p y, admitted x y -> Q p y) ->
  wp (backfill_loop active distance queue progress) Q (fun _ => safe) x.
Proof.
  revert progress x Q. induction queue as [|q queue IH]; intros progress x Q Hx Hp Hh HQ; simpl.
  { apply wp_ret, HQ. split; [apply Hx|]. by intros l q. }
  apply not_elem_of_cons in Hh as [Hh Hh']. apply wp_bind, wp_scan; [done|apply Hx|apply Hx; by left|].
  intros r y (Hy & A & Hr). pose proof (scanning_next _ _ _ _ Hx Hy A) as Hnext. pose proof (as_protection _ _ _ A p Hp Hh) as Hpy.
  assert (forall progress, wp (backfill_loop active distance queue progress) Q (fun _ => safe) y) as Hgo.
  { intros pr. apply IH; [done|done|done|]. intros p' z [Hz Sz]. apply HQ. split; [done|]. eapply steady_trans; [by eapply aside_steady|done]. }
  destruct r as [b| |base c]; [apply Hgo|apply Hgo|]. destruct Hr as [Hq Hf].
  apply wp_bind, wp_request. cbv zeta. apply wp_bind. eapply (wp_keeping True); [apply keeping_value| |].
  - intros plan z K. apply wp_bind, wp_exec, wp_bind. rewrite (k_protection _ _ K), Hpy. apply wp_ret.
    assert (ok [] None z) as Hz by (by eapply keeps_ok). assert (aside q x z) as A' by (eapply aside_trans; [exact A|]; eapply keeps_aside; [exact K|apply Hy]).
    case_bool_decide.
    + apply IH; [by eapply scanning_next|by rewrite (k_protection _ _ K)|done|]. intros p' w [Hw Sw]. apply HQ. split; [done|].
      eapply steady_trans; [by eapply aside_steady|done].
    + eapply wp_scanned_request; [exact Hx|done|done| |by rewrite (k_slots _ _ K)|done].
      destruct (i_pending (proj1 Hy) q Hq) as (Hs & _). by apply (k_pending _ _ K q Hs (inv_ids _ _ _ (proj1 Hy))).
  - intros e z _ K. exists None. by eapply keeps_ok.
Qed.

Lemma keeps_quiescent x y : keeps x y -> quiescent x -> quiescent y.
Proof.
  intros K [Q1 Q2]. split; [|by rewrite (k_prefill _ _ K)].
  destruct (hold_view_lane _ _ (k_hold _ _ K)) as [E _]. rewrite Q1 in E. by destruct (copy_hold y).
Qed.

(** ** The protection of the head *)
Lemma scanning_protection queue x p : scanning queue x -> scanning queue (set_protection p x).
Proof. intros []. split; [by apply ok_protection|done|done|done]. Qed.

Lemma active_set_defined x L : active_set x L ≠ Throw undefined.
Proof.
  induction L as [|l L IH]; simpl; [done|]. destruct (slots x l) as [q|]; [|done].
  unfold mbind, res_bind, throw_if. destruct (_ || _); [done|]. by destruct (active_set x L) as [|[]].
Qed.

Lemma keeping_active : neutral active_admission_set.
Proof. unfold active_admission_set. apply keeping_bind; [auto with neutral|]. intros x. apply keeping_lift, active_set_defined. Qed.

Lemma subtract_defined t r : subtract t r ≠ Throw undefined.
Proof. unfold subtract, throw_if. by destruct (_ || _). Qed.

Lemma freeze_defined active t : freeze_incumbents t active ≠ Throw undefined.
Proof.
  revert t. induction active as [|a active IH]; intros t; simpl; [done|]. unfold throw_if, mbind, res_bind. by destruct (_ || _).
Qed.

Lemma donors_defined sorted t capacity : release_donors t capacity sorted ≠ Throw undefined.
Proof.
  revert t. induction sorted as [|d sorted IH]; intros t; simpl; [done|]. pose proof (subtract_defined t (resources d)) as Hs.
  unfold mbind, res_bind in *. destruct (subtract t (resources d)) as [t'|[]]; try done. destruct (fits _ _); [done|].
  specialize (IH t'). by destruct (release_donors t' capacity sorted) as [|[]].
Qed.

(** A new protection is the head's. *)
Lemma protection_result epoch id head active capacity : match make_admission_protection epoch id head active capacity with
  | Ok p => head_request_id p = id | Throw e => e ≠ undefined end.
Proof.
  unfold make_admission_protection, throw_if, mbind, res_bind. destruct (_ || _); [done|].
  pose proof (freeze_defined active no_totals) as Hf. destruct (freeze_incumbents no_totals active) as [t|e]; [|congruence].
  simpl. destruct (fits _ _); [done|]. pose proof (donors_defined (merge_sort completes_before active) (add t head) capacity) as Hd.
  destruct (release_donors _ _ _) as [d|e]; [done|congruence].
Qed.

Lemma wp_protect_head q base rest progress x (Q : AdmissionProgress -> Executor -> Prop) : scanning rest x -> q ∉ rest ->
  (forall p, protection x = Some p -> head_request_id p = q) -> (forall p y, admitted x y -> Q p y) ->
  wp (protect_head q base rest progress) Q (fun _ => safe) x.
Proof.
  intros Hx Hn Hp HQ. unfold protect_head. apply wp_bind, wp_neutral; [apply keeping_active|apply Hx|]. intros active y K Hy.
  assert (scanning rest y) as Sy.
  { split; [done|eapply keeps_quiescent; [exact K|apply Hx]|intros p Hp'|apply Hx].
    pose proof (n_waiting _ _ Hx p Hp') as Hw. destruct (i_pending (proj1 (n_ok _ _ Hx)) p Hw) as (Hs & _).
      by apply (k_pending _ _ K p Hs (inv_ids _ _ _ (proj1 (n_ok _ _ Hx)))). }
  rewrite <- (k_protection _ _ K) in Hp.
  assert (forall p z, admitted y z -> Q p z) as HQ'.
  { intros p z [Hz Sz]. apply HQ. split; [done|]. eapply steady_trans; [|exact Sz]. apply still_steady. eapply still_keeps; [exact K|apply Hx]. }
  clear x Hx HQ K. destruct (bool_decide (active = [])); [apply wp_throw; [done|by exists None]|].
  apply wp_bind, wp_exec, wp_bind.
  assert (forall p z, scanning rest z -> protection z = Some p -> head_request_id p = q -> (forall r w, admitted z w -> Q r w) ->
    wp (x ← exec; p ← deref (protection x);
      (if protected_head_safe_without_temporal p active admission_capacity then
         modify (set_protection (Some (MkProtection (epoch_id p) (head_request_id p) (head_resources p) (incumbent_ids p)
           (donor_ids p) (temporal_credit p) Drain)))
       else mret tt) ;;
      x ← exec; p ← deref (protection x);
      match phase p with
      | Drain => mret (progress_of progress)
      | Open => backfill_loop active (protection_frontier_distance p active) rest progress
      end) Q (fun _ => safe) z) as Hend.
  { intros p z Sz Ez Eq HQz. apply wp_bind, wp_exec, wp_bind. rewrite Ez. apply wp_ret, wp_bind.
    destruct (protected_head_safe_without_temporal _ _ _).
    - apply wp_modify, wp_bind, wp_exec, wp_bind. simpl. apply wp_ret. simpl. apply wp_ret, HQz.
      split; [by apply ok_protection, Sz|]. by intros l q' Hl.
    - apply wp_ret, wp_bind, wp_exec, wp_bind. rewrite Ez. apply wp_ret. destruct (phase p).
      + eapply wp_backfill; [done|exact Ez|by rewrite Eq|done].
      + apply wp_ret, HQz. split; [apply Sz|]. by intros l q' Hl. }
  destruct (protection y) as [p|] eqn:Ep; [apply wp_ret, (Hend p); auto|].
  apply wp_bind, wp_modify, wp_bind. match goal with |- wp _ _ _ ?z => set (z0 := z) end.
  assert (keeps y z0) as K by (apply keeps_same; by split; [split|..]).
  apply wp_lift.
  - intros p E. pose proof (protection_result (next_protection_epoch y) q (admission base) active admission_capacity) as Hr.
    rewrite E in Hr. apply wp_modify, (Hend p); [|done|done|].
    + apply scanning_protection. destruct Sy. split; [by eapply keeps_ok|done|done|done].
    + intros r w [Hw Sw]. apply HQ'. by split.
  - intros e E. pose proof (protection_result (next_protection_epoch y) q (admission base) active admission_capacity) as Hr.
    rewrite E in Hr. split; [done|]. exists None. by eapply keeps_ok.
Qed.

Lemma admitted_trans x y z : steady x y -> admitted y z -> admitted x z.
Proof. intros S [Hz S']. split; [done|by eapply steady_trans]. Qed.

Lemma steady_refl x : steady x x.
Proof. by intros l q. Qed.

(** A protection of another head is dropped. *)
Lemma wp_drop_protection q queue x (Q : unit -> Executor -> Prop) R : scanning queue x ->
  (forall y, scanning queue y -> steady x y -> (forall p, protection y = Some p -> head_request_id p = q) -> Q tt y) ->
  wp (match protection x with
     | Some p => if negb (head_request_id p =? q) then modify (set_protection None) else mret tt
     | None => mret tt
     end) Q R x.
Proof.
  intros Hx HQ. destruct (protection x) as [p|] eqn:E.
  - destruct (Z.eqb_spec (head_request_id p) q) as [Eq|Ne]; simpl.
    + apply wp_ret, HQ; [done|apply steady_refl|]. congruence.
    + apply wp_modify, HQ; [by apply scanning_protection| |done]. by intros l q'.
  - apply wp_ret, HQ; [done|apply steady_refl|]. congruence.
Qed.

Lemma wp_admit_heads queue progress x (Q : AdmissionProgress -> Executor -> Prop) : scanning queue x ->
  (forall p y, admitted x y -> Q p y) -> wp (admit_heads queue progress) Q (fun _ => safe) x.
Proof.
  revert progress x Q. induction queue as [|q queue IH]; intros progress x Q Hx HQ; simpl.
  { apply wp_bind, wp_modify, wp_ret, HQ. split; [apply ok_protection, Hx|]. by intros l q. }
  apply wp_bind, wp_exec, wp_bind, (wp_drop_protection q (q :: queue)); [done|]. intros y Hy Sy Py.
  apply wp_bind, wp_scan; [done|apply Hy|apply Hy; by left|]. intros r z (Hz & A & Hr).
  pose proof (scanning_next _ _ _ _ Hy Hz A) as Hnext. assert (steady x z) as Sz by (eapply steady_trans; [exact Sy|by eapply aside_steady]).
  destruct r as [b|base|base c].
  - apply IH; [done|]. intros p w Hw. apply HQ. by eapply admitted_trans.
  - apply wp_protect_head; [done|by apply NoDup_cons, (n_nodup _ _ Hy)|intros p Hp; by apply Py, (as_same _ _ _ A)|].
    intros p w Hw. apply HQ. by eapply admitted_trans.
  - destruct Hr as [Hq Hf]. eapply wp_scanned_request; [exact Hy|done|done|done|done|]. intros p w Hw. apply HQ. by apply (admitted_trans x y).
Qed.

Lemma wp_snapshot x (Q : list Z -> Executor -> Prop) R : ok [] None x ->
  (forall y, keeps x y -> ok [] None y -> Q (pending y) y) -> wp pending_snapshot Q R x.
Proof.
  intros Hx HQ. unfold pending_snapshot. apply wp_bind, (wp_keeping False); [auto with neutral| |done]. intros [] y K.
  apply wp_bind, wp_exec, wp_ret, HQ; [done|by eapply keeps_ok].
Qed.

Lemma wp_try_admit x (Q : AdmissionProgress -> Executor -> Prop) : ok [] None x -> quiescent x ->
  (forall p y, admitted x y -> Q p y) -> wp try_admit_one Q (fun _ => safe) x.
Proof.
  intros Hx Hn HQ. unfold try_admit_one. apply wp_bind, wp_snapshot; [done|]. intros y K Hy.
  assert (steady x y) as S by (apply still_steady; eapply still_keeps; [exact K|apply Hx]).
  destruct (pending y) as [|q queue] eqn:E.
  - apply wp_bind, wp_modify, wp_ret, HQ. split; [by apply ok_protection|]. by eapply steady_trans.
  - rewrite <- E. apply wp_admit_heads; [|intros p z Hz; apply HQ; by eapply admitted_trans].
    split; [done|by eapply keeps_quiescent|done|by eapply pending_NoDup, Hy].
Qed.

End Policy.
