(* ===== verification/ExecInterrupt.v ===== *)
(** * Interrupting a prefill keeps the invariant

    A suspended prefill gives its place to one short request and comes back; the expiry
    of waiting requests completes each of them. *)

From stdpp Require Import prelude functions list list_numbers sorting gmap.
From Stdlib Require Import ZArith Lia.
From S2P Require Import Prelude Admission Capacity GenerationGuards ExecState ExecCore ExecPlanning ExecRounds ExecAdmit ExecWorker ExecLogic ExecKeeps ExecNeutral ExecComplete ExecLanes ExecGeneration ExecDecode ExecHolds ExecChoice ExecAdmission.
#[local] Open Scope Z_scope.

Section Interrupt.
Context {I : Instance} {Opt : EngineOptions} (Hclose : sessions_close).

(** A prefill is staged, and nothing else is in the way. *)
Record staged (o : nat) (x : Executor) : Prop := MkStaged {
  g_ok : ok [] None x;
  g_prefill : prefill_lane x = Some o;
  g_hold : copy_hold x = None;
  g_suspended : suspended_prefill_lane x = None;
}.

Lemma keeps_hold x y : keeps x y -> copy_hold x = None -> copy_hold y = None.
Proof. intros K H. destruct (hold_view_lane _ _ (k_hold _ _ K)) as [E _]. rewrite H in E. by destruct (copy_hold y). Qed.

Lemma staged_keeps o x y : keeps x y -> staged o x -> staged o y.
Proof.
  intros K []. split; [by eapply keeps_ok|by rewrite (k_prefill _ _ K)|by eapply keeps_hold|by rewrite (k_suspended _ _ K)].
Qed.

(** The owner is suspended. *)
Definition suspend (x : Executor) : Executor :=
  set_prefill_interruptible false (set_request_memory (snd (deactivate (request_memory x)))
    (set_prefill_lane None (set_suspended_prefill_lane (prefill_lane x)
      (set_suspended_decode_rounds_since_prefill (decode_rounds_since_prefill x) x)))).

Lemma suspend_ok o x : staged o x -> ok [] None (suspend x) /\ quiescent (suspend x) /\ touches o x (suspend x) /\
  suspended_prefill_lane (suspend x) = Some o.
Proof.
  intros [Hok Hp Hh Hs]. destruct (role_prefill x o Hok Hp) as (q & Hl & [_ _ Hv]).
  unfold roles, prefilling in Hv. injection Hv as Hv1 Hv2 Hv3 Hv4 Hv5.
  assert (shift o q x (suspend x)) as Sh.
  { split; try done; try apply Hok; simpl.
    - intros l' E. rewrite Hp. split; congruence.
    - intros l' E. rewrite Hp, Hs. split; congruence. }
  assert (touches o x (suspend x)) as T by (by eapply shift_touches; [apply Hok|..]).
  split_and!; [|by split|done|done]. eapply (lane_settle o q suspended).
  - split; [eapply ok_shift; [exact Hok|exact Hl|by left|done]|done|]. unfold roles. simpl.
    by rewrite Hh, Hp, Hv4, Hv5, (bool_decide_eq_true_2 (Some o = Some o)).
  - done.
  - done.
Qed.

Definition interrupted (x : Executor) (b : bool) (y : Executor) : Prop :=
  ok [] None y /\ (b = false -> steady x y /\ copy_hold y = None /\
    (prefill_lane y = prefill_lane x \/ prefill_lane y = None /\ is_Some (suspended_prefill_lane y))).

(** A lane for one waiting request. *)
Lemma wp_interrupt_for q x (Q : option nat -> Executor -> Prop) (R : exn -> Executor -> Prop) :
  (forall o y, keeps x y -> (forall l, o = Some l -> free (slots y) l) -> Q o y) -> (forall e y, keeps x y -> R e y) ->
  wp (interrupt_for q) Q R x.
Proof.
  intros HQ HR. unfold interrupt_for. apply wp_bind, wp_base_plan; [|done]. intros y [K Hb].
  apply wp_bind, wp_request, wp_bind. pose proof Hb as [b Eb]. rewrite Eb. apply wp_ret. destruct (negb _); [by apply wp_ret, HQ|].
  apply wp_bind. eapply wp_mono; [apply (chooses_interrupt q (slots y) lanes None); [done|done|done|done]| |].
  - intros o z [[K' _] Ho]. apply wp_ret, HQ; [by transitivity y|]. intros l. destruct o as [[l' n]|]; [|done]. simpl. intros [= <-].
    rewrite (k_slots _ _ K'). by eapply Ho.
  - intros e z [K' _]. apply HR. by transitivity y.
Qed.

(** The admission of the interrupting request. *)
Lemma wp_interrupting q l o x (Q : bool -> Executor -> Prop) : staged o x -> q ∈ pending x -> free (slots x) l ->
  (forall b y, interrupted x b y -> Q b y) ->
  wp (suspend_prefill ;; admit_planned_request q (MkChoice l false 0 0 None false no_lanes) NoBackfill 0 ;; r ← request q;
      let advance := bool_decide (is_Some (lane r)) in modify (set_suspended_prefill_must_advance advance) ;; mret advance)
    Q (fun _ => safe) x.
Proof.
  intros Hst Hq Hf HQ. destruct (suspend_ok o x Hst) as (Hok & Hn & T & Hs). unfold suspend_prefill.
  apply wp_bind, wp_modify. fold (suspend x). apply wp_bind, wp_planned_request; [done|done|done|done|done|]. simpl choice_lane.
  intros p y (Hy & C & Hl). apply wp_bind, wp_request. cbv zeta. apply wp_bind, wp_modify, wp_ret, HQ.
  match goal with |- interrupted _ _ ?z => set (y' := z) end.
  assert (keeps y y') as K by (apply keeps_same; by split; [split|..]). split; [by eapply keeps_ok|].
  intros Ha%bool_decide_eq_false. assert (slots y l = None) as Hn'.
  { destruct Hl as [|Hl]; [done|]. destruct (i_slots (proj1 Hy) l q Hl) as (_ & _ & _ & E & _). rewrite E in Ha. by destruct Ha. }
  destruct (role_prefill x o (g_ok _ _ Hst) (g_prefill _ _ Hst)) as (q' & Ho & _). assert (o ≠ l) as Hol by (intros ->; destruct Hf; congruence).
  split_and!.
  - apply (steady_trans _ (suspend x)); [|apply (steady_trans _ y)].
    + intros l' p' Hl'. destruct (decide (l' = o)) as [->|E]; [by simpl|]. split; [done|by apply (t_vw _ _ _ T l')].
    + eapply calm_steady; [exact C|apply Hf].
    + by intros l' p' Hl'.
  - change (copy_hold y = None). destruct (copy_hold y) as [h|] eqn:E; [|done].
    assert (hold_lane h ≠ l) as Hne by (intros El; pose proof (i_hold (proj1 Hy) h E) as Hh; rewrite El in Hh; congruence).
    assert (hold_at (suspend x) = Some (hold_lane h)) as Eh by (apply (m_hold _ _ _ C); [done|unfold hold_at; by rewrite E]).
    destruct Hn as [Hn _]. unfold hold_at in Eh. by rewrite Hn in Eh.
  - right. split; [|exists o; by apply (m_suspended _ _ _ C)]. change (prefill_lane y = None).
    destruct (prefill_lane y) as [l'|] eqn:E; [|done]. assert (l' ≠ l) as Hne.
    { intros ->. apply (i_prefill (proj1 Hy)) in E. rewrite Hn' in E. by apply is_Some_None in E. }
    apply (m_prefill _ _ _ C) in E; [|done]. destruct Hn as [_ Hn]. congruence.
Qed.

Lemma staged_interrupted o x y : staged o x -> ok [] None y -> still x y -> interrupted x false y.
Proof.
  intros [Hok Hp Hh Hs] Hy S. split; [done|]. intros _. split_and!; [by apply still_steady| |].
  - destruct (copy_hold y) as [h|] eqn:E; [|done]. assert (hold_at x = Some (hold_lane h)) as E'.
    { apply (t_hold _ _ _ (S (Datatypes.S (hold_lane h)))); [lia|]. unfold hold_at. by rewrite E. }
    unfold hold_at in E'. by rewrite Hh in E'.
  - left. rewrite Hp. by apply (t_prefill _ _ _ (S (Datatypes.S o))); [lia|].
Qed.

Lemma interrupted_trans x y b z : steady x y -> prefill_lane y = prefill_lane x -> interrupted y b z -> interrupted x b z.
Proof.
  intros S E [Hz H]. split; [done|]. intros Hb. destruct (H Hb) as (S' & H1 & H2). rewrite E in H2.
  split_and!; [by eapply steady_trans|done|done].
Qed.

Lemma wp_interrupt_scan o queue x (Q : bool -> Executor -> Prop) : staged o x -> (forall q, q ∈ queue -> q ∈ pending x) ->
  (forall b y, interrupted x b y -> Q b y) -> wp (interrupt_scan queue) Q (fun _ => safe) x.
Proof.
  intros Hx Hq HQ. induction queue as [|q queue IH]; simpl.
  { apply wp_ret, HQ. by eapply staged_interrupted; [|apply Hx|apply still_refl]. }
  assert (forall y, keeps x y -> staged o y /\ q ∈ pending y /\ q ∈ submitted y /\ steady x y) as Hk.
  { intros y K. pose proof (g_ok _ _ Hx) as Hok. assert (q ∈ pending x) as Hqx by (apply Hq; by left).
    destruct (i_pending (proj1 Hok) q Hqx) as (Hs & _). split_and!; [by eapply staged_keeps| |by apply K|].
    - by apply (k_pending _ _ K q Hs (inv_ids _ _ _ (proj1 Hok))).
    - apply still_steady. eapply still_keeps; [exact K|apply Hok]. }
  assert (forall y, keeps x y -> Q false y) as Hno.
  { intros y K. destruct (Hk y K) as (Hy & _). apply HQ. eapply staged_interrupted; [exact Hx|apply Hy|]. eapply still_keeps; [exact K|apply Hx]. }
  apply wp_bind, wp_total. intros gone. apply wp_bind, wp_request, wp_bind.
  assert (forall time, wp (if gone || (negb (cache_fallback (requests x q)) && (deadline (options (requests x q)) <=? time)) then interrupt_scan queue
      else if has_media (options (requests x q)) then mret false
      else found ← try_catch (l ← interrupt_for q; mret (@inl (option nat) exn l))
             (fun e => if is_request_local_error e then mret (inr e) else throw e);
        match found with
        | inr e => remove_pending_error q e ;; mret false
        | inl None => mret false
        | inl (Some l) => suspend_prefill ;; admit_planned_request q (MkChoice l false 0 0 None false no_lanes) NoBackfill 0 ;;
            r ← request q; let advance := bool_decide (is_Some (lane r)) in modify (set_suspended_prefill_must_advance advance) ;; mret advance
        end) Q (fun _ => safe) x) as Hgo.
  { intros time. destruct (gone || _); [apply IH; intros p Hp; apply Hq; by right|].
    destruct (has_media _); [apply wp_ret, Hno; reflexivity|]. apply wp_bind, wp_try, wp_bind, wp_interrupt_for.
    - intros l y K Hl. destruct (Hk y K) as (Hy & Hqy & _ & S). apply wp_ret. destruct l as [l|]; [|by apply wp_ret, Hno].
      apply (wp_interrupting q l o); [done|done|by apply Hl|]. intros b z Hz. apply HQ. eapply interrupted_trans; [exact S|apply K|done].
    - intros e y K He. destruct (Hk y K) as (Hy & _ & Hs & S). destruct (is_request_local_error e).
      + apply wp_ret, wp_bind, wp_remove_error; [apply Hy|done|]. intros _ z Hz A. apply wp_ret, HQ.
        eapply interrupted_trans; [exact S|apply K|]. eapply staged_interrupted; [exact Hy|done|exact (as_touches _ _ _ A)].
      + apply wp_throw; [done|]. exists None. apply Hy. }
  destruct (gone || cache_fallback _); [apply wp_ret, Hgo|apply wp_total, Hgo].
Qed.

Lemma wp_try_interrupt x (Q : bool -> Executor -> Prop) : ok [] None x -> copy_hold x = None ->
  (forall b y, interrupted x b y -> Q b y) -> wp try_interrupt_prefill Q (fun _ => safe) x.
Proof.
  intros Hok Hh HQ. assert (forall y, keeps x y -> Q false y) as Hno.
  { intros y K. apply HQ. split; [by eapply keeps_ok|]. intros _. split_and!; [|by eapply keeps_hold|left; apply K].
    apply still_steady. eapply still_keeps; [exact K|apply Hok]. }
  assert (Q false x) as Hx by (apply Hno; reflexivity).
  unfold try_interrupt_prefill. apply wp_bind, wp_exec. destruct (prefill_lane x) as [o|] eqn:Hp; [|by apply wp_ret].
  destruct (bool_decide (is_Some (suspended_prefill_lane x))) eqn:Hs; simpl; [by apply wp_ret|]. apply not_some in Hs || apply bool_decide_eq_false in Hs.
  destruct (_ || _); [by apply wp_ret|]. apply wp_bind, wp_call; [|intros; by exists None]. intros remaining.
  destruct (_ <? _); [by apply wp_ret|]. apply wp_bind, wp_call; [|intros; by exists None]. intros suspendable.
  destruct (negb _); [by apply wp_ret|]. apply wp_bind, wp_snapshot; [done|]. intros y K Hy.
  assert (staged o y) as Hst.
  { eapply staged_keeps; [exact K|]. split; try done. by apply eq_None_not_Some. }
  apply (wp_interrupt_scan o); [done|done|]. intros b z Hz. apply HQ. eapply interrupted_trans; [|apply K|done].
  apply still_steady. eapply still_keeps; [exact K|apply Hok].
Qed.

(** ** Resuming *)
Lemma wp_resume x (Q : unit -> Executor -> Prop) : ok [] None x ->
  (forall y, ok [] None y -> steady x y -> hold_at y = hold_at x ->
     (copy_hold x = None -> is_Some (prefill_lane x) \/ is_Some (suspended_prefill_lane x) -> is_Some (prefill_lane y)) -> Q tt y) ->
  wp resume_suspended_prefill Q (fun _ => safe) x.
Proof.
  intros Hok HQ. unfold resume_suspended_prefill. apply wp_bind, wp_exec.
  destruct (suspended_prefill_lane x) as [l|] eqn:Hs.
  2:{ apply wp_ret, HQ; [done|apply steady_refl|done|]. intros _ [?|[? [=]]]. done. }
  destruct (bool_decide (is_Some (prefill_lane x))) eqn:Hp; simpl.
  { apply bool_decide_eq_true in Hp. apply wp_ret, HQ; [done|apply steady_refl|done|]. by intros _ _. }
  destruct (bool_decide (is_Some (copy_hold x))) eqn:Hh.
  { apply bool_decide_eq_true in Hh as [h Hh]. apply wp_ret, HQ; [done|apply steady_refl|done|]. congruence. }
  apply bool_decide_eq_false in Hp, Hh. apply eq_None_not_Some in Hp. apply eq_None_not_Some in Hh.
  apply wp_bind, wp_throw_if; [done| |intros _; by exists None]. intros Hocc. apply wp_bind, wp_call; [|intros; by exists None]. intros _.
  apply wp_bind, wp_modify. match goal with |- wp _ _ _ ?z => set (y := z) end.
  destruct (i_suspended (proj1 Hok) l Hs) as [q Hl]. destruct (lane_vector x l q Hok Hl) as (_ & _ & Hv & _). specialize (Hv Hs).
  destruct Hv as [_ _ Hv]. unfold roles, suspended in Hv. injection Hv as Hv1 Hv2 Hv3 Hv4 Hv5.
  assert (shift l q x y) as Sh.
  { split; try done; try apply Hok; simpl.
    - intros h l' Hh'. congruence.
    - intros l' E. rewrite Hp. split; congruence.
    - intros l' E. rewrite Hs. split; congruence. }
  assert (touches l x y) as T by (by eapply shift_touches; [apply Hok|..]).
  assert (ok [] None y) as Hy.
  { eapply (lane_settle l q prefilling); [|done|done]. split; [eapply ok_shift; [exact Hok|exact Hl|by left|done]|done|].
    unfold roles. simpl. by rewrite Hh, Hv4, Hv5, (bool_decide_eq_true_2 (Some l = Some l)). }
  apply (wp_keeping False); [auto with neutral| |done]. intros [] z K. apply HQ; [by eapply keeps_ok| | |].
  - apply (steady_trans _ y); [|apply still_steady; eapply still_keeps; [exact K|apply Hy]].
    intros l' p Hl'. split; [done|]. by simpl.
  - unfold hold_at. by destruct (hold_view_lane _ _ (k_hold _ _ K)) as [-> _].
  - intros _ _. rewrite (k_prefill _ _ K). by exists l.
Qed.

End Interrupt.
