(* ===== verification/ExecPasses.v ===== *)
(** * Every pass of the worker keeps the invariant

    The expiry of waiting requests, the failure of everything, and one iteration of the
    worker loop: from a good state the worker returns to a good state, never throws and
    never reaches undefined behaviour. *)

From stdpp Require Import prelude functions list list_numbers sorting gmap.
From Stdlib Require Import ZArith Lia.
From S2P Require Import Prelude Admission Capacity GenerationGuards ExecState ExecCore ExecPlanning ExecRounds ExecAdmit ExecWorker ExecLogic ExecKeeps ExecNeutral ExecComplete ExecLanes ExecGeneration ExecDecode ExecHolds ExecChoice ExecAdmission ExecInterrupt.
#[local] Open Scope Z_scope.

Section Expire.
Context {I : Instance} {Opt : EngineOptions} (Hclose : sessions_close).

Lemma wp_expire_scan time queue x (Q : list Z * list Z * list Z -> Executor -> Prop) R :
  (forall keep dropped expired, keep `sublist_of` queue -> queue ≡ₚ keep ++ dropped ++ expired -> Q (keep, dropped, expired) x) ->
  wp (expire_scan time queue) Q R x.
Proof.
  revert Q. induction queue as [|q queue IH]; intros Q HQ; simpl; [by apply wp_ret, HQ|].
  apply wp_bind, wp_total. intros gone. apply wp_bind, wp_request, wp_bind, IH. intros keep dropped expired Hs Hp.
  destruct gone; [|destruct (_ && _)]; apply wp_ret, HQ; try (by apply sublist_cons); try (by apply sublist_skip); rewrite Hp.
  - solve_Permutation || (simpl; rewrite (Permutation_middle keep); done).
  - rewrite <- (Permutation_middle dropped), <- Permutation_middle. done.
  - done.
Qed.

(** Completing the requests in the worker's hands one after the other. *)
Record in_turn (busy : option nat) (queue : list Z) (x : Executor) : Prop := MkInTurn {
  u_ok : ok queue busy x;
  u_nodup : NoDup queue;
  u_lane : forall q, q ∈ queue -> lane (requests x q) = None;
}.

Lemma wp_turns busy (queue rest : list Z) (m : Z -> M unit) x (P : Executor -> Prop) (Q : unit -> Executor -> Prop) R :
  (forall q R, completes R q (m q)) -> in_turn busy (queue ++ rest) x -> P x ->
  (forall q y z, P y -> closed q y z -> same_lanes y z -> P z) ->
  (forall y, in_turn busy rest y -> P y -> Q tt y) -> wp (for_each queue m) Q R x.
Proof.
  intros Hm Hx HP Hstep HQ. revert x Hx HP. induction queue as [|q queue IH]; intros x Hx HP; simpl; [by apply wp_ret, HQ|].
  apply wp_bind. destruct Hx as [Hok [Hq Hn]%NoDup_cons Hl]. eapply (proj2 (Hm q R)).
  - split_and!; [exact Hok|done|]. intros l E. rewrite Hl in E by (by left). done.
  - intros y Hy C L. apply IH; [|by eapply Hstep]. split; [done|done|]. intros p Hp.
    destruct (i_held (proj1 Hok) p) as (Hs & _); [by right|].
    destruct (vw_inv _ _ (f_vw _ _ _ (z_framed _ _ _ C) p Hs ltac:(by intros ->))) as (_ & -> & _). apply Hl. by right.
Qed.

Lemma runs_expire : runs expire_pending_requests.
Proof.
  intros x Hx. unfold expire_pending_requests. apply wp_bind, wp_neutral; [auto with neutral|done|]. intros _ y _ Hy.
  apply wp_bind, wp_total. intros time. apply wp_bind, wp_exec, wp_bind, wp_expire_scan. intros keep dropped expired Hs Hp.
  apply wp_bind, wp_modify. set (z := publish_waiting (set_pending keep y)).
  assert (NoDup (keep ++ dropped ++ expired)) as Hn by (rewrite <- Hp; by eapply pending_NoDup, Hy).
  apply NoDup_app in Hn as (_ & Hdis & Hn).
  assert (in_turn None ((dropped ++ expired) ++ []) z) as Hz.
  { rewrite app_nil_r. split; [split| |].
    - rewrite <- (app_nil_r (dropped ++ expired)). apply inv_leave; [apply Hy|done|..].
      + intros q. rewrite Hp, !elem_of_app. tauto.
      + intros q Hq Hk. by apply (Hdis q).
    - by apply cap_queue, Hy.
    - done.
    - intros q Hq. apply (i_pending (proj1 Hy)). rewrite Hp. apply elem_of_app. by right. }
  apply wp_bind, wp_exec, wp_bind.
  assert (forall u, in_turn None ((dropped ++ expired) ++ []) u -> wp (for_each dropped complete_cancelled ;;
    for_each expired (fun q => complete_error q (request_error QueueTimeout)) ;; mret (negb (bool_decide (keep = []))))
    (fun _ y => ok [] None y) (fun _ => safe) u) as Hend.
  { intros u Hu. rewrite <- app_assoc in Hu. apply wp_bind.
    apply (wp_turns None dropped (expired ++ []) _ _ (fun _ => True)); [intros q R'; by apply completes_cancelled|done|done|done|].
    intros v Hv _. apply wp_bind. apply (wp_turns None expired [] _ _ (fun _ => True)); [intros q R'; apply completes_error|done|done|done|].
    intros w Hw _. apply wp_ret, Hw. }
  destruct (protection z) as [p|]; [|by apply wp_ret, Hend].
  destruct (bool_decide (head_request_id p ∈ dropped ++ expired)); [|by apply wp_ret, Hend].
  apply wp_modify, Hend. destruct Hz as [Hz1 Hz2 Hz3]. split; [by apply ok_protection|done|done].
Qed.

End Expire.

(** ** Failing everything *)
Section Failure.
Context {I : Instance} {Opt : EngineOptions} (Hclose : sessions_close).

Ltac no_roles := intros; exfalso; match goal with H : ~ excused any_lane _ |- _ => apply H; by right end.

Lemma ok_any held busy x : ok held busy x -> ok held any_lane x.
Proof.
  intros [Hi Hc]. split; [|done]. destruct Hi. split; try done; try no_roles. by intros [? _]%i_failed.
Qed.

Lemma safe_any x : safe x -> ok [] any_lane x.
Proof. intros [busy H]. by eapply ok_any. Qed.

(** Everything the worker owns is dropped while no lane needs a role. *)
Lemma any_hold held x : ok held any_lane x -> ok held any_lane (set_copy_hold None x).
Proof. intros [[] []]. split; split; try done; no_roles. Qed.

Lemma any_prefill held m x : ok held any_lane x -> active_bytes m = 0 ->
  ok held any_lane (set_prefill_lane None (set_request_memory m x)).
Proof. intros [[] []] Hm. split; split; try done; no_roles. Qed.

Lemma any_suspended held x : ok held any_lane x -> ok held any_lane (set_suspended_prefill_lane None x).
Proof. intros [[] []]. split; split; try done; no_roles. Qed.

Lemma wp_drain_any held x (P : Executor -> Prop) (Q : unit -> Executor -> Prop) R : ok held any_lane x -> P x ->
  (forall y z, keeps y z -> ok held any_lane y -> P y -> P z) -> (forall y, P y -> P (set_copy_hold None y)) ->
  (forall y, ok held any_lane y -> P y -> copy_hold y = None -> Q tt y) -> wp drain_copy_hold_before_abort Q R x.
Proof.
  intros Hok HP HK Hset HQ. unfold drain_copy_hold_before_abort. apply wp_bind, wp_exec.
  destruct (copy_hold x) as [h|] eqn:E; [|by apply wp_ret, HQ].
  apply wp_bind, (wp_keeping False); [auto with neutral| |done]. intros [] y K. assert (ok held any_lane y) as Hy by (by eapply keeps_ok).
  apply wp_bind, (wp_keeping False); [apply keeping_evict_hold| |done]. intros [] z K'. assert (ok held any_lane z) as Hz by (by eapply keeps_ok).
  apply wp_bind, wp_total. intros _. apply wp_modify, HQ; [by apply any_hold| |done]. apply Hset.
  eapply HK; [exact K'|done|]. by eapply HK.
Qed.

Lemma wp_drain_safe x (Q : unit -> Executor -> Prop) R : safe x -> (forall y, safe y -> Q tt y) -> wp drain_copy_hold_before_abort Q R x.
Proof.
  intros Hx%safe_any HQ. apply (wp_drain_any [] x (fun _ => True)); [done..|]. intros y Hy _ _. apply HQ. by exists any_lane.
Qed.

(** The waiting requests and the failure are on record. *)
Record failing (waiting : list Z) (x : Executor) : Prop := MkFailing {
  p_turn : in_turn any_lane waiting x;
  p_failed : failed x = true;
}.

Lemma failing_keeps waiting x y : keeps x y -> failing waiting x -> failing waiting y.
Proof.
  intros K [[Hok Hn Hl] Hf]. split; [|by apply K]. split; [by eapply keeps_ok|done|]. intros q Hq.
  destruct (i_held (proj1 Hok) q Hq) as (Hs & _). destruct (vw_inv _ _ (k_vw _ _ K q Hs (inv_ids _ _ _ (proj1 Hok)))) as (_ & -> & _). auto.
Qed.

Lemma failing_start x : ok [] any_lane x -> failing (pending x) (set_published_waiting 0 (set_pending [] (set_failed true x))).
Proof.
  intros [Hi Hc]. pose proof (pending_NoDup _ _ _ Hi) as Hn.
  assert (inv (pending x ++ []) any_lane (publish_waiting (set_pending [] x))) as H.
  { apply inv_leave; [done|apply sublist_nil_l|intros q; rewrite elem_of_nil; tauto|intros q _; apply not_elem_of_nil]. }
  rewrite app_nil_r in H. split; [|done]. split; [split|done|].
  - destruct H. split; try done. intros E. by destruct (i_exited E).
  - by destruct Hc; split.
  - intros q Hq. by apply (i_pending Hi).
Qed.

Definition vacant (L : list nat) (x : Executor) : Prop := forall l, l ∈ lanes -> l ∉ L -> slots x l = None.

(** The lanes, one after the other. *)
Lemma wp_fail_lanes waiting e L x (Q : unit -> Executor -> Prop) R : failing waiting x -> copy_hold x = None -> prefill_lane x = None ->
  suspended_prefill_lane x = None -> vacant L x ->
  (forall y, failing waiting y -> vacant [] y -> suspended_prefill_lane y = None -> Q tt y) ->
  wp (for_each L (fun l => x ← exec;
    match slots x l with Some q => total (abort_lane l) ;; complete_error q e | None => mret tt end)) Q R x.
Proof.
  revert x. induction L as [|l L IH]; intros x Hx Hh Hp Hs Hv HQ; simpl; [by apply wp_ret, HQ|].
  apply wp_bind, wp_bind, wp_exec. destruct (slots x l) as [q|] eqn:Hl.
  2:{ apply wp_ret, IH; try done. intros l' Hin Hnot. destruct (decide (l' = l)) as [->|E]; [done|]. apply Hv; [done|].
      by intros [->|?]%elem_of_cons. }
  apply wp_bind, wp_total. intros _. destruct Hx as [[Hok Hn Hlane] Hf].
  eapply (proj1 (completes_error R q e)) with (l := l) (busy' := any_lane).
  - split_and!; [exact Hok|done|by intros l' _ _; right|by rewrite Hh|by rewrite Hp].
  - intros y Hy C Ly. pose proof (z_framed _ _ _ C) as F. apply IH; try done.
    + split; [|by apply F]. split; [done|done|]. intros p Hp'. destruct (i_held (proj1 Hok) p Hp') as (Hs' & _ & _ & Hno).
      destruct (vw_inv _ _ (f_vw _ _ _ F p Hs' ltac:(by intros ->; eapply Hno))) as (_ & -> & _). auto.
    + pose proof (f_hold _ _ _ F) as E. rewrite Hh in E. by destruct (copy_hold y).
    + by rewrite (f_prefill _ _ _ F).
    + rewrite (l_suspended _ _ _ Ly), Hs. by case_bool_decide.
    + intros l' Hin Hnot. rewrite (l_slots _ _ _ Ly). destruct (decide (l' = l)) as [->|E]; [by rewrite fn_lookup_insert|].
      rewrite fn_lookup_insert_ne by done. apply Hv; [done|]. by intros [->|?]%elem_of_cons.
Qed.

(** Afterwards nothing waits and no lane is occupied: every request is done. *)
Definition over (x : Executor) : Prop := ok [] any_lane x /\ failed x = true /\ forall l, slots x l = None.

Lemma wp_fail_all e x (Q : unit -> Executor -> Prop) R : safe x -> (forall y, over y -> Q tt y) -> wp (fail_all e) Q R x.
Proof.
  intros Hx%safe_any HQ. unfold fail_all. apply wp_bind, (wp_keeping False); [auto with neutral| |done]. intros [] y K.
  pose proof (failing_start y (keeps_ok _ _ _ _ K Hx)) as H0. apply wp_bind, wp_exec. cbv zeta. apply wp_bind, wp_modify, wp_bind.
  set (waiting := pending y) in *. eapply (wp_drain_any waiting _ (failing waiting)); [apply H0|done| | |].
  { intros u z Ku _. by apply failing_keeps. }
  { intros u [[Hok Hn Hl] Hf]. split; [|done]. split; [by apply any_hold|done|done]. }
  intros u1 Hok1 H1 Hh1. apply wp_bind, wp_modify. match goal with |- wp _ _ _ ?z => set (u2 := z) end.
  assert (failing waiting u2 /\ copy_hold u2 = None /\ prefill_lane u2 = None) as (H2 & Hh2 & Hp2).
  { unfold u2. destruct (prefill_lane u1) as [o|] eqn:Ep; [|done]. split; [|done]. destruct H1 as [[Hok Hn Hl] Hf]. split; [|done].
    split; [by apply any_prefill|done|done]. }
  apply wp_bind, wp_modify. match goal with |- wp _ _ _ ?z => set (u3 := z) end.
  assert (failing waiting u3) as H3.
  { destruct H2 as [[Hok Hn Hl] Hf]. split; [|done]. split; [|done|done]. by apply ok_protection, any_suspended. }
  apply wp_bind. apply (wp_fail_lanes waiting e lanes u3); [done|done|done|done|by intros l ? []|].
  intros u4 [H4 Hf4] Hv4 Hs4. rewrite <- (app_nil_r waiting) in H4.
  apply (wp_turns any_lane waiting [] _ u4 (fun z => failed z = true /\ vacant [] z)); [intros q R'; apply completes_error|done|done| |].
  - intros q u v [Hf Hv] C L. split; [by apply (z_framed _ _ _ C)|]. intros l. rewrite (sl_slots _ _ L). apply Hv.
  - intros v [Hok _ _] [Hf Hv]. apply HQ. split_and!; [done|done|]. intros l. destruct (slots v l) as [q|] eqn:E; [|done].
    destruct (i_slots (proj1 Hok) l q E) as [Hlt _]. rewrite <- E. apply Hv; [|apply not_elem_of_nil].
    unfold lanes. apply elem_of_seq. lia.
Qed.

End Failure.

(** ** The loop *)
Section Loop.
Context {I : Instance} {Opt : EngineOptions} (Hclose : sessions_close).

Lemma keeping_burst op : (forall b, (op b).1 ≠ Throw undefined) -> neutral (lift_burst op).
Proof.
  intros H x e. unfold lift_burst. simpl. specialize (H (burst x)). destruct (op (burst x)) as [r b].
  assert (keeps x (set_burst b x)) as K by (apply keeps_same; by split; [split|..]).
  destruct r as [a|[]]; simpl in *; try done; by split.
Qed.

Lemma keeping_observe a b c : neutral (lift_burst (observe_membership a b c)).
Proof.
  apply keeping_burst. intros s. unfold observe_membership. destruct (_ =? 0); [done|].
  unfold st_throw_if, throw_if, lift, get, mbind, st_bind. destruct (_ || _); simpl; [done|]. by destruct (remaining_budget s).
Qed.

Lemma keeping_decode : neutral (lift_burst complete_decode).
Proof. by apply keeping_burst. Qed.

Lemma keeping_consume members : neutral (consume_burst members).
Proof.
  unfold consume_burst. destruct (bool_decide _); [neutral|]. apply keeping_burst. intros s.
  unfold consume_admission, st_throw_if, throw_if, lift, get, mbind, st_bind. simpl. destruct (remaining_budget s) as [n|]; [|done].
  by destruct (n =? 0).
Qed.

Lemma membership_ready x L members : membership_of x L = Ok members ->
  members.*1 `sublist_of` L /\ forall l, l ∈ members.*1 -> ready x l.
Proof.
  revert members. induction L as [|l L IH]; intros members; simpl; [by intros [= <-]; split; [|by intros l ?%elem_of_nil]|].
  assert (forall members, membership_of x L = Ok members -> members.*1 `sublist_of` l :: L /\ forall l', l' ∈ members.*1 -> ready x l') as Hskip.
  { intros ms E. destruct (IH ms E) as [H1 H2]. split; [by apply sublist_cons|done]. }
  destruct (slots x l) as [q|] eqn:Hl; [|apply Hskip]. destruct (decode_ready (requests x q)) eqn:Hd; [|apply Hskip].
  destruct (budget (requests x q)) as [b|]; [|done]. unfold mbind, res_bind. destruct (membership_of x L) as [ms|] eqn:E; [|done].
  intros [= <-]. destruct (IH ms eq_refl) as [H1 H2]. split; [by apply sublist_skip|]. intros l' [->|?]%elem_of_cons; [by exists q|auto].
Qed.

Lemma wp_membership x (Q : list (nat * Z) -> Executor -> Prop) : ok [] None x ->
  (forall members, round_lanes members.*1 x -> Q members x) -> wp build_round_membership Q (fun _ => safe) x.
Proof.
  intros Hx HQ. unfold build_round_membership. apply wp_bind, wp_exec, wp_lift.
  - intros members E. destruct (membership_ready _ _ _ E) as [Hs Hr]. apply HQ. split_and!; [done| |done].
    eapply sublist_NoDup; [|exact Hs]. apply NoDup_seq.
  - intros e E. split; [intros ->; by eapply membership_defined|by exists None].
Qed.

Lemma wp_round members x (Q : unit -> Executor -> Prop) : round_lanes members.*1 x -> (forall y, ok [] None y -> Q tt y) ->
  wp (run_membership_decode members) Q (fun _ => safe) x.
Proof.
  intros Hx HQ. unfold run_membership_decode. apply wp_bind, wp_decode_round; [done|done|done|]. intros y Hy.
  apply wp_neutral; [apply keeping_decode|done|]. intros [] z _ Hz. by apply HQ.
Qed.

(** ** The iteration while a hold is in flight *)
Lemma hold_lone x h : ok [] None x -> copy_hold x = Some h -> lone_at (hold_lane h) (hold_request h) holding x.
Proof.
  intros Hx Hh. pose proof (role_hold x h Hx Hh) as Hl. split; [done|]. split.
  - intros l' Hp. symmetry. by apply (i_excl (proj1 Hx) h).
  - unfold hold_at. rewrite Hh. by intros l' [= <-].
Qed.

Lemma hold_apart x h L : round_lanes L x -> copy_hold x = Some h -> hold_lane h ∉ L.
Proof.
  intros (Hok & _ & Hr) Hh Hl. destruct (ready_lane x _ Hok (Hr _ Hl)) as (q & Hs & [_ _ Hv]).
  destruct (role_hold x h Hok Hh) as [_ Hs' Hv']. assert (q = hold_request h) as -> by congruence. rewrite Hv in Hv'. done.
Qed.

Lemma wp_finish_failed members x h (Q : AdmissionProgress -> Executor -> Prop) : round_lanes members x -> copy_hold x = Some h ->
  (forall p y, ok [] None y -> Q p y) -> wp (finish_failed_restore admit_complete) Q (fun _ => safe) x.
Proof.
  intros Hx Hh HQ. eapply wp_lane; [apply hoare_finish_failed; [done|intros ? ? ?; by apply hoare_admit]|by apply hold_lone; [apply Hx|]|auto|].
  intros; by eapply safe_stuck.
Qed.

Lemma wp_settle_hold h members x : round_lanes members.*1 x -> copy_hold x = Some h ->
  wp (settle_hold h members) (fun _ => ok [] None) (fun _ => safe) x.
Proof.
  intros Hx Hh. unfold settle_hold. apply wp_bind, wp_neutral; [case_bool_decide; auto with neutral|apply Hx|]. intros settled y K Hy.
  assert (copy_hold y = Some h \/ exists g, copy_hold y = Some g /\ hold_lane g = hold_lane h) as Hg.
  { right. destruct (hold_view_lane _ _ (k_hold _ _ K)) as [E _]. rewrite Hh in E. destruct (copy_hold y) as [g|]; [|done].
    injection E as E. by exists g. }
  assert (exists g, copy_hold y = Some g /\ hold_lane g = hold_lane h) as (g & Eg & El) by (destruct Hg as [?|?]; eauto).
  pose proof (round_keeps _ _ _ K Hx) as Hr. destruct (negb settled); [by apply wp_round|].
  destruct (cancel_pending h).
  - rewrite <- El. apply wp_cancel_lane; [done|done|rewrite (i_hold (proj1 Hy) g Eg); done|done].
  - apply wp_bind. eapply wp_finish_failed; [exact Hr|exact Eg|]. intros p z Hz. by apply wp_ret.
Qed.

Lemma wp_advance_hold h members x : round_lanes members.*1 x -> copy_hold x = Some h ->
  wp (advance_hold h members) (fun _ => ok [] None) (fun _ => safe) x.
Proof.
  intros Hx Hh. unfold advance_hold. apply wp_bind, wp_throw_if; [done| |intros _; exists None; apply Hx]. intros _.
  apply wp_bind, wp_neutral; [case_bool_decide; auto with neutral|apply Hx|]. intros rdy y K Hy.
  pose proof (round_keeps _ _ _ K Hx) as Hr. destruct (negb rdy); [by apply wp_round|].
  assert (exists g, copy_hold y = Some g) as [g Eg].
  { destruct (hold_view_lane _ _ (k_hold _ _ K)) as [E _]. rewrite Hh in E. destruct (copy_hold y) as [g|]; [by exists g|done]. }
  apply wp_bind. eapply (wp_lane (hold_lane g)); [by apply hoare_admit|by apply hold_lone| |intros; by eapply safe_stuck].
  intros p z T Hz. assert (round_lanes members.*1 z) as Hrz.
  { split_and!; [done|apply Hr|]. intros l Hl. eapply (spares_touches [hold_lane g]); [exact T|by left| |by apply Hr].
    intros ->%list_elem_of_singleton. by eapply hold_apart. }
  destruct (_ && _); [|by apply wp_ret]. apply wp_bind, wp_exec, wp_bind. destruct (copy_hold z) as [k|]; [|by apply wp_throw; [|exists None]].
  apply wp_ret. destruct (membership_contains _ _); [by apply wp_ret|by apply wp_round].
Qed.

(** ** The iteration while a prefill is staged *)
Lemma round_steady L x y : round_lanes L x -> ok [] None y -> steady x y -> round_lanes L y.
Proof. intros (_ & Hn & Hr) Hy S. split_and!; [done|done|]. intros l Hl. eapply steady_ready; [exact S|auto]. Qed.

Lemma wp_advance_owner members x : round_lanes members.*1 x -> is_Some (prefill_lane x) ->
  wp (advance_owner members) (fun _ => ok [] None) (fun _ => safe) x.
Proof.
  intros Hx [o Ho]. pose proof Hx as (Hok & _). unfold advance_owner. apply wp_bind, wp_exec, wp_bind. rewrite Ho. apply wp_ret.
  apply wp_bind, wp_call; [|intros; by exists None]. intros remaining. apply wp_bind, wp_neutral; [auto with neutral|done|]. intros pace y K Hy.
  pose proof (round_keeps _ _ _ K Hx) as Hr. assert (prefill_lane y = Some o) as Hoy by (by rewrite (k_prefill _ _ K)).
  assert (forall f z, neutral (modify f) -> ok [] None z -> wp (modify f) (fun _ => ok [] None) (fun _ => safe) z) as Hset.
  { intros f z Hf Hz. by apply wp_neutral. }
  assert (forall z, ok [] None z -> wp (run_prefill_step ;; modify (set_decode_rounds_since_prefill 0)) (fun _ => ok [] None) (fun _ => safe) z) as Hstep.
  { intros z Hz. apply wp_bind. eapply wp_mono; [by apply runs_prefill_step| |done]. intros ? u Hu. apply Hset; [neutral|done]. }
  apply wp_bind. destruct (_ && _); [|by apply wp_ret, Hstep].
  apply wp_bind, wp_exec, wp_bind, wp_throw_if; [done| |intros _; by exists None]. intros _.
  apply wp_bind, wp_call; [|intros; by exists None]. intros mixable. apply wp_bind, wp_exec. cbv zeta. destruct (_ <? _).
  - apply wp_bind, wp_round; [done|]. intros z Hz. apply wp_bind. eapply wp_mono; [apply Hset; [neutral|done]| |done].
    intros ? u Hu. by apply wp_ret, wp_ret.
  - destruct mixable; [|by apply wp_ret, Hstep]. apply wp_bind, (wp_decode_round Hclose members (Some o) y); [done|by intros ? [= <-]|].
    intros z Hz. apply wp_bind, wp_neutral; [apply keeping_decode|done|]. intros _ u _ Hu. apply wp_bind.
    eapply wp_mono; [apply Hset; [neutral|exact Hu]| |done]. intros ? v Hv. by apply wp_ret, wp_ret.
Qed.

(** ** The iteration while nothing is in flight *)
Lemma wp_consume members x : ok [] None x -> wp (consume_burst members) (fun _ => ok [] None) (fun _ => safe) x.
Proof. intros Hx. apply wp_neutral; [apply keeping_consume|done|auto]. Qed.

Lemma wp_schedule have_pending members x : round_lanes members.*1 x -> quiescent x ->
  wp (schedule have_pending members) (fun _ => ok [] None) (fun _ => safe) x.
Proof.
  intros Hx Hn. pose proof Hx as (Hok & _). unfold schedule, start_generation_recovery. apply wp_bind, wp_bind, wp_exec.
  apply wp_recovery_loop; [done|done|done|done|intros y Hy; by apply wp_ret|]. intros y [Hy Es Eh Ep Esus Er Epend].
  apply wp_bind, wp_exec, wp_bind.
  assert (steady x y) as S by (intros l q Hl; by rewrite Es, Er).
  assert (forall p z, ok [] None z -> steady x z -> wp (match p with
    | RanGpuUnit | CopyHolding => consume_burst members
    | _ => if bool_decide (p = ControlProgress) && bool_decide (members = []) then mret tt
           else if bool_decide (members = []) then mret tt
           else run_membership_decode members ;; modify (set_stable_decode_epoch (negb have_pending))
    end) (fun _ => ok [] None) (fun _ => safe) z) as Hgo.
  { intros p z Hz Sz. assert (wp (if bool_decide (p = ControlProgress) && bool_decide (members = []) then mret tt
      else if bool_decide (members = []) then mret tt
      else run_membership_decode members ;; modify (set_stable_decode_epoch (negb have_pending))) (fun _ => ok [] None) (fun _ => safe) z) as Hdecode.
    { destruct (_ && _); [by apply wp_ret|]. destruct (bool_decide _); [by apply wp_ret|]. apply wp_bind, wp_round; [by eapply round_steady|].
      intros u Hu. apply wp_neutral; [neutral|done|auto]. }
    destruct p; try done; by apply wp_consume. }
  destruct (admission_allowed _ _ _); [|by apply wp_ret, (Hgo ProgressNone)]. apply wp_try_admit; [done|done| |].
  - destruct Hn as [H1 H2]. split; congruence.
  - intros p z [Hz Sz]. apply Hgo; [done|by eapply steady_trans].
Qed.

(** ** One iteration *)
Lemma wp_staged_part have_pending members x : round_lanes members.*1 x -> copy_hold x = None -> is_Some (prefill_lane x) ->
  wp (interrupted ← (if admission_allowed have_pending members x then try_interrupt_prefill else mret false);
      if interrupted : bool then consume_burst members
      else
        (if admission_allowed have_pending members x then
           x ← exec;
           if bool_decide (is_Some (suspended_prefill_lane x)) then resume_suspended_prefill else mret tt
         else mret tt) ;;
        advance_owner members) (fun _ => ok [] None) (fun _ => safe) x.
Proof.
  intros Hx Hh Hp. pose proof Hx as (Hok & _). destruct (admission_allowed _ _ _).
  - apply wp_bind, wp_try_interrupt; [done|done|done|]. intros [|] y [Hy H]; [by apply wp_consume|].
    destruct (H eq_refl) as (S & Hhy & Hpy). apply wp_bind, wp_bind, wp_exec.
    case_bool_decide as Es.
    + apply wp_resume; [done|]. intros z Hz Sz _ Hpz. apply wp_advance_owner.
      * eapply round_steady; [exact Hx|done|by eapply steady_trans].
      * apply Hpz; [done|by right].
    + apply wp_ret, wp_advance_owner; [by eapply round_steady|]. destruct Hpy as [->|[_ ?]]; done.
  - apply wp_bind, wp_ret, wp_bind, wp_ret. by apply wp_advance_owner.
Qed.

Lemma wp_body x : ok [] None x -> wp worker_body (fun _ => ok [] None) (fun _ => safe) x.
Proof.
  intros Hx. unfold worker_body. apply wp_bind, wp_call; [|intros; by exists None]. intros _.
  apply wp_bind. eapply wp_mono; [by apply runs_expire| |done]. intros have_pending x1 H1.
  apply wp_bind, wp_neutral; [auto with neutral|done|]. intros gone x2 _ H2.
  apply wp_bind. eapply wp_mono; [by apply runs_cancel_active| |done]. intros ? x3 H3.
  apply wp_bind, wp_resume; [done|]. intros x4 H4 _ _ _.
  apply wp_bind, wp_membership; [done|]. intros members Hr.
  apply wp_bind, wp_exec, wp_bind, wp_neutral; [apply keeping_observe|done|]. intros [] x5 K5 H5.
  pose proof (round_keeps _ _ _ K5 Hr) as Hr5. apply wp_bind, wp_exec. destruct (copy_hold x5) as [h|] eqn:Hh.
  - destruct (_ || _); [by apply wp_settle_hold|by apply wp_advance_hold].
  - destruct (prefill_lane x5) as [o|] eqn:Hp; [|by apply wp_schedule]. apply wp_staged_part; [done|done|by exists o].
Qed.

(** The state between two passes: every request is accounted for, and after the exit
    nothing waits and no lane is occupied. *)
Definition good (x : Executor) : Prop :=
  match worker x with Exited => over x | AtTop | AtWait => ok [] None x end.

Definition exited (x : Executor) : Prop := worker x = Exited /\ over x.

Lemma exited_good x : exited x -> good x.
Proof. intros [Hw Hx]. unfold good. by rewrite Hw. Qed.

Lemma over_exited x : over x -> exited (set_worker Exited x).
Proof. intros ([[] []] & Hf & Hl). split; [done|]. split_and!; [|done|done]. split; split; try done. Qed.

Lemma wp_end e x (R : exn -> Executor -> Prop) : safe x -> wp (fail_all e ;; modify (set_worker Exited)) (fun _ => exited) R x.
Proof. intros Hx. apply wp_bind, wp_fail_all; [done|]. intros y Hy. by apply wp_modify, over_exited. Qed.

Lemma safe_silent {A} (m : M A) x (Q : A -> Executor -> Prop) R : silent m -> safe x -> (forall a y, safe y -> Q a y) -> wp m Q R x.
Proof.
  intros Hm [busy Hx] HQ. apply (wp_keeping False); [done| |done]. intros a y K. apply HQ. exists busy. by eapply keeps_ok.
Qed.

Lemma wp_shutdown x (R : exn -> Executor -> Prop) : ok [] None x -> wp worker_shutdown (fun _ => exited) R x.
Proof.
  intros Hx. unfold worker_shutdown. apply wp_bind, wp_exec, wp_bind.
  assert (forall y, safe y -> wp (drain_copy_hold_before_abort ;; run_secondary_cleanup (call shutdown_kv_tiers) ;;
    fail_all (request_error Unavailable) ;; modify (set_worker Exited)) (fun _ => exited) R y) as Hend.
  { intros y Hy. apply wp_bind, wp_drain_safe; [done|]. intros z Hz. apply wp_bind.
    apply safe_silent; [neutral|done|]. intros [] u Hu. by apply wp_end. }
  apply wp_cleanup. destruct (copy_hold x) as [h|] eqn:Hh; [destruct (cancel_pending h)|];
    [|apply wp_ret, Hend; by exists None..].
  eapply wp_mono; [apply wp_cancel_lane with (Q := fun _ => safe); [done|done|rewrite (i_hold (proj1 Hx) h Hh); done|]| |].
  - intros y _ Hy. by exists None.
  - intros [] y Hy. by apply Hend.
  - intros e y Hy. by apply Hend.
Qed.

Lemma ok_good x : ok [] None x -> good x.
Proof.
  intros Hx. unfold good. destruct (worker x) eqn:E; [done|done|]. destruct (i_exited (proj1 Hx) E) as [Hf _].
  by destruct (i_failed (proj1 Hx) Hf).
Qed.

Lemma wp_awake x (R : exn -> Executor -> Prop) : ok [] None x -> wp worker_awake (fun _ => good) R x.
Proof.
  intros Hx. unfold worker_awake. apply wp_bind, wp_exec. destruct (stopping x); [eapply wp_mono; [by apply wp_shutdown|intros ? y; apply exited_good|done]|].
  apply wp_try. eapply wp_mono; [by apply wp_body|intros ? y; apply ok_good|]. intros e y Hy _.
  apply wp_bind, wp_drain_safe; [done|]. intros z Hz. apply wp_bind. apply safe_silent; [neutral|done|]. intros [] u Hu.
  eapply wp_mono; [by apply wp_end|intros ? w; apply exited_good|done].
Qed.

Lemma ok_set_worker w x : w ≠ Exited -> ok [] None x -> ok [] None (set_worker w x).
Proof. intros Hw [[] []]. split; split; done. Qed.

Lemma wp_waiting ready x (R : exn -> Executor -> Prop) : ok [] None x -> wp (worker_wait ready) (fun _ => good) R x.
Proof.
  intros Hx. unfold worker_wait. apply wp_bind, (wp_keeping False); [auto with neutral| |done]. intros [] y K.
  pose proof (keeps_ok _ _ _ _ K Hx) as Hy. apply wp_bind, wp_exec. destruct (_ && _).
  - by apply wp_modify, ok_good, ok_set_worker.
  - apply wp_bind, wp_modify, wp_awake. by apply ok_set_worker.
Qed.

Lemma wp_top x (R : exn -> Executor -> Prop) : ok [] None x -> wp worker_top (fun _ => good) R x.
Proof.
  intros Hx. unfold worker_top. apply wp_bind, wp_exec. cbv zeta. apply wp_bind, (wp_keeping False); [neutral| |done].
  intros [] x1 K1. pose proof (keeps_ok _ _ _ _ K1 Hx) as H1. apply wp_bind.
  set (Qran := fun (ran : bool) y => if ran then good y else ok [] None y).
  eapply (wp_mono _ Qran _ R); [| |done].
  { destruct (_ && _); [|by apply wp_ret]. apply wp_try. eapply wp_mono with (Q := Qran) (R := fun _ => safe).
    - apply wp_bind, wp_membership; [done|]. intros members Hr. destruct (bool_decide _); [by apply wp_ret|].
      apply wp_bind, wp_decode_round; [done|done|done|]. intros y Hy. by apply wp_ret, ok_good.
    - done.
    - intros e y Hy _. apply wp_bind, wp_fail_all; [done|]. intros z Hz. apply wp_bind, wp_modify, wp_ret. by apply exited_good, over_exited. }
  intros [|] y Hy; [by apply wp_ret|]. apply wp_bind, (wp_keeping False); [neutral| |done]. intros [] x2 K2.
  apply wp_bind, (wp_keeping False); [auto with neutral| |done]. intros [] x3 K3.
  assert (ok [] None x3) as H3 by (eapply keeps_ok; [exact K3|by eapply keeps_ok]). apply wp_bind, wp_exec. cbv zeta. apply wp_bind.
  apply (wp_keeping False); [neutral| |done]. intros rdy x4 K4. apply wp_waiting. by eapply keeps_ok.
Qed.

(** One iteration of the worker. *)
Lemma wp_pass x : good x -> wp worker_pass (fun _ => good) (fun _ _ => False) x.
Proof.
  intros Hx. unfold worker_pass. apply wp_bind, wp_exec. unfold good in Hx. destruct (worker x) eqn:E.
  - by apply wp_top.
  - by apply wp_waiting.
  - apply wp_ret. unfold good. by rewrite E.
Qed.

(** ** Reachable states *)
Lemma construct_good base capacity x : construct base capacity = Ok x -> good x.
Proof.
  unfold construct, throw_if. 
  destruct ((max_concurrency =? 0)%nat || (kMaximumConcurrency <? max_concurrency)%nat || (max_pending_requests <=? 0)
            || (pending_timeout <=? 0) || (mixed_forward_rounds =? 0)) eqn:Hc; simpl; [done|].
  destruct (negb _ || _); simpl; [done|]. intros [= <-].
  apply ok_good. split; split; try done; try (by intros ? ?%elem_of_nil).
  - constructor.
  - constructor.
  - by intros ? ? ?%elem_of_nil.
  - unfold max_outstanding. simpl. rewrite !orb_false_iff, Z.leb_gt in Hc. lia.
Qed.

Lemma good_client a x : good x -> good (client_step a x).
Proof.
  intros Hx. pose proof (keeps_client a x) as K. unfold good in *. rewrite (k_worker _ _ K).
  destruct (worker x); [by eapply keeps_ok..|]. destruct Hx as (Hok & Hf & Hl).
  split_and!; [by eapply keeps_ok|by apply K|intros l; by rewrite (k_slots _ _ K)].
Qed.

(** Every reachable state is good. *)
Lemma reach_good x : exec_reach x -> good x.
Proof.
  induction 1 as [base capacity x H|x e r x' e' _ IH Hp Hr|x a _ IH].
  - by eapply construct_good.
  - pose proof (wp_pass x IH e) as H. rewrite Hp in H. by destruct r as [u|[]].
  - by apply good_client.
Qed.

End Loop.
