(* ===== verification/ExecTheorems.v ===== *)
(** * What the executor guarantees

    The properties of every reachable state of the executor: whatever the program, the
    frontend, the caches and the callers do, as long as closing an output session
    does not throw. *)

From stdpp Require Import prelude functions list list_numbers sorting gmap.
From Stdlib Require Import ZArith Lia.
From S2P Require Import Prelude Admission Capacity GenerationGuards ExecState ExecCore ExecPlanning ExecRounds ExecAdmit ExecWorker ExecDemo ExecLogic ExecKeeps ExecNeutral ExecComplete ExecLanes ExecGeneration ExecDecode ExecHolds ExecChoice ExecAdmission ExecInterrupt ExecPasses.
#[local] Open Scope Z_scope.

Section Theorems.
Context {I : Instance} {Opt : EngineOptions}.

Lemma exec_reach_ok x : sessions_close -> exec_reach x -> exists busy, ok [] busy x /\ (worker x ≠ Exited -> busy = None) /\
  (worker x = Exited -> over x).
Proof.
  intros Hc Hx. pose proof (reach_good Hc x Hx) as H. unfold good in H. destruct (worker x).
  - by exists None.
  - by exists None.
  - exists any_lane. split; [apply H|]. by split.
Qed.





(** ** Stopping *)
Lemma others_stopping actions x : stopping x = true -> stopping (others actions x) = true.
Proof.
  revert x. induction actions as [|a actions IH]; intros x Hx; [done|]. apply IH. destruct a; simpl.
  - unfold submit_reserve, st_throw_if, throw_if, lift, get, put, mbind, st_bind. rewrite Hx. done.
  - unfold submit_fail, release_reserved_capacity. case_bool_decide; [|done]. by destruct (negb _).
  - unfold submit_publish, get, put, throw, mbind, st_bind. simpl. case_bool_decide; [|done]. simpl. by rewrite Hx.
  - unfold release_consumer. case_bool_decide; [|done]. by destruct (_ && _).
  - destruct (releasing x); [done|]. unfold release_reserved_capacity. simpl. by destruct (negb _).
  - done.
  - done.
Qed.

Lemma wp_stop_wait (Hc : sessions_close) b x (R : exn -> Executor -> Prop) : ok [] None x -> stopping x = true ->
  wp (worker_wait b) (fun _ => exited) R x.
Proof.
  intros Hx Hs. unfold worker_wait. apply wp_bind, wp_lock. intros actions. pose proof (keeps_others actions x) as K.
  set (y := others actions x) in *. assert (stopping y = true) as Hy by (by apply others_stopping).
  apply wp_bind, wp_exec. rewrite Hy, andb_false_r, andb_false_l. apply wp_bind, wp_modify.
  unfold worker_awake. apply wp_bind, wp_exec. simpl. rewrite Hy. apply wp_shutdown; [done|].
  apply ok_set_worker; [done|by eapply keeps_ok].
Qed.

Lemma wp_stop_top (Hc : sessions_close) x (R : exn -> Executor -> Prop) : ok [] None x -> stopping x = true -> control_dirty x = true ->
  wp worker_top (fun _ => exited) R x.
Proof.
  intros Hx Hs Hd. unfold worker_top. apply wp_bind, wp_exec. cbv zeta. apply wp_bind, wp_modify. rewrite Hd, andb_false_r, andb_false_l.
  apply wp_bind, wp_ret, wp_bind, wp_modify. match goal with |- wp _ _ _ ?z => set (x1 := z) end.
  assert (keeps x x1) as K1 by (apply keeps_same; by split; [split|..]). pose proof (keeps_ok _ _ _ _ K1 Hx) as H1.
  assert (stopping x1 = true) as Hs1 by done. clearbody x1.
  apply wp_bind, wp_lock. intros actions. pose proof (keeps_others actions x1) as K. set (y := others actions x1) in *.
  assert (stopping y = true) as Hy by (by apply others_stopping). apply wp_bind, wp_exec. rewrite Hy. simpl.
  apply wp_bind, wp_ret. apply wp_stop_wait; [done|by eapply keeps_ok|done].
Qed.


End Theorems.

(** ** The theorems at the concrete environment *)
Lemma demo_closes : @sessions_close demo_instance.
Proof. intros q e _. by exists e. Qed.





