(* ===== verification/Utf8.v ===== *)
(** * Decoding generated bytes as UTF-8

    [consume_generated_utf8] of targets/qwen3_6/impl/frontend/frontend.cpp: the decoder of
    the bytes the model generates.  Sampling can emit any byte sequence, so
    ill-formed bytes become U+FFFD and an incomplete sequence waits for the next
    token.  The reference is the encoding of Unicode scalar values and the
    substitution of maximal subparts. *)

From stdpp Require Import prelude list list_numbers.
From Stdlib Require Import ZArith Lia.
From S2P Require Import Prelude.
#[local] Open Scope Z_scope.

(** ** The code *)
Definition kUtf8Replacement : list Z := [239; 191; 189].

(** The length announced by a lead byte; [None]: the byte starts no sequence. *)
Definition sequence_length (lead : Z) : option nat :=
  if (194 <=? lead) && (lead <=? 223) then Some 2%nat
  else if (224 <=? lead) && (lead <=? 239) then Some 3%nat
  else if (240 <=? lead) && (lead <=? 244) then Some 4%nat
  else None.

(** The bytes that may stand at [index] of a sequence. *)
Definition minimum_byte (lead : Z) (index : nat) : Z :=
  if (index =? 1)%nat then if lead =? 224 then 160 else if lead =? 240 then 144 else 128 else 128.
Definition maximum_byte (lead : Z) (index : nat) : Z :=
  if (index =? 1)%nat then if lead =? 237 then 159 else if lead =? 244 then 143 else 191 else 191.

Definition byte_fits (lead : Z) (index : nat) (byte : Z) : bool :=
  negb ((byte <? minimum_byte lead index) || (maximum_byte lead index <? byte)).

Inductive Scan : Type := Incomplete | Malformed (index : nat) | Complete.

(** The loop over the continuation bytes: [todo] of them remain, [rest] starts at
    [index]. *)
Fixpoint scan_sequence (lead : Z) (index todo : nat) (rest : list Z) : Scan :=
  match todo with
  | O => Complete
  | S todo =>
      match rest with
      | [] => Incomplete
      | byte :: rest => if byte_fits lead index byte then scan_sequence lead (S index) todo rest else Malformed index
      end
  end.

(** One iteration of the outer loop: what it appends to [decoded] and how far it
    moves; [None]: the rest stays pending. *)
Definition utf8_step (pending : list Z) : option (list Z * nat) :=
  match pending with
  | [] => None
  | lead :: rest =>
      if lead <=? 127 then Some ([lead], 1%nat)
      else
        match sequence_length lead with
        | None => Some (kUtf8Replacement, 1%nat)
        | Some length =>
            match scan_sequence lead 1 (length - 1) rest with
            | Incomplete => None
            | Malformed index => Some (kUtf8Replacement, index)
            | Complete => Some (take length pending, length)
            end
        end
  end.

(** The outer loop; every iteration but the last moves by at least one byte. *)
Fixpoint consume_loop (fuel : nat) (pending : list Z) : list Z * list Z :=
  match fuel with
  | O => ([], pending)
  | S fuel =>
      match utf8_step pending with
      | None => ([], pending)
      | Some (out, n) => let '(decoded, kept) := consume_loop fuel (drop n pending) in (out ++ decoded, kept)
      end
  end.

(** The decoded text and what stays in [pending]. *)
Definition consume_generated_utf8 (pending : list Z) : list Z * list Z := consume_loop (length pending) pending.

(** ** The reference *)
Definition scalar (c : Z) : Prop := 0 <= c <= 1114111 /\ ~ 55296 <= c <= 57343.

Definition encode_char (c : Z) : list Z :=
  if c <? 128 then [c]
  else if c <? 2048 then [192 + c / 64; 128 + c mod 64]
  else if c <? 65536 then [224 + c / 4096; 128 + c / 64 mod 64; 128 + c mod 64]
  else [240 + c / 262144; 128 + c / 4096 mod 64; 128 + c / 64 mod 64; 128 + c mod 64].

Definition encode_text (l : list Z) : list Z := mjoin (encode_char <$> l).

(** Some character begins with these bytes. *)
Definition begins (s : list Z) : Prop := exists c, scalar c /\ s `prefix_of` encode_char c.

(** A maximal subpart: one byte that begins no character, or the beginning of a
    character that the next byte does not continue. *)
Definition maximal_subpart (s : list Z) (next : Z) : Prop := begins s /\ ~ begins (s ++ [next]).

(** [substituted bytes text kept]: [text] is [bytes] with its maximal ill-formed subparts
    replaced, up to a character [kept] that is only begun. *)
Inductive substituted : list Z -> list Z -> list Z -> Prop :=
| sub_end kept : (kept ≠ [] -> begins kept /\ forall c, scalar c -> kept ≠ encode_char c) -> substituted kept [] kept
| sub_char c bytes text kept :
    scalar c -> substituted bytes text kept -> substituted (encode_char c ++ bytes) (encode_char c ++ text) kept
| sub_byte b bytes text kept :
    ~ begins [b] -> substituted bytes text kept -> substituted (b :: bytes) (kUtf8Replacement ++ text) kept
| sub_part s next bytes text kept :
    s ≠ [] -> maximal_subpart s next -> (forall c, scalar c -> s ≠ encode_char c) ->
    substituted (next :: bytes) text kept -> substituted (s ++ next :: bytes) (kUtf8Replacement ++ text) kept.

Definition byte_string (s : list Z) : Prop := Forall (fun b => 0 <= b < 256) s.

(** ** Sequences

    [continuation_fits] is what the code checks of the continuation bytes; together with the lead
    byte it is exactly the table of well-formed sequences. *)
Fixpoint continuation_fits (lead : Z) (index : nat) (conts : list Z) : bool :=
  match conts with [] => true | b :: conts => byte_fits lead index b && continuation_fits lead (S index) conts end.

(** Case analysis on the comparisons of a goal. *)
Ltac compare_all :=
  repeat match goal with
  | |- context [?a <=? ?b] => destruct (Z.leb_spec a b)
  | |- context [?a <? ?b] => destruct (Z.ltb_spec a b)
  | |- context [?a =? ?b] => destruct (Z.eqb_spec a b)
  end; cbn [andb orb negb].

Lemma byte_fits_true lead index b : byte_fits lead index b = true <-> minimum_byte lead index <= b <= maximum_byte lead index.
Proof. unfold byte_fits. compare_all; split; lia || done. Qed.

Lemma sequence_length_spec lead n : sequence_length lead = Some n <->
  (n = 2%nat /\ 194 <= lead <= 223) \/ (n = 3%nat /\ 224 <= lead <= 239) \/ (n = 4%nat /\ 240 <= lead <= 244).
Proof.
  unfold sequence_length. compare_all; (split; [first [intros [= <-]; lia|discriminate]|intros]); first [lia|f_equal; lia].
Qed.

Lemma div64 q x : 0 <= x < 64 -> (q * 64 + x) / 64 = q /\ (q * 64 + x) mod 64 = x.
Proof. intros Hx. Z.to_euclidean_division_equations. lia. Qed.

(** The bounds on the first continuation byte. *)
Lemma first_byte lead b : byte_fits lead 1 b = true ->
  128 <= b <= 191 /\ (lead = 224 -> 160 <= b) /\ (lead = 240 -> 144 <= b) /\ (lead = 237 -> b <= 159) /\ (lead = 244 -> b <= 143).
Proof. rewrite byte_fits_true. unfold minimum_byte, maximum_byte. simpl. compare_all; lia. Qed.

Lemma later_byte lead index b : (1 < index)%nat -> byte_fits lead index b = true -> 128 <= b <= 191.
Proof. intros Hi. rewrite byte_fits_true. unfold minimum_byte, maximum_byte. destruct (Nat.eqb_spec index 1); lia. Qed.

Ltac digits :=
  repeat match goal with
  | |- context [(?q * 64 + ?x) / 64] => rewrite (proj1 (div64 q x ltac:(lia)))
  | |- context [(?q * 64 + ?x) mod 64] => rewrite (proj2 (div64 q x ltac:(lia)))
  end.

Ltac same_bytes := repeat (apply (f_equal2 cons); [lia|]); done.

(** A complete sequence is the encoding of a character, and conversely. *)
Lemma complete_sequence lead n conts : sequence_length lead = Some n -> length conts = (n - 1)%nat -> continuation_fits lead 1 conts = true ->
  exists c, scalar c /\ 128 <= c /\ encode_char c = lead :: conts.
Proof.
  intros Hn%sequence_length_spec Hl Hf. unfold scalar, encode_char.
  destruct Hn as [[-> Hn]|[[-> Hn]|[-> Hn]]].
  - destruct conts as [|b1 [|]]; try done. simpl in Hf. rewrite !andb_true_iff in Hf. destruct Hf as [H1%first_byte _].
    exists ((lead - 192) * 64 + (b1 - 128)). split_and!; try lia. compare_all; try lia. digits. same_bytes.
  - destruct conts as [|b1 [|b2 [|]]]; try done. simpl in Hf. rewrite !andb_true_iff in Hf.
    destruct Hf as (H1%first_byte & H2%later_byte & _); [|lia].
    exists (((lead - 224) * 64 + (b1 - 128)) * 64 + (b2 - 128)). split_and!; try lia. compare_all; try lia.
    change 4096 with (64 * 64). rewrite <-Z.div_div by lia. digits. same_bytes.
  - destruct conts as [|b1 [|b2 [|b3 [|]]]]; try done. simpl in Hf. rewrite !andb_true_iff in Hf.
    destruct Hf as (H1%first_byte & H2%later_byte & H3%later_byte & _); [|lia..].
    exists ((((lead - 240) * 64 + (b1 - 128)) * 64 + (b2 - 128)) * 64 + (b3 - 128)). split_and!; try lia. compare_all; try lia.
    change 262144 with (64 * 4096). change 4096 with (64 * 64). rewrite <-!Z.div_div by lia. digits. same_bytes.
Qed.

Lemma byte_fits_later lead index b : (1 < index)%nat -> byte_fits lead index (128 + b mod 64) = true.
Proof.
  intros Hi. apply byte_fits_true. unfold minimum_byte, maximum_byte. destruct (Nat.eqb_spec index 1); [lia|].
  pose proof (Z.mod_pos_bound b 64). lia.
Qed.

Lemma encode_sequence c : scalar c -> 128 <= c -> exists lead n conts, encode_char c = lead :: conts /\
  sequence_length lead = Some n /\ length conts = (n - 1)%nat /\ continuation_fits lead 1 conts = true.
Proof.
  intros [Hc Hs] H. unfold encode_char. destruct (Z.ltb_spec c 128); [lia|].
  destruct (Z.ltb_spec c 2048); [|destruct (Z.ltb_spec c 65536)].
  - eexists _, 2%nat, _. split_and!; [done| |done|]; [apply sequence_length_spec; left; Z.to_euclidean_division_equations; lia|].
    cbn [continuation_fits]. rewrite andb_true_r, byte_fits_true. unfold minimum_byte, maximum_byte. simpl. Z.to_euclidean_division_equations. compare_all; lia.
  - eexists _, 3%nat, _. split_and!; [done| |done|].
    { apply sequence_length_spec. right; left. Z.to_euclidean_division_equations. lia. }
    cbn [continuation_fits]. rewrite (byte_fits_later _ 2) by lia. rewrite andb_true_r, byte_fits_true. unfold minimum_byte, maximum_byte. simpl.
    Z.to_euclidean_division_equations. compare_all; lia.
  - eexists _, 4%nat, _. split_and!; [done| |done|].
    { apply sequence_length_spec. right; right. Z.to_euclidean_division_equations. lia. }
    cbn [continuation_fits]. rewrite (byte_fits_later _ 2), (byte_fits_later _ 3) by lia. rewrite andb_true_r, byte_fits_true. unfold minimum_byte, maximum_byte. simpl.
    Z.to_euclidean_division_equations. compare_all; lia.
Qed.

(** Which bytes begin a character. *)
Lemma fits_app lead index a b : continuation_fits lead index (a ++ b) = continuation_fits lead index a && continuation_fits lead (index + length a) b.
Proof.
  revert index. induction a as [|x a IH]; intros index; simpl; [by rewrite Nat.add_0_r|].
  rewrite IH, andb_assoc. by replace (S index + length a)%nat with (index + S (length a))%nat by lia.
Qed.

Lemma fits_fill lead n : continuation_fits lead 1 (take n [minimum_byte lead 1; 128; 128]) = true.
Proof.
  assert (byte_fits lead 1 (minimum_byte lead 1) = true) as H1.
  { apply byte_fits_true. unfold minimum_byte, maximum_byte. simpl. compare_all; lia. }
  destruct n as [|[|[|n]]]; cbn [take continuation_fits]; rewrite ?H1, ?take_nil; done.
Qed.

Lemma begins_sequence lead conts : 128 <= lead -> begins (lead :: conts) <->
  exists n, sequence_length lead = Some n /\ (length conts <= n - 1)%nat /\ continuation_fits lead 1 conts = true.
Proof.
  intros Hlead. split.
  - intros (c & Hc & t & Ht). destruct (Z_lt_ge_dec c 128) as [Hlt|Hge].
    { unfold encode_char in Ht. destruct (Z.ltb_spec c 128); [|lia]. injection Ht as -> _. lia. }
    destruct (encode_sequence c Hc) as (l' & n & k & E & Hn & Hl & Hf); [lia|]. rewrite E in Ht. injection Ht as -> ->.
    exists n. rewrite length_app in Hl. rewrite fits_app, andb_true_iff in Hf. split_and!; [done|lia|tauto].
  - intros (n & Hn & Hl & Hf). set (fill := drop (length conts) (take (n - 1) [minimum_byte lead 1; 128; 128])).
    destruct (complete_sequence lead n (conts ++ fill)) as (c & Hc & _ & E); [done| | |exists c; split; [done|by exists fill]].
    + unfold fill. rewrite length_app, length_drop, length_take. apply sequence_length_spec in Hn. simpl. lia.
    + rewrite fits_app, Hf. unfold fill. pose proof (fits_fill lead (n - 1)) as H.
      rewrite <-(take_drop (length conts) (take (n - 1) _)), fits_app, andb_true_iff in H. destruct H as [_ H].
      rewrite length_take_le in H; [done|]. rewrite length_take. apply sequence_length_spec in Hn. simpl. lia.
Qed.

Lemma partial_sequence lead n conts c : 128 <= lead -> sequence_length lead = Some n -> (length conts < n - 1)%nat -> scalar c ->
  lead :: conts ≠ encode_char c.
Proof.
  intros Hlead Hn Hl Hc E. destruct (Z_lt_ge_dec c 128).
  - unfold encode_char in E. destruct (Z.ltb_spec c 128); [|lia]. injection E as -> _. lia.
  - destruct (encode_sequence c Hc) as (l' & n' & k & E' & Hn' & Hl' & _); [lia|]. rewrite E' in E. injection E as -> ->.
    rewrite Hn in Hn'. injection Hn' as ->. lia.
Qed.

(** ** One iteration *)
Lemma scan_spec lead todo : forall index rest,
  match scan_sequence lead index todo rest with
  | Complete => exists a b, rest = a ++ b /\ length a = todo /\ continuation_fits lead index a = true
  | Incomplete => (length rest < todo)%nat /\ continuation_fits lead index rest = true
  | Malformed i => exists a next b, rest = a ++ next :: b /\ i = (index + length a)%nat /\ (length a < todo)%nat /\
      continuation_fits lead index a = true /\ byte_fits lead i next = false
  end.
Proof.
  induction todo as [|todo IH]; intros index rest; simpl; [by exists [], rest|].
  destruct rest as [|b rest]; simpl; [split; [lia|done]|]. destruct (byte_fits lead index b) eqn:Eb.
  - specialize (IH (S index) rest). destruct (scan_sequence lead (S index) todo rest) as [|i|].
    + destruct IH as [IH1 IH2]. split; [lia|done].
    + destruct IH as (a & next & k & -> & -> & Hl & Hf & Hn). exists (b :: a), next, k. simpl. rewrite Eb, Hf.
      rewrite Nat.add_succ_r. split_and!; done || lia.
    + destruct IH as (a & k & -> & <- & Hf). exists (b :: a), k. simpl. by rewrite Eb, Hf.
  - exists [], b, rest. rewrite Nat.add_0_r. split_and!; simpl; done || lia.
Qed.

Inductive stepped : list Z -> list Z -> list Z -> Prop :=
| step_char c rest : scalar c -> stepped (encode_char c) rest (encode_char c)
| step_byte b rest : ~ begins [b] -> stepped [b] rest kUtf8Replacement
| step_part s next rest :
    s ≠ [] -> maximal_subpart s next -> (forall c, scalar c -> s ≠ encode_char c) -> stepped s (next :: rest) kUtf8Replacement.

Lemma utf8_step_spec pending : byte_string pending ->
  match utf8_step pending with
  | None => pending ≠ [] -> begins pending /\ forall c, scalar c -> pending ≠ encode_char c
  | Some (out, n) => exists a b, pending = a ++ b /\ n = length a /\ stepped a b out
  end.
Proof.
  intros Hb. destruct pending as [|lead rest]; [done|]. apply Forall_cons in Hb as [Hlead Hb]. unfold utf8_step.
  destruct (Z.leb_spec lead 127).
  { exists [lead], rest. split_and!; try done. replace [lead] with (encode_char lead);
      [by constructor; unfold scalar; lia|]. unfold encode_char. by destruct (Z.ltb_spec lead 128); [|lia]. }
  destruct (sequence_length lead) as [n|] eqn:En.
  2:{ exists [lead], rest. split_and!; try done. constructor. rewrite begins_sequence by lia. intros (n & E & _). congruence. }
  pose proof (scan_spec lead (n - 1) 1 rest) as Hs. destruct (scan_sequence lead 1 (n - 1) rest) as [|i|].
  - intros _. destruct Hs as [Hl Hf]. split; [apply begins_sequence; [lia|]; exists n; split_and!; [done|lia|done]|].
    intros c Hc. by apply (partial_sequence _ n); [lia| | |].
  - destruct Hs as (a & next & k & -> & -> & Hl & Hf & Hn). exists (lead :: a), (next :: k). split_and!; [done|simpl; lia|].
    constructor; [done| |intros c Hc; by apply (partial_sequence _ n); [lia| | |]].
    split; [apply begins_sequence; [lia|]; exists n; split_and!; [done|lia|done]|].
    rewrite <-app_comm_cons, begins_sequence by lia. intros (n' & _ & _ & F). rewrite fits_app, Hf in F. cbn [continuation_fits andb] in F.
    by rewrite Hn in F.
  - destruct Hs as (a & k & -> & Hl & Hf). destruct (complete_sequence lead n a En Hl Hf) as (c & Hc & _ & E).
    pose proof En as En'. apply sequence_length_spec in En'.
    assert (take n (lead :: a ++ k) = encode_char c) as ->.
    { rewrite E, app_comm_cons, take_app_length'; [done|simpl; lia]. }
    exists (encode_char c), k. split_and!; [by rewrite E|rewrite E; simpl; lia|by constructor].
Qed.

(** ** The loop *)
Lemma stepped_grow a b c out : stepped a b out -> stepped a (b ++ c) out.
Proof. intros []; simpl; by constructor. Qed.

Lemma encode_char_ne c : encode_char c ≠ [].
Proof. unfold encode_char. by compare_all. Qed.

Lemma stepped_pos a b out : stepped a b out -> (0 < length a)%nat.
Proof. intros [c ? ?|? ? ?|s ? ? Hs ? ?]; simpl; [|lia|]; apply Nat.neq_0_lt_0; rewrite length_zero_iff_nil; [apply encode_char_ne|done]. Qed.

(** The decoder substitutes the maximal subparts. *)
Lemma consume_loop_spec fuel pending : byte_string pending -> (length pending <= fuel)%nat ->
  substituted pending (consume_loop fuel pending).1 (consume_loop fuel pending).2.
Proof.
  revert pending. induction fuel as [|fuel IH]; intros pending Hb Hl.
  { destruct pending; [|simpl in Hl; lia]. by constructor. }
  simpl. pose proof (utf8_step_spec pending Hb) as Hs. destruct (utf8_step pending) as [[out n]|]; [|by constructor].
  destruct Hs as (a & b & -> & -> & Hs). rewrite drop_app_length. apply Forall_app in Hb as [_ Hb].
  pose proof (stepped_pos _ _ _ Hs). rewrite length_app in Hl. specialize (IH b Hb ltac:(lia)).
  destruct (consume_loop fuel b) as [decoded kept]. simpl in IH |- *. destruct Hs as [c rest Hc|x rest Hx|s next rest Hne Hm Hc].
  - by constructor.
  - by apply (sub_byte x).
  - by constructor.
Qed.

Lemma scan_grow lead todo : forall index rest more s, scan_sequence lead index todo rest = s -> s ≠ Incomplete ->
  scan_sequence lead index todo (rest ++ more) = s.
Proof.
  induction todo as [|todo IH]; intros index rest more s; simpl; [done|]. destruct rest as [|b rest]; simpl; [by intros <-|].
  destruct (byte_fits lead index b); [apply IH|done].
Qed.

(** What an iteration does does not depend on bytes that come later. *)
Lemma utf8_step_grow pending more out n : utf8_step pending = Some (out, n) -> utf8_step (pending ++ more) = Some (out, n).
Proof.
  unfold utf8_step. destruct pending as [|lead rest]; [done|]. simpl. destruct (lead <=? 127); [done|].
  destruct (sequence_length lead) as [len|] eqn:E; [|done].
  destruct (scan_sequence lead 1 (len - 1) rest) eqn:Es; [done|by rewrite (scan_grow _ _ _ _ _ _ Es)|].
  rewrite (scan_grow _ _ _ _ _ _ Es) by done. pose proof (scan_spec lead (len - 1) 1 rest) as Hs. rewrite Es in Hs.
  destruct Hs as (a & b & -> & Hl & _). apply sequence_length_spec in E. intros [= <- <-].
  by rewrite (app_comm_cons _ more lead), take_app_le by (simpl; rewrite length_app; lia).
Qed.

Lemma utf8_step_bound pending out n : utf8_step pending = Some (out, n) -> (0 < n <= length pending)%nat.
Proof.
  unfold utf8_step. destruct pending as [|lead rest]; [done|]. destruct (lead <=? 127); [intros [= <- <-]; simpl; lia|].
  destruct (sequence_length lead) as [len|] eqn:E; [|intros [= <- <-]; simpl; lia]. apply sequence_length_spec in E.
  pose proof (scan_spec lead (len - 1) 1 rest) as Hs. destruct (scan_sequence lead 1 (len - 1) rest); [done| |].
  - destruct Hs as (a & x & b & -> & -> & Hl & _). intros [= <- <-]. simpl. rewrite length_app. simpl. lia.
  - destruct Hs as (a & b & -> & Hl & _). intros [= <- <-]. simpl. rewrite length_app. lia.
Qed.

(** The fuel is enough: more of it changes nothing. *)
Lemma consume_loop_fuel fuel pending : (length pending <= fuel)%nat -> consume_loop fuel pending = consume_generated_utf8 pending.
Proof.
  unfold consume_generated_utf8. remember (length pending) as m eqn:Em. assert (length pending <= m)%nat as Hm by lia. clear Em.
  revert fuel pending Hm. induction m as [|m IH]; intros fuel pending Hm Hf.
  { destruct pending; [|simpl in Hm; lia]. by destruct fuel. }
  destruct fuel as [|fuel]; [lia|]. simpl. destruct (utf8_step pending) as [[out n]|] eqn:E; [|done].
  apply utf8_step_bound in E. rewrite (IH fuel); [done|rewrite length_drop; lia|lia].
Qed.

Lemma consume_step pending out n : utf8_step pending = Some (out, n) ->
  consume_generated_utf8 pending = (out ++ (consume_generated_utf8 (drop n pending)).1, (consume_generated_utf8 (drop n pending)).2).
Proof.
  intros E. pose proof (utf8_step_bound _ _ _ E). unfold consume_generated_utf8 at 1. destruct (length pending) as [|m] eqn:El; [lia|].
  simpl. rewrite E, (consume_loop_fuel m) by (rewrite length_drop; lia). by destruct (consume_generated_utf8 _).
Qed.

Lemma consume_stop pending : utf8_step pending = None -> consume_generated_utf8 pending = ([], pending).
Proof. intros E. unfold consume_generated_utf8. destruct (length pending) as [|m]; simpl; [done|]. by rewrite E. Qed.

(** Decoding in two parts is decoding the whole. *)
Lemma consume_app pending more : consume_generated_utf8 (pending ++ more) =
  let '(d, kept) := consume_generated_utf8 pending in
  let '(d', kept') := consume_generated_utf8 (kept ++ more) in (d ++ d', kept').
Proof.
  remember (length pending) as m eqn:Em. assert (length pending <= m)%nat as Hm by lia. clear Em.
  revert pending Hm. induction m as [|m IH]; intros pending Hm.
  { destruct pending; [|simpl in Hm; lia]. simpl. by destruct (consume_generated_utf8 more). }
  destruct (utf8_step pending) as [[out n]|] eqn:E.
  - pose proof (utf8_step_bound _ _ _ E). rewrite (consume_step _ _ _ (utf8_step_grow _ more _ _ E)), (consume_step _ _ _ E).
    rewrite drop_app_le by lia. rewrite IH by (rewrite length_drop; lia).
    destruct (consume_generated_utf8 (drop n pending)) as [d kept]. simpl. destruct (consume_generated_utf8 (kept ++ more)).
    simpl. by rewrite app_assoc.
  - rewrite (consume_stop _ E). by destruct (consume_generated_utf8 (pending ++ more)).
Qed.

(** ** Text *)
Definition well_formed (s : list Z) : Prop := exists l, Forall scalar l /\ s = encode_text l.

Lemma well_formed_nil : well_formed [].
Proof. by exists []. Qed.

Lemma well_formed_char c s : scalar c -> well_formed s -> well_formed (encode_char c ++ s).
Proof. intros Hc (l & Hl & ->). exists (c :: l). split; [by constructor|done]. Qed.

Lemma well_formed_app s t : well_formed s -> well_formed t -> well_formed (s ++ t).
Proof.
  intros (l & Hl & ->) (k & Hk & ->). exists (l ++ k). split; [by apply Forall_app|]. unfold encode_text. by rewrite fmap_app, join_app.
Qed.

Lemma well_formed_replacement : well_formed kUtf8Replacement.
Proof. exists [65533]. split; [constructor; [unfold scalar; lia|done]|reflexivity]. Qed.

Lemma substituted_well_formed s t k : substituted s t k -> well_formed t.
Proof.
  induction 1; [apply well_formed_nil|by apply well_formed_char|apply well_formed_app; [apply well_formed_replacement|done]..].
Qed.

Lemma encode_char_length c : (length (encode_char c) <= 4)%nat.
Proof. unfold encode_char. compare_all; simpl; lia. Qed.

Lemma substituted_kept s t k : substituted s t k -> (length k <= 3)%nat.
Proof.
  induction 1 as [k Hk| | |]; try done. destruct k as [|b k]; [simpl; lia|]. destruct Hk as [(c & Hc & r & E) Hn]; [done|].
  pose proof (encode_char_length c) as Hl. rewrite E, length_app in Hl. destruct r; [|simpl in *; lia].
  rewrite app_nil_r in E. by destruct (Hn c Hc).
Qed.

Lemma utf8_step_char c rest : scalar c -> utf8_step (encode_char c ++ rest) = Some (encode_char c, length (encode_char c)).
Proof.
  intros Hc. destruct (Z_lt_ge_dec c 128) as [Hlt|Hge].
  - assert (encode_char c = [c]) as -> by (unfold encode_char; by destruct (Z.ltb_spec c 128); [|lia]). simpl.
    by destruct (Z.leb_spec c 127); [|lia].
  - destruct (encode_sequence c Hc) as (lead & n & conts & -> & Hn & Hl & Hf); [lia|]. simpl.
    pose proof Hn as Hn'. apply sequence_length_spec in Hn'. destruct (Z.leb_spec lead 127); [lia|]. rewrite Hn.
    assert (scan_sequence lead 1 (n - 1) (conts ++ rest) = Complete) as ->.
    { rewrite <-Hl. clear -Hf. revert Hf. generalize 1%nat. induction conts as [|b conts IH]; intros i Hf; [done|].
      cbn [continuation_fits] in Hf. apply andb_true_iff in Hf as [Hb Hf]. simpl. rewrite Hb. by apply IH. }
    rewrite app_comm_cons, take_app_length' by (simpl; lia). by replace n with (S (length conts)) by lia.
Qed.

Lemma consume_text l : Forall scalar l -> consume_generated_utf8 (encode_text l) = (encode_text l, []).
Proof.
  induction 1 as [|c l Hc Hl IH]; [done|]. change (encode_text (c :: l)) with (encode_char c ++ encode_text l).
  by rewrite (consume_step _ _ _ (utf8_step_char c _ Hc)), drop_app_length, IH.
Qed.

(** The decoder as the stream of tokens uses it: a chunk at a time. *)
Fixpoint decode_stream (pending : list Z) (chunks : list (list Z)) : list Z * list Z :=
  match chunks with
  | [] => ([], pending)
  | chunk :: chunks =>
      let '(text, pending) := consume_generated_utf8 (pending ++ chunk) in
      let '(more, pending) := decode_stream pending chunks in (text ++ more, pending)
  end.

Lemma consume_kept pending : utf8_step (consume_generated_utf8 pending).2 = None.
Proof.
  remember (length pending) as m eqn:Em. assert (length pending <= m)%nat as Hm by lia. clear Em.
  revert pending Hm. induction m as [|m IH]; intros pending Hm.
  { by destruct pending; [|simpl in Hm; lia]. }
  destruct (utf8_step pending) as [[out n]|] eqn:E; [|by rewrite (consume_stop _ E)].
  pose proof (utf8_step_bound _ _ _ E). rewrite (consume_step _ _ _ E). apply IH. rewrite length_drop. lia.
Qed.

Lemma decode_stream_consume chunks : forall pending, utf8_step pending = None ->
  decode_stream pending chunks = consume_generated_utf8 (pending ++ mjoin chunks).
Proof.
  induction chunks as [|chunk chunks IH]; intros pending Hp; simpl; [by rewrite app_nil_r, (consume_stop _ Hp)|].
  rewrite app_assoc, (consume_app (pending ++ chunk)). pose proof (consume_kept (pending ++ chunk)) as Hk.
  destruct (consume_generated_utf8 (pending ++ chunk)) as [d kept]. simpl in Hk. by rewrite (IH kept Hk).
Qed.

(** C14: decoding the generated bytes is exact however they are cut into tokens.  The
    text is the bytes with every maximal ill-formed subpart replaced by U+FFFD, it
    is well-formed UTF-8, at most three bytes of one begun character wait, and
    well-formed bytes come out unchanged with nothing waiting. *)
Theorem generated_utf8_exact chunks text kept : byte_string (mjoin chunks) -> decode_stream [] chunks = (text, kept) ->
  substituted (mjoin chunks) text kept /\ well_formed text /\ (length kept <= 3)%nat /\
  (well_formed (mjoin chunks) -> text = mjoin chunks /\ kept = []).
Proof.
  intros Hb E. rewrite decode_stream_consume in E by done. simpl in E.
  assert (substituted (mjoin chunks) text kept) as Hs.
  { pose proof (consume_loop_spec (length (mjoin chunks)) (mjoin chunks) Hb) as H. unfold consume_generated_utf8 in E.
    rewrite E in H. by apply H. }
  split_and!; [done|by eapply substituted_well_formed|by eapply substituted_kept|].
  intros (l & Hl & El). rewrite El, (consume_text l Hl) in E. rewrite El. by injection E as <- <-.
Qed.

(** A character cut between two tokens, a stray byte and a truncated sequence. *)
Lemma generated_utf8_exact_witness : byte_string (mjoin [[72; 226]; [130; 172]; [255; 240; 159]]) /\
  well_formed [72; 226; 130; 172; 239; 191; 189] /\ (length [240; 159] <= 3)%nat.
Proof.
  split; [repeat constructor; lia|].
  destruct (generated_utf8_exact [[72; 226]; [130; 172]; [255; 240; 159]] [72; 226; 130; 172; 239; 191; 189] [240; 159])
    as (_ & H1 & H2 & _); [repeat constructor; lia|reflexivity|by split].
Defined.

(** ** Code points of a text

    text/unicode.cpp: a text is cut into code points and a code point is classified,
    through utf8proc.  Both functions of that library are parameters. *)

(** The general categories that the classification tells apart. *)
Inductive Category : Type := LU | LL | LT | LM | LO | MN | MC | ME | ND | NL | NO | ZS | ZL | ZP | OtherCategory.

#[export] Instance Category_eq_dec : EqDecision Category.
Proof. solve_decision. Defined.

(** [utf8proc_iterate]: the length of the first sequence, or a negative error, and its
    code point. *)
Class Utf8proc : Type := {
  utf8proc_iterate : list Z -> Z * Z;
  utf8proc_category : Z -> Category;
}.

Record CodepointSpan : Type := MkSpan { cp_value : Z; cp_offset : nat; cp_length : nat }.

Section Unicode.
Context {U : Utf8proc}.

(** The loop from [offset]; every iteration consumes a byte, so as many as bytes are
    enough. *)
Fixpoint codepoints_loop (fuel offset : nat) (rest : list Z) : res (list CodepointSpan) :=
  match rest, fuel with
  | [], _ | _, O => Ok []
  | _, S fuel =>
      let '(length, codepoint) := utf8proc_iterate rest in
      throw_if (length <? 0) invalid_argument ;;
      throw_if (length =? 0) invalid_argument ;;
      let n := Z.to_nat length in
      spans ← codepoints_loop fuel (offset + n) (drop n rest);
      Ok (MkSpan codepoint offset n :: spans)
  end.

Definition utf8_codepoints (text : list Z) : res (list CodepointSpan) := codepoints_loop (length text) 0 text.

Definition is_ascii_whitespace (codepoint : Z) : bool :=
  (codepoint =? 32) || (codepoint =? 9) || (codepoint =? 10) || (codepoint =? 13) || (codepoint =? 11) || (codepoint =? 12).

Definition is_letter (codepoint : Z) : bool := match utf8proc_category codepoint with LU | LL | LT | LM | LO => true | _ => false end.
Definition is_mark (codepoint : Z) : bool := match utf8proc_category codepoint with MN | MC | ME => true | _ => false end.
Definition is_number (codepoint : Z) : bool := match utf8proc_category codepoint with ND | NL | NO => true | _ => false end.
Definition is_whitespace (codepoint : Z) : bool :=
  is_ascii_whitespace codepoint || match utf8proc_category codepoint with ZS | ZL | ZP => true | _ => false end.

(** ** The spans tile the text *)

(** What utf8proc documents: the sequence it decodes lies in the text. *)
Definition iterates_inside : Prop := forall text, (utf8proc_iterate text).1 <= Z.of_nat (length text).

Fixpoint tiles (offset : nat) (spans : list CodepointSpan) (end_ : nat) : Prop :=
  match spans with
  | [] => offset = end_
  | x :: spans => cp_offset x = offset /\ (0 < cp_length x)%nat /\ tiles (offset + cp_length x) spans end_
  end.

Lemma codepoints_loop_tiles fuel offset rest spans : iterates_inside -> (length rest <= fuel)%nat -> codepoints_loop fuel offset rest = Ok spans ->
  tiles offset spans (offset + length rest).
Proof.
  intros Hin. revert offset rest spans. induction fuel as [|fuel IH]; intros offset rest spans Hl E.
  { destruct rest; [|simpl in Hl; lia]. injection E as <-. simpl. lia. }
  destruct rest as [|b rest]; [injection E as <-; simpl; lia|]. cbn [codepoints_loop] in E.
  pose proof (Hin (b :: rest)) as Hb. destruct (utf8proc_iterate (b :: rest)) as [n cp]. cbn [fst] in Hb.
  destruct (Z.ltb_spec n 0); [done|]. destruct (Z.eqb_spec n 0); [done|]. cbn [throw_if mbind res_bind] in E.
  destruct (codepoints_loop fuel _ _) as [spans'|] eqn:E'; [|done]. injection E as <-. simpl cp_offset. simpl cp_length.
  apply IH in E' as H'; [|rewrite length_drop; simpl in *; lia]. rewrite length_drop in H'.
  simpl. split_and!; [done|lia|]. replace (offset + S (length rest))%nat with (offset + Z.to_nat n + (length (b :: rest) - Z.to_nat n))%nat; [done|simpl in *; lia].
Qed.

(** Every byte belongs to one span, in order. *)
Lemma utf8_codepoints_tiles text spans : iterates_inside -> utf8_codepoints text = Ok spans -> tiles 0 spans (length text).
Proof. intros Hin E. by apply (codepoints_loop_tiles (length text) 0 text). Qed.

End Unicode.
