(* ===== verification/OutputSession.v ===== *)
(** * The output session

    [OutputSession] of targets/qwen3_6/impl/frontend/frontend.cpp: the bytes of the
    generated tokens become published text.  A session decodes UTF-8, splits
    reasoning from content at [</think>], holds back what could be the beginning of a
    marker or of a stop string, cuts the output at the first stop string, and
    withholds tool calls.  A round of tokens is first previewed, then committed or
    discarded.

    [Tokenizer] and [Matcher] are what a session uses of the tokenizer and of the
    grammar library; [decode_call] is [TokenGrammarData::decode_call], a parser over the
    same library.  [preview_state], [preview_output], [preview_channels] and
    [preview_tools] mean something only while [preview_ready] holds, so they are one
    optional value here.  Text is a list of bytes. *)

From stdpp Require Import prelude functions list list_numbers.
From Stdlib Require Import ZArith Lia.
From S2P Require Import Prelude Capacity ExecState Utf8.
#[local] Open Scope Z_scope.

(** ** Searching text *)
Definition starts_with (needle s : list Z) : bool := bool_decide (needle `prefix_of` s).

(** [std::string::find] *)
Fixpoint text_find (needle s : list Z) : option nat :=
  if starts_with needle s then Some 0%nat
  else match s with [] => None | _ :: s => S <$> text_find needle s end.

(** [find(needle, pos)] *)
Definition text_find_from (needle s : list Z) (pos : nat) : option nat := Nat.add pos <$> text_find needle (drop pos s).

Definition last_bytes (n : nat) (s : list Z) : list Z := drop (length s - n) s.

(** The loop of [longest_suffix_prefix], from [size] down. *)
Fixpoint suffix_prefix_loop (s marker : list Z) (allow_complete : bool) (size : nat) : nat :=
  match size with
  | O => O
  | S n =>
      if negb allow_complete && (size =? length marker)%nat then suffix_prefix_loop s marker allow_complete n
      else if bool_decide (last_bytes size s = take size marker) then size
      else suffix_prefix_loop s marker allow_complete n
  end.

Definition longest_suffix_prefix (s marker : list Z) (allow_complete : bool) : nat :=
  suffix_prefix_loop s marker allow_complete (Nat.min (length s) (length marker)).

(** [std::isspace] in the C locale. *)
Definition isspace (b : Z) : bool := ((9 <=? b) && (b <=? 13)) || (b =? 32).
Definition blank (s : list Z) : bool := forallb isspace s.

(** ** Markers *)
Definition kThinkClose : list Z := [60; 47; 116; 104; 105; 110; 107; 62].
Definition kToolOpen : list Z := [60; 116; 111; 111; 108; 95; 99; 97; 108; 108; 62].
Definition kToolClose : list Z := [60; 47; 116; 111; 111; 108; 95; 99; 97; 108; 108; 62].
(** [<tool_call] *)
Definition tool_trigger : list Z := [60; 116; 111; 111; 108; 95; 99; 97; 108; 108].

(** ** Published output

    At most two deltas; a third throws. *)
Definition PublishedOutput : Type := list OutputDelta.

Definition push_back (o : PublishedOutput) (d : OutputDelta) : res PublishedOutput :=
  throw_if (length o =? 2)%nat logic_error ;; Ok (o ++ [d]).

Fixpoint extend_last (o : PublishedOutput) (t : list Z) : PublishedOutput :=
  match o with
  | [] => []
  | [d] => [MkDelta (channel d) (text d ++ t)]
  | d :: o => d :: extend_last o t
  end.

Definition append_delta (o : PublishedOutput) (ch : OutputChannel) (t : list Z) : res PublishedOutput :=
  if bool_decide (t = []) then Ok o
  else
    match last o with
    | Some d => if bool_decide (channel d = ch) then Ok (extend_last o t) else push_back o (MkDelta ch t)
    | None => push_back o (MkDelta ch t)
    end.

(** ** The decoder *)
Record Stop_String : Type := MkStop { stop_text : list Z; stop_channel : OutputChannel; include_in_output : bool }.

Record StopPolicy : Type := MkPolicy {
  token_ids : list Z;
  strings : list Stop_String;
  include_model_defaults : bool;
  publish_stop_token : bool;
}.

Record DecoderState : Type := MkDecoder {
  utf8_pending : list Z;
  think_marker_pending : list Z;
  stop_pending : OutputChannel -> list Z;
  in_reasoning : bool;
  constrained_content : bool;
  strip_content_leading : bool;
  terminal : bool;
  require_initial_content : bool;
  has_non_whitespace_content : bool;
  in_tool_call : bool;
  tool_marker_pending : list Z;
  decoded_bytes : Z;
  reasoning_tokens : Z;
}.

Definition eta_DecoderState (s : DecoderState) : DecoderState :=
  MkDecoder (utf8_pending s) (think_marker_pending s) (stop_pending s) (in_reasoning s) (constrained_content s)
    (strip_content_leading s) (terminal s) (require_initial_content s) (has_non_whitespace_content s) (in_tool_call s)
    (tool_marker_pending s) (decoded_bytes s) (reasoning_tokens s).

Definition set_utf8_pending (v : list Z) (s : DecoderState) : DecoderState := ltac:(update (eta_DecoderState s) (utf8_pending s) v).
Definition set_think_marker_pending (v : list Z) (s : DecoderState) : DecoderState := ltac:(update (eta_DecoderState s) (think_marker_pending s) v).
Definition set_stop_pending (v : OutputChannel -> list Z) (s : DecoderState) : DecoderState := ltac:(update (eta_DecoderState s) (stop_pending s) v).
Definition set_in_reasoning (v : bool) (s : DecoderState) : DecoderState := ltac:(update (eta_DecoderState s) (in_reasoning s) v).
Definition set_strip_content_leading (v : bool) (s : DecoderState) : DecoderState := ltac:(update (eta_DecoderState s) (strip_content_leading s) v).
Definition set_terminal (v : bool) (s : DecoderState) : DecoderState := ltac:(update (eta_DecoderState s) (terminal s) v).
Definition set_has_content (v : bool) (s : DecoderState) : DecoderState := ltac:(update (eta_DecoderState s) (has_non_whitespace_content s) v).
Definition set_in_tool_call (v : bool) (s : DecoderState) : DecoderState := ltac:(update (eta_DecoderState s) (in_tool_call s) v).
Definition set_tool_marker_pending (v : list Z) (s : DecoderState) : DecoderState := ltac:(update (eta_DecoderState s) (tool_marker_pending s) v).
Definition set_decoded_bytes (v : Z) (s : DecoderState) : DecoderState := ltac:(update (eta_DecoderState s) (decoded_bytes s) v).
Definition set_reasoning_tokens (v : Z) (s : DecoderState) : DecoderState := ltac:(update (eta_DecoderState s) (reasoning_tokens s) v).

Definition suppress_reasoning_end (s : DecoderState) (raw grammar_managed : bool) : bool :=
  negb raw && negb (in_reasoning s) && negb grammar_managed.

(** The loop of [track_structured_content]; a marker is removed in every iteration but
    the last, so as many iterations as bytes are enough. *)
Fixpoint track_markers (fuel : nat) (in_call : bool) (pending : list Z) : bool * list Z :=
  let marker := if in_call then kToolClose else kToolOpen in
  match text_find marker pending, fuel with
  | Some at_, S fuel => track_markers fuel (negb in_call) (drop (at_ + length marker) pending)
  | _, _ => (in_call, last_bytes (longest_suffix_prefix pending marker false) pending)
  end.

Definition track_structured_content (s : DecoderState) (t : list Z) (tool_output_enabled : bool) : DecoderState :=
  if bool_decide (t = []) then s
  else
    let s := if negb (has_non_whitespace_content s) then set_has_content (negb (blank t)) s else s in
    if negb tool_output_enabled then s
    else
      let pending := tool_marker_pending s ++ t in
      let '(in_call, pending) := track_markers (length pending) (in_tool_call s) pending in
      set_in_tool_call in_call (set_tool_marker_pending pending s).

Definition has_ambiguous_tool_marker (s : DecoderState) (tool_output_enabled : bool) : bool :=
  if negb tool_output_enabled || in_tool_call s then false else negb (bool_decide (tool_marker_pending s = [])).

Definition in_tool_region (s : DecoderState) (tool_output_enabled : bool) : bool :=
  in_tool_call s || has_ambiguous_tool_marker s tool_output_enabled.

Definition model_stop_allowed (s : DecoderState) (raw tool_output_enabled : bool) : bool :=
  if raw then true
  else if in_reasoning s then false
  else if require_initial_content s && negb (has_non_whitespace_content s) then false
  else negb (in_tool_region s tool_output_enabled).

(** ** Stop strings *)
Record StopMatch : Type := MkMatch {
  committed_tokens : Z;
  byte_cut : Z;
  declaration_order : Z;
  match_output : PublishedOutput;
}.

(** [None]: nothing was found yet. *)
Definition stop_match_precedes (committed cut order : Z) (current : option StopMatch) : bool :=
  match current with
  | None => true
  | Some m =>
      if negb (committed =? committed_tokens m) then committed <? committed_tokens m
      else if negb (cut =? byte_cut m) then cut <? byte_cut m
      else order <? declaration_order m
  end.

Definition on_channel (ch : OutputChannel) (p : StopPolicy) : list Stop_String :=
  filter (fun stop => stop_channel stop = ch) (strings p).

Definition stop_hold_size (s : list Z) (ch : OutputChannel) (p : StopPolicy) : nat :=
  foldl (fun hold stop => Nat.max hold (longest_suffix_prefix s (stop_text stop) false)) 0%nat (on_channel ch p).

(** The search over the declarations, from number [order] on. *)
Fixpoint search_stops (ch : OutputChannel) (combined : list Z) (start committed : Z) (emitted : PublishedOutput)
    (stops : list Stop_String) (order : Z) (best : option StopMatch) : res (option StopMatch) :=
  match stops with
  | [] => Ok best
  | stop :: stops =>
      if negb (bool_decide (stop_channel stop = ch)) then search_stops ch combined start committed emitted stops (order + 1) best
      else
        match text_find (stop_text stop) combined with
        | None => search_stops ch combined start committed emitted stops (order + 1) best
        | Some found =>
            let cut := start + Z.of_nat found in
            if negb (stop_match_precedes committed cut order best)
            then search_stops ch combined start committed emitted stops (order + 1) best
            else
              candidate ← append_delta emitted ch (take found combined);
              candidate ← (if include_in_output stop then append_delta candidate ch (stop_text stop) else Ok candidate);
              search_stops ch combined start committed emitted stops (order + 1) (Some (MkMatch committed cut order candidate))
        end
  end.

(** What feeding text threads through: the state, the output and the best match.
    [detect] is whether the caller passed a match to fill. *)
Definition Fed : Type := DecoderState * PublishedOutput * option StopMatch.

Definition feed_channel (ch : OutputChannel) (t : list Z) (p : StopPolicy) (committed : Z) (detect : bool) (f : Fed) : res Fed :=
  let '(s, emitted, best) := f in
  if bool_decide (t = []) then Ok f
  else if bool_decide (on_channel ch p = []) then
    emitted ← append_delta emitted ch t;
    Ok (set_decoded_bytes (decoded_bytes s + Z.of_nat (length t)) s, emitted, best)
  else
    let combined := stop_pending s ch ++ t in
    let start := decoded_bytes s - Z.of_nat (length (stop_pending s ch)) in
    best ← (if detect then search_stops ch combined start committed emitted (strings p) 0 best else Ok best);
    let hold := stop_hold_size combined ch p in
    emitted ← append_delta emitted ch (take (length combined - hold) combined);
    Ok (set_decoded_bytes (decoded_bytes s + Z.of_nat (length t))
          (set_stop_pending (<[ch := last_bytes hold combined]> (stop_pending s)) s), emitted, best).

Definition close_channel (ch : OutputChannel) (f : Fed) : res Fed :=
  let '(s, emitted, best) := f in
  emitted ← append_delta emitted ch (stop_pending s ch);
  Ok (set_stop_pending (<[ch := []]> (stop_pending s)) s, emitted, best).

Fixpoint strip_leading (t : list Z) : list Z :=
  match t with [] => [] | b :: r => if isspace b then strip_leading r else t end.

Definition feed_content (t : list Z) (p : StopPolicy) (committed : Z) (detect tool_output_enabled : bool) (f : Fed) : res Fed :=
  let '(s, emitted, best) := f in
  let stripped := if strip_content_leading s then strip_leading t else t in
  let s := if strip_content_leading s && negb (bool_decide (stripped = [])) then set_strip_content_leading false s else s in
  let s := track_structured_content s stripped tool_output_enabled in
  feed_channel Content stripped p committed detect (s, emitted, best).

Definition feed_decoded_text (t : list Z) (p : StopPolicy) (committed : Z) (detect tool_output_enabled : bool) (f : Fed) : res Fed :=
  let '(s, emitted, best) := f in
  if negb (in_reasoning s) then feed_content t p committed detect tool_output_enabled f
  else
    let pending := think_marker_pending s ++ t in
    match text_find kThinkClose pending with
    | Some marker =>
        f ← feed_channel Reasoning (take marker pending) p committed detect (set_think_marker_pending pending s, emitted, best);
        f ← close_channel Reasoning f;
        let '(s, emitted, best) := f in
        let s := set_strip_content_leading (negb (constrained_content s)) (set_in_reasoning false (set_think_marker_pending [] s)) in
        feed_content (drop (marker + length kThinkClose) pending) p committed detect tool_output_enabled (s, emitted, best)
    | None =>
        let hold := longest_suffix_prefix pending kThinkClose true in
        f ← feed_channel Reasoning (take (length pending - hold) pending) p committed detect
              (set_think_marker_pending pending s, emitted, best);
        let '(s, emitted, best) := f in
        Ok (set_think_marker_pending (last_bytes hold pending) s, emitted, best)
    end.

Definition feed_token_bytes (b : list Z) (p : StopPolicy) (committed : Z) (detect tool_output_enabled : bool) (f : Fed) : res Fed :=
  let '(s, emitted, best) := f in
  let '(t, pending) := consume_generated_utf8 (utf8_pending s ++ b) in
  let s := set_utf8_pending pending s in
  if bool_decide (t = []) then Ok (s, emitted, best)
  else feed_decoded_text t p committed detect tool_output_enabled (s, emitted, best).

Definition no_pending : OutputChannel -> list Z := fun _ => [].

Definition terminalize (s : DecoderState) (emitted : PublishedOutput) (p : StopPolicy) (committed : Z) (tool_output_enabled : bool)
    : res (DecoderState * PublishedOutput) :=
  f ← (if bool_decide (utf8_pending s = []) then Ok (s, emitted, None)
       else feed_decoded_text kUtf8Replacement p committed false tool_output_enabled (set_utf8_pending [] s, emitted, None));
  let '(s, emitted, best) := f in
  f ← (if in_reasoning s then
         f ← feed_channel Reasoning (think_marker_pending s) p committed false (s, emitted, best);
         let '(s, emitted, best) := f in
         close_channel Reasoning (set_think_marker_pending [] s, emitted, best)
       else close_channel Content (s, emitted, best));
  let '(s, emitted, _) := f in
  Ok (set_terminal true (set_stop_pending no_pending s), emitted).

Definition terminal_state (s : DecoderState) : DecoderState :=
  set_terminal true (set_stop_pending no_pending (set_think_marker_pending [] (set_utf8_pending [] s))).

(** ** Collaborators *)

(** What a session uses of [frontend_internal::Tokenizer]. *)
Class Tokenizer : Type := {
  is_valid_token : Z -> bool;
  decode_token_bytes : Z -> bool -> res (list Z);
}.

(** [xgrammar::GrammarMatcher]: [AcceptToken] and copying. *)
Class Matcher : Type := {
  GrammarMatcher : Type;
  AcceptToken : Z -> GrammarMatcher -> option GrammarMatcher;
}.

(** ** Tool calls *)
Section Session.
Context {Tok : Tokenizer} {Mat : Matcher} {ToolCall : Type}.

(** [TokenGrammarData]: whether it declares tools, and the parser of a call. *)
Record TokenGrammarData : Type := MkGrammar { has_definitions : bool; decode_call : list Z -> option ToolCall }.

(** [ToolPublication::calls] and [pending]. *)
Record ToolPublication : Type := MkTools { tool_pending : list Z; calls : list ToolCall }.

(** The first close that ends a call that parses: the loop over the closes, from the
    one at or after [pos]. *)
Fixpoint complete_call (fuel : nat) (g : TokenGrammarData) (pending : list Z) (pos : nat) : option (ToolCall * nat) :=
  match fuel with
  | O => None
  | S fuel =>
      match text_find_from kToolClose pending pos with
      | None => None
      | Some close =>
          let end_ := (close + length kToolClose)%nat in
          match decode_call g (take end_ pending) with
          | Some call => Some (call, end_)
          | None => complete_call fuel g pending end_
          end
      end
  end.

Definition separator (calls : list ToolCall) (s : list Z) : bool := negb (bool_decide (length calls = 0%nat)) && blank s.

(** The loop over the calls in [pending], after a content delta.  Every iteration but
    the last removes a call. *)
Fixpoint filter_calls (fuel : nat) (g : TokenGrammarData) (last_round : bool) (visible : PublishedOutput) (t : ToolPublication)
    : res (PublishedOutput * ToolPublication) :=
  let pending := tool_pending t in
  match text_find kToolOpen pending with
  | None =>
      if separator (calls t) pending then Ok (visible, MkTools (if last_round then [] else pending) (calls t))
      else
        let suffix := longest_suffix_prefix pending kToolOpen false in
        let hold := if negb last_round || (suffix =? length kToolOpen - 1)%nat then suffix else 0%nat in
        visible ← append_delta visible Content (take (length pending - hold) pending);
        Ok (visible, MkTools (last_bytes hold pending) (calls t))
  | Some open =>
      visible ← (if separator (calls t) (take open pending) then Ok visible
                 else append_delta visible Content (take open pending));
      let pending := drop open pending in
      match complete_call (length pending) g pending 0, fuel with
      | Some (call, end_), S fuel => filter_calls fuel g last_round visible (MkTools (drop end_ pending) (calls t ++ [call]))
      | _, _ => Ok (visible, MkTools pending (calls t))
      end
  end.

Fixpoint filter_deltas (g : TokenGrammarData) (last_round : bool) (output visible : PublishedOutput) (t : ToolPublication)
    : res (PublishedOutput * ToolPublication) :=
  match output with
  | [] => Ok (visible, t)
  | d :: output =>
      match channel d with
      | Reasoning =>
          visible ← append_delta visible Reasoning (text d);
          filter_deltas g last_round output visible t
      | Content =>
          let pending := tool_pending t ++ text d in
          '(visible, t) ← filter_calls (length pending) g last_round visible (MkTools pending (calls t));
          filter_deltas g last_round output visible t
      end
  end.

Definition filter_tools (output : PublishedOutput) (g : TokenGrammarData) (last_round : bool) (t : ToolPublication)
    : res (PublishedOutput * ToolPublication) :=
  '(visible, t) ← filter_deltas g last_round output [] t;
  if negb last_round then Ok (visible, t)
  else
    visible ← (if negb (starts_with tool_trigger (tool_pending t)) && negb (separator (calls t) (tool_pending t))
               then append_delta visible Content (tool_pending t) else Ok visible);
    Ok (visible, MkTools [] (calls t)).

(** ** Grammar state: [TokenGrammarState] *)
Record TokenGrammarState : Type := MkGrammarState {
  ignored_model_stops : list Z;
  committed_matcher : GrammarMatcher;
  preview_matcher : option GrammarMatcher;
}.

(** A model stop the caller disabled is probed on a copy. *)
Definition grammar_accept (ignored : list Z) (m : GrammarMatcher) (token : Z) : option GrammarMatcher :=
  if bool_decide (token ∈ ignored) then (fun _ => m) <$> AcceptToken token m else AcceptToken token m.

Fixpoint grammar_accept_all (ignored : list Z) (m : GrammarMatcher) (tokens : list Z) : option GrammarMatcher :=
  match tokens with
  | [] => Some m
  | token :: tokens => m ← grammar_accept ignored m token; grammar_accept_all ignored m tokens
  end.

Definition grammar_preview (tokens : list Z) (g : TokenGrammarState) : res TokenGrammarState :=
  throw_if (bool_decide (is_Some (preview_matcher g))) logic_error ;;
  match grammar_accept_all (ignored_model_stops g) (committed_matcher g) tokens with
  | None => Throw logic_error
  | Some m => Ok (MkGrammarState (ignored_model_stops g) (committed_matcher g) (Some m))
  end.

Definition grammar_commit (g : TokenGrammarState) : res TokenGrammarState :=
  match preview_matcher g with
  | None => Throw aborted
  | Some m => Ok (MkGrammarState (ignored_model_stops g) m None)
  end.

Definition grammar_discard (g : TokenGrammarState) : TokenGrammarState :=
  MkGrammarState (ignored_model_stops g) (committed_matcher g) None.

(** ** The session: [OutputSession::Impl] *)
Record Preview : Type := MkPreview {
  preview_state : DecoderState;
  preview_output : PublishedOutput;
  preview_channels : list (option OutputChannel);
  preview_tools : ToolPublication;
}.

Record OutputSession : Type := MkSession {
  policy : StopPolicy;
  model_stop_tokens : list Z;
  preserve_special : bool;
  preserve_model_stops : bool;
  raw : bool;
  tool_output_enabled : bool;
  reasoning_end_token : Z;
  state : DecoderState;
  preview_of : option Preview;
  grammar_data : option TokenGrammarData;
  token_grammar : option TokenGrammarState;
  tools : ToolPublication;
}.

Definition with_preview (v : option Preview) (g : option TokenGrammarState) (s : OutputSession) : OutputSession :=
  MkSession (policy s) (model_stop_tokens s) (preserve_special s) (preserve_model_stops s) (raw s) (tool_output_enabled s)
    (reasoning_end_token s) (state s) v (grammar_data s) g (tools s).

(** The constructor of [Impl]; [matcher] is the one the grammar compiled to. *)
Definition make_session (p : StopPolicy) (raw preserve_special_tokens starts_in_reasoning tool_output_enabled : bool)
    (reasoning_end_token : Z) (model_stop_tokens : list Z) (grammar : option (TokenGrammarData * GrammarMatcher)) : OutputSession :=
  let in_reasoning := starts_in_reasoning && negb raw in
  let constrained := match grammar with Some (g, _) => negb (has_definitions g) | None => false end in
  let require_initial := negb raw && (in_reasoning || tool_output_enabled) && negb constrained in
  MkSession p model_stop_tokens (raw || preserve_special_tokens || constrained) (raw || preserve_special_tokens) raw
    tool_output_enabled reasoning_end_token
    (MkDecoder [] [] no_pending in_reasoning constrained false false require_initial false false [] 0 0) None (fst <$> grammar)
    ((fun g => MkGrammarState (filter (fun t => t ∉ token_ids p) model_stop_tokens) (snd g) None) <$> grammar) (MkTools [] []).

Definition filters_tools (s : OutputSession) : option TokenGrammarData :=
  match grammar_data s with
  | Some g => if has_definitions g && negb (raw s) then Some g else None
  | None => None
  end.

(** The lambda [complete]: [tokens] are the accepted ones. *)
Definition complete_preview (st : DecoderState) (output : PublishedOutput) (channels : list (option OutputChannel)) (tokens : list Z)
    (reason : FinishReason) (reject : bool) (s : OutputSession) : res (OutputDecision * OutputSession) :=
  let count := length tokens in
  grammar ← match token_grammar s with Some g => g ← grammar_preview tokens g; Ok (Some g) | None => Ok None end;
  '(output, t) ← match filters_tools s with
                 | Some g => filter_tools output g (negb (bool_decide (reason = FinishNone))) (tools s)
                 | None => Ok (output, tools s)
                 end;
  Ok (MkDecision (Z.of_nat count) reason reject, with_preview (Some (MkPreview st output (take count channels) t)) grammar s).

(** What one token adds to [preview_channels]. *)
Definition token_channel (s : OutputSession) (b : list Z) (hidden : bool) (before after : DecoderState) : option OutputChannel :=
  if bool_decide (b = []) || hidden then None
  else if in_reasoning before then if in_reasoning after then Some Reasoning else None
  else if negb (in_tool_region before (tool_output_enabled s)) && negb (in_tool_region after (tool_output_enabled s))
          && negb (strip_content_leading before && strip_content_leading after)
  then Some Content else None.

Definition grammar_managed (s : OutputSession) : bool := bool_decide (is_Some (grammar_data s)).

(** The loop of [preview]: [done_] are the tokens taken so far, [rest] those to come. *)
Fixpoint preview_loop (s : OutputSession) (budget : Z) (limit : FinishReason) (blocked : bool) (st : DecoderState) (output : PublishedOutput)
    (channels : list (option OutputChannel)) (saw_tool_region : bool) (done_ rest : list Z) : res (OutputDecision * OutputSession) :=
  match rest with
  | [] =>
      let count := Z.of_nat (length done_) in
      if count =? budget then
        '(st, output) ← terminalize st output (policy s) count (tool_output_enabled s);
        complete_preview st output channels done_ limit false s
      else complete_preview st output channels done_ FinishNone false s
  | token :: rest =>
      throw_if (negb (is_valid_token token)) out_of_range ;;
      throw_if (suppress_reasoning_end st (raw s) (grammar_managed s) && (token =? reasoning_end_token s)) logic_error ;;
      let st := if in_reasoning st then set_reasoning_tokens (reasoning_tokens st + 1) st else st in
      let stop_token := bool_decide (token ∈ token_ids (policy s)) in
      let model_stop := bool_decide (token ∈ model_stop_tokens s) in
      if model_stop && negb (model_stop_allowed st (raw s) (tool_output_enabled s))
      then complete_preview (state s) [] [] [] FinishNone true s
      else
        let taken := done_ ++ [token] in
        let count := Z.of_nat (length taken) in
        b ← decode_token_bytes token (negb (preserve_special s) || (model_stop && negb (preserve_model_stops s)));
        '(after, output', best) ← feed_token_bytes b (policy s) count true (tool_output_enabled s) (st, output, None);
        let hidden := stop_token && negb (publish_stop_token (policy s)) in
        let channels := channels ++ [token_channel s b hidden st after] in
        match best with
        | Some m => complete_preview (terminal_state after) (match_output m) channels taken StopString false s
        | None =>
            if stop_token then
              '(st, output) ← (if hidden then terminalize st output (policy s) count (tool_output_enabled s)
                               else terminalize after output' (policy s) count (tool_output_enabled s));
              complete_preview st output channels taken StopToken false s
            else if xorb (suppress_reasoning_end st (raw s) (grammar_managed s)) (suppress_reasoning_end after (raw s) (grammar_managed s))
                    && negb (bool_decide (rest = []))
            then complete_preview after output' channels taken FinishNone false s
            else
              let saw := saw_tool_region || in_tool_region after (tool_output_enabled s) in
              if blocked && saw && model_stop_allowed after (raw s) (tool_output_enabled s) && negb (bool_decide (rest = []))
              then complete_preview after output' channels taken FinishNone false s
              else preview_loop s budget limit blocked after output' channels saw taken rest
        end
  end.

(** An exception leaves the session as it was: the preview is not ready. *)
Definition preview (tokens : list Z) (budget_remaining : Z) (limit : FinishReason) : st OutputSession OutputDecision := fun s =>
  let result :=
    throw_if (terminal (state s)) logic_error ;;
    throw_if (bool_decide (is_Some (preview_of s))) logic_error ;;
    throw_if (bool_decide (tokens = [])) invalid_argument ;;
    throw_if (budget_remaining <? Z.of_nat (length tokens)) invalid_argument ;;
    throw_if (negb (bool_decide (limit = OutputLimit)) && negb (bool_decide (limit = ContextCapacity))) invalid_argument ;;
    preview_loop s budget_remaining limit (negb (model_stop_allowed (state s) (raw s) (tool_output_enabled s))) (state s) [] []
      (in_tool_region (state s) (tool_output_enabled s)) [] tokens in
  match result with Ok (d, s') => (Ok d, s') | Throw e => (Throw e, s) end.

Definition preview_terminal (reason : FinishReason) : st OutputSession OutputDecision := fun s =>
  let result :=
    throw_if (terminal (state s)) logic_error ;;
    throw_if (bool_decide (is_Some (preview_of s))) logic_error ;;
    throw_if (bool_decide (reason = FinishNone) || bool_decide (reason = StopString) || bool_decide (reason = StopToken))
      invalid_argument ;;
    '(st, output) ← terminalize (state s) [] (policy s) 0 (tool_output_enabled s);
    complete_preview st output [] [] reason false s in
  match result with Ok (d, s') => (Ok d, s') | Throw e => (Throw e, s) end.

Definition preview_token_channels (s : OutputSession) : list (option OutputChannel) :=
  match preview_of s with Some p => preview_channels p | None => [] end.

Definition commit_preview : st OutputSession PublishedOutput := fun s =>
  match preview_of s with
  | None => (Throw aborted, s)
  | Some p =>
      match (match token_grammar s with Some g => g ← grammar_commit g; Ok (Some g) | None => Ok None end) with
      | Throw e => (Throw e, s)
      | Ok g =>
          (Ok (preview_output p),
           MkSession (policy s) (model_stop_tokens s) (preserve_special s) (preserve_model_stops s) (raw s) (tool_output_enabled s)
             (reasoning_end_token s) (preview_state p) None (grammar_data s) g
             (match filters_tools s with Some _ => preview_tools p | None => tools s end))
      end
  end.

Definition discard_preview : st OutputSession unit := fun s =>
  match preview_of s with
  | None => (Throw aborted, s)
  | Some p => (Ok tt, with_preview None (grammar_discard <$> token_grammar s) s)
  end.

Definition model_stop_tokens_allowed (s : OutputSession) : bool := model_stop_allowed (state s) (raw s) (tool_output_enabled s).

Definition suppressed_reasoning_end_token (s : OutputSession) : option Z :=
  if suppress_reasoning_end (state s) (raw s) (grammar_managed s) then Some (reasoning_end_token s) else None.

Definition reasoning_cycle_exclusion_allowed (token : Z) (s : OutputSession) : res bool :=
  if negb (in_reasoning (state s)) || raw s || (token <? 0) then Ok false
  else if bool_decide (token ∈ model_stop_tokens s) then Ok false
  else
    b ← decode_token_bytes token false;
    let candidate := think_marker_pending (state s) ++ b in
    Ok (bool_decide (text_find kThinkClose candidate = None) && (longest_suffix_prefix candidate kThinkClose true =? 0)%nat).

End Session.

(** ** Stop policies and the making of a session

    [merge_stop_policy] joins the model's defaults and the caller's stops,
    [make_output_session] makes the session of a prepared prompt, and
    [unconstrained_tool_call_names] reads the names of the calls in a text. *)

#[export] Instance Stop_String_eq_dec : EqDecision Stop_String.
Proof. solve_decision. Defined.

(** ** Merging *)
Section Policy.
Context {U : Utf8proc} {Tok : Tokenizer}.

(** The lambda [append_token]. *)
Definition append_token (token : Z) (ids : list Z) : res (list Z) :=
  throw_if (negb (is_valid_token token)) invalid_argument ;;
  Ok (if bool_decide (token ∈ ids) then ids else ids ++ [token]).

Fixpoint append_tokens (tokens ids : list Z) : res (list Z) :=
  match tokens with
  | [] => Ok ids
  | token :: tokens => ids ← append_token token ids; append_tokens tokens ids
  end.

(** Two stops with the same text, channel and inclusion are equal. *)
Fixpoint append_strings (stops result : list Stop_String) : res (list Stop_String) :=
  match stops with
  | [] => Ok result
  | stop :: stops =>
      throw_if (bool_decide (stop_text stop = [])) invalid_argument ;;
      _ ← utf8_codepoints (stop_text stop);
      append_strings stops (if bool_decide (stop ∈ result) then result else result ++ [stop])
  end.

Definition merge_stop_policy (default_stop_token_ids : list Z) (caller : StopPolicy) : res StopPolicy :=
  ids ← (if include_model_defaults caller then append_tokens default_stop_token_ids [] else Ok []);
  ids ← append_tokens (token_ids caller) ids;
  strings ← append_strings (strings caller) [];
  Ok (MkPolicy ids strings true (publish_stop_token caller)).

(** ** Making a session *)
Record OutputOptions : Type := MkOutputOptions { options_raw : bool; preserve_special_tokens : bool }.

Context {Mat : Matcher} {ToolCall : Type}.

(** What a session takes from [PreparedPromptData]. *)
Record PromptOutput : Type := MkPromptOutput {
  starts_in_reasoning : bool;
  prompt_tool_output : bool;
  prompt_grammar : option (@TokenGrammarData ToolCall * GrammarMatcher);
}.

(** [default_stop_token_ids] and [end_token] are the frontend's; [None] is an empty
    prompt. *)
Definition make_output_session (default_stop_token_ids : list Z) (end_token : Z) (prompt : option PromptOutput) (caller_stop : StopPolicy)
    (output : OutputOptions) : res (@OutputSession Mat ToolCall) :=
  match prompt with
  | None => Throw invalid_argument
  | Some prompt =>
      policy ← merge_stop_policy default_stop_token_ids caller_stop;
      let policy :=
        if options_raw output then MkPolicy (token_ids policy) (strings policy) (include_model_defaults policy) true else policy in
      Ok (make_session policy (options_raw output) (preserve_special_tokens output) (starts_in_reasoning prompt) (prompt_tool_output prompt)
            end_token default_stop_token_ids (prompt_grammar prompt))
  end.

End Policy.

(** ** Names of tool calls *)
Definition function_open : list Z := [60; 102; 117; 110; 99; 116; 105; 111; 110; 61].
Definition function_close : list Z := [60; 47; 102; 117; 110; 99; 116; 105; 111; 110; 62].
Definition parameter_open : list Z := [60; 112; 97; 114; 97; 109; 101; 116; 101; 114; 61].
Definition parameter_close : list Z := [60; 47; 112; 97; 114; 97; 109; 101; 116; 101; 114; 62].

(** The lambda [consume_marker]. *)
Definition consume_marker (marker text : list Z) : option (list Z) :=
  let text := strip_leading text in
  if starts_with marker text then Some (drop (length marker) text) else None.

Definition name_byte (b : Z) : bool :=
  ((48 <=? b) && (b <=? 57)) || ((65 <=? b) && (b <=? 90)) || ((97 <=? b) && (b <=? 122)) || (b =? 95) || (b =? 45).

(** The parameters of a call, up to [</function>]. *)
Fixpoint skip_parameters (fuel : nat) (text : list Z) : option (list Z) :=
  let text := strip_leading text in
  if starts_with function_close text then Some text
  else
    match fuel with
    | O => None
    | S fuel =>
        text ← consume_marker parameter_open text;
        key_end ← text_find [62] text;
        if (key_end =? 0)%nat then None
        else
          let text := drop (key_end + 1) text in
          value_end ← text_find parameter_close text;
          skip_parameters fuel (drop (value_end + length parameter_close) text)
    end.

Definition call_name (max_name_length : nat) (text : list Z) : option (list Z * list Z) :=
  text ← consume_marker kToolOpen text;
  text ← consume_marker function_open text;
  end_ ← text_find [62] text;
  if (end_ =? 0)%nat || (max_name_length <? end_)%nat || negb (forallb name_byte (take end_ text)) then None
  else
    let name := take end_ text in
    text ← skip_parameters (length text) (drop (end_ + 1) text);
    text ← consume_marker function_close text;
    text ← consume_marker kToolClose text;
    Some (name, strip_leading text).

Fixpoint call_names (fuel max_name_length : nat) (text : list Z) : option (list (list Z)) :=
  match text, fuel with
  | [], _ => Some []
  | _, O => None
  | _, S fuel =>
      '(name, text) ← call_name max_name_length text;
      names ← call_names fuel max_name_length text;
      Some (name :: names)
  end.

(** A text that is not a sequence of calls has no names. *)
Definition unconstrained_tool_call_names (text : list Z) (max_name_length : nat) : list (list Z) :=
  match text_find kToolOpen text with
  | None => []
  | Some first => default [] (call_names (length text) max_name_length (drop first text))
  end.
