(* ===== verification/OutputDecoder.v ===== *)
(** * The decoder of an output session

    Lemmas on searching text that arrives in pieces; the channels of a decoder, which
    publish text, hold back what may begin a stop string and cut the output at the
    first one; and the scan for tool markers.  What a decoder that sees pieces does is
    each time what one search of the whole text does. *)

From stdpp Require Import prelude functions list list_numbers.
From Stdlib Require Import ZArith Lia.
From S2P Require Import Prelude Capacity ExecState Utf8 OutputSession.

(** ** Searching text *)
Section Text.
Implicit Types (s t m : list Z).

(** [m] stands at position [i] of [s]. *)
Definition stands m s (i : nat) : Prop := m `prefix_of` drop i s.

Lemma text_find_spec m s :
  match text_find m s with
  | Some i => stands m s i /\ (forall j, (j < i)%nat -> ~ stands m s j)
  | None => forall j, ~ stands m s j
  end.
Proof.
  unfold stands. induction s as [|b s IH]; cbn [text_find]; unfold starts_with; case_bool_decide as Hp.
  - split; [done|lia].
  - intros j. by rewrite drop_nil.
  - split; [done|lia].
  - destruct (text_find m s) as [i|]; simpl.
    + destruct IH as [IH1 IH2]. split; [done|]. intros [|j] Hj; [done|]. apply IH2. lia.
    + intros [|j]; [done|apply IH].
Qed.

Lemma text_find_None m s : text_find m s = None <-> forall j, ~ stands m s j.
Proof. pose proof (text_find_spec m s) as H. destruct (text_find m s) as [i|]; [|done]. split; [done|]. intros Hn. by destruct (Hn i); destruct H. Qed.

Lemma text_find_Some m s i : text_find m s = Some i <-> stands m s i /\ (forall j, (j < i)%nat -> ~ stands m s j).
Proof.
  pose proof (text_find_spec m s) as H. destruct (text_find m s) as [k|].
  - split; [by intros [= <-]|]. intros [H1 H2]. destruct H as [H3 H4]. f_equal. destruct (lt_eq_lt_dec i k) as [[Hl|]|Hl]; [|done|].
    + by destruct (H4 i).
    + by destruct (H2 k).
  - split; [done|]. intros [H1 _]. by destruct (H i).
Qed.

Lemma stands_app m s t i : stands m s i -> stands m (s ++ t) i.
Proof.
  unfold stands. intros [r E]. destruct (decide (i <= length s)%nat) as [Hi|Hi].
  - rewrite drop_app_le by done. rewrite E. exists (r ++ t). by rewrite app_assoc.
  - rewrite drop_ge in E by lia. symmetry in E. apply app_eq_nil in E as [-> _]. apply prefix_nil.
Qed.

Lemma stands_shift m p s i : stands m (p ++ s) (length p + i) <-> stands m s i.
Proof. unfold stands. by rewrite <-drop_drop, drop_app_length. Qed.

Lemma stands_length m s i : m ≠ [] -> stands m s i -> (i + length m <= length s)%nat.
Proof.
  intros Hm [r E]. apply (f_equal length) in E. rewrite length_drop, length_app in E. destruct m; [done|]. simpl in *. lia.
Qed.

(** The occurrence that the text up to [s] contains whole. *)
Lemma stands_inside m s t i : (i + length m <= length s)%nat -> stands m (s ++ t) i -> stands m s i.
Proof.
  unfold stands. intros Hi [r E]. rewrite drop_app_le in E by lia. exists (take (length s - i - length m) r).
  apply (f_equal (take (length s - i))) in E. rewrite take_app_le in E by (rewrite length_drop; lia).
  rewrite take_ge in E by (rewrite length_drop; lia). rewrite E, take_app_ge by lia. done.
Qed.

Lemma last_bytes_length n s : (n <= length s)%nat -> length (last_bytes n s) = n.
Proof. intros Hn. unfold last_bytes. rewrite length_drop. lia. Qed.

Lemma take_last_bytes n s : take (length s - n) s ++ last_bytes n s = s.
Proof. apply take_drop. Qed.

Lemma last_bytes_app n s t : (length t <= n)%nat -> last_bytes n (s ++ t) = last_bytes (n - length t) s ++ t.
Proof.
  intros Hn. unfold last_bytes. rewrite length_app, drop_app_le by lia. f_equal. f_equal. lia.
Qed.

(** The end of [s] that begins [m] is inside the last [h] bytes. *)
Definition covered m s (h : nat) : Prop :=
  forall n, (n < length m)%nat -> (n <= length s)%nat -> last_bytes n s = take n m -> (n <= h)%nat.

Lemma covered_mono m s h h' : (h <= h')%nat -> covered m s h -> covered m s h'.
Proof. intros Hh H n Hn Hl E. specialize (H n Hn Hl E). lia. Qed.

Lemma covered_nil m h : covered m [] h.
Proof. intros n _ Hl _. simpl in Hl. lia. Qed.

(** Covering the end of the held text and the new piece covers the whole text. *)
Lemma covered_step m p held t h : covered m (p ++ held) (length held) -> covered m (held ++ t) h -> covered m (p ++ held ++ t) h.
Proof.
  intros Hc Hn n Hlt Hl E. destruct (decide (n <= length (held ++ t))%nat) as [Hle|Hgt].
  { apply Hn; try done. rewrite <-E. unfold last_bytes. rewrite (length_app p), (drop_app_ge p) by lia. f_equal. lia. }
  exfalso. rewrite app_assoc in E. rewrite !length_app in *. rewrite last_bytes_app in E by lia.
  assert (n - length t <= length held)%nat; [|lia]. apply Hc; [lia|rewrite length_app; lia|].
  apply (f_equal (take (n - length t))) in E. rewrite take_app_length' in E by (rewrite last_bytes_length; [done|rewrite length_app; lia]).
  rewrite E, take_take. f_equal. lia.
Qed.

(** An occurrence in a growing text is found in its held end. *)
Lemma text_find_held m p held t : m ≠ [] -> text_find m (p ++ held) = None -> covered m (p ++ held) (length held) ->
  text_find m (p ++ held ++ t) = Nat.add (length p) <$> text_find m (held ++ t).
Proof.
  intros Hm Hn Hc. rewrite text_find_None in Hn.
  assert (forall j, (j < length p)%nat -> ~ stands m (p ++ held ++ t) j) as Hno.
  { intros j Hj Hs. destruct (decide (j + length m <= length (p ++ held))%nat) as [Hin|Hout].
    { apply (Hn j). eapply (stands_inside _ _ t); [done|]. by rewrite <-app_assoc. }
    assert (length (p ++ held) - j <= length held)%nat as Hle; [|rewrite length_app in Hle; lia].
    assert (length p <= length (p ++ held))%nat by (rewrite length_app; lia).
    apply Hc; [lia|lia|]. destruct Hs as [r E]. rewrite app_assoc, drop_app_le in E by (rewrite length_app; lia).
    apply (f_equal (take (length (p ++ held) - j))) in E.
    rewrite take_app_length' in E by (rewrite length_drop; lia). rewrite take_app_le in E by lia.
    rewrite <-E. unfold last_bytes. f_equal. rewrite length_app in *. lia. }
  destruct (text_find m (held ++ t)) as [i|] eqn:E; simpl.
  - apply text_find_Some in E as [H1 H2]. apply text_find_Some. split; [by apply stands_shift|].
    intros j Hj. destruct (decide (j < length p)%nat); [by apply Hno|]. replace j with (length p + (j - length p))%nat by lia.
    rewrite stands_shift. apply H2. lia.
  - rewrite text_find_None in E |- *. intros j. destruct (decide (j < length p)%nat); [by apply Hno|].
    replace j with (length p + (j - length p))%nat by lia. rewrite stands_shift. apply E.
Qed.

Lemma text_find_nil m : m ≠ [] -> text_find m [] = None.
Proof. intros Hm. apply text_find_None. intros j Hs%stands_length; [|done]. destruct m; simpl in *; [done|lia]. Qed.

(** ** What is held *)
Lemma suffix_prefix_loop_spec s m all size : (size <= length s)%nat -> (size <= length m)%nat ->
  let n := suffix_prefix_loop s m all size in
  (n <= size)%nat /\ (last_bytes n s = take n m) /\
  (forall k, (n < k)%nat -> (k <= size)%nat -> all = true \/ (k < length m)%nat -> last_bytes k s ≠ take k m).
Proof.
  induction size as [|size IH]; intros Hs Hm; cbn [suffix_prefix_loop].
  { split_and!; [done|unfold last_bytes; by rewrite Nat.sub_0_r, drop_all|lia]. }
  specialize (IH ltac:(lia) ltac:(lia)). cbv zeta in IH. destruct IH as (H1 & H2 & H3).
  destruct (negb all && (S size =? length m)%nat) eqn:Ea.
  - split_and!; [lia|done|]. intros k Hk Hk' Hd. destruct (decide (k = S size)) as [->|]; [|by apply H3; lia].
    apply andb_true_iff in Ea as [Ea1 Ea2]. apply Nat.eqb_eq in Ea2. destruct all; [done|]. destruct Hd; [done|lia].
  - case_bool_decide as E; [split_and!; [lia|done|lia]|]. split_and!; [lia|done|].
    intros k Hk Hk' Hd. destruct (decide (k = S size)) as [->|]; [done|]. apply H3; [lia|lia|done].
Qed.

Lemma longest_suffix_prefix_spec s m all : let n := longest_suffix_prefix s m all in
  (n <= length s)%nat /\ (n <= length m)%nat /\ last_bytes n s = take n m /\ covered m s n.
Proof.
  unfold longest_suffix_prefix. destruct (suffix_prefix_loop_spec s m all (Nat.min (length s) (length m))) as (H1 & H2 & H3); [lia|lia|].
  split_and!; [lia|lia|done|]. intros k Hk Hl E. destruct (decide (k <= suffix_prefix_loop s m all (Nat.min (length s) (length m)))%nat); [done|].
  destruct (H3 k); try done; [lia|lia|by right].
Qed.

Lemma foldl_max_le {A} (f : A -> nat) l h : (h <= foldl (fun h x => Nat.max h (f x)) h l)%nat.
Proof. revert h. induction l as [|x l IH]; intros h; simpl; [done|]. specialize (IH (Nat.max h (f x))). lia. Qed.

Lemma foldl_max_elem {A} (f : A -> nat) l h x : x ∈ l -> (f x <= foldl (fun h x => Nat.max h (f x)) h l)%nat.
Proof.
  revert h. induction l as [|y l IH]; intros h; simpl; [by intros ?%elem_of_nil|]. intros [->|Hx]%elem_of_cons; [|by apply IH].
  pose proof (foldl_max_le f l (Nat.max h (f y))). lia.
Qed.

Lemma foldl_max_bound {A} (f : A -> nat) l h b : (h <= b)%nat -> (forall x, x ∈ l -> (f x <= b)%nat) ->
  (foldl (fun h x => Nat.max h (f x)) h l <= b)%nat.
Proof.
  revert h. induction l as [|y l IH]; intros h Hh Hl; simpl; [done|]. apply IH; [|intros x Hx; apply Hl; by right].
  specialize (Hl y ltac:(left)). lia.
Qed.

Lemma stop_hold_le s ch p : (stop_hold_size s ch p <= length s)%nat.
Proof. apply foldl_max_bound; [lia|]. intros x _. by destruct (longest_suffix_prefix_spec s (stop_text x) false). Qed.

Lemma stop_hold_covered s ch p stop : stop ∈ on_channel ch p -> covered (stop_text stop) s (stop_hold_size s ch p).
Proof.
  intros Hs. destruct (longest_suffix_prefix_spec s (stop_text stop) false) as (_ & _ & _ & Hc). eapply covered_mono; [|exact Hc].
  unfold stop_hold_size. by apply (foldl_max_elem (fun stop => longest_suffix_prefix s (stop_text stop) false)).
Qed.

Lemma no_marker_length m s (n : nat) : text_find m s = None -> (n <= length s)%nat -> last_bytes n s = take n m -> (n <= length m)%nat -> (n < length m)%nat.
Proof.
  rewrite text_find_None. intros Hn Hl E Hm. destruct (decide (n = length m)) as [->|]; [|lia].
  destruct (Hn (length s - length m)%nat). unfold stands. fold (last_bytes (length m) s). by rewrite E, take_ge.
Qed.

Lemma longest_suffix_prefix_unique m s all (n : nat) : text_find m s = None -> (n <= length s)%nat -> (n <= length m)%nat ->
  last_bytes n s = take n m -> covered m s n -> longest_suffix_prefix s m all = n.
Proof.
  intros Hf Hl Hm E Hc. destruct (longest_suffix_prefix_spec s m all) as (H1 & H2 & H3 & H4).
  assert (longest_suffix_prefix s m all <= n)%nat by (apply Hc; [by apply (no_marker_length m s)|done|done]).
  assert (n <= longest_suffix_prefix s m all)%nat by (apply H4; [by apply (no_marker_length m s)|done|done]). lia.
Qed.

(** Nor does the beginning of the text matter to what is held at its end. *)
Lemma longest_suffix_prefix_held m p held t all : text_find m (p ++ held ++ t) = None -> covered m (p ++ held) (length held) ->
  longest_suffix_prefix (p ++ held ++ t) m all = longest_suffix_prefix (held ++ t) m all.
Proof.
  intros Hf Hc. destruct (longest_suffix_prefix_spec (held ++ t) m all) as (H1 & H2 & H3 & H4).
  apply longest_suffix_prefix_unique; [done|rewrite (length_app p); lia|done| |by apply covered_step].
  rewrite <-H3. unfold last_bytes. rewrite (length_app p), (drop_app_ge p) by lia. f_equal. lia.
Qed.

End Text.

(** ** What the decoder publishes

    The reference: the whole decoded text is split at the first [</think>], white space
    after it is dropped, and each channel is cut at its first stop string.  The
    decoder, which sees the text in pieces and publishes as it goes, agrees with it. *)

Section Channels.
Implicit Types (detect : bool) (s : DecoderState) (p : StopPolicy) (t r c : list Z).

(** ** Output as two texts *)
Definition delta_of (ch : OutputChannel) t : PublishedOutput := if bool_decide (t = []) then [] else [MkDelta ch t].
Definition output_of r c : PublishedOutput := delta_of Reasoning r ++ delta_of Content c.

Definition channel_text (ch : OutputChannel) (o : PublishedOutput) : list Z := mjoin (text <$> filter (fun d => channel d = ch) o).

Lemma delta_of_nil ch : delta_of ch [] = [].
Proof. done. Qed.

Lemma delta_of_ne ch t : t ≠ [] -> delta_of ch t = [MkDelta ch t].
Proof. intros Ht. unfold delta_of. by rewrite bool_decide_false. Qed.

Lemma append_delta_content r c t : append_delta (output_of r c) Content t = Ok (output_of r (c ++ t)).
Proof.
  unfold append_delta. destruct (decide (t = [])) as [->|Ht]; [by rewrite bool_decide_true, app_nil_r|]. rewrite bool_decide_false by done.
  assert (c ++ t ≠ []) as Hct by (by intros [_ ?]%app_eq_nil).
  unfold output_of. rewrite (delta_of_ne _ (c ++ t)) by done.
  destruct (decide (c = [])) as [->|Hc]; [|rewrite (delta_of_ne _ c) by done];
    (destruct (decide (r = [])) as [->|Hr]; [|rewrite (delta_of_ne _ r) by done]); done.
Qed.

Lemma append_delta_reasoning r t : append_delta (output_of r []) Reasoning t = Ok (output_of (r ++ t) []).
Proof.
  unfold append_delta. destruct (decide (t = [])) as [->|Ht]; [by rewrite bool_decide_true, app_nil_r|]. rewrite bool_decide_false by done.
  assert (r ++ t ≠ []) as Hrt by (by intros [_ ?]%app_eq_nil).
  unfold output_of. rewrite (delta_of_ne _ (r ++ t)), delta_of_nil, !app_nil_r by done.
  destruct (decide (r = [])) as [->|Hr]; [|rewrite (delta_of_ne _ r) by done]; done.
Qed.

(** The output with [t] more on a channel; content never precedes reasoning. *)
Definition more (ch : OutputChannel) (o : list Z * list Z) t : list Z * list Z :=
  match ch with Reasoning => (o.1 ++ t, o.2) | Content => (o.1, o.2 ++ t) end.
Definition published (o : list Z * list Z) : PublishedOutput := output_of o.1 o.2.
Definition open_for (ch : OutputChannel) (o : list Z * list Z) : Prop := match ch with Reasoning => o.2 = [] | Content => True end.

Lemma append_delta_more ch o t : open_for ch o -> append_delta (published o) ch t = Ok (published (more ch o t)).
Proof. destruct o as [r c]. destruct ch; simpl; [intros _; apply append_delta_content|intros ->; apply append_delta_reasoning]. Qed.

Lemma open_for_more ch o t : open_for ch o -> open_for ch (more ch o t).
Proof. by destruct ch. Qed.

Lemma more_more ch o t t' : more ch (more ch o t) t' = more ch o (t ++ t').
Proof. destruct ch; simpl; by rewrite app_assoc. Qed.

(** ** Stop strings of one channel *)

(** The first stop string in a text: the smallest position, then the order of
    declaration. *)
Fixpoint first_stop (stops : list Stop_String) t : option (nat * Stop_String) :=
  match stops with
  | [] => None
  | stop :: stops =>
      match text_find (stop_text stop) t, first_stop stops t with
      | Some i, Some (j, stop') => if (j <? i)%nat then Some (j, stop') else Some (i, stop)
      | Some i, None => Some (i, stop)
      | None, found => found
      end
  end.

Definition cut_text t (cut : nat * Stop_String) : list Z :=
  take cut.1 t ++ (if include_in_output cut.2 then stop_text cut.2 else []).

Lemma first_stop_None stops t : first_stop stops t = None <-> forall stop, stop ∈ stops -> text_find (stop_text stop) t = None.
Proof.
  induction stops as [|stop stops IH]; simpl; [split; [by intros _ ? ?%elem_of_nil|done]|].
  destruct (text_find (stop_text stop) t) as [i|] eqn:E.
  - split; [|intros H; specialize (H stop ltac:(left)); congruence]. destruct (first_stop stops t) as [[j ?]|]; [|done]. by destruct (j <? i)%nat.
  - rewrite IH. split; [intros H x [->|Hx]%elem_of_cons; auto|intros H x Hx; apply H; by right].
Qed.

Lemma first_stop_Some stops t cut : first_stop stops t = Some cut -> cut.2 ∈ stops /\ text_find (stop_text cut.2) t = Some cut.1.
Proof.
  revert cut. induction stops as [|stop stops IH]; intros cut; simpl; [done|].
  destruct (text_find (stop_text stop) t) as [i|] eqn:E; destruct (first_stop stops t) as [[j s']|] eqn:F.
  - destruct (j <? i)%nat; intros [= <-]; simpl; [|by split; [left|]]. destruct (IH _ eq_refl). by split; [right|].
  - intros [= <-]. by split; [left|].
  - intros [= <-]. destruct (IH _ eq_refl). by split; [right|].
  - done.
Qed.

(** Searching only the end of a text whose beginning cannot matter. *)
Lemma first_stop_shift stops x t t' : (forall stop, stop ∈ stops -> text_find (stop_text stop) t' = Nat.add x <$> text_find (stop_text stop) t) ->
  first_stop stops t' = prod_map (Nat.add x) id <$> first_stop stops t.
Proof.
  induction stops as [|stop stops IH]; intros H; simpl; [done|]. rewrite (H stop ltac:(left)), IH by (intros; apply H; by right).
  destruct (text_find (stop_text stop) t) as [i|], (first_stop stops t) as [[j s']|]; simpl; try done.
  destruct (Nat.ltb_spec j i), (Nat.ltb_spec (x + j) (x + i)); done || lia.
Qed.

Definition nonempty_stops p : Prop := forall stop, stop ∈ strings p -> stop_text stop ≠ [].

Lemma on_channel_stop p ch stop : stop ∈ on_channel ch p -> stop ∈ strings p.
Proof. by intros [_ ?]%list_elem_of_filter. Qed.

(** The match that a search over a piece [t] of the text leaves. *)
Definition hit (ch : OutputChannel) (o : list Z * list Z) t (start committed : Z) (cut : nat * Stop_String) (m : StopMatch) : Prop :=
  committed_tokens m = committed /\ byte_cut m = (start + Z.of_nat cut.1)%Z /\ match_output m = published (more ch o (cut_text t cut)).

Lemma search_candidate ch o t stop found : open_for ch o ->
  (candidate ← append_delta (published o) ch (take found t);
   if include_in_output stop then append_delta candidate ch (stop_text stop) else Ok candidate)
  = Ok (published (more ch o (cut_text t (found, stop)))).
Proof.
  intros Ho. rewrite append_delta_more by done. unfold cut_text. simpl. destruct (include_in_output stop); [|by rewrite app_nil_r].
  rewrite append_delta_more by (by apply open_for_more). by rewrite more_more.
Qed.

(** A match before the piece stays. *)
Lemma search_stops_kept ch t start committed o stops order m : committed_tokens m = committed -> (byte_cut m < start)%Z ->
  search_stops ch t start committed o stops order (Some m) = Ok (Some m).
Proof.
  intros Hc Hb. revert order. induction stops as [|stop stops IH]; intros order; cbn [search_stops]; [done|].
  destruct (negb _); [by apply IH|]. destruct (text_find _ t) as [found|]; [|by apply IH].
  unfold stop_match_precedes. rewrite Hc, Z.eqb_refl. simpl.
  destruct (Z.eqb_spec (start + Z.of_nat found) (byte_cut m)); [lia|]. simpl.
  destruct (Z.ltb_spec (start + Z.of_nat found) (byte_cut m)); [lia|]. by apply IH.
Qed.

(** What is best after more declarations: the earlier declaration wins a tie. *)
Definition settled (ch : OutputChannel) (o : list Z * list Z) t (start committed : Z) (found : option (nat * Stop_String))
    (best best' : option StopMatch) : Prop :=
  match found with
  | None => best' = best
  | Some cut =>
      match best with
      | Some m => if (byte_cut m <=? start + Z.of_nat cut.1)%Z then best' = Some m else exists m', best' = Some m' /\ hit ch o t start committed cut m'
      | None => exists m', best' = Some m' /\ hit ch o t start committed cut m'
      end
  end.

Lemma stop_match_precedes_order committed cut order m : committed_tokens m = committed -> (declaration_order m < order)%Z ->
  stop_match_precedes committed cut order (Some m) = (cut <? byte_cut m)%Z.
Proof.
  intros Hc Ho. unfold stop_match_precedes. rewrite Hc, Z.eqb_refl. simpl.
  destruct (Z.eqb_spec cut (byte_cut m)) as [->|]; simpl; [|done]. rewrite Z.ltb_irrefl. apply Z.ltb_ge. lia.
Qed.

(** A declaration that is found, before the rest of the declarations. *)
Lemma settled_cons ch o t start committed i stop rest (best best1 best' : option StopMatch) :
  settled ch o t start committed (Some (i, stop)) best best1 -> settled ch o t start committed rest best1 best' ->
  settled ch o t start committed (match rest with Some (j, s') => if (j <? i)%nat then Some (j, s') else Some (i, stop) | None => Some (i, stop) end)
    best best'.
Proof.
  destruct rest as [[j s']|]; [|by intros H1 ->]. unfold settled. simpl. intros H1 H2.
  destruct best as [m|].
  - destruct (Z.leb_spec (byte_cut m) (start + Z.of_nat i)) as [Hle|Hgt].
    + subst best1. destruct (Nat.ltb_spec j i); simpl; [done|]. destruct (Z.leb_spec (byte_cut m) (start + Z.of_nat i)); [|lia].
      by destruct (Z.leb_spec (byte_cut m) (start + Z.of_nat j)); [|lia].
    + destruct H1 as (m1 & -> & Hh). pose proof Hh as (_ & Eb & _). simpl in Eb. rewrite Eb in H2.
      destruct (Nat.ltb_spec j i); simpl.
      * destruct (Z.leb_spec (start + Z.of_nat i) (start + Z.of_nat j)); [lia|]. by destruct (Z.leb_spec (byte_cut m) (start + Z.of_nat j)); [lia|].
      * destruct (Z.leb_spec (start + Z.of_nat i) (start + Z.of_nat j)); [|lia]. destruct (Z.leb_spec (byte_cut m) (start + Z.of_nat i)); [lia|]. eauto.
  - destruct H1 as (m1 & -> & Hh). pose proof Hh as (_ & Eb & _). simpl in Eb. rewrite Eb in H2.
    destruct (Nat.ltb_spec j i); simpl; (destruct (Z.leb_spec (start + Z.of_nat i) (start + Z.of_nat j)); [lia || eauto|lia || eauto]).
Qed.

(** What makes a match comparable with the declarations from [order] on. *)
Definition earlier (committed order : Z) (best : option StopMatch) : Prop :=
  match best with Some m => committed_tokens m = committed /\ (declaration_order m < order)%Z | None => True end.

Lemma precedes_earlier committed start order i best : earlier committed order best ->
  stop_match_precedes committed (start + Z.of_nat i) order best = match best with Some m => (start + Z.of_nat i <? byte_cut m)%Z | None => true end.
Proof. destruct best as [m|]; [intros []; by apply stop_match_precedes_order|done]. Qed.

Lemma search_stops_spec ch t start committed o stops : open_for ch o -> forall order best, earlier committed order best ->
  exists best', search_stops ch t start committed (published o) stops order best = Ok best' /\
    settled ch o t start committed (first_stop (filter (fun stop => stop_channel stop = ch) stops) t) best best'.
Proof.
  intros Ho. induction stops as [|stop stops IH]; intros order best He; cbn [search_stops]; [by exists best|].
  assert (earlier committed (order + 1) best) as He' by (destruct best as [m|]; [destruct He; split; [done|lia]|done]).
  rewrite filter_cons. case_bool_decide as Hc; cbn [negb].
  2:{ destruct (decide (stop_channel stop = ch)); [done|]. by apply IH. }
  destruct (decide (stop_channel stop = ch)); [|done]. cbn [first_stop].
  destruct (text_find (stop_text stop) t) as [i|]; [|by apply IH]. rewrite precedes_earlier by done.
  set (keep := match best with Some m => (start + Z.of_nat i <? byte_cut m)%Z | None => true end).
  assert (exists best1, (if negb keep then search_stops ch t start committed (published o) stops (order + 1) best
     else candidate ← append_delta (published o) ch (take i t);
          candidate ← (if include_in_output stop then append_delta candidate ch (stop_text stop) else Ok candidate);
          search_stops ch t start committed (published o) stops (order + 1) (Some (MkMatch committed (start + Z.of_nat i) order candidate)))
     = search_stops ch t start committed (published o) stops (order + 1) best1 /\ earlier committed (order + 1) best1 /\
     settled ch o t start committed (Some (i, stop)) best best1) as (best1 & -> & He1 & Hs1).
  { destruct keep eqn:Ek; cbn [negb].
    - pose proof (search_candidate ch o t stop i Ho) as Hx. destruct (append_delta _ _ _) as [x|]; [|done]. simpl in *. rewrite Hx. eexists. split; [done|].
      split; [simpl; split; [done|lia]|]. unfold settled. simpl. destruct best as [m|]; [|by eexists; split; [done|]].
      subst keep. destruct (Z.leb_spec (byte_cut m) (start + Z.of_nat i)); [apply Z.ltb_lt in Ek; lia|]. by eexists; split; [done|].
    - exists best. split_and!; [done|done|]. subst keep. destruct best as [m|]; [|done]. simpl.
      apply Z.ltb_ge in Ek. by destruct (Z.leb_spec (byte_cut m) (start + Z.of_nat i)); [|lia]. }
  destruct (IH (order + 1)%Z best1 He1) as (best' & E & Hs). exists best'. split; [done|]. eapply (settled_cons _ _ _ _ _ _ _ _ _ best1) in Hs; [|done].
  by destruct (first_stop _ t) as [[j s']|].
Qed.

(** ** A channel

    [T] is the text fed to the channel so far and [pub] what of it is published: the
    rest is pending, and no stop string begins before it and ends after [T]. *)
Record channel_at p (ch : OutputChannel) (T pub held : list Z) : Prop := {
  channel_split : T = pub ++ held;
  channel_covered : forall stop, stop ∈ on_channel ch p -> covered (stop_text stop) T (length held);
  channel_free : on_channel ch p = [] -> held = [];
}.

Lemma channel_at_nil p ch : channel_at p ch [] [] [].
Proof. split; [done| |done]. intros stop _. apply covered_nil. Qed.

(** In a text with no stop string so far, the search over the pending bytes and the new
    ones is the search over the whole text. *)
Lemma first_stop_held p ch T pub held t : nonempty_stops p -> channel_at p ch T pub held -> first_stop (on_channel ch p) T = None ->
  first_stop (on_channel ch p) (T ++ t) = prod_map (Nat.add (length pub)) id <$> first_stop (on_channel ch p) (held ++ t).
Proof.
  intros Hp [-> Hc _] Hn. apply first_stop_shift. intros stop Hs. rewrite <-app_assoc. apply text_find_held.
  - by apply Hp, (on_channel_stop _ ch).
  - by apply (proj1 (first_stop_None _ _) Hn).
  - by apply Hc.
Qed.

Lemma cut_text_app pub t cut : cut_text (pub ++ t) (prod_map (Nat.add (length pub)) id cut) = pub ++ cut_text t cut.
Proof. destruct cut as [i stop]. unfold cut_text. simpl. by rewrite take_app_add, app_assoc. Qed.

(** The match a channel that is at [T'] leaves, with [pub] published before it. *)
Definition found_in (ch : OutputChannel) (o : list Z * list Z) (pub T' : list Z) (base committed : Z) (found : option (nat * Stop_String))
    (best' : option StopMatch) : Prop :=
  match found with
  | None => best' = None
  | Some cut => exists m x, best' = Some m /\ committed_tokens m = committed /\ byte_cut m = (base + Z.of_nat cut.1)%Z /\
      match_output m = published (more ch o x) /\ pub ++ x = cut_text T' cut
  end.

Lemma found_in_shift ch o pub t base committed found best' :
  settled ch o t (base + Z.of_nat (length pub)) committed found None best' ->
  found_in ch o pub (pub ++ t) base committed (prod_map (Nat.add (length pub)) id <$> found) best'.
Proof.
  unfold settled, found_in. destruct found as [[i stop]|]; simpl; [|done]. intros (m & -> & H1 & H2 & H3). simpl in H2.
  exists m, (cut_text t (i, stop)). split_and!; [done|done|lia|done|]. by rewrite <-cut_text_app.
Qed.

Lemma channel_step p ch T pub held t : on_channel ch p ≠ [] -> channel_at p ch T pub held ->
  let combined := held ++ t in let hold := stop_hold_size combined ch p in
  channel_at p ch (T ++ t) (pub ++ take (length combined - hold) combined) (last_bytes hold combined).
Proof.
  intros Hne [-> Hc _] combined hold. split; [|intros stop Hs|done].
  - by rewrite <-(app_assoc pub (take _ _)), take_last_bytes, <-app_assoc.
  - rewrite last_bytes_length by apply stop_hold_le. rewrite <-app_assoc. apply covered_step; [by apply Hc|]. by apply stop_hold_covered.
Qed.

(** A match found before the channel's pending text. *)
Definition past (ch : OutputChannel) (committed : Z) s (best : option StopMatch) : Prop :=
  match best with
  | Some m => committed_tokens m = committed /\ (byte_cut m < decoded_bytes s - Z.of_nat (length (stop_pending s ch)))%Z
  | None => True
  end.

Lemma search_stops_past ch t p committed detect o s best : open_for ch o -> past ch committed s best ->
  let combined := stop_pending s ch ++ t in let start := (decoded_bytes s - Z.of_nat (length (stop_pending s ch)))%Z in
  exists best', (if detect then search_stops ch combined start committed (published o) (strings p) 0 best else Ok best) = Ok best' /\
    (best ≠ None \/ detect = false -> best' = best) /\
    (best = None -> detect = true -> settled ch o combined start committed (first_stop (on_channel ch p) combined) None best').
Proof.
  intros Ho Hb combined start. destruct detect; [|by exists best]. destruct best as [m|].
  - destruct Hb. rewrite search_stops_kept by done. by exists (Some m).
  - destruct (search_stops_spec ch combined start committed o (strings p) Ho 0 None I) as (best' & -> & Hs). exists best'. split_and!; [done|by intros [H|H]|done].
Qed.

(** The state apart from the pending bytes of the channels and their count. *)
Definition outside s : DecoderState := set_decoded_bytes 0 (set_stop_pending no_pending s).

(** Feeding a channel: what is published and held, and the match that is left. *)
Lemma feed_channel_spec ch t p committed detect s o best T pub : open_for ch o ->
  channel_at p ch T pub (stop_pending s ch) -> past ch committed s best ->
  exists e s' best', feed_channel ch t p committed detect (s, published o, best) = Ok (s', published (more ch o e), best') /\
    outside s' = outside s /\ (forall ch', ch' ≠ ch -> stop_pending s' ch' = stop_pending s ch') /\
    decoded_bytes s' = (decoded_bytes s + Z.of_nat (length t))%Z /\
    channel_at p ch (T ++ t) (pub ++ e) (stop_pending s' ch) /\
    (best ≠ None \/ detect = false -> best' = best) /\
    (forall base, nonempty_stops p -> best = None -> detect = true -> first_stop (on_channel ch p) T = None ->
       decoded_bytes s = (base + Z.of_nat (length T))%Z ->
       found_in ch o pub (T ++ t) base committed (first_stop (on_channel ch p) (T ++ t)) best').
Proof.
  intros Ho Hc Hb. unfold feed_channel. case_bool_decide as Ht.
  { subst t. exists [], s, best. rewrite !app_nil_r. split_and!; try done.
    - by destruct ch, o; simpl; rewrite ?app_nil_r.
    - simpl. lia.
    - by intros base _ -> _ -> _. }
  case_bool_decide as Hn.
  { rewrite append_delta_more by done. exists t. eexists _, best. split; [done|]. split_and!; try done.
    - destruct Hc as [-> ? Hf]. simpl. rewrite (Hf Hn), !app_nil_r. split; [by rewrite app_nil_r| |done]. intros stop. rewrite Hn. by intros ?%elem_of_nil.
    - intros base _ -> _ _ _. by rewrite Hn. }
  destruct (search_stops_past ch t p committed detect o s best Ho Hb) as (best' & -> & H1 & H2). simpl.
  rewrite append_delta_more by done. simpl. eexists _, _, best'. split; [done|]. split_and!; try done.
  - intros ch' Hne. simpl. by rewrite fn_lookup_insert_ne.
  - simpl. rewrite fn_lookup_insert. by apply channel_step.
  - intros base Hp -> -> Hq Hd. rewrite (first_stop_held _ _ _ pub (stop_pending s ch)) by done.
    pose proof (channel_split _ _ _ _ _ Hc) as E. rewrite E, <-app_assoc. apply found_in_shift.
    replace (base + Z.of_nat (length pub))%Z with (decoded_bytes s - Z.of_nat (length (stop_pending s ch)))%Z; [by apply H2|].
    apply (f_equal length) in E. rewrite length_app in E. lia.
Qed.

End Channels.

(** ** Tool markers in the content

    [track_structured_content] sees the content in pieces and keeps whether it is inside
    a tool call and the end that may begin a marker.  Both are what one scan of the
    whole content gives. *)

Section Scan.
Implicit Types (s : DecoderState) (t c : list Z) (in_call : bool).

(** Inside a call at the end of the text, and the end that may begin a marker. *)
Definition tool_scan in_call t : bool * list Z := track_markers (length t) in_call t.

Definition tool_marker in_call : list Z := if in_call then kToolClose else kToolOpen.

Lemma track_markers_enough fuel in_call t : (length t <= fuel)%nat -> track_markers fuel in_call t = tool_scan in_call t.
Proof.
  unfold tool_scan. remember (length t) as n eqn:En. assert (length t <= n)%nat as Hn by lia. clear En. revert fuel in_call t Hn.
  induction n as [|n IH]; intros fuel in_call t Hn Hf.
  - destruct t; [|simpl in Hn; lia]. by destruct in_call, fuel.
  - destruct fuel as [|fuel]; [lia|]. simpl. destruct (text_find _ t) as [i|]; [|done]. apply IH; [rewrite length_drop; destruct in_call; simpl; lia|lia].
Qed.

Lemma tool_scan_step in_call t i : text_find (tool_marker in_call) t = Some i ->
  tool_scan in_call t = tool_scan (negb in_call) (drop (i + length (tool_marker in_call)) t).
Proof.
  intros E. unfold tool_scan at 1. destruct t as [|b t]; [by destruct in_call|]. simpl length. cbn [track_markers]. fold (tool_marker in_call). rewrite E.
  apply track_markers_enough. rewrite length_drop. destruct in_call; simpl; lia.
Qed.

Lemma tool_scan_stop in_call t : text_find (tool_marker in_call) t = None ->
  tool_scan in_call t = (in_call, last_bytes (longest_suffix_prefix t (tool_marker in_call) false) t).
Proof. intros E. unfold tool_scan. destruct (length t); cbn [track_markers]; fold (tool_marker in_call); by rewrite E. Qed.

Lemma text_find_app m t t' i : m ≠ [] -> text_find m t = Some i -> text_find m (t ++ t') = Some i.
Proof.
  intros Hm [Hs Hn]%text_find_Some. apply text_find_Some. split; [by apply stands_app|]. intros j Hj Hs'. apply (Hn j Hj).
  eapply stands_inside; [|exact Hs']. apply stands_length in Hs; [|done]. lia.
Qed.

Lemma tool_marker_ne in_call : tool_marker in_call ≠ [].
Proof. by destruct in_call. Qed.

(** The scan of a text goes on from the scan of its beginning. *)
Lemma tool_scan_app in_call t t' : tool_scan in_call (t ++ t') = let '(in_call, pending) := tool_scan in_call t in tool_scan in_call (pending ++ t').
Proof.
  remember (length t) as n eqn:En. assert (length t <= n)%nat as Hn by lia. clear En. revert in_call t Hn.
  induction n as [|n IH]; intros in_call t Hn; [by destruct t; [destruct in_call|simpl in Hn; lia]|].
  pose proof (tool_marker_ne in_call) as Hne. destruct (text_find (tool_marker in_call) t) as [i|] eqn:E.
  - rewrite (tool_scan_step _ _ _ E), (tool_scan_step _ _ _ (text_find_app _ _ t' _ Hne E)). apply text_find_Some in E as [Hs _].
    apply stands_length in Hs; [|done]. rewrite drop_app_le by lia. apply IH. rewrite length_drop. destruct in_call; simpl in *; lia.
  - rewrite (tool_scan_stop _ _ E). set (held := last_bytes _ t).
    destruct (longest_suffix_prefix_spec t (tool_marker in_call) false) as (Hl & _ & _ & Hc). rewrite <-(last_bytes_length _ _ Hl) in Hc. fold held in Hc.
    pose proof (take_last_bytes (longest_suffix_prefix t (tool_marker in_call) false) t) as Et. fold held in Et. set (p := take _ t) in Et. clearbody p held.
    rewrite <-Et in E, Hc |- *. rewrite <-app_assoc. pose proof (text_find_held _ p held t' Hne E Hc) as Ef.
    destruct (text_find (tool_marker in_call) (held ++ t')) as [j|] eqn:Ej; simpl in Ef.
    + rewrite (tool_scan_step _ _ _ Ef), (tool_scan_step _ _ _ Ej). by rewrite <-Nat.add_assoc, drop_app_add.
    + rewrite (tool_scan_stop _ _ Ef), (tool_scan_stop _ _ Ej), (longest_suffix_prefix_held _ p held t') by done. f_equal.
      destruct (longest_suffix_prefix_spec (held ++ t') (tool_marker in_call) false) as (Hl' & _). unfold last_bytes.
      rewrite (length_app p), (drop_app_ge p) by lia. f_equal. lia.
Qed.

(** ** The decoder's record of the content *)
Record content_seen (tools : bool) c s : Prop := {
  seen_text : has_non_whitespace_content s = negb (blank c);
  seen_calls : (in_tool_call s, tool_marker_pending s) = if tools then tool_scan false c else (false, []);
}.

Lemma track_structured_seen tools c s t : content_seen tools c s -> content_seen tools (c ++ t) (track_structured_content s t tools).
Proof.
  intros [Hb Hc]. unfold track_structured_content. case_bool_decide as Ht; [subst t; rewrite app_nil_r; by split|].
  set (s1 := if negb (has_non_whitespace_content s) then _ else s).
  assert (has_non_whitespace_content s1 = negb (blank (c ++ t)) /\ in_tool_call s1 = in_tool_call s /\ tool_marker_pending s1 = tool_marker_pending s) as (H1 & H2 & H3).
  { unfold s1, blank. rewrite forallb_app. rewrite Hb. fold (blank c) (blank t). destruct (blank c) eqn:Ec; simpl; [done|]. by rewrite Hb. }
  clearbody s1. destruct tools; simpl.
  - destruct (track_markers _ _ _) as [a b] eqn:E. split; simpl; [done|]. rewrite tool_scan_app, <-Hc. rewrite <-E, H2, H3. done.
  - split; [done|]. by rewrite H2, H3.
Qed.

End Scan.
