(* ===== verification/OutputStream.v ===== *)
(** * The decoder against the whole text

    The reference reads the whole decoded text at once: [split_text] cuts it at the
    first [</think>], [content_text] drops the white space after it, [stops_at] cuts
    it at the first stop string and [whole_text] is all of it.  [decoder_at] says what a
    decoder that has been fed a text piece by piece holds. *)

From stdpp Require Import prelude functions list list_numbers.
From Stdlib Require Import ZArith Lia.
From S2P Require Import Prelude Capacity ExecState Utf8 OutputSession OutputDecoder.

Implicit Types (detect start constrained tools : bool) (s : DecoderState) (p : StopPolicy) (t r c D : list Z).

#[local] Arguments feed_channel : simpl never.
#[local] Arguments feed_content : simpl never.
#[local] Arguments close_channel : simpl never.

(** ** The reference *)

(** Reasoning, and content when it has begun.  [start]: the output begins inside the
    reasoning. *)
Definition split_text start D : list Z * option (list Z) :=
  if start then
    match text_find kThinkClose D with
    | Some i => (take i D, Some (drop (i + length kThinkClose) D))
    | None => (D, None)
    end
  else ([], Some D).

Definition content_text start constrained c : list Z := if start && negb constrained then strip_leading c else c.

(** Reasoning that cannot be the beginning of [</think>]. *)
Definition settled_reasoning D : list Z := take (length D - longest_suffix_prefix D kThinkClose true) D.

Definition whole_text start constrained D : list Z * list Z :=
  match split_text start D with
  | (r, Some c) => (r, content_text start constrained c)
  | (r, None) => (r, [])
  end.

(** The output up to the first stop string, when the text has one. *)
Definition stops_at p start constrained D : option (list Z * list Z) :=
  match split_text start D with
  | (r, None) => (fun cut => (cut_text (settled_reasoning r) cut, [])) <$> first_stop (on_channel Reasoning p) (settled_reasoning r)
  | (r, Some c) =>
      match first_stop (on_channel Reasoning p) r with
      | Some cut => Some (cut_text r cut, [])
      | None =>
          let c := content_text start constrained c in
          (fun cut => (r, cut_text c cut)) <$> first_stop (on_channel Content p) c
      end
  end.

(** ** The marker *)
Lemma marker_held D : text_find kThinkClose D = None -> let h := longest_suffix_prefix D kThinkClose true in
  D = settled_reasoning D ++ last_bytes h D /\ covered kThinkClose D (length (last_bytes h D)).
Proof.
  intros _ h. unfold settled_reasoning. fold h. split; [symmetry; apply take_last_bytes|].
  destruct (longest_suffix_prefix_spec D kThinkClose true) as (H1 & _ & _ & H2). by rewrite last_bytes_length.
Qed.

(** The pending bytes decide about the whole text. *)
Lemma marker_found D t : text_find kThinkClose D = None -> let h := longest_suffix_prefix D kThinkClose true in
  text_find kThinkClose (D ++ t) = Nat.add (length (settled_reasoning D)) <$> text_find kThinkClose (last_bytes h D ++ t).
Proof.
  intros Hn h. destruct (marker_held D Hn) as [E Hc]. fold h in E, Hc. rewrite E at 1. rewrite <-app_assoc.
  apply text_find_held; [done|by rewrite <-E|by rewrite <-E].
Qed.

Lemma marker_hold D t : text_find kThinkClose (D ++ t) = None -> text_find kThinkClose D = None ->
  let pending := last_bytes (longest_suffix_prefix D kThinkClose true) D ++ t in
  longest_suffix_prefix (D ++ t) kThinkClose true = longest_suffix_prefix pending kThinkClose true.
Proof. intros Hf Hn pending. destruct (marker_held D Hn) as [E Hc]. unfold pending. rewrite E at 1. rewrite <-app_assoc. apply longest_suffix_prefix_held; by rewrite ?app_assoc, <-?E. Qed.

(** ** What a decoder holds *)
Definition join_output (a b : list Z * list Z) : list Z * list Z := (a.1 ++ b.1, a.2 ++ b.2).

Lemma join_more prior ch o t : join_output prior (more ch o t) = more ch (join_output prior o) t.
Proof. unfold join_output. destruct ch; simpl; by rewrite app_assoc. Qed.

(** [total] is everything published. *)
Record reasoning_at p tools start D (total : list Z * list Z) s : Prop := {
  reasoning_start : start = true;
  reasoning_open : text_find kThinkClose D = None;
  reasoning_marker : think_marker_pending s = last_bytes (longest_suffix_prefix D kThinkClose true) D;
  reasoning_channel : channel_at p Reasoning (settled_reasoning D) total.1 (stop_pending s Reasoning);
  reasoning_only : total.2 = [] /\ stop_pending s Content = [];
  reasoning_bytes : decoded_bytes s = Z.of_nat (length (settled_reasoning D));
  reasoning_record : content_seen tools [] s;
}.

Record content_at p tools start constrained r c (total : list Z * list Z) s : Prop := {
  content_reasoning : total.1 = r;
  content_channel : channel_at p Content (content_text start constrained c) total.2 (stop_pending s Content);
  content_bytes : decoded_bytes s = (Z.of_nat (length r) + Z.of_nat (length (content_text start constrained c)))%Z;
  content_strip : strip_content_leading s = start && negb constrained && bool_decide (content_text start constrained c = []);
  content_record : content_seen tools (content_text start constrained c) s;
}.

Definition decoder_at p tools start constrained D (total : list Z * list Z) s : Prop :=
  constrained_content s = constrained /\
  if in_reasoning s then reasoning_at p tools start D total s
  else exists r c, split_text start D = (r, Some c) /\ content_at p tools start constrained r c total s.

(** What feeding text leaves alone. *)
Definition kept s : list Z * bool * Z * bool * bool :=
  (utf8_pending s, terminal s, reasoning_tokens s, require_initial_content s, constrained_content s).

(** The match that is left when the reference cuts the text at [cut]. *)
Definition leaves (prior : list Z * list Z) (best : option StopMatch) (cut : option (list Z * list Z)) : Prop :=
  match cut with
  | None => best = None
  | Some out => exists m o, best = Some m /\ match_output m = published o /\ join_output prior o = out
  end.

Lemma strip_leading_app c t : strip_leading (c ++ t) = if bool_decide (strip_leading c = []) then strip_leading t else strip_leading c ++ t.
Proof.
  induction c as [|b c IH]; simpl; [done|]. destruct (isspace b); [done|]. by rewrite bool_decide_false.
Qed.

Lemma content_text_app start constrained c t : content_text start constrained (c ++ t) =
  content_text start constrained c ++ (if start && negb constrained && bool_decide (content_text start constrained c = []) then strip_leading t else t).
Proof.
  unfold content_text. destruct (start && negb constrained); [|done]. simpl. rewrite strip_leading_app. case_bool_decide as H; [|done]. by rewrite H.
Qed.

Lemma track_structured_fields s t tools : let s' := track_structured_content s t tools in
  kept s' = kept s /\ in_reasoning s' = in_reasoning s /\ stop_pending s' = stop_pending s /\ decoded_bytes s' = decoded_bytes s /\
  strip_content_leading s' = strip_content_leading s.
Proof.
  unfold track_structured_content. case_bool_decide; [done|]. destruct (negb (has_non_whitespace_content s)), (negb tools); try done;
    by destruct (track_markers _ _ _) as [a b].
Qed.

Lemma outside_fields s s' : outside s' = outside s -> kept s' = kept s /\ in_reasoning s' = in_reasoning s /\
  strip_content_leading s' = strip_content_leading s /\ think_marker_pending s' = think_marker_pending s /\
  in_tool_call s' = in_tool_call s /\ tool_marker_pending s' = tool_marker_pending s /\ has_non_whitespace_content s' = has_non_whitespace_content s.
Proof.
  destruct s, s'. unfold outside, set_decoded_bytes, set_stop_pending. simpl. intros H. injection H as -> -> -> -> -> -> -> -> -> -> ->. done.
Qed.

(** The state [feed_content] feeds the channel with. *)
Definition content_state s t tools : DecoderState :=
  let stripped := if strip_content_leading s then strip_leading t else t in
  track_structured_content (if strip_content_leading s && negb (bool_decide (stripped = [])) then set_strip_content_leading false s else s) stripped tools.

Lemma content_state_fields s t tools : let s' := content_state s t tools in
  kept s' = kept s /\ in_reasoning s' = in_reasoning s /\ stop_pending s' = stop_pending s /\ decoded_bytes s' = decoded_bytes s /\
  strip_content_leading s' = strip_content_leading s && bool_decide (strip_leading t = []).
Proof.
  unfold content_state. set (stripped := if strip_content_leading s then strip_leading t else t).
  destruct (track_structured_fields (if strip_content_leading s && negb (bool_decide (stripped = [])) then set_strip_content_leading false s else s) stripped tools)
    as (H1 & H2 & H3 & H4 & H5). cbv zeta. rewrite H1, H2, H3, H4, H5.
  unfold stripped. destruct (strip_content_leading s) eqn:E; simpl; [|by rewrite E]. by destruct (bool_decide (strip_leading t = [])).
Qed.

Lemma content_seen_same tools c s s' : has_non_whitespace_content s' = has_non_whitespace_content s -> in_tool_call s' = in_tool_call s ->
  tool_marker_pending s' = tool_marker_pending s -> content_seen tools c s -> content_seen tools c s'.
Proof. intros E1 E2 E3 [H1 H2]. split; congruence. Qed.

Lemma content_seen_outside tools c s s' : outside s' = outside s -> content_seen tools c s -> content_seen tools c s'.
Proof. intros (_ & _ & _ & _ & E1 & E2 & E3)%outside_fields. by apply content_seen_same. Qed.

Lemma content_state_seen s t tools c : content_seen tools c s ->
  content_seen tools (c ++ if strip_content_leading s then strip_leading t else t) (content_state s t tools).
Proof. intros H. apply track_structured_seen. destruct (_ && _); [|done]. by apply (content_seen_same _ _ s). Qed.

Lemma feed_content_spec t p committed detect tools start constrained r c prior o s best :
  content_at p tools start constrained r c (join_output prior o) s -> past Content committed s best ->
  exists s' o' best', feed_content t p committed detect tools (s, published o, best) = Ok (s', published o', best') /\
    content_at p tools start constrained r (c ++ t) (join_output prior o') s' /\ kept s' = kept s /\ in_reasoning s' = in_reasoning s /\
    (best ≠ None \/ detect = false -> best' = best) /\
    (nonempty_stops p -> best = None -> detect = true -> first_stop (on_channel Content p) (content_text start constrained c) = None ->
     leaves prior best' ((fun cut => (r, cut_text (content_text start constrained (c ++ t)) cut)) <$>
       first_stop (on_channel Content p) (content_text start constrained (c ++ t)))).
Proof.
  intros [Hr Hc Hd Hs Hseen] Hb. set (fed := if strip_content_leading s then strip_leading t else t).
  destruct (content_state_fields s t tools) as (F1 & F2 & F3 & F4 & F5).
  destruct (feed_channel_spec Content fed p committed detect (content_state s t tools) o best (content_text start constrained c) (join_output prior o).2)
    as (e & s' & best' & E & Eo & _ & Eb & Hc' & Hk & Hf); [done|by rewrite F3| |].
  { unfold past in *. by rewrite F3, F4. }
  pose proof (content_seen_outside _ _ _ _ Eo (content_state_seen s t tools _ Hseen)) as Hseen'. fold fed in Hseen'.
  apply outside_fields in Eo as (O1 & O2 & O3 & _). exists s', (more Content o e), best'.
  assert (content_text start constrained (c ++ t) = content_text start constrained c ++ fed) as Ec by (by rewrite content_text_app, <-Hs).
  split_and!; [exact E| |congruence|congruence|done|].
  - split; rewrite ?Ec, ?join_more; simpl; [done|done|rewrite Eb, F4, length_app; lia| |done].
    rewrite O3, F5, Hs. destruct (start && negb constrained) eqn:Ek; simpl; [|done]. unfold fed. rewrite Hs. simpl.
    destruct (decide (content_text start constrained c = [])) as [->|Hne]; [by rewrite bool_decide_true|].
    rewrite !(bool_decide_false (content_text _ _ _ = [])) by done. simpl. symmetry. apply bool_decide_eq_false. by intros [? _]%app_eq_nil.
  - intros Hp -> -> Hq. specialize (Hf (Z.of_nat (length r)) Hp eq_refl eq_refl Hq ltac:(by rewrite F4)). rewrite Ec.
    destruct (first_stop _ (_ ++ fed)) as [cut|]; simpl; [|exact Hf]. destruct Hf as (m & x & -> & _ & _ & Hm & Hx).
    exists m, (more Content o x). rewrite join_more. split_and!; [done|done|]. simpl. rewrite <-Hx, <-Hr. done.
Qed.

(** The reasoning fed when the marker stays open, and when it is found. *)
Lemma settled_step D t : text_find kThinkClose D = None -> text_find kThinkClose (D ++ t) = None ->
  let pending := last_bytes (longest_suffix_prefix D kThinkClose true) D ++ t in
  let hold := longest_suffix_prefix pending kThinkClose true in
  settled_reasoning (D ++ t) = settled_reasoning D ++ take (length pending - hold) pending /\
  last_bytes (longest_suffix_prefix (D ++ t) kThinkClose true) (D ++ t) = last_bytes hold pending.
Proof.
  intros Hn Hf pending hold. pose proof (marker_hold D t Hf Hn) as Eh. fold pending hold in Eh.
  destruct (marker_held D Hn) as [E _]. assert (D ++ t = settled_reasoning D ++ pending) as E' by (unfold pending; rewrite E at 1; by rewrite <-app_assoc).
  destruct (longest_suffix_prefix_spec pending kThinkClose true) as (Hl & _). fold hold in Hl.
  unfold settled_reasoning at 1, last_bytes. rewrite Eh, E', length_app. split.
  - rewrite take_app_ge by lia. f_equal. f_equal. lia.
  - rewrite drop_app_ge by lia. f_equal. lia.
Qed.

Lemma split_step D t marker : text_find kThinkClose D = None ->
  let pending := last_bytes (longest_suffix_prefix D kThinkClose true) D ++ t in
  text_find kThinkClose pending = Some marker ->
  split_text true (D ++ t) = (settled_reasoning D ++ take marker pending, Some (drop (marker + length kThinkClose) pending)).
Proof.
  intros Hn pending Hm. unfold split_text. rewrite (marker_found D t Hn). fold pending. rewrite Hm. simpl.
  destruct (marker_held D Hn) as [E _]. assert (D ++ t = settled_reasoning D ++ pending) as -> by (unfold pending; rewrite E at 1; by rewrite <-app_assoc).
  rewrite take_app_add. by rewrite <-Nat.add_assoc, drop_app_add.
Qed.

Lemma found_past p T base committed ch o pub best : nonempty_stops p ->
  found_in ch o pub T base committed (first_stop (on_channel ch p) T) best ->
  match best with Some m => committed_tokens m = committed /\ (byte_cut m < base + Z.of_nat (length T))%Z | None => True end.
Proof.
  intros Hp. unfold found_in. destruct (first_stop _ T) as [[i stop]|] eqn:F; [|by intros ->]. intros (m & x & -> & Hc & Hb & _).
  apply first_stop_Some in F as [Hs Hf]. simpl in *. apply text_find_Some in Hf as [Hf _].
  assert (stop_text stop ≠ []) as Hne by (by apply Hp, (on_channel_stop _ ch)). apply stands_length in Hf; [|done].
  split; [done|]. destruct (stop_text stop); [done|]. simpl in *. lia.
Qed.

(** A match in the reasoning leaves the output it cuts. *)
Lemma found_leaves p T base committed prior o pub best : (join_output prior o).1 = pub -> (join_output prior o).2 = [] ->
  found_in Reasoning o pub T base committed (first_stop (on_channel Reasoning p) T) best ->
  leaves prior best ((fun cut => (cut_text T cut, [])) <$> first_stop (on_channel Reasoning p) T).
Proof.
  intros H1 H2. unfold found_in. destruct (first_stop _ T) as [cut|]; simpl; [|done]. intros (m & x & -> & _ & _ & Hm & Hx).
  exists m, (more Reasoning o x). split_and!; [done|done|]. rewrite join_more. unfold more. by rewrite H1, H2, Hx.
Qed.

(** What feeding a decoder promises. *)
Definition fed p tools start constrained D t (prior : list Z * list Z) s detect (s' : DecoderState) (o' : list Z * list Z) (best' : option StopMatch) : Prop :=
  decoder_at p tools start constrained (D ++ t) (join_output prior o') s' /\ kept s' = kept s /\
  (detect = false -> best' = None) /\
  (nonempty_stops p -> detect = true -> stops_at p start constrained D = None -> leaves prior best' (stops_at p start constrained (D ++ t))).

Lemma feed_reasoning_open t p committed detect tools start constrained D prior o s :
  constrained_content s = constrained -> in_reasoning s = true -> reasoning_at p tools start D (join_output prior o) s -> text_find kThinkClose (D ++ t) = None ->
  exists s' o' best', feed_decoded_text t p committed detect tools (s, published o, None) = Ok (s', published o', best') /\
    fed p tools start constrained D t prior s detect s' o' best'.
Proof.
  intros Hk Hi [-> Hn Hm Hc [Ho Hoc] Hb Hseen] Hf. unfold feed_decoded_text. rewrite Hi, Hm. simpl. set (pending := _ ++ t).
  destruct (text_find kThinkClose pending) as [marker|] eqn:Em; [by rewrite (marker_found D t Hn) in Hf; fold pending in Hf; rewrite Em in Hf|].
  destruct (settled_step D t Hn Hf) as [Es El]. fold pending in Es, El. set (safe := take (length pending - longest_suffix_prefix pending kThinkClose true) pending) in *.
  destruct (feed_channel_spec Reasoning safe p committed detect (set_think_marker_pending pending s) o None (settled_reasoning D) (join_output prior o).1)
    as (e & s' & best' & E & Eo & Hch & Eb & Hc' & Hd & Hfi); [by destruct (app_eq_nil _ _ Ho)|done|done|].
  assert (content_seen tools [] s') as Hseen' by (eapply content_seen_outside; [exact Eo|by apply (content_seen_same _ _ s)]).
  rewrite E. simpl. apply outside_fields in Eo as (O1 & O2 & O3 & O4 & _).
  eexists _, (more Reasoning o e), best'. split; [done|]. assert (decoder_at p tools true constrained (D ++ t) (join_output prior (more Reasoning o e))
    (set_think_marker_pending (last_bytes (longest_suffix_prefix pending kThinkClose true) pending) s')) as Hat.
  { split; [injection O1 as _ _ _ _ Ek; simpl; congruence|]. simpl. rewrite O2. simpl. rewrite Hi. split; simpl; rewrite ?Es; try done.
    - simpl in Hc'. by rewrite app_assoc.
    - split; [done|]. by rewrite Hch.
    - rewrite Eb. simpl. rewrite Hb, length_app. lia.
    - by apply (content_seen_same _ _ s'). }
  split; [done|]. split; [done|]. split; [intros ->; by apply Hd; right|].
  intros Hp -> Hq. unfold stops_at, split_text in Hq |- *. rewrite Hn in Hq. rewrite Hf. rewrite Es.
  apply (found_leaves _ _ 0 committed prior o (join_output prior o).1); [done|done|]. apply Hfi; try done. by destruct (first_stop _ (settled_reasoning D)).
Qed.

(** Where the marker is found the reasoning is complete and content begins. *)
Lemma close_reasoning_spec s o best pub T p : o.2 = [] -> channel_at p Reasoning T pub (stop_pending s Reasoning) ->
  exists e s', close_channel Reasoning (s, published o, best) = Ok (s', published (more Reasoning o e), best) /\ pub ++ e = T /\
    outside s' = outside s /\ decoded_bytes s' = decoded_bytes s /\ stop_pending s' Content = stop_pending s Content /\ stop_pending s' Reasoning = [].
Proof.
  intros Ho [E _ _]. unfold close_channel. rewrite append_delta_more by done. simpl. eexists _, _. split; [done|]. done.
Qed.

Lemma stops_at_reasoning p constrained D r c : split_text true D = (r, Some c) ->
  stops_at p true constrained D = match first_stop (on_channel Reasoning p) r with
    | Some cut => Some (cut_text r cut, [])
    | None => (fun cut => (r, cut_text (content_text true constrained c) cut)) <$> first_stop (on_channel Content p) (content_text true constrained c)
    end.
Proof. intros E. unfold stops_at. by rewrite E. Qed.

(** The state in which content begins. *)
Lemma content_begins p tools constrained r s2 (total : list Z * list Z) : total = (r, []) -> stop_pending s2 Content = [] ->
  decoded_bytes s2 = Z.of_nat (length r) -> constrained_content s2 = constrained -> content_seen tools [] s2 ->
  content_at p tools true constrained r [] total (set_strip_content_leading (negb (constrained_content s2)) (set_in_reasoning false (set_think_marker_pending [] s2))).
Proof.
  intros -> Hs Hb <- Hseen. assert (content_text true (constrained_content s2) [] = []) as E by (by destruct (constrained_content s2)).
  split; rewrite ?E; simpl; [done|rewrite Hs; apply channel_at_nil|lia|by destruct (constrained_content s2)|by apply (content_seen_same _ _ s2)].
Qed.

Lemma feed_reasoning_close t p committed detect tools start constrained D prior o s :
  constrained_content s = constrained -> in_reasoning s = true -> reasoning_at p tools start D (join_output prior o) s -> text_find kThinkClose (D ++ t) ≠ None ->
  nonempty_stops p -> detect = false \/ stops_at p start constrained D = None ->
  exists s' o' best', feed_decoded_text t p committed detect tools (s, published o, None) = Ok (s', published o', best') /\
    fed p tools start constrained D t prior s detect s' o' best'.
Proof.
  intros Hk Hi [-> Hn Hm Hc [Ho Hoc] Hb Hseen] Hf Hp Hq. destruct (app_eq_nil _ _ Ho) as [_ Ho2]. unfold feed_decoded_text. rewrite Hi, Hm. simpl. set (pending := _ ++ t).
  destruct (text_find kThinkClose pending) as [marker|] eqn:Em; [|by rewrite (marker_found D t Hn) in Hf; fold pending in Hf; rewrite Em in Hf].
  pose proof (split_step D t marker Hn Em) as Es. fold pending in Es. set (last_ := take marker pending) in *. set (r := settled_reasoning D ++ last_) in *.
  destruct (feed_channel_spec Reasoning last_ p committed detect (set_think_marker_pending pending s) o None (settled_reasoning D) (join_output prior o).1)
    as (e & s1 & best1 & -> & Eo & Hch & Eb & Hc' & Hd & Hfi); [done|done|done|]. cbn [mbind res_bind]. fold r in Hc', Hfi.
  destruct (close_reasoning_spec s1 (more Reasoning o e) best1 _ _ p Ho2 Hc') as (e2 & s2 & -> & Ee & Eo2 & Eb2 & Hch2 & _). cbn [mbind res_bind].
  assert (content_seen tools [] s2) as Hseen2 by (eapply content_seen_outside; [exact Eo2|]; eapply content_seen_outside; [exact Eo|by apply (content_seen_same _ _ s)]).
  apply outside_fields in Eo as (K1 & _), Eo2 as (K2 & _). assert (constrained_content s2 = constrained) as Ek.
  { injection K1 as _ _ _ _ Ek. injection K2 as _ _ _ _ Ek2. simpl in Ek. congruence. }
  assert (decoded_bytes s2 = Z.of_nat (length r)) as Ebytes by (unfold r; rewrite Eb2, Eb, length_app; simpl; rewrite Hb; lia).
  assert (stop_pending s2 Content = []) as Econt by (rewrite Hch2, Hch; done).
  set (total := more Reasoning (more Reasoning o e) e2) in *.
  assert (join_output prior total = (r, [])) as Et by (unfold total; rewrite !join_more; apply pair_equal_spec; split; [exact Ee|exact Ho]).
  assert (Hfind := fun Hdet Hstop => Hfi 0%Z Hp eq_refl Hdet Hstop Hb).
  assert (detect = true -> first_stop (on_channel Reasoning p) (settled_reasoning D) = None) as Hquiet.
  { intros ->. destruct Hq as [|Hq]; [done|]. unfold stops_at, split_text in Hq. rewrite Hn in Hq. by destruct (first_stop _ (settled_reasoning D)). }
  destruct (feed_content_spec (drop (marker + length kThinkClose) pending) p committed detect tools true constrained r [] prior total _ best1
    (content_begins p tools constrained r s2 _ Et Econt Ebytes Ek Hseen2)) as (s' & o' & best' & E & Hat & K3 & Hin & Hd' & Hl).
  { unfold past. simpl. rewrite Econt, Ebytes. destruct detect; [|by rewrite Hd by (by right)]. simpl.
    pose proof (found_past _ _ _ _ _ _ _ _ Hp (Hfind eq_refl (Hquiet eq_refl))) as Hx. destruct best1; [|done]. destruct Hx. split; [done|lia]. }
  exists s', o', best'. split; [exact E|]. split_and!; [|unfold kept in *; simpl in *; congruence|intros ->; rewrite Hd' by (by right); by apply Hd; right|].
  - split; [injection K3 as _ _ _ _ K; simpl in K; congruence|]. rewrite Hin. simpl. exists r, (drop (marker + length kThinkClose) pending). done.
  - intros _ -> _. rewrite (stops_at_reasoning _ _ _ _ _ Es). specialize (Hfind eq_refl (Hquiet eq_refl)).
    destruct (first_stop (on_channel Reasoning p) r) as [cut|] eqn:Ef; simpl in Hfind.
    + destruct Hfind as (m & x & -> & _ & _ & Hm' & Hx). rewrite Hd' by (by left). exists m, (more Reasoning o x). rewrite join_more. split_and!; [done|done|].
      apply pair_equal_spec. by split.
    + subst best1. apply Hl; try done. replace (content_text true constrained []) with (@nil Z) by (by destruct constrained).
      apply first_stop_None. intros stop Hs. apply text_find_nil. by apply Hp, (on_channel_stop _ Content).
Qed.

Lemma split_text_app start D t r c : split_text start D = (r, Some c) -> split_text start (D ++ t) = (r, Some (c ++ t)).
Proof.
  unfold split_text. destruct start; [|by intros [= <- <-]]. destruct (text_find kThinkClose D) as [i|] eqn:E; [|done]. intros [= <- <-].
  apply text_find_Some in E as [Hs Hn]. pose proof (stands_length kThinkClose D i ltac:(done) Hs) as Hl.
  replace (text_find kThinkClose (D ++ t)) with (Some i).
  - rewrite take_app_le, drop_app_le by lia. done.
  - symmetry. apply text_find_Some. split; [by apply stands_app|]. intros j Hj Hs'. apply (Hn j Hj). eapply stands_inside; [|exact Hs']. lia.
Qed.

Lemma feed_decoded_text_spec t p committed detect tools start constrained D prior o s :
  nonempty_stops p -> detect = false \/ stops_at p start constrained D = None -> decoder_at p tools start constrained D (join_output prior o) s ->
  exists s' o' best', feed_decoded_text t p committed detect tools (s, published o, None) = Ok (s', published o', best') /\
    fed p tools start constrained D t prior s detect s' o' best'.
Proof.
  intros Hp Hq [Hk Hat]. destruct (in_reasoning s) eqn:Hi.
  - destruct (decide (text_find kThinkClose (D ++ t) = None)); [by apply feed_reasoning_open|by apply feed_reasoning_close].
  - destruct Hat as (r & c & Es & Hat). unfold feed_decoded_text. rewrite Hi. simpl.
    destruct (feed_content_spec t p committed detect tools start constrained r c prior o s None Hat I) as (s' & o' & best' & E & Hat' & K & Hin & Hd & Hl).
    exists s', o', best'. split; [exact E|]. apply (split_text_app _ _ t) in Es as Es'.
    split_and!; [|done|intros ->; by apply Hd; right|].
    + split; [by injection K as _ _ _ _ K; rewrite K|]. rewrite Hin, Hi. by exists r, (c ++ t).
    + intros _ -> Hs. unfold stops_at in Hs |- *. rewrite Es in Hs. rewrite Es'. destruct (first_stop (on_channel Reasoning p) r); [done|].
      apply Hl; try done. simpl in Hs. by destruct (first_stop (on_channel Content p) _).
Qed.

(** ** Bytes *)
Definition decoded (B : list Z) : list Z := (consume_generated_utf8 B).1.
Definition undecoded (B : list Z) : list Z := (consume_generated_utf8 B).2.

(** The text of an output that ends with [B]: an unfinished character is replaced. *)
Definition final_text (B : list Z) : list Z := decoded B ++ (if bool_decide (undecoded B = []) then [] else kUtf8Replacement).

Lemma decoded_app B b : decoded (B ++ b) = decoded B ++ decoded (undecoded B ++ b) /\ undecoded (B ++ b) = undecoded (undecoded B ++ b).
Proof.
  unfold decoded, undecoded. rewrite consume_app. destruct (consume_generated_utf8 B) as [d k]. simpl. by destruct (consume_generated_utf8 (k ++ b)).
Qed.

Record decoding p tools start constrained (B : list Z) (total : list Z * list Z) s : Prop := {
  decoding_text : decoder_at p tools start constrained (decoded B) total s;
  decoding_bytes : utf8_pending s = undecoded B;
}.

Lemma decoder_at_utf8 p tools start constrained D total s v : decoder_at p tools start constrained D total s -> decoder_at p tools start constrained D total (set_utf8_pending v s).
Proof.
  intros [Hk H]. split; [done|]. simpl. destruct (in_reasoning s).
  - destruct H. split; try done. by apply (content_seen_same _ _ s).
  - destruct H as (r & c & E & []). exists r, c. split; [done|]. split; try done. by apply (content_seen_same _ _ s).
Qed.

(** What a round leaves alone. *)
Definition settings s : bool * Z * bool := (terminal s, reasoning_tokens s, require_initial_content s).

Lemma feed_token_bytes_spec b p committed tools start constrained B prior o s :
  nonempty_stops p -> stops_at p start constrained (decoded B) = None -> decoding p tools start constrained B (join_output prior o) s ->
  exists s' o' best', feed_token_bytes b p committed true tools (s, published o, None) = Ok (s', published o', best') /\
    decoding p tools start constrained (B ++ b) (join_output prior o') s' /\ settings s' = settings s /\
    leaves prior best' (stops_at p start constrained (decoded (B ++ b))).
Proof.
  intros Hp Hq [Hat Hu]. destruct (decoded_app B b) as [E1 E2]. unfold feed_token_bytes. rewrite Hu.
  unfold decoded at 3 in E1. unfold undecoded at 2 in E2. destruct (consume_generated_utf8 (undecoded B ++ b)) as [t pending]. simpl in E1, E2.
  case_bool_decide as Ht.
  - subst t. rewrite app_nil_r in E1. exists (set_utf8_pending pending s), o, None. rewrite <-E2, E1. split_and!; [done| |done|by rewrite Hq].
    split; [rewrite E1; by apply decoder_at_utf8|done].
  - destruct (feed_decoded_text_spec t p committed true tools start constrained (decoded B) prior o (set_utf8_pending pending s) Hp (or_intror Hq) (decoder_at_utf8 _ _ _ _ _ _ _ _ Hat))
      as (s' & o' & best' & E & Hat' & K & _ & Hl). exists s', o', best'. rewrite E1. unfold kept in K. simpl in K. injection K as K1 K2 K3 K4 K5.
    split_and!; [done| |unfold settings; congruence|by apply Hl]. split; [by rewrite E1|congruence].
Qed.

(** Closing publishes everything: nothing is held back and nothing is cut. *)
Lemma close_spec p committed tools start constrained D prior o s : decoder_at p tools start constrained D (join_output prior o) s ->
  exists s' o', (f ← (if in_reasoning s then
         f ← feed_channel Reasoning (think_marker_pending s) p committed false (s, published o, None);
         let '(s, emitted, best) := f in close_channel Reasoning (set_think_marker_pending [] s, emitted, best)
       else close_channel Content (s, published o, None));
     let '(s, emitted, _) := f in Ok (set_terminal true (set_stop_pending no_pending s), emitted)) = Ok (s', published o') /\
    join_output prior o' = whole_text start constrained D /\ terminal s' = true.
Proof.
  intros [Hk Hat]. destruct (in_reasoning s) eqn:Hi.
  - destruct Hat as [-> Hn Hm Hc [Ho Hoc] Hb _]. destruct (app_eq_nil _ _ Ho) as [_ Ho2]. rewrite Hm.
    destruct (feed_channel_spec Reasoning (last_bytes (longest_suffix_prefix D kThinkClose true) D) p committed false s o None _ _ Ho2 Hc I)
      as (e & s1 & best1 & -> & _ & _ & _ & Hc' & _). cbn [mbind res_bind].
    destruct (close_reasoning_spec (set_think_marker_pending [] s1) (more Reasoning o e) best1 _ _ p Ho2 Hc') as (e2 & s2 & -> & Ee & _). cbn [mbind res_bind].
    eexists _, _. split; [done|]. split; [|done]. rewrite !join_more. unfold whole_text, split_text. rewrite Hn. apply pair_equal_spec.
    split; [|exact Ho]. destruct (marker_held D Hn) as [E _]. rewrite E. exact Ee.
  - destruct Hat as (r & c & Es & [Hr [E _ _] _ _ _]). unfold close_channel. rewrite append_delta_more by done. cbn [mbind res_bind].
    eexists _, _. split; [done|]. split; [|done]. rewrite join_more. unfold whole_text. rewrite Es. apply pair_equal_spec. split; [exact Hr|by symmetry].
Qed.

Lemma terminalize_spec p committed tools start constrained B prior o s : nonempty_stops p ->
  decoding p tools start constrained B (join_output prior o) s ->
  exists s' o', terminalize s (published o) p committed tools = Ok (s', published o') /\
    join_output prior o' = whole_text start constrained (final_text B) /\ terminal s' = true.
Proof.
  intros Hp [Hat Hu]. unfold terminalize, final_text. rewrite Hu. case_bool_decide; [rewrite app_nil_r; by eapply close_spec|].
  destruct (feed_decoded_text_spec kUtf8Replacement p committed false tools start constrained (decoded B) prior o (set_utf8_pending [] s) Hp (or_introl eq_refl) (decoder_at_utf8 _ _ _ _ _ _ _ _ Hat))
    as (s' & o' & best' & -> & Hat' & _ & Hd & _). rewrite (Hd eq_refl). cbn [mbind res_bind]. by eapply close_spec.
Qed.
