(* ===== verification/OutputRounds.v ===== *)
(** * Rounds and lives of an output session

    The filter that takes tool calls out of the content, the rounds that preview tokens
    and commit or discard them, and the life of a session as its caller drives it. *)

From stdpp Require Import prelude functions list list_numbers.
From Stdlib Require Import ZArith Lia.
From S2P Require Import Prelude Capacity ExecState Utf8 OutputSession OutputDecoder OutputStream.

(** ** Tool calls in the content

    [filter_tools] takes the calls out of the content.  Whatever the rounds, the content
    is a sequence of segments: published text, calls that parsed, and white space
    after a call; what is not decided yet is pending, and only the beginning of a
    call is dropped at the end. *)
Section Tools.
Context {ToolCall : Type}.
Implicit Types (g : @TokenGrammarData ToolCall) (t : @ToolPublication ToolCall) (c a b : list Z) (last_round : bool).

Inductive Segment : Type :=
  | Shown (s : list Z)
  | Called (s : list Z) (call : ToolCall)
  | Space (s : list Z).

Definition segment_text (x : Segment) : list Z := match x with Shown s | Called s _ | Space s => s end.
Definition segment_shown (x : Segment) : list Z := match x with Shown s => s | _ => [] end.
Definition segment_call (x : Segment) : list ToolCall := match x with Called _ call => [call] | _ => [] end.

Definition segment_ok g (x : Segment) : Prop :=
  match x with
  | Shown _ => True
  | Called s call => decode_call g s = Some call /\ kToolOpen `prefix_of` s /\ kToolClose `suffix_of` s
  | Space s => blank s = true
  end.

(** Content [c] of which [v] is published and the end [rest] is undecided. *)
Definition segmented g c (v : list Z) (calls : list ToolCall) (rest : list Z) : Prop :=
  exists xs, c = mjoin (segment_text <$> xs) ++ rest /\ v = mjoin (segment_shown <$> xs) /\ calls = mjoin (segment_call <$> xs) /\ Forall (segment_ok g) xs.

Lemma segmented_nil g : segmented g [] [] [] [].
Proof. by exists []. Qed.

Lemma segmented_grow g c v l rest s : segmented g c v l rest -> segmented g (c ++ s) v l (rest ++ s).
Proof. intros (xs & -> & H). exists xs. split; [by rewrite app_assoc|done]. Qed.

Lemma segmented_snoc g c v l x rest : segmented g c v l (segment_text x ++ rest) -> segment_ok g x ->
  segmented g c (v ++ segment_shown x) (l ++ segment_call x) rest.
Proof.
  intros (xs & -> & -> & -> & H) Hx. exists (xs ++ [x]). rewrite !fmap_app, !join_app. simpl. rewrite !app_nil_r, <-app_assoc.
  split_and!; [done|done|done|]. apply Forall_app. split; [done|]. by constructor.
Qed.

Lemma segmented_show g c v l a b : segmented g c v l (a ++ b) -> segmented g c (v ++ a) l b.
Proof. intros H. apply (segmented_snoc _ _ _ _ (Shown a)) in H; [|done]. simpl in H. by rewrite app_nil_r in H. Qed.

Lemma segmented_space g c v l a b : segmented g c v l (a ++ b) -> blank a = true -> segmented g c v l b.
Proof. intros H Hb. apply (segmented_snoc _ _ _ _ (Space a)) in H; [|done]. simpl in H. by rewrite !app_nil_r in H. Qed.

(** A call that is complete ends with the marker. *)
Lemma complete_call_spec fuel g pending pos call end_ : complete_call fuel g pending pos = Some (call, end_) ->
  decode_call g (take end_ pending) = Some call /\ kToolClose `suffix_of` take end_ pending /\ (length kToolClose <= end_)%nat.
Proof.
  revert pos. induction fuel as [|fuel IH]; intros pos; simpl; [done|]. unfold text_find_from.
  destruct (text_find kToolClose (drop pos pending)) as [i|] eqn:E; [|done]. simpl.
  destruct (decode_call g (take (pos + i + 12) pending)) as [call'|] eqn:Ed; [|by apply IH]. intros [= -> <-]. split_and!; [done| |simpl; lia].
  apply text_find_Some in E as [[r Hs] _]. rewrite drop_drop in Hs. exists (take (pos + i) pending).
  rewrite <-(take_drop (pos + i) pending) at 1. rewrite Hs.
  rewrite take_app_ge; [|rewrite length_take; lia].
  assert (pos + i <= length pending)%nat as Hl.
  { destruct (decide (pos + i <= length pending)%nat); [done|]. rewrite drop_ge in Hs by lia. done. }
  rewrite length_take_le by done. f_equal. rewrite take_app_le by (simpl; lia). rewrite take_ge; [done|simpl; lia].
Qed.

Lemma prefix_take (m s : list Z) n : m `prefix_of` s -> (length m <= n)%nat -> m `prefix_of` take n s.
Proof. intros [r ->] Hn. rewrite take_app_ge by done. by apply prefix_app_r. Qed.

(** ** The loop over the calls *)

Lemma separator_blank (l : list ToolCall) a : separator l a = true -> blank a = true.
Proof. by intros [_ ?]%andb_prop. Qed.

(** The text before a call is published unless it separates calls. *)
Lemma before_call_spec g (prior : list Z) c (v : list Z * list Z) (l : list ToolCall) a b : segmented g c (prior ++ v.2) l (a ++ b) ->
  exists v', (if separator l a then Ok (published v) else append_delta (published v) Content a) = Ok (published v') /\ v'.1 = v.1 /\
    segmented g c (prior ++ v'.2) l b.
Proof.
  intros Hs. destruct (separator l a) eqn:E.
  - exists v. split_and!; [done|done|]. eapply segmented_space; [done|]. by apply (separator_blank _ _ E).
  - exists (more Content v a). split_and!; [by apply append_delta_more|done|]. simpl. rewrite app_assoc. by apply segmented_show.
Qed.

(** No call begins: all but what could begin one is published. *)
Lemma no_call_spec g last_round (prior : list Z) c (v : list Z * list Z) t : segmented g c (prior ++ v.2) (calls t) (tool_pending t) ->
  let pending := tool_pending t in
  exists v' t', (if separator (calls t) pending then Ok (published v, MkTools (if last_round then [] else pending) (calls t))
      else let suffix := longest_suffix_prefix pending kToolOpen false in
        let hold := if negb last_round || (suffix =? length kToolOpen - 1)%nat then suffix else 0%nat in
        visible ← append_delta (published v) Content (take (length pending - hold) pending);
        Ok (visible, MkTools (last_bytes hold pending) (calls t))) = Ok (published v', t') /\ v'.1 = v.1 /\
    segmented g c (prior ++ v'.2) (calls t') (tool_pending t').
Proof.
  intros Hs pending. destruct (separator (calls t) pending) eqn:E.
  - exists v. eexists. split_and!; [done|done|]. simpl. destruct last_round; [|done]. eapply segmented_space; [by rewrite app_nil_r|].
    by apply (separator_blank _ _ E).
  - cbv zeta. rewrite append_delta_more by done. cbn [mbind res_bind].
    eexists _, _. split_and!; [done|done|]. simpl. rewrite app_assoc. apply segmented_show. by rewrite take_last_bytes.
Qed.

Lemma filter_calls_spec fuel g last_round (prior : list Z) c (v : list Z * list Z) t : segmented g c (prior ++ v.2) (calls t) (tool_pending t) ->
  exists v' t', filter_calls fuel g last_round (published v) t = Ok (published v', t') /\ v'.1 = v.1 /\
    segmented g c (prior ++ v'.2) (calls t') (tool_pending t').
Proof.
  revert v t. induction fuel as [|fuel IH]; intros v t Hs; cbn [filter_calls];
    (destruct (text_find kToolOpen (tool_pending t)) as [open|] eqn:Eo; [|by apply no_call_spec]);
    rewrite <-(take_drop open (tool_pending t)) in Hs; apply before_call_spec in Hs as (v1 & -> & H1 & Hs); cbn [mbind res_bind];
    destruct (complete_call _ g _ 0) as [[call end_]|] eqn:Ec; try (by exists v1, (MkTools (drop open (tool_pending t)) (calls t))).
  apply complete_call_spec in Ec as (Hd & Hsuf & Hl). apply text_find_Some in Eo as [Ho _].
  rewrite <-(take_drop end_ (drop open (tool_pending t))) in Hs.
  apply (segmented_snoc _ _ _ _ (Called _ call)) in Hs; [|split_and!; [done| |done]; apply prefix_take; [done|simpl in *; lia]].
  simpl in Hs. rewrite app_nil_r in Hs.
  destruct (IH v1 (MkTools (drop end_ (drop open (tool_pending t))) (calls t ++ [call])) Hs) as (v' & t' & E & H2 & H3).
  exists v', t'. split_and!; [done|congruence|done].
Qed.

(** ** A round *)
Lemma filter_deltas_spec g last_round (prior : list Z) c (v o : list Z * list Z) t : segmented g c (prior ++ v.2) (calls t) (tool_pending t) -> v.2 = [] ->
  exists v' t', filter_deltas g last_round (published o) (published v) t = Ok (published v', t') /\ v'.1 = v.1 ++ o.1 /\
    segmented g (c ++ o.2) (prior ++ v'.2) (calls t') (tool_pending t').
Proof.
  destruct o as [r oc]. unfold published at 1, output_of. simpl. intros Hs Hv.
  assert (forall w, w.2 = v.2 -> w.1 = v.1 ++ r -> exists v' t', filter_deltas g last_round (delta_of Content oc) (published w) t = Ok (published v', t') /\
    v'.1 = v.1 ++ r /\ segmented g (c ++ oc) (prior ++ v'.2) (calls t') (tool_pending t')) as Hc.
  { intros w Hw2 Hw1. unfold delta_of. case_bool_decide as Hoc; simpl.
    - exists w, t. subst oc. rewrite app_nil_r, Hw2. done.
    - destruct (filter_calls_spec (length (tool_pending t ++ oc)) g last_round prior (c ++ oc) w (MkTools (tool_pending t ++ oc) (calls t)))
        as (v' & t' & -> & H1 & H2); [simpl; rewrite Hw2; by apply segmented_grow|]. exists v', t'. split_and!; [done|congruence|done]. }
  unfold delta_of at 1. case_bool_decide as Hr; simpl.
  - apply Hc; [done|]. by rewrite Hr, app_nil_r.
  - rewrite append_delta_more by done. apply Hc; done.
Qed.

(** After the last round only the beginning of a call is left out. *)
Definition segmented_whole g c v (l : list ToolCall) : Prop :=
  exists dropped, segmented g c v l dropped /\ (dropped = [] \/ tool_trigger `prefix_of` dropped).

Definition tools_after g last_round c v t : Prop :=
  if last_round then segmented_whole g c v (calls t) else segmented g c v (calls t) (tool_pending t).

Lemma filter_tools_spec g last_round (prior : list Z) c (o : list Z * list Z) t : segmented g c prior (calls t) (tool_pending t) ->
  exists v' t', filter_tools (published o) g last_round t = Ok (published v', t') /\ v'.1 = o.1 /\ tools_after g last_round (c ++ o.2) (prior ++ v'.2) t'.
Proof.
  intros Hs. unfold filter_tools. change (@nil OutputDelta) with (published ([], [])).
  destruct (filter_deltas_spec g last_round prior c ([], []) o t) as (v1 & t1 & -> & H1 & H2); [by simpl; rewrite app_nil_r|done|]. cbn [mbind res_bind].
  destruct last_round; cbn [negb]; [|by exists v1, t1].
  destruct (starts_with tool_trigger (tool_pending t1)) eqn:Et; cbn [negb andb].
  { eexists v1, _. split_and!; [done|done|]. exists (tool_pending t1). split; [done|]. right. by apply bool_decide_eq_true in Et. }
  rewrite <-(app_nil_r (tool_pending t1)) in H2. destruct (separator (calls t1) (tool_pending t1)) eqn:E; cbn [negb].
  - eexists v1, _. split_and!; [done|done|]. exists []. split; [|by left]. eapply segmented_space; [done|]. by apply (separator_blank _ _ E).
  - rewrite append_delta_more by done. cbn [mbind res_bind]. eexists _, _. split_and!; [done|done|]. exists []. split; [|by left].
    simpl. rewrite app_assoc. by apply segmented_show.
Qed.

End Tools.

(** ** Rounds

    A round previews tokens and commits or discards them.  [session_at] is what a
    running session holds after the tokens it accepted; [round_result] is what a
    preview decides, against the reference that reads all tokens at once. *)

#[local] Arguments join_output : simpl never.

Section Rounds.
Context {Tok : Tokenizer} {Mat : Matcher} {ToolCall : Type}.
Abbreviation Session := (@OutputSession Mat ToolCall).
Implicit Types (s : Session) (st : DecoderState) (start constrained : bool) (tokens accepted : list Z) (total shown o : list Z * list Z).

(** ** The text of tokens *)
Definition token_text s (token : Z) : list Z :=
  match decode_token_bytes token (negb (preserve_special s) || (bool_decide (token ∈ model_stop_tokens s) && negb (preserve_model_stops s))) with
  | Ok b => b
  | Throw _ => []
  end.
Definition tokens_text s tokens : list Z := mjoin (token_text s <$> tokens).

Lemma tokens_text_app s tokens tokens' : tokens_text s (tokens ++ tokens') = tokens_text s tokens ++ tokens_text s tokens'.
Proof. unfold tokens_text. by rewrite fmap_app, join_app. Qed.

Lemma tokens_text_snoc s tokens token : tokens_text s (tokens ++ [token]) = tokens_text s tokens ++ token_text s token.
Proof. rewrite tokens_text_app. f_equal. apply app_nil_r. Qed.

(** ** The parts of a session *)

(** Published content against the decoder's output, when [tools] is the tool state. *)
Definition shown_by s (last_round : bool) total shown (t : @ToolPublication ToolCall) : Prop :=
  shown.1 = total.1 /\
  match filters_tools s with
  | None => shown.2 = total.2
  | Some g => tools_after g last_round total.2 shown.2 t
  end.

(** The grammar state after the accepted tokens. *)
Definition grammar_at (matcher : option GrammarMatcher) accepted (g : option TokenGrammarState) : Prop :=
  match g with
  | None => True
  | Some g => preview_matcher g = None /\ (m ← matcher; grammar_accept_all (ignored_model_stops g) m accepted) = Some (committed_matcher g)
  end.

Record session_at start constrained (matcher : option GrammarMatcher) accepted total shown s : Prop := {
  session_stops : nonempty_stops (policy s);
  session_running : terminal (state s) = false;
  session_idle : preview_of s = None;
  session_text : decoding (policy s) (tool_output_enabled s) start constrained (tokens_text s accepted) total (state s);
  session_quiet : stops_at (policy s) start constrained (decoded (tokens_text s accepted)) = None;
  session_tools : shown_by s false total shown (tools s);
  session_grammar : grammar_at matcher accepted (token_grammar s);
}.

(** ** Completing a preview *)

(** The grammar state that a preview of [tokens] leaves, when they are accepted. *)
Definition grammar_next s tokens : option (option TokenGrammarState) :=
  match token_grammar s with
  | None => Some None
  | Some g =>
      (fun m => Some (MkGrammarState (ignored_model_stops g) (committed_matcher g) (Some m))) <$>
        grammar_accept_all (ignored_model_stops g) (committed_matcher g) tokens
  end.

Lemma complete_preview_spec start constrained matcher accepted total shown s st o channels tokens reason reject :
  session_at start constrained matcher accepted total shown s ->
  match complete_preview st (published o) channels tokens reason reject s with
  | Throw e => e = logic_error /\ grammar_next s tokens = None
  | Ok (d, s') => d = MkDecision (Z.of_nat (length tokens)) reason reject /\
      exists g v t, grammar_next s tokens = Some g /\
        s' = with_preview (Some (MkPreview st (published v) (take (length tokens) channels) t)) g s /\
        shown_by s (negb (bool_decide (reason = FinishNone))) (join_output total o) (join_output shown v) t
  end.
Proof.
  intros Hs. unfold complete_preview, grammar_next. pose proof (session_grammar _ _ _ _ _ _ _ Hs) as Hg. destruct (session_tools _ _ _ _ _ _ _ Hs) as [H1 H2].
  assert (forall g, match ('(output, t) ← match filters_tools s with
       | Some g => filter_tools (published o) g (negb (bool_decide (reason = FinishNone))) (tools s) | None => Ok (published o, tools s) end;
     Ok (MkDecision (Z.of_nat (length tokens)) reason reject, with_preview (Some (MkPreview st output (take (length tokens) channels) t)) g s)) with
   | Throw e => False
   | Ok (d, s') => d = MkDecision (Z.of_nat (length tokens)) reason reject /\ exists v t,
        s' = with_preview (Some (MkPreview st (published v) (take (length tokens) channels) t)) g s /\
        shown_by s (negb (bool_decide (reason = FinishNone))) (join_output total o) (join_output shown v) t end) as Hc.
  { intros g. unfold shown_by in *. destruct (filters_tools s) as [d|].
    - destruct (filter_tools_spec d (negb (bool_decide (reason = FinishNone))) shown.2 total.2 o (tools s) H2) as (v & t & -> & H3 & H4). cbn [mbind res_bind].
      split; [done|]. exists v, t. split_and!; [done| |done]. unfold join_output. simpl. by rewrite H1, H3.
    - cbn [mbind res_bind]. split; [done|]. exists o, (tools s). unfold join_output. simpl. by rewrite H1, H2. }
  destruct (token_grammar s) as [g|].
  - destruct Hg as [Hp _]. unfold grammar_preview. rewrite Hp. cbn [throw_if is_Some bool_decide mbind res_bind].
    destruct (grammar_accept_all _ _ tokens) as [m|]; [|done]. cbn [mbind res_bind option_fmap fmap option_map].
    specialize (Hc (Some (MkGrammarState (ignored_model_stops g) (committed_matcher g) (Some m)))).
    destruct (_ ≫= _) as [[d s']|]; [|done]. destruct Hc as (-> & v & t & -> & Hc). split; [done|]. eauto 10.
  - cbn [mbind res_bind]. specialize (Hc None). destruct (_ ≫= _) as [[d s']|]; [|done]. destruct Hc as (-> & v & t & -> & Hc). split; [done|]. eauto 10.
Qed.

(** ** What a preview decides *)

(** [B] are the bytes of the tokens committed before, [total] what they gave. *)
Definition round_result s start constrained (B : list Z) total (budget : Z) (limit : FinishReason) (d : OutputDecision) accepted st o : Prop :=
  let p := policy s in
  let text := fun tokens => B ++ tokens_text s tokens in
  if reject_generated_round d then finish_reason d = FinishNone /\ accepted = [] /\ st = state s /\ o = ([], [])
  else
    match finish_reason d with
    | FinishNone =>
        accepted ≠ [] /\ (Z.of_nat (length accepted) < budget)%Z /\ terminal st = false /\ require_initial_content st = require_initial_content (state s) /\
        decoding p (tool_output_enabled s) start constrained (text accepted) (join_output total o) st /\ stops_at p start constrained (decoded (text accepted)) = None
    | StopString =>
        terminal st = true /\ stops_at p start constrained (decoded (text accepted)) = Some (join_output total o) /\
        exists front token, accepted = front ++ [token] /\ stops_at p start constrained (decoded (text front)) = None
    | StopToken =>
        terminal st = true /\
        exists front token, accepted = front ++ [token] /\ token ∈ token_ids p /\ stops_at p start constrained (decoded (text front)) = None /\
          join_output total o = whole_text start constrained (final_text (text (if publish_stop_token p then accepted else front)))
    | reason =>
        reason = limit /\ Z.of_nat (length accepted) = budget /\ terminal st = true /\
        stops_at p start constrained (decoded (text accepted)) = None /\ join_output total o = whole_text start constrained (final_text (text accepted))
    end.

(** Why a preview of [tokens] throws. *)
Definition faulty s tokens (e : exn) : Prop :=
  (e = out_of_range /\ exists token, token ∈ tokens /\ is_valid_token token = false) \/
  (e = logic_error /\ reasoning_end_token s ∈ tokens /\ raw s = false /\ grammar_data s = None) \/
  (exists token skip, token ∈ tokens /\ decode_token_bytes token skip = Throw e) \/
  (e = logic_error /\ exists accepted, accepted `prefix_of` tokens /\ grammar_next s accepted = None).

Definition previewed s start constrained (B : list Z) total shown tokens (budget : Z) (limit : FinishReason) (r : res (OutputDecision * Session)) : Prop :=
  match r with
  | Throw e => faulty s tokens e
  | Ok (d, s') => exists accepted st o g v channels t,
      accepted `prefix_of` tokens /\ accepted_tokens d = Z.of_nat (length accepted) /\
      round_result s start constrained B total budget limit d accepted st o /\ grammar_next s accepted = Some g /\
      s' = with_preview (Some (MkPreview st (published v) channels t)) g s /\
      shown_by s (finished d) (join_output total o) (join_output shown v) t
  end.

Lemma completed start constrained matcher before total shown s st o channels accepted tokens budget limit reason reject :
  session_at start constrained matcher before total shown s -> accepted `prefix_of` tokens ->
  round_result s start constrained (tokens_text s before) total budget limit (MkDecision (Z.of_nat (length accepted)) reason reject) accepted st o ->
  previewed s start constrained (tokens_text s before) total shown tokens budget limit (complete_preview st (published o) channels accepted reason reject s).
Proof.
  intros Hs Hp Hr. pose proof (complete_preview_spec _ _ _ _ _ _ s st o channels accepted reason reject Hs) as Hc.
  destruct (complete_preview _ _ _ _ _ _ _) as [[d s']|e]; simpl.
  - destruct Hc as (-> & g & v & t & Hg & -> & Hv). exists accepted, st, o, g, v, (take (length accepted) channels), t. done.
  - destruct Hc as [-> Hg]. right. right. right. eauto.
Qed.

Lemma decoding_reasoning_tokens p tools start constrained B total st n : decoding p tools start constrained B total st ->
  decoding p tools start constrained B total (set_reasoning_tokens n st).
Proof.
  intros [[Hk H] Hu]. split; [|done]. split; [done|]. simpl. destruct (in_reasoning st).
  - destruct H. split; try done. by apply (content_seen_same _ _ st).
  - destruct H as (r & c & E & []). exists r, c. split; [done|]. split; try done. by apply (content_seen_same _ _ st).
Qed.

Definition limits (limit : FinishReason) : Prop := limit = OutputLimit \/ limit = ContextCapacity.

(** The loop ran out of tokens. *)
Lemma loop_end start constrained matcher before total shown s st o channels accepted budget limit :
  session_at start constrained matcher before total shown s -> limits limit ->
  accepted ≠ [] -> (Z.of_nat (length accepted) <= budget)%Z -> terminal st = false -> require_initial_content st = require_initial_content (state s) ->
  decoding (policy s) (tool_output_enabled s) start constrained (tokens_text s before ++ tokens_text s accepted) (join_output total o) st ->
  stops_at (policy s) start constrained (decoded (tokens_text s before ++ tokens_text s accepted)) = None ->
  previewed s start constrained (tokens_text s before) total shown accepted budget limit
    (if (Z.of_nat (length accepted) =? budget)%Z then
       '(st, output) ← terminalize st (published o) (policy s) (Z.of_nat (length accepted)) (tool_output_enabled s);
       complete_preview st output channels accepted limit false s
     else complete_preview st (published o) channels accepted FinishNone false s).
Proof.
  intros Hs Hl Hne Hb Ht Hreq Hd Hq. destruct (Z.eqb_spec (Z.of_nat (length accepted)) budget) as [E|E].
  - destruct (terminalize_spec (policy s) (Z.of_nat (length accepted)) (tool_output_enabled s) start constrained _ total o st (session_stops _ _ _ _ _ _ _ Hs) Hd)
      as (st' & o' & -> & H1 & H2). cbn [mbind res_bind]. eapply completed; [done|done|]. destruct Hl as [-> | ->]; by simpl.
  - eapply completed; [done|done|]. simpl. split_and!; [done|lia|done|done|done|done].
Qed.

(** The tokens up to a stop token or a stop string. *)
Lemma loop_stop start constrained matcher before total shown s st after o o' best channels done_ token rest count budget limit :
  session_at start constrained matcher before total shown s ->
  let p := policy s in let text := fun tokens => tokens_text s before ++ tokens_text s tokens in let taken := done_ ++ [token] in
  stops_at p start constrained (decoded (text done_)) = None ->
  decoding p (tool_output_enabled s) start constrained (text done_) (join_output total o) st -> decoding p (tool_output_enabled s) start constrained (text taken) (join_output total o') after ->
  leaves total best (stops_at p start constrained (decoded (text taken))) ->
  let hidden := bool_decide (token ∈ token_ids p) && negb (publish_stop_token p) in
  best ≠ None \/ token ∈ token_ids p ->
  previewed s start constrained (tokens_text s before) total shown (done_ ++ token :: rest) budget limit
    (match best with
     | Some m => complete_preview (terminal_state after) (match_output m) channels taken StopString false s
     | None =>
         '(st, output) ← (if hidden then terminalize st (published o) p count (tool_output_enabled s)
                          else terminalize after (published o') p count (tool_output_enabled s));
         complete_preview st output channels taken StopToken false s
     end).
Proof.
  intros Hs p text taken Hq Hd Hd' Hl hidden Hor. assert (taken `prefix_of` done_ ++ token :: rest) as Hpre.
  { exists rest. unfold taken. by rewrite <-app_assoc. }
  destruct best as [m|].
  - unfold leaves in Hl. destruct (stops_at p start constrained (decoded (text taken))) as [out|] eqn:E; [|done].
    destruct Hl as (m' & x & [= <-] & -> & Hx). eapply (completed _ _ _ _ _ _ _ _ x); [done|done|]. unfold round_result. simpl. fold p. rewrite Hx. split_and!; [done|exact E|]. by exists done_, token.
  - destruct Hor as [?|Hin]; [done|]. pose proof (session_stops _ _ _ _ _ _ _ Hs) as Hp.
    assert (exists st1 o1, (if hidden then terminalize st (published o) p count (tool_output_enabled s) else terminalize after (published o') p count (tool_output_enabled s))
       = Ok (st1, published o1) /\ join_output total o1 = whole_text start constrained (final_text (text (if publish_stop_token p then taken else done_))) /\ terminal st1 = true)
      as (st1 & o1 & -> & H1 & H2).
    { unfold hidden. rewrite bool_decide_true by done. destruct (publish_stop_token p); simpl; by apply terminalize_spec. }
    cbn [mbind res_bind]. eapply completed; [done|done|]. simpl. split; [done|]. exists done_, token. done.
Qed.

Lemma suppress_fault s st token tokens : suppress_reasoning_end st (raw s) (grammar_managed s) && (token =? reasoning_end_token s)%Z = true ->
  token ∈ tokens -> faulty s tokens logic_error.
Proof.
  intros [Hs ->%Z.eqb_eq]%andb_prop Hin. right. left. split; [done|]. split; [done|]. unfold suppress_reasoning_end in Hs.
  apply andb_prop in Hs as [[H1%negb_true_iff _]%andb_prop H2%negb_true_iff]. split; [done|]. unfold grammar_managed in H2. by destruct (grammar_data s).
Qed.

Lemma preview_loop_spec start constrained matcher before total shown s budget limit blocked :
  session_at start constrained matcher before total shown s -> limits limit ->
  forall rest st o channels saw done_, done_ ++ rest ≠ [] -> (Z.of_nat (length (done_ ++ rest)) <= budget)%Z -> terminal st = false -> require_initial_content st = require_initial_content (state s) ->
  decoding (policy s) (tool_output_enabled s) start constrained (tokens_text s before ++ tokens_text s done_) (join_output total o) st ->
  stops_at (policy s) start constrained (decoded (tokens_text s before ++ tokens_text s done_)) = None ->
  previewed s start constrained (tokens_text s before) total shown (done_ ++ rest) budget limit
    (preview_loop s budget limit blocked st (published o) channels saw done_ rest).
Proof.
  intros Hs Hlim. pose proof (session_stops _ _ _ _ _ _ _ Hs) as Hp. set (B := tokens_text s before) in *.
  induction rest as [|token rest IH]; intros st o channels saw done_ Hne Hb Ht Hreq Hd Hq; cbn [preview_loop].
  { rewrite app_nil_r in *. by eapply loop_end. }
  assert (token ∈ done_ ++ token :: rest) as Hin by (apply elem_of_app; right; left).
  destruct (is_valid_token token) eqn:Hvalid; cbn [negb throw_if mbind res_bind]; [|left; eauto].
  destruct (suppress_reasoning_end st (raw s) (grammar_managed s) && (token =? reasoning_end_token s)%Z) eqn:Hsup; cbn [throw_if mbind res_bind];
    [by eapply suppress_fault|].
  set (st1 := if in_reasoning st then _ else st).
  assert (decoding (policy s) (tool_output_enabled s) start constrained (B ++ tokens_text s done_) (join_output total o) st1 /\ terminal st1 = false /\
    require_initial_content st1 = require_initial_content (state s)) as (Hd1 & Ht1 & Hreq1).
  { unfold st1. destruct (in_reasoning st); [|done]. split; [by apply decoding_reasoning_tokens|done]. }
  clearbody st1. destruct (bool_decide (token ∈ model_stop_tokens s) && negb (model_stop_allowed st1 (raw s) (tool_output_enabled s))).
  { change (@nil OutputDelta) with (published ([], [])). eapply completed; [done|apply prefix_nil|]. done. }
  destruct (decode_token_bytes token _) as [b|e] eqn:Eb; cbn [mbind res_bind]; [|right; right; left; eauto].
  assert (token_text s token = b) as Etext by (unfold token_text; by rewrite Eb).
  set (taken := done_ ++ [token]). set (count := Z.of_nat (length taken)).
  destruct (feed_token_bytes_spec b (policy s) count (tool_output_enabled s) start constrained _ total o st1 Hp Hq Hd1)
    as (after & o' & best & -> & Hd' & Hset & Hl). cbn [mbind res_bind].
  rewrite <-app_assoc, <-Etext, <-tokens_text_snoc in Hd', Hl. fold taken in Hd', Hl.
  assert (terminal after = false /\ require_initial_content after = require_initial_content (state s)) as [Hta Hra] by (injection Hset as ? ? ?; split; congruence).
  destruct best as [m|].
  { eapply (loop_stop _ _ _ _ _ _ _ st1 after o o' (Some m)); try done. by left. }
  destruct (decide (token ∈ token_ids (policy s))) as [Hstop|Hstop].
  { rewrite (bool_decide_true (token ∈ token_ids (policy s))) by done.
    pose proof (loop_stop _ _ _ _ _ _ s st1 after o o' None (channels ++ [token_channel s b (true && negb (publish_stop_token (policy s))) st1 after])
      done_ token rest count budget limit Hs Hq Hd1 Hd' Hl (or_intror Hstop)) as H. cbv zeta in H. by rewrite bool_decide_true in H. }
  rewrite (bool_decide_false (token ∈ token_ids (policy s))) by done. unfold leaves in Hl.
  destruct (stops_at (policy s) start constrained (decoded (B ++ tokens_text s taken))) as [out|] eqn:Hq'; [by destruct Hl as (? & ? & ? & _)|].
  assert (done_ ++ token :: rest = taken ++ rest) as Eall by (unfold taken; by rewrite <-app_assoc).
  assert (taken ≠ []) as Hne' by (unfold taken; by destruct done_).
  assert (rest ≠ [] -> forall chans, previewed s start constrained B total shown (done_ ++ token :: rest) budget limit
    (complete_preview after (published o') chans taken FinishNone false s)) as Hearly.
  { intros Hr chans. eapply completed; [done|rewrite Eall; by apply prefix_app_r|]. unfold round_result. simpl.
    split_and!; [done| |done|done|done|done]. rewrite Eall, length_app in Hb. destruct rest; [done|]. simpl in Hb. lia. }
  destruct (xorb _ _ && _) eqn:Ex; [apply Hearly; by apply andb_prop in Ex as [_ ?%negb_true_iff%bool_decide_eq_false]|].
  destruct (blocked && _ && _ && _) eqn:Ey; [apply Hearly; by apply andb_prop in Ey as [_ ?%negb_true_iff%bool_decide_eq_false]|].
  rewrite Eall in *. by apply IH.
Qed.

End Rounds.

(** ** The life of a session

    [lives] is the session as its caller drives it: rounds that are previewed and
    committed or discarded, and a close.  [life_at] holds at every point of it. *)

#[local] Arguments join_output : simpl never.

Section Life.
Context {Tok : Tokenizer} {Mat : Matcher} {ToolCall : Type}.
Abbreviation Session := (@OutputSession Mat ToolCall).
Implicit Types (s : Session) (start constrained : bool) (tokens accepted : list Z) (total shown o : list Z * list Z).

(** ** One call *)

(** What a session is made with. *)
Definition setup s :=
  (policy s, model_stop_tokens s, preserve_special s, preserve_model_stops s, raw s, tool_output_enabled s, reasoning_end_token s, grammar_data s).

Lemma setup_text s s' tokens : setup s = setup s' -> tokens_text s tokens = tokens_text s' tokens.
Proof. intros [= E1 E2 E3 E4 _ _ _ _]. unfold tokens_text. f_equal. apply list_fmap_ext. intros _ token _. unfold token_text. by rewrite E2, E3, E4. Qed.

Lemma setup_filters s s' : setup s = setup s' -> filters_tools s = filters_tools s'.
Proof. intros [= _ _ _ _ E5 _ _ E8]. unfold filters_tools. by rewrite E5, E8. Qed.

Lemma join_nil_r total : join_output total ([], []) = total.
Proof. destruct total. unfold join_output. simpl. by rewrite !app_nil_r. Qed.

(** Why [preview] throws on a running session without a preview. *)
Definition preview_fault s tokens (budget : Z) (limit : FinishReason) (e : exn) : Prop :=
  (e = invalid_argument /\ (tokens = [] \/ (budget < Z.of_nat (length tokens))%Z \/ ~ limits limit)) \/ faulty s tokens e.

Lemma preview_spec start constrained matcher before total shown s tokens budget limit :
  session_at start constrained matcher before total shown s ->
  match preview tokens budget limit s with
  | (Throw e, s') => s' = s /\ preview_fault s tokens budget limit e
  | (Ok d, s') => previewed s start constrained (tokens_text s before) total shown tokens budget limit (Ok (d, s'))
  end.
Proof.
  intros Hs. unfold preview. rewrite (session_running _ _ _ _ _ _ _ Hs), (session_idle _ _ _ _ _ _ _ Hs). cbn [throw_if mbind res_bind].
  rewrite (bool_decide_false _ is_Some_None). cbn [throw_if mbind res_bind].
  destruct (bool_decide_reflect (tokens = [])) as [Hn|Hn]; cbn [throw_if mbind res_bind]; [split; [done|]; left; auto|]. cbn [throw_if mbind res_bind].
  destruct (Z.ltb_spec budget (Z.of_nat (length tokens))) as [Hb|Hb]; cbn [throw_if mbind res_bind]; [split; [done|]; left; auto|]. cbn [throw_if mbind res_bind].
  destruct (negb _ && negb _) eqn:El; cbn [throw_if mbind res_bind].
  { split; [done|]. left. split; [done|]. right. right. apply andb_prop in El as [H1%negb_true_iff%bool_decide_eq_false H2%negb_true_iff%bool_decide_eq_false]. by intros [?|?]. }
  assert (limits limit) as Hl.
  { unfold limits. apply andb_false_iff in El as [H%negb_false_iff%bool_decide_eq_true|H%negb_false_iff%bool_decide_eq_true]; auto. }
  change (@nil OutputDelta) with (published ([], [])).
  pose proof (preview_loop_spec start constrained matcher before total shown s budget limit
    (negb (model_stop_allowed (state s) (raw s) (tool_output_enabled s))) Hs Hl tokens (state s) ([], []) [] (in_tool_region (state s) (tool_output_enabled s)) []
    Hn Hb (session_running _ _ _ _ _ _ _ Hs) eq_refl) as H.
  rewrite join_nil_r in H. change (tokens_text s []) with (@nil Z) in H. rewrite app_nil_r in H.
  specialize (H (session_text _ _ _ _ _ _ _ Hs) (session_quiet _ _ _ _ _ _ _ Hs)). rewrite app_nil_l in H.
  destruct (preview_loop _ _ _ _ _ _ _ _ _ _) as [[d s']|e]; [done|]. split; [done|]. by right.
Qed.

(** A close always succeeds. *)
Lemma preview_terminal_spec start constrained matcher before total shown s reason :
  session_at start constrained matcher before total shown s -> reason = OutputLimit \/ reason = ContextCapacity \/ reason = Cancelled ->
  exists st o g v t, preview_terminal reason s = (Ok (MkDecision 0 reason false), with_preview (Some (MkPreview st (published v) [] t)) g s) /\
    terminal st = true /\ join_output total o = whole_text start constrained (final_text (tokens_text s before)) /\
    grammar_next s [] = Some g /\ shown_by s true (join_output total o) (join_output shown v) t.
Proof.
  intros Hs Hr. unfold preview_terminal. rewrite (session_running _ _ _ _ _ _ _ Hs), (session_idle _ _ _ _ _ _ _ Hs). cbn [throw_if mbind res_bind].
  rewrite (bool_decide_false _ is_Some_None). cbn [throw_if mbind res_bind].
  assert (bool_decide (reason = FinishNone) || bool_decide (reason = StopString) || bool_decide (reason = StopToken) = false /\ reason ≠ FinishNone) as [-> Hn].
  { by destruct Hr as [-> | [-> | ->]]. }
  cbn [throw_if mbind res_bind]. change (@nil OutputDelta) with (published ([], [])).
  destruct (terminalize_spec (policy s) 0 (tool_output_enabled s) start constrained (tokens_text s before) total ([], []) (state s) (session_stops _ _ _ _ _ _ _ Hs))
    as (st & o & -> & H1 & H2); [rewrite join_nil_r; by apply session_text in Hs|]. cbn [mbind res_bind].
  pose proof (complete_preview_spec _ _ _ _ _ _ s st o [] [] reason false Hs) as Hc.
  destruct (complete_preview _ _ _ _ _ _ _) as [[d s']|e].
  - destruct Hc as (-> & g & v & t & Hg & -> & Hv). rewrite bool_decide_false in Hv by done. exists st, o, g, v, t. done.
  - destruct Hc as [_ Hg]. unfold grammar_next in Hg. by destruct (token_grammar s).
Qed.

Lemma grammar_accept_all_app ignored m tokens tokens' :
  grammar_accept_all ignored m (tokens ++ tokens') = (m ← grammar_accept_all ignored m tokens; grammar_accept_all ignored m tokens').
Proof. revert m. induction tokens as [|token tokens IH]; intros m; simpl; [done|]. destruct (grammar_accept ignored m token); simpl; [apply IH|done]. Qed.

(** The session after a commit. *)
Definition committed s st g (t : @ToolPublication ToolCall) : Session :=
  MkSession (policy s) (model_stop_tokens s) (preserve_special s) (preserve_model_stops s) (raw s) (tool_output_enabled s)
    (reasoning_end_token s) st None (grammar_data s) g (match filters_tools s with Some _ => t | None => tools s end).

Lemma commit_spec start constrained matcher before total shown s st out channels t accepted g :
  session_at start constrained matcher before total shown s -> grammar_next s accepted = Some g ->
  exists g', commit_preview (with_preview (Some (MkPreview st out channels t)) g s) = (Ok out, committed s st g' t) /\
    grammar_at matcher (before ++ accepted) g'.
Proof.
  intros Hs Hg. unfold commit_preview, grammar_next in *. simpl. pose proof (session_grammar _ _ _ _ _ _ _ Hs) as H. unfold grammar_at in H.
  destruct (token_grammar s) as [g0|]; [|injection Hg as <-; by exists None]. destruct H as [_ H].
  destruct (grammar_accept_all _ (committed_matcher g0) accepted) as [m|] eqn:Ea; [|done]. injection Hg as <-. simpl.
  exists (Some (MkGrammarState (ignored_model_stops g0) m None)). split; [done|]. split; [done|]. simpl.
  destruct matcher as [m0|]; [|done]. simpl in *. by rewrite grammar_accept_all_app, H.
Qed.

(** A discarded preview leaves no trace. *)
Lemma discard_spec start constrained matcher before total shown s pv accepted g :
  session_at start constrained matcher before total shown s -> grammar_next s accepted = Some g ->
  discard_preview (with_preview (Some pv) g s) = (Ok tt, s).
Proof.
  intros Hs Hg. unfold discard_preview, grammar_next in *. simpl. pose proof (session_grammar _ _ _ _ _ _ _ Hs) as H. unfold grammar_at in H.
  pose proof (session_idle _ _ _ _ _ _ _ Hs) as Hi. destruct s as [? ? ? ? ? ? ? ? ? ? tg ?]; simpl in *. unfold with_preview. simpl. rewrite Hi. f_equal. f_equal.
  destruct tg as [[ignored m pm]|]; [|by injection Hg as <-]. destruct H as [H _]. simpl in *. subst pm.
  destruct (grammar_accept_all _ m accepted); [|done]. by injection Hg as <-.
Qed.

(** ** The life of a session *)
Definition texts (out : PublishedOutput) : list Z * list Z := (channel_text Reasoning out, channel_text Content out).

Lemma texts_published o : texts (published o) = o.
Proof.
  destruct o as [r c]. unfold texts, published, output_of, channel_text, delta_of. simpl.
  destruct (decide (r = [])) as [->|Hr], (decide (c = [])) as [->|Hc]; rewrite ?(bool_decide_false (r = [])), ?(bool_decide_false (c = [])) by done;
    simpl; unfold filter; simpl; by rewrite ?app_nil_r.
Qed.

(** The tokens accepted, the text published and the reason of the end. *)
Inductive lives (s0 : Session) : list Z -> list Z * list Z -> option FinishReason -> Session -> Prop :=
  | lives_made : lives s0 [] ([], []) None s0
  | lives_round accepted shown s tokens budget limit d s1 out s2 :
      lives s0 accepted shown None s -> preview tokens budget limit s = (Ok d, s1) -> commit_preview s1 = (Ok out, s2) ->
      lives s0 (accepted ++ take (Z.to_nat (accepted_tokens d)) tokens) (join_output shown (texts out))
        (if finished d then Some (finish_reason d) else None) s2
  | lives_discard accepted shown s tokens budget limit d s1 s2 :
      lives s0 accepted shown None s -> preview tokens budget limit s = (Ok d, s1) -> discard_preview s1 = (Ok tt, s2) ->
      lives s0 accepted shown None s2
  | lives_fault accepted shown s tokens budget limit e s1 :
      lives s0 accepted shown None s -> preview tokens budget limit s = (Throw e, s1) -> lives s0 accepted shown None s1
  | lives_close accepted shown s reason d s1 out s2 :
      lives s0 accepted shown None s -> preview_terminal reason s = (Ok d, s1) -> commit_preview s1 = (Ok out, s2) ->
      lives s0 accepted (join_output shown (texts out)) (Some reason) s2.

(** The output of a session that ended for [reason], read from all its tokens. *)
Definition ended s start constrained accepted (reason : FinishReason) total : Prop :=
  let p := policy s in
  let text := tokens_text s in
  match reason with
  | FinishNone => False
  | StopString =>
      stops_at p start constrained (decoded (text accepted)) = Some total /\
      exists front token, accepted = front ++ [token] /\ stops_at p start constrained (decoded (text front)) = None
  | StopToken =>
      exists front token, accepted = front ++ [token] /\ token ∈ token_ids p /\ stops_at p start constrained (decoded (text front)) = None /\
        total = whole_text start constrained (final_text (text (if publish_stop_token p then accepted else front)))
  | OutputLimit | ContextCapacity | Cancelled =>
      stops_at p start constrained (decoded (text accepted)) = None /\ total = whole_text start constrained (final_text (text accepted))
  end.

Definition life_at s0 start constrained (matcher : option GrammarMatcher) accepted shown (fin : option FinishReason) s : Prop :=
  setup s = setup s0 /\
  match fin with
  | None => require_initial_content (state s) = require_initial_content (state s0) /\
      exists total, session_at start constrained matcher accepted total shown s
  | Some reason => terminal (state s) = true /\ preview_of s = None /\
      exists total, ended s start constrained accepted reason total /\ shown_by s true total shown (tools s)
  end.

Lemma session_at_make p raw_ special starts tool_out end_token stops grammar : nonempty_stops p ->
  let s0 : Session := make_session p raw_ special starts tool_out end_token stops grammar in
  session_at (starts && negb raw_) (constrained_content (state s0)) (snd <$> grammar) [] ([], []) ([], []) s0.
Proof.
  intros Hp s0. assert (forall ch, first_stop (on_channel ch p) [] = None) as Hnone.
  { intros ch. apply first_stop_None. intros stop Hs. by apply text_find_nil, Hp, (on_channel_stop _ ch). }
  set (constrained := constrained_content (state s0)).
  assert (forall start, content_text start constrained [] = []) as Hct by (intros start; unfold content_text; by destruct (start && negb constrained)).
  split; try done.
  - split; [|done]. split; [done|]. change (decoded (tokens_text s0 [])) with (@nil Z). simpl. destruct (starts && negb raw_).
    + split; try done; [apply channel_at_nil|split; [done|by destruct tool_out]].
    + exists [], []. split; [done|]. split; rewrite ?Hct; try done; [apply channel_at_nil|split; [done|by destruct tool_out]].
  - change (decoded (tokens_text s0 [])) with (@nil Z). unfold stops_at. destruct (starts && negb raw_); cbn [split_text].
    + change (text_find kThinkClose []) with (@None nat). cbv iota beta. change (settled_reasoning []) with (@nil Z).
      change (policy s0) with p. by rewrite (Hnone Reasoning).
    + change (policy s0) with p. by rewrite (Hnone Reasoning), Hct, (Hnone Content).
  - split; [done|]. simpl. destruct (filters_tools s0) as [g|]; [apply segmented_nil|done].
  - simpl. destruct grammar as [[g m]|]; [|done]. done.
Qed.

Lemma shown_committed s st g b total shown t : shown_by s b total shown t -> shown_by (committed s st g t) b total shown (tools (committed s st g t)).
Proof. unfold shown_by. change (filters_tools (committed s st g t)) with (filters_tools s). simpl. by destruct (filters_tools s). Qed.

(** A round that ends the session. *)
Lemma round_ended s start constrained before total budget limit d taken st o :
  round_result s start constrained (tokens_text s before) total budget limit d taken st o -> finished d = true ->
  ended s start constrained (before ++ taken) (finish_reason d) (join_output total o) /\ terminal st = true.
Proof.
  unfold round_result, finished, ended. intros Hr Hf. destruct (reject_generated_round d); [destruct Hr as (E & _); by rewrite E in Hf|].
  rewrite <-tokens_text_app in Hr. destruct (finish_reason d); [done|by destruct Hr as (_ & _ & ? & ? & ?)|by destruct Hr as (_ & _ & ? & ? & ?)| | |by destruct Hr as (_ & _ & ? & ? & ?)].
  - destruct Hr as (Ht & front & token & -> & Hin & Hq & Ho). split; [|done]. exists (before ++ front), token. rewrite app_assoc, !tokens_text_app.
    split_and!; [done|done|done|]. rewrite Ho. by destruct (publish_stop_token (policy s)); rewrite <-!tokens_text_app, ?app_assoc.
  - destruct Hr as (Ht & Ho & front & token & -> & Hq). split; [|done]. split; [done|]. exists (before ++ front), token. rewrite (tokens_text_app s before front), app_assoc. done.
Qed.

(** The session that a committed round leaves. *)
Lemma life_round s0 start constrained matcher accepted shown s tokens budget limit d s1 out s2 :
  life_at s0 start constrained matcher accepted shown None s -> preview tokens budget limit s = (Ok d, s1) -> commit_preview s1 = (Ok out, s2) ->
  life_at s0 start constrained matcher (accepted ++ take (Z.to_nat (accepted_tokens d)) tokens) (join_output shown (texts out))
    (if finished d then Some (finish_reason d) else None) s2.
Proof.
  intros [Es [Hreq [total Hs]]] Hp Hc. pose proof (preview_spec _ _ _ _ _ _ s tokens budget limit Hs) as H. rewrite Hp in H.
  destruct H as (taken & st & o & g & v & channels & t & [rest ->] & En & Hr & Hg & -> & Hv). rewrite En, Nat2Z.id, take_app_length.
  destruct (commit_spec _ _ _ _ _ _ s st (published v) channels t taken g Hs Hg) as (g' & E & Hg'). rewrite Hc in E. injection E as -> ->.
  rewrite texts_published. split; [exact Es|]. apply (shown_committed _ st g') in Hv. destruct (finished d) eqn:Hf.
  { apply round_ended in Hr as [Hend Ht]; [|done]. split_and!; [done|done|]. by exists (join_output total o). }
  unfold finished in Hf. apply negb_false_iff, bool_decide_eq_true in Hf. unfold round_result in Hr. destruct (reject_generated_round d).
  - destruct Hr as (_ & -> & -> & ->). rewrite join_nil_r in Hv. rewrite app_nil_r in *. split; [done|]. exists total. destruct Hs. by split.
  - rewrite Hf, <-tokens_text_app in Hr. destruct Hr as (_ & _ & Ht & Er & Hd & Hq). split; [simpl; congruence|]. exists (join_output total o). destruct Hs. by split.
Qed.

Lemma life_close s0 start constrained matcher accepted shown s reason d s1 out s2 :
  life_at s0 start constrained matcher accepted shown None s -> preview_terminal reason s = (Ok d, s1) -> commit_preview s1 = (Ok out, s2) ->
  life_at s0 start constrained matcher accepted (join_output shown (texts out)) (Some reason) s2.
Proof.
  intros [Es [Hreq [total Hs]]] Hp Hc. destruct (decide (reason = OutputLimit \/ reason = ContextCapacity \/ reason = Cancelled)) as [Hr|Hr].
  - destruct (preview_terminal_spec _ _ _ _ _ _ s reason Hs Hr) as (st & o & g & v & t & E & Ht & Ho & Hg & Hv). rewrite Hp in E. injection E as -> ->.
    destruct (commit_spec _ _ _ _ _ _ s st (published v) [] t [] g Hs Hg) as (g' & E & _). rewrite Hc in E. injection E as -> ->. rewrite texts_published.
    split; [exact Es|]. apply (shown_committed _ st g') in Hv. split_and!; [done|done|]. exists (join_output total o). split; [|done].
    pose proof (session_quiet _ _ _ _ _ _ _ Hs). destruct Hr as [-> | [-> | ->]]; done.
  - exfalso. unfold preview_terminal in Hp. rewrite (session_running _ _ _ _ _ _ _ Hs), (session_idle _ _ _ _ _ _ _ Hs) in Hp. cbn [throw_if mbind res_bind] in Hp.
    rewrite (bool_decide_false _ is_Some_None) in Hp. cbn [throw_if mbind res_bind] in Hp. destruct reason; (destruct Hr; by auto) || done.
Qed.

Lemma life_discard s0 start constrained matcher accepted shown s tokens budget limit d s1 :
  life_at s0 start constrained matcher accepted shown None s -> preview tokens budget limit s = (Ok d, s1) -> discard_preview s1 = (Ok tt, s).
Proof.
  intros [_ [_ [total Hs]]] Hp. pose proof (preview_spec _ _ _ _ _ _ s tokens budget limit Hs) as H. rewrite Hp in H.
  destruct H as (taken & st & o & g & v & channels & t & _ & _ & _ & Hg & -> & _). by eapply discard_spec.
Qed.

Lemma life_fault s0 start constrained matcher accepted shown s tokens budget limit e s1 :
  life_at s0 start constrained matcher accepted shown None s -> preview tokens budget limit s = (Throw e, s1) -> s1 = s /\ preview_fault s tokens budget limit e.
Proof. intros [_ [_ [total Hs]]] Hp. pose proof (preview_spec _ _ _ _ _ _ s tokens budget limit Hs) as H. by rewrite Hp in H. Qed.

Lemma lives_life_at s0 start constrained matcher : life_at s0 start constrained matcher [] ([], []) None s0 ->
  forall accepted shown fin s, lives s0 accepted shown fin s -> life_at s0 start constrained matcher accepted shown fin s.
Proof.
  intros H0 accepted shown fin s. induction 1 as [|? ? ? ? ? ? ? ? ? ? _ IH Hp Hc|? ? ? ? ? ? ? ? ? _ IH Hp Hd|? ? ? ? ? ? ? ? _ IH Hp|? ? ? ? ? ? ? ? _ IH Hp Hc]; [done| | | |].
  - by eapply life_round.
  - rewrite (life_discard _ _ _ _ _ _ _ _ _ _ _ _ IH Hp) in Hd. by injection Hd as <-.
  - by destruct (life_fault _ _ _ _ _ _ _ _ _ _ _ _ IH Hp) as [-> _].
  - by eapply life_close.
Qed.

End Life.
