(* ===== verification/OutputTheorems.v ===== *)
(** * What an output session promises

    A session is made by [make_output_session] and driven by rounds and a close.  Its
    output is the one that the reference reads from all accepted tokens at once,
    however they were grouped into rounds; it can always be closed; a preview throws
    only for its documented reasons and leaves no trace when it is discarded. *)

From stdpp Require Import prelude functions list list_numbers.
From Stdlib Require Import ZArith Lia.
From S2P Require Import Prelude Capacity ExecState Utf8 OutputSession OutputDecoder OutputStream OutputRounds.
#[local] Open Scope Z_scope.

(** ** The loops over text run to their end

    The loops over the markers, the closes of a call, the calls of a round and the calls
    of an unconstrained answer are given as much fuel as there are bytes.  Every
    iteration consumes a byte, so more fuel changes nothing. *)

Lemma text_find_bound m s i : m ≠ [] -> text_find m s = Some i -> (i + length m <= length s)%nat.
Proof. intros Hm [H _]%text_find_Some. by apply stands_length. Qed.

Lemma track_markers_fuel fuel more in_call pending : (length pending <= fuel)%nat ->
  track_markers (fuel + more) in_call pending = track_markers fuel in_call pending.
Proof.
  revert in_call pending. induction fuel as [|fuel IH]; intros in_call pending Hl.
  - destruct pending; [|simpl in Hl; lia]. destruct in_call, more; done.
  - simpl. destruct (text_find _ pending) as [i|] eqn:E; [|done]. apply IH. rewrite length_drop. destruct in_call; simpl in *; lia.
Qed.

Lemma strip_leading_length t : (length (strip_leading t) <= length t)%nat.
Proof. induction t as [|b t IH]; simpl; [done|]. destruct (isspace b); simpl; lia. Qed.

Lemma consume_marker_length marker t t' : consume_marker marker t = Some t' -> (length t' + length marker <= length t)%nat.
Proof.
  unfold consume_marker. destruct (starts_with marker (strip_leading t)) eqn:E; [|done]. intros [= <-]. pose proof (strip_leading_length t).
  apply bool_decide_eq_true in E. apply prefix_length in E. rewrite length_drop. lia.
Qed.

Lemma skip_parameters_fuel fuel more t : (length t <= fuel)%nat -> skip_parameters (fuel + more) t = skip_parameters fuel t.
Proof.
  revert t. induction fuel as [|fuel IH]; intros t Hl.
  { destruct t; [|simpl in Hl; lia]. by destruct more. }
  simpl. destruct (starts_with function_close (strip_leading t)); [done|].
  destruct (consume_marker parameter_open (strip_leading t)) as [t1|] eqn:E1; simpl; [|done]. apply consume_marker_length in E1. simpl in E1.
  destruct (text_find [62%Z] t1) as [k|]; simpl; [|done]. destruct (k =? 0)%nat; [done|]. destruct (text_find parameter_close _) as [v|]; simpl; [|done].
  apply IH. rewrite !length_drop. pose proof (strip_leading_length t). lia.
Qed.

Lemma skip_parameters_length fuel t t' : skip_parameters fuel t = Some t' -> (length t' <= length t)%nat.
Proof.
  revert t. induction fuel as [|fuel IH]; intros t; simpl; pose proof (strip_leading_length t).
  { destruct (starts_with _ _); [|done]. by intros [= <-]. }
  destruct (starts_with function_close (strip_leading t)); [by intros [= <-]|].
  destruct (consume_marker parameter_open (strip_leading t)) as [t1|] eqn:E1; simpl; [|done]. apply consume_marker_length in E1.
  destruct (text_find [62%Z] t1) as [k|]; simpl; [|done]. destruct (k =? 0)%nat; [done|]. destruct (text_find parameter_close _) as [v|]; simpl; [|done].
  intros H'%IH. rewrite !length_drop in H'. lia.
Qed.

Lemma call_name_length max t name t' : call_name max t = Some (name, t') -> (length t' < length t)%nat.
Proof.
  unfold call_name. destruct (consume_marker kToolOpen t) as [t1|] eqn:E1; simpl; [|done]. destruct (consume_marker function_open t1) as [t2|] eqn:E2; simpl; [|done].
  destruct (text_find [62%Z] t2) as [k|]; simpl; [|done]. destruct (_ || _); [done|]. destruct (skip_parameters _ _) as [t3|] eqn:E3; simpl; [|done].
  destruct (consume_marker function_close t3) as [t4|] eqn:E4; simpl; [|done]. destruct (consume_marker kToolClose t4) as [t5|] eqn:E5; simpl; [|done]. intros [= <- <-].
  apply consume_marker_length in E1, E2, E4, E5. apply skip_parameters_length in E3. rewrite length_drop in E3. pose proof (strip_leading_length t5). simpl in *. lia.
Qed.

Lemma call_names_fuel fuel more max t : (length t <= fuel)%nat -> call_names (fuel + more) max t = call_names fuel max t.
Proof.
  revert t. induction fuel as [|fuel IH]; intros t Hl.
  { destruct t; [|simpl in Hl; lia]. by destruct more. }
  simpl. destruct t as [|b t]; [done|]. destruct (call_name max (b :: t)) as [[name t']|] eqn:E; simpl; [|done].
  apply call_name_length in E. rewrite IH by (simpl in *; lia). done.
Qed.

Section Calls.
Context {ToolCall : Type}.
Implicit Types (g : @TokenGrammarData ToolCall) (t : @ToolPublication ToolCall).

Lemma complete_call_fuel fuel more g pending pos : (length pending <= pos + fuel)%nat ->
  complete_call (fuel + more) g pending pos = complete_call fuel g pending pos.
Proof.
  revert pos. induction fuel as [|fuel IH]; intros pos Hl.
  - destruct more as [|more]; [done|]. simpl. unfold text_find_from. rewrite drop_ge by lia. done.
  - simpl. destruct (text_find_from kToolClose pending pos) as [close|] eqn:E; [|done]. destruct (decode_call g _); [done|]. apply IH.
    unfold text_find_from in E. destruct (text_find _ _) as [i|]; [|done]. injection E as <-. lia.
Qed.

Lemma complete_call_end fuel g pending pos call end_ : complete_call fuel g pending pos = Some (call, end_) -> (length kToolClose <= end_)%nat.
Proof.
  revert pos. induction fuel as [|fuel IH]; intros pos; simpl; [done|]. destruct (text_find_from _ _ _) as [close|]; [|done].
  destruct (decode_call g _); [|by apply IH]. intros [= _ <-]. simpl. lia.
Qed.

Lemma filter_calls_fuel fuel more g last_round visible t : (length (tool_pending t) <= fuel)%nat ->
  filter_calls (fuel + more) g last_round visible t = filter_calls fuel g last_round visible t.
Proof.
  revert visible t. induction fuel as [|fuel IH]; intros visible t Hl.
  - destruct (tool_pending t) as [|b r] eqn:E; [|simpl in Hl; lia]. destruct more; [done|]. cbn [Nat.add filter_calls]. by rewrite E.
  - cbn [Nat.add filter_calls]. destruct (text_find kToolOpen (tool_pending t)) as [open|] eqn:Eo; [|done].
    destruct (if separator _ _ then _ else _) as [v|]; [|done]. cbn [mbind res_bind].
    destruct (complete_call _ g _ 0) as [[call end_]|] eqn:Ec; [|done]. apply IH. simpl. rewrite !length_drop.
    apply text_find_bound in Eo; [|done]. pose proof (complete_call_end _ _ _ _ _ _ Ec). simpl in *. lia.
Qed.

(** The loops over the text of an answer terminate with the fuel the model gives
    them: scanning markers, looking for the close of a call, taking calls out of the
    content and reading the names of calls give the same result with any more. *)
Theorem text_loops_terminate g last_round visible t pending in_call max more :
  track_markers (length pending + more) in_call pending = track_markers (length pending) in_call pending /\
  complete_call (length pending + more) g pending 0 = complete_call (length pending) g pending 0 /\
  filter_calls (length (tool_pending t) + more) g last_round visible t = filter_calls (length (tool_pending t)) g last_round visible t /\
  skip_parameters (length pending + more) pending = skip_parameters (length pending) pending /\
  call_names (length pending + more) max pending = call_names (length pending) max pending.
Proof.
  split_and!; [by apply track_markers_fuel|by apply complete_call_fuel|by apply filter_calls_fuel|by apply skip_parameters_fuel|by apply call_names_fuel].
Qed.

End Calls.

#[local] Arguments join_output : simpl never.

(** ** Merged policies *)
Section Policies.
Context {U : Utf8proc} {Tok : Tokenizer}.

Lemma elem_of_snoc {A} (x t : A) l : t ∈ l ++ [x] <-> t ∈ l \/ t = x.
Proof. by rewrite elem_of_app, list_elem_of_singleton. Qed.

Lemma NoDup_snoc {A} (x : A) l : NoDup l -> x ∉ l -> NoDup (l ++ [x]).
Proof. intros Hn Hx. apply NoDup_app. split_and!; [done| |apply NoDup_singleton]. by intros y Hy ->%list_elem_of_singleton. Qed.

(** Appending what is not there yet, one after the other. *)
Lemma elem_of_append_new {A} `{EqDecision A} (x t : A) l : t ∈ (if bool_decide (x ∈ l) then l else l ++ [x]) <-> t ∈ l \/ t = x.
Proof. case_bool_decide; [|apply elem_of_snoc]. split; [tauto|]. by intros [?| ->]. Qed.

Lemma NoDup_append_new {A} `{EqDecision A} (x : A) l : NoDup l -> NoDup (if bool_decide (x ∈ l) then l else l ++ [x]).
Proof. intros H. case_bool_decide; [done|by apply NoDup_snoc]. Qed.

Lemma append_tokens_spec tokens ids ids' : append_tokens tokens ids = Ok ids' -> NoDup ids -> Forall (fun t => is_valid_token t = true) ids ->
  NoDup ids' /\ Forall (fun t => is_valid_token t = true) ids' /\ (forall t, t ∈ ids' <-> t ∈ ids \/ t ∈ tokens).
Proof.
  revert ids. induction tokens as [|token tokens IH]; intros ids E Hn Hv; simpl in E.
  { injection E as <-. split_and!; [done|done|]. intros t. rewrite elem_of_nil. tauto. }
  unfold append_token in E. destruct (is_valid_token token) eqn:Et; simpl in E; [|done].
  destruct (IH _ E) as (H1 & H2 & H3).
  - by apply NoDup_append_new.
  - case_bool_decide; [done|]. apply Forall_app. split; [done|]. by constructor.
  - split_and!; [done|done|]. intros t. rewrite H3, elem_of_append_new, elem_of_cons. tauto.
Qed.

Lemma append_strings_spec stops result result' : append_strings stops result = Ok result' -> NoDup result ->
  NoDup result' /\ (forall stop, stop ∈ stops -> stop_text stop ≠ []) /\ (exists kept, result' = result ++ kept /\ kept `sublist_of` stops) /\
  (forall stop, stop ∈ result' <-> stop ∈ result \/ stop ∈ stops).
Proof.
  revert result. induction stops as [|x stops IH]; intros result E Hn; simpl in E.
  { injection E as <-. split_and!; [done|by intros ? ?%elem_of_nil|exists []; by rewrite app_nil_r|]. intros t. rewrite elem_of_nil. tauto. }
  destruct (bool_decide_reflect (stop_text x = [])) as [Hx|Hx]; [done|]. simpl in E. destruct (utf8_codepoints (stop_text x)); [|done]. simpl in E.
  destruct (IH _ E) as (H1 & H2 & (kept & -> & H3) & H4); [by apply NoDup_append_new|]. split_and!; [done| | |].
  - intros stop [-> |?]%elem_of_cons; auto.
  - case_bool_decide; [exists kept|exists (x :: kept); rewrite <-app_assoc]; (split; [done|by constructor]).
  - intros t. rewrite H4, elem_of_append_new, elem_of_cons. tauto.
Qed.

Lemma merged_policy defaults caller p : merge_stop_policy defaults caller = Ok p ->
  exists ids ids', (if include_model_defaults caller then append_tokens defaults [] else Ok []) = Ok ids /\ append_tokens (token_ids caller) ids = Ok ids' /\
    append_strings (strings caller) [] = Ok (strings p) /\ token_ids p = ids' /\ publish_stop_token p = publish_stop_token caller.
Proof.
  unfold merge_stop_policy. intros E. destruct (if include_model_defaults caller then append_tokens defaults [] else Ok []) as [ids|] eqn:E1; [|done]. simpl in E.
  destruct (append_tokens (token_ids caller) ids) as [ids'|] eqn:E2; [|done]. simpl in E. destruct (append_strings _ []) as [strs|] eqn:E3; [|done].
  injection E as <-. by exists ids, ids'.
Qed.

Lemma merged_nonempty defaults caller p : merge_stop_policy defaults caller = Ok p -> nonempty_stops p.
Proof.
  intros (ids & ids' & _ & _ & Hs & _)%merged_policy. apply append_strings_spec in Hs as (_ & H & _ & Hin); [|constructor].
  intros stop Hstop. apply H. apply Hin in Hstop as [?%elem_of_nil|?]; done.
Qed.

(** Merging the model's stop tokens with the caller's stops keeps every token of
    the caller, and the model's when they are asked for, once each and all valid; it
    keeps every stop string once, in the order of declaration, and none is empty. *)
Theorem merge_stop_policy_exact defaults caller p : merge_stop_policy defaults caller = Ok p ->
  NoDup (token_ids p) /\ Forall (fun t => is_valid_token t = true) (token_ids p) /\
  (forall t, t ∈ token_ids p <-> (include_model_defaults caller = true /\ t ∈ defaults) \/ t ∈ token_ids caller) /\
  NoDup (strings p) /\ strings p `sublist_of` strings caller /\ (forall stop, stop ∈ strings p <-> stop ∈ strings caller) /\
  (forall stop, stop ∈ strings p -> stop_text stop ≠ []).
Proof.
  intros E. pose proof (merged_nonempty _ _ _ E) as Hne. apply merged_policy in E as (ids & ids' & H1 & H2 & H3 & -> & _).
  apply append_strings_spec in H3 as (S1 & _ & (kept & S2 & S3) & S4); [|constructor]. simpl in S2.
  assert (NoDup ids /\ Forall (fun t => is_valid_token t = true) ids /\ (forall t, t ∈ ids <-> include_model_defaults caller = true /\ t ∈ defaults)) as (I1 & I2 & I3).
  { destruct (include_model_defaults caller).
    - apply append_tokens_spec in H1 as (A & B & C); [|constructor|constructor]. split_and!; [done|done|]. intros t. rewrite C, elem_of_nil. tauto.
    - injection H1 as <-. split_and!; [constructor|constructor|]. intros t. rewrite elem_of_nil. by split; [|intros [? _]]. }
  apply append_tokens_spec in H2 as (T1 & T2 & T3); [|done|done]. split_and!; [done|done| |done|by rewrite S2| |done].
  - intros t. rewrite T3, I3. done.
  - intros stop. rewrite S4, elem_of_nil. tauto.
Qed.

End Policies.

(** ** The life of a session *)
Section Sessions.
Context {U : Utf8proc} {Tok : Tokenizer} {Mat : Matcher} {ToolCall : Type}.
Abbreviation Session := (@OutputSession Mat ToolCall).
Implicit Types (s : Session) (prompt : @PromptOutput Mat ToolCall).

Lemma made_life_at defaults end_token prompt caller options s0 : make_output_session defaults end_token (Some prompt) caller options = Ok s0 ->
  life_at s0 (starts_in_reasoning prompt && negb (options_raw options)) (constrained_content (state s0)) (snd <$> prompt_grammar prompt) [] ([], []) None s0.
Proof.
  unfold make_output_session. destruct (merge_stop_policy defaults caller) as [p|] eqn:E; [|done]. cbn [mbind res_bind]. intros [= <-].
  split; [done|]. split; [done|]. exists ([], []). apply session_at_make. apply merged_nonempty in E. by destruct (options_raw options).
Qed.

Lemma made_required defaults end_token prompt caller options s0 : make_output_session defaults end_token (Some prompt) caller options = Ok s0 ->
  require_initial_content (state s0) =
    negb (raw s0) && (starts_in_reasoning prompt && negb (options_raw options) || tool_output_enabled s0) && negb (constrained_content (state s0)).
Proof.
  unfold make_output_session. destruct (merge_stop_policy defaults caller) as [p|] eqn:E; [|done]. cbn [mbind res_bind]. by intros [= <-].
Qed.

Lemma ended_setup s s' start constrained accepted reason total : setup s = setup s' -> ended s start constrained accepted reason total ->
  ended s' start constrained accepted reason total.
Proof.
  intros E. pose proof (fun tokens => setup_text s s' tokens E) as Ht. injection E as Ep _ _ _ _ _ _ _. unfold ended. rewrite Ep.
  destruct reason; try done; rewrite ?Ht; try done.
  - intros (front & token & -> & H). exists front, token. by rewrite <-!Ht.
  - intros (H & front & token & -> & H'). split; [done|]. exists front, token. by rewrite <-Ht.
Qed.

Lemma decoding_prefix p tools start constrained B total st : decoding p tools start constrained B total st ->
  exists rest, whole_text start constrained (decoded B) = join_output total rest.
Proof.
  intros [[_ H] _]. unfold whole_text. destruct (in_reasoning st).
  - destruct H as [-> Hn _ [E _ _] [Ho _] _ _]. unfold split_text. rewrite Hn. destruct (marker_held (decoded B) Hn) as [E' _].
    exists (stop_pending st Reasoning ++ last_bytes (longest_suffix_prefix (decoded B) kThinkClose true) (decoded B), []).
    unfold join_output. simpl. rewrite Ho, app_assoc, <-E, <-E'. done.
  - destruct H as (r & c & Es & [Hr [E _ _] _ _ _]). rewrite Es. exists ([], stop_pending st Content). unfold join_output. simpl. by rewrite app_nil_r, Hr, <-E.
Qed.

(** C9: what a session publishes is what the reference reads from its accepted
    tokens.  While it runs, the decoder's output is a beginning of the whole text, no stop
    string is complete and the rest is held back; at the end it is the text up to the
    first stop string, which ended the session with the token that completed it, or the
    whole text, an unfinished character replaced.  Without tools exactly this is
    published; with tools, the calls that parse are taken out of the content. *)
Theorem session_output_exact defaults end_token prompt caller options s0 accepted shown fin s :
  make_output_session defaults end_token (Some prompt) caller options = Ok s0 -> lives s0 accepted shown fin s ->
  let start := starts_in_reasoning prompt && negb (options_raw options) in
  let constrained := constrained_content (state s0) in
  exists total, shown_by s0 (bool_decide (is_Some fin)) total shown (tools s) /\
    match fin with
    | None => stops_at (policy s0) start constrained (decoded (tokens_text s0 accepted)) = None /\
        exists rest, whole_text start constrained (decoded (tokens_text s0 accepted)) = join_output total rest
    | Some reason => ended s0 start constrained accepted reason total
    end.
Proof.
  intros Hm Hl start constrained. pose proof (lives_life_at _ _ _ _ (made_life_at _ _ _ _ _ _ Hm) _ _ _ _ Hl) as [Es H]. unfold shown_by.
  rewrite <-(setup_filters _ _ Es). destruct fin as [reason|].
  - destruct H as (_ & _ & total & He & Hs). exists total. rewrite bool_decide_true by done. split; [done|]. by apply (ended_setup s).
  - destruct H as [_ [total H]]. exists total. rewrite (bool_decide_false _ is_Some_None). split; [by destruct H|].
    injection Es as Ep ?. rewrite <-(setup_text s s0), <-Ep by (unfold setup; congruence). split; [by destruct H|].
    apply (decoding_prefix (policy s) (tool_output_enabled s) _ _ _ _ (state s)). by destruct H.
Qed.

Lemma ended_functional s start constrained accepted reason total total' :
  ended s start constrained accepted reason total -> ended s start constrained accepted reason total' -> total = total'.
Proof.
  unfold ended. destruct reason; try done; try (by intros [_ ->] [_ ->]).
  - intros (front & token & -> & _ & _ & ->) (front' & token' & [-> _]%app_inj_tail & _ & _ & ->). done.
  - intros [H _] [H' _]. congruence.
Qed.

(** C10: how the tokens are grouped into rounds, previews that were discarded and calls
    that failed do not show: two lives of a session without tools that accepted the
    same tokens and ended for the same reason published the same reasoning and the same
    content. *)
Theorem session_output_rounds defaults end_token prompt caller options s0 accepted reason shown s shown' s' :
  make_output_session defaults end_token (Some prompt) caller options = Ok s0 -> filters_tools s0 = None ->
  lives s0 accepted shown (Some reason) s -> lives s0 accepted shown' (Some reason) s' -> shown = shown'.
Proof.
  intros Hm Hf Hl Hl'. pose proof (lives_life_at _ _ _ _ (made_life_at _ _ _ _ _ _ Hm)) as H.
  destruct (H _ _ _ _ Hl) as (E & _ & _ & total & He & Hs1 & Hs2), (H _ _ _ _ Hl') as (E' & _ & _ & total' & He' & Hs1' & Hs2').
  rewrite (setup_filters _ _ E), Hf in Hs2. rewrite (setup_filters _ _ E'), Hf in Hs2'.
  apply (ended_setup _ _ _ _ _ _ _ E) in He. apply (ended_setup _ _ _ _ _ _ _ E') in He'. rewrite (ended_functional _ _ _ _ _ _ _ He He') in *.
  destruct shown, shown', total'. simpl in *. congruence.
Qed.

(** C11: a running session can always be closed: [preview_terminal] and the commit after
    it succeed, whatever was generated before, so that an interrupted request
    always delivers the text it has. *)
Theorem session_closes defaults end_token prompt caller options s0 accepted shown s reason :
  make_output_session defaults end_token (Some prompt) caller options = Ok s0 -> lives s0 accepted shown None s ->
  reason = OutputLimit \/ reason = ContextCapacity \/ reason = Cancelled ->
  exists s1 out s2, preview_terminal reason s = (Ok (MkDecision 0 reason false), s1) /\ commit_preview s1 = (Ok out, s2) /\
    terminal (state s2) = true /\ lives s0 accepted (join_output shown (texts out)) (Some reason) s2.
Proof.
  intros Hm Hl Hr. destruct (lives_life_at _ _ _ _ (made_life_at _ _ _ _ _ _ Hm) _ _ _ _ Hl) as [_ [_ [total Hs]]].
  destruct (preview_terminal_spec _ _ _ _ _ _ s reason Hs Hr) as (st & o & g & v & t & E & Ht & _ & Hg & _).
  destruct (commit_spec _ _ _ _ _ _ s st (published v) [] t [] g Hs Hg) as (g' & Ec & _).
  eexists _, _, _. split_and!; [exact E|exact Ec|done|]. by eapply lives_close.
Qed.

(** A preview that was made can be committed, and discarding it gives the session
    back as it was, the state of the grammar included. *)
Theorem preview_undone defaults end_token prompt caller options s0 accepted shown s tokens budget limit d s1 :
  make_output_session defaults end_token (Some prompt) caller options = Ok s0 -> lives s0 accepted shown None s ->
  preview tokens budget limit s = (Ok d, s1) ->
  (exists out s2, commit_preview s1 = (Ok out, s2) /\ terminal (state s2) = finished d) /\ discard_preview s1 = (Ok tt, s).
Proof.
  intros Hm Hl Hp. pose proof (lives_life_at _ _ _ _ (made_life_at _ _ _ _ _ _ Hm) _ _ _ _ Hl) as H. split; [|by eapply life_discard].
  destruct H as [Es [_ [total Hs]]]. pose proof (preview_spec _ _ _ _ _ _ s tokens budget limit Hs) as Hp'. rewrite Hp in Hp'.
  destruct Hp' as (taken & st & o & g & v & channels & t & _ & _ & Hr & Hg & -> & _).
  destruct (commit_spec _ _ _ _ _ _ s st (published v) channels t taken g Hs Hg) as (g' & Ec & _). eexists _, _. split; [exact Ec|]. simpl.
  destruct (finished d) eqn:Hf; [by apply round_ended in Hr as [_ ?]|]. unfold finished in Hf. apply negb_false_iff, bool_decide_eq_true in Hf.
  unfold round_result in Hr. rewrite Hf in Hr. destruct (reject_generated_round d); [|by destruct Hr as (_ & _ & ? & _)].
  destruct Hr as (_ & _ & -> & _). by destruct Hs.
Qed.


Lemma preview_within s tokens budget limit d s1 : preview tokens budget limit s = (Ok d, s1) -> tokens ≠ [] /\ (Z.of_nat (length tokens) <= budget)%Z.
Proof.
  unfold preview. destruct (terminal (state s)); [done|]. destruct (bool_decide (is_Some (preview_of s))); [done|]. cbn [throw_if mbind res_bind].
  destruct (bool_decide_reflect (tokens = [])); [done|]. cbn [throw_if mbind res_bind]. by destruct (Z.ltb_spec budget (Z.of_nat (length tokens))).
Qed.

(** A preview that is not rejected accepts at least one of the tokens it was given
    and at most all of them, and a session does not run past its budget: when the
    accepted tokens use it up, the session ends. *)
Theorem preview_progress defaults end_token prompt caller options s0 accepted shown s tokens budget limit d s1 :
  make_output_session defaults end_token (Some prompt) caller options = Ok s0 -> lives s0 accepted shown None s ->
  preview tokens budget limit s = (Ok d, s1) ->
  (accepted_tokens d <= Z.of_nat (length tokens))%Z /\
  (if reject_generated_round d then accepted_tokens d = 0%Z else (0 < accepted_tokens d <= budget)%Z /\ (accepted_tokens d = budget -> finished d = true)).
Proof.
  intros Hm Hl Hp. destruct (lives_life_at _ _ _ _ (made_life_at _ _ _ _ _ _ Hm) _ _ _ _ Hl) as [_ [_ [total Hs]]].
  pose proof (preview_spec _ _ _ _ _ _ s tokens budget limit Hs) as Hp'. rewrite Hp in Hp'.
  destruct Hp' as (taken & st & o & g & v & channels & t & Hpre%prefix_length & -> & Hr & _). split; [lia|].
  apply preview_within in Hp as [Hne Hb]. unfold round_result in Hr. destruct (reject_generated_round d); [by destruct Hr as (_ & -> & _)|].
  assert (0 < length taken)%nat as Hpos.
  { destruct (finish_reason d).
    - destruct Hr as (H & _). destruct taken; [done|]. simpl. lia.
    - destruct Hr as (_ & E & _). destruct tokens; [done|]. simpl in Hb. lia.
    - destruct Hr as (_ & E & _). destruct tokens; [done|]. simpl in Hb. lia.
    - destruct Hr as (_ & front & token & -> & _). rewrite length_app. simpl. lia.
    - destruct Hr as (_ & _ & front & token & -> & _). rewrite length_app. simpl. lia.
    - destruct Hr as (_ & E & _). destruct tokens; [done|]. simpl in Hb. lia. }
  split; [lia|]. intros E. unfold finished. destruct (finish_reason d); try done. destruct Hr as (_ & H & _). lia.
Qed.

(** Whether the model may stop after a text: the reasoning is over, there is some answer
    where one is required, and no tool call is open or may be opening. *)
Definition may_stop start constrained (tool_out : bool) (D : list Z) : bool :=
  match split_text start D with
  | (_, None) => false
  | (_, Some c) =>
      let c := content_text start constrained c in
      let '(in_call, pending) := tool_scan false c in
      negb ((start || tool_out) && negb constrained && blank c) && negb (tool_out && (in_call || negb (bool_decide (pending = []))))
  end.

(** C12: the stop tokens of the model are let through exactly where the text generated
    so far may end: never inside the reasoning, not before an answer that is required,
    and not inside a tool call or where one may be beginning. *)
Theorem model_stop_gate defaults end_token prompt caller options s0 accepted shown s :
  make_output_session defaults end_token (Some prompt) caller options = Ok s0 -> lives s0 accepted shown None s ->
  model_stop_tokens_allowed s = raw s0 ||
    may_stop (starts_in_reasoning prompt && negb (options_raw options)) (constrained_content (state s0)) (tool_output_enabled s0) (decoded (tokens_text s0 accepted)).
Proof.
  intros Hm Hl. pose proof (made_required _ _ _ _ _ _ Hm) as Hreq0. set (start := _ && negb (options_raw options)) in *.
  destruct (lives_life_at _ _ _ _ (made_life_at _ _ _ _ _ _ Hm) _ _ _ _ Hl) as [Es [Hreq [total Hs]]].
  pose proof (session_text _ _ _ _ _ _ _ Hs) as [[Hk Hat] _]. rewrite (setup_text s s0) in Hat by done. injection Es as _ _ _ _ Er Et _ _. rewrite Et in Hat.
  unfold model_stop_tokens_allowed, model_stop_allowed, may_stop. rewrite Er, Et, Hreq, Hreq0. destruct (raw s0); [done|]. simpl.
  destruct (in_reasoning (state s)).
  - destruct Hat as [Hst Hn _ _ _ _ _]. fold start in Hst. unfold split_text. rewrite Hst, Hn. done.
  - destruct Hat as (r & c & Esp & [_ _ _ _ [Hb Hc]]). fold start in Esp, Hb, Hc. rewrite Esp, Hb. unfold in_tool_region, has_ambiguous_tool_marker.
    set (cc := content_text _ _ _) in *. destruct (tool_output_enabled s0); simpl.
    + destruct (tool_scan false cc) as [a b]. injection Hc as -> ->. destruct (blank cc), a, start, (constrained_content (state s0)); simpl; try done.
    + injection Hc as -> _. destruct (tool_scan false cc) as [a b]. destruct (blank cc), start, (constrained_content (state s0)); done.
Qed.

End Sessions.

(** ** Output sessions at work

    A tokenizer of bytes with an end token, a stop string and a model that reasons
    first: the theorems on sessions, applied. *)

(** Tokens 0 to 255 are bytes; 256 is the end token, 257 a token that does not decode. *)
#[local] Instance demo_tokenizer : Tokenizer := {|
  is_valid_token t := (0 <=? t) && (t <=? 257);
  decode_token_bytes t skip := if t <=? 255 then Ok [t] else if t =? 256 then Ok (if skip then [] else [60; 124; 62]) else Throw runtime_error;
|}.

(** A grammar that accepts everything and counts. *)
#[local] Instance demo_matcher : Matcher := {| GrammarMatcher := Z; AcceptToken _ n := Some (n + 1) |}.

(** ASCII. *)
#[local] Instance demo_utf8proc : Utf8proc := {|
  utf8proc_iterate text := match text with b :: _ => if b <=? 127 then (1, b) else (-1, 0) | [] => (0, 0) end;
  utf8proc_category _ := OtherCategory;
|}.

(** The stop string [END] ends the content. *)
Definition demo_stop : StopPolicy := MkPolicy [] [MkStop [69; 78; 68] Content false] true false.
Definition demo_prompt : @PromptOutput demo_matcher unit := MkPromptOutput true false None.
Definition demo_options : OutputOptions := MkOutputOptions false false.

Lemma merge_stop_policy_exact_witness : exists p, merge_stop_policy [256] demo_stop = Ok p /\ NoDup (token_ids p).
Proof. eexists. split; [vm_compute; reflexivity|]. apply (merge_stop_policy_exact [256] demo_stop). vm_compute. reflexivity. Defined.

Definition demo_new : @OutputSession demo_matcher unit :=
  Eval vm_compute in match make_output_session [256] 300 (Some demo_prompt) demo_stop demo_options with
    | Ok s => s
    | Throw _ => make_session demo_stop false false false false 0 [] None
    end.

Lemma demo_made : make_output_session [256] 300 (Some demo_prompt) demo_stop demo_options = Ok demo_new.
Proof. vm_compute. reflexivity. Qed.

(** [a</think> b], of which the first round takes the reasoning; then [ b] and [cENDd],
    together or one after the other. *)
Definition demo_first : list Z := [97; 60; 47; 116; 104; 105; 110; 107; 62; 32; 98].
Definition demo_think : list Z := [97; 60; 47; 116; 104; 105; 110; 107; 62].
Definition demo_second : list Z := [32; 98].
Definition demo_third : list Z := [99; 69; 78; 68; 100].

Definition previewed_session (tokens : list Z) (s : @OutputSession demo_matcher unit) : @OutputSession demo_matcher unit := (preview tokens 20 OutputLimit s).2.
Definition committed_session (s : @OutputSession demo_matcher unit) : @OutputSession demo_matcher unit := (commit_preview s).2.

Definition demo_previewed : @OutputSession demo_matcher unit := Eval vm_compute in previewed_session demo_first demo_new.
Definition demo_answering : @OutputSession demo_matcher unit := Eval vm_compute in committed_session demo_previewed.
Definition demo_continued : @OutputSession demo_matcher unit := Eval vm_compute in previewed_session demo_second demo_answering.
Definition demo_running : @OutputSession demo_matcher unit := Eval vm_compute in committed_session demo_continued.
Definition demo_stopping : @OutputSession demo_matcher unit := Eval vm_compute in previewed_session demo_third demo_running.
Definition demo_stopped : @OutputSession demo_matcher unit := Eval vm_compute in committed_session demo_stopping.
Definition demo_at_once : @OutputSession demo_matcher unit := Eval vm_compute in previewed_session (demo_second ++ demo_third) demo_answering.
Definition demo_stopped_at_once : @OutputSession demo_matcher unit := Eval vm_compute in committed_session demo_at_once.

Lemma demo_preview_first : preview demo_first 20 OutputLimit demo_new = (Ok (MkDecision 9 FinishNone false), demo_previewed).
Proof. vm_compute. reflexivity. Qed.

Lemma demo_life_answering : lives demo_new demo_think ([97], []) None demo_answering.
Proof.
  refine (lives_round demo_new [] ([], []) demo_new demo_first 20 OutputLimit (MkDecision 9 FinishNone false) demo_previewed
    [MkDelta Reasoning [97]] demo_answering (lives_made _) demo_preview_first _). vm_compute. reflexivity.
Qed.

Lemma demo_life_running : lives demo_new (demo_think ++ demo_second) ([97], [98]) None demo_running.
Proof.
  refine (lives_round demo_new demo_think ([97], []) demo_answering demo_second 20 OutputLimit (MkDecision 2 FinishNone false) demo_continued
    [MkDelta Content [98]] demo_running demo_life_answering _ _); vm_compute; reflexivity.
Qed.

(** The output stops before [END], and the token after it is not accepted. *)
Definition demo_accepted : list Z := demo_think ++ [32; 98; 99; 69; 78; 68].

Lemma demo_life_stopped : lives demo_new demo_accepted ([97], [98; 99]) (Some StopString) demo_stopped.
Proof.
  refine (lives_round demo_new (demo_think ++ demo_second) ([97], [98]) demo_running demo_third 20 OutputLimit (MkDecision 4 StopString false) demo_stopping
    [MkDelta Content [99]] demo_stopped demo_life_running _ _); vm_compute; reflexivity.
Qed.

Lemma demo_life_at_once : lives demo_new demo_accepted ([97], [98; 99]) (Some StopString) demo_stopped_at_once.
Proof.
  refine (lives_round demo_new demo_think ([97], []) demo_answering (demo_second ++ demo_third) 20 OutputLimit (MkDecision 6 StopString false) demo_at_once
    [MkDelta Content [98; 99]] demo_stopped_at_once demo_life_answering _ _); vm_compute; reflexivity.
Qed.

Lemma session_output_exact_witness : exists total, ended demo_new true false demo_accepted StopString total.
Proof.
  destruct (session_output_exact [256] 300 demo_prompt demo_stop demo_options demo_new demo_accepted ([97], [98; 99]) (Some StopString) demo_stopped
    demo_made demo_life_stopped) as (total & _ & H). by exists total.
Defined.

Lemma session_output_rounds_witness : lives demo_new demo_accepted ([97], [98; 99]) (Some StopString) demo_stopped_at_once /\ ([97], [98; 99]) = ([97], [98; 99]).
Proof.
  split; [exact demo_life_at_once|].
  exact (session_output_rounds [256] 300 demo_prompt demo_stop demo_options demo_new demo_accepted StopString _ demo_stopped _ demo_stopped_at_once
    demo_made eq_refl demo_life_stopped demo_life_at_once).
Defined.

Lemma session_closes_witness : exists s1, preview_terminal Cancelled demo_running = (Ok (MkDecision 0 Cancelled false), s1).
Proof.
  destruct (session_closes [256] 300 demo_prompt demo_stop demo_options demo_new (demo_think ++ demo_second) ([97], [98]) demo_running Cancelled
    demo_made demo_life_running (or_intror (or_intror eq_refl))) as (s1 & _ & _ & H & _). by exists s1.
Defined.

Lemma preview_undone_witness : discard_preview demo_previewed = (Ok tt, demo_new).
Proof.
  exact (proj2 (preview_undone [256] 300 demo_prompt demo_stop demo_options demo_new [] ([], []) demo_new demo_first 20 OutputLimit _ demo_previewed
    demo_made (lives_made _) demo_preview_first)).
Defined.


Lemma preview_progress_witness : (9 <= 11)%Z /\ (0 < 9 <= 20)%Z.
Proof.
  pose proof (preview_progress [256] 300 demo_prompt demo_stop demo_options demo_new [] ([], []) demo_new demo_first 20 OutputLimit _ demo_previewed
    demo_made (lives_made _) demo_preview_first) as [H1 [H2 _]]. split; [exact H1|exact H2].
Defined.

(** Once the answer has begun the model may stop. *)
Lemma model_stop_gate_witness : model_stop_tokens_allowed demo_running = raw demo_new || may_stop true false false (decoded (tokens_text demo_new (demo_think ++ demo_second))).
Proof.
  exact (model_stop_gate [256] 300 demo_prompt demo_stop demo_options demo_new (demo_think ++ demo_second) ([97], [98]) demo_running demo_made demo_life_running).
Defined.
