(* ===== verification/TokenBpe.v ===== *)
(** * Byte-pair encoding

    targets/qwen3_6/impl/frontend/tokenizer.cpp: the table of merge pairs, an open-addressed
    hash table, and [append_bpe_word], which merges the symbols of a word.  A short word is
    merged by scanning for the best pair, a long one through a heap of candidates that may
    be stale.  Intern identifiers, ranks and indexes are [int] in the code and [Z] here;
    [-1] is no node.

    [std::make_heap], [push_heap] and [pop_heap] are the class [Heap]: what the code relies
    on is that a pop takes out an element that no other precedes. *)

From stdpp Require Import prelude functions list list_numbers.
From Stdlib Require Import ZArith Lia.
From S2P Require Import Prelude.
#[local] Open Scope Z_scope.

(** ** The table of pairs *)
Definition kEmptyBpeKey : Z := 2 ^ 64 - 1.

Definition pack_bpe_pair (left right : Z) : Z := Z.lor (Z.shiftl (wrap32 left) 32) (wrap32 right).

Definition hash_bpe_key (key : Z) : Z :=
  let key := Z.lxor key (Z.shiftr key 30) in
  let key := wrap64 (key * 0xbf58476d1ce4e5b9) in
  let key := Z.lxor key (Z.shiftr key 27) in
  let key := wrap64 (key * 0x94d049bb133111eb) in
  Z.lxor key (Z.shiftr key 31).

Record BpePairSlot : Type := MkSlot { slot_key : Z; slot_rank : Z; slot_result : Z }.

Definition empty_slot : BpePairSlot := MkSlot kEmptyBpeKey 0 (-1).

Record BpePairTable : Type := MkTable { slots : list BpePairSlot; mask : Z }.

(** The loop of [bpe_table_size]; [size] doubles, so 64 iterations pass every [size_t]. *)
Fixpoint table_size_loop (fuel : nat) (size needed : Z) : Z :=
  match fuel with
  | O => size
  | S fuel => if size <? needed then table_size_loop fuel (size * 2) needed else size
  end.

Definition bpe_table_size (pair_count : Z) : Z := table_size_loop 64 8 (pair_count * 2 + 1).

(** The probe loop of [insert_bpe_pair]: [probes] slots are left to try. *)
Fixpoint insert_probe (probes : nat) (table : BpePairTable) (index key rank result : Z) : res BpePairTable :=
  match probes with
  | O => Throw logic_error
  | S probes =>
      match slots table !! Z.to_nat index with
      | None => Throw undefined
      | Some slot =>
          if slot_key slot =? kEmptyBpeKey then Ok (MkTable (<[Z.to_nat index := MkSlot key rank result]> (slots table)) (mask table))
          else if slot_key slot =? key then Throw invalid_argument
          else insert_probe probes table (Z.land (index + 1) (mask table)) key rank result
      end
  end.

Definition insert_bpe_pair (table : BpePairTable) (key rank result : Z) : res BpePairTable :=
  insert_probe (length (slots table)) table (Z.land (hash_bpe_key key) (mask table)) key rank result.

Fixpoint find_probe (probes : nat) (table : BpePairTable) (index key : Z) : option BpePairSlot :=
  match probes with
  | O => None
  | S probes =>
      slot ← slots table !! Z.to_nat index;
      if slot_key slot =? key then Some slot
      else if slot_key slot =? kEmptyBpeKey then None
      else find_probe probes table (Z.land (index + 1) (mask table)) key
  end.

Definition find_bpe_pair (table : BpePairTable) (left right : Z) : option BpePairSlot :=
  let key := pack_bpe_pair left right in
  find_probe (length (slots table)) table (Z.land (hash_bpe_key key) (mask table)) key.

(** The constructor's part: [interned_pairs] are left, right, result and rank. *)
Fixpoint insert_pairs (pairs : list (Z * Z * Z * Z)) (table : BpePairTable) : res BpePairTable :=
  match pairs with
  | [] => Ok table
  | (left_, right_, result, rank) :: pairs =>
      table ← insert_bpe_pair table (pack_bpe_pair left_ right_) rank result;
      insert_pairs pairs table
  end.

Definition build_pair_table (pairs : list (Z * Z * Z * Z)) : res BpePairTable :=
  let size := bpe_table_size (Z.of_nat (length pairs)) in
  insert_pairs pairs (MkTable (replicate (Z.to_nat size) empty_slot) (size - 1)).

(** ** The word *)
Record Node : Type := MkNode { intern_id : Z; prev : Z; next : Z; generation : Z }.

Record Candidate : Type := MkCandidate {
  c_rank : Z; c_left : Z; c_right : Z; c_result : Z; left_generation : Z; right_generation : Z;
}.

(** [BpeScratch::Later] *)
Definition later (a b : Candidate) : bool := (c_rank b <? c_rank a) || ((c_rank a =? c_rank b) && (c_left b <? c_left a)).

(** [std::make_heap], [push_heap] and [pop_heap] over the candidates. *)
Class Heap : Type := {
  heap : Type;
  make_heap : list Candidate -> heap;
  push_heap : Candidate -> heap -> heap;
  pop_heap : heap -> option (Candidate * heap);
}.

(** What the standard guarantees of them: the elements of a heap, and that a pop takes out
    one that is not later than any. *)
Class HeapLaws {H : Heap} : Type := {
  contents : heap -> list Candidate;
  contents_make l : contents (make_heap l) ≡ₚ l;
  contents_push c h : contents (push_heap c h) ≡ₚ c :: contents h;
  contents_pop h : match pop_heap h with
    | None => contents h = []
    | Some (c, h') => contents h ≡ₚ c :: contents h' /\ forall x, x ∈ contents h -> later c x = false
    end;
}.

Definition get_node (nodes : list Node) (i : Z) : Node := default (MkNode (-1) (-1) (-1) 0) (nodes !! Z.to_nat i).
Definition set_node (i : Z) (v : Node) (nodes : list Node) : list Node := <[Z.to_nat i := v]> nodes.

(** The loop over the bytes of the word; [index] is the node to make. *)
Fixpoint word_nodes (byte_to_intern_id : Z -> Z) (word : list Z) (index : Z) : res (list Node) :=
  match word with
  | [] => Ok []
  | byte :: word =>
      let id := byte_to_intern_id byte in
      throw_if (id <? 0) invalid_argument ;;
      nodes ← word_nodes byte_to_intern_id word (index + 1);
      Ok (MkNode id (index - 1) (if bool_decide (word = []) then -1 else index + 1) 0 :: nodes)
  end.

(** The scan for the best pair, from node [index]; [best] is a node, its rank and its
    pair. *)
Fixpoint scan_best (fuel : nat) (table : BpePairTable) (nodes : list Node) (index : Z) (best_rank : Z) (best : option (Z * BpePairSlot))
    : option (Z * BpePairSlot) :=
  match fuel with
  | O => best
  | S fuel =>
      if index <? 0 then best
      else
        let left_ := get_node nodes index in
        if next left_ <? 0 then best
        else
          let '(best_rank, best) :=
            match find_bpe_pair table (intern_id left_) (intern_id (get_node nodes (next left_))) with
            | Some slot => if slot_rank slot <? best_rank then (slot_rank slot, Some (index, slot)) else (best_rank, best)
            | None => (best_rank, best)
            end in
          scan_best fuel table nodes (next left_) best_rank best
  end.

(** The node after [left_.next] takes its place behind [index]. *)
Definition relink (index : Z) (nodes : list Node) : list Node :=
  let n := next (get_node nodes index) in
  if n <? 0 then nodes
  else let x := get_node nodes n in set_node n (MkNode (intern_id x) index (next x) (generation x)) nodes.

Definition i32_max_rank : Z := 2 ^ 31 - 1.

Fixpoint merge_scan (fuel : nat) (table : BpePairTable) (nodes : list Node) : list Node :=
  match fuel with
  | O => nodes
  | S fuel =>
      match scan_best (length nodes) table nodes 0 i32_max_rank None with
      | None => nodes
      | Some (i, slot) =>
          let left_ := get_node nodes i in
          let after := next (get_node nodes (next left_)) in
          merge_scan fuel table (relink i (set_node i (MkNode (slot_result slot) (prev left_) after (generation left_)) nodes))
      end
  end.

(** The lambda [candidate]. *)
Definition candidate (table : BpePairTable) (nodes : list Node) (i : Z) : option Candidate :=
  if i <? 0 then None
  else
    let a := get_node nodes i in
    if next a <? 0 then None
    else
      let b := get_node nodes (next a) in
      (fun slot => MkCandidate (slot_rank slot) i (next a) (slot_result slot) (generation a) (generation b)) <$>
        find_bpe_pair table (intern_id a) (intern_id b).

Section Word.
Context {H : Heap}.

Definition append_candidate (table : BpePairTable) (nodes : list Node) (i : Z) (candidates : heap) : heap :=
  match candidate table nodes i with Some c => push_heap c candidates | None => candidates end.

(** Whether a candidate is stale. *)
Definition stale (nodes : list Node) (m : Candidate) : bool :=
  negb (next (get_node nodes (c_left m)) =? c_right m) || negb (generation (get_node nodes (c_left m)) =? left_generation m) ||
  negb (generation (get_node nodes (c_right m)) =? right_generation m).

(** The nodes after a merge. *)
Definition merged (m : Candidate) (nodes : list Node) : list Node :=
  let left_ := get_node nodes (c_left m) in
  let right_ := get_node nodes (c_right m) in
  let nodes := set_node (c_left m) (MkNode (c_result m) (prev left_) (next right_) (generation left_ + 1)) nodes in
  let nodes := set_node (c_right m) (MkNode (intern_id right_) (prev right_) (next right_) (generation right_ + 1)) nodes in
  relink (c_left m) nodes.

Fixpoint merge_heap (fuel : nat) (table : BpePairTable) (nodes : list Node) (candidates : heap) : list Node :=
  match fuel with
  | O => nodes
  | S fuel =>
      match pop_heap candidates with
      | None => nodes
      | Some (m, candidates) =>
          if stale nodes m then merge_heap fuel table nodes candidates
          else
            let nodes := merged m nodes in
            let candidates := append_candidate table nodes (prev (get_node nodes (c_left m))) candidates in
            merge_heap fuel table nodes (append_candidate table nodes (c_left m) candidates)
      end
  end.

Definition initial_candidates (table : BpePairTable) (nodes : list Node) : list Candidate :=
  omap (fun i => candidate table nodes (Z.of_nat i)) (seq 0 (length nodes - 1)).

(** Every merge adds at most two candidates and removes a node. *)
Definition merge_word (table : BpePairTable) (nodes : list Node) : list Node :=
  if (length nodes <=? 64)%nat then merge_scan (length nodes) table nodes
  else merge_heap (4 * length nodes) table nodes (make_heap (initial_candidates table nodes)).

(** The loop that emits the identifiers of the symbols. *)
Fixpoint emit_symbols (fuel : nat) (intern_emit_ids : list Z) (intern_emit_offsets : list nat) (nodes : list Node) (index : Z) : res (list Z) :=
  match fuel with
  | O => Ok []
  | S fuel =>
      if index <? 0 then Ok []
      else
        let id := intern_id (get_node nodes index) in
        throw_if ((id <? 0) || (Z.of_nat (length intern_emit_offsets) <=? id + 1)) invalid_argument ;;
        let emit_begin := default 0%nat (intern_emit_offsets !! Z.to_nat id) in
        let emit_end := default 0%nat (intern_emit_offsets !! S (Z.to_nat id)) in
        throw_if ((emit_end <=? emit_begin)%nat || (length intern_emit_ids <? emit_end)%nat) invalid_argument ;;
        ids ← emit_symbols fuel intern_emit_ids intern_emit_offsets nodes (next (get_node nodes index));
        Ok (take (emit_end - emit_begin) (drop emit_begin intern_emit_ids) ++ ids)
  end.

(** What [append_bpe_word] appends. *)
Definition append_bpe_word (table : BpePairTable) (byte_to_intern_id : Z -> Z) (intern_emit_ids : list Z) (intern_emit_offsets : list nat)
    (word : list Z) : res (list Z) :=
  if bool_decide (word = []) then Ok []
  else
    nodes ← word_nodes byte_to_intern_id word 0;
    emit_symbols (length nodes) intern_emit_ids intern_emit_offsets (merge_word table nodes) 0.

End Word.

(** ** The table of merge pairs

    Linear probing in a table of a power of two slots, at most half full and without
    removals: a lookup finds exactly the pairs that were inserted. *)

(** ** Keys *)
Lemma pack_bpe_pair_value l r : 0 <= l < 2 ^ 32 -> 0 <= r < 2 ^ 32 -> pack_bpe_pair l r = l * 2 ^ 32 + r.
Proof.
  intros Hl Hr. unfold pack_bpe_pair, wrap32. rewrite !Z.mod_small by done. rewrite Z.shiftl_mul_pow2 by lia.
  apply Z.bits_inj'. intros n Hn. rewrite Z.lor_spec. destruct (Z_lt_le_dec n 32) as [Hlt|Hge].
  - rewrite Z.mul_pow2_bits_low by done. simpl. rewrite <-(Z.mod_pow2_bits_low (l * 2 ^ 32 + r) 32) by done.
    by rewrite Z.add_comm, Z.mod_add, Z.mod_small by lia.
  - rewrite Z.mul_pow2_bits by lia. rewrite (Z.bits_above_log2 r n), orb_false_r.
    + replace n with (n - 32 + 32) at 2 by lia. rewrite <-Z.div_pow2_bits by lia. f_equal. rewrite Z.add_comm, Z.div_add, Z.div_small by lia. done.
    + lia.
    + destruct (decide (r = 0)) as [->|]; [simpl; lia|]. assert (Z.log2 r < 32); [|lia]. apply Z.log2_lt_pow2; lia.
Qed.

Lemma pack_bpe_pair_inj l r l' r' : 0 <= l < 2 ^ 32 -> 0 <= r < 2 ^ 32 -> 0 <= l' < 2 ^ 32 -> 0 <= r' < 2 ^ 32 ->
  pack_bpe_pair l r = pack_bpe_pair l' r' -> l = l' /\ r = r'.
Proof. intros. rewrite !pack_bpe_pair_value in * by done. lia. Qed.

(** ** The size *)
Lemma table_size_loop_spec fuel k needed : 0 <= k -> needed <= 2 ^ (k + Z.of_nat fuel) ->
  exists k', k <= k' /\ table_size_loop fuel (2 ^ k) needed = 2 ^ k' /\ needed <= 2 ^ k'.
Proof.
  revert k. induction fuel as [|fuel IH]; intros k Hk Hn; cbn [table_size_loop].
  - exists k. rewrite Z.add_0_r in Hn. done.
  - destruct (Z.ltb_spec (2 ^ k) needed) as [Hlt|Hge]; [|by exists k].
    replace (2 ^ k * 2) with (2 ^ (k + 1)) by (rewrite Z.pow_add_r by lia; lia).
    destruct (IH (k + 1)) as (k' & H1 & H2 & H3); [lia|by replace (k + 1 + Z.of_nat fuel) with (k + Z.of_nat (S fuel)) by lia|].
    exists k'. split_and!; [lia|done|done].
Qed.

Lemma bpe_table_size_spec count : 0 <= count < 2 ^ 62 -> exists k, 0 <= k /\ bpe_table_size count = 2 ^ k /\ count * 2 < 2 ^ k.
Proof.
  intros Hc. unfold bpe_table_size. change 8 with (2 ^ 3).
  destruct (table_size_loop_spec 64 3 (count * 2 + 1)) as (k & H1 & H2 & H3); [lia| |].
  - change (2 ^ (3 + Z.of_nat 64)) with (2 ^ 67). change (2 ^ 67) with (2 ^ 62 * 32). lia.
  - exists k. split_and!; [lia|done|lia].
Qed.

(** ** Probing *)

(** The slot that the probe number [d] for [key] looks at, in a table of [2 ^ k] slots. *)
Definition probed (k key : Z) (d : nat) : nat := Z.to_nat ((hash_bpe_key key + Z.of_nat d) mod 2 ^ k).

Definition sized (k : Z) (t : BpePairTable) : Prop := 0 <= k /\ Z.of_nat (length (slots t)) = 2 ^ k /\ mask t = 2 ^ k - 1.

Lemma land_mask k t x : sized k t -> Z.land x (mask t) = x mod 2 ^ k.
Proof. intros (Hk & _ & ->). rewrite <-Z.land_ones by done. f_equal. rewrite Z.ones_equiv. lia. Qed.

Lemma probed_next k t key (d : nat) : sized k t -> Z.land ((hash_bpe_key key + Z.of_nat d) mod 2 ^ k + 1) (mask t) = (hash_bpe_key key + Z.of_nat (S d)) mod 2 ^ k.
Proof. intros Ht. rewrite (land_mask k) by done. rewrite Zplus_mod_idemp_l. f_equal. lia. Qed.

Lemma probed_lookup k t key d : sized k t -> exists slot, slots t !! probed k key d = Some slot.
Proof.
  intros (Hk & Hl & _). apply lookup_lt_is_Some. unfold probed. pose proof (Z.mod_pos_bound (hash_bpe_key key + Z.of_nat d) (2 ^ k) ltac:(lia)). lia.
Qed.

(** Every slot is probed. *)
Lemma probed_all k t key i : sized k t -> (i < length (slots t))%nat -> exists d, (d < length (slots t))%nat /\ probed k key d = i.
Proof.
  intros (Hk & Hl & _) Hi. set (h := hash_bpe_key key). pose proof (Z.mod_pos_bound (Z.of_nat i - h) (2 ^ k) ltac:(lia)) as Hb.
  exists (Z.to_nat ((Z.of_nat i - h) mod 2 ^ k)). split; [lia|]. unfold probed. fold h. rewrite Z2Nat.id by lia.
  rewrite Zplus_mod_idemp_r. replace (h + (Z.of_nat i - h)) with (Z.of_nat i) by lia. rewrite Z.mod_small by lia. lia.
Qed.

(** The probe loops as loops over the probe number. *)
Fixpoint probe_from (probes : nat) (k : Z) (t : BpePairTable) (key : Z) (d : nat) : option nat :=
  match probes with
  | O => None
  | S probes =>
      match slots t !! probed k key d with
      | None => None
      | Some slot => if (slot_key slot =? kEmptyBpeKey) || (slot_key slot =? key) then Some d else probe_from probes k t key (S d)
      end
  end.

Lemma probe_from_spec probes k t key d0 : sized k t ->
  match probe_from probes k t key d0 with
  | Some d => (d0 <= d < d0 + probes)%nat /\ (exists slot, slots t !! probed k key d = Some slot /\ (slot_key slot = kEmptyBpeKey \/ slot_key slot = key)) /\
      (forall e slot, (d0 <= e < d)%nat -> slots t !! probed k key e = Some slot -> slot_key slot ≠ kEmptyBpeKey /\ slot_key slot ≠ key)
  | None => forall e slot, (d0 <= e < d0 + probes)%nat -> slots t !! probed k key e = Some slot -> slot_key slot ≠ kEmptyBpeKey /\ slot_key slot ≠ key
  end.
Proof.
  intros Ht. revert d0. induction probes as [|probes IH]; intros d0; cbn [probe_from]; [lia|].
  destruct (probed_lookup k t key d0 Ht) as [slot Es]. rewrite Es.
  destruct (Z.eqb_spec (slot_key slot) kEmptyBpeKey) as [E1|E1]; simpl; [split_and!; [lia|lia|eauto|lia]|].
  destruct (Z.eqb_spec (slot_key slot) key) as [E2|E2]; [split_and!; [lia|lia|eauto|lia]|].
  assert (forall e slot', e = d0 -> slots t !! probed k key e = Some slot' -> slot_key slot' ≠ kEmptyBpeKey /\ slot_key slot' ≠ key) as Hd0.
  { intros e slot' -> Hs. rewrite Es in Hs. by injection Hs as <-. }
  specialize (IH (S d0)). destruct (probe_from probes k t key (S d0)) as [d|].
  - destruct IH as (H1 & H2 & H3). split_and!; [lia|lia|done|]. intros e slot' He. destruct (decide (e = d0)); [by apply Hd0|apply H3; lia].
  - intros e slot' He. destruct (decide (e = d0)); [by apply Hd0|apply IH; lia].
Qed.

Lemma find_probe_from probes k t key d : sized k t ->
  find_probe probes t ((hash_bpe_key key + Z.of_nat d) mod 2 ^ k) key =
    (d ← probe_from probes k t key d; slot ← slots t !! probed k key d; if slot_key slot =? key then Some slot else None).
Proof.
  intros Ht. revert d. induction probes as [|probes IH]; intros d; cbn [find_probe probe_from]; [done|]. fold (probed k key d).
  destruct (probed_lookup k t key d Ht) as [slot Es]. rewrite Es. cbn [mbind option_bind].
  destruct (Z.eqb_spec (slot_key slot) key) as [E|E].
  - rewrite orb_true_r. simpl. rewrite Es. simpl. by rewrite E, Z.eqb_refl.
  - rewrite orb_false_r. destruct (Z.eqb_spec (slot_key slot) kEmptyBpeKey) as [E1|E1].
    + simpl. rewrite Es. simpl. apply Z.eqb_neq in E. by rewrite E.
    + rewrite (probed_next k t key d Ht). apply IH.
Qed.

Lemma insert_probe_from probes k t key rank result d : sized k t ->
  insert_probe probes t ((hash_bpe_key key + Z.of_nat d) mod 2 ^ k) key rank result =
    match probe_from probes k t key d with
    | None => Throw logic_error
    | Some d =>
        match slots t !! probed k key d with
        | None => Throw undefined
        | Some slot => if slot_key slot =? kEmptyBpeKey then Ok (MkTable (<[probed k key d := MkSlot key rank result]> (slots t)) (mask t)) else Throw invalid_argument
        end
    end.
Proof.
  intros Ht. revert d. induction probes as [|probes IH]; intros d; cbn [insert_probe probe_from]; [done|]. fold (probed k key d).
  destruct (probed_lookup k t key d Ht) as [slot Es]. rewrite Es.
  destruct (Z.eqb_spec (slot_key slot) kEmptyBpeKey) as [E1|E1]; simpl.
  - rewrite Es. by rewrite E1.
  - destruct (Z.eqb_spec (slot_key slot) key) as [E2|E2].
    + rewrite Es. apply Z.eqb_neq in E1. by rewrite E1.
    + rewrite (probed_next k t key d Ht). apply IH.
Qed.

(** ** What a table holds *)
Definition filled (slot : BpePairSlot) : Z := if slot_key slot =? kEmptyBpeKey then 0 else 1.

Record stores (k : Z) (t : BpePairTable) (l : list BpePairSlot) : Prop := {
  stores_sized : sized k t;
  stores_only : forall i slot, slots t !! i = Some slot -> slot_key slot ≠ kEmptyBpeKey -> slot ∈ l;
  stores_reach : forall slot, slot ∈ l -> slot_key slot ≠ kEmptyBpeKey /\ exists d, (d < length (slots t))%nat /\
    slots t !! probed k (slot_key slot) d = Some slot /\
    forall e slot', (e < d)%nat -> slots t !! probed k (slot_key slot) e = Some slot' -> slot_key slot' ≠ kEmptyBpeKey;
  stores_once : NoDup (slot_key <$> l);
  stores_count : sumZ (filled <$> slots t) = Z.of_nat (length l);
}.

Lemma stores_key k t l slot slot' : stores k t l -> slot ∈ l -> slot' ∈ l -> slot_key slot = slot_key slot' -> slot = slot'.
Proof.
  intros Hs H1 H2 E. apply list_elem_of_lookup in H1 as [i H1], H2 as [j H2].
  assert (i = j) as ->; [|congruence]. apply (NoDup_lookup (slot_key <$> l) i j (slot_key slot)); [by apply stores_once in Hs| |]; rewrite list_lookup_fmap; [by rewrite H1|].
  rewrite H2. simpl. by rewrite E.
Qed.

Lemma stores_empty k : 0 <= k -> stores k (MkTable (replicate (Z.to_nat (2 ^ k)) empty_slot) (2 ^ k - 1)) [].
Proof.
  intros Hk. split; simpl.
  - split_and!; [done| |done]. simpl. rewrite length_replicate. lia.
  - intros i slot [-> _]%lookup_replicate. done.
  - by intros slot ?%elem_of_nil.
  - constructor.
  - induction (Z.to_nat (2 ^ k)); [done|]. simpl. done.
Qed.

(** A lookup gives what is stored under the key, and nothing else. *)
Lemma stores_find k t l key : stores k t l -> key ≠ kEmptyBpeKey ->
  match find_probe (length (slots t)) t (Z.land (hash_bpe_key key) (mask t)) key with
  | Some slot => slot ∈ l /\ slot_key slot = key
  | None => forall slot, slot ∈ l -> slot_key slot ≠ key
  end.
Proof.
  intros Hs Hk. pose proof (stores_sized _ _ _ Hs) as Ht. rewrite (land_mask k) by done.
  replace (hash_bpe_key key) with (hash_bpe_key key + Z.of_nat 0) by lia. rewrite (find_probe_from _ k) by done.
  pose proof (probe_from_spec (length (slots t)) k t key 0 Ht) as Hp. destruct (probe_from _ k t key 0) as [d|]; simpl.
  - destruct Hp as (_ & (slot & Es & Hslot) & Hbefore). rewrite Es. simpl. destruct (Z.eqb_spec (slot_key slot) key) as [E|E].
    + split; [|done]. eapply stores_only; [done|exact Es|congruence].
    + destruct Hslot as [Hempty|]; [|done]. intros slot' Hin Ek. destruct (stores_reach _ _ _ Hs slot' Hin) as (_ & d' & _ & Es' & Hb). rewrite Ek in *.
      destruct (lt_eq_lt_dec d d') as [[Hlt| ->]|Hlt].
      * by apply (Hb d slot).
      * rewrite Es in Es'. injection Es' as ->. done.
      * by destruct (Hbefore d' slot' ltac:(lia) Es').
  - intros slot Hin Ek. destruct (stores_reach _ _ _ Hs slot Hin) as (_ & d & Hd & Es & _). rewrite Ek in *. by destruct (Hp d slot ltac:(lia) Es).
Qed.

(** There is room while fewer pairs than slots are stored. *)
Lemma stores_room k t l : stores k t l -> (length l < length (slots t))%nat -> exists i slot, slots t !! i = Some slot /\ slot_key slot = kEmptyBpeKey.
Proof.
  intros Hs Hl. pose proof (stores_count _ _ _ Hs) as Hc. assert (sumZ (filled <$> slots t) < Z.of_nat (length (slots t))) as Hlt by lia. clear Hl Hc Hs.
  induction (slots t) as [|slot r IH]; [simpl in Hlt; lia|]. destruct (Z.eqb_spec (slot_key slot) kEmptyBpeKey) as [E|E]; [by exists 0%nat, slot|].
  destruct IH as (i & slot' & Hi & E'); [|by exists (S i), slot']. rewrite sum_cons, length_cons in Hlt. unfold filled in Hlt at 1. apply Z.eqb_neq in E. rewrite E in Hlt. lia.
Qed.

Lemma stores_insert_probe k t l key : stores k t l -> (length l < length (slots t))%nat -> key ≠ kEmptyBpeKey ->
  exists d slot, probe_from (length (slots t)) k t key 0 = Some d /\ (d < length (slots t))%nat /\ slots t !! probed k key d = Some slot /\
    (forall e slot, (e < d)%nat -> slots t !! probed k key e = Some slot -> slot_key slot ≠ kEmptyBpeKey) /\
    if bool_decide (key ∈ slot_key <$> l) then slot_key slot = key else slot_key slot = kEmptyBpeKey.
Proof.
  intros Hs Hl Hk. pose proof (stores_sized _ _ _ Hs) as Ht. pose proof (probe_from_spec (length (slots t)) k t key 0 Ht) as Hp.
  destruct (probe_from _ k t key 0) as [d|].
  - destruct Hp as (Hd & (slot & Es & Hslot) & Hb). exists d, slot. split_and!; [done|lia|done|intros e s' He; apply Hb; lia|].
    case_bool_decide as Hin.
    + destruct Hslot as [Hempty|]; [|done]. exfalso. apply list_elem_of_fmap in Hin as (s' & Ek & Hin).
      destruct (stores_reach _ _ _ Hs s' Hin) as (_ & d' & _ & Es' & Hb'). rewrite <-Ek in *. destruct (lt_eq_lt_dec d d') as [[Hlt| ->]|Hlt].
      * by apply (Hb' d slot).
      * rewrite Es in Es'. injection Es' as ->. congruence.
      * destruct (Hb d' s' ltac:(lia) Es'). congruence.
    + destruct Hslot as [|E]; [done|]. destruct Hin. apply list_elem_of_fmap. exists slot. split; [done|]. eapply stores_only; [done|exact Es|congruence].
  - exfalso. destruct (stores_room k t l Hs Hl) as (i & slot & Hi & E). destruct (probed_all k t key i Ht) as (d & Hd & Ed); [by eapply lookup_lt_Some|].
    subst i. by destruct (Hp d slot ltac:(lia) Hi).
Qed.

Lemma stores_insert k t l key rank result : stores k t l -> (length l < length (slots t))%nat -> key ≠ kEmptyBpeKey ->
  if bool_decide (key ∈ slot_key <$> l) then insert_bpe_pair t key rank result = Throw invalid_argument
  else exists t', insert_bpe_pair t key rank result = Ok t' /\ stores k t' (MkSlot key rank result :: l) /\ length (slots t') = length (slots t).
Proof.
  intros Hs Hl Hk. pose proof (stores_sized _ _ _ Hs) as Ht. destruct (stores_insert_probe k t l key Hs Hl Hk) as (d & slot & Ep & Hd & Es & Hb & Hslot).
  unfold insert_bpe_pair. rewrite (land_mask k) by done. replace (hash_bpe_key key) with (hash_bpe_key key + Z.of_nat 0) by lia.
  rewrite (insert_probe_from _ k) by done. rewrite Ep, Es. case_bool_decide as Hin.
  { rewrite Hslot. apply Z.eqb_neq in Hk. by rewrite Hk. }
  rewrite Hslot, Z.eqb_refl. eexists. split; [done|]. simpl. split; [|by rewrite length_insert].
  set (i := probed k key d). assert (i < length (slots t))%nat as Hi by (by eapply lookup_lt_Some).
  split; simpl.
  - destruct Ht as (H1 & H2 & H3). split_and!; [done|simpl; by rewrite length_insert|done].
  - intros j s' Hj Hne. destruct (decide (j = i)) as [->|Hij].
    + rewrite list_lookup_insert_eq in Hj by done. injection Hj as <-. left.
    + rewrite list_lookup_insert_ne in Hj by done. right. by eapply stores_only.
  - rewrite length_insert. intros s' [->|Hin']%elem_of_cons.
    + split; [done|]. exists d. split_and!; [done|by rewrite list_lookup_insert_eq|]. intros e s'' He. destruct (decide (probed k key e = i)) as [E|E]; [exfalso|].
      * specialize (Hb e slot He). unfold i in E. rewrite E in Hb. exact (Hb Es Hslot).
      * rewrite list_lookup_insert_ne by done. by apply Hb.
    + destruct (stores_reach _ _ _ Hs s' Hin') as (H1 & d' & H2 & H3 & H4). split; [done|]. exists d'. split_and!; [done| |].
      * rewrite list_lookup_insert_ne; [done|]. intros E. unfold i in E. rewrite <-E, Es in H3. injection H3 as ->. done.
      * intros e s'' He. destruct (decide (probed k (slot_key s') e = i)) as [E|E].
        -- rewrite E, list_lookup_insert_eq by done. by intros [= <-].
        -- rewrite list_lookup_insert_ne by done. by apply H4.
  - constructor; [done|]. by apply stores_once in Hs.
  - rewrite (sumZ_insert _ _ _ slot) by done. rewrite (stores_count _ _ _ Hs). unfold filled. simpl. rewrite Hslot, Z.eqb_refl. apply Z.eqb_neq in Hk. rewrite Hk. lia.
Qed.

(** ** Building the table *)

(** A pair as it is stored; the identifiers are those of interned symbols. *)
Definition pair_slot (x : Z * Z * Z * Z) : BpePairSlot := let '(l, r, result, rank) := x in MkSlot (pack_bpe_pair l r) rank result.
Definition pair_of (x : Z * Z * Z * Z) : Z * Z := let '(l, r, _, _) := x in (l, r).
Definition interned (x : Z * Z * Z * Z) : Prop := let '(l, r, _, _) := x in 0 <= l < 2 ^ 31 /\ 0 <= r < 2 ^ 31.

Lemma interned_key l r : 0 <= l < 2 ^ 31 -> 0 <= r < 2 ^ 31 -> pack_bpe_pair l r ≠ kEmptyBpeKey.
Proof. intros Hl Hr. rewrite pack_bpe_pair_value by lia. unfold kEmptyBpeKey. lia. Qed.

Lemma insert_pairs_spec k pairs t l : stores k t l -> (length pairs + length l <= length (slots t))%nat -> Forall interned pairs ->
  match insert_pairs pairs t with
  | Ok t' => stores k t' (reverse (pair_slot <$> pairs) ++ l)
  | Throw e => e = invalid_argument /\ ~ NoDup (slot_key <$> (reverse (pair_slot <$> pairs) ++ l))
  end.
Proof.
  revert t l. induction pairs as [|[[[a b] result] rank] pairs IH]; intros t l Hs Hl Hi; cbn [insert_pairs]; [done|].
  apply Forall_cons in Hi as [[Ha Hb] Hi]. simpl in Hl.
  pose proof (stores_insert k t l (pack_bpe_pair a b) rank result Hs ltac:(lia) (interned_key a b Ha Hb)) as H.
  rewrite fmap_cons, reverse_cons, <-app_assoc. simpl app. case_bool_decide as Hin.
  - rewrite H. simpl. split; [done|]. rewrite fmap_app, fmap_cons. simpl. intros (_ & _ & Hn)%NoDup_app. by apply NoDup_cons in Hn as [? _].
  - destruct H as (t' & -> & Hs' & El). cbn [mbind res_bind]. apply IH; [done|simpl; lia|done].
Qed.

Lemma pair_slot_NoDup pairs : Forall interned pairs -> NoDup (slot_key <$> (pair_slot <$> pairs)) <-> NoDup (pair_of <$> pairs).
Proof.
  intros Hi. rewrite <-list_fmap_compose. induction Hi as [|[[[a b] x] y] pairs [Ha Hb] Hi IH]; [split; constructor|]. rewrite !fmap_cons, !NoDup_cons, IH. simpl.
  assert ((pack_bpe_pair a b ∉ (slot_key ∘ pair_slot) <$> pairs) <-> ((a, b) ∉ pair_of <$> pairs)) as ->; [|done]. rewrite !list_elem_of_fmap. split.
  - intros Hn ([[[a' b'] x'] y'] & E & Hin). simpl in E. injection E as -> ->. apply Hn. by exists (a', b', x', y').
  - intros Hn ([[[a' b'] x'] y'] & E & Hin). simpl in E. rewrite Forall_forall in Hi. destruct (Hi _ Hin) as [Ha' Hb'].
    apply pack_bpe_pair_inj in E as [-> ->]; [|lia..]. apply Hn. by exists (a', b', x', y').
Qed.

(** The table of the tokenizer: built from distinct pairs it finds exactly the rank and the
    result each was given, and duplicate pairs are refused. *)
Lemma build_pair_table_exact pairs : Forall interned pairs -> Z.of_nat (length pairs) < 2 ^ 62 ->
  match build_pair_table pairs with
  | Throw e => e = invalid_argument /\ ~ NoDup (pair_of <$> pairs)
  | Ok t => NoDup (pair_of <$> pairs) /\ forall l r, 0 <= l < 2 ^ 31 -> 0 <= r < 2 ^ 31 ->
      match find_bpe_pair t l r with
      | Some slot => (l, r, slot_result slot, slot_rank slot) ∈ pairs
      | None => (l, r) ∉ pair_of <$> pairs
      end
  end.
Proof.
  intros Hi Hl. unfold build_pair_table. destruct (bpe_table_size_spec (Z.of_nat (length pairs))) as (k & Hk & -> & Hsize); [lia|].
  pose proof (stores_empty k Hk) as H0. apply (insert_pairs_spec k pairs) in H0; [|simpl; rewrite length_replicate; lia|done].
  assert (forall l, NoDup (slot_key <$> reverse l) <-> NoDup (slot_key <$> l)) as Hrev.
  { intros l. apply NoDup_Permutation_proper. apply Permutation_map, reverse_Permutation. }
  destruct (insert_pairs pairs _) as [t|e]; rewrite app_nil_r in H0.
  2:{ destruct H0 as [-> Hn]. split; [done|]. by rewrite Hrev, pair_slot_NoDup in Hn. }
  pose proof (stores_once _ _ _ H0) as Hn. rewrite Hrev, pair_slot_NoDup in Hn by done. split; [done|]. intros l r Hlr Hrr.
  pose proof (stores_find _ _ _ (pack_bpe_pair l r) H0 (interned_key l r Hlr Hrr)) as Hf. unfold find_bpe_pair. rewrite Forall_forall in Hi.
  destruct (find_probe _ t _ _) as [slot|].
  - destruct Hf as [Hin Ek]. rewrite elem_of_reverse in Hin. apply list_elem_of_fmap in Hin as ([[[a b] x] y] & -> & Hin). simpl in *.
    destruct (Hi _ Hin) as [Ha Hb]. apply pack_bpe_pair_inj in Ek as [-> ->]; [done|lia..].
  - rewrite list_elem_of_fmap. intros ([[[a b] x] y] & E & Hin). injection E as -> ->. apply (Hf (pair_slot (a, b, x, y))); [|done].
    rewrite elem_of_reverse. apply list_elem_of_fmap. by exists (a, b, x, y).
Qed.
