(* ===== verification/TokenMerge.v ===== *)
(** * Merging the symbols of a word

    The reference merges the leftmost pair of the lowest rank until there is none.  Both
    loops of [append_bpe_word], the scan over the linked nodes and the heap of candidates,
    compute it. *)

From stdpp Require Import prelude functions list list_numbers.
From Stdlib Require Import ZArith Lia.
From S2P Require Import Prelude TokenBpe.
#[local] Open Scope Z_scope.

Section Merge.
Context (table : BpePairTable).
Implicit Types (syms idx : list Z) (nodes : list Node) (slot : BpePairSlot).

(** ** The reference *)

(** The leftmost pair of the lowest rank, by its position. *)
Fixpoint best_pair syms : option (nat * BpePairSlot) :=
  match syms with
  | a :: (b :: _) as rest =>
      match find_bpe_pair table a b, best_pair rest with
      | Some slot, Some (pos, slot') => if slot_rank slot <=? slot_rank slot' then Some (0%nat, slot) else Some (S pos, slot')
      | Some slot, None => Some (0%nat, slot)
      | None, found => prod_map S id <$> found
      end
  | _ => None
  end.

Definition merge_at (pos : nat) (result : Z) syms : list Z := take pos syms ++ result :: drop (pos + 2) syms.

Fixpoint bpe (fuel : nat) syms : list Z :=
  match fuel with
  | O => syms
  | S fuel => match best_pair syms with Some (pos, slot) => bpe fuel (merge_at pos (slot_result slot) syms) | None => syms end
  end.

(** The merged word; a merge removes a symbol. *)
Definition bpe_merge syms : list Z := bpe (length syms) syms.

(** Whether the pair at a position merges. *)
Definition pair_at syms (pos : nat) : option BpePairSlot :=
  a ← syms !! pos; b ← syms !! S pos; find_bpe_pair table a b.

Lemma best_pair_cons a b syms : best_pair (a :: b :: syms) =
  match find_bpe_pair table a b, best_pair (b :: syms) with
  | Some slot, Some (pos, slot') => if slot_rank slot <=? slot_rank slot' then Some (0%nat, slot) else Some (S pos, slot')
  | Some slot, None => Some (0%nat, slot)
  | None, found => prod_map S id <$> found
  end.
Proof. done. Qed.

Lemma best_pair_spec syms :
  match best_pair syms with
  | Some (pos, slot) => pair_at syms pos = Some slot /\
      forall pos' slot', pair_at syms pos' = Some slot' -> slot_rank slot < slot_rank slot' \/ (slot_rank slot = slot_rank slot' /\ (pos <= pos')%nat)
  | None => forall pos, pair_at syms pos = None
  end.
Proof.
  induction syms as [|a syms IH]; [intros pos; by destruct pos|]. destruct syms as [|b syms].
  { intros [|pos]; [done|]. by destruct pos. }
  rewrite best_pair_cons.
  assert (forall pos, pair_at (a :: b :: syms) (S pos) = pair_at (b :: syms) pos) as Hs by done.
  assert (pair_at (a :: b :: syms) 0 = find_bpe_pair table a b) as H0 by done.
  destruct (find_bpe_pair table a b) as [slot|] eqn:Ef; destruct (best_pair (b :: syms)) as [[pos slot']|]; simpl.
  - destruct IH as [H1 H2]. destruct (Z.leb_spec (slot_rank slot) (slot_rank slot')) as [Hle|Hgt].
    + split; [done|]. intros [|pos'] slot'' E; [rewrite H0 in E; injection E as <-; right; lia|]. rewrite Hs in E. destruct (H2 _ _ E) as [?|[? ?]]; lia.
    + split; [done|]. intros [|pos'] slot'' E; [rewrite H0 in E; injection E as <-; left; lia|]. rewrite Hs in E. destruct (H2 _ _ E) as [?|[? ?]]; lia.
  - split; [done|]. intros [|pos'] slot'' E; [rewrite H0 in E; injection E as <-; right; lia|]. rewrite Hs, IH in E. done.
  - destruct IH as [H1 H2]. split; [done|]. intros [|pos'] slot'' E; [congruence|]. rewrite Hs in E. destruct (H2 _ _ E) as [?|[? ?]]; lia.
  - intros [|pos']; [done|]. by rewrite Hs.
Qed.

Lemma pair_at_bound syms pos slot : pair_at syms pos = Some slot -> (S pos < length syms)%nat.
Proof.
  unfold pair_at. destruct (syms !! pos) as [a|]; [|done]. simpl. destruct (syms !! S pos) as [b|] eqn:E; [|done]. intros _. by apply lookup_lt_Some in E.
Qed.

(** A pair that is before all others is the one that is merged. *)
Lemma best_pair_unique syms pos slot : pair_at syms pos = Some slot ->
  (forall pos' slot', pair_at syms pos' = Some slot' -> slot_rank slot < slot_rank slot' \/ (slot_rank slot = slot_rank slot' /\ (pos <= pos')%nat)) ->
  best_pair syms = Some (pos, slot).
Proof.
  intros Hp Hmin. pose proof (best_pair_spec syms) as H. destruct (best_pair syms) as [[pos' slot']|]; [|by rewrite H in Hp].
  destruct H as [Hp' Hmin']. assert (pos = pos') as ->; [|congruence].
  destruct (Hmin _ _ Hp') as [?|[? ?]], (Hmin' _ _ Hp) as [?|[? ?]]; lia.
Qed.

Lemma merge_at_length pos result syms : (S pos < length syms)%nat -> length (merge_at pos result syms) = (length syms - 1)%nat.
Proof. intros H. unfold merge_at. rewrite length_app, length_take, length_cons, length_drop. lia. Qed.

(** More fuel than symbols changes nothing. *)
Lemma bpe_enough fuel syms : (length syms <= fuel)%nat -> bpe fuel syms = bpe_merge syms.
Proof.
  unfold bpe_merge. remember (length syms) as n eqn:En. assert (length syms <= n)%nat as Hn by lia. clear En. revert fuel syms Hn.
  induction n as [|n IH]; intros fuel syms Hn Hf.
  - destruct syms; [|simpl in Hn; lia]. by destruct fuel.
  - destruct fuel as [|fuel]; [lia|]. simpl. pose proof (best_pair_spec syms) as H. destruct (best_pair syms) as [[pos slot]|]; [|done].
    destruct H as [Hp _]. apply pair_at_bound in Hp. rewrite (IH fuel); [done|rewrite merge_at_length by done; lia|lia].
Qed.

Lemma bpe_merge_step syms : bpe_merge syms = match best_pair syms with Some (pos, slot) => bpe_merge (merge_at pos (slot_result slot) syms) | None => syms end.
Proof.
  unfold bpe_merge at 1. destruct syms as [|a syms]; [done|]. simpl length. cbn [bpe].
  pose proof (best_pair_spec (a :: syms)) as H. destruct (best_pair (a :: syms)) as [[pos slot]|]; [|done].
  destruct H as [Hp _]. apply pair_at_bound in Hp. apply bpe_enough. rewrite merge_at_length by done. simpl. lia.
Qed.

(** ** Linked nodes *)
Definition first idx : Z := match idx with i :: _ => i | [] => -1 end.

(** The indexes of the nodes from the first on, behind the node [pv]. *)
Fixpoint linked nodes (pv : Z) idx : Prop :=
  match idx with
  | [] => True
  | i :: idx => 0 <= i < Z.of_nat (length nodes) /\ prev (get_node nodes i) = pv /\ next (get_node nodes i) = first idx /\
      (forall j, j ∈ idx -> i < j) /\ linked nodes i idx
  end.

Definition symbols nodes idx : list Z := (fun i => intern_id (get_node nodes i)) <$> idx.

Lemma get_set_same i v nodes : 0 <= i < Z.of_nat (length nodes) -> get_node (set_node i v nodes) i = v.
Proof. intros Hi. unfold get_node, set_node. rewrite list_lookup_insert_eq by lia. done. Qed.

Lemma get_set_other i j v nodes : 0 <= i -> 0 <= j -> i ≠ j -> get_node (set_node i v nodes) j = get_node nodes j.
Proof. intros Hi Hj Hne. unfold get_node, set_node. by rewrite list_lookup_insert_ne by lia. Qed.

Lemma linked_in nodes pv idx i : linked nodes pv idx -> i ∈ idx -> 0 <= i < Z.of_nat (length nodes).
Proof. revert pv. induction idx as [|x idx IH]; intros pv H; [by intros ?%elem_of_nil|]. destruct H as (H1 & _ & _ & _ & H2). intros [->|Hi]%elem_of_cons; [done|by eapply IH]. Qed.

Lemma linked_app nodes pv A i B : linked nodes pv (A ++ i :: B) -> exists pv', linked nodes pv' (i :: B) /\ (A = [] -> pv' = pv) /\ (forall A' x, A = A' ++ [x] -> pv' = x).
Proof.
  revert pv. induction A as [|a A IH]; intros pv H; [exists pv; split_and!; [done|done|by intros [] ? ?]|].
  destruct H as (_ & _ & _ & _ & H). destruct (IH a H) as (pv' & H1 & H2 & H3). exists pv'. split_and!; [done|done|].
  intros A' x E. destruct A' as [|a' A']; [injection E as -> ->; by apply H2|]. injection E as -> ->. by apply (H3 A').
Qed.

Lemma linked_sorted nodes pv A i B : linked nodes pv (A ++ i :: B) -> (forall a, a ∈ A -> a < i) /\ (forall b, b ∈ B -> i < b).
Proof.
  revert pv. induction A as [|a A IH]; intros pv H; [by destruct H as (_ & _ & _ & H & _); split; [intros ? ?%elem_of_nil|]|].
  destruct H as (_ & _ & _ & Ha & H). destruct (IH a H) as [H1 H2]. split; [|done]. intros x [->|Hx]%elem_of_cons; [|by apply H1].
  apply Ha. apply elem_of_app. right. left.
Qed.

(** Taking a node out of the list. *)
Lemma linked_splice nodes nodes' pv A i j B : linked nodes pv (A ++ i :: j :: B) -> length nodes' = length nodes ->
  prev (get_node nodes' i) = prev (get_node nodes i) -> next (get_node nodes' i) = first B ->
  (forall x, x ∈ A ++ B -> next (get_node nodes' x) = next (get_node nodes x)) ->
  (forall x, x ∈ A -> prev (get_node nodes' x) = prev (get_node nodes x)) ->
  (forall b B', B = b :: B' -> prev (get_node nodes' b) = i /\ forall x, x ∈ B' -> prev (get_node nodes' x) = prev (get_node nodes x)) ->
  linked nodes' pv (A ++ i :: B).
Proof.
  intros H Hl Hpi Hni Hnext Hprev HB. revert pv H Hprev. induction A as [|a A IH]; intros pv H Hprev; simpl.
  - destruct H as (H1 & H2 & H3 & H4 & H5). rewrite Hl, Hpi, H2, Hni. split_and!; [lia|lia|done|done|intros x Hx; apply H4; by right|].
    destruct H5 as (J1 & J2 & J3 & J4 & J5). destruct B as [|b B]; [done|]. destruct (HB b B eq_refl) as [Hb HB'].
    destruct J5 as (K1 & K2 & K3 & K4 & K5). simpl. rewrite Hl, Hb, (Hnext b) by left. split_and!; [lia|lia|done|done|done|].
    assert (forall x, x ∈ B -> next (get_node nodes' x) = next (get_node nodes x)) as HnB by (intros x Hx; apply Hnext; by right).
    clear -K5 HB' HnB Hl. revert b K5. induction B as [|x B IH]; intros b K; [done|]. destruct K as (L1 & L2 & L3 & L4 & L5).
    simpl. rewrite Hl, (HB' x), (HnB x) by left. split_and!; [lia|lia|done|done|done|]. apply IH; [intros y Hy; apply HB'; by right|intros y Hy; apply HnB; by right|done].
  - destruct H as (H1 & H2 & H3 & H4 & H5). rewrite Hl, (Hprev a), (Hnext a) by left. split_and!; [lia|lia|done| | |].
    + rewrite H3. by destruct A.
    + intros x Hx. apply H4. apply elem_of_app in Hx as [?|[->|?]%elem_of_cons]; apply elem_of_app; [by left|right; left|right; right; by right].
    + apply IH; [intros x Hx; apply Hnext; by right|done|intros x Hx; apply Hprev; by right].
Qed.

(** ** The scan *)
Lemma scan_best_spec nodes : forall idx fuel pv best_rank best, linked nodes pv idx -> (length idx <= fuel)%nat ->
  scan_best fuel table nodes (first idx) best_rank best =
    match best_pair (symbols nodes idx) with
    | Some (pos, slot) => if slot_rank slot <? best_rank then (fun i => (i, slot)) <$> idx !! pos else best
    | None => best
    end.
Proof.
  induction idx as [|i idx IH]; intros fuel pv best_rank best Hl Hf; [by destruct fuel|].
  destruct fuel as [|fuel]; [simpl in Hf; lia|]. destruct Hl as (Hi & _ & Hn & _ & Hl). cbn [scan_best first]. destruct (Z.ltb_spec i 0); [lia|].
  rewrite Hn. destruct idx as [|j idx]; [done|]. change (first (j :: idx)) with j in *. pose proof Hl as (Hj & _). destruct (Z.ltb_spec j 0); [lia|].
  change (symbols nodes (i :: j :: idx)) with (intern_id (get_node nodes i) :: intern_id (get_node nodes j) :: symbols nodes idx). rewrite best_pair_cons.
  change (intern_id (get_node nodes j) :: symbols nodes idx) with (symbols nodes (j :: idx)).
  simpl in Hf. pose proof (fun r b => IH fuel i r b Hl ltac:(simpl; lia)) as IH'. change (first (j :: idx)) with j in IH'.
  destruct (find_bpe_pair table _ _) as [slot0|]; [|rewrite IH'; by destruct (best_pair _) as [[pos' slot']|]].
  destruct (Z.ltb_spec (slot_rank slot0) best_rank) as [Hlt|Hge]; rewrite IH'; destruct (best_pair (symbols nodes (j :: idx))) as [[pos' slot']|];
    repeat (simpl; match goal with |- context[(?a <? ?b)] => destruct (Z.ltb_spec a b) | |- context[(?a <=? ?b)] => destruct (Z.leb_spec a b) end); done || lia.
Qed.

Definition ranks_small : Prop := forall l r slot, find_bpe_pair table l r = Some slot -> slot_rank slot < i32_max_rank.

Lemma pair_at_find syms pos slot : pair_at syms pos = Some slot -> exists a b, syms !! pos = Some a /\ syms !! S pos = Some b /\ find_bpe_pair table a b = Some slot.
Proof. unfold pair_at. destruct (syms !! pos) as [a|]; [|done]. simpl. destruct (syms !! S pos) as [b|]; [|done]. simpl. eauto. Qed.

(** The two nodes of a pair. *)
Lemma pair_nodes nodes idx pos slot : pair_at (symbols nodes idx) pos = Some slot -> exists A i j B, idx = A ++ i :: j :: B /\ length A = pos /\
  find_bpe_pair table (intern_id (get_node nodes i)) (intern_id (get_node nodes j)) = Some slot.
Proof.
  intros (a & b & Ha & Hb & Hf)%pair_at_find. unfold symbols in *. rewrite list_lookup_fmap in Ha, Hb.
  destruct (idx !! pos) as [i|] eqn:Ei; [|done]. destruct (idx !! S pos) as [j|] eqn:Ej; [|done]. injection Ha as <-. injection Hb as <-.
  exists (take pos idx), i, j, (drop (S (S pos)) idx). split_and!; [|rewrite length_take; apply lookup_lt_Some in Ei; lia|done].
  rewrite <-(drop_S _ _ _ Ej), <-(drop_S _ _ _ Ei). by rewrite take_drop.
Qed.

(** The symbols after a merge at [i]. *)
Lemma symbols_splice nodes nodes' A i j B result : intern_id (get_node nodes' i) = result ->
  (forall x, x ∈ A ++ B -> intern_id (get_node nodes' x) = intern_id (get_node nodes x)) ->
  symbols nodes' (A ++ i :: B) = merge_at (length A) result (symbols nodes (A ++ i :: j :: B)).
Proof.
  intros Hi Hs. unfold merge_at, symbols. rewrite !fmap_app, !fmap_cons, Hi. rewrite take_app_length' by (by rewrite length_fmap).
  rewrite drop_app_ge by (rewrite length_fmap; lia). rewrite length_fmap. replace (length A + 2 - length A)%nat with 2%nat by lia. simpl. rewrite drop_0.
  f_equal; [|f_equal]; apply list_fmap_ext; intros k x Hx; apply Hs, elem_of_app; [left|right]; by eapply list_elem_of_lookup_2.
Qed.

Lemma relink_length i nodes : length (relink i nodes) = length nodes.
Proof. unfold relink. destruct (_ <? 0); [done|]. unfold set_node. by rewrite length_insert. Qed.

(** [relink] changes the [prev] of the next node only. *)
Lemma relink_spec i nodes B : 0 <= i < Z.of_nat (length nodes) -> next (get_node nodes i) = first B -> (forall b, b ∈ B -> i < b < Z.of_nat (length nodes)) ->
  (forall x, 0 <= x -> let a := get_node (relink i nodes) x in let b := get_node nodes x in
     intern_id a = intern_id b /\ next a = next b /\ generation a = generation b /\ (x ≠ first B -> prev a = prev b)) /\
  (forall b B', B = b :: B' -> prev (get_node (relink i nodes) b) = i).
Proof.
  intros Hi Hn HB. unfold relink. rewrite Hn. destruct B as [|b B]; [split; done|]. simpl. specialize (HB b ltac:(left)). destruct (Z.ltb_spec b 0); [lia|]. split.
  - intros x Hx. destruct (decide (x = b)) as [->|Hne]; [by rewrite get_set_same by lia|]. by rewrite get_set_other by lia.
  - intros b' B' [= <- <-]. by rewrite get_set_same by lia.
Qed.

(** ** One merge *)

(** [nodes1]: node [i] has taken over what follows [j]; other nodes are as they were. *)
Record absorbed (i j result : Z) nodes nodes1 : Prop := {
  absorbed_length : length nodes1 = length nodes;
  absorbed_symbol : intern_id (get_node nodes1 i) = result;
  absorbed_prev : prev (get_node nodes1 i) = prev (get_node nodes i);
  absorbed_next : next (get_node nodes1 i) = next (get_node nodes j);
  absorbed_other : forall x, 0 <= x -> x ≠ i -> x ≠ j -> get_node nodes1 x = get_node nodes x;
}.

Lemma linked_bounds nodes pv A i j B : linked nodes pv (A ++ i :: j :: B) ->
  0 <= i < Z.of_nat (length nodes) /\ 0 <= j < Z.of_nat (length nodes) /\ i < j /\ next (get_node nodes i) = j /\ next (get_node nodes j) = first B /\
  (forall b, b ∈ B -> j < b < Z.of_nat (length nodes)) /\ (forall a, a ∈ A -> 0 <= a < i).
Proof.
  intros H. pose proof (linked_sorted _ _ _ _ _ H) as [HA _]. assert (forall a, a ∈ A -> 0 <= a < i) as HA'.
  { intros a Ha. assert (0 <= a < Z.of_nat (length nodes)) by (eapply linked_in; [exact H|]; apply elem_of_app; by left). specialize (HA a Ha). lia. }
  apply linked_app in H as (pv' & (H1 & _ & H3 & H4 & H5) & _). pose proof H5 as (J1 & _ & J3 & J4 & J5).
  split; [exact H1|]. split; [exact J1|]. split; [apply H4; left|]. split; [exact H3|]. split; [exact J3|]. split; [|exact HA'].
  intros b Hb. specialize (J4 b Hb). pose proof (linked_in _ _ _ _ J5 Hb). lia.
Qed.

Lemma absorbed_spliced i j result nodes nodes1 pv A B : linked nodes pv (A ++ i :: j :: B) -> absorbed i j result nodes nodes1 ->
  linked (relink i nodes1) pv (A ++ i :: B) /\ symbols (relink i nodes1) (A ++ i :: B) = merge_at (length A) result (symbols nodes (A ++ i :: j :: B)) /\
  length (relink i nodes1) = length nodes /\ prev (get_node (relink i nodes1) i) = prev (get_node nodes i) /\
  (forall x, 0 <= x -> next (get_node (relink i nodes1) x) = next (get_node nodes1 x) /\ generation (get_node (relink i nodes1) x) = generation (get_node nodes1 x) /\
     intern_id (get_node (relink i nodes1) x) = intern_id (get_node nodes1 x)).
Proof.
  intros H [L1 L2 L3 L4 L5]. destruct (linked_bounds _ _ _ _ _ _ H) as (Hi & Hj & Hij & Hni & Hnj & HB & HA).
  destruct (relink_spec i nodes1 B) as [R1 R2]; [by rewrite L1|congruence|rewrite L1; intros b Hb; specialize (HB b Hb); lia|].
  assert (forall x, x ∈ A ++ B -> 0 <= x /\ x ≠ i /\ x ≠ j) as Hother.
  { intros x [Hx|Hx]%elem_of_app; [specialize (HA x Hx)|specialize (HB x Hx)]; lia. }
  assert (first B ≠ i /\ forall a, a ∈ A -> a ≠ first B) as [HBi HBA].
  { destruct B as [|b B]; simpl; [split; [lia|intros a Ha; specialize (HA a Ha); lia]|]. specialize (HB b ltac:(left)). split; [lia|intros a Ha; specialize (HA a Ha); lia]. }
  split_and!.
  - apply (linked_splice nodes _ _ _ i j); [done|by rewrite relink_length| | | | |].
    + destruct (R1 i) as (_ & _ & _ & Hp); [lia|]. rewrite Hp by done. exact L3.
    + destruct (R1 i) as (_ & -> & _); [lia|]. congruence.
    + intros x Hx. destruct (Hother x Hx) as (? & ? & ?). destruct (R1 x) as (_ & -> & _); [lia|]. by rewrite L5.
    + intros x Hx. destruct (Hother x) as (? & ? & ?); [apply elem_of_app; by left|]. destruct (R1 x) as (_ & _ & _ & Hp); [lia|]. rewrite Hp by (by apply HBA). by rewrite L5.
    + intros b B' ->. split; [by apply (R2 b B')|]. intros x Hx. destruct (Hother x) as (? & ? & ?); [apply elem_of_app; right; by right|].
      destruct (R1 x) as (_ & _ & _ & Hp); [lia|]. rewrite Hp; [by rewrite L5|]. simpl. intros ->. change (A ++ i :: j :: b :: B') with (A ++ [i; j] ++ b :: B') in H. rewrite app_assoc in H. apply linked_sorted in H as [_ H]. specialize (H _ Hx). lia.
  - apply symbols_splice; [by destruct (R1 i) as (-> & _); [lia|]|]. intros x Hx. destruct (Hother x Hx) as (? & ? & ?). destruct (R1 x) as (-> & _); [lia|]. by rewrite L5.
  - by rewrite relink_length.
  - destruct (R1 i) as (_ & _ & _ & Hp); [lia|]. by rewrite Hp.
  - intros x Hx. destruct (R1 x Hx) as (? & ? & ? & _). done.
Qed.

(** The nodes that hold a merged word. *)
Definition word_done nodes (word : list Z) nodes' : Prop :=
  exists idx, linked nodes' (-1) idx /\ first idx = 0 /\ symbols nodes' idx = word /\ length nodes' = length nodes /\ (length idx <= length nodes)%nat.

Lemma first_app A i B : first (A ++ i :: B) = first (A ++ [i]).
Proof. by destruct A. Qed.

(** The short words: the scan computes the reference. *)
Lemma merge_scan_spec fuel nodes idx : ranks_small -> linked nodes (-1) idx -> first idx = 0 -> (length idx <= fuel)%nat -> (length idx <= length nodes)%nat ->
  word_done nodes (bpe_merge (symbols nodes idx)) (merge_scan fuel table nodes).
Proof.
  intros Hr. revert nodes idx. induction fuel as [|fuel IH]; intros nodes idx Hl Hf Hlen Hn; [destruct idx; simpl in *; lia|].
  cbn [merge_scan]. rewrite <-Hf at 1. rewrite (scan_best_spec nodes idx (length nodes) (-1)) by done. rewrite bpe_merge_step.
  pose proof (best_pair_spec (symbols nodes idx)) as Hb. destruct (best_pair (symbols nodes idx)) as [[pos slot]|]; [|by exists idx].
  destruct Hb as [Hp _]. apply pair_nodes in Hp as (A & i & j & B & -> & <- & Hfind). specialize (Hr _ _ _ Hfind). destruct (Z.ltb_spec (slot_rank slot) i32_max_rank); [|lia].
  rewrite lookup_app_r, Nat.sub_diag by done. simpl.
  destruct (linked_bounds _ _ _ _ _ _ Hl) as (Hi & Hj & Hij & Hni & _). rewrite Hni.
  assert (absorbed i j (slot_result slot) nodes (set_node i (MkNode (slot_result slot) (prev (get_node nodes i)) (next (get_node nodes j)) (generation (get_node nodes i))) nodes)) as Ha.
  { split; [unfold set_node; by rewrite length_insert|by rewrite get_set_same|by rewrite get_set_same|by rewrite get_set_same|]. intros x Hx Hxi _. by rewrite get_set_other by lia. }
  destruct (absorbed_spliced _ _ _ _ _ _ _ _ Hl Ha) as (S1 & S2 & S3 & _). rewrite <-S2.
  rewrite !length_app in Hlen, Hn. simpl in Hlen, Hn.
  destruct (IH _ (A ++ i :: B) S1) as (idx' & I1 & I2 & I3 & I4 & I5); [by rewrite first_app in Hf |- *|rewrite length_app; simpl; lia|rewrite length_app, S3; simpl; lia|].
  exists idx'. split_and!; [done|done|done|congruence|congruence].
Qed.

(** ** The heap *)
Lemma linked_next nodes pv idx i : linked nodes pv idx -> i ∈ idx -> 0 <= next (get_node nodes i) -> exists A B, idx = A ++ i :: next (get_node nodes i) :: B.
Proof.
  revert pv. induction idx as [|x idx IH]; intros pv Hl; [by intros ?%elem_of_nil|]. destruct Hl as (_ & _ & Hn & _ & Hl).
  intros [->|Hi]%elem_of_cons Hge; [|destruct (IH x Hl Hi Hge) as (A & B & ->); by exists (x :: A), B].
  destruct idx as [|y idx]; simpl in Hn; [lia|]. exists [], idx. by rewrite Hn.
Qed.

Definition candidate_of (nodes : list Node) (i j : Z) slot : Candidate :=
  MkCandidate (slot_rank slot) i j (slot_result slot) (generation (get_node nodes i)) (generation (get_node nodes j)).

Definition find_nodes nodes (i j : Z) : option BpePairSlot := find_bpe_pair table (intern_id (get_node nodes i)) (intern_id (get_node nodes j)).

Lemma candidate_some nodes i c : candidate table nodes i = Some c <->
  0 <= i /\ 0 <= next (get_node nodes i) /\ exists slot, find_nodes nodes i (next (get_node nodes i)) = Some slot /\ c = candidate_of nodes i (next (get_node nodes i)) slot.
Proof.
  unfold candidate, find_nodes. destruct (Z.ltb_spec i 0); [split; [done|lia]|]. destruct (Z.ltb_spec (next (get_node nodes i)) 0); [split; [done|lia]|].
  destruct (find_bpe_pair table _ _) as [slot|]; simpl; split; [intros [= <-]; eauto|by intros (_ & _ & x & [= <-] & ->)|done|by intros (_ & _ & x & ? & _)].
Qed.

(** The candidates: every pair of the word has one, and one that is not stale is a pair of
    the word. *)
Record heap_inv nodes idx (C : list Candidate) : Prop := {
  heap_linked : linked nodes (-1) idx;
  heap_first : first idx = 0;
  heap_complete : forall A i j B slot, idx = A ++ i :: j :: B -> find_nodes nodes i j = Some slot -> candidate_of nodes i j slot ∈ C;
  heap_past : forall c, c ∈ C -> 0 <= c_left c /\ 0 <= c_right c /\ left_generation c <= generation (get_node nodes (c_left c)) /\
    right_generation c <= generation (get_node nodes (c_right c));
  heap_sound : forall c, c ∈ C -> stale nodes c = false -> c_left c ∈ idx /\ exists slot, find_nodes nodes (c_left c) (c_right c) = Some slot /\
    c_rank c = slot_rank slot /\ c_result c = slot_result slot;
}.

Lemma stale_false nodes c : stale nodes c = false <-> next (get_node nodes (c_left c)) = c_right c /\
  generation (get_node nodes (c_left c)) = left_generation c /\ generation (get_node nodes (c_right c)) = right_generation c.
Proof. unfold stale. rewrite !orb_false_iff, !negb_false_iff, !Z.eqb_eq. tauto. Qed.

(** A candidate that is not stale and that no other precedes is the pair the reference
    merges. *)
Lemma heap_best nodes idx C c : heap_inv nodes idx C -> c ∈ C -> stale nodes c = false -> (forall x, x ∈ C -> later c x = false) ->
  exists A B slot, idx = A ++ c_left c :: c_right c :: B /\ best_pair (symbols nodes idx) = Some (length A, slot) /\ c_result c = slot_result slot.
Proof.
  intros Hi Hc Hs Hmin. destruct (heap_sound _ _ _ Hi c Hc Hs) as (Hin & slot & Hf & Hr & Hres). destruct (heap_past _ _ _ Hi c Hc) as (_ & Hcr & _).
  apply stale_false in Hs as (Hn & _). pose proof (heap_linked _ _ _ Hi) as Hl. destruct (linked_next _ _ _ _ Hl Hin) as (A & B & E); [lia|]. rewrite Hn in E.
  exists A, B, slot. split_and!; [done| |done]. apply best_pair_unique.
  - unfold pair_at, symbols. rewrite E, fmap_app, !lookup_app_r by (rewrite length_fmap; lia). rewrite length_fmap.
    replace (length A - length A)%nat with 0%nat by lia. replace (S (length A) - length A)%nat with 1%nat by lia. simpl. exact Hf.
  - intros pos' slot' (A' & i' & j' & B' & E' & <- & Hf')%pair_nodes. pose proof (Hmin _ (heap_complete _ _ _ Hi A' i' j' B' slot' E' Hf')) as Hlater.
    unfold later in Hlater. simpl in Hlater. apply orb_false_iff in Hlater as [H1%Z.ltb_ge H2]. destruct (Z.eq_dec (c_rank c) (slot_rank slot')) as [Eq|Ne]; [|lia].
    right. split; [congruence|]. rewrite Eq, Z.eqb_refl in H2. simpl in H2. apply Z.ltb_ge in H2.
    destruct (decide (length A <= length A')%nat) as [|Hgt]; [done|exfalso]. rewrite E in Hl. destruct (linked_bounds _ _ _ _ _ _ Hl) as (_ & _ & _ & _ & _ & _ & HA).
    assert (i' ∈ A) as Hi'; [|specialize (HA i' Hi'); lia]. apply (list_elem_of_lookup_2 _ (length A')).
    rewrite <-(lookup_app_l A (c_left c :: c_right c :: B)) by lia. rewrite <-E, E'. by rewrite lookup_app_r, Nat.sub_diag.
Qed.

(** What a merge does to the nodes. *)
Lemma merged_nodes nodes pv c A B : linked nodes pv (A ++ c_left c :: c_right c :: B) ->
  let i := c_left c in let j := c_right c in let nodes' := merged c nodes in
  linked nodes' pv (A ++ i :: B) /\ symbols nodes' (A ++ i :: B) = merge_at (length A) (c_result c) (symbols nodes (A ++ i :: j :: B)) /\
  length nodes' = length nodes /\
  generation (get_node nodes' i) = generation (get_node nodes i) + 1 /\ generation (get_node nodes' j) = generation (get_node nodes j) + 1 /\
  (forall x, 0 <= x -> x ≠ i -> x ≠ j -> intern_id (get_node nodes' x) = intern_id (get_node nodes x) /\ next (get_node nodes' x) = next (get_node nodes x) /\
     generation (get_node nodes' x) = generation (get_node nodes x)).
Proof.
  intros Hl i j. destruct (linked_bounds _ _ _ _ _ _ Hl) as (Hi & Hj & Hij & _). fold i j in Hi, Hj, Hij, Hl. unfold merged. fold i j.
  set (nodes1 := set_node j _ _). assert (absorbed i j (c_result c) nodes nodes1) as Ha.
  { unfold nodes1. split; [unfold set_node; by rewrite !length_insert|..]; try (rewrite get_set_other, get_set_same by lia; done).
    intros x Hx Hxi Hxj. by rewrite !get_set_other by lia. }
  destruct (absorbed_spliced _ _ _ _ _ _ _ _ Hl Ha) as (S1 & S2 & S3 & _ & S5). split_and!; [done|done|done| | |].
  - destruct (S5 i) as (_ & -> & _); [lia|]. unfold nodes1. by rewrite get_set_other, get_set_same by lia.
  - destruct (S5 j) as (_ & -> & _); [lia|]. unfold nodes1. by rewrite get_set_same by (unfold set_node; rewrite length_insert; lia).
  - intros x Hx Hxi Hxj. destruct (S5 x Hx) as (-> & -> & ->). by rewrite (absorbed_other _ _ _ _ _ Ha).
Qed.

Lemma linked_prev nodes pv A i B : linked nodes pv (A ++ i :: B) -> prev (get_node nodes i) = match last A with Some a => a | None => pv end.
Proof.
  intros H. apply linked_app in H as (pv' & (_ & -> & _) & H1 & H2). destruct A as [|a A] using rev_ind; [by apply H1|]. rewrite last_snoc. by apply (H2 A).
Qed.

Lemma option_list_elem {X} (o : option X) (x : X) : x ∈ option_list o -> o = Some x.
Proof. destruct o as [y|]; simpl; [by intros ->%list_elem_of_singleton|by intros ?%elem_of_nil]. Qed.

(** The candidates that a merge adds. *)
Definition added_candidates nodes' (i : Z) : list Candidate :=
  option_list (candidate table nodes' (prev (get_node nodes' i))) ++ option_list (candidate table nodes' i).

Lemma heap_step nodes A B c C : heap_inv nodes (A ++ c_left c :: c_right c :: B) (c :: C) ->
  heap_inv (merged c nodes) (A ++ c_left c :: B) (added_candidates (merged c nodes) (c_left c) ++ C).
Proof.
  intros Hv. pose proof (heap_linked _ _ _ Hv) as Hl. destruct (linked_bounds _ _ _ _ _ _ Hl) as (Hi & Hj & Hij & Hni & Hnj & HB & HA).
  destruct (merged_nodes nodes (-1) c A B Hl) as (Hl' & _ & Hlen & Hgi & Hgj & Hoth). set (i := c_left c) in *. set (j := c_right c) in *. set (nodes' := merged c nodes) in *.
  assert (forall x, x ∈ A ++ i :: B -> 0 <= x /\ x ≠ j /\ x ∈ A ++ i :: j :: B) as Hin.
  { intros x [Hx|[->|Hx]%elem_of_cons]%elem_of_app; [specialize (HA x Hx)| |specialize (HB x Hx)]; rewrite !elem_of_app, !elem_of_cons; (split_and!; [lia|lia|tauto]). }
  assert (forall x cand, candidate table nodes' x = Some cand -> x = i \/ x = prev (get_node nodes' i) -> cand ∈ added_candidates nodes' i) as Hadd.
  { intros x cand E [->| ->]; unfold added_candidates; rewrite elem_of_app, E; [right|left]; left. }
  split.
  - done.
  - pose proof (heap_first _ _ _ Hv) as Hf. by rewrite first_app in Hf |- *.
  - intros A' x y B' slot E Hf. rewrite E in Hl'. destruct (linked_bounds _ _ _ _ _ _ Hl') as (Hx & Hy & Hxy & Hnx & _). rewrite E in Hin.
    destruct (Hin x) as (_ & Hxj & Hxin); [apply elem_of_app; right; left|]. destruct (Hin y) as (_ & Hyj & Hyin); [apply elem_of_app; right; right; left|].
    apply elem_of_app. destruct (decide (x = i)) as [->|Hxi]; [left|destruct (decide (y = i)) as [->|Hyi]; [left|right]].
    + apply (Hadd i); [|by left]. apply candidate_some. rewrite Hnx. split_and!; [lia|lia|eauto].
    + apply (Hadd x); [apply candidate_some; rewrite Hnx; split_and!; [lia|lia|eauto]|right]. rewrite (cons_middle x), app_assoc in Hl'. symmetry.
      rewrite (linked_prev _ _ _ _ _ Hl'). by rewrite last_snoc.
    + destruct (Hoth x) as (X1 & X2 & X3); [lia|done|done|]. destruct (Hoth y) as (Y1 & Y2 & Y3); [lia|done|done|].
      destruct (linked_next nodes (-1) _ x Hl Hxin) as (A2 & B2 & E2); [rewrite <-X2, Hnx; lia|]. rewrite <-X2, Hnx in E2.
      unfold find_nodes in Hf. rewrite X1, Y1 in Hf. pose proof (heap_complete _ _ _ Hv A2 x y B2 slot E2 Hf) as Hc.
      unfold candidate_of. rewrite X3, Y3. apply elem_of_cons in Hc as [Hc|Hc]; [|exact Hc]. exfalso. apply Hxi. by apply (f_equal c_left) in Hc.
  - intros cand [Hc|Hc]%elem_of_app.
    + assert (exists x, candidate table nodes' x = Some cand) as [x (Hx & Hnx & slot & _ & ->)%candidate_some].
      { unfold added_candidates in Hc. apply elem_of_app in Hc as [Hc|Hc]; apply option_list_elem in Hc; eauto. }
      simpl. split_and!; [done|done|lia|lia].
    + destruct (heap_past _ _ _ Hv cand) as (P1 & P2 & P3 & P4); [by right|].
      assert (forall x, 0 <= x -> generation (get_node nodes x) <= generation (get_node nodes' x)) as Hmono.
      { intros x Hx. destruct (decide (x = i)) as [->|]; [lia|]. destruct (decide (x = j)) as [->|]; [lia|]. destruct (Hoth x) as (_ & _ & ->); [done..|lia]. }
      pose proof (Hmono _ P1). pose proof (Hmono _ P2). split_and!; [done|done|lia|lia].
  - intros cand [Hc|Hc]%elem_of_app Hst.
    + assert (exists x, candidate table nodes' x = Some cand /\ (x = i \/ x = prev (get_node nodes' i))) as (x & (Hx & Hnx & slot & Hf & ->)%candidate_some & Hor).
      { unfold added_candidates in Hc. apply elem_of_app in Hc as [Hc|Hc]; apply option_list_elem in Hc; eauto. }
      simpl. split; [|by exists slot]. destruct Hor as [->| ->]; [apply elem_of_app; right; left|]. rewrite (linked_prev _ _ _ _ _ Hl') in Hx |- *.
      destruct (last A) as [a|] eqn:Ea; [|lia]. apply elem_of_app. left. by eapply last_Some_elem_of.
    + destruct (heap_past _ _ _ Hv cand) as (P1 & P2 & P3 & P4); [by right|]. apply stale_false in Hst as (Q1 & Q2 & Q3).
      assert (c_left cand ≠ i /\ c_left cand ≠ j /\ c_right cand ≠ i /\ c_right cand ≠ j) as (N1 & N2 & N3 & N4).
      { split_and!; intros E; rewrite E in *; lia. }
      destruct (Hoth _ P1 N1 N2) as (X1 & X2 & X3). destruct (Hoth _ P2 N3 N4) as (Y1 & Y2 & Y3).
      destruct (heap_sound _ _ _ Hv cand) as (Hcin & slot & Hf & Hr); [by right|apply stale_false; split_and!; congruence|].
      split; [|exists slot; unfold find_nodes; by rewrite X1, Y1]. rewrite elem_of_app, elem_of_cons. rewrite elem_of_app, !elem_of_cons in Hcin. tauto.
Qed.

(** ** The loop over the heap *)
Section Heaps.
Context {H : Heap} {L : HeapLaws}.

Lemma append_candidate_contents nodes i h : contents (append_candidate table nodes i h) ≡ₚ option_list (candidate table nodes i) ++ contents h.
Proof. unfold append_candidate. destruct (candidate table nodes i); simpl; [apply contents_push|done]. Qed.

Lemma heap_inv_perm nodes idx C C' : C ≡ₚ C' -> heap_inv nodes idx C -> heap_inv nodes idx C'.
Proof.
  intros E [H1 H2 H3 H4 H5]. split; [done|done|intros; rewrite <-E; eauto|intros c Hc; rewrite <-E in Hc; eauto|intros c Hc; rewrite <-E in Hc; eauto].
Qed.

Lemma heap_inv_stale nodes idx c C : heap_inv nodes idx (c :: C) -> stale nodes c = true -> heap_inv nodes idx C.
Proof.
  intros [H1 H2 H3 H4 H5] Hs. split; [done|done| |intros x Hx; apply H4; by right|intros x Hx; apply H5; by right].
  intros A i j B slot E Hf. specialize (H3 A i j B slot E Hf). apply elem_of_cons in H3 as [<-|?]; [|done]. exfalso.
  assert (stale nodes (candidate_of nodes i j slot) = false); [|congruence]. apply stale_false. simpl. rewrite E in H1.
  by destruct (linked_bounds _ _ _ _ _ _ H1) as (_ & _ & _ & -> & _).
Qed.

(** The long words: the heap computes the reference. *)
Lemma merge_heap_spec fuel nodes idx h : heap_inv nodes idx (contents h) -> (length (contents h) + 2 * length idx <= fuel)%nat -> (length idx <= length nodes)%nat ->
  word_done nodes (bpe_merge (symbols nodes idx)) (merge_heap fuel table nodes h).
Proof.
  revert nodes idx h. induction fuel as [|fuel IH]; intros nodes idx h Hv Hf Hn.
  { pose proof (heap_first _ _ _ Hv). destruct idx; simpl in *; lia. }
  cbn [merge_heap]. pose proof (contents_pop h) as Hp. destruct (pop_heap h) as [[c h']|].
  - destruct Hp as [Hp Hmin]. pose proof (Permutation_length Hp) as Hlen. simpl in Hlen. pose proof (heap_inv_perm _ _ _ _ Hp Hv) as Hv'.
    destruct (stale nodes c) eqn:Hs; [apply IH; [by eapply heap_inv_stale|lia|done]|].
    destruct (heap_best nodes idx (contents h) c Hv) as (A & B & slot & -> & Hbest & Hres); [rewrite Hp; left|done|done|].
    rewrite bpe_merge_step, Hbest, <-Hres. destruct (merged_nodes nodes (-1) c A B (heap_linked _ _ _ Hv)) as (Hl' & Hsym & Hlen' & _). rewrite <-Hsym.
    rewrite !length_app in Hf, Hn. simpl in Hf, Hn. set (h2 := append_candidate _ _ (c_left c) _).
    assert (contents h2 ≡ₚ added_candidates (merged c nodes) (c_left c) ++ contents h') as E2.
    { unfold h2, added_candidates. rewrite append_candidate_contents, append_candidate_contents. rewrite !app_assoc. f_equiv. apply Permutation_app_comm. }
    destruct (IH (merged c nodes) (A ++ c_left c :: B) h2) as (idx' & I1 & I2 & I3 & I4 & I5).
    + eapply heap_inv_perm; [symmetry; exact E2|]. by apply heap_step.
    + rewrite E2, !length_app. simpl. unfold added_candidates. rewrite length_app.
      destruct (candidate table (merged c nodes) (prev _)), (candidate table (merged c nodes) (c_left c)); simpl; lia.
    + rewrite length_app, Hlen'. simpl. lia.
    + exists idx'. split_and!; [done|done|done|congruence|congruence].
  - exists idx. split_and!; [by apply heap_linked in Hv|by apply heap_first in Hv| |done|done]. rewrite bpe_merge_step.
    pose proof (best_pair_spec (symbols nodes idx)) as Hb. destruct (best_pair (symbols nodes idx)) as [[pos slot]|]; [|done]. exfalso.
    destruct Hb as [(A & i & j & B & E & _ & Hfind)%pair_nodes _]. pose proof (heap_complete _ _ _ Hv A i j B slot E Hfind) as Hc. rewrite Hp in Hc. by apply elem_of_nil in Hc.
Qed.

(** ** The whole word *)

(** The node [i] of a word of [n] bytes. *)
Definition fresh_node (f : Z -> Z) (word : list Z) (n k i : nat) : Node :=
  MkNode (f (word !!! i)) (Z.of_nat (k + i) - 1) (if (S i =? n)%nat then -1 else Z.of_nat (k + i) + 1) 0.

Lemma word_nodes_spec f word k : match word_nodes f word (Z.of_nat k) with
  | Ok nodes => nodes = fresh_node f word (length word) k <$> seq 0 (length word) /\ Forall (fun b => 0 <= f b) word
  | Throw e => e = invalid_argument /\ ~ Forall (fun b => 0 <= f b) word
  end.
Proof.
  revert k. induction word as [|b word IH]; intros k; cbn [word_nodes]; [by split|]. destruct (Z.ltb_spec (f b) 0) as [Hlt|Hge]; cbn [throw_if mbind res_bind].
  { split; [done|]. intros [? _]%Forall_cons. lia. }
  specialize (IH (S k)). replace (Z.of_nat k + 1) with (Z.of_nat (S k)) by lia. destruct (word_nodes f word (Z.of_nat (S k))) as [nodes|e]; cbn [mbind res_bind].
  2:{ destruct IH as [-> IH]. split; [done|]. by intros [_ ?]%Forall_cons. }
  destruct IH as [-> IH]. split; [|by constructor]. simpl length. rewrite <-cons_seq, fmap_cons. f_equal.
  - unfold fresh_node. rewrite Nat.add_0_r. simpl. f_equal. destruct word; [done|]. rewrite bool_decide_false by done. simpl. lia.
  - rewrite <-fmap_S_seq, <-list_fmap_compose. apply list_fmap_ext. intros _ i _. unfold fresh_node. simpl. by replace (k + S i)%nat with (S (k + i)) by lia.
Qed.

(** The indexes of a fresh word. *)
Definition fresh_index (n : nat) : list Z := Z.of_nat <$> seq 0 n.

Lemma fresh_get f word i : (i < length word)%nat ->
  get_node (fresh_node f word (length word) 0 <$> seq 0 (length word)) (Z.of_nat i) = fresh_node f word (length word) 0 i.
Proof.
  intros Hi. unfold get_node. rewrite Nat2Z.id, list_lookup_fmap, lookup_seq_lt by done. done.
Qed.

Lemma fresh_linked f word (i m : nat) : (i + m = length word)%nat ->
  linked (fresh_node f word (length word) 0 <$> seq 0 (length word)) (Z.of_nat i - 1) (Z.of_nat <$> seq i m).
Proof.
  revert i. induction m as [|m IH]; intros i Hi; [done|]. cbn [seq fmap list_fmap linked]. rewrite fresh_get by lia. rewrite length_fmap, length_seq.
  split_and!; [lia|lia|simpl; lia| | |].
  - unfold fresh_node. cbn [next]. destruct m as [|m]; [replace (S i) with (length word) by lia; by rewrite Nat.eqb_refl|].
    destruct (Nat.eqb_spec (S i) (length word)); [lia|]. simpl. lia.
  - intros j (x & -> & Hx)%list_elem_of_fmap. apply elem_of_seq in Hx. lia.
  - replace (Z.of_nat i) with (Z.of_nat (S i) - 1) by lia. apply IH. lia.
Qed.

Lemma fresh_symbols f word : symbols (fresh_node f word (length word) 0 <$> seq 0 (length word)) (fresh_index (length word)) = f <$> word.
Proof.
  apply list_eq. intros i. unfold symbols, fresh_index. rewrite <-list_fmap_compose, !list_lookup_fmap. destruct (decide (i < length word)%nat) as [Hi|Hi].
  - rewrite lookup_seq_lt by done. cbn [fmap option_fmap option_map]. unfold compose. rewrite fresh_get by done. destruct (lookup_lt_is_Some_2 word i Hi) as [b Eb].
    rewrite Eb. simpl. f_equal. unfold fresh_node. simpl. by rewrite (list_lookup_total_correct _ _ _ Eb).
  - rewrite (lookup_ge_None_2 word) by lia. rewrite (lookup_ge_None_2 (seq _ _)) by (rewrite length_seq; lia). done.
Qed.

Lemma linked_lookup nodes pv A i j B : linked nodes pv (A ++ i :: j :: B) -> candidate table nodes i =
  (fun slot => candidate_of nodes i j slot) <$> find_nodes nodes i j.
Proof.
  intros Hl. destruct (linked_bounds _ _ _ _ _ _ Hl) as (Hi & Hj & _ & Hn & _). unfold candidate. rewrite Hn.
  destruct (Z.ltb_spec i 0); [lia|]. destruct (Z.ltb_spec j 0); [lia|]. done.
Qed.

Lemma fresh_heap f word : word ≠ [] -> let nodes := fresh_node f word (length word) 0 <$> seq 0 (length word) in
  heap_inv nodes (fresh_index (length word)) (initial_candidates table nodes).
Proof.
  intros Hne nodes. pose proof (fresh_linked f word 0 (length word) eq_refl) as Hl. fold nodes (fresh_index (length word)) in Hl. change (Z.of_nat 0 - 1) with (-1) in Hl.
  assert (length nodes = length word) as Hlen by (unfold nodes; by rewrite length_fmap, length_seq).
  assert (forall c, c ∈ initial_candidates table nodes -> exists i, (S i < length word)%nat /\ candidate table nodes (Z.of_nat i) = Some c) as Hin.
  { intros c (i & Hi & E)%list_elem_of_omap. apply elem_of_seq in Hi. exists i. split; [lia|done]. }
  split; [done|by destruct word| | |].
  - intros A i j B slot E Hf. rewrite E in Hl. pose proof (linked_lookup _ _ _ _ _ _ Hl) as Hc. rewrite Hf in Hc. simpl in Hc.
    apply list_elem_of_omap. assert (length A + 2 + length B = length word)%nat as Hsum.
    { apply (f_equal length) in E. unfold fresh_index in E. rewrite length_fmap, length_seq, length_app in E. simpl in E. lia. }
    assert (i = Z.of_nat (length A)) as ->.
    { assert (fresh_index (length word) !! length A = Some i) as Ei by (rewrite E; by rewrite lookup_app_r, Nat.sub_diag).
      unfold fresh_index in Ei. rewrite list_lookup_fmap, lookup_seq_lt in Ei by lia. simpl in Ei. by injection Ei as <-. }
    exists (length A). split; [apply elem_of_seq; lia|exact Hc].
  - intros c (i & Hi & (H0 & H1 & slot & _ & ->)%candidate_some)%Hin. simpl. split_and!; [done|done|lia|lia].
  - intros c (i & Hi & (H0 & H1 & slot & Hf & ->)%candidate_some)%Hin _. simpl. split; [|by exists slot]. apply list_elem_of_fmap. exists i. split; [done|]. apply elem_of_seq. lia.
Qed.

Lemma initial_candidates_length nodes : (length (initial_candidates table nodes) <= length nodes)%nat.
Proof.
  unfold initial_candidates. assert (forall (f : nat -> option Candidate) l, length (omap f l) <= length l)%nat as H1.
  { intros f l. induction l as [|x l IH]; [done|]. simpl. destruct (f x); [exact (le_n_S _ _ IH)|exact (le_S _ _ IH)]. }
  etransitivity; [apply H1|]. rewrite length_seq. lia.
Qed.

Lemma merge_word_spec f word : ranks_small -> word ≠ [] -> let nodes := fresh_node f word (length word) 0 <$> seq 0 (length word) in
  word_done nodes (bpe_merge (f <$> word)) (merge_word table nodes).
Proof.
  intros Hr Hne nodes. assert (length nodes = length word) as Hlen by (unfold nodes; by rewrite length_fmap, length_seq).
  assert (length (fresh_index (length word)) = length word) as Hidx by (unfold fresh_index; by rewrite length_fmap, length_seq).
  pose proof (fresh_heap f word Hne) as Hv. fold nodes in Hv. rewrite <-(fresh_symbols f word). fold nodes. unfold merge_word. destruct (length nodes <=? 64)%nat.
  - apply merge_scan_spec; [done|by apply heap_linked in Hv|by apply heap_first in Hv|lia|lia].
  - apply merge_heap_spec; [eapply heap_inv_perm; [symmetry; apply contents_make|done]| |lia].
    rewrite contents_make. pose proof (initial_candidates_length nodes). lia.
Qed.

(** ** Emission *)
Definition emit_symbol (intern_emit_ids : list Z) (intern_emit_offsets : list nat) (id : Z) : res (list Z) :=
  throw_if ((id <? 0) || (Z.of_nat (length intern_emit_offsets) <=? id + 1)) invalid_argument ;;
  let emit_begin := default 0%nat (intern_emit_offsets !! Z.to_nat id) in
  let emit_end := default 0%nat (intern_emit_offsets !! S (Z.to_nat id)) in
  throw_if ((emit_end <=? emit_begin)%nat || (length intern_emit_ids <? emit_end)%nat) invalid_argument ;;
  Ok (take (emit_end - emit_begin) (drop emit_begin intern_emit_ids)).

Fixpoint emit_all (intern_emit_ids : list Z) (intern_emit_offsets : list nat) (ids : list Z) : res (list Z) :=
  match ids with
  | [] => Ok []
  | id :: ids =>
      x ← emit_symbol intern_emit_ids intern_emit_offsets id;
      y ← emit_all intern_emit_ids intern_emit_offsets ids;
      Ok (x ++ y)
  end.

Lemma emit_symbols_spec emit_ids offsets nodes : forall idx fuel pv, linked nodes pv idx -> (length idx <= fuel)%nat ->
  emit_symbols fuel emit_ids offsets nodes (first idx) = emit_all emit_ids offsets (symbols nodes idx).
Proof.
  induction idx as [|i idx IH]; intros fuel pv Hl Hf; [by destruct fuel|]. destruct fuel as [|fuel]; [simpl in Hf; lia|].
  destruct Hl as (Hi & _ & Hn & _ & Hl). cbn [emit_symbols first symbols fmap list_fmap emit_all]. destruct (Z.ltb_spec i 0); [lia|]. unfold emit_symbol.
  set (id := intern_id (get_node nodes i)). destruct ((id <? 0) || (Z.of_nat (length offsets) <=? id + 1)); [done|]. cbn [throw_if mbind res_bind].
  set (e1 := default 0%nat (offsets !! Z.to_nat id)). set (e2 := default 0%nat (offsets !! S (Z.to_nat id))).
  destruct ((e2 <=? e1)%nat || (length emit_ids <? e2)%nat); [done|]. cbn [throw_if mbind res_bind].
  rewrite Hn, (IH fuel i) by (done || (simpl in Hf; lia)). done.
Qed.

(** What a word becomes: its bytes as symbols, merged by the reference, each emitted. *)
Lemma bpe_word_merge f emit_ids offsets word : ranks_small ->
  append_bpe_word table f emit_ids offsets word =
    if decide (Forall (fun b => 0 <= f b) word) then emit_all emit_ids offsets (bpe_merge (f <$> word)) else Throw invalid_argument.
Proof.
  intros Hr. unfold append_bpe_word. case_bool_decide as Hw; [subst word; rewrite decide_True by constructor; done|].
  pose proof (word_nodes_spec f word 0) as Hn. change (Z.of_nat 0) with 0 in Hn. destruct (word_nodes f word 0) as [nodes|e]; cbn [mbind res_bind].
  - destruct Hn as [-> Hok]. rewrite decide_True by done. destruct (merge_word_spec f word Hr Hw) as (idx & I1 & I2 & I3 & I4 & I5).
    rewrite <-I3. rewrite <-I2 at 1. by eapply emit_symbols_spec.
  - destruct Hn as [-> Hbad]. by rewrite decide_False.
Qed.

End Heaps.

End Merge.

(** ** With the table of the pairs *)
Lemma insert_probe_ranks m probes : forall table index key rank result table', Forall (fun slot => slot_rank slot < m) (slots table) -> rank < m ->
  insert_probe probes table index key rank result = Ok table' -> Forall (fun slot => slot_rank slot < m) (slots table').
Proof.
  induction probes as [|probes IH]; intros table index key rank result table' Hs Hr; cbn [insert_probe]; [done|].
  destruct (slots table !! Z.to_nat index) as [slot|]; [|done]. destruct (slot_key slot =? kEmptyBpeKey); [intros [= <-]; by apply Forall_insert|].
  destruct (slot_key slot =? key); [done|]. by apply IH.
Qed.

Lemma find_probe_in probes : forall table index key slot, find_probe probes table index key = Some slot -> slot ∈ slots table.
Proof.
  induction probes as [|probes IH]; intros table index key slot; cbn [find_probe]; [done|]. destruct (slots table !! Z.to_nat index) as [x|] eqn:E; [|done]. cbn [mbind option_bind].
  destruct (slot_key x =? key); [intros [= <-]; by eapply list_elem_of_lookup_2|]. destruct (slot_key x =? kEmptyBpeKey); [done|]. apply IH.
Qed.

Lemma build_pair_table_ranks pairs table : Forall (fun x => x.2 < i32_max_rank) pairs -> build_pair_table pairs = Ok table -> ranks_small table.
Proof.
  intros Hp Hb. assert (Forall (fun slot => slot_rank slot < i32_max_rank) (slots table)) as Hs.
  { unfold build_pair_table in Hb. set (t0 := MkTable _ _) in Hb. assert (Forall (fun slot => slot_rank slot < i32_max_rank) (slots t0)) as H0 by (apply Forall_replicate; done).
    clearbody t0. revert t0 H0 Hb. induction Hp as [|[[[a b] x] y] pairs Hy Hp IH]; intros t0 H0; cbn [insert_pairs]; [by intros [= <-]|]. unfold insert_bpe_pair.
    destruct (insert_probe _ t0 _ _ y x) as [t1|] eqn:E1; [|done]. cbn [mbind res_bind]. apply IH. by eapply insert_probe_ranks. }
  intros l r slot Hf%find_probe_in. rewrite Forall_forall in Hs. by apply Hs.
Qed.

(** C17: the table built from the merge pairs finds exactly them, and over it a word is
    encoded as byte-pair encoding says: its bytes become symbols, the leftmost pair of the
    lowest rank is merged until no pair is left, and the symbols are emitted; the scan of
    short words and the heap with stale candidates of long ones both do that. *)
Theorem bpe_word_exact {H : Heap} {L : HeapLaws} pairs table f emit_ids offsets word :
  Forall interned pairs -> Forall (fun x => x.2 < i32_max_rank) pairs -> Z.of_nat (length pairs) < 2 ^ 62 -> build_pair_table pairs = Ok table ->
  (forall l r, 0 <= l < 2 ^ 31 -> 0 <= r < 2 ^ 31 ->
     match find_bpe_pair table l r with
     | Some slot => (l, r, slot_result slot, slot_rank slot) ∈ pairs
     | None => (l, r) ∉ pair_of <$> pairs
     end) /\
  append_bpe_word table f emit_ids offsets word =
    if decide (Forall (fun b => 0 <= f b) word) then emit_all emit_ids offsets (bpe_merge table (f <$> word)) else Throw invalid_argument.
Proof.
  intros Hi Hr Hl Hb. split; [pose proof (build_pair_table_exact pairs Hi Hl) as He; rewrite Hb in He; apply He|].
  by eapply bpe_word_merge, build_pair_table_ranks.
Qed.

(** ** A heap

    A list, of which a pop takes the first element that is not later than any. *)
Definition take_first (l : list Candidate) : option (Candidate * list Candidate) :=
  match list_find (fun c => forallb (fun x => negb (later c x)) l = true) l with
  | Some (k, c) => Some (c, take k l ++ drop (S k) l)
  | None => match l with [] => None | c :: l => Some (c, l) end
  end.

#[local] Instance list_heap : Heap := {| heap := list Candidate; make_heap l := l; push_heap := cons; pop_heap := take_first |}.

Lemma lowest_exists l : l ≠ [] -> exists c, c ∈ l /\ forall x, x ∈ l -> later c x = false.
Proof.
  induction l as [|c l IH]; [done|]. intros _. destruct (decide (l = [])) as [->|Hne].
  { exists c. split; [left|]. intros x ->%list_elem_of_singleton. unfold later. destruct (Z.ltb_spec (c_rank c) (c_rank c)), (Z.ltb_spec (c_left c) (c_left c)); lia || (simpl; by rewrite andb_false_r). }
  destruct (IH Hne) as (d & Hd & Hmin). destruct (later d c) eqn:E.
  - exists c. split; [left|]. intros x [->|Hx]%elem_of_cons.
    + unfold later. rewrite !Z.ltb_irrefl. by rewrite andb_false_r.
    + specialize (Hmin x Hx). revert E Hmin. unfold later.
      destruct (Z.ltb_spec (c_rank c) (c_rank d)), (Z.eqb_spec (c_rank d) (c_rank c)), (Z.ltb_spec (c_left c) (c_left d)), (Z.ltb_spec (c_rank x) (c_rank d)), (Z.eqb_spec (c_rank d) (c_rank x)),
        (Z.ltb_spec (c_left x) (c_left d)), (Z.ltb_spec (c_rank x) (c_rank c)), (Z.eqb_spec (c_rank c) (c_rank x)), (Z.ltb_spec (c_left x) (c_left c)); simpl; done || lia.
  - exists d. split; [by right|]. intros x [->|Hx]%elem_of_cons; [done|by apply Hmin].
Qed.

#[local] Instance list_heap_laws : HeapLaws.
Proof.
  refine {| contents := fun l : @heap list_heap => l |}; [done|done|]. intros h. simpl. unfold take_first. destruct (list_find _ h) as [[k c]|] eqn:E.
  - apply list_find_Some in E as (Hk & Hall & _). split.
    + rewrite <-(take_drop_middle h k c Hk) at 1. by rewrite Permutation_middle.
    + intros x Hx. rewrite forallb_forall in Hall. specialize (Hall x ltac:(by apply list_elem_of_In)). by destruct (later c x).
  - destruct h as [|c h]; [done|]. exfalso. destruct (lowest_exists (c :: h)) as (d & Hd & Hmin); [done|]. apply list_find_None in E. rewrite Forall_forall in E. apply (E d Hd).
    apply forallb_forall. intros x Hx%list_elem_of_In. by rewrite (Hmin x Hx).
Defined.

(** [ab] before [bc]; the word [abc] becomes [ab] and [c]. *)
Definition demo_pairs : list (Z * Z * Z * Z) := [(0, 1, 3, 0); (1, 2, 4, 1)].
Definition demo_table : BpePairTable := Eval vm_compute in match build_pair_table demo_pairs with Ok table => table | Throw _ => MkTable [] 0 end.

Lemma bpe_word_exact_witness : append_bpe_word demo_table (fun b => b - 97) [10; 11; 12; 13; 14] [0; 1; 2; 3; 4; 5]%nat [97; 98; 99] = Ok [13; 12].
Proof.
  destruct (bpe_word_exact demo_pairs demo_table (fun b => b - 97) [10; 11; 12; 13; 14] [0; 1; 2; 3; 4; 5]%nat [97; 98; 99]) as [_ E].
  - repeat constructor; lia.
  - repeat constructor; unfold i32_max_rank; simpl; lia.
  - simpl. lia.
  - vm_compute. reflexivity.
  - rewrite E. vm_compute. reflexivity.
Defined.
