(* ===== verification/TokenSplit.v ===== *)
(** * Cutting text into words

    tokenizer.cpp: [for_each_ascii_qwen_word] cuts ASCII text byte by byte,
    [for_each_unicode_qwen_word] any text code point by code point.  The first is a
    shortcut: on ASCII text both give the same words, and the words are the text.

    The loops look ahead only, so an iteration is a function of the rest of the text: how
    many bytes, or code points, the next word takes.  Every word takes at least one, so
    as much fuel as bytes is enough. *)

From stdpp Require Import prelude functions list list_numbers.
From Stdlib Require Import ZArith Lia.
From S2P Require Import Prelude Utf8.
#[local] Open Scope Z_scope.

(** The length of the longest beginning whose elements satisfy [p]. *)
Fixpoint run {A} (p : A -> bool) (l : list A) : nat :=
  match l with x :: l => if p x then S (run p l) else 0%nat | [] => 0%nat end.

Definition next_is {A} (p : A -> bool) (tail : list A) : bool := match tail with x :: _ => p x | [] => false end.

(** The last position in the run that is a new line. *)
Fixpoint last_newline {A} (newline : A -> bool) (l : list A) : option nat :=
  match l with
  | [] => None
  | x :: l => match last_newline newline l with Some i => Some (S i) | None => if newline x then Some 0%nat else None end
  end.

(** ** ASCII *)
Definition ascii_letter (cp : Z) : bool := ((65 <=? cp) && (cp <=? 90)) || ((97 <=? cp) && (cp <=? 122)).
Definition ascii_number (cp : Z) : bool := (48 <=? cp) && (cp <=? 57).
Definition ascii_whitespace (cp : Z) : bool :=
  (cp =? 32) || (cp =? 9) || (cp =? 10) || (cp =? 13) || (cp =? 11) || (cp =? 12).
Definition is_newline (cp : Z) : bool := (cp =? 13) || (cp =? 10).

Definition tolower (b : Z) : Z := if (65 <=? b) && (b <=? 90) then b + 32 else b.

(** [ascii_ci_matches] where the text from the offset on is [rest]. *)
Definition ascii_ci_matches (rest suffix : list Z) : bool :=
  (length suffix <=? length rest)%nat && bool_decide (tolower <$> take (length suffix) rest = tolower <$> suffix).

(** s, t, re, ve, m, ll, d *)
Definition suffixes : list (list Z) := [[115]; [116]; [114; 101]; [118; 101]; [109]; [108; 108]; [100]].

Definition contraction (cp : Z) (tail : list Z) : option (list Z) :=
  if cp =? 39 then snd <$> list_find (fun suffix => ascii_ci_matches tail suffix = true) suffixes else None.

Definition ascii_punct (cp : Z) : bool := negb (ascii_whitespace cp) && negb (ascii_letter cp) && negb (ascii_number cp).

(** The length of the first word. *)
Definition ascii_word (rest : list Z) : nat :=
  match rest with
  | [] => 0%nat
  | cp :: tail =>
      match contraction cp tail with
      | Some suffix => (1 + length suffix)%nat
      | None =>
          if ascii_letter cp || (negb (is_newline cp) && negb (ascii_letter cp) && negb (ascii_number cp) && next_is ascii_letter tail) then
            if ascii_letter cp then run ascii_letter rest else S (run ascii_letter tail)
          else if ascii_number cp then 1%nat
          else if ((cp =? 32) && next_is ascii_punct tail) || ascii_punct cp then
            let skip := if cp =? 32 then 1%nat else 0%nat in
            let body := run ascii_punct (drop skip rest) in
            (skip + body + run is_newline (drop (skip + body) rest))%nat
          else if ascii_whitespace cp then
            let run_end := run ascii_whitespace rest in
            match last_newline is_newline (take run_end rest) with
            | Some i => S i
            | None =>
                if (run_end =? length rest)%nat then length rest
                else if (2 <=? run_end)%nat then (run_end - 1)%nat else run_end
            end
          else 1%nat
      end
  end.

Fixpoint ascii_words (fuel : nat) (rest : list Z) : list (list Z) :=
  match fuel, rest with
  | _, [] | O, _ => []
  | S fuel, _ => let n := ascii_word rest in take n rest :: ascii_words fuel (drop n rest)
  end.

Definition for_each_ascii_qwen_word (text : list Z) : list (list Z) := ascii_words (length text) text.

(** ** Unicode *)
Section Split.
Context {U : Utf8proc}.

Definition is_letter_or_mark (cp : Z) : bool := is_letter cp || is_mark cp.
Definition is_non_newline_non_letter_non_number (cp : Z) : bool := negb (is_newline cp) && negb (is_letter cp) && negb (is_number cp).
Definition is_non_space_non_letter_mark_number (cp : Z) : bool :=
  negb (is_whitespace cp) && negb (is_letter cp) && negb (is_mark cp) && negb (is_number cp).

Definition span_end_offset (text : list Z) (rest : list CodepointSpan) : nat :=
  match rest with [] => length text | x :: _ => cp_offset x end.

(** The number of code points of the first word. *)
Definition unicode_word (text : list Z) (rest : list CodepointSpan) : nat :=
  match rest with
  | [] => 0%nat
  | x :: tail =>
      let cp := cp_value x in
      let on (p : Z -> bool) (y : CodepointSpan) := p (cp_value y) in
      match contraction cp (drop (cp_offset x + 1) text) with
      | Some suffix => S (run (fun y => (cp_offset y <? cp_offset x + 1 + length suffix)%nat) tail)
      | None =>
          if is_letter_or_mark cp || (is_non_newline_non_letter_non_number cp && next_is (on is_letter_or_mark) tail) then
            if is_letter_or_mark cp then run (on is_letter_or_mark) rest else S (run (on is_letter_or_mark) tail)
          else if is_number cp then 1%nat
          else if ((cp =? 32) && next_is (on is_non_space_non_letter_mark_number) tail) || is_non_space_non_letter_mark_number cp then
            let skip := if cp =? 32 then 1%nat else 0%nat in
            let body := run (on is_non_space_non_letter_mark_number) (drop skip rest) in
            (skip + body + run (on is_newline) (drop (skip + body) rest))%nat
          else if is_whitespace cp then
            let run_end := run (on is_whitespace) rest in
            match last_newline (on is_newline) (take run_end rest) with
            | Some i => S i
            | None =>
                if (run_end =? length rest)%nat then length rest
                else if (2 <=? run_end)%nat then (run_end - 1)%nat else run_end
            end
          else 1%nat
      end
  end.

(** A word ends where the next code point starts; that is also where a single code point
    that is emitted by its length ends. *)
Fixpoint unicode_words (fuel : nat) (text : list Z) (rest : list CodepointSpan) : list (list Z) :=
  match fuel, rest with
  | _, [] | O, _ => []
  | S fuel, x :: _ =>
      let n := unicode_word text rest in
      take (span_end_offset text (drop n rest) - cp_offset x) (drop (cp_offset x) text) :: unicode_words fuel text (drop n rest)
  end.

Definition for_each_unicode_qwen_word (text : list Z) : res (list (list Z)) :=
  spans ← utf8_codepoints text;
  Ok (unicode_words (length spans) text spans).

Definition is_ascii (text : list Z) : bool := forallb (fun byte => byte <? 128) text.

Definition for_each_qwen_word (text : list Z) : res (list (list Z)) :=
  if is_ascii text then Ok (for_each_ascii_qwen_word text) else for_each_unicode_qwen_word text.

End Split.

(** ** One shape for both *)
Section Shape.
Context {A : Type} (contr : A -> list A -> option nat) (letter second number space punct ws newline : A -> bool).

Definition word_len (rest : list A) : nat :=
  match rest with
  | [] => 0%nat
  | x :: tail =>
      match contr x tail with
      | Some n => S n
      | None =>
          if letter x || (second x && next_is letter tail) then
            if letter x then run letter rest else S (run letter tail)
          else if number x then 1%nat
          else if (space x && next_is punct tail) || punct x then
            let skip := if space x then 1%nat else 0%nat in
            let body := run punct (drop skip rest) in
            (skip + body + run newline (drop (skip + body) rest))%nat
          else if ws x then
            let run_end := run ws rest in
            match last_newline newline (take run_end rest) with
            | Some i => S i
            | None =>
                if (run_end =? length rest)%nat then length rest
                else if (2 <=? run_end)%nat then (run_end - 1)%nat else run_end
            end
          else 1%nat
      end
  end.

Lemma run_length {B} (p : B -> bool) l : (run p l <= length l)%nat.
Proof. induction l as [|x l IH]; simpl; [done|]. destruct (p x); lia. Qed.

Lemma last_newline_bound {B} (p : B -> bool) l i : last_newline p l = Some i -> (i < length l)%nat.
Proof.
  revert i. induction l as [|x l IH]; intros i; simpl; [done|]. destruct (last_newline p l) as [j|]; [intros [= <-]; specialize (IH j eq_refl); lia|].
  destruct (p x); [|done]. intros [= <-]. lia.
Qed.

(** A word takes at least one element and at most all. *)
Lemma word_len_bound rest : (forall x tail n, contr x tail = Some n -> (n <= length tail)%nat) -> rest ≠ [] -> (0 < word_len rest <= length rest)%nat.
Proof.
  intros Hc Hne. destruct rest as [|x tail]; [done|]. cbn [word_len]. destruct (contr x tail) as [n|] eqn:Ec; [apply Hc in Ec; simpl; lia|].
  pose proof (run_length letter tail) as H1. destruct (letter x || _).
  { destruct (letter x) eqn:El; cbn [run length]; [rewrite El|]; lia. }
  destruct (number x); [simpl; lia|]. destruct (_ || punct x) eqn:Ep.
  - destruct (space x) eqn:Es; cbv zeta.
    + pose proof (run_length punct (drop 1 (x :: tail))) as H2. pose proof (run_length newline (drop (1 + run punct (drop 1 (x :: tail))) (x :: tail))) as H3.
      rewrite length_drop in H2, H3. simpl length in *. lia.
    + rewrite andb_false_l, orb_false_l in Ep. pose proof (run_length punct (x :: tail)) as H2.
      pose proof (run_length newline (drop (0 + run punct (drop 0 (x :: tail))) (x :: tail))) as H3. rewrite drop_0 in *. rewrite length_drop in H3.
      assert (0 < run punct (x :: tail))%nat by (simpl; rewrite Ep; lia). lia.
  - destruct (ws x) eqn:Ew; [|simpl; lia]. pose proof (run_length ws (x :: tail)) as H2. assert (0 < run ws (x :: tail))%nat as H3 by (simpl; rewrite Ew; lia).
    cbv zeta. destruct (last_newline newline _) as [i|] eqn:El; [apply last_newline_bound in El; rewrite length_take in El; lia|].
    destruct (Nat.eqb_spec (run ws (x :: tail)) (length (x :: tail))); [simpl; lia|]. destruct (Nat.leb_spec 2 (run ws (x :: tail))); lia.
Qed.

End Shape.

Lemma run_map {A B} (value : A -> B) (p : B -> bool) (q : A -> bool) l : (forall y, y ∈ l -> q y = p (value y)) -> run q l = run p (value <$> l).
Proof.
  induction l as [|y l IH]; intros H; [done|]. simpl. rewrite (H y ltac:(left)). destruct (p (value y)); [|done]. f_equal. apply IH. intros z Hz. apply H. by right.
Qed.

Lemma last_newline_map {A B} (value : A -> B) (p : B -> bool) (q : A -> bool) l : (forall y, y ∈ l -> q y = p (value y)) -> last_newline q l = last_newline p (value <$> l).
Proof.
  induction l as [|y l IH]; intros H; [done|]. simpl. rewrite (H y ltac:(left)), IH by (intros z Hz; apply H; by right). done.
Qed.

(** The words depend on the classes of the elements only. *)
Lemma word_len_map {A B} (value : A -> B) contr letter second number space punct ws newline contr' letter' second' number' space' punct' ws' newline' rest :
  (forall y tail, (exists l, rest = l ++ y :: tail) -> contr' y tail = contr (value y) (value <$> tail)) ->
  (forall y, y ∈ rest -> letter' y = letter (value y) /\ second' y = second (value y) /\ number' y = number (value y) /\ space' y = space (value y) /\
     punct' y = punct (value y) /\ ws' y = ws (value y) /\ newline' y = newline (value y)) ->
  word_len contr' letter' second' number' space' punct' ws' newline' rest = word_len contr letter second number space punct ws newline (value <$> rest).
Proof.
  intros Hc Hp. destruct rest as [|x tail]; [done|]. rewrite fmap_cons. cbn [word_len]. rewrite (Hc x tail) by (by exists []).
  destruct (contr (value x) (value <$> tail)); [done|]. destruct (Hp x ltac:(left)) as (E1 & E2 & E3 & E4 & E5 & E6 & E7). rewrite E1, E2, E3, E4, E5, E6.
  assert (forall l, l `sublist_of` x :: tail -> run letter' l = run letter (value <$> l) /\ run punct' l = run punct (value <$> l) /\
     run ws' l = run ws (value <$> l) /\ run newline' l = run newline (value <$> l) /\ last_newline newline' l = last_newline newline (value <$> l)) as Hrun.
  { intros l Hl. split_and!; (apply run_map || apply last_newline_map); intros y Hy; apply (Hp y); by eapply elem_of_sublist. }
  assert (next_is letter' tail = next_is letter (value <$> tail) /\ next_is punct' tail = next_is punct (value <$> tail)) as [-> ->].
  { destruct tail as [|y tail]; [done|]. destruct (Hp y) as (? & _ & _ & _ & ? & _); [right; left|]. done. }
  rewrite <-fmap_cons. destruct (Hrun (x :: tail)) as (-> & _ & -> & _); [done|]. destruct (Hrun tail) as (-> & _); [by apply sublist_cons|].
  set (skip := if space (value x) then 1%nat else 0%nat). destruct (Hrun (drop skip (x :: tail))) as (_ & -> & _); [apply sublist_drop|]. rewrite <-fmap_drop.
  set (body := run punct _). destruct (Hrun (drop (skip + body) (x :: tail))) as (_ & _ & _ & -> & _); [apply sublist_drop|]. rewrite <-fmap_drop.
  set (stop := run ws _). destruct (Hrun (take stop (x :: tail))) as (_ & _ & _ & _ & ->); [apply sublist_take|]. rewrite <-fmap_take, length_fmap. done.
Qed.

(** ** The words are the text *)
Lemma ascii_ci_matches_length rest suffix : ascii_ci_matches rest suffix = true -> (length suffix <= length rest)%nat.
Proof. unfold ascii_ci_matches. intros [H%Nat.leb_le _]%andb_prop. done. Qed.

Lemma contraction_length cp tail suffix : contraction cp tail = Some suffix -> (length suffix <= length tail)%nat.
Proof.
  unfold contraction. destruct (cp =? 39); [|done]. destruct (list_find _ suffixes) as [[i x]|] eqn:E; [|done]. intros [= <-].
  apply list_find_Some in E as (_ & E & _). by apply ascii_ci_matches_length.
Qed.

Definition ascii_contr (cp : Z) (tail : list Z) : option nat := length <$> contraction cp tail.
Definition ascii_second (cp : Z) : bool := negb (is_newline cp) && negb (ascii_letter cp) && negb (ascii_number cp).

Lemma ascii_word_shape rest : ascii_word rest =
  word_len ascii_contr ascii_letter ascii_second ascii_number (fun cp => cp =? 32) ascii_punct ascii_whitespace is_newline rest.
Proof. destruct rest as [|cp tail]; [done|]. unfold ascii_word, word_len, ascii_contr. by destruct (contraction cp tail). Qed.

Lemma ascii_word_bound rest : rest ≠ [] -> (0 < ascii_word rest <= length rest)%nat.
Proof.
  rewrite ascii_word_shape. apply word_len_bound. intros cp tail n. unfold ascii_contr. destruct (contraction cp tail) as [suffix|] eqn:E; [|done].
  intros [= <-]. by eapply contraction_length.
Qed.

Lemma ascii_words_tile fuel rest : (length rest <= fuel)%nat -> mjoin (ascii_words fuel rest) = rest /\ Forall (fun w => w ≠ []) (ascii_words fuel rest).
Proof.
  revert rest. induction fuel as [|fuel IH]; intros rest Hl; [by destruct rest; [|simpl in Hl; lia]|]. destruct rest as [|b rest]; [done|].
  pose proof (ascii_word_bound (b :: rest) ltac:(done)) as Hb. cbn [ascii_words]. set (n := ascii_word (b :: rest)) in *. clearbody n.
  destruct (IH (drop n (b :: rest))) as [H1 H2]; [rewrite length_drop; simpl in *; lia|]. split.
  - change (take n (b :: rest) ++ mjoin (ascii_words fuel (drop n (b :: rest))) = b :: rest). rewrite H1. apply take_drop.
  - constructor; [|done]. destruct n; [lia|]. done.
Qed.

Section Tiles.
Context {U : Utf8proc}.

Definition unicode_contr (text : list Z) (x : CodepointSpan) (tail : list CodepointSpan) : option nat :=
  (fun suffix => run (fun y => (cp_offset y <? cp_offset x + 1 + length suffix)%nat) tail) <$> contraction (cp_value x) (drop (cp_offset x + 1) text).

Lemma unicode_word_shape text rest : unicode_word text rest =
  let on (p : Z -> bool) (y : CodepointSpan) := p (cp_value y) in
  word_len (unicode_contr text) (on is_letter_or_mark) (on is_non_newline_non_letter_non_number) (on is_number) (on (fun cp => cp =? 32))
    (on is_non_space_non_letter_mark_number) (on is_whitespace) (on is_newline) rest.
Proof. destruct rest as [|x tail]; [done|]. unfold unicode_word, word_len, unicode_contr. by destruct (contraction (cp_value x) _). Qed.

Lemma unicode_word_bound text rest : rest ≠ [] -> (0 < unicode_word text rest <= length rest)%nat.
Proof.
  rewrite unicode_word_shape. apply word_len_bound. intros x tail n. unfold unicode_contr. destruct (contraction _ _) as [suffix|]; [|done].
  intros [= <-]. apply run_length.
Qed.

Lemma tiles_le offset spans end_ : tiles offset spans end_ -> (offset <= end_)%nat.
Proof. revert offset. induction spans as [|x spans IH]; intros offset; simpl; [lia|]. intros (_ & H & H'). apply IH in H'. lia. Qed.

(** Leaving out the first spans. *)
Lemma tiles_drop text offset spans n : tiles offset spans (length text) -> (n <= length spans)%nat ->
  tiles (span_end_offset text (drop n spans)) (drop n spans) (length text) /\ (offset <= span_end_offset text (drop n spans))%nat /\
  ((0 < n)%nat -> (offset < span_end_offset text (drop n spans))%nat).
Proof.
  revert offset spans. induction n as [|n IH]; intros offset spans H Hn.
  - rewrite drop_0. destruct spans as [|x spans]; simpl in *; [split_and!; [done|lia|lia]|]. destruct H as (-> & H). split_and!; [done|by destruct H|by destruct H|done|lia].
  - destruct spans as [|x spans]; [simpl in Hn; lia|]. destruct H as (H1 & H2 & H3). simpl in Hn. destruct (IH _ _ H3 ltac:(lia)) as (I1 & I2 & _). simpl drop.
    split_and!; [done|lia|lia].
Qed.

Lemma unicode_words_tile fuel text offset rest : tiles offset rest (length text) -> (length rest <= fuel)%nat ->
  mjoin (unicode_words fuel text rest) = drop offset text /\ Forall (fun w => w ≠ []) (unicode_words fuel text rest).
Proof.
  revert offset rest. induction fuel as [|fuel IH]; intros offset rest Ht Hl.
  { destruct rest; [|simpl in Hl; lia]. simpl in Ht. subst. by rewrite drop_all. }
  destruct rest as [|x rest]; [simpl in Ht; subst; by rewrite drop_all|]. pose proof (unicode_word_bound text (x :: rest) ltac:(done)) as Hb. cbn [unicode_words].
  set (n := unicode_word text (x :: rest)) in *. clearbody n. destruct (tiles_drop text offset (x :: rest) n Ht) as (T1 & T2 & T3); [lia|].
  set (stop := span_end_offset text (drop n (x :: rest))) in *. pose proof (tiles_le _ _ _ T1) as Hstop. assert (cp_offset x = offset) as -> by apply Ht.
  destruct (IH stop (drop n (x :: rest)) T1) as [H1 H2]; [rewrite length_drop; simpl in *; lia|]. split.
  - change (take (stop - offset) (drop offset text) ++ mjoin (unicode_words fuel text (drop n (x :: rest))) = drop offset text). rewrite H1.
    rewrite <-(take_drop (stop - offset) (drop offset text)) at 2. f_equal. rewrite drop_drop. f_equal. lia.
  - constructor; [|done]. intros E. apply (f_equal length) in E. rewrite length_take, length_drop in E. simpl in E. lia.
Qed.

(** ** The shortcut for ASCII *)

(** The general category of an ASCII character. *)
Definition ascii_category (b : Z) : Category :=
  if (65 <=? b) && (b <=? 90) then LU
  else if (97 <=? b) && (b <=? 122) then LL
  else if ascii_number b then ND
  else if b =? 32 then ZS
  else OtherCategory.

(** What utf8proc does on ASCII: one byte is one code point, of its Unicode category. *)
Definition utf8proc_ascii : Prop := forall b, 0 <= b < 128 -> (forall rest, utf8proc_iterate (b :: rest) = (1, b)) /\ utf8proc_category b = ascii_category b.

Lemma ascii_classes b : utf8proc_ascii -> 0 <= b < 128 ->
  is_letter b = ascii_letter b /\ is_mark b = false /\ is_number b = ascii_number b /\ is_whitespace b = ascii_whitespace b.
Proof.
  intros Hu Hb. destruct (Hu b Hb) as [_ Hc]. unfold is_letter, is_mark, is_number, is_whitespace. rewrite Hc. unfold ascii_category, ascii_letter, ascii_whitespace.
  change (is_ascii_whitespace b) with ((b =? 32) || (b =? 9) || (b =? 10) || (b =? 13) || (b =? 11) || (b =? 12)).
  destruct ((65 <=? b) && (b <=? 90)) eqn:E1.
  { apply andb_prop in E1 as [E1%Z.leb_le E2%Z.leb_le]. assert (ascii_number b = false) as -> by (unfold ascii_number; apply andb_false_iff; right; apply Z.leb_gt; lia).
    split_and!; try done. by rewrite orb_false_r. }
  destruct ((97 <=? b) && (b <=? 122)) eqn:E2.
  { apply andb_prop in E2 as [E2%Z.leb_le E3%Z.leb_le]. assert (ascii_number b = false) as -> by (unfold ascii_number; apply andb_false_iff; right; apply Z.leb_gt; lia).
    split_and!; try done. by rewrite orb_false_r. }
  destruct (ascii_number b) eqn:E3; [split_and!; try done; by rewrite orb_false_r|].
  destruct (Z.eqb_spec b 32) as [->|Hne]; [done|]. split_and!; try done. by rewrite orb_false_r.
Qed.

Definition ascii_span (i : nat) (b : Z) : CodepointSpan := MkSpan b i 1.

Lemma ascii_codepoints_loop fuel offset text : utf8proc_ascii -> Forall (fun b => 0 <= b < 128) text -> (length text <= fuel)%nat ->
  codepoints_loop fuel offset text = Ok (imap (fun i => ascii_span (offset + i)) text).
Proof.
  intros Hu. revert offset text. induction fuel as [|fuel IH]; intros offset text Ha Hl; [by destruct text; [|simpl in Hl; lia]|].
  destruct Ha as [|b text Hb Ha]; [done|]. cbn [codepoints_loop]. destruct (Hu b Hb) as [-> _]. simpl. rewrite drop_0, IH by (done || (simpl in Hl; lia)). simpl.
  f_equal. f_equal; [unfold ascii_span; f_equal; lia|]. apply imap_ext. intros i x _. unfold ascii_span. simpl. f_equal. lia.
Qed.

Lemma ascii_spans_value offset text : cp_value <$> imap (fun i => ascii_span (offset + i)) text = text.
Proof. revert offset. induction text as [|b text IH]; intros offset; [done|]. simpl. f_equal. etransitivity; [|apply (IH (S offset))]. f_equal. apply imap_ext. intros i x _. unfold compose, ascii_span. f_equal. lia. Qed.

Lemma drop_imap {A B} (f : nat -> A -> B) n l : drop n (imap f l) = imap (fun i => f (n + i)%nat) (drop n l).
Proof.
  apply list_eq. intros i. rewrite lookup_drop, !list_lookup_imap, lookup_drop. done.
Qed.

(** The code points of a contraction. *)
Lemma ascii_run m offset k tail : (k <= length tail)%nat -> run (fun y => (cp_offset y <? m)%nat) (imap (fun i => ascii_span (offset + i)) tail) = Nat.min (m - offset) (length tail).
Proof.
  intros _. revert offset. induction tail as [|b tail IH]; intros offset; simpl; [lia|]. rewrite Nat.add_0_r. destruct (Nat.ltb_spec offset m); [|lia].
  rewrite (imap_ext _ (fun i => ascii_span (S offset + i))) by (intros i x _; unfold compose, ascii_span; f_equal; lia). rewrite IH. lia.
Qed.

Lemma ascii_unicode_word text i : utf8proc_ascii -> Forall (fun b => 0 <= b < 128) text ->
  unicode_word text (drop i (imap ascii_span text)) = ascii_word (drop i text).
Proof.
  intros Hu Ha. rewrite unicode_word_shape, ascii_word_shape. cbv zeta. rewrite drop_imap.
  rewrite <-(ascii_spans_value i (drop i text)) at 2. apply word_len_map.
  - intros y tail (l & E). set (n := length l).
    assert (drop n (imap (fun j => ascii_span (i + j)) (drop i text)) = y :: tail) as En by (rewrite E; unfold n; by rewrite drop_app_length).
    rewrite drop_imap, drop_drop in En. destruct (drop (i + n) text) as [|b r] eqn:Er; [done|]. injection En as Ey Et. 
    assert (y = ascii_span (i + n) b) as -> by (rewrite <-Ey; f_equal; lia).
    assert (tail = imap (fun j => ascii_span (i + n + 1 + j)) r) as -> by (rewrite <-Et; apply imap_ext; intros j x _; unfold compose; f_equal; lia).
    rewrite ascii_spans_value. unfold unicode_contr, ascii_contr. simpl. assert (drop (i + n + 1) text = r) as ->.
    { rewrite <-drop_drop, Er. done. }
    destruct (contraction b r) as [suffix|] eqn:Ec; [|done]. apply contraction_length in Ec. simpl. f_equal. rewrite (ascii_run _ _ (length suffix)) by done. lia.
  - intros y Hy. assert (0 <= cp_value y < 128) as Hb.
    { assert (cp_value y ∈ drop i text) as Hv by (rewrite <-(ascii_spans_value i (drop i text)); by apply list_elem_of_fmap_2).
      rewrite Forall_forall in Ha. apply Ha. by eapply elem_of_sublist; [|apply (sublist_drop _ i)]. }
    destruct (ascii_classes _ Hu Hb) as (C1 & C2 & C3 & C4). unfold is_letter_or_mark, is_non_newline_non_letter_non_number, is_non_space_non_letter_mark_number, ascii_second, ascii_punct.
    rewrite C1, C2, C3, C4, orb_false_r. split_and!; try done. simpl. by rewrite andb_true_r.
Qed.

Lemma unicode_words_step fuel text x tail : let rest := x :: tail in let n := unicode_word text rest in
  unicode_words (S fuel) text rest = take (span_end_offset text (drop n rest) - cp_offset x) (drop (cp_offset x) text) :: unicode_words fuel text (drop n rest).
Proof. done. Qed.

Lemma ascii_unicode_words fuel text i : utf8proc_ascii -> Forall (fun b => 0 <= b < 128) text ->
  unicode_words fuel text (drop i (imap ascii_span text)) = ascii_words fuel (drop i text).
Proof.
  intros Hu Ha. revert i. induction fuel as [|fuel IH]; intros i; [by destruct (drop i text), (drop i (imap ascii_span text))|].
  pose proof (ascii_unicode_word text i Hu Ha) as Hw. pose proof (drop_imap ascii_span i text) as Ed. destruct (drop i text) as [|b r] eqn:Er; [by rewrite Ed|].
  destruct (drop i (imap ascii_span text)) as [|x tail] eqn:Ex; [done|]. assert (cp_offset x = i) as Hx by (simpl in Ed; injection Ed as -> _; simpl; lia).
  rewrite unicode_words_step, Hw, Hx. cbn [ascii_words]. set (n := ascii_word (b :: r)) in *. cbv zeta.
  pose proof (ascii_word_bound (b :: r) ltac:(done)) as Hn. fold n in Hn. rewrite <-Ex, <-Er, !drop_drop, IH. f_equal. f_equal. rewrite drop_imap.
  apply (f_equal length) in Er. rewrite length_drop in Er. simpl in Er. destruct (drop (i + n) text) as [|b' r'] eqn:Er'; simpl; [|lia].
  apply (f_equal length) in Er'. rewrite length_drop in Er'. simpl in *. lia.
Qed.

Lemma is_ascii_bytes text : Forall (fun b => 0 <= b < 256) text -> is_ascii text = true -> Forall (fun b => 0 <= b < 128) text.
Proof.
  intros Hb Ha. unfold is_ascii in Ha. rewrite forallb_forall in Ha. rewrite Forall_forall in Hb |- *. intros b Hin.
  specialize (Ha b ltac:(by apply list_elem_of_In)). apply Z.ltb_lt in Ha. specialize (Hb b Hin). lia.
Qed.

(** The words of a text, joined, are the text, and none is empty. *)
Lemma qwen_words_tile text words : iterates_inside -> for_each_qwen_word text = Ok words -> mjoin words = text /\ Forall (fun w => w ≠ []) words.
Proof.
  intros Hi. unfold for_each_qwen_word. destruct (is_ascii text) eqn:Ea.
  - intros [= <-]. unfold for_each_ascii_qwen_word. by apply ascii_words_tile.
  - intros E. unfold for_each_unicode_qwen_word in *. destruct (utf8_codepoints text) as [spans|] eqn:Es; [|done]. simpl in E. injection E as <-.
    apply utf8_codepoints_tiles in Es; [|done]. destruct (unicode_words_tile (length spans) text 0 spans Es) as [H1 H2]; [done|]. by rewrite drop_0 in H1.
Qed.

Lemma ascii_utf8_codepoints text : utf8proc_ascii -> Forall (fun b => 0 <= b < 128) text -> utf8_codepoints text = Ok (imap ascii_span text).
Proof. intros Hu Ha. unfold utf8_codepoints. by rewrite ascii_codepoints_loop. Qed.

(** C18: the words that a text is cut into, joined, are the text, and none of them is
    empty; on ASCII text the byte-by-byte shortcut cuts the same words as the general
    loop over code points. *)
Theorem qwen_words_exact text words : utf8proc_ascii -> iterates_inside -> Forall (fun b => 0 <= b < 256) text -> for_each_qwen_word text = Ok words ->
  mjoin words = text /\ Forall (fun w => w ≠ []) words /\ for_each_unicode_qwen_word text = Ok words.
Proof.
  intros Hu Hi Hb Hw. destruct (qwen_words_tile text words Hi Hw) as [H1 H2]. split_and!; [done|done|]. unfold for_each_qwen_word in Hw.
  destruct (is_ascii text) eqn:Ea; [|done]. injection Hw as <-. unfold for_each_unicode_qwen_word. rewrite ascii_utf8_codepoints by (done || by apply is_ascii_bytes).
  cbn [mbind res_bind]. rewrite length_imap. pose proof (ascii_unicode_words (length text) text 0 Hu (is_ascii_bytes _ Hb Ea)) as H. rewrite !drop_0 in H. by rewrite H.
Qed.

End Tiles.

(** ** A text

    utf8proc, restricted to ASCII and characters of two bytes, which are letters. *)
#[local] Instance demo_utf8proc : Utf8proc := {|
  utf8proc_iterate text :=
    match text with
    | b :: rest => if b <? 128 then (1, b) else match rest with c :: _ => (2, (b - 192) * 64 + (c - 128)) | [] => (-1, 0) end
    | [] => (0, 0)
    end;
  utf8proc_category b := if b <? 128 then ascii_category b else LL;
|}.

Lemma demo_ascii : utf8proc_ascii.
Proof. intros b Hb. simpl. destruct (Z.ltb_spec b 128); [done|lia]. Qed.

Lemma demo_iterates : iterates_inside.
Proof. intros [|b [|c text]]; simpl; [done|destruct (b <? 128); simpl; lia|destruct (b <? 128); simpl; lia]. Qed.

(** [It's  "42"] and a line break; and [né!]. *)
Lemma qwen_words_exact_witness :
  for_each_unicode_qwen_word [73; 116; 39; 115; 32; 32; 34; 52; 50; 34; 10] = Ok [[73; 116]; [39; 115]; [32]; [32; 34]; [52]; [50]; [34; 10]] /\
  mjoin [[110; 195; 169]; [33]] = [110; 195; 169; 33].
Proof.
  split.
  - apply (qwen_words_exact [73; 116; 39; 115; 32; 32; 34; 52; 50; 34; 10]); [apply demo_ascii|apply demo_iterates|repeat constructor; lia|reflexivity].
  - apply (qwen_words_exact [110; 195; 169; 33]); [apply demo_ascii|apply demo_iterates|repeat constructor; lia|reflexivity].
Defined.
