(* ===== verification/TokenAdded.v ===== *)
(** * Added tokens

    tokenizer.cpp: the trie of the added tokens that the constructor builds, and
    [find_leftmost_added], which finds the next added token of a text outside its literal
    spans.  The trie's nodes are a vector; [next] is an array indexed by the byte, a
    function here, and a negative index is no node. *)

From stdpp Require Import prelude functions list list_numbers.
From Stdlib Require Import ZArith Lia.
From S2P Require Import Prelude TokenSplit.
#[local] Open Scope Z_scope.

Record ByteSpan : Type := MkByteSpan { span_begin : nat; span_end : nat }.

Record AddedToken : Type := MkAdded {
  added_id : Z; content : list Z; single_word : bool; lstrip : bool; rstrip : bool; normalized : bool; special : bool;
}.

Record AddedTrieNode : Type := MkTrieNode { trie_next : Z -> Z; token_index : Z }.

Definition new_trie_node : AddedTrieNode := MkTrieNode (fun _ => -1) (-1).

(** ** The constructor's part *)
Definition get_trie (trie : list AddedTrieNode) (node : Z) : AddedTrieNode := default new_trie_node (trie !! Z.to_nat node).

(** The loop over the bytes of a token's content, from [node]. *)
Fixpoint trie_descend (trie : list AddedTrieNode) (node : Z) (bytes : list Z) : list AddedTrieNode * Z :=
  match bytes with
  | [] => (trie, node)
  | byte :: bytes =>
      let x := get_trie trie node in
      let child := trie_next x byte in
      if child <? 0 then
        let child := Z.of_nat (length trie) in
        let trie := <[Z.to_nat node := MkTrieNode (<[byte := child]> (trie_next x)) (token_index x)]> trie ++ [new_trie_node] in
        trie_descend trie child bytes
      else trie_descend trie child bytes
  end.

Definition trie_add (trie : list AddedTrieNode) (index : Z) (bytes : list Z) : list AddedTrieNode :=
  if bool_decide (bytes = []) then trie
  else
    let '(trie, node) := trie_descend trie 0 bytes in
    let x := get_trie trie node in
    if token_index x <? 0 then <[Z.to_nat node := MkTrieNode (trie_next x) index]> trie else trie.

(** [contents] are those of the tokens from [index] on. *)
Fixpoint trie_add_all (trie : list AddedTrieNode) (index : Z) (contents : list (list Z)) : list AddedTrieNode :=
  match contents with
  | [] => trie
  | bytes :: contents => trie_add_all (trie_add trie index bytes) (index + 1) contents
  end.

Definition build_trie (tokens : list AddedToken) : list AddedTrieNode := trie_add_all [new_trie_node] 0 (content <$> tokens).

(** [added_start_bytes_] *)
Definition start_bytes (tokens : list AddedToken) (byte : Z) : bool :=
  existsb (fun t => match content t with b :: _ => b =? byte | [] => false end) tokens.

(** ** The search *)

(** The walk down the trie along the text, up to the limit. *)
Fixpoint best_match (trie : list AddedTrieNode) (node best : Z) (bytes : list Z) : Z :=
  match bytes with
  | [] => best
  | byte :: bytes =>
      let child := trie_next (get_trie trie node) byte in
      if child <? 0 then best
      else
        let t := token_index (get_trie trie child) in
        best_match trie child (if (0 <=? t) && ((best <? 0) || (t <? best)) then t else best) bytes
  end.

Definition ends_by (pos : nat) (span : ByteSpan) : bool := (span_end span <=? pos)%nat.

(** The loop over the positions; [literal] are the spans from the current one on.  Every
    iteration moves on, so as many as bytes are enough. *)
Fixpoint find_loop (fuel : nat) (trie : list AddedTrieNode) (starts : Z -> bool) (text : list Z) (i : nat) (literal : list ByteSpan)
    : option (nat * Z) :=
  match fuel, text !! i with
  | O, _ | _, None => None
  | S fuel, Some byte =>
      if negb (starts byte) then find_loop fuel trie starts text (S i) literal
      else
        let literal := drop (run (ends_by i) literal) literal in
        let search limit :=
          let best := best_match trie 0 (-1) (take (limit - i) (drop i text)) in
          if 0 <=? best then Some (i, best) else find_loop fuel trie starts text (S i) literal in
        match literal with
        | [] => search (length text)
        | span :: _ => if (span_begin span <=? i)%nat then find_loop fuel trie starts text (S (span_end span - 1)) literal else search (span_begin span)
        end
  end.

(** [partition_point] counts the spans that end by [pos]: they come first. *)
Definition find_leftmost_added (trie : list AddedTrieNode) (starts : Z -> bool) (text : list Z) (pos : nat) (literal_spans : list ByteSpan) : option (nat * Z) :=
  find_loop (length text) trie starts text pos (drop (run (ends_by pos) literal_spans) literal_spans).

Fixpoint validate_spans (size previous_end : nat) (literal_spans : list ByteSpan) : res unit :=
  match literal_spans with
  | [] => Ok tt
  | span :: literal_spans =>
      throw_if ((span_end span <=? span_begin span) || (size <? span_end span) || (span_begin span <? previous_end))%nat invalid_argument ;;
      validate_spans size (span_end span) literal_spans
  end.

Definition validate_literal_spans (text : list Z) (literal_spans : list ByteSpan) : res unit := validate_spans (length text) 0 literal_spans.

(** ** What it finds *)

(** A token lies at a position, outside the literal spans. *)
Definition lies_at (text : list Z) (literal_spans : list ByteSpan) (i : nat) (t : list Z) : Prop :=
  t ≠ [] /\ t `prefix_of` drop i text /\ Forall (fun span => (span_end span <= i)%nat \/ (i + length t <= span_begin span)%nat) literal_spans.

#[export] Instance lies_at_dec text literal_spans i t : Decision (lies_at text literal_spans i t).
Proof. unfold lies_at. apply _. Defined.

(** The first position from [i] on, of [n], at which a token lies, with the first such
    token. *)
Fixpoint leftmost (contents : list (list Z)) (text : list Z) (literal_spans : list ByteSpan) (i n : nat) : option (nat * Z) :=
  match n with
  | O => None
  | S n =>
      match list_find (lies_at text literal_spans i) contents with
      | Some (k, _) => Some (i, Z.of_nat k)
      | None => leftmost contents text literal_spans (S i) n
      end
  end.

(** ** The trie *)
Definition first_index (contents : list (list Z)) (q : list Z) : Z :=
  match list_find (eq q) contents with Some (k, _) => Z.of_nat k | None => -1 end.

(** [paths] are the bytes that lead to each node. *)
Record shaped (trie : list AddedTrieNode) (paths : list (list Z)) : Prop := {
  shaped_length : length paths = length trie;
  shaped_root : paths !! 0%nat = Some [];
  shaped_next : forall i p byte, paths !! i = Some p -> let child := trie_next (get_trie trie (Z.of_nat i)) byte in
    if child <? 0 then p ++ [byte] ∉ paths else paths !! Z.to_nat child = Some (p ++ [byte]);
  shaped_closed : forall p byte, p ++ [byte] ∈ paths -> p ∈ paths;
  shaped_unique : NoDup paths;
}.

Record trie_of (trie : list AddedTrieNode) (paths contents : list (list Z)) : Prop := {
  trie_shape : shaped trie paths;
  trie_index : forall i p, paths !! i = Some p -> p ≠ [] -> token_index (get_trie trie (Z.of_nat i)) = first_index contents p;
  trie_contents : forall t, t ∈ contents -> t ≠ [] -> t ∈ paths;
}.

Lemma get_trie_nat trie (i : nat) : get_trie trie (Z.of_nat i) = default new_trie_node (trie !! i).
Proof. unfold get_trie. by rewrite Nat2Z.id. Qed.

Lemma get_trie_set trie (i j : nat) x : (i < length trie)%nat -> get_trie (<[i := x]> trie) (Z.of_nat j) = if decide (i = j) then x else get_trie trie (Z.of_nat j).
Proof.
  intros Hi. rewrite !get_trie_nat. case_decide as E; [subst; by rewrite list_lookup_insert_eq by done|]. by rewrite list_lookup_insert_ne.
Qed.

Lemma get_trie_push trie (i : nat) : get_trie (trie ++ [new_trie_node]) (Z.of_nat i) = get_trie trie (Z.of_nat i).
Proof.
  rewrite !get_trie_nat. destruct (decide (i < length trie)%nat); [by rewrite lookup_app_l by done|]. rewrite lookup_app_r, (lookup_ge_None_2 trie) by lia.
  by destruct (i - length trie)%nat as [|k].
Qed.

(** A node for one more byte. *)
Lemma shaped_extend trie paths (node : nat) p byte x : shaped trie paths -> paths !! node = Some p -> x = get_trie trie (Z.of_nat node) -> trie_next x byte < 0 ->
  shaped (<[node := MkTrieNode (<[byte := Z.of_nat (length trie)]> (trie_next x)) (token_index x)]> trie ++ [new_trie_node]) (paths ++ [p ++ [byte]]).
Proof.
  intros [S1 S2 S3 S4 S5] Hp -> Hx. pose proof (lookup_lt_Some _ _ _ Hp) as Hl. rewrite S1 in Hl.
  pose proof (S3 node p byte Hp) as Hnew. cbv zeta in Hnew. destruct (Z.ltb_spec (trie_next (get_trie trie (Z.of_nat node)) byte) 0) as [_|]; [|lia]. constructor.
  - rewrite !length_app, length_insert. simpl. lia.
  - by apply lookup_app_l_Some.
  - intros i q b Hq. cbv zeta. rewrite get_trie_push, get_trie_set by done. apply lookup_app_Some in Hq as [Hq|[Hge Hq]].
    + specialize (S3 i q b Hq). cbv zeta in S3. case_decide as E; simpl.
      * subst i. rewrite Hq in Hp. injection Hp as <-. destruct (decide (byte = b)) as [<-|Hne].
        { rewrite fn_lookup_insert. destruct (Z.ltb_spec (Z.of_nat (length trie)) 0); [lia|]. rewrite Nat2Z.id, <-S1. by rewrite lookup_app_r, Nat.sub_diag by done. }
        rewrite fn_lookup_insert_ne by done. destruct (trie_next _ b <? 0); [|by apply lookup_app_l_Some].
        rewrite elem_of_app, list_elem_of_singleton. intros [?|E]; [done|]. apply app_inj_tail in E as [_ ->]. done.
      * destruct (trie_next _ b <? 0); [|by apply lookup_app_l_Some]. rewrite elem_of_app, list_elem_of_singleton. intros [?|E']; [done|].
        apply app_inj_tail in E' as [-> ->]. apply E. by eapply (NoDup_lookup paths).
    + assert (i = length paths /\ q = p ++ [byte]) as [-> ->] by (destruct (i - length paths)%nat eqn:E; simpl in Hq; [injection Hq as <-; split; [lia|done]|done]).
      case_decide; [lia|]. rewrite get_trie_nat, lookup_ge_None_2 by lia. simpl. rewrite elem_of_app, list_elem_of_singleton. intros [Hin%S4|E]; [done|].
      apply (f_equal length) in E. rewrite !length_app in E. simpl in E. lia.
  - intros q b. rewrite !elem_of_app, !list_elem_of_singleton. intros [H|E]; [left; by eapply S4|]. apply app_inj_tail in E as [-> ->]. left. by eapply list_elem_of_lookup_2.
  - apply NoDup_app. split_and!; [done| |apply NoDup_singleton]. intros q Hq ->%list_elem_of_singleton. done.
Qed.

(** The way down makes the nodes that are missing. *)
Lemma trie_descend_spec bytes : forall trie paths (node : nat) p, shaped trie paths -> paths !! node = Some p ->
  exists trie' new node', trie_descend trie (Z.of_nat node) bytes = (trie', Z.of_nat node') /\ shaped trie' (paths ++ new) /\ (paths ++ new) !! node' = Some (p ++ bytes) /\
    (forall i : nat, token_index (get_trie trie' (Z.of_nat i)) = token_index (get_trie trie (Z.of_nat i))).
Proof.
  induction bytes as [|byte bytes IH]; intros trie paths node p Hs Hp.
  { exists trie, [], node. rewrite !app_nil_r. done. }
  cbn [trie_descend]. pose proof (shaped_next _ _ Hs node p byte Hp) as Hn. cbv zeta in Hn |- *. destruct (Z.ltb_spec (trie_next (get_trie trie (Z.of_nat node)) byte) 0) as [Hx|Hx].
  - rewrite Nat2Z.id. pose proof (shaped_extend trie paths node p byte _ Hs Hp eq_refl Hx) as Hs'.
    destruct (IH _ _ (length trie) (p ++ [byte]) Hs') as (trie' & new & node' & E & H1 & H2 & H3).
    { rewrite <-(shaped_length _ _ Hs). by rewrite lookup_app_r, Nat.sub_diag by done. }
    exists trie', ([p ++ [byte]] ++ new), node'. rewrite app_assoc, E. rewrite <-(app_assoc p) in H2. split_and!; [done|done|done|].
    intros i. rewrite H3, get_trie_push, get_trie_set by (rewrite <-(shaped_length _ _ Hs); by eapply lookup_lt_Some). case_decide; [subst|]; reflexivity.
  - destruct (IH trie paths (Z.to_nat (trie_next (get_trie trie (Z.of_nat node)) byte)) (p ++ [byte]) Hs Hn) as (trie' & new & node' & E & H1 & H2 & H3).
    rewrite Z2Nat.id in E by lia. exists trie', new, node'. rewrite <-(app_assoc p) in H2. by split_and!.
Qed.

Lemma first_index_snoc contents t q : first_index (contents ++ [t]) q =
  if decide (0 <= first_index contents q) then first_index contents q else if decide (q = t) then Z.of_nat (length contents) else -1.
Proof.
  unfold first_index. destruct (list_find (eq q) contents) as [[k x]|] eqn:E.
  { apply (list_find_app_l _ _ [t]) in E. rewrite E, decide_True by lia. done. }
  rewrite list_find_app_r by done. rewrite decide_False by lia. simpl. by case_decide.
Qed.

Lemma first_index_exact contents q : first_index contents q = -1 /\ q ∉ contents \/
  exists k : nat, first_index contents q = Z.of_nat k /\ contents !! k = Some q /\ forall k', (k' < k)%nat -> contents !! k' ≠ Some q.
Proof.
  unfold first_index. destruct (list_find (eq q) contents) as [[k x]|] eqn:E.
  - apply list_find_Some in E as (E & <- & Hn). right. exists k. split_and!; [done|done|]. intros k' Hk E'. by apply (Hn k' q E' Hk).
  - apply list_find_None in E. rewrite Forall_forall in E. left. split; [done|]. intros Hin. by apply (E q Hin).
Qed.

Lemma trie_add_spec trie paths contents t : trie_of trie paths contents -> exists paths', trie_of (trie_add trie (Z.of_nat (length contents)) t) paths' (contents ++ [t]).
Proof.
  intros [T1 T2 T3]. unfold trie_add. case_bool_decide as Ht.
  { exists paths. constructor; [done| |].
    - intros i p Hp Hne. rewrite (T2 i p Hp Hne), first_index_snoc. subst t. rewrite (decide_False (P := p = [])) by done.
      case_decide as H0; [done|]. destruct (first_index_exact contents p) as [[Ei _]|(k & Ei & _)]; lia.
    - intros x. rewrite elem_of_app, list_elem_of_singleton. intros [?| ->] Hne; [by apply T3|done]. }
  destruct (trie_descend_spec t trie paths 0 [] T1 (shaped_root _ _ T1)) as (trie' & new & node & E & H1 & H2 & H3). change (Z.of_nat 0) with 0 in E. rewrite E.
  simpl in H2. rewrite Nat2Z.id. assert (node < length trie')%nat as Hl by (rewrite <-(shaped_length _ _ H1); by eapply lookup_lt_Some).
  assert (forall i p, (paths ++ new) !! i = Some p -> p ≠ [] -> token_index (get_trie trie' (Z.of_nat i)) = first_index contents p) as Hold.
  { intros i p Hp Hne. rewrite H3. apply lookup_app_Some in Hp as [Hp|[Hge Hp]]; [by apply T2|]. rewrite get_trie_nat, lookup_ge_None_2 by (rewrite <-(shaped_length _ _ T1); lia).
    simpl. destruct (first_index_exact contents p) as [[-> _]|(k & _ & Hk & _)]; [done|]. exfalso.
    pose proof (shaped_unique _ _ H1) as Hu. apply NoDup_app in Hu as (_ & Hu & _). apply (Hu p); [|by eapply list_elem_of_lookup_2]. apply T3; [by eapply list_elem_of_lookup_2|done]. }
  exists (paths ++ new). destruct (Z.ltb_spec (token_index (get_trie trie' (Z.of_nat node))) 0) as [Hlt|Hge]; constructor.
  - destruct H1 as [S1 S2 S3 S4 S5]. constructor; [by rewrite length_insert|done| |done|done]. intros i p b Hp. cbv zeta. rewrite get_trie_set by done.
    specialize (S3 i p b Hp). case_decide; [|done]. subst i. done.
  - intros i p Hp Hne. rewrite get_trie_set, first_index_snoc by done. pose proof (Hold i p Hp Hne) as Ho. case_decide as Ei; simpl.
    + subst i. assert (p = t) as -> by congruence. rewrite decide_False by lia. by rewrite decide_True.
    + rewrite Ho. destruct (first_index_exact contents p) as [[-> _]|(k & -> & _)]; [|by rewrite decide_True by lia].
      rewrite decide_False by lia. rewrite decide_False; [done|]. intros ->. apply Ei. by eapply (NoDup_lookup (paths ++ new)); [apply (shaped_unique _ _ H1)|..].
  - intros x. rewrite elem_of_app, list_elem_of_singleton, elem_of_app. intros [?| ->] Hne; [left; by apply T3|]. apply elem_of_app. by eapply list_elem_of_lookup_2.
  - done.
  - intros i p Hp Hne. rewrite first_index_snoc, (Hold i p Hp Hne). case_decide as H0; [done|]. destruct (first_index_exact contents p) as [[E' _]|(k & E' & _)]; [|lia].
    rewrite E'. rewrite decide_False; [done|]. intros ->. rewrite (Hold node t H2 Ht) in Hge. lia.
  - intros x. rewrite elem_of_app, list_elem_of_singleton, elem_of_app. intros [?| ->] Hne; [left; by apply T3|]. apply elem_of_app. by eapply list_elem_of_lookup_2.
Qed.

Lemma trie_add_all_spec contents : forall trie paths done_, trie_of trie paths done_ -> exists paths', trie_of (trie_add_all trie (Z.of_nat (length done_)) contents) paths' (done_ ++ contents).
Proof.
  induction contents as [|t contents IH]; intros trie paths done_ Ht; cbn [trie_add_all]; [exists paths; by rewrite app_nil_r|].
  destruct (trie_add_spec trie paths done_ t Ht) as (paths' & Ht'). destruct (IH _ _ _ Ht') as (paths'' & H). exists paths''. rewrite <-app_assoc in H. simpl in H.
  rewrite length_app in H. simpl in H. replace (Z.of_nat (length done_) + 1) with (Z.of_nat (length done_ + 1)) by lia. done.
Qed.

Lemma build_trie_spec tokens : exists paths, trie_of (build_trie tokens) paths (content <$> tokens).
Proof.
  assert (trie_of [new_trie_node] [[]] []) as H0; [|exact (trie_add_all_spec (content <$> tokens) _ _ _ H0)]. constructor.
  - constructor; try done.
    + intros i p b Hp. destruct i as [|i]; [|done]. simpl in Hp. injection Hp as <-. simpl. rewrite list_elem_of_singleton. done.
    + intros p b. rewrite list_elem_of_singleton. by destruct p.
    + apply NoDup_singleton.
  - intros i p Hp Hne. destruct i; simpl in Hp; [by injection Hp as <-|done].
  - intros t Ht. by apply elem_of_nil in Ht.
Qed.

(** ** The walk *)
Lemma shaped_beginning trie paths p q : shaped trie paths -> p ++ q ∈ paths -> p ∈ paths.
Proof.
  intros Hs. induction q as [|b q IH] using rev_ind; [by rewrite app_nil_r|]. rewrite app_assoc. intros H%(shaped_closed _ _ Hs). by apply IH.
Qed.

(** The index found is the lowest of a token that begins the bytes. *)
Lemma best_match_spec trie paths contents bytes : trie_of trie paths contents -> forall (node : nat) p best, paths !! node = Some p ->
  let r := best_match trie (Z.of_nat node) best bytes in let index j := first_index contents (p ++ take j bytes) in
  (r = best \/ 0 <= r /\ exists j, (0 < j <= length bytes)%nat /\ r = index j) /\ (0 <= best -> 0 <= r <= best) /\
  (forall j, (0 < j <= length bytes)%nat -> 0 <= index j -> 0 <= r <= index j).
Proof.
  intros [T1 T2 T3]. induction bytes as [|byte bytes IH]; intros node p best Hp; cbv zeta.
  { simpl. split_and!; [by left|lia|lia]. }
  cbn [best_match]. pose proof (shaped_next _ _ T1 node p byte Hp) as Hn. cbv zeta in Hn |- *.
  destruct (Z.ltb_spec (trie_next (get_trie trie (Z.of_nat node)) byte) 0) as [Hx|Hx].
  - split_and!; [by left|lia|]. intros [|j] Hj H0; [lia|]. exfalso. apply Hn. apply (shaped_beginning _ _ _ (take j bytes) T1). rewrite <-app_assoc.
    destruct (first_index_exact contents (p ++ take (S j) (byte :: bytes))) as [[E _]|(k & _ & Hk & _)]; [lia|]. apply T3; [by eapply list_elem_of_lookup_2|]. by destruct p.
  - set (child := Z.to_nat (trie_next (get_trie trie (Z.of_nat node)) byte)) in *. rewrite <-(Z2Nat.id (trie_next _ byte)) by lia. fold child.
    pose proof (T2 child _ Hn ltac:(by destruct p)) as Ht. rewrite Ht. set (t := first_index contents (p ++ [byte])) in *.
    set (best' := if (0 <=? t) && _ then t else best). specialize (IH child (p ++ [byte]) best' Hn). cbv zeta in IH. set (r := best_match _ _ _ _) in *.
    assert (forall j, first_index contents ((p ++ [byte]) ++ take j bytes) = first_index contents (p ++ take (S j) (byte :: bytes))) as Hj by (intros j; by rewrite <-app_assoc).
    assert (first_index contents (p ++ take 1 (byte :: bytes)) = t) as H1 by done.
    destruct IH as (I1 & I2 & I3). assert ((best' = best \/ 0 <= t /\ best' = t) /\ (0 <= best -> 0 <= best' <= best) /\ (0 <= t -> 0 <= best' <= t)) as (B1 & B2 & B3).
    { unfold best'. destruct (Z.leb_spec 0 t), (Z.ltb_spec best 0), (Z.ltb_spec t best); simpl; split_and!; lia. }
    simpl length. split_and!; [|lia|].
    + destruct I1 as [E|(Hr & j & Hj' & E)]; [|right; split; [done|]; exists (S j); rewrite E, Hj; split; [lia|done]].
      destruct B1 as [B1|[B0 B1]]; [left; lia|]. right. split; [lia|]. exists 1%nat. rewrite H1. split; lia.
    + intros [|[|j]] Hlt H0; [lia|rewrite H1 in *; lia|]. rewrite <-Hj in *. apply I3; [lia|done].
Qed.

(** At a position: the first token that begins what follows. *)
Lemma best_match_exact tokens bytes : best_match (build_trie tokens) 0 (-1) bytes =
  match list_find (fun t => t ≠ [] /\ t `prefix_of` bytes) (content <$> tokens) with Some (k, _) => Z.of_nat k | None => -1 end.
Proof.
  destruct (build_trie_spec tokens) as (paths & Ht). set (contents := content <$> tokens) in *.
  destruct (best_match_spec _ _ _ bytes Ht 0 [] (-1) (shaped_root _ _ (trie_shape _ _ _ Ht))) as (I1 & _ & I3). change (Z.of_nat 0) with 0 in *. cbv zeta in *.
  set (r := best_match _ 0 (-1) bytes) in *. cbn [app] in *.
  assert (forall k t, contents !! k = Some t -> t ≠ [] -> t `prefix_of` bytes -> 0 <= r <= Z.of_nat k) as Hlow.
  { intros k t Hk Hne Hp. assert (t = take (length t) bytes) as Et by (destruct Hp as (x & ->); by rewrite take_app_length).
    assert (0 < length t <= length bytes)%nat as Hl by (apply prefix_length in Hp; destruct t; [done|]; simpl in *; lia).
    destruct (first_index_exact contents t) as [[_ Hn]|(k' & E & _ & Hmin)]; [by exfalso; apply Hn; eapply list_elem_of_lookup_2|].
    specialize (I3 (length t) Hl). rewrite <-Et, E in I3. assert (k' <= k)%nat; [|lia]. destruct (decide (k < k')%nat); [|lia]. by exfalso; apply (Hmin k). }
  destruct (list_find _ contents) as [[k t]|] eqn:E.
  - apply list_find_Some in E as (Hk & [Hne Hp] & Hmin). specialize (Hlow k t Hk Hne Hp).
    destruct I1 as [?|(_ & j & Hj & Er)]; [lia|]. destruct (first_index_exact contents (take j bytes)) as [[? _]|(k' & E' & Hk' & _)]; [lia|].
    rewrite Er, E' in *. destruct (decide (k' < k)%nat) as [Hlt|]; [|lia]. exfalso. apply (Hmin k' _ Hk' Hlt). split; [|apply prefix_take].
    intros E0. apply (f_equal length) in E0. rewrite length_take in E0. simpl in E0. lia.
  - apply list_find_None in E. rewrite Forall_forall in E. destruct I1 as [->|(Hr & j & Hj & Er)]; [done|].
    destruct (first_index_exact contents (take j bytes)) as [[? _]|(k' & E' & Hk' & _)]; [lia|]. exfalso. apply (E (take j bytes)); [by eapply list_elem_of_lookup_2|].
    split; [|apply prefix_take]. intros E0. apply (f_equal length) in E0. rewrite length_take in E0. simpl in E0. lia.
Qed.

(** ** The search *)
Fixpoint spans_ok (size previous_end : nat) (spans : list ByteSpan) : Prop :=
  match spans with
  | [] => True
  | span :: spans => (previous_end <= span_begin span < span_end span)%nat /\ (span_end span <= size)%nat /\ spans_ok size (span_end span) spans
  end.

Lemma validate_spans_exact size spans : forall previous_end,
  validate_spans size previous_end spans = Ok tt /\ spans_ok size previous_end spans \/ validate_spans size previous_end spans = Throw invalid_argument /\ ~ spans_ok size previous_end spans.
Proof.
  induction spans as [|span spans IH]; intros previous_end; [by left|]. cbn [validate_spans spans_ok].
  destruct (Nat.leb_spec (span_end span) (span_begin span)); [right; split; [done|lia]|]. destruct (Nat.ltb_spec size (span_end span)); [right; split; [done|lia]|].
  destruct (Nat.ltb_spec (span_begin span) previous_end); [right; split; [done|lia]|]. simpl. destruct (IH (span_end span)) as [[E ?]|[E ?]]; rewrite E; [left|right]; split; (done || tauto || lia).
Qed.

Lemma spans_ok_app size prev a b : spans_ok size prev (a ++ b) -> exists prev', spans_ok size prev' b /\ (prev <= prev')%nat /\ Forall (fun span => (span_end span <= prev')%nat) a.
Proof.
  revert prev. induction a as [|x a IH]; intros prev; simpl; [intros H; exists prev; split_and!; [done|done|constructor]|].
  intros (H1 & H2 & H3). destruct (IH _ H3) as (prev' & ? & ? & ?). exists prev'. split_and!; [done|lia|]. constructor; [lia|done].
Qed.

Lemma spans_ok_after size prev spans : spans_ok size prev spans -> Forall (fun span => (prev <= span_begin span)%nat /\ (span_begin span < span_end span <= size)%nat) spans.
Proof.
  revert prev. induction spans as [|x spans IH]; intros prev; simpl; [constructor|]. intros (H1 & H2 & H3). constructor; [lia|].
  eapply Forall_impl; [by apply IH|]. simpl. intros y ?. lia.
Qed.

Lemma run_split {A} (p : A -> bool) l : Forall (fun x => p x = true) (take (run p l) l) /\ match drop (run p l) l with x :: _ => p x = false | [] => True end.
Proof. induction l as [|x l [I1 I2]]; [done|]. simpl. destruct (p x) eqn:E; simpl; [|done]. split; [by constructor|done]. Qed.

Lemma leftmost_skip contents text spans m i : (i <= m <= length text)%nat -> (forall j, (i <= j < m)%nat -> list_find (lies_at text spans j) contents = None) ->
  leftmost contents text spans i (length text - i) = leftmost contents text spans m (length text - m).
Proof.
  intros [Hi Hm] H. remember (m - i)%nat as d eqn:Ed. revert i Hi Ed H. induction d as [|d IH]; intros i Hi Ed H; [by assert (i = m) as -> by lia|].
  replace (length text - i)%nat with (S (length text - S i)) by lia. cbn [leftmost]. rewrite H by lia. apply IH; [lia|lia|]. intros j Hj. apply H. lia.
Qed.

(** The search at one position, up to a limit that keeps out of the spans. *)
Lemma position_search tokens text spans i limit : (i <= limit)%nat ->
  (forall t, t ≠ [] -> t `prefix_of` drop i text -> Forall (fun span => (span_end span <= i)%nat \/ (i + length t <= span_begin span)%nat) spans <-> (i + length t <= limit)%nat) ->
  best_match (build_trie tokens) 0 (-1) (take (limit - i) (drop i text)) =
    match list_find (lies_at text spans i) (content <$> tokens) with Some (k, _) => Z.of_nat k | None => -1 end.
Proof.
  intros Hi Hl. rewrite best_match_exact. erewrite list_find_ext; [done|]. intros t. unfold lies_at. split.
  - intros (Hne & Hp). assert (t `prefix_of` drop i text) as Hp' by (etransitivity; [done|apply prefix_take]). split_and!; [done|done|]. apply Hl; [done|done|].
    apply prefix_length in Hp. rewrite length_take in Hp. lia.
  - intros (Hne & Hp & Hs). split; [done|]. apply Hl in Hs; [|done|done]. destruct Hp as (x & ->). rewrite take_app_ge by lia. by eexists.
Qed.

Lemma no_start tokens text spans i byte : text !! i = Some byte -> start_bytes tokens byte = false -> list_find (lies_at text spans i) (content <$> tokens) = None.
Proof.
  intros Hb Hs. apply list_find_None, Forall_fmap, Forall_forall. intros t Ht. unfold compose, lies_at. intros (Hne & (x & E) & _).
  unfold start_bytes in Hs. rewrite <-not_true_iff_false, existsb_exists in Hs. apply Hs. exists t. split; [by apply list_elem_of_In|].
  rewrite (drop_S _ _ _ Hb) in E. destruct (content t); [done|]. injection E as -> _. apply Z.eqb_refl.
Qed.

Lemma find_loop_spec tokens text spans : spans_ok (length text) 0 spans -> forall fuel i passed literal, spans = passed ++ literal -> (length text <= i + fuel)%nat ->
  Forall (fun span => (span_end span <= i)%nat) passed ->
  find_loop fuel (build_trie tokens) (start_bytes tokens) text i literal = leftmost (content <$> tokens) text spans i (length text - i).
Proof.
  intros Hv. induction fuel as [|fuel IH]; intros i passed literal Es Hf Hd; cbn [find_loop]; [by replace (length text - i)%nat with 0%nat by lia|].
  destruct (text !! i) as [byte|] eqn:Hb; [|apply lookup_ge_None_1 in Hb; by replace (length text - i)%nat with 0%nat by lia].
  pose proof (lookup_lt_Some _ _ _ Hb) as Hi. assert (forall passed', Forall (fun span => (span_end span <= i)%nat) passed' -> Forall (fun span => (span_end span <= S i)%nat) passed') as Hlater
    by (intros passed' H; eapply Forall_impl; [exact H|simpl; lia]).
  destruct (start_bytes tokens byte) eqn:Eb; cbn [negb].
  2:{ rewrite (IH (S i) passed) by (done || lia || auto). symmetry. apply leftmost_skip; [lia|]. intros j Hj. assert (j = i) as -> by lia. by eapply no_start. }
  destruct (run_split (ends_by i) literal) as [R1 R2]. rewrite <-(take_drop (run (ends_by i) literal) literal), app_assoc in Es. set (passed' := passed ++ _) in Es.
  assert (Forall (fun span => (span_end span <= i)%nat) passed') as Hd'.
  { unfold passed'. apply Forall_app. split; [done|]. eapply Forall_impl; [exact R1|]. intros span. apply Nat.leb_le. }
  assert (forall limit literal', spans = passed' ++ literal' -> (i <= limit)%nat -> (forall t, t ≠ [] -> t `prefix_of` drop i text ->
      Forall (fun span => (span_end span <= i)%nat \/ (i + length t <= span_begin span)%nat) literal' <-> (i + length t <= limit)%nat) ->
    (let best := best_match (build_trie tokens) 0 (-1) (take (limit - i) (drop i text)) in
     if 0 <=? best then Some (i, best) else find_loop fuel (build_trie tokens) (start_bytes tokens) text (S i) literal') =
    leftmost (content <$> tokens) text spans i (length text - i)) as Hsearch.
  { intros limit literal' El Hlim Hiff. cbv zeta. rewrite (position_search tokens text spans i limit Hlim).
    2:{ intros t Hne Hp. rewrite El, Forall_app, <-(Hiff t Hne Hp). split; [tauto|]. intros H. split; [|done]. eapply Forall_impl; [exact Hd'|simpl; lia]. }
    replace (length text - i)%nat with (S (length text - S i)) by lia. cbn [leftmost]. destruct (list_find _ _) as [[k t]|]; [by destruct (Z.leb_spec 0 (Z.of_nat k)); [|lia]|].
    simpl. apply (IH (S i) passed'); [done|lia|auto]. }
  set (literal' := drop (run (ends_by i) literal) literal) in *. clearbody literal' passed'. destruct literal' as [|span literal'].
  { apply Hsearch; [done|lia|]. intros t _ Hp. split; [|intros; constructor]. intros _. apply prefix_length in Hp. rewrite length_drop in Hp. lia. }
  unfold ends_by in R2. apply Nat.leb_gt in R2. rewrite Es in Hv. apply spans_ok_app in Hv as (prev & Hv & _). destruct Hv as (V1 & V2 & V3). apply spans_ok_after in V3.
  destruct (Nat.leb_spec (span_begin span) i) as [Hle|Hgt].
  - replace (S (span_end span - 1)) with (span_end span) by lia. rewrite (IH (span_end span) passed') by (done || lia || (eapply Forall_impl; [exact Hd'|simpl; lia])).
    symmetry. apply leftmost_skip; [lia|]. intros j Hj. apply list_find_None, Forall_forall. intros t _ (Hne & _ & Hs). rewrite Es, Forall_app, Forall_cons in Hs.
    destruct Hs as (_ & Hs & _). destruct t; [done|]. simpl in Hs. lia.
  - apply Hsearch; [done|lia|]. intros t Hne _. rewrite Forall_cons. split; [intros [? _]; destruct t; [done|]; simpl in *; lia|]. intros Hl. split; [lia|].
    eapply Forall_impl; [exact V3|]. simpl. intros y ?. lia.
Qed.

Lemma validate_literal_spans_ok text spans : validate_literal_spans text spans = Ok tt <-> spans_ok (length text) 0 spans.
Proof. unfold validate_literal_spans. destruct (validate_spans_exact (length text) spans 0) as [[-> ?]|[-> ?]]; done. Qed.

Lemma find_leftmost tokens text pos spans : spans_ok (length text) 0 spans ->
  find_leftmost_added (build_trie tokens) (start_bytes tokens) text pos spans = leftmost (content <$> tokens) text spans pos (length text - pos).
Proof.
  intros Hok. unfold find_leftmost_added. destruct (run_split (ends_by pos) spans) as [R1 _]. apply (find_loop_spec tokens text spans Hok _ _ (take (run (ends_by pos) spans) spans)).
  - by rewrite take_drop.
  - lia.
  - eapply Forall_impl; [exact R1|]. intros span. apply Nat.leb_le.
Qed.

(** The token found: it lies at its position, none before it in the list does, and none
    lies at an earlier position. *)
Definition found_at (contents : list (list Z)) (text : list Z) (spans : list ByteSpan) (pos : nat) (found : option (nat * Z)) : Prop :=
  match found with
  | Some (i, k) => exists (j : nat) t, k = Z.of_nat j /\ (pos <= i < length text)%nat /\ contents !! j = Some t /\ lies_at text spans i t /\
      (forall j' t', (j' < j)%nat -> contents !! j' = Some t' -> ~ lies_at text spans i t') /\
      (forall i' t', (pos <= i' < i)%nat -> t' ∈ contents -> ~ lies_at text spans i' t')
  | None => forall i t, (pos <= i)%nat -> t ∈ contents -> ~ lies_at text spans i t
  end.

Lemma lies_at_inside text spans i t : lies_at text spans i t -> (i < length text)%nat.
Proof. intros (Hne & Hp & _). apply prefix_length in Hp. rewrite length_drop in Hp. destruct t; [done|]. simpl in Hp. lia. Qed.

Lemma leftmost_found contents text spans pos : found_at contents text spans pos (leftmost contents text spans pos (length text - pos)).
Proof.
  remember (length text - pos)%nat as n eqn:En. revert pos En. induction n as [|n IH]; intros pos En; cbn [leftmost].
  { intros i t Hi _ Hl%lies_at_inside. lia. }
  assert (list_find (lies_at text spans pos) contents = None -> forall t, t ∈ contents -> ~ lies_at text spans pos t) as Hnone.
  { intros E%list_find_None t Ht. rewrite Forall_forall in E. by apply E. }
  destruct (list_find _ contents) as [[j t]|] eqn:E.
  - apply list_find_Some in E as (Hj & Hl & Hmin). exists j, t. split_and!; [done|lia|apply lies_at_inside in Hl; lia|done|done| |lia]. intros j' t' Hlt Hj'. by apply (Hmin j' t').
  - specialize (Hnone eq_refl). specialize (IH (S pos) ltac:(lia)). destruct (leftmost _ _ _ _ n) as [[i k]|]; simpl in *.
    + destruct IH as (j & t & -> & H2 & H3 & H4 & H5 & H6). exists j, t. split_and!; [done|lia|lia|done|done|done|]. intros i' t' Hi'.
      destruct (decide (i' = pos)) as [->|]; [apply Hnone|apply H6; lia].
    + intros i t Hi. destruct (decide (i = pos)) as [->|]; [apply Hnone|apply IH; lia].
Qed.

(** C19: the search through the trie finds the leftmost position at which an added token
    lies in the text without touching a literal span, and there the first such token of
    the list; when it finds nothing there is none from the position on. *)
Theorem find_leftmost_exact tokens text pos spans : validate_literal_spans text spans = Ok tt ->
  found_at (content <$> tokens) text spans pos (find_leftmost_added (build_trie tokens) (start_bytes tokens) text pos spans).
Proof. intros Hv%validate_literal_spans_ok. rewrite find_leftmost by done. apply leftmost_found. Qed.

(** [<a>] and [<a], of which the first comes first; the literal span hides the first
    occurrence. *)
Definition demo_added : list AddedToken := [MkAdded 7 [60; 97; 62] false false false false true; MkAdded 8 [60; 97] false false false false true].

Lemma find_leftmost_exact_witness :
  find_leftmost_added (build_trie demo_added) (start_bytes demo_added) [120; 60; 97; 62; 60; 97; 62; 60; 97] 0 [MkByteSpan 2 3] = Some (4%nat, 0) /\
  found_at (content <$> demo_added) [120; 60; 97; 62; 60; 97; 62; 60; 97] [MkByteSpan 2 3] 0 (Some (4%nat, 0)).
Proof. split; [reflexivity|]. apply (find_leftmost_exact demo_added [120; 60; 97; 62; 60; 97; 62; 60; 97] 0 [MkByteSpan 2 3]). reflexivity. Defined.
