(* ===== verification/TokenEncode.v ===== *)
(** * Encoding and decoding

    tokenizer.cpp: [Tokenizer::encode] cuts a text at its added tokens and encodes what is
    between them word by word; it marks how many tokens a prefix of the text takes, and
    [is_encode_loop_pos] tells which prefixes it can mark.  [Tokenizer::decode] is a lookup
    in the decode table.

    A prefix that is marked is encoded on its own: the tokens of the text are those of the
    prefix followed by those of the rest. *)

From stdpp Require Import prelude functions list list_numbers.
From Stdlib Require Import ZArith Lia.
From S2P Require Import Prelude Utf8 OutputSession TokenBpe TokenMerge TokenSplit TokenAdded.
#[local] Open Scope Z_scope.

(** utf8proc's [utf8proc_map] with the options of NFC, and [utf8proc_encode_char]; [None]
    is an error. *)
Class Utf8procText : Type := {
  utf8proc_map : list Z -> option (list Z);
  utf8proc_encode_char : Z -> option (list Z);
}.

(** The tables of class [Tokenizer]; arrays indexed by the byte are functions. *)
Record TokenizerTables : Type := MkTokenizer {
  decoded_bytes : list Z;
  decoded_offsets : list nat;
  valid_token_ids : list bool;
  special_token_ids : list bool;
  added_token_ids : list bool;
  bpe_pair_table : BpePairTable;
  intern_emit_ids : list Z;
  intern_emit_offsets : list nat;
  byte_to_intern_id : Z -> Z;
  has_bpe_merges : bool;
  added_tokens : list AddedToken;
  added_trie : list AddedTrieNode;
  added_start_bytes : Z -> bool;
  default_stop_token_ids : list Z;
}.

Record EncodedText : Type := MkEncoded { ids : list Z; prefix_tokens : option Z }.

Section Encode.
Context {H : Heap} {U : Utf8proc} {M : Utf8procText}.

Definition normalize_nfc (text : list Z) : res (list Z) := match utf8proc_map text with Some mapped => Ok mapped | None => Throw invalid_argument end.

Section Tables.
Context (t : TokenizerTables).

(** What the words append, in order. *)
Fixpoint append_words (words : list (list Z)) : res (list Z) :=
  match words with
  | [] => Ok []
  | word :: words =>
      a ← append_bpe_word (bpe_pair_table t) (byte_to_intern_id t) (intern_emit_ids t) (intern_emit_offsets t) word;
      b ← append_words words;
      Ok (a ++ b)
  end.

(** What [append_bpe_ids] appends. *)
Definition append_bpe_ids (text : list Z) : res (list Z) :=
  if bool_decide (text = []) then Ok []
  else
    throw_if (negb (has_bpe_merges t)) invalid_argument ;;
    normalized ← (if is_ascii text then Ok text else normalize_nfc text);
    words ← for_each_qwen_word normalized;
    append_words words.

(** The lambda [mark_prefix]. *)
Definition mark_prefix (prefix_byte_end : option nat) (byte_pos : nat) (encoded : EncodedText) : EncodedText :=
  match prefix_byte_end, prefix_tokens encoded with
  | Some n, None => if (byte_pos =? n)%nat then MkEncoded (ids encoded) (Some (wrap32 (Z.of_nat (length (ids encoded))))) else encoded
  | _, _ => encoded
  end.

Definition append (encoded : EncodedText) (tokens : list Z) : EncodedText := MkEncoded (ids encoded ++ tokens) (prefix_tokens encoded).

(** The loop from [pos].  A token is not empty, so as many iterations as bytes are
    enough. *)
Fixpoint encode_loop (fuel : nat) (text : list Z) (prefix_byte_end : option nat) (literal_spans : list ByteSpan) (pos : nat) (encoded : EncodedText)
    : res EncodedText :=
  match fuel with
  | O => Ok encoded
  | S fuel =>
      if (pos <? length text)%nat then
        match find_leftmost_added (added_trie t) (added_start_bytes t) text pos literal_spans with
        | None =>
            tokens ← append_bpe_ids (drop pos text);
            Ok (mark_prefix prefix_byte_end (length text) (append encoded tokens))
        | Some (match_pos, match_index) =>
            match added_tokens t !! Z.to_nat match_index with
            | None => Throw undefined
            | Some match_token =>
                encoded ← (if (pos <? match_pos)%nat then
                             tokens ← append_bpe_ids (take (match_pos - pos) (drop pos text));
                             Ok (mark_prefix prefix_byte_end match_pos (append encoded tokens))
                           else Ok encoded);
                let encoded := append encoded [added_id match_token] in
                let pos := (match_pos + length (content match_token))%nat in
                encode_loop fuel text prefix_byte_end literal_spans pos (mark_prefix prefix_byte_end pos encoded)
            end
        end
      else Ok encoded
  end.

Definition encode (text : list Z) (prefix_byte_end : option nat) (parse_added_tokens : bool) (literal_spans : list ByteSpan) : res EncodedText :=
  let encoded := MkEncoded [] None in
  if bool_decide (text = []) then Ok encoded
  else
    let encoded := mark_prefix prefix_byte_end 0 encoded in
    if negb parse_added_tokens then
      tokens ← append_bpe_ids text;
      Ok (mark_prefix prefix_byte_end (length text) (append encoded tokens))
    else
      validate_literal_spans text literal_spans ;;
      encode_loop (length text) text prefix_byte_end literal_spans 0 encoded.

Fixpoint loop_pos (fuel : nat) (text : list Z) (n : nat) (literal_spans : list ByteSpan) (pos : nat) : res bool :=
  match fuel with
  | O => Ok false
  | S fuel =>
      if (pos <? length text)%nat then
        match find_leftmost_added (added_trie t) (added_start_bytes t) text pos literal_spans with
        | None => Ok false
        | Some (match_pos, match_index) =>
            if (pos <? match_pos)%nat && (n =? match_pos)%nat then Ok true
            else if (pos <? match_pos)%nat && (n <? match_pos)%nat then Ok false
            else
              match added_tokens t !! Z.to_nat match_index with
              | None => Throw undefined
              | Some match_token =>
                  let pos := (match_pos + length (content match_token))%nat in
                  if (n =? pos)%nat then Ok true
                  else if (n <? pos)%nat then Ok false
                  else loop_pos fuel text n literal_spans pos
              end
        end
      else Ok false
  end.

Definition is_encode_loop_pos (text : list Z) (n : nat) (parse_added_tokens : bool) (literal_spans : list ByteSpan) : res bool :=
  if (n =? 0)%nat || (n =? length text)%nat then Ok true
  else if (length text <? n)%nat then Ok false
  else if negb parse_added_tokens then Ok false
  else
    validate_literal_spans text literal_spans ;;
    loop_pos (length text) text n literal_spans 0.

(** ** Decoding *)
Definition flag_at (flags : list bool) (id : Z) : bool := (0 <=? id) && default false (flags !! Z.to_nat id).

Definition is_special_token (id : Z) : bool := flag_at (special_token_ids t) id.
Definition tokenizer_is_valid_token (id : Z) : bool := flag_at (valid_token_ids t) id.
Definition has_exact_token_domain (size : nat) : bool := (length (valid_token_ids t) =? size)%nat && forallb id (valid_token_ids t).

Definition tokenizer_decode_token_bytes (id : Z) (skip_special_tokens : bool) : res (list Z) :=
  if skip_special_tokens && is_special_token id then Ok []
  else
    throw_if (id <? 0) invalid_argument ;;
    throw_if (negb (flag_at (valid_token_ids t) id) || (length (decoded_offsets t) <=? S (Z.to_nat id))%nat) out_of_range ;;
    let begin := default 0%nat (decoded_offsets t !! Z.to_nat id) in
    let end_ := default 0%nat (decoded_offsets t !! S (Z.to_nat id)) in
    throw_if ((end_ <? begin)%nat || (length (decoded_bytes t) <? end_)%nat) logic_error ;;
    Ok (take (end_ - begin) (drop begin (decoded_bytes t))).

Fixpoint decode_all (ids : list Z) (skip_special_tokens : bool) : res (list Z) :=
  match ids with
  | [] => Ok []
  | id :: ids =>
      a ← tokenizer_decode_token_bytes id skip_special_tokens;
      b ← decode_all ids skip_special_tokens;
      Ok (a ++ b)
  end.

(** A stop token that ends the tokens is left out. *)
Definition decode (ids : list Z) (skip_special_tokens : bool) (stop_token_ids : list Z) : res (list Z) :=
  let terminal_stop := match last ids with Some id => bool_decide (id ∈ stop_token_ids) | None => false end in
  text ← decode_all (if terminal_stop then take (length ids - 1) ids else ids) skip_special_tokens;
  utf8_codepoints text ;;
  Ok text.

(** The tokenizer of an output session. *)
#[export] Instance frontend_tokenizer : Tokenizer := {| is_valid_token := tokenizer_is_valid_token; decode_token_bytes := tokenizer_decode_token_bytes |}.

End Tables.
End Encode.

(** ** The pieces of a text

    Between the added tokens are gaps; a piece has the position where it stops. *)
Inductive Piece : Type := Gap (from stop : nat) | Tok (index stop : nat).

Definition stop (p : Piece) : nat := match p with Gap _ e | Tok _ e => e end.

(** The literal spans on each side of a position that none of them crosses. *)
Definition spans_before (n : nat) (spans : list ByteSpan) : list ByteSpan := filter (fun x => span_end x <= n)%nat spans.
Definition spans_after (n : nat) (spans : list ByteSpan) : list ByteSpan :=
  (fun x => MkByteSpan (span_begin x - n) (span_end x - n)) <$> filter (fun x => n <= span_begin x)%nat spans.
Definition apart (n : nat) (spans : list ByteSpan) : Prop := Forall (fun x => (span_end x <= n)%nat \/ (n <= span_begin x)%nat) spans.

Lemma spans_ok_weaken size prev prev' spans : (prev <= prev')%nat -> spans_ok size prev' spans -> spans_ok size prev spans.
Proof. destruct spans as [|x spans]; [done|]. simpl. intros ? (? & ?). split; [lia|done]. Qed.

Lemma spans_ok_after_cut n size prev spans : spans_ok size prev spans -> spans_ok (size - n) (prev - n) (spans_after n spans).
Proof.
  revert prev. induction spans as [|x spans IH]; intros prev; [done|]. simpl. intros (H1 & H2 & H3). unfold spans_after. rewrite filter_cons. case_decide as Hd.
  - rewrite fmap_cons. simpl. split_and!; [lia|lia|lia|]. by apply IH.
  - apply IH in H3. eapply (spans_ok_weaken _ _ (span_end x - n)); [|exact H3]. lia.
Qed.

Section Pieces.
Context (contents : list (list Z)).
Implicit Types (text : list Z) (spans : list ByteSpan) (ps : list Piece).

Abbreviation leftmost_from text spans pos := (leftmost contents text spans pos (length text - pos)).

Inductive pieces text spans : nat -> list Piece -> Prop :=
| pieces_done pos : (length text <= pos)%nat -> pieces text spans pos []
| pieces_last pos : (pos < length text)%nat -> leftmost_from text spans pos = None -> pieces text spans pos [Gap pos (length text)]
| pieces_gap pos m k ps : leftmost_from text spans pos = Some (m, k) -> (pos < m)%nat -> pieces text spans m ps -> pieces text spans pos (Gap pos m :: ps)
| pieces_tok pos k c ps : leftmost_from text spans pos = Some (pos, Z.of_nat k) -> contents !! k = Some c -> pieces text spans (pos + length c) ps ->
    pieces text spans pos (Tok k (pos + length c) :: ps).

(** The search from a position depends on the tokens that lie at it or after it. *)
Lemma leftmost_unique text spans pos found : found_at contents text spans pos found -> leftmost_from text spans pos = found.
Proof.
  intros Hf. pose proof (leftmost_found contents text spans pos) as Hl. destruct (leftmost_from text spans pos) as [[i k]|], found as [[i' k']|]; simpl in *; [| | |done].
  - destruct Hl as (j & x & -> & H1 & H2 & H3 & H4 & H5), Hf as (j' & x' & -> & H1' & H2' & H3' & H4' & H5').
    assert (i = i') as <-.
    { destruct (decide (i < i')%nat); [exfalso; apply (H5' i x); [lia|by eapply list_elem_of_lookup_2|done]|].
      destruct (decide (i' < i)%nat); [exfalso; apply (H5 i' x'); [lia|by eapply list_elem_of_lookup_2|done]|lia]. }
    destruct (decide (j < j')%nat); [by exfalso; apply (H4' j x)|]. destruct (decide (j' < j)%nat); [by exfalso; apply (H4 j' x')|]. by assert (j = j') as -> by lia.
  - destruct Hl as (j & x & -> & H1 & H2 & H3 & _). exfalso. apply (Hf i x); [lia|by eapply list_elem_of_lookup_2|done].
  - destruct Hf as (j & x & -> & H1 & H2 & H3 & _). exfalso. apply (Hl i' x); [lia|by eapply list_elem_of_lookup_2|done].
Qed.

Lemma leftmost_some text spans pos m k : leftmost_from text spans pos = Some (m, k) -> leftmost_from text spans m = Some (m, k) /\
  (pos <= m < length text)%nat /\ exists j c, k = Z.of_nat j /\ contents !! j = Some c /\ lies_at text spans m c /\ (m + length c <= length text)%nat /\ (0 < length c)%nat.
Proof.
  intros E. pose proof (leftmost_found contents text spans pos) as Hf. rewrite E in Hf. destruct Hf as (j & c & -> & H1 & H2 & H3 & H4 & H5). split_and!; [|lia|lia|].
  - apply leftmost_unique. exists j, c. split_and!; [done|lia|lia|done|done|done|lia].
  - exists j, c. destruct H3 as (Hne & Hp & Hs). split_and!; try done; [apply prefix_length in Hp; rewrite length_drop in Hp; lia|destruct c; [done|simpl; lia]].
Qed.

Lemma pieces_total text spans pos : exists ps, pieces text spans pos ps.
Proof.
  remember (length text - pos)%nat as n eqn:En. revert pos En. induction n as [n IH] using lt_wf_ind. intros pos ->.
  destruct (decide (length text <= pos)%nat) as [Hd|Hlt]; [exists []; by constructor|].
  destruct (leftmost_from text spans pos) as [[m k]|] eqn:E; [|exists [Gap pos (length text)]; constructor; [lia|done]].
  destruct (leftmost_some _ _ _ _ _ E) as (Em & Hm & j & c & -> & Hc & _ & Hl & H0).
  destruct (IH (length text - (m + length c))%nat ltac:(lia) (m + length c)%nat eq_refl) as (ps & Hps). pose proof (pieces_tok _ _ _ _ _ _ Em Hc Hps) as Ht.
  destruct (decide (pos = m)) as [->|]; [by eexists|]. eexists. eapply pieces_gap; [exact E|lia|exact Ht].
Qed.

Lemma pieces_unique text spans pos ps ps' : pieces text spans pos ps -> pieces text spans pos ps' -> ps = ps'.
Proof.
  intros Hp. revert ps'. induction Hp as [pos Hd|pos Hlt E|pos m k ps E Hm Hp IH|pos k c ps E Hc Hp IH]; intros ps'; inversion 1 as [? Hd'|? Hlt' E'|? m' k' ps2 E' Hm' Hp'|? k' c' ps2 E' Hc' Hp'];
    subst; try done; try lia; try congruence;
    repeat match goal with Hx : leftmost _ _ _ _ _ = Some _ |- _ => pose proof (proj1 (proj2 (leftmost_some _ _ _ _ _ Hx))); revert Hx end; intros; try lia; try congruence.
  - assert (m' = m) as -> by congruence. f_equal. by apply IH.
  - assert (pos = m) by congruence. lia.
  - assert (pos = m') by congruence. lia.
  - assert (k' = k) as -> by (apply Nat2Z.inj; congruence). assert (c' = c) as -> by congruence. f_equal. by apply IH.
Qed.

Lemma pieces_stops text spans pos ps : pieces text spans pos ps -> (pos <= length text)%nat -> Forall (fun p => (pos < stop p <= length text)%nat) ps.
Proof.
  induction 1 as [pos Hd|pos Hlt E|pos m k ps E Hm Hp IH|pos k c ps E Hc Hp IH]; intros Hle; [constructor|constructor; [simpl; lia|constructor]| |].
  - apply leftmost_some in E as (_ & ? & _). constructor; [simpl; lia|]. eapply Forall_impl; [apply IH; lia|simpl; lia].
  - apply leftmost_some in E as (_ & ? & j & c' & Ek & Hc' & _ & Hl & H0). assert (j = k) as -> by lia. assert (c' = c) as -> by congruence.
    constructor; [simpl; lia|]. eapply Forall_impl; [apply IH; lia|simpl; lia].
Qed.

(** ** Cutting a text between two pieces *)
Lemma lies_at_cut n text spans i t : (n <= length text)%nat -> apart n spans ->
  lies_at (take n text) (spans_before n spans) i t <-> lies_at text spans i t /\ (i + length t <= n)%nat.
Proof.
  intros Hn Ha. unfold lies_at. unfold apart in Ha. rewrite Forall_forall in Ha.
  assert (t ≠ [] -> t `prefix_of` drop i (take n text) <-> t `prefix_of` drop i text /\ (i + length t <= n)%nat) as Hp.
  { intros Hne. assert (0 < length t)%nat as Ht by (destruct t; [done|simpl; lia]). destruct (decide (i <= n)%nat) as [Hi|Hi].
    - rewrite <-(take_drop n text) at 2. rewrite drop_app_le by (rewrite length_take; lia). split.
      + intros Hp. apply prefix_length in Hp as Hl. rewrite length_drop, length_take in Hl. split; [by apply prefix_app_r|lia].
      + intros [(x & E) Hl]. assert (t = take (length t) (drop i (take n text))) as ->; [|apply prefix_take].
        rewrite <-(take_app_le _ (drop n text)), E, take_app_length by (rewrite length_drop, length_take; lia). done.
    - split; [|lia]. intros Hp%prefix_length. rewrite length_drop, length_take in Hp. lia. }
  split.
  - intros (Hne & Hpre & Hs). apply Hp in Hpre as [Hpre Hl]; [|done]. split; [|done]. split_and!; [done|done|]. apply Forall_forall. intros x Hx.
    destruct (Ha x Hx) as [He|Hb]; [|right; lia]. rewrite Forall_forall in Hs. apply Hs. by apply list_elem_of_filter.
  - intros [(Hne & Hpre & Hs) Hl]. split_and!; [done|by apply Hp|]. rewrite Forall_forall in Hs |- *. intros x [_ Hx]%list_elem_of_filter. by apply Hs.
Qed.

Lemma lies_at_shift n text spans i t : apart n spans -> lies_at text spans (n + i) t <-> lies_at (drop n text) (spans_after n spans) i t.
Proof.
  intros Ha. unfold lies_at. rewrite drop_drop. assert (Forall (fun x => (span_end x <= n + i)%nat \/ (n + i + length t <= span_begin x)%nat) spans <->
    Forall (fun x => (span_end x <= i)%nat \/ (i + length t <= span_begin x)%nat) (spans_after n spans)) as ->; [|done].
  unfold spans_after. rewrite Forall_fmap. unfold compose. simpl. unfold apart in Ha. rewrite Forall_forall in Ha. rewrite !Forall_forall. split.
  - intros Hs x [Hb Hx]%list_elem_of_filter. specialize (Hs x Hx). lia.
  - intros Hs x Hx. destruct (Ha x Hx) as [He|Hb]; [left; lia|]. specialize (Hs x ltac:(by apply list_elem_of_filter)). lia.
Qed.

Lemma leftmost_cut n text spans pos m (k : nat) c : (n <= length text)%nat -> apart n spans -> contents !! k = Some c -> (m + length c <= n)%nat ->
  leftmost_from text spans pos = Some (m, Z.of_nat k) -> leftmost_from (take n text) (spans_before n spans) pos = Some (m, Z.of_nat k).
Proof.
  intros Hn Ha Hc Hm E. pose proof (leftmost_found contents text spans pos) as Hf. rewrite E in Hf. destruct Hf as (j & x & Ej & H1 & H2 & H3 & H4 & H5).
  assert (j = k) as -> by lia. assert (x = c) as -> by congruence. apply leftmost_unique. exists k, c. assert (lies_at (take n text) (spans_before n spans) m c) as Hl by (by apply lies_at_cut).
  split_and!; [done|lia|by apply lies_at_inside in Hl|done|done| |].
  - intros j' t' Hj' Et Hl'. apply lies_at_cut in Hl' as [Hl' _]; [|done|done]. by apply (H4 j' t').
  - intros i' t' Hi Ht Hl'. apply lies_at_cut in Hl' as [Hl' _]; [|done|done]. by apply (H5 i' t').
Qed.

Lemma leftmost_cut_none n text spans pos m : (n <= length text)%nat -> apart n spans -> (n <= m)%nat ->
  (leftmost_from text spans pos = None \/ exists k, leftmost_from text spans pos = Some (m, k)) -> leftmost_from (take n text) (spans_before n spans) pos = None.
Proof.
  intros Hn Ha Hm E. apply leftmost_unique. intros i t Hi Ht Hl. apply lies_at_cut in Hl as [Hl Hln]; [|done|done]. pose proof (leftmost_found contents text spans pos) as Hf.
  destruct E as [E|(k & E)]; rewrite E in Hf; [by apply (Hf i t)|]. destruct Hf as (j & c & _ & _ & _ & _ & _ & H5). apply (H5 i t); [|done|done].
  destruct Hl as (Hne & _). destruct t; [done|]. simpl in Hln. lia.
Qed.

Lemma pieces_tail text spans pos ps1 p ps2 : spans_ok (length text) 0 spans -> pieces text spans pos (ps1 ++ p :: ps2) -> apart (stop p) spans /\ pieces text spans (stop p) ps2.
Proof.
  intros Hok. revert pos. induction ps1 as [|q ps1 IH]; intros pos; [|simpl; inversion 1; subst; eauto; by destruct ps1].
  simpl. inversion 1 as [|? Hlt E|? m k ? E Hm Hp|? k c ? E Hc Hp]; subst; simpl.
  - split; [|constructor; done]. apply spans_ok_after in Hok. eapply Forall_impl; [exact Hok|]. simpl. intros x ?. left. lia.
  - split; [|done]. apply leftmost_some in E as (_ & _ & j & c & _ & _ & (_ & _ & Hs) & _). eapply Forall_impl; [exact Hs|]. simpl. intros x ?. lia.
  - split; [|done]. apply leftmost_some in E as (_ & _ & j & c' & Ej & Hc' & (_ & _ & Hs) & _). assert (j = k) as -> by lia. assert (c' = c) as -> by congruence.
    eapply Forall_impl; [exact Hs|]. simpl. intros x ?. lia.
Qed.

Lemma pieces_head n text spans ps1 p ps2 : (n <= length text)%nat -> apart n spans -> stop p = n -> forall pos, (pos <= length text)%nat -> pieces text spans pos (ps1 ++ p :: ps2) ->
  Forall (fun q => (stop q <= n)%nat) ps1 -> pieces (take n text) (spans_before n spans) pos (ps1 ++ [p]).
Proof.
  intros Hn Ha Hp. assert (length (take n text) = n) as Hlen by (rewrite length_take; lia). induction ps1 as [|q ps1 IH]; intros pos Hpos Hps Hle; simpl in *.
  - inversion Hps as [|? Hlt E|? m k ? E Hm Hp'|? k c ? E Hc Hp']; subst; simpl in *.
    + rewrite <-Hlen at 3. apply pieces_last; [by rewrite Hlen|]. apply (leftmost_cut_none _ _ _ _ (length text)); auto.
    + rewrite <-Hlen at 3. apply pieces_last; [by rewrite Hlen|]. eapply (leftmost_cut_none _ _ _ _ m); eauto.
    + apply pieces_tok; [|done|apply pieces_done; lia]. by apply (leftmost_cut _ _ _ _ _ _ c).
  - apply Forall_cons in Hle as [Hq Hle]. inversion Hps as [|? Hlt E|? m k ? E Hm Hp'|? k c ? E Hc Hp']; subst; simpl in *; [by destruct ps1| |].
    + destruct (leftmost_some _ _ _ _ _ E) as (Em & Hm' & j & c & -> & Hc & _ & Hl & H0). apply (pieces_gap _ _ pos m (Z.of_nat j)); [|done|apply IH; [lia|done|done]].
      assert (m + length c <= stop p)%nat as Hfit.
      { assert (Forall (fun q => (stop q <= stop p)%nat) (ps1 ++ [p])) as Hall by (apply Forall_app; split; [done|]; by repeat constructor).
        destruct (ps1 ++ p :: ps2) as [|x l] eqn:Eps; [by destruct ps1|]. assert (x = Tok j (m + length c)) as ->.
        { inversion Hp' as [|? ? E1|? m1 ? ? E1|? k1 c1 ? E1 Hc1]; subst; [congruence|assert (m = m1) by congruence; lia|]. assert (k1 = j) as -> by (apply Nat2Z.inj; congruence). congruence. }
        destruct ps1 as [|y ps1]; simpl in *; injection Eps as -> _; by apply Forall_cons in Hall as [? _]. }
      by apply (leftmost_cut _ _ _ _ _ _ c).
    + apply leftmost_some in E as E'. destruct E' as (_ & _ & j & c' & Ej & Hc' & _ & Hl & H0). assert (j = k) as -> by lia. assert (c' = c) as -> by congruence.
      apply pieces_tok; [by apply (leftmost_cut _ _ _ _ _ _ c)|done|]. apply IH; [lia|done|done].
Qed.

Lemma leftmost_shift n text spans pos : (n <= length text)%nat -> apart n spans ->
  leftmost_from text spans (n + pos) = (fun x => (n + x.1, x.2)%nat) <$> leftmost_from (drop n text) (spans_after n spans) pos.
Proof.
  intros Hn Ha. apply leftmost_unique. pose proof (leftmost_found contents (drop n text) (spans_after n spans) pos) as Hf.
  assert (forall i t, (n + pos <= i)%nat -> lies_at text spans i t -> (pos <= i - n)%nat /\ lies_at (drop n text) (spans_after n spans) (i - n) t) as Hback.
  { intros i t Hi Hl. split; [lia|]. apply lies_at_shift; [done|]. by replace (n + (i - n))%nat with i by lia. }
  destruct (leftmost_from (drop n text) (spans_after n spans) pos) as [[m k]|]; simpl in *.
  - destruct Hf as (j & c & -> & H1 & H2 & H3 & H4 & H5). rewrite length_drop in H1. exists j, c. split_and!; [done|lia|lia|done|by apply lies_at_shift| |].
    + intros j' t' Hj' Et Hl'. apply (H4 j' t' Hj' Et). by apply lies_at_shift.
    + intros i' t' Hi' Ht Hl'. apply Hback in Hl' as [? ?]; [|lia]. apply (H5 (i' - n)%nat t'); [lia|done|done].
  - intros i t Hi Ht Hl'. apply Hback in Hl' as [? ?]; [|lia]. by apply (Hf (i - n)%nat t).
Qed.

Definition lift_piece (n : nat) (p : Piece) : Piece := match p with Gap a e => Gap (n + a) (n + e) | Tok k e => Tok k (n + e) end.

Lemma pieces_shift n text spans q ps : (n <= length text)%nat -> apart n spans -> pieces (drop n text) (spans_after n spans) q ps -> pieces text spans (n + q) (lift_piece n <$> ps).
Proof.
  intros Hn Ha. assert (length (drop n text) = (length text - n)%nat) as Hl by apply length_drop.
  induction 1 as [pos Hd|pos Hlt E|pos m k ps E Hm Hp IH|pos k c ps E Hc Hp IH]; simpl in *.
  - constructor. lia.
  - replace (n + length (drop n text))%nat with (length text) by lia. constructor; [lia|]. by rewrite leftmost_shift, E.
  - econstructor; [by rewrite leftmost_shift, E|simpl; lia|done].
  - rewrite Nat.add_assoc in *. constructor; [|done|done]. by rewrite leftmost_shift, E.
Qed.

End Pieces.

Lemma spans_ok_before n size prev spans : spans_ok size prev spans -> spans_ok n prev (spans_before n spans).
Proof.
  revert prev. induction spans as [|x spans IH]; intros prev; [done|]. simpl. intros (H1 & H2 & H3). unfold spans_before. rewrite filter_cons. case_decide as Hd.
  - split_and!; [lia|lia|done|]. by apply IH.
  - apply IH in H3. eapply (spans_ok_weaken _ _ (span_end x)); [|exact H3]. lia.
Qed.

(** ** The loop goes through the pieces *)
Section Loop.
Context {H : Heap} {U : Utf8proc} {M : Utf8procText} (t : TokenizerTables).
Implicit Types (text : list Z) (spans : list ByteSpan) (ps : list Piece).

(** What the constructor establishes of the trie. *)
Definition trie_built : Prop := added_trie t = build_trie (added_tokens t) /\ added_start_bytes t = start_bytes (added_tokens t).

Abbreviation pieces := (pieces (content <$> added_tokens t)).

Definition piece_ids text (p : Piece) : res (list Z) :=
  match p with
  | Gap a e => append_bpe_ids t (take (e - a) (drop a text))
  | Tok k _ => match added_tokens t !! k with None => Throw undefined | Some token => Ok [added_id token] end
  end.

Fixpoint run_pieces text (prefix_byte_end : option nat) ps (encoded : EncodedText) : res EncodedText :=
  match ps with
  | [] => Ok encoded
  | p :: ps => x ← piece_ids text p; run_pieces text prefix_byte_end ps (mark_prefix prefix_byte_end (stop p) (append encoded x))
  end.

Fixpoint ids_of text ps : res (list Z) :=
  match ps with
  | [] => Ok []
  | p :: ps => x ← piece_ids text p; y ← ids_of text ps; Ok (x ++ y)
  end.

Lemma token_content k c : (content <$> added_tokens t) !! k = Some c -> exists token, added_tokens t !! k = Some token /\ content token = c.
Proof. rewrite list_lookup_fmap. destruct (added_tokens t !! k) as [token|]; [|done]. intros [= <-]. by exists token. Qed.

Lemma encode_loop_pieces text n spans : trie_built -> spans_ok (length text) 0 spans -> forall fuel pos ps encoded, pieces text spans pos ps -> (length text <= pos + fuel)%nat ->
  encode_loop t fuel text n spans pos encoded = run_pieces text n ps encoded.
Proof.
  intros [Htrie Hstart] Hok. induction fuel as [|fuel IH]; intros pos ps encoded Hp Hf.
  { destruct Hp as [pos Hd|pos Hlt E|pos m k ps E Hm Hp|pos k c ps E Hc Hp]; [done|lia| |]; apply leftmost_some in E as (_ & ? & _); lia. }
  cbn [encode_loop]. destruct (Nat.ltb_spec pos (length text)) as [Hlt|Hge].
  2:{ destruct Hp as [pos Hd|pos Hlt E|pos m k ps E Hm Hp|pos k c ps E Hc Hp]; [done|lia| |]; apply leftmost_some in E as (_ & ? & _); lia. }
  rewrite Htrie, Hstart, find_leftmost by done.
  assert (forall m k c ps' encoded', leftmost (content <$> added_tokens t) text spans m (length text - m) = Some (m, Z.of_nat k) -> (content <$> added_tokens t) !! k = Some c ->
    (length text <= m + S fuel)%nat -> pieces text spans (m + length c) ps' ->
    match added_tokens t !! k with
    | None => Throw undefined
    | Some token => encode_loop t fuel text n spans (m + length (content token)) (mark_prefix n (m + length (content token)) (append encoded' [added_id token]))
    end = run_pieces text n (Tok k (m + length c) :: ps') encoded') as Htok.
  { intros m k c ps' encoded' E Hc Hfuel Hp'. cbn [run_pieces piece_ids]. destruct (token_content _ _ Hc) as (token & Et & Ec). rewrite Et. cbn [mbind res_bind].
    apply leftmost_some in E as (_ & _ & j & c' & Ej & Hc' & _ & _ & H0). assert (j = k) as -> by lia. assert (c' = c) as -> by congruence. rewrite Ec. apply IH; [done|lia]. }
  destruct Hp as [pos Hd|pos Hlt' E|pos m k ps E Hm Hp|pos k c ps E Hc Hp]; [lia| | |].
  - rewrite E. cbn [run_pieces piece_ids stop]. rewrite (take_ge (drop pos text)) by (rewrite length_drop; lia). done.
  - rewrite E. destruct (leftmost_some _ _ _ _ _ _ E) as (Em & Hm' & j & c & -> & Hc & _). cbn [run_pieces piece_ids stop]. destruct (Nat.ltb_spec pos m); [|lia].
    rewrite Nat2Z.id. destruct (token_content _ _ Hc) as (token & Et & Ec). rewrite Et. destruct (append_bpe_ids t _) as [x|e]; [|done]. cbn [mbind res_bind].
    destruct (pieces_total (content <$> added_tokens t) text spans (m + length c)) as (ps' & Hps').
    rewrite (pieces_unique _ _ _ _ _ _ Hp (pieces_tok _ _ _ _ _ _ _ Em Hc Hps')), <-(Htok m j c ps' _ Em Hc) by (done || lia). by rewrite Et.
  - rewrite E, <-(Htok pos k c ps _ E Hc) by (done || lia). rewrite Nat2Z.id. destruct (added_tokens t !! k); [|done]. by rewrite Nat.ltb_irrefl.
Qed.

Lemma mark_prefix_other n stop encoded : (n ≠ Some stop \/ prefix_tokens encoded ≠ None) -> mark_prefix n stop encoded = encoded.
Proof.
  unfold mark_prefix. destruct n as [n|]; [|done]. intros Hn. destruct (prefix_tokens encoded) eqn:E; [done|]. destruct (Nat.eqb_spec stop n) as [->|]; [|done]. by destruct Hn.
Qed.

Lemma run_unmarked text n ps encoded : (Forall (fun p => n ≠ Some (stop p)) ps \/ prefix_tokens encoded ≠ None) ->
  run_pieces text n ps encoded = (x ← ids_of text ps; Ok (append encoded x)).
Proof.
  revert encoded. induction ps as [|p ps IH]; intros encoded Hn; cbn [run_pieces ids_of].
  { unfold append. cbn [mbind res_bind]. rewrite app_nil_r. by destruct encoded. }
  destruct (piece_ids text p) as [x|e]; [|done]. cbn [mbind res_bind]. rewrite mark_prefix_other by (destruct Hn as [Hn%Forall_cons_1|]; [left; apply Hn|by right]).
  rewrite IH by (destruct Hn as [Hn%Forall_cons_1|]; [left; apply Hn|by right]). destruct (ids_of text ps); [|done]. cbn [mbind res_bind]. unfold append. simpl. by rewrite app_assoc.
Qed.

Lemma run_marked text ps1 p ps2 encoded : Forall (fun q => stop q ≠ stop p) ps1 -> prefix_tokens encoded = None ->
  run_pieces text (Some (stop p)) (ps1 ++ p :: ps2) encoded =
    (x ← ids_of text (ps1 ++ [p]); y ← ids_of text ps2; Ok (MkEncoded (ids encoded ++ x ++ y) (Some (wrap32 (Z.of_nat (length (ids encoded ++ x))))))).
Proof.
  intros Hn. revert encoded. induction Hn as [|q ps1 Hq Hn IH]; intros encoded He; cbn [app run_pieces ids_of].
  - destruct (piece_ids text p) as [x|e]; [|done]. cbn [mbind res_bind]. rewrite app_nil_r. rewrite run_unmarked by (right; unfold mark_prefix, append; simpl; rewrite He, Nat.eqb_refl; done).
    destruct (ids_of text ps2); [|done]. cbn [mbind res_bind]. unfold mark_prefix, append. simpl. rewrite He, Nat.eqb_refl. simpl. by rewrite app_assoc.
  - destruct (piece_ids text q) as [x|e]; [|done]. cbn [mbind res_bind]. rewrite mark_prefix_other by (left; congruence). rewrite IH by done.
    destruct (ids_of text (ps1 ++ [p])); [|done]. cbn [mbind res_bind]. destruct (ids_of text ps2); [|done]. cbn [mbind res_bind]. unfold append. simpl. by rewrite !app_assoc.
Qed.

Lemma ids_of_cut n text ps : Forall (fun p => (stop p <= n)%nat) ps -> ids_of (take n text) ps = ids_of text ps.
Proof.
  induction 1 as [|p ps Hp Hps IH]; [done|]. cbn [ids_of]. rewrite IH. destruct p as [a e|k e]; cbn [piece_ids]; [|done].
  replace (take (e - a) (drop a (take n text))) with (take (e - a) (drop a text)); [done|]. simpl in Hp. rewrite !take_drop_commute, take_take.
  destruct (decide (a <= e)%nat); [by rewrite Nat.min_l by lia|]. rewrite !drop_ge by (rewrite length_take; lia). done.
Qed.

Lemma ids_of_app text ps1 ps2 : ids_of text (ps1 ++ ps2) = (x ← ids_of text ps1; y ← ids_of text ps2; Ok (x ++ y)).
Proof.
  induction ps1 as [|p ps1 IH]; cbn [app ids_of]; [by destruct (ids_of text ps2)|]. rewrite IH. destruct (piece_ids text p); [|done]. cbn [mbind res_bind].
  destruct (ids_of text ps1); [|done]. cbn [mbind res_bind]. destruct (ids_of text ps2); [|done]. cbn [mbind res_bind]. by rewrite app_assoc.
Qed.

Lemma ids_of_shift n text ps : ids_of text (lift_piece n <$> ps) = ids_of (drop n text) ps.
Proof.
  induction ps as [|p ps IH]; [done|]. rewrite fmap_cons. cbn [ids_of]. rewrite IH. destruct p as [a e|k e]; cbn [lift_piece piece_ids]; [|done].
  rewrite drop_drop. by replace (n + e - (n + a))%nat with (e - a)%nat by lia.
Qed.

Lemma stops_cons n p ps : n ∈ stop <$> p :: ps <-> n = stop p \/ n ∈ stop <$> ps.
Proof. by rewrite fmap_cons, elem_of_cons. Qed.

Lemma pieces_reach text spans pos ps : pieces text spans pos ps -> (pos < length text)%nat -> length text ∈ stop <$> ps.
Proof.
  induction 1 as [pos Hd|pos Hlt E|pos m k ps E Hm Hp IH|pos k c ps E Hc Hp IH]; intros Hl; [lia|apply stops_cons; by left| |]; apply stops_cons.
  - apply leftmost_some in E as (_ & ? & _). right. apply IH. lia.
  - apply leftmost_some in E as (_ & ? & j & c' & Ej & Hc' & _ & Hc2 & _). assert (j = k) as -> by lia. assert (c' = c) as -> by congruence. simpl.
    destruct (decide (pos + length c = length text)%nat) as [Ee|]; [by left|right; apply IH; lia].
Qed.

Lemma stops_after text spans pos ps n : pieces text spans pos ps -> (pos <= length text)%nat -> n ∈ stop <$> ps -> (pos < n <= length text)%nat.
Proof. intros Hp Hl (p & -> & Hin)%list_elem_of_fmap. pose proof (pieces_stops _ _ _ _ _ Hp Hl) as Hst. rewrite Forall_forall in Hst. by apply Hst. Qed.

(** The positions that [is_encode_loop_pos] accepts are where the pieces stop. *)
Lemma loop_pos_pieces text n spans : trie_built -> spans_ok (length text) 0 spans -> (n < length text)%nat -> forall fuel pos ps, pieces text spans pos ps -> (length text <= pos + fuel)%nat -> (pos < n)%nat ->
  loop_pos t fuel text n spans pos = Ok (bool_decide (n ∈ stop <$> ps)).
Proof.
  intros [Htrie Hstart] Hok Hn. induction fuel as [|fuel IH]; intros pos ps Hp Hf Hpos; [lia|]. cbn [loop_pos].
  destruct (Nat.ltb_spec pos (length text)) as [Hlt|]; [|lia]. rewrite Htrie, Hstart, find_leftmost by done.
  assert (forall m k c ps', (pos <= m)%nat -> (m < n)%nat -> leftmost (content <$> added_tokens t) text spans m (length text - m) = Some (m, Z.of_nat k) ->
    (content <$> added_tokens t) !! k = Some c -> pieces text spans (m + length c) ps' ->
    match added_tokens t !! k with
    | None => Throw undefined
    | Some token => if (n =? m + length (content token))%nat then Ok true else if (n <? m + length (content token))%nat then Ok false
        else loop_pos t fuel text n spans (m + length (content token))
    end = Ok (bool_decide (n ∈ stop <$> Tok k (m + length c) :: ps'))) as Htok.
  { intros m k c ps' Hm Hmn E Hc Hp'. destruct (token_content _ _ Hc) as (token & -> & ->). apply leftmost_some in E as (_ & _ & j & c' & Ej & Hc' & _ & Hc2 & H0).
    assert (j = k) as -> by lia. assert (c' = c) as -> by congruence. pose proof (stops_after _ _ _ _ n Hp' ltac:(lia)) as Hst.
    destruct (Nat.eqb_spec n (m + length c)) as [->|Hne]; [rewrite bool_decide_eq_true_2 by (apply stops_cons; by left); done|].
    destruct (Nat.ltb_spec n (m + length c)) as [Hlt'|Hge].
    - rewrite bool_decide_eq_false_2; [done|]. rewrite stops_cons. simpl. intros [?|?%Hst]; lia.
    - rewrite (IH _ _ Hp') by lia. f_equal. apply bool_decide_ext. rewrite stops_cons. simpl. tauto. }
  destruct Hp as [pos Hd|pos Hlt' E|pos m k ps E Hm Hp|pos k c ps E Hc Hp]; [lia| | |]; rewrite E.
  - rewrite bool_decide_eq_false_2; [done|]. rewrite stops_cons. simpl. intros [?|Hx]; [lia|by apply elem_of_nil in Hx].
  - destruct (leftmost_some _ _ _ _ _ _ E) as (Em & Hm' & j & c & -> & Hc & _). destruct (Nat.ltb_spec pos m); [|lia]. cbn [andb]. rewrite Nat2Z.id.
    pose proof (stops_after _ _ _ _ n Hp ltac:(lia)) as Hst.
    destruct (Nat.eqb_spec n m) as [->|Hne]; [rewrite bool_decide_eq_true_2 by (apply stops_cons; by left); done|]. destruct (Nat.ltb_spec n m) as [Hnm|Hnm].
    + rewrite bool_decide_eq_false_2; [done|]. rewrite stops_cons. simpl. intros [?|?%Hst]; lia.
    + destruct (pieces_total (content <$> added_tokens t) text spans (m + length c)) as (ps' & Hps'). pose proof (pieces_unique _ _ _ _ _ _ Hp (pieces_tok _ _ _ _ _ _ _ Em Hc Hps')) as ->.
      rewrite (Htok m j c ps') by (done || lia). f_equal. apply bool_decide_ext. rewrite (stops_cons n (Gap pos m)). simpl stop. tauto.
  - rewrite Nat.ltb_irrefl, Nat2Z.id. cbn [andb]. by apply Htok.
Qed.

Lemma encode_pieces text n spans ps : trie_built -> text ≠ [] -> pieces text spans 0 ps ->
  encode t text n true spans = (validate_literal_spans text spans ;; run_pieces text n ps (mark_prefix n 0 (MkEncoded [] None))).
Proof.
  intros Hb Hne Hp. unfold encode. rewrite bool_decide_eq_false_2 by done. cbn [negb]. destruct (validate_literal_spans text spans) as [[]|] eqn:E; [|done]. cbn [mbind res_bind].
  apply validate_literal_spans_ok in E. by apply encode_loop_pieces.
Qed.

Lemma encode_plain text spans ps : trie_built -> spans_ok (length text) 0 spans -> pieces text spans 0 ps ->
  encode t text None true spans = (x ← ids_of text ps; Ok (MkEncoded x None)).
Proof.
  intros Hb Hok Hp. destruct (decide (text = [])) as [->|Hne].
  { unfold encode. rewrite bool_decide_eq_true_2 by done. assert (ps = []) as -> by (by eapply pieces_unique, pieces_done). done. }
  rewrite (encode_pieces _ _ _ ps) by done. apply validate_literal_spans_ok in Hok as ->. cbn [mbind res_bind]. rewrite run_unmarked by (left; by apply Forall_true). done.
Qed.

Lemma spans_after_0 spans : spans_after 0 spans = spans.
Proof.
  unfold spans_after. induction spans as [|[b e] spans IH]; [done|]. rewrite filter_cons_True by (simpl; lia). rewrite fmap_cons, IH. simpl. by rewrite !Nat.sub_0_r.
Qed.

Lemma spans_before_0 size spans : spans_ok size 0 spans -> spans_before 0 spans = [].
Proof.
  intros Hok%spans_ok_after. unfold spans_before. induction Hok as [|x spans Hx Hs IH]; [done|]. rewrite filter_cons_False; [done|]. lia.
Qed.

(** The tokens on each side of a stop are those of each side alone. *)
Lemma encode_split text spans ps1 p ps2 x y : trie_built -> spans_ok (length text) 0 spans -> pieces text spans 0 (ps1 ++ p :: ps2) -> ids_of text (ps1 ++ [p]) = Ok x -> ids_of text ps2 = Ok y ->
  Forall (fun q => (stop q <= stop p)%nat) ps1 -> (stop p <= length text)%nat ->
  encode t (take (stop p) text) None true (spans_before (stop p) spans) = Ok (MkEncoded x None) /\
  encode t (drop (stop p) text) None true (spans_after (stop p) spans) = Ok (MkEncoded y None).
Proof.
  intros Hb Hok Hp Hx Hy Hle Hn. destruct (pieces_tail _ _ _ _ _ _ _ Hok Hp) as [Ha Ht]. split.
  - rewrite (encode_plain _ _ (ps1 ++ [p]) Hb).
    + rewrite ids_of_cut; [by rewrite Hx|]. apply Forall_app. split; [done|]. by repeat constructor.
    + rewrite length_take, Nat.min_l by done. by eapply spans_ok_before.
    + eapply pieces_head; [done|done|done|lia|exact Hp|done].
  - destruct (pieces_total (content <$> added_tokens t) (drop (stop p) text) (spans_after (stop p) spans) 0) as (ps' & Hps').
    rewrite (encode_plain _ _ ps' Hb); [|rewrite length_drop; by apply (spans_ok_after_cut (stop p) _ 0)|done]. rewrite <-ids_of_shift.
    apply pieces_shift in Hps'; [|done|done]. rewrite Nat.add_0_r in Hps'. rewrite <-(pieces_unique _ _ _ _ _ _ Ht Hps'), Hy. done.
Qed.

Lemma pieces_increasing text spans pos ps1 p ps2 : pieces text spans pos (ps1 ++ p :: ps2) -> (pos <= length text)%nat -> Forall (fun q => (stop q < stop p)%nat) ps1.
Proof.
  revert pos. induction ps1 as [|q ps1 IH]; intros pos Hp Hl; [constructor|]. assert (exists pos', pos' = stop q /\ pieces text spans pos' (ps1 ++ p :: ps2) /\ (pos' <= length text)%nat) as (pos' & -> & Hp' & Hl').
  { exists (stop q). split; [done|]. split; [|pose proof (pieces_stops _ _ _ _ _ Hp Hl) as Hst; by apply Forall_cons in Hst as [[_ ?] _]]. inversion Hp; subst; try done. by destruct ps1. }
  constructor; [|by eapply IH]. pose proof (pieces_stops _ _ _ _ _ Hp' Hl') as Hst. rewrite Forall_app, Forall_cons in Hst. apply Hst.
Qed.

Lemma stops_first n ps : n ∈ stop <$> ps -> exists ps1 p ps2, ps = ps1 ++ p :: ps2 /\ stop p = n.
Proof. intros (p & -> & Hin)%list_elem_of_fmap. apply list_elem_of_split in Hin as (ps1 & ps2 & ->). by exists ps1, p, ps2. Qed.

(** What a mark says: the prefix and the rest, encoded alone, give the tokens, and the
    mark is how many the prefix gives. *)
Definition marks_prefix text (n : nat) (parse : bool) spans (e : EncodedText) : Prop :=
  forall k, prefix_tokens e = Some k -> exists a b,
    encode t (take n text) None parse (spans_before n spans) = Ok (MkEncoded a None) /\
    encode t (drop n text) None parse (spans_after n spans) = Ok (MkEncoded b None) /\
    ids e = a ++ b /\ k = wrap32 (Z.of_nat (length a)).

Lemma encode_prefix_plain text n spans e : text ≠ [] -> encode t text (Some n) false spans = Ok e ->
  encode t text None false spans = Ok (MkEncoded (ids e) None) /\
  is_encode_loop_pos t text n false spans = Ok (bool_decide (is_Some (prefix_tokens e))) /\ marks_prefix text n false spans e.
Proof.
  intros Hne. assert (length text ≠ 0)%nat as Hl by (by destruct text).
  assert (forall spans', encode t text None false spans' = (x ← append_bpe_ids t text; Ok (MkEncoded x None))) as Hplain by (intros; unfold encode; by rewrite bool_decide_eq_false_2).
  assert (forall spans', encode t [] None false spans' = Ok (MkEncoded [] None)) as Hnil by done.
  unfold encode at 1. rewrite bool_decide_eq_false_2 by done. cbn [negb]. rewrite Hplain. destruct (append_bpe_ids t text) as [x|err] eqn:Ex; [|done]. cbn [mbind res_bind].
  unfold is_encode_loop_pos, marks_prefix. cbn [negb]. destruct (decide (n = 0%nat)) as [->|Hn0].
  { intros [= <-]. rewrite Nat.eqb_refl. unfold mark_prefix, append. simpl. split_and!; [done|done|]. intros k [= <-]. exists [], x. rewrite take_0, drop_0, Hplain. done. }
  rewrite (mark_prefix_other (Some n) 0) by (left; congruence). destruct (Nat.eqb_spec n 0); [lia|]. cbn [orb]. unfold append. cbn [ids prefix_tokens app].
  destruct (Nat.eqb_spec n (length text)) as [->|Hn].
  - unfold mark_prefix. cbn [prefix_tokens ids]. rewrite Nat.eqb_refl. intros [= <-]. cbn [prefix_tokens ids]. split_and!; [done|done|]. intros k [= <-]. exists x, [].
    rewrite firstn_all, drop_all, Hplain, Hnil, app_nil_r. done.
  - rewrite mark_prefix_other by (left; congruence). intros [= <-]. cbn [ids prefix_tokens]. split_and!; [done|by destruct (length text <? n)%nat|done].
Qed.

(** C16: a tokenizer whose trie is that of its added tokens can mark in a text exactly the
    positions that [is_encode_loop_pos] accepts, marking changes no token, and a position
    that is marked splits the encoding: the bytes before it and the bytes after it, each
    encoded alone with its literal spans, give the tokens of the text, and the mark is the
    number of the former. *)
Theorem encode_prefix_exact text n parse spans e : trie_built -> text ≠ [] -> encode t text (Some n) parse spans = Ok e ->
  encode t text None parse spans = Ok (MkEncoded (ids e) None) /\
  is_encode_loop_pos t text n parse spans = Ok (bool_decide (is_Some (prefix_tokens e))) /\ marks_prefix text n parse spans e.
Proof.
  intros Hb Hne. destruct parse; [|by apply encode_prefix_plain]. assert (length text ≠ 0)%nat as Hl by (by destruct text).
  destruct (pieces_total (content <$> added_tokens t) text spans 0) as (ps & Hps). rewrite (encode_pieces _ _ _ ps) by done. unfold is_encode_loop_pos. cbn [negb].
  destruct (validate_literal_spans text spans) as [[]|] eqn:Hv; [|done]. cbn [mbind res_bind]. apply validate_literal_spans_ok in Hv. rewrite (encode_plain _ _ _ Hb Hv Hps).
  destruct (decide (n = 0%nat)) as [->|Hn0].
  { rewrite run_unmarked by (by right). destruct (ids_of text ps) as [x|] eqn:Ex; [|done]. cbn [mbind res_bind]. intros [= <-]. split_and!; [done|done|]. intros k [= <-]. exists [], x.
    rewrite take_0, drop_0, spans_after_0, (encode_plain _ _ _ Hb Hv Hps), Ex. done. }
  rewrite (mark_prefix_other (Some n) 0) by (left; congruence). destruct (Nat.eqb_spec n 0) as [|_]; [lia|]. cbn [orb].
  pose proof (stops_after _ _ _ _ n Hps ltac:(lia)) as Hst. destruct (decide (n ∈ stop <$> ps)) as [Hin|Hout].
  - specialize (Hst Hin). destruct (stops_first _ _ Hin) as (ps1 & p & ps2 & -> & <-). pose proof (pieces_increasing _ _ _ _ _ _ Hps ltac:(lia)) as Hinc.
    rewrite run_marked by (done || (eapply Forall_impl; [exact Hinc|simpl; lia])). replace (ps1 ++ p :: ps2) with ((ps1 ++ [p]) ++ ps2) by (by rewrite <-app_assoc). rewrite (ids_of_app text (ps1 ++ [p]) ps2).
    destruct (ids_of text (ps1 ++ [p])) as [x|] eqn:Ex; [|done]. cbn [mbind res_bind]. destruct (ids_of text ps2) as [y|] eqn:Ey; [|done]. cbn [mbind res_bind]. intros [= <-].
    split_and!; [done| |].
    + destruct (Nat.eqb_spec (stop p) (length text)); [done|]. destruct (Nat.ltb_spec (length text) (stop p)); [lia|]. rewrite (loop_pos_pieces text (stop p) spans Hb Hv ltac:(lia) _ _ _ Hps) by lia.
      by rewrite bool_decide_eq_true_2.
    + intros k [= <-]. exists x, y. destruct (encode_split _ _ _ _ _ _ _ Hb Hv Hps Ex Ey) as [-> ->]; [eapply Forall_impl; [exact Hinc|simpl; lia]|lia|]. done.
  - rewrite run_unmarked by (left; apply Forall_forall; intros p Hp [= ->]; apply Hout; by apply list_elem_of_fmap_2). destruct (ids_of text ps) as [x|]; [|done]. cbn [mbind res_bind].
    intros [= <-]. split_and!; [done| |done]. destruct (Nat.eqb_spec n (length text)) as [->|Hn]; [by destruct Hout; apply (pieces_reach _ _ _ _ Hps); lia|].
    destruct (Nat.ltb_spec (length text) n); [done|]. rewrite (loop_pos_pieces text n spans Hb Hv ltac:(lia) _ _ _ Hps) by lia. by rewrite bool_decide_eq_false_2.
Qed.

End Loop.

(** ** A tokenizer

    Three letters and the added tokens of [demo_added]; the text is [ab<a>c], of which the
    first five bytes are marked. *)
Definition demo_tables : TokenizerTables :=
  MkTokenizer [] [] [] [] [] (MkTable [] 0) [0; 1; 2] [0; 1; 2; 3]%nat (fun b => if (97 <=? b) && (b <=? 99) then b - 97 else -1) true demo_added
    (build_trie demo_added) (start_bytes demo_added) [].

(** utf8proc as in [TokenSplit]; nothing is composed. *)
#[local] Instance demo_utf8proc_text : Utf8procText := {|
  utf8proc_map text := Some text;
  utf8proc_encode_char cp := if cp <? 128 then Some [cp] else if cp <? 2048 then Some [192 + cp / 64; 128 + cp mod 64] else None;
|}.
#[local] Existing Instances demo_utf8proc list_heap.

Lemma encode_prefix_exact_witness :
  is_encode_loop_pos demo_tables [97; 98; 60; 97; 62; 99] 5 true [MkByteSpan 0 2] = Ok true /\
  marks_prefix demo_tables [97; 98; 60; 97; 62; 99] 5 true [MkByteSpan 0 2] (MkEncoded [0; 1; 7; 2] (Some 3)).
Proof.
  apply (encode_prefix_exact demo_tables [97; 98; 60; 97; 62; 99] 5 true [MkByteSpan 0 2] (MkEncoded [0; 1; 7; 2] (Some 3))); [done|done|].
  vm_compute. reflexivity.
Defined.
