(* ===== verification/TokenLoad.v ===== *)
(** * Building a tokenizer

    tokenizer.cpp: the constructor, from the values that it reads out of the JSON assets:
    the vocabulary, the added tokens of both files, the merges and the stop tokens.  It
    interns the symbols of the merges and of the bytes, and fills the tables that
    [encode] and [decode] use.

    A JSON document is read by nlohmann::json, so the values are arguments.  A hash map is
    an association list in which the first entry of a key counts, as with [emplace]; the
    map from symbols to intern identifiers is the inverse of [intern_str], and a lookup is
    a search in it.  The three symbols of a merge are interned from left to right. *)

From stdpp Require Import prelude functions list list_numbers sorting.
From Stdlib Require Import ZArith Lia.
From S2P Require Import Prelude Utf8 TokenBpe TokenSplit TokenAdded TokenEncode.
#[local] Open Scope Z_scope.

Definition kMaxTokenId : Z := 1000000.

(** [parse_token_id] of an integer. *)
Definition parse_token_id (value : Z) : res Z :=
  throw_if ((value <? 0) || (kMaxTokenId <? value)) invalid_argument ;;
  Ok value.

Record VocabMetadata : Type := MkVocab { id_to_token : list (list Z); token_to_id : list (list Z * Z); occupied_ids : list Z }.

Definition find_key {A} (key : list Z) (m : list (list Z * A)) : option A := (fun x => x.2.2) <$> list_find (fun x => x.1 = key) m.

(** [if (index >= size) resize(index + 1)] *)
Definition resize_for (index : nat) (l : list (list Z)) : list (list Z) := l ++ replicate (S index - length l) [].

(** The first loop of [load_vocab]. *)
Fixpoint vocab_ids (vocab : list (list Z * Z)) (occupied : list Z) : res (list Z) :=
  match vocab with
  | [] => Ok occupied
  | (_, value) :: vocab =>
      id ← parse_token_id value;
      throw_if (bool_decide (id ∈ occupied)) invalid_argument ;;
      vocab_ids vocab (id :: occupied)
  end.

(** The second. *)
Definition vocab_tokens (vocab : list (list Z * Z)) (size : nat) : list (list Z) :=
  foldl (fun l x => <[Z.to_nat x.2 := x.1]> l) (replicate size []) vocab.

Definition load_vocab (vocab : list (list Z * Z)) : res VocabMetadata :=
  throw_if (bool_decide (vocab = [])) invalid_argument ;;
  occupied ← vocab_ids vocab [];
  let max_id := foldr Z.max (-1) occupied in
  Ok (MkVocab (vocab_tokens vocab (Z.to_nat (max_id + 1))) vocab occupied).

Definition validate_supported_added_token (token : AddedToken) : res unit :=
  throw_if (bool_decide (content token = [])) invalid_argument ;;
  throw_if (single_word token || lstrip token || rstrip token || normalized token) invalid_argument.

Definition same_added_token (lhs rhs : AddedToken) : bool :=
  (added_id lhs =? added_id rhs) && bool_decide (content lhs = content rhs) && eqb (single_word lhs) (single_word rhs) && eqb (lstrip lhs) (lstrip rhs) &&
  eqb (rstrip lhs) (rstrip rhs) && eqb (normalized lhs) (normalized rhs) && eqb (special lhs) (special rhs).

(** The token table and the added tokens so far. *)
Definition place_token (id : Z) (token : list Z) (l : list (list Z)) : list (list Z) := <[Z.to_nat id := token]> (resize_for (Z.to_nat id) l).

Fixpoint load_added_loop (added : list AddedToken) (vocab : VocabMetadata) (id_to_token : list (list Z)) (tokens : list AddedToken)
    : res (list (list Z) * list AddedToken) :=
  match added with
  | [] => Ok (id_to_token, tokens)
  | token :: added =>
      parse_token_id (added_id token) ;;
      validate_supported_added_token token ;;
      throw_if (bool_decide (added_id token ∈ occupied_ids vocab)) invalid_argument ;;
      throw_if (bool_decide (added_id token ∈ added_id <$> tokens)) invalid_argument ;;
      throw_if (bool_decide (is_Some (find_key (content token) (token_to_id vocab))) || bool_decide (content token ∈ content <$> tokens)) invalid_argument ;;
      load_added_loop added vocab (place_token (added_id token) (content token) id_to_token) (tokens ++ [token])
  end.

Definition load_added_tokens (added : list AddedToken) (vocab : VocabMetadata) : res (list (list Z) * list AddedToken) :=
  load_added_loop added vocab (id_to_token vocab) [].

(** The loop over the entries of [added_tokens_decoder], each under its parsed key. *)
Fixpoint merge_decoder_loop (decoder : list AddedToken) (decoder_ids : list Z) (vocab : VocabMetadata) (id_to_token : list (list Z)) (tokens : list AddedToken)
    : res (list (list Z) * list AddedToken) :=
  match decoder with
  | [] => Ok (id_to_token, tokens)
  | token :: decoder =>
      let id := added_id token in
      parse_token_id id ;;
      throw_if (bool_decide (id ∈ decoder_ids)) invalid_argument ;;
      validate_supported_added_token token ;;
      match list_find (fun x => added_id x = id) tokens with
      | Some (_, existing) =>
          throw_if (negb (same_added_token existing token)) invalid_argument ;;
          merge_decoder_loop decoder (id :: decoder_ids) vocab id_to_token tokens
      | None =>
          throw_if (bool_decide (id ∈ occupied_ids vocab)) invalid_argument ;;
          throw_if (bool_decide (content token ∈ content <$> tokens) || bool_decide (is_Some (find_key (content token) (token_to_id vocab)))) invalid_argument ;;
          let resized := resize_for (Z.to_nat id) id_to_token in
          throw_if (negb (bool_decide (default [] (resized !! Z.to_nat id) = []))) invalid_argument ;;
          merge_decoder_loop decoder (id :: decoder_ids) vocab (<[Z.to_nat id := content token]> resized) (tokens ++ [token])
      end
  end.

Definition added_le (lhs rhs : AddedToken) : Prop := added_id lhs <= added_id rhs.

#[export] Instance added_le_dec lhs rhs : Decision (added_le lhs rhs).
Proof. unfold added_le. apply _. Defined.

Definition merge_added_tokens_decoder (decoder : list AddedToken) (vocab : VocabMetadata) (loaded : list (list Z) * list AddedToken)
    : res (list (list Z) * list AddedToken) :=
  x ← merge_decoder_loop decoder [] vocab loaded.1 loaded.2;
  Ok (x.1, merge_sort added_le x.2).

(** ** Merges and stop tokens

    An entry of [model.merges]: an array of two strings, a string, or anything else. *)
Inductive MergeItem : Type := MergePair (l r : list Z) | MergeString (text : list Z) | MergeOther.

Definition find_space (text : list Z) : option nat := fst <$> list_find (fun b => b = 32) text.

Definition parse_merge (item : MergeItem) : res (list Z * list Z) :=
  match item with
  | MergePair l r => Ok (l, r)
  | MergeString text =>
      match find_space text with
      | None => Throw invalid_argument
      | Some space =>
          throw_if ((space =? 0) || (length text <=? space + 1))%nat invalid_argument ;;
          throw_if (bool_decide (is_Some (find_space (drop (space + 1) text)))) invalid_argument ;;
          Ok (take space text, drop (space + 1) text)
      end
  | MergeOther => Throw invalid_argument
  end.

(** The symbols of the merges, in the order of their ranks. *)
Fixpoint load_bpe_merges (items : list MergeItem) : res (list (list Z * list Z)) :=
  match items with
  | [] => Ok []
  | item :: items => spec ← parse_merge item; specs ← load_bpe_merges items; Ok (spec :: specs)
  end.

(** [eos_token_id]: an integer, an array of which an element may not be one, or anything
    else. *)
Inductive EosValue : Type := EosInteger (value : Z) | EosArray (values : list (option Z)) | EosOther.

Fixpoint parse_eos (values : list (option Z)) : res (list Z) :=
  match values with
  | [] => Ok []
  | None :: _ => Throw invalid_argument
  | Some value :: values => id ← parse_token_id value; ids ← parse_eos values; Ok (id :: ids)
  end.

Definition load_default_stop_token_ids (eos : EosValue) : res (list Z) :=
  match eos with
  | EosInteger value => id ← parse_token_id value; Ok [id]
  | EosArray values => throw_if (bool_decide (values = [])) invalid_argument ;; parse_eos values
  | EosOther => Throw invalid_argument
  end.

(** ** The byte-level alphabet *)
Definition visible (byte : Z) : bool :=
  ((33 <=? byte) && (byte <=? 126)) || ((161 <=? byte) && (byte <=? 172)) || ((174 <=? byte) && (byte <=? 255)).

(** The loop over the bytes that both builders share: a byte and its code point. *)
Fixpoint alphabet_loop (count : nat) (byte next : Z) : list (Z * Z) :=
  match count with
  | O => []
  | S count => if visible byte then (byte, byte) :: alphabet_loop count (byte + 1) next else (byte, next) :: alphabet_loop count (byte + 1) (next + 1)
  end.

Definition byte_alphabet : list (Z * Z) := alphabet_loop 256 0 256.

Definition decode_codepoint (codepoint : Z) : option Z := (fun x => x.2.1) <$> list_find (fun x => x.2 = codepoint) byte_alphabet.

Section Load.
Context {U : Utf8proc} {M : Utf8procText}.

Definition codepoint_to_utf8 (codepoint : Z) : res (list Z) :=
  match utf8proc_encode_char codepoint with Some bytes => Ok bytes | None => Throw invalid_argument end.

(** ** Interning *)
Record Interns : Type := MkInterns { intern_str : list (list Z); intern_to_vocab : list Z }.

Definition intern_symbol (vocab : list (list Z * Z)) (symbol : list Z) (st : Interns) : Interns * Z :=
  match list_find (fun x => x = symbol) (intern_str st) with
  | Some (k, _) => (st, Z.of_nat k)
  | None => (MkInterns (intern_str st ++ [symbol]) (intern_to_vocab st ++ [default (-1) (find_key symbol vocab)]), Z.of_nat (length (intern_str st)))
  end.

(** The merges from [rank] on. *)
Fixpoint intern_merges (vocab : list (list Z * Z)) (merges : list (list Z * list Z)) (rank : Z) (st : Interns) : Interns * list (Z * Z * Z * Z) :=
  match merges with
  | [] => (st, [])
  | (l, r) :: merges =>
      let '(st, a) := intern_symbol vocab l st in
      let '(st, b) := intern_symbol vocab r st in
      let '(st, x) := intern_symbol vocab (l ++ r) st in
      let '(st, pairs) := intern_merges vocab merges (rank + 1) st in
      (st, (a, b, x, rank) :: pairs)
  end.

(** The identifiers of the bytes. *)
Fixpoint intern_bytes (vocab : list (list Z * Z)) (alphabet : list (Z * Z)) (st : Interns) : res (Interns * list Z) :=
  match alphabet with
  | [] => Ok (st, [])
  | (_, codepoint) :: alphabet =>
      symbol ← codepoint_to_utf8 codepoint;
      let '(st, a) := intern_symbol vocab symbol st in
      x ← intern_bytes vocab alphabet st;
      Ok (x.1, a :: x.2)
  end.

(** What a symbol is emitted as. *)
Definition emit_of (vocab : list (list Z * Z)) (symbol : list Z) (vocab_id : Z) : res (list Z) :=
  if 0 <=? vocab_id then Ok [vocab_id]
  else
    pieces ← utf8_codepoints symbol;
    if (1 <? length pieces)%nat then
      Ok (default [] (mapM (fun piece => find_key (take (cp_length piece) (drop (cp_offset piece) symbol)) vocab) pieces))
    else Ok [].

(** The loop over the symbols: the identifiers and the offset after each. *)
Fixpoint emit_table (vocab : list (list Z * Z)) (symbols : list (list Z * Z)) (begin : nat) : res (list Z * list nat) :=
  match symbols with
  | [] => Ok ([], [])
  | (symbol, vocab_id) :: symbols =>
      x ← emit_of vocab symbol vocab_id;
      y ← emit_table vocab symbols (begin + length x);
      Ok (x ++ y.1, (begin + length x)%nat :: y.2)
  end.

(** ** The decode table *)
Definition flags (size : nat) (p : Z -> bool) : list bool := (fun i => p (Z.of_nat i)) <$> seq 0 size.

Fixpoint decode_codepoints (codepoints : list CodepointSpan) : res (list Z) :=
  match codepoints with
  | [] => Ok []
  | x :: codepoints =>
      match decode_codepoint (cp_value x) with
      | None => Throw invalid_argument
      | Some byte => bytes ← decode_codepoints codepoints; Ok (byte :: bytes)
      end
  end.

Definition decode_of (valid added : bool) (token : list Z) : res (list Z) :=
  if negb valid then Ok []
  else if added then Ok token
  else codepoints ← utf8_codepoints token; decode_codepoints codepoints.

(** The loop over the tokens: the bytes and the offset before each. *)
Fixpoint decode_table (tokens : list (bool * bool * list Z)) (begin : nat) : res (list Z * list nat) :=
  match tokens with
  | [] => Ok ([], [])
  | (valid, added, token) :: tokens =>
      x ← decode_of valid added token;
      y ← decode_table tokens (begin + length x);
      Ok (x ++ y.1, begin :: y.2)
  end.

(** The constructor, with the alphabet of the bytes. *)
Definition build_tokenizer (alphabet : list (Z * Z)) (vocab_items : list (list Z * Z)) (added decoder : list AddedToken) (merge_items : list MergeItem) (eos : EosValue)
    : res TokenizerTables :=
  vocab ← load_vocab vocab_items;
  loaded ← load_added_tokens added vocab;
  loaded ← merge_added_tokens_decoder decoder vocab loaded;
  let tokens := loaded.1 in
  let added_tokens := loaded.2 in
  let size := length tokens in
  let is_added id := bool_decide (id ∈ added_id <$> added_tokens) in
  let valid := flags size (fun id => bool_decide (id ∈ occupied_ids vocab) || is_added id) in
  merges ← load_bpe_merges merge_items;
  let '(st, pairs) := intern_merges (token_to_id vocab) merges 0 (MkInterns [] []) in
  table ← build_pair_table pairs;
  x ← intern_bytes (token_to_id vocab) alphabet st;
  emit ← emit_table (token_to_id vocab) (zip (intern_str x.1) (intern_to_vocab x.1)) 0;
  let special := flags size (fun id => existsb (fun token => (added_id token =? id) && special token) added_tokens) in
  let added_flags := flags size is_added in
  decoded ← decode_table (zip (zip valid added_flags) tokens) 0;
  stop_ids ← load_default_stop_token_ids eos;
  Ok (MkTokenizer decoded.1 (decoded.2 ++ [length decoded.1]) valid special added_flags table emit.1 (0%nat :: emit.2)
        (fun byte => default (-1) (x.2 !! Z.to_nat byte)) true added_tokens (build_trie added_tokens) (start_bytes added_tokens) stop_ids).

Definition make_tokenizer := build_tokenizer byte_alphabet.

End Load.
