(* ===== verification/TokenRound.v ===== *)
(** * What is encoded is decoded

    Over the tables that the constructor builds, the tokens of a text decode to it.  The
    symbols of a word spell its bytes, a merge joins the spelling of its two symbols, and a
    symbol is emitted as tokens of the vocabulary that spell it. *)

From stdpp Require Import prelude functions list list_numbers sorting.
From Stdlib Require Import ZArith Lia.
From S2P Require Import Prelude Utf8 TokenBpe TokenMerge TokenSplit TokenAdded TokenEncode TokenLoad.
#[local] Open Scope Z_scope.

(** ** The vocabulary *)
Lemma parse_token_id_Ok value id : parse_token_id value = Ok id -> id = value /\ 0 <= id.
Proof.
  unfold parse_token_id. destruct (Z.ltb_spec value 0); [done|]. destruct (kMaxTokenId <? value); [done|]. intros [= <-]. done.
Qed.

Lemma vocab_ids_spec items occupied occupied' : vocab_ids items occupied = Ok occupied' ->
  occupied' = reverse (items.*2) ++ occupied /\ NoDup (items.*2) /\ Forall (fun x => 0 <= x.2 /\ x.2 ∉ occupied) items.
Proof.
  revert occupied. induction items as [|[key value] items IH]; intros occupied; cbn [vocab_ids]; [intros [= <-]; split_and!; [done|constructor|constructor]|].
  destruct (parse_token_id value) as [id|] eqn:Ep; [|done]. apply parse_token_id_Ok in Ep as [-> H0]. cbn [mbind res_bind]. case_bool_decide as Hin; [done|]. cbn [throw_if mbind res_bind].
  intros E. apply IH in E as (-> & H1 & H2). rewrite fmap_cons, reverse_cons, <-app_assoc. cbn [snd app]. split_and!; [done| |].
  - constructor; [|done]. intros (x & E & Hx)%list_elem_of_fmap. rewrite Forall_forall in H2. destruct (H2 x Hx) as [_ Hx']. rewrite <-E in Hx'. apply Hx'. left.
  - constructor; [done|]. eapply Forall_impl; [exact H2|]. simpl. intros x (? & [_ Hx]%not_elem_of_cons). done.
Qed.

Lemma vocab_tokens_lookup (items : list (list Z * Z)) (l : list (list Z)) : NoDup (items.*2) -> Forall (fun x => 0 <= x.2 < Z.of_nat (length l)) items ->
  (forall x, x ∈ items -> foldl (fun l x => <[Z.to_nat x.2 := x.1]> l) l items !! Z.to_nat x.2 = Some x.1) /\
  (forall j, Z.of_nat j ∉ items.*2 -> foldl (fun l x => <[Z.to_nat x.2 := x.1]> l) l items !! j = l !! j).
Proof.
  revert l. induction items as [|y items IH]; intros l Hn Hr; simpl; [by split; [intros x ?%elem_of_nil|]|]. rewrite fmap_cons in Hn. apply NoDup_cons in Hn as [Hy Hn].
  apply Forall_cons in Hr as [Hy' Hr]. destruct (IH (<[Z.to_nat y.2 := y.1]> l) Hn) as [I1 I2]; [by rewrite length_insert|]. split.
  - intros x [->|Hx]%elem_of_cons; [|by apply I1]. rewrite I2 by (by rewrite Z2Nat.id by lia). apply list_lookup_insert_eq. lia.
  - intros j [Hj Hj']%not_elem_of_cons. rewrite I2 by done. apply list_lookup_insert_ne. lia.
Qed.

Lemma max_id_bound l x : x ∈ l -> x <= foldr Z.max (-1) l.
Proof. induction l as [|y l IH]; [by intros ?%elem_of_nil|]. intros [->|Hx]%elem_of_cons; simpl; [lia|]. apply IH in Hx. lia. Qed.

(** The table of tokens holds the vocabulary and the added tokens, in different places. *)
Record placed (items : list (list Z * Z)) (occupied : list Z) (tokens : list (list Z)) (added : list AddedToken) : Prop := {
  placed_vocab : forall x, x ∈ items -> tokens !! Z.to_nat x.2 = Some x.1 /\ x.2 ∈ occupied;
  placed_added : forall a, a ∈ added -> tokens !! Z.to_nat (added_id a) = Some (content a) /\ (added_id a ∉ occupied) /\ 0 <= added_id a;
  placed_occupied : Forall (fun id => 0 <= id) occupied;
}.

Lemma load_vocab_spec items vocab : load_vocab items = Ok vocab -> token_to_id vocab = items /\ placed items (occupied_ids vocab) (id_to_token vocab) [].
Proof.
  unfold load_vocab. case_bool_decide; [done|]. cbn [throw_if mbind res_bind]. destruct (vocab_ids items []) as [occupied|] eqn:E; [|done]. cbn [mbind res_bind]. intros [= <-].
  apply vocab_ids_spec in E as (-> & Hn & H0). rewrite app_nil_r. simpl. split; [done|]. assert (forall x, x ∈ items -> x.2 ∈ reverse (items.*2)) as Hin by (intros x Hx; apply elem_of_reverse; by apply list_elem_of_fmap_2).
  rewrite Forall_forall in H0. split.
  - intros x Hx. split; [|by apply Hin]. apply vocab_tokens_lookup; [done| |done]. apply Forall_forall. intros y Hy. rewrite length_replicate.
    pose proof (max_id_bound _ _ (Hin y Hy)). destruct (H0 y Hy). lia.
  - intros a ?%elem_of_nil. done.
  - apply Forall_reverse, Forall_fmap, Forall_forall. intros x Hx. by destruct (H0 x Hx).
Qed.

Lemma resize_lookup index l j : l !! j ≠ None -> resize_for index l !! j = l !! j.
Proof. intros Hj. unfold resize_for. destruct (l !! j) as [x|] eqn:E; [|done]. by apply lookup_app_l_Some. Qed.

Lemma resize_length index l : (index < length (resize_for index l))%nat.
Proof. unfold resize_for. rewrite length_app, length_replicate. lia. Qed.

Lemma placed_more items occupied tokens added a : placed items occupied tokens added -> added_id a ∉ occupied -> added_id a ∉ added_id <$> added -> 0 <= added_id a ->
  placed items occupied (<[Z.to_nat (added_id a) := content a]> (resize_for (Z.to_nat (added_id a)) tokens)) (added ++ [a]).
Proof.
  intros [P1 P2 P3] Hv Ha H0. split; [| |done].
  - intros x Hx. destruct (P1 x Hx) as [E Ho]. split; [|done]. rewrite Forall_forall in P3. pose proof (P3 _ Ho) as Hx0. rewrite list_lookup_insert_ne.
    + rewrite resize_lookup by (by rewrite E). done.
    + intros E'. apply Z2Nat.inj in E'; [|done|done]. congruence.
  - intros b [Hb| ->%list_elem_of_singleton]%elem_of_app; [|split_and!; [apply list_lookup_insert_eq, resize_length|done|done]].
    destruct (P2 b Hb) as (E & Ho & Hb0). split_and!; [|done|done]. rewrite list_lookup_insert_ne; [rewrite resize_lookup by (by rewrite E); done|].
    intros E'. apply Z2Nat.inj in E'; [|done|done]. apply Ha. rewrite E'. by apply list_elem_of_fmap_2.
Qed.

Lemma load_added_spec items vocab added : forall tokens done_ tokens' added', placed items (occupied_ids vocab) tokens done_ -> load_added_loop added vocab tokens done_ = Ok (tokens', added') ->
  placed items (occupied_ids vocab) tokens' added'.
Proof.
  induction added as [|a added IH]; intros tokens done_ tokens' added' Hp E; cbn [load_added_loop] in E; [by injection E as <- <-|]. res_inv E.
  match goal with Hx : parse_token_id _ = Ok _ |- _ => apply parse_token_id_Ok in Hx as [-> ?] end.
  repeat match goal with Hx : bool_decide _ = false |- _ => apply bool_decide_eq_false_1 in Hx end. eapply IH; [|exact E]. by apply placed_more.
Qed.

Lemma merge_decoder_spec items vocab decoder : forall seen tokens done_ tokens' added', placed items (occupied_ids vocab) tokens done_ ->
  merge_decoder_loop decoder seen vocab tokens done_ = Ok (tokens', added') -> placed items (occupied_ids vocab) tokens' added'.
Proof.
  induction decoder as [|a decoder IH]; intros seen tokens done_ tokens' added' Hp E; cbn [merge_decoder_loop] in E; [by injection E as <- <-|]. res_inv E.
  match goal with Hx : parse_token_id _ = Ok _ |- _ => apply parse_token_id_Ok in Hx as [-> ?] end.
  destruct (list_find _ done_) as [[k x]|] eqn:Ef; res_inv E; [by eapply IH|].
  repeat match goal with Hx : bool_decide _ = false |- _ => apply bool_decide_eq_false_1 in Hx end. eapply IH; [|exact E]. apply placed_more; [done|done| |done].
  apply list_find_None in Ef. rewrite Forall_forall in Ef. intros (x & E' & Hx)%list_elem_of_fmap. by apply (Ef x Hx).
Qed.

Lemma merge_added_spec items vocab decoder loaded loaded' : placed items (occupied_ids vocab) loaded.1 loaded.2 -> merge_added_tokens_decoder decoder vocab loaded = Ok loaded' ->
  placed items (occupied_ids vocab) loaded'.1 loaded'.2.
Proof.
  intros Hp E. unfold merge_added_tokens_decoder in E. destruct (merge_decoder_loop _ _ _ _ _) as [[tokens added]|] eqn:El; [|done]. cbn [mbind res_bind fst snd] in E. injection E as <-.
  apply (merge_decoder_spec items) in El as [P1 P2 P3]; [|done]. split; [done| |done]. intros a Ha. apply P2. simpl in Ha. by rewrite merge_sort_Permutation in Ha.
Qed.

(** ** Tables of chunks

    Both tables are the chunks, joined, and the offset of each. *)
Fixpoint sums (begin : nat) (chunks : list (list Z)) : list nat :=
  begin :: match chunks with [] => [] | x :: chunks => sums (begin + length x) chunks end.

Lemma sums_lookup chunks : forall begin i, (i <= length chunks)%nat -> sums begin chunks !! i = Some (begin + length (mjoin (take i chunks)))%nat.
Proof.
  induction chunks as [|x chunks IH]; intros begin [|i] Hi; simpl in *; [by rewrite Nat.add_0_r|lia|by rewrite Nat.add_0_r|]. rewrite IH by lia.
  f_equal. rewrite length_app. lia.
Qed.

Lemma sums_length begin chunks : length (sums begin chunks) = S (length chunks).
Proof. revert begin. induction chunks as [|x chunks IH]; intros begin; [done|]. simpl. by rewrite IH. Qed.

Lemma chunk_at (chunks : list (list Z)) i x : chunks !! i = Some x -> let at_ := length (mjoin (take i chunks)) in
  length (mjoin (take (S i) chunks)) = (at_ + length x)%nat /\ take (length x) (drop at_ (mjoin chunks)) = x /\ (at_ + length x <= length (mjoin chunks))%nat.
Proof.
  intros Hx. cbv zeta. assert (mjoin (take (S i) chunks) = mjoin (take i chunks) ++ x) as E1.
  { rewrite (take_S_r _ _ _ Hx), join_app. simpl. by rewrite app_nil_r. }
  assert (mjoin chunks = mjoin (take i chunks) ++ x ++ mjoin (drop (S i) chunks)) as E2.
  { rewrite <-(take_drop_middle _ _ _ Hx) at 1. by rewrite join_app. }
  rewrite E1, E2, !length_app. split_and!; [done| |lia]. by rewrite drop_app_length, take_app_length.
Qed.

Section Tables.
Context {U : Utf8proc} {M : Utf8procText}.

Lemma emit_table_spec vocab symbols : forall begin out, emit_table vocab symbols begin = Ok out ->
  exists chunks, out.1 = mjoin chunks /\ begin :: out.2 = sums begin chunks /\ Forall2 (fun x chunk => emit_of vocab x.1 x.2 = Ok chunk) symbols chunks.
Proof.
  induction symbols as [|[symbol vocab_id] symbols IH]; intros begin out E; cbn [emit_table] in E; [injection E as <-; by exists []|]. res_inv E. injection E as <-.
  match goal with Hy : emit_table _ _ _ = Ok _ |- _ => apply IH in Hy as (chunks & E1 & E2 & E3) end. eexists (_ :: chunks). simpl. rewrite E1. split_and!; [done| |by constructor].
  by rewrite <-E2.
Qed.

Lemma decode_table_spec tokens : forall begin out, decode_table tokens begin = Ok out ->
  exists chunks, out.1 = mjoin chunks /\ out.2 ++ [(begin + length out.1)%nat] = sums begin chunks /\ Forall2 (fun x chunk => decode_of x.1.1 x.1.2 x.2 = Ok chunk) tokens chunks.
Proof.
  induction tokens as [|[[valid added] token] tokens IH]; intros begin out E; cbn [decode_table] in E; [injection E as <-; exists []; simpl; by rewrite Nat.add_0_r|]. res_inv E. injection E as <-.
  match goal with Hy : decode_table _ _ = Ok _ |- _ => apply IH in Hy as (chunks & E1 & E2 & E3) end. eexists (_ :: chunks). simpl. rewrite E1. split_and!; [done| |by constructor].
  rewrite <-E2, E1, length_app, Nat.add_assoc. done.
Qed.

End Tables.

(** ** The symbols of the bytes *)
Definition codepoint_in (alphabet : list (Z * Z)) (byte : Z) : Z := default 0 ((fun x => x.2) <$> alphabet !! Z.to_nat byte).

Definition codepoint_of (byte : Z) : Z := codepoint_in byte_alphabet byte.

(** A byte is at its place, with a code point of at most two bytes that stands for it
    only. *)
Definition alphabet_check (alphabet : list (Z * Z)) (byte : Z) : bool :=
  match alphabet !! Z.to_nat byte with
  | Some (b, cp) => (b =? byte) && (0 <=? cp) && (cp <? 2048) && match list_find (fun x => x.2 = cp) alphabet with Some (_, x) => x.1 =? byte | None => false end
  | None => false
  end.

Lemma alphabet_check_spec alphabet byte : alphabet_check alphabet byte = true -> let cp := codepoint_in alphabet byte in
  alphabet !! Z.to_nat byte = Some (byte, cp) /\ 0 <= cp < 2048 /\ (fun x => x.2.1) <$> list_find (fun x => x.2 = cp) alphabet = Some byte.
Proof.
  unfold alphabet_check, codepoint_in. destruct (alphabet !! Z.to_nat byte) as [[b cp]|]; [|done]. cbn. intros [[[->%Z.eqb_eq H1%Z.leb_le]%andb_prop H2%Z.ltb_lt]%andb_prop H3]%andb_prop.
  split_and!; [done|done|done|]. destruct (list_find _ alphabet) as [[k x]|]; [|done]. apply Z.eqb_eq in H3. cbn. by f_equal.
Qed.

Lemma alphabet_checked : forallb (alphabet_check byte_alphabet) (seqZ 0 256) = true.
Proof. vm_compute. reflexivity. Qed.

Lemma alphabet_byte byte : 0 <= byte < 256 ->
  byte_alphabet !! Z.to_nat byte = Some (byte, codepoint_of byte) /\ 0 <= codepoint_of byte < 2048 /\ decode_codepoint (codepoint_of byte) = Some byte.
Proof.
  intros Hb. apply alphabet_check_spec. pose proof alphabet_checked as Hall. rewrite forallb_forall in Hall. apply Hall. apply list_elem_of_In, elem_of_seqZ. lia.
Qed.

(** What utf8proc documents: it reads back the characters that it writes. *)
Definition utf8proc_inverse {U : Utf8proc} {M : Utf8procText} : Prop := forall cp, 0 <= cp < 2048 -> exists bytes, utf8proc_encode_char cp = Some bytes /\ bytes ≠ [] /\
  forall rest, utf8proc_iterate (bytes ++ rest) = (Z.of_nat (length bytes), cp).

Section Symbols.
Context {U : Utf8proc} {M : Utf8procText}.

(** The symbol of a byte. *)
Definition byte_symbol (byte : Z) : list Z := default [] (utf8proc_encode_char (codepoint_of byte)).

Definition spell (bytes : list Z) : list Z := mjoin (byte_symbol <$> bytes).

Hypothesis inverse : utf8proc_inverse.

Lemma byte_symbol_spec byte : 0 <= byte < 256 -> utf8proc_encode_char (codepoint_of byte) = Some (byte_symbol byte) /\ byte_symbol byte ≠ [] /\
  forall rest, utf8proc_iterate (byte_symbol byte ++ rest) = (Z.of_nat (length (byte_symbol byte)), codepoint_of byte).
Proof.
  intros Hb. destruct (alphabet_byte byte Hb) as (_ & Hc & _). destruct (inverse _ Hc) as (bytes & E & Hne & Hi). unfold byte_symbol. rewrite E. done.
Qed.

Fixpoint spelled_spans (offset : nat) (bytes : list Z) : list CodepointSpan :=
  match bytes with
  | [] => []
  | byte :: bytes => MkSpan (codepoint_of byte) offset (length (byte_symbol byte)) :: spelled_spans (offset + length (byte_symbol byte)) bytes
  end.

Lemma spelled_codepoints bytes : Forall (fun b => 0 <= b < 256) bytes -> forall fuel offset, (length (spell bytes) <= fuel)%nat ->
  codepoints_loop fuel offset (spell bytes) = Ok (spelled_spans offset bytes).
Proof.
  induction 1 as [|byte bytes Hb Hbs IH]; intros fuel offset Hf; [by destruct fuel|].
  destruct (byte_symbol_spec byte Hb) as (_ & Hne & Hi). change (spell (byte :: bytes)) with (byte_symbol byte ++ spell bytes) in *. rewrite length_app in Hf.
  assert (0 < length (byte_symbol byte))%nat as Hl by (destruct (byte_symbol byte); [done|simpl; lia]). destruct fuel as [|fuel]; [lia|].
  specialize (Hi (spell bytes)). pose proof (drop_app_length (byte_symbol byte) (spell bytes)) as Hd. cbn [spelled_spans]. destruct (byte_symbol byte ++ spell bytes) as [|b rest] eqn:E; [destruct (byte_symbol byte); done|].
  cbn [codepoints_loop]. rewrite Hi. destruct (Z.ltb_spec (Z.of_nat (length (byte_symbol byte))) 0); [lia|]. destruct (Z.eqb_spec (Z.of_nat (length (byte_symbol byte))) 0); [lia|].
  cbn [throw_if mbind res_bind]. rewrite Nat2Z.id, Hd, IH by lia. done.
Qed.

Lemma spelled_utf8 bytes : Forall (fun b => 0 <= b < 256) bytes -> utf8_codepoints (spell bytes) = Ok (spelled_spans 0 bytes).
Proof. intros Hb. unfold utf8_codepoints. by apply spelled_codepoints. Qed.

Lemma spelled_decode bytes offset : Forall (fun b => 0 <= b < 256) bytes -> decode_codepoints (spelled_spans offset bytes) = Ok bytes.
Proof.
  intros Hb. revert offset. induction Hb as [|byte bytes Hb Hbs IH]; intros offset; [done|]. cbn [spelled_spans decode_codepoints cp_value].
  destruct (alphabet_byte byte Hb) as (_ & _ & ->). rewrite IH. done.
Qed.

(** The bytes of a token that spells them. *)
Lemma decode_of_spelled bytes : Forall (fun b => 0 <= b < 256) bytes -> decode_of true false (spell bytes) = Ok bytes.
Proof. intros Hb. unfold decode_of. cbn [negb]. rewrite spelled_utf8 by done. by apply spelled_decode. Qed.

Lemma spelled_spans_length offset bytes : length (spelled_spans offset bytes) = length bytes.
Proof. revert offset. induction bytes as [|b bytes IH]; intros offset; [done|]. simpl. by rewrite IH. Qed.

Lemma spell_app a b : spell (a ++ b) = spell a ++ spell b.
Proof. unfold spell. by rewrite fmap_app, join_app. Qed.

(** The pieces of a spelling are the symbols of the bytes. *)
Lemma spelled_pieces {A} (f : list Z -> option A) before bytes :
  mapM (fun piece => f (take (cp_length piece) (drop (cp_offset piece) (spell (before ++ bytes))))) (spelled_spans (length (spell before)) bytes) = mapM (fun b => f (byte_symbol b)) bytes.
Proof.
  revert before. induction bytes as [|byte bytes IH]; intros before; [done|]. cbn [spelled_spans mapM cp_length cp_offset].
  specialize (IH (before ++ [byte])). rewrite <-app_assoc in IH. cbn [app] in IH. rewrite (spell_app before [byte]), length_app in IH.
  replace (length (spell [byte])) with (length (byte_symbol byte)) in IH by (unfold spell; simpl; by rewrite app_nil_r). rewrite IH.
  rewrite (spell_app before (byte :: bytes)), drop_app_length. change (spell (byte :: bytes)) with (byte_symbol byte ++ spell bytes). by rewrite take_app_length.
Qed.

End Symbols.

(** ** Interning *)
Definition named (str : list (list Z)) (id : Z) (symbol : list Z) : Prop := 0 <= id /\ str !! Z.to_nat id = Some symbol.

Lemma named_later str str' id symbol : named str id symbol -> str `prefix_of` str' -> named str' id symbol.
Proof. intros [H0 E] (more & ->). split; [done|]. by apply lookup_app_l_Some. Qed.

Section Interning.
Context {U : Utf8proc} {M : Utf8procText} (vocab : list (list Z * Z)).

Definition interns_ok (st : Interns) : Prop := intern_to_vocab st = (fun symbol => default (-1) (find_key symbol vocab)) <$> intern_str st.

Lemma intern_symbol_spec symbol st st' a : interns_ok st -> intern_symbol vocab symbol st = (st', a) ->
  interns_ok st' /\ intern_str st `prefix_of` intern_str st' /\ named (intern_str st') a symbol /\ (length (intern_str st') <= S (length (intern_str st)))%nat.
Proof.
  unfold intern_symbol. intros Hok. destruct (list_find _ _) as [[k x]|] eqn:E; intros [= <- <-].
  - apply list_find_Some in E as (E & -> & _). split_and!; [done|done|split; [lia|by rewrite Nat2Z.id]|lia].
  - simpl. split_and!; [|by eexists| |rewrite length_app; simpl; lia].
    + unfold interns_ok in *. simpl. by rewrite fmap_app, Hok.
    + split; [lia|]. rewrite Nat2Z.id, lookup_app_r, Nat.sub_diag by done. done.
Qed.

(** A pair and its result, by their symbols. *)
Definition pair_named (str : list (list Z)) (ranks : Z) (x : Z * Z * Z * Z) : Prop :=
  let '(a, b, c, rank) := x in rank < ranks /\ exists l r, named str a l /\ named str b r /\ named str c (l ++ r).

Lemma pair_named_later str str' ranks x : str `prefix_of` str' -> pair_named str ranks x -> pair_named str' ranks x.
Proof. destruct x as [[[a b] c] rank]. intros Hp (Hr & l & r & ? & ? & ?). split; [done|]. exists l, r. split_and!; by eapply named_later. Qed.

Lemma intern_merges_spec merges : forall rank st st' pairs, interns_ok st -> intern_merges vocab merges rank st = (st', pairs) ->
  interns_ok st' /\ intern_str st `prefix_of` intern_str st' /\ Forall (pair_named (intern_str st') (rank + Z.of_nat (length merges))) pairs /\ length pairs = length merges /\
  (length (intern_str st') <= length (intern_str st) + 3 * length merges)%nat.
Proof.
  induction merges as [|[l r] merges IH]; intros rank st st' pairs Hok; cbn [intern_merges]; [intros [= <- <-]; split_and!; [done|done|constructor|done|lia]|].
  destruct (intern_symbol vocab l st) as [st1 a] eqn:E1. destruct (intern_symbol vocab r st1) as [st2 b] eqn:E2. destruct (intern_symbol vocab (l ++ r) st2) as [st3 c] eqn:E3.
  destruct (intern_merges vocab merges (rank + 1) st3) as [st4 more] eqn:E4. intros [= <- <-].
  apply intern_symbol_spec in E1 as (O1 & P1 & N1 & L1); [|done]. apply intern_symbol_spec in E2 as (O2 & P2 & N2 & L2); [|done]. apply intern_symbol_spec in E3 as (O3 & P3 & N3 & L3); [|done].
  apply IH in E4 as (O4 & P4 & F4 & L4 & L4'); [|done]. simpl length. split_and!; [done| | |lia|lia].
  - repeat (etransitivity; [eassumption|]). done.
  - constructor; [|by replace (rank + Z.of_nat (S (length merges))) with (rank + 1 + Z.of_nat (length merges)) by lia]. split; [lia|]. exists l, r. split_and!.
    + eapply named_later; [exact N1|]. by etransitivity; [eassumption|etransitivity; [eassumption|]].
    + eapply named_later; [exact N2|]. by etransitivity; [eassumption|].
    + by eapply named_later.
Qed.

Lemma intern_bytes_spec alphabet : forall st out, interns_ok st -> intern_bytes vocab alphabet st = Ok out ->
  interns_ok out.1 /\ intern_str st `prefix_of` intern_str out.1 /\ (length (intern_str out.1) <= length (intern_str st) + length alphabet)%nat /\
  (forall i byte cp, alphabet !! i = Some (byte, cp) -> exists a symbol, out.2 !! i = Some a /\ utf8proc_encode_char cp = Some symbol /\ named (intern_str out.1) a symbol).
Proof.
  induction alphabet as [|[b0 cp0] alphabet IH]; intros st out Hok E; cbn [intern_bytes] in E; [injection E as <-; split_and!; [done|done|simpl; lia|done]|].
  unfold codepoint_to_utf8 in E. destruct (utf8proc_encode_char cp0) as [symbol|] eqn:Es; [|done]. cbn [mbind res_bind] in E.
  destruct (intern_symbol vocab symbol st) as [st1 a] eqn:E1. apply intern_symbol_spec in E1 as (O1 & P1 & N1 & L1); [|done].
  destruct (intern_bytes vocab alphabet st1) as [out1|] eqn:E2; [|done]. cbn [mbind res_bind] in E. injection E as <-. apply IH in E2 as (O2 & P2 & L2 & N2); [|done]. simpl.
  split_and!; [done|by etransitivity|lia|]. intros [|i] byte cp Hi; simpl in Hi; [injection Hi as -> ->; exists a, symbol; split_and!; [done|done|by eapply named_later]|by eapply N2].
Qed.

End Interning.

(** ** What the tables of a tokenizer say *)
Lemma flag_flags size p id : 0 <= id < Z.of_nat size -> flag_at (flags size p) id = p id.
Proof.
  intros Hi. unfold flag_at, flags. destruct (Z.leb_spec 0 id); [|lia]. rewrite list_lookup_fmap, lookup_seq_lt by lia. simpl. by rewrite Z2Nat.id by lia.
Qed.

Lemma emit_symbol_chunk chunks id y : 0 <= id -> chunks !! Z.to_nat id = Some y ->
  emit_symbol (mjoin chunks) (sums 0 chunks) id = if bool_decide (y = []) then Throw invalid_argument else Ok y.
Proof.
  intros H0 Hy. pose proof (lookup_lt_Some _ _ _ Hy) as Hl. destruct (chunk_at chunks _ y Hy) as (E1 & E2 & E3). unfold emit_symbol. rewrite sums_length, !sums_lookup by lia.
  cbn [default from_option]. unfold Datatypes.id. cbv beta. rewrite !Nat.add_0_l, E1. destruct (Z.ltb_spec id 0); [lia|]. destruct (Z.leb_spec (Z.of_nat (S (length chunks))) (id + 1)); [lia|]. cbn [orb throw_if mbind res_bind].
  destruct (Nat.ltb_spec (length (mjoin chunks)) (length (mjoin (take (Z.to_nat id) chunks)) + length y)); [lia|]. rewrite orb_false_r.
  set (at_ := length (mjoin (take (Z.to_nat id) chunks))) in *. case_bool_decide as Hy0.
  - subst y. rewrite Nat.add_0_r, Nat.leb_refl. done.
  - assert (0 < length y)%nat by (destruct y; [done|simpl; lia]). destruct (Nat.leb_spec (at_ + length y) at_); [lia|]. cbn [throw_if mbind res_bind]. f_equal.
    etransitivity; [|exact E2]. f_equal. lia.
Qed.

Lemma decode_token_chunk t chunks id y : decoded_bytes t = mjoin chunks -> decoded_offsets t = sums 0 chunks -> 0 <= id -> flag_at (valid_token_ids t) id = true -> chunks !! Z.to_nat id = Some y ->
  tokenizer_decode_token_bytes t id false = Ok y.
Proof.
  intros Eb Eo H0 Hv Hy. pose proof (lookup_lt_Some _ _ _ Hy) as Hl. destruct (chunk_at chunks _ y Hy) as (E1 & E2 & E3). unfold tokenizer_decode_token_bytes. cbn [andb].
  rewrite Hv, Eb, Eo, sums_length, !sums_lookup by lia. cbn [default from_option negb orb]. unfold Datatypes.id. cbv beta. destruct (Z.ltb_spec id 0); [lia|]. cbn [throw_if mbind res_bind].
  destruct (Nat.leb_spec (S (length chunks)) (S (Z.to_nat id))); [lia|]. cbn [throw_if mbind res_bind]. rewrite !Nat.add_0_l, E1.
  destruct (Nat.ltb_spec (length (mjoin (take (Z.to_nat id) chunks)) + length y) (length (mjoin (take (Z.to_nat id) chunks)))); [lia|].
  destruct (Nat.ltb_spec (length (mjoin chunks)) (length (mjoin (take (Z.to_nat id) chunks)) + length y)); [lia|]. cbn [orb throw_if mbind res_bind].
  set (at_ := length (mjoin (take (Z.to_nat id) chunks))) in *. replace (at_ + length y - at_)%nat with (length y) by lia. by rewrite E2.
Qed.

Record sound {U : Utf8proc} {M : Utf8procText} (t : TokenizerTables) (str : list (list Z)) (vocab : list (list Z * Z)) : Prop := {
  sound_pairs : forall a b slot, 0 <= a < 2 ^ 31 -> 0 <= b < 2 ^ 31 -> find_bpe_pair (bpe_pair_table t) a b = Some slot ->
    exists l r, named str a l /\ named str b r /\ named str (slot_result slot) (l ++ r);
  sound_ranks : ranks_small (bpe_pair_table t);
  sound_size : Z.of_nat (length str) < 2 ^ 31;
  sound_bytes : forall b, 0 <= b < 256 -> named str (byte_to_intern_id t b) (byte_symbol b);
  sound_emit : forall id symbol, named str id symbol -> exists y, emit_of vocab symbol (default (-1) (find_key symbol vocab)) = Ok y /\
    emit_symbol (intern_emit_ids t) (intern_emit_offsets t) id = if bool_decide (y = []) then Throw invalid_argument else Ok y;
  sound_vocab : forall x, x ∈ vocab -> 0 <= x.2 /\ tokenizer_decode_token_bytes t x.2 false = decode_of true false x.1;
  sound_added : forall a, a ∈ added_tokens t -> tokenizer_decode_token_bytes t (added_id a) false = Ok (content a);
  sound_trie : trie_built t;
  sound_merges : has_bpe_merges t = true;
}.

Section Make.
Context {U : Utf8proc} {M : Utf8procText}.

Lemma load_bpe_merges_length items merges : load_bpe_merges items = Ok merges -> length merges = length items.
Proof.
  revert merges. induction items as [|item items IH]; intros merges E; cbn [load_bpe_merges] in E; [by injection E as <-|]. res_inv E. injection E as <-. simpl. f_equal. by apply IH.
Qed.

(** The parts of a tokenizer that was made. *)
Lemma build_tokenizer_parts alphabet items added decoder merge_items eos t : build_tokenizer alphabet items added decoder merge_items eos = Ok t ->
  exists merges occupied tokens st pairs out emit decoded, placed items occupied tokens (added_tokens t) /\ length merges = length merge_items /\ intern_merges items merges 0 (MkInterns [] []) = (st, pairs) /\
    build_pair_table pairs = Ok (bpe_pair_table t) /\ intern_bytes items alphabet st = Ok out /\
    emit_table items (zip (intern_str out.1) (intern_to_vocab out.1)) 0 = Ok emit /\ intern_emit_ids t = emit.1 /\ intern_emit_offsets t = 0%nat :: emit.2 /\
    let is_added id := bool_decide (id ∈ added_id <$> added_tokens t) in
    valid_token_ids t = flags (length tokens) (fun id => bool_decide (id ∈ occupied) || is_added id) /\
    decode_table (zip (zip (valid_token_ids t) (flags (length tokens) is_added)) tokens) 0 = Ok decoded /\ decoded_bytes t = decoded.1 /\ decoded_offsets t = decoded.2 ++ [length decoded.1] /\
    (forall b, byte_to_intern_id t b = default (-1) (out.2 !! Z.to_nat b)) /\ trie_built t /\ has_bpe_merges t = true.
Proof.
  unfold build_tokenizer. destruct (load_vocab items) as [vocab|] eqn:Ev; [|done]. cbn [mbind res_bind]. apply load_vocab_spec in Ev as [Et Hp]. rewrite Et.
  destruct (load_added_tokens added vocab) as [[tokens1 added1]|] eqn:Ea; [|done]. cbn [mbind res_bind]. apply (load_added_spec items) in Ea; [|done].
  destruct (merge_added_tokens_decoder decoder vocab (tokens1, added1)) as [[tokens added2]|] eqn:Ed; [|done]. cbn [mbind res_bind]. apply (merge_added_spec items) in Ed; [|done]. simpl in Ed.
  destruct (load_bpe_merges merge_items) as [merges|] eqn:Eg; [|done]. apply load_bpe_merges_length in Eg. cbn [mbind res_bind].
  destruct (intern_merges items merges 0 (MkInterns [] [])) as [st pairs] eqn:Em. destruct (build_pair_table pairs) as [table|] eqn:Eb; [|done]. cbn [mbind res_bind].
  destruct (intern_bytes items alphabet st) as [out|] eqn:Ei; [|done]. cbn [mbind res_bind]. destruct (emit_table _ _ 0) as [emit|] eqn:Ee; [|done]. cbn [mbind res_bind].
  destruct (decode_table _ 0) as [decoded|] eqn:Edt; [|done]. cbn [mbind res_bind]. destruct (load_default_stop_token_ids eos); [|done]. cbn [mbind res_bind]. intros [= <-].
  exists merges, (occupied_ids vocab), tokens, st, pairs, out, emit, decoded. cbn [added_tokens bpe_pair_table intern_emit_ids intern_emit_offsets valid_token_ids decoded_bytes decoded_offsets byte_to_intern_id has_bpe_merges].
  split_and!; done.
Qed.

Lemma byte_alphabet_length : length byte_alphabet = 256%nat.
Proof. vm_compute. reflexivity. Qed.

(** The pairs of the merges are found with the symbols that they stand for. *)
Lemma pairs_found str ranks pairs table a b slot : Forall (pair_named str ranks) pairs -> Z.of_nat (length str) < 2 ^ 31 -> Z.of_nat (length pairs) < 2 ^ 62 -> build_pair_table pairs = Ok table ->
  0 <= a < 2 ^ 31 -> 0 <= b < 2 ^ 31 -> find_bpe_pair table a b = Some slot -> exists l r, named str a l /\ named str b r /\ named str (slot_result slot) (l ++ r).
Proof.
  intros Hp Hs Hl Hb Ha Hb' Hf. assert (Forall interned pairs) as Hi.
  { eapply Forall_impl; [exact Hp|]. intros [[[x y] c] rank] (_ & l & r & [H1 H2] & [H3 H4] & _). apply lookup_lt_Some in H2, H4. simpl. lia. }
  pose proof (build_pair_table_exact pairs Hi Hl) as He. rewrite Hb in He. destruct He as [_ He]. specialize (He a b Ha Hb'). rewrite Hf in He.
  rewrite Forall_forall in Hp. by destruct (Hp _ He) as (_ & ?).
Qed.

(** The decode table, by the token table. *)
Lemma decode_table_token t (occupied : list Z) tokens decoded (is_added : Z -> bool) id token :
  valid_token_ids t = flags (length tokens) (fun id => bool_decide (id ∈ occupied) || is_added id) ->
  decode_table (zip (zip (valid_token_ids t) (flags (length tokens) is_added)) tokens) 0 = Ok decoded -> decoded_bytes t = decoded.1 -> decoded_offsets t = decoded.2 ++ [length decoded.1] ->
  0 <= id -> tokens !! Z.to_nat id = Some token -> (id ∈ occupied \/ is_added id = true) ->
  tokenizer_decode_token_bytes t id false = decode_of true (is_added id) token.
Proof.
  intros Ev Hd Eb Eo H0 Ht Hv. pose proof (lookup_lt_Some _ _ _ Ht) as Hl. apply decode_table_spec in Hd as (chunks & E1 & E2 & E3). rewrite Nat.add_0_l in E2.
  assert (forall p, flags (length tokens) p !! Z.to_nat id = Some (p id)) as Hflag by (intros p; unfold flags; rewrite list_lookup_fmap, lookup_seq_lt by lia; simpl; by rewrite Z2Nat.id).
  assert (bool_decide (id ∈ occupied) || is_added id = true) as Hv' by (destruct Hv as [Hv|Hv]; [by rewrite bool_decide_eq_true_2|by rewrite Hv, orb_true_r]).
  assert (zip (zip (valid_token_ids t) (flags (length tokens) is_added)) tokens !! Z.to_nat id = Some (true, is_added id, token)) as Hz.
  { apply lookup_zip_with_Some. exists (true, is_added id), token. split_and!; [done| |done]. apply lookup_zip_with_Some. exists true, (is_added id). rewrite Ev, !Hflag, Hv'. done. }
  destruct (Forall2_lookup_l _ _ _ _ _ E3 Hz) as (y & Hy & E). cbn [fst snd] in E. rewrite E. apply (decode_token_chunk t chunks); [by rewrite Eb|by rewrite Eo|done| |done].
  rewrite Ev, flag_flags by lia. done.
Qed.

Lemma make_sound items added decoder merge_items eos t : utf8proc_inverse -> make_tokenizer items added decoder merge_items eos = Ok t -> Z.of_nat (length merge_items) < 2 ^ 28 ->
  exists str, sound t str items.
Proof.
  intros Hinv Hm Hl. apply build_tokenizer_parts in Hm as (merges & occupied & tokens & st & pairs & out & emit & decoded & Hp & Eg & Em & Eb & Ei & Ee & Eids & Eoff & Ev & Edt & Edb & Edo & Ebyte & Htrie & Hmerges).
  assert (interns_ok items (MkInterns [] [])) as O0 by done. apply intern_merges_spec in Em as (O1 & _ & F1 & L1 & L1'); [|done]. simpl in L1'.
  apply intern_bytes_spec in Ei as (O2 & P2 & L2 & N2); [|done]. rewrite byte_alphabet_length in L2. set (str := intern_str out.1) in *.
  assert (Forall (pair_named str (Z.of_nat (length merges))) pairs) as F2 by (eapply Forall_impl; [exact F1|]; intros x Hx; by eapply pair_named_later).
  apply emit_table_spec in Ee as (chunks & C1 & C2 & C3). rewrite O2 in C3. fold str in C3. exists str. split; [| | | | | | |done|done].
  - intros a b slot Ha Hb Hf. eapply (pairs_found str); [exact F2|lia|rewrite L1; lia|exact Eb|done|done|done].
  - eapply build_pair_table_ranks; [|exact Eb]. eapply Forall_impl; [exact F2|]. intros [[[x y] c] rank] [Hr _]. simpl. unfold i32_max_rank. lia.
  - lia.
  - intros b Hb. destruct (alphabet_byte b Hb) as (Ha & _). destruct (N2 _ _ _ Ha) as (a & symbol & E1 & E2 & E3). rewrite Ebyte, E1.
    destruct (byte_symbol_spec Hinv b Hb) as (Es & _). assert (symbol = byte_symbol b) as -> by congruence. done.
  - intros id symbol [H0 Hs]. assert (zip str ((fun symbol => default (-1) (find_key symbol items)) <$> str) !! Z.to_nat id = Some (symbol, default (-1) (find_key symbol items))) as Hz.
    { apply lookup_zip_with_Some. exists symbol, (default (-1) (find_key symbol items)). by rewrite list_lookup_fmap, Hs. }
    destruct (Forall2_lookup_l _ _ _ _ _ C3 Hz) as (y & Hy & E). exists y. split; [done|]. rewrite Eids, Eoff, C1, C2. by apply emit_symbol_chunk.
  - intros x Hx. destruct Hp as [Q1 Q2 Q3]. destruct (Q1 x Hx) as [Et Ho]. rewrite Forall_forall in Q3. split; [by apply Q3|].
    erewrite decode_table_token; [|exact Ev|exact Edt|done|done|by apply Q3|exact Et|by left]. cbv beta. rewrite bool_decide_eq_false_2; [done|].
    intros (a & Ea & Ha)%list_elem_of_fmap. destruct (Q2 a Ha) as (_ & Hn & _). congruence.
  - intros a Ha. destruct Hp as [Q1 Q2 Q3]. destruct (Q2 a Ha) as (Et & Hn & H0). assert (bool_decide (added_id a ∈ added_id <$> added_tokens t) = true) as Hin by (apply bool_decide_eq_true_2; by apply list_elem_of_fmap_2).
    erewrite decode_table_token; [|exact Ev|exact Edt|done|done|done|exact Et|by right]. cbv beta. by rewrite Hin.
Qed.

End Make.

(** ** Words *)
Section Words.
Context {H : Heap} {L : HeapLaws} {U : Utf8proc} {M : Utf8procText} (t : TokenizerTables) (str : list (list Z)) (vocab : list (list Z * Z)).
Hypothesis inverse : utf8proc_inverse.
Hypothesis Hsound : sound t str vocab.

Definition byte_range (bytes : list Z) : Prop := Forall (fun b => 0 <= b < 256) bytes.

(** Symbols that spell parts of a word. *)
Definition spelled (syms : list Z) (parts : list (list Z)) : Prop := Forall2 (fun id bytes => bytes ≠ [] /\ named str id (spell bytes)) syms parts.

Lemma named_symbol id a b : named str id a -> named str id b -> a = b.
Proof. intros [_ E1] [_ E2]. congruence. Qed.

(** A merge joins two parts. *)
Lemma spelled_merge syms parts pos slot : spelled syms parts -> pair_at (bpe_pair_table t) syms pos = Some slot ->
  exists parts', spelled (merge_at pos (slot_result slot) syms) parts' /\ mjoin parts' = mjoin parts.
Proof.
  intros Hs (a & b & Ha & Hb & Hf)%pair_at_find. assert (syms = take pos syms ++ a :: b :: drop (pos + 2) syms) as E.
  { replace (pos + 2)%nat with (S (S pos)) by lia. rewrite <-(drop_S _ _ _ Hb), <-(drop_S _ _ _ Ha). by rewrite take_drop. }
  unfold merge_at. set (A := take pos syms) in *. set (B := drop (pos + 2) syms) in *. unfold spelled in Hs. rewrite E in Hs.
  apply Forall2_app_inv_l in Hs as (pA & rest & HA & Hrest & ->). apply Forall2_cons_inv_l in Hrest as (pa & rest1 & [Ha0 Hna] & Hrest & ->).
  apply Forall2_cons_inv_l in Hrest as (pb & pB & [Hb0 Hnb] & HB & ->). pose proof (sound_size _ _ _ Hsound) as Hsize.
  destruct (sound_pairs _ _ _ Hsound a b slot) as (l & r & Hl & Hr & Hx); [| |done|].
  { destruct Hna as [? E1%lookup_lt_Some]. lia. } { destruct Hnb as [? E1%lookup_lt_Some]. lia. }
  rewrite (named_symbol _ _ _ Hl Hna), (named_symbol _ _ _ Hr Hnb), <-spell_app in Hx. exists (pA ++ (pa ++ pb) :: pB). split.
  - apply Forall2_app; [done|]. constructor; [|done]. split; [by destruct pa|done].
  - rewrite !join_app. simpl. by rewrite <-(app_assoc pa).
Qed.

Lemma spelled_bpe fuel : forall syms parts, spelled syms parts -> exists parts', spelled (bpe (bpe_pair_table t) fuel syms) parts' /\ mjoin parts' = mjoin parts.
Proof.
  induction fuel as [|fuel IH]; intros syms parts Hs; [by exists parts|]. cbn [bpe]. pose proof (best_pair_spec (bpe_pair_table t) syms) as Hb.
  destruct (best_pair (bpe_pair_table t) syms) as [[pos slot]|]; [|by exists parts]. destruct Hb as [Hp _]. destruct (spelled_merge _ _ _ _ Hs Hp) as (parts1 & Hs1 & E1).
  destruct (IH _ _ Hs1) as (parts2 & Hs2 & E2). exists parts2. by rewrite E2.
Qed.

Lemma decode_all_app a b : decode_all t (a ++ b) false = (x ← decode_all t a false; y ← decode_all t b false; Ok (x ++ y)).
Proof.
  induction a as [|id a IH]; cbn [app decode_all]; [by destruct (decode_all t b false)|]. rewrite IH. destruct (tokenizer_decode_token_bytes t id false); [|done]. cbn [mbind res_bind].
  destruct (decode_all t a false); [|done]. cbn [mbind res_bind]. destruct (decode_all t b false); [|done]. cbn [mbind res_bind]. by rewrite app_assoc.
Qed.

(** The bytes whose symbols are tokens. *)
Definition in_vocab (byte : Z) : Prop := is_Some (find_key (byte_symbol byte) vocab).

Lemma find_key_in key id : find_key key vocab = Some id -> (key, id) ∈ vocab.
Proof.
  unfold find_key. destruct (list_find _ vocab) as [[k [x v]]|] eqn:E; [|done]. intros [= <-]. apply list_find_Some in E as (E & <- & _). by eapply list_elem_of_lookup_2.
Qed.

Lemma decode_vocab bytes id : byte_range bytes -> find_key (spell bytes) vocab = Some id -> 0 <= id /\ tokenizer_decode_token_bytes t id false = Ok bytes.
Proof. intros Hb Hk%find_key_in. destruct (sound_vocab _ _ _ Hsound _ Hk) as [H0 E]. simpl in *. split; [done|]. rewrite E. by apply decode_of_spelled. Qed.

Lemma decode_byte_tokens bytes : byte_range bytes -> Forall in_vocab bytes -> exists ids, mapM (fun b => find_key (byte_symbol b) vocab) bytes = Some ids /\ decode_all t ids false = Ok bytes /\ length ids = length bytes.
Proof.
  intros Hb. induction 1 as [|b bytes [id Hid] Hv IH]; [by exists []|]. apply Forall_cons in Hb as [Hb0 Hb]. destruct (IH Hb) as (ids & E1 & E2 & E3). exists (id :: ids).
  cbn [mapM]. rewrite Hid, E1. split_and!; [done| |simpl; lia]. destruct (decode_vocab [b] id) as [_ E]; [by constructor|unfold spell; simpl; by rewrite app_nil_r|]. cbn [decode_all]. by rewrite E, E2.
Qed.

(** A symbol is emitted as tokens that spell it. *)
Lemma emit_spelled id bytes : bytes ≠ [] -> byte_range bytes -> Forall in_vocab bytes -> named str id (spell bytes) ->
  exists ids, emit_symbol (intern_emit_ids t) (intern_emit_offsets t) id = Ok ids /\ decode_all t ids false = Ok bytes.
Proof.
  intros Hne Hb Hv Hn. destruct (sound_emit _ _ _ Hsound id (spell bytes) Hn) as (y & Ey & ->). unfold emit_of in Ey. destruct (find_key (spell bytes) vocab) as [v|] eqn:Ek; simpl in Ey.
  - destruct (decode_vocab bytes v Hb Ek) as [H0 Ed]. destruct (Z.leb_spec 0 v); [|lia]. injection Ey as <-. exists [v]. split; [done|]. cbn [decode_all]. rewrite Ed. cbn [mbind res_bind]. by rewrite app_nil_r.
  - rewrite spelled_utf8 in Ey by done. cbn [mbind res_bind] in Ey. destruct (decode_byte_tokens bytes Hb Hv) as (ids & E1 & E2 & E3).
    rewrite spelled_spans_length in Ey. destruct (Nat.ltb_spec 1 (length bytes)) as [Hlen|Hlen].
    + injection Ey as <-. pose proof (spelled_pieces (fun symbol => find_key symbol vocab) [] bytes) as Hp. cbn [app] in Hp. change (length (spell [])) with 0%nat in Hp.
      rewrite Hp, E1. simpl. exists ids. rewrite bool_decide_eq_false_2; [done|]. destruct ids; [simpl in E3; lia|done].
    + destruct bytes as [|b0 [|b1 bytes]]; [done| |simpl in Hlen; lia]. apply Forall_cons in Hv as [[v Hv] _]. unfold spell in Ek. simpl in Ek. rewrite app_nil_r in Ek. congruence.
Qed.

Lemma emit_all_spelled syms parts : spelled syms parts -> Forall byte_range parts -> Forall (Forall in_vocab) parts ->
  exists ids, emit_all (intern_emit_ids t) (intern_emit_offsets t) syms = Ok ids /\ decode_all t ids false = Ok (mjoin parts).
Proof.
  induction 1 as [|id bytes syms parts [Hne Hn] Hs IH]; intros Hb Hv; [by exists []|]. apply Forall_cons in Hb as [Hb0 Hb]. apply Forall_cons in Hv as [Hv0 Hv].
  destruct (emit_spelled id bytes Hne Hb0 Hv0 Hn) as (x & E1 & E2). destruct (IH Hb Hv) as (y & E3 & E4). exists (x ++ y). cbn [emit_all]. rewrite E1, E3, decode_all_app, E2, E4. done.
Qed.

Lemma Forall_mjoin {A} (P : A -> Prop) (parts : list (list A)) : Forall P (mjoin parts) <-> Forall (Forall P) parts.
Proof. induction parts as [|x parts IH]; simpl; [split; constructor|]. rewrite Forall_app, Forall_cons, IH. done. Qed.

(** A word is encoded, as tokens that decode to it. *)
Lemma word_decodes word : byte_range word -> Forall in_vocab word ->
  exists ids, append_bpe_word (bpe_pair_table t) (byte_to_intern_id t) (intern_emit_ids t) (intern_emit_offsets t) word = Ok ids /\ decode_all t ids false = Ok word.
Proof.
  intros Hb Hv. rewrite (bpe_word_merge _ _ _ _ word (sound_ranks _ _ _ Hsound)). assert (spelled (byte_to_intern_id t <$> word) ((fun b => [b]) <$> word)) as Hs.
  { apply Forall2_fmap. apply Forall_Forall2_diag. eapply Forall_impl; [exact Hb|]. intros b Hb0. split; [done|]. unfold spell. simpl. rewrite app_nil_r. by apply (sound_bytes _ _ _ Hsound). }
  rewrite decide_True by (eapply Forall_impl; [exact Hb|]; intros b Hb0; apply (sound_bytes _ _ _ Hsound b Hb0)).
  destruct (spelled_bpe (length (byte_to_intern_id t <$> word)) _ _ Hs) as (parts & Hp & E). assert (mjoin ((fun b => [b]) <$> word) = word) as Ew by (clear; induction word as [|b word IH]; [done|]; rewrite fmap_cons; etransitivity; [|apply (f_equal (cons b) IH)]; done).
  rewrite Ew in E. destruct (emit_all_spelled _ _ Hp) as (ids & E1 & E2); [by apply Forall_mjoin; rewrite E|by apply Forall_mjoin; rewrite E|]. exists ids. split; [exact E1|]. by rewrite E2, E.
Qed.

Lemma words_decode words : Forall byte_range words -> Forall (Forall in_vocab) words -> exists ids, append_words t words = Ok ids /\ decode_all t ids false = Ok (mjoin words).
Proof.
  induction words as [|word words IH]; intros Hb Hv; [by exists []|]. apply Forall_cons in Hb as [Hb0 Hb]. apply Forall_cons in Hv as [Hv0 Hv].
  destruct (word_decodes word Hb0 Hv0) as (x & E1 & E2). destruct (IH Hb Hv) as (y & E3 & E4). exists (x ++ y). cbn [append_words]. rewrite E1, E3, decode_all_app, E2, E4. done.
Qed.

(** ** Texts *)
Lemma append_bpe_ids_decodes text nf words : text ≠ [] -> (if is_ascii text then Ok text else normalize_nfc text) = Ok nf -> for_each_qwen_word nf = Ok words -> mjoin words = nf ->
  byte_range nf -> Forall in_vocab nf -> exists ids, append_bpe_ids t text = Ok ids /\ decode_all t ids false = Ok nf.
Proof.
  intros Hne Hnf Hw Ej Hb Hv. unfold append_bpe_ids. rewrite bool_decide_eq_false_2, (sound_merges _ _ _ Hsound), Hnf by done. cbn [negb throw_if mbind res_bind]. rewrite Hw. cbn [mbind res_bind].
  rewrite <-Ej in Hb, Hv |- *. apply words_decode; by apply Forall_mjoin.
Qed.

Lemma ascii_is_ascii text : Forall (fun b => 0 <= b < 128) text -> is_ascii text = true.
Proof. intros Ha. unfold is_ascii. apply forallb_forall. intros b Hin%list_elem_of_In. rewrite Forall_forall in Ha. apply Z.ltb_lt. by apply Ha. Qed.

Lemma ascii_bytes text : Forall (fun b => 0 <= b < 128) text -> byte_range text.
Proof. intros Ha. eapply Forall_impl; [exact Ha|]. simpl. intros b Hb. lia. Qed.

Lemma ascii_ids_decode text : Forall (fun b => 0 <= b < 128) text -> Forall in_vocab text -> exists ids, append_bpe_ids t text = Ok ids /\ decode_all t ids false = Ok text.
Proof.
  intros Ha Hv. destruct (decide (text = [])) as [->|Hne]; [by exists []|]. pose proof (ascii_is_ascii _ Ha) as E.
  eapply append_bpe_ids_decodes; [done|by rewrite E|unfold for_each_qwen_word; by rewrite E| |by apply ascii_bytes|done].
  by destruct (ascii_words_tile (length text) text) as [Hj _].
Qed.

(** Every piece decodes to its bytes. *)
Lemma pieces_decode text spans pos ps : pieces (content <$> added_tokens t) text spans pos ps -> Forall (fun b => 0 <= b < 128) text -> Forall in_vocab text ->
  exists x, ids_of t text ps = Ok x /\ decode_all t x false = Ok (drop pos text).
Proof.
  intros Hp Ha Hv. assert (forall a n, exists ids, append_bpe_ids t (take n (drop a text)) = Ok ids /\ decode_all t ids false = Ok (take n (drop a text))) as Hgap.
  { intros a n. apply ascii_ids_decode; by apply Forall_take, Forall_drop. }
  induction Hp as [pos Hd|pos Hlt E|pos m k ps E Hm Hp IH|pos k c ps E Hc Hp IH].
  - exists []. by rewrite drop_ge.
  - destruct (Hgap pos (length text - pos)%nat) as (x & E1 & E2). exists x. cbn [ids_of piece_ids]. rewrite E1. cbn [mbind res_bind]. rewrite app_nil_r, E2. split; [done|].
    f_equal. apply take_ge. rewrite length_drop. lia.
  - destruct (Hgap pos (m - pos)%nat) as (x & E1 & E2). destruct IH as (y & E3 & E4). exists (x ++ y). cbn [ids_of piece_ids]. rewrite E1, E3, decode_all_app, E2, E4. split; [done|].
    cbn [mbind res_bind]. f_equal. rewrite <-(take_drop (m - pos) (drop pos text)) at 2. f_equal. rewrite drop_drop. f_equal. lia.
  - destruct IH as (y & E3 & E4). destruct (token_content _ _ _ Hc) as (token & Et & <-). exists (added_id token :: y). cbn [ids_of piece_ids]. rewrite Et, E3. split; [done|].
    cbn [decode_all]. rewrite (sound_added _ _ _ Hsound) by (by eapply list_elem_of_lookup_2). cbn [mbind res_bind]. rewrite E4. cbn [mbind res_bind]. f_equal. rewrite <-drop_drop.
    apply leftmost_some in E as (_ & _ & j & c & Ej & Hc' & (_ & (z & Ez) & _) & _). assert (j = k) as -> by lia. assert (c = content token) as -> by congruence. rewrite Ez. by rewrite drop_app_length.
Qed.

Lemma run_pieces_ids text n ps x : forall encoded, ids_of t text ps = Ok x -> exists e, run_pieces t text n ps encoded = Ok e /\ ids e = ids encoded ++ x.
Proof.
  assert (forall stop encoded, ids (mark_prefix n stop encoded) = ids encoded) as Hmark by (intros; unfold mark_prefix; destruct n; [|done]; destruct (prefix_tokens encoded); [done|]; by case_match).
  revert x. induction ps as [|p ps IH]; intros x encoded E; cbn [ids_of run_pieces] in *; [injection E as <-; exists encoded; by rewrite app_nil_r|].
  destruct (piece_ids t text p) as [a|]; [|done]. cbn [mbind res_bind] in *. destruct (ids_of t text ps) as [b|]; [|done]. injection E as <-.
  destruct (IH b (mark_prefix n (stop p) (append encoded a)) eq_refl) as (e & -> & E). exists e. split; [done|]. rewrite E, Hmark. simpl. by rewrite app_assoc.
Qed.

Lemma encode_ids_decode text n parse spans : Forall (fun b => 0 <= b < 128) text -> Forall in_vocab text -> (parse = true -> validate_literal_spans text spans = Ok tt) ->
  exists e, encode t text n parse spans = Ok e /\ decode_all t (ids e) false = Ok text.
Proof.
  intros Ha Hv Hs. destruct (decide (text = [])) as [->|Hne]; [by exists (MkEncoded [] None)|]. destruct parse.
  - destruct (pieces_total (content <$> added_tokens t) text spans 0) as (ps & Hps). rewrite (encode_pieces _ _ _ _ ps (sound_trie _ _ _ Hsound)) by done. rewrite Hs by done. cbn [mbind res_bind].
    destruct (pieces_decode _ _ _ _ Hps Ha Hv) as (x & E1 & E2). destruct (run_pieces_ids text n ps x (mark_prefix n 0 (MkEncoded [] None)) E1) as (e & -> & E). exists e. split; [done|].
    assert (ids (mark_prefix n 0 (MkEncoded [] None)) = []) as E0 by (unfold mark_prefix; destruct n as [[|]|]; done). by rewrite E, E0.
  - unfold encode. rewrite bool_decide_eq_false_2 by done. cbn [negb]. destruct (ascii_ids_decode text Ha Hv) as (x & -> & E). cbn [mbind res_bind]. eexists. split; [done|].
    unfold mark_prefix, append. destruct n as [[|n]|]; simpl; [|case_match|]; done.
Qed.

Lemma decode_plain tokens text spans : decode_all t tokens false = Ok text -> utf8_codepoints text = Ok spans -> decode t tokens false [] = Ok text.
Proof.
  intros E Eu. unfold decode. assert (match last tokens with Some id => bool_decide (id ∈ []) | None => false end = false) as -> by (by destruct (last tokens)).
  rewrite E. cbn [mbind res_bind]. by rewrite Eu.
Qed.

End Words.

(** C15: with tables that the constructor built, whose vocabulary has the symbols of the
    bytes of an ASCII text, [encode] encodes the text, whatever its added tokens, literal
    spans and prefix, and [decode] gives the text back. *)
Theorem encode_decode_exact {H : Heap} {L : HeapLaws} {U : Utf8proc} {M : Utf8procText} items added decoder merge_items eos t text n parse spans :
  utf8proc_ascii -> utf8proc_inverse -> make_tokenizer items added decoder merge_items eos = Ok t -> Z.of_nat (length merge_items) < 2 ^ 28 ->
  Forall (fun b => 0 <= b < 128) text -> Forall (fun b => is_Some (find_key (byte_symbol b) items)) text -> (parse = true -> validate_literal_spans text spans = Ok tt) ->
  exists e, encode t text n parse spans = Ok e /\ decode t (ids e) false [] = Ok text.
Proof.
  intros Hu Hinv Hm Hl Ha Hv Hs. destruct (make_sound _ _ _ _ _ _ Hinv Hm Hl) as (str & Hsound).
  destruct (encode_ids_decode t str items Hinv Hsound text n parse spans Ha Hv Hs) as (e & E1 & E2). exists e. split; [done|]. eapply decode_plain; [done|by apply ascii_utf8_codepoints].
Qed.

(** Without added tokens, any text is decoded to its normal form, when utf8proc gives one
    that is UTF-8. *)
Theorem normalized_decode_exact {H : Heap} {L : HeapLaws} {U : Utf8proc} {M : Utf8procText} items added decoder merge_items eos t text nf spans n :
  iterates_inside -> utf8proc_inverse -> make_tokenizer items added decoder merge_items eos = Ok t -> Z.of_nat (length merge_items) < 2 ^ 28 ->
  is_ascii text = false -> utf8proc_map text = Some nf -> utf8_codepoints nf = Ok spans -> Forall (fun b => 0 <= b < 256) nf -> Forall (fun b => is_Some (find_key (byte_symbol b) items)) nf ->
  exists e, encode t text n false [] = Ok e /\ decode t (ids e) false [] = Ok nf.
Proof.
  intros Hi Hinv Hm Hl Ha Hnf Hsp Hb Hv. destruct (make_sound _ _ _ _ _ _ Hinv Hm Hl) as (str & Hsound). assert (text ≠ []) as Hne by (by intros ->).
  assert (exists words, for_each_qwen_word nf = Ok words) as (words & Hw) by (unfold for_each_qwen_word, for_each_unicode_qwen_word; rewrite Hsp; destruct (is_ascii nf); by eexists).
  destruct (append_bpe_ids_decodes t str items Hinv Hsound text nf words) as (x & E1 & E2); [done|rewrite Ha; unfold normalize_nfc; by rewrite Hnf|done|by apply qwen_words_tile|done|done|].
  unfold encode. rewrite bool_decide_eq_false_2 by done. cbn [negb]. rewrite E1. cbn [mbind res_bind]. eexists. split; [done|]. eapply decode_plain; [|done].
  unfold mark_prefix, append. destruct n as [[|n]|]; simpl; [|case_match|]; done.
Qed.

(** ** A tokenizer

    The letters of [abc] and the angle brackets are tokens, and [ab] is one by a merge; the
    text is [ab<a>c]. *)
#[local] Existing Instances demo_utf8proc demo_utf8proc_text list_heap list_heap_laws.

Definition demo_items : list (list Z * Z) := [([97], 0); ([98], 1); ([99], 2); ([97; 98], 3); ([60], 4); ([62], 5)].

Definition demo_tokenizer : TokenizerTables := match make_tokenizer demo_items demo_added [] [MergeString [97; 32; 98]] (EosInteger 8) with Ok t => t | Throw _ => demo_tables end.

Lemma demo_inverse : utf8proc_inverse.
Proof.
  intros cp Hcp. cbn [utf8proc_encode_char utf8proc_iterate demo_utf8proc demo_utf8proc_text]. destruct (Z.ltb_spec cp 128); [exists [cp]; split_and!; [done|done|]; intros rest; simpl; destruct (Z.ltb_spec cp 128); [done|lia]|].
  destruct (Z.ltb_spec cp 2048); [|lia]. eexists. split_and!; [done|done|]. intros rest. simpl. pose proof (Z.div_le_lower_bound cp 64 2 ltac:(lia) ltac:(lia)). destruct (Z.ltb_spec (192 + cp / 64) 128); [lia|].
  f_equal. rewrite (Z.div_mod cp 64) at 3 by lia. lia.
Qed.

Lemma demo_builds : match make_tokenizer demo_items demo_added [] [MergeString [97; 32; 98]] (EosInteger 8) with Ok _ => true | Throw _ => false end = true.
Proof. vm_compute. reflexivity. Qed.

Lemma demo_tokenizer_made : make_tokenizer demo_items demo_added [] [MergeString [97; 32; 98]] (EosInteger 8) = Ok demo_tokenizer.
Proof. pose proof demo_builds as E. unfold demo_tokenizer. by destruct (make_tokenizer _ _ _ _ _). Qed.

Lemma encode_decode_exact_witness : exists e, encode demo_tokenizer [97; 98; 60; 97; 62; 99] None true [MkByteSpan 0 2] = Ok e /\ decode demo_tokenizer (ids e) false [] = Ok [97; 98; 60; 97; 62; 99].
Proof.
  apply (encode_decode_exact demo_items demo_added [] [MergeString [97; 32; 98]] (EosInteger 8)).
  - apply demo_ascii.
  - apply demo_inverse.
  - apply demo_tokenizer_made.
  - simpl. lia.
  - repeat constructor; lia.
  - repeat constructor; vm_compute; eexists; reflexivity.
  - intros _. reflexivity.
Defined.
